(* ===== verification/_CoqProject ===== *)
-Q . S2P
Prelude.v
Text.v
Dfs.v
ReleaseTypes.v
Blueprint.v
Ledger.v
Orchestrator.v
ReleaseSpec.v
ReleaseInv.v
ReleaseProps.v
Refinement.v
OrchestratorReads.v
EventLog.v
Engine.v
ReleaseScenario.v
ReleaseTheorems.v
Executor.v
ExecutorProps.v
ExecutorTheorems.v
EffectCapabilities.v
ReadCapabilities.v
CapabilityRegistry.v
CampaignWorld.v
CampaignLedger.v
CampaignRecords.v
CampaignSteps.v
CampaignInv.v
CampaignCoordinator.v
CampaignDispatch.v
CampaignVerified.v
CampaignLease.v
LeaseProtocol.v
CampaignClaims.v
CampaignScenario.v
CampaignTheorems.v
JsMap.v
BrowserTasks.v
BrowserTaskProps.v
BrowserTaskRuns.v
BrowserGrants.v
BrowserIdempotency.v
BrowserQueue.v
BrowserTheorems.v
GatewayOperations.v
GatewayScopes.v
GatewayTheorems.v
Confirmations.v
MutationReceipts.v
ReceiptStores.v
SourceControl.v
SourceControlProps.v
SourceControlRuns.v
SourceControlTheorems.v
BackgroundLogs.v
BackgroundTasks.v
BackgroundTaskSlots.v
BackgroundTaskSteps.v
BackgroundTaskRuns.v
BackgroundTaskExclusive.v
BackgroundTaskLaunches.v
BackgroundTaskTheorems.v
NodePath.v
FileTree.v
WorkspacePolicies.v
PathSecurity.v
TextFiles.v
FileService.v
Discovery.v
WorkspaceFileTheorems.v
Search.v
PolicyMerge.v
Async.v
OwnerOAuth.v
OwnerOAuthProps.v
OwnerOAuthScenario.v
OwnerOAuthTheorems.v
EdgeAccounts.v
EdgeAccountProps.v
EdgeAccountTheorems.v
