(* ===== verification/Prelude.v ===== *)
(** * Verification of the MCP access stack

    The repository is a TypeScript monorepo whose services let an assistant act on a
    workspace, on a browser and on releases.  This library models the parts of it
    that decide what may happen, when, and at most how often, and proves what they
    guarantee.  Each definition is translated from the code it models and evaluates;
    theorems are about those definitions.

    ** The modelled parts and their files

    _Release orchestrator_, services/oracle-release-orchestrator/src.  An engine
    (engine/release-orchestrator.ts) keeps release runs in an SQLite ledger
    (storage/): steps with dependencies, attempts, health gates, evidence, an event
    log and an audit log.  A workflow executor (release-workflow-executor.ts) drives
    one run over capabilities (release-*-capabilit*.ts) that start, observe and
    reconcile effects outside.
    - [ReleaseTypes], [Text], [Blueprint], [Dfs]: data, string patterns, canonical
      JSON, blueprint validation and its cycle search (workflows/).
    - [Ledger], [Orchestrator], [OrchestratorReads]: the tables with their constraints
      and transactions, one definition per engine method, and the paginated queries.
    - [ReleaseSpec], [ReleaseInv], [ReleaseProps]: the abstract release machine, a
      step relation on runs, with its invariant, permanence and progress.
    - [Refinement], [EventLog], [Engine]: every engine command performs transitions of
      the abstract machine or changes nothing; executions with failures and restarts.
    - [ReleaseScenario], [ReleaseTheorems]: concrete executions and the theorems.
    - [Executor], [ExecutorProps], [ExecutorTheorems]: the executor over an engine
      that other callers command at the same time.
    - [EffectCapabilities], [ReadCapabilities], [CapabilityRegistry]: the capabilities
      over typed ports of the host, and their composition.

    _Delegated campaigns_, services/workspace-agent/src/campaign.  A ledger persists
    an authorised plan as a JSON file; a coordinator runs its tasks over typed
    capabilities; a run lease on lock files keeps coordinators apart; resource claims
    reserve workspaces.
    - [CampaignWorld]: the files, locks and the interfaces [CampaignHost] and
      [RunLease] the parts are proved against.
    - [CampaignLedger], [CampaignRecords], [CampaignSteps], [CampaignInv]: the ledger,
      its parser, what one operation does to the files, the invariant and history.
    - [CampaignCoordinator], [CampaignDispatch], [CampaignVerified]: the run loop and
      what it may dispatch.
    - [CampaignLease], [LeaseProtocol], [CampaignClaims]: the lease of one call, the
      interleaving of many processes over one lock file with crashes, the claims.
    - [CampaignScenario], [CampaignTheorems]: a concrete campaign and the theorems.

    _Browser worker registries_, services/browser-worker.
    - [JsMap]: a JavaScript [Map].
    - [BrowserTasks], [BrowserTaskProps], [BrowserTaskRuns]: the registry of browser
      tasks (domain/browser-task-registry.ts), its elementary changes, and sequences
      of operations of all owners.
    - [BrowserGrants]: confirmations and grants of private sites
      (domain/browser-site-grant-registry.ts) over histories.
    - [BrowserIdempotency]: one execution per key
      (services/browser-idempotency-registry.ts).
    - [BrowserQueue]: the interleaving of queued operations
      (services/browser-operation-queue.ts).
    - [BrowserTheorems]: the theorems with concrete runs.

    _Operation registry of the gateway_, services/mcp-gateway/src.
    - [GatewayOperations]: pending and active operations and their cancellation
      (mcp/operation-registry.ts), histories of calls.
    - [GatewayScopes]: the principal and scope keys, and the POST handler of app.ts up
      to the dispatch of the request.
    - [GatewayTheorems]: the theorems with concrete requests.

    _Source-control mutations_, packages/mcp-core/src and
    services/workspace-agent/src.
    - [Confirmations]: single-use confirmations of typed operations and shell commands
      (typed-confirmation.ts, shell/confirmation.ts).
    - [MutationReceipts]: the receipt of a mutation, its states and its parser
      (mutation-receipts.ts).
    - [ReceiptStores]: the store in memory and the store in files
      (source-control/file-mutation-receipt-store.ts), and that they agree.
    - [SourceControl]: the capability and branch checks, the arguments digest, the
      fifteen git and GitHub tools of local-agent.ts with what each checks first, and
      [executeSourceControlMutation] as a step relation over all their calls, failures
      and restarts.
    - [SourceControlProps], [SourceControlRuns], [SourceControlTheorems]: the
      invariant, its preservation, a concrete run and the theorems.

    _Background tasks_, services/workspace-agent/src/tasks/background-task-manager.ts.
    - [BackgroundLogs]: the reading of a growing log in chunks of whole characters.
    - [BackgroundTasks]: the manager with all its calls, interleaved at their awaits:
      starts, executions, cancellations, inputs, listings, file writes, retention and
      restarts.
    - [BackgroundTaskSlots], [BackgroundTaskSteps], [BackgroundTaskRuns],
      [BackgroundTaskExclusive], [BackgroundTaskLaunches]: the queue of starts, what
      one turn changes, histories, one active task per command, one launch and one
      announcement per task, retention.
    - [BackgroundTaskTheorems]: the theorems with concrete runs.

    _Workspace files_, services/workspace-agent/src and packages/mcp-core/src.
    - [NodePath], [FileTree]: the path functions of Node on POSIX paths; a tree with
      directories, files and links, path resolution, and a file system that other
      processes change between two calls.
    - [WorkspacePolicies]: the schema of a policy, globs and the permission table
      (policy.ts, permission-profile.ts).
    - [PathSecurity]: normalisation and authorisation of paths and the registry of
      workspaces (path-security.ts, workspace-registry.ts).
    - [TextFiles], [FileService]: encodings, line endings and replacements; reading,
      writing and patching (filesystem/).
    - [Discovery], [Search]: the bounded walk and listing; the search of lines, on
      texts of UTF-16 code units with the host's case mapping.
    - [WorkspaceFileTheorems]: the theorems on files with a concrete workspace.
    - [PolicyMerge]: the merge of explicit and discovered workspaces and the catalog
      (policy-merge.ts, project-write-policy.ts, workspace-catalog.ts).

    _Owner OAuth server_, packages/mcp-owner-auth/src.
    - [Async]: handlers that await, their interleaving, and the logic [wp] that proves
      an invariant for every interleaving.
    - [OwnerOAuth]: client registration, authorization with the owner's password and
      PKCE, tokens, revocation, rotation of the password, the check of bearer tokens;
      the accounts are the interface [OwnerIdentityStore].
    - [OwnerOAuthProps]: the invariant that ties codes and tokens to authorizations,
      and what a whole handler does when it runs alone.
    - [OwnerOAuthScenario], [OwnerOAuthTheorems]: a concrete server and the theorems.

    _Edge account store_,
    services/mcp-edge-gateway/src/control-plane/account-store.ts.
    - [EdgeAccounts]: users, repositories, devices and materializations, the migration
      of the single user, the reconciliation of a device.
    - [EdgeAccountProps]: lists of identifiers and records agree ([indexed], [tidy]),
      for every operation its callers may make ([op_ok]); how devices age, for every
      operation on any input.
    - [EdgeAccountTheorems]: the theorems with a concrete store; the store discharges
      [OwnerIdentityStore], and the owner of the OAuth server is its single user.

    ** How code becomes definitions

    A synchronous stretch of TypeScript is a program of the state-and-exception monad
    [io] below: explicit state, an error as a value, a throw that keeps the state
    reached.  What the code takes from outside src/ (SHA-256, HMAC, UUIDs, the clock,
    the path functions of Node, minimatch, iconv, ports and capabilities of the host)
    is a parameter, a type class or a section variable; what is assumed of it is a
    hypothesis of the theorem that needs it, and concrete instances witness it.  Code
    with [await]s that interleave is a step relation whose steps are the stretches
    between two of them ([Executor], [LeaseProtocol], [BrowserQueue], [SourceControl],
    [BackgroundTasks]), or a [task] of [Async] whose turns are those stretches
    ([OwnerOAuth]).  Error codes are modelled, messages are not.  A time stamp is the
    instant it denotes, except in [EdgeAccounts], which only stores it.  Strings are
    sequences of code units of one byte, since the patterns of the code only accept
    ASCII; [Search], which looks at arbitrary texts, has lists of UTF-16 code units.

    What happened is kept in a log where a theorem speaks about it: the events of
    [SourceControl] and [OwnerOAuth], the calls of [Executor] and [CampaignWorld].  The
    log changes nothing the code does; [au_begun] and [au_ended] of an authorization
    are positions in it.

    Assumptions a reader should know.  Releases: blueprints are those the validation
    accepts, which lets two steps measure one gate; what then fails to hold of that gate
    is said in the theorems ([measured_once]) and shown by
    [second_measurement_reopens_gate].  Executor: the calls of [advance] and [poll] for a
    run follow one another, as the trusted host makes them, while other callers command
    the engine at every await.  Lease: the one race of a recovery with a release and a
    new run is the exception [strays] of the exclusion theorem.  Background tasks: file operations succeed and
    stored records satisfy their schema; theorems on cancellation assume that the pid
    of a process is reported before its task can be cancelled, where they say so.
    Files: native paths are POSIX paths; a theorem on reads holds whatever other
    processes do between two file operations, the theorems on writes, patches and
    listings are for a tree that others leave alone; a listing is of a workspace whose
    root path is in normal form and whose roots are in place.  OAuth: access and revocation are
    proved for every interleaving; single use and rotation for one request at a time,
    and [code_redeemed_twice] and [rotation_race_keeps_session] show that interleaving
    breaks them; random tokens do not repeat.  Accounts: operations one at a time, and
    [op_ok] says what the callers must keep to for the store to stay consistent; that a
    revoked device stays revoked needs no such condition.

    Recursion that is not structural is bounded by fuel that is shown to be enough:
    the cycle search takes one more than the number of nodes ([Dfs]), the promise
    chain of the queue the number of calls ([BrowserQueue.first_settled]), the walk of
    a workspace its budget of directories ([Discovery.walkDirectory]); the loops of
    [Executor.advance] and [CampaignCoordinator.run] are bounded by the step budget of
    the source.

    ** What the theorems show

    - Release engine: it refines the abstract machine; reachable ledgers are
      well formed; steps start only after their dependencies and gates; recorded
      history is permanent; a failed command changes nothing; recovery resolves every
      interrupted operation; runs with work left have a ready step; a succeeded run is
      complete; a passed gate is backed by evidence; the event log has no holes;
      creation is idempotent; blueprint validation accepts exactly the well-formed
      acyclic blueprints; paging lists all evidence once.
    - Executor and capabilities: a step is dispatched again only after its earlier
      attempts were reconciled as not applied; every dispatch was authorised; an
      [advance] call stays within its budget; an effect is reported applied only with
      its own receipt.
    - Campaigns: each task is executed at most once across runs, crashes and lost
      replies; at most one process executes under a run lease and a live owner keeps it,
      but for the race above; the persisted records satisfy their invariant and read
      back; a task is completed only when its own operation was confirmed, in that run,
      by its capability; workspace reservations are exclusive.
    - Browser: owners are isolated; closed tasks stay closed; the tab index is
      consistent; leased tasks do not expire; private-site grants come from authorised
      operations and confirmations are used once; an idempotency key executes once per
      lifetime; calls on a tab are serialised in order even with aborts, the
      concurrency bound holds and no wake-up is lost.
    - Gateway: a cancellation reaches the operation it names whether it comes before
      or after the operation begins; nothing but a cancellation of its own scope or a
      shutdown aborts an operation; an operation key has one live operation; requests
      share a cancellation scope only with the same principal and session.
    - Source control: the backend of a mutation is called at most once per key over
      concurrent calls, lost files and restarts, only for a tool call the policy grants
      and, where required, a confirmed one; replays return what it returned; the two stores agree; confirmations are used
      once, and a confirmed call is accepted; parsed receipts are well formed and hold
      no sensitive field.
    - Background tasks: one active task per command; a command is launched and its end
      announced at most once; a cancellation answers with an ended task; owners are
      isolated; the log reader returns every byte once.
    - Workspace files: what is read lies inside the canonical workspace and an allowed
      root and is not blocked, whatever other processes do; writes stay inside; a patch
      replaces exactly the announced occurrences; a listing holds exactly the allowed
      files within the budgets; a search finds exactly the matching lines; a merged
      policy exposes no denied or untrusted workspace; the catalog keeps its last good
      snapshot.
    - OAuth server: access needs the owner's password; tokens are bound to the
      authorization they come from; a revoked token is refused; grants are used once;
      rotating the password ends the refresh tokens; the whole flow completes.
    - Accounts: the store stays consistent; the migration moves every record and is
      idempotent; reconciliation is exact; a revoked device stays revoked; the owner
      is the single user, also after a migration.

    Lemmas that show a defect carry it in their name: [failed_gate_run_resumes],
    [run_can_be_stranded], [second_reconciliation_conflicts],
    [second_measurement_reopens_gate], [recovery_removes_live_lock],
    [reordered_plan_is_unreadable], [unbounded_proof_is_unreadable],
    [column_is_not_a_position],
    [principal_key_ambiguous], [untrimmed_key_resets_receipt],
    [late_pid_revives_cancelled_task], [write_escapes_the_workspace],
    [write_reaches_a_blocked_path], [linked_root_lists_nothing],
    [odd_name_fails_the_listing], [denied_path_is_exposed], [code_redeemed_twice],
    [rotation_race_keeps_session], [code_survives_rotation],
    [rebinding_strands_materialization], [full_repository_leaks].

    ** What is not modelled

    HTTP servers, the transport of the gateways and of the edge worker with its
    sockets, process and shell tools, the Playwright drivers and page services,
    deployment scripts and generated manifests: they are input and output around the
    modelled state, or calls into libraries.  The opening of the database file,
    pragmas and the migration runner of the ledger are file input and output.  The
    metadata documents and the page of the OAuth server have no effect.  Also left
    out: the deletion of files and of directories in the file service, the browser
    session and tab registries, the navigation cache and the authorised-site policies,
    the contexts the gateway builds from three abort signals, the risk classification
    of shell commands and the campaign supervisor.

    ** This file

    The monad with its inversion lemmas and the tactics [run_inv] and [bool_inv], the
    table operations (rows as lists) and the generic list lemmas the parts share. *)

From stdpp Require Export base list strings gmap sorting pretty.

#[global] Arguments Nat.ltb : simpl never.
#[global] Arguments Nat.leb : simpl never.
#[global] Arguments Nat.eqb : simpl never.

Declare Scope io_scope.
Delimit Scope io_scope with io.

(** ** Outcomes and the state-and-exception monad

    The code under [src/] is synchronous TypeScript inside one transaction (or
    one turn of the event loop): it reads and writes some state and may throw.
    [io S E A] is such a computation over a state [S] that returns an [A] or
    throws an [E]; a throw keeps the state reached so far, undoing effects is
    the business of the code that catches (see [Ledger.transaction]). *)

Inductive outcome (E A : Type) : Type :=
| Ok (a : A)
| Err (e : E).
Arguments Ok {E A} a.
Arguments Err {E A} e.

#[global] Instance outcome_ret E : MRet (outcome E) := λ A a, Ok a.
#[global] Instance outcome_bind E : MBind (outcome E) := λ A B k m,
  match m with Ok a => k a | Err e => Err e end.

(** [if (!b) throw e] in code without state. *)
Definition check {E} (e : E) (b : bool) : outcome E unit :=
  if b then Ok tt else Err e.

(** [for (const x of l) f(acc, x)] in code without state. *)
Fixpoint fold_outcome {E A B} (f : A → B → outcome E A) (a : A) (l : list B) : outcome E A :=
  match l with
  | [] => Ok a
  | x :: l => a' ← f a x; fold_outcome f a' l
  end.

Lemma outcome_bind_Ok {E A B} (m : outcome E A) (k : A → outcome E B) b :
  m ≫= k = Ok b ↔ ∃ a, m = Ok a ∧ k a = Ok b.
Proof. destruct m; cbn; naive_solver. Qed.

Lemma Ok_inj {E A} (a b : A) : (Ok a : outcome E A) = Ok b → a = b.
Proof. by intros [= ->]. Qed.

Lemma check_Ok {E} (e : E) b u : check e b = Ok u ↔ b = true.
Proof. destruct b, u; cbn; naive_solver. Qed.

(** [first ?? second] *)
Definition or_else {A} (first second : option A) : option A :=
  match first with Some _ => first | None => second end.

Definition io (S E A : Type) : Type := S → outcome E A * S.

Section io.
Context {S E : Type}.

#[global] Instance io_ret : MRet (io S E) := λ A a s, (Ok a, s).
#[global] Instance io_bind : MBind (io S E) := λ A B k m s,
  match m s with
  | (Ok a, s') => k a s'
  | (Err e, s') => (Err e, s')
  end.

Definition throw {A} (e : E) : io S E A := λ s, (Err e, s).
Definition gets {A} (f : S → A) : io S E A := λ s, (Ok (f s), s).
Definition modify (f : S → S) : io S E unit := λ s, (Ok tt, f s).

(** [if (!b) throw e] *)
Definition require (b : bool) (e : E) : io S E unit :=
  if b then mret tt else throw e.

(** [const x = o; if (!x) throw e] *)
Definition require_some {A} (o : option A) (e : E) : io S E A :=
  match o with Some a => mret a | None => throw e end.

(** [for (const x of l) f(x)] *)
Fixpoint for_each {A} (f : A → io S E unit) (l : list A) : io S E unit :=
  match l with
  | [] => mret tt
  | x :: l => f x;; for_each f l
  end.

(** [const out = []; for (const x of l) out.push(f(x))] *)
Fixpoint for_collect {A B} (f : A → io S E B) (l : list A) : io S E (list B) :=
  match l with
  | [] => mret []
  | x :: l => y ← f x; ys ← for_collect f l; mret (y :: ys)
  end.

(** Inversion of successful runs: one lemma per combinator. *)
Lemma bind_Ok {A B} (m : io S E A) (k : A → io S E B) s b s'' :
  (m ≫= k) s = (Ok b, s'') ↔ ∃ a s', m s = (Ok a, s') ∧ k a s' = (Ok b, s'').
Proof.
  unfold mbind, io_bind. destruct (m s) as [[a|e] s'] eqn:Hm; split.
  - eauto.
  - intros (a' & s2 & [= <- <-] & ?). done.
  - done.
  - intros (? & ? & [=] & _).
Qed.

Lemma ret_Ok {A} (a b : A) s s' :
  (mret a : io S E A) s = (Ok b, s') ↔ a = b ∧ s = s'.
Proof. unfold mret, io_ret. naive_solver. Qed.

Lemma throw_Ok {A} (e : E) (b : A) s s' :
  (throw e : io S E A) s = (Ok b, s') ↔ False.
Proof. unfold throw. naive_solver. Qed.

Lemma gets_Ok {A} (f : S → A) b s s' :
  (gets f : io S E A) s = (Ok b, s') ↔ f s = b ∧ s = s'.
Proof. unfold gets. naive_solver. Qed.

Lemma modify_Ok (f : S → S) b s s' :
  (modify f : io S E unit) s = (Ok b, s') ↔ s' = f s.
Proof. unfold modify. destruct b. naive_solver. Qed.

Lemma require_Ok (c : bool) (e : E) b s s' :
  require c e s = (Ok b, s') ↔ c = true ∧ s = s'.
Proof. unfold require, throw, mret, io_ret. destruct c, b; naive_solver. Qed.

Lemma require_some_Ok {A} (o : option A) (e : E) b s s' :
  require_some o e s = (Ok b, s') ↔ o = Some b ∧ s = s'.
Proof. unfold require_some, throw, mret, io_ret. destruct o; naive_solver. Qed.

Lemma bind_run {A B} (m : io S E A) (k : A → io S E B) s a s' :
  m s = (Ok a, s') → (m ≫= k) s = k a s'.
Proof. unfold mbind, io_bind. by intros ->. Qed.

Lemma bind_Err {A B} (m : io S E A) (k : A → io S E B) s e s' :
  m s = (Err e, s') → (m ≫= k) s = (Err e, s').
Proof. unfold mbind, io_bind. by intros ->. Qed.

(** Inversion of failing runs. *)
Lemma bind_Err_inv {A B} (m : io S E A) (k : A → io S E B) s e s'' :
  (m ≫= k) s = (Err e, s'') ↔
  m s = (Err e, s'') ∨ ∃ a s', m s = (Ok a, s') ∧ k a s' = (Err e, s'').
Proof.
  unfold mbind, io_bind. destruct (m s) as [[a|e'] s'] eqn:Hm; naive_solver.
Qed.

Lemma require_Err (c : bool) (e e' : E) s s' :
  require c e s = (Err e', s') ↔ c = false ∧ e = e' ∧ s = s'.
Proof. unfold require, throw, mret, io_ret. destruct c; naive_solver. Qed.

Lemma require_some_Err {A} (o : option A) (e e' : E) s s' :
  require_some o e s = (Err e', s') ↔ o = None ∧ e = e' ∧ s = s'.
Proof. unfold require_some, throw, mret, io_ret. destruct o; naive_solver. Qed.

Lemma for_each_Err {A} (f : A → io S E unit) l s e s' :
  for_each f l s = (Err e, s') →
  ∃ l1 x l2 s1, l = l1 ++ x :: l2 ∧ for_each f l1 s = (Ok tt, s1) ∧ f x s1 = (Err e, s').
Proof.
  revert s. induction l as [|x l IH]; intros s H; [done|].
  cbn in H. apply bind_Err_inv in H as [H|([] & s1 & H1 & H2)].
  - by exists [], x, l, s.
  - destruct (IH _ H2) as (l1 & y & l2 & s2 & -> & Hl1 & Hy).
    exists (x :: l1), y, l2, s2. split_and!; [done| |done].
    cbn. apply bind_Ok. eauto.
Qed.

Lemma for_each_map {A B} (f : B → io S E unit) (g : A → B) l s :
  for_each f (map g l) s = for_each (λ x, f (g x)) l s.
Proof.
  revert s. induction l as [|x l IH]; intros s; [done|]. cbn.
  unfold mbind, io_bind. destruct (f (g x) s) as [[[]|e] s']; [apply IH|done].
Qed.

Lemma for_each_app {A} (f : A → io S E unit) l1 l2 s :
  for_each f (l1 ++ l2) s = (for_each f l1;; for_each f l2) s.
Proof.
  revert s. induction l1 as [|x l1 IH]; intros s; [done|]. cbn.
  unfold mbind, io_bind in *. destruct (f x s) as [[[]|e] s']; [|done].
  apply IH.
Qed.

(** A relation on states that every iteration respects is respected by the
    whole loop. *)
Lemma for_each_ind {A} (R : S → S → Prop) (f : A → io S E unit) l :
  (∀ s, R s s) → (∀ s1 s2 s3, R s1 s2 → R s2 s3 → R s1 s3) →
  (∀ x s s', x ∈ l → f x s = (Ok tt, s') → R s s') →
  ∀ s s', for_each f l s = (Ok tt, s') → R s s'.
Proof.
  intros Hr Ht. induction l as [|x l IH]; intros Hf s s' H; cbn in H.
  - apply ret_Ok in H as [_ ->]. apply Hr.
  - apply bind_Ok in H as ([] & s1 & H1 & H2).
    eapply Ht; [eapply Hf; [left|exact H1]|].
    eapply IH; [|exact H2]. intros y ?? Hy. apply Hf. by right.
Qed.
End io.

(** [run_inv] turns a hypothesis saying that a program returned into the
    equations its steps contribute, top to bottom. *)
Ltac run_inv1 :=
  match goal with
  | x : unit |- _ => destruct x
  | H : (_ ≫= _) _ = (Ok _, _) |- _ =>
      apply bind_Ok in H as (? & ? & ? & H); cbv beta in H
  | H : mret _ _ = (Ok _, _) |- _ => apply ret_Ok in H as [? ?]; subst
  | H : throw _ _ = (Ok _, _) |- _ => apply throw_Ok in H; destruct H
  | H : gets _ _ = (Ok _, _) |- _ => apply gets_Ok in H as [? ?]; subst
  | H : modify _ _ = (Ok _, _) |- _ => apply modify_Ok in H; subst
  | H : require _ _ _ = (Ok _, _) |- _ => apply require_Ok in H as [? ?]; subst
  | H : require_some _ _ _ = (Ok _, _) |- _ =>
      apply require_some_Ok in H as [? ?]; subst
  | H : mret _ _ = (Err _, _) |- _ => discriminate H
  | H : gets _ _ = (Err _, _) |- _ => discriminate H
  | H : modify _ _ = (Err _, _) |- _ => discriminate H
  | H : require _ _ _ = (Err _, _) |- _ => apply require_Err in H as (? & ? & ?); subst
  | H : require_some _ _ _ = (Err _, _) |- _ =>
      apply require_some_Err in H as (? & ? & ?); subst
  end.
Ltac run_inv := repeat run_inv1.

(** ** Booleans *)

(** [bool_inv] splits boolean hypotheses into their atoms. *)
Ltac bool_inv1 :=
  match goal with
  | H : _ && _ = true |- _ => apply andb_true_iff in H as [? ?]
  | H : negb _ = true |- _ => apply negb_true_iff in H
  | H : negb _ = false |- _ => apply negb_false_iff in H
  | H : _ || _ = false |- _ => apply orb_false_iff in H as [? ?]
  | H : bool_decide _ = true |- _ => apply bool_decide_eq_true in H
  | H : bool_decide _ = false |- _ => apply bool_decide_eq_false in H
  | H : (_ =? _)%string = true |- _ => apply String.eqb_eq in H
  | H : (_ =? _)%string = false |- _ => apply String.eqb_neq in H
  end.
Ltac bool_inv := repeat bool_inv1.

(** ** Lists of rows

    A database table is the list of its rows in insertion order. *)

(** [UPDATE t SET f WHERE p] *)
Definition update_where {R} (p : R → bool) (f : R → R) (t : list R) : list R :=
  map (λ r, if p r then f r else r) t.

(** [SELECT COUNT] of the rows satisfying [p]. *)
Definition count_where {R} (p : R → bool) (t : list R) : nat :=
  length (List.filter p t).

(** [ORDER BY]: a stable insertion sort; [before x y] when [x] may precede [y]. *)
Fixpoint insert_sorted {R} (before : R → R → bool) (x : R) (l : list R) : list R :=
  match l with
  | [] => [x]
  | y :: l' => if before x y then x :: l else y :: insert_sorted before x l'
  end.
Definition order_by {R} (before : R → R → bool) (l : list R) : list R :=
  foldr (insert_sorted before) [] l.

Lemma insert_sorted_perm {R} (before : R → R → bool) x l :
  Permutation (insert_sorted before x l) (x :: l).
Proof.
  induction l as [|y l IH]; cbn; [done|]. destruct (before x y); [done|].
  rewrite IH. apply perm_swap.
Qed.

Lemma order_by_perm {R} (before : R → R → bool) l : Permutation (order_by before l) l.
Proof.
  induction l as [|x l IH]; cbn; [done|]. by rewrite insert_sorted_perm, IH.
Qed.

Section rows.
Context {R : Type}.
Implicit Types (t : list R) (p q : R → bool) (f : R → R).

Lemma elem_of_update_where p f t r :
  r ∈ update_where p f t ↔ ∃ r0, r0 ∈ t ∧ r = if p r0 then f r0 else r0.
Proof.
  unfold update_where. rewrite list_elem_of_In, in_map_iff.
  setoid_rewrite <- list_elem_of_In. naive_solver.
Qed.

Lemma elem_of_update_where_in p f t r :
  r ∈ t → (if p r then f r else r) ∈ update_where p f t.
Proof. intros. apply elem_of_update_where. eauto. Qed.

Lemma length_update_where p f t : length (update_where p f t) = length t.
Proof. apply length_map. Qed.

(** An update that keeps a projection of the row keeps the column. *)
Lemma map_update_where {B} (g : R → B) p f t :
  (∀ r, r ∈ t → p r = true → g (f r) = g r) →
  map g (update_where p f t) = map g t.
Proof.
  induction t as [|r t IH]; intros H; [done|]. cbn. f_equal.
  - destruct (p r) eqn:?; [|done]. apply H; [left|done].
  - apply IH. intros. apply H; [by right|done].
Qed.

Lemma update_where_id p f t :
  (∀ r, r ∈ t → p r = false) → update_where p f t = t.
Proof.
  induction t as [|r t IH]; intros H; [done|]. cbn.
  rewrite (H r) by left. f_equal. apply IH. intros. apply H. by right.
Qed.

Lemma elem_of_rows_filter p t r : r ∈ List.filter p t ↔ r ∈ t ∧ p r = true.
Proof. rewrite !list_elem_of_In. apply filter_In. Qed.

Lemma filter_update_where p f q t :
  (∀ r, r ∈ t → p r = true → q (f r) = q r) →
  List.filter q (update_where p f t) = update_where p f (List.filter q t).
Proof.
  unfold update_where. induction t as [|r t IH]; intros H; [done|]. cbn.
  rewrite IH by (intros; apply H; [by right|done]).
  destruct (p r) eqn:Hp.
  - rewrite H by (done || left). destruct (q r); cbn; [by rewrite Hp|done].
  - destruct (q r); cbn; [by rewrite Hp|done].
Qed.

Lemma filter_all p t : (∀ x, x ∈ t → p x = true) → List.filter p t = t.
Proof.
  induction t as [|x t IH]; intros Hp; [done|]. cbn. rewrite Hp by left.
  f_equal. apply IH. intros. apply Hp. by right.
Qed.
Lemma filter_none p t : (∀ x, x ∈ t → p x = false) → List.filter p t = [].
Proof.
  induction t as [|x t IH]; intros Hp; [done|]. cbn. rewrite Hp by left.
  apply IH. intros. apply Hp. by right.
Qed.

Lemma find_Some_elem p t r : List.find p t = Some r → r ∈ t ∧ p r = true.
Proof. rewrite list_elem_of_In. apply List.find_some. Qed.

Lemma find_None_elem p t r : List.find p t = None → r ∈ t → p r = false.
Proof. rewrite list_elem_of_In. intros H. by apply (List.find_none _ _ H). Qed.

Lemma find_is_Some p t r : r ∈ t → p r = true → ∃ r', List.find p t = Some r'.
Proof.
  intros Hr Hp. destruct (List.find p t) eqn:Hf; [eauto|].
  by rewrite (find_None_elem _ _ _ Hf Hr) in Hp.
Qed.

Lemma count_where_0 p t : count_where p t = 0 ↔ ∀ r, r ∈ t → p r = false.
Proof.
  unfold count_where. rewrite length_zero_iff_nil. split.
  - intros Hn r Hr. destruct (p r) eqn:Hp; [|done].
    assert (r ∈ List.filter p t) as H by (by apply elem_of_rows_filter).
    rewrite Hn in H. by apply not_elem_of_nil in H.
  - intros H. induction t as [|r t IH]; [done|]. cbn.
    rewrite (H r) by left. apply IH. intros. apply H. by right.
Qed.

(** Rows with distinct keys are determined by their key. *)
Lemma NoDup_key_inj {K} (g : R → K) t r1 r2 :
  NoDup (map g t) → r1 ∈ t → r2 ∈ t → g r1 = g r2 → r1 = r2.
Proof.
  induction t as [|r t IH]; cbn; [by intros _ ?%not_elem_of_nil|].
  rewrite NoDup_cons, !elem_of_cons. intros [Hn Hd] [->|H1] [->|H2] Hg; try done.
  - destruct Hn. rewrite Hg, list_elem_of_In. apply in_map, list_elem_of_In, H2.
  - destruct Hn. rewrite <- Hg, list_elem_of_In. apply in_map, list_elem_of_In, H1.
  - by apply IH.
Qed.

Lemma NoDup_key_snoc {K} (g : R → K) t r :
  NoDup (map g t) → (∀ r', r' ∈ t → g r' ≠ g r) → NoDup (map g (t ++ [r])).
Proof.
  intros Hd Hf. rewrite map_app. apply NoDup_app. split_and!; [done| |].
  - intros x Hx Hx'. cbn in Hx'. apply list_elem_of_singleton in Hx' as ->.
    apply list_elem_of_In, in_map_iff in Hx as (r' & Hg & Hr').
    apply (Hf r'); [by apply list_elem_of_In|done].
  - cbn. apply NoDup_singleton.
Qed.

Lemma NoDup_key_filter {K} (g : R → K) p t :
  NoDup (map g t) → NoDup (map g (List.filter p t)).
Proof.
  induction t as [|r t IH]; cbn; [done|]. rewrite NoDup_cons. intros [Hn Hd].
  destruct (p r); [|by apply IH]. cbn. apply NoDup_cons. split; [|by apply IH].
  rewrite list_elem_of_In, in_map_iff in Hn |- *. intros (r' & Hg & Hin). apply Hn.
  exists r'. split; [done|]. by apply filter_In in Hin as [? _].
Qed.

Lemma elem_of_snoc t r r' : r' ∈ t ++ [r] ↔ r' ∈ t ∨ r' = r.
Proof. by rewrite elem_of_app, list_elem_of_singleton. Qed.
End rows.

(** ** Loops that check their elements *)

(** Folding a check that conses the visited key: the check held at each element
    with the keys before it. *)
Lemma fold_check_Ok {E B} (e : E) (key : B → string) (ok : list string → B → bool) l acc out :
  fold_outcome (λ acc x, check e (ok acc x);; Ok (key x :: acc)) acc l = Ok out ↔
  out = rev (map key l) ++ acc ∧
  ∀ l1 x l2, l = l1 ++ x :: l2 → ok (rev (map key l1) ++ acc) x = true.
Proof.
  revert acc. induction l as [|x l IH]; intros acc; cbn.
  - split; [intros [= <-]; split; [done|]|naive_solver]. intros l1 ? ? ?. by destruct l1.
  - rewrite outcome_bind_Ok. setoid_rewrite outcome_bind_Ok. setoid_rewrite check_Ok.
    split.
    + intros (a & (u & Hok & [= <-]) & Hf). apply IH in Hf as [-> Hl].
      split; [by rewrite <- app_assoc|].
      intros [|y l1] z l2 Heq; cbn in Heq; injection Heq as -> ->; [done|].
      cbn. rewrite <- app_assoc. by eapply Hl.
    + intros [-> Hl]. exists (key x :: acc). split.
      * exists tt. split; [|done]. by apply (Hl [] x l).
      * apply IH. split; [by rewrite <- app_assoc|].
        intros l1 y l2 ->. specialize (Hl (x :: l1) y l2 eq_refl). cbn in Hl.
        by rewrite <- app_assoc in Hl.
Qed.

Lemma fold_check_unit_Ok {E B} (e : E) (ok : B → bool) l u :
  fold_outcome (λ _ x, check e (ok x)) u l = Ok tt ↔ ∀ x, x ∈ l → ok x = true.
Proof.
  revert u. induction l as [|x l IH]; intros []; cbn.
  - split; [|done]. by intros _ ? ?%not_elem_of_nil.
  - rewrite outcome_bind_Ok. setoid_rewrite check_Ok. split.
    + intros ([] & Hx & Hl) y [->|Hy]%elem_of_cons; [done|]. by eapply IH.
    + intros Hl. exists tt. split; [apply Hl; left|]. apply IH. intros. apply Hl. by right.
Qed.

(** Distinctness checked one element at a time. *)
Lemma prefix_fresh_NoDup {B} (key : B → string) l :
  (∀ l1 x l2, l = l1 ++ x :: l2 → key x ∉ rev (map key l1)) ↔ NoDup (map key l).
Proof.
  induction l as [|x l IH] using rev_ind.
  { split; [intros _; constructor|]. intros _ l1 ? ? ?. by destruct l1. }
  rewrite map_app. cbn. rewrite NoDup_app, <- IH. split.
  - intros Hl. split_and!.
    + intros l1 y l2 ->. apply (Hl l1 y (l2 ++ [x])). by rewrite <- app_assoc.
    + intros k Hk ->%list_elem_of_singleton. eapply (Hl l x []); [done|].
      by rewrite list_elem_of_In, <- in_rev, <- list_elem_of_In.
    + apply NoDup_singleton.
  - intros (Hl & Hd & _) l1 y l2 Heq.
    destruct l2 as [|z l2 _] using rev_ind.
    + apply app_inj_tail in Heq as [<- <-].
      rewrite list_elem_of_In, <- in_rev, <- list_elem_of_In.
      intros Hin. apply (Hd _ Hin). left.
    + rewrite app_comm_cons, app_assoc in Heq. apply app_inj_tail in Heq as [-> _].
      by eapply Hl.
Qed.

Lemma elem_of_split_forall {B} (P : B → Prop) (l : list B) :
  (∀ l1 x l2, l = l1 ++ x :: l2 → P x) ↔ Forall P l.
Proof.
  rewrite Forall_forall. split.
  - intros H x (l1 & l2 & ->)%list_elem_of_split. by eapply H.
  - intros H l1 x l2 ->. apply H, elem_of_app. right. left.
Qed.

Lemma elem_of_rev {B} (x : B) l : x ∈ rev l ↔ x ∈ l.
Proof. by rewrite !list_elem_of_In, <- in_rev. Qed.

#[global] Arguments update_where : simpl never.

(** [find_inv as Hin Hp] reads a successful [List.find] hypothesis. *)
Tactic Notation "find_inv" "as" ident(Hin) ident(Hp) :=
  match goal with
  | Hf : List.find _ _ = Some _ |- _ => apply find_Some_elem in Hf as [Hin Hp]; cbv beta in Hp
  end.

Create HintDb rows discriminated.
#[export] Hint Resolve elem_of_update_where_in : rows.
#[export] Hint Rewrite @elem_of_update_where @elem_of_snoc @length_update_where : rows.
