(* ===== verification/Text.v ===== *)
(** * Text: the string patterns and the canonical JSON of the release engine

    The regular expressions that guard the release engine's arguments
    ([services/oracle-release-orchestrator/src/engine/release-orchestrator.ts]
    and [workflows/validate-blueprint.ts]) as boolean functions, the JSON values
    it hashes, and [canonicalJson].  A TypeScript string is a [string] whose
    characters are its code units; every pattern is a class of ASCII characters
    with a length bound, so a string with a wider code unit matches none. *)

From S2P Require Import Prelude.
From Stdlib Require Import Ascii.

(** ** Character classes and bounded tokens *)

Definition in_range (lo hi : nat) (c : Ascii.ascii) : bool :=
  (lo <=? Ascii.nat_of_ascii c) && (Ascii.nat_of_ascii c <=? hi).
Definition is_digit : Ascii.ascii → bool := in_range 48 57.
Definition is_upper : Ascii.ascii → bool := in_range 65 90.
Definition is_lower : Ascii.ascii → bool := in_range 97 122.
Definition is_hex_lower (c : Ascii.ascii) : bool := is_digit c || in_range 97 102 c.
Definition is_alnum (c : Ascii.ascii) : bool := is_digit c || is_upper c || is_lower c.

Fixpoint char_in (s : string) (c : Ascii.ascii) : bool :=
  match s with
  | EmptyString => false
  | String d s => Ascii.eqb c d || char_in s c
  end.

Fixpoint all_chars (p : Ascii.ascii → bool) (s : string) : bool :=
  match s with
  | EmptyString => true
  | String c s => p c && all_chars p s
  end.

(** [/^[p]{n}$/u] *)
Definition exactly (p : Ascii.ascii → bool) (n : nat) (s : string) : bool :=
  all_chars p s && (String.length s =? n).

(** [/^[first][rest]{0,max}$/u] *)
Definition token (first rest : Ascii.ascii → bool) (max : nat) (s : string) : bool :=
  match s with
  | EmptyString => false
  | String c s => first c && all_chars rest s && (String.length s <=? max)
  end.

(** [/^[c1][c2]...$/u], one class per character. *)
Fixpoint matches (classes : list (Ascii.ascii → bool)) (s : string) : bool :=
  match classes, s with
  | [], EmptyString => true
  | p :: classes, String c s => p c && matches classes s
  | _, _ => false
  end.

(** [/^[0-9a-f]{8}-[0-9a-f]{4}-[1-8][0-9a-f]{3}-[89ab][0-9a-f]{3}-[0-9a-f]{12}$/u] *)
Definition uuid_pattern : string → bool :=
  matches (repeat is_hex_lower 8 ++ [Ascii.eqb "-"%char] ++ repeat is_hex_lower 4 ++
    [Ascii.eqb "-"%char; in_range 49 56] ++ repeat is_hex_lower 3 ++
    [Ascii.eqb "-"%char; char_in "89ab"] ++ repeat is_hex_lower 3 ++
    [Ascii.eqb "-"%char] ++ repeat is_hex_lower 12).

(** *** Concatenation *)

Lemma text_app_nil_r s : s +:+ "" = s.
Proof. induction s as [|c s IH]; [done|]. exact (f_equal (String c) IH). Qed.

Lemma text_app_assoc s t u : (s +:+ t) +:+ u = s +:+ (t +:+ u).
Proof. induction s as [|c s IH]; [done|]. exact (f_equal (String c) IH). Qed.

Lemma text_app_length s t : String.length (s +:+ t) = String.length s + String.length t.
Proof. induction s as [|c s IH]; [done|]. exact (f_equal S IH). Qed.

Lemma text_app_inj_length s t s' t' :
  s +:+ t = s' +:+ t' → String.length t = String.length t' → s = s' ∧ t = t'.
Proof.
  intros E Hl. assert (String.length s = String.length s') as Hs
    by (apply (f_equal String.length) in E; rewrite !text_app_length in E; lia).
  clear Hl. revert s' E Hs. induction s as [|c s IH]; intros [|d s'] E Hs; try done.
  injection E as -> E. injection Hs as Hs. by destruct (IH s' E Hs) as [-> ->].
Qed.

(** [s.includes(sub)] *)
Fixpoint includes (sub s : string) : bool :=
  String.prefix sub s ||
  match s with
  | EmptyString => false
  | String _ s => includes sub s
  end.

Definition HASH_PATTERN : string → bool := exactly is_hex_lower 64.
Definition COMMIT_PATTERN (s : string) : bool :=
  exactly is_hex_lower 40 s || exactly is_hex_lower 64 s.
Definition IDENTIFIER_PATTERN : string → bool :=
  token is_alnum (λ c, is_alnum c || char_in "._:-" c) 199.
Definition ACTOR_PATTERN : string → bool :=
  token is_alnum (λ c, is_alnum c || char_in "._:@/-" c) 127.
Definition OUTCOME_CODE_PATTERN : string → bool :=
  token (λ c, is_upper c || is_digit c) (λ c, is_upper c || is_digit c || char_in "_.-" c) 79.
Definition RUN_ID_PATTERN : string → bool :=
  exactly (λ c, is_digit c || in_range 97 102 c || char_in "-" c) 36.
(** [isIdentifier] of validate-blueprint.ts *)
Definition isIdentifier : string → bool :=
  token is_lower (λ c, is_lower c || is_digit c || char_in "_-" c) 79.

(** [String.prototype.trim] is empty exactly when every character is white
    space (the ASCII part of ECMAScript WhiteSpace and LineTerminator). *)
Definition is_space (c : Ascii.ascii) : bool :=
  in_range 9 13 c || Ascii.eqb c " "%char.
Definition blank (s : string) : bool := all_chars is_space s.

(** ECMAScript white space below 256. *)
Definition is_trimmed (c : Ascii.ascii) : bool :=
  is_space c || (Ascii.nat_of_ascii c =? 160).

Fixpoint trim_start (s : string) : string :=
  match s with
  | EmptyString => EmptyString
  | String c s' => if is_trimmed c then trim_start s' else s
  end.

Fixpoint trim_end (s : string) : string :=
  match s with
  | EmptyString => EmptyString
  | String c s' =>
      match trim_end s' with
      | EmptyString => if is_trimmed c then EmptyString else String c EmptyString
      | r => String c r
      end
  end.

(** [s.trim()] *)
Definition trim (s : string) : string := trim_end (trim_start s).

(** ** JSON values *)

Inductive json : Type :=
| JNull
| JBool (b : bool)
| JNum (z : Z)
| JStr (s : string)
| JArr (l : list json)
| JObj (es : list (string * json)).

(** [value[key]]: [None] is [undefined].  The keys of a parsed object are
    distinct, and an array has no such property. *)
Definition prop (key : string) (v : json) : option json :=
  match v with
  | JObj es => snd <$> List.find (λ e, (e.1 =? key)%string) es
  | _ => None
  end.

Definition quote : Ascii.ascii := Ascii.ascii_of_nat 34.
Definition backslash : Ascii.ascii := Ascii.ascii_of_nat 92.

Definition hex_digit (n : nat) : Ascii.ascii :=
  Ascii.ascii_of_nat (if n <? 10 then 48 + n else 87 + n).

(** QuoteJSONString *)
Definition escape_char (c : Ascii.ascii) : string :=
  let n := Ascii.nat_of_ascii c in
  let esc (d : Ascii.ascii) := String backslash (String d EmptyString) in
  if Ascii.eqb c quote || Ascii.eqb c backslash then esc c
  else if n =? 8 then esc "b"%char else if n =? 9 then esc "t"%char
  else if n =? 10 then esc "n"%char else if n =? 12 then esc "f"%char
  else if n =? 13 then esc "r"%char
  else if n <? 32 then
    String backslash ("u00" +:+
      String (hex_digit (n / 16)) (String (hex_digit (n mod 16)) EmptyString))
  else String c EmptyString.

Fixpoint escape (s : string) : string :=
  match s with
  | EmptyString => EmptyString
  | String c s => escape_char c +:+ escape s
  end.

Definition json_string (s : string) : string :=
  String quote (escape s +:+ String quote EmptyString).

(** [JSON.stringify(value)] *)
Fixpoint json_stringify (v : json) : string :=
  match v with
  | JNull => "null"
  | JBool true => "true"
  | JBool false => "false"
  | JNum z => pretty z
  | JStr s => json_string s
  | JArr l => "[" +:+ String.concat "," (map json_stringify l) +:+ "]"
  | JObj es =>
      "{" +:+ String.concat ","
        (map (λ e, json_string e.1 +:+ ":" +:+ json_stringify e.2) es) +:+ "}"
  end.

(** ** The host: what the engine takes from its runtime

    [sha256] is [createHash("sha256").update(v, "utf8").digest("hex")],
    [localeCompare] the runtime's collation, [parses_as_date s] is
    [Number.isFinite(Date.parse(s))].  [randomUUID n] and [toISOString n] are
    the values the [n]-th call to the runtime's generator and clock returns. *)
Class Host := {
  sha256 : string → string;
  localeCompare : string → string → comparison;
  parses_as_date : string → bool;
  randomUUID : nat → string;
  toISOString : nat → string;
}.

Section canonical.
Context {H : Host}.

(** [Object.entries(v).sort(([l],[r]) => l.localeCompare(r))], a stable sort. *)
Fixpoint insert_entry (e : string * json) (es : list (string * json)) :=
  match es with
  | [] => [e]
  | e' :: es' =>
      match localeCompare e.1 e'.1 with
      | Gt => e' :: insert_entry e es'
      | _ => e :: es
      end
  end.
Definition sort_entries (es : list (string * json)) : list (string * json) :=
  foldr insert_entry [] es.

(** The sort looks at keys only, so sorting after the recursive map (as here)
    and before it (as in the source) give the same entries. *)
Fixpoint canonicalValue (v : json) : json :=
  match v with
  | JArr l => JArr (map canonicalValue l)
  | JObj es => JObj (sort_entries (map (λ e, (e.1, canonicalValue e.2)) es))
  | _ => v
  end.

Definition canonicalJson (v : json) : string := json_stringify (canonicalValue v).

(** *** Key order is irrelevant *)

(** Equality of JSON values up to the order of object properties. *)
Inductive json_eq : json → json → Prop :=
| json_eq_refl v : json_eq v v
| json_eq_trans v1 v2 v3 : json_eq v1 v2 → json_eq v2 v3 → json_eq v1 v3
| json_eq_arr l1 l2 : Forall2 json_eq l1 l2 → json_eq (JArr l1) (JArr l2)
| json_eq_val es1 es2 :
    Forall2 (λ e1 e2, e1.1 = e2.1 ∧ json_eq e1.2 e2.2) es1 es2 →
    json_eq (JObj es1) (JObj es2)
| json_eq_perm es1 es2 :
    NoDup es1.*1 → Permutation es1 es2 → Forall (λ e, all_chars is_alnum e.1 = true) es1 →
    json_eq (JObj es1) (JObj es2).

(** What the collation guarantees on alphanumeric keys. *)
Record collation_order : Prop := {
  collate_eq a b : all_chars is_alnum a = true → all_chars is_alnum b = true →
    localeCompare a b = Eq → a = b;
  collate_opp a b : localeCompare b a = CompOpp (localeCompare a b);
  collate_trans a b c : localeCompare a b = Gt → localeCompare b c = Gt →
    localeCompare a c = Gt;
}.

Definition after (a b : string) : bool :=
  match localeCompare a b with Gt => true | _ => false end.

Lemma insert_entry_cons e e' es :
  insert_entry e (e' :: es) =
  if after e.1 e'.1 then e' :: insert_entry e es else e :: e' :: es.
Proof. unfold after. cbn. by destruct (localeCompare _ _). Qed.

Context (Hc : collation_order).

Lemma after_antisym a b :
  a ≠ b → all_chars is_alnum a = true → all_chars is_alnum b = true →
  after b a = negb (after a b).
Proof using Hc.
  intros Hne Ha Hb. unfold after. rewrite (collate_opp Hc a b).
  destruct (localeCompare a b) eqn:E; [|done..]. by apply (collate_eq Hc) in E.
Qed.

Lemma after_trans a b c : after a b = true → after b c = true → after a c = true.
Proof using Hc.
  unfold after. intros H1 H2.
  destruct (localeCompare a b) eqn:E1; [done..|].
  destruct (localeCompare b c) eqn:E2; [done..|].
  by rewrite (collate_trans Hc _ _ _ E1 E2).
Qed.

Lemma insert_entry_comm e1 e2 es :
  e1.1 ≠ e2.1 → all_chars is_alnum e1.1 = true → all_chars is_alnum e2.1 = true →
  insert_entry e1 (insert_entry e2 es) = insert_entry e2 (insert_entry e1 es).
Proof using Hc.
  intros Hne H1 H2. pose proof (after_antisym _ _ Hne H1 H2) as Ha.
  induction es as [|e es IH].
  - unfold insert_entry at 2 4. rewrite !insert_entry_cons, Ha.
    by destruct (after e1.1 e2.1).
  - rewrite !insert_entry_cons.
    destruct (after e2.1 e.1) eqn:E2, (after e1.1 e.1) eqn:E1;
      rewrite !insert_entry_cons, ?E1, ?E2, ?Ha;
      destruct (after e1.1 e2.1) eqn:E12; rewrite ?IH; try done; exfalso; cbn in Ha.
    + by rewrite (after_trans _ _ _ E12 E2) in E1.
    + by rewrite (after_trans _ _ _ Ha E1) in E2.
Qed.

Lemma sort_entries_perm es1 es2 :
  Permutation es1 es2 → NoDup es1.*1 →
  Forall (λ e, all_chars is_alnum e.1 = true) es1 →
  sort_entries es1 = sort_entries es2.
Proof using Hc.
  induction 1 as [|e es1 es2 _ IH|e1 e2 es|es1 es2 es3 H1 IH1 H2 IH2]; intros Hd Ha.
  - done.
  - cbn in *. inversion Hd; inversion Ha; subst. unfold sort_entries in IH.
    by rewrite IH.
  - cbn in *. inversion Hd as [|?? Hn Hd']; inversion Ha as [|?? Ha1 Ha']; subst.
    inversion Ha'; subst. apply insert_entry_comm; [|done..].
    intros Heq. apply Hn. rewrite Heq. left.
  - rewrite IH1 by done. apply IH2.
    + by rewrite <- H1.
    + by rewrite <- H1.
Qed.

(** Values equal up to property order have the same canonical form; a recursion
    on the derivation, because [json_eq] nests lists. *)
Fixpoint canonicalValue_eq_fix v1 v2 (E : json_eq v1 v2) {struct E} :
  canonicalValue v1 = canonicalValue v2.
Proof using Hc.
  destruct E as [v|v1 v2 v3 E1 E2|l1 l2 Hl|es1 es2 Hes|es1 es2 Hd Hp Ha].
  - reflexivity.
  - transitivity (canonicalValue v2); apply canonicalValue_eq_fix; assumption.
  - cbn. f_equal. induction Hl as [|x y l1 l2 Hxy _ IH]; [reflexivity|].
    cbn. f_equal; [apply canonicalValue_eq_fix, Hxy|apply IH].
  - cbn. f_equal. f_equal.
    induction Hes as [|[k1 x] [k2 y] l1 l2 [Hk Hxy] _ IH]; [reflexivity|].
    cbn in *. f_equal; [|apply IH]. f_equal; [apply Hk|].
    apply canonicalValue_eq_fix, Hxy.
  - cbn. f_equal. apply sort_entries_perm.
    + by apply Permutation_map.
    + rewrite <- list_fmap_compose. by erewrite list_fmap_ext.
    + apply Forall_map. cbn. exact Ha.
Qed.
End canonical.

(** The identity order on code units is a collation in the sense above: the
    host used by witnesses. *)
Lemma string_compare_Gt_trans a b c :
  String.compare a b = Gt → String.compare b c = Gt → String.compare a c = Gt.
Proof.
  revert b c. induction a as [|x a IH]; intros [|y b] [|z c]; cbn; try done.
  unfold Ascii.compare.
  destruct (N.compare_spec (N_of_ascii x) (N_of_ascii y)) as [E1|?|?],
    (N.compare_spec (N_of_ascii y) (N_of_ascii z)) as [E2|?|?]; try done;
    intros H1 H2.
  - rewrite E1, E2, N.compare_refl. by eapply IH.
  - rewrite E1. by rewrite (proj2 (N.compare_gt_iff _ _)).
  - rewrite <- E2. by rewrite (proj2 (N.compare_gt_iff _ _)).
  - rewrite (proj2 (N.compare_gt_iff _ _)); [done|]. by etrans.
Qed.

Lemma string_compare_collation (H : Host) :
  (∀ a b, localeCompare a b = String.compare a b) → collation_order.
Proof.
  intros E. split; intros *; rewrite ?E.
  - intros _ _. apply String.compare_eq_iff.
  - apply String.compare_antisym.
  - apply string_compare_Gt_trans.
Qed.
