(* ===== verification/Dfs.v ===== *)
(** * Dfs: depth-first search of a dependency graph

    Two parts of the repository refuse cyclic plans with the same recursive
    search: [assertAcyclic] of the release blueprints
    (services/oracle-release-orchestrator/src/workflows/validate-blueprint.ts)
    and [normalize] of the campaign ledger
    (services/workspace-agent/src/campaign/delegated-campaign-ledger.ts).  The
    search keeps the sets [visiting] and [visited]; the recursion is bounded by
    fuel, and [search_terminates] shows that one more than the number of nodes is
    enough.  [search_spec]: on a graph whose edges end in nodes, the search
    returns exactly when the graph is acyclic. *)

From S2P Require Import Prelude.

Section dfs.
(** [deps id]: the dependencies of node [id], [None] when there is no such
    node; [cycle] and [missing] are the errors the caller throws. *)
Context {E : Type} (deps : string → option (list string)) (cycle missing : E).

Record dfs := { visiting : list string; visited : list string }.

Definition nothing_visited : dfs := {| visiting := []; visited := [] |}.

(** Throws [Some e] for an error of the source, [None] when the fuel ran out. *)
Fixpoint visit (fuel : nat) (node : string) : io dfs (option E) unit :=
  match fuel with
  | O => throw None
  | S fuel =>
      st ← gets id;
      require (bool_decide (node ∉ visiting st)) (Some cycle);;
      if bool_decide (node ∈ visited st) then mret tt else
      modify (λ st, {| visiting := node :: visiting st; visited := visited st |});;
      ds ← require_some (deps node) (Some missing);
      for_each (visit fuel) ds;;
      modify (λ st, {| visiting := List.filter (λ x, bool_decide (x ≠ node)) (visiting st);
                       visited := visited st |});;
      modify (λ st, {| visiting := visiting st; visited := node :: visited st |})
  end.

(** [for (const node of nodes) visit(node)] *)
Definition visit_from (nodes : list string) : io dfs (option E) unit :=
  for_each (visit (S (S (length nodes)))) nodes.

(** *** The dependency relation *)

Definition depends (a b : string) : Prop := ∃ ds, deps a = Some ds ∧ b ∈ ds.

(** [topological l]: every element of [l] depends only on later elements. *)
Fixpoint topological (l : list string) : Prop :=
  match l with
  | [] => True
  | a :: l => a ∉ l ∧ (∀ b, depends a b → b ∈ l) ∧ topological l
  end.

Lemma topological_irrefl l a : topological l → a ∈ l → ¬ tc depends a a.
Proof.
  intros Ht Ha. assert (∀ b c, tc depends b c → ∀ l1 l2, l = l1 ++ b :: l2 →
    topological l → c ∈ l2) as Hp.
  { clear a Ha Ht. induction 1 as [b c Hbc|b c d Hbc _ IH]; intros l1 l2 Heq Hl.
    - subst. induction l1 as [|x l1 IH]; cbn in Hl; [naive_solver|]. apply IH, Hl.
    - assert (c ∈ l2) as Hc.
      { clear IH. subst. induction l1 as [|x l1 IH]; cbn in Hl; [naive_solver|].
        apply IH, Hl. }
      apply list_elem_of_split in Hc as (l3 & l4 & ->).
      apply elem_of_app. right. right.
      apply (IH (l1 ++ b :: l3) l4); [|done]. by rewrite Heq, <- app_assoc. }
  intros Hc. apply list_elem_of_split in Ha as (l1 & l2 & ->).
  pose proof (Hp a a Hc l1 l2 eq_refl Ht) as Hin. clear Hp Hc.
  induction l1 as [|x l1 IH]; cbn in Ht; [naive_solver|]. apply IH, Ht.
Qed.

(** In a list in which every element depends only on later ones, the last
    element outside [P] depends only on elements of [P]. *)
Lemma topological_last (P : string → Prop) `{!∀ x, Decision (P x)} l :
  topological l → (∃ x, x ∈ l ∧ ¬ P x) →
  ∃ x, x ∈ l ∧ ¬ P x ∧ ∀ d, depends x d → P d.
Proof.
  induction l as [|a l IH]; intros Ht (x & Hx & Hn); [by apply not_elem_of_nil in Hx|].
  destruct Ht as (_ & Hd & Ht).
  destruct (decide (Exists (λ y, ¬ P y) l)) as [He|Hne].
  - rewrite Exists_exists in He. destruct (IH Ht He) as (y & Hy & ?).
    exists y. split; [by right|done].
  - assert (∀ y, y ∈ l → P y) as Hl.
    { intros y Hy. apply dec_stable. intros HnP. apply Hne, Exists_exists. eauto. }
    apply elem_of_cons in Hx as [->|Hx]; [|by destruct Hn; apply Hl].
    exists a. split_and!; [left|done|]. intros d Hdep. by apply Hl, Hd.
Qed.

(** *** Soundness: a successful search orders the steps it visited. *)

Definition dfs_le (s s' : dfs) : Prop :=
  visiting s' = visiting s ∧ (∀ x, x ∈ visited s → x ∈ visited s') ∧
  (topological (visited s) → (∀ x, x ∈ visiting s → x ∉ visited s) →
   topological (visited s') ∧ (∀ x, x ∈ visiting s' → x ∉ visited s')).

Lemma dfs_le_refl s : dfs_le s s.
Proof. unfold dfs_le. naive_solver. Qed.
Lemma dfs_le_trans s1 s2 s3 : dfs_le s1 s2 → dfs_le s2 s3 → dfs_le s1 s3.
Proof.
  intros (E1 & M1 & T1) (E2 & M2 & T2). split_and!; [congruence|naive_solver|].
  intros Ht Hd. destruct (T1 Ht Hd). by apply T2.
Qed.

Lemma filter_neq_id x (l : list string) :
  x ∉ l → List.filter (λ y, bool_decide (y ≠ x)) l = l.
Proof.
  induction l as [|y l IH]; intros Hx; [done|]. cbn.
  apply not_elem_of_cons in Hx as [? ?].
  rewrite bool_decide_eq_true_2 by done. by rewrite IH.
Qed.

Lemma filter_neq_cons x (l : list string) :
  x ∉ l → List.filter (λ y, bool_decide (y ≠ x)) (x :: l) = l.
Proof.
  intros Hx. cbn. rewrite bool_decide_eq_false_2 by naive_solver.
  by apply filter_neq_id.
Qed.

Lemma visit_each_Ok fuel l :
  (∀ id s s', visit fuel id s = (Ok tt, s') → dfs_le s s' ∧ id ∈ visited s') →
  ∀ s s', for_each (visit fuel) l s = (Ok tt, s') →
  dfs_le s s' ∧ ∀ x, x ∈ l → x ∈ visited s'.
Proof.
  intros IHv. induction l as [|x l IH]; intros s s' H; cbn in H; run_inv.
  - split; [apply dfs_le_refl|]. by intros ? ?%not_elem_of_nil.
  - apply IHv in H0 as [Hle Hin]. apply IH in H as [Hle' Hin'].
    split; [by eapply dfs_le_trans|].
    intros y [->|Hy]%elem_of_cons; [apply Hle', Hin|by apply Hin'].
Qed.

Lemma visit_Ok fuel id s s' :
  visit fuel id s = (Ok tt, s') → dfs_le s s' ∧ id ∈ visited s'.
Proof.
  revert id s s'. induction fuel as [|fuel IH]; intros id s s' H; cbn in H; run_inv.
  bool_inv. cbn in *. case_bool_decide as Hv; run_inv.
  { split; [apply dfs_le_refl|done]. }
  apply (visit_each_Ok _ _ IH) in H3 as [(Ev & M & T) Hdeps]. cbn in *.
  split; [|left]. unfold dfs_le; cbn. rewrite Ev, filter_neq_cons by done.
  split_and!; [done|intros; right; by apply M|]. intros Ht Hd.
  destruct T as [T1 T2]; [done|set_solver|]. rewrite Ev in T2. split_and!; try done.
  - apply T2. left.
  - intros b (st & Hst & Hb). apply Hdeps. by simplify_eq.
  - intros y Hy. apply not_elem_of_cons. split; [congruence|]. apply T2. by right.
Qed.

Context (nodes : list string).

Lemma visit_from_topological s' :
  visit_from nodes nothing_visited = (Ok tt, s') →
  topological (visited s') ∧ ∀ x, x ∈ nodes → x ∈ visited s'.
Proof.
  unfold visit_from. intros [(_ & _ & T) Hin]%(visit_each_Ok _ _ (visit_Ok _)).
  cbn in T. split; [|done]. apply T; [done|]. by intros ? ?%not_elem_of_nil.
Qed.

(** *** Termination: the fuel bounds the recursion depth. *)

(** Every node of the graph is a root of the search. *)
Definition nodes_listed : Prop := ∀ a, is_Some (deps a) → a ∈ nodes.

Lemma visit_fuel_enough fuel id s s' :
  nodes_listed → NoDup (visiting s) → visiting s ⊆ nodes →
  length nodes < fuel + length (visiting s) →
  visit fuel id s ≠ (Err None, s').
Proof.
  intros Hn. revert id s s'. induction fuel as [|fuel IH]; intros id s s' Hd Hs Hf H.
  { eapply Nat.lt_nge; [exact Hf|]. by apply submseteq_length, NoDup_submseteq. }
  cbn in H. repeat (apply bind_Err_inv in H as [H|(? & ? & ? & H)]; run_inv; try done).
  case_bool_decide; run_inv. bool_inv. cbn in *.
  repeat (apply bind_Err_inv in H as [H|(? & ? & ? & H)]; run_inv; try done).
  apply for_each_Err in H as (l1 & dep & l2 & s1 & _ & Hl1 & Hdp).
  apply (visit_each_Ok _ _ (visit_Ok _)) in Hl1 as [(E' & _) _]. cbn in E'.
  eapply (IH dep s1); [..|exact Hdp]; rewrite E'.
  - by constructor.
  - intros y [->|Hy]%elem_of_cons; [by eapply Hn|by apply Hs].
  - cbn. lia.
Qed.

(** *** Completeness: a rejected graph has a cycle. *)

Definition deps_resolve : Prop := ∀ a b, depends a b → is_Some (deps b).

Lemma visit_Err_cycle fuel id s e s' :
  deps_resolve → is_Some (deps id) → (∀ v, v ∈ visiting s → tc depends v id) →
  visit fuel id s = (Err (Some e), s') → e = cycle ∧ ∃ a, tc depends a a.
Proof.
  intros Hr. revert id s s'. induction fuel as [|fuel IH]; intros id s s' [st Hid] Hv H.
  { done. }
  cbn in H. repeat (apply bind_Err_inv in H as [H|(? & ? & ? & H)]; run_inv; try done).
  { bool_inv. split; [congruence|]. exists id. apply Hv. by apply dec_stable. }
  case_bool_decide; run_inv. cbn in *.
  repeat (apply bind_Err_inv in H as [H|(? & ? & ? & H)]; run_inv; try congruence).
  match goal with Hs : deps id = Some ?y |- _ => replace y with st in * by congruence end.
  apply for_each_Err in H as (l1 & dep & l2 & s1 & Hl & Hl1 & Hdp).
  apply (visit_each_Ok _ _ (visit_Ok _)) in Hl1 as [(E' & _) _]. cbn in E'.
  assert (depends id dep) as Hdep.
  { eexists. split; [eassumption|]. rewrite Hl. apply elem_of_app. right. left. }
  eapply (IH dep s1); [by eapply Hr| |exact Hdp]. rewrite E'.
  intros v [->|Hin]%elem_of_cons; [by constructor|]. eapply tc_r; [by apply Hv|done].
Qed.

Lemma visit_from_Err e s' :
  visit_from nodes nothing_visited = (Err e, s') →
  ∃ fuel node s, node ∈ nodes ∧ visiting s = [] ∧ length nodes < fuel ∧
    visit fuel node s = (Err e, s').
Proof.
  unfold visit_from. intros (l1 & dep & l2 & s1 & Hl & Hl1 & Hdp)%for_each_Err.
  apply (visit_each_Ok _ _ (visit_Ok _)) in Hl1 as [(E' & _) _].
  exists (S (S (length nodes))), dep, s1. split_and!; [|done|lia|exact Hdp].
  rewrite Hl. apply elem_of_app. right. left.
Qed.

Lemma search_terminates :
  nodes_listed → (visit_from nodes nothing_visited).1 ≠ Err None.
Proof.
  intros Hn H. destruct (visit_from nodes _) as [[|e] s'] eqn:Hv; [done|]. cbn in H.
  injection H as ->. apply visit_from_Err in Hv as (fuel & node & s & _ & Hs & Hf & Hv).
  eapply visit_fuel_enough; [done|..|exact Hv]; rewrite Hs.
  - constructor.
  - by intros ? ?%not_elem_of_nil.
  - cbn. lia.
Qed.

(** The three outcomes of the search on a graph whose edges end in nodes. *)
Lemma search_spec :
  nodes_listed → (∀ x, x ∈ nodes → is_Some (deps x)) → deps_resolve →
  match (visit_from nodes nothing_visited).1 with
  | Ok _ => ∀ a, ¬ tc depends a a
  | Err (Some e) => e = cycle ∧ ∃ a, tc depends a a
  | Err None => False
  end.
Proof.
  intros Hn Hall Hr. pose proof (search_terminates Hn) as Ht.
  destruct (visit_from nodes _) as [[[]|[e|]] s'] eqn:Hv; cbn in *; [..|done].
  - apply visit_from_topological in Hv as [Htop Hin]. intros a Ha.
    assert (∃ b, depends a b) as (b & st & Hst & _) by (inversion Ha; eauto).
    eapply topological_irrefl; [exact Htop|apply Hin, Hn; by eexists|done].
  - apply visit_from_Err in Hv as (fuel & node & s & Hnode & Hs & _ & Hv).
    eapply visit_Err_cycle; [done|by apply Hall| |exact Hv].
    rewrite Hs. by intros ? ?%not_elem_of_nil.
Qed.
End dfs.

Arguments nothing_visited : simpl never.
