(* ===== verification/ReleaseTypes.v ===== *)
(** * ReleaseTypes: the data of the release orchestrator

    The unions and records of
    [services/oracle-release-orchestrator/src/types.ts], the error codes of
    [errors.ts] and the JSON form of the values the engine hashes.  A string
    literal union is an inductive type with a [_name] function for its text. *)

From S2P Require Import Prelude Text.

(** ** Status unions *)

Inductive ReleaseRunStatus :=
| run_planned | run_running | run_paused_outcome_unknown | run_failed | run_succeeded.

Inductive ReleaseStepStatus :=
| step_pending | step_in_progress | step_outcome_unknown | step_failed | step_succeeded.

Inductive ReleaseAttemptStatus :=
| attempt_intent_recorded | attempt_outcome_unknown | attempt_resolved_not_applied
| attempt_failed | attempt_succeeded.

Inductive HealthGateStatus :=
| gate_pending | gate_passed | gate_failed | gate_outcome_unknown.

Inductive ReleaseStage := build_release | deployment | homologation.

Inductive ReleaseAction :=
| resolve_main_commit | verify_canonical_ci | publish_release_tag
| build_and_sign_release | publish_signed_release | verify_release_assets
| deploy_edge | verify_edge_health | prepare_oracle | prepare_windows
| validate_oracle_candidate | validate_windows_candidate | promote_oracle
| verify_oracle_health | promote_windows | verify_windows_health
| reconcile_final_pointers | smoke_catalog | cleanup_known_temporary_residue.

Inductive StepExecutionClass := read_only | external_effect.

Inductive ReconciliationOutcome := applied | not_applied | still_unknown.
Inductive StepOutcome := outcome_succeeded | outcome_failed.
Inductive GateOutcome := decision_passed | decision_failed.

#[export] Instance ReleaseRunStatus_eq_dec : EqDecision ReleaseRunStatus.
Proof. solve_decision. Defined.
#[export] Instance ReleaseStepStatus_eq_dec : EqDecision ReleaseStepStatus.
Proof. solve_decision. Defined.
#[export] Instance ReleaseAttemptStatus_eq_dec : EqDecision ReleaseAttemptStatus.
Proof. solve_decision. Defined.
#[export] Instance HealthGateStatus_eq_dec : EqDecision HealthGateStatus.
Proof. solve_decision. Defined.
#[export] Instance ReleaseStage_eq_dec : EqDecision ReleaseStage.
Proof. solve_decision. Defined.
#[export] Instance ReleaseAction_eq_dec : EqDecision ReleaseAction.
Proof. solve_decision. Defined.
#[export] Instance StepExecutionClass_eq_dec : EqDecision StepExecutionClass.
Proof. solve_decision. Defined.
#[export] Instance ReconciliationOutcome_eq_dec : EqDecision ReconciliationOutcome.
Proof. solve_decision. Defined.
#[export] Instance StepOutcome_eq_dec : EqDecision StepOutcome.
Proof. solve_decision. Defined.
#[export] Instance GateOutcome_eq_dec : EqDecision GateOutcome.
Proof. solve_decision. Defined.

Definition RELEASE_STAGES : list ReleaseStage := [build_release; deployment; homologation].

Definition RELEASE_ACTIONS : list ReleaseAction :=
  [resolve_main_commit; verify_canonical_ci; publish_release_tag;
   build_and_sign_release; publish_signed_release; verify_release_assets;
   deploy_edge; verify_edge_health; prepare_oracle; prepare_windows;
   validate_oracle_candidate; validate_windows_candidate; promote_oracle;
   verify_oracle_health; promote_windows; verify_windows_health;
   reconcile_final_pointers; smoke_catalog; cleanup_known_temporary_residue].

Definition stage_name (s : ReleaseStage) : string :=
  match s with
  | build_release => "build_release"
  | deployment => "deployment"
  | homologation => "homologation"
  end.

Definition action_name (a : ReleaseAction) : string :=
  match a with
  | resolve_main_commit => "resolve_main_commit"
  | verify_canonical_ci => "verify_canonical_ci"
  | publish_release_tag => "publish_release_tag"
  | build_and_sign_release => "build_and_sign_release"
  | publish_signed_release => "publish_signed_release"
  | verify_release_assets => "verify_release_assets"
  | deploy_edge => "deploy_edge"
  | verify_edge_health => "verify_edge_health"
  | prepare_oracle => "prepare_oracle"
  | prepare_windows => "prepare_windows"
  | validate_oracle_candidate => "validate_oracle_candidate"
  | validate_windows_candidate => "validate_windows_candidate"
  | promote_oracle => "promote_oracle"
  | verify_oracle_health => "verify_oracle_health"
  | promote_windows => "promote_windows"
  | verify_windows_health => "verify_windows_health"
  | reconcile_final_pointers => "reconcile_final_pointers"
  | smoke_catalog => "smoke_catalog"
  | cleanup_known_temporary_residue => "cleanup_known_temporary_residue"
  end.

Definition class_name (c : StepExecutionClass) : string :=
  match c with read_only => "read_only" | external_effect => "external_effect" end.

Definition reconciliation_name (o : ReconciliationOutcome) : string :=
  match o with
  | applied => "applied" | not_applied => "not_applied" | still_unknown => "still_unknown"
  end.

Definition step_outcome_name (o : StepOutcome) : string :=
  match o with outcome_succeeded => "succeeded" | outcome_failed => "failed" end.

Definition gate_outcome_name (o : GateOutcome) : string :=
  match o with decision_passed => "passed" | decision_failed => "failed" end.

(** ** Error codes *)

Inductive OrchestratorErrorCode :=
| INVALID_ARGUMENT | BLUEPRINT_NOT_FOUND | BLUEPRINT_INVALID
| BLUEPRINT_VERSION_CONFLICT | RUN_NOT_FOUND | STEP_NOT_FOUND | GATE_NOT_FOUND
| INVALID_TRANSITION | DEPENDENCY_NOT_SATISFIED | GATE_NOT_PASSED
| RECONCILIATION_REQUIRED | IDEMPOTENCY_KEY_CONFLICT | OPERATION_NOT_FOUND
| EVIDENCE_NOT_FOUND | LEDGER_PATH_INVALID | LEDGER_SCHEMA_INVALID.

(** What an engine call throws: a [ReleaseOrchestratorError] with its code, or
    the error SQLite raises on a violated constraint of the named table.
    Messages are not modelled. *)
Inductive exn :=
| Fail (code : OrchestratorErrorCode)
| SqliteConstraint (table : string).

(** ** Blueprints and requests *)

Record StepDefinition := {
  sd_id : string;
  sd_stage : ReleaseStage;
  sd_action : ReleaseAction;
  sd_executionClass : StepExecutionClass;
  sd_dependsOn : list string;
  sd_requiredGates : list string;
  sd_healthGateId : option string;
}.

Record HealthGateDefinition := {
  gd_id : string;
  gd_stage : ReleaseStage;
  gd_requiredEvidenceKinds : list string;
}.

Record ReleaseWorkflowBlueprint := {
  bp_id : string;
  bp_version : Z;
  bp_name : string;
  bp_historicalReference : string;
  bp_stages : list ReleaseStage;
  bp_gates : list HealthGateDefinition;
  bp_steps : list StepDefinition;
}.

Record ReleaseRunRequest := {
  rq_blueprintId : string;
  rq_blueprintVersion : Z;
  rq_targetRelease : string;
  rq_sourceCommitSha : string;
  rq_idempotencyKey : string;
  rq_actorId : string;
}.

Record EvidenceInput := {
  ei_kind : string;
  ei_source : string;
  ei_sha256 : string;
  ei_observedAt : string;
}.

(** ** Results *)

Record ReleaseStepSnapshot := {
  ss_stepId : string;
  ss_stage : ReleaseStage;
  ss_action : ReleaseAction;
  ss_executionClass : StepExecutionClass;
  ss_status : ReleaseStepStatus;
  ss_attemptCount : nat;
  ss_operationId : option string;
  ss_idempotencyKey : option string;
}.

Record HealthGateSnapshot := {
  gs_gateId : string;
  gs_stage : ReleaseStage;
  gs_status : HealthGateStatus;
  gs_requiredEvidenceKinds : list string;
  gs_evidenceIds : list string;
}.

Record ReleaseRunSnapshot := {
  sn_runId : string;
  sn_blueprintId : string;
  sn_blueprintVersion : Z;
  sn_blueprintSha256 : string;
  sn_targetRelease : string;
  sn_sourceCommitSha : string;
  sn_status : ReleaseRunStatus;
  sn_createdAt : string;
  sn_updatedAt : string;
  sn_lastSeq : nat;
  sn_steps : list ReleaseStepSnapshot;
  sn_gates : list HealthGateSnapshot;
}.

Record StepIntent := {
  in_runId : string;
  in_stepId : string;
  in_action : ReleaseAction;
  in_operationId : string;
  in_idempotencyKey : string;
  in_attemptNumber : nat;
  in_executionClass : StepExecutionClass;
}.

Inductive BeginStepResult :=
| intent (i : StepIntent)
| already_completed (runId stepId operationId : string).

(** ** JSON forms (the arguments of [canonicalJson]) *)

Definition jstrs (l : list string) : json := JArr (map JStr l).
Definition jopt (o : option string) : json :=
  match o with Some s => JStr s | None => JNull end.

Definition json_of_step (s : StepDefinition) : json :=
  JObj ([("id", JStr (sd_id s)); ("stage", JStr (stage_name (sd_stage s)));
         ("action", JStr (action_name (sd_action s)));
         ("executionClass", JStr (class_name (sd_executionClass s)));
         ("dependsOn", jstrs (sd_dependsOn s));
         ("requiredGates", jstrs (sd_requiredGates s))] ++
        match sd_healthGateId s with
        | Some g => [("healthGateId", JStr g)]
        | None => []
        end).

Definition json_of_gate (g : HealthGateDefinition) : json :=
  JObj [("id", JStr (gd_id g)); ("stage", JStr (stage_name (gd_stage g)));
        ("requiredEvidenceKinds", jstrs (gd_requiredEvidenceKinds g))].

Definition json_of_blueprint (b : ReleaseWorkflowBlueprint) : json :=
  JObj [("id", JStr (bp_id b)); ("version", JNum (bp_version b));
        ("name", JStr (bp_name b));
        ("historicalReference", JStr (bp_historicalReference b));
        ("stages", jstrs (map stage_name (bp_stages b)));
        ("gates", JArr (map json_of_gate (bp_gates b)));
        ("steps", JArr (map json_of_step (bp_steps b)))].

Definition json_of_evidence (e : EvidenceInput) : json :=
  JObj [("kind", JStr (ei_kind e)); ("source", JStr (ei_source e));
        ("sha256", JStr (ei_sha256 e)); ("observedAt", JStr (ei_observedAt e))].
