(* ===== verification/Blueprint.v ===== *)
(** * Blueprint: workflow blueprints and their validation

    [services/oracle-release-orchestrator/src/workflows]: the checks of
    [validateWorkflowBlueprint] in source order, the depth-first search of
    [assertAcyclic], the registered blueprint and its lookup.  The theorems show
    that the search terminates, that it accepts exactly the acyclic dependency
    graphs, and what an accepted blueprint guarantees to the engine. *)

From S2P Require Import Prelude Text Dfs ReleaseTypes.

(** ** assertAcyclic *)

Section acyclic.
Context (bp : ReleaseWorkflowBlueprint).

(** [new Map(blueprint.steps.map(step => [step.id, step])).get(id)]: a later
    entry overwrites an earlier one with the same key. *)
Definition byId (id : string) : option StepDefinition :=
  List.find (λ s, bool_decide (sd_id s = id)) (rev (bp_steps bp)).

Definition step_deps (id : string) : option (list string) := sd_dependsOn <$> byId id.

Definition step_ids : list string := map sd_id (bp_steps bp).

(** [for (const step of blueprint.steps) visit(step.id)]: the search of [Dfs],
    both of whose errors are [BLUEPRINT_INVALID]. *)
Definition visit_all : io dfs (option exn) unit :=
  visit_from step_deps (Fail BLUEPRINT_INVALID) (Fail BLUEPRINT_INVALID) step_ids.

Definition assertAcyclic : outcome exn unit :=
  match (visit_all nothing_visited).1 with
  | Ok _ => Ok tt
  | Err (Some e) => Err e
  | Err None => Err (Fail BLUEPRINT_INVALID)
  end.

Definition depends : string → string → Prop := Dfs.depends step_deps.
Definition deps_resolve : Prop := Dfs.deps_resolve step_deps.

Lemma byId_elem id s : byId id = Some s → s ∈ bp_steps bp ∧ sd_id s = id.
Proof.
  unfold byId. intros [H1 H2]%find_Some_elem. bool_inv.
  by rewrite list_elem_of_In, <- in_rev, <- list_elem_of_In in H1.
Qed.

Lemma byId_Some_iff id : is_Some (byId id) ↔ id ∈ step_ids.
Proof.
  unfold step_ids. rewrite list_elem_of_In, in_map_iff. split.
  - intros [s [Hs <-]%byId_elem]. exists s. split; [done|]. by apply list_elem_of_In.
  - intros (s & <- & Hs). unfold byId.
    destruct (find_is_Some (λ s', bool_decide (sd_id s' = sd_id s)) (rev (bp_steps bp)) s)
      as [s' ->]; [by rewrite list_elem_of_In, <- in_rev|by apply bool_decide_eq_true|done].
Qed.

Lemma step_deps_Some_iff id : is_Some (step_deps id) ↔ id ∈ step_ids.
Proof. unfold step_deps. rewrite fmap_is_Some. apply byId_Some_iff. Qed.

Lemma depends_spec a b : depends a b ↔ ∃ s, byId a = Some s ∧ b ∈ sd_dependsOn s.
Proof.
  unfold depends, Dfs.depends, step_deps. setoid_rewrite fmap_Some. naive_solver.
Qed.

Lemma visit_all_total : (visit_all nothing_visited).1 ≠ Err None.
Proof. apply search_terminates. intros a. apply step_deps_Some_iff. Qed.

Lemma assertAcyclic_spec :
  deps_resolve → assertAcyclic = Ok tt ↔ ∀ a, ¬ tc depends a a.
Proof.
  intros Hr. unfold assertAcyclic.
  pose proof (search_spec step_deps (Fail BLUEPRINT_INVALID) (Fail BLUEPRINT_INVALID)
    step_ids (λ a, proj1 (step_deps_Some_iff a)) (λ a, proj2 (step_deps_Some_iff a)) Hr) as Hs.
  fold visit_all in Hs. destruct (visit_all _) as [[[]|[e|]] s']; cbn in *; [done| |done].
  destruct Hs as (_ & a & Ha). split; [done|]. intros Hn. by destruct (Hn a).
Qed.
End acyclic.

(** ** validateWorkflowBlueprint *)

Definition invalid : exn := Fail BLUEPRINT_INVALID.

Definition gate_valid (bp : ReleaseWorkflowBlueprint) (gates : list string)
    (gate : HealthGateDefinition) : bool :=
  isIdentifier (gd_id gate) &&
  bool_decide (gd_id gate ∉ gates) &&
  bool_decide (gd_stage gate ∈ bp_stages bp) &&
  negb (length (gd_requiredEvidenceKinds gate) =? 0) &&
  bool_decide (NoDup (gd_requiredEvidenceKinds gate)) &&
  forallb isIdentifier (gd_requiredEvidenceKinds gate).

Definition step_valid (bp : ReleaseWorkflowBlueprint) (steps : list string)
    (step : StepDefinition) : bool :=
  isIdentifier (sd_id step) &&
  bool_decide (sd_id step ∉ steps) &&
  bool_decide (sd_stage step ∈ bp_stages bp) &&
  bool_decide (sd_action step ∈ RELEASE_ACTIONS) &&
  bool_decide (sd_executionClass step ∈ [read_only; external_effect]).

(** [if (step.healthGateId && !gates.has(step.healthGateId))]: an absent or
    empty identifier is not looked up. *)
Definition health_gate_known (gates : list string) (step : StepDefinition) : bool :=
  match sd_healthGateId step with
  | Some g => bool_decide (g = ""%string) || bool_decide (g ∈ gates)
  | None => true
  end.

Definition validateWorkflowBlueprint (bp : ReleaseWorkflowBlueprint) : outcome exn unit :=
  check invalid (isIdentifier (bp_id bp) && (1 <=? bp_version bp)%Z &&
    negb (blank (bp_name bp)) && negb (blank (bp_historicalReference bp)));;
  check invalid (length (bp_stages bp) =? length RELEASE_STAGES);;
  check invalid (forallb (λ stage, bool_decide (stage ∈ bp_stages bp)) RELEASE_STAGES);;
  gates ← fold_outcome (λ gates gate,
            check invalid (gate_valid bp gates gate);; Ok (gd_id gate :: gates))
            [] (bp_gates bp);
  steps ← fold_outcome (λ steps step,
            check invalid (step_valid bp steps step);;
            check invalid (health_gate_known gates step);;
            check invalid (forallb (λ g, bool_decide (g ∈ gates)) (sd_requiredGates step));;
            Ok (sd_id step :: steps))
            [] (bp_steps bp);
  fold_outcome (λ _ step,
    check invalid (forallb (λ d, bool_decide (d ∈ steps) && bool_decide (d ≠ sd_id step))
                     (sd_dependsOn step)))
    tt (bp_steps bp);;
  assertAcyclic bp.

(** *** What acceptance means *)

Record gate_ok (bp : ReleaseWorkflowBlueprint) (g : HealthGateDefinition) : Prop := {
  gate_ok_id : isIdentifier (gd_id g) = true;
  gate_ok_stage : gd_stage g ∈ bp_stages bp;
  gate_ok_kinds : gd_requiredEvidenceKinds g ≠ [];
  gate_ok_kinds_nodup : NoDup (gd_requiredEvidenceKinds g);
  gate_ok_kinds_id : ∀ k, k ∈ gd_requiredEvidenceKinds g → isIdentifier k = true;
}.

Record step_ok (bp : ReleaseWorkflowBlueprint) (s : StepDefinition) : Prop := {
  step_ok_id : isIdentifier (sd_id s) = true;
  step_ok_stage : sd_stage s ∈ bp_stages bp;
  step_ok_health : ∀ g, sd_healthGateId s = Some g → g ≠ ""%string →
    g ∈ map gd_id (bp_gates bp);
  step_ok_required : ∀ g, g ∈ sd_requiredGates s → g ∈ map gd_id (bp_gates bp);
  step_ok_deps : ∀ d, d ∈ sd_dependsOn s → d ∈ step_ids bp ∧ d ≠ sd_id s;
}.

Record blueprint_ok (bp : ReleaseWorkflowBlueprint) : Prop := {
  bp_ok_id : isIdentifier (bp_id bp) = true;
  bp_ok_version : (1 ≤ bp_version bp)%Z;
  bp_ok_name : blank (bp_name bp) = false;
  bp_ok_reference : blank (bp_historicalReference bp) = false;
  bp_ok_stages : Permutation RELEASE_STAGES (bp_stages bp);
  bp_ok_gates : Forall (gate_ok bp) (bp_gates bp);
  bp_ok_gates_nodup : NoDup (map gd_id (bp_gates bp));
  bp_ok_steps : Forall (step_ok bp) (bp_steps bp);
  bp_ok_steps_nodup : NoDup (step_ids bp);
  bp_ok_acyclic : ∀ a, ¬ tc (depends bp) a a;
}.

Lemma stages_check_spec (stages : list ReleaseStage) :
  (length stages =? length RELEASE_STAGES) = true ∧
  forallb (λ stage, bool_decide (stage ∈ stages)) RELEASE_STAGES = true ↔
  Permutation RELEASE_STAGES stages.
Proof.
  split.
  - intros [Hl%Nat.eqb_eq Hf]. rewrite forallb_forall in Hf.
    apply submseteq_length_Permutation; [|by rewrite Hl].
    apply NoDup_submseteq; [by apply (bool_decide_unpack (NoDup RELEASE_STAGES))|].
    intros s Hs%list_elem_of_In. by apply Hf, bool_decide_eq_true in Hs.
  - intros Hp. split; [apply Nat.eqb_eq; by rewrite <- Hp|].
    apply forallb_forall. intros s Hs%list_elem_of_In.
    apply bool_decide_eq_true. by rewrite <- Hp.
Qed.

Lemma gates_fold_spec bp gates :
  fold_outcome (λ gates gate,
    check invalid (gate_valid bp gates gate);; Ok (gd_id gate :: gates)) [] (bp_gates bp)
    = Ok gates ↔
  gates = rev (map gd_id (bp_gates bp)) ∧ Forall (gate_ok bp) (bp_gates bp) ∧
  NoDup (map gd_id (bp_gates bp)).
Proof.
  rewrite (fold_check_Ok invalid gd_id (gate_valid bp)), app_nil_r.
  rewrite <- prefix_fresh_NoDup, <- elem_of_split_forall.
  assert (∀ l x, gate_valid bp (rev (map gd_id l) ++ []) x = true ↔
    gate_ok bp x ∧ gd_id x ∉ rev (map gd_id l)) as Hv; [|naive_solver].
  intros l x. rewrite app_nil_r. unfold gate_valid.
  rewrite !andb_true_iff, negb_true_iff, Nat.eqb_neq, !bool_decide_eq_true, forallb_forall.
  setoid_rewrite <- list_elem_of_In.
  split; [intros (((((?&?)&?)&Hk)&?)&?)|intros [[] ?]]; split_and!; try done.
  - split; try done. by destruct (gd_requiredEvidenceKinds x).
  - by destruct (gd_requiredEvidenceKinds x).
Qed.

Lemma steps_fold_spec bp gates steps :
  fold_outcome (λ steps step,
    check invalid (step_valid bp steps step);;
    check invalid (health_gate_known gates step);;
    check invalid (forallb (λ g, bool_decide (g ∈ gates)) (sd_requiredGates step));;
    Ok (sd_id step :: steps)) [] (bp_steps bp) = Ok steps ↔
  steps = rev (step_ids bp) ∧ NoDup (step_ids bp) ∧
  Forall (λ s, isIdentifier (sd_id s) = true ∧ sd_stage s ∈ bp_stages bp ∧
    health_gate_known gates s = true ∧ ∀ g, g ∈ sd_requiredGates s → g ∈ gates)
    (bp_steps bp).
Proof.
  set (ok := λ steps step, step_valid bp steps step && (health_gate_known gates step &&
    forallb (λ g, bool_decide (g ∈ gates)) (sd_requiredGates step))).
  trans (fold_outcome (λ steps step,
    check invalid (ok steps step);; Ok (sd_id step :: steps)) [] (bp_steps bp) = Ok steps).
  { generalize (@nil string) as acc. unfold ok.
    induction (bp_steps bp) as [|x l IH]; intros acc; [done|]. cbn.
    destruct (step_valid bp acc x); cbn; [|done].
    destruct (health_gate_known gates x); cbn; [|done].
    destruct (forallb _ (sd_requiredGates x)); cbn; [|done]. apply IH. }
  rewrite (fold_check_Ok invalid sd_id ok), app_nil_r.
  unfold step_ids. rewrite <- (prefix_fresh_NoDup sd_id), <- elem_of_split_forall.
  assert (∀ l x, ok (rev (map sd_id l) ++ []) x = true ↔
    (isIdentifier (sd_id x) = true ∧ sd_stage x ∈ bp_stages bp ∧
     health_gate_known gates x = true ∧ (∀ g, g ∈ sd_requiredGates x → g ∈ gates)) ∧
    sd_id x ∉ rev (map sd_id l)) as Hv; [|naive_solver].
  intros l x. rewrite app_nil_r. unfold ok, step_valid.
  rewrite !andb_true_iff, !bool_decide_eq_true, forallb_forall.
  setoid_rewrite bool_decide_eq_true. setoid_rewrite <- list_elem_of_In.
  assert (sd_action x ∈ RELEASE_ACTIONS) by (destruct (sd_action x); set_solver).
  assert (sd_executionClass x ∈ [read_only; external_effect])
    by (destruct (sd_executionClass x); set_solver).
  naive_solver.
Qed.

(** [validateWorkflowBlueprint] accepts a blueprint exactly when its
    identity is well formed, it declares the three canonical stages, its gates
    and steps have distinct well-formed identifiers and known stages, every
    gate and dependency it mentions exists, no step depends on itself, and the
    dependency graph has no cycle. *)
Lemma validateWorkflowBlueprint_iff bp :
  validateWorkflowBlueprint bp = Ok tt ↔ blueprint_ok bp.
Proof.
  unfold validateWorkflowBlueprint. split.
  - intros H.
    apply outcome_bind_Ok in H as ([] & Hid%check_Ok & H).
    apply outcome_bind_Ok in H as ([] & Hsl%check_Ok & H).
    apply outcome_bind_Ok in H as ([] & Hsi%check_Ok & H).
    apply outcome_bind_Ok in H as (? & (-> & Hg & Hgd)%gates_fold_spec & H).
    apply outcome_bind_Ok in H as (? & (-> & Hsd & Hs)%steps_fold_spec & H).
    apply outcome_bind_Ok in H as ([] & Hdep & Hac).
    rewrite fold_check_unit_Ok in Hdep.
    bool_inv. assert (∀ s d, s ∈ bp_steps bp → d ∈ sd_dependsOn s →
      d ∈ step_ids bp ∧ d ≠ sd_id s) as Hdeps.
    { intros s d Hin Hd. specialize (Hdep _ Hin). rewrite forallb_forall in Hdep.
      apply list_elem_of_In, Hdep, andb_true_iff in Hd as [Hd Hd']. bool_inv.
      by rewrite elem_of_rev in Hd. }
    split; try done.
    + by apply Z.leb_le.
    + by apply stages_check_spec.
    + rewrite Forall_forall in Hs |- *. intros s Hin.
      destruct (Hs s Hin) as (? & ? & Hh & Hr). split; try done.
      * intros g Hsg Hne. unfold health_gate_known in Hh. rewrite Hsg in Hh.
        apply orb_true_iff in Hh as [|]; bool_inv; [done|]. by apply elem_of_rev.
      * intros g Hgr. by apply elem_of_rev, Hr.
      * intros d. by apply Hdeps.
    + apply assertAcyclic_spec; [|done]. intros a b (s & Hs' & Hb)%depends_spec.
      apply step_deps_Some_iff. apply byId_elem in Hs' as [Hin _]. by eapply Hdeps.
  - intros []. apply outcome_bind_Ok. exists tt. split.
    { rewrite bp_ok_id0, bp_ok_name0, bp_ok_reference0. cbn.
      by rewrite (proj2 (Z.leb_le _ _)). }
    apply stages_check_spec in bp_ok_stages0 as [-> ->]. cbn.
    apply outcome_bind_Ok. eexists. split; [by apply gates_fold_spec|].
    apply outcome_bind_Ok. eexists. split.
    { apply steps_fold_spec. split_and!; [done..|].
      eapply Forall_impl; [exact bp_ok_steps0|]. intros s []. split_and!; [done..| |].
      - unfold health_gate_known. destruct (sd_healthGateId s) as [g|]; [|done].
        case_bool_decide; [done|]. apply bool_decide_eq_true, elem_of_rev. auto.
      - intros g Hg. by apply elem_of_rev, step_ok_required0. }
    rewrite Forall_forall in bp_ok_steps0.
    apply outcome_bind_Ok. exists tt. split.
    { apply fold_check_unit_Ok. intros s Hs. apply forallb_forall.
      intros d Hd%list_elem_of_In. destruct (step_ok_deps _ _ (bp_ok_steps0 s Hs) d Hd).
      rewrite !bool_decide_eq_true_2; [done..|]. by apply elem_of_rev. }
    apply assertAcyclic_spec; [|done]. intros a b (s & Hs' & Hb)%depends_spec.
    apply step_deps_Some_iff. apply byId_elem in Hs' as [Hin _]. by eapply step_ok_deps; eauto.
Qed.

(** ** The registered blueprint *)

Definition mk_step id stage action cls deps gates health : StepDefinition :=
  {| sd_id := id; sd_stage := stage; sd_action := action; sd_executionClass := cls;
     sd_dependsOn := deps; sd_requiredGates := gates; sd_healthGateId := health |}.

Local Open Scope string_scope.

Definition beta80ReleaseBlueprint : ReleaseWorkflowBlueprint := {|
  bp_id := "mcp-v3-public-release";
  bp_version := 1;
  bp_name := "MCP V3 signed public release, sequential deployment and homologation";
  bp_historicalReference := "v1.1.0-beta.80";
  bp_stages := [build_release; deployment; homologation];
  bp_gates := [
    {| gd_id := "signed_release_validated"; gd_stage := build_release;
       gd_requiredEvidenceKinds := ["canonical_ci_run"; "signed_manifest"; "release_asset_digest"] |};
    {| gd_id := "edge_healthy"; gd_stage := deployment;
       gd_requiredEvidenceKinds := ["edge_health_report"] |};
    {| gd_id := "oracle_healthy"; gd_stage := deployment;
       gd_requiredEvidenceKinds := ["oracle_active_manifest"; "oracle_health_report"] |};
    {| gd_id := "windows_healthy"; gd_stage := deployment;
       gd_requiredEvidenceKinds := ["windows_active_manifest"; "windows_health_report"] |}];
  bp_steps := [
    mk_step "resolve_main_commit" build_release resolve_main_commit read_only
      [] [] None;
    mk_step "verify_canonical_ci" build_release verify_canonical_ci read_only
      ["resolve_main_commit"] [] None;
    mk_step "publish_release_tag" build_release publish_release_tag external_effect
      ["verify_canonical_ci"] [] None;
    mk_step "build_and_sign_release" build_release build_and_sign_release external_effect
      ["publish_release_tag"] [] None;
    mk_step "publish_signed_release" build_release publish_signed_release external_effect
      ["build_and_sign_release"] [] None;
    mk_step "verify_release_assets" build_release verify_release_assets read_only
      ["publish_signed_release"] [] (Some "signed_release_validated");
    mk_step "deploy_edge" deployment deploy_edge external_effect
      ["verify_release_assets"] ["signed_release_validated"] None;
    mk_step "verify_edge_health" deployment verify_edge_health read_only
      ["deploy_edge"] [] (Some "edge_healthy");
    mk_step "prepare_oracle" deployment prepare_oracle external_effect
      ["verify_edge_health"] ["edge_healthy"] None;
    mk_step "prepare_windows" deployment prepare_windows external_effect
      ["verify_edge_health"] ["edge_healthy"] None;
    mk_step "validate_oracle_candidate" deployment validate_oracle_candidate read_only
      ["prepare_oracle"] [] None;
    mk_step "validate_windows_candidate" deployment validate_windows_candidate read_only
      ["prepare_windows"] [] None;
    mk_step "promote_oracle" deployment promote_oracle external_effect
      ["validate_oracle_candidate"; "validate_windows_candidate"] ["signed_release_validated"; "edge_healthy"] None;
    mk_step "verify_oracle_health" deployment verify_oracle_health read_only
      ["promote_oracle"] [] (Some "oracle_healthy");
    mk_step "promote_windows" deployment promote_windows external_effect
      ["validate_windows_candidate"; "verify_oracle_health"] ["oracle_healthy"] None;
    mk_step "verify_windows_health" deployment verify_windows_health read_only
      ["promote_windows"] [] (Some "windows_healthy");
    mk_step "reconcile_final_pointers" homologation reconcile_final_pointers read_only
      ["verify_windows_health"] ["oracle_healthy"; "windows_healthy"] None;
    mk_step "smoke_catalog" homologation smoke_catalog read_only
      ["reconcile_final_pointers"] [] None;
    mk_step "cleanup_known_temporary_residue" homologation cleanup_known_temporary_residue external_effect
      ["smoke_catalog"] [] None]
|}.

Definition blueprints : list ReleaseWorkflowBlueprint := [beta80ReleaseBlueprint].

Definition getWorkflowBlueprint (blueprintId : string) (version : Z) :
    outcome exn ReleaseWorkflowBlueprint :=
  match List.find (λ item, bool_decide (bp_id item = blueprintId) &&
                           bool_decide (bp_version item = version)) blueprints with
  | Some bp => Ok bp
  | None => Err (Fail BLUEPRINT_NOT_FOUND)
  end.

Definition listWorkflowBlueprints : list ReleaseWorkflowBlueprint := blueprints.

(** Every health gate is measured by at most one step.  The validation does not
    ask for it; the registered blueprint has it. *)
Definition measures_once (steps : list StepDefinition) : Prop :=
  ∀ s1 s2 g, s1 ∈ steps → s2 ∈ steps →
    sd_healthGateId s1 = Some g → sd_healthGateId s2 = Some g → sd_id s1 = sd_id s2.

Definition measures_onceb (steps : list StepDefinition) : bool :=
  forallb (λ s1, forallb (λ s2,
    match sd_healthGateId s1, sd_healthGateId s2 with
    | Some g1, Some g2 => negb (bool_decide (g1 = g2)) || bool_decide (sd_id s1 = sd_id s2)
    | _, _ => true
    end) steps) steps.

Lemma measures_onceb_spec steps : measures_onceb steps = true → measures_once steps.
Proof.
  unfold measures_onceb, measures_once. intros H s1 s2 g H1 H2 E1 E2.
  rewrite forallb_forall in H. specialize (H s1 (proj1 (list_elem_of_In _ _) H1)).
  rewrite forallb_forall in H. specialize (H s2 (proj1 (list_elem_of_In _ _) H2)).
  rewrite E1, E2, bool_decide_eq_true_2 in H by done. cbn in H. by bool_inv.
Qed.

Lemma beta80_valid : validateWorkflowBlueprint beta80ReleaseBlueprint = Ok tt.
Proof. vm_compute. reflexivity. Qed.

Lemma beta80_measures_once : measures_once (bp_steps beta80ReleaseBlueprint).
Proof. apply measures_onceb_spec. vm_compute. reflexivity. Qed.
