(* ===== verification/Ledger.v ===== *)
(** * Ledger: the SQLite release ledger

    The tables of
    [services/oracle-release-orchestrator/src/storage/migrations.ts], the rows
    the engine reads ([engine/release-orchestrator.ts], the [*Row] interfaces)
    and the access methods of [storage/sqlite-release-ledger.ts].

    A table is the list of its rows in insertion order; a column that stores
    JSON text holds the value the text denotes.  An insertion checks the
    table's [PRIMARY KEY], [UNIQUE], [CHECK] and [FOREIGN KEY] constraints and
    throws [SqliteConstraint] when one fails.  Rows of the tables the triggers
    protect have no update or delete here, as the engine has none. *)

From S2P Require Import Prelude Text ReleaseTypes.

(** ** Rows *)

Record BlueprintRow := {
  br_blueprint_id : string;
  br_version : Z;
  br_sha256 : string;
  br_definition : json;
  br_registered_at : string;
}.

Record RunRow := {
  rr_run_id : string;
  rr_blueprint_id : string;
  rr_blueprint_version : Z;
  rr_blueprint_sha256 : string;
  rr_target_release : string;
  rr_source_commit_sha : string;
  rr_status : ReleaseRunStatus;
  rr_create_idempotency_key : string;
  rr_create_request_sha256 : string;
  rr_created_at : string;
  rr_updated_at : string;
  rr_last_seq : nat;
}.

Record StepRow := {
  sr_run_id : string;
  sr_step_id : string;
  sr_ordinal : nat;
  sr_stage : ReleaseStage;
  sr_action : ReleaseAction;
  sr_execution_class : StepExecutionClass;
  sr_definition : StepDefinition;
  sr_status : ReleaseStepStatus;
  sr_attempt_count : nat;
  sr_operation_id : option string;
  sr_idempotency_key : option string;
}.

Record GateRow := {
  gr_run_id : string;
  gr_gate_id : string;
  gr_stage : ReleaseStage;
  gr_status : HealthGateStatus;
  gr_required_evidence_kinds : list string;
  gr_evidence_ids : list string;
}.

Record AttemptRow := {
  ar_attempt_id : string;
  ar_run_id : string;
  ar_step_id : string;
  ar_attempt_number : nat;
  ar_operation_id : string;
  ar_idempotency_key : string;
  ar_status : ReleaseAttemptStatus;
  ar_intent_recorded_at : string;
  ar_completed_at : option string;
  ar_outcome_code : option string;
  ar_result_request_sha256 : option string;
}.

Record EvidenceRow := {
  er_evidence_id : string;
  er_run_id : string;
  er_step_id : option string;
  er_kind : string;
  er_source : string;
  er_sha256 : string;
  er_observed_at : string;
  er_recorded_at : string;
}.

Record EventRow := {
  ev_run_id : string;
  ev_seq : nat;
  ev_event_id : string;
  ev_event_type : string;
  ev_payload : json;
  ev_occurred_at : string;
}.

Record AuditRow := {
  au_audit_id : string;
  au_run_id : string;
  au_event_seq : nat;
  au_actor_id : string;
  au_action : string;
  au_details : json;
  au_occurred_at : string;
}.

Record DecisionRow := {
  de_decision_id : string;
  de_run_id : string;
  de_gate_id : string;
  de_idempotency_key : string;
  de_request_sha256 : string;
  de_outcome : GateOutcome;
  de_created_at : string;
}.

Record ReconciliationRow := {
  rc_reconciliation_id : string;
  rc_run_id : string;
  rc_step_id : string;
  rc_operation_id : string;
  rc_idempotency_key : string;
  rc_request_sha256 : string;
  rc_outcome : ReconciliationOutcome;
  rc_created_at : string;
}.

Record Db := {
  workflow_blueprints : list BlueprintRow;
  release_runs : list RunRow;
  run_steps : list StepRow;
  run_health_gates : list GateRow;
  step_attempts : list AttemptRow;
  evidence_records : list EvidenceRow;
  run_events : list EventRow;
  audit_log : list AuditRow;
  health_gate_decisions : list DecisionRow;
  operation_reconciliations : list ReconciliationRow;
}.

Definition empty_db : Db := {|
  workflow_blueprints := []; release_runs := []; run_steps := [];
  run_health_gates := []; step_attempts := []; evidence_records := [];
  run_events := []; audit_log := []; health_gate_decisions := [];
  operation_reconciliations := []
|}.

(** ** Table and row updates *)

Definition on_blueprints f (d : Db) : Db :=
  Build_Db (f (workflow_blueprints d)) (release_runs d) (run_steps d) (run_health_gates d)
    (step_attempts d) (evidence_records d) (run_events d) (audit_log d)
    (health_gate_decisions d) (operation_reconciliations d).
Definition on_runs f (d : Db) : Db :=
  Build_Db (workflow_blueprints d) (f (release_runs d)) (run_steps d) (run_health_gates d)
    (step_attempts d) (evidence_records d) (run_events d) (audit_log d)
    (health_gate_decisions d) (operation_reconciliations d).
Definition on_steps f (d : Db) : Db :=
  Build_Db (workflow_blueprints d) (release_runs d) (f (run_steps d)) (run_health_gates d)
    (step_attempts d) (evidence_records d) (run_events d) (audit_log d)
    (health_gate_decisions d) (operation_reconciliations d).
Definition on_gates f (d : Db) : Db :=
  Build_Db (workflow_blueprints d) (release_runs d) (run_steps d) (f (run_health_gates d))
    (step_attempts d) (evidence_records d) (run_events d) (audit_log d)
    (health_gate_decisions d) (operation_reconciliations d).
Definition on_attempts f (d : Db) : Db :=
  Build_Db (workflow_blueprints d) (release_runs d) (run_steps d) (run_health_gates d)
    (f (step_attempts d)) (evidence_records d) (run_events d) (audit_log d)
    (health_gate_decisions d) (operation_reconciliations d).
Definition on_evidence f (d : Db) : Db :=
  Build_Db (workflow_blueprints d) (release_runs d) (run_steps d) (run_health_gates d)
    (step_attempts d) (f (evidence_records d)) (run_events d) (audit_log d)
    (health_gate_decisions d) (operation_reconciliations d).
Definition on_events f (d : Db) : Db :=
  Build_Db (workflow_blueprints d) (release_runs d) (run_steps d) (run_health_gates d)
    (step_attempts d) (evidence_records d) (f (run_events d)) (audit_log d)
    (health_gate_decisions d) (operation_reconciliations d).
Definition on_audit f (d : Db) : Db :=
  Build_Db (workflow_blueprints d) (release_runs d) (run_steps d) (run_health_gates d)
    (step_attempts d) (evidence_records d) (run_events d) (f (audit_log d))
    (health_gate_decisions d) (operation_reconciliations d).
Definition on_decisions f (d : Db) : Db :=
  Build_Db (workflow_blueprints d) (release_runs d) (run_steps d) (run_health_gates d)
    (step_attempts d) (evidence_records d) (run_events d) (audit_log d)
    (f (health_gate_decisions d)) (operation_reconciliations d).
Definition on_reconciliations f (d : Db) : Db :=
  Build_Db (workflow_blueprints d) (release_runs d) (run_steps d) (run_health_gates d)
    (step_attempts d) (evidence_records d) (run_events d) (audit_log d)
    (health_gate_decisions d) (f (operation_reconciliations d)).

Definition set_run_status (st : ReleaseRunStatus) (now : string) (r : RunRow) : RunRow :=
  Build_RunRow (rr_run_id r) (rr_blueprint_id r) (rr_blueprint_version r)
    (rr_blueprint_sha256 r) (rr_target_release r) (rr_source_commit_sha r) st
    (rr_create_idempotency_key r) (rr_create_request_sha256 r) (rr_created_at r) now
    (rr_last_seq r).
Definition set_run_seq (seq : nat) (now : string) (r : RunRow) : RunRow :=
  Build_RunRow (rr_run_id r) (rr_blueprint_id r) (rr_blueprint_version r)
    (rr_blueprint_sha256 r) (rr_target_release r) (rr_source_commit_sha r) (rr_status r)
    (rr_create_idempotency_key r) (rr_create_request_sha256 r) (rr_created_at r) now seq.
Definition set_step_status (st : ReleaseStepStatus) (s : StepRow) : StepRow :=
  Build_StepRow (sr_run_id s) (sr_step_id s) (sr_ordinal s) (sr_stage s) (sr_action s)
    (sr_execution_class s) (sr_definition s) st (sr_attempt_count s)
    (sr_operation_id s) (sr_idempotency_key s).
Definition set_step_attempt (n : nat) (op key : string) (s : StepRow) : StepRow :=
  Build_StepRow (sr_run_id s) (sr_step_id s) (sr_ordinal s) (sr_stage s) (sr_action s)
    (sr_execution_class s) (sr_definition s) step_in_progress n (Some op) (Some key).
Definition set_gate_status (st : HealthGateStatus) (g : GateRow) : GateRow :=
  Build_GateRow (gr_run_id g) (gr_gate_id g) (gr_stage g) st
    (gr_required_evidence_kinds g) (gr_evidence_ids g).
Definition set_gate_evidence (ids : list string) (g : GateRow) : GateRow :=
  Build_GateRow (gr_run_id g) (gr_gate_id g) (gr_stage g) (gr_status g)
    (gr_required_evidence_kinds g) ids.
Definition set_attempt_status (st : ReleaseAttemptStatus) (a : AttemptRow) : AttemptRow :=
  Build_AttemptRow (ar_attempt_id a) (ar_run_id a) (ar_step_id a) (ar_attempt_number a)
    (ar_operation_id a) (ar_idempotency_key a) st (ar_intent_recorded_at a)
    (ar_completed_at a) (ar_outcome_code a) (ar_result_request_sha256 a).
Definition set_attempt_completed (now : string) (code : option string) (a : AttemptRow) :=
  Build_AttemptRow (ar_attempt_id a) (ar_run_id a) (ar_step_id a) (ar_attempt_number a)
    (ar_operation_id a) (ar_idempotency_key a) (ar_status a) (ar_intent_recorded_at a)
    (Some now) code (ar_result_request_sha256 a).
Definition set_attempt_request (sha : string) (a : AttemptRow) : AttemptRow :=
  Build_AttemptRow (ar_attempt_id a) (ar_run_id a) (ar_step_id a) (ar_attempt_number a)
    (ar_operation_id a) (ar_idempotency_key a) (ar_status a) (ar_intent_recorded_at a)
    (ar_completed_at a) (ar_outcome_code a) (Some sha).

(** ** Constraints *)

(** No row of [t] has the key of [r]. *)
Definition fresh {R K} `{EqDecision K} (key : R → K) (r : R) (t : list R) : bool :=
  negb (existsb (λ r', bool_decide (key r' = key r)) t).
Definition has {R} (p : R → bool) (t : list R) : bool := existsb p t.
Definition is64 (sha : string) : bool := String.length sha =? 64.

Definition run_key (r : RunRow) := rr_run_id r.
Definition step_key (s : StepRow) := (sr_run_id s, sr_step_id s).
Definition gate_key (g : GateRow) := (gr_run_id g, gr_gate_id g).
Definition attempt_key (a : AttemptRow) := (ar_run_id a, ar_step_id a).

Definition blueprint_constraints (d : Db) (b : BlueprintRow) : bool :=
  (0 <? br_version b)%Z && is64 (br_sha256 b) &&
  fresh (λ b, (br_blueprint_id b, br_version b)) b (workflow_blueprints d).
Definition run_constraints (d : Db) (r : RunRow) : bool :=
  is64 (rr_blueprint_sha256 r) && is64 (rr_create_request_sha256 r) &&
  fresh run_key r (release_runs d) && fresh rr_create_idempotency_key r (release_runs d) &&
  has (λ b, bool_decide (br_blueprint_id b = rr_blueprint_id r) &&
            bool_decide (br_version b = rr_blueprint_version r)) (workflow_blueprints d).
Definition has_run (d : Db) (runId : string) : bool :=
  has (λ r, bool_decide (rr_run_id r = runId)) (release_runs d).
Definition has_step (d : Db) (runId stepId : string) : bool :=
  has (λ s, bool_decide (step_key s = (runId, stepId))) (run_steps d).
Definition step_constraints (d : Db) (s : StepRow) : bool :=
  fresh step_key s (run_steps d) && fresh (λ s, (sr_run_id s, sr_ordinal s)) s (run_steps d) &&
  has_run d (sr_run_id s).
Definition gate_constraints (d : Db) (g : GateRow) : bool :=
  fresh gate_key g (run_health_gates d) && has_run d (gr_run_id g).
Definition attempt_constraints (d : Db) (a : AttemptRow) : bool :=
  (0 <? ar_attempt_number a) && fresh ar_attempt_id a (step_attempts d) &&
  fresh (λ a, (attempt_key a, ar_attempt_number a)) a (step_attempts d) &&
  has_step d (ar_run_id a) (ar_step_id a).
Definition evidence_constraints (d : Db) (e : EvidenceRow) : bool :=
  is64 (er_sha256 e) && fresh er_evidence_id e (evidence_records d) &&
  has_run d (er_run_id e) &&
  match er_step_id e with Some sid => has_step d (er_run_id e) sid | None => true end.
Definition event_constraints (d : Db) (e : EventRow) : bool :=
  (0 <? ev_seq e) && fresh (λ e, (ev_run_id e, ev_seq e)) e (run_events d) &&
  fresh ev_event_id e (run_events d) && has_run d (ev_run_id e).
Definition audit_constraints (d : Db) (a : AuditRow) : bool :=
  fresh au_audit_id a (audit_log d) && fresh (λ a, (au_run_id a, au_event_seq a)) a (audit_log d) &&
  has (λ e, bool_decide ((ev_run_id e, ev_seq e) = (au_run_id a, au_event_seq a))) (run_events d).
Definition decision_constraints (d : Db) (x : DecisionRow) : bool :=
  is64 (de_request_sha256 x) && fresh de_decision_id x (health_gate_decisions d) &&
  fresh (λ x, (de_run_id x, de_gate_id x)) x (health_gate_decisions d) &&
  fresh (λ x, (de_run_id x, de_idempotency_key x)) x (health_gate_decisions d) &&
  has (λ g, bool_decide (gate_key g = (de_run_id x, de_gate_id x))) (run_health_gates d).
Definition reconciliation_constraints (d : Db) (x : ReconciliationRow) : bool :=
  is64 (rc_request_sha256 x) &&
  fresh rc_reconciliation_id x (operation_reconciliations d) &&
  fresh (λ x, (rc_run_id x, rc_idempotency_key x)) x (operation_reconciliations d) &&
  has_step d (rc_run_id x) (rc_step_id x).
(** [UNIQUE (run_id, idempotency_key)] of [run_steps] when the key of one step
    is set: no other step of the run has it. *)
Definition step_key_constraint (d : Db) (runId stepId key : string) : bool :=
  negb (has (λ s, bool_decide (sr_run_id s = runId) &&
    bool_decide (sr_idempotency_key s = Some key) && negb (bool_decide (sr_step_id s = stepId)))
    (run_steps d)).

(** ** Access *)

(** The open ledger: the database, whether [close] was called, and how often the
    runtime's UUID generator and clock were read. *)
Record St := { db : Db; closed : bool; tick : nat }.

Definition M := io St exn.

Definition with_db (d : Db) (s : St) : St := {| db := d; closed := closed s; tick := tick s |}.
Definition ticked (s : St) : St := {| db := db s; closed := closed s; tick := S (tick s) |}.

Definition fail {A} (code : OrchestratorErrorCode) : M A := throw (Fail code).

Definition assertOpen : M unit :=
  c ← gets closed; require (negb c) (Fail LEDGER_SCHEMA_INVALID).

(** [SqliteReleaseLedger.get] and [.all]: a query over the tables. *)
Definition query {A} (f : Db → A) : M A := assertOpen;; gets (λ s, f (db s)).

(** [SqliteReleaseLedger.run] of an UPDATE. *)
Definition update (f : Db → Db) : M unit :=
  assertOpen;; modify (λ s, with_db (f (db s)) s).

(** [SqliteReleaseLedger.run] of a statement that constraints of [table] may
    reject. *)
Definition insert (table : string) (ok : Db → bool) (f : Db → Db) : M unit :=
  assertOpen;;
  d ← gets db; require (ok d) (SqliteConstraint table);;
  modify (λ s, with_db (f (db s)) s).

(** [BEGIN IMMEDIATE] ... [COMMIT], and [ROLLBACK] before rethrowing. *)
Definition transaction {A} (work : M A) : M A := λ s,
  match assertOpen s with
  | (Err e, s') => (Err e, s')
  | (Ok _, s') =>
      match work s' with
      | (Ok a, s'') => (Ok a, s'')
      | (Err e, s'') => (Err e, with_db (db s') s'')
      end
  end.

Definition close : M unit :=
  modify (λ s, {| db := db s; closed := true; tick := tick s |}).

Section host.
Context {H : Host}.
Definition newUUID : M string :=
  n ← gets tick; modify ticked;; mret (randomUUID n).
(** [new Date().toISOString()] *)
Definition nowISO : M string :=
  n ← gets tick; modify ticked;; mret (toISOString n).
End host.

(** *** Inversion of the access methods *)

Lemma assertOpen_Ok s u s' : assertOpen s = (Ok u, s') ↔ closed s = false ∧ s' = s.
Proof.
  unfold assertOpen. rewrite bind_Ok. setoid_rewrite require_Ok.
  setoid_rewrite gets_Ok. setoid_rewrite negb_true_iff. naive_solver.
Qed.

Lemma query_Ok {A} (f : Db → A) s a s' :
  query f s = (Ok a, s') ↔ closed s = false ∧ a = f (db s) ∧ s' = s.
Proof.
  unfold query. rewrite bind_Ok. setoid_rewrite assertOpen_Ok.
  setoid_rewrite gets_Ok. naive_solver.
Qed.

Lemma query_run {A} (f : Db → A) s : closed s = false → query f s = (Ok (f (db s)), s).
Proof. intros Hc. by apply query_Ok. Qed.

Lemma update_Ok f s u s' :
  update f s = (Ok u, s') ↔ closed s = false ∧ s' = with_db (f (db s)) s.
Proof.
  unfold update. rewrite bind_Ok. setoid_rewrite assertOpen_Ok.
  setoid_rewrite modify_Ok. destruct u. naive_solver.
Qed.

Lemma insert_Ok table ok f s u s' :
  insert table ok f s = (Ok u, s') ↔
  closed s = false ∧ ok (db s) = true ∧ s' = with_db (f (db s)) s.
Proof.
  unfold insert. split.
  - intros H. run_inv. apply assertOpen_Ok in H0 as [? ->]. done.
  - intros (Hc & Hok & ->). apply bind_Ok. exists tt, s.
    split; [by apply assertOpen_Ok|]. unfold mbind, io_bind, gets, require.
    rewrite Hok. by destruct u.
Qed.

Lemma transaction_Ok {A} (work : M A) s a s' :
  transaction work s = (Ok a, s') ↔ closed s = false ∧ work s = (Ok a, s').
Proof.
  unfold transaction. destruct (assertOpen s) as [[[]|e] s1] eqn:Ho.
  - apply assertOpen_Ok in Ho as [Hc ->].
    destruct (work s) as [[]]; naive_solver.
  - split; [done|]. intros [Hc _].
    rewrite (proj2 (assertOpen_Ok s tt s)) in Ho by done. done.
Qed.

Lemma transaction_run {A} (work : M A) s :
  closed s = false →
  transaction work s = match work s with
                       | (Ok a, s') => (Ok a, s')
                       | (Err e, s') => (Err e, with_db (db s) s')
                       end.
Proof.
  intros Hc. unfold transaction. by rewrite (proj2 (assertOpen_Ok s tt s)).
Qed.

Lemma assertOpen_state s : (assertOpen s).2 = s.
Proof. unfold assertOpen, mbind, io_bind, gets, require. by destruct (closed s). Qed.

(** A transaction that throws leaves the database as it was. *)
Lemma transaction_Err {A} (work : M A) s e s' :
  transaction work s = (Err e, s') → db s' = db s.
Proof.
  unfold transaction. pose proof (assertOpen_state s) as Hs.
  destruct (assertOpen s) as [[[]|e'] s1]; cbn in Hs; subst s1.
  - destruct (work s) as [[a|e'] s2]; [done|]. by intros [= <- <-].
  - by intros [= <- <-].
Qed.

Section host_lemmas.
Context {H : Host}.
Lemma newUUID_Ok s u s' : newUUID s = (Ok u, s') ↔ u = randomUUID (tick s) ∧ s' = ticked s.
Proof.
  unfold newUUID. split; [intros ?; run_inv; naive_solver|]. by intros [-> ->].
Qed.
Lemma nowISO_Ok s u s' : nowISO s = (Ok u, s') ↔ u = toISOString (tick s) ∧ s' = ticked s.
Proof.
  unfold nowISO. split; [intros ?; run_inv; naive_solver|]. by intros [-> ->].
Qed.
End host_lemmas.

(** [ledger_inv] extends [run_inv] to programs over the ledger. *)
Ltac ledger_inv1 :=
  match goal with
  | H : query _ _ = (Ok _, _) |- _ => apply query_Ok in H as (? & ? & ?); subst
  | H : update _ _ = (Ok _, _) |- _ => apply update_Ok in H as (? & ?); subst
  | H : insert _ _ _ _ = (Ok _, _) |- _ => apply insert_Ok in H as (? & ? & ?); subst
  | H : newUUID _ = (Ok _, _) |- _ => apply newUUID_Ok in H as (? & ?); subst
  | H : nowISO _ = (Ok _, _) |- _ => apply nowISO_Ok in H as (? & ?); subst
  | H : transaction _ _ = (Ok _, _) |- _ => apply transaction_Ok in H as (? & H)
  | H : fail _ _ = (Ok _, _) |- _ => apply throw_Ok in H; destruct H
  | _ => run_inv1
  end.
Ltac ledger_inv := repeat ledger_inv1.

(** *** Reading constraints *)

Lemma fresh_spec {R K} `{EqDecision K} (key : R → K) r t :
  fresh key r t = true ↔ ∀ r', r' ∈ t → key r' ≠ key r.
Proof.
  unfold fresh. rewrite negb_true_iff, <- not_true_iff_false, existsb_exists.
  setoid_rewrite <- list_elem_of_In. setoid_rewrite bool_decide_eq_true. naive_solver.
Qed.

Lemma has_spec {R} (p : R → bool) t : has p t = true ↔ ∃ r, r ∈ t ∧ p r = true.
Proof. unfold has. rewrite existsb_exists. by setoid_rewrite <- list_elem_of_In. Qed.

Lemma has_run_spec d runId :
  has_run d runId = true ↔ ∃ r, r ∈ release_runs d ∧ rr_run_id r = runId.
Proof. unfold has_run. rewrite has_spec. by setoid_rewrite bool_decide_eq_true. Qed.

Lemma has_step_spec d runId stepId :
  has_step d runId stepId = true ↔
  ∃ s, s ∈ run_steps d ∧ step_key s = (runId, stepId).
Proof. unfold has_step. rewrite has_spec. by setoid_rewrite bool_decide_eq_true. Qed.
