(* ===== verification/Orchestrator.v ===== *)
(** * Orchestrator: the release engine

    One definition per method of [ReleaseOrchestrator] in
    [services/oracle-release-orchestrator/src/engine/release-orchestrator.ts],
    as a program over the ledger in the order of the source's statements: the
    argument validations, the transaction, its queries, guards, updates and
    events.  [Host] supplies hashing, collation, date parsing, UUIDs and the
    clock; [bps] is the constructor's blueprint list. *)

From S2P Require Import Prelude Text ReleaseTypes Blueprint Ledger.

Section engine.
Context {H : Host} (bps : list ReleaseWorkflowBlueprint).

(** ** Argument validation *)

Definition validateIdentifier (value : string) : M unit :=
  require (IDENTIFIER_PATTERN value) (Fail INVALID_ARGUMENT).
Definition validateIdempotencyKey (value : string) : M unit := validateIdentifier value.
Definition validateActor (value : string) : M unit :=
  require (ACTOR_PATTERN value) (Fail INVALID_ARGUMENT).
Definition validateRunId (value : string) : M unit :=
  require (RUN_ID_PATTERN value) (Fail INVALID_ARGUMENT).
Definition validateOutcomeCode (value : option string) : M unit :=
  match value with
  | None => mret tt
  | Some v => require (OUTCOME_CODE_PATTERN v) (Fail INVALID_ARGUMENT)
  end.
Definition validateEvidence (item : EvidenceInput) : M unit :=
  validateIdentifier (ei_kind item);;
  validateIdentifier (ei_source item);;
  require (HASH_PATTERN (ei_sha256 item)) (Fail INVALID_ARGUMENT);;
  require (parses_as_date (ei_observedAt item)) (Fail INVALID_ARGUMENT).
Definition validateRunRequest (request : ReleaseRunRequest) : M unit :=
  validateIdentifier (rq_blueprintId request);;
  require (1 <=? rq_blueprintVersion request)%Z (Fail INVALID_ARGUMENT);;
  require (IDENTIFIER_PATTERN (rq_targetRelease request)) (Fail INVALID_ARGUMENT);;
  require (COMMIT_PATTERN (rq_sourceCommitSha request)) (Fail INVALID_ARGUMENT);;
  validateIdempotencyKey (rq_idempotencyKey request);;
  validateActor (rq_actorId request).

Definition blueprintKey (id : string) (version : Z) : string := (id +:+ "@" +:+ pretty version)%string.

(** ** Row lookups *)

Definition is_run (runId : string) (r : RunRow) : bool := bool_decide (rr_run_id r = runId).
Definition is_step (runId stepId : string) (s : StepRow) : bool :=
  bool_decide (sr_run_id s = runId) && bool_decide (sr_step_id s = stepId).
Definition is_gate (runId gateId : string) (g : GateRow) : bool :=
  bool_decide (gr_run_id g = runId) && bool_decide (gr_gate_id g = gateId).
Definition is_attempt (attemptId : string) (a : AttemptRow) : bool :=
  bool_decide (ar_attempt_id a = attemptId).

(** [ORDER BY attempt_number DESC LIMIT 1] *)
Fixpoint latest (t : list AttemptRow) : option AttemptRow :=
  match t with
  | [] => None
  | a :: t =>
      match latest t with
      | Some b => if ar_attempt_number a <? ar_attempt_number b then Some b else Some a
      | None => Some a
      end
  end.

(** The constructor's [Map] from [id@version] to the blueprint. *)
Definition requireBlueprint (id : string) (version : Z) : M ReleaseWorkflowBlueprint :=
  require_some
    (List.find (λ b, bool_decide (blueprintKey (bp_id b) (bp_version b) = blueprintKey id version))
       (rev bps))
    (Fail BLUEPRINT_NOT_FOUND).

Definition requireRun (runId : string) : M RunRow :=
  row ← query (λ d, List.find (is_run runId) (release_runs d));
  require_some row (Fail RUN_NOT_FOUND).

Definition requireStep (runId stepId : string) : M StepRow :=
  row ← query (λ d, List.find (is_step runId stepId) (run_steps d));
  require_some row (Fail STEP_NOT_FOUND).

Definition requireLatestAttempt (operationId : string) : M AttemptRow :=
  row ← query (λ d, latest (List.filter
           (λ a, bool_decide (ar_operation_id a = operationId)) (step_attempts d)));
  require_some row (Fail OPERATION_NOT_FOUND).

(** ** Snapshots *)

Definition step_snapshot (s : StepRow) : ReleaseStepSnapshot := {|
  ss_stepId := sr_step_id s; ss_stage := sr_stage s; ss_action := sr_action s;
  ss_executionClass := sr_execution_class s; ss_status := sr_status s;
  ss_attemptCount := sr_attempt_count s; ss_operationId := sr_operation_id s;
  ss_idempotencyKey := sr_idempotency_key s |}.
Definition gate_snapshot (g : GateRow) : HealthGateSnapshot := {|
  gs_gateId := gr_gate_id g; gs_stage := gr_stage g; gs_status := gr_status g;
  gs_requiredEvidenceKinds := gr_required_evidence_kinds g;
  gs_evidenceIds := gr_evidence_ids g |}.

(** [SELECT * FROM run_steps WHERE run_id = ? ORDER BY ordinal] *)
Definition steps_of (runId : string) (d : Db) : list StepRow :=
  order_by (λ s1 s2, sr_ordinal s1 <=? sr_ordinal s2)
    (List.filter (λ s, bool_decide (sr_run_id s = runId)) (run_steps d)).
Definition gates_of (runId : string) (d : Db) : list GateRow :=
  order_by (λ g1 g2, String.leb (gr_gate_id g1) (gr_gate_id g2))
    (List.filter (λ g, bool_decide (gr_run_id g = runId)) (run_health_gates d)).

Definition getRun (runId : string) : M ReleaseRunSnapshot :=
  validateRunId runId;;
  run ← requireRun runId;
  steps ← query (steps_of runId);
  gates ← query (gates_of runId);
  mret {|
    sn_runId := rr_run_id run;
    sn_blueprintId := rr_blueprint_id run;
    sn_blueprintVersion := rr_blueprint_version run;
    sn_blueprintSha256 := rr_blueprint_sha256 run;
    sn_targetRelease := rr_target_release run;
    sn_sourceCommitSha := rr_source_commit_sha run;
    sn_status := rr_status run;
    sn_createdAt := rr_created_at run;
    sn_updatedAt := rr_updated_at run;
    sn_lastSeq := rr_last_seq run;
    sn_steps := map step_snapshot steps;
    sn_gates := map gate_snapshot gates |}.

(** ** Shared effects *)

Definition appendEvent (runId eventType : string) (payload : json)
    (actorId occurredAt : string) : M nat :=
  run ← requireRun runId;
  let seq := rr_last_seq run + 1 in
  eventId ← newUUID;
  update (on_runs (update_where (is_run runId) (set_run_seq seq occurredAt)));;
  let event := {| ev_run_id := runId; ev_seq := seq; ev_event_id := eventId;
                  ev_event_type := eventType; ev_payload := canonicalValue payload;
                  ev_occurred_at := occurredAt |} in
  insert "run_events" (λ d, event_constraints d event) (on_events (λ t, t ++ [event]));;
  auditId ← newUUID;
  let entry := {| au_audit_id := auditId; au_run_id := runId; au_event_seq := seq;
                  au_actor_id := actorId; au_action := eventType;
                  au_details := canonicalValue payload; au_occurred_at := occurredAt |} in
  insert "audit_log" (λ d, audit_constraints d entry) (on_audit (λ t, t ++ [entry]));;
  mret seq.

Definition persistEvidence (runId stepId : string) (evidence : list EvidenceInput)
    (recordedAt : string) : M (list string) :=
  for_collect (λ item,
    validateEvidence item;;
    evidenceId ← newUUID;
    let row := {| er_evidence_id := evidenceId; er_run_id := runId;
                  er_step_id := Some stepId; er_kind := ei_kind item;
                  er_source := ei_source item; er_sha256 := ei_sha256 item;
                  er_observed_at := ei_observedAt item; er_recorded_at := recordedAt |} in
    insert "evidence_records" (λ d, evidence_constraints d row)
      (on_evidence (λ t, t ++ [row]));;
    mret evidenceId) evidence.

Definition set_status_of_run (runId : string) (st : ReleaseRunStatus) (now : string) : M unit :=
  update (on_runs (update_where (is_run runId) (set_run_status st now))).
Definition set_status_of_step (runId stepId : string) (st : ReleaseStepStatus) : M unit :=
  update (on_steps (update_where (is_step runId stepId) (set_step_status st))).

(** [if (definition.healthGateId)]: an absent or empty identifier is falsy. *)
Definition health_gate (definition : StepDefinition) : option string :=
  match sd_healthGateId definition with
  | Some g => if bool_decide (g = ""%string) then None else Some g
  | None => None
  end.

Definition update_health_gate (runId : string) (definition : StepDefinition)
    (f : GateRow → GateRow) : M unit :=
  match health_gate definition with
  | Some g => update (on_gates (update_where (is_gate runId g) f))
  | None => mret tt
  end.

Definition resumeIfNoUnknownOperations (runId now : string) : M unit :=
  active ← query (λ d, count_where (λ a, bool_decide (ar_run_id a = runId) &&
    (bool_decide (ar_status a = attempt_intent_recorded) ||
     bool_decide (ar_status a = attempt_outcome_unknown))) (step_attempts d));
  if negb (active =? 0) then mret tt else
  failed ← query (λ d, count_where (λ s, bool_decide (sr_run_id s = runId) &&
    bool_decide (sr_status s = step_failed)) (run_steps d));
  let nextStatus := if 0 <? failed then run_failed else run_running in
  update (on_runs (update_where
    (λ r, is_run runId r && bool_decide (rr_status r = run_paused_outcome_unknown))
    (set_run_status nextStatus now))).

Definition maybeCompleteRun (runId actorId now : string) : M unit :=
  run ← requireRun runId;
  if bool_decide (rr_status run = run_failed) ||
     bool_decide (rr_status run = run_paused_outcome_unknown) then mret tt else
  incomplete ← query (λ d, count_where (λ s, bool_decide (sr_run_id s = runId) &&
    negb (bool_decide (sr_status s = step_succeeded))) (run_steps d));
  unpassed ← query (λ d, count_where (λ g, bool_decide (gr_run_id g = runId) &&
    negb (bool_decide (gr_status g = gate_passed))) (run_health_gates d));
  if negb (incomplete =? 0) || negb (unpassed =? 0) then mret tt else
  set_status_of_run runId run_succeeded now;;
  appendEvent runId "run.succeeded" (JObj []) actorId now;;
  mret tt.

(** ** Commands *)

Record CreateRunResult := { cr_run : ReleaseRunSnapshot; cr_created : bool }.

Definition registerBlueprint (blueprint : ReleaseWorkflowBlueprint) : M unit :=
  let checksum := sha256 (canonicalJson (json_of_blueprint blueprint)) in
  existing ← query (λ d, List.find (λ b,
    bool_decide (br_blueprint_id b = bp_id blueprint) &&
    bool_decide (br_version b = bp_version blueprint)) (workflow_blueprints d));
  match existing with
  | Some row =>
      require (bool_decide (br_sha256 row = checksum)) (Fail BLUEPRINT_VERSION_CONFLICT)
  | None =>
      now ← nowISO;
      let row := {| br_blueprint_id := bp_id blueprint; br_version := bp_version blueprint;
                    br_sha256 := checksum;
                    br_definition := canonicalValue (json_of_blueprint blueprint);
                    br_registered_at := now |} in
      insert "workflow_blueprints" (λ d, blueprint_constraints d row)
        (on_blueprints (λ t, t ++ [row]))
  end.

(** The constructor. *)
Definition new_ReleaseOrchestrator : M unit :=
  for_each (λ b, match validateWorkflowBlueprint b with
                 | Ok _ => mret tt | Err e => throw e end) bps;;
  transaction (for_each registerBlueprint bps).

Definition json_of_run_request (request : ReleaseRunRequest) : json :=
  JObj [("blueprintId", JStr (rq_blueprintId request));
        ("blueprintVersion", JNum (rq_blueprintVersion request));
        ("targetRelease", JStr (rq_targetRelease request));
        ("sourceCommitSha", JStr (rq_sourceCommitSha request));
        ("actorId", JStr (rq_actorId request))].

Definition insert_run (row : RunRow) : M unit :=
  insert "release_runs" (λ d, run_constraints d row) (on_runs (λ t, t ++ [row])).
Definition insert_step (row : StepRow) : M unit :=
  insert "run_steps" (λ d, step_constraints d row) (on_steps (λ t, t ++ [row])).
Definition insert_gate (row : GateRow) : M unit :=
  insert "run_health_gates" (λ d, gate_constraints d row) (on_gates (λ t, t ++ [row])).

(** The [run_steps] row of a step of a new run. *)
Definition planned_step (runId : string) (e : nat * StepDefinition) : StepRow := {|
  sr_run_id := runId; sr_step_id := sd_id e.2; sr_ordinal := e.1;
  sr_stage := sd_stage e.2; sr_action := sd_action e.2;
  sr_execution_class := sd_executionClass e.2; sr_definition := e.2;
  sr_status := step_pending; sr_attempt_count := 0;
  sr_operation_id := None; sr_idempotency_key := None |}.
Definition planned_gate (runId : string) (g : HealthGateDefinition) : GateRow := {|
  gr_run_id := runId; gr_gate_id := gd_id g; gr_stage := gd_stage g;
  gr_status := gate_pending; gr_required_evidence_kinds := gd_requiredEvidenceKinds g;
  gr_evidence_ids := [] |}.

Definition createRun (request : ReleaseRunRequest) : M CreateRunResult :=
  validateRunRequest request;;
  blueprint ← requireBlueprint (rq_blueprintId request) (rq_blueprintVersion request);
  let blueprintSha256 := sha256 (canonicalJson (json_of_blueprint blueprint)) in
  let requestSha256 := sha256 (canonicalJson (json_of_run_request request)) in
  transaction (
    existing ← query (λ d, List.find (λ r,
      bool_decide (rr_create_idempotency_key r = rq_idempotencyKey request)) (release_runs d));
    match existing with
    | Some row =>
        require (bool_decide (rr_create_request_sha256 row = requestSha256))
          (Fail IDEMPOTENCY_KEY_CONFLICT);;
        run ← getRun (rr_run_id row);
        mret {| cr_run := run; cr_created := false |}
    | None =>
        registered ← query (λ d, List.find (λ b,
          bool_decide (br_blueprint_id b = bp_id blueprint) &&
          bool_decide (br_version b = bp_version blueprint)) (workflow_blueprints d));
        require match registered with
                | Some b => bool_decide (br_sha256 b = blueprintSha256)
                | None => false
                end (Fail BLUEPRINT_VERSION_CONFLICT);;
        now ← nowISO;
        runId ← newUUID;
        insert_run {|
          rr_run_id := runId; rr_blueprint_id := bp_id blueprint;
          rr_blueprint_version := bp_version blueprint;
          rr_blueprint_sha256 := blueprintSha256;
          rr_target_release := rq_targetRelease request;
          rr_source_commit_sha := rq_sourceCommitSha request;
          rr_status := run_planned;
          rr_create_idempotency_key := rq_idempotencyKey request;
          rr_create_request_sha256 := requestSha256;
          rr_created_at := now; rr_updated_at := now; rr_last_seq := 0 |};;
        for_each insert_step
          (map (planned_step runId) (imap pair (bp_steps blueprint)));;
        for_each insert_gate (map (planned_gate runId) (bp_gates blueprint));;
        appendEvent runId "run.created"
          (JObj [("blueprintId", JStr (bp_id blueprint));
                 ("blueprintVersion", JNum (bp_version blueprint));
                 ("blueprintSha256", JStr blueprintSha256);
                 ("targetRelease", JStr (rq_targetRelease request));
                 ("sourceCommitSha", JStr (rq_sourceCommitSha request))])
          (rq_actorId request) now;;
        run ← getRun runId;
        mret {| cr_run := run; cr_created := true |}
    end).

Definition startRun (runId actorId : string) : M ReleaseRunSnapshot :=
  validateRunId runId;;
  validateActor actorId;;
  transaction (
    run ← requireRun runId;
    if bool_decide (rr_status run = run_running) then getRun runId else
    require (bool_decide (rr_status run = run_planned)) (Fail INVALID_TRANSITION);;
    now ← nowISO;
    set_status_of_run runId run_running now;;
    appendEvent runId "run.started" (JObj []) actorId now;;
    getRun runId).

Definition requireDependency (runId dependencyId : string) : M unit :=
  dependency ← requireStep runId dependencyId;
  require (bool_decide (sr_status dependency = step_succeeded))
    (Fail DEPENDENCY_NOT_SATISFIED).

Definition requireGatePassed (runId gateId : string) : M unit :=
  gate ← query (λ d, List.find (is_gate runId gateId) (run_health_gates d));
  require match gate with
          | Some g => bool_decide (gr_status g = gate_passed)
          | None => false
          end (Fail GATE_NOT_PASSED).

Definition insert_attempt (row : AttemptRow) : M unit :=
  insert "step_attempts" (λ d, attempt_constraints d row) (on_attempts (λ t, t ++ [row])).

(** [let operationId = row.operation_id; if (operationId) { ... } else { ... }];
    a stored operation identifier is a UUID, so only [NULL] is falsy. *)
Definition chooseOperation (row : StepRow) (runId stepId idempotencyKey : string) : M string :=
  match sr_operation_id row with
  | Some op =>
      require (bool_decide (sr_idempotency_key row = Some idempotencyKey))
        (Fail IDEMPOTENCY_KEY_CONFLICT);;
      previousAttempt ← query (λ d, latest (List.filter
        (λ a, bool_decide (ar_run_id a = runId) && bool_decide (ar_step_id a = stepId))
        (step_attempts d)));
      require match previousAttempt with
              | Some a => bool_decide (ar_status a = attempt_resolved_not_applied)
              | None => false
              end (Fail RECONCILIATION_REQUIRED);;
      mret op
  | None => newUUID
  end.

(** [row.status === "succeeded" && row.operation_id] *)
Definition completed_operation (row : StepRow) : option string :=
  if bool_decide (sr_status row = step_succeeded) then sr_operation_id row else None.

(** The rest of [beginStepAttempt] for a step that has not completed: the
    status, dependency and gate guards, then the intent. *)
Definition recordIntent (row : StepRow) (runId stepId idempotencyKey actorId : string) :
    M BeginStepResult :=
  let definition := sr_definition row in
  require (negb (bool_decide (sr_status row = step_in_progress) ||
                 bool_decide (sr_status row = step_outcome_unknown)))
    (Fail RECONCILIATION_REQUIRED);;
  require (bool_decide (sr_status row = step_pending)) (Fail INVALID_TRANSITION);;
  for_each (requireDependency runId) (sd_dependsOn definition);;
  for_each (requireGatePassed runId) (sd_requiredGates definition);;
  operationId ← chooseOperation row runId stepId idempotencyKey;
  let attemptNumber := sr_attempt_count row + 1 in
  attemptId ← newUUID;
  now ← nowISO;
  insert "run_steps" (λ d, step_key_constraint d runId stepId idempotencyKey)
    (on_steps (update_where (is_step runId stepId)
       (set_step_attempt attemptNumber operationId idempotencyKey)));;
  insert_attempt {|
    ar_attempt_id := attemptId; ar_run_id := runId; ar_step_id := stepId;
    ar_attempt_number := attemptNumber; ar_operation_id := operationId;
    ar_idempotency_key := idempotencyKey; ar_status := attempt_intent_recorded;
    ar_intent_recorded_at := now; ar_completed_at := None;
    ar_outcome_code := None; ar_result_request_sha256 := None |};;
  appendEvent runId "step.intent_recorded"
    (JObj [("stepId", JStr stepId);
           ("action", JStr (action_name (sd_action definition)));
           ("operationId", JStr operationId);
           ("attemptNumber", JNum (Z.of_nat attemptNumber));
           ("executionClass", JStr (class_name (sd_executionClass definition)))])
    actorId now;;
  mret (intent {|
    in_runId := runId; in_stepId := stepId; in_action := sd_action definition;
    in_operationId := operationId; in_idempotencyKey := idempotencyKey;
    in_attemptNumber := attemptNumber;
    in_executionClass := sd_executionClass definition |}).

Definition beginStepAttempt (runId stepId idempotencyKey actorId : string) :
    M BeginStepResult :=
  validateRunId runId;;
  validateIdentifier stepId;;
  validateIdempotencyKey idempotencyKey;;
  validateActor actorId;;
  transaction (
    run ← requireRun runId;
    require (bool_decide (rr_status run = run_running))
      (Fail (if bool_decide (rr_status run = run_paused_outcome_unknown)
             then RECONCILIATION_REQUIRED else INVALID_TRANSITION));;
    row ← requireStep runId stepId;
    keyOwner ← query (λ d, List.find (λ s, bool_decide (sr_run_id s = runId) &&
      bool_decide (sr_idempotency_key s = Some idempotencyKey)) (run_steps d));
    require match keyOwner with
            | Some s => bool_decide (sr_step_id s = stepId)
            | None => true
            end (Fail IDEMPOTENCY_KEY_CONFLICT);;
    match completed_operation row with
    | Some op =>
        require (bool_decide (sr_idempotency_key row = Some idempotencyKey))
          (Fail IDEMPOTENCY_KEY_CONFLICT);;
        mret (already_completed runId stepId op)
    | None => recordIntent row runId stepId idempotencyKey actorId
    end).

Record RecordStepOutcomeInput := {
  ro_outcome : StepOutcome;
  ro_outcomeCode : option string;
  ro_evidence : option (list EvidenceInput);
}.

Definition evidence_or_empty (e : option (list EvidenceInput)) : list EvidenceInput :=
  default [] e.

Definition recordStepOutcome (operationId : string) (input : RecordStepOutcomeInput)
    (actorId : string) : M ReleaseRunSnapshot :=
  validateIdentifier operationId;;
  validateActor actorId;;
  validateOutcomeCode (ro_outcomeCode input);;
  let resultRequestSha256 := sha256 (canonicalJson (JObj [
    ("outcome", JStr (step_outcome_name (ro_outcome input)));
    ("outcomeCode", jopt (ro_outcomeCode input));
    ("evidence", JArr (map json_of_evidence (evidence_or_empty (ro_evidence input))));
    ("actorId", JStr actorId)])) in
  transaction (
    attempt ← requireLatestAttempt operationId;
    step ← requireStep (ar_run_id attempt) (ar_step_id attempt);
    if bool_decide (ar_status attempt = attempt_succeeded) ||
       bool_decide (ar_status attempt = attempt_failed) then
      require match ar_result_request_sha256 attempt with
              | Some sha => bool_decide (sha = ""%string) || bool_decide (sha = resultRequestSha256)
              | None => true
              end (Fail IDEMPOTENCY_KEY_CONFLICT);;
      getRun (ar_run_id attempt)
    else
    require (bool_decide (ar_status attempt = attempt_intent_recorded))
      (Fail RECONCILIATION_REQUIRED);;
    let definition := sr_definition step in
    now ← nowISO;
    evidenceIds ← persistEvidence (ar_run_id attempt) (ar_step_id attempt)
      (evidence_or_empty (ro_evidence input)) now;
    let succeeded := bool_decide (ro_outcome input = outcome_succeeded) in
    update (on_attempts (update_where (is_attempt (ar_attempt_id attempt)) (λ a,
      set_attempt_request resultRequestSha256
        (set_attempt_completed now (ro_outcomeCode input)
           (set_attempt_status (if succeeded then attempt_succeeded else attempt_failed) a)))));;
    set_status_of_step (ar_run_id attempt) (ar_step_id attempt)
      (if succeeded then step_succeeded else step_failed);;
    require (negb (succeeded && bool_decide (health_gate definition ≠ None) &&
                   (length evidenceIds =? 0)))
      (Fail INVALID_ARGUMENT);;
    (if succeeded then mret tt else set_status_of_run (ar_run_id attempt) run_failed now);;
    appendEvent (ar_run_id attempt) (if succeeded then "step.succeeded" else "step.failed")%string
      (JObj [("stepId", JStr (ar_step_id attempt)); ("operationId", JStr operationId);
             ("attemptNumber", JNum (Z.of_nat (ar_attempt_number attempt)));
             ("outcomeCode", jopt (ro_outcomeCode input));
             ("evidenceIds", jstrs evidenceIds)])
      actorId now;;
    (if succeeded then maybeCompleteRun (ar_run_id attempt) actorId now else mret tt);;
    getRun (ar_run_id attempt)).

(** The writes shared by [markOutcomeUnknown] and recovery: the attempt, its
    step and the gate it measures become unknown and the run pauses. *)
Definition write_outcome_unknown (attempt : AttemptRow) (is_row : AttemptRow → bool)
    (definition : StepDefinition) (now : string) : M unit :=
  update (on_attempts (update_where is_row (set_attempt_status attempt_outcome_unknown)));;
  set_status_of_step (ar_run_id attempt) (ar_step_id attempt) step_outcome_unknown;;
  update_health_gate (ar_run_id attempt) definition (set_gate_status gate_outcome_unknown);;
  set_status_of_run (ar_run_id attempt) run_paused_outcome_unknown now.

Definition markOutcomeUnknown (operationId reasonCode actorId : string) :
    M ReleaseRunSnapshot :=
  validateIdentifier operationId;;
  validateIdentifier reasonCode;;
  validateActor actorId;;
  transaction (
    attempt ← requireLatestAttempt operationId;
    step ← requireStep (ar_run_id attempt) (ar_step_id attempt);
    if bool_decide (ar_status attempt = attempt_outcome_unknown)
    then getRun (ar_run_id attempt) else
    require (bool_decide (ar_status attempt = attempt_intent_recorded))
      (Fail INVALID_TRANSITION);;
    now ← nowISO;
    write_outcome_unknown attempt (is_attempt (ar_attempt_id attempt)) (sr_definition step) now;;
    appendEvent (ar_run_id attempt) "operation.outcome_unknown"
      (JObj [("stepId", JStr (ar_step_id attempt)); ("operationId", JStr operationId);
             ("attemptNumber", JNum (Z.of_nat (ar_attempt_number attempt)));
             ("reasonCode", JStr reasonCode)])
      actorId now;;
    getRun (ar_run_id attempt)).

Record ReconcileOperationInput := {
  ri_idempotencyKey : string;
  ri_outcome : ReconciliationOutcome;
  ri_evidence : option (list EvidenceInput);
  ri_actorId : string;
}.

(** The updates of the attempt, step and gate for each reconciled outcome. *)
Definition write_reconciled (attempt : AttemptRow) (definition : StepDefinition)
    (outcome : ReconciliationOutcome) (now : string) : M unit :=
  match outcome with
  | applied =>
      update (on_attempts (update_where (is_attempt (ar_attempt_id attempt)) (λ a,
        set_attempt_completed now (Some "RECONCILED_APPLIED"%string)
          (set_attempt_status attempt_succeeded a))));;
      set_status_of_step (ar_run_id attempt) (ar_step_id attempt) step_succeeded;;
      update_health_gate (ar_run_id attempt) definition
        (λ g, set_gate_evidence [] (set_gate_status gate_pending g))
  | not_applied =>
      update (on_attempts (update_where (is_attempt (ar_attempt_id attempt)) (λ a,
        set_attempt_completed now (Some "RECONCILED_NOT_APPLIED"%string)
          (set_attempt_status attempt_resolved_not_applied a))));;
      set_status_of_step (ar_run_id attempt) (ar_step_id attempt) step_pending;;
      update_health_gate (ar_run_id attempt) definition (set_gate_status gate_pending)
  | still_unknown => mret tt
  end.

Definition insert_reconciliation (row : ReconciliationRow) : M unit :=
  insert "operation_reconciliations" (λ d, reconciliation_constraints d row)
    (on_reconciliations (λ t, t ++ [row])).

Definition reconcileOperation (operationId : string) (input : ReconcileOperationInput) :
    M ReleaseRunSnapshot :=
  validateIdentifier operationId;;
  validateIdempotencyKey (ri_idempotencyKey input);;
  validateActor (ri_actorId input);;
  require (bool_decide (ri_outcome input = still_unknown) ||
           negb (length (evidence_or_empty (ri_evidence input)) =? 0))
    (Fail INVALID_ARGUMENT);;
  transaction (
    attempt ← requireLatestAttempt operationId;
    let requestSha256 := sha256 (canonicalJson (JObj [
      ("operationId", JStr operationId);
      ("outcome", JStr (reconciliation_name (ri_outcome input)));
      ("evidence", JArr (map json_of_evidence (evidence_or_empty (ri_evidence input))));
      ("actorId", JStr (ri_actorId input))])) in
    prior ← query (λ d, List.find (λ x, bool_decide (rc_run_id x = ar_run_id attempt) &&
      bool_decide (rc_idempotency_key x = ri_idempotencyKey input))
      (operation_reconciliations d));
    match prior with
    | Some p =>
        require (bool_decide (rc_request_sha256 p = requestSha256))
          (Fail IDEMPOTENCY_KEY_CONFLICT);;
        getRun (ar_run_id attempt)
    | None =>
        require (bool_decide (ar_status attempt = attempt_outcome_unknown))
          (Fail INVALID_TRANSITION);;
        now ← nowISO;
        evidenceIds ← persistEvidence (ar_run_id attempt) (ar_step_id attempt)
          (evidence_or_empty (ri_evidence input)) now;
        reconciliationId ← newUUID;
        insert_reconciliation {|
          rc_reconciliation_id := reconciliationId; rc_run_id := ar_run_id attempt;
          rc_step_id := ar_step_id attempt; rc_operation_id := operationId;
          rc_idempotency_key := ri_idempotencyKey input;
          rc_request_sha256 := requestSha256; rc_outcome := ri_outcome input;
          rc_created_at := now |};;
        step ← requireStep (ar_run_id attempt) (ar_step_id attempt);
        write_reconciled attempt (sr_definition step) (ri_outcome input) now;;
        appendEvent (ar_run_id attempt)
          ("operation.reconciled_" +:+ reconciliation_name (ri_outcome input))%string
          (JObj [("stepId", JStr (ar_step_id attempt)); ("operationId", JStr operationId);
                 ("attemptNumber", JNum (Z.of_nat (ar_attempt_number attempt)));
                 ("evidenceIds", jstrs evidenceIds)])
          (ri_actorId input) now;;
        resumeIfNoUnknownOperations (ar_run_id attempt) now;;
        maybeCompleteRun (ar_run_id attempt) (ri_actorId input) now;;
        getRun (ar_run_id attempt)
    end).

(** [ORDER BY run_id, step_id, attempt_number] *)
Definition recovery_order (a b : AttemptRow) : bool :=
  match String.compare (ar_run_id a) (ar_run_id b) with
  | Lt => true
  | Gt => false
  | Eq => match String.compare (ar_step_id a) (ar_step_id b) with
          | Lt => true
          | Gt => false
          | Eq => ar_attempt_number a <=? ar_attempt_number b
          end
  end.

Definition recover_one (actorId : string) (attempt : AttemptRow) : M unit :=
  step ← requireStep (ar_run_id attempt) (ar_step_id attempt);
  now ← nowISO;
  write_outcome_unknown attempt
    (λ a, is_attempt (ar_attempt_id attempt) a &&
          bool_decide (ar_status a = attempt_intent_recorded))
    (sr_definition step) now;;
  appendEvent (ar_run_id attempt) "operation.recovered_as_unknown"
    (JObj [("stepId", JStr (ar_step_id attempt));
           ("operationId", JStr (ar_operation_id attempt));
           ("attemptNumber", JNum (Z.of_nat (ar_attempt_number attempt)))])
    actorId now;;
  mret tt.

Definition recoverInterruptedOperations (actorId : string) : M nat :=
  validateActor actorId;;
  transaction (
    interrupted ← query (λ d, order_by recovery_order (List.filter
      (λ a, bool_decide (ar_status a = attempt_intent_recorded)) (step_attempts d)));
    for_each (recover_one actorId) interrupted;;
    mret (length interrupted)).

Record ResolveHealthGateInput := {
  rg_idempotencyKey : string;
  rg_outcome : GateOutcome;
  rg_evidence : list EvidenceInput;
  rg_actorId : string;
}.

Definition gate_status_of (o : GateOutcome) : HealthGateStatus :=
  match o with decision_passed => gate_passed | decision_failed => gate_failed end.

Definition insert_decision (row : DecisionRow) : M unit :=
  insert "health_gate_decisions" (λ d, decision_constraints d row)
    (on_decisions (λ t, t ++ [row])).

(** [requiredKinds.filter(kind => !providedKinds.has(kind)).length > 0] *)
Definition missing_kinds (required : list string) (evidence : list EvidenceInput) :
    list string :=
  List.filter (λ kind, negb (bool_decide (kind ∈ map ei_kind evidence))) required.

Definition resolveHealthGate (runId gateId : string) (input : ResolveHealthGateInput) :
    M ReleaseRunSnapshot :=
  validateRunId runId;;
  validateIdentifier gateId;;
  validateIdempotencyKey (rg_idempotencyKey input);;
  validateActor (rg_actorId input);;
  let passed := bool_decide (rg_outcome input = decision_passed) in
  require (negb (passed && (length (rg_evidence input) =? 0))) (Fail INVALID_ARGUMENT);;
  let requestSha256 := sha256 (canonicalJson (JObj [
    ("runId", JStr runId); ("gateId", JStr gateId);
    ("outcome", JStr (gate_outcome_name (rg_outcome input)));
    ("evidence", JArr (map json_of_evidence (rg_evidence input)))])) in
  transaction (
    run ← requireRun runId;
    prior ← query (λ d, List.find (λ x, bool_decide (de_run_id x = runId) &&
      bool_decide (de_idempotency_key x = rg_idempotencyKey input)) (health_gate_decisions d));
    match prior with
    | Some p =>
        require (bool_decide (de_request_sha256 p = requestSha256))
          (Fail IDEMPOTENCY_KEY_CONFLICT);;
        getRun runId
    | None =>
        priorGate ← query (λ d, List.find (λ x, bool_decide (de_run_id x = runId) &&
          bool_decide (de_gate_id x = gateId)) (health_gate_decisions d));
        require (bool_decide (priorGate = None)) (Fail INVALID_TRANSITION);;
        require (bool_decide (rr_status run = run_running)) (Fail INVALID_TRANSITION);;
        gateRow ← query (λ d, List.find (is_gate runId gateId) (run_health_gates d));
        gate ← require_some gateRow (Fail GATE_NOT_FOUND);
        require (bool_decide (gr_status gate = gate_pending)) (Fail INVALID_TRANSITION);;
        found ← query (λ d, List.find
          (λ s, bool_decide (sd_healthGateId (sr_definition s) = Some gateId))
          (steps_of runId d));
        healthStep ← require_some found (Fail DEPENDENCY_NOT_SATISFIED);
        require (bool_decide (sr_status healthStep = step_succeeded))
          (Fail DEPENDENCY_NOT_SATISFIED);;
        require (negb passed ||
            (length (missing_kinds (gr_required_evidence_kinds gate) (rg_evidence input)) =? 0))
          (Fail INVALID_ARGUMENT);;
        now ← nowISO;
        evidenceIds ← persistEvidence runId (sr_step_id healthStep) (rg_evidence input) now;
        decisionId ← newUUID;
        insert_decision {|
          de_decision_id := decisionId; de_run_id := runId; de_gate_id := gateId;
          de_idempotency_key := rg_idempotencyKey input;
          de_request_sha256 := requestSha256; de_outcome := rg_outcome input;
          de_created_at := now |};;
        update (on_gates (update_where (is_gate runId gateId) (λ g,
          set_gate_evidence evidenceIds
            (set_gate_status (gate_status_of (rg_outcome input)) g))));;
        (if passed then mret tt else set_status_of_run runId run_failed now);;
        appendEvent runId ("health_gate." +:+ gate_outcome_name (rg_outcome input))%string
          (JObj [("gateId", JStr gateId); ("evidenceIds", jstrs evidenceIds)])
          (rg_actorId input) now;;
        (if passed then maybeCompleteRun runId (rg_actorId input) now else mret tt);;
        getRun runId
    end).
End engine.
