(* ===== verification/ReleaseSpec.v ===== *)
(** * ReleaseSpec: the abstract release machine

    What the engine promises, without storage detail: the runs with their
    status, their steps, gates, attempts and gate decisions ([Core]), and the
    atomic transitions a run may make ([cstep]).  [Refinement.v] shows that
    every engine command performs a sequence of these transitions; the
    invariant [Inv] and the monotonicity relation [evolves] below are proved on
    the transitions alone. *)

From S2P Require Import Prelude Text ReleaseTypes Blueprint Ledger Orchestrator.

(** ** Core states *)

Record Core := {
  c_runs : list (string * ReleaseRunStatus);
  c_steps : list StepRow;
  c_gates : list GateRow;
  c_attempts : list AttemptRow;
  c_decisions : list DecisionRow;
}.

Definition core (d : Db) : Core := {|
  c_runs := map (λ r, (rr_run_id r, rr_status r)) (release_runs d);
  c_steps := run_steps d;
  c_gates := run_health_gates d;
  c_attempts := step_attempts d;
  c_decisions := health_gate_decisions d;
|}.

(** The step status that goes with the status of the step's latest attempt. *)
Definition step_status_of (st : ReleaseAttemptStatus) : ReleaseStepStatus :=
  match st with
  | attempt_intent_recorded => step_in_progress
  | attempt_outcome_unknown => step_outcome_unknown
  | attempt_resolved_not_applied => step_pending
  | attempt_failed => step_failed
  | attempt_succeeded => step_succeeded
  end.

(** The attempt transitions and the run status each one forces. *)
Inductive attempt_moves : ReleaseAttemptStatus → ReleaseAttemptStatus →
    option ReleaseRunStatus → Prop :=
| move_succeeded : attempt_moves attempt_intent_recorded attempt_succeeded None
| move_failed : attempt_moves attempt_intent_recorded attempt_failed (Some run_failed)
| move_unknown : attempt_moves attempt_intent_recorded attempt_outcome_unknown
    (Some run_paused_outcome_unknown)
| move_applied : attempt_moves attempt_outcome_unknown attempt_succeeded None
| move_not_applied : attempt_moves attempt_outcome_unknown attempt_resolved_not_applied None.

Definition same_attempt (a b : AttemptRow) : Prop :=
  ar_attempt_id a = ar_attempt_id b ∧ attempt_key a = attempt_key b ∧
  ar_attempt_number a = ar_attempt_number b ∧ ar_operation_id a = ar_operation_id b ∧
  ar_idempotency_key a = ar_idempotency_key b.

Definition set_run (run : string) (st : ReleaseRunStatus) (rs : list (string * ReleaseRunStatus)) :=
  update_where (λ r, bool_decide (r.1 = run)) (λ r, (r.1, st)) rs.
Definition set_run_opt run (st : option ReleaseRunStatus) rs :=
  match st with Some st => set_run run st rs | None => rs end.

(** [... WHERE run_id = ? AND status = 'paused_outcome_unknown'] *)
Definition resume_run (run : string) (st : ReleaseRunStatus) rs :=
  update_where (λ r : string * ReleaseRunStatus, bool_decide (r.1 = run) &&
    bool_decide (r.2 = run_paused_outcome_unknown)) (λ r, (r.1, st)) rs.

Definition active (st : ReleaseAttemptStatus) : Prop :=
  st = attempt_intent_recorded ∨ st = attempt_outcome_unknown.

(** The steps [s] depends on have succeeded and the gates it requires are passed. *)
Definition may_begin (c : Core) (s : StepRow) : Prop :=
  (∀ d, d ∈ sd_dependsOn (sr_definition s) → ∃ t, t ∈ c_steps c ∧
     step_key t = (sr_run_id s, d) ∧ sr_status t = step_succeeded) ∧
  (∀ g, g ∈ sd_requiredGates (sr_definition s) → ∃ x, x ∈ c_gates c ∧
     gate_key x = (sr_run_id s, g) ∧ gr_status x = gate_passed).

(** ** Transitions *)

Section machine.
Context (bps : list ReleaseWorkflowBlueprint).

(** [resumable run]: this execution may resume [run]; the engine resumes only
    the run of an operation it reconciles. *)
Context (resumable : string → Prop).

Inductive cstep (c : Core) : Core → Prop :=
| cs_create run bp :
    bp ∈ bps → run ∉ (c_runs c).*1 →
    cstep c {|
      c_runs := c_runs c ++ [(run, run_planned)];
      c_steps := c_steps c ++ map (planned_step run) (imap pair (bp_steps bp));
      c_gates := c_gates c ++ map (planned_gate run) (bp_gates bp);
      c_attempts := c_attempts c; c_decisions := c_decisions c |}
| cs_start run :
    (run, run_planned) ∈ c_runs c →
    cstep c {|
      c_runs := set_run run run_running (c_runs c); c_steps := c_steps c;
      c_gates := c_gates c; c_attempts := c_attempts c; c_decisions := c_decisions c |}
| cs_begin run s a :
    (run, run_running) ∈ c_runs c → s ∈ c_steps c → sr_run_id s = run →
    sr_status s = step_pending →
    may_begin c s →
    attempt_key a = step_key s → ar_attempt_number a = sr_attempt_count s + 1 →
    ar_status a = attempt_intent_recorded →
    (∀ b, b ∈ c_attempts c → ar_attempt_id b ≠ ar_attempt_id a) →
    (sr_operation_id s = None ∨
     (sr_operation_id s = Some (ar_operation_id a) ∧
      sr_idempotency_key s = Some (ar_idempotency_key a))) →
    (∀ t, t ∈ c_steps c → sr_run_id t = run →
       sr_idempotency_key t = Some (ar_idempotency_key a) → sr_step_id t = sr_step_id s) →
    cstep c {|
      c_runs := c_runs c;
      c_steps := update_where (is_step run (sr_step_id s))
        (set_step_attempt (ar_attempt_number a) (ar_operation_id a) (ar_idempotency_key a))
        (c_steps c);
      c_gates := c_gates c; c_attempts := c_attempts c ++ [a];
      c_decisions := c_decisions c |}
| cs_move a s y st pa fa pg fg :
    a ∈ c_attempts c → s ∈ c_steps c → step_key s = attempt_key a →
    attempt_moves (ar_status a) y st →
    pa a = true → (∀ b, pa b = true → ar_attempt_id b = ar_attempt_id a) →
    (∀ b, same_attempt (fa b) b ∧ ar_status (fa b) = y) →
    (∀ g, pg g = true → gr_run_id g = ar_run_id a ∧
       sd_healthGateId (sr_definition s) = Some (gr_gate_id g)) →
    (∀ g, gate_key (fg g) = gate_key g ∧
       (gr_status (fg g) = gate_pending ∨ gr_status (fg g) = gate_outcome_unknown)) →
    cstep c {|
      c_runs := set_run_opt (ar_run_id a) st (c_runs c);
      c_steps := update_where (is_step (ar_run_id a) (ar_step_id a))
        (set_step_status (step_status_of y)) (c_steps c);
      c_gates := update_where pg fg (c_gates c);
      c_attempts := update_where pa fa (c_attempts c);
      c_decisions := c_decisions c |}
| cs_resume run st :
    resumable run → (run, run_paused_outcome_unknown) ∈ c_runs c →
    (∀ a, a ∈ c_attempts c → ar_run_id a = run → ¬ active (ar_status a)) →
    (st = run_failed ∨ st = run_running ∧
      ∀ s, s ∈ c_steps c → sr_run_id s = run → sr_status s ≠ step_failed) →
    cstep c {|
      c_runs := resume_run run st (c_runs c); c_steps := c_steps c;
      c_gates := c_gates c; c_attempts := c_attempts c; c_decisions := c_decisions c |}
| cs_complete run st :
    (run, st) ∈ c_runs c → st ≠ run_failed → st ≠ run_paused_outcome_unknown →
    (∀ s, s ∈ c_steps c → sr_run_id s = run → sr_status s = step_succeeded) →
    (∀ g, g ∈ c_gates c → gr_run_id g = run → gr_status g = gate_passed) →
    cstep c {|
      c_runs := set_run run run_succeeded (c_runs c); c_steps := c_steps c;
      c_gates := c_gates c; c_attempts := c_attempts c; c_decisions := c_decisions c |}
| cs_decide run g s x fg :
    (run, run_running) ∈ c_runs c → g ∈ c_gates c → gate_key g = (run, de_gate_id x) →
    gr_status g = gate_pending → de_run_id x = run →
    s ∈ c_steps c → sr_run_id s = run →
    sd_healthGateId (sr_definition s) = Some (de_gate_id x) →
    sr_status s = step_succeeded →
    (∀ y, y ∈ c_decisions c → (de_run_id y, de_gate_id y) ≠ (run, de_gate_id x)) →
    (∀ h, gate_key (fg h) = gate_key h ∧ gr_status (fg h) = gate_status_of (de_outcome x)) →
    cstep c {|
      c_runs := set_run_opt run
        (if bool_decide (de_outcome x = decision_passed) then None else Some run_failed)
        (c_runs c);
      c_steps := c_steps c;
      c_gates := update_where (is_gate run (de_gate_id x)) fg (c_gates c);
      c_attempts := c_attempts c; c_decisions := c_decisions c ++ [x] |}.
End machine.

(** ** The invariant *)

Definition decision_key (x : DecisionRow) : string * string := (de_run_id x, de_gate_id x).

Definition decided (st : HealthGateStatus) : Prop := st = gate_passed ∨ st = gate_failed.

Section invariant.
Context (bps : list ReleaseWorkflowBlueprint).

(** An attempt belongs to a step, carries the step's operation and key, and
    all but the latest attempt of a step were resolved as not applied; the
    latest determines the step's status. *)
Definition attempt_inv (c : Core) (a : AttemptRow) : Prop :=
  ∃ s, s ∈ c_steps c ∧ step_key s = attempt_key a ∧
    sr_operation_id s = Some (ar_operation_id a) ∧
    sr_idempotency_key s = Some (ar_idempotency_key a) ∧
    1 ≤ ar_attempt_number a ≤ sr_attempt_count s ∧
    (ar_attempt_number a < sr_attempt_count s →
       ar_status a = attempt_resolved_not_applied) ∧
    (ar_attempt_number a = sr_attempt_count s →
       sr_status s = step_status_of (ar_status a)).

Definition step_inv (c : Core) (s : StepRow) : Prop :=
  (sr_attempt_count s = 0 ∧ sr_status s = step_pending ∧
   sr_operation_id s = None ∧ sr_idempotency_key s = None) ∨
  (∃ a, a ∈ c_attempts c ∧ attempt_key a = step_key s ∧
     ar_attempt_number a = sr_attempt_count s).

Definition run_inv_of (c : Core) (run : string) (st : ReleaseRunStatus) : Prop :=
  match st with
  | run_planned =>
      ∀ s, s ∈ c_steps c → sr_run_id s = run → sr_attempt_count s = 0
  | run_running =>
      ∀ s, s ∈ c_steps c → sr_run_id s = run →
        sr_status s ≠ step_failed ∧ sr_status s ≠ step_outcome_unknown
  | run_succeeded =>
      (∀ s, s ∈ c_steps c → sr_run_id s = run → sr_status s = step_succeeded) ∧
      (∀ g, g ∈ c_gates c → gr_run_id g = run → gr_status g = gate_passed)
  | _ => True
  end.

(** The steps a step depends on have succeeded, and the gates it requires were
    decided as passed. *)
Definition dependencies_met (c : Core) (s : StepRow) : Prop :=
  (∀ d, d ∈ sd_dependsOn (sr_definition s) → ∃ t, t ∈ c_steps c ∧
     step_key t = (sr_run_id s, d) ∧ sr_status t = step_succeeded) ∧
  (∀ g, g ∈ sd_requiredGates (sr_definition s) → ∃ x, x ∈ c_decisions c ∧
     decision_key x = (sr_run_id s, g) ∧ de_outcome x = decision_passed).

(** At most one step of the run measures the gate.  [validateWorkflowBlueprint] does
    not ask for it: with a second measuring step, the loss of that step's operation
    resets a gate that is already decided. *)
Definition measured_once (steps : list StepRow) (run gate : string) : Prop :=
  ∀ s t, s ∈ steps → t ∈ steps → sr_run_id s = run → sr_run_id t = run →
    sd_healthGateId (sr_definition s) = Some gate →
    sd_healthGateId (sr_definition t) = Some gate → sr_step_id s = sr_step_id t.

Record Inv (c : Core) : Prop := {
  i_runs : NoDup (c_runs c).*1;
  i_steps : NoDup (map step_key (c_steps c));
  i_gates : NoDup (map gate_key (c_gates c));
  i_attempts : NoDup (map ar_attempt_id (c_attempts c));
  i_step_run s : s ∈ c_steps c → sr_run_id s ∈ (c_runs c).*1;
  i_gate_run g : g ∈ c_gates c → gr_run_id g ∈ (c_runs c).*1;
  i_step_def s : s ∈ c_steps c → sr_step_id s = sd_id (sr_definition s);
  i_blueprint run : run ∈ (c_runs c).*1 → ∃ bp, bp ∈ bps ∧
    map sr_definition (List.filter (λ s, bool_decide (sr_run_id s = run)) (c_steps c))
      = bp_steps bp;
  i_attempt a : a ∈ c_attempts c → attempt_inv c a;
  i_step s : s ∈ c_steps c → step_inv c s;
  i_numbers a b : a ∈ c_attempts c → b ∈ c_attempts c → attempt_key a = attempt_key b →
    ar_attempt_number a = ar_attempt_number b → a = b;
  i_run run st : (run, st) ∈ c_runs c → run_inv_of c run st;
  i_met s : s ∈ c_steps c → 0 < sr_attempt_count s → dependencies_met c s;
  i_decided g : g ∈ c_gates c → decided (gr_status g) → ∃ s, s ∈ c_steps c ∧
    sr_run_id s = gr_run_id g ∧ sd_healthGateId (sr_definition s) = Some (gr_gate_id g) ∧
    sr_status s = step_succeeded;
  i_recorded g : g ∈ c_gates c → decided (gr_status g) → ∃ x, x ∈ c_decisions c ∧
    decision_key x = gate_key g ∧ gr_status g = gate_status_of (de_outcome x);
  i_decisions : NoDup (map decision_key (c_decisions c));
  i_decision x : x ∈ c_decisions c → ∃ g, g ∈ c_gates c ∧ gate_key g = decision_key x ∧
    (measured_once (c_steps c) (de_run_id x) (de_gate_id x) →
       gr_status g = gate_status_of (de_outcome x));
}.
End invariant.
