(* ===== verification/ReleaseInv.v ===== *)
(** * ReleaseInv: the abstract machine keeps its invariant

    [cstep_Inv]: every transition of [ReleaseSpec.cstep] preserves
    [ReleaseSpec.Inv], for blueprints that pass validation.  One lemma per kind of
    transition. *)

From S2P Require Import Prelude Text ReleaseTypes Blueprint Ledger Orchestrator ReleaseSpec.

(** ** Lookups in the core tables *)

Lemma is_step_spec run step s : is_step run step s = true ↔ step_key s = (run, step).
Proof.
  unfold is_step, step_key. rewrite andb_true_iff, !bool_decide_eq_true. naive_solver.
Qed.
Lemma is_gate_spec run gate g : is_gate run gate g = true ↔ gate_key g = (run, gate).
Proof.
  unfold is_gate, gate_key. rewrite andb_true_iff, !bool_decide_eq_true. naive_solver.
Qed.

Lemma set_run_fst run st rs : (set_run run st rs).*1 = rs.*1.
Proof. apply map_update_where. done. Qed.

Lemma set_run_opt_fst run st rs : (set_run_opt run st rs).*1 = rs.*1.
Proof. destruct st; [apply set_run_fst|done]. Qed.

Lemma elem_of_set_run run st rs r x :
  (r, x) ∈ set_run run st rs → (r = run ∧ x = st) ∨ (r ≠ run ∧ (r, x) ∈ rs).
Proof.
  unfold set_run. rewrite elem_of_update_where. intros ([r0 x0] & Hin & Heq). cbn in *.
  case_bool_decide; simplify_eq; naive_solver.
Qed.

Lemma elem_of_resume_run run st rs r x :
  (r, x) ∈ resume_run run st rs → (r = run ∧ x = st) ∨ (r, x) ∈ rs.
Proof.
  unfold resume_run. rewrite elem_of_update_where. intros ([r0 x0] & Hin & Heq). cbn in *.
  destruct (_ && _) eqn:E; simplify_eq; [|by right]. bool_inv. by left.
Qed.

Lemma elem_of_fst {A B} (l : list (A * B)) a : a ∈ l.*1 ↔ ∃ b, (a, b) ∈ l.
Proof.
  rewrite list_elem_of_fmap. split.
  - intros ([a' b] & -> & Hin). eauto.
  - intros [b Hin]. by exists (a, b).
Qed.

Lemma runs_functional (rs : list (string * ReleaseRunStatus)) r x y :
  NoDup rs.*1 → (r, x) ∈ rs → (r, y) ∈ rs → x = y.
Proof.
  intros Hd Hx Hy. assert ((r, x) = (r, y)) by (by eapply (NoDup_key_inj fst)).
  congruence.
Qed.

Definition wf_blueprints (bps : list ReleaseWorkflowBlueprint) : Prop :=
  ∀ bp, bp ∈ bps → blueprint_ok bp.

Section preservation.
Context (bps : list ReleaseWorkflowBlueprint) (Hbps : wf_blueprints bps).
Implicit Types c : Core.

Lemma inv_step_eq c s t :
  Inv bps c → s ∈ c_steps c → t ∈ c_steps c → step_key s = step_key t → s = t.
Proof using Type. intros HI. apply NoDup_key_inj, (i_steps _ _ HI). Qed.

Lemma inv_gate_eq c g x :
  Inv bps c → g ∈ c_gates c → x ∈ c_gates c → gate_key g = gate_key x → g = x.
Proof using Type. intros HI. apply NoDup_key_inj, (i_gates _ _ HI). Qed.

Lemma inv_attempt_eq c a b :
  Inv bps c → a ∈ c_attempts c → b ∈ c_attempts c →
  ar_attempt_id a = ar_attempt_id b → a = b.
Proof using Type. intros HI. apply NoDup_key_inj, (i_attempts _ _ HI). Qed.

(** Steps that keep their keys and definitions measure the same gates. *)
Lemma measured_once_back (steps steps' : list StepRow) run gate :
  (∀ s, s ∈ steps → ∃ s', s' ∈ steps' ∧ step_key s' = step_key s ∧
     sr_definition s' = sr_definition s) →
  measured_once steps' run gate → measured_once steps run gate.
Proof using Type.
  intros Hk H s t Hs Ht Rs Rt Gs Gt.
  destruct (Hk s Hs) as (s' & Hs' & [= Ks Js] & Ds), (Hk t Ht) as (t' & Ht' & [= Kt Jt] & Dt).
  rewrite <- Js, <- Jt. apply H; congruence.
Qed.

(** The step of an unresolved attempt is at that attempt and has its status. *)
Lemma inv_active_latest c a s :
  Inv bps c → a ∈ c_attempts c → s ∈ c_steps c → step_key s = attempt_key a →
  active (ar_status a) →
  ar_attempt_number a = sr_attempt_count s ∧ sr_status s = step_status_of (ar_status a).
Proof using Type.
  intros HI Ha Hs Hk Hact.
  destruct (i_attempt _ _ HI a Ha) as (t & Ht & Hkt & _ & _ & Hn & Hlt & Heq).
  assert (t = s) as -> by (apply (inv_step_eq c); congruence).
  destruct (decide (ar_attempt_number a = sr_attempt_count s)); [auto|].
  rewrite Hlt in Hact by lia. by destruct Hact.
Qed.

(** ** Transitions that change run statuses only *)

Lemma Inv_runs c rs :
  Inv bps c → rs.*1 = (c_runs c).*1 →
  (∀ run st, (run, st) ∈ rs → run_inv_of c run st) →
  Inv bps {| c_runs := rs; c_steps := c_steps c; c_gates := c_gates c;
             c_attempts := c_attempts c; c_decisions := c_decisions c |}.
Proof using Type.
  intros [] Hrs Hrun. split; cbn; rewrite ?Hrs; try done.
Qed.

Lemma Inv_set_run c run st :
  Inv bps c → run_inv_of c run st →
  Inv bps {| c_runs := set_run run st (c_runs c); c_steps := c_steps c;
             c_gates := c_gates c; c_attempts := c_attempts c;
             c_decisions := c_decisions c |}.
Proof using Type.
  intros HI Hst. apply Inv_runs; [done|apply set_run_fst|].
  intros r x [[-> ->]|[_ Hin]]%elem_of_set_run; [done|]. by apply (i_run _ _ HI).
Qed.

Lemma Inv_start c run :
  Inv bps c → (run, run_planned) ∈ c_runs c → run_inv_of c run run_running.
Proof using Type.
  intros HI Hr s Hs Hsr. pose proof (i_run _ _ HI _ _ Hr s Hs Hsr) as Hc.
  destruct (i_step _ _ HI s Hs) as [(_ & -> & _)|(a & Ha & Hk & Hn)]; [done|].
  destruct (i_attempt _ _ HI a Ha) as (t & _ & _ & _ & _ & [? _] & _). lia.
Qed.

Lemma Inv_resume c run :
  Inv bps c → (∀ a, a ∈ c_attempts c → ar_run_id a = run → ¬ active (ar_status a)) →
  (∀ s, s ∈ c_steps c → sr_run_id s = run → sr_status s ≠ step_failed) →
  run_inv_of c run run_running.
Proof using Type.
  intros HI Hact Hf s Hs Hsr. split; [by apply Hf|].
  destruct (i_step _ _ HI s Hs) as [(_ & -> & _)|(a & Ha & Hk & Hn)]; [done|].
  intros Hu. destruct (i_attempt _ _ HI a Ha) as (t & Ht & Hkt & _ & _ & _ & _ & Heq).
  assert (t = s) as -> by (apply (inv_step_eq c); congruence).
  rewrite Heq in Hu by done. unfold attempt_key, step_key in Hk.
  apply (Hact a Ha); [congruence|]. destruct (ar_status a); try done. by right.
Qed.

(** ** Transitions that change one step *)

(** The update of the row of one step: rows with another key stay, and the
    columns [f] keeps stay. *)
Section one_step.
Context (c : Core) (s : StepRow) (f : StepRow → StepRow).
Context (HI : Inv bps c) (Hs : s ∈ c_steps c).
Context (Hkey : ∀ t, step_key (f t) = step_key t)
        (Hdef : ∀ t, sr_definition (f t) = sr_definition t).
Let steps' := update_where (is_step (sr_run_id s) (sr_step_id s)) f (c_steps c).

Lemma one_step_elem t' :
  t' ∈ steps' ↔ t' = f s ∨ (t' ∈ c_steps c ∧ step_key t' ≠ step_key s).
Proof using HI Hs.
  unfold steps'. rewrite elem_of_update_where. split.
  - intros (t & Ht & ->). destruct (is_step _ _ t) eqn:E.
    + apply is_step_spec in E. left. f_equal. by apply (inv_step_eq c).
    + right. split; [done|]. intros Hk. by rewrite (proj2 (is_step_spec _ _ t)) in E.
  - intros [->|[Ht Hk]].
    + exists s. split; [done|]. by rewrite (proj2 (is_step_spec _ _ s)).
    + exists t'. split; [done|]. destruct (is_step _ _ t') eqn:E; [|done].
      by apply is_step_spec in E.
Qed.

Lemma one_step_other t : t ∈ c_steps c → sr_status t ≠ sr_status s → t ∈ steps'.
Proof using HI Hs.
  intros Ht Hst. apply one_step_elem. right. split; [done|].
  intros Hk. apply Hst. f_equal. by apply (inv_step_eq c).
Qed.

Lemma one_step_keys : map step_key steps' = map step_key (c_steps c).
Proof using Hkey. apply map_update_where. intros. apply Hkey. Qed.

Lemma one_step_run t' : t' ∈ steps' →
  sr_run_id t' ∈ (c_runs c).*1 ∧ sr_step_id t' = sd_id (sr_definition t').
Proof using HI Hs Hkey Hdef.
  intros [->|[Ht _]]%one_step_elem.
  - specialize (Hkey s). unfold step_key in Hkey. injection Hkey as -> ->.
    rewrite Hdef. split; [by apply (i_step_run _ _ HI)|by apply (i_step_def _ _ HI)].
  - split; [by apply (i_step_run _ _ HI)|by apply (i_step_def _ _ HI)].
Qed.

Lemma one_step_blueprint run :
  map sr_definition (List.filter (λ t, bool_decide (sr_run_id t = run)) steps') =
  map sr_definition (List.filter (λ t, bool_decide (sr_run_id t = run)) (c_steps c)).
Proof using Hkey Hdef.
  unfold steps'. rewrite filter_update_where.
  - apply map_update_where. intros. apply Hdef.
  - intros t _ _. specialize (Hkey t). unfold step_key in Hkey. by injection Hkey as -> _.
Qed.

Lemma one_step_origin t' : t' ∈ steps' →
  ∃ t, t ∈ c_steps c ∧ step_key t = step_key t' ∧ sr_definition t = sr_definition t'.
Proof using Hkey Hdef.
  intros (t & Ht & ->)%elem_of_update_where. exists t. split; [done|].
  by destruct (is_step _ _ t).
Qed.

Lemma one_step_measured run gate :
  measured_once steps' run gate → measured_once (c_steps c) run gate.
Proof using HI Hs Hkey Hdef.
  apply measured_once_back. intros t Ht. eexists. split; [by apply elem_of_update_where_in|].
  by destruct (is_step _ _ t).
Qed.

(** A succeeded dependency survives the update of a step that had not succeeded. *)
Lemma one_step_met t :
  sr_status s ≠ step_succeeded → dependencies_met c t →
  ∀ c', c_steps c' = steps' → c_decisions c' = c_decisions c →
  ∀ t', sr_run_id t' = sr_run_id t → sr_definition t' = sr_definition t →
  dependencies_met c' t'.
Proof using HI Hs.
  intros Hns [Hd Hr] c' Hc1 Hc2 t' Er Ed. unfold dependencies_met.
  rewrite Hc1, Hc2, Er, Ed. split.
  - intros d Hin. destruct (Hd d Hin) as (u & Hu & Hk & Hst).
    exists u. split_and!; [|done..]. apply one_step_other; congruence.
  - done.
Qed.

Lemma one_step_decided g :
  sr_status s ≠ step_succeeded → g ∈ c_gates c → decided (gr_status g) →
  ∃ t, t ∈ steps' ∧ sr_run_id t = gr_run_id g ∧
    sd_healthGateId (sr_definition t) = Some (gr_gate_id g) ∧
    sr_status t = step_succeeded.
Proof using HI Hs.
  intros Hns Hg Hd. destruct (i_decided _ _ HI g Hg Hd) as (t & Ht & ? & ? & Hst).
  exists t. split_and!; [|done..]. apply one_step_other; congruence.
Qed.
End one_step.

(** The earlier attempts of a step that begins again were resolved as not applied. *)
Lemma begin_attempt_old c s a b c' :
  Inv bps c → s ∈ c_steps c → sr_status s = step_pending →
  ar_attempt_number a = sr_attempt_count s + 1 →
  (sr_operation_id s = None ∨
   (sr_operation_id s = Some (ar_operation_id a) ∧
    sr_idempotency_key s = Some (ar_idempotency_key a))) →
  c_steps c' = update_where (is_step (sr_run_id s) (sr_step_id s))
    (set_step_attempt (ar_attempt_number a) (ar_operation_id a) (ar_idempotency_key a))
    (c_steps c) →
  b ∈ c_attempts c → attempt_inv c' b.
Proof using Type.
  intros HI Hs Hp Hn Hop Hc' Hb. unfold attempt_inv. rewrite Hc'.
  set (f := set_step_attempt _ _ _). pose proof (one_step_elem c s f HI Hs) as Helem.
  destruct (i_attempt _ _ HI b Hb) as (t & Ht & Hkt & Hopt & Hit & Hnt & Hlt & Heq).
  destruct (decide (step_key t = step_key s)) as [Hts|Hts].
  - assert (t = s) as -> by (by apply (inv_step_eq c)).
    destruct Hop as [Hop|[Hop Hid]]; [congruence|].
    exists (f s). split_and!; [apply Helem; by left|done|cbn; congruence|cbn; congruence|..];
      cbn; rewrite ?Hn; try lia.
    intros _. destruct (decide (ar_attempt_number b = sr_attempt_count s)) as [E|E];
      [|apply Hlt; lia].
    specialize (Heq E). rewrite Hp in Heq. by destruct (ar_status b).
  - exists t. split_and!; try done; [apply Helem; by right|lia..].
Qed.

Lemma begin_number_fresh c s b :
  Inv bps c → s ∈ c_steps c → b ∈ c_attempts c → attempt_key b = step_key s →
  ar_attempt_number b ≤ sr_attempt_count s.
Proof using Type.
  intros HI Hs Hb Hbk. destruct (i_attempt _ _ HI b Hb) as (t & Ht & Hkt & _ & _ & Hnt & _).
  assert (t = s) as -> by (apply (inv_step_eq c); congruence). lia.
Qed.

Lemma Inv_begin c s a :
  Inv bps c → (sr_run_id s, run_running) ∈ c_runs c → s ∈ c_steps c →
  sr_status s = step_pending → dependencies_met c s →
  attempt_key a = step_key s → ar_attempt_number a = sr_attempt_count s + 1 →
  ar_status a = attempt_intent_recorded →
  (∀ b, b ∈ c_attempts c → ar_attempt_id b ≠ ar_attempt_id a) →
  (sr_operation_id s = None ∨
   (sr_operation_id s = Some (ar_operation_id a) ∧
    sr_idempotency_key s = Some (ar_idempotency_key a))) →
  Inv bps {|
    c_runs := c_runs c;
    c_steps := update_where (is_step (sr_run_id s) (sr_step_id s))
      (set_step_attempt (ar_attempt_number a) (ar_operation_id a) (ar_idempotency_key a))
      (c_steps c);
    c_gates := c_gates c; c_attempts := c_attempts c ++ [a];
    c_decisions := c_decisions c |}.
Proof using Type.
  intros HI Hr Hs Hp Hmet Hk Hn Ha Hfresh Hop.
  set (f := set_step_attempt _ _ _).
  assert (∀ t, step_key (f t) = step_key t) as Hkey by done.
  assert (∀ t, sr_definition (f t) = sr_definition t) as Hdef by done.
  assert (sr_status s ≠ step_succeeded) as Hns by congruence.
  pose proof (one_step_elem c s f HI Hs) as Helem.
  split; cbn -[f].
  - apply (i_runs _ _ HI).
  - rewrite one_step_keys by done. apply (i_steps _ _ HI).
  - apply (i_gates _ _ HI).
  - apply NoDup_key_snoc; [apply (i_attempts _ _ HI)|done].
  - intros t Ht. eapply one_step_run; eauto.
  - apply (i_gate_run _ _ HI).
  - intros t Ht. eapply one_step_run; eauto.
  - intros run Hrun. rewrite one_step_blueprint by done. by apply (i_blueprint _ _ HI).
  - intros b [Hb| ->]%elem_of_snoc; [by eapply begin_attempt_old|].
    exists (f s). split_and!; try done; [apply Helem; by left|cbn; lia..|].
    cbn. by rewrite Ha.
  - intros t [->|[Ht Hts]]%Helem.
    + right. exists a. split_and!; [apply elem_of_snoc; by right|done|done].
    + destruct (i_step _ _ HI t Ht) as [?|(b & Hb & ?)]; [by left|].
      right. exists b. split; [apply elem_of_snoc; by left|done].
  - assert (∀ b, b ∈ c_attempts c → attempt_key b = attempt_key a →
      ar_attempt_number b ≠ ar_attempt_number a) as Hnum.
    { intros b Hb Hbk. pose proof (begin_number_fresh c s b HI Hs Hb). rewrite Hbk, Hk in *. naive_solver lia. }
    intros b1 b2 [H1| ->]%elem_of_snoc [H2| ->]%elem_of_snoc Hbk Hbn; try done.
    + by apply (i_numbers _ _ HI).
    + by destruct (Hnum b1).
    + by destruct (Hnum b2).
  - intros run st Hst. pose proof (i_run _ _ HI _ _ Hst) as Hi.
    assert (run = sr_run_id s → st = run_running) as Hrs.
    { intros ->. eapply runs_functional; eauto using i_runs. }
    destruct st; cbn in *; try done.
    + intros t [->|[Ht _]]%Helem Htr; [|by apply Hi]. by specialize (Hrs (eq_sym Htr)).
    + intros t [->|[Ht _]]%Helem Htr; [done|by apply Hi].
    + split; [|apply Hi].
      intros t [->|[Ht _]]%Helem Htr; [|by apply Hi]. by specialize (Hrs (eq_sym Htr)).
  - intros t [->|[Ht _]]%Helem Hc.
    + by eapply (one_step_met c s f HI Hs s).
    + eapply (one_step_met c s f HI Hs t); try done. by apply (i_met _ _ HI).
  - intros g Hg Hd. by eapply one_step_decided.
  - apply (i_recorded _ _ HI).
  - apply (i_decisions _ _ HI).
  - intros x Hx. destruct (i_decision _ _ HI x Hx) as (g & Hg & Hgk & Hgs).
    exists g. split_and!; [done..|]. intros Ho. by eapply Hgs, one_step_measured.
Qed.

(** A decided gate that one step measures is not measured by a step that has not
    succeeded. *)
Lemma inv_undecided c s g :
  Inv bps c → s ∈ c_steps c → g ∈ c_gates c → sr_status s ≠ step_succeeded →
  gr_run_id g = sr_run_id s → measured_once (c_steps c) (gr_run_id g) (gr_gate_id g) →
  sd_healthGateId (sr_definition s) = Some (gr_gate_id g) → ¬ decided (gr_status g).
Proof using Type.
  intros HI Hs Hg Hns Hr Ho Hh Hd.
  destruct (i_decided _ _ HI g Hg Hd) as (t & Ht & Htr & Hth & Hst).
  assert (s = t) as ->; [|done]. apply (inv_step_eq c); [done..|].
  unfold step_key. f_equal; [congruence|]. by apply Ho.
Qed.

(** ** Outcomes of an attempt *)

Section move.
Context (c : Core) (a : AttemptRow) (s : StepRow) (y : ReleaseAttemptStatus)
        (st : option ReleaseRunStatus) (pa : AttemptRow → bool) (fa : AttemptRow → AttemptRow)
        (pg : GateRow → bool) (fg : GateRow → GateRow).
Context (HI : Inv bps c) (Ha : a ∈ c_attempts c) (Hs : s ∈ c_steps c)
        (Hk : step_key s = attempt_key a) (Hmv : attempt_moves (ar_status a) y st)
        (Hpa : pa a = true) (Hpa' : ∀ b, pa b = true → ar_attempt_id b = ar_attempt_id a)
        (Hfa : ∀ b, same_attempt (fa b) b ∧ ar_status (fa b) = y)
        (Hpg : ∀ g, pg g = true → gr_run_id g = ar_run_id a ∧
           sd_healthGateId (sr_definition s) = Some (gr_gate_id g))
        (Hfg : ∀ g, gate_key (fg g) = gate_key g ∧
           (gr_status (fg g) = gate_pending ∨ gr_status (fg g) = gate_outcome_unknown)).
Let f := set_step_status (step_status_of y).
Let moved : Core := {|
  c_runs := set_run_opt (ar_run_id a) st (c_runs c);
  c_steps := update_where (is_step (sr_run_id s) (sr_step_id s)) f (c_steps c);
  c_gates := update_where pg fg (c_gates c);
  c_attempts := update_where pa fa (c_attempts c);
  c_decisions := c_decisions c |}.

Lemma move_ids : ar_run_id a = sr_run_id s ∧ ar_step_id a = sr_step_id s.
Proof using Hk. exact (conj (eq_sym (f_equal fst Hk)) (eq_sym (f_equal snd Hk))). Qed.

Lemma move_active : active (ar_status a).
Proof using Hmv. inversion Hmv; [left..|right|right]; done. Qed.

Lemma move_not_succeeded : sr_status s ≠ step_succeeded.
Proof using HI Ha Hs Hk Hmv.
  destruct (inv_active_latest c a s HI Ha Hs Hk move_active) as [_ Hst]. rewrite Hst.
  by destruct move_active as [-> | ->].
Qed.

Lemma move_steps_elem t' :
  t' ∈ c_steps moved ↔ t' = f s ∨ (t' ∈ c_steps c ∧ step_key t' ≠ step_key s).
Proof using HI Hs. by apply one_step_elem. Qed.

Lemma move_attempts_elem b' : b' ∈ c_attempts moved ↔ b' = fa a ∨ (b' ∈ c_attempts c ∧ b' ≠ a).
Proof using HI Ha Hpa Hpa'.
  cbn. rewrite elem_of_update_where. split.
  - intros (b & Hb & ->). destruct (pa b) eqn:E; [|right; split; congruence].
    left. f_equal. apply (inv_attempt_eq c); auto.
  - intros [->|[Hb Hne]]; [exists a; by rewrite Hpa|]. exists b'. split; [done|].
    destruct (pa b') eqn:E; [|done]. destruct Hne. apply (inv_attempt_eq c); auto.
Qed.

(** A decided gate that one step measures stays: the step has succeeded. *)
Lemma move_decided_gate x :
  x ∈ c_gates c → measured_once (c_steps c) (gr_run_id x) (gr_gate_id x) →
  decided (gr_status x) → x ∈ c_gates moved.
Proof using HI Ha Hs Hk Hmv Hpg.
  intros Hx Ho Hd. apply elem_of_update_where. exists x. split; [done|].
  destruct (pg x) eqn:E; [|done]. apply Hpg in E as [E1 E2].
  exfalso. eapply (inv_undecided c s x); eauto using move_not_succeeded.
  destruct move_ids. congruence.
Qed.

Lemma move_gate_run g : g ∈ c_gates moved → gr_run_id g ∈ (c_runs c).*1.
Proof using HI Hfg.
  intros (g0 & Hg0 & ->)%elem_of_update_where. destruct (pg g0); [|by apply (i_gate_run _ _ HI)].
  destruct (Hfg g0) as [Hgk _]. unfold gate_key in Hgk. injection Hgk as -> _.
  by apply (i_gate_run _ _ HI).
Qed.

Lemma move_attempt b : b ∈ c_attempts moved → attempt_inv moved b.
Proof using HI Ha Hs Hk Hmv Hpa Hpa' Hfa.
  destruct (inv_active_latest c a s HI Ha Hs Hk move_active) as [Hnum _].
  pose proof (Hfa a) as [(_ & Hfk & Hfn & Hfo & Hfi) Hfs].
  intros [->|[Hb Hne]]%move_attempts_elem.
  - destruct (i_attempt _ _ HI a Ha) as (t & Ht & Hkt & Hop & Hid & Hn & _).
    assert (t = s) as -> by (apply (inv_step_eq c); congruence).
    exists (f s). cbn. rewrite Hfk, Hfn, Hfo, Hfi, Hfs.
    split_and!; try done; [apply move_steps_elem; by left|lia..].
  - destruct (i_attempt _ _ HI b Hb) as (t & Ht & Hkt & Hop & Hid & Hn & Hlt & Heq).
    destruct (decide (step_key t = step_key s)) as [Hts|Hts].
    + assert (t = s) as -> by (by apply (inv_step_eq c)).
      exists (f s). split_and!; try done; [apply move_steps_elem; by left|cbn; lia..|].
      intros E. cbn in E. destruct Hne. apply (i_numbers _ _ HI); congruence.
    + exists t. split_and!; try done; [apply move_steps_elem; by right|lia..].
Qed.

Lemma move_step t : t ∈ c_steps moved → step_inv moved t.
Proof using HI Ha Hs Hk Hmv Hfa.
  destruct (inv_active_latest c a s HI Ha Hs Hk move_active) as [Hnum _].
  assert (∀ b, b ∈ c_attempts c → ∃ b', b' ∈ c_attempts moved ∧
    attempt_key b' = attempt_key b ∧ ar_attempt_number b' = ar_attempt_number b) as Hb'.
  { intros b Hb. eexists. split; [by apply elem_of_update_where_in|].
    destruct (pa b); [|done]. by destruct (Hfa b) as [(_ & ? & ? & _) _]. }
  intros [->|[Ht Hts]]%move_steps_elem.
  - right. destruct (Hb' a Ha) as (b' & ? & Hbk & Hbn). exists b'. cbn.
    split_and!; [done|by rewrite Hbk|by rewrite Hbn].
  - destruct (i_step _ _ HI t Ht) as [?|(b & Hb & Hbk & Hbn)]; [by left|]. right.
    destruct (Hb' b Hb) as (b' & ? & Hbk' & Hbn'). exists b'.
    split_and!; [done|congruence..].
Qed.

Lemma move_numbers b1 b2 :
  b1 ∈ c_attempts moved → b2 ∈ c_attempts moved → attempt_key b1 = attempt_key b2 →
  ar_attempt_number b1 = ar_attempt_number b2 → b1 = b2.
Proof using HI Hfa.
  intros (d1 & H1 & ->)%elem_of_update_where (d2 & H2 & ->)%elem_of_update_where Hbk Hbn.
  assert (d1 = d2) as ->; [|done].
  destruct (Hfa d1) as [(_ & F1 & G1 & _) _], (Hfa d2) as [(_ & F2 & G2 & _) _].
  apply (i_numbers _ _ HI); [done..| |]; destruct (pa d1), (pa d2); congruence.
Qed.

(** A run that is not stopped by the move keeps what its status promises. *)
Lemma move_run_status run x :
  (run, x) ∈ c_runs moved →
  (run_inv_of c run x ∧ (run = sr_run_id s → y ≠ attempt_succeeded →
     y ≠ attempt_resolved_not_applied → x = run_failed ∨ x = run_paused_outcome_unknown)) ∨
  x = run_failed ∨ x = run_paused_outcome_unknown.
Proof using HI Hk Hmv.
  destruct move_ids as [Er _]. cbn. rewrite Er. destruct st as [st'|]; cbn; intros Hx.
  - apply elem_of_set_run in Hx as [[_ ->]|[Hne Hx]]; [right; inversion Hmv; auto|].
    left. split; [by apply (i_run _ _ HI)|congruence].
  - left. split; [by apply (i_run _ _ HI)|]. inversion Hmv; congruence.
Qed.

Lemma move_run run x : (run, x) ∈ c_runs moved → run_inv_of moved run x.
Proof using HI Ha Hs Hk Hmv Hpa Hpa' Hfa Hpg Hfg.
  pose proof move_not_succeeded as Hns. destruct move_ids as [Er _].
  intros [[Hi Hy]|[-> | ->]]%move_run_status; [|exact I..].
  destruct x; cbn in Hi |- *; try done.
  - intros t [->|[Ht _]]%move_steps_elem Htr; [|by apply Hi]. cbn. by apply Hi.
  - intros t [->|[Ht _]]%move_steps_elem Htr; [|by apply Hi]. cbn in *.
    destruct y; cbn; try done; by destruct Hy.
  - destruct Hi as [Hi1 Hi2]. split.
    + intros t [->|[Ht _]]%move_steps_elem Htr; [|by apply Hi1]. by destruct Hns; apply Hi1.
    + intros g (g0 & Hg0 & ->)%elem_of_update_where Hgr.
      destruct (pg g0) eqn:E; [|by apply Hi2].
      apply Hpg in E as [E1 E2]. destruct (Hfg g0) as [Hgk _].
      unfold gate_key in Hgk. destruct Hns. apply Hi1; congruence.
Qed.

Lemma move_met t : t ∈ c_steps moved → 0 < sr_attempt_count t → dependencies_met moved t.
Proof using HI Ha Hs Hk Hmv Hpa Hpa' Hfa Hpg Hfg.
  intros Ht Hc. assert (∃ t0, t0 ∈ c_steps c ∧ sr_run_id t = sr_run_id t0 ∧
    sr_definition t = sr_definition t0 ∧ sr_attempt_count t = sr_attempt_count t0)
    as (t0 & Ht0 & E1 & E2 & E3).
  { apply move_steps_elem in Ht as [->|[Ht _]]; [by exists s|by exists t]. }
  eapply (one_step_met c s f HI Hs t0); try done.
  - apply move_not_succeeded.
  - apply (i_met _ _ HI); [done|lia].
Qed.

Lemma move_decided g : g ∈ c_gates moved → decided (gr_status g) → ∃ t, t ∈ c_steps moved ∧
  sr_run_id t = gr_run_id g ∧ sd_healthGateId (sr_definition t) = Some (gr_gate_id g) ∧
  sr_status t = step_succeeded.
Proof using HI Ha Hs Hk Hmv Hpa Hpa' Hfa Hpg Hfg.
  intros (g0 & Hg0 & ->)%elem_of_update_where Hd. destruct (pg g0).
  { by destruct (Hfg g0) as [_ [E|E]]; rewrite E in Hd; destruct Hd. }
  apply one_step_decided; auto using move_not_succeeded.
Qed.

Lemma move_recorded g : g ∈ c_gates moved → decided (gr_status g) → ∃ x, x ∈ c_decisions c ∧
  decision_key x = gate_key g ∧ gr_status g = gate_status_of (de_outcome x).
Proof using HI Hfg.
  intros (g0 & Hg0 & ->)%elem_of_update_where Hd. destruct (pg g0).
  { by destruct (Hfg g0) as [_ [E|E]]; rewrite E in Hd; destruct Hd. }
  by apply (i_recorded _ _ HI).
Qed.

(** A decision keeps its gate, and the gate its status if one step measures it. *)
Lemma move_decision x : x ∈ c_decisions c → ∃ g, g ∈ c_gates moved ∧
  gate_key g = decision_key x ∧
  (measured_once (c_steps moved) (de_run_id x) (de_gate_id x) →
     gr_status g = gate_status_of (de_outcome x)).
Proof using HI Ha Hs Hk Hmv Hpg Hfg.
  intros Hx. destruct (i_decision _ _ HI x Hx) as (g & Hg & Hgk & Hgs).
  eexists. split; [by apply elem_of_update_where_in|]. split.
  - rewrite <- Hgk. destruct (pg g); [apply Hfg|done].
  - intros Ho%one_step_measured; [|done..]. specialize (Hgs Ho).
    pose proof Hgk as [= Er Eg]. destruct (pg g) eqn:E; [|done].
    apply Hpg in E as [E1 E2]. exfalso.
    eapply (inv_undecided c s g); eauto using move_not_succeeded.
    + destruct move_ids. congruence.
    + by rewrite Er, Eg.
    + rewrite Hgs. destruct (de_outcome x); [by left|by right].
Qed.

Lemma Inv_moved : Inv bps moved.
Proof using HI Ha Hs Hk Hmv Hpa Hpa' Hfa Hpg Hfg.
  assert (∀ t, step_key (f t) = step_key t) as Hkey by done.
  assert (∀ t, sr_definition (f t) = sr_definition t) as Hdef by done.
  split.
  - cbn. rewrite set_run_opt_fst. apply (i_runs _ _ HI).
  - cbn. rewrite one_step_keys by done. apply (i_steps _ _ HI).
  - cbn. rewrite (map_update_where gate_key); [apply (i_gates _ _ HI)|]. intros. apply Hfg.
  - cbn. rewrite (map_update_where ar_attempt_id); [apply (i_attempts _ _ HI)|].
    intros b _ _. apply Hfa.
  - cbn. intros t Ht. rewrite set_run_opt_fst. eapply one_step_run; eauto.
  - intros g Hg. cbn. rewrite set_run_opt_fst. by apply move_gate_run.
  - intros t Ht. eapply (one_step_run c s f); eauto.
  - cbn. intros run Hrun. rewrite set_run_opt_fst in Hrun.
    rewrite one_step_blueprint by done. by apply (i_blueprint _ _ HI).
  - exact move_attempt.
  - exact move_step.
  - exact move_numbers.
  - exact move_run.
  - exact move_met.
  - exact move_decided.
  - exact move_recorded.
  - apply (i_decisions _ _ HI).
  - exact move_decision.
Qed.
End move.

Lemma Inv_move c a s y st pa fa pg fg :
  Inv bps c → a ∈ c_attempts c → s ∈ c_steps c → step_key s = attempt_key a →
  attempt_moves (ar_status a) y st →
  pa a = true → (∀ b, pa b = true → ar_attempt_id b = ar_attempt_id a) →
  (∀ b, same_attempt (fa b) b ∧ ar_status (fa b) = y) →
  (∀ g, pg g = true → gr_run_id g = ar_run_id a ∧
     sd_healthGateId (sr_definition s) = Some (gr_gate_id g)) →
  (∀ g, gate_key (fg g) = gate_key g ∧
     (gr_status (fg g) = gate_pending ∨ gr_status (fg g) = gate_outcome_unknown)) →
  Inv bps {|
    c_runs := set_run_opt (ar_run_id a) st (c_runs c);
    c_steps := update_where (is_step (ar_run_id a) (ar_step_id a))
      (set_step_status (step_status_of y)) (c_steps c);
    c_gates := update_where pg fg (c_gates c);
    c_attempts := update_where pa fa (c_attempts c);
    c_decisions := c_decisions c |}.
Proof using Type.
  intros HI Ha Hs Hk. destruct (move_ids a s Hk) as [_ ->].
  assert (ar_run_id a = sr_run_id s) as E by apply (move_ids a s Hk).
  intros Hmv Hpa Hpa' Hfa Hpg Hfg. rewrite E at 2. by apply Inv_moved.
Qed.

(** ** Gate decisions *)

Lemma Inv_decide c run g s x fg :
  Inv bps c → (run, run_running) ∈ c_runs c → g ∈ c_gates c →
  gate_key g = (run, de_gate_id x) → gr_status g = gate_pending → de_run_id x = run →
  s ∈ c_steps c → sr_run_id s = run →
  sd_healthGateId (sr_definition s) = Some (de_gate_id x) → sr_status s = step_succeeded →
  (∀ y, y ∈ c_decisions c → (de_run_id y, de_gate_id y) ≠ (run, de_gate_id x)) →
  (∀ h, gate_key (fg h) = gate_key h ∧ gr_status (fg h) = gate_status_of (de_outcome x)) →
  Inv bps {|
    c_runs := set_run_opt run
      (if bool_decide (de_outcome x = decision_passed) then None else Some run_failed)
      (c_runs c);
    c_steps := c_steps c;
    c_gates := update_where (is_gate run (de_gate_id x)) fg (c_gates c);
    c_attempts := c_attempts c; c_decisions := c_decisions c ++ [x] |}.
Proof using Type.
  intros HI Hr Hg Hgk Hgp Hxr Hs Hsr Hsh Hst Hnew Hfg.
  assert (∀ h', h' ∈ update_where (is_gate run (de_gate_id x)) fg (c_gates c) ↔
    h' = fg g ∨ (h' ∈ c_gates c ∧ gate_key h' ≠ (run, de_gate_id x))) as Hel.
  { intros h'. rewrite elem_of_update_where. split.
    - intros (h & Hh & ->). destruct (is_gate _ _ h) eqn:E.
      + left. apply is_gate_spec in E. f_equal. apply (inv_gate_eq c); congruence.
      + right. split; [done|]. intros Hk. by rewrite (proj2 (is_gate_spec _ _ h)) in E.
    - intros [->|[Hh Hk]].
      + exists g. by rewrite (proj2 (is_gate_spec _ _ g)).
      + exists h'. split; [done|]. destruct (is_gate _ _ h') eqn:E; [|done].
        by apply is_gate_spec in E. }
  destruct (Hfg g) as [Hfk Hfs].
  split; cbn; try apply HI.
  - rewrite set_run_opt_fst. apply HI.
  - rewrite (map_update_where gate_key); [apply HI|]. intros. apply Hfg.
  - rewrite set_run_opt_fst. apply HI.
  - intros h [->|[Hh _]]%Hel; rewrite set_run_opt_fst; [|by apply (i_gate_run _ _ HI)].
    unfold gate_key in Hfk. injection Hfk as -> _. by apply (i_gate_run _ _ HI).
  - rewrite set_run_opt_fst. apply HI.
  - intros r st Hst'. assert (run_inv_of c r st ∨ st = run_failed) as [Hi| ->]; [| |exact I].
    { case_bool_decide; cbn in Hst'; [left; by apply (i_run _ _ HI)|].
      apply elem_of_set_run in Hst' as [[_ ->]|[_ ?]]; [by right|].
      left. by apply (i_run _ _ HI). }
    destruct st; try done. cbn. destruct Hi as [Hi1 Hi2]. split; [done|].
    intros h [->|[Hh _]]%Hel Hhr; [|by apply Hi2].
    assert (r = run) as ->.
    { unfold gate_key in Hfk, Hgk. injection Hfk as Hfr _. congruence. }
    rewrite Hi2 in Hgp; [done..|]. unfold gate_key in Hgk. by injection Hgk.
  - intros t Ht Hc. destruct (i_met _ _ HI t Ht Hc) as [Hd Hq]. split; [done|].
    intros q Hin. destruct (Hq q Hin) as (z & Hz & ?).
    exists z. split; [apply elem_of_snoc; by left|done].
  - intros h [->|[Hh _]]%Hel Hd; [|by apply (i_decided _ _ HI)].
    exists s. unfold gate_key in Hfk, Hgk. injection Hfk as -> ->.
    injection Hgk as -> ->. done.
  - intros h [->|[Hh _]]%Hel Hd.
    + exists x. split_and!; [apply elem_of_snoc; by right| |done].
      unfold decision_key. congruence.
    + destruct (i_recorded _ _ HI h Hh Hd) as (z & Hz & ?).
      exists z. split; [apply elem_of_snoc; by left|done].
  - apply NoDup_key_snoc; [apply HI|]. intros z Hz. unfold decision_key. rewrite Hxr. by apply Hnew.
  - intros y [Hy| ->]%elem_of_snoc.
    + destruct (i_decision _ _ HI y Hy) as (h & Hh & Hhk & Hhs).
      exists h. split_and!; [|done..]. apply Hel. right. split; [done|].
      rewrite Hhk. by apply Hnew.
    + exists (fg g). split_and!; [apply Hel; by left|unfold decision_key; congruence|done].
Qed.

(** ** New runs *)

Lemma map_snd_imap {A} (l : list A) : map snd (imap pair l) = l.
Proof using Type.
  change (snd <$> imap pair l = l). rewrite fmap_imap.
  etrans; [apply (imap_const id)|apply list_fmap_id].
Qed.

Lemma planned_steps_elem run l s :
  s ∈ map (planned_step run) (imap pair l) →
  sr_run_id s = run ∧ sr_step_id s = sd_id (sr_definition s) ∧
  sr_attempt_count s = 0 ∧ sr_status s = step_pending ∧
  sr_operation_id s = None ∧ sr_idempotency_key s = None.
Proof using Type. intros (e & <- & _)%list_elem_of_In%in_map_iff. done. Qed.

Lemma planned_gates_elem run l g :
  g ∈ map (planned_gate run) l → gr_run_id g = run ∧ gr_status g = gate_pending.
Proof using Type. intros (e & <- & _)%list_elem_of_In%in_map_iff. done. Qed.

Lemma planned_steps_defs run l :
  map sr_definition (map (planned_step run) (imap pair l)) = l.
Proof using Type. rewrite map_map. cbn. apply map_snd_imap. Qed.

Lemma NoDup_keys_app {R K} (key : R → string * K) (run : string) (t t' : list R) :
  NoDup (map key t) → NoDup (map key t') →
  (∀ r, r ∈ t → (key r).1 ≠ run) → (∀ r, r ∈ t' → (key r).1 = run) →
  NoDup (map key (t ++ t')).
Proof using Type.
  intros Hd Hd' Hn Hr. rewrite map_app. apply NoDup_app. split_and!; [done| |done].
  intros k (r & <- & Hin)%list_elem_of_In%in_map_iff (r' & E & Hin')%list_elem_of_In%in_map_iff.
  apply (Hn r); [by apply list_elem_of_In|]. rewrite <- E. apply Hr. by apply list_elem_of_In.
Qed.

Lemma planned_steps_keys run bp :
  blueprint_ok bp → NoDup (map step_key (map (planned_step run) (imap pair (bp_steps bp)))).
Proof using Type.
  intros Hok. rewrite map_map. unfold step_key. cbn.
  rewrite <- (map_map snd (λ d, (run, sd_id d))), map_snd_imap.
  rewrite <- (map_map sd_id (pair run)).
  apply (NoDup_fmap_2 (pair run)), (bp_ok_steps_nodup _ Hok).
Qed.

(** The definitions of the steps of a run, with the steps of a new run added. *)
Lemma planned_blueprint_other run r l steps :
  r ≠ run →
  map sr_definition (List.filter (λ s, bool_decide (sr_run_id s = r))
    (steps ++ map (planned_step run) (imap pair l))) =
  map sr_definition (List.filter (λ s, bool_decide (sr_run_id s = r)) steps).
Proof using Type.
  intros Hn. rewrite List.filter_app, map_app, (filter_none _ (map _ _)).
  - cbn. by rewrite app_nil_r.
  - intros s [Hs _]%planned_steps_elem. apply bool_decide_eq_false. congruence.
Qed.

Lemma planned_blueprint run l steps :
  (∀ s, s ∈ steps → sr_run_id s ≠ run) →
  map sr_definition (List.filter (λ s, bool_decide (sr_run_id s = run))
    (steps ++ map (planned_step run) (imap pair l))) = l.
Proof using Type.
  intros Hold. rewrite List.filter_app, map_app, (filter_none _ steps), filter_all.
  - apply planned_steps_defs.
  - intros s [Hs _]%planned_steps_elem. by apply bool_decide_eq_true.
  - intros s Hs. apply bool_decide_eq_false. by apply Hold.
Qed.

Lemma dependencies_met_mono c c' s :
  (∀ t, t ∈ c_steps c → t ∈ c_steps c') → (∀ x, x ∈ c_decisions c → x ∈ c_decisions c') →
  dependencies_met c s → dependencies_met c' s.
Proof using Type.
  intros Hst Hgt [Hd Hg]. split.
  - intros d Hin. destruct (Hd d Hin) as (t & Ht & ?). eauto.
  - intros g Hin. destruct (Hg g Hin) as (x & Hx & ?). eauto.
Qed.

Lemma Inv_create c run bp :
  Inv bps c → bp ∈ bps → run ∉ (c_runs c).*1 →
  Inv bps {|
    c_runs := c_runs c ++ [(run, run_planned)];
    c_steps := c_steps c ++ map (planned_step run) (imap pair (bp_steps bp));
    c_gates := c_gates c ++ map (planned_gate run) (bp_gates bp);
    c_attempts := c_attempts c; c_decisions := c_decisions c |}.
Proof using Hbps.
  intros HI Hbp Hnew. pose proof (Hbps bp Hbp) as Hok.
  assert (∀ s, s ∈ c_steps c → sr_run_id s ≠ run) as Hold.
  { intros s Hs <-. by apply Hnew, (i_step_run _ _ HI). }
  assert (∀ g, g ∈ c_gates c → gr_run_id g ≠ run) as Holdg.
  { intros s Hs <-. by apply Hnew, (i_gate_run _ _ HI). }
  split; cbn; try apply HI.
  - rewrite fmap_app. apply NoDup_app. split_and!; [apply HI| |apply NoDup_singleton].
    intros r Hr ->%list_elem_of_singleton. done.
  - apply (NoDup_keys_app step_key run); [apply HI| |done|].
    + by apply planned_steps_keys.
    + by intros s [? _]%planned_steps_elem.
  - apply (NoDup_keys_app gate_key run); [apply HI| |done|].
    + rewrite map_map. unfold gate_key. cbn. rewrite <- (map_map gd_id (pair run)).
      apply (NoDup_fmap_2 (pair run)), (bp_ok_gates_nodup _ Hok).
    + by intros g [? _]%planned_gates_elem.
  - intros s [Hs|[-> _]%planned_steps_elem]%elem_of_app; rewrite fmap_app; apply elem_of_app.
    + left. by apply (i_step_run _ _ HI).
    + right. left.
  - intros g [Hg|[-> _]%planned_gates_elem]%elem_of_app; rewrite fmap_app; apply elem_of_app.
    + left. by apply (i_gate_run _ _ HI).
    + right. left.
  - intros s [Hs|(_ & ? & _)%planned_steps_elem]%elem_of_app; [by apply (i_step_def _ _ HI)|done].
  - intros r Hr. rewrite fmap_app in Hr. apply elem_of_app in Hr as [Hr|Hr].
    + rewrite planned_blueprint_other by congruence. by apply (i_blueprint _ _ HI).
    + apply list_elem_of_singleton in Hr as ->. exists bp. split; [done|].
      by apply planned_blueprint.
  - intros a Ha. destruct (i_attempt _ _ HI a Ha) as (s & Hs & ?).
    exists s. split; [apply elem_of_app; by left|done].
  - intros s [Hs|Hs%planned_steps_elem]%elem_of_app; [by apply (i_step _ _ HI)|].
    left. naive_solver.
  - intros r st [Hr|[= -> ->]%list_elem_of_singleton]%elem_of_app.
    + assert (r ≠ run) as Hne by (intros ->; apply Hnew, elem_of_fst; eauto).
      pose proof (i_run _ _ HI _ _ Hr) as Hi.
      destruct st; cbn in *; try done; [| |destruct Hi as [Hi1 Hi2]; split];
        intros x [Hx|Hx]%elem_of_app Hxr; try (by eauto);
        first [apply planned_steps_elem in Hx|apply planned_gates_elem in Hx]; naive_solver.
    + intros s [Hs|Hs%planned_steps_elem]%elem_of_app Hsr; [by destruct (Hold s)|].
      naive_solver.
  - intros s [Hs|Hs%planned_steps_elem]%elem_of_app Hc; [|naive_solver lia].
    apply (dependencies_met_mono c); [by intros; apply elem_of_app; left|done|]. by apply (i_met _ _ HI).
  - intros g [Hg|[_ Hg]%planned_gates_elem]%elem_of_app Hd.
    + destruct (i_decided _ _ HI g Hg Hd) as (s & Hs & ?). exists s.
      split; [apply elem_of_app; by left|done].
    + rewrite Hg in Hd. by destruct Hd.
  - intros g [Hg|[_ Hg]%planned_gates_elem]%elem_of_app Hd; [by apply (i_recorded _ _ HI)|].
    rewrite Hg in Hd. by destruct Hd.
  - intros x Hx. destruct (i_decision _ _ HI x Hx) as (g & Hg & Hgk & Hgs). exists g.
    split_and!; [apply elem_of_app; by left|done|]. intros Ho. apply Hgs.
    revert Ho. apply measured_once_back. intros s Hs. exists s. split; [apply elem_of_app; by left|done].
Qed.

(** The guards of a begin: a passed gate has its decision. *)
Lemma begin_met c s : Inv bps c → may_begin c s → dependencies_met c s.
Proof using Type.
  intros HI [Hd Hg]. split; [done|]. intros g Hin. destruct (Hg g Hin) as (x & Hx & Hk & Hp).
  destruct (i_recorded _ _ HI x Hx) as (y & Hy & Hyk & Hyo); [by left|].
  exists y. split_and!; [done|congruence|]. rewrite Hp in Hyo. by destruct (de_outcome y).
Qed.

(** Every transition preserves the invariant. *)
Lemma cstep_Inv ok c c' : cstep bps ok c c' → Inv bps c → Inv bps c'.
Proof using Hbps.
  intros Hstep HI. destruct Hstep; subst.
  - by apply Inv_create.
  - by apply Inv_set_run, Inv_start.
  - apply Inv_begin; auto using begin_met.
  - by eapply Inv_move.
  - apply Inv_runs; [done|by apply map_update_where|].
    intros r x [[-> ->]|Hin]%elem_of_resume_run; [|by apply (i_run _ _ HI)].
    match goal with Hst : _ = run_failed ∨ _ |- _ => destruct Hst as [-> |[-> ?]] end;
      [exact I|by apply Inv_resume].
  - by apply Inv_set_run.
  - by eapply Inv_decide.
Qed.

Lemma csteps_Inv ok c c' : rtc (cstep bps ok) c c' → Inv bps c → Inv bps c'.
Proof using Hbps. induction 1; eauto using cstep_Inv. Qed.
End preservation.
