(* ===== verification/ReleaseProps.v ===== *)
(** * ReleaseProps: permanence, exclusivity and progress of the release machine

    Consequences of the invariant, still on the abstract machine: what a
    transition can never undo ([evolves]), that a step has at most one
    unresolved attempt, and that the dependencies of a run never deadlock. *)

From S2P Require Import Prelude Text Dfs ReleaseTypes Blueprint Ledger Orchestrator ReleaseSpec.
From S2P Require Import ReleaseInv.

(** ** Permanence *)

(** [c'] may follow [c]: completed runs and steps, resolved attempts and decisions
    stay as they are, so do decided gates that one step measures, no run gains or
    loses a step, and nothing is deleted. *)
Record evolves (c c' : Core) : Prop := {
  ev_run_ids r : r ∈ (c_runs c).*1 → r ∈ (c_runs c').*1;
  ev_runs r : (r, run_succeeded) ∈ c_runs c → (r, run_succeeded) ∈ c_runs c';
  ev_steps s : s ∈ c_steps c → ∃ s', s' ∈ c_steps c' ∧ step_key s' = step_key s ∧
    sr_definition s' = sr_definition s ∧ sr_attempt_count s ≤ sr_attempt_count s' ∧
    (sr_status s = step_succeeded → s' = s);
  ev_no_step s' : s' ∈ c_steps c' → sr_run_id s' ∈ (c_runs c).*1 → ∃ s, s ∈ c_steps c ∧
    step_key s = step_key s' ∧ sr_definition s = sr_definition s';
  ev_attempts a : a ∈ c_attempts c → ∃ a', a' ∈ c_attempts c' ∧ same_attempt a' a ∧
    (¬ active (ar_status a) → a' = a);
  ev_gate_rows g : g ∈ c_gates c → ∃ g', g' ∈ c_gates c' ∧ gate_key g' = gate_key g;
  ev_gates g : g ∈ c_gates c → decided (gr_status g) →
    measured_once (c_steps c') (gr_run_id g) (gr_gate_id g) → g ∈ c_gates c';
  ev_decisions x : x ∈ c_decisions c → x ∈ c_decisions c';
}.

Lemma same_attempt_refl a : same_attempt a a.
Proof. done. Qed.

Lemma same_attempt_trans a b d : same_attempt a b → same_attempt b d → same_attempt a d.
Proof. unfold same_attempt. intuition congruence. Qed.

Lemma evolves_refl c : evolves c c.
Proof. split; eauto 10 using same_attempt_refl. Qed.

Lemma evolves_measured c c' run gate :
  evolves c c' → measured_once (c_steps c') run gate → measured_once (c_steps c) run gate.
Proof.
  intros He. apply measured_once_back. intros s Hs.
  destruct (ev_steps _ _ He s Hs) as (s' & ? & ? & ? & _). eauto.
Qed.

(** The steps of a run that exists keep measuring what they measure. *)
Lemma evolves_still_measured c c' run gate :
  evolves c c' → run ∈ (c_runs c).*1 → measured_once (c_steps c) run gate →
  measured_once (c_steps c') run gate.
Proof.
  intros He Hrun Ho s t Hs Ht Rs Rt Gs Gt.
  destruct (ev_no_step _ _ He s Hs) as (s0 & Hs0 & [= Ks Js] & Ds); [by rewrite Rs|].
  destruct (ev_no_step _ _ He t Ht) as (t0 & Ht0 & [= Kt Jt] & Dt); [by rewrite Rt|].
  rewrite <- Js, <- Jt. apply Ho; congruence.
Qed.

Lemma evolves_trans c1 c2 c3 : evolves c1 c2 → evolves c2 c3 → evolves c1 c3.
Proof.
  intros H1 H2. split.
  - intros r Hr. by apply H2, H1.
  - intros r Hr. by apply H2, H1.
  - intros s Hs. destruct (ev_steps _ _ H1 s Hs) as (s2 & Hs2 & Hk & Hd & Hc & He).
    destruct (ev_steps _ _ H2 s2 Hs2) as (s3 & Hs3 & Hk3 & Hd3 & Hc3 & He3).
    exists s3. split_and!; [done|congruence|congruence|lia|].
    intros Hst. rewrite He in He3 by done. auto.
  - intros s Hs Hr. destruct (ev_no_step _ _ H2 s Hs) as (s2 & Hs2 & Hk & Hd); [by apply H1|].
    destruct (ev_no_step _ _ H1 s2 Hs2) as (s1 & Hs1 & Hk1 & Hd1); [|exists s1; split_and!; congruence].
    pose proof Hk as [= -> _]. done.
  - intros a Ha. destruct (ev_attempts _ _ H1 a Ha) as (b & Hb & Hab & He).
    destruct (ev_attempts _ _ H2 b Hb) as (d & Hd & Hbd & He').
    exists d. split_and!; [done|by eapply same_attempt_trans|].
    intros Hn. rewrite He in He' by done. auto.
  - intros g Hg. destruct (ev_gate_rows _ _ H1 g Hg) as (g2 & Hg2 & E2).
    destruct (ev_gate_rows _ _ H2 g2 Hg2) as (g3 & Hg3 & E3). exists g3. split; congruence.
  - intros g Hg Hd Ho. apply (ev_gates _ _ H2); [|done..]. apply H1; [done..|].
    by apply (evolves_measured c2 c3).
  - intros x Hx. by apply H2, H1.
Qed.

(** The steps that measure the gate, found by a search. *)
Lemma measured_once_filter (steps : list StepRow) run gate s :
  List.filter (λ t, bool_decide (sr_run_id t = run) &&
    bool_decide (sd_healthGateId (sr_definition t) = Some gate)) steps = [s] →
  measured_once steps run gate.
Proof.
  intros E t u Ht Hu Rt Ru Gt Gu.
  assert (∀ v, v ∈ steps → sr_run_id v = run → sd_healthGateId (sr_definition v) = Some gate → v = s) as Hin;
    [|by rewrite (Hin t), (Hin u)].
  intros v Hv Rv Gv. apply list_elem_of_singleton. rewrite <- E. apply elem_of_rows_filter.
  by rewrite !bool_decide_eq_true_2.
Qed.

Section evolves.
Context (bps : list ReleaseWorkflowBlueprint) (Hbps : wf_blueprints bps).

Lemma set_run_succeeded c run st x r :
  Inv bps c → (run, x) ∈ c_runs c → x ≠ run_succeeded →
  (r, run_succeeded) ∈ c_runs c → (r, run_succeeded) ∈ set_run run st (c_runs c).
Proof using Type.
  intros HI Hx Hne Hr. apply elem_of_update_where. exists (r, run_succeeded).
  split; [done|]. cbn. case_bool_decide; [|done]. subst.
  destruct Hne. eapply runs_functional; eauto using i_runs.
Qed.

(** The outcome of an attempt changes only the attempt, its step and undecided gates. *)
Lemma move_evolves c a s y st pa fa pg fg :
  Inv bps c → a ∈ c_attempts c → s ∈ c_steps c → step_key s = attempt_key a →
  attempt_moves (ar_status a) y st →
  (∀ b, pa b = true → ar_attempt_id b = ar_attempt_id a) →
  (∀ b, same_attempt (fa b) b ∧ ar_status (fa b) = y) →
  (∀ g, pg g = true → gr_run_id g = ar_run_id a ∧
     sd_healthGateId (sr_definition s) = Some (gr_gate_id g)) →
  (∀ g, gate_key (fg g) = gate_key g) →
  evolves c {|
    c_runs := set_run_opt (ar_run_id a) st (c_runs c);
    c_steps := update_where (is_step (ar_run_id a) (ar_step_id a))
      (set_step_status (step_status_of y)) (c_steps c);
    c_gates := update_where pg fg (c_gates c);
    c_attempts := update_where pa fa (c_attempts c);
    c_decisions := c_decisions c |}.
Proof using Type.
  intros HI Ha Hs Hk Hmv Hpa' Hfa Hpg Hfg.
  pose proof (move_active a y st Hmv) as Hact.
  pose proof (move_not_succeeded _ _ _ _ _ _ HI Ha Hs Hk Hmv) as Hns.
  destruct (move_ids a s Hk) as [Er Es]. split; cbn.
  - by rewrite set_run_opt_fst.
  - intros r Hr. destruct st as [st|]; [|done]. cbn.
    destruct (proj1 (elem_of_fst _ _) (i_step_run _ _ HI _ Hs)) as [x Hx].
    rewrite Er. eapply (set_run_succeeded c _ _ x); [done..| |done].
    intros ->. apply Hns. by apply (i_run _ _ HI _ _ Hx).
  - intros t Ht. rewrite Er, Es. setoid_rewrite (one_step_elem bps c s _ HI Hs).
    destruct (decide (step_key t = step_key s)) as [E|E].
    + apply (inv_step_eq bps c) in E as ->; [|done..]. eexists. split; [by left|].
      split_and!; [done..|congruence].
    + exists t. split_and!; [by right|done..].
  - rewrite Er, Es. intros t Ht _. by apply one_step_origin in Ht.
  - intros b Hb. eexists. split; [by apply elem_of_update_where_in|].
    destruct (pa b) eqn:E; [|done]. split; [apply Hfa|]. intros Hna.
    assert (b = a) as -> by (apply (inv_attempt_eq bps c); auto). done.
  - intros g Hg. eexists. split; [by apply elem_of_update_where_in|]. by destruct (pg g).
  - rewrite Er, Es. intros g Hg Hd Ho%(one_step_measured bps); [|done..].
    apply elem_of_update_where. exists g. split; [done|].
    destruct (pg g) eqn:E; [|done]. apply Hpg in E as [E1 E2].
    exfalso. eapply (inv_undecided bps c s g); eauto. congruence.
  - done.
Qed.

(** Every transition evolves. *)
Lemma cstep_evolves ok c c' : Inv bps c → cstep bps ok c c' → evolves c c'.
Proof using Type.
  intros HI Hstep. destruct Hstep as
    [run bp Hbp Hnew|run Hr|run s a Hr Hs Hsr Hp Hmay Hk Hn Ha Hf Hop Hid
    |a s y st pa fa pg fg Ha Hs Hk Hmv Hpa Hpa' Hfa Hpg Hfg|run st Hr Hact Hst
    |run st Hr Hnf Hnp Hss Hgs|run g s x fg Hr Hg Hgk Hgp Hxr Hs Hsr Hh Hst Hnew Hfg].
  - split; cbn; try (setoid_rewrite elem_of_app); eauto 10 using same_attempt_refl.
    + intros r Hr. rewrite fmap_app. apply elem_of_app. by left.
    + intros s' [Hs'|[<- _]%planned_steps_elem]; [by eauto|done].
  - split; cbn; rewrite ?set_run_fst; eauto 10 using same_attempt_refl. intros r.
    by eapply set_run_succeeded.
  - subst run. pose proof (one_step_elem bps c s
      (set_step_attempt (ar_attempt_number a) (ar_operation_id a) (ar_idempotency_key a))
      HI Hs) as Helem.
    split; cbn; try (setoid_rewrite elem_of_snoc); eauto 10 using same_attempt_refl;
      [|by intros t Ht%one_step_origin _].
    intros t Ht. setoid_rewrite Helem.
    destruct (decide (step_key t = step_key s)) as [E|E].
    + apply (inv_step_eq bps c) in E as ->; [|done..]. eexists. split; [by left|].
      split_and!; [done..|cbn; lia|congruence].
    + exists t. split_and!; [by right|done..].
  - eapply move_evolves; try done. intros. apply Hfg.
  - split; cbn; unfold resume_run; rewrite ?(map_update_where fst) by done;
      eauto 10 using same_attempt_refl. intros r Hr'.
    apply elem_of_update_where. exists (r, run_succeeded). split; [done|]. cbn.
    by rewrite andb_false_r.
  - split; cbn; rewrite ?set_run_fst; eauto 10 using same_attempt_refl. intros r Hr'.
    apply elem_of_update_where. exists (r, run_succeeded). split; [done|].
    cbn. by case_bool_decide.
  - split; cbn; try (setoid_rewrite elem_of_snoc); eauto 10 using same_attempt_refl.
    + intros r. by rewrite set_run_opt_fst.
    + intros r. case_bool_decide; [done|]. by eapply set_run_succeeded.
    + intros h Hin. eexists. split; [by apply elem_of_update_where_in|].
      destruct (is_gate _ _ h); [apply Hfg|done].
    + intros h Hin Hd _. apply elem_of_update_where. exists h. split; [done|].
      destruct (is_gate _ _ h) eqn:E; [|done]. apply is_gate_spec in E.
      assert (h = g) as -> by (apply (inv_gate_eq bps c); congruence).
      rewrite Hgp in Hd. by destruct Hd.
Qed.

Lemma csteps_evolve ok c c' : Inv bps c → rtc (cstep bps ok) c c' → evolves c c'.
Proof using Hbps.
  intros HI Hs. induction Hs as [|c1 c2 c3 H1 _ IH]; [apply evolves_refl|].
  eapply evolves_trans; [by eapply cstep_evolves|]. apply IH. by eapply cstep_Inv.
Qed.
End evolves.

(** ** At most one unresolved attempt per step *)

Lemma inv_one_active bps c a b :
  Inv bps c → a ∈ c_attempts c → b ∈ c_attempts c → attempt_key a = attempt_key b →
  active (ar_status a) → active (ar_status b) → a = b.
Proof.
  intros HI Ha Hb Hk Hact Hbct.
  destruct (i_attempt _ _ HI a Ha) as (s & Hs & Hks & _).
  destruct (inv_active_latest bps c a s) as [Ea _]; [done..|].
  destruct (inv_active_latest bps c b s) as [Eb _]; [done..|congruence|done|].
  apply (i_numbers _ _ HI); congruence.
Qed.

(** ** Progress: dependencies never deadlock *)

Lemma blueprint_topological bp :
  blueprint_ok bp → ∃ l, topological (step_deps bp) l ∧ ∀ s, s ∈ bp_steps bp → sd_id s ∈ l.
Proof.
  intros Hok. assert (deps_resolve bp) as Hr.
  { intros a b (s & Hs & Hb)%depends_spec. apply step_deps_Some_iff.
    apply byId_elem in Hs as [Hs _]. pose proof (bp_ok_steps _ Hok) as Hall. rewrite Forall_forall in Hall.
    by eapply step_ok_deps; eauto. }
  pose proof (proj2 (assertAcyclic_spec bp Hr) (bp_ok_acyclic _ Hok)) as Ha.
  unfold assertAcyclic in Ha. destruct (visit_all bp _) as [[[]|[e|]] s'] eqn:E; try done.
  unfold visit_all in E. apply visit_from_topological in E as [Ht Hin]. exists (visited s'). split; [done|].
  intros s Hs. apply Hin, list_elem_of_In, in_map, list_elem_of_In, Hs.
Qed.

Lemma inv_ready_step bps c run :
  wf_blueprints bps → Inv bps c → run ∈ (c_runs c).*1 →
  (∃ s, s ∈ c_steps c ∧ sr_run_id s = run ∧ sr_status s ≠ step_succeeded) →
  ∃ s, s ∈ c_steps c ∧ sr_run_id s = run ∧ sr_status s ≠ step_succeeded ∧
    ∀ d, d ∈ sd_dependsOn (sr_definition s) → ∃ t, t ∈ c_steps c ∧
      step_key t = (run, d) ∧ sr_status t = step_succeeded.
Proof.
  intros Hw HI Hrun (s0 & Hs0 & Hr0 & Hn0).
  destruct (i_blueprint _ _ HI run Hrun) as (bp & Hbp & Hdef).
  pose proof (Hw bp Hbp) as Hok.
  destruct (blueprint_topological bp Hok) as (l & Ht & Hl).
  assert (∀ s, s ∈ c_steps c → sr_run_id s = run → sr_definition s ∈ bp_steps bp) as Hin.
  { intros s Hs Hsr. rewrite <- Hdef. apply list_elem_of_In, in_map, list_elem_of_In.
    apply elem_of_rows_filter. split; [done|by apply bool_decide_eq_true]. }
  assert (∀ d, d ∈ bp_steps bp → ∃ s, s ∈ c_steps c ∧ sr_run_id s = run ∧ sr_definition s = d)
    as Hrow.
  { intros d Hd. rewrite <- Hdef in Hd. apply list_elem_of_In, in_map_iff in Hd as (s & E & Hs).
    apply list_elem_of_In, elem_of_rows_filter in Hs as [Hs Hsr]. bool_inv. eauto. }
  set (P := λ id, Forall (λ s, sr_run_id s = run → sr_step_id s = id →
    sr_status s = step_succeeded) (c_steps c)).
  destruct (topological_last (step_deps bp) P l Ht) as (id & Hid & HnP & Hdeps).
  { exists (sr_step_id s0). split.
    - rewrite (i_step_def _ _ HI _ Hs0). by apply Hl, Hin.
    - intros HP. unfold P in HP. rewrite Forall_forall in HP. by apply Hn0, HP. }
  unfold P in HnP. apply not_Forall_Exists in HnP; [|apply _].
  apply Exists_exists in HnP as (s & Hs & Hns). cbn in Hns.
  assert (sr_run_id s = run ∧ sr_step_id s = id ∧ sr_status s ≠ step_succeeded)
    as (Hsr & Hsi & Hst) by (split_and!; apply dec_stable; tauto).
  exists s. split_and!; [done..|]. intros d Hd.
  assert (depends bp id d) as Hdep.
  { assert (id ∈ step_ids bp) as Hid'.
    { rewrite <- Hsi, (i_step_def _ _ HI _ Hs). apply list_elem_of_In, in_map, list_elem_of_In.
      by apply Hin. }
    destruct (proj2 (byId_Some_iff bp id) Hid') as [sd Hsd]. apply depends_spec.
    exists sd. split; [done|].
    apply byId_elem in Hsd as [Hsd Hsid]. assert (sd = sr_definition s) as ->; [|done].
    eapply (NoDup_key_inj sd_id); [apply (bp_ok_steps_nodup _ Hok)|done|by apply Hin|].
    rewrite <- (i_step_def _ _ HI _ Hs). congruence. }
  pose proof (Hdeps d Hdep) as HPd. unfold P in HPd. rewrite Forall_forall in HPd.
  pose proof (bp_ok_steps _ Hok) as Hall. rewrite Forall_forall in Hall.
  destruct (step_ok_deps _ _ (Hall _ (Hin s Hs Hsr)) d Hd) as [Hds _].
  apply list_elem_of_In, in_map_iff in Hds as (sd & <- & Hsd).
  apply list_elem_of_In, Hrow in Hsd as (t & Htin & Htr & <-).
  exists t. unfold step_key. rewrite Htr, (i_step_def _ _ HI _ Htin).
  split_and!; [done..|]. apply HPd; [done..|]. by rewrite (i_step_def _ _ HI _ Htin).
Qed.

(** ** Paused runs *)

(** [run] waits for a reconciliation, and no attempt of it is unresolved. *)
Definition stranded (c : Core) (run : string) : Prop :=
  (run, run_paused_outcome_unknown) ∈ c_runs c ∧
  ∀ a, a ∈ c_attempts c → ar_run_id a = run → ¬ active (ar_status a).

Section stranded.
Context (bps : list ReleaseWorkflowBlueprint) (ok : string → Prop) (run : string).
Context (Hno : ¬ ok run).

Lemma set_run_other run' st rs x :
  run' ≠ run → (run, x) ∈ rs → (run, x) ∈ set_run run' st rs.
Proof using Type.
  intros Hne Hin. apply elem_of_update_where. exists (run, x). split; [done|]. cbn.
  by rewrite bool_decide_eq_false_2.
Qed.

Lemma set_run_opt_other run' st rs x :
  run' ≠ run → (run, x) ∈ rs → (run, x) ∈ set_run_opt run' st rs.
Proof using Type. destruct st; [apply set_run_other|done]. Qed.

Lemma paused_other c run' st :
  Inv bps c → (run, run_paused_outcome_unknown) ∈ c_runs c → (run', st) ∈ c_runs c →
  st ≠ run_paused_outcome_unknown → run' ≠ run.
Proof using Type.
  intros HI Hp Hr Hne ->. apply Hne. eapply runs_functional; eauto using i_runs.
Qed.

Lemma moves_active x y st : attempt_moves x y st → active x.
Proof using Type. unfold active. destruct 1; auto. Qed.

Lemma cstep_stranded c c' : cstep bps ok c c' → Inv bps c → stranded c run → stranded c' run.
Proof using Hno.
  intros Hstep HI [Hp Ha]. pose proof (paused_other c) as Hother.
  destruct Hstep as [run' bp|run' Hr|run' s a Hr Hs Hsr|a s y st pa fa pg fg Hin Hs Hk Hm Hpa Hpa' Hfa
    |run' st Hok|run' st Hr Hf Hu|run' g s x fg Hr]; split; cbn.
  - apply elem_of_app. by left.
  - done.
  - apply set_run_other; [by eapply Hother|done].
  - done.
  - done.
  - intros b [Hb| ->]%elem_of_snoc Hrb; [by apply Ha|].
    exfalso. apply (Hother run' run_running); [done..|]. unfold attempt_key, step_key in *. congruence.
  - apply set_run_opt_other; [|done]. intros Heq. by apply (Ha a Hin Heq), (moves_active _ _ _ Hm).
  - intros b' (b & Hb & ->)%elem_of_update_where Hrb. destruct (pa b) eqn:Hpb; [|by apply Ha].
    apply Hpa' in Hpb. assert (b = a) as -> by (by eapply inv_attempt_eq).
    destruct (Hfa a) as [(_ & Hkey & _) _]. exfalso.
    apply (Ha a Hin); [|by eapply moves_active]. unfold attempt_key in *. congruence.
  - apply elem_of_update_where. exists (run, run_paused_outcome_unknown). split; [done|]. cbn.
    rewrite bool_decide_eq_false_2; [done|]. by intros <-.
  - done.
  - apply set_run_other; [by eapply Hother|done].
  - done.
  - apply set_run_opt_other; [by eapply Hother|done].
  - done.
Qed.

Lemma csteps_stranded c c' :
  wf_blueprints bps → rtc (cstep bps ok) c c' → Inv bps c → stranded c run → stranded c' run.
Proof using Hno.
  intros Hw. induction 1 as [|c1 c2 c3 Hs _ IH]; [done|]. intros HI Hst.
  apply IH; [by eapply cstep_Inv|by eapply cstep_stranded].
Qed.
End stranded.
