(* ===== verification/Refinement.v ===== *)
(** * Refinement: the engine implements the abstract release machine

    A command of the engine that returns moves the abstract state
    ([ReleaseSpec.core] of the database) along zero or more [cstep]
    transitions; a command that throws leaves the database unchanged. *)

From S2P Require Import Prelude Text ReleaseTypes Blueprint Ledger Orchestrator ReleaseSpec.
From S2P Require Import ReleaseInv ReleaseProps.

Section refinement.
Context {H : Host} (bps : list ReleaseWorkflowBlueprint).

(** ** Commands *)

(** The engine's public commands with their arguments. *)
Inductive command :=
| CreateRun (request : ReleaseRunRequest)
| StartRun (runId actorId : string)
| BeginStepAttempt (runId stepId idempotencyKey actorId : string)
| RecordStepOutcome (operationId : string) (input : RecordStepOutcomeInput) (actorId : string)
| MarkOutcomeUnknown (operationId reasonCode actorId : string)
| ReconcileOperation (operationId : string) (input : ReconcileOperationInput)
| RecoverInterruptedOperations (actorId : string)
| ResolveHealthGate (runId gateId : string) (input : ResolveHealthGateInput).

Definition forget {A} (m : M A) : M unit := m;; mret tt.

Definition exec (cmd : command) : M unit :=
  match cmd with
  | CreateRun request => forget (createRun bps request)
  | StartRun runId actorId => forget (startRun runId actorId)
  | BeginStepAttempt runId stepId key actorId =>
      forget (beginStepAttempt runId stepId key actorId)
  | RecordStepOutcome op input actorId => forget (recordStepOutcome op input actorId)
  | MarkOutcomeUnknown op reason actorId => forget (markOutcomeUnknown op reason actorId)
  | ReconcileOperation op input => forget (reconcileOperation op input)
  | RecoverInterruptedOperations actorId => forget (recoverInterruptedOperations actorId)
  | ResolveHealthGate runId gateId input => forget (resolveHealthGate runId gateId input)
  end.

(** A caller's sequence of commands; each one's error is the caller's concern. *)
Fixpoint exec_all (cmds : list command) (s : St) : St :=
  match cmds with
  | [] => s
  | cmd :: cmds => exec_all cmds (exec cmd s).2
  end.

(** ** Programs that leave the core alone *)

Definition silent {A} (m : M A) : Prop :=
  ∀ s a s', m s = (Ok a, s') → core (db s') = core (db s).

Lemma silent_bind {A B} (m : M A) (k : A → M B) :
  silent m → (∀ a, silent (k a)) → silent (m ≫= k).
Proof. intros Hm Hk s b s' E. run_inv. etrans; [by eapply Hk|by eapply Hm]. Qed.
Lemma silent_ret {A} (a : A) : silent (mret a : M A).
Proof. intros s b s' E. by run_inv. Qed.
Lemma silent_require b e : silent (require b e : M unit).
Proof. intros s a s' E. by run_inv. Qed.
Lemma silent_require_some {A} (o : option A) e : silent (require_some o e : M A).
Proof. intros s a s' E. by run_inv. Qed.
Lemma silent_query {A} (f : Db → A) : silent (query f).
Proof. intros s a s' E. by ledger_inv. Qed.
Lemma silent_newUUID : silent newUUID.
Proof. intros s a s' E. by ledger_inv. Qed.
Lemma silent_update f : (∀ d, core (f d) = core d) → silent (update f).
Proof. intros Hf s a s' E. ledger_inv. cbn. apply Hf. Qed.
Lemma silent_insert t ok f : (∀ d, core (f d) = core d) → silent (insert t ok f).
Proof. intros Hf s a s' E. ledger_inv. cbn. apply Hf. Qed.
Lemma silent_for_collect {A B} (f : A → M B) l :
  (∀ x, silent (f x)) → silent (for_collect f l).
Proof.
  intros Hf. induction l as [|x l IH]; cbn; [apply silent_ret|].
  apply silent_bind; [done|]. intros y. apply silent_bind; [done|]. intros. apply silent_ret.
Qed.
End refinement.

Create HintDb silent discriminated.
#[export] Hint Resolve silent_bind silent_ret silent_require silent_require_some
  silent_query silent_newUUID silent_update silent_insert silent_for_collect : silent.

Section refinement.
Context {H : Host} (bps : list ReleaseWorkflowBlueprint).
(** The runs the execution may resume. *)
Context (ok : string → Prop).
Notation steps := (rtc (cstep bps ok)).

Lemma silent_requireRun runId : silent (requireRun runId).
Proof. unfold requireRun. auto with silent. Qed.
Lemma silent_requireStep runId stepId : silent (requireStep runId stepId).
Proof. unfold requireStep. auto with silent. Qed.
Lemma silent_getRun runId : silent (getRun runId).
Proof. unfold getRun, validateRunId, requireRun. auto 20 with silent. Qed.

Lemma silent_appendEvent runId ty payload actor now :
  silent (appendEvent runId ty payload actor now).
Proof.
  unfold appendEvent. apply silent_bind; [apply silent_requireRun|]. intros run.
  assert (∀ n, silent (update (on_runs (update_where (is_run runId) (set_run_seq n now)))))
    as Hseq; [|auto 10 with silent].
  intros n. apply silent_update. intros d. unfold core. cbn. f_equal.
  by apply (map_update_where (λ r, (rr_run_id r, rr_status r))).
Qed.

Lemma silent_persistEvidence runId stepId evidence now :
  silent (persistEvidence runId stepId evidence now).
Proof.
  unfold persistEvidence, validateEvidence, validateIdentifier.
  apply silent_for_collect. intros. auto 20 with silent.
Qed.

Lemma silent_insert_reconciliation row : silent (insert_reconciliation row).
Proof. unfold insert_reconciliation. auto with silent. Qed.

(** ** Effects on the core *)

Lemma core_set_run run st now s u s' :
  set_status_of_run run st now s = (Ok u, s') →
  core (db s') = {| c_runs := set_run run st (c_runs (core (db s)));
    c_steps := run_steps (db s); c_gates := run_health_gates (db s);
    c_attempts := step_attempts (db s); c_decisions := health_gate_decisions (db s) |}.
Proof.
  unfold set_status_of_run. intros E. ledger_inv. unfold core. cbn. f_equal.
  unfold set_run, update_where. rewrite !map_map. apply map_ext. intros r. cbn.
  unfold is_run. by case_bool_decide.
Qed.

Lemma requireRun_Ok runId s r s' :
  requireRun runId s = (Ok r, s') →
  s' = s ∧ r ∈ release_runs (db s) ∧ rr_run_id r = runId ∧
  (runId, rr_status r) ∈ c_runs (core (db s)).
Proof.
  unfold requireRun. intros E. ledger_inv. find_inv as Hin Hr.
  unfold is_run in Hr. bool_inv. subst. split_and!; try done.
  apply list_elem_of_In, in_map_iff. exists r. split; [done|]. by apply list_elem_of_In.
Qed.

Lemma requireStep_Ok runId stepId s r s' :
  requireStep runId stepId s = (Ok r, s') →
  s' = s ∧ r ∈ run_steps (db s) ∧ step_key r = (runId, stepId).
Proof.
  unfold requireStep. intros E. ledger_inv. find_inv as Hin Hr.
  apply is_step_spec in Hr. done.
Qed.

Lemma latest_elem t a : latest t = Some a → a ∈ t.
Proof.
  revert a. induction t as [|b t IH]; intros a; [done|]. cbn [latest].
  destruct (latest t) as [d|]; [|intros [= ->]; left].
  destruct (ar_attempt_number b <? ar_attempt_number d); intros [= ->];
    [right; by apply IH|left].
Qed.

Lemma requireLatestAttempt_Ok op s a s' :
  requireLatestAttempt op s = (Ok a, s') →
  s' = s ∧ a ∈ step_attempts (db s) ∧ ar_operation_id a = op.
Proof.
  unfold requireLatestAttempt. intros E. ledger_inv.
  match goal with Hl : latest _ = Some _ |- _ =>
    apply latest_elem, elem_of_rows_filter in Hl as [Hin Hop] end.
  by bool_inv.
Qed.

(** [core_eq E] uses the silence of the program run in hypothesis [E]. *)
Definition refines {A} (m : M A) : Prop :=
  ∀ s a s', m s = (Ok a, s') → steps (core (db s)) (core (db s')).

Lemma silent_refines {A} (m : M A) : silent m → refines m.
Proof. intros Hm s a s' E. by rewrite (Hm _ _ _ E). Qed.

Lemma refines_bind {A B} (m : M A) (k : A → M B) :
  refines m → (∀ a, refines (k a)) → refines (m ≫= k).
Proof. intros Hm Hk s b s' E. run_inv. etrans; [by eapply Hm|by eapply Hk]. Qed.

Lemma refines_transaction {A} (m : M A) : refines m → refines (transaction m).
Proof. intros Hm s a s' E. ledger_inv. by eapply Hm. Qed.

Lemma count_zero {R} (p : R → bool) t :
  negb (count_where p t =? 0) = false → ∀ r, r ∈ t → p r = false.
Proof. rewrite negb_false_iff, Nat.eqb_eq. apply count_where_0. Qed.

Lemma resume_refines runId now : ok runId → refines (resumeIfNoUnknownOperations runId now).
Proof.
  intros Hok s u s' E. unfold resumeIfNoUnknownOperations in E. ledger_inv.
  destruct (negb _) eqn:Hact; ledger_inv; [done|].
  pose proof (count_zero _ _ Hact) as Hidle. cbn.
  set (st := if (0 <? _) then run_failed else run_running).
  assert (∀ a, a ∈ step_attempts (db s) → ar_run_id a = runId → ¬ active (ar_status a)) as Ha.
  { intros a Hin Hr. specialize (Hidle a Hin). cbn in Hidle. rewrite bool_decide_eq_true_2 in Hidle by done.
    cbn in Hidle. bool_inv. by intros [?|?]. }
  assert (st = run_failed ∨ st = run_running ∧ ∀ t, t ∈ run_steps (db s) →
    sr_run_id t = runId → sr_status t ≠ step_failed) as Hst.
  { unfold st. destruct (0 <? _) eqn:Hc; [by left|]. right. split; [done|].
    apply Nat.ltb_ge in Hc. intros t Ht Hr Hf.
    assert (count_where (λ s, bool_decide (sr_run_id s = runId) &&
      bool_decide (sr_status s = step_failed)) (run_steps (db s)) = 0) as Hz by lia.
    rewrite count_where_0 in Hz. specialize (Hz t Ht). cbn in Hz.
    by rewrite !bool_decide_eq_true_2 in Hz by done. }
  match goal with |- steps _ (core (on_runs ?f _)) =>
    assert (map (λ r, (rr_run_id r, rr_status r)) (f (release_runs (db s))) =
      resume_run runId st (c_runs (core (db s)))) as Heq end.
  { unfold resume_run, update_where. cbn. rewrite !map_map. apply map_ext. intros r. cbn.
    unfold is_run. by destruct (_ && _). }
  unfold core at 2. cbn. rewrite Heq.
  destruct (decide ((runId, run_paused_outcome_unknown) ∈ c_runs (core (db s)))) as [Hp|Hp].
  - apply rtc_once. by apply (cs_resume bps ok (core (db s)) runId st).
  - unfold resume_run. rewrite update_where_id; [done|].
    intros [r x] Hin. cbn. destruct (_ && _) eqn:E; [|done]. bool_inv. cbn in *. by subst.
Qed.

Lemma complete_refines runId actor now : refines (maybeCompleteRun runId actor now).
Proof.
  intros s u s' E. unfold maybeCompleteRun in E. run_inv.
  match goal with Hr : requireRun _ _ = _ |- _ => apply requireRun_Ok in Hr as (-> & _ & _ & Hr) end.
  destruct (_ || _) eqn:Hst; ledger_inv; [done|]. bool_inv.
  destruct (negb _ || negb _) eqn:Hc; ledger_inv; [done|].
  apply orb_false_iff in Hc as [Hs Hg].
  match goal with Hset : set_status_of_run _ _ _ _ = _, Happ : appendEvent _ _ _ _ _ _ = _ |- _ =>
    apply silent_appendEvent in Happ as ->; apply core_set_run in Hset as -> end.
  apply rtc_once. eapply (cs_complete bps ok (core (db s))); [done..| |].
  - intros t Ht Hr'. pose proof (count_zero _ _ Hs t Ht) as Hz. cbn in Hz.
    rewrite bool_decide_eq_true_2 in Hz by done. cbn in Hz. by bool_inv.
  - intros t Ht Hr'. pose proof (count_zero _ _ Hg t Ht) as Hz. cbn in Hz.
    rewrite bool_decide_eq_true_2 in Hz by done. cbn in Hz. by bool_inv.
Qed.

Lemma startRun_refines runId actor : refines (startRun runId actor).
Proof.
  unfold startRun, validateRunId, validateActor.
  apply refines_bind; [apply silent_refines; auto with silent|intros _].
  apply refines_bind; [apply silent_refines; auto with silent|intros _].
  apply refines_transaction. intros s a s' E. run_inv.
  match goal with Hr : requireRun _ _ = _ |- _ => apply requireRun_Ok in Hr as (-> & _ & _ & Hr) end.
  destruct (bool_decide _) eqn:Hst.
  { by apply silent_getRun in E as ->. }
  ledger_inv. bool_inv.
  match goal with Hset : set_status_of_run _ _ _ _ = _, Happ : appendEvent _ _ _ _ _ _ = _ |- _ =>
    apply silent_getRun in E as ->; apply silent_appendEvent in Happ as ->;
    apply core_set_run in Hset as -> end.
  apply rtc_once. match goal with |- cstep _ _ ?c _ => apply (cs_start bps ok c) end.
  by match goal with Hs : rr_status _ = run_planned |- _ => rewrite <- Hs end.
Qed.

(** *** Beginning an attempt *)

Lemma requireDependencies_Ok runId l s s' :
  for_each (requireDependency runId) l s = (Ok tt, s') →
  s' = s ∧ ∀ d, d ∈ l → ∃ t, t ∈ run_steps (db s) ∧
    step_key t = (runId, d) ∧ sr_status t = step_succeeded.
Proof.
  revert s. induction l as [|d l IH]; intros s E; cbn in E; run_inv.
  { split; [done|]. by intros ? ?%not_elem_of_nil. }
  unfold requireDependency in *. run_inv. bool_inv.
  match goal with Hq : requireStep _ _ _ = _ |- _ =>
    apply requireStep_Ok in Hq as (-> & Hin & Hk) end.
  apply IH in E as [-> Hl]. split; [done|].
  intros d' [->|Hd]%elem_of_cons; [eauto|by apply Hl].
Qed.

Lemma requireGates_Ok runId l s s' :
  for_each (requireGatePassed runId) l s = (Ok tt, s') →
  s' = s ∧ ∀ g, g ∈ l → ∃ x, x ∈ run_health_gates (db s) ∧
    gate_key x = (runId, g) ∧ gr_status x = gate_passed.
Proof.
  revert s. induction l as [|g l IH]; intros s E; cbn in E; run_inv.
  { split; [done|]. by intros ? ?%not_elem_of_nil. }
  unfold requireGatePassed in *. ledger_inv.
  destruct (List.find _ _) as [x|] eqn:Hf; [|done]. bool_inv.
  apply find_Some_elem in Hf as [Hin Hk%is_gate_spec].
  apply IH in E as [-> Hl]. split; [done|].
  intros g' [->|Hg]%elem_of_cons; [eauto|by apply Hl].
Qed.

Lemma chooseOperation_Ok row runId stepId key s op s' :
  chooseOperation row runId stepId key s = (Ok op, s') →
  db s' = db s ∧ closed s' = closed s ∧
  (sr_operation_id row = None ∨
   (sr_operation_id row = Some op ∧ sr_idempotency_key row = Some key)).
Proof.
  unfold chooseOperation. intros E. destruct (sr_operation_id row) as [op'|]; ledger_inv.
  - bool_inv. split_and!; [done..|by right].
  - split_and!; [done..|by left].
Qed.

Lemma step_key_constraint_spec d runId stepId key :
  step_key_constraint d runId stepId key = true →
  ∀ t, t ∈ run_steps d → sr_run_id t = runId → sr_idempotency_key t = Some key →
  sr_step_id t = stepId.
Proof.
  unfold step_key_constraint. rewrite negb_true_iff. intros Hc t Ht Hr Hk.
  destruct (decide (sr_step_id t = stepId)) as [|Hne]; [done|]. exfalso.
  rewrite <- not_true_iff_false, has_spec in Hc. apply Hc. exists t. split; [done|].
  by rewrite (bool_decide_eq_false_2 (sr_step_id t = stepId)), !bool_decide_eq_true_2.
Qed.

(** What a [beginStepAttempt] that returns an intent found in [d], for the
    step [row] and the attempt [a] it inserted. *)
Record began (d : Db) (runId stepId key : string) (row : StepRow) (a : AttemptRow) : Prop := {
  bg_row : row ∈ run_steps d;
  bg_key : step_key row = (runId, stepId);
  bg_running : (runId, run_running) ∈ c_runs (core d);
  bg_pending : sr_status row = step_pending;
  bg_met : may_begin (core d) row;
  bg_attempt_key : attempt_key a = (runId, stepId);
  bg_number : ar_attempt_number a = sr_attempt_count row + 1;
  bg_intent : ar_status a = attempt_intent_recorded;
  bg_idempotency : ar_idempotency_key a = key;
  bg_fresh b : b ∈ step_attempts d → ar_attempt_id b ≠ ar_attempt_id a;
  bg_operation : sr_operation_id row = None ∨
    (sr_operation_id row = Some (ar_operation_id a) ∧ sr_idempotency_key row = Some key);
  bg_owner t : t ∈ run_steps d → sr_run_id t = runId →
    sr_idempotency_key t = Some key → sr_step_id t = stepId;
}.

Definition begun (c : Core) (runId stepId : string) (a : AttemptRow) : Core := {|
  c_runs := c_runs c;
  c_steps := update_where (is_step runId stepId)
    (set_step_attempt (ar_attempt_number a) (ar_operation_id a) (ar_idempotency_key a))
    (c_steps c);
  c_gates := c_gates c; c_attempts := c_attempts c ++ [a]; c_decisions := c_decisions c |}.

Definition intent_of (row : StepRow) (a : AttemptRow) : StepIntent := {|
  in_runId := ar_run_id a; in_stepId := ar_step_id a;
  in_action := sd_action (sr_definition row); in_operationId := ar_operation_id a;
  in_idempotencyKey := ar_idempotency_key a; in_attemptNumber := ar_attempt_number a;
  in_executionClass := sd_executionClass (sr_definition row) |}.

Lemma attempt_constraints_fresh d a :
  attempt_constraints d a = true → ∀ b, b ∈ step_attempts d → ar_attempt_id b ≠ ar_attempt_id a.
Proof.
  unfold attempt_constraints. rewrite !andb_true_iff, fresh_spec. naive_solver.
Qed.

Lemma recordIntent_Ok row runId stepId key actor s r s' :
  recordIntent row runId stepId key actor s = (Ok r, s') →
  row ∈ run_steps (db s) → step_key row = (runId, stepId) →
  (runId, run_running) ∈ c_runs (core (db s)) →
  ∃ a, r = intent (intent_of row a) ∧ began (db s) runId stepId key row a ∧
    core (db s') = begun (core (db s)) runId stepId a.
Proof.
  intros E Hrow Hk Hrun. unfold recordIntent in E. run_inv.
  repeat match goal with
  | Hd : for_each (requireDependency _) _ _ = _ |- _ =>
      apply requireDependencies_Ok in Hd as [? Hdeps]; subst
  | Hd : for_each (requireGatePassed _) _ _ = _ |- _ =>
      apply requireGates_Ok in Hd as [? Hgates]; subst
  | Hd : chooseOperation _ _ _ _ _ = _ |- _ =>
      apply chooseOperation_Ok in Hd as (Hdb & _ & Hop)
  end.
  unfold insert_attempt in *. ledger_inv.
  match goal with Happ : appendEvent _ _ _ _ _ _ = _ |- _ =>
    apply silent_appendEvent in Happ as Happ' end.
  bool_inv. cbn in *. rewrite ?Hdb in *.
  match goal with Ha : attempt_constraints _ ?a = true |- _ =>
    exists a; pose proof (attempt_constraints_fresh _ _ Ha) as Hfresh end.
  cbn in Hfresh. assert (sr_run_id row = runId) as Hr.
  { unfold step_key in Hk. by injection Hk. }
  split_and!; [done| |].
  - split; try done.
    + split; rewrite Hr; [exact Hdeps|exact Hgates].
    + by apply step_key_constraint_spec.
  - rewrite Happ'. unfold core, begun. cbn. by rewrite ?Hdb.
Qed.

Lemma beginStepAttempt_Ok runId stepId key actor s r s' :
  beginStepAttempt runId stepId key actor s = (Ok r, s') →
  (s' = s ∧ ∃ op, r = already_completed runId stepId op) ∨
  (∃ row a, r = intent (intent_of row a) ∧ began (db s) runId stepId key row a ∧
    core (db s') = begun (core (db s)) runId stepId a).
Proof.
  unfold beginStepAttempt, validateRunId, validateIdentifier, validateIdempotencyKey,
    validateActor, validateIdentifier. intros E. ledger_inv. bool_inv.
  repeat match goal with
  | Hr : requireRun _ _ = _ |- _ => apply requireRun_Ok in Hr as (? & _ & _ & Hrun); subst
  | Hr : requireStep _ _ _ = _ |- _ => apply requireStep_Ok in Hr as (? & Hrow & Hk); subst
  end.
  destruct (completed_operation _) as [op|] eqn:Hc; ledger_inv.
  - left. eauto.
  - right. eexists. eapply recordIntent_Ok; [exact E|done..|].
    match goal with Hs : rr_status _ = run_running |- _ => by rewrite Hs in Hrun end.
Qed.

Lemma began_cstep d runId stepId key row a :
  began d runId stepId key row a → cstep bps ok (core d) (begun (core d) runId stepId a).
Proof.
  intros []. assert (sr_run_id row = runId ∧ sr_step_id row = stepId) as [<- <-].
  { unfold step_key in *. split; congruence. }
  unfold begun. subst key. by apply (cs_begin bps ok (core d)); try apply bg_met0.
Qed.

Lemma beginStepAttempt_refines runId stepId key actor :
  refines (beginStepAttempt runId stepId key actor).
Proof.
  intros s r s' [[-> _]|(row & a & _ & Hb & ->)]%beginStepAttempt_Ok; [done|].
  by eapply rtc_once, began_cstep.
Qed.

(** *** Moving an attempt *)

(** [moved c a st y pa fa pg fg] is [c] after the attempt [a] moved to [y]. *)
Definition moved (c : Core) (a : AttemptRow) (st : option ReleaseRunStatus)
    (y : ReleaseAttemptStatus) (pa : AttemptRow → bool) (fa : AttemptRow → AttemptRow)
    (pg : GateRow → bool) (fg : GateRow → GateRow) : Core := {|
  c_runs := set_run_opt (ar_run_id a) st (c_runs c);
  c_steps := update_where (is_step (ar_run_id a) (ar_step_id a))
    (set_step_status (step_status_of y)) (c_steps c);
  c_gates := update_where pg fg (c_gates c);
  c_attempts := update_where pa fa (c_attempts c);
  c_decisions := c_decisions c |}.

Lemma update_where_false {R} (f : R → R) t : update_where (λ _, false) f t = t.
Proof. by apply update_where_id. Qed.

Lemma update_health_gate_Ok runId definition f s u s' :
  update_health_gate runId definition f s = (Ok u, s') →
  ∃ pg, db s' = on_gates (update_where pg f) (db s) ∧
    ∀ g, pg g = true → gr_run_id g = runId ∧
      sd_healthGateId definition = Some (gr_gate_id g).
Proof.
  unfold update_health_gate, health_gate. intros E.
  destruct (sd_healthGateId definition) as [g|]; [case_bool_decide|]; ledger_inv.
  - exists (λ _, false). split; [|done]. unfold on_gates. rewrite update_where_false.
    by destruct (db s').
  - exists (is_gate runId g). split; [done|]. intros x Hx%is_gate_spec.
    unfold gate_key in Hx. by injection Hx as -> ->.
  - exists (λ _, false). split; [|done]. unfold on_gates. rewrite update_where_false.
    by destruct (db s').
Qed.

Lemma is_attempt_spec id a : is_attempt id a = true ↔ ar_attempt_id a = id.
Proof. apply bool_decide_eq_true. Qed.

Lemma write_outcome_unknown_refines a step is_row now s u s' :
  a ∈ step_attempts (db s) → step ∈ run_steps (db s) → step_key step = attempt_key a →
  ar_status a = attempt_intent_recorded →
  is_row a = true → (∀ b, is_row b = true → ar_attempt_id b = ar_attempt_id a) →
  write_outcome_unknown a is_row (sr_definition step) now s = (Ok u, s') →
  ∃ pg, core (db s') = moved (core (db s)) a (Some run_paused_outcome_unknown)
      attempt_outcome_unknown is_row (set_attempt_status attempt_outcome_unknown)
      pg (set_gate_status gate_outcome_unknown) ∧
    cstep bps ok (core (db s)) (core (db s')).
Proof.
  intros Ha Hs Hk Hst Hr Hr' E. unfold write_outcome_unknown, set_status_of_step in E.
  run_inv.
  match goal with Hg : update_health_gate _ _ _ _ = _ |- _ =>
    apply update_health_gate_Ok in Hg as (pg & Hdb & Hpg) end.
  apply core_set_run in E. rewrite Hdb in E. ledger_inv.
  exists pg. assert (core (db s') = moved (core (db s)) a (Some run_paused_outcome_unknown)
    attempt_outcome_unknown is_row (set_attempt_status attempt_outcome_unknown)
    pg (set_gate_status gate_outcome_unknown)) as Heq.
  { rewrite E. unfold moved, core. cbn. by rewrite ?Hdb. }
  split; [done|]. rewrite Heq. unfold moved.
  apply (cs_move bps ok (core (db s)) a step); try done.
  - rewrite Hst. constructor.
  - intros g. split; [done|by right].
Qed.

Lemma markOutcomeUnknown_refines op reason actor :
  refines (markOutcomeUnknown op reason actor).
Proof.
  intros s r s' E. unfold markOutcomeUnknown, validateIdentifier, validateActor in E.
  ledger_inv.
  repeat match goal with
  | Hr : requireLatestAttempt _ _ = _ |- _ =>
      apply requireLatestAttempt_Ok in Hr as (? & Ha & _); subst
  | Hr : requireStep _ _ _ = _ |- _ => apply requireStep_Ok in Hr as (? & Hrow & Hk); subst
  end.
  destruct (bool_decide _) eqn:Hst.
  { by apply silent_getRun in E as ->. }
  ledger_inv. bool_inv.
  match goal with Hw : write_outcome_unknown _ _ _ _ _ = _,
    Happ : appendEvent _ _ _ _ _ _ = _ |- _ =>
    apply silent_getRun in E as ->; apply silent_appendEvent in Happ as ->;
    eapply write_outcome_unknown_refines in Hw as (pg & _ & Hw) end; try done.
  - by apply rtc_once.
  - by apply is_attempt_spec.
  - intros b. apply is_attempt_spec.
Qed.

Lemma core_on_attempts f d : core (on_attempts f d) = {|
  c_runs := c_runs (core d); c_steps := c_steps (core d); c_gates := c_gates (core d);
  c_attempts := f (c_attempts (core d)); c_decisions := c_decisions (core d) |}.
Proof. done. Qed.
Lemma core_on_steps f d : core (on_steps f d) = {|
  c_runs := c_runs (core d); c_steps := f (c_steps (core d)); c_gates := c_gates (core d);
  c_attempts := c_attempts (core d); c_decisions := c_decisions (core d) |}.
Proof. done. Qed.
Lemma core_on_gates f d : core (on_gates f d) = {|
  c_runs := c_runs (core d); c_steps := c_steps (core d); c_gates := f (c_gates (core d));
  c_attempts := c_attempts (core d); c_decisions := c_decisions (core d) |}.
Proof. done. Qed.
Lemma core_on_decisions f d : core (on_decisions f d) = {|
  c_runs := c_runs (core d); c_steps := c_steps (core d); c_gates := c_gates (core d);
  c_attempts := c_attempts (core d); c_decisions := f (c_decisions (core d)) |}.
Proof. done. Qed.
Lemma core_set_run' run st now s u s' :
  set_status_of_run run st now s = (Ok u, s') →
  core (db s') = {| c_runs := set_run run st (c_runs (core (db s)));
    c_steps := c_steps (core (db s)); c_gates := c_gates (core (db s));
    c_attempts := c_attempts (core (db s)); c_decisions := c_decisions (core (db s)) |}.
Proof. apply core_set_run. Qed.

Lemma validateOutcomeCode_Ok o s u s' : validateOutcomeCode o s = (Ok u, s') → s' = s.
Proof. unfold validateOutcomeCode. intros E. destruct o; by ledger_inv. Qed.

(** The writes of [recordStepOutcome] for an attempt with a recorded intent. *)
Lemma recorded_cstep (c : Core) a step (succeeded : bool) now code sha :
  a ∈ c_attempts c → step ∈ c_steps c → step_key step = attempt_key a →
  ar_status a = attempt_intent_recorded →
  cstep bps ok c (moved c a (if succeeded then None else Some run_failed)
    (if succeeded then attempt_succeeded else attempt_failed)
    (is_attempt (ar_attempt_id a))
    (λ b, set_attempt_request sha (set_attempt_completed now code
       (set_attempt_status (if succeeded then attempt_succeeded else attempt_failed) b)))
    (λ _, false) (set_gate_status gate_pending)).
Proof.
  intros Ha Hs Hk Hst. unfold moved. apply (cs_move bps ok c a step); try done.
  - rewrite Hst. destruct succeeded; constructor.
  - by apply is_attempt_spec.
  - intros b. apply is_attempt_spec.
  - intros g. split; [done|by left].
Qed.

Lemma recordStepOutcome_refines op input actor : refines (recordStepOutcome op input actor).
Proof.
  intros s r s' E.
  unfold recordStepOutcome, validateIdentifier, validateActor in E.
  ledger_inv.
  repeat match goal with
  | Hr : validateOutcomeCode _ _ = _ |- _ => apply validateOutcomeCode_Ok in Hr; subst
  | Hr : requireLatestAttempt _ _ = _ |- _ =>
      apply requireLatestAttempt_Ok in Hr as (? & Ha & _); subst
  | Hr : requireStep _ _ _ = _ |- _ => apply requireStep_Ok in Hr as (? & Hrow & Hk); subst
  end.
  destruct (bool_decide _ || bool_decide _) eqn:Hst.
  { ledger_inv. by apply silent_getRun in E as ->. }
  unfold set_status_of_step in E. ledger_inv. bool_inv.
  match goal with Hp : persistEvidence _ _ _ _ _ = _ |- _ =>
    apply silent_persistEvidence in Hp as Hcore end.
  match goal with Hset : (if bool_decide ?b then mret tt else _) _ = (Ok _, ?s2),
    Happ : appendEvent _ _ _ _ _ _ = _, Hm : (if _ then maybeCompleteRun _ _ _ else _) _ = _
    |- _ =>
    apply silent_getRun in E as ->; apply silent_appendEvent in Happ as Happ';
    trans (core (db s2)); [apply rtc_once|rewrite <- Happ'; case_bool_decide;
      [by eapply complete_refines|by ledger_inv]] end.
  eapply eq_ind with (P := cstep bps ok _);
    [eapply (recorded_cstep _ _ _ (bool_decide (ro_outcome input = outcome_succeeded)));
     [exact Ha|exact Hrow|exact Hk|done]|].
  unfold moved. cbn in Hcore. rewrite <- Hcore, update_where_false.
  match goal with Hset : (if bool_decide ?b then mret tt else _) _ = (Ok _, ?s2) |- _ =>
    case_bool_decide; [by ledger_inv|by rewrite (core_set_run' _ _ _ _ _ _ Hset)] end.
Qed.

(** *** Reconciliation *)

Lemma write_reconciled_refines a step outcome now s u s' :
  a ∈ step_attempts (db s) → step ∈ run_steps (db s) → step_key step = attempt_key a →
  ar_status a = attempt_outcome_unknown →
  write_reconciled a (sr_definition step) outcome now s = (Ok u, s') →
  steps (core (db s)) (core (db s')).
Proof.
  intros Ha Hs Hk Hst E. unfold write_reconciled, set_status_of_step in E.
  destruct outcome; run_inv; [| |done].
  all: apply update_health_gate_Ok in E as (pg & Hdb & Hpg); ledger_inv.
  all: rewrite Hdb, core_on_gates; apply rtc_once.
  - apply (cs_move bps ok (core (db s)) a step attempt_succeeded None
      (is_attempt (ar_attempt_id a)) (λ a, set_attempt_completed now _ _)); try done.
    + rewrite Hst. apply move_applied.
    + by apply is_attempt_spec.
    + intros b. apply is_attempt_spec.
    + intros g. split; [done|by left].
  - apply (cs_move bps ok (core (db s)) a step attempt_resolved_not_applied None
      (is_attempt (ar_attempt_id a)) (λ a, set_attempt_completed now _ _)); try done.
    + rewrite Hst. apply move_not_applied.
    + by apply is_attempt_spec.
    + intros b. apply is_attempt_spec.
    + intros g. split; [done|by left].
Qed.

Lemma reconcileOperation_refines op input s r s' :
  (∀ a, a ∈ step_attempts (db s) → ar_operation_id a = op →
     ar_status a = attempt_outcome_unknown → ok (ar_run_id a)) →
  reconcileOperation op input s = (Ok r, s') →
  steps (core (db s)) (core (db s')).
Proof.
  intros Hok E.
  unfold reconcileOperation, validateIdentifier, validateIdempotencyKey, validateActor,
    validateIdentifier in E.
  ledger_inv.
  match goal with Hr : requireLatestAttempt _ _ = _ |- _ =>
    apply requireLatestAttempt_Ok in Hr as (? & Ha & Hop); subst end.
  destruct (List.find _ _) as [p|].
  { ledger_inv. by apply silent_getRun in E as ->. }
  ledger_inv. bool_inv.
  match goal with Hp : persistEvidence _ _ _ _ _ = _ |- _ =>
    apply silent_persistEvidence in Hp as Hpe end.
  match goal with Hp : insert_reconciliation _ _ = _ |- _ =>
    apply silent_insert_reconciliation in Hp as Hrec end.
  match goal with Hp : requireStep _ _ _ = _ |- _ =>
    apply requireStep_Ok in Hp as (-> & Hrow & Hk) end.
  match goal with Hp : appendEvent _ _ _ _ _ _ = _ |- _ =>
    apply silent_appendEvent in Hp as Happ end.
  match goal with Hp : resumeIfNoUnknownOperations _ _ _ = _ |- _ =>
    apply resume_refines in Hp as Hres; [|by apply Hok] end.
  match goal with Hp : maybeCompleteRun _ _ _ _ = _ |- _ =>
    apply complete_refines in Hp as Hcmp end.
  apply silent_getRun in E as ->. etrans; [|exact Hcmp]. etrans; [|exact Hres].
  rewrite Happ. cbn in Hpe, Hrec. rewrite Hpe in Hrec. rewrite <- Hrec.
  eapply write_reconciled_refines; [|exact Hrow|exact Hk| |eassumption]; [|done].
  change (step_attempts (db ?d)) with (c_attempts (core (db d))). by rewrite Hrec.
Qed.

(** *** Recovery after a restart *)

Definition intended (b : AttemptRow) : bool :=
  bool_decide (ar_status b = attempt_intent_recorded).

Lemma recover_one_Ok actor a s u s' :
  a ∈ step_attempts (db s) → ar_status a = attempt_intent_recorded →
  recover_one actor a s = (Ok u, s') →
  cstep bps ok (core (db s)) (core (db s')) ∧
  step_attempts (db s') = update_where (λ b, is_attempt (ar_attempt_id a) b && intended b)
    (set_attempt_status attempt_outcome_unknown) (step_attempts (db s)) ∧
  c_runs (core (db s')) = set_run (ar_run_id a) run_paused_outcome_unknown (c_runs (core (db s))).
Proof.
  intros Ha Hst E. unfold recover_one in E. ledger_inv.
  match goal with Hp : requireStep _ _ _ = _ |- _ =>
    apply requireStep_Ok in Hp as (-> & Hrow & Hk) end.
  match goal with Hp : appendEvent _ _ _ _ _ _ = _ |- _ =>
    apply silent_appendEvent in Hp as Happ end.
  match goal with Hw : write_outcome_unknown _ _ _ _ _ = _ |- _ =>
    eapply write_outcome_unknown_refines in Hw as (pg & Heq & Hw) end; try done.
  - rewrite Happ. split; [done|]. change (step_attempts (db s')) with (c_attempts (core (db s'))).
    by rewrite Happ, Heq.
  - cbn. apply andb_true_intro. rewrite is_attempt_spec, bool_decide_eq_true. done.
  - cbn. intros b Hb. bool_inv. by apply is_attempt_spec.
Qed.

Lemma set_run_keeps_status run run' st rs : (run, st) ∈ rs → (run, st) ∈ set_run run' st rs.
Proof.
  intros Hin. apply elem_of_update_where. exists (run, st). split; [done|]. by case_bool_decide.
Qed.

(** Recovering the attempts [l]: each becomes unknown and its run pauses. *)
Lemma recover_all_Ok actor l s s' :
  NoDup (map ar_attempt_id l) →
  (∀ a, a ∈ l → a ∈ step_attempts (db s) ∧ ar_status a = attempt_intent_recorded) →
  for_each (recover_one actor) l s = (Ok tt, s') →
  steps (core (db s)) (core (db s')) ∧
  step_attempts (db s') = update_where
    (λ b, bool_decide (ar_attempt_id b ∈ map ar_attempt_id l) && intended b)
    (set_attempt_status attempt_outcome_unknown) (step_attempts (db s)) ∧
  ∀ run, (run ∈ map ar_run_id l ∧ run ∈ (c_runs (core (db s))).*1) ∨
      (run, run_paused_outcome_unknown) ∈ c_runs (core (db s)) →
    (run, run_paused_outcome_unknown) ∈ c_runs (core (db s')).
Proof.
  revert s. induction l as [|a l IH]; intros s Hd Hl E; cbn in E; run_inv.
  { split_and!; [done| |].
    - by rewrite update_where_id.
    - intros run [[[]%not_elem_of_nil _]|?]; done. }
  cbn in Hd. apply NoDup_cons in Hd as [Hn Hd].
  destruct (Hl a) as [Ha Hst]; [left|].
  match goal with Hr : recover_one _ _ _ = _ |- _ =>
    apply recover_one_Ok in Hr as (Hstep & Hatt & Hruns); [|done..] end.
  destruct (λ Hl', IH _ Hd Hl' E) as (Hsteps & Hrest & Hpaused).
  { intros b Hb. destruct (Hl b) as [Hb' Hbst]; [by right|]. split; [|done].
    rewrite Hatt. apply elem_of_update_where. exists b. split; [done|].
    destruct (_ && _) eqn:Hp; [|done]. bool_inv.
    match goal with Hi : is_attempt _ _ = true |- _ => apply is_attempt_spec in Hi end.
    destruct Hn. apply list_elem_of_In, in_map_iff. exists b. by rewrite <- list_elem_of_In. }
  split_and!; [by eapply rtc_l| |].
  - rewrite Hrest, Hatt. unfold update_where. rewrite map_map. apply map_ext. intros b.
    unfold is_attempt. cbn [map]. destruct (intended b) eqn:Hib.
    + destruct (decide (ar_attempt_id b = ar_attempt_id a)) as [Hba|Hba].
      * rewrite (bool_decide_eq_true_2 (_ = _)) by done. cbn.
        rewrite (bool_decide_eq_true_2 (_ ∈ ar_attempt_id a :: _)) by (rewrite Hba; left).
        by rewrite andb_false_r.
      * rewrite (bool_decide_eq_false_2 (_ = _)) by done. cbn. rewrite Hib.
        rewrite (bool_decide_ext _ (ar_attempt_id b ∈ ar_attempt_id a :: map ar_attempt_id l));
          [done|]. rewrite elem_of_cons. naive_solver.
    + by rewrite !andb_false_r, Hib, andb_false_r.
  - intros run Hcase. apply Hpaused. rewrite Hruns.
    destruct Hcase as [[[->|Hin]%elem_of_cons Hrun]|Hp].
    + right. apply elem_of_fst in Hrun as [st Hrun]. apply elem_of_update_where.
      exists (ar_run_id a, st). split; [done|]. cbn. by rewrite bool_decide_eq_true_2.
    + left. split; [done|]. by rewrite set_run_fst.
    + right. by apply set_run_keeps_status.
Qed.

Lemma recoverInterrupted_Ok actor s n s' :
  NoDup (map ar_attempt_id (step_attempts (db s))) →
  recoverInterruptedOperations actor s = (Ok n, s') →
  steps (core (db s)) (core (db s')) ∧ n = count_where intended (step_attempts (db s)) ∧
  step_attempts (db s') = update_where intended
    (set_attempt_status attempt_outcome_unknown) (step_attempts (db s)) ∧
  ∀ a, a ∈ step_attempts (db s) → intended a = true → ar_run_id a ∈ (c_runs (core (db s))).*1 →
    (ar_run_id a, run_paused_outcome_unknown) ∈ c_runs (core (db s')).
Proof.
  intros Hd E. unfold recoverInterruptedOperations, validateActor in E. ledger_inv.
  fold intended in *.
  match goal with Hf : for_each _ (order_by ?o ?l) _ = _ |- _ =>
    pose proof (order_by_perm o l) as Hp; apply recover_all_Ok in Hf as (Hs & Hrest & Hpaused) end.
  - split_and!; [done|by rewrite Hp| |].
    + rewrite Hrest. unfold update_where. apply map_ext_in. intros b Hb.
      destruct (intended b) eqn:Hi; [|by rewrite andb_false_r]. rewrite bool_decide_eq_true_2; [done|].
      apply list_elem_of_In, in_map, list_elem_of_In. rewrite Hp. apply elem_of_rows_filter.
      split; [by apply list_elem_of_In|done].
    + intros a Ha Hi Hr. apply Hpaused. left. split; [|done].
      apply list_elem_of_In, in_map, list_elem_of_In. rewrite Hp. by apply elem_of_rows_filter.
  - rewrite Hp. by apply NoDup_key_filter.
  - intros a. rewrite Hp, elem_of_rows_filter. intros [? ?]. unfold intended in *. by bool_inv.
Qed.

(** *** Gate decisions *)

Lemma steps_of_elem runId d t :
  t ∈ steps_of runId d → t ∈ run_steps d ∧ sr_run_id t = runId.
Proof.
  unfold steps_of. rewrite order_by_perm, elem_of_rows_filter. intros [? ?]. by bool_inv.
Qed.

(** [decision_of c x fg] is [c] after the gate decision [x]. *)
Definition decision_of (c : Core) (x : DecisionRow) (fg : GateRow → GateRow) : Core := {|
  c_runs := set_run_opt (de_run_id x)
    (if bool_decide (de_outcome x = decision_passed) then None else Some run_failed) (c_runs c);
  c_steps := c_steps c;
  c_gates := update_where (is_gate (de_run_id x) (de_gate_id x)) fg (c_gates c);
  c_attempts := c_attempts c; c_decisions := c_decisions c ++ [x] |}.

Lemma decided_cstep (c : Core) g step x fg :
  (de_run_id x, run_running) ∈ c_runs c → g ∈ c_gates c →
  gate_key g = (de_run_id x, de_gate_id x) → gr_status g = gate_pending →
  step ∈ c_steps c → sr_run_id step = de_run_id x →
  sd_healthGateId (sr_definition step) = Some (de_gate_id x) →
  sr_status step = step_succeeded →
  (∀ y, y ∈ c_decisions c → (de_run_id y, de_gate_id y) ≠ (de_run_id x, de_gate_id x)) →
  (∀ h, gate_key (fg h) = gate_key h ∧ gr_status (fg h) = gate_status_of (de_outcome x)) →
  cstep bps ok c (decision_of c x fg).
Proof. intros. by apply (cs_decide bps ok c (de_run_id x) g step x fg). Qed.

Lemma undecided_spec (d : Db) runId gateId :
  List.find (λ x, bool_decide (de_run_id x = runId) && bool_decide (de_gate_id x = gateId))
    (health_gate_decisions d) = None →
  ∀ y, y ∈ c_decisions (core d) → (de_run_id y, de_gate_id y) ≠ (runId, gateId).
Proof.
  intros Hf y Hy [= <- <-]. pose proof (find_None_elem _ _ _ Hf Hy) as Hp.
  cbv beta in Hp. by rewrite !bool_decide_eq_true_2 in Hp by done.
Qed.

Lemma resolveHealthGate_refines runId gateId input :
  refines (resolveHealthGate runId gateId input).
Proof.
  intros s r s' E.
  unfold resolveHealthGate, validateRunId, validateIdentifier, validateIdempotencyKey,
    validateActor, validateIdentifier in E.
  ledger_inv.
  match goal with Hr : requireRun _ _ = _ |- _ => apply requireRun_Ok in Hr as (-> & _ & _ & Hr) end.
  destruct (List.find _ _) as [p|] eqn:Hprior.
  { ledger_inv. by apply silent_getRun in E as ->. }
  unfold insert_decision in E. ledger_inv. bool_inv.
  match goal with Hg : List.find (is_gate _ _) _ = Some _ |- _ =>
    apply find_Some_elem in Hg as [Hgate Hgk%is_gate_spec] end.
  match goal with Hg : List.find _ (steps_of _ _) = Some _ |- _ =>
    apply find_Some_elem in Hg as [[Hstep Hsr]%steps_of_elem Hsg] end.
  match goal with Hg : List.find _ _ = None |- _ =>
    pose proof (undecided_spec _ _ _ Hg) as Hund end.
  match goal with Hp : persistEvidence _ _ _ _ _ = _ |- _ =>
    apply silent_persistEvidence in Hp as Hcore end.
  bool_inv. cbn in Hcore. cbv beta in *.
  match goal with Hset : (if bool_decide ?b then mret tt else _) _ = (Ok _, ?s2),
    Happ : appendEvent _ _ _ _ _ _ = _, Hm : (if _ then maybeCompleteRun _ _ _ else _) _ = _
    |- _ =>
    apply silent_getRun in E as ->; apply silent_appendEvent in Happ as Happ';
    trans (core (db s2)); [apply rtc_once|rewrite <- Happ'; case_bool_decide;
      [by eapply complete_refines|by ledger_inv]] end.
  match goal with Hd : decision_constraints _ ?x = true, Hst : rr_status _ = run_running,
    Hr : (_, rr_status _) ∈ _, Hp : persistEvidence _ _ _ _ _ = (Ok ?ids, _) |- cstep _ _ ?c _ =>
    rewrite Hst in Hr;
    assert (cstep bps ok c (decision_of c x (λ g, set_gate_evidence ids
      (set_gate_status (gate_status_of (rg_outcome input)) g)))) as Hc
      by (by eapply (decided_cstep c)) end.
  eapply eq_ind; [exact Hc|]. unfold decision_of. rewrite <- Hcore. cbn.
  case_bool_decide; [by ledger_inv|]. by erewrite core_set_run' by eassumption.
Qed.

(** *** Creating a run *)

Lemma insert_steps_Ok l s s' :
  for_each insert_step l s = (Ok tt, s') →
  db s' = on_steps (λ t, t ++ l) (db s).
Proof.
  revert s. induction l as [|r l IH]; intros s E; cbn in E; run_inv.
  { unfold on_steps. rewrite app_nil_r. by destruct (db s'). }
  apply IH in E as ->. unfold insert_step in *. ledger_inv. unfold on_steps. cbn.
  by rewrite <- app_assoc.
Qed.
Lemma insert_gates_Ok l s s' :
  for_each insert_gate l s = (Ok tt, s') →
  db s' = on_gates (λ t, t ++ l) (db s).
Proof.
  revert s. induction l as [|r l IH]; intros s E; cbn in E; run_inv.
  { unfold on_gates. rewrite app_nil_r. by destruct (db s'). }
  apply IH in E as ->. unfold insert_gate in *. ledger_inv. unfold on_gates. cbn.
  by rewrite <- app_assoc.
Qed.

Lemma run_constraints_fresh d r : run_constraints d r = true → rr_run_id r ∉ (c_runs (core d)).*1.
Proof.
  unfold run_constraints. rewrite !andb_true_iff, !fresh_spec. intros Hr Hin.
  apply elem_of_fst in Hin as [st Hin]. cbn in Hin.
  apply list_elem_of_In, in_map_iff in Hin as (r' & [= Hid _] & Hin').
  apply list_elem_of_In in Hin'. naive_solver.
Qed.


(** [createRun] returned: a replay of an earlier request, or a new run. *)
Lemma createRun_Ok request s r s' :
  createRun bps request s = (Ok r, s') →
  (cr_created r = false ∧ core (db s') = core (db s)) ∨
  (cr_created r = true ∧ ∃ bp, bp ∈ bps ∧ ∃ run, run ∉ (c_runs (core (db s))).*1 ∧
     core (db s') = {|
       c_runs := c_runs (core (db s)) ++ [(run, run_planned)];
       c_steps := run_steps (db s) ++ map (planned_step run) (imap pair (bp_steps bp));
       c_gates := run_health_gates (db s) ++ map (planned_gate run) (bp_gates bp);
       c_attempts := step_attempts (db s); c_decisions := health_gate_decisions (db s) |}).
Proof.
  intros E. unfold createRun, validateRunRequest, requireBlueprint, validateIdempotencyKey,
    validateIdentifier, validateActor in E. ledger_inv.
  match goal with Hf : List.find _ (rev bps) = Some _ |- _ =>
    apply find_Some_elem in Hf as [Hbp _]; rewrite list_elem_of_In, <- in_rev in Hbp end.
  destruct (List.find _ _) as [row|] eqn:Hprior; ledger_inv.
  { left. split; [done|].
    by match goal with Hg : getRun _ _ = _ |- _ => apply silent_getRun in Hg as -> end. }
  right. split; [done|]. unfold insert_run in *. ledger_inv.
  match goal with Hc : run_constraints _ _ = true |- _ =>
    apply run_constraints_fresh in Hc end.
  match goal with Hs : for_each insert_step _ _ = _, Hg : for_each insert_gate _ _ = _,
    Happ : appendEvent _ _ _ _ _ _ = _, Hr : getRun _ _ = _ |- _ =>
    apply silent_getRun in Hr as ->; apply silent_appendEvent in Happ as ->;
    apply insert_gates_Ok in Hg as ->; apply insert_steps_Ok in Hs as -> end.
  eexists. split; [by apply list_elem_of_In|]. eexists. split; [eassumption|].
  unfold core. cbn. by rewrite map_app.
Qed.

Lemma createRun_refines request : refines (createRun bps request).
Proof.
  intros s r s' [[_ ->]|(_ & bp & Hbp & run & Hn & ->)]%createRun_Ok; [done|].
  apply rtc_once. by apply (cs_create bps ok (core (db s)) run bp).
Qed.
End refinement.
