(* ===== verification/OrchestratorReads.v ===== *)
(** * OrchestratorReads: keyset pagination and the query methods

    The pattern of [ReleaseOrchestrator.listRuns] and [.pageEvidence]: a query
    selects the rows past a cursor, orders them by the same two columns and
    reads one row more than the page holds; the extra row says whether a next
    cursor is returned.  The section shows that following the cursors over an
    unchanged table enumerates its rows once each, in order. *)

From S2P Require Import Prelude Text ReleaseTypes Blueprint Ledger Orchestrator.

(** ** Sorting *)

Section sorted.
Context {R : Type} (before : R → R → bool).
Context (Htotal : ∀ x y, before x y = true ∨ before y x = true).
Context (Htrans : ∀ x y z, before x y = true → before y z = true → before x z = true).

Definition ordered : list R → Prop := StronglySorted (λ x y, before x y = true).

Lemma insert_sorted_ordered x l : ordered l → ordered (insert_sorted before x l).
Proof using Htotal Htrans.
  induction l as [|y l IH]; intros Hs; cbn; [repeat constructor|].
  apply StronglySorted_inv in Hs as [Hs Hy]. destruct (before x y) eqn:E.
  - constructor; [by constructor|]. constructor; [done|].
    eapply Forall_impl; [exact Hy|]. cbn. intros z. by apply Htrans.
  - constructor; [by apply IH|]. rewrite insert_sorted_perm. constructor; [|done].
    destruct (Htotal x y); [congruence|done].
Qed.

Lemma order_by_ordered l : ordered (order_by before l).
Proof using Htotal Htrans.
  induction l as [|x l IH]; cbn; [constructor|by apply insert_sorted_ordered].
Qed.

Lemma ordered_filter p l : ordered l → ordered (List.filter p l).
Proof using Type.
  induction 1 as [|x l Hs IH Hx]; cbn; [constructor|]. destruct (p x); [|done].
  constructor; [done|]. rewrite Forall_forall in Hx |- *.
  intros y [? _]%elem_of_rows_filter. by apply Hx.
Qed.

(** Ordered permutations of rows that the order distinguishes are equal. *)
Lemma ordered_unique l1 l2 :
  (∀ x y, x ∈ l1 → y ∈ l1 → before x y = true → before y x = true → x = y) →
  ordered l1 → ordered l2 → Permutation l1 l2 → l1 = l2.
Proof using Type.
  intros Ha H1. revert l2. induction H1 as [|x l1 H1 IH Hx]; intros l2 H2 Hp.
  { by apply Permutation_nil in Hp. }
  destruct H2 as [|y l2 H2 Hy]; [by apply Permutation_sym, Permutation_nil in Hp|].
  assert (x = y) as <-.
  { assert (y ∈ x :: l1) as Hyin by (rewrite Hp; left).
    assert (x ∈ y :: l2) as Hxin by (rewrite <- Hp; left).
    rewrite Forall_forall in Hx, Hy.
    apply elem_of_cons in Hyin as [->|Hyin]; [done|].
    apply elem_of_cons in Hxin as [->|Hxin]; [done|].
    apply Ha; [left|by right|by apply Hx|by apply Hy]. }
  f_equal. apply IH; [|done|by eapply Permutation_cons_inv].
  intros a b Hin Hin'. apply Ha; by right.
Qed.

Lemma filter_perm (p : R → bool) l1 l2 :
  Permutation l1 l2 → Permutation (List.filter p l1) (List.filter p l2).
Proof using Type.
  induction 1 as [|x l1 l2 _ IH|x y l|l1 l2 l3 _ IH1 _ IH2]; cbn;
    [done|by destruct (p x); rewrite IH|destruct (p x), (p y); try done; apply perm_swap|
     by etrans].
Qed.

Lemma order_by_filter p l :
  (∀ x y, x ∈ l → y ∈ l → before x y = true → before y x = true → x = y) →
  order_by before (List.filter p l) = List.filter p (order_by before l).
Proof using Htotal Htrans.
  intros Ha. apply ordered_unique.
  - intros x y. rewrite !order_by_perm, !elem_of_rows_filter. intros [? _] [? _]. by apply Ha.
  - apply order_by_ordered.
  - apply ordered_filter, order_by_ordered.
  - rewrite order_by_perm. apply filter_perm. symmetry. apply order_by_perm.
Qed.
End sorted.

(** ** Pages *)

Section keyset.
Context {R : Type} (key : R → string * string) (ltb : string * string → string * string → bool).

(** [hasMore && last ? cursor of last : null] over the [limit + 1] rows read. *)
Definition page (limit : nat) (rows : list R) : list R * option (string * string) :=
  let pageRows := take limit rows in
  (pageRows,
   if limit <? length rows then option_map key (list.last pageRows) else None).

Definition row_order (x y : R) : bool := negb (ltb (key y) (key x)).
Definition past (cursor : option (string * string)) (x : R) : bool :=
  match cursor with Some c => ltb c (key x) | None => true end.

(** [SELECT ... WHERE (past cursor) ORDER BY key LIMIT limit + 1] *)
Definition fetch (limit : nat) (cursor : option (string * string)) (t : list R) : list R :=
  take (limit + 1) (order_by row_order (List.filter (past cursor) t)).

(** A client that follows the cursors, for at most [fuel] pages. *)
Fixpoint walk (fuel limit : nat) (cursor : option (string * string)) (t : list R) : list R :=
  match fuel with
  | 0 => []
  | S fuel =>
      let '(rows, next) := page limit (fetch limit cursor t) in
      rows ++ match next with None => [] | Some c => walk fuel limit (Some c) t end
  end.

Context (ltb_irrefl : ∀ a, ltb a a = false).
Context (ltb_trans : ∀ a b c, ltb a b = true → ltb b c = true → ltb a c = true).
Context (ltb_total : ∀ a b, a ≠ b → ltb a b = true ∨ ltb b a = true).

Lemma row_order_total x y : row_order x y = true ∨ row_order y x = true.
Proof using ltb_irrefl ltb_trans.
  unfold row_order. destruct (ltb (key y) (key x)) eqn:E1; [|by left].
  destruct (ltb (key x) (key y)) eqn:E2; [|by right].
  pose proof (ltb_trans _ _ _ E1 E2). by rewrite ltb_irrefl in *.
Qed.

Lemma row_order_trans x y z :
  row_order x y = true → row_order y z = true → row_order x z = true.
Proof using ltb_irrefl ltb_trans ltb_total.
  unfold row_order. rewrite !negb_true_iff. intros H1 H2.
  destruct (ltb (key z) (key x)) eqn:E; [|done].
  destruct (decide (key y = key z)) as [Hyz|Hyz]; [by rewrite Hyz in H1; congruence|].
  destruct (ltb_total _ _ Hyz) as [Hl|Hl]; [|congruence].
  by rewrite (ltb_trans _ _ _ Hl E) in H1.
Qed.

Context (t : list R) (Hkeys : NoDup (map key t)).

Lemma row_order_antisym x y :
  x ∈ t → y ∈ t → row_order x y = true → row_order y x = true → x = y.
Proof using ltb_total Hkeys.
  unfold row_order. rewrite !negb_true_iff. intros Hx Hy H1 H2.
  eapply NoDup_key_inj; [exact Hkeys|done..|].
  destruct (decide (key x = key y)) as [|Hne]; [done|].
  destruct (ltb_total _ _ Hne); congruence.
Qed.

Lemma fetch_eq limit cursor :
  fetch limit cursor t = take (limit + 1) (List.filter (past cursor) (order_by row_order t)).
Proof using ltb_irrefl ltb_trans ltb_total Hkeys.
  unfold fetch. by rewrite (order_by_filter row_order row_order_total row_order_trans)
    by apply row_order_antisym.
Qed.

(** Past the key of a row are exactly the rows that follow it. *)
Lemma past_suffix l1 x l2 :
  order_by row_order t = l1 ++ x :: l2 →
  List.filter (past (Some (key x))) (order_by row_order t) = l2.
Proof using ltb_irrefl ltb_trans ltb_total Hkeys.
  intros E. pose proof (order_by_ordered _ row_order_total row_order_trans t) as Hs.
  assert (NoDup (map key (order_by row_order t))) as Hd by (by rewrite order_by_perm).
  rewrite E in *. unfold ordered in Hs. rewrite List.filter_app. cbn. rewrite ltb_irrefl.
  apply StronglySorted_app in Hs as (Hcross & _ & Hs). apply StronglySorted_inv in Hs as [_ Hx].
  rewrite map_app in Hd. apply NoDup_app in Hd as (_ & _ & Hd).
  apply NoDup_cons in Hd as [Hn _].
  replace (List.filter _ l1) with (@nil R).
  - cbn. rewrite Forall_forall in Hx. apply filter_all. intros y Hy.
    specialize (Hx y Hy). unfold row_order in Hx. apply negb_true_iff in Hx.
    destruct (ltb_total (key x) (key y)) as [|]; [|done|congruence].
    intros Hk. apply Hn. cbn. rewrite Hk. apply list_elem_of_In, in_map, list_elem_of_In, Hy.
  - symmetry. apply filter_none. intros y Hy.
    specialize (Hcross y x Hy ltac:(left)). unfold row_order in Hcross. by apply negb_true_iff.
Qed.

(** After the page that ends with [x], the walk continues behind [x]. *)
Lemma walk_suffix fuel limit cursor done_ rest :
  0 < limit → order_by row_order t = done_ ++ rest → length rest < fuel →
  List.filter (past cursor) (order_by row_order t) = rest →
  walk fuel limit cursor t = rest.
Proof using ltb_irrefl ltb_trans ltb_total Hkeys.
  intros Hl. revert cursor done_ rest.
  induction fuel as [|fuel IH]; intros cursor done_ rest E Hf Hp; [lia|]. cbn.
  rewrite fetch_eq, Hp, take_take, Nat.min_l, length_take by lia.
  destruct (Nat.ltb_spec limit ((limit + 1) `min` length rest)) as [Hmore|Hdone].
  - destruct (list.last (take limit rest)) as [x|] eqn:Hx; cbn.
    + apply last_Some in Hx as [l Hx]. rewrite (IH (Some (key x)) (done_ ++ take limit rest) (drop limit rest)).
      * apply take_drop.
      * by rewrite <- app_assoc, take_drop.
      * rewrite length_drop. lia.
      * rewrite (past_suffix (done_ ++ l) x (drop limit rest)); [done|].
        rewrite E. rewrite <- (take_drop limit rest) at 1. rewrite Hx.
        by rewrite <- !app_assoc.
    + apply last_None in Hx. apply (f_equal length) in Hx. rewrite length_take in Hx. cbn in Hx. lia.
  - rewrite app_nil_r. apply take_ge. lia.
Qed.

Lemma walk_all fuel limit :
  0 < limit → length t < fuel → walk fuel limit None t = order_by row_order t.
Proof using ltb_irrefl ltb_trans ltb_total Hkeys.
  intros Hl Hf. apply (walk_suffix _ _ _ []); [done..| |].
  - by rewrite order_by_perm.
  - by apply filter_all.
Qed.
End keyset.

(** ** Two-column text keys *)

(** [a < b] in the order of two BINARY-collated text columns. *)
Definition pair_ltb (a b : string * string) : bool :=
  match String.compare a.1 b.1 with
  | Lt => true
  | Gt => false
  | Eq => match String.compare a.2 b.2 with Lt => true | _ => false end
  end.
Definition pair_gtb (a b : string * string) : bool := pair_ltb b a.

Lemma string_compare_refl a : String.compare a a = Eq.
Proof.
  pose proof (String.compare_antisym a a) as E. by destruct (String.compare a a).
Qed.

Lemma string_compare_Lt_trans a b c :
  String.compare a b = Lt → String.compare b c = Lt → String.compare a c = Lt.
Proof.
  intros H1 H2. rewrite String.compare_antisym.
  rewrite (string_compare_Gt_trans c b a); [done| |];
    rewrite String.compare_antisym, ?H1, ?H2; done.
Qed.

Lemma pair_ltb_irrefl a : pair_ltb a a = false.
Proof. unfold pair_ltb. by rewrite !string_compare_refl. Qed.

Lemma pair_ltb_trans a b c : pair_ltb a b = true → pair_ltb b c = true → pair_ltb a c = true.
Proof.
  unfold pair_ltb. intros H1 H2.
  destruct (String.compare a.1 b.1) eqn:E1, (String.compare b.1 c.1) eqn:E2; try done.
  - apply String.compare_eq_iff in E1 as ->. rewrite E2.
    destruct (String.compare a.2 b.2) eqn:E3, (String.compare b.2 c.2) eqn:E4; try done.
    by rewrite (string_compare_Lt_trans _ _ _ E3 E4).
  - apply String.compare_eq_iff in E1 as ->. by rewrite E2.
  - apply String.compare_eq_iff in E2 as <-. by rewrite E1.
  - by rewrite (string_compare_Lt_trans _ _ _ E1 E2).
Qed.

Lemma pair_ltb_total a b : a ≠ b → pair_ltb a b = true ∨ pair_ltb b a = true.
Proof.
  intros Hne. unfold pair_ltb.
  rewrite (String.compare_antisym b.1 a.1), (String.compare_antisym b.2 a.2).
  destruct (String.compare a.1 b.1) eqn:E1; cbn; [|by auto|by auto].
  destruct (String.compare a.2 b.2) eqn:E2; cbn; [|by auto|by auto].
  apply String.compare_eq_iff in E1, E2. destruct Hne, a, b. cbn in *. congruence.
Qed.

(** ** The query methods of the release engine

    [listRuns], [replayEvents], [listAuditEntries], [pageEvidence] and
    [listEvidence] of [engine/release-orchestrator.ts].  The result objects of
    the last four rename the columns of their rows one to one, so the row
    records stand for them. *)

Section reads.
Context {H : Host}.

(** [Number.isInteger(limit)] and [lo <= limit <= hi] *)
Definition validateBetween (lo hi value : Z) : M unit :=
  require ((lo <=? value) && (value <=? hi))%Z (Fail INVALID_ARGUMENT).

Definition run_cursor (r : RunRow) : string * string := (rr_created_at r, rr_run_id r).
Definition evidence_cursor (e : EvidenceRow) : string * string :=
  (er_recorded_at e, er_evidence_id e).

Record ReleaseRunPage := {
  pg_runs : list ReleaseRunSnapshot;
  pg_nextCursor : option (string * string);
}.

(** Newest first: [ORDER BY created_at DESC, run_id DESC]. *)
Definition listRuns (limit : Z) (cursor : option (string * string)) : M ReleaseRunPage :=
  validateBetween 1 100 limit;;
  match cursor with
  | Some c =>
      validateRunId c.2;;
      require (parses_as_date c.1) (Fail INVALID_ARGUMENT)
  | None => mret tt
  end;;
  rows ← query (λ d, fetch run_cursor pair_gtb (Z.to_nat limit) cursor (release_runs d));
  let '(pageRows, next) := page run_cursor (Z.to_nat limit) rows in
  runs ← for_collect (λ r, getRun (rr_run_id r)) pageRows;
  mret {| pg_runs := runs; pg_nextCursor := next |}.

Definition replayEvents (runId : string) (afterSeq limit : Z) : M (list EventRow) :=
  validateRunId runId;;
  require (0 <=? afterSeq)%Z (Fail INVALID_ARGUMENT);;
  validateBetween 1 1000 limit;;
  requireRun runId;;
  query (λ d, take (Z.to_nat limit) (order_by (λ e1 e2, ev_seq e1 <=? ev_seq e2)
    (List.filter (λ e, bool_decide (ev_run_id e = runId) &&
                       (afterSeq <? Z.of_nat (ev_seq e))%Z) (run_events d)))).

Definition listAuditEntries (runId : string) : M (list AuditRow) :=
  validateRunId runId;;
  requireRun runId;;
  query (λ d, order_by (λ a1 a2, au_event_seq a1 <=? au_event_seq a2)
    (List.filter (λ a, bool_decide (au_run_id a = runId)) (audit_log d))).

Definition evidence_of (runId : string) (d : Db) : list EvidenceRow :=
  List.filter (λ e, bool_decide (er_run_id e = runId)) (evidence_records d).

Record EvidencePage := {
  pe_records : list EvidenceRow;
  pe_nextCursor : option (string * string);
}.

Definition pageEvidence (runId : string) (limit : Z) (cursor : option (string * string)) :
    M EvidencePage :=
  validateRunId runId;;
  requireRun runId;;
  validateBetween 1 200 limit;;
  match cursor with
  | Some c => require (parses_as_date c.1) (Fail INVALID_ARGUMENT)
  | None => mret tt
  end;;
  rows ← query (λ d,
    fetch evidence_cursor pair_ltb (Z.to_nat limit) cursor (evidence_of runId d));
  let '(pageRows, next) := page evidence_cursor (Z.to_nat limit) rows in
  mret {| pe_records := pageRows; pe_nextCursor := next |}.

Definition listEvidence (runId : string) : M (list EvidenceRow) :=
  validateRunId runId;;
  requireRun runId;;
  query (λ d, order_by (row_order evidence_cursor pair_ltb) (evidence_of runId d)).

(** ** Reading evidence page by page *)

(** A client that follows [nextCursor] until it is null. *)
Fixpoint collectEvidence (fuel : nat) (runId : string) (limit : Z)
    (cursor : option (string * string)) : M (list EvidenceRow) :=
  match fuel with
  | 0 => mret []
  | S fuel =>
      p ← pageEvidence runId limit cursor;
      match pe_nextCursor p with
      | None => mret (pe_records p)
      | Some c => rest ← collectEvidence fuel runId limit (Some c); mret (pe_records p ++ rest)
      end
  end.

Section collect.
Context (s : St) (runId : string) (limit : Z).
Context (Hopen : closed s = false) (Hid : RUN_ID_PATTERN runId = true).
Context (Hrun : ∃ r, r ∈ release_runs (db s) ∧ rr_run_id r = runId).
Context (Hlimit : (1 <= limit <= 200)%Z).
Context (Hdates : ∀ e, e ∈ evidence_of runId (db s) → parses_as_date (er_recorded_at e) = true).

Lemma requireRun_total : ∃ r, requireRun runId s = (Ok r, s).
Proof using Hopen Hrun.
  destruct Hrun as (r & Hr & Hrid).
  destruct (find_is_Some (is_run runId) _ r Hr) as [r' Hf]; [by apply bool_decide_eq_true|].
  exists r'. unfold requireRun. apply bind_Ok. exists (Some r'), s.
  split; [by apply query_Ok|]. by apply require_some_Ok.
Qed.

Lemma listEvidence_total :
  listEvidence runId s =
  (Ok (order_by (row_order evidence_cursor pair_ltb) (evidence_of runId (db s))), s).
Proof using Hopen Hid Hrun.
  destruct requireRun_total as [r Hr]. unfold listEvidence.
  apply bind_Ok. exists tt, s. split; [by apply require_Ok|].
  apply bind_Ok. exists r, s. split; [done|]. by apply query_Ok.
Qed.

Lemma pageEvidence_total cursor :
  match cursor with Some c => parses_as_date c.1 = true | None => True end →
  pageEvidence runId limit cursor s =
  (let '(rows, next) := page evidence_cursor (Z.to_nat limit)
     (fetch evidence_cursor pair_ltb (Z.to_nat limit) cursor (evidence_of runId (db s))) in
   (Ok {| pe_records := rows; pe_nextCursor := next |}, s)).
Proof using Hopen Hid Hrun Hlimit.
  intros Hc. destruct requireRun_total as [r Hr]. unfold pageEvidence.
  destruct (page _ _ _) as [rows next] eqn:E.
  apply bind_Ok. exists tt, s. split; [by apply require_Ok|].
  apply bind_Ok. exists r, s. split; [done|].
  apply bind_Ok. exists tt, s. split.
  { apply require_Ok. split; [|done]. apply andb_true_iff. lia. }
  apply bind_Ok. exists tt, s. split.
  { destruct cursor; [by apply require_Ok|done]. }
  apply bind_Ok. eexists _, s. split; [by apply query_Ok|]. cbv beta. by rewrite E.
Qed.

Lemma page_cursor_elem cursor rows c :
  page evidence_cursor (Z.to_nat limit)
    (fetch evidence_cursor pair_ltb (Z.to_nat limit) cursor (evidence_of runId (db s)))
    = (rows, Some c) → parses_as_date c.1 = true.
Proof using Hdates.
  unfold page. intros [= <- Hc]. destruct (_ <? _); [|done].
  destruct (list.last _) as [e|] eqn:He; [|done]. injection Hc as <-. cbn.
  apply Hdates. apply last_Some_elem_of in He. apply elem_of_take in He as (i & He & _).
  apply list_elem_of_lookup_2 in He. unfold fetch in He.
  apply elem_of_take in He as (j & He & _). apply list_elem_of_lookup_2 in He.
  rewrite order_by_perm in He. by apply elem_of_rows_filter in He as [? _].
Qed.

Lemma collectEvidence_walk fuel cursor :
  match cursor with Some c => parses_as_date c.1 = true | None => True end →
  collectEvidence fuel runId limit cursor s =
  (Ok (walk evidence_cursor pair_ltb fuel (Z.to_nat limit) cursor (evidence_of runId (db s))), s).
Proof using Hopen Hid Hrun Hlimit Hdates.
  revert cursor. induction fuel as [|fuel IH]; intros cursor Hc; [done|].
  cbn [collectEvidence walk]. apply bind_Ok.
  rewrite pageEvidence_total by done. destruct (page _ _ _) as [rows [c|]] eqn:E.
  - eexists _, s. split; [done|]. cbn. apply bind_Ok. eexists _, s.
    split; [apply IH; by eapply page_cursor_elem|done].
  - eexists _, s. split; [done|]. cbn. by rewrite app_nil_r.
Qed.

Lemma collectEvidence_list fuel :
  NoDup (map er_evidence_id (evidence_records (db s))) →
  length (evidence_of runId (db s)) < fuel →
  collectEvidence fuel runId limit None s = listEvidence runId s.
Proof using Hopen Hid Hrun Hlimit Hdates.
  intros Hd Hf. rewrite collectEvidence_walk, listEvidence_total by done.
  rewrite walk_all; [done|exact pair_ltb_irrefl|exact pair_ltb_trans|exact pair_ltb_total| |lia|done].
  apply (NoDup_key_filter _ (λ e, bool_decide (er_run_id e = runId))) in Hd.
  fold (evidence_of runId (db s)) in Hd. clear -Hd.
  apply (NoDup_fmap_1 snd). unfold evidence_cursor.
  change (snd <$> map ?f ?l) with (map snd (map f l)). by rewrite map_map.
Qed.
End collect.
End reads.
