(* ===== verification/EventLog.v ===== *)
(** * EventLog: the append-only record of a run

    Every command of the engine appends to [run_events] and [audit_log] through
    [appendEvent] and to [evidence_records] through [persistEvidence].  The
    events of a run are numbered 1, 2, ... up to the run's [last_seq], each has
    one audit entry with the same action, details and time, and nothing in the
    three tables is ever changed or removed. *)

From S2P Require Import Prelude Text ReleaseTypes Blueprint Ledger Orchestrator ReleaseSpec.
From S2P Require Import ReleaseInv Refinement.

Definition run_seq (r : RunRow) : string * nat := (rr_run_id r, rr_last_seq r).
Definition events_of (runId : string) (d : Db) : list EventRow :=
  List.filter (λ e, bool_decide (ev_run_id e = runId)) (run_events d).
Definition event_view (e : EventRow) :=
  (ev_run_id e, ev_seq e, ev_event_type e, ev_payload e, ev_occurred_at e).
Definition audit_view (a : AuditRow) :=
  (au_run_id a, au_event_seq a, au_action a, au_details a, au_occurred_at a).

Section log.
Context {H : Host} (bps : list ReleaseWorkflowBlueprint).

Record LogInv (d : Db) : Prop := {
  lg_runs : NoDup (map rr_run_id (release_runs d));
  lg_seq r : r ∈ release_runs d →
    map ev_seq (events_of (rr_run_id r) d) = seq 1 (rr_last_seq r);
  lg_event_run e : e ∈ run_events d → ev_run_id e ∈ map rr_run_id (release_runs d);
  lg_mirror : map event_view (run_events d) = map audit_view (audit_log d);
  lg_evidence : NoDup (map er_evidence_id (evidence_records d));
  lg_recorded e : e ∈ evidence_records d → ∃ n, er_recorded_at e = toISOString n;
}.

Record append_only (d d' : Db) : Prop := {
  ao_events : run_events d `prefix_of` run_events d';
  ao_audit : audit_log d `prefix_of` audit_log d';
  ao_evidence : evidence_records d `prefix_of` evidence_records d';
}.

(** The evidence recorded for the gate covers every kind it requires. *)
Definition backed (evidence : list EvidenceRow) (g : GateRow) : Prop :=
  ∀ kind, kind ∈ gr_required_evidence_kinds g → ∃ e, e ∈ evidence ∧
    er_run_id e = gr_run_id g ∧ er_kind e = kind ∧ er_evidence_id e ∈ gr_evidence_ids g.

Record GateInv (d : Db) : Prop := {
  ga_keys : NoDup (map gate_key (run_health_gates d));
  ga_passed g : g ∈ run_health_gates d → gr_status g = gate_passed →
    backed (evidence_records d) g;
}.

Record logged (d d' : Db) : Prop := {
  lo_append : append_only d d';
  lo_inv : LogInv d → LogInv d';
  lo_gates : GateInv d → GateInv d';
}.

Lemma logged_refl d : logged d d.
Proof. by split. Qed.
Lemma logged_trans d1 d2 d3 : logged d1 d2 → logged d2 d3 → logged d1 d3.
Proof. intros [[] ? ?] [[] ? ?]. split; [|auto..]. split; by etrans. Qed.

Lemma backed_prefix e e' g : e `prefix_of` e' → backed e g → backed e' g.
Proof.
  intros [l ->] Hb kind Hk. destruct (Hb kind Hk) as (x & Hx & ?). exists x.
  split; [|done]. apply elem_of_app. by left.
Qed.

(** Gates stay, or change to a status other than passed. *)
Lemma GateInv_weaken d d' :
  map gate_key (run_health_gates d') = map gate_key (run_health_gates d) →
  (∀ g, g ∈ run_health_gates d' → g ∈ run_health_gates d ∨ gr_status g ≠ gate_passed) →
  evidence_records d `prefix_of` evidence_records d' → GateInv d → GateInv d'.
Proof.
  intros Hk Hg He []. split; [by rewrite Hk|]. intros g Hin Hp.
  destruct (Hg g Hin) as [Hin'|?]; [|done]. eapply backed_prefix; [done|by apply ga_passed0].
Qed.

(** What the log depends on. *)
Definition log_part (d : Db) :=
  (map run_seq (release_runs d), run_health_gates d, run_events d, audit_log d,
   evidence_records d).

Lemma log_frame d d' : log_part d' = log_part d → logged d d'.
Proof.
  intros [= Hr Hg He Ha Hv]. split; [split; by rewrite ?He, ?Ha, ?Hv| |].
  2: { apply GateInv_weaken; [by rewrite Hg| |by rewrite Hv]. rewrite Hg. by left. }
  intros [].
  assert (map rr_run_id (release_runs d') = map rr_run_id (release_runs d)) as Hid.
  { rewrite <- (map_map run_seq fst), Hr, map_map. done. }
  split; rewrite ?Hid, ?He, ?Ha, ?Hv; [done| |done..].
  intros r Hin. apply (list_elem_of_In), (in_map run_seq) in Hin. rewrite Hr in Hin.
  apply in_map_iff in Hin as (r0 & [= Hi Hs] & Hin). unfold events_of.
  rewrite He, <- Hi, <- Hs. apply lg_seq0. by apply list_elem_of_In.
Qed.

(** ** Programs that only append *)

Definition logs {A} (m : M A) : Prop := ∀ s a s', m s = (Ok a, s') → logged (db s) (db s').

Lemma logs_bind {A B} (m : M A) (k : A → M B) : logs m → (∀ a, logs (k a)) → logs (m ≫= k).
Proof. intros Hm Hk s b s' E. run_inv. eapply logged_trans; [by eapply Hm|by eapply Hk]. Qed.
Lemma logs_ret {A} (a : A) : logs (mret a : M A).
Proof. intros s b s' E. run_inv. apply logged_refl. Qed.
Lemma logs_require b e : logs (require b e : M unit).
Proof. intros s a s' E. run_inv. apply logged_refl. Qed.
Lemma logs_require_some {A} (o : option A) e : logs (require_some o e : M A).
Proof. intros s a s' E. run_inv. apply logged_refl. Qed.
Lemma logs_query {A} (f : Db → A) : logs (query f).
Proof. intros s a s' E. ledger_inv. apply logged_refl. Qed.
Lemma logs_newUUID : logs newUUID.
Proof. intros s a s' E. ledger_inv. apply logged_refl. Qed.
Lemma logs_update f : (∀ d, log_part (f d) = log_part d) → logs (update f).
Proof. intros Hf s a s' E. ledger_inv. apply log_frame, Hf. Qed.
Lemma logs_insert t ok f : (∀ d, log_part (f d) = log_part d) → logs (insert t ok f).
Proof. intros Hf s a s' E. ledger_inv. apply log_frame, Hf. Qed.
Lemma logs_transaction {A} (m : M A) : logs m → logs (transaction m).
Proof. intros Hm s a s' E. ledger_inv. by eapply Hm. Qed.
Lemma logs_for_each {A} (f : A → M unit) l : (∀ x, logs (f x)) → logs (for_each f l).
Proof.
  intros Hf. induction l as [|x l IH]; cbn; [apply logs_ret|]. by apply logs_bind.
Qed.
Lemma logs_for_collect {A B} (f : A → M B) l : (∀ x, logs (f x)) → logs (for_collect f l).
Proof.
  intros Hf. induction l as [|x l IH]; cbn; [apply logs_ret|].
  apply logs_bind; [done|]. intros y. apply logs_bind; [done|]. intros. apply logs_ret.
Qed.
Lemma logs_if {A} (b : bool) (m1 m2 : M A) : logs m1 → logs m2 → logs (if b then m1 else m2).
Proof. by destruct b. Qed.
Lemma logs_option {A B} (o : option A) (m1 : A → M B) (m2 : M B) :
  (∀ x, logs (m1 x)) → logs m2 → logs (match o with Some x => m1 x | None => m2 end).
Proof. intros. destruct o; auto. Qed.
End log.

Create HintDb logs discriminated.
#[export] Hint Resolve logs_bind logs_ret logs_require logs_require_some logs_query logs_newUUID
  logs_update logs_insert logs_transaction logs_for_each logs_for_collect logs_if
  logs_option : logs.
Section log.
Context {H : Host} (bps : list ReleaseWorkflowBlueprint).

Lemma logs_validateIdentifier v : logs (validateIdentifier v).
Proof. unfold validateIdentifier. auto with logs. Qed.
Lemma logs_validateActor v : logs (validateActor v).
Proof. unfold validateActor. auto with logs. Qed.
Lemma logs_validateRunId v : logs (validateRunId v).
Proof. unfold validateRunId. auto with logs. Qed.
Lemma logs_validateOutcomeCode v : logs (validateOutcomeCode v).
Proof. unfold validateOutcomeCode. auto with logs. Qed.
Lemma logs_validateEvidence v : logs (validateEvidence v).
Proof. unfold validateEvidence, validateIdentifier. auto 10 with logs. Qed.
Lemma logs_validateRunRequest v : logs (validateRunRequest v).
Proof.
  unfold validateRunRequest, validateIdempotencyKey, validateIdentifier, validateActor.
  auto 20 with logs.
Qed.
Lemma logs_requireRun v : logs (requireRun v).
Proof. unfold requireRun. auto with logs. Qed.
Lemma logs_requireStep v w : logs (requireStep v w).
Proof. unfold requireStep. auto with logs. Qed.
Lemma logs_requireLatestAttempt v : logs (requireLatestAttempt v).
Proof. unfold requireLatestAttempt. auto with logs. Qed.
Lemma logs_getRun v : logs (getRun v).
Proof. unfold getRun, validateRunId, requireRun. auto 20 with logs. Qed.

(** An update that keeps the identifier and sequence number of every run. *)
Lemma logs_update_runs p f :
  (∀ r, run_seq (f r) = run_seq r) → logs (update (on_runs (update_where p f))).
Proof.
  intros Hf. apply logs_update. intros d. unfold log_part. cbn.
  by rewrite map_update_where.
Qed.

Lemma logs_set_run run st now : logs (set_status_of_run run st now).
Proof. by apply logs_update_runs. Qed.

(** An update that leaves no gate it touches passed. *)
Lemma logs_update_gates p f :
  (∀ g, gate_key (f g) = gate_key g ∧ gr_status (f g) ≠ gate_passed) →
  logs (update (on_gates (update_where p f))).
Proof.
  intros Hf s u s' E. ledger_inv. split; [by split| |].
  - by intros []; split.
  - apply GateInv_weaken; cbn; [apply map_update_where; intros; apply Hf| |done].
    intros g (g0 & Hg0 & ->)%elem_of_update_where. destruct (p g0); [right; apply Hf|by left].
Qed.

Lemma logs_insert_gate g : gr_status g ≠ gate_passed → logs (insert_gate g).
Proof.
  intros Hg s u s' E. unfold insert_gate in E. ledger_inv. unfold gate_constraints in *. bool_inv.
  match goal with Hf : fresh _ _ _ = true |- _ => rewrite fresh_spec in Hf end.
  split; [by split| |].
  - by intros []; split.
  - intros []. split; cbn; [by apply NoDup_key_snoc|].
    intros x [Hx| ->]%elem_of_snoc Hp; [by apply ga_passed0|done].
Qed.

(** *** Appending an event *)

Lemma events_snoc runId d e :
  List.filter (λ e, bool_decide (ev_run_id e = runId)) (run_events d ++ [e]) =
  events_of runId d ++ (if bool_decide (ev_run_id e = runId) then [e] else []).
Proof. unfold events_of. rewrite List.filter_app. cbn. by destruct (bool_decide _). Qed.

(** The database after run [run] logged [e] with its audit entry [a]. *)
Definition with_event (run : RunRow) (now : string) (e : EventRow) (a : AuditRow) (d : Db) : Db :=
  on_audit (λ t, t ++ [a]) (on_events (λ t, t ++ [e])
    (on_runs (update_where (is_run (rr_run_id run)) (set_run_seq (rr_last_seq run + 1) now)) d)).

Lemma with_event_logged run now e a d :
  run ∈ release_runs d → ev_run_id e = rr_run_id run → ev_seq e = rr_last_seq run + 1 →
  event_view e = audit_view a → logged d (with_event run now e a d).
Proof.
  intros Hrun Hid Hseq Hview. unfold with_event. split.
  { split; cbn; [by apply prefix_app_r|by apply prefix_app_r|done]. }
  2: { apply GateInv_weaken; [done|by left|done]. }
  intros []. assert (∀ p (f : RunRow → RunRow), (∀ r, rr_run_id (f r) = rr_run_id r) →
    map rr_run_id (update_where p f (release_runs d)) = map rr_run_id (release_runs d)) as Hids.
  { intros p f Hf. by apply map_update_where. }
  split; cbn; rewrite ?Hids by done; [done| | | |done..].
  - intros r' (r & Hr & ->)%elem_of_update_where. unfold events_of. cbn. rewrite events_snoc.
    unfold is_run. case_bool_decide as Heq; cbn.
    + rewrite (NoDup_key_inj rr_run_id _ _ _ lg_runs0 Hr Hrun Heq) in *. clear r Hr Heq.
      rewrite Hid, bool_decide_eq_true_2, map_app, lg_seq0 by done. cbn.
      rewrite Hseq, Nat.add_1_r, seq_S. done.
    + rewrite bool_decide_eq_false_2 by (rewrite Hid; congruence). rewrite app_nil_r. by apply lg_seq0.
  - intros x [Hx| ->]%elem_of_snoc; [by apply lg_event_run0|]. rewrite Hid.
    apply list_elem_of_In, in_map, list_elem_of_In, Hrun.
  - rewrite !map_app, lg_mirror0. cbn. by rewrite Hview.
Qed.

Lemma appendEvent_Ok runId ty payload actor now s n s' :
  appendEvent runId ty payload actor now s = (Ok n, s') →
  ∃ run e a, run ∈ release_runs (db s) ∧ rr_run_id run = runId ∧ n = rr_last_seq run + 1 ∧
    ev_run_id e = runId ∧ ev_seq e = n ∧ ev_event_type e = ty ∧ au_actor_id a = actor ∧
    event_view e = audit_view a ∧ db s' = with_event run now e a (db s).
Proof.
  unfold appendEvent. intros E. ledger_inv.
  match goal with Hr : requireRun _ _ = _ |- _ => apply requireRun_Ok in Hr as (-> & Hrun & <- & _) end.
  eexists _, _, _. split_and!; [exact Hrun|..|reflexivity]; done.
Qed.

Lemma logs_appendEvent runId ty payload actor now : logs (appendEvent runId ty payload actor now).
Proof.
  intros s n s' (run & e & a & Hrun & <- & -> & He & Hs & _ & _ & Hv & ->)%appendEvent_Ok.
  by apply with_event_logged.
Qed.

Lemma logs_persistEvidence runId stepId evidence n :
  logs (persistEvidence runId stepId evidence (toISOString n)).
Proof.
  unfold persistEvidence. apply logs_for_collect. intros item.
  apply logs_bind; [apply logs_validateEvidence|intros _]. apply logs_bind; [auto with logs|intros id].
  apply logs_bind; [|auto with logs]. intros s u s' E. ledger_inv.
  unfold evidence_constraints in *. bool_inv.
  match goal with Hf : fresh _ _ _ = true |- _ => rewrite fresh_spec in Hf; cbn in Hf end.
  split; [split; cbn; [done|done|by apply prefix_app_r]| |].
  2: { apply GateInv_weaken; [done|by left|by apply prefix_app_r]. }
  intros []. split; cbn; try done.
  - by apply NoDup_key_snoc.
  - intros e [He| ->]%elem_of_snoc; [by apply lg_recorded0|by exists n].
Qed.

Lemma logs_now {A} (k : string → M A) :
  (∀ n, logs (k (toISOString n))) → logs (nowISO ≫= k).
Proof. intros Hk s a s' E. ledger_inv. by apply Hk in E. Qed.

Lemma logs_insert_run row :
  rr_last_seq row = 0 → logs (insert_run row).
Proof.
  intros Hz s u s' E. unfold insert_run in E. ledger_inv. unfold run_constraints in *. bool_inv.
  repeat match goal with Hf : fresh _ _ _ = true |- _ => rewrite fresh_spec in Hf end.
  split; [by split| |].
  2: { apply GateInv_weaken; [done|by left|done]. }
  intros []. split; cbn; try done.
  - by apply NoDup_key_snoc.
  - intros r [Hr| ->]%elem_of_snoc; [by apply lg_seq0|]. rewrite Hz. cbn.
    unfold events_of. cbn. rewrite filter_none; [done|]. intros e He. apply bool_decide_eq_false.
    intros Heq. apply lg_event_run0, list_elem_of_In, in_map_iff in He as (r & Hid & Hr).
    apply list_elem_of_In in Hr. unfold run_key in *. naive_solver congruence.
  - intros e He. rewrite map_app. apply elem_of_app. left. by apply lg_event_run0.
Qed.
End log.

#[export] Hint Resolve logs_validateIdentifier logs_validateActor logs_validateRunId
  logs_validateOutcomeCode logs_validateRunRequest logs_requireRun logs_requireStep
  logs_requireLatestAttempt logs_getRun logs_set_run logs_appendEvent logs_persistEvidence
  logs_now : logs.

Section commands_log.
Context {H : Host} (bps : list ReleaseWorkflowBlueprint).

Lemma logs_update_health_gate run def f :
  (∀ g, gate_key (f g) = gate_key g ∧ gr_status (f g) ≠ gate_passed) →
  logs (update_health_gate run def f).
Proof. unfold update_health_gate. auto using logs_update_gates with logs. Qed.
Lemma logs_set_step run step st : logs (set_status_of_step run step st).
Proof. unfold set_status_of_step. auto with logs. Qed.
Lemma logs_resume run now : logs (resumeIfNoUnknownOperations run now).
Proof.
  unfold resumeIfNoUnknownOperations. apply logs_bind; [auto with logs|intros n].
  apply logs_if; [auto with logs|]. apply logs_bind; [auto with logs|intros m].
  by apply logs_update_runs.
Qed.
Lemma logs_complete run actor now : logs (maybeCompleteRun run actor now).
Proof. unfold maybeCompleteRun. auto 20 with logs. Qed.
Lemma logs_unknown a p def now : logs (write_outcome_unknown a p def now).
Proof.
  unfold write_outcome_unknown, set_status_of_step.
  assert (∀ run, logs (update_health_gate run def (set_gate_status gate_outcome_unknown)))
    by (intros; by apply logs_update_health_gate). auto 20 with logs.
Qed.
Lemma logs_reconciled a def o now : logs (write_reconciled a def o now).
Proof.
  unfold write_reconciled, set_status_of_step.
  assert (∀ run ids, logs (update_health_gate run def
    (λ g, set_gate_evidence ids (set_gate_status gate_pending g))))
    by (intros; by apply logs_update_health_gate).
  assert (∀ run, logs (update_health_gate run def (set_gate_status gate_pending)))
    by (intros; by apply logs_update_health_gate).
  destruct o; auto 20 with logs.
Qed.
Hint Resolve logs_set_step logs_resume logs_complete logs_unknown
  logs_reconciled : logs.

Lemma logs_planned_gates run gates : logs (for_each insert_gate (map (planned_gate run) gates)).
Proof.
  intros s u s'. rewrite for_each_map. apply logs_for_each. intros. by apply logs_insert_gate.
Qed.
Hint Resolve logs_planned_gates : logs.

Lemma logs_createRun request : logs (createRun bps request).
Proof.
  unfold createRun, requireBlueprint, insert_step.
  apply logs_bind; [auto with logs|intros _]. apply logs_bind; [auto with logs|intros bp].
  apply logs_transaction, logs_bind; [auto with logs|intros ex].
  apply logs_option; [auto 10 with logs|].
  do 2 (apply logs_bind; [auto with logs|intros ?]). apply logs_now. intros n.
  apply logs_bind; [auto with logs|intros id].
  apply logs_bind; [by apply logs_insert_run|]. auto 20 with logs.
Qed.
Lemma logs_startRun run actor : logs (startRun run actor).
Proof. unfold startRun. auto 20 with logs. Qed.
Lemma logs_recordIntent row run step key actor : logs (recordIntent row run step key actor).
Proof.
  unfold recordIntent, requireDependency, requireGatePassed, chooseOperation, insert_attempt.
  auto 40 with logs.
Qed.
Hint Resolve logs_recordIntent : logs.
Lemma logs_beginStepAttempt run step key actor : logs (beginStepAttempt run step key actor).
Proof. unfold beginStepAttempt, validateIdempotencyKey. auto 20 with logs. Qed.
Lemma logs_recordStepOutcome op input actor : logs (recordStepOutcome op input actor).
Proof. unfold recordStepOutcome. auto 40 with logs. Qed.
Lemma logs_markOutcomeUnknown op reason actor : logs (markOutcomeUnknown op reason actor).
Proof. unfold markOutcomeUnknown. auto 40 with logs. Qed.
Lemma logs_reconcileOperation op input : logs (reconcileOperation op input).
Proof.
  unfold reconcileOperation, validateIdempotencyKey, insert_reconciliation. auto 40 with logs.
Qed.
Lemma logs_recover actor : logs (recoverInterruptedOperations actor).
Proof. unfold recoverInterruptedOperations, recover_one. auto 40 with logs. Qed.
(** The records [persistEvidence] returns the identifiers of. *)
Lemma persistEvidence_Ok runId stepId evidence now s ids s' :
  persistEvidence runId stepId evidence now s = (Ok ids, s') →
  run_health_gates (db s') = run_health_gates (db s) ∧
  evidence_records (db s) `prefix_of` evidence_records (db s') ∧
  ∀ item, item ∈ evidence → ∃ e, e ∈ evidence_records (db s') ∧ er_run_id e = runId ∧
    er_kind e = ei_kind item ∧ er_evidence_id e ∈ ids.
Proof.
  unfold persistEvidence. revert s ids. induction evidence as [|i l IH]; intros s ids E;
    cbn in E; ledger_inv.
  { split_and!; [done..|]. by intros ? ?%not_elem_of_nil. }
  match goal with Hv : validateEvidence _ ?s0 = (Ok _, ?s1) |- _ =>
    assert (db s1 = db s0) as Hdb
      by (clear -Hv; unfold validateEvidence, validateIdentifier in Hv; by ledger_inv) end.
  match goal with Hc : for_collect _ _ _ = _ |- _ =>
    apply IH in Hc as (Hg & Hpre & Hitems) end.
  cbn in Hg, Hpre. rewrite Hdb in Hg, Hpre. split_and!; [done|by eapply prefix_app_l|].
  intros item [->|Hin]%elem_of_cons.
  - eexists. split; [destruct Hpre as [k ->]; apply elem_of_app; left; apply elem_of_app; right;
      apply list_elem_of_singleton; reflexivity|]. cbn. split_and!; [done..|left].
  - destruct (Hitems item Hin) as (e & He & Hr & Hk & Hid). exists e.
    split_and!; [done..|by right].
Qed.

(** A decision writes the gate with the evidence it checked. *)
Lemma decision_logged gate evidence ids st d d' :
  gate ∈ run_health_gates d →
  (st = gate_passed → missing_kinds (gr_required_evidence_kinds gate) evidence = []) →
  (∀ item, item ∈ evidence → ∃ e, e ∈ evidence_records d ∧ er_run_id e = gr_run_id gate ∧
    er_kind e = ei_kind item ∧ er_evidence_id e ∈ ids) →
  d' = on_gates (update_where (is_gate (gr_run_id gate) (gr_gate_id gate))
         (λ g, set_gate_evidence ids (set_gate_status st g))) d →
  logged d d'.
Proof.
  intros Hg Hm He ->. split; [by split| |]; [by intros []; split|]. intros [Hk Hp].
  split; cbn; [by rewrite map_update_where|].
  intros x (g & Hin & ->)%elem_of_update_where Hst.
  destruct (is_gate _ _ g) eqn:Hi; [|by apply Hp]. apply is_gate_spec in Hi.
  assert (g = gate) as -> by (by eapply (NoDup_key_inj gate_key)). cbn in Hst.
  intros kind Hkind. cbn in Hkind. destruct (decide (kind ∈ map ei_kind evidence)) as [Hin'|Hn].
  - apply list_elem_of_In, in_map_iff in Hin' as (item & <- & Hitem).
    apply list_elem_of_In, He in Hitem as (e & ? & ? & ? & ?). by exists e.
  - assert (kind ∈ missing_kinds (gr_required_evidence_kinds gate) evidence) as Hmiss.
    { apply elem_of_rows_filter. split; [done|]. by rewrite bool_decide_eq_false_2. }
    rewrite Hm in Hmiss by done. by apply not_elem_of_nil in Hmiss.
Qed.

Lemma passed_complete {A} o (l : list A) :
  negb (bool_decide (o = decision_passed)) || (length l =? 0) = true →
  gate_status_of o = gate_passed → l = [].
Proof. destruct o; cbn; [|done]. by intros ->%Nat.eqb_eq%length_zero_iff_nil. Qed.

Lemma logs_resolveHealthGate run gate input : logs (resolveHealthGate run gate input).
Proof.
  unfold resolveHealthGate, validateIdempotencyKey, insert_decision.
  do 5 (apply logs_bind; [auto with logs|intros _]). apply logs_transaction.
  apply logs_bind; [auto with logs|intros r]. apply logs_bind; [auto with logs|intros prior].
  apply logs_option; [auto 10 with logs|]. intros s a s' E. ledger_inv. bool_inv.
  match goal with Hg : List.find (is_gate _ _) _ = Some _ |- _ =>
    apply find_Some_elem in Hg as [Hgate Hgk%is_gate_spec] end.
  match goal with Hp : persistEvidence _ _ _ _ _ = _ |- _ =>
    pose proof (persistEvidence_Ok _ _ _ _ _ _ _ Hp) as (Hgates & _ & Hitems);
    apply logs_persistEvidence in Hp; eapply logged_trans; [exact Hp|] end.
  unfold gate_key in Hgk. injection Hgk as <- <-.
  match goal with Hk : _ || (length _ =? 0) = true |- _ =>
    pose proof (passed_complete _ _ Hk) as Hmiss end.
  match goal with Hp : appendEvent _ _ _ _ _ _ = _, Hs : (if _ then mret tt else _) ?s1 = _,
    Hm : (if _ then maybeCompleteRun _ _ _ else _) _ = _ |- _ =>
    apply logs_getRun in E; apply logs_if in Hm; [|auto with logs..];
    apply logs_appendEvent in Hp; apply logs_if in Hs; [|auto with logs..];
    apply (logged_trans _ (db s1)); [|eauto 10 using logged_trans] end.
  match goal with |- logged _ (db (with_db (on_gates _ ?d) _)) =>
    apply (logged_trans _ d); [by apply log_frame|] end.
  eapply decision_logged; [cbn; by rewrite Hgates|exact Hmiss|exact Hitems|reflexivity].
Qed.
Lemma logs_register b : logs (registerBlueprint b).
Proof. unfold registerBlueprint. auto 20 with logs. Qed.
End commands_log.
