(* ===== verification/Engine.v ===== *)
(** * CreateRun: idempotency of run creation

    A retried [createRun] finds the run of its idempotency key; the key is bound
    to the request it was first used with. *)

From S2P Require Import Prelude Text ReleaseTypes Blueprint Ledger Orchestrator ReleaseSpec ReleaseInv ReleaseProps Refinement EventLog.

Section create.
Context {H : Host} (bps : list ReleaseWorkflowBlueprint).
Implicit Types (request : ReleaseRunRequest) (s : St).

Definition request_sha (request : ReleaseRunRequest) : string :=
  sha256 (canonicalJson (json_of_run_request request)).

Definition by_key (key : string) (r : RunRow) : bool :=
  bool_decide (rr_create_idempotency_key r = key).

Definition run_of_key (key : string) (d : Db) : option RunRow :=
  List.find (by_key key) (release_runs d).

(** [request] passes the validation and names a known blueprint. *)
Definition acceptable request : Prop :=
  ∀ s, validateRunRequest request s = (Ok tt, s) ∧
       ∃ bp, requireBlueprint bps (rq_blueprintId request) (rq_blueprintVersion request) s
             = (Ok bp, s).

Lemma createRun_acceptable request s r s' :
  createRun bps request s = (Ok r, s') → acceptable request ∧ closed s = false.
Proof.
  unfold createRun, validateRunRequest, requireBlueprint, validateIdempotencyKey,
    validateIdentifier, validateActor. intros E. ledger_inv. split; [|done]. intros s0.
  unfold validateRunRequest, requireBlueprint, validateIdempotencyKey,
    validateIdentifier, validateActor. split; [|eexists; by apply require_some_Ok].
  repeat (apply bind_Ok; exists tt, s0; split; [by apply require_Ok|]). by apply require_Ok.
Qed.

(** The key is known: the run it made is returned for the same request, and a
    different request is refused. *)
Lemma createRun_known request s row :
  acceptable request → closed s = false →
  run_of_key (rq_idempotencyKey request) (db s) = Some row →
  createRun bps request s =
  if bool_decide (rr_create_request_sha256 row = request_sha request)
  then match getRun (rr_run_id row) s with
       | (Ok run, s') => (Ok {| cr_run := run; cr_created := false |}, s')
       | (Err e, s') => (Err e, with_db (db s) s')
       end
  else (Err (Fail IDEMPOTENCY_KEY_CONFLICT), s).
Proof.
  intros Hacc Hopen Hrow. destruct (Hacc s) as [Hv [bp Hbp]]. unfold createRun.
  rewrite (bind_run _ _ _ _ _ Hv), (bind_run _ _ _ _ _ Hbp), transaction_run by done.
  rewrite (bind_run _ _ _ _ _ (query_run _ s Hopen)).
  unfold run_of_key, by_key in Hrow. rewrite Hrow. unfold mbind, io_bind, require, request_sha.
  destruct (bool_decide _); cbn.
  - by destruct (getRun _ s) as [[run|e] s'].
  - by destruct s.
Qed.

Lemma getRun_Ok run s a s' : getRun run s = (Ok a, s') → s' = s.
Proof.
  unfold getRun, validateRunId. intros E. ledger_inv.
  by match goal with Hr : requireRun _ _ = _ |- _ => apply requireRun_Ok in Hr as (-> & _) end.
Qed.

Lemma find_update_where {R} (p q : R → bool) (f : R → R) t :
  (∀ r, p (f r) = p r) →
  List.find p (update_where q f t) = option_map (λ r, if q r then f r else r) (List.find p t).
Proof.
  intros Hp. unfold update_where. induction t as [|r t IH]; [done|]. cbn.
  destruct (q r) eqn:Hq; rewrite ?Hp; destruct (p r); cbn; by rewrite ?Hq.
Qed.

Lemma find_snoc {R} (p : R → bool) t r :
  List.find p t = None → p r = true → List.find p (t ++ [r]) = Some r.
Proof.
  intros Hn Hr. induction t as [|x t IH]; cbn in *; [by rewrite Hr|].
  destruct (p x); [done|by apply IH].
Qed.

(** A [createRun] that returned has bound its key to the run it returned. *)
Lemma createRun_binds request s r s' :
  createRun bps request s = (Ok r, s') →
  closed s' = false ∧ ∃ row, run_of_key (rq_idempotencyKey request) (db s') = Some row ∧
    rr_create_request_sha256 row = request_sha request ∧
    getRun (rr_run_id row) s' = (Ok (cr_run r), s').
Proof.
  intros E. pose proof (createRun_acceptable _ _ _ _ E) as [Hacc Hopen].
  destruct (run_of_key (rq_idempotencyKey request) (db s)) as [row|] eqn:Hkey.
  { rewrite (createRun_known _ _ _ Hacc Hopen Hkey) in E. case_bool_decide as Hsha; [|done].
    destruct (getRun _ s) as [[run|e] s1] eqn:Hg; [|done]. injection E as <- <-.
    pose proof (getRun_Ok _ _ _ _ Hg) as ->. split; [done|]. exists row. done. }
  unfold createRun, validateRunRequest, requireBlueprint, validateIdempotencyKey,
    validateIdentifier, validateActor in E. ledger_inv.
  unfold run_of_key, by_key in Hkey. rewrite Hkey in E. ledger_inv.
  unfold insert_run in *. ledger_inv.
  match goal with Hs : for_each insert_step _ _ = _, Hg : for_each insert_gate _ _ = _,
    Happ : appendEvent _ _ _ _ _ _ = _, Hr : getRun _ _ = _ |- _ =>
    pose proof (getRun_Ok _ _ _ _ Hr) as <-; rename Hr into Hget;
    assert (closed s' = false) as Hc
      by (clear -Hget; unfold getRun, validateRunId, requireRun in Hget; by ledger_inv);
    apply insert_gates_Ok in Hg; apply insert_steps_Ok in Hs;
    apply appendEvent_Ok in Happ as (run & e & a & Hrun & Hid & _ & _ & _ & _ & _ & _ & Hdb) end.
  split; [done|]. unfold run_of_key. rewrite Hdb. cbn.
  match goal with Hg : db ?s2 = on_gates _ _ |- context [release_runs (db ?s2)] =>
    rewrite Hg end. cbn.
  match goal with Hg : db ?s2 = on_steps _ _ |- context [release_runs (db ?s2)] =>
    rewrite Hg end. cbn.
  rewrite find_update_where by done.
  rewrite (find_snoc _ _ _ Hkey) by (by apply bool_decide_eq_true). cbn.
  eexists. split; [reflexivity|]. destruct (is_run _ _); done.
Qed.
End create.

(** ** Engine: reachable states of the release orchestrator

    Composes [Refinement.v] and [EventLog.v] over whole executions: an engine is
    constructed on an empty ledger, receives any sequence of commands, fails some
    of them, and may be restarted on the same ledger. *)

(** ** Atomicity *)

Definition readonly {A} (m : M A) : Prop := ∀ s, db (m s).2 = db s.
Definition atomic {A} (m : M A) : Prop := ∀ s e s', m s = (Err e, s') → db s' = db s.

Lemma readonly_require b e : readonly (require b e : M unit).
Proof. intros s. unfold require. by destruct b. Qed.
Lemma readonly_require_some {A} (o : option A) e : readonly (require_some o e : M A).
Proof. intros s. unfold require_some. by destruct o. Qed.
Lemma readonly_ret {A} (a : A) : readonly (mret a : M A).
Proof. done. Qed.
Lemma readonly_bind {A B} (m : M A) (k : A → M B) :
  readonly m → (∀ a, readonly (k a)) → readonly (m ≫= k).
Proof.
  intros Hm Hk s. specialize (Hm s). unfold mbind, io_bind.
  destruct (m s) as [[a|e] s1]; [|done]. cbn in Hm. by rewrite Hk.
Qed.
Lemma readonly_atomic {A} (m : M A) : readonly m → atomic m.
Proof. intros Hm s e s' E. specialize (Hm s). by rewrite E in Hm. Qed.
Lemma atomic_bind {A B} (m : M A) (k : A → M B) :
  readonly m → (∀ a, atomic (k a)) → atomic (m ≫= k).
Proof.
  intros Hm Hk s e s' [E|(a & s1 & E & E')]%bind_Err_inv.
  - by apply readonly_atomic in E.
  - apply Hk in E'. specialize (Hm s). rewrite E in Hm. by rewrite E'.
Qed.
Lemma atomic_transaction {A} (m : M A) : atomic (transaction m).
Proof. intros s e s'. apply transaction_Err. Qed.
Lemma atomic_forget {A} (m : M A) : atomic m → atomic (forget m).
Proof. intros Hm s e s' [E|(a & s1 & _ & E)]%bind_Err_inv; [by apply Hm in E|done]. Qed.

Create HintDb atomic discriminated.
#[export] Hint Resolve readonly_require readonly_require_some readonly_ret readonly_bind
  atomic_bind atomic_transaction atomic_forget : atomic.

Section engine.
Context {H : Host} (bps : list ReleaseWorkflowBlueprint).

Lemma readonly_validateOutcomeCode o : readonly (validateOutcomeCode o).
Proof. unfold validateOutcomeCode. destruct o; auto with atomic. Qed.
Hint Resolve readonly_validateOutcomeCode : atomic.

Lemma exec_atomic cmd : atomic (exec bps cmd).
Proof.
  destruct cmd; apply atomic_forget;
    unfold createRun, startRun, beginStepAttempt, recordStepOutcome, markOutcomeUnknown,
      reconcileOperation, recoverInterruptedOperations, resolveHealthGate, validateRunRequest,
      requireBlueprint, validateRunId, validateActor, validateIdempotencyKey,
      validateIdentifier; auto 20 with atomic.
Qed.

(** ** One command *)

Lemma forget_Ok {A} (m : M A) s u s' : forget m s = (Ok u, s') → ∃ a, m s = (Ok a, s').
Proof. unfold forget. intros E. run_inv. eauto. Qed.

(** Only the run of an operation under reconciliation may resume. *)
Definition reconciles (cmd : command) (d : Db) (run : string) : Prop :=
  match cmd with
  | ReconcileOperation op _ => ∃ a, a ∈ step_attempts d ∧ ar_operation_id a = op ∧
      ar_status a = attempt_outcome_unknown ∧ ar_run_id a = run
  | _ => False
  end.

Lemma exec_steps cmd s u s' :
  Inv bps (core (db s)) → exec bps cmd s = (Ok u, s') →
  rtc (cstep bps (reconciles cmd (db s))) (core (db s)) (core (db s')).
Proof.
  intros HI E. destruct cmd; apply forget_Ok in E as [a E].
  - by eapply createRun_refines.
  - by eapply startRun_refines.
  - by eapply beginStepAttempt_refines.
  - by eapply recordStepOutcome_refines.
  - by eapply markOutcomeUnknown_refines.
  - eapply reconcileOperation_refines; [|exact E]. cbn. eauto 10.
  - eapply recoverInterrupted_Ok; [|exact E]. by apply HI.
  - by eapply resolveHealthGate_refines.
Qed.

Lemma exec_logs cmd : logs (exec bps cmd).
Proof.
  intros s u s' E. destruct cmd; apply forget_Ok in E as [a E].
  - by eapply logs_createRun.
  - by eapply logs_startRun.
  - by eapply logs_beginStepAttempt.
  - by eapply logs_recordStepOutcome.
  - by eapply logs_markOutcomeUnknown.
  - by eapply logs_reconcileOperation.
  - by eapply logs_recover.
  - by eapply logs_resolveHealthGate.
Qed.

(** A command moves the abstract state along its transitions, whether it
    returns or throws. *)
Lemma exec_total_steps cmd s :
  Inv bps (core (db s)) →
  rtc (cstep bps (reconciles cmd (db s))) (core (db s)) (core (db (exec bps cmd s).2)).
Proof.
  intros HI. destruct (exec bps cmd s) as [[u|e] s'] eqn:E; cbn.
  - by eapply exec_steps.
  - by rewrite (exec_atomic _ _ _ _ E).
Qed.

Lemma exec_total_logged cmd s : logged (db s) (db (exec bps cmd s).2).
Proof.
  destruct (exec bps cmd s) as [[u|e] s'] eqn:E; cbn.
  - by eapply exec_logs.
  - rewrite (exec_atomic _ _ _ _ E). apply logged_refl.
Qed.

(** ** Construction *)

Lemma register_silent b : silent (registerBlueprint b).
Proof.
  unfold registerBlueprint. apply silent_bind; [auto with silent|]. intros [row|].
  - auto with silent.
  - intros s a s' E. ledger_inv. done.
Qed.

Lemma construct_Ok s u s' :
  new_ReleaseOrchestrator bps s = (Ok u, s') →
  core (db s') = core (db s) ∧ logged (db s) (db s') ∧
  ∀ bp, bp ∈ bps → validateWorkflowBlueprint bp = Ok tt.
Proof.
  unfold new_ReleaseOrchestrator. intros E. ledger_inv.
  match goal with Hv : for_each _ bps s = (Ok tt, ?s1) |- _ =>
    assert (s1 = s ∧ ∀ bp, bp ∈ bps → validateWorkflowBlueprint bp = Ok tt) as [-> Hok] end.
  { clear E. revert dependent s. induction bps as [|b l IH]; intros s E; cbn in E; run_inv.
    { split; [done|]. by intros ? ?%not_elem_of_nil. }
    destruct (validateWorkflowBlueprint b) as [[]|e] eqn:Hb; run_inv.
    apply IH in E as [-> Hl]. split; [done|].
    intros bp [->|Hin]%elem_of_cons; [done|by apply Hl]. }
  split_and!; [| |done].
  - eapply (for_each_ind (λ s s', core (db s') = core (db s))); [done| | |exact E].
    + intros s1 s2 s3 E1 E2. by rewrite E2.
    + intros b s1 s2 _ Hr. by eapply register_silent.
  - by eapply logs_for_each; [intros; apply logs_register|].
Qed.

(** ** Executions *)

(** The states of an engine over [bps]: constructed on an empty ledger, after
    any command, and constructed again on the ledger a stopped process left. *)
Inductive reachable : St → Prop :=
| reach_new s s' :
    db s = empty_db → new_ReleaseOrchestrator bps s = (Ok tt, s') → reachable s'
| reach_exec cmd s : reachable s → reachable (exec bps cmd s).2
| reach_restart s s0 s' :
    reachable s → db s0 = db s → new_ReleaseOrchestrator bps s0 = (Ok tt, s') → reachable s'.

Lemma empty_Inv : Inv bps (core empty_db).
Proof.
  split; cbn; try (by constructor); try (by intros ? ?%not_elem_of_nil);
    by intros ? ? ?%not_elem_of_nil.
Qed.

Lemma empty_LogInv : LogInv empty_db.
Proof. split; cbn; try (by constructor); by intros ? ?%not_elem_of_nil. Qed.

Lemma reachable_valid s : reachable s → ∀ bp, bp ∈ bps → validateWorkflowBlueprint bp = Ok tt.
Proof.
  induction 1 as [s s' _ E|cmd s _ IH|s s0 s' _ IH _ E]; [|done|done].
  by apply construct_Ok in E as (_ & _ & ?).
Qed.


Lemma reachable_wf s : reachable s → wf_blueprints bps.
Proof using Type.
  intros Hr bp Hbp. by apply validateWorkflowBlueprint_iff, (reachable_valid s).
Qed.

Lemma reachable_Inv s : reachable s → Inv bps (core (db s)).
Proof using Type.
  intros Hr. pose proof (reachable_wf s Hr) as Hw.
  induction Hr as [s s' Hd E|cmd s Hr IH|s s0 s' Hr IH Hd E].
  - apply construct_Ok in E as (-> & _). rewrite Hd. apply empty_Inv.
  - eapply csteps_Inv; [done|apply exec_total_steps; auto|auto].
  - apply construct_Ok in E as (-> & _). rewrite Hd. auto.
Qed.

Lemma reachable_LogInv s : reachable s → LogInv (db s).
Proof using Type.
  induction 1 as [s s' Hd E|cmd s Hr IH|s s0 s' Hr IH Hd E].
  - apply construct_Ok in E as (_ & [_ Hl] & _). apply Hl. rewrite Hd. apply empty_LogInv.
  - by apply (exec_total_logged cmd s).
  - apply construct_Ok in E as (_ & [_ Hl] & _). apply Hl. by rewrite Hd.
Qed.

Lemma reachable_GateInv s : reachable s → GateInv (db s).
Proof using Type.
  induction 1 as [s s' Hd E|cmd s Hr IH|s s0 s' Hr IH Hd E].
  - apply construct_Ok in E as (_ & Hl & _). apply (lo_gates _ _ Hl). rewrite Hd.
    split; [constructor|]. by intros ? ?%not_elem_of_nil.
  - by apply (exec_total_logged cmd s).
  - apply construct_Ok in E as (_ & Hl & _). apply (lo_gates _ _ Hl). by rewrite Hd.
Qed.

Lemma exec_all_evolves cmds s :
  wf_blueprints bps → Inv bps (core (db s)) →
  evolves (core (db s)) (core (db (exec_all bps cmds s))).
Proof using Type.
  intros Hw. revert s. induction cmds as [|cmd cmds IH]; intros s HI; cbn; [apply evolves_refl|].
  eapply evolves_trans; [eapply csteps_evolve; [done..|by apply exec_total_steps]|]. apply IH.
  eapply csteps_Inv; [done|by apply exec_total_steps|done].
Qed.

Lemma exec_all_stranded cmds s run :
  wf_blueprints bps → Inv bps (core (db s)) → stranded (core (db s)) run →
  stranded (core (db (exec_all bps cmds s))) run.
Proof using Type.
  intros Hw. revert s. induction cmds as [|cmd cmds IH]; intros s HI Hst; cbn; [done|].
  pose proof (exec_total_steps cmd s HI) as Hsteps. apply IH.
  - by eapply csteps_Inv.
  - eapply csteps_stranded; [|done..]. intros Hrec. destruct cmd; try done.
    destruct Hrec as (a & Ha & _ & Hu & Hr). apply (proj2 Hst a Ha Hr). by right.
Qed.

Lemma exec_all_logged cmds s : logged (db s) (db (exec_all bps cmds s)).
Proof using Type.
  revert s. induction cmds as [|cmd cmds IH]; intros s; cbn; [apply logged_refl|].
  eapply logged_trans; [apply exec_total_logged|apply IH].
Qed.
End engine.
