(* ===== verification/ReleaseScenario.v ===== *)
(** * ReleaseScenario: concrete executions of the release engine

    A concrete host and the states a two-step release run goes through, used to
    instantiate the theorems.  [two_step] is a blueprint with an effect step and
    a verification step that measures a gate; [scenario] runs commands on a fresh
    engine. *)

From S2P Require Import Prelude Text ReleaseTypes Blueprint Ledger Orchestrator ReleaseSpec.
From S2P Require Import ReleaseInv ReleaseProps Refinement Engine.

Local Open Scope string_scope.

(** [n] decimal digits of [x]. *)
Fixpoint digits (n : nat) (x : Z) (acc : string) : string :=
  match n with
  | 0 => acc
  | S n => digits n (x / 10)
             (String (Ascii.ascii_of_nat (48 + Z.to_nat (x mod 10))) acc)
  end.

(** A polynomial checksum written as 64 digits. *)
Fixpoint checksum (s : string) (h : Z) : Z :=
  match s with
  | "" => h
  | String c s => checksum s ((h * 1000003 + Z.of_N (Ascii.N_of_ascii c)) mod 2305843009213693951)
  end.

Definition scenario_host : Host := {|
  sha256 s := digits 64 (checksum s 7) "";
  localeCompare := String.compare;
  parses_as_date s := bool_decide (String.length s = 20);
  randomUUID n := "00000000-0000-4000-8000-" +:+ digits 12 (Z.of_nat n) "";
  toISOString n := "2026-01-01T" +:+ digits 8 (Z.of_nat n) "" +:+ "Z";
|}.
#[export] Existing Instance scenario_host.

Lemma digits_length n x acc : String.length (digits n x acc) = n + String.length acc.
Proof.
  revert x acc. induction n as [|n IH]; intros x acc; cbn; [done|]. rewrite IH. cbn. lia.
Qed.

Lemma string_length_app a b : String.length (a +:+ b) = String.length a + String.length b.
Proof.
  induction a as [|c a IH]; [done|].
  change (S (String.length (a +:+ b)) = S (String.length a) + String.length b).
  rewrite IH. done.
Qed.

Lemma scenario_dates n : parses_as_date (toISOString n) = true.
Proof.
  unfold parses_as_date, toISOString, scenario_host.
  by rewrite !string_length_app, digits_length.
Qed.

Definition two_step : ReleaseWorkflowBlueprint := {|
  bp_id := "two-step"; bp_version := 1; bp_name := "Two steps";
  bp_historicalReference := "none";
  bp_stages := [build_release; deployment; homologation];
  bp_gates := [{| gd_id := "healthy"; gd_stage := deployment;
                  gd_requiredEvidenceKinds := ["report"] |}];
  bp_steps := [
    mk_step "deploy" deployment deploy_edge external_effect [] [] None;
    mk_step "verify" deployment verify_edge_health read_only ["deploy"] [] (Some "healthy")] |}.

(** Two effect steps that may run side by side, like [prepare_oracle] and
    [prepare_windows] of the registered blueprint, and a verification. *)
Definition parallel : ReleaseWorkflowBlueprint := {|
  bp_id := "parallel"; bp_version := 1; bp_name := "Parallel steps";
  bp_historicalReference := "none";
  bp_stages := [build_release; deployment; homologation];
  bp_gates := [{| gd_id := "healthy"; gd_stage := deployment;
                  gd_requiredEvidenceKinds := ["report"] |}];
  bp_steps := [
    mk_step "left" deployment prepare_oracle external_effect [] [] None;
    mk_step "right" deployment prepare_windows external_effect [] [] None;
    mk_step "verify" deployment verify_edge_health read_only ["left"] [] (Some "healthy")] |}.

(** Two steps measure one gate, and a third requires it. *)
Definition measured_twice : ReleaseWorkflowBlueprint := {|
  bp_id := "measured-twice"; bp_version := 1; bp_name := "Two measurements";
  bp_historicalReference := "none";
  bp_stages := [build_release; deployment; homologation];
  bp_gates := [{| gd_id := "healthy"; gd_stage := deployment;
                  gd_requiredEvidenceKinds := ["report"] |}];
  bp_steps := [
    mk_step "left" deployment verify_edge_health read_only [] [] (Some "healthy");
    mk_step "right" deployment verify_edge_health read_only [] [] (Some "healthy");
    mk_step "ship" deployment deploy_edge external_effect [] ["healthy"] None] |}.

Definition scenario_blueprints : list ReleaseWorkflowBlueprint := [two_step; parallel; measured_twice].

Definition fresh_ledger : St := {| db := empty_db; closed := false; tick := 0 |}.

(** The engine constructed on a fresh ledger. *)
Definition started : St := (new_ReleaseOrchestrator scenario_blueprints fresh_ledger).2.

Definition scenario (cmds : list command) : St := exec_all scenario_blueprints cmds started.

Lemma exec_all_reachable bps cmds s :
  reachable bps s → reachable bps (exec_all bps cmds s).
Proof.
  revert s. induction cmds as [|cmd cmds IH]; intros s Hs; cbn; [done|].
  apply IH. by apply reach_exec.
Qed.

Lemma scenario_reachable cmds : reachable scenario_blueprints (scenario cmds).
Proof.
  apply exec_all_reachable, (reach_new _ fresh_ledger); [done|].
  unfold started. vm_compute. reflexivity.
Qed.

(** ** Commands of the scenario *)

Definition request_for (blueprint key : string) : ReleaseRunRequest := {|
  rq_blueprintId := blueprint; rq_blueprintVersion := 1;
  rq_targetRelease := "v1.1.0"; rq_sourceCommitSha := digits 40 0 "";
  rq_idempotencyKey := key; rq_actorId := "owner" |}.

Definition the_request : ReleaseRunRequest := request_for "two-step" "create-1".
Definition parallel_request : ReleaseRunRequest := request_for "parallel" "create-1".

(** The identifier of the first run created on a fresh engine. *)
Definition the_run : string := Eval vm_compute in
  match release_runs (db (scenario [CreateRun the_request])) with
  | r :: _ => rr_run_id r
  | [] => ""
  end.

Definition report : EvidenceInput := {|
  ei_kind := "report"; ei_source := "probe"; ei_sha256 := digits 64 0 "";
  ei_observedAt := toISOString 0 |}.

(** The operation identifier of a step of the run. *)
Definition the_operation (s : St) (stepId : string) : string :=
  match List.find (is_step the_run stepId) (run_steps (db s)) with
  | Some r => default "" (sr_operation_id r)
  | None => ""
  end.

Definition begin (stepId : string) : command :=
  BeginStepAttempt the_run stepId ("key-" +:+ stepId) "owner".
Definition record (op : string) (o : StepOutcome) : command :=
  RecordStepOutcome op
    {| ro_outcome := o; ro_outcomeCode := None; ro_evidence := Some [report] |} "owner".
Definition lose (op : string) : command := MarkOutcomeUnknown op "lost" "owner".
Definition reconcile (op : string) (o : ReconciliationOutcome) : command :=
  ReconcileOperation op {| ri_idempotencyKey := "fix-" +:+ op; ri_outcome := o;
    ri_evidence := Some [report]; ri_actorId := "owner" |}.
Definition decide_gate (o : GateOutcome) : command :=
  ResolveHealthGate the_run "healthy" {|
    rg_idempotencyKey := "gate-1"; rg_outcome := o; rg_evidence := [report];
    rg_actorId := "owner" |}.

(** *** The two-step run, to completion *)

Definition create_and_start : list command := [CreateRun the_request; StartRun the_run "owner"].
Definition begin_deploy : list command := create_and_start ++ [begin "deploy"].
Definition deploy_op : string := Eval vm_compute in the_operation (scenario begin_deploy) "deploy".
Definition deployed : list command := begin_deploy ++ [record deploy_op outcome_succeeded].
Definition begin_verify : list command := deployed ++ [begin "verify"].
Definition verify_op : string := Eval vm_compute in the_operation (scenario begin_verify) "verify".
Definition verified : list command := begin_verify ++ [record verify_op outcome_succeeded].
Definition completed : list command := verified ++ [decide_gate decision_passed].

(** *** The parallel run *)

Definition start_parallel : list command := [CreateRun parallel_request; StartRun the_run "owner"].
Definition both_begun : list command := start_parallel ++ [begin "left"; begin "right"].
Definition left_op : string := Eval vm_compute in the_operation (scenario both_begun) "left".
Definition right_op : string := Eval vm_compute in the_operation (scenario both_begun) "right".

(** [left] is lost and reconciled while [right] is still in progress; [right]
    then succeeds. *)
Definition stranding : list command :=
  both_begun ++ [lose left_op; reconcile left_op applied; record right_op outcome_succeeded].

(** The gate fails while [right] is in progress; [right] is then lost and
    reconciled. *)
Definition left_done : list command := both_begun ++ [record left_op outcome_succeeded; begin "verify"].
Definition parallel_verify_op : string := Eval vm_compute in
  the_operation (scenario left_done) "verify".
Definition gate_failure : list command :=
  left_done ++ [record parallel_verify_op outcome_succeeded; decide_gate decision_failed].
Definition revival : list command :=
  gate_failure ++ [lose right_op; reconcile right_op applied].

(** *** The gate that two steps measure *)

Definition twice_begun : list command :=
  [CreateRun (request_for "measured-twice" "create-1"); StartRun the_run "owner"; begin "left"; begin "right"].
Definition twice_left_op : string := Eval vm_compute in the_operation (scenario twice_begun) "left".
Definition twice_right_op : string := Eval vm_compute in the_operation (scenario twice_begun) "right".

(** The gate passes on the first measurement, and the step that requires it begins. *)
Definition twice_shipping : list command :=
  twice_begun ++ [record twice_left_op outcome_succeeded; decide_gate decision_passed; begin "ship"].

(** The statuses a scenario ends in: of its runs, steps and gates. *)
Definition statuses (s : St) :=
  (map rr_status (release_runs (db s)), map sr_status (run_steps (db s)),
   map gr_status (run_health_gates (db s))).

Lemma scenario_completes :
  statuses (scenario completed) = ([run_succeeded], [step_succeeded; step_succeeded], [gate_passed]).
Proof. vm_compute. reflexivity. Qed.

Lemma scenario_strands :
  statuses (scenario stranding) =
  ([run_paused_outcome_unknown], [step_succeeded; step_succeeded; step_pending], [gate_pending]).
Proof. vm_compute. reflexivity. Qed.

Lemma scenario_gate_fails :
  statuses (scenario gate_failure) =
  ([run_failed], [step_succeeded; step_in_progress; step_succeeded], [gate_failed]).
Proof. vm_compute. reflexivity. Qed.

Lemma scenario_revives :
  statuses (scenario revival) =
  ([run_running], [step_succeeded; step_succeeded; step_succeeded], [gate_failed]).
Proof. vm_compute. reflexivity. Qed.

Lemma scenario_gate_reopens :
  statuses (scenario twice_shipping) =
    ([run_running], [step_succeeded; step_in_progress; step_in_progress], [gate_passed]) ∧
  statuses (scenario (twice_shipping ++ [lose twice_right_op])) =
    ([run_paused_outcome_unknown], [step_succeeded; step_outcome_unknown; step_in_progress],
     [gate_outcome_unknown]).
Proof. split; vm_compute; reflexivity. Qed.

Lemma stranding_stranded : stranded (core (db (scenario stranding))) the_run.
Proof.
  split.
  - apply list_elem_of_In. vm_compute. by left.
  - assert (forallb (λ a, negb (bool_decide (ar_status a = attempt_intent_recorded)) &&
      negb (bool_decide (ar_status a = attempt_outcome_unknown)))
      (step_attempts (db (scenario stranding))) = true) as Hall by (vm_compute; reflexivity).
    intros a Ha _ Hact. rewrite forallb_forall in Hall.
    specialize (Hall a (proj1 (list_elem_of_In _ _) Ha)). bool_inv. by destruct Hact.
Qed.

(** The program returns, without the result being computed twice. *)
Definition returned {A} (m : M A) (s : St) : bool :=
  match (m s).1 with Ok _ => true | Err _ => false end.

Lemma returned_Ok {A} (m : M A) s : returned m s = true → ∃ a s', m s = (Ok a, s').
Proof. unfold returned. destruct (m s) as [[a|e] s']; [eauto|done]. Qed.

Lemma begin_verify_returns :
  ∃ r s', beginStepAttempt the_run "verify" "key-verify" "owner" (scenario deployed) = (Ok r, s').
Proof. apply returned_Ok. vm_compute. reflexivity. Qed.

Lemma create_returns :
  ∃ r s', createRun scenario_blueprints the_request started = (Ok r, s').
Proof. apply returned_Ok. vm_compute. reflexivity. Qed.

(** *** Rows of the scenarios *)

Definition no_attempt : AttemptRow := {|
  ar_attempt_id := ""; ar_run_id := ""; ar_step_id := ""; ar_attempt_number := 0;
  ar_operation_id := ""; ar_idempotency_key := ""; ar_status := attempt_failed;
  ar_intent_recorded_at := ""; ar_completed_at := None; ar_outcome_code := None;
  ar_result_request_sha256 := None |}.
Definition no_step : StepRow := planned_step "" (0, mk_step "" deployment deploy_edge read_only [] [] None).
Definition no_gate : GateRow := planned_gate "" {| gd_id := ""; gd_stage := deployment;
  gd_requiredEvidenceKinds := [] |}.

(** The second attempt and step while [verify] is in progress. *)
Definition verify_attempt : AttemptRow := Eval vm_compute in
  nth 1 (step_attempts (db (scenario begin_verify))) no_attempt.
Definition verify_row : StepRow := Eval vm_compute in
  nth 1 (run_steps (db (scenario begin_verify))) no_step.
(** The gate and the run at the end. *)
Definition passed_row : GateRow := Eval vm_compute in
  nth 0 (run_health_gates (db (scenario completed))) no_gate.

(** The third attempt and step of the run that measures its gate twice. *)
Definition ship_attempt : AttemptRow := Eval vm_compute in
  nth 2 (step_attempts (db (scenario (twice_shipping ++ [lose twice_right_op])))) no_attempt.
Definition ship_row : StepRow := Eval vm_compute in
  nth 2 (run_steps (db (scenario (twice_shipping ++ [lose twice_right_op])))) no_step.

(** Membership of a computed row in a computed table. *)
Ltac row_in := apply list_elem_of_In; vm_compute; tauto.

Lemma verify_attempt_in : verify_attempt ∈ step_attempts (db (scenario begin_verify)).
Proof. row_in. Qed.
Lemma verify_row_in : verify_row ∈ run_steps (db (scenario begin_verify)).
Proof. row_in. Qed.
Lemma passed_row_in : passed_row ∈ run_health_gates (db (scenario completed)).
Proof. row_in. Qed.
