(* ===== verification/ReleaseTheorems.v ===== *)
(** * ReleaseTheorems: what the release engine guarantees

    The properties of the orchestrator, each proved from the lemmas of
    [Blueprint.v], [ReleaseProps.v], [Refinement.v], [EventLog.v], [Engine.v]
    and [Engine.v], with executions of [ReleaseScenario.v] as instances. *)

From S2P Require Import Prelude Text Dfs ReleaseTypes Blueprint Ledger Orchestrator OrchestratorReads.
From S2P Require Import ReleaseSpec ReleaseInv ReleaseProps Refinement OrchestratorReads EventLog.
From S2P Require Import Engine ReleaseScenario.

(** Evaluates a closed decidable statement about a scenario. *)
Ltac evaluate := vm_compute; reflexivity.

Section theorems.
Context {H : Host} (bps : list ReleaseWorkflowBlueprint).

(** C1: Refinement.  In every reachable state, whatever command arrives and
    whether it returns or throws, the ledger's runs, steps, gates, attempts and
    decisions move along zero or more transitions of the abstract release
    machine, and only the run of the operation being reconciled may resume. *)
Theorem engine_refines_machine s cmd :
  reachable bps s →
  rtc (cstep bps (reconciles cmd (db s))) (core (db s)) (core (db (exec bps cmd s).2)).
Proof using Type. intros Hs. by eapply exec_total_steps, reachable_Inv. Qed.


(** C6: Dependency and gate safety.  In every reachable state, a step that
    was ever attempted has all the steps it depends on succeeded, and for every gate
    it requires a decision that it passed is recorded; a required gate that at most
    one step of the run measures is itself still passed.  (The validation of
    blueprints lets several steps measure one gate; see
    [second_measurement_reopens_gate].) *)
Theorem attempted_step_dependencies_met s a step :
  reachable bps s → a ∈ step_attempts (db s) → step ∈ run_steps (db s) →
  step_key step = attempt_key a →
  (∀ d, d ∈ sd_dependsOn (sr_definition step) → ∃ t, t ∈ run_steps (db s) ∧
     step_key t = (sr_run_id step, d) ∧ sr_status t = step_succeeded) ∧
  (∀ g, g ∈ sd_requiredGates (sr_definition step) →
     (∃ x, x ∈ health_gate_decisions (db s) ∧ decision_key x = (sr_run_id step, g) ∧
        de_outcome x = decision_passed) ∧
     (∃ x, x ∈ run_health_gates (db s) ∧ gate_key x = (sr_run_id step, g) ∧
        (measured_once (run_steps (db s)) (sr_run_id step) g → gr_status x = gate_passed))).
Proof using Type.
  intros Hs Ha Hstep Hk. pose proof (reachable_Inv bps s Hs) as HI.
  destruct (i_attempt _ _ HI a Ha) as (step' & Hstep' & Hk' & _ & _ & Hn & _).
  assert (step' = step) as -> by (eapply inv_step_eq; [done..|congruence]).
  destruct (i_met _ _ HI step Hstep) as [Hd Hg]; [lia|]. split; [done|].
  intros g Hin. destruct (Hg g Hin) as (x & Hx & Hkx & Hox). split; [eauto|].
  destruct (i_decision _ _ HI x Hx) as (y & Hy & Hky & Hst). exists y.
  split_and!; [done|congruence|]. intros Ho. injection Hkx as Er Eg.
  rewrite Er, Eg, Hox in Hst. by apply Hst.
Qed.

(** C7: Permanence.  Whatever commands follow a reachable state, a succeeded
    run or step stays as it is, a resolved attempt keeps its row, recorded decisions
    remain, attempt counts never decrease, no row is lost and no run gains a step;
    and a decided gate keeps its row if at most one step of its run measures it.
    (The validation of blueprints lets several steps measure one gate; see
    [second_measurement_reopens_gate].) *)
Theorem history_is_permanent s cmds :
  reachable bps s →
  evolves (core (db s)) (core (db (exec_all bps cmds s))) ∧
  ∀ g, g ∈ run_health_gates (db s) → decided (gr_status g) →
    measured_once (run_steps (db s)) (gr_run_id g) (gr_gate_id g) →
    g ∈ run_health_gates (db (exec_all bps cmds s)).
Proof using Type.
  intros Hs. pose proof (reachable_Inv bps s Hs) as HI.
  assert (evolves (core (db s)) (core (db (exec_all bps cmds s)))) as He
    by (by apply exec_all_evolves; [eapply reachable_wf|]).
  split; [done|]. intros g Hg Hd Ho. apply (ev_gates _ _ He); [done..|].
  apply (evolves_still_measured _ _ _ _ He); [|done]. by apply (i_gate_run _ _ HI).
Qed.

(** Blueprints whose gates are each measured by at most one step give runs whose
    gates are: with these the conditions of the two theorems above hold. *)
Theorem runs_measure_once s run gate :
  reachable bps s → (∀ bp, bp ∈ bps → measures_once (bp_steps bp)) →
  measured_once (run_steps (db s)) run gate.
Proof using Type.
  intros Hs Honce t u Ht Hu Rt Ru Gt Gu. pose proof (reachable_Inv bps s Hs) as HI.
  destruct (i_blueprint _ _ HI run) as (bp & Hbp & Hdef).
  { rewrite <- Rt. by apply (i_step_run _ _ HI). }
  assert (∀ v, v ∈ run_steps (db s) → sr_run_id v = run → sr_definition v ∈ bp_steps bp) as Hin.
  { intros v Hv Rv. rewrite <- Hdef. apply list_elem_of_In, in_map, list_elem_of_In.
    apply elem_of_rows_filter. split; [done|by apply bool_decide_eq_true]. }
  rewrite (i_step_def _ _ HI _ Ht), (i_step_def _ _ HI _ Hu). by eapply Honce; eauto.
Qed.

(** At most one unresolved attempt.  Two attempts of the same step whose
    intent is recorded or whose outcome is unknown are the same attempt. *)
Theorem one_unresolved_attempt s a b :
  reachable bps s → a ∈ step_attempts (db s) → b ∈ step_attempts (db s) →
  attempt_key a = attempt_key b → active (ar_status a) → active (ar_status b) → a = b.
Proof using Type.
  intros Hs. by apply (inv_one_active bps (core (db s))), reachable_Inv.
Qed.

(** No dependency deadlock.  A run of a reachable state that still has a
    step to complete has one whose dependencies have all succeeded. *)
Theorem incomplete_run_has_ready_step s run :
  reachable bps s → run ∈ map rr_run_id (release_runs (db s)) →
  (∃ t, t ∈ run_steps (db s) ∧ sr_run_id t = run ∧ sr_status t ≠ step_succeeded) →
  ∃ t, t ∈ run_steps (db s) ∧ sr_run_id t = run ∧ sr_status t ≠ step_succeeded ∧
    ∀ d, d ∈ sd_dependsOn (sr_definition t) → ∃ u, u ∈ run_steps (db s) ∧
      step_key u = (run, d) ∧ sr_status u = step_succeeded.
Proof using Type.
  intros Hs Hrun. apply (inv_ready_step bps (core (db s)));
    [by eapply reachable_wf|by apply reachable_Inv|].
  cbn. change (run ∈ map fst (map (λ r, (rr_run_id r, rr_status r)) (release_runs (db s)))).
  by rewrite map_map.
Qed.

(** A succeeded run is complete.  In every reachable state, a run whose
    status is succeeded has only succeeded steps and passed gates. *)
Theorem succeeded_run_is_complete s r :
  reachable bps s → r ∈ release_runs (db s) → rr_status r = run_succeeded →
  (∀ t, t ∈ run_steps (db s) → sr_run_id t = rr_run_id r → sr_status t = step_succeeded) ∧
  (∀ g, g ∈ run_health_gates (db s) → gr_run_id g = rr_run_id r → gr_status g = gate_passed).
Proof using Type.
  intros Hs Hr Hst. pose proof (reachable_Inv bps s Hs) as HI.
  apply (i_run _ _ HI (rr_run_id r) run_succeeded). rewrite <- Hst.
  apply list_elem_of_In, (in_map (λ r, (rr_run_id r, rr_status r))), list_elem_of_In, Hr.
Qed.

(** Recovery.  After [recoverInterruptedOperations] returns [n] in a
    reachable state, the [n] attempts whose intent was recorded, and no others,
    have an unknown outcome, so none is left in progress, and the runs they
    belong to are paused. *)
Theorem recovery_resolves_every_intent s actor n s' :
  reachable bps s → recoverInterruptedOperations actor s = (Ok n, s') →
  n = count_where intended (step_attempts (db s)) ∧
  step_attempts (db s') = update_where intended
    (set_attempt_status attempt_outcome_unknown) (step_attempts (db s)) ∧
  ∀ a, a ∈ step_attempts (db s) → intended a = true →
    ∃ r, r ∈ release_runs (db s') ∧ rr_run_id r = ar_run_id a ∧
      rr_status r = run_paused_outcome_unknown.
Proof using Type.
  intros Hs E. pose proof (reachable_Inv bps s Hs) as HI.
  destruct (recoverInterrupted_Ok bps (λ _, True) _ _ _ _ (i_attempts _ _ HI) E)
    as (_ & Hn & Hatt & Hruns).
  split_and!; [done..|]. intros a Ha Hi.
  destruct (i_attempt _ _ HI a Ha) as (t & Ht & Hk & _).
  specialize (Hruns a Ha Hi). unfold step_key, attempt_key in Hk. injection Hk as Hk _.
  rewrite <- Hk in Hruns at 1. specialize (Hruns (i_step_run _ _ HI t Ht)).
  apply list_elem_of_In, in_map_iff in Hruns as (r & [= Hid Hst] & Hr).
  exists r. split; [by apply list_elem_of_In|done].
Qed.

(** A stranded run.  A run that is paused for an unknown outcome while
    none of its attempts is unresolved stays paused under every sequence of
    commands: only reconciling an unknown attempt of the run resumes it. *)
Theorem stranded_run_never_resumes s run cmds :
  reachable bps s → stranded (core (db s)) run →
  stranded (core (db (exec_all bps cmds s))) run.
Proof using Type.
  intros Hs. apply exec_all_stranded; [by eapply reachable_wf|by apply reachable_Inv].
Qed.
End theorems.

Section theorems_any.
Context {H : Host} (bps : list ReleaseWorkflowBlueprint).

(** C38: Atomicity.  A command that throws, with whatever error and at
    whatever statement, leaves every table of the ledger as it was. *)
Theorem failed_command_changes_nothing cmd s e s' :
  exec bps cmd s = (Err e, s') → db s' = db s.
Proof. apply exec_atomic. Qed.

(** What [beginStepAttempt] returns.  Either the step had already
    succeeded and nothing changes, or the run was running, the step pending with
    its dependencies succeeded and gates passed, and the returned intent names
    the one new attempt, numbered one more than the attempts before it and
    carrying the step's earlier operation identifier if it had one. *)
Theorem begin_records_one_intent runId stepId key actor s r s' :
  beginStepAttempt runId stepId key actor s = (Ok r, s') →
  (s' = s ∧ ∃ op, r = already_completed runId stepId op) ∨
  (∃ row a, r = intent (intent_of row a) ∧ began (db s) runId stepId key row a ∧
    core (db s') = begun (core (db s)) runId stepId a).
Proof. apply beginStepAttempt_Ok. Qed.

(** Idempotent creation.  Repeating a [createRun] that returned gives
    the same run, marked as not created, and changes nothing; another request
    under the same key whose canonical form hashes differently is refused. *)
Theorem createRun_idempotent request s r s' :
  createRun bps request s = (Ok r, s') →
  createRun bps request s' = (Ok {| cr_run := cr_run r; cr_created := false |}, s') ∧
  ∀ request', acceptable bps request' → rq_idempotencyKey request' = rq_idempotencyKey request →
    request_sha request' ≠ request_sha request →
    createRun bps request' s' = (Err (Fail IDEMPOTENCY_KEY_CONFLICT), s').
Proof.
  intros E. pose proof (createRun_acceptable _ _ _ _ _ E) as [Hacc _].
  destruct (createRun_binds _ _ _ _ _ E) as (Hc & row & Hrow & Hsha & Hget). split.
  - rewrite (createRun_known _ _ _ row), Hsha, bool_decide_eq_true_2 by done.
    by rewrite Hget.
  - intros request' Hacc' Hkey Hne. rewrite (createRun_known _ _ _ row) by (done || by rewrite Hkey).
    rewrite bool_decide_eq_false_2; [done|]. congruence.
Qed.

(** The event log.  In every reachable state the events of a run are
    numbered 1 to the run's [last_seq] without gaps, and the audit log mirrors
    the event log entry by entry. *)
Theorem event_log_contiguous s :
  reachable bps s →
  (∀ r, r ∈ release_runs (db s) →
     map ev_seq (events_of (rr_run_id r) (db s)) = seq 1 (rr_last_seq r)) ∧
  map event_view (run_events (db s)) = map audit_view (audit_log (db s)).
Proof. intros Hs. by destruct (reachable_LogInv _ _ Hs). Qed.

(** Evidence behind a passed gate.  In every reachable state a passed
    gate lists, for every evidence kind it requires, a recorded evidence item of
    that kind for its run. *)
Theorem passed_gate_is_backed s g kind :
  reachable bps s → g ∈ run_health_gates (db s) → gr_status g = gate_passed →
  kind ∈ gr_required_evidence_kinds g →
  ∃ e, e ∈ evidence_records (db s) ∧ er_run_id e = gr_run_id g ∧ er_kind e = kind ∧
    er_evidence_id e ∈ gr_evidence_ids g.
Proof. intros Hs Hg Hp. by apply (ga_passed _ (reachable_GateInv _ _ Hs)). Qed.

(** Append-only records.  No sequence of commands changes or removes an
    event, an audit entry or an evidence record. *)
Theorem records_append_only cmds s :
  run_events (db s) `prefix_of` run_events (db (exec_all bps cmds s)) ∧
  audit_log (db s) `prefix_of` audit_log (db (exec_all bps cmds s)) ∧
  evidence_records (db s) `prefix_of` evidence_records (db (exec_all bps cmds s)).
Proof. by destruct (exec_all_logged bps cmds s) as [[] _]. Qed.

(** Paging.  In a reachable open state, following the cursors of
    [pageEvidence] with any allowed page size returns exactly what
    [listEvidence] returns: every record of the run once, in order.  One more
    call than there are records is always enough. *)
Theorem paging_lists_all_evidence s runId limit fuel :
  reachable bps s → (∀ n, parses_as_date (toISOString n) = true) →
  closed s = false → RUN_ID_PATTERN runId = true →
  runId ∈ map rr_run_id (release_runs (db s)) → (1 <= limit <= 200)%Z →
  length (evidence_of runId (db s)) < fuel →
  collectEvidence fuel runId limit None s = listEvidence runId s.
Proof.
  intros Hs Hdate Hopen Hid Hrun Hlimit Hfuel. pose proof (reachable_LogInv _ _ Hs) as HL.
  apply collectEvidence_list; [done|done| |done| |by apply HL|done].
  - apply list_elem_of_In, in_map_iff in Hrun as (r & Hr & Hin).
    exists r. split; [by apply list_elem_of_In|done].
  - intros e [He _]%elem_of_rows_filter. destruct (lg_recorded _ HL e He) as [n ->]. apply Hdate.
Qed.
End theorems_any.

(** ** Blueprints and canonical JSON *)

(** [validateWorkflowBlueprint] accepts a blueprint exactly when its
    identity is well formed, it declares the three canonical stages, its gates
    and steps have distinct well-formed identifiers and known stages, every
    gate and dependency it mentions exists, no step depends on itself, and the
    dependency graph has no cycle. *)
Theorem validateWorkflowBlueprint_spec bp :
  validateWorkflowBlueprint bp = Ok tt ↔ blueprint_ok bp.
Proof. apply validateWorkflowBlueprint_iff. Qed.

(** C39: The cycle check terminates: whatever the dependency graph, the
    recursion fuel of [visit] (one more than the number of steps) never runs
    out, so the check always answers. *)
Theorem assertAcyclic_terminates bp :
  (visit_all bp nothing_visited).1 ≠ Err None.
Proof. apply visit_all_total. Qed.

(** The registered beta.80 blueprint passes the validation, is found
    under its identifier and version, and measures each gate with one step. *)
Theorem registered_blueprint_valid :
  getWorkflowBlueprint "mcp-v3-public-release" 1 = Ok beta80ReleaseBlueprint ∧
  validateWorkflowBlueprint beta80ReleaseBlueprint = Ok tt ∧
  measures_once (bp_steps beta80ReleaseBlueprint).
Proof. split_and!; [done|apply beta80_valid|apply beta80_measures_once]. Qed.

(** Key order.  Requests that differ only in the order of object keys
    (at any depth) have the same canonical JSON, hence the same digest, whenever
    the collation separates distinct alphanumeric keys and is a linear order. *)
Theorem canonicalJson_key_order (H : Host) (Hc : collation_order) v1 v2 :
  json_eq v1 v2 → sha256 (canonicalJson v1) = sha256 (canonicalJson v2).
Proof. intros E. unfold canonicalJson. by rewrite (canonicalValue_eq_fix Hc v1 v2 E). Qed.

(** ** Two executions the source does not intend *)

(** A failed gate does not keep a run from running.  A run that a failed
    gate decision has failed is running again after one of its operations is lost
    and then reconciled as applied: losing the operation overwrites the failure
    and resuming looks only at failed steps. *)
Theorem failed_gate_run_resumes :
  statuses (scenario gate_failure) =
    ([run_failed], [step_succeeded; step_in_progress; step_succeeded], [gate_failed]) ∧
  statuses (scenario revival) =
    ([run_running], [step_succeeded; step_succeeded; step_succeeded], [gate_failed]).
Proof. split; [apply scenario_gate_fails|apply scenario_revives]. Qed.

(** A decided gate is reopened.  The validation accepts two steps that measure
    one gate.  The gate passes on the first measurement and a step that requires it
    begins; when the operation of the second measurement is lost, the gate goes back to
    an unknown outcome although its decision stays recorded. *)
Theorem second_measurement_reopens_gate :
  validateWorkflowBlueprint measured_twice = Ok tt ∧
  statuses (scenario twice_shipping) =
    ([run_running], [step_succeeded; step_in_progress; step_in_progress], [gate_passed]) ∧
  statuses (scenario (twice_shipping ++ [lose twice_right_op])) =
    ([run_paused_outcome_unknown], [step_succeeded; step_outcome_unknown; step_in_progress],
     [gate_outcome_unknown]).
Proof. split; [by vm_compute|apply scenario_gate_reopens]. Qed.

(** A run can be stranded.  When one of two operations in progress is lost
    and reconciled first, and the other succeeds, the run stays paused although
    nothing is unresolved, and no sequence of commands ever changes that. *)
Theorem run_can_be_stranded cmds :
  stranded (core (db (exec_all scenario_blueprints cmds (scenario stranding)))) the_run.
Proof.
  apply exec_all_stranded.
  - eapply reachable_wf, (scenario_reachable []).
  - apply reachable_Inv, scenario_reachable.
  - apply stranding_stranded.
Qed.

(** ** Instances *)

Section instances.
Local Notation bps := scenario_blueprints.
Local Notation reach := scenario_reachable.

Lemma engine_refines_machine_witness :
  rtc (cstep bps (reconciles (begin "verify") (db (scenario deployed))))
    (core (db (scenario deployed))) (core (db (exec bps (begin "verify") (scenario deployed)).2)).
Proof. apply (engine_refines_machine bps), reach. Defined.


Lemma history_is_permanent_witness :
  evolves (core (db (scenario deployed)))
    (core (db (exec_all bps [begin "verify"] (scenario deployed)))) ∧
  passed_row ∈ run_health_gates (db (exec_all bps [StartRun the_run "owner"] (scenario completed))).
Proof.
  split; [apply (history_is_permanent bps (scenario deployed)), reach|].
  apply (history_is_permanent bps (scenario completed));
    [apply reach|apply passed_row_in|left; reflexivity|].
  eapply measured_once_filter. vm_compute. reflexivity.
Defined.

Lemma stranded_run_never_resumes_witness :
  stranded (core (db (exec_all bps [StartRun the_run "owner"] (scenario stranding)))) the_run.
Proof.
  apply (stranded_run_never_resumes bps); [apply reach|].
  apply stranding_stranded.
Defined.

Lemma attempted_step_dependencies_met_witness :
  (∃ t, t ∈ run_steps (db (scenario begin_verify)) ∧
    step_key t = (the_run, "deploy"%string) ∧ sr_status t = step_succeeded) ∧
  (∃ x, x ∈ health_gate_decisions (db (scenario (twice_shipping ++ [lose twice_right_op]))) ∧
    decision_key x = (the_run, "healthy"%string) ∧ de_outcome x = decision_passed).
Proof.
  destruct (attempted_step_dependencies_met bps (scenario begin_verify)
    verify_attempt verify_row) as [Hdeps _];
    [apply reach|apply verify_attempt_in|apply verify_row_in|reflexivity|].
  split; [apply (Hdeps "deploy"%string); left|].
  destruct (attempted_step_dependencies_met bps (scenario (twice_shipping ++ [lose twice_right_op]))
    ship_attempt ship_row) as [_ Hgates]; [apply reach|row_in|row_in|reflexivity|].
  apply (Hgates "healthy"%string). left.
Defined.

Lemma one_unresolved_attempt_witness : verify_attempt = verify_attempt.
Proof.
  apply (one_unresolved_attempt bps (scenario begin_verify));
    [apply reach|apply verify_attempt_in|apply verify_attempt_in|reflexivity|by left|by left].
Defined.

Lemma incomplete_run_has_ready_step_witness :
  ∃ t, t ∈ run_steps (db (scenario begin_verify)) ∧ sr_run_id t = the_run ∧
    sr_status t ≠ step_succeeded ∧
    ∀ d, d ∈ sd_dependsOn (sr_definition t) → ∃ u, u ∈ run_steps (db (scenario begin_verify)) ∧
      step_key u = (the_run, d) ∧ sr_status u = step_succeeded.
Proof.
  apply (incomplete_run_has_ready_step bps (scenario begin_verify) the_run);
    [apply reach|row_in|]. exists verify_row. split_and!; [apply verify_row_in|done|done].
Defined.

Lemma succeeded_run_is_complete_witness :
  ∃ r, r ∈ release_runs (db (scenario completed)) ∧
  ∀ g, g ∈ run_health_gates (db (scenario completed)) → gr_run_id g = rr_run_id r →
    gr_status g = gate_passed.
Proof.
  assert (∃ r, r ∈ release_runs (db (scenario completed)) ∧ rr_status r = run_succeeded)
    as (r & Hr & Hst).
  { eexists. split; [apply list_elem_of_In; vm_compute; left; reflexivity|reflexivity]. }
  exists r. split; [exact Hr|].
  apply (succeeded_run_is_complete bps (scenario completed) r); [apply reach|done..].
Defined.

Lemma recovery_resolves_every_intent_witness :
  step_attempts (db (recoverInterruptedOperations "owner" (scenario both_begun)).2) =
  update_where intended (set_attempt_status attempt_outcome_unknown)
    (step_attempts (db (scenario both_begun))).
Proof.
  apply (recovery_resolves_every_intent bps (scenario both_begun) "owner" 2);
    [apply reach|]. vm_compute. reflexivity.
Defined.

Lemma failed_command_changes_nothing_witness :
  db (exec bps (StartRun the_run "owner") (scenario completed)).2 = db (scenario completed).
Proof.
  eapply (failed_command_changes_nothing bps (StartRun the_run "owner") (scenario completed)
    (Fail INVALID_TRANSITION)). vm_compute. reflexivity.
Defined.

Lemma begin_records_one_intent_witness :
  ∃ r s', beginStepAttempt the_run "verify" "key-verify" "owner" (scenario deployed) = (Ok r, s') ∧
  ((s' = scenario deployed ∧ ∃ op, r = already_completed the_run "verify" op) ∨
   (∃ row a, r = intent (intent_of row a) ∧
     began (db (scenario deployed)) the_run "verify" "key-verify" row a)).
Proof.
  destruct begin_verify_returns as (r & s' & E). exists r, s'. split; [exact E|].
  destruct (begin_records_one_intent _ _ _ _ _ _ _ E) as [Hc|(row & a & Hr & Hb & _)];
    [left; exact Hc|right; exists row, a; split; assumption].
Defined.

Lemma createRun_idempotent_witness :
  ∃ r s', createRun bps the_request started = (Ok r, s') ∧
    createRun bps the_request s' = (Ok {| cr_run := cr_run r; cr_created := false |}, s').
Proof.
  destruct create_returns as (r & s' & E). exists r, s'. split; [exact E|].
  apply (createRun_idempotent bps the_request started r s' E).
Defined.

Lemma event_log_contiguous_witness :
  map event_view (run_events (db (scenario completed))) =
  map audit_view (audit_log (db (scenario completed))).
Proof. apply (event_log_contiguous bps (scenario completed)), reach. Defined.

Lemma passed_gate_is_backed_witness :
  ∃ e, e ∈ evidence_records (db (scenario completed)) ∧ er_run_id e = the_run ∧
    er_kind e = "report"%string ∧ er_evidence_id e ∈ gr_evidence_ids passed_row.
Proof.
  apply (passed_gate_is_backed bps (scenario completed) passed_row "report"%string);
    [apply reach|apply passed_row_in|reflexivity|left].
Defined.

Lemma paging_lists_all_evidence_witness :
  collectEvidence 5 the_run 1 None (scenario completed) = listEvidence the_run (scenario completed).
Proof.
  apply (paging_lists_all_evidence bps (scenario completed) the_run 1 5);
    [apply reach|exact scenario_dates|reflexivity|reflexivity|row_in|lia|vm_compute; lia].
Defined.

Lemma canonicalJson_key_order_witness :
  sha256 (canonicalJson (JObj [("a"%string, JNull); ("b"%string, JNum 1)])) =
  sha256 (canonicalJson (JObj [("b"%string, JNum 1); ("a"%string, JNull)])).
Proof.
  apply (canonicalJson_key_order scenario_host).
  - by apply string_compare_collation.
  - apply json_eq_perm; [|apply perm_swap|repeat constructor].
    apply NoDup_cons. split; [|apply NoDup_singleton].
    by intros ?%list_elem_of_singleton.
Defined.
End instances.
