(* ===== verification/Executor.v ===== *)
(** * Executor: the release workflow executor

    [ReleaseWorkflowExecutor] of [release-workflow-executor.ts] drives one run:
    each iteration of [advance] reads the run, reconciles an operation whose
    outcome is unknown, or authorizes, begins and executes the next step.  The
    capabilities bound by the host are code outside the executor: a call to one is
    an [await], during which other callers may run engine commands, and whose
    reply comes from the parameter [world].  The calls made are logged in order. *)

From S2P Require Import Prelude Text ReleaseTypes Blueprint Ledger Orchestrator Refinement.

(** ** Capability interface *)

Inductive ReleaseStepObservation :=
| obs_succeeded (evidence : list EvidenceInput)
| obs_failed (evidence : list EvidenceInput) (outcomeCode : string)
| obs_outcome_unknown.

Inductive ReleaseReconciliation :=
| rec_still_unknown
| rec_applied (evidence : list EvidenceInput)
| rec_not_applied (evidence : list EvidenceInput).

(** What the executor looks at in a capability before calling it. *)
Record Capability := {
  cap_action : ReleaseAction;
  cap_executionClass : StepExecutionClass;
}.

Inductive call :=
| called_authorize (runId stepId : string) (granted : option bool)
| called_execute (i : StepIntent)
| called_reconcile (i : StepIntent).

(** One [await]: whether the process stops there (before the call is made, or
    after it), the commands of other callers that run before the promise settles,
    and its settlement for each method ([None] is a rejection). *)
Record Await := {
  aw_crash : option bool;
  aw_commands : list command;
  aw_authorize : option bool;
  aw_execute : option ReleaseStepObservation;
  aw_reconcile : option ReleaseReconciliation;
}.

Inductive ReleaseExecutionStop :=
| stop_succeeded | stop_failed | stop_blocked_missing_capability | stop_blocked_unauthorized
| stop_blocked_gate | stop_operation_in_progress | stop_outcome_unknown
| stop_reconciled_not_applied | stop_step_limit.

Record ReleaseExecutionResult := {
  ex_stop : ReleaseExecutionStop;
  ex_run : ReleaseRunSnapshot;
  ex_executed : nat;
  ex_reconciled : nat;
}.

Inductive xerror :=
| engine_error (e : exn)
| capability_rejected
| step_budget_invalid
| poll_bounds_invalid
| poll_cancelled
| wait_rejected
| process_stopped.

Record XS := { xs_engine : St; xs_awaited : nat; xs_calls : list call }.
Definition X := io XS xerror.

Definition with_engine (s : St) (x : XS) : XS :=
  {| xs_engine := s; xs_awaited := xs_awaited x; xs_calls := xs_calls x |}.

(** A synchronous call of an engine method. *)
Definition lift {A} (m : M A) : X A := λ x,
  match m (xs_engine x) with
  | (Ok a, s) => (Ok a, with_engine s x)
  | (Err e, s) => (Err (engine_error e), with_engine s x)
  end.

(** [try { m } catch { ... }]: [None] when [m] threw.  A stopped process
    catches nothing. *)
Definition try {A} (m : X A) : X (option A) := λ x,
  match m x with
  | (Ok a, x') => (Ok (Some a), x')
  | (Err process_stopped, x') => (Err process_stopped, x')
  | (Err _, x') => (Ok None, x')
  end.

Section executor.
Context {H : Host} (bps : list ReleaseWorkflowBlueprint).
Context (capabilities : ReleaseAction → option Capability).
Context (world : nat → Await).

Definition await {A} (c : Await → call) (reply : Await → option A) : X A := λ x,
  let w := world (xs_awaited x) in
  let after (made : bool) := {|
    xs_engine := if made then exec_all bps (aw_commands w) (xs_engine x) else xs_engine x;
    xs_awaited := S (xs_awaited x);
    xs_calls := if made then xs_calls x ++ [c w] else xs_calls x |} in
  match aw_crash w, reply w with
  | Some made, _ => (Err process_stopped, after made)
  | None, Some a => (Ok a, after true)
  | None, None => (Err capability_rejected, after true)
  end.

(** ** Helpers *)

Definition key (runId stepId : string) : string :=
  ("release-" +:+ sha256 (runId +:+ ":" +:+ stepId))%string.

(** [step.operationId!]: a step that has an operation carries its identifiers. *)
Definition snapshotIntent (run : ReleaseRunSnapshot) (step : ReleaseStepSnapshot) : StepIntent := {|
  in_runId := sn_runId run; in_stepId := ss_stepId step; in_action := ss_action step;
  in_operationId := default "null"%string (ss_operationId step);
  in_idempotencyKey := default "null"%string (ss_idempotencyKey step);
  in_attemptNumber := ss_attemptCount step; in_executionClass := ss_executionClass step |}.

Definition stop (status : ReleaseExecutionStop) (run : ReleaseRunSnapshot)
    (executed reconciled : nat) : ReleaseExecutionResult :=
  {| ex_stop := status; ex_run := run; ex_executed := executed; ex_reconciled := reconciled |}.

Definition binding (step : ReleaseStepSnapshot) : option Capability :=
  match capabilities (ss_action step) with
  | Some b => if bool_decide (cap_action b = ss_action step) &&
                 bool_decide (cap_executionClass b = ss_executionClass step)
              then Some b else None
  | None => None
  end.

Definition healthGateId (run : ReleaseRunSnapshot) (stepId : string) : X (option string) :=
  match getWorkflowBlueprint (sn_blueprintId run) (sn_blueprintVersion run) with
  | Err e => throw (engine_error e)
  | Ok blueprint =>
      let id := List.find (λ s, bool_decide (sd_id s = stepId)) (bp_steps blueprint) ≫= sd_healthGateId in
      mret match id with
           | Some g => if negb (bool_decide (g = ""%string)) &&
                          existsb (λ x, bool_decide (gs_gateId x = g)) (sn_gates run)
                       then Some g else None
           | None => None
           end
  end.

(** [null] is [None].  [healthGateId] is evaluated for the pending gates only. *)
Definition resolveMeasuredGate (run : ReleaseRunSnapshot) (stepId : string)
    (evidence : list EvidenceInput) (actorId : string) : X (option ReleaseRunSnapshot) :=
  let pending := List.filter (λ g, bool_decide (gs_status g = gate_pending)) (sn_gates run) in
  match pending with
  | [] => mret (Some run)
  | _ :: _ =>
      hid ← healthGateId run stepId;
      match List.find (λ g, bool_decide (Some (gs_gateId g) = hid)) pending with
      | None => mret (Some run)
      | Some gate =>
          if negb (forallb (λ kind, bool_decide (kind ∈ map ei_kind evidence))
                     (gs_requiredEvidenceKinds gate)) then mret None else
          r ← lift (resolveHealthGate (sn_runId run) (gs_gateId gate) {|
            rg_idempotencyKey := (key (sn_runId run) (gs_gateId gate) +:+ "-health")%string;
            rg_outcome := decision_passed; rg_evidence := evidence; rg_actorId := actorId |});
          mret (Some r)
      end
  end.

(** ** One iteration *)

(** The iteration ends the call with a result, or the loop goes on with the
    counters. *)
Definition progress := (ReleaseExecutionResult + (nat * nat))%type.

(** The branch of an operation in progress or with an unknown outcome. *)
Definition reconcilePending (runId actorId : string) (run : ReleaseRunSnapshot)
    (pendingOperation : ReleaseStepSnapshot) (executed reconciled : nat) : X progress :=
  match binding pendingOperation with
  | None => mret (inl (stop stop_blocked_missing_capability run executed reconciled))
  | Some b =>
      let original := snapshotIntent run pendingOperation in
      if bool_decide (ss_status pendingOperation = step_in_progress)
      then mret (inl (stop stop_operation_in_progress run executed reconciled)) else
      observation ← try (await (λ _, called_reconcile original) aw_reconcile);
      match observation with
      | None =>
          run ← lift (getRun runId);
          mret (inl (stop stop_outcome_unknown run executed reconciled))
      | Some rec_still_unknown =>
          run ← lift (getRun runId);
          mret (inl (stop stop_outcome_unknown run executed (S reconciled)))
      | Some (rec_not_applied evidence) =>
          run ← lift (reconcileOperation (in_operationId original) {|
            ri_idempotencyKey := (key runId (ss_stepId pendingOperation) +:+ "-reconciliation")%string;
            ri_outcome := not_applied; ri_evidence := Some evidence; ri_actorId := actorId |});
          mret (inl (stop stop_reconciled_not_applied run executed (S reconciled)))
      | Some (rec_applied evidence) =>
          run ← lift (reconcileOperation (in_operationId original) {|
            ri_idempotencyKey := (key runId (ss_stepId pendingOperation) +:+ "-reconciliation")%string;
            ri_outcome := applied; ri_evidence := Some evidence; ri_actorId := actorId |});
          gate ← resolveMeasuredGate run (ss_stepId pendingOperation) evidence actorId;
          mret match gate with
               | None => inl (stop stop_blocked_gate run executed (S reconciled))
               | Some _ => inr (executed, S reconciled)
               end
      end
  end.

(** After the intent was recorded: dispatch it and record what came of it. *)
Definition dispatch (runId actorId : string) (next : ReleaseStepSnapshot) (i : StepIntent)
    (executed reconciled : nat) : X progress :=
  result ← try (run ← lift (getRun runId); await (λ _, called_execute i) aw_execute);
  match result with
  | None | Some obs_outcome_unknown =>
      run ← lift (markOutcomeUnknown (in_operationId i) "EXECUTION_RESULT_UNVERIFIED" actorId);
      mret (inl (stop stop_outcome_unknown run executed reconciled))
  | Some (obs_failed evidence code) =>
      run ← lift (recordStepOutcome (in_operationId i) {|
        ro_outcome := outcome_failed; ro_outcomeCode := Some code;
        ro_evidence := Some evidence |} actorId);
      mret (inl (stop stop_failed run executed reconciled))
  | Some (obs_succeeded evidence) =>
      run ← lift (recordStepOutcome (in_operationId i) {|
        ro_outcome := outcome_succeeded; ro_outcomeCode := None;
        ro_evidence := Some evidence |} actorId);
      updated ← resolveMeasuredGate run (ss_stepId next) evidence actorId;
      mret match updated with
           | None => inl (stop stop_blocked_gate run executed reconciled)
           | Some _ => inr (executed, reconciled)
           end
  end.

(** The branch of the next pending step. *)
Definition executeNext (runId actorId : string) (run : ReleaseRunSnapshot)
    (next : ReleaseStepSnapshot) (executed reconciled : nat) : X progress :=
  match binding next with
  | None => mret (inl (stop stop_blocked_missing_capability run executed reconciled))
  | Some b =>
      granted ← await (λ w, called_authorize (sn_runId run) (ss_stepId next) (aw_authorize w)) aw_authorize;
      if negb granted
      then mret (inl (stop stop_blocked_unauthorized run executed reconciled)) else
      attempt ← lift (beginStepAttempt runId (ss_stepId next) (key runId (ss_stepId next)) actorId);
      match attempt with
      | already_completed _ _ _ => mret (inr (executed, reconciled))
      | intent i => dispatch runId actorId next i (S executed) reconciled
      end
  end.

Definition iteration (runId actorId : string) (executed reconciled : nat) : X progress :=
  run ← lift (getRun runId);
  match sn_status run with
  | run_succeeded => mret (inl (stop stop_succeeded run executed reconciled))
  | run_failed => mret (inl (stop stop_failed run executed reconciled))
  | _ =>
      match List.find (λ s, bool_decide (ss_status s = step_in_progress) ||
                            bool_decide (ss_status s = step_outcome_unknown)) (sn_steps run) with
      | Some pendingOperation =>
          reconcilePending runId actorId run pendingOperation executed reconciled
      | None =>
          match List.find (λ s, bool_decide (ss_status s = step_pending)) (sn_steps run) with
          | None => mret (inl (stop stop_blocked_gate run executed reconciled))
          | Some next => executeNext runId actorId run next executed reconciled
          end
      end
  end.

(** [for (let i = 0; i < maxSteps; i++)]; [n] iterations remain. *)
Fixpoint loop (n : nat) (runId actorId : string) (executed reconciled : nat) :
    X ReleaseExecutionResult :=
  match n with
  | 0 =>
      run ← lift (getRun runId);
      mret (stop stop_step_limit run executed reconciled)
  | S n =>
      p ← iteration runId actorId executed reconciled;
      match p with
      | inl result => mret result
      | inr (executed, reconciled) => loop n runId actorId executed reconciled
      end
  end.

Definition advance (runId actorId : string) (maxSteps : Z) : X ReleaseExecutionResult :=
  require ((1 <=? maxSteps) && (maxSteps <=? 32))%Z step_budget_invalid;;
  run ← lift (getRun runId);
  (if bool_decide (sn_status run = run_planned)
   then lift (startRun runId actorId);; mret tt else mret tt);;
  loop (Z.to_nat maxSteps) runId actorId 0 0.

(** ** Polling *)

Record ReleasePollingResult := {
  po_terminal : bool;
  po_polls : nat;
  po_latest : ReleaseExecutionResult;
}.

Definition retryable (st : ReleaseExecutionStop) : bool :=
  match st with stop_outcome_unknown | stop_operation_in_progress => true | _ => false end.

(** The polls from [attempt] to [maxPolls], [n] of them; [aborted] tells whether
    the signal is aborted when a poll starts.  During [wait] other callers run, and
    [None] is a wait that rejects. *)
Fixpoint poll_loop (n : nat) (aborted : nat → bool) (waiting : nat → option (list command))
    (attempt : nat) (runId actorId : string) (latest : option ReleaseExecutionResult) :
    X ReleasePollingResult :=
  match n with
  | 0 =>
      match latest with
      | Some r => mret {| po_terminal := false; po_polls := attempt - 1; po_latest := r |}
      | None => throw poll_bounds_invalid
      end
  | S n =>
      require (negb (aborted attempt)) poll_cancelled;;
      r ← advance runId actorId 24;
      if negb (retryable (ex_stop r))
      then mret {| po_terminal := true; po_polls := attempt; po_latest := r |} else
      (match n with
       | 0 => mret tt
       | S _ =>
           cmds ← require_some (waiting attempt) wait_rejected;
           modify (λ x, with_engine (exec_all bps cmds (xs_engine x)) x)
       end);;
      poll_loop n aborted waiting (S attempt) runId actorId (Some r)
  end.

Definition poll (runId actorId : string) (maxPolls intervalMs : Z)
    (aborted : nat → bool) (waiting : nat → option (list command)) : X ReleasePollingResult :=
  require ((1 <=? maxPolls) && (maxPolls <=? 120) &&
           (1000 <=? intervalMs) && (intervalMs <=? 30000))%Z poll_bounds_invalid;;
  poll_loop (Z.to_nat maxPolls) aborted waiting 1 runId actorId None.
End executor.
