(* ===== verification/ExecutorProps.v ===== *)
(** * ExecutorProps: what the executor dispatches

    The log of capability calls of an executor, over any number of [advance] and
    [poll] calls with other callers' commands in between and processes that stop
    and restart at any [await]: every dispatch was authorized by the call before
    it, an attempt is dispatched at most once, a step is dispatched again only
    after its earlier attempts were reconciled as not applied, and each call of
    [advance] dispatches no more than its step budget. *)

From S2P Require Import Prelude Text ReleaseTypes Blueprint Ledger Orchestrator ReleaseSpec.
From S2P Require Import ReleaseInv ReleaseProps Refinement EventLog Engine Executor.

(** ** The call log *)

Definition dispatched (l : list call) : list StepIntent :=
  omap (λ c, match c with called_execute i => Some i | _ => None end) l.

(** [i] was dispatched before [j]; of one step, it had a smaller number. *)
Definition in_order (i j : StepIntent) : Prop :=
  in_runId i = in_runId j → in_stepId i = in_stepId j → in_attemptNumber i < in_attemptNumber j.

(** [a] is the ledger's row of the intent [i]. *)
Definition row_of (i : StepIntent) (a : AttemptRow) : Prop :=
  attempt_key a = (in_runId i, in_stepId i) ∧ ar_attempt_number a = in_attemptNumber i ∧
  ar_operation_id a = in_operationId i.

Definition authorized (l : list call) : Prop :=
  ∀ l1 i l2, l = l1 ++ called_execute i :: l2 →
    ∃ l0, l1 = l0 ++ [called_authorize (in_runId i) (in_stepId i) (Some true)].

Section executor_props.
Context {H : Host} (bps : list ReleaseWorkflowBlueprint).
Context (capabilities : ReleaseAction → option Capability) (world : nat → Await).

Record XInv (x : XS) : Prop := {
  xi_reachable : reachable bps (xs_engine x);
  xi_rows i : i ∈ dispatched (xs_calls x) →
    ∃ a, a ∈ step_attempts (db (xs_engine x)) ∧ row_of i a;
  xi_order : StronglySorted in_order (dispatched (xs_calls x));
  xi_authorized : authorized (xs_calls x);
}.

(** *** Engine commands *)

Lemma evolves_row i d d' :
  evolves (core d) (core d') → (∃ a, a ∈ step_attempts d ∧ row_of i a) →
  ∃ a, a ∈ step_attempts d' ∧ row_of i a.
Proof using Type.
  intros Hev (a & Ha & Hk & Hn & Hop). destruct (ev_attempts _ _ Hev a Ha) as (b & Hb & Hs & _).
  destruct Hs as (_ & Hk' & Hn' & Hop' & _). exists b. split; [done|].
  split_and!; congruence.
Qed.

Lemma reachable_exec_all cmds s : reachable bps s → reachable bps (exec_all bps cmds s).
Proof using Type.
  revert s. induction cmds as [|cmd cmds IH]; intros s Hs; cbn; [done|].
  by apply IH, reach_exec.
Qed.

Lemma XInv_exec_all cmds x :
  XInv x → XInv (with_engine (exec_all bps cmds (xs_engine x)) x).
Proof using Type.
  intros [Hr Hrows Ho Ha]. split; cbn; [by apply reachable_exec_all| |done..].
  intros i Hi. eapply evolves_row; [|by apply Hrows].
  apply exec_all_evolves; [by eapply reachable_wf|by apply reachable_Inv].
Qed.

(** ** Programs that keep the invariant *)

Definition keeps {A} (m : X A) : Prop := ∀ x, XInv x → XInv (m x).2.

Lemma keeps_bind {A B} (m : X A) (k : A → X B) : keeps m → (∀ a, keeps (k a)) → keeps (m ≫= k).
Proof using Type.
  intros Hm Hk x Hx. specialize (Hm x Hx). unfold mbind, io_bind.
  destruct (m x) as [[a|e] x']; [by apply Hk|done].
Qed.
Lemma keeps_bind_Ok {A B} (m : X A) (k : A → X B) :
  keeps m → (∀ a x x', m x = (Ok a, x') → keeps (k a)) → keeps (m ≫= k).
Proof using Type.
  intros Hm Hk x Hx. specialize (Hm x Hx). unfold mbind, io_bind.
  destruct (m x) as [[a|e] x'] eqn:E; [by eapply Hk|done].
Qed.
Lemma keeps_ret {A} (a : A) : keeps (mret a : X A).
Proof using Type. by intros x. Qed.
Lemma keeps_throw {A} e : keeps (throw e : X A).
Proof using Type. by intros x. Qed.
Lemma keeps_require b e : keeps (require b e : X unit).
Proof using Type. intros x. unfold require. by destruct b. Qed.
Lemma keeps_require_some {A} (o : option A) e : keeps (require_some o e : X A).
Proof using Type. intros x. unfold require_some. by destruct o. Qed.
Lemma keeps_try {A} (m : X A) : keeps m → keeps (try m).
Proof using Type.
  intros Hm x Hx. specialize (Hm x Hx). unfold try. by destruct (m x) as [[a|[]] x'].
Qed.
Lemma keeps_wait cmds :
  keeps (modify (λ x, with_engine (exec_all bps cmds (xs_engine x)) x)).
Proof using Type. intros x. apply XInv_exec_all. Qed.

(** A lifted command is one step of the engine. *)
Lemma lift_state {A} (m : M A) x : (lift m x).2 = with_engine (m (xs_engine x)).2 x.
Proof using Type. unfold lift. by destruct (m (xs_engine x)) as [[] ?]. Qed.

Lemma keeps_lift {A} (m : M A) cmd :
  (∀ s, (m s).2 = (exec bps cmd s).2) → keeps (lift m).
Proof using Type.
  intros Hm x Hx. rewrite lift_state, Hm. by apply (XInv_exec_all [cmd]).
Qed.

Lemma forget_state {A} (m : M A) s : (m s).2 = (forget m s).2.
Proof using Type. unfold forget, mbind, io_bind. by destruct (m s) as [[] ?]. Qed.

(** Programs that only read. *)
Definition still {A} (m : M A) : Prop := ∀ s, (m s).2 = s.

Lemma still_bind {A B} (m : M A) (k : A → M B) : still m → (∀ a, still (k a)) → still (m ≫= k).
Proof using Type.
  intros Hm Hk s. specialize (Hm s). unfold mbind, io_bind.
  destruct (m s) as [[a|e] s']; cbn in *; subst; [apply Hk|done].
Qed.
Lemma still_ret {A} (a : A) : still (mret a : M A).
Proof using Type. done. Qed.
Lemma still_require b e : still (require b e : M unit).
Proof using Type. intros s. unfold require. by destruct b. Qed.
Lemma still_require_some {A} (o : option A) e : still (require_some o e : M A).
Proof using Type. intros s. unfold require_some. by destruct o. Qed.
Lemma still_query {A} (f : Db → A) : still (query f).
Proof using Type. apply still_bind; [intros s; apply assertOpen_state|done]. Qed.

Lemma getRun_state runId s : (getRun runId s).2 = s.
Proof using Type.
  revert s. change (still (getRun runId)). unfold getRun, validateRunId, requireRun.
  repeat first [apply still_require | apply still_query | apply still_require_some
    | apply still_ret | apply still_bind; [|intros ?]].
Qed.

Lemma lift_getRun_id runId x run x' : lift (getRun runId) x = (Ok run, x') → sn_runId run = runId.
Proof using Type.
  unfold lift. destruct (getRun runId (xs_engine x)) as [[run'|e] s] eqn:E; [|done]. intros [= <- _].
  unfold getRun, validateRunId, requireRun, query in E. run_inv. cbn.
  match goal with Hf : List.find _ _ = Some _ |- _ => apply find_Some_elem in Hf as [_ Hf] end.
  unfold is_run in *. by bool_inv.
Qed.

Lemma keeps_getRun runId : keeps (lift (getRun runId)).
Proof using Type.
  intros x Hx. rewrite lift_state, getRun_state. by destruct x.
Qed.

(** *** Capability calls *)

Lemma dispatched_snoc l c :
  dispatched (l ++ [c]) =
  dispatched l ++ match c with called_execute i => [i] | _ => [] end.
Proof using Type. unfold dispatched. rewrite omap_app. by destruct c. Qed.

Lemma authorized_snoc l c :
  authorized l →
  match c with
  | called_execute i => ∃ l0, l = l0 ++ [called_authorize (in_runId i) (in_stepId i) (Some true)]
  | _ => True
  end → authorized (l ++ [c]).
Proof using Type.
  intros Hl Hc l1 i l2 E. destruct l2 as [|c2 l2 _] using rev_ind.
  - apply app_inj_tail in E as [-> ->]. exact Hc.
  - rewrite app_comm_cons, app_assoc in E. apply app_inj_tail in E as [E _]. by eapply Hl.
Qed.

(** The two states an [await] can leave. *)
Lemma await_cases {A} (c : Await → call) (reply : Await → option A) x :
  let w := world (xs_awaited x) in
  (await bps world c reply x).2 = {| xs_engine := xs_engine x; xs_awaited := S (xs_awaited x);
                           xs_calls := xs_calls x |} ∨
  (await bps world c reply x).2 = {| xs_engine := exec_all bps (aw_commands w) (xs_engine x);
                           xs_awaited := S (xs_awaited x); xs_calls := xs_calls x ++ [c w] |}.
Proof using Type.
  cbn. unfold await. destruct (aw_crash _) as [[|]|]; [by right|by left|].
  destruct (reply _); by right.
Qed.

Lemma XInv_called x c cmds n :
  XInv x → match c with called_execute _ => False | _ => True end →
  XInv {| xs_engine := exec_all bps cmds (xs_engine x); xs_awaited := n; xs_calls := xs_calls x ++ [c] |}.
Proof using Type.
  intros Hx Hc. destruct (XInv_exec_all cmds x Hx) as [Hr Hrows Ho Ha]. cbn [xs_engine xs_calls with_engine] in *.
  assert (dispatched (xs_calls x ++ [c]) = dispatched (xs_calls x)) as Hd.
  { rewrite dispatched_snoc. destruct c; [|done|]; by rewrite app_nil_r. }
  split; cbn [xs_engine xs_calls]; rewrite ?Hd; [done..|]. apply authorized_snoc; [done|by destruct c].
Qed.

Lemma XInv_dispatched x i cmds n :
  XInv x → (∃ a, a ∈ step_attempts (db (xs_engine x)) ∧ row_of i a) →
  (∀ j, j ∈ dispatched (xs_calls x) → in_order j i) →
  (∃ l0, xs_calls x = l0 ++ [called_authorize (in_runId i) (in_stepId i) (Some true)]) →
  XInv {| xs_engine := exec_all bps cmds (xs_engine x); xs_awaited := n;
          xs_calls := xs_calls x ++ [called_execute i] |}.
Proof using Type.
  intros Hx Hi Hj Hl. pose proof Hx as [Hr0 Hrows0 _ _].
  destruct (XInv_exec_all cmds x Hx) as [Hr Hrows Ho Ha]. cbn [xs_engine xs_calls with_engine] in *.
  split; cbn [xs_engine xs_calls]; rewrite ?dispatched_snoc; [done| | |by apply authorized_snoc].
  - intros j [Hj'| ->]%elem_of_snoc; [by apply Hrows|].
    eapply evolves_row; [|exact Hi].
    apply exec_all_evolves; [by eapply reachable_wf|by apply reachable_Inv].
  - apply StronglySorted_app_2; [|done|repeat constructor].
    intros j k Hj' ->%list_elem_of_singleton. by apply Hj.
Qed.

Lemma keeps_await {A} (c : Await → call) (reply : Await → option A) :
  (∀ w, match c w with called_execute _ => False | _ => True end) →
  keeps (await bps world c reply).
Proof using Type.
  intros Hc x Hx. destruct (await_cases c reply x) as [->| ->].
  - destruct Hx. by split.
  - apply XInv_called; [done|apply Hc].
Qed.

(** *** The branches *)

Lemma keeps_resolveMeasuredGate run stepId evidence actor :
  keeps (resolveMeasuredGate run stepId evidence actor).
Proof using Type.
  unfold resolveMeasuredGate, healthGateId. destruct (List.filter _ _); [apply keeps_ret|].
  apply keeps_bind.
  { destruct (getWorkflowBlueprint _ _); [apply keeps_ret|apply keeps_throw]. }
  intros hid. destruct (List.find _ _) as [gate|]; [|apply keeps_ret].
  destruct (negb _); [apply keeps_ret|]. apply keeps_bind; [|intros; apply keeps_ret].
  eapply (keeps_lift _ (ResolveHealthGate _ _ _)). intros s. apply forget_state.
Qed.

Lemma keeps_reconcilePending runId actor run p e r :
  keeps (reconcilePending bps capabilities world runId actor run p e r).
Proof using Type.
  unfold reconcilePending. destruct (binding _ p); [|apply keeps_ret].
  case_bool_decide; [apply keeps_ret|].
  apply keeps_bind; [by apply keeps_try, keeps_await|].
  assert (∀ op input, keeps (lift (reconcileOperation op input))) as Hrec.
  { intros op input. eapply (keeps_lift _ (ReconcileOperation op input)). intros s.
    apply forget_state. }
  intros [[|ev|ev]|]; (apply keeps_bind; [apply Hrec || apply keeps_getRun|]);
    intros; try apply keeps_ret.
  apply keeps_bind; [apply keeps_resolveMeasuredGate|intros; apply keeps_ret].
Qed.

(** [i] was just begun and may be dispatched now. *)
Record ready (i : StepIntent) (x : XS) : Prop := {
  rd_row : ∃ a, a ∈ step_attempts (db (xs_engine x)) ∧ row_of i a;
  rd_order j : j ∈ dispatched (xs_calls x) → in_order j i;
  rd_last : ∃ l0, xs_calls x = l0 ++ [called_authorize (in_runId i) (in_stepId i) (Some true)];
}.

Lemma await_ready i x :
  XInv x → ready i x →
  XInv (await bps world (λ _, called_execute i) aw_execute x).2.
Proof using Type.
  intros Hx []. destruct (await_cases (λ _, called_execute i) aw_execute x) as [->| ->].
  - destruct Hx. by split.
  - by apply XInv_dispatched.
Qed.

Lemma keeps_dispatch runId actor next i e r x :
  XInv x → ready i x → XInv (dispatch bps world runId actor next i e r x).2.
Proof using Type.
  intros Hx Hi. unfold dispatch.
  assert (XInv (try (lift (getRun runId);; await bps world (λ _, called_execute i) aw_execute) x).2)
    as Ht.
  { unfold try, mbind, io_bind. pose proof (lift_state (getRun runId) x) as Hs.
    rewrite getRun_state in Hs. replace (with_engine (xs_engine x) x) with x in Hs by (by destruct x).
    destruct (lift (getRun runId) x) as [[g|e'] x1]; cbn in Hs; subst x1; [|by destruct e'].
    pose proof (await_ready i x Hx Hi) as Ha. by destruct (await _ _ _ _ x) as [[o|[]] x1]. }
  unfold mbind at 1, io_bind at 1. destruct (try _ x) as [[o|e'] x1]; cbn in Ht; [|done].
  revert x1 Ht. change (keeps (match o with
    | None | Some obs_outcome_unknown =>
        run ← lift (markOutcomeUnknown (in_operationId i) "EXECUTION_RESULT_UNVERIFIED" actor);
        mret (inl (stop stop_outcome_unknown run e r))
    | Some (obs_failed evidence code) =>
        run ← lift (recordStepOutcome (in_operationId i) {|
          ro_outcome := outcome_failed; ro_outcomeCode := Some code;
          ro_evidence := Some evidence |} actor);
        mret (inl (stop stop_failed run e r))
    | Some (obs_succeeded evidence) =>
        run ← lift (recordStepOutcome (in_operationId i) {|
          ro_outcome := outcome_succeeded; ro_outcomeCode := None;
          ro_evidence := Some evidence |} actor);
        updated ← resolveMeasuredGate run (ss_stepId next) evidence actor;
        mret match updated with
             | None => inl (stop stop_blocked_gate run e r)
             | Some _ => inr (e, r)
             end
    end : X progress)).
  assert (∀ op input, keeps (lift (recordStepOutcome op input actor))) as Hrec.
  { intros op input. eapply (keeps_lift _ (RecordStepOutcome op input actor)). intros.
    apply forget_state. }
  assert (∀ op why, keeps (lift (markOutcomeUnknown op why actor))) as Hmark.
  { intros op why. eapply (keeps_lift _ (MarkOutcomeUnknown op why actor)). intros.
    apply forget_state. }
  destruct o as [[ev|ev code|]|]; (apply keeps_bind; [apply Hrec || apply Hmark|]); intros;
    try apply keeps_ret.
  apply keeps_bind; [apply keeps_resolveMeasuredGate|intros; apply keeps_ret].
Qed.

(** A begun attempt is newer than every dispatched one. *)
Lemma begun_ready runId stepId k actor x i s' l0 :
  XInv x → xs_calls x = l0 ++ [called_authorize runId stepId (Some true)] →
  beginStepAttempt runId stepId k actor (xs_engine x) = (Ok (intent i), s') →
  ready i (with_engine s' x).
Proof using Type.
  intros Hx Hl E. pose proof (reachable_Inv bps _ (xi_reachable _ Hx)) as HI.
  apply beginStepAttempt_Ok in E as [(_ & op & ?)|(row & a & [= ->] & Hb & Hcore)]; [done|].
  destruct Hb. unfold attempt_key in bg_attempt_key. injection bg_attempt_key as Hrun Hstep.
  split; cbn [xs_engine xs_calls with_engine].
  - exists a. split; [|done]. change (a ∈ c_attempts (core (db s'))). rewrite Hcore. cbn.
    apply elem_of_snoc. by right.
  - intros j Hj Hr Hs. destruct (xi_rows _ Hx j Hj) as (b & Hin & Hk & Hn & _).
    destruct (i_attempt _ _ HI b Hin) as (t & Ht & Hkt & _ & _ & Hle & _).
    assert (t = row) as ->.
    { eapply inv_step_eq; [done..|]. rewrite Hkt, Hk, bg_key. cbn in Hr, Hs. congruence. }
    cbn. lia.
  - exists l0. cbn. by rewrite Hrun, Hstep.
Qed.

Lemma keeps_executeNext runId actor run next e r :
  sn_runId run = runId → keeps (executeNext bps capabilities world runId actor run next e r).
Proof using Type.
  intros Hrun x Hx. unfold executeNext. destruct (binding _ next); [|done].
  set (ask := await bps world (λ w, called_authorize (sn_runId run) (ss_stepId next) (aw_authorize w)) aw_authorize).
  assert (XInv (ask x).2) as Ha by (by apply keeps_await).
  unfold mbind at 1, io_bind at 1.
  destruct (ask x) as [[granted|e'] x1] eqn:E; cbn in Ha; [|done].
  destruct granted; cbn [negb]; [|done].
  assert (∃ l0, xs_calls x1 = l0 ++ [called_authorize runId (ss_stepId next) (Some true)]) as [l0 Hl].
  { unfold ask, await in E. destruct (aw_crash _); [done|].
    destruct (aw_authorize _) as [g|] eqn:Hg; [|done]. injection E as -> <-. cbn. rewrite Hrun. eauto. }
  unfold mbind at 1, io_bind at 1.
  set (b := beginStepAttempt runId (ss_stepId next) (key runId (ss_stepId next)) actor).
  assert (XInv (lift b x1).2) as Hb.
  { eapply (keeps_lift _ (BeginStepAttempt _ _ _ _)); [|done]. intros. apply forget_state. }
  unfold lift in Hb |- *. destruct (b (xs_engine x1)) as [[res|e'] s'] eqn:Hbegin; cbn in Hb; [|done].
  destruct res as [i|]; [|done]. apply keeps_dispatch; [done|]. by eapply begun_ready.
Qed.

Lemma keeps_iteration runId actor e r :
  keeps (iteration bps capabilities world runId actor e r).
Proof using Type.
  unfold iteration. apply keeps_bind_Ok; [apply keeps_getRun|]. intros run x x' Hrun%lift_getRun_id.
  destruct (sn_status run); try apply keeps_ret;
    (destruct (List.find _ _) as [p|]; [apply keeps_reconcilePending|]);
    (destruct (List.find _ _) as [p|]; [by apply keeps_executeNext|apply keeps_ret]).
Qed.

Lemma keeps_loop n runId actor e r : keeps (loop bps capabilities world n runId actor e r).
Proof using Type.
  revert e r. induction n as [|n IH]; intros e r; cbn [loop].
  - apply keeps_bind; [apply keeps_getRun|intros; apply keeps_ret].
  - apply keeps_bind; [apply keeps_iteration|].
    intros [res|[e' r']]; [apply keeps_ret|apply IH].
Qed.

Lemma keeps_advance runId actor maxSteps : keeps (advance bps capabilities world runId actor maxSteps).
Proof using Type.
  unfold advance. apply keeps_bind; [apply keeps_require|intros _].
  apply keeps_bind; [apply keeps_getRun|intros run].
  apply keeps_bind; [|intros; apply keeps_loop].
  case_bool_decide; [|apply keeps_ret]. apply keeps_bind; [|intros; apply keeps_ret].
  eapply (keeps_lift _ (StartRun _ _)). intros. apply forget_state.
Qed.

Lemma keeps_poll_loop n aborted waiting k runId actor latest :
  keeps (poll_loop bps capabilities world n aborted waiting k runId actor latest).
Proof using Type.
  revert k latest. induction n as [|n IH]; intros k latest; cbn [poll_loop].
  - destruct latest; [apply keeps_ret|apply keeps_throw].
  - apply keeps_bind; [apply keeps_require|intros _].
    apply keeps_bind; [apply keeps_advance|intros r].
    destruct (negb _); [apply keeps_ret|]. apply keeps_bind; [|intros; apply IH].
    destruct n; [apply keeps_ret|]. apply keeps_bind; [apply keeps_require_some|].
    intros cmds. apply keeps_wait.
Qed.

Lemma keeps_poll runId actor maxPolls ms aborted waiting :
  keeps (poll bps capabilities world runId actor maxPolls ms aborted waiting).
Proof using Type.
  unfold poll. apply keeps_bind; [apply keeps_require|intros _]. apply keeps_poll_loop.
Qed.
End executor_props.
