(* ===== verification/ExecutorTheorems.v ===== *)
(** * ExecutorTheorems: bounds, results and the guarantees of the executor *)

From S2P Require Import Prelude Text ReleaseTypes Blueprint Ledger Orchestrator ReleaseSpec.
From S2P Require Import ReleaseInv ReleaseProps Refinement Engine ReleaseScenario Executor.
From S2P Require Import ExecutorProps.

(** ** Step budgets *)

Section budget.
Context {H : Host} (bps : list ReleaseWorkflowBlueprint).
Context (capabilities : ReleaseAction → option Capability) (world : nat → Await).

Definition dispatches (x : XS) : nat := length (dispatched (xs_calls x)).

(** [m] dispatches at most [n] steps, whatever happens. *)
Definition spends {A} (n : nat) (m : X A) : Prop :=
  ∀ x, dispatches (m x).2 ≤ dispatches x + n.

Lemma spends_bind {A B} n1 n2 (m : X A) (k : A → X B) :
  spends n1 m → (∀ a, spends n2 (k a)) → spends (n1 + n2) (m ≫= k).
Proof.
  intros Hm Hk x. specialize (Hm x). unfold mbind, io_bind.
  destruct (m x) as [[a|e] x1]; cbn in *; [specialize (Hk a x1)|]; lia.
Qed.
Lemma spends_bind0 {A B} n (m : X A) (k : A → X B) :
  spends 0 m → (∀ a, spends n (k a)) → spends n (m ≫= k).
Proof. apply (spends_bind 0 n). Qed.
Lemma spends_le {A} n n' (m : X A) : n ≤ n' → spends n m → spends n' m.
Proof. intros Hn Hm x. specialize (Hm x). lia. Qed.
Lemma spends_ret {A} n (a : A) : spends n (mret a : X A).
Proof. intros x. cbn. lia. Qed.
Lemma spends_throw {A} n e : spends n (throw e : X A).
Proof. intros x. cbn. lia. Qed.
Lemma spends_require n b e : spends n (require b e : X unit).
Proof. intros x. unfold require. destruct b; cbn; lia. Qed.
Lemma spends_require_some {A} n (o : option A) e : spends n (require_some o e : X A).
Proof. intros x. unfold require_some. destruct o; cbn; lia. Qed.
Lemma spends_lift {A} n (m : M A) : spends n (lift m).
Proof. intros x. rewrite lift_state. unfold dispatches. cbn [xs_calls with_engine]. lia. Qed.
Lemma spends_wait n cmds :
  spends n (modify (λ x, with_engine (exec_all bps cmds (xs_engine x)) x)).
Proof. intros x. unfold dispatches, modify. cbn [fst snd xs_calls with_engine]. lia. Qed.
Lemma spends_try {A} n (m : X A) : spends n m → spends n (try m).
Proof. intros Hm x. specialize (Hm x). unfold try. by destruct (m x) as [[a|[]] x1]. Qed.

Lemma spends_await {A} n (c : Await → call) (reply : Await → option A) :
  (∀ w, match c w with called_execute _ => 1 | _ => 0 end ≤ n) → spends n (await bps world c reply).
Proof.
  intros Hc x. destruct (await_cases bps world c reply x) as [->| ->]; unfold dispatches; cbn [xs_calls].
  - lia.
  - rewrite dispatched_snoc, length_app. specialize (Hc (world (xs_awaited x))).
    destruct (c _); cbn in *; lia.
Qed.
End budget.

Create HintDb spends discriminated.
#[export] Hint Resolve spends_bind0 spends_ret spends_throw spends_require spends_require_some
  spends_lift spends_wait spends_try : spends.

Section budget.
Context {H : Host} (bps : list ReleaseWorkflowBlueprint).
Context (capabilities : ReleaseAction → option Capability) (world : nat → Await).

Lemma spends_resolveMeasuredGate n run stepId ev actor :
  spends n (resolveMeasuredGate run stepId ev actor).
Proof.
  unfold resolveMeasuredGate, healthGateId. destruct (List.filter _ _); [auto with spends|].
  apply spends_bind0; [destruct (getWorkflowBlueprint _ _); auto with spends|].
  intros hid. destruct (List.find _ _); [|auto with spends].
  destruct (negb _); auto with spends.
Qed.
Hint Resolve spends_resolveMeasuredGate : spends.

Lemma spends_reconcilePending runId actor run p e r :
  spends 0 (reconcilePending bps capabilities world runId actor run p e r).
Proof.
  unfold reconcilePending. destruct (binding _ p); [|auto with spends].
  case_bool_decide; [auto with spends|].
  apply spends_bind0; [by apply spends_try, spends_await|].
  intros [[|ev|ev]|]; auto with spends.
Qed.

Lemma spends_executeNext runId actor run next e r :
  spends 1 (executeNext bps capabilities world runId actor run next e r).
Proof.
  unfold executeNext. destruct (binding _ next); [|auto with spends].
  apply spends_bind0; [by apply spends_await|]. intros granted.
  destruct (negb granted); [auto with spends|]. apply spends_bind0; [auto with spends|].
  intros [i|]; [|auto with spends]. unfold dispatch. apply (spends_bind 1 0).
  - apply spends_try, spends_bind0; [auto with spends|]. intros. by apply spends_await.
  - intros [[ev|ev code|]|]; auto with spends.
Qed.

Lemma spends_iteration runId actor e r :
  spends 1 (iteration bps capabilities world runId actor e r).
Proof.
  unfold iteration. apply spends_bind0; [auto with spends|]. intros run.
  destruct (sn_status run); try apply spends_ret;
    (destruct (List.find _ _) as [p|];
     [eapply (spends_le 0); [lia|apply spends_reconcilePending]|]);
    (destruct (List.find _ _) as [p|]; [apply spends_executeNext|apply spends_ret]).
Qed.

Lemma spends_loop n runId actor e r : spends n (loop bps capabilities world n runId actor e r).
Proof.
  revert e r. induction n as [|n IH]; intros e r; cbn [loop]; [auto with spends|].
  apply (spends_bind 1 n); [apply spends_iteration|]. intros [res|[e' r']]; auto with spends.
Qed.

Lemma spends_advance runId actor maxSteps :
  spends (Z.to_nat maxSteps) (advance bps capabilities world runId actor maxSteps).
Proof.
  unfold advance. apply spends_bind0; [auto with spends|intros _].
  apply spends_bind0; [auto with spends|intros run].
  apply spends_bind0; [case_bool_decide; auto with spends|]. intros. apply spends_loop.
Qed.

Lemma spends_poll_loop n aborted waiting k runId actor latest :
  spends (n * 24) (poll_loop bps capabilities world n aborted waiting k runId actor latest).
Proof.
  revert k latest. induction n as [|n IH]; intros k latest; cbn [poll_loop].
  - destruct latest; auto with spends.
  - apply spends_bind0; [auto with spends|intros _].
    change (S n * 24) with (24 + n * 24). apply spends_bind; [apply (spends_advance _ _ 24)|].
    intros r. destruct (negb _); [auto with spends|]. apply spends_bind0; [|intros; apply IH].
    destruct n; [auto with spends|]. apply spends_bind0; auto with spends.
Qed.

(** *** The counters returned *)

(** The counters of [p] are at most [n]. *)
Definition within (n : nat) (p : progress) : Prop :=
  match p with
  | inl res => ex_executed res + ex_reconciled res ≤ n
  | inr (e, r) => e + r ≤ n
  end.

Lemma reconcilePending_within runId actor run p e r x q x' :
  reconcilePending bps capabilities world runId actor run p e r x = (Ok q, x') →
  within (e + r + 1) q.
Proof.
  unfold reconcilePending. intros E. destruct (binding _ p); [|run_inv; cbn; lia].
  destruct (bool_decide _); [run_inv; cbn; lia|]. run_inv.
  match goal with o : option ReleaseReconciliation |- _ => destruct o as [[|ev|ev]|] end;
    run_inv; try (cbn; lia).
  match goal with o : option ReleaseRunSnapshot |- _ => destruct o end; cbn; lia.
Qed.

Lemma executeNext_within runId actor run next e r x q x' :
  executeNext bps capabilities world runId actor run next e r x = (Ok q, x') →
  within (e + r + 1) q.
Proof.
  unfold executeNext, dispatch. intros E. destruct (binding _ next); [|run_inv; cbn; lia].
  run_inv. destruct (negb _); run_inv; [cbn; lia|].
  match goal with b : BeginStepResult |- _ => destruct b end; run_inv; [|cbn; lia].
  match goal with o : option ReleaseStepObservation |- _ => destruct o as [[ev|ev code|]|] end;
    run_inv; try (cbn; lia).
  match goal with o : option ReleaseRunSnapshot |- _ => destruct o end; cbn; lia.
Qed.

Lemma iteration_within runId actor e r x q x' :
  iteration bps capabilities world runId actor e r x = (Ok q, x') → within (e + r + 1) q.
Proof.
  unfold iteration. intros E. run_inv.
  destruct (sn_status _); run_inv; try (cbn; lia);
    (destruct (List.find _ _); [by eapply reconcilePending_within|]);
    (destruct (List.find _ _); [by eapply executeNext_within|run_inv; cbn; lia]).
Qed.

Lemma loop_within n runId actor e r x res x' :
  loop bps capabilities world n runId actor e r x = (Ok res, x') →
  ex_executed res + ex_reconciled res ≤ e + r + n.
Proof.
  revert e r x. induction n as [|n IH]; intros e r x E; cbn [loop] in E; run_inv; [cbn; lia|].
  match goal with Hi : iteration _ _ _ _ _ _ _ _ = _ |- _ => apply iteration_within in Hi end.
  match goal with p : (ReleaseExecutionResult + _)%type |- _ => destruct p as [res'|[e' r']] end;
    run_inv; cbn in *; [lia|].
  apply IH in E. lia.
Qed.
End budget.

(** ** Executor lifetimes *)

Section lifetimes.
Context {H : Host} (bps : list ReleaseWorkflowBlueprint).
Context (capabilities : ReleaseAction → option Capability) (world : nat → Await).

(** The states of an executor: created on a reachable engine, after any
    [advance] or [poll] (ended by a result, an error or the process stopping),
    while other callers use the engine, and after a restart on the same ledger. *)
Inductive lifetime : XS → Prop :=
| life_new s n : reachable bps s →
    lifetime {| xs_engine := s; xs_awaited := n; xs_calls := [] |}
| life_advance x runId actor maxSteps : lifetime x →
    lifetime (advance bps capabilities world runId actor maxSteps x).2
| life_poll x runId actor maxPolls ms aborted waiting : lifetime x →
    lifetime (poll bps capabilities world runId actor maxPolls ms aborted waiting x).2
| life_others x cmds : lifetime x → lifetime (with_engine (exec_all bps cmds (xs_engine x)) x)
| life_restart x s0 s : lifetime x → db s0 = db (xs_engine x) →
    new_ReleaseOrchestrator bps s0 = (Ok tt, s) → lifetime (with_engine s x).


Lemma lifetime_XInv x : lifetime x → XInv bps x.
Proof using Type.
  induction 1 as [s n Hs|x runId actor m _ IH|x runId actor m ms ab wa _ IH|x cmds _ IH
    |x s0 s Hx IH Hd E].
  - split; cbn; [done|by intros ? ?%not_elem_of_nil|constructor|]. by intros [] ? ? ?.
  - by apply keeps_advance.
  - by apply keeps_poll.
  - by apply XInv_exec_all.
  - destruct IH as [Hr Hrows Ho Ha]. split; cbn; [by eapply reach_restart| |done..].
    intros i Hi. apply construct_Ok in E as (Hcore & _).
    change (step_attempts (db s)) with (c_attempts (core (db s))).
    rewrite Hcore, Hd. by apply Hrows.
Qed.

(** C8: No blind retry.  If an executor whose [advance] and [poll] calls follow
    one another, with commands of other callers at every [await], dispatched a step
    twice, at whatever time and across restarts, the later dispatch has a larger
    attempt number and the ledger shows the earlier attempt reconciled as not applied:
    a persisted intent is never dispatched again on an unknown outcome. *)
Theorem redispatch_only_after_not_applied x l1 i l2 j l3 :
  lifetime x → dispatched (xs_calls x) = l1 ++ i :: l2 ++ j :: l3 →
  in_runId i = in_runId j → in_stepId i = in_stepId j →
  in_attemptNumber i < in_attemptNumber j ∧
  ∃ a, a ∈ step_attempts (db (xs_engine x)) ∧ row_of i a ∧
    ar_status a = attempt_resolved_not_applied.
Proof using Type.
  intros Hx E Hr Hs. pose proof (lifetime_XInv x Hx) as [Hre Hrows Ho _].
  pose proof (reachable_Inv bps _ Hre) as HI.
  assert (in_attemptNumber i < in_attemptNumber j) as Hlt.
  { rewrite E in Ho. apply StronglySorted_app_1_r, StronglySorted_inv in Ho as [_ Hi].
    rewrite Forall_forall in Hi. apply Hi; [|done..]. apply elem_of_app. right. left. }
  split; [done|].
  destruct (Hrows i) as (a & Ha & Hrow); [rewrite E; apply elem_of_app; right; left|].
  destruct (Hrows j) as (b & Hb & Hrow').
  { rewrite E. apply elem_of_app; right. right. apply elem_of_app; right; left. }
  exists a. split_and!; [done..|]. destruct Hrow as (Hk & Hn & _), Hrow' as (Hk' & Hn' & _).
  destruct (i_attempt _ _ HI a Ha) as (t & Ht & Hkt & _ & _ & _ & Hold & _).
  destruct (i_attempt _ _ HI b Hb) as (u & Hu & Hku & _ & _ & Hle & _).
  assert (u = t) as -> by (eapply inv_step_eq; [done..|congruence]).
  apply Hold. lia.
Qed.

(** C9: Every dispatch is authorized.  In the call log of an executor whose
    [advance] and [poll] calls follow one another, with commands of other callers at
    every [await] and processes that stop and restart, the call before every dispatch
    is an authorization of the same step of the same run that was granted. *)
Theorem every_dispatch_authorized x l1 i l2 :
  lifetime x → xs_calls x = l1 ++ called_execute i :: l2 →
  ∃ l0, l1 = l0 ++ [called_authorize (in_runId i) (in_stepId i) (Some true)].
Proof using Type. intros Hx. apply (xi_authorized _ _ (lifetime_XInv x Hx)). Qed.
End lifetimes.

Section bounds.
Context {H : Host} (bps : list ReleaseWorkflowBlueprint).
Context (capabilities : ReleaseAction → option Capability) (world : nat → Await).

(** Step budget.  Whatever the capabilities and other callers do, one
    [advance] dispatches at most [maxSteps] steps and 32 at most, and the
    counters it returns add up to no more than [maxSteps]. *)
Theorem advance_within_budget runId actor maxSteps x :
  dispatches (advance bps capabilities world runId actor maxSteps x).2
    ≤ dispatches x + Z.to_nat (Z.min maxSteps 32) ∧
  ∀ res x', advance bps capabilities world runId actor maxSteps x = (Ok res, x') →
    ex_executed res + ex_reconciled res ≤ Z.to_nat maxSteps.
Proof.
  split.
  - destruct (decide (maxSteps <= 32)%Z) as [Hle|Hgt].
    + rewrite Z.min_l by done. apply spends_advance.
    + unfold advance, mbind, io_bind, require. replace (_ && _) with false by lia. cbn -[dispatches].
      lia.
  - intros res x' E. unfold advance in E. run_inv.
    match goal with Hl : loop _ _ _ _ _ _ _ _ _ = _ |- _ => apply loop_within in Hl end. done.
Qed.

(** Poll budget.  One [poll] advances the run at most [maxPolls] times,
    so it dispatches at most 24 steps per poll and 2880 in all. *)
Theorem poll_within_budget runId actor maxPolls ms aborted waiting x :
  dispatches (poll bps capabilities world runId actor maxPolls ms aborted waiting x).2
    ≤ dispatches x + Z.to_nat (Z.min maxPolls 120) * 24.
Proof.
  unfold poll. destruct (decide (maxPolls <= 120)%Z) as [Hle|Hgt].
  - rewrite Z.min_l by done.
    apply (spends_bind0 (Z.to_nat maxPolls * 24)); [apply spends_require|].
    intros _. apply spends_poll_loop.
  - unfold mbind, io_bind, require. replace (_ && _ && _ && _) with false by lia.
    cbn -[dispatches]. lia.
Qed.
End bounds.

(** ** A second reconciliation *)

Definition all_capabilities (a : ReleaseAction) : option Capability :=
  List.find (λ c, bool_decide (cap_action c = a))
    (map (λ s, {| cap_action := sd_action s; cap_executionClass := sd_executionClass s |})
       (bp_steps two_step)).

Definition await_of (e : option ReleaseStepObservation) (r : option ReleaseReconciliation) : Await :=
  {| aw_crash := None; aw_commands := []; aw_authorize := Some true; aw_execute := e;
     aw_reconcile := r |}.

(** The first dispatch is lost and found not applied; the retry is lost and
    found applied. *)
Definition lossy_world (n : nat) : Await :=
  await_of (Some obs_outcome_unknown)
    (Some (if n <? 3 then rec_not_applied [report] else rec_applied [report])).

Fixpoint advances (n : nat) (x : XS) : XS :=
  match n with
  | 0 => x
  | S n => (advance scenario_blueprints all_capabilities lossy_world the_run "owner" 24
              (advances n x)).2
  end.

Definition created : XS :=
  {| xs_engine := scenario [CreateRun the_request]; xs_awaited := 0; xs_calls := [] |}.

(** The stops of the first calls of [advance], and what the next one throws. *)
Definition outcome_of_advance (n : nat) : ReleaseExecutionStop + xerror :=
  match (advance scenario_blueprints all_capabilities lossy_world the_run "owner" 24
           (advances n created)).1 with
  | Ok res => inl (ex_stop res)
  | Err e => inr e
  end.

(** A retried step cannot be reconciled twice by the executor.  After a
    dispatch was lost and reconciled as not applied, and the retry was lost and is
    found applied, [advance] throws an idempotency conflict and the operation stays
    unknown: the reconciliation key names the step, not the attempt. *)
Theorem second_reconciliation_conflicts :
  map outcome_of_advance [0; 1; 2; 3; 4] =
  [inl stop_outcome_unknown; inl stop_reconciled_not_applied; inl stop_outcome_unknown;
   inr (engine_error (Fail IDEMPOTENCY_KEY_CONFLICT));
   inr (engine_error (Fail IDEMPOTENCY_KEY_CONFLICT))] ∧
  map ar_status (step_attempts (db (xs_engine (advances 5 created)))) =
  [attempt_resolved_not_applied; attempt_outcome_unknown].
Proof. split; vm_compute; reflexivity. Qed.

Lemma advances_lifetime n :
  lifetime scenario_blueprints all_capabilities lossy_world (advances n created).
Proof.
  induction n as [|n IH]; cbn [advances].
  - apply life_new, scenario_reachable.
  - by apply life_advance.
Qed.

(** The two dispatches of the retried step. *)
Definition lossy_calls : list call := Eval vm_compute in xs_calls (advances 3 created).

Lemma lossy_calls_eq : xs_calls (advances 3 created) = lossy_calls.
Proof. vm_compute. reflexivity. Qed.

Definition no_intent : StepIntent := intent_of no_step no_attempt.
Definition first_intent : StepIntent := nth 0 (dispatched lossy_calls) no_intent.
Definition second_intent : StepIntent := nth 1 (dispatched lossy_calls) no_intent.

Lemma redispatch_only_after_not_applied_witness :
  in_attemptNumber first_intent < in_attemptNumber second_intent ∧
  ∃ a, a ∈ step_attempts (db (xs_engine (advances 3 created))) ∧ row_of first_intent a ∧
    ar_status a = attempt_resolved_not_applied.
Proof.
  apply (redispatch_only_after_not_applied scenario_blueprints all_capabilities lossy_world
    (advances 3 created) [] first_intent [] second_intent []);
    [apply advances_lifetime|rewrite lossy_calls_eq; reflexivity|reflexivity|reflexivity].
Defined.

Lemma every_dispatch_authorized_witness :
  ∃ l0, take 1 lossy_calls = l0 ++ [called_authorize (in_runId first_intent) (in_stepId first_intent) (Some true)].
Proof.
  apply (every_dispatch_authorized scenario_blueprints all_capabilities lossy_world
    (advances 3 created) (take 1 lossy_calls) first_intent (drop 2 lossy_calls));
    [apply advances_lifetime|rewrite lossy_calls_eq; reflexivity].
Defined.
