(* ===== verification/EffectCapabilities.v ===== *)
(** * Ports: calls to facilities the trusted host injects

    The release capabilities call typed ports (GitHub, the health probes, the
    prune operation) that the host supplies.  A port is a parameter: its reply is a
    function of how many port calls were made before and of the request, and
    [None] is a rejected promise.  Every call is logged. *)

From S2P Require Import Prelude Text ReleaseTypes Executor.
From Stdlib Require Import Ascii.

(** A capability method over port requests [C]; the only error is a rejection. *)
Definition P (C : Type) := io (list C) unit.

(** [await port.method(request)] *)
Definition ask {C A} (c : C) (reply : nat → C → option A) : P C A := λ l,
  match reply (length l) c with
  | Some a => (Ok a, l ++ [c])
  | None => (Err tt, l ++ [c])
  end.

(** [try { m } catch { return d }] *)
Definition catch {C A} (m : P C A) (d : A) : P C A := λ l,
  match m l with
  | (Ok a, l') => (Ok a, l')
  | (Err _, l') => (Ok d, l')
  end.

(** [new Date().toISOString()] *)
Definition clock {C} `{Host} : P C string := λ l, (Ok (toISOString (length l)), l).

Lemma ask_Ok {C A} (c : C) (reply : nat → C → option A) l a l' :
  ask c reply l = (Ok a, l') ↔ reply (length l) c = Some a ∧ l' = l ++ [c].
Proof. unfold ask. destruct (reply _ _); naive_solver. Qed.

Lemma ask_calls {C A} (c : C) (reply : nat → C → option A) l : (ask c reply l).2 = l ++ [c].
Proof. unfold ask. by destruct (reply _ _). Qed.

Lemma catch_Ok {C A} (m : P C A) d l a l' :
  catch m d l = (Ok a, l') ↔ m l = (Ok a, l') ∨ (∃ e, m l = (Err e, l') ∧ a = d).
Proof. unfold catch. destruct (m l) as [[b|e] l1]; naive_solver. Qed.

Lemma clock_Ok {C} `{Host} (l : list C) a l' :
  clock l = (Ok a, l') ↔ a = toISOString (length l) ∧ l' = l.
Proof. unfold clock. naive_solver. Qed.

(** [port_inv] extends [run_inv] to capability methods. *)
Ltac port_inv1 :=
  match goal with
  | H : ask _ _ _ = (Ok _, _) |- _ => apply ask_Ok in H as [? ?]; subst
  | H : clock _ = (Ok _, _) |- _ => apply clock_Ok in H as [? ?]; subst
  | _ => run_inv1
  end.
Ltac port_inv := repeat port_inv1.

(** ** Calls a method makes

    [calls_at_most p n m]: running [m] adds at most [n] calls satisfying [p]. *)
Definition calls_at_most {C A} (p : C → bool) (n : nat) (m : P C A) : Prop :=
  ∀ l, count_where p (m l).2 ≤ count_where p l + n.

Section calls.
Context {C : Type} (p : C → bool).

Lemma count_where_snoc (l : list C) c :
  count_where p (l ++ [c]) = count_where p l + if p c then 1 else 0.
Proof. unfold count_where. rewrite List.filter_app, length_app. cbn. by destruct (p c). Qed.

Lemma calls_ret {A} n (a : A) : calls_at_most p n (mret a : P C A).
Proof. intros l. cbn [snd mret io_ret]. lia. Qed.
Lemma calls_bind {A B} n1 n2 (m : P C A) (k : A → P C B) :
  calls_at_most p n1 m → (∀ a, calls_at_most p n2 (k a)) → calls_at_most p (n1 + n2) (m ≫= k).
Proof.
  intros Hm Hk l. specialize (Hm l). unfold mbind, io_bind.
  destruct (m l) as [[a|e] l1]; cbn [snd] in *; [specialize (Hk a l1)|]; unfold io_bind in *; lia.
Qed.
Lemma calls_bind0 {A B} n (m : P C A) (k : A → P C B) :
  calls_at_most p 0 m → (∀ a, calls_at_most p n (k a)) → calls_at_most p n (m ≫= k).
Proof. apply (calls_bind 0 n). Qed.
Lemma calls_ask {A} n c (reply : nat → C → option A) :
  (p c = true → 0 < n) → calls_at_most p n (ask c reply).
Proof. intros Hp l. rewrite ask_calls, count_where_snoc. destruct (p c); [specialize (Hp eq_refl)|]; lia. Qed.
Lemma calls_catch {A} n (m : P C A) d : calls_at_most p n m → calls_at_most p n (catch m d).
Proof. intros Hm l. specialize (Hm l). unfold catch. by destruct (m l) as [[a|e] l1]. Qed.
Lemma calls_clock n `{Host} : calls_at_most p n (clock : P C string).
Proof. intros l. cbn [snd clock]. lia. Qed.
Lemma calls_if {A} n (b : bool) (m1 m2 : P C A) :
  calls_at_most p n m1 → calls_at_most p n m2 → calls_at_most p n (if b then m1 else m2).
Proof. by destruct b. Qed.
End calls.

Create HintDb calls discriminated.
#[export] Hint Resolve calls_ret calls_bind0 calls_catch calls_clock calls_if : calls.

(** ** Shared checks *)

Definition SHA40 : string → bool := exactly is_hex_lower 40.
Definition DIGEST : string → bool := exactly is_hex_lower 64.

(** [Number.isSafeInteger(n) && n >= 1] *)
Definition positive_safe (n : Z) : bool := (1 <=? n)%Z && (n <=? 9007199254740991)%Z.

(** [run.steps.some(s => s.action === action && s.stepId === intent.stepId &&
    s.operationId === intent.operationId)] *)
Definition bound_step (action : ReleaseAction) (i : StepIntent) (run : ReleaseRunSnapshot) : bool :=
  existsb (λ s, bool_decide (ss_action s = action) && bool_decide (ss_stepId s = in_stepId i) &&
                bool_decide (ss_operationId s = Some (in_operationId i))) (sn_steps run).

Lemma bound_step_spec action i run :
  bound_step action i run = true ↔ ∃ s, s ∈ sn_steps run ∧ ss_action s = action ∧
    ss_stepId s = in_stepId i ∧ ss_operationId s = Some (in_operationId i).
Proof.
  unfold bound_step. rewrite existsb_exists. setoid_rewrite <- list_elem_of_In.
  setoid_rewrite andb_true_iff. setoid_rewrite andb_true_iff.
  setoid_rewrite bool_decide_eq_true. naive_solver.
Qed.

(** ** EffectCapabilities: release actions with external effects

    [release-effect-capabilities.ts], [release-tag-bootstrap-capability.ts] and
    [release-public-distribution-capability.ts].  Executing one of them starts the
    operation and reports an unknown outcome; only reconciling it against a
    receipt of that very operation can report it as applied. *)

(** ** release-effect-capabilities.ts *)

Module Effects.
Local Open Scope string_scope.
Definition RECEIPTS (a : ReleaseAction) : option string :=
  match a with
  | build_and_sign_release => Some "signed_build_receipt"
  | publish_signed_release => Some "release_publication_receipt"
  | deploy_edge => Some "edge_deployment_receipt"
  | prepare_oracle => Some "oracle_prepare_receipt"
  | prepare_windows => Some "windows_prepare_receipt"
  | promote_oracle => Some "oracle_cutover_receipt"
  | promote_windows => Some "windows_cutover_receipt"
  | _ => None
  end.
(** [Object.keys(RECEIPTS)] *)
Definition effect_actions : list ReleaseAction :=
  [build_and_sign_release; publish_signed_release; deploy_edge; prepare_oracle;
   prepare_windows; promote_oracle; promote_windows].

Record ReleaseEffectRequest := {
  er_action : ReleaseAction;
  er_runId : string;
  er_operationId : string;
  er_releaseTag : string;
  er_sourceCommitSha : string;
}.
#[global] Instance ReleaseEffectRequest_eq_dec : EqDecision ReleaseEffectRequest.
Proof. solve_decision. Defined.

Inductive effect_status := effect_completed | effect_pending | effect_failed | effect_unknown.
#[global] Instance effect_status_eq_dec : EqDecision effect_status.
Proof. solve_decision. Defined.

Record ReleaseEffectReceipt := {
  rc_request : ReleaseEffectRequest;
  rc_status : effect_status;
  rc_evidence : list EvidenceInput;
}.

Definition SOURCES : list string :=
  ["mcp_v3_verified_github_release"; "mcp_v3_verified_edge";
   "mcp_v3_verified_oracle"; "mcp_v3_verified_windows"].
Local Close Scope string_scope.

Section effects.
Context {H : Host}.

Definition receiptValid (input : ReleaseEffectRequest) (value : ReleaseEffectReceipt) : bool :=
  bool_decide (rc_request value = input) && bool_decide (rc_status value = effect_completed) &&
  match rc_evidence value with
  | [e] => bool_decide (RECEIPTS (er_action input) = Some (ei_kind e)) && DIGEST (ei_sha256 e) &&
           bool_decide (ei_source e ∈ SOURCES) && parses_as_date (ei_observedAt e)
  | _ => false
  end.

Definition request (i : StepIntent) (run : ReleaseRunSnapshot) (action : ReleaseAction) :
    option ReleaseEffectRequest :=
  if bool_decide (in_action i = action) && bool_decide (in_executionClass i = external_effect) &&
     bool_decide (in_runId i = sn_runId run) && SHA40 (sn_sourceCommitSha run) &&
     bound_step action i run
  then Some {| er_action := action; er_runId := sn_runId run; er_operationId := in_operationId i;
               er_releaseTag := sn_targetRelease run; er_sourceCommitSha := sn_sourceCommitSha run |}
  else None.

Inductive effect_call :=
| call_authorize (action : ReleaseAction) (run : ReleaseRunSnapshot)
| call_start (r : ReleaseEffectRequest)
| call_inspect (r : ReleaseEffectRequest).

(** The injected port and authorization. *)
Record ReleaseEffectBinding := {
  eb_authorize : nat → effect_call → option bool;
  eb_start : nat → effect_call → option unit;
  eb_inspect : nat → effect_call → option ReleaseEffectReceipt;
}.
Context (binding : ReleaseEffectBinding).

Definition authorize (action : ReleaseAction) (run : ReleaseRunSnapshot) : P effect_call bool :=
  ask (call_authorize action run) (eb_authorize binding).

(** [!input || !await binding.authorize(action, run)] *)
Definition admitted (action : ReleaseAction) (i : StepIntent) (run : ReleaseRunSnapshot) :
    P effect_call (option ReleaseEffectRequest) :=
  match request i run action with
  | None => mret None
  | Some input =>
      granted ← authorize action run;
      mret (if (granted : bool) then Some input else None)
  end.

Definition execute (action : ReleaseAction) (i : StepIntent) (run : ReleaseRunSnapshot) :
    P effect_call ReleaseStepObservation :=
  input ← admitted action i run;
  match input with
  | None => mret obs_outcome_unknown
  | Some r =>
      catch (ask (call_start r) (eb_start binding)) tt;;
      mret obs_outcome_unknown
  end.

Definition reconcile (action : ReleaseAction) (i : StepIntent) (run : ReleaseRunSnapshot) :
    P effect_call ReleaseReconciliation :=
  input ← admitted action i run;
  match input with
  | None => mret rec_still_unknown
  | Some r =>
      catch (
        observation ← ask (call_inspect r) (eb_inspect binding);
        mret (if receiptValid r observation then rec_applied (rc_evidence observation)
              else rec_still_unknown)) rec_still_unknown
  end.

(** [bindReleaseEffects]: the actions bound, or the error. *)
Definition bindReleaseEffects (actions : option (list ReleaseAction)) :
    outcome unit (list Capability) :=
  let actions := default effect_actions actions in
  if negb (length actions =? 0)%nat && bool_decide (NoDup actions) &&
     forallb (λ a, bool_decide (RECEIPTS a ≠ None)) actions
  then Ok (map (λ a, {| cap_action := a; cap_executionClass := external_effect |}) actions)
  else Err tt.

(** *** Lemmas *)

Lemma admitted_Ok action i run l r l' :
  admitted action i run l = (Ok (Some r), l') →
  request i run action = Some r ∧ l' = l ++ [call_authorize action run].
Proof.
  unfold admitted, authorize. intros E. destruct (request i run action) as [r'|]; port_inv; [|done].
  match goal with b : bool |- _ => destruct b end; naive_solver.
Qed.

Lemma request_Some i run action r :
  request i run action = Some r →
  er_action r = action ∧ er_runId r = in_runId i ∧ er_operationId r = in_operationId i ∧
  er_releaseTag r = sn_targetRelease run ∧ er_sourceCommitSha r = sn_sourceCommitSha run ∧
  in_action i = action ∧ in_executionClass i = external_effect.
Proof.
  unfold request. destruct (_ && _) eqn:E; [|done]. intros [= <-]. bool_inv. cbn.
  split_and!; congruence.
Qed.

Definition is_start (c : effect_call) : bool :=
  match c with call_start _ => true | _ => false end.

Lemma admitted_calls action i run : calls_at_most is_start 0 (admitted action i run).
Proof.
  unfold admitted. destruct (request _ _ _); [|auto with calls].
  apply calls_bind0; [by apply calls_ask|auto with calls].
Qed.
End effects.
End Effects.

(** ** release-tag-bootstrap-capability.ts *)

(** The workflow operations of the tag bootstrap and the public distribution. *)
Inductive workflow_mode := mode_dispatch | mode_reconcile.
#[global] Instance workflow_mode_eq_dec : EqDecision workflow_mode.
Proof. solve_decision. Defined.

Record WorkflowRequest := {
  wr_workspaceId : string;
  wr_owner : string;
  wr_repository : string;
  wr_workflow : string;
  wr_mode : workflow_mode;
  wr_tag : string;
  wr_expectedMainSha : string;
  wr_operationId : string;
  wr_bootstrapOperationId : option string;
}.

Inductive workflow_state := wf_queued | wf_in_progress | wf_completed.
#[global] Instance workflow_state_eq_dec : EqDecision workflow_state.
Proof. solve_decision. Defined.

Inductive WorkflowObservation :=
| wo_submitted (operationId : string)
| wo_outcome_unknown (operationId : string)
| wo_observed (operationId : string) (runId : Z) (state : workflow_state)
    (conclusion : option string).

(** The run a completed, successful observation of [operationId] names. *)
Definition successful_run (o : WorkflowObservation) (operationId : string) : option Z :=
  match o with
  | wo_observed op runId state conclusion =>
      if bool_decide (op = operationId) && bool_decide (state = wf_completed) &&
         bool_decide (conclusion = Some "success"%string) && positive_safe runId
      then Some runId else None
  | _ => None
  end.

Record HostRepository := { hr_workspaceId : string; hr_owner : string; hr_repository : string }.
Definition host_valid (h : HostRepository) : bool :=
  negb (blank (hr_workspaceId h)) && negb (blank (hr_owner h)) && negb (blank (hr_repository h)).

Module TagBootstrap.
(** [/^v[0-9]+\.[0-9]+\.[0-9]+(?:-[a-zA-Z0-9.-]+)?$/u] *)
Fixpoint digits_then (k : string → bool) (s : string) : bool :=
  match s with
  | EmptyString => false
  | String c s => is_digit c && (digits_then k s || k s)
  end.
Definition char_then (d : Ascii.ascii) (k : string → bool) (s : string) : bool :=
  match s with
  | EmptyString => false
  | String c s => Ascii.eqb c d && k s
  end.
Definition suffix_ok (s : string) : bool :=
  match s with
  | EmptyString => true
  | String c EmptyString => false
  | String c s => Ascii.eqb c "-"%char && all_chars (λ c, is_alnum c || char_in ".-" c) s
  end.
Definition SEMVER : string → bool :=
  char_then "v"%char (digits_then (char_then "."%char
    (digits_then (char_then "."%char (digits_then suffix_ok))))).

Section tag.
Context {H : Host} (options : HostRepository).

Inductive tag_call :=
| call_authorized (run : ReleaseRunSnapshot)
| call_workflow (r : WorkflowRequest)
| call_verify_tag (tag commitSha : string).

Record TagPort := {
  tp_authorized : nat → tag_call → option bool;
  tp_workflow : nat → tag_call → option WorkflowObservation;
  tp_verify : nat → tag_call → option bool;
}.
Context (port : TagPort).

Definition bound (i : StepIntent) (run : ReleaseRunSnapshot) : bool :=
  bool_decide (in_runId i = sn_runId run) && bool_decide (in_action i = publish_release_tag) &&
  bool_decide (in_executionClass i = external_effect) && bound_step publish_release_tag i run.

Definition receipt (tag sha operationId : string) (runId : Z) (now : string) : EvidenceInput := {|
  ei_kind := "release_tag_bootstrap"; ei_source := "mcp_v3_github_workflow_operation";
  ei_sha256 := sha256 (json_stringify (JObj [("tag", JStr tag); ("sha", JStr sha);
    ("operationId", JStr operationId); ("runId", JNum runId)]%string));
  ei_observedAt := now |}.

Definition valid (run : ReleaseRunSnapshot) : bool :=
  SHA40 (sn_sourceCommitSha run) && SEMVER (sn_targetRelease run) &&
  negb (includes "-oracle." (sn_targetRelease run)) &&
  negb (includes "-companion." (sn_targetRelease run)).

Definition operation (i : StepIntent) (run : ReleaseRunSnapshot) (mode : workflow_mode) :
    WorkflowRequest := {|
  wr_workspaceId := hr_workspaceId options; wr_owner := hr_owner options;
  wr_repository := hr_repository options; wr_workflow := "release-tag-bootstrap.yml";
  wr_mode := mode; wr_tag := sn_targetRelease run;
  wr_expectedMainSha := sn_sourceCommitSha run; wr_operationId := in_operationId i;
  wr_bootstrapOperationId := None |}.

Definition authorize (run : ReleaseRunSnapshot) : P tag_call bool :=
  if bool_decide (sn_status run = run_running) && valid run
  then ask (call_authorized run) (tp_authorized port) else mret false.

Definition admitted (i : StepIntent) (run : ReleaseRunSnapshot) : P tag_call bool :=
  if bound i run && valid run
  then ask (call_authorized run) (tp_authorized port) else mret false.

Definition execute (i : StepIntent) (run : ReleaseRunSnapshot) :
    P tag_call ReleaseStepObservation :=
  ok ← admitted i run;
  if negb ok then mret obs_outcome_unknown else
  catch (ask (call_workflow (operation i run mode_dispatch)) (tp_workflow port);; mret tt) tt;;
  mret obs_outcome_unknown.

Definition reconcile (i : StepIntent) (run : ReleaseRunSnapshot) :
    P tag_call ReleaseReconciliation :=
  ok ← admitted i run;
  if negb ok then mret rec_still_unknown else
  catch (
    result ← ask (call_workflow (operation i run mode_reconcile)) (tp_workflow port);
    match successful_run result (in_operationId i) with
    | None => mret rec_still_unknown
    | Some runId =>
        tagged ← ask (call_verify_tag (sn_targetRelease run) (sn_sourceCommitSha run)) (tp_verify port);
        if negb tagged then mret rec_still_unknown else
        now ← clock;
        mret (rec_applied [receipt (sn_targetRelease run) (sn_sourceCommitSha run)
          (in_operationId i) runId now])
    end) rec_still_unknown.

Definition bindReleaseTagBootstrap : outcome unit Capability :=
  if host_valid options
  then Ok {| cap_action := publish_release_tag; cap_executionClass := external_effect |}
  else Err tt.

Definition is_dispatch (c : tag_call) : bool :=
  match c with call_workflow r => bool_decide (wr_mode r = mode_dispatch) | _ => false end.

Lemma tag_admitted_calls i run : calls_at_most is_dispatch 0 (admitted i run).
Proof. unfold admitted. destruct (_ && _); [by apply calls_ask|auto with calls]. Qed.

Lemma tag_execute_calls i run : calls_at_most is_dispatch 1 (execute i run).
Proof.
  unfold execute. apply calls_bind0; [apply tag_admitted_calls|]. intros ok.
  apply calls_if; [auto with calls|]. apply (calls_bind _ 1 0); [|auto with calls].
  apply calls_catch, (calls_bind _ 1 0); [apply calls_ask; lia|auto with calls].
Qed.

Lemma reconcile_calls i run : calls_at_most is_dispatch 0 (reconcile i run).
Proof.
  unfold reconcile. apply calls_bind0; [apply tag_admitted_calls|]. intros ok.
  apply calls_if; [auto with calls|]. apply calls_catch, calls_bind0; [by apply calls_ask|].
  intros result. destruct (successful_run _ _); [|auto with calls].
  apply calls_bind0; [by apply calls_ask|auto with calls].
Qed.
End tag.
End TagBootstrap.

(** ** release-public-distribution-capability.ts *)

Module PublicDistribution.
(** [/^[0-9a-f]{8}-[0-9a-f]{4}-[1-8][0-9a-f]{3}-[89ab][0-9a-f]{3}-[0-9a-f]{12}$/u] *)
Definition UUID : string → bool := uuid_pattern.

Inductive PublicAction := sign | publish.
#[global] Instance PublicAction_eq_dec : EqDecision PublicAction.
Proof. solve_decision. Defined.
Definition action_of (a : PublicAction) : ReleaseAction :=
  match a with sign => build_and_sign_release | publish => publish_signed_release end.

Record PublicDistributionProof := {
  pd_sourceCommitSha : string;
  pd_releaseTag : string;
  pd_workflowRunId : Z;
  pd_integrityVerified : bool;
  pd_releasePublished : bool;
  pd_manifestSha256 : string;
  pd_assetDigestSha256 : string;
}.

(** The operation of the run's step for [action], when that step succeeded. *)
Definition originalOperation (run : ReleaseRunSnapshot) (action : ReleaseAction) : option string :=
  match List.find (λ s, bool_decide (ss_action s = action)) (sn_steps run) with
  | Some s => if bool_decide (ss_status s = step_succeeded) && UUID (default ""%string (ss_operationId s))
              then ss_operationId s else None
  | None => None
  end.

Definition currentIntent (i : StepIntent) (run : ReleaseRunSnapshot) (action : ReleaseAction) : bool :=
  bool_decide (in_runId i = sn_runId run) && bool_decide (in_executionClass i = external_effect) &&
  bool_decide (in_action i = action) && UUID (in_operationId i) && bound_step action i run.

Section distribution.
Context {H : Host} (binding : HostRepository).

Definition workflowRequest (run : ReleaseRunSnapshot) (operationId bootstrapOperationId : string)
    (mode : workflow_mode) : WorkflowRequest := {|
  wr_workspaceId := hr_workspaceId binding; wr_owner := hr_owner binding;
  wr_repository := hr_repository binding; wr_workflow := "release.yml"; wr_mode := mode;
  wr_tag := sn_targetRelease run; wr_expectedMainSha := sn_sourceCommitSha run;
  wr_operationId := operationId; wr_bootstrapOperationId := Some bootstrapOperationId |}.

Definition proofIsValid (p : PublicDistributionProof) (run : ReleaseRunSnapshot) (runId : Z) : bool :=
  bool_decide (pd_sourceCommitSha p = sn_sourceCommitSha run) &&
  bool_decide (pd_releaseTag p = sn_targetRelease run) && bool_decide (pd_workflowRunId p = runId) &&
  pd_integrityVerified p && DIGEST (pd_manifestSha256 p) && DIGEST (pd_assetDigestSha256 p).

Definition evidence (action : PublicAction) (run : ReleaseRunSnapshot) (runId : Z)
    (p : PublicDistributionProof) (now : string) : EvidenceInput := {|
  ei_kind := match action with
             | sign => "signed_build_receipt" | publish => "release_publication_receipt" end;
  ei_source := "mcp_v3_verified_github_release";
  ei_sha256 := sha256 (json_stringify (JObj [
    ("action", JStr (action_name (action_of action))); ("runId", JNum runId);
    ("tag", JStr (sn_targetRelease run)); ("sha", JStr (sn_sourceCommitSha run));
    ("manifestSha256", JStr (pd_manifestSha256 p));
    ("assetDigestSha256", JStr (pd_assetDigestSha256 p))]%string));
  ei_observedAt := now |}.

Inductive distribution_call :=
| call_authorized (action : PublicAction) (run : ReleaseRunSnapshot)
| call_workflow (r : WorkflowRequest)
| call_inspect (runId : Z) (tag commitSha : string).

Record DistributionPort := {
  dp_authorized : nat → distribution_call → option bool;
  dp_workflow : nat → distribution_call → option WorkflowObservation;
  dp_inspect : nat → distribution_call → option PublicDistributionProof;
}.
Context (port : DistributionPort).

Definition common (action : PublicAction) (i : StepIntent) (run : ReleaseRunSnapshot) :
    P distribution_call (option WorkflowRequest) :=
  match originalOperation run publish_release_tag with
  | Some bootstrap =>
      if currentIntent i run (action_of action) && negb (bool_decide (bootstrap = ""%string)) &&
         SHA40 (sn_sourceCommitSha run)
      then
        granted ← ask (call_authorized action run) (dp_authorized port);
        mret (if negb granted then None else
              let publicationOp := match action with
                | sign => Some (in_operationId i)
                | publish => originalOperation run build_and_sign_release end in
              option_map (λ op, workflowRequest run op bootstrap mode_reconcile) publicationOp)
      else mret None
  | None => mret None
  end.

Definition reconcilePublication (action : PublicAction) (i : StepIntent) (run : ReleaseRunSnapshot) :
    P distribution_call ReleaseReconciliation :=
  request ← common action i run;
  match request with
  | None => mret rec_still_unknown
  | Some request =>
      catch (
        observation ← ask (call_workflow request) (dp_workflow port);
        match successful_run observation (wr_operationId request) with
        | None => mret rec_still_unknown
        | Some runId =>
            proof ← ask (call_inspect runId (sn_targetRelease run) (sn_sourceCommitSha run))
                      (dp_inspect port);
            if negb (proofIsValid proof run runId) ||
               (bool_decide (action = publish) && negb (pd_releasePublished proof))
            then mret rec_still_unknown else
            now ← clock;
            mret (rec_applied [evidence action run runId proof now])
        end) rec_still_unknown
  end.

Definition with_mode (m : workflow_mode) (r : WorkflowRequest) : WorkflowRequest := {|
  wr_workspaceId := wr_workspaceId r; wr_owner := wr_owner r; wr_repository := wr_repository r;
  wr_workflow := wr_workflow r; wr_mode := m; wr_tag := wr_tag r;
  wr_expectedMainSha := wr_expectedMainSha r; wr_operationId := wr_operationId r;
  wr_bootstrapOperationId := wr_bootstrapOperationId r |}.

Definition authorize (action : PublicAction) (run : ReleaseRunSnapshot) : P distribution_call bool :=
  let prior := match action with sign => publish_release_tag | publish => build_and_sign_release end in
  if bool_decide (originalOperation run prior ≠ None)
  then ask (call_authorized action run) (dp_authorized port) else mret false.

Definition execute (action : PublicAction) (i : StepIntent) (run : ReleaseRunSnapshot) :
    P distribution_call ReleaseStepObservation :=
  match action with
  | publish => mret obs_outcome_unknown
  | sign =>
      request ← common sign i run;
      match request with
      | None => mret obs_outcome_unknown
      | Some request =>
          catch (ask (call_workflow (with_mode mode_dispatch request)) (dp_workflow port);; mret tt) tt;;
          mret obs_outcome_unknown
      end
  end.

Definition bindReleasePublicDistribution : outcome unit (list Capability) :=
  if host_valid binding
  then Ok (map (λ a, {| cap_action := a; cap_executionClass := external_effect |})
             [build_and_sign_release; publish_signed_release])
  else Err tt.

(** *** Lemmas *)

Definition is_dispatch (c : distribution_call) : bool :=
  match c with call_workflow r => bool_decide (wr_mode r = mode_dispatch) | _ => false end.

Lemma common_calls action i run : calls_at_most is_dispatch 0 (common action i run).
Proof.
  unfold common. destruct (originalOperation _ _); [|auto with calls].
  apply calls_if; [|auto with calls]. apply calls_bind0; [by apply calls_ask|auto with calls].
Qed.

Lemma common_Ok action i run l r l' :
  common action i run l = (Ok (Some r), l') →
  wr_mode r = mode_reconcile ∧ wr_tag r = sn_targetRelease run ∧
  wr_expectedMainSha r = sn_sourceCommitSha run ∧
  wr_bootstrapOperationId r = originalOperation run publish_release_tag ∧
  Some (wr_operationId r) = match action with
    | sign => Some (in_operationId i)
    | publish => originalOperation run build_and_sign_release end.
Proof.
  unfold common. intros E. destruct (originalOperation run publish_release_tag) as [b|]; port_inv; [|done].
  destruct (_ && _); port_inv; [|done].
  match goal with g : bool |- _ => destruct g end; [|done].
  match goal with Hr : _ = Some r |- _ => cbn in Hr end.
  destruct action; [|destruct (originalOperation run build_and_sign_release)]; cbn in *; simplify_eq;
    done.
Qed.

Lemma distribution_execute_calls action i run : calls_at_most is_dispatch 1 (execute action i run).
Proof.
  unfold execute. destruct action; [|auto with calls].
  apply calls_bind0; [apply common_calls|]. intros [r|]; [|auto with calls].
  apply (calls_bind _ 1 0); [|auto with calls].
  apply calls_catch, (calls_bind _ 1 0); [apply calls_ask; lia|auto with calls].
Qed.
End distribution.
End PublicDistribution.
