(* ===== verification/ReadCapabilities.v ===== *)
(** * ReadCapabilities: verifications, source-control reads and cleanup

    [release-verification-capabilities.ts],
    [release-source-control-read-capabilities.ts] and
    [release-prune-capability.ts]. *)

From S2P Require Import Prelude Text ReleaseTypes Blueprint Executor EffectCapabilities.
From Stdlib Require Import Ascii.

(** ** release-verification-capabilities.ts *)

Module Verifications.
Local Open Scope string_scope.
Definition REQUIRED_KINDS (a : ReleaseAction) : option (list string) :=
  match a with
  | verify_release_assets => Some ["canonical_ci_run"; "signed_manifest"; "release_asset_digest"]
  | verify_edge_health => Some ["edge_health_report"]
  | validate_oracle_candidate => Some ["oracle_candidate_manifest"]
  | validate_windows_candidate => Some ["windows_candidate_manifest"]
  | verify_oracle_health => Some ["oracle_active_manifest"; "oracle_health_report"]
  | verify_windows_health => Some ["windows_active_manifest"; "windows_health_report"]
  | reconcile_final_pointers => Some ["pointer_consistency_report"]
  | smoke_catalog => Some ["catalog_smoke_report"]
  | _ => None
  end.
(** [Object.keys(REQUIRED_KINDS)] *)
Definition verification_actions : list ReleaseAction :=
  [verify_release_assets; verify_edge_health; validate_oracle_candidate;
   validate_windows_candidate; verify_oracle_health; verify_windows_health;
   reconcile_final_pointers; smoke_catalog].
Definition SOURCES : list string :=
  ["mcp_v3_verified_github_release"; "mcp_v3_verified_edge_health"; "mcp_v3_verified_oracle";
   "mcp_v3_verified_windows"; "mcp_v3_verified_catalog"].
Local Close Scope string_scope.

Inductive receipt_status := verified | pending | rejected.
#[global] Instance receipt_status_eq_dec : EqDecision receipt_status.
Proof. solve_decision. Defined.

Record ReleaseVerificationReceipt := {
  vr_action : ReleaseAction;
  vr_sourceCommitSha : string;
  vr_releaseTag : string;
  vr_status : receipt_status;
  vr_evidence : list EvidenceInput;
}.

Section verifications.
Context {H : Host}.

Definition newline : string := String (Ascii.ascii_of_nat 10) EmptyString.

Definition validReceipt (action : ReleaseAction) (run : ReleaseRunSnapshot)
    (receipt : ReleaseVerificationReceipt) : bool :=
  bool_decide (vr_action receipt = action) &&
  bool_decide (vr_sourceCommitSha receipt = sn_sourceCommitSha run) &&
  bool_decide (vr_releaseTag receipt = sn_targetRelease run) &&
  bool_decide (vr_status receipt = verified) &&
  let required := default [] (REQUIRED_KINDS action) in
  let kinds := map ei_kind (vr_evidence receipt) in
  (length (vr_evidence receipt) =? length required) &&
  forallb (λ kind, bool_decide (kind ∈ kinds)) required &&
  bool_decide (NoDup kinds) &&
  forallb (λ e, DIGEST (ei_sha256 e) && bool_decide (ei_source e ∈ SOURCES) &&
                parses_as_date (ei_observedAt e) && negb (includes newline (ei_observedAt e)))
    (vr_evidence receipt).

Definition bound (action : ReleaseAction) (i : StepIntent) (run : ReleaseRunSnapshot) : bool :=
  bool_decide (in_runId i = sn_runId run) && bool_decide (in_action i = action) &&
  bool_decide (in_executionClass i = read_only) && bound_step action i run.

Inductive verification_call :=
| call_authorize (action : ReleaseAction) (run : ReleaseRunSnapshot)
| call_inspect (action : ReleaseAction) (run : ReleaseRunSnapshot).

Record ReleaseVerificationBinding := {
  vb_authorize : nat → verification_call → option bool;
  vb_inspect : nat → verification_call → option ReleaseVerificationReceipt;
}.
Context (binding : ReleaseVerificationBinding).

(** The evidence of a valid receipt ([null] is [None]). *)
Definition inspect (action : ReleaseAction) (run : ReleaseRunSnapshot) :
    P verification_call (option (list EvidenceInput)) :=
  result ← ask (call_inspect action run) (vb_inspect binding);
  mret (if validReceipt action run result then Some (vr_evidence result) else None).

Definition authorize (action : ReleaseAction) (run : ReleaseRunSnapshot) :
    P verification_call bool :=
  ask (call_authorize action run) (vb_authorize binding).

Definition admitted (action : ReleaseAction) (i : StepIntent) (run : ReleaseRunSnapshot) :
    P verification_call bool :=
  if bound action i run then authorize action run else mret false.

Definition execute (action : ReleaseAction) (i : StepIntent) (run : ReleaseRunSnapshot) :
    P verification_call ReleaseStepObservation :=
  ok ← admitted action i run;
  if negb ok then mret obs_outcome_unknown else
  catch (
    evidence ← inspect action run;
    mret match evidence with Some ev => obs_succeeded ev | None => obs_outcome_unknown end)
    obs_outcome_unknown.

Definition reconcile (action : ReleaseAction) (i : StepIntent) (run : ReleaseRunSnapshot) :
    P verification_call ReleaseReconciliation :=
  ok ← admitted action i run;
  if negb ok then mret rec_still_unknown else
  catch (
    evidence ← inspect action run;
    mret match evidence with Some ev => rec_applied ev | None => rec_still_unknown end)
    rec_still_unknown.

Definition bindReleaseVerificationReads : list Capability :=
  map (λ a, {| cap_action := a; cap_executionClass := read_only |}) verification_actions.

(** *** Lemmas *)

(** As many distinct kinds as required, covering them, are the required ones. *)
Lemma validReceipt_kinds action run receipt :
  validReceipt action run receipt = true →
  Permutation (default [] (REQUIRED_KINDS action)) (map ei_kind (vr_evidence receipt)).
Proof.
  unfold validReceipt. intros Hv. bool_inv.
  match goal with Hl : (_ =? _) = true, Hf : forallb _ (default [] _) = true |- _ =>
    apply Nat.eqb_eq in Hl; rename Hl into Hlen;
    rewrite forallb_forall in Hf; rename Hf into Hall end.
  assert (NoDup (default [] (REQUIRED_KINDS action))) as Hd.
  { apply (bool_decide_eq_true _). by destruct action. }
  apply submseteq_length_Permutation; [|by rewrite length_map, Hlen].
  apply NoDup_submseteq; [done|]. intros k Hk.
  apply list_elem_of_In, Hall in Hk. by bool_inv.
Qed.

Lemma inspect_Ok action run l ev l' :
  inspect action run l = (Ok (Some ev), l') →
  ∃ receipt, vb_inspect binding (length l) (call_inspect action run) = Some receipt ∧
    validReceipt action run receipt = true ∧ ev = vr_evidence receipt.
Proof.
  unfold inspect. intros E. port_inv. destruct (validReceipt _ _ _) eqn:Hv; naive_solver.
Qed.

Lemma execute_Ok action i run l ev l' :
  execute action i run l = (Ok (obs_succeeded ev), l') →
  bound action i run = true ∧ ∃ n receipt,
    vb_inspect binding n (call_inspect action run) = Some receipt ∧
    validReceipt action run receipt = true ∧ ev = vr_evidence receipt.
Proof.
  unfold execute, admitted, authorize. intros E. run_inv. destruct (bound action i run); port_inv; [|done].
  split; [done|]. match goal with g : bool |- _ => destruct g end; cbn [negb] in E; port_inv; [|done].
  apply catch_Ok in E as [E|(e & _ & ?)]; [|done]. run_inv.
  match goal with o : option (list EvidenceInput) |- _ => destruct o end; [|done].
  match goal with Hi : inspect _ _ _ = _ |- _ =>
    apply inspect_Ok in Hi as (receipt & ? & ? & ->) end.
  simplify_eq. eauto.
Qed.
End verifications.
End Verifications.

(** ** release-source-control-read-capabilities.ts *)

Module SourceControlReads.
Inductive SourceAction := resolve_main | verify_ci.
Definition action_of (a : SourceAction) : ReleaseAction :=
  match a with resolve_main => resolve_main_commit | verify_ci => verify_canonical_ci end.

Record Check := {
  ck_id : Z;
  ck_name : string;
  ck_status : string;
  ck_conclusion : option string;
}.
Record CommitChecks := {
  cc_commitSha : string;
  cc_totalCount : Z;
  cc_returnedCount : Z;
  cc_pendingCount : Z;
  cc_successfulCount : Z;
  cc_failingCount : Z;
  cc_allCompleted : bool;
  cc_truncated : bool;
  cc_passed : bool;
  cc_checks : list Check;
}.

Definition TERMINAL : list string := ["success"; "neutral"; "skipped"]%string.

(** [s.toLowerCase()] on ASCII *)
Fixpoint toLowerCase (s : string) : string :=
  match s with
  | EmptyString => EmptyString
  | String c s =>
      String (if is_upper c then Ascii.ascii_of_nat (Ascii.nat_of_ascii c + 32) else c)
        (toLowerCase s)
  end.

Section source_control.
Context {H : Host}.

Definition requireBoundIntent (i : StepIntent) (run : ReleaseRunSnapshot)
    (action : ReleaseAction) : bool :=
  bool_decide (in_runId i = sn_runId run) && bool_decide (in_action i = action) &&
  bound_step action i run.

Definition proof (kind : string) (value : json) (now : string) : EvidenceInput := {|
  ei_kind := kind; ei_source := "mcp_v3_typed_source_control";
  ei_sha256 := sha256 (json_stringify value); ei_observedAt := now |}.

Inductive source_call :=
| call_authorizeRead (run : ReleaseRunSnapshot)
| call_readMainHead
| call_readCommitChecks (commitSha : string).

Record SourcePort := {
  sp_authorizeRead : nat → source_call → option bool;
  sp_readMainHead : nat → source_call → option string;
  sp_readCommitChecks : nat → source_call → option CommitChecks;
}.
Context (port : SourcePort).

Definition mainSha (run : ReleaseRunSnapshot) : P source_call (option string) :=
  sha ← ask call_readMainHead (sp_readMainHead port);
  mret (if SHA40 sha && bool_decide (sha = toLowerCase (sn_sourceCommitSha run))
        then Some sha else None).

Inductive ReadResult :=
| read_verified (evidence : EvidenceInput)
| read_pending
| read_invalid.

(** The counters and identifiers of the reply are consistent. *)
Definition consistent (before : string) (r : CommitChecks) : bool :=
  bool_decide (cc_commitSha r = before) &&
  (0 <=? cc_totalCount r)%Z && (cc_totalCount r <=? 100)%Z &&
  (cc_returnedCount r =? Z.of_nat (length (cc_checks r)))%Z &&
  (0 <=? cc_pendingCount r)%Z && (0 <=? cc_failingCount r)%Z && (0 <=? cc_successfulCount r)%Z &&
  (cc_successfulCount r + cc_failingCount r + cc_pendingCount r =? cc_returnedCount r)%Z &&
  forallb (λ c, positive_safe (ck_id c) && negb (blank (ck_name c))) (cc_checks r) &&
  bool_decide (NoDup (map ck_id (cc_checks r))).

Definition incomplete (r : CommitChecks) : bool :=
  (cc_totalCount r =? 0)%Z || cc_truncated r || negb (cc_allCompleted r) ||
  (0 <? cc_pendingCount r)%Z || negb (cc_returnedCount r =? cc_totalCount r)%Z.

Definition rejected_checks (r : CommitChecks) : bool :=
  negb (cc_passed r) || (0 <? cc_failingCount r)%Z ||
  existsb (λ c, negb (bool_decide (ck_status c = "completed"%string)) ||
                negb (bool_decide (default ""%string (ck_conclusion c) ∈ TERMINAL))) (cc_checks r).

Definition json_of_checks (before : string) (r : CommitChecks) : json :=
  JObj [("sha"%string, JStr before);
        ("checks"%string, JArr (map (λ c,
           JObj [("id", JNum (ck_id c)); ("name", JStr (ck_name c));
                 ("conclusion", match ck_conclusion c with Some s => JStr s | None => JNull end)]%string)
           (order_by (λ a b, (ck_id a <=? ck_id b)%Z) (cc_checks r))))].

Definition checks (run : ReleaseRunSnapshot) : P source_call ReadResult :=
  before ← mainSha run;
  match before with
  | None => mret read_invalid
  | Some before =>
      result ← ask (call_readCommitChecks before) (sp_readCommitChecks port);
      if negb (consistent before result) then mret read_invalid else
      if incomplete result then mret read_pending else
      if rejected_checks result then mret read_invalid else
      after ← mainSha run;
      if negb (bool_decide (after = Some before)) then mret read_invalid else
      now ← clock;
      mret (read_verified (proof "canonical_ci_run" (json_of_checks before result) now))
  end.

Definition resolve_main_read (run : ReleaseRunSnapshot) : P source_call ReadResult :=
  sha ← mainSha run;
  match sha with
  | Some sha =>
      now ← clock;
      mret (read_verified (proof "main_ref_verified" (JObj [("sha"%string, JStr sha)]) now))
  | None => mret read_invalid
  end.

Definition read (a : SourceAction) : ReleaseRunSnapshot → P source_call ReadResult :=
  match a with resolve_main => resolve_main_read | verify_ci => checks end.

Definition authorize (run : ReleaseRunSnapshot) : P source_call bool :=
  ask (call_authorizeRead run) (sp_authorizeRead port).

Definition admitted (a : SourceAction) (i : StepIntent) (run : ReleaseRunSnapshot) :
    P source_call bool :=
  if requireBoundIntent i run (action_of a) then authorize run else mret false.

Definition execute (a : SourceAction) (i : StepIntent) (run : ReleaseRunSnapshot) :
    P source_call ReleaseStepObservation :=
  ok ← admitted a i run;
  if negb ok then mret obs_outcome_unknown else
  catch (
    observed ← read a run;
    mret match observed with
         | read_verified e => obs_succeeded [e]
         | read_pending => obs_outcome_unknown
         | read_invalid => obs_failed [] "RELEASE_SOURCE_STATE_MISMATCH"
         end) obs_outcome_unknown.

Definition reconcile (a : SourceAction) (i : StepIntent) (run : ReleaseRunSnapshot) :
    P source_call ReleaseReconciliation :=
  ok ← admitted a i run;
  if negb ok then mret rec_still_unknown else
  catch (
    observed ← read a run;
    match observed with
    | read_verified e => mret (rec_applied [e])
    | read_pending => mret rec_still_unknown
    | read_invalid =>
        now ← clock;
        mret (rec_not_applied [proof "source_state_rejected"
          (JObj [("sha"%string, JStr (sn_sourceCommitSha run));
                 ("action"%string, JStr (action_name (action_of a)))]) now])
    end) rec_still_unknown.

Definition bindReleaseSourceControlReads : list Capability :=
  map (λ a, {| cap_action := a; cap_executionClass := read_only |})
    [resolve_main_commit; verify_canonical_ci].

(** *** Lemmas *)

Lemma mainSha_Ok run l sha l' :
  mainSha run l = (Ok (Some sha), l') →
  sha = toLowerCase (sn_sourceCommitSha run) ∧ SHA40 sha = true ∧
  sp_readMainHead port (length l) call_readMainHead = Some sha.
Proof.
  unfold mainSha. intros E. port_inv. destruct (_ && _) eqn:Hc; [|done].
  bool_inv. naive_solver.
Qed.

(** CI counts as verified only when every check of the run's own commit
    completed with a terminal-success conclusion, the reply was complete, and
    the main ref was the commit before and after the read. *)
Lemma checks_verified run l e l' :
  checks run l = (Ok (read_verified e), l') →
  ∃ n1 n2 n3 r, let sha := toLowerCase (sn_sourceCommitSha run) in
    sp_readMainHead port n1 call_readMainHead = Some sha ∧
    sp_readCommitChecks port n2 (call_readCommitChecks sha) = Some r ∧
    sp_readMainHead port n3 call_readMainHead = Some sha ∧ n1 < n2 < n3 ∧
    cc_commitSha r = sha ∧ (1 <= cc_totalCount r <= 100)%Z ∧
    Z.of_nat (length (cc_checks r)) = cc_totalCount r ∧
    cc_failingCount r = 0%Z ∧ cc_pendingCount r = 0%Z ∧
    Forall (λ c, ck_status c = "completed"%string ∧
                 default ""%string (ck_conclusion c) ∈ TERMINAL) (cc_checks r).
Proof.
  unfold checks. intros E. run_inv.
  match goal with o : option string |- _ => destruct o as [before|] end; [|run_inv; done].
  match goal with Hm : mainSha _ _ = (_, ?l1) |- _ =>
    assert (length l < length l1) by
      (unfold mainSha in Hm; port_inv; rewrite length_app; cbn; lia);
    apply mainSha_Ok in Hm as (-> & _ & Hb) end.
  port_inv. destruct (negb (consistent _ _)) eqn:Hc; port_inv; [done|].
  destruct (incomplete _) eqn:Hi; port_inv; [done|].
  destruct (rejected_checks _) eqn:Hr; port_inv; [done|].
  destruct (negb (bool_decide _)) eqn:Ha; port_inv; [done|].
  unfold consistent, incomplete, rejected_checks in *. bool_inv.
  match goal with Ha : ?o = Some _, Hm : mainSha _ _ = (Ok ?o, _) |- _ =>
    rewrite Ha in Hm; apply mainSha_Ok in Hm as (_ & _ & Ha2) end.
  eexists _, _, _, _. split_and!; [exact Hb|eassumption|exact Ha2|..]; try done; try lia.
  - rewrite length_app. cbn. lia.
  - apply Forall_forall. intros c Hin.
    match goal with Hx : existsb _ _ = false |- _ =>
      pose proof (proj2 (not_true_iff_false _) Hx) as Hnx end.
    rewrite existsb_exists in Hnx.
    destruct (decide (ck_status c = "completed"%string ∧
      default ""%string (ck_conclusion c) ∈ TERMINAL)) as [|Hno]; [done|].
    exfalso. apply Hnx. exists c. split; [by apply list_elem_of_In|].
    rewrite orb_true_iff, !negb_true_iff, !bool_decide_eq_false. apply not_and_l in Hno. done.
Qed.
End source_control.
End SourceControlReads.

(** ** release-prune-capability.ts *)

Module Prune.
Record PruneRequest := {
  pr_workspaceId : string;
  pr_operationId : string;
  pr_dryRun : bool;
  pr_selectionEligible : bool;
  pr_reconcile : bool;
  pr_expectedStateSha256 : option string;
  pr_expectedPlanSha256 : option string;
}.
Inductive prune_status := planned | completed.
#[global] Instance prune_status_eq_dec : EqDecision prune_status.
Proof. solve_decision. Defined.
Record PruneItem := { pi_kind : string; pi_name : string; pi_status : string }.
Record PruneReceipt := {
  pt_operationId : string;
  pt_status : prune_status;
  pt_stateSha256 : string;
  pt_planSha256 : option string;
  pt_items : list PruneItem;
}.

Definition MAX_BATCHES : nat := 20.

(** [SHA.test(planSha256)] with [!!planSha256] *)
Definition plan_ok (p : option string) : bool :=
  match p with Some s => DIGEST s | None => false end.

Definition hex_value (c : Ascii.ascii) : Z :=
  Z.of_nat (if is_digit c then Ascii.nat_of_ascii c - 48 else Ascii.nat_of_ascii c - 87).

(** Character [n] of [s] replaced by [f] of it. *)
Fixpoint map_at (n : nat) (f : Ascii.ascii → Ascii.ascii) (s : string) : string :=
  match n, s with
  | _, EmptyString => EmptyString
  | 0, String c s => String (f c) s
  | S n, String c s => String c (map_at n f s)
  end.

Section prune.
Context {H : Host} (workspaceId : string).

(** A version-4 UUID from the digest: the high nibble of byte 6 is 4, the two
    high bits of byte 8 are 10. *)
Definition batchOperationId (original : string) (index : nat) : string :=
  let h := map_at 16 (λ c, hex_digit (Z.to_nat (Z.lor (Z.land (hex_value c) 3) 8)))
    (map_at 12 (λ _, hex_digit 4)
      (sha256 (original +:+ ":" +:+ pretty (Z.of_nat index)))) in
  String.concat "-" [String.substring 0 8 h; String.substring 8 4 h; String.substring 12 4 h;
    String.substring 16 4 h; String.substring 20 12 h].

Definition verifiedReceipt (receipt : PruneReceipt) (operationId : string) : bool :=
  bool_decide (pt_status receipt = completed) && bool_decide (pt_operationId receipt = operationId) &&
  DIGEST (pt_stateSha256 receipt) && plan_ok (pt_planSha256 receipt) &&
  (length (pt_items receipt) <=? 5) &&
  forallb (λ i, bool_decide (pi_status i = "deleted"%string)) (pt_items receipt).

Definition status_name (st : prune_status) : string :=
  match st with planned => "planned" | completed => "completed" end.
Definition json_of_receipt (r : PruneReceipt) : json :=
  JObj ([("operationId", JStr (pt_operationId r)); ("status", JStr (status_name (pt_status r)));
         ("stateSha256", JStr (pt_stateSha256 r))]%string ++
        match pt_planSha256 r with Some p => [("planSha256"%string, JStr p)] | None => [] end ++
        [("items"%string, JArr (map (λ i,
           JObj [("kind", JStr (pi_kind i)); ("name", JStr (pi_name i));
                 ("status", JStr (pi_status i))]%string) (pt_items r)))]).
Definition receiptEvidence (receipts : list PruneReceipt) (now : string) : EvidenceInput := {|
  ei_kind := "cleanup_receipt"; ei_source := "mcp_v3_prune_releases";
  ei_sha256 := sha256 (json_stringify (JArr (map json_of_receipt receipts)));
  ei_observedAt := now |}.

Inductive prune_call :=
| call_authorized (run : ReleaseRunSnapshot)
| call_prune (r : PruneRequest).

Record PrunePort := {
  pp_authorized : nat → prune_call → option bool;
  pp_prune : nat → prune_call → option PruneReceipt;
}.
Context (port : PrunePort).

Definition authorize (run : ReleaseRunSnapshot) : P prune_call bool :=
  if bool_decide (sn_status run = run_running) &&
     forallb (λ s, bool_decide (ss_action s = cleanup_known_temporary_residue) ||
                   bool_decide (ss_status s = step_succeeded)) (sn_steps run) &&
     negb (length (sn_gates run) =? 0) &&
     forallb (λ g, bool_decide (gs_status g = gate_passed)) (sn_gates run)
  then ask (call_authorized run) (pp_authorized port) else mret false.

Definition preview_request (operationId : string) : PruneRequest := {|
  pr_workspaceId := workspaceId; pr_operationId := operationId; pr_dryRun := true;
  pr_selectionEligible := true; pr_reconcile := false;
  pr_expectedStateSha256 := None; pr_expectedPlanSha256 := None |}.
Definition delete_request (operationId : string) (preview : PruneReceipt) : PruneRequest := {|
  pr_workspaceId := workspaceId; pr_operationId := operationId; pr_dryRun := false;
  pr_selectionEligible := true; pr_reconcile := false;
  pr_expectedStateSha256 := Some (pt_stateSha256 preview);
  pr_expectedPlanSha256 := pt_planSha256 preview |}.
Definition reconcile_request (operationId : string) : PruneRequest := {|
  pr_workspaceId := workspaceId; pr_operationId := operationId; pr_dryRun := true;
  pr_selectionEligible := false; pr_reconcile := true;
  pr_expectedStateSha256 := None; pr_expectedPlanSha256 := None |}.

Definition preview_ok (preview : PruneReceipt) : bool :=
  bool_decide (pt_status preview = planned) && DIGEST (pt_stateSha256 preview) &&
  plan_ok (pt_planSha256 preview) && (length (pt_items preview) <=? 5) &&
  forallb (λ i, bool_decide (pi_status i = "eligible"%string)) (pt_items preview).

Definition matches_preview (done preview : PruneReceipt) : bool :=
  bool_decide (pt_stateSha256 done = pt_stateSha256 preview) &&
  bool_decide (pt_planSha256 done = pt_planSha256 preview) &&
  (length (pt_items done) =? length (pt_items preview)).

(** [for (let index = 0; index < MAX_BATCHES; index++)], [n] batches left. *)
Fixpoint execute_batches (n index : nat) (operation : string) (receipts : list PruneReceipt) :
    P prune_call ReleaseStepObservation :=
  match n with
  | 0 => mret obs_outcome_unknown
  | S n =>
      let operationId := batchOperationId operation index in
      preview ← ask (call_prune (preview_request operationId)) (pp_prune port);
      if negb (preview_ok preview) then mret obs_outcome_unknown else
      receipt ← ask (call_prune (delete_request operationId preview)) (pp_prune port);
      if negb (verifiedReceipt receipt operationId && matches_preview receipt preview)
      then mret obs_outcome_unknown else
      let receipts := receipts ++ [receipt] in
      if length (pt_items receipt) =? 0
      then now ← clock; mret (obs_succeeded [receiptEvidence receipts now])
      else execute_batches n (S index) operation receipts
  end.

Definition execute (i : StepIntent) (run : ReleaseRunSnapshot) :
    P prune_call ReleaseStepObservation :=
  if negb (bool_decide (in_action i = cleanup_known_temporary_residue) &&
           bool_decide (sn_status run = run_running)) then mret obs_outcome_unknown else
  granted ← ask (call_authorized run) (pp_authorized port);
  if negb granted then mret obs_outcome_unknown else
  execute_batches MAX_BATCHES 0 (in_operationId i) [].

Fixpoint reconcile_batches (n index : nat) (operation : string) (receipts : list PruneReceipt) :
    P prune_call ReleaseReconciliation :=
  match n with
  | 0 => mret rec_still_unknown
  | S n =>
      let operationId := batchOperationId operation index in
      answer ← catch (r ← ask (call_prune (reconcile_request operationId)) (pp_prune port);
                      mret (Some r)) None;
      match answer with
      | None => mret rec_still_unknown
      | Some receipt =>
          if negb (verifiedReceipt receipt operationId) then mret rec_still_unknown else
          let receipts := receipts ++ [receipt] in
          if length (pt_items receipt) =? 0
          then now ← clock; mret (rec_applied [receiptEvidence receipts now])
          else reconcile_batches n (S index) operation receipts
      end
  end.

Definition reconcile (i : StepIntent) : P prune_call ReleaseReconciliation :=
  if negb (bool_decide (in_action i = cleanup_known_temporary_residue))
  then mret rec_still_unknown
  else reconcile_batches MAX_BATCHES 0 (in_operationId i) [].

Definition bindReleasePruneCleanup : outcome unit Capability :=
  if negb (blank workspaceId)
  then Ok {| cap_action := cleanup_known_temporary_residue; cap_executionClass := external_effect |}
  else Err tt.

(** *** Lemmas *)

(** A request that may delete. *)
Definition is_delete (c : prune_call) : bool :=
  match c with call_prune r => negb (pr_dryRun r) | _ => false end.

Lemma execute_batches_calls n index op receipts :
  calls_at_most is_delete n (execute_batches n index op receipts).
Proof.
  revert index receipts. induction n as [|n IH]; intros index receipts; cbn [execute_batches];
    [auto with calls|].
  apply calls_bind0; [by apply calls_ask|]. intros preview. apply calls_if; [auto with calls|].
  apply (calls_bind _ 1 n); [apply calls_ask; lia|]. intros receipt.
  apply calls_if; [auto with calls|]. cbv zeta. apply calls_if; [auto with calls|apply IH].
Qed.

Lemma prune_execute_calls i run : calls_at_most is_delete MAX_BATCHES (execute i run).
Proof.
  unfold execute. apply calls_if; [auto with calls|].
  apply calls_bind0; [by apply calls_ask|]. intros g. apply calls_if; [auto with calls|].
  apply execute_batches_calls.
Qed.

Lemma reconcile_batches_calls n index op receipts :
  calls_at_most is_delete 0 (reconcile_batches n index op receipts).
Proof.
  revert index receipts. induction n as [|n IH]; intros index receipts; cbn [reconcile_batches];
    [auto with calls|].
  apply calls_bind0.
  { apply calls_catch, calls_bind0; [by apply calls_ask|auto with calls]. }
  intros [receipt|]; [|auto with calls]. apply calls_if; [auto with calls|]. cbv zeta.
  apply calls_if; [auto with calls|apply IH].
Qed.

(** What a run of batches that reports success has collected. *)
Lemma execute_batches_Ok n index op receipts l ev l' :
  execute_batches n index op receipts l = (Ok (obs_succeeded ev), l') →
  ∃ new last now, ev = [receiptEvidence (receipts ++ new ++ [last]) now] ∧
    length new < n ∧ pt_items last = [] ∧
    ∀ k r, (new ++ [last]) !! k = Some r → verifiedReceipt r (batchOperationId op (index + k)) = true.
Proof.
  revert index receipts l. induction n as [|n IH]; intros index receipts l E;
    cbn [execute_batches] in E; port_inv; [done|].
  destruct (negb (preview_ok _)); port_inv; [done|].
  destruct (negb (_ && matches_preview _ _)) eqn:Hv; port_inv; [done|]. bool_inv.
  match goal with _ : verifiedReceipt ?r _ = true |- _ =>
    destruct (length (pt_items r) =? 0) eqn:Hz; port_inv end.
  - simplify_eq. apply Nat.eqb_eq, length_zero_iff_nil in Hz.
    eexists [], _, _. split_and!; [done|cbn; lia|done|].
    intros [|k] r Hk; cbn in Hk; [|by destruct k]. simplify_eq.
    by rewrite Nat.add_0_r.
  - apply IH in E as (new & last & now & -> & Hlen & Hlast & Hall).
    eexists (_ :: new), last, now. split_and!; [by rewrite <- app_assoc|cbn; lia|done|].
    intros [|k] r Hk; cbn in Hk; [simplify_eq; by rewrite Nat.add_0_r|].
    rewrite Nat.add_succ_r. by apply (Hall k).
Qed.
End prune.
End Prune.
