(* ===== verification/CapabilityRegistry.v ===== *)
(** * CapabilityRegistry: composing the capabilities of a release host

    [composeReleaseCapabilities] of [release-capability-registry.ts], and what the
    capability bindings guarantee to the executor that runs them. *)

From S2P Require Import Prelude Text ReleaseTypes Blueprint ReleaseScenario Executor EffectCapabilities.
From S2P Require Import EffectCapabilities ReadCapabilities.

Inductive registry_error :=
| binding_error
| CAPABILITY_UNRECOGNIZED
| CAPABILITY_CLASS_MISMATCH
| CAPABILITY_DUPLICATE
| CAPABILITY_INCOMPLETE.

(** [installed], a [Map] from actions to capabilities, in insertion order. *)
Definition Installed := list Capability.

(** [definitions.get(action)]: the last blueprint step with the action. *)
Definition definition_of (a : ReleaseAction) : option StepDefinition :=
  List.find (λ s, bool_decide (sd_action s = a)) (rev (bp_steps beta80ReleaseBlueprint)).

Definition lookup_capability (installed : Installed) (a : ReleaseAction) : option Capability :=
  List.find (λ c, bool_decide (cap_action c = a)) installed.

Definition install (installed : Installed) (b : Capability) : outcome registry_error Installed :=
  check CAPABILITY_UNRECOGNIZED (bool_decide (cap_action b ∈ RELEASE_ACTIONS));;
  check CAPABILITY_CLASS_MISMATCH
    match definition_of (cap_action b) with
    | Some step => bool_decide (sd_executionClass step = cap_executionClass b)
    | None => false
    end;;
  check CAPABILITY_DUPLICATE (bool_decide (lookup_capability installed (cap_action b) = None));;
  Ok (installed ++ [b]).

(** The bindings a host supplies; a binding whose constructor threw is an error. *)
Record ReleaseCapabilityComposition := {
  co_sourceControl : bool;
  co_cleanup : option (outcome unit Capability);
  co_tagBootstrap : option (outcome unit Capability);
  co_verifications : bool;
  co_effects : option (outcome unit (list Capability));
  co_publicDistribution : option (outcome unit (list Capability));
  co_other : list Capability;
}.

Definition bound_list (o : option (outcome unit (list Capability))) :
    outcome registry_error (list Capability) :=
  match o with
  | None => Ok []
  | Some (Ok l) => Ok l
  | Some (Err _) => Err binding_error
  end.
Definition bound_one (o : option (outcome unit Capability)) :
    outcome registry_error (list Capability) :=
  match o with
  | None => Ok []
  | Some (Ok c) => Ok [c]
  | Some (Err _) => Err binding_error
  end.

Record ReleaseCapabilityRegistry := {
  rg_capabilities : Installed;
  rg_missingActions : list ReleaseAction;
  rg_ready : bool;
}.

(** The blueprint's actions without a capability. *)
Definition missing_actions (installed : Installed) : list ReleaseAction :=
  map sd_action (List.filter
    (λ s, bool_decide (lookup_capability installed (sd_action s) = None))
    (bp_steps beta80ReleaseBlueprint)).

Definition registry_of (installed : Installed) : ReleaseCapabilityRegistry :=
  {| rg_capabilities := installed; rg_missingActions := missing_actions installed;
     rg_ready := length (missing_actions installed) =? 0 |}.

Definition composeReleaseCapabilities (input : ReleaseCapabilityComposition) :
    outcome registry_error ReleaseCapabilityRegistry :=
  i1 ← fold_outcome install [] (if co_sourceControl input
         then SourceControlReads.bindReleaseSourceControlReads else []);
  cleanup ← bound_one (co_cleanup input);
  i2 ← fold_outcome install i1 cleanup;
  tag ← bound_one (co_tagBootstrap input);
  i3 ← fold_outcome install i2 tag;
  i4 ← fold_outcome install i3 (if co_verifications input
         then Verifications.bindReleaseVerificationReads else []);
  effects ← bound_list (co_effects input);
  i5 ← fold_outcome install i4 effects;
  distribution ← bound_list (co_publicDistribution input);
  i6 ← fold_outcome install i5 distribution;
  installed ← fold_outcome install i6 (co_other input);
  Ok (registry_of installed).

(** [createExecutor]: the capability map the executor is built with. *)
Definition createExecutor (registry : ReleaseCapabilityRegistry) :
    outcome registry_error (ReleaseAction → option Capability) :=
  if negb (length (rg_missingActions registry) =? 0) then Err CAPABILITY_INCOMPLETE
  else Ok (lookup_capability (rg_capabilities registry)).

(** ** The registry *)

(** Every installed capability has the execution class of its blueprint step. *)
Definition classes_ok (installed : Installed) : Prop :=
  ∀ c, c ∈ installed → ∃ s, definition_of (cap_action c) = Some s ∧
    sd_executionClass s = cap_executionClass c.

Lemma install_ok installed b installed' :
  classes_ok installed → install installed b = Ok installed' → classes_ok installed'.
Proof.
  intros Hok. unfold install. rewrite !outcome_bind_Ok.
  intros ([] & _ & ([] & Hc & ([] & _ & [= <-])%outcome_bind_Ok)%outcome_bind_Ok).
  rewrite check_Ok in Hc. intros c [Hin| ->]%elem_of_snoc; [by apply Hok|].
  destruct (definition_of _) as [s|]; [|done]. bool_inv. by exists s.
Qed.

Lemma install_all_ok l installed installed' :
  classes_ok installed → fold_outcome install installed l = Ok installed' → classes_ok installed'.
Proof.
  revert installed. induction l as [|b l IH]; intros installed Hok E; cbn in E.
  - by injection E as <-.
  - apply outcome_bind_Ok in E as (i & Hi & E). eapply IH; [by eapply install_ok|done].
Qed.

Lemma compose_classes input r :
  composeReleaseCapabilities input = Ok r → classes_ok (rg_capabilities r).
Proof.
  unfold composeReleaseCapabilities. intros E.
  repeat match type of E with _ ≫= _ = Ok _ => apply outcome_bind_Ok in E as (? & ? & E) end.
  apply Ok_inj in E as <-. cbn [rg_capabilities registry_of].
  repeat (eapply install_all_ok; [|eassumption]). by intros c ?%not_elem_of_nil.
Qed.

Lemma compose_missing input r a :
  composeReleaseCapabilities input = Ok r → rg_missingActions r = [] →
  (∃ s, s ∈ bp_steps beta80ReleaseBlueprint ∧ sd_action s = a) →
  ∃ c, lookup_capability (rg_capabilities r) a = Some c.
Proof.
  unfold composeReleaseCapabilities. intros E Hm (s & Hs & <-).
  repeat match type of E with _ ≫= _ = Ok _ => apply outcome_bind_Ok in E as (? & ? & E) end.
  apply Ok_inj in E as <-. cbn [rg_capabilities rg_missingActions registry_of] in *.
  unfold missing_actions in Hm. apply map_eq_nil in Hm.
  destruct (lookup_capability _ (sd_action s)) as [c|] eqn:Hl; [by exists c|]. exfalso.
  match type of Hm with ?l = [] => assert (s ∈ l) as Hin end.
  { apply elem_of_rows_filter. split; [done|]. by apply bool_decide_eq_true. }
  rewrite Hm in Hin. by apply not_elem_of_nil in Hin.
Qed.

(** The blueprint has one step per action. *)
Lemma definition_of_step s :
  s ∈ bp_steps beta80ReleaseBlueprint → definition_of (sd_action s) = Some s.
Proof. revert s. apply Forall_forall. repeat constructor. Qed.

(** No missing capability.  A registry that hands out an executor binds
    every step of the registered blueprint with the step's execution class, so the
    executor never stops for a missing capability on a run of that blueprint. *)
Theorem ready_registry_binds_every_step input r caps s snap :
  composeReleaseCapabilities input = Ok r → createExecutor r = Ok caps →
  s ∈ bp_steps beta80ReleaseBlueprint → ss_action snap = sd_action s →
  ss_executionClass snap = sd_executionClass s →
  ∃ c, Executor.binding caps snap = Some c.
Proof.
  intros Hc He Hs Ha Hx. unfold createExecutor in He.
  destruct (negb _) eqn:Hm; [done|]. injection He as <-.
  apply negb_false_iff, Nat.eqb_eq, length_zero_iff_nil in Hm.
  destruct (compose_missing _ _ (sd_action s) Hc Hm) as [c Hl]; [by exists s|].
  unfold Executor.binding. rewrite Ha, Hl.
  pose proof Hl as Hl'. apply find_Some_elem in Hl' as [Hin Hca]. bool_inv.
  destruct (compose_classes _ _ Hc c Hin) as (s' & Hdef & Hclass).
  rewrite Hca, (definition_of_step s Hs) in Hdef. simplify_eq.
  exists c. rewrite Hx, !bool_decide_eq_true_2 by congruence. done.
Qed.

(** ** What the bindings report *)

Section reports.
Context {H : Host}.

(** Effects.  Executing an effect capability starts the operation at most
    once, whatever the port does, and never reports success: the outcome is
    unknown until it is reconciled. *)
Theorem effect_execute_starts_once binding action i run :
  calls_at_most Effects.is_start 1 (Effects.execute binding action i run) ∧
  ∀ l o l', Effects.execute binding action i run l = (Ok o, l') → o = obs_outcome_unknown.
Proof.
  split.
  - unfold Effects.execute. apply calls_bind0; [apply Effects.admitted_calls|].
    intros [r|]; [|auto with calls]. apply (calls_bind _ 1 0); [|auto with calls].
    apply calls_catch, calls_ask. lia.
  - intros l o l' E. unfold Effects.execute in E. run_inv.
    match goal with x : option Effects.ReleaseEffectRequest |- _ => destruct x end;
      run_inv; done.
Qed.

(** Effect receipts.  An effect is reported applied only on a completed
    receipt that names the same action, run, operation, tag and commit, with the
    one evidence item of the action's receipt kind. *)
Theorem effect_applied_has_receipt binding action i run l ev l' :
  Effects.reconcile binding action i run l = (Ok (rec_applied ev), l') →
  ∃ n r receipt e, Effects.request i run action = Some r ∧
    Effects.er_operationId r = in_operationId i ∧ Effects.er_runId r = in_runId i ∧
    Effects.eb_inspect binding n (Effects.call_inspect r) = Some receipt ∧
    Effects.rc_request receipt = r ∧ Effects.rc_status receipt = Effects.effect_completed ∧
    ev = [e] ∧ Effects.RECEIPTS action = Some (ei_kind e).
Proof.
  intros E. unfold Effects.reconcile in E. run_inv.
  match goal with x : option Effects.ReleaseEffectRequest |- _ => destruct x as [r|] end;
    [|run_inv; done].
  match goal with Ha : Effects.admitted _ _ _ _ _ = _ |- _ =>
    apply Effects.admitted_Ok in Ha as [Hr ->] end.
  apply catch_Ok in E as [E|(e & _ & ?)]; [|done]. port_inv.
  match goal with Hv : _ = rec_applied ev |- _ => rename Hv into Hres | Hv : rec_applied ev = _ |- _ => rename Hv into Hres end.
  destruct (Effects.receiptValid r _) eqn:Hv; [|done]. injection Hres as <-.
  unfold Effects.receiptValid in Hv. bool_inv.
  destruct (Effects.request_Some _ _ _ _ Hr) as (Hact & Hrun & Hop & _).
  destruct (Effects.rc_evidence _) as [|e [|? ?]]; try done. bool_inv.
  eexists _, r, _, e. split_and!; try done. by rewrite <- Hact.
Qed.

(** Verification evidence.  A verification that reports success comes from
    a verified receipt for the run's own commit and tag whose evidence has exactly
    the required kinds, once each. *)
Theorem verification_evidence_complete binding action i run l ev l' :
  Verifications.execute binding action i run l = (Ok (obs_succeeded ev), l') →
  Permutation (default [] (Verifications.REQUIRED_KINDS action)) (map ei_kind ev) ∧
  ∃ n receipt, Verifications.vb_inspect binding n (Verifications.call_inspect action run) = Some receipt ∧
    Verifications.vr_sourceCommitSha receipt = sn_sourceCommitSha run ∧
    Verifications.vr_releaseTag receipt = sn_targetRelease run ∧
    Verifications.vr_status receipt = Verifications.verified ∧
    ev = Verifications.vr_evidence receipt.
Proof.
  intros (Hb & n & receipt & Hi & Hv & ->)%Verifications.execute_Ok.
  split; [by eapply Verifications.validReceipt_kinds|]. exists n, receipt.
  unfold Verifications.validReceipt in Hv. bool_inv. done.
Qed.

(** Gates are satisfiable.  Every step of the registered blueprint that
    measures a gate is a verification whose required kinds include all the kinds
    the gate requires, so its successful evidence passes the gate's check. *)
Theorem verifications_cover_gates s g :
  s ∈ bp_steps beta80ReleaseBlueprint → sd_healthGateId s = Some (gd_id g) →
  g ∈ bp_gates beta80ReleaseBlueprint →
  ∃ kinds, Verifications.REQUIRED_KINDS (sd_action s) = Some kinds ∧
    gd_requiredEvidenceKinds g ⊆ kinds.
Proof.
  assert (Forall (λ s, Forall (λ g, sd_healthGateId s = Some (gd_id g) →
    match Verifications.REQUIRED_KINDS (sd_action s) with
    | Some kinds => bool_decide (gd_requiredEvidenceKinds g ⊆ kinds) = true
    | None => False
    end) (bp_gates beta80ReleaseBlueprint)) (bp_steps beta80ReleaseBlueprint)) as Hall.
  { repeat constructor; intros E; first [discriminate E|reflexivity]. }
  intros Hs Hg Hin. rewrite Forall_forall in Hall. specialize (Hall s Hs).
  rewrite Forall_forall in Hall. specialize (Hall g Hin Hg). cbn in Hall.
  destruct (Verifications.REQUIRED_KINDS _) as [kinds|]; [|done].
  exists kinds. by bool_inv.
Qed.

(** Cleanup is bounded and confirmed.  The cleanup capability issues at
    most 20 deleting requests, reconciling issues none, and success means every
    batch had a verified receipt of its own derived operation, the last one
    empty. *)
Theorem cleanup_bounded_and_confirmed workspaceId port i run :
  calls_at_most Prune.is_delete 20 (Prune.execute workspaceId port i run) ∧
  calls_at_most Prune.is_delete 0 (Prune.reconcile workspaceId port i) ∧
  ∀ l ev l', Prune.execute workspaceId port i run l = (Ok (obs_succeeded ev), l') →
    ∃ receipts last now, ev = [Prune.receiptEvidence (receipts ++ [last]) now] ∧
      length receipts < 20 ∧ Prune.pt_items last = [] ∧
      ∀ k r, (receipts ++ [last]) !! k = Some r →
        Prune.verifiedReceipt r (Prune.batchOperationId (in_operationId i) k) = true.
Proof.
  split_and!.
  - apply Prune.prune_execute_calls.
  - unfold Prune.reconcile. apply calls_if; [auto with calls|apply Prune.reconcile_batches_calls].
  - intros l ev l' E. unfold Prune.execute in E.
    destruct (negb _); run_inv; [done|]. port_inv.
    match goal with g : bool |- _ => destruct g end; cbn [negb] in E; run_inv; [|done].
    apply Prune.execute_batches_Ok in E as (new & last & now & -> & ? & ? & ?).
    by exists new, last, now.
Qed.

(** The methods of the public-distribution capabilities a host may invoke. *)
Inductive distribution_method :=
| Execute (a : PublicDistribution.PublicAction) (i : StepIntent) (run : ReleaseRunSnapshot)
| Reconcile (a : PublicDistribution.PublicAction) (i : StepIntent) (run : ReleaseRunSnapshot).

Definition invoke host port (m : distribution_method) (l : list PublicDistribution.distribution_call) :
    list PublicDistribution.distribution_call :=
  match m with
  | Execute a i run => (PublicDistribution.execute host port a i run l).2
  | Reconcile a i run => (PublicDistribution.reconcilePublication host port a i run l).2
  end.

Definition executes_signing (m : distribution_method) : bool :=
  match m with Execute PublicDistribution.sign _ _ => true | _ => false end.

Lemma reconcilePublication_calls host port a i run :
  calls_at_most PublicDistribution.is_dispatch 0
    (PublicDistribution.reconcilePublication host port a i run).
Proof.
  intros l. unfold PublicDistribution.reconcilePublication.
  pose proof (PublicDistribution.common_calls host port a i run l) as Hc.
  unfold mbind at 1, io_bind at 1.
  destruct (PublicDistribution.common host port a i run l) as [[[r|]|e] l1] eqn:E;
    cbn [snd mret io_ret] in *; [|lia|lia].
  apply PublicDistribution.common_Ok in E as [Hm _].
  etrans; [|exact Hc]. rewrite <- (Nat.add_0_r (count_where _ l1)).
  apply calls_catch, calls_bind0.
  { apply calls_ask. cbn. by rewrite Hm. }
  intros o. destruct (successful_run _ _); [|auto with calls].
  apply calls_bind0; [by apply calls_ask|]. intros p. auto with calls.
Qed.

(** One dispatch for two steps.  Over any sequence of invocations of the
    signing and publishing capabilities, GitHub receives at most one workflow
    dispatch per execution of the signing step; publishing and reconciling
    dispatch nothing. *)
Theorem distribution_dispatches_once_per_signing host port ms l :
  count_where PublicDistribution.is_dispatch (foldl (λ l m, invoke host port m l) l ms)
    ≤ count_where PublicDistribution.is_dispatch l + count_where executes_signing ms.
Proof.
  revert l. induction ms as [|m ms IH]; intros l; cbn [foldl]; [lia|].
  etrans; [apply IH|]. unfold count_where at 4. cbn [List.filter].
  assert (count_where PublicDistribution.is_dispatch (invoke host port m l)
    ≤ count_where PublicDistribution.is_dispatch l + if executes_signing m then 1 else 0) as Hm.
  { destruct m as [[|] i run|a i run]; cbn [invoke executes_signing].
    - apply PublicDistribution.distribution_execute_calls.
    - cbn [PublicDistribution.execute snd mret io_ret]. lia.
    - apply reconcilePublication_calls. }
  fold (count_where executes_signing ms). destruct (executes_signing m); cbn [length];
    unfold count_where in *; lia.
Qed.
End reports.

(** ** Instances *)

Section instances.
(** A host that binds everything. *)
Definition full_host : HostRepository :=
  {| hr_workspaceId := "ws"; hr_owner := "owner"; hr_repository := "repo" |}.
Definition full_composition : ReleaseCapabilityComposition := {|
  co_sourceControl := true;
  co_cleanup := Some (Prune.bindReleasePruneCleanup "ws");
  co_tagBootstrap := Some (TagBootstrap.bindReleaseTagBootstrap full_host);
  co_verifications := true;
  co_effects := Some (Effects.bindReleaseEffects (Some
    [deploy_edge; prepare_oracle; prepare_windows; promote_oracle; promote_windows]));
  co_publicDistribution := Some (PublicDistribution.bindReleasePublicDistribution full_host);
  co_other := [] |}.

Definition deploy_step : StepDefinition := nth 6 (bp_steps beta80ReleaseBlueprint)
  (mk_step "" deployment deploy_edge read_only [] [] None).
Definition edge_step : StepDefinition := nth 7 (bp_steps beta80ReleaseBlueprint)
  (mk_step "" deployment deploy_edge read_only [] [] None).

Definition snapshot_of (s : StepDefinition) : ReleaseStepSnapshot := {|
  ss_stepId := sd_id s; ss_stage := sd_stage s; ss_action := sd_action s;
  ss_executionClass := sd_executionClass s; ss_status := step_in_progress; ss_attemptCount := 1;
  ss_operationId := Some "op-1"%string; ss_idempotencyKey := Some "key-1"%string |}.
Definition run_of (s : StepDefinition) : ReleaseRunSnapshot := {|
  sn_runId := "run"; sn_blueprintId := "mcp-v3-public-release"; sn_blueprintVersion := 1;
  sn_blueprintSha256 := ""; sn_targetRelease := "v1.0.0"; sn_sourceCommitSha := digits 40 0 "";
  sn_status := run_running; sn_createdAt := ""; sn_updatedAt := ""; sn_lastSeq := 0;
  sn_steps := [snapshot_of s]; sn_gates := [] |}.
Definition intent_for (s : StepDefinition) : StepIntent := {|
  in_runId := "run"; in_stepId := sd_id s; in_action := sd_action s; in_operationId := "op-1";
  in_idempotencyKey := "key-1"; in_attemptNumber := 1; in_executionClass := sd_executionClass s |}.
Definition evidence_of_kind (kind source : string) : EvidenceInput := {|
  ei_kind := kind; ei_source := source; ei_sha256 := digits 64 0 "";
  ei_observedAt := toISOString 0 |}.

Definition full_registry : ReleaseCapabilityRegistry := Eval vm_compute in
  match composeReleaseCapabilities full_composition with
  | Ok r => r
  | Err _ => {| rg_capabilities := []; rg_missingActions := []; rg_ready := false |}
  end.

Lemma ready_registry_binds_every_step_witness :
  ∃ c, Executor.binding (lookup_capability (rg_capabilities full_registry))
    (snapshot_of deploy_step) = Some c.
Proof.
  apply (ready_registry_binds_every_step full_composition full_registry _ deploy_step);
    [vm_compute; reflexivity|reflexivity| |reflexivity|reflexivity].
  apply list_elem_of_In. do 6 right. by left.
Defined.

Definition effect_port : Effects.ReleaseEffectBinding := {|
  Effects.eb_authorize _ _ := Some true;
  Effects.eb_start _ _ := Some tt;
  Effects.eb_inspect _ c := match c with
    | Effects.call_inspect r => Some {| Effects.rc_request := r;
        Effects.rc_status := Effects.effect_completed;
        Effects.rc_evidence := [evidence_of_kind "edge_deployment_receipt" "mcp_v3_verified_edge"] |}
    | _ => None end |}.

Lemma effect_applied_has_receipt_witness :
  ∃ r, Effects.request (intent_for deploy_step) (run_of deploy_step) deploy_edge = Some r.
Proof.
  destruct (effect_applied_has_receipt effect_port deploy_edge (intent_for deploy_step)
    (run_of deploy_step) [] [evidence_of_kind "edge_deployment_receipt" "mcp_v3_verified_edge"]
    (Effects.reconcile effect_port deploy_edge (intent_for deploy_step) (run_of deploy_step) []).2)
    as (n & r & receipt & e & Hr & _); [vm_compute; reflexivity|].
  exists r. exact Hr.
Defined.

Definition verification_port : Verifications.ReleaseVerificationBinding := {|
  Verifications.vb_authorize _ _ := Some true;
  Verifications.vb_inspect _ _ := Some {|
    Verifications.vr_action := verify_edge_health;
    Verifications.vr_sourceCommitSha := digits 40 0 "";
    Verifications.vr_releaseTag := "v1.0.0"; Verifications.vr_status := Verifications.verified;
    Verifications.vr_evidence := [evidence_of_kind "edge_health_report" "mcp_v3_verified_edge_health"] |} |}.

Lemma verification_evidence_complete_witness :
  Permutation ["edge_health_report"%string]
    (map ei_kind [evidence_of_kind "edge_health_report" "mcp_v3_verified_edge_health"]).
Proof.
  apply (verification_evidence_complete verification_port verify_edge_health (intent_for edge_step)
    (run_of edge_step) [] [evidence_of_kind "edge_health_report" "mcp_v3_verified_edge_health"]
    (Verifications.execute verification_port verify_edge_health (intent_for edge_step)
       (run_of edge_step) []).2). vm_compute. reflexivity.
Defined.

Definition edge_gate : HealthGateDefinition := nth 1 (bp_gates beta80ReleaseBlueprint)
  {| gd_id := ""; gd_stage := deployment; gd_requiredEvidenceKinds := [] |}.

Lemma verifications_cover_gates_witness :
  ∃ kinds, Verifications.REQUIRED_KINDS verify_edge_health = Some kinds ∧
    gd_requiredEvidenceKinds edge_gate ⊆ kinds.
Proof.
  apply (verifications_cover_gates edge_step edge_gate); [|reflexivity|].
  - apply list_elem_of_In. do 7 right. by left.
  - apply list_elem_of_In. right. by left.
Defined.
End instances.
