(* ===== verification/CampaignWorld.v ===== *)
(** * CampaignWorld: the state the delegated campaigns share

    services/workspace-agent/src/campaign keeps its state in files under one
    trusted state directory: a JSON record per campaign, a JSON reservation per
    workspace, and lock files.  [world] is that directory with the log of the
    calls made to the typed capabilities of the host, and the numbers of values
    drawn so far from the runtime's generators.

    A file's contents are the JSON value its text parses to, [None] when the text
    is not JSON.  Records, reservations and lock files have distinct suffixes, so
    [files] and [locks] are two maps. *)

From S2P Require Import Prelude Text.

(** What the campaign code takes from its runtime and from other packages:
    [redactSensitiveText] of @vs-code-gpt/shared, [path.isAbsolute], and the
    [n]-th value of [randomBytes(8).toString("hex")]. *)
Class CampaignHost := {
  campaign_runtime :: Host;
  redactSensitiveText : string → string;
  isAbsolute : string → bool;
  randomHex : nat → string;
}.

(** The errors the campaign code throws, by the code their message starts with;
    [Errno] is an error of the file system, [SyntaxError] of [JSON.parse]. *)
Inductive campaign_error :=
| CAMPAIGN_INVALID
| CAMPAIGN_NOT_FOUND
| CAMPAIGN_RUN_LOCKED
| CAMPAIGN_BINDING_MISMATCH
| CAMPAIGN_OBSERVATION_MISMATCH
| CAMPAIGN_OBSERVATION_INVALID
| CAMPAIGN_UNVERIFIED
| CAMPAIGN_RESOURCE_CONFLICT
| CAMPAIGN_RESOURCE_CLAIM_INVALID
| CAMPAIGN_RESOURCE_INCOMPLETE
| CAMPAIGN_RESOURCE_CLAIM_MISMATCH
| Errno (code : string)
| SyntaxError
| Rejected.
#[global] Instance campaign_error_eq_dec : EqDecision campaign_error.
Proof. solve_decision. Defined.

(** [TypedCampaignCapability]'s methods. *)
Inductive port_method := Execute | Reconcile | Verify.
#[global] Instance port_method_eq_dec : EqDecision port_method.
Proof. solve_decision. Defined.

Record CampaignInvocation := {
  iv_campaignId : string;
  iv_workspaceId : string;
  iv_taskId : string;
  iv_operationId : string;
  iv_action : string;
  iv_targetResource : string;
  iv_expectedState : string;
  iv_argumentsDigest : string;
}.
#[global] Instance CampaignInvocation_eq_dec : EqDecision CampaignInvocation.
Proof. solve_decision. Defined.

(** One call to a capability. *)
Record port_call := { pc_method : port_method; pc_request : CampaignInvocation }.
#[global] Instance port_call_eq_dec : EqDecision port_call.
Proof. solve_decision. Defined.

Record world := {
  files : gmap string (option json);
  locks : gmap string (option json);
  draws : nat;
  calls : list port_call;
}.

Definition set_files (f : gmap string (option json) → gmap string (option json)) (w : world) :=
  {| files := f (files w); locks := locks w; draws := draws w; calls := calls w |}.
Definition set_locks (f : gmap string (option json) → gmap string (option json)) (w : world) :=
  {| files := files w; locks := f (locks w); draws := draws w; calls := calls w |}.
Definition drawn (w : world) :=
  {| files := files w; locks := locks w; draws := S (draws w); calls := calls w |}.
Definition log_call (c : port_call) (w : world) :=
  {| files := files w; locks := locks w; draws := draws w; calls := calls w ++ [c] |}.

Definition W := io world campaign_error.

(** [ensure(ok, message)] without state and with it. *)
Definition ensure (ok : bool) : outcome campaign_error unit := check CAMPAIGN_INVALID ok.

(** The next value of one of the runtime's generators. *)
Definition draw {A} (generator : nat → A) : W A :=
  n ← gets draws; modify drawn;; mret (generator n).

Definition lift {A} (o : outcome campaign_error A) : W A := λ w, (o, w).

Lemma lift_Ok {A} (o : outcome campaign_error A) w a w' :
  lift o w = (Ok a, w') ↔ o = Ok a ∧ w' = w.
Proof. unfold lift. naive_solver. Qed.

Lemma draw_Ok {A} (g : nat → A) w a w' :
  draw g w = (Ok a, w') ↔ a = g (draws w) ∧ w' = drawn w.
Proof. unfold draw. split; [intros ?; run_inv; naive_solver|]. by intros [-> ->]. Qed.

Lemma draw_bind {A B} (g : nat → A) (k : A → W B) w :
  (draw g ≫= k) w = k (g (draws w)) (drawn w).
Proof. done. Qed.

Lemma lift_bind {A B} (o : outcome campaign_error A) (k : A → W B) w :
  (lift o ≫= k) w = match o with Ok a => k a w | Err e => (Err e, w) end.
Proof. by destruct o. Qed.

Ltac world_inv1 :=
  match goal with
  | H : lift _ _ = (Ok _, _) |- _ => apply lift_Ok in H as [? ?]; subst
  | H : draw _ _ = (Ok _, _) |- _ => apply draw_Ok in H as [? ?]; subst
  | _ => run_inv1
  end.
Ltac world_inv := repeat world_inv1.

(** ** What a lock promises its clients

    [CampaignRunLease.run(file, task)]: the lock is refused and nothing but the
    lock directory changed, or the task ran once, on the files as they were, and
    what the caller sees is the task's outcome or a later refusal. *)
Class RunLease := {
  lease_run : ∀ {A}, string → W A → W A;
  lease_run_spec : ∀ {A} file (task : W A) w r w',
    lease_run file task w = (r, w') →
    (∃ e, r = Err e ∧ files w' = files w ∧ calls w' = calls w) ∨
    ∃ w0 r0 w1, files w0 = files w ∧ calls w0 = calls w ∧ draws w ≤ draws w0 ∧
      task w0 = (r0, w1) ∧ files w' = files w1 ∧ calls w' = calls w1 ∧
      (r = r0 ∨ ∃ e, r = Err e);
}.

(** ** JSON values read back from a file *)

Definition isRecord (v : json) : bool := match v with JObj _ => true | _ => false end.

(** [typeof value === "string"] and the string. *)
Definition as_string (v : option json) : option string :=
  match v with Some (JStr s) => Some s | _ => None end.

(** [Array.isArray(value)] and the elements. *)
Definition as_array (v : option json) : option (list json) :=
  match v with Some (JArr l) => Some l | _ => None end.

(** [typeof value === "number" && Number.isSafeInteger(value)] *)
Definition as_integer (v : option json) : option Z :=
  match v with
  | Some (JNum z) => if (Z.abs z <=? 9007199254740991)%Z then Some z else None
  | _ => None
  end.

(** A cast [as string[]] of an array read from JSON. *)
Definition as_strings (v : option json) : option (list string) :=
  l ← as_array v; mapM (λ x, as_string (Some x)) l.

Lemma as_strings_JArr (l : list string) :
  as_strings (Some (JArr (map JStr l))) = Some l.
Proof.
  unfold as_strings. cbn. induction l as [|x l IH]; [done|]. cbn. by rewrite IH.
Qed.
