(* ===== verification/CampaignLedger.v ===== *)
(** * CampaignLedger: the durable ledger of delegated campaigns

    services/workspace-agent/src/campaign/delegated-campaign-ledger.ts.  A campaign
    is an authorised plan: tasks with dependencies, each bound to a resource, an
    expected state and a digest of its arguments.  The ledger persists one JSON
    record per campaign and lets a coordinator claim the next runnable task and
    move a claimed task to its outcome.

    An action is the string of its TypeScript literal type.  Error messages after
    the code [CAMPAIGN_INVALID] are not modelled.  The casts of [parsePersisted]
    ([value.tasks as CampaignStep[]] and the like) are checked here: a field whose
    JSON type is not the one the cast claims is refused.  The source lets such a
    field reach the pattern tests of [normalize], which refuse it too unless
    JavaScript converts it to a matching string (an identifier stored as a number or
    as a one-element array). *)

From S2P Require Import Prelude Text Dfs CampaignWorld.

Definition CAMPAIGN_ACTIONS : list string :=
  ["inspect"; "edit"; "test"; "commit"; "push"; "pr"; "ci";
   "merge"; "deploy"; "release"; "reprovision"; "rotate"; "revoke"]%string.

Inductive CampaignTaskState :=
| pending | in_flight | outcome_unknown | completed | blocked | failed.
#[global] Instance CampaignTaskState_eq_dec : EqDecision CampaignTaskState.
Proof. solve_decision. Defined.

Definition state_name (s : CampaignTaskState) : string :=
  match s with
  | pending => "pending" | in_flight => "in_flight" | outcome_unknown => "outcome_unknown"
  | completed => "completed" | blocked => "blocked" | failed => "failed"
  end.

(** [STATES.has(value)] and the state. *)
Definition state_of_name (s : string) : option CampaignTaskState :=
  List.find (λ st, bool_decide (state_name st = s))
    [pending; in_flight; outcome_unknown; completed; blocked; failed].

Record CampaignProof := { pf_kind : string; pf_reference : string }.
#[global] Instance CampaignProof_eq_dec : EqDecision CampaignProof.
Proof. solve_decision. Defined.

Record CampaignStep := {
  cs_id : string;
  cs_action : string;
  cs_dependsOn : list string;
  cs_targetResource : string;
  cs_expectedState : string;
  cs_argumentsDigest : string;
}.
#[global] Instance CampaignStep_eq_dec : EqDecision CampaignStep.
Proof. solve_decision. Defined.

(** [ci_keys] is the order of the object's own properties, which
    [JSON.stringify] follows. *)
Record DelegatedCampaignInput := {
  ci_campaignId : string;
  ci_workspaceId : string;
  ci_objective : string;
  ci_authorizedActions : list string;
  ci_tasks : list CampaignStep;
  ci_keys : list string;
}.

Record CampaignTask := {
  ct_step : CampaignStep;
  ct_state : CampaignTaskState;
  ct_operationId : option string;
  ct_proof : option CampaignProof;
}.
#[global] Instance CampaignTask_eq_dec : EqDecision CampaignTask.
Proof. solve_decision. Defined.
Notation ct_id t := (cs_id (ct_step t)).

Record CampaignRecord := {
  cr_campaignId : string;
  cr_workspaceId : string;
  cr_ownerScopeHash : string;
  cr_definitionDigest : string;
  cr_objective : string;
  cr_authorizedActions : list string;
  cr_tasks : list CampaignTask;
  cr_revision : Z;
  cr_createdAt : string;
  cr_updatedAt : string;
}.

(** The states [transition] may be asked for. *)
Inductive NextState := to_completed | to_failed | to_blocked | to_outcome_unknown.
#[global] Instance NextState_eq_dec : EqDecision NextState.
Proof. solve_decision. Defined.
Definition next_state (n : NextState) : CampaignTaskState :=
  match n with
  | to_completed => completed | to_failed => failed
  | to_blocked => blocked | to_outcome_unknown => outcome_unknown
  end.

Inductive CampaignClaim :=
| claimed (taskId operationId : string) (campaign : CampaignRecord)
| no_runnable_step (campaign : CampaignRecord).

(** ** Patterns *)

Definition UUID : string → bool := uuid_pattern.
Definition TASK_ID : string → bool :=
  token is_lower (λ c, is_lower c || is_digit c || char_in "-" c) 63.
Definition WORKSPACE_ID : string → bool :=
  token is_alnum (λ c, is_alnum c || char_in "._-" c) 127.
Definition BOUND_VALUE : string → bool :=
  token is_alnum (λ c, is_alnum c || char_in ":._/@-" c) 255.
Definition SHA256 : string → bool := exactly is_hex_lower 64.

(** [Array.prototype.sort] of strings: by code units. *)
Definition sort_strings : list string → list string := order_by String.leb.

(** ** JSON images *)

Definition json_of_step (t : CampaignStep) : list (string * json) :=
  [("id", JStr (cs_id t)); ("action", JStr (cs_action t));
   ("dependsOn", JArr (map JStr (cs_dependsOn t)));
   ("targetResource", JStr (cs_targetResource t));
   ("expectedState", JStr (cs_expectedState t));
   ("argumentsDigest", JStr (cs_argumentsDigest t))]%string.

Definition input_property (i : DelegatedCampaignInput) (key : string) : json :=
  if bool_decide (key = "campaignId")%string then JStr (ci_campaignId i) else
  if bool_decide (key = "workspaceId")%string then JStr (ci_workspaceId i) else
  if bool_decide (key = "objective")%string then JStr (ci_objective i) else
  if bool_decide (key = "authorizedActions")%string
  then JArr (map JStr (ci_authorizedActions i))
  else JArr (map (λ t, JObj (json_of_step t)) (ci_tasks i)).

Definition json_of_input (i : DelegatedCampaignInput) : json :=
  JObj (map (λ k, (k, input_property i k)) (ci_keys i)).

(** The property order of the literal [parsePersisted] passes to [normalize]. *)
Definition persisted_keys : list string :=
  ["campaignId"; "workspaceId"; "objective"; "authorizedActions"; "tasks"]%string.

Definition json_of_proof (p : CampaignProof) : json :=
  JObj [("kind", JStr (pf_kind p)); ("reference", JStr (pf_reference p))]%string.

Definition json_of_task (t : CampaignTask) : json :=
  JObj (json_of_step (ct_step t) ++ [("state"%string, JStr (state_name (ct_state t)))] ++
    match ct_operationId t with Some o => [("operationId"%string, JStr o)] | None => [] end ++
    match ct_proof t with Some p => [("proof"%string, json_of_proof p)] | None => [] end).

Definition json_of_record (r : CampaignRecord) : json :=
  JObj [("version", JNum 1); ("campaignId", JStr (cr_campaignId r));
        ("workspaceId", JStr (cr_workspaceId r));
        ("ownerScopeHash", JStr (cr_ownerScopeHash r));
        ("definitionDigest", JStr (cr_definitionDigest r));
        ("objective", JStr (cr_objective r));
        ("authorizedActions", JArr (map JStr (cr_authorizedActions r)));
        ("tasks", JArr (map json_of_task (cr_tasks r)));
        ("revision", JNum (cr_revision r)); ("createdAt", JStr (cr_createdAt r));
        ("updatedAt", JStr (cr_updatedAt r))]%string.

(** ** normalize *)

Section ledger.
Context `{CampaignHost}.

Definition hash (value : string) : string := sha256 value.

Definition task_valid (permissions ids : list string) (task : CampaignStep) : bool :=
  TASK_ID (cs_id task) && bool_decide (cs_id task ∉ ids) &&
  bool_decide (cs_action task ∈ CAMPAIGN_ACTIONS) &&
  bool_decide (cs_action task ∈ permissions) &&
  BOUND_VALUE (cs_targetResource task) && negb (includes ".." (cs_targetResource task)) &&
  BOUND_VALUE (cs_expectedState task) && negb (includes ".." (cs_expectedState task)) &&
  SHA256 (cs_argumentsDigest task) &&
  (length (cs_dependsOn task) <=? 64).

Definition dependencies_valid (ids : list string) (task : CampaignStep) : bool :=
  bool_decide (NoDup (cs_dependsOn task)) &&
  forallb (λ dep, bool_decide (dep ∈ ids) && bool_decide (dep ≠ cs_id task))
    (cs_dependsOn task).

(** [byId.get(id)!.dependsOn]; the identifiers are distinct at this point. *)
Definition task_deps (tasks : list CampaignStep) (id : string) : option (list string) :=
  cs_dependsOn <$> List.find (λ t, bool_decide (cs_id t = id)) tasks.

Definition dependency_search (tasks : list CampaignStep) : outcome campaign_error unit :=
  match (visit_from (task_deps tasks) CAMPAIGN_INVALID CAMPAIGN_INVALID
           (map cs_id tasks) nothing_visited).1 with
  | Ok _ => Ok tt
  | Err (Some e) => Err e
  | Err None => Err CAMPAIGN_INVALID
  end.

Definition normal_step (t : CampaignStep) : CampaignStep :=
  {| cs_id := cs_id t; cs_action := cs_action t;
     cs_dependsOn := sort_strings (cs_dependsOn t);
     cs_targetResource := cs_targetResource t; cs_expectedState := cs_expectedState t;
     cs_argumentsDigest := cs_argumentsDigest t |}.

Definition normalize (input : DelegatedCampaignInput) :
    outcome campaign_error DelegatedCampaignInput :=
  ensure (UUID (ci_campaignId input));;
  ensure (WORKSPACE_ID (ci_workspaceId input));;
  ensure ((0 <? String.length (ci_objective input)) &&
          (String.length (ci_objective input) <=? 4000));;
  ensure (bool_decide (redactSensitiveText (ci_objective input) = ci_objective input));;
  ensure ((0 <? length (ci_authorizedActions input)) &&
          (length (ci_authorizedActions input) <=? length CAMPAIGN_ACTIONS));;
  ensure ((0 <? length (ci_tasks input)) && (length (ci_tasks input) <=? 64));;
  ensure (bool_decide (NoDup (ci_authorizedActions input)) &&
          forallb (λ a, bool_decide (a ∈ CAMPAIGN_ACTIONS)) (ci_authorizedActions input));;
  ids ← fold_outcome (λ ids task,
          ensure (task_valid (ci_authorizedActions input) ids task);; Ok (cs_id task :: ids))
          [] (ci_tasks input);
  fold_outcome (λ _ task, ensure (dependencies_valid ids task)) tt (ci_tasks input);;
  dependency_search (ci_tasks input);;
  Ok {| ci_campaignId := ci_campaignId input; ci_workspaceId := ci_workspaceId input;
        ci_objective := redactSensitiveText (ci_objective input);
        ci_authorizedActions := sort_strings (ci_authorizedActions input);
        ci_tasks := map normal_step (ci_tasks input);
        ci_keys := ci_keys input |}.

Definition definition_digest (i : DelegatedCampaignInput) : string :=
  hash (json_stringify (json_of_input i)).

(** ** parsePersisted *)

Definition cast_step (t : json) : option CampaignStep :=
  id ← as_string (prop "id" t); action ← as_string (prop "action" t);
  dependsOn ← as_strings (prop "dependsOn" t);
  targetResource ← as_string (prop "targetResource" t);
  expectedState ← as_string (prop "expectedState" t);
  argumentsDigest ← as_string (prop "argumentsDigest" t);
  Some {| cs_id := id; cs_action := action; cs_dependsOn := dependsOn;
          cs_targetResource := targetResource; cs_expectedState := expectedState;
          cs_argumentsDigest := argumentsDigest |}.

Definition cast_input (v : json) (objective : string) : option DelegatedCampaignInput :=
  campaignId ← as_string (prop "campaignId" v);
  workspaceId ← as_string (prop "workspaceId" v);
  authorizedActions ← as_strings (prop "authorizedActions" v);
  tasks ← as_array (prop "tasks" v) ≫= mapM cast_step;
  Some {| ci_campaignId := campaignId; ci_workspaceId := workspaceId;
          ci_objective := objective; ci_authorizedActions := authorizedActions;
          ci_tasks := tasks; ci_keys := persisted_keys |}.

Definition reference_ok (reference : string) : bool :=
  (0 <? String.length reference) && (String.length reference <=? 300).

Definition parse_proof (v : json) : option CampaignProof :=
  kind ← as_string (prop "kind" v); reference ← as_string (prop "reference" v);
  if bool_decide (kind = "verified")%string && reference_ok reference
  then Some {| pf_kind := kind; pf_reference := reference |} else None.

Definition required {A} (o : option A) : outcome campaign_error A :=
  match o with Some a => Ok a | None => Err CAMPAIGN_INVALID end.

(** The operation identity a task must have in its state. *)
Definition parse_operationId (state : CampaignTaskState) (v : option json) :
    outcome campaign_error (option string) :=
  if bool_decide (state = pending) then
    ensure (negb (bool_decide (is_Some v)));; Ok None
  else
    o ← required (as_string v); ensure (UUID o);; Ok (Some o).

Definition parse_task (t : json) (base : CampaignStep) : outcome campaign_error CampaignTask :=
  name ← required (as_string (prop "state" t));
  state ← required (state_of_name name);
  step ← required (cast_step t);
  ensure (bool_decide (cs_id step = cs_id base) &&
          bool_decide (cs_action step = cs_action base) &&
          bool_decide (json_stringify (JArr (map JStr (cs_dependsOn step))) =
                       json_stringify (JArr (map JStr (cs_dependsOn base)))) &&
          bool_decide (cs_targetResource step = cs_targetResource base) &&
          bool_decide (cs_expectedState step = cs_expectedState base) &&
          bool_decide (cs_argumentsDigest step = cs_argumentsDigest base));;
  operationId ← parse_operationId state (prop "operationId" t);
  proof ← (if bool_decide (state = completed) || bool_decide (is_Some (prop "proof" t))
           then p ← required (prop "proof" t ≫= parse_proof); Ok (Some p)
           else Ok None);
  Ok {| ct_step := base; ct_state := state; ct_operationId := operationId; ct_proof := proof |}.

(** [value.tasks.map((t, i) => ...)] over the normalised steps. *)
Fixpoint parse_tasks (ts : list json) (bases : list CampaignStep) :
    outcome campaign_error (list CampaignTask) :=
  match ts, bases with
  | [], [] => Ok []
  | t :: ts, base :: bases => x ← parse_task t base; xs ← parse_tasks ts bases; Ok (x :: xs)
  | _, _ => Err CAMPAIGN_INVALID
  end.

Definition parsePersisted (v : json) (ownerScopeHash : string) :
    outcome campaign_error CampaignRecord :=
  ensure (isRecord v && bool_decide (as_integer (prop "version" v) = Some 1%Z));;
  ensure (bool_decide (as_string (prop "ownerScopeHash" v) = Some ownerScopeHash));;
  objective ← required (as_string (prop "objective" v));
  definitionDigest ← required (as_string (prop "definitionDigest" v));
  ensure (SHA256 definitionDigest);;
  revision ← required (as_integer (prop "revision" v));
  ensure (0 <=? revision)%Z;;
  createdAt ← required (as_string (prop "createdAt" v));
  updatedAt ← required (as_string (prop "updatedAt" v));
  given ← required (cast_input v objective);
  input ← normalize given;
  ensure (bool_decide (definitionDigest = definition_digest input));;
  ts ← required (as_array (prop "tasks" v));
  tasks ← parse_tasks ts (ci_tasks input);
  Ok {| cr_campaignId := ci_campaignId input; cr_workspaceId := ci_workspaceId input;
        cr_ownerScopeHash := ownerScopeHash; cr_definitionDigest := definitionDigest;
        cr_objective := ci_objective input;
        cr_authorizedActions := ci_authorizedActions input;
        cr_tasks := tasks; cr_revision := revision;
        cr_createdAt := createdAt; cr_updatedAt := updatedAt |}.

(** ** DelegatedCampaignLedger *)

Record DelegatedCampaignLedger := {
  directory : string;
  ownerScopeHash : string;
}.

Definition new_DelegatedCampaignLedger (stateDirectory ownerScope : string) :
    outcome campaign_error DelegatedCampaignLedger :=
  ensure (isAbsolute stateDirectory);;
  ensure (0 <? String.length ownerScope);;
  Ok {| directory := stateDirectory +:+ "/delegated-campaigns";
        ownerScopeHash := hash ownerScope |}.

Context `{RunLease} (L : DelegatedCampaignLedger).

(** [[this.ownerScopeHash, workspaceId, id].join(":")] names the record. *)
Definition record_path (workspaceId id : string) : string :=
  directory L +:+ "/" +:+
  hash (ownerScopeHash L +:+ ":" +:+ workspaceId +:+ ":" +:+ id) +:+ ".json".

Definition file (workspaceId id : string) : outcome campaign_error string :=
  ensure (WORKSPACE_ID workspaceId && UUID id);;
  Ok (record_path workspaceId id).

Definition read (workspaceId id : string) : W (option CampaignRecord) :=
  f ← lift (file workspaceId id);
  text ← gets (λ w, files w !! f);
  match text with
  | None => mret None
  | Some None => throw SyntaxError
  | Some (Some v) => r ← lift (parsePersisted v (ownerScopeHash L)); mret (Some r)
  end.

Definition get : string → string → W (option CampaignRecord) := read.

(** [file] is evaluated before the lock is requested. *)
Definition locked {A} (workspaceId id : string) (fn : W A) : W A :=
  f ← lift (file workspaceId id);
  lease_run (f +:+ ".lock") fn.

(** Written to a fresh temporary file which is then renamed. *)
Definition write (record : CampaignRecord) : W unit :=
  target ← lift (file (cr_workspaceId record) (cr_campaignId record));
  suffix ← draw randomHex;
  let temp := target +:+ ".tmp-" +:+ suffix in
  taken ← gets (λ w, files w !! temp);
  require (negb (bool_decide (is_Some taken))) (Errno "EEXIST");;
  modify (set_files <[temp := Some (json_of_record record)]>);;
  modify (set_files (λ m, delete temp (<[target := Some (json_of_record record)]> m))).

Definition withExclusiveRun {A} (workspaceId id : string) (run : W A) : W A :=
  f ← lift (file workspaceId id);
  lease_run (f +:+ ".run.lock") run.

Definition created_record (normalized : DelegatedCampaignInput) (at_ : string) :
    CampaignRecord :=
  {| cr_campaignId := ci_campaignId normalized; cr_workspaceId := ci_workspaceId normalized;
     cr_ownerScopeHash := ownerScopeHash L; cr_definitionDigest := definition_digest normalized;
     cr_objective := ci_objective normalized;
     cr_authorizedActions := ci_authorizedActions normalized;
     cr_tasks := map (λ t, {| ct_step := t; ct_state := pending; ct_operationId := None;
                              ct_proof := None |}) (ci_tasks normalized);
     cr_revision := 0; cr_createdAt := at_; cr_updatedAt := at_ |}.

Definition create (input : DelegatedCampaignInput) : W CampaignRecord :=
  normalized ← lift (normalize input);
  let digest := definition_digest normalized in
  locked (ci_workspaceId normalized) (ci_campaignId normalized) (
    old ← read (ci_workspaceId normalized) (ci_campaignId normalized);
    match old with
    | Some old =>
        lift (ensure (bool_decide (cr_definitionDigest old = digest)));; mret old
    | None =>
        at_ ← draw toISOString;
        let record := created_record normalized at_ in
        write record;; mret record
    end).

(** ** claimNext *)

(** [record.tasks.find(d => d.id === dep)?.state === "completed"] *)
Definition dependency_completed (tasks : list CampaignTask) (dep : string) : bool :=
  match List.find (λ d, bool_decide (ct_id d = dep)) tasks with
  | Some d => bool_decide (ct_state d = completed)
  | None => false
  end.

(** Another task left the resource of [t] in an unknown or blocked state. *)
Definition resource_uncertain (tasks : list CampaignTask) (t : CampaignTask) : bool :=
  existsb (λ other, bool_decide (ct_id other ≠ ct_id t) &&
    (bool_decide (ct_state other = outcome_unknown) || bool_decide (ct_state other = blocked)) &&
    bool_decide (cs_targetResource (ct_step other) = cs_targetResource (ct_step t))) tasks.

Definition runnable (tasks : list CampaignTask) (t : CampaignTask) : bool :=
  bool_decide (ct_state t = pending) &&
  forallb (dependency_completed tasks) (cs_dependsOn (ct_step t)) &&
  negb (resource_uncertain tasks t).

(** The object [find] returned is mutated in place: the task with its
    identifier, identifiers being distinct. *)
Definition set_task (id : string) (f : CampaignTask → CampaignTask) (updatedAt : string)
    (r : CampaignRecord) : CampaignRecord :=
  {| cr_campaignId := cr_campaignId r; cr_workspaceId := cr_workspaceId r;
     cr_ownerScopeHash := cr_ownerScopeHash r; cr_definitionDigest := cr_definitionDigest r;
     cr_objective := cr_objective r; cr_authorizedActions := cr_authorizedActions r;
     cr_tasks := update_where (λ t, bool_decide (ct_id t = id)) f (cr_tasks r);
     cr_revision := cr_revision r + 1; cr_createdAt := cr_createdAt r;
     cr_updatedAt := updatedAt |}.

Definition claim_task (operationId : string) (t : CampaignTask) : CampaignTask :=
  {| ct_step := ct_step t; ct_state := in_flight; ct_operationId := Some operationId;
     ct_proof := ct_proof t |}.

Definition claimNext (workspaceId id : string) : W CampaignClaim :=
  locked workspaceId id (
    found ← read workspaceId id;
    record ← lift (required found);
    if existsb (λ t, bool_decide (ct_state t = in_flight)) (cr_tasks record)
    then mret (no_runnable_step record) else
    match List.find (runnable (cr_tasks record)) (cr_tasks record) with
    | None => mret (no_runnable_step record)
    | Some available =>
        operationId ← draw randomUUID;
        updatedAt ← draw toISOString;
        let record := set_task (ct_id available) (claim_task operationId) updatedAt record in
        write record;;
        mret (claimed (ct_id available) operationId record)
    end).

(** ** transition *)

Definition proof_verified (proof : option CampaignProof) : bool :=
  match proof with
  | Some p => bool_decide (pf_kind p = "verified")%string
  | None => false
  end.

Definition evidence_ok (proof : option CampaignProof) : bool :=
  match proof with
  | Some p => bool_decide (pf_kind p = "verified")%string && reference_ok (pf_reference p)
  | None => false
  end.

Definition settle_task (next : CampaignTaskState) (proof : option CampaignProof)
    (t : CampaignTask) : CampaignTask :=
  {| ct_step := ct_step t; ct_state := next; ct_operationId := ct_operationId t;
     ct_proof := if proof_verified proof then proof else ct_proof t |}.

Definition transition (workspaceId id taskId operationId : string)
    (next : NextState) (proof : option CampaignProof) : W CampaignRecord :=
  locked workspaceId id (
    found ← read workspaceId id;
    record ← lift (required found);
    task ← lift (required (List.find (λ t, bool_decide (ct_id t = taskId)) (cr_tasks record)));
    lift (ensure (bool_decide (ct_operationId task = Some operationId) && UUID operationId));;
    lift (ensure (bool_decide (ct_state task = in_flight) ||
                  bool_decide (ct_state task = outcome_unknown)));;
    lift (ensure (negb (bool_decide (ct_state task = outcome_unknown)) ||
                  negb (bool_decide (next = to_outcome_unknown))));;
    let needsEvidence :=
      bool_decide (next = to_completed) || bool_decide (ct_state task = outcome_unknown) in
    lift (ensure (negb needsEvidence || evidence_ok proof));;
    updatedAt ← draw toISOString;
    let record := set_task taskId (settle_task (next_state next) proof) updatedAt record in
    write record;;
    mret record).
End ledger.

#[global] Arguments UUID : simpl never.
#[global] Arguments TASK_ID : simpl never.
#[global] Arguments WORKSPACE_ID : simpl never.
#[global] Arguments BOUND_VALUE : simpl never.
#[global] Arguments SHA256 : simpl never.
#[global] Arguments record_path : simpl never.
#[global] Arguments reference_ok : simpl never.
#[global] Arguments json_of_record : simpl never.
