(* ===== verification/CampaignRecords.v ===== *)
(** * CampaignRecords: well-formed plans and the persisted record

    [normalize] accepts exactly the plans of [input_ok] and is idempotent;
    [parsePersisted] returns exactly well-formed records ([record_ok]) and reads
    back every well-formed record that was written. *)

From S2P Require Import Prelude Text Dfs CampaignWorld CampaignLedger.
From Stdlib Require Import Sorting.Sorted.

(** ** Sorting strings *)

Lemma leb_total a b : String.leb a b = false → String.leb b a = true.
Proof.
  unfold String.leb. rewrite (String.compare_antisym b a).
  by destruct (String.compare a b).
Qed.

Lemma leb_trans a b c : String.leb a b = true → String.leb b c = true → String.leb a c = true.
Proof.
  intros H1 H2. destruct (String.leb a c) eqn:H3; [done|].
  apply leb_total in H3 as H3'. unfold String.leb in *.
  destruct (String.compare a c) eqn:E; try done.
  destruct (String.compare a b) eqn:E1; try done.
  - apply String.compare_eq_iff in E1 as ->. by rewrite E in H2.
  - destruct (String.compare b c) eqn:E2; try done.
    + apply String.compare_eq_iff in E2 as ->. congruence.
    + assert (String.compare c a = Gt) as Hca; [|by rewrite Hca in H3'].
      eapply string_compare_Gt_trans; rewrite String.compare_antisym; [by rewrite E2|by rewrite E1].
Qed.

Notation sorted := (StronglySorted (λ a b, String.leb a b = true)).

Lemma insert_sorted_sorted x l : sorted l → sorted (insert_sorted String.leb x l).
Proof.
  induction 1 as [|y l Hl IH Hy]; cbn; [by repeat constructor|].
  destruct (String.leb x y) eqn:Hxy.
  - constructor; [by constructor|]. constructor; [done|].
    eapply List.Forall_impl; [|exact Hy]. intros z Hz. by eapply leb_trans.
  - constructor; [done|]. eapply Permutation_Forall; [symmetry; apply insert_sorted_perm|].
    constructor; [by apply leb_total|done].
Qed.

Lemma sort_strings_sorted l : sorted (sort_strings l).
Proof. induction l as [|x l IH]; cbn; [constructor|]. by apply insert_sorted_sorted. Qed.

Lemma sort_strings_id l : sorted l → sort_strings l = l.
Proof.
  induction 1 as [|x l Hl IH Hx]; [done|]. unfold sort_strings, order_by in *. cbn.
  rewrite IH. destruct l as [|y l]; [done|]. cbn. inversion Hx; subst. by rewrite H1.
Qed.

Lemma sort_strings_perm l : Permutation (sort_strings l) l.
Proof. apply order_by_perm. Qed.
Lemma sort_strings_idem l : sort_strings (sort_strings l) = sort_strings l.
Proof. apply sort_strings_id, sort_strings_sorted. Qed.
Lemma elem_of_sort_strings x l : x ∈ sort_strings l ↔ x ∈ l.
Proof. by rewrite sort_strings_perm. Qed.
Lemma length_sort_strings l : length (sort_strings l) = length l.
Proof. by rewrite sort_strings_perm. Qed.

#[global] Arguments sort_strings : simpl never.

Section records.
Context `{CampaignHost}.

(** ** Plans [normalize] accepts *)

Record input_ok (i : DelegatedCampaignInput) : Prop := {
  ok_campaignId : UUID (ci_campaignId i) = true;
  ok_workspaceId : WORKSPACE_ID (ci_workspaceId i) = true;
  ok_objective : 0 < String.length (ci_objective i) ≤ 4000;
  ok_no_secret : redactSensitiveText (ci_objective i) = ci_objective i;
  ok_actions_count : 0 < length (ci_authorizedActions i) ≤ length CAMPAIGN_ACTIONS;
  ok_tasks_count : 0 < length (ci_tasks i) ≤ 64;
  ok_actions_nodup : NoDup (ci_authorizedActions i);
  ok_actions : ∀ a, a ∈ ci_authorizedActions i → a ∈ CAMPAIGN_ACTIONS;
  ok_ids : NoDup (map cs_id (ci_tasks i));
  ok_steps : ∀ t, t ∈ ci_tasks i → task_valid (ci_authorizedActions i) [] t = true;
  ok_deps_nodup : ∀ t, t ∈ ci_tasks i → NoDup (cs_dependsOn t);
  ok_deps : ∀ t d, t ∈ ci_tasks i → d ∈ cs_dependsOn t →
    d ∈ map cs_id (ci_tasks i) ∧ d ≠ cs_id t;
  ok_acyclic : ∀ a, ¬ tc (Dfs.depends (task_deps (ci_tasks i))) a a;
}.

Definition normal_input (i : DelegatedCampaignInput) : DelegatedCampaignInput :=
  {| ci_campaignId := ci_campaignId i; ci_workspaceId := ci_workspaceId i;
     ci_objective := redactSensitiveText (ci_objective i);
     ci_authorizedActions := sort_strings (ci_authorizedActions i);
     ci_tasks := map normal_step (ci_tasks i); ci_keys := ci_keys i |}.

Lemma task_valid_fresh perms ids t :
  task_valid perms ids t = task_valid perms [] t && bool_decide (cs_id t ∉ ids).
Proof.
  unfold task_valid. rewrite (bool_decide_eq_true_2 (cs_id t ∉ [])) by apply not_elem_of_nil.
  by destruct (TASK_ID _), (bool_decide (cs_id t ∉ ids)); rewrite ?andb_true_r, ?andb_false_r.
Qed.

Lemma task_deps_spec tasks id ds :
  NoDup (map cs_id tasks) →
  task_deps tasks id = Some ds ↔ ∃ t, t ∈ tasks ∧ cs_id t = id ∧ cs_dependsOn t = ds.
Proof.
  intros Hd. unfold task_deps. rewrite fmap_Some. split.
  - intros (t & [Ht Hid]%find_Some_elem & ->). bool_inv. eauto.
  - intros (t & Ht & <- & <-).
    destruct (find_is_Some (λ t', bool_decide (cs_id t' = cs_id t)) tasks t) as [t' Hf];
      [done|by apply bool_decide_eq_true|].
    exists t'. split; [done|]. apply find_Some_elem in Hf as [Ht' Hid]. bool_inv.
    by rewrite (NoDup_key_inj cs_id tasks t' t).
Qed.

Lemma task_deps_is_Some tasks id : is_Some (task_deps tasks id) ↔ id ∈ map cs_id tasks.
Proof.
  unfold task_deps. rewrite fmap_is_Some, list_elem_of_In, in_map_iff. split.
  - intros [t [Ht Hid]%find_Some_elem]. bool_inv. exists t. by rewrite <- list_elem_of_In.
  - intros (t & <- & Ht%list_elem_of_In).
    eapply find_is_Some; [exact Ht|by apply bool_decide_eq_true].
Qed.

Lemma dependency_search_Ok tasks :
  NoDup (map cs_id tasks) →
  (∀ t d, t ∈ tasks → d ∈ cs_dependsOn t → d ∈ map cs_id tasks) →
  dependency_search tasks = Ok tt ↔ ∀ a, ¬ tc (Dfs.depends (task_deps tasks)) a a.
Proof.
  intros Hnd Hd. unfold dependency_search.
  pose proof (search_spec (task_deps tasks) CAMPAIGN_INVALID CAMPAIGN_INVALID
    (map cs_id tasks)) as Hs.
  specialize (Hs (λ a, proj1 (task_deps_is_Some tasks a))
    (λ a, proj2 (task_deps_is_Some tasks a))).
  assert (Dfs.deps_resolve (task_deps tasks)) as Hr.
  { intros a b (ds & Hds & Hb). apply (task_deps_spec _ _ _ Hnd) in Hds as (t & Ht & _ & <-).
    apply task_deps_is_Some. by eapply Hd. }
  specialize (Hs Hr).
  destruct (visit_from _ _ _ _ _) as [[[]|[e|]] s']; cbn in *; [done| |done].
  destruct Hs as (_ & a & Ha). split; [done|]. intros Hn. by destruct (Hn a).
Qed.

(** The loop over the tasks checks each task and that its identifier is new. *)
Lemma tasks_valid_iff actions tasks :
  (∀ l1 x l2, tasks = l1 ++ x :: l2 → task_valid actions (rev (map cs_id l1)) x = true) ↔
  NoDup (map cs_id tasks) ∧ ∀ t, t ∈ tasks → task_valid actions [] t = true.
Proof.
  rewrite <- prefix_fresh_NoDup, <- Forall_forall, <- elem_of_split_forall.
  assert (∀ ids x, task_valid actions ids x = true ↔
    task_valid actions [] x = true ∧ cs_id x ∉ ids) as Hf; [|naive_solver].
  intros ids x. by rewrite task_valid_fresh, andb_true_iff, bool_decide_eq_true.
Qed.

Lemma dependencies_valid_iff ids t :
  dependencies_valid (rev ids) t = true ↔
  NoDup (cs_dependsOn t) ∧ ∀ d, d ∈ cs_dependsOn t → d ∈ ids ∧ d ≠ cs_id t.
Proof.
  unfold dependencies_valid. rewrite andb_true_iff, bool_decide_eq_true, forallb_forall.
  setoid_rewrite <- list_elem_of_In. setoid_rewrite andb_true_iff.
  setoid_rewrite bool_decide_eq_true. setoid_rewrite elem_of_rev. done.
Qed.

Lemma normalize_iff i i' :
  normalize i = Ok i' ↔ input_ok i ∧ i' = normal_input i.
Proof.
  unfold normalize, ensure. repeat setoid_rewrite outcome_bind_Ok.
  repeat setoid_rewrite check_Ok.
  setoid_rewrite (fold_check_Ok CAMPAIGN_INVALID cs_id (task_valid (ci_authorizedActions i))).
  setoid_rewrite app_nil_r.
  setoid_rewrite tasks_valid_iff. split.
  - intros (_ & Hc & _ & Hw & _ & Ho & _ & Hr & _ & Ha & _ & Ht & _ & Hp & ids &
      (-> & Hid & Hs) & [] & Hd & [] & Hac & [= <-]).
    rewrite fold_check_unit_Ok in Hd. setoid_rewrite dependencies_valid_iff in Hd. bool_inv.
    split; [|done]. split; try done.
    + rewrite Nat.ltb_lt, Nat.leb_le in *. done.
    + rewrite Nat.ltb_lt, Nat.leb_le in *. done.
    + rewrite Nat.ltb_lt, Nat.leb_le in *. done.
    + intros a Hin. match goal with Hf : forallb _ _ = true |- _ => rewrite forallb_forall in Hf;
        specialize (Hf a (proj1 (list_elem_of_In _ _) Hin)) end. by bool_inv.
    + intros t Hin. by apply Hd.
    + intros t d Hin. by apply Hd.
    + apply dependency_search_Ok; [done| |done]. intros t d Hin Hdin. by eapply Hd.
  - intros [[] ->]. exists tt. split; [done|]. exists tt. split; [done|].
    exists tt. split; [by rewrite andb_true_iff, Nat.ltb_lt, Nat.leb_le|].
    exists tt. split; [by apply bool_decide_eq_true|].
    exists tt. split; [by rewrite andb_true_iff, Nat.ltb_lt, Nat.leb_le|].
    exists tt. split; [by rewrite andb_true_iff, Nat.ltb_lt, Nat.leb_le|].
    exists tt. split.
    { rewrite bool_decide_eq_true_2 by done. apply forallb_forall.
      intros a Ha%list_elem_of_In. by apply bool_decide_eq_true, ok_actions0. }
    eexists. split; [done|]. exists tt. split.
    { apply fold_check_unit_Ok. intros t Ht. apply dependencies_valid_iff. split; [auto|].
      intros d. by apply ok_deps0. }
    exists tt. split; [|done]. apply dependency_search_Ok; [done| |done].
    intros t d Ht Hd. by eapply ok_deps0.
Qed.

(** ** normalize is idempotent *)

Lemma normal_step_idem t : normal_step (normal_step t) = normal_step t.
Proof. unfold normal_step. cbn. by rewrite sort_strings_idem. Qed.

Lemma map_id_normal tasks : map cs_id (map normal_step tasks) = map cs_id tasks.
Proof. rewrite map_map. done. Qed.

Lemma task_deps_normal tasks id :
  task_deps (map normal_step tasks) id = sort_strings <$> task_deps tasks id.
Proof.
  unfold task_deps. induction tasks as [|t tasks IH]; [done|]. cbn.
  case_bool_decide; [done|]. apply IH.
Qed.

Lemma depends_normal tasks a b :
  Dfs.depends (task_deps (map normal_step tasks)) a b ↔ Dfs.depends (task_deps tasks) a b.
Proof.
  unfold Dfs.depends. rewrite task_deps_normal. split.
  - intros (ds & (ds' & Hd & ->)%fmap_Some & Hb). rewrite elem_of_sort_strings in Hb. eauto.
  - intros (ds & Hd & Hb). exists (sort_strings ds). by rewrite Hd, elem_of_sort_strings.
Qed.

Lemma task_valid_normal perms t :
  task_valid (sort_strings perms) [] (normal_step t) = task_valid perms [] t.
Proof.
  unfold task_valid. cbn. rewrite length_sort_strings.
  by rewrite (bool_decide_ext (cs_action t ∈ sort_strings perms) (cs_action t ∈ perms)) by apply elem_of_sort_strings.
Qed.

Lemma elem_of_normal_steps t tasks :
  t ∈ map normal_step tasks ↔ ∃ t0, t0 ∈ tasks ∧ t = normal_step t0.
Proof.
  rewrite list_elem_of_In, in_map_iff. setoid_rewrite <- list_elem_of_In. naive_solver.
Qed.

Lemma normal_input_ok i : input_ok i → input_ok (normal_input i).
Proof.
  intros []. split; cbn; rewrite ?map_id_normal, ?ok_no_secret0, ?length_sort_strings,
    ?length_map; try done.
  - by rewrite sort_strings_perm.
  - intros a. rewrite elem_of_sort_strings. apply ok_actions0.
  - intros t (t0 & Ht & ->)%elem_of_normal_steps. rewrite task_valid_normal. auto.
  - intros t (t0 & Ht & ->)%elem_of_normal_steps. cbn. rewrite sort_strings_perm. auto.
  - intros t d (t0 & Ht & ->)%elem_of_normal_steps. cbn. rewrite elem_of_sort_strings. eauto.
  - intros a Ha. apply (ok_acyclic0 a).
    eapply tc_congruence with (f := λ x, x); [|exact Ha]. intros x y. apply depends_normal.
Qed.

Lemma normal_input_idem i : input_ok i → normal_input (normal_input i) = normal_input i.
Proof.
  intros []. unfold normal_input. cbn. rewrite !ok_no_secret0, sort_strings_idem, map_map.
  by rewrite (map_ext _ _ normal_step_idem).
Qed.

Lemma normalize_idem i i' : normalize i = Ok i' → normalize i' = Ok i'.
Proof.
  intros [Hok ->]%normalize_iff. apply normalize_iff.
  split; [by apply normal_input_ok|]. by rewrite normal_input_idem.
Qed.

(** ** Well-formed records *)

Record task_ok (t : CampaignTask) : Prop := {
  tok_pending : ct_state t = pending → ct_operationId t = None;
  tok_claimed : ct_state t ≠ pending → ∃ o, ct_operationId t = Some o ∧ UUID o = true;
  tok_completed : ct_state t = completed → is_Some (ct_proof t);
  tok_proof : ∀ p, ct_proof t = Some p →
    pf_kind p = "verified"%string ∧ reference_ok (pf_reference p) = true;
}.

(** The plan a record persists, as [parsePersisted] rebuilds it. *)
Definition input_of (r : CampaignRecord) : DelegatedCampaignInput :=
  {| ci_campaignId := cr_campaignId r; ci_workspaceId := cr_workspaceId r;
     ci_objective := cr_objective r; ci_authorizedActions := cr_authorizedActions r;
     ci_tasks := map ct_step (cr_tasks r); ci_keys := persisted_keys |}.

Record record_ok (owner : string) (r : CampaignRecord) : Prop := {
  rok_owner : cr_ownerScopeHash r = owner;
  rok_plan : normalize (input_of r) = Ok (input_of r);
  rok_digest : cr_definitionDigest r = definition_digest (input_of r);
  rok_digest_hex : SHA256 (cr_definitionDigest r) = true;
  rok_revision : (0 ≤ cr_revision r ≤ 9007199254740991)%Z;
  rok_tasks : Forall task_ok (cr_tasks r);
}.

(** *** Reading back *)

Lemma state_of_name_name s : state_of_name (state_name s) = Some s.
Proof. by destruct s. Qed.

Lemma state_of_name_inv n s : state_of_name n = Some s → n = state_name s.
Proof. intros [_ Hn]%find_Some_elem. by bool_inv. Qed.

Lemma cast_step_app t es : cast_step (JObj (json_of_step t ++ es)) = Some t.
Proof.
  unfold cast_step. cbn -[as_strings].
  rewrite as_strings_JArr. by destruct t.
Qed.

Lemma parse_proof_json p :
  pf_kind p = "verified"%string → reference_ok (pf_reference p) = true →
  parse_proof (json_of_proof p) = Some p.
Proof.
  destruct p as [k rf]. cbn -[reference_ok]. intros -> Hr. unfold parse_proof.
  cbn -[reference_ok]. by rewrite Hr.
Qed.

Lemma parse_proof_inv v p :
  parse_proof v = Some p → pf_kind p = "verified"%string ∧ reference_ok (pf_reference p) = true.
Proof.
  unfold parse_proof. intros (k & _ & (rf & _ & Hp)%bind_Some)%bind_Some.
  destruct (bool_decide _ && _) eqn:Hb; [|done]. injection Hp as <-. by bool_inv.
Qed.

Lemma required_Ok {A} (o : option A) a : required o = Ok a ↔ o = Some a.
Proof. destruct o; cbn; naive_solver. Qed.

(** *** Tasks *)

Definition task_tail (t : CampaignTask) : list (string * json) :=
  [("state"%string, JStr (state_name (ct_state t)))] ++
  match ct_operationId t with Some o => [("operationId"%string, JStr o)] | None => [] end ++
  match ct_proof t with Some p => [("proof"%string, json_of_proof p)] | None => [] end.

Lemma prop_state t : prop "state" (json_of_task t) = Some (JStr (state_name (ct_state t))).
Proof. done. Qed.
Lemma prop_operationId t : prop "operationId" (json_of_task t) = JStr <$> ct_operationId t.
Proof. cbn. by destruct (ct_operationId t), (ct_proof t). Qed.
Lemma prop_proof t : prop "proof" (json_of_task t) = json_of_proof <$> ct_proof t.
Proof. cbn. by destruct (ct_operationId t), (ct_proof t). Qed.

Lemma cast_json_of_task t : cast_step (json_of_task t) = Some (ct_step t).
Proof. apply (cast_step_app (ct_step t) (task_tail t)). Qed.

Lemma parse_operationId_json t :
  task_ok t → parse_operationId (ct_state t) (JStr <$> ct_operationId t) = Ok (ct_operationId t).
Proof.
  intros []. unfold parse_operationId. case_bool_decide as Hp.
  - by rewrite tok_pending0.
  - destruct tok_claimed0 as (o & -> & Ho); [done|]. cbn -[UUID]. by rewrite Ho.
Qed.

Lemma parse_task_json t :
  task_ok t → parse_task (json_of_task t) (ct_step t) = Ok t.
Proof.
  intros Hok. unfold parse_task.
  rewrite prop_state, prop_operationId, prop_proof, cast_json_of_task.
  apply outcome_bind_Ok. eexists. split; [done|].
  apply outcome_bind_Ok. eexists. split; [apply required_Ok, state_of_name_name|].
  apply outcome_bind_Ok. eexists. split; [done|].
  apply outcome_bind_Ok. exists tt. split; [by rewrite !bool_decide_eq_true_2|].
  apply outcome_bind_Ok. eexists. split; [by apply parse_operationId_json|].
  apply outcome_bind_Ok. exists (ct_proof t). split; [|by destruct t].
  destruct Hok, (ct_proof t) as [p|]; cbn -[bool_decide parse_proof].
  - rewrite (bool_decide_eq_true_2 (is_Some (Some _))) by eauto. rewrite orb_true_r.
    destruct (tok_proof0 p eq_refl). by rewrite parse_proof_json.
  - rewrite (bool_decide_eq_false_2 (is_Some None)) by (by intros []).
    rewrite bool_decide_eq_false_2; [done|]. intros Hc. by destruct (tok_completed0 Hc).
Qed.

Lemma parse_tasks_json ts :
  Forall task_ok ts → parse_tasks (map json_of_task ts) (map ct_step ts) = Ok ts.
Proof.
  induction 1 as [|t ts Ht _ IH]; [done|]. cbn -[parse_task json_of_task].
  rewrite parse_task_json by done. cbn -[json_of_task]. by rewrite IH.
Qed.

Lemma parse_operationId_inv state v o :
  parse_operationId state v = Ok o →
  (state = pending → o = None) ∧ (state ≠ pending → ∃ x, o = Some x ∧ UUID x = true).
Proof.
  unfold parse_operationId. case_bool_decide as Hs.
  - intros (_ & _ & [= <-])%outcome_bind_Ok. done.
  - intros (x & _ & (_ & Hu%check_Ok & [= <-])%outcome_bind_Ok)%outcome_bind_Ok.
    split; [done|]. eauto.
Qed.

Lemma parse_task_inv v base t : parse_task v base = Ok t → ct_step t = base ∧ task_ok t.
Proof.
  unfold parse_task. intros (name & _ & H1)%outcome_bind_Ok.
  apply outcome_bind_Ok in H1 as (state & _ & H1).
  apply outcome_bind_Ok in H1 as (step & _ & H1).
  apply outcome_bind_Ok in H1 as (_ & _ & H1).
  apply outcome_bind_Ok in H1 as (o & [Ho1 Ho2]%parse_operationId_inv & H1).
  apply outcome_bind_Ok in H1 as (p & Hp & [= <-]). split; [done|].
  destruct (bool_decide (state = completed) || _) eqn:Hc; split; cbn; try done.
  - intros _. apply outcome_bind_Ok in Hp as (p' & _ & [= <-]). eauto.
  - intros p' ->. apply outcome_bind_Ok in Hp as (p2 & Hp%required_Ok & [= ->]).
    destruct (prop "proof" v) as [pv|]; [|done]. by eapply parse_proof_inv.
  - intros ->. by rewrite bool_decide_eq_true_2 in Hc.
  - intros p' ->. done.
Qed.

Lemma parse_tasks_inv vs bases ts :
  parse_tasks vs bases = Ok ts → map ct_step ts = bases ∧ Forall task_ok ts.
Proof.
  revert bases ts. induction vs as [|v vs IH]; intros [|b bases] ts; cbn; try done.
  { by intros [= <-]. }
  intros (t & [<- Ht]%parse_task_inv & (ts' & [<- Hts]%IH & [= <-])%outcome_bind_Ok)%outcome_bind_Ok.
  split; [done|by constructor].
Qed.

(** *** The record *)

Lemma mapM_cast_json ts : mapM cast_step (map json_of_task ts) = Some (map ct_step ts).
Proof.
  induction ts as [|t ts IH]; [done|]. cbn -[cast_step json_of_task].
  rewrite cast_json_of_task. cbn -[cast_step json_of_task]. by rewrite IH.
Qed.

Lemma cast_input_json r : cast_input (json_of_record r) (cr_objective r) = Some (input_of r).
Proof.
  apply bind_Some. eexists. split; [done|]. apply bind_Some. eexists. split; [done|].
  apply bind_Some. eexists. split; [apply as_strings_JArr|].
  apply bind_Some. eexists. split; [apply mapM_cast_json|done].
Qed.

Lemma as_integer_JNum z :
  (Z.abs z ≤ 9007199254740991)%Z → as_integer (Some (JNum z)) = Some z.
Proof. intros Hz. unfold as_integer. by rewrite (proj2 (Z.leb_le _ _)). Qed.

Lemma as_integer_bound v z : as_integer v = Some z → (z ≤ 9007199254740991)%Z.
Proof.
  destruct v as [[| |n| | |]|]; try done. cbn. destruct (_ <=? _)%Z eqn:Hz; [|done].
  intros [= <-]. apply Z.leb_le in Hz. lia.
Qed.

Lemma parse_print owner r :
  record_ok owner r → parsePersisted (json_of_record r) owner = Ok r.
Proof.
  intros []. unfold parsePersisted.
  apply outcome_bind_Ok. exists tt. split; [done|].
  apply outcome_bind_Ok. exists tt. split.
  { apply check_Ok, bool_decide_eq_true. by rewrite <- rok_owner0. }
  apply outcome_bind_Ok. eexists. split; [done|].
  apply outcome_bind_Ok. eexists. split; [done|].
  apply outcome_bind_Ok. exists tt. split; [by apply check_Ok|].
  apply outcome_bind_Ok. exists (cr_revision r). split.
  { apply required_Ok, as_integer_JNum. lia. }
  apply outcome_bind_Ok. exists tt. split; [apply check_Ok, Z.leb_le; lia|].
  apply outcome_bind_Ok. eexists. split; [done|].
  apply outcome_bind_Ok. eexists. split; [done|].
  apply outcome_bind_Ok. eexists. split; [apply required_Ok, cast_input_json|].
  apply outcome_bind_Ok. eexists. split; [exact rok_plan0|].
  apply outcome_bind_Ok. exists tt. split; [by apply check_Ok, bool_decide_eq_true|].
  apply outcome_bind_Ok. eexists. split; [done|].
  apply outcome_bind_Ok. exists (cr_tasks r). split; [by apply parse_tasks_json|].
  rewrite <- rok_owner0. by destruct r.
Qed.

Lemma parse_sound v owner r : parsePersisted v owner = Ok r → record_ok owner r.
Proof.
  unfold parsePersisted. intros (_ & _ & H1)%outcome_bind_Ok.
  apply outcome_bind_Ok in H1 as (_ & _ & H1).
  apply outcome_bind_Ok in H1 as (objective & _ & H1).
  apply outcome_bind_Ok in H1 as (digest & _ & H1).
  apply outcome_bind_Ok in H1 as (_ & Hhex%check_Ok & H1).
  apply outcome_bind_Ok in H1 as (revision & Hrev%required_Ok & H1).
  apply outcome_bind_Ok in H1 as (_ & Hpos%check_Ok & H1).
  apply outcome_bind_Ok in H1 as (? & _ & H1).
  apply outcome_bind_Ok in H1 as (? & _ & H1).
  apply outcome_bind_Ok in H1 as (given & Hg%required_Ok & H1).
  apply outcome_bind_Ok in H1 as (input & Hn & H1).
  apply outcome_bind_Ok in H1 as (_ & Hd%check_Ok & H1).
  apply outcome_bind_Ok in H1 as (ts & _ & H1).
  apply outcome_bind_Ok in H1 as (tasks & [Hts Hok]%parse_tasks_inv & [= <-]).
  bool_inv. apply Z.leb_le in Hpos.
  assert (revision ≤ 9007199254740991)%Z as Hmax.
  { by apply as_integer_bound in Hrev. }
  assert (ci_keys input = persisted_keys) as Hk.
  { apply normalize_iff in Hn as [_ ->]. unfold cast_input in Hg.
    do 4 apply bind_Some in Hg as (? & _ & Hg). by injection Hg as <-. }
  match goal with |- record_ok _ ?rr => assert (input_of rr = input) as Hi end.
  { unfold input_of. cbn. rewrite Hts, <- Hk. by destruct input. }
  split; cbn; try done.
  - rewrite Hi. by eapply normalize_idem.
  - by rewrite Hi.
Qed.

(** *** A printed record reads as itself or not at all *)

Lemma parse_task_printed t t' :
  parse_task (json_of_task t) (ct_step t) = Ok t' → t' = t.
Proof.
  unfold parse_task. rewrite prop_state, prop_operationId, prop_proof.
  intros (name & [= <-]%required_Ok & H1)%outcome_bind_Ok.
  apply outcome_bind_Ok in H1 as (state & Hst%required_Ok & H1).
  rewrite state_of_name_name in Hst. injection Hst as <-.
  apply outcome_bind_Ok in H1 as (step & _ & H1).
  apply outcome_bind_Ok in H1 as (_ & _ & H1).
  apply outcome_bind_Ok in H1 as (o & Ho & H1).
  apply outcome_bind_Ok in H1 as (p & Hp & [= <-]).
  assert (o = ct_operationId t) as ->.
  { unfold parse_operationId in Ho. destruct (bool_decide (ct_state t = pending)).
    - apply outcome_bind_Ok in Ho as (_ & Hn%check_Ok & [= <-]). bool_inv.
      destruct (ct_operationId t); [|done]. destruct Hn. cbn. eauto.
    - apply outcome_bind_Ok in Ho as (x & Hx%required_Ok & (_ & _ & [= <-])%outcome_bind_Ok).
      destruct (ct_operationId t); [|done]. cbn in Hx. congruence. }
  assert (p = ct_proof t) as ->; [|by destruct t].
  destruct (ct_proof t) as [q|]; cbn -[parse_proof bool_decide] in Hp.
  - rewrite (bool_decide_eq_true_2 (is_Some (Some _))), orb_true_r in Hp by eauto.
    apply outcome_bind_Ok in Hp as (q' & Hq%required_Ok & [= <-]).
    unfold parse_proof in Hq. cbn in Hq. case_match; [|done]. injection Hq as <-. by destruct q.
  - destruct (bool_decide _ || _); [done|congruence].
Qed.

Lemma parse_tasks_printed ts ts' :
  parse_tasks (map json_of_task ts) (map ct_step ts) = Ok ts' → ts' = ts.
Proof.
  revert ts'. induction ts as [|t ts IH]; intros ts'; cbn -[parse_task json_of_task].
  { by intros [= <-]. }
  by intros (t' & ->%parse_task_printed & (ts2 & ->%IH & [= <-])%outcome_bind_Ok)%outcome_bind_Ok.
Qed.

(** The plan of [r] is in normal form. *)
Definition plan_normal (r : CampaignRecord) : Prop := normal_input (input_of r) = input_of r.

Lemma record_ok_normal owner r : record_ok owner r → plan_normal r.
Proof. intros []. by apply normalize_iff in rok_plan0 as [_ Hp]. Qed.

Lemma parse_printed owner r r' :
  plan_normal r → parsePersisted (json_of_record r) owner = Ok r' →
  cr_ownerScopeHash r = owner → r' = r.
Proof.
  intros Hn Hp Ho. pose proof (parse_sound _ _ _ Hp) as Hok. unfold parsePersisted in Hp.
  apply outcome_bind_Ok in Hp as (_ & _ & H1).
  apply outcome_bind_Ok in H1 as (_ & _ & H1).
  apply outcome_bind_Ok in H1 as (objective & [= <-]%required_Ok & H1).
  apply outcome_bind_Ok in H1 as (digest & [= <-]%required_Ok & H1).
  apply outcome_bind_Ok in H1 as (_ & _ & H1).
  apply outcome_bind_Ok in H1 as (revision & Hrev%required_Ok & H1).
  apply outcome_bind_Ok in H1 as (_ & _ & H1).
  apply outcome_bind_Ok in H1 as (? & [= <-]%required_Ok & H1).
  apply outcome_bind_Ok in H1 as (? & [= <-]%required_Ok & H1).
  apply outcome_bind_Ok in H1 as (given & Hg%required_Ok & H1).
  rewrite cast_input_json in Hg. injection Hg as <-.
  apply outcome_bind_Ok in H1 as (input & [_ ->]%normalize_iff & H1). rewrite Hn in H1.
  apply outcome_bind_Ok in H1 as (_ & _ & H1).
  apply outcome_bind_Ok in H1 as (ts & [= <-]%required_Ok & H1).
  apply outcome_bind_Ok in H1 as (tasks & ->%parse_tasks_printed & [= <-]).
  assert (revision = cr_revision r) as ->.
  { change (as_integer (Some (JNum (cr_revision r))) = Some revision) in Hrev.
    unfold as_integer in Hrev. by destruct (_ <=? _)%Z; simplify_eq. }
  cbn. rewrite <- Ho. by destruct r.
Qed.
End records.
