(* ===== verification/CampaignSteps.v ===== *)
(** * CampaignSteps: what a ledger operation does to the campaign files

    Every operation of the campaign ledger leaves the files as they are or replaces
    one campaign's record by one step of the machine [record_step]; the errors a
    lock or a file operation may add are covered. *)

From S2P Require Import Prelude Text Dfs CampaignWorld CampaignLedger CampaignRecords.

(** ** The campaign machine *)

Definition unsettled (s : CampaignTaskState) : bool :=
  bool_decide (s = in_flight) || bool_decide (s = outcome_unknown).

(** The checks of [transition] on the task it moves. *)
Record can_settle (t : CampaignTask) (next : NextState) (proof : option CampaignProof) : Prop := {
  cst_operation : is_Some (ct_operationId t);
  cst_unsettled : unsettled (ct_state t) = true;
  cst_progress : ct_state t = outcome_unknown → next ≠ to_outcome_unknown;
  cst_evidence : next = to_completed ∨ ct_state t = outcome_unknown → evidence_ok proof = true;
}.

Inductive record_step : CampaignRecord → CampaignRecord → Prop :=
| step_claim r t operationId updatedAt :
    (∀ x, x ∈ cr_tasks r → ct_state x ≠ in_flight) →
    t ∈ cr_tasks r → runnable (cr_tasks r) t = true →
    record_step r (set_task (ct_id t) (claim_task operationId) updatedAt r)
| step_settle r t next proof updatedAt :
    t ∈ cr_tasks r → can_settle t next proof →
    record_step r (set_task (ct_id t) (settle_task (next_state next) proof) updatedAt r).

Section steps.
Context `{CampaignHost} `{RunLease} (L : DelegatedCampaignLedger).

(** ** Reading and writing one record *)

Definition read_file (m : gmap string (option json)) (p : string) :
    outcome campaign_error (option CampaignRecord) :=
  match m !! p with
  | None => Ok None
  | Some None => Err SyntaxError
  | Some (Some v) => r ← parsePersisted v (ownerScopeHash L); Ok (Some r)
  end.

Lemma read_run ws id w :
  read L ws id w =
  ((f ← file L ws id; read_file (files w) f), w).
Proof.
  unfold read, read_file, mbind, io_bind, lift, gets.
  destruct (file L ws id) as [f|e]; [|done]. cbn [outcome_bind].
  destruct (files w !! f) as [[v|]|]; [|done..].
  by destruct (parsePersisted v _).
Qed.

Lemma file_Ok ws id p :
  file L ws id = Ok p ↔ WORKSPACE_ID ws && UUID id = true ∧ p = record_path L ws id.
Proof.
  unfold file, ensure. rewrite outcome_bind_Ok. setoid_rewrite check_Ok. naive_solver.
Qed.

Lemma read_file_Some m p r :
  read_file m p = Ok (Some r) ↔
  ∃ v, m !! p = Some (Some v) ∧ parsePersisted v (ownerScopeHash L) = Ok r.
Proof.
  unfold read_file. destruct (m !! p) as [[v|]|]; [|naive_solver..]. split.
  - intros (r' & Hp & [= <-])%outcome_bind_Ok. eauto.
  - intros (v' & [= <-] & ->). done.
Qed.

Lemma read_file_ok m p r :
  read_file m p = Ok (Some r) → record_ok (ownerScopeHash L) r.
Proof. intros (v & _ & Hp)%read_file_Some. by eapply parse_sound. Qed.

Lemma read_file_insert m p r :
  record_ok (ownerScopeHash L) r →
  read_file (<[p := Some (json_of_record r)]> m) p = Ok (Some r).
Proof. intros Hr. unfold read_file. rewrite lookup_insert_eq. by rewrite parse_print. Qed.

Lemma read_file_insert_ne m p q v :
  p ≠ q → read_file (<[p := v]> m) q = read_file m q.
Proof. intros Hne. unfold read_file. by rewrite lookup_insert_ne. Qed.

Lemma append_nonempty (a b : string) : b ≠ ""%string → a +:+ b ≠ a.
Proof.
  intros Hb. induction a as [|c a IH]; [done|].
  intros [= E]. by apply IH.
Qed.

(** [write] replaces the record at its path, or fails and changes no file. *)
Lemma write_cases r w o w' :
  write L r w = (o, w') →
  calls w' = calls w ∧ draws w ≤ draws w' ∧
  ((o = Ok tt ∧ WORKSPACE_ID (cr_workspaceId r) && UUID (cr_campaignId r) = true ∧
    files w' = <[record_path L (cr_workspaceId r) (cr_campaignId r) :=
                   Some (json_of_record r)]> (files w)) ∨
   ((∃ e, o = Err e) ∧ files w' = files w)).
Proof.
  unfold write. rewrite lift_bind.
  destruct (file L (cr_workspaceId r) (cr_campaignId r)) as [p|e] eqn:Hf.
  2:{ intros [= <- <-]. naive_solver. }
  apply file_Ok in Hf as [Hv ->].
  set (p := record_path L (cr_workspaceId r) (cr_campaignId r)). rewrite draw_bind.
  unfold mbind, io_bind, gets, require.
  case_bool_decide as Ht; intros [= <- <-]; cbn -[String.append]; [naive_solver lia|].
  split_and!; [done|lia|]. left. split_and!; [done..|].
  apply eq_None_not_Some in Ht.
  assert (p +:+ ".tmp-" +:+ randomHex (draws w) ≠ p) as Hne by by apply append_nonempty.
  rewrite <- (insert_insert_ne (files w)) by done.
  apply delete_insert_id. by rewrite lookup_insert_ne.
Qed.

(** Outcomes that leave every file and the call log alone. *)
Definition same_disk (w w' : world) : Prop := files w' = files w ∧ calls w' = calls w.

Lemma locked_cases {A} ws id (fn : W A) w r w' :
  locked L ws id fn w = (r, w') →
  ((∃ e, r = Err e) ∧ same_disk w w') ∨
  ∃ w0 r0 w1, WORKSPACE_ID ws && UUID id = true ∧ same_disk w w0 ∧ draws w ≤ draws w0 ∧
    fn w0 = (r0, w1) ∧ same_disk w1 w' ∧ (r = r0 ∨ ∃ e, r = Err e).
Proof.
  unfold locked. destruct (file L ws id) as [p|e] eqn:Hf.
  2:{ intros [= <- <-]. left. split; [eauto|done]. }
  apply file_Ok in Hf as [Hv ->]. unfold mbind, io_bind, lift.
  intros [(e & -> & Hf & Hc)|(w0 & r0 & w1 & Hf & Hc & Hd & Hfn & Hf' & Hc' & Hr)]%lease_run_spec.
  - left. split; [eauto|done].
  - right. exists w0, r0, w1. done.
Qed.

(** ** The operations *)

(** The operation failed, or did what it announces with the outcome [a]; a lock
    that is lost when the work is done hides the outcome of work that was done. *)
Definition outcome_is {A} (r : outcome campaign_error A) (a : A) : Prop :=
  r = Ok a ∨ ∃ e, r = Err e.

Definition refused {A} (r : outcome campaign_error A) (w w' : world) : Prop :=
  (∃ e, r = Err e) ∧ same_disk w w'.

Notation path i := (record_path L (ci_workspaceId i) (ci_campaignId i)).
Notation stored r := (record_path L (cr_workspaceId r) (cr_campaignId r)).

Lemma write_mret_cases {A} rec (a : A) w r w' :
  (write L rec;; mret a) w = (r, w') →
  refused r w w' ∨
  r = Ok a ∧ calls w' = calls w ∧
    files w' = <[stored rec := Some (json_of_record rec)]> (files w).
Proof.
  unfold mbind, io_bind. destruct (write L rec w) as [o w1] eqn:Hw.
  apply write_cases in Hw as (Hc & _ & [(-> & _ & Hf)|([e ->] & Hf)]); intros [= <- <-].
  - right. done.
  - left. split; [eauto|done].
Qed.

Lemma create_cases input w r w' :
  create L input w = (r, w') →
  refused r w w' ∨ ∃ i, normalize input = Ok i ∧ calls w' = calls w ∧
    ((∃ old, read_file (files w) (path i) = Ok (Some old) ∧
        cr_definitionDigest old = definition_digest i ∧ files w' = files w ∧ outcome_is r old) ∨
     (∃ at_, files w !! path i = None ∧
        files w' = <[path i := Some (json_of_record (created_record L i at_))]> (files w) ∧
        outcome_is r (created_record L i at_))).
Proof.
  unfold create. rewrite lift_bind.
  destruct (normalize input) as [i|e] eqn:Hn; [|intros [= <- <-]; by left; split; eauto].
  intros [?|(w0 & r0 & w1 & Hv & [Hf0 Hc0] & _ & Hfn & [Hf1 Hc1] & Hr)]%locked_cases; [by left|].
  unfold mbind at 1, io_bind in Hfn. rewrite read_run in Hfn.
  assert (file L (ci_workspaceId i) (ci_campaignId i) = Ok (path i)) as Hp by by apply file_Ok.
  rewrite Hp in Hfn. cbn [mbind outcome_bind] in Hfn.
  assert (∀ e, r0 = Err e → same_disk w0 w1 → refused r w w') as Hrefuse.
  { intros e -> [??]. split; [destruct Hr as [->|?]; eauto|]. split; congruence. }
  destruct (read_file (files w0) (path i)) as [[old|]|e] eqn:Hread.
  - rewrite lift_bind in Hfn. unfold ensure, check in Hfn.
    case_bool_decide; injection Hfn as <- <-; [|left; by eapply Hrefuse].
    right. exists i. split_and!; [done|congruence|]. left. exists old.
    split_and!; [congruence|done|congruence|done].
  - rewrite draw_bind in Hfn. apply write_mret_cases in Hfn as [[[e ->] Hs]|(-> & Hc & Hf)].
    { left. by eapply Hrefuse. }
    right. exists i. split_and!; [done|cbn in *; congruence|]. right. eexists. split_and!.
    + unfold read_file in Hread. rewrite <- Hf0.
      destruct (files w0 !! path i) as [[v|]|]; [|done..].
      by apply outcome_bind_Ok in Hread as (? & _ & [=]).
    + rewrite Hf1, Hf. cbn. by rewrite Hf0.
    + done.
  - injection Hfn as <- <-. left. by eapply Hrefuse.
Qed.

(** The common prefix of [claimNext] and [transition]. *)
Lemma locked_read_cases {A} ws id (k : CampaignRecord → W A) w r w' :
  locked L ws id (found ← read L ws id; record ← lift (required found); k record) w = (r, w') →
  refused r w w' ∨
  ∃ rec w0 r0 w1, WORKSPACE_ID ws && UUID id = true ∧
    read_file (files w) (record_path L ws id) = Ok (Some rec) ∧
    same_disk w w0 ∧ draws w ≤ draws w0 ∧
    k rec w0 = (r0, w1) ∧ same_disk w1 w' ∧ (r = r0 ∨ ∃ e, r = Err e).
Proof.
  intros [?|(w0 & r0 & w1 & Hv & [Hf0 Hc0] & Hd & Hfn & [Hf1 Hc1] & Hr)]%locked_cases; [by left|].
  unfold mbind at 1, io_bind in Hfn. rewrite read_run in Hfn.
  assert (file L ws id = Ok (record_path L ws id)) as Hp by by apply file_Ok.
  rewrite Hp in Hfn. cbn [mbind outcome_bind] in Hfn. rewrite Hf0 in Hfn.
  destruct (read_file (files w) (record_path L ws id)) as [[rec|]|e] eqn:Hread.
  { right. exists rec, w0, r0, w1. rewrite lift_bind in Hfn. done. }
  all: injection Hfn as <- <-; left; split; [destruct Hr as [->|?]; eauto|];
    split; congruence.
Qed.

Lemma no_in_flight_spec ts :
  existsb (λ t, bool_decide (ct_state t = in_flight)) ts = false ↔
  ∀ x, x ∈ ts → ct_state x ≠ in_flight.
Proof.
  rewrite <- not_true_iff_false, existsb_exists. setoid_rewrite <- list_elem_of_In.
  setoid_rewrite bool_decide_eq_true. naive_solver.
Qed.

Lemma claimNext_cases ws id w r w' :
  claimNext L ws id w = (r, w') →
  refused r w w' ∨ ∃ rec, read_file (files w) (record_path L ws id) = Ok (Some rec) ∧
    calls w' = calls w ∧
    ((files w' = files w ∧ outcome_is r (no_runnable_step rec) ∧
      ((∃ t, t ∈ cr_tasks rec ∧ ct_state t = in_flight) ∨
       ∀ t, t ∈ cr_tasks rec → runnable (cr_tasks rec) t = false)) ∨
     (∃ t n at_, (∀ x, x ∈ cr_tasks rec → ct_state x ≠ in_flight) ∧
        List.find (runnable (cr_tasks rec)) (cr_tasks rec) = Some t ∧ draws w ≤ n ∧
        let rec' := set_task (ct_id t) (claim_task (randomUUID n)) at_ rec in
        files w' = <[stored rec := Some (json_of_record rec')]> (files w) ∧
        outcome_is r (claimed (ct_id t) (randomUUID n) rec'))).
Proof.
  intros [?|(rec & w0 & r0 & w1 & Hv & Hread & [Hf0 Hc0] & Hd & Hk & [Hf1 Hc1] & Hr)]
    %locked_read_cases; [by left|].
  destruct (existsb _ (cr_tasks rec)) eqn:Hex.
  - right. exists rec. injection Hk as <- <-. split_and!; [done|congruence|]. left.
    split_and!; [congruence|done|]. left. apply existsb_exists in Hex as (t & Ht & Hs).
    bool_inv. exists t. by rewrite list_elem_of_In.
  - rewrite no_in_flight_spec in Hex. destruct (List.find _ _) as [t|] eqn:Hfind.
    + rewrite !draw_bind in Hk.
      apply write_mret_cases in Hk as [[[e ->] [Hf Hc]]|(-> & Hc & Hf)].
      { left. split; [destruct Hr as [->|?]; eauto|]. cbn in *. split; congruence. }
      right. exists rec. split_and!; [done|cbn in *; congruence|]. right.
      exists t, (draws w0), (toISOString (S (draws w0))). do 3 (split; [done|]). split; [|done].
      rewrite Hf1, Hf. cbn. by rewrite Hf0.
    + right. exists rec. injection Hk as <- <-. split_and!; [done|congruence|]. left.
      split_and!; [congruence|done|]. right. intros t. by apply find_None_elem.
Qed.

Lemma transition_cases ws id taskId operationId next proof w r w' :
  transition L ws id taskId operationId next proof w = (r, w') →
  refused r w w' ∨ ∃ rec t at_,
    read_file (files w) (record_path L ws id) = Ok (Some rec) ∧ calls w' = calls w ∧
    List.find (λ t, bool_decide (ct_id t = taskId)) (cr_tasks rec) = Some t ∧
    ct_operationId t = Some operationId ∧ can_settle t next proof ∧
    let rec' := set_task taskId (settle_task (next_state next) proof) at_ rec in
    files w' = <[stored rec := Some (json_of_record rec')]> (files w) ∧ outcome_is r rec'.
Proof.
  intros [?|(rec & w0 & r0 & w1 & Hv & Hread & [Hf0 Hc0] & Hd & Hk & [Hf1 Hc1] & Hr)]
    %locked_read_cases; [by left|].
  assert (∀ e, r0 = Err e → same_disk w0 w1 → refused r w w') as Hrefuse.
  { intros e -> [??]. split; [destruct Hr as [->|?]; eauto|]. split; congruence. }
  rewrite lift_bind in Hk. destruct (List.find _ _) as [t|] eqn:Hfind; cbn [required] in Hk.
  2:{ injection Hk as <- <-. left. by eapply Hrefuse. }
  do 4 (rewrite lift_bind in Hk; unfold ensure, check in Hk;
    match type of Hk with context [if ?b then Ok _ else Err _] => destruct b eqn:? end;
    [|injection Hk as <- <-; left; by eapply Hrefuse]).
  rewrite draw_bind in Hk. apply write_mret_cases in Hk as [[[e ->] Hs]|(-> & Hc & Hf)].
  { left. by eapply Hrefuse. }
  right. exists rec, t, (toISOString (draws w0)). bool_inv.
  split; [done|]. split; [cbn in *; congruence|]. do 2 (split; [done|]). split; [|split; [|done]].
  - split; [eauto|done| |].
    + intros Hu ->. rewrite Hu in *. done.
    + match goal with He : negb _ || evidence_ok _ = true |- _ => revert He end.
      destruct (evidence_ok proof); [done|]. rewrite orb_false_r, negb_true_iff.
      intros [??]%orb_false_iff. bool_inv. naive_solver.
  - rewrite Hf1, Hf. cbn. by rewrite Hf0.
Qed.
End steps.
