(* ===== verification/CampaignInv.v ===== *)
(** * CampaignInv: invariants and history of the campaign files

    [changes] is the effect of one ledger operation on the files; the invariant
    [files_ok] and the history of a record ([record_evolves]) are proved over any
    sequence of changes, so they hold for direct calls to the ledger and for the
    coordinator alike. *)

From S2P Require Import Prelude Text Dfs CampaignWorld CampaignLedger CampaignRecords.
From S2P Require Import CampaignSteps.

(** ** The invariant of a record *)

(** The states in which a task may hold on to its resource. *)
Definition holds_resource (s : CampaignTaskState) : bool :=
  bool_decide (s = in_flight) || bool_decide (s = outcome_unknown) || bool_decide (s = blocked).

Record plan_inv (ts : list CampaignTask) : Prop := {
  pi_in_flight : ∀ t1 t2, t1 ∈ ts → t2 ∈ ts →
    ct_state t1 = in_flight → ct_state t2 = in_flight → t1 = t2;
  pi_resource : ∀ t1 t2, t1 ∈ ts → t2 ∈ ts →
    holds_resource (ct_state t1) = true → holds_resource (ct_state t2) = true →
    cs_targetResource (ct_step t1) = cs_targetResource (ct_step t2) → t1 = t2;
  pi_dependencies : ∀ t d, t ∈ ts → ct_state t ≠ pending → d ∈ cs_dependsOn (ct_step t) →
    ∃ t', t' ∈ ts ∧ ct_id t' = d ∧ ct_state t' = completed;
}.

Lemma dependency_completed_spec ts d :
  dependency_completed ts d = true → ∃ t, t ∈ ts ∧ ct_id t = d ∧ ct_state t = completed.
Proof.
  unfold dependency_completed. destruct (List.find _ _) as [t|] eqn:Hf; [|done].
  apply find_Some_elem in Hf as [Ht Hid]. intros Hc. bool_inv. eauto.
Qed.

Lemma runnable_spec ts t :
  runnable ts t = true →
  ct_state t = pending ∧
  (∀ d, d ∈ cs_dependsOn (ct_step t) → ∃ t', t' ∈ ts ∧ ct_id t' = d ∧ ct_state t' = completed) ∧
  (∀ o, o ∈ ts → ct_id o ≠ ct_id t → ct_state o = outcome_unknown ∨ ct_state o = blocked →
     cs_targetResource (ct_step o) ≠ cs_targetResource (ct_step t)).
Proof.
  unfold runnable. intros Hr. bool_inv. split_and!; [done| |].
  - intros d Hd. apply dependency_completed_spec.
    match goal with Hf : forallb _ _ = true |- _ => rewrite forallb_forall in Hf; apply Hf end.
    by apply list_elem_of_In.
  - intros o Ho Hne Hs Heq.
    match goal with Hu : resource_uncertain _ _ = false |- _ =>
      apply not_true_iff_false in Hu; apply Hu end.
    apply existsb_exists. exists o. split; [by apply list_elem_of_In|].
    rewrite (bool_decide_eq_true_2 (ct_id o ≠ ct_id t)), Heq by done.
    rewrite (bool_decide_eq_true_2 (_ = cs_targetResource _)) by done.
    by destruct Hs as [-> | ->].
Qed.

Section update.
(** One task is replaced by [f] of it. *)
Context (ts : list CampaignTask) (t : CampaignTask) (f : CampaignTask → CampaignTask).
Context (Hnd : NoDup (map (λ t, ct_id t) ts)) (Ht : t ∈ ts).
Notation ts' := (update_where (λ x, bool_decide (ct_id x = ct_id t)) f ts).

Lemma update_task_elem x :
  x ∈ ts' ↔ x = f t ∨ (x ∈ ts ∧ ct_id x ≠ ct_id t).
Proof using Hnd Ht.
  rewrite elem_of_update_where. split.
  - intros (x0 & Hx0 & ->). case_bool_decide as Hid; [|by right].
    left. f_equal. by eapply (NoDup_key_inj (λ t, ct_id t)).
  - intros [->|[Hx Hne]].
    + exists t. split; [done|]. by rewrite bool_decide_eq_true_2.
    + exists x. split; [done|]. by rewrite bool_decide_eq_false_2.
Qed.

Lemma update_task_keeps x : x ∈ ts → x ≠ t → x ∈ ts'.
Proof using Hnd Ht.
  intros Hx Hne. apply update_task_elem. right. split; [done|]. intros Hid.
  apply Hne. by eapply (NoDup_key_inj (λ t, ct_id t)).
Qed.

(** Completed tasks, and so satisfied dependencies, survive the update of a task
    that was not completed. *)
Lemma update_task_dependency d :
  ct_state t ≠ completed →
  (∃ x, x ∈ ts ∧ ct_id x = d ∧ ct_state x = completed) →
  ∃ x, x ∈ ts' ∧ ct_id x = d ∧ ct_state x = completed.
Proof using Hnd Ht.
  intros Hc (x & Hx & Hid & Hs). exists x. split_and!; try done.
  apply update_task_keeps; congruence.
Qed.

Context (Hstep : ct_step (f t) = ct_step t).

Lemma update_plan_inv :
  plan_inv ts → ct_state t ≠ completed →
  (ct_state (f t) = in_flight → ∀ x, x ∈ ts → ct_state x ≠ in_flight) →
  (holds_resource (ct_state (f t)) = true → ∀ x, x ∈ ts → ct_id x ≠ ct_id t →
     holds_resource (ct_state x) = true →
     cs_targetResource (ct_step x) ≠ cs_targetResource (ct_step t)) →
  (∀ d, d ∈ cs_dependsOn (ct_step t) → ∃ x, x ∈ ts ∧ ct_id x = d ∧ ct_state x = completed) →
  plan_inv ts'.
Proof using Hnd Ht Hstep.
  intros [H1 H2 H3] Hc Hf Hr Hd. split.
  - intros t1 t2 [->|[Ht1 ?]]%update_task_elem [->|[Ht2 ?]]%update_task_elem; try done; intros E1 E2.
    + by destruct (Hf E1 t2).
    + by destruct (Hf E2 t1).
    + by apply H1.
  - intros t1 t2 [->|[Ht1 ?]]%update_task_elem [->|[Ht2 ?]]%update_task_elem; try done;
      rewrite ?Hstep; intros E1 E2 E.
    + by destruct (Hr E1 t2).
    + by destruct (Hr E2 t1).
    + by apply H2.
  - intros x d [->|[Hx ?]]%update_task_elem Hs Hdx; rewrite ?Hstep in Hdx.
    + by apply update_task_dependency; [|apply Hd].
    + apply update_task_dependency; [done|]. by eapply H3.
Qed.
End update.

Lemma record_step_plan_inv r r' :
  NoDup (map (λ t, ct_id t) (cr_tasks r)) → record_step r r' →
  plan_inv (cr_tasks r) → plan_inv (cr_tasks r').
Proof.
  intros Hnd Hs HI. destruct Hs as [r t op at_ Hno Ht Hr|r t next proof at_ Ht Hc]; cbn.
  - apply runnable_spec in Hr as (Hp & Hd & Hu).
    apply update_plan_inv; try done; cbn; [congruence|].
    intros _ x Hx Hne Hh. apply Hu; [done..|]. unfold holds_resource in Hh.
    specialize (Hno x Hx). destruct (ct_state x); naive_solver.
  - destruct Hc as [_ Hun _ _].
    assert (holds_resource (ct_state t) = true ∧ ct_state t ≠ pending ∧ ct_state t ≠ completed)
      as (Hh & Hp & Hc) by (unfold unsettled in Hun; by destruct (ct_state t)).
    apply update_plan_inv; try done; cbn.
    + by destruct next.
    + intros _ x Hx Hne Hhx Heq. apply Hne. f_equal. f_equal. by apply (pi_resource _ HI).
    + intros d. by apply (pi_dependencies _ HI).
Qed.

(** ** The invariant of the files *)

Section changes.
Context `{CampaignHost} (L : DelegatedCampaignLedger).
Notation disk := (gmap string (option json)).
Notation stored r := (record_path L (cr_workspaceId r) (cr_campaignId r)).

(** The effect of one ledger operation that writes. *)
Inductive changes : disk → disk → Prop :=
| change_create m input i at_ :
    normalize input = Ok i → m !! record_path L (ci_workspaceId i) (ci_campaignId i) = None →
    let r := created_record L i at_ in
    changes m (<[stored r := Some (json_of_record r)]> m)
| change_step m p r r' :
    read_file L m p = Ok (Some r) → record_step r r' →
    changes m (<[stored r := Some (json_of_record r')]> m).

Definition files_ok (m : disk) : Prop :=
  ∀ p r, read_file L m p = Ok (Some r) → p = stored r ∧ plan_inv (cr_tasks r).

Lemma created_record_normal input i at_ :
  normalize input = Ok i → plan_normal (created_record L i at_).
Proof.
  intros [Hok ->]%normalize_iff. unfold plan_normal, normal_input, input_of. cbn.
  rewrite !map_map. cbn. rewrite !sort_strings_idem, (ok_no_secret _ Hok), (ok_no_secret _ Hok).
  f_equal. apply map_ext. intros t. apply normal_step_idem.
Qed.

Lemma created_record_inv i at_ : plan_inv (cr_tasks (created_record L i at_)).
Proof.
  cbn. assert (∀ t, t ∈ cr_tasks (created_record L i at_) → ct_state t = pending) as Hp.
  { cbn. intros t Ht. apply list_elem_of_In, in_map_iff in Ht as (s & <- & _). done. }
  split; intros; exfalso.
  - by rewrite (Hp t1) in *.
  - by rewrite (Hp t1) in *.
  - by rewrite (Hp t) in *.
Qed.

(** What a step keeps of a record. *)
Lemma record_step_frame r r' :
  record_step r r' →
  input_of r' = input_of r ∧ cr_ownerScopeHash r' = cr_ownerScopeHash r ∧
  cr_definitionDigest r' = cr_definitionDigest r ∧ cr_createdAt r' = cr_createdAt r ∧
  cr_revision r' = (cr_revision r + 1)%Z.
Proof.
  assert (∀ r id f at_, (∀ t, ct_step (f t) = ct_step t) →
    input_of (set_task id f at_ r) = input_of r) as Hi.
  { intros ? id f at_ Hf. unfold input_of, set_task. cbn. f_equal. by apply map_update_where. }
  intros [r0 t op at_ _ _ _|r0 t next proof at_ _ _]; (split; [by apply Hi|done]).
Qed.

Lemma record_step_stored r r' : record_step r r' → stored r' = stored r.
Proof. intros [Hi _]%record_step_frame. by injection Hi as -> -> _ _ _. Qed.

Lemma record_ok_ids owner r : record_ok owner r → NoDup (map (λ t, ct_id t) (cr_tasks r)).
Proof.
  intros Hr. pose proof (rok_plan _ _ Hr) as [Hok _]%normalize_iff.
  pose proof (ok_ids _ Hok) as Hd.
  cbn in Hd. by rewrite map_map in Hd.
Qed.

(** Reading after a step gives the new record, if it can be read. *)
Lemma read_stepped m p r r' r'' :
  read_file L m p = Ok (Some r) → record_step r r' →
  read_file L (<[stored r := Some (json_of_record r')]> m) (stored r) = Ok (Some r'') → r'' = r'.
Proof.
  intros Hr Hs (v & Hv & Hp)%read_file_Some. rewrite lookup_insert_eq in Hv. injection Hv as <-.
  apply read_file_ok in Hr as Hok. apply record_step_frame in Hs as (Hi & Ho & _).
  eapply parse_printed; [|exact Hp|by rewrite Ho, (rok_owner _ _ Hok)].
  unfold plan_normal. rewrite Hi. by eapply record_ok_normal.
Qed.

Lemma changes_files_ok m m' : changes m m' → files_ok m → files_ok m'.
Proof.
  intros Hc Hok q x Hq. destruct Hc as [m input i at_ Hn Hnone r|m p r r' Hr Hs].
  - destruct (decide (q = stored r)) as [->|Hne].
    + apply read_file_Some in Hq as (v & Hv & Hp). rewrite lookup_insert_eq in Hv.
      injection Hv as <-.
      apply parse_printed in Hp as ->; [|by eapply created_record_normal|done].
      split; [done|apply created_record_inv].
    + rewrite read_file_insert_ne in Hq by done. by apply Hok.
  - destruct (Hok _ _ Hr) as [_ HI]. destruct (decide (q = stored r)) as [->|Hne].
    + eapply read_stepped in Hq as ->; [|done..]. split; [by rewrite (record_step_stored _ _ Hs)|].
      eapply record_step_plan_inv; [|done..]. by eapply record_ok_ids, read_file_ok.
    + rewrite read_file_insert_ne in Hq by done. by apply Hok.
Qed.

Lemma changes_rtc_files_ok m m' : rtc changes m m' → files_ok m → files_ok m'.
Proof. induction 1; [done|]. intros. by eauto using changes_files_ok. Qed.

(** ** The history of a record *)

(** A record that cannot be read stays as it is. *)
Lemma changes_lookup m m' p v :
  files_ok m → changes m m' → m !! p = Some v →
  m' !! p = Some v ∨
  ∃ r r', read_file L m p = Ok (Some r) ∧ record_step r r' ∧ p = stored r ∧
    m' !! p = Some (Some (json_of_record r')).
Proof.
  intros Hok Hc Hv. destruct Hc as [m input i at_ Hn Hnone r|m q r r' Hr Hs].
  - left. rewrite lookup_insert_ne; [done|]. intros <-. cbn in *. congruence.
  - destruct (Hok _ _ Hr) as [-> _]. destruct (decide (stored r = p)) as [<-|Hne].
    + right. exists r, r'. split_and!; [done..|]. by rewrite lookup_insert_eq.
    + left. by rewrite lookup_insert_ne.
Qed.

Lemma changes_unreadable m m' p v e :
  files_ok m → changes m m' → m !! p = Some v → read_file L m p = Err e →
  m' !! p = Some v ∧ read_file L m' p = Err e.
Proof.
  intros Hok Hc Hv He. destruct (changes_lookup _ _ _ _ Hok Hc Hv) as [Hv'|(r & _ & Hr & _)].
  - split; [done|]. unfold read_file in *. by rewrite Hv' in *; rewrite Hv in *.
  - by rewrite He in Hr.
Qed.

Lemma unreadable_stays m m' p v e :
  files_ok m → rtc changes m m' → m !! p = Some v → read_file L m p = Err e →
  read_file L m' p = Err e.
Proof.
  intros Hok Hc. induction Hc as [m|m m1 m' Hc _ IH]; [done|]. intros Hv He.
  destruct (changes_unreadable _ _ _ _ _ Hok Hc Hv He). apply IH; [|done..].
  by eapply changes_files_ok.
Qed.

Lemma read_file_present m p r : read_file L m p = Ok (Some r) → is_Some (m !! p).
Proof. intros (v & -> & _)%read_file_Some. eauto. Qed.

Lemma read_file_cases m p : is_Some (m !! p) →
  (∃ r, read_file L m p = Ok (Some r)) ∨ ∃ e, read_file L m p = Err e.
Proof.
  intros [v Hv]. unfold read_file. rewrite Hv. destruct v as [v|]; [|eauto].
  destruct (parsePersisted v _); cbn; eauto.
Qed.

(** A step from a record that was read. *)
Definition read_step (r r' : CampaignRecord) : Prop :=
  record_ok (ownerScopeHash L) r ∧ record_step r r'.

Lemma record_history m m' p r r' :
  files_ok m → rtc changes m m' →
  read_file L m p = Ok (Some r) → read_file L m' p = Ok (Some r') → rtc read_step r r'.
Proof.
  intros Hok Hc. revert r. induction Hc as [m|m m1 m' Hc Hcs IH]; intros r Hr Hr'.
  { rewrite Hr in Hr'. injection Hr' as ->. done. }
  destruct (read_file_present _ _ _ Hr) as [v Hv].
  pose proof (changes_files_ok _ _ Hc Hok) as Hok1.
  destruct (changes_lookup _ _ _ _ Hok Hc Hv) as [Hv1|(r0 & r1 & Hr0 & Hs & Hp & Hv1)].
  - apply (IH Hok1); [|done]. unfold read_file in *. by rewrite Hv1; rewrite Hv in Hr.
  - rewrite Hr in Hr0. injection Hr0 as <-.
    destruct (read_file_cases m1 p) as [[x Hx]|[e He]]; [by eauto| |].
    + assert (x = r1) as ->.
      2:{ eapply rtc_l; [split; [by eapply read_file_ok|done]|by apply IH]. }
      apply read_file_Some in Hx as (v1 & E & Hx). rewrite Hv1 in E. injection E as <-.
      pose proof (read_file_ok _ _ _ _ Hr) as Hrok.
      apply record_step_frame in Hs as (Hi & Ho & _).
      eapply parse_printed; [|exact Hx|by rewrite Ho, (rok_owner _ _ Hrok)].
      unfold plan_normal. rewrite Hi. by eapply record_ok_normal.
    + rewrite (unreadable_stays _ _ _ _ _ Hok1 Hcs Hv1 He) in Hr'. done.
Qed.
End changes.

(** ** The life of a task *)

Definition settled (s : CampaignTaskState) : bool :=
  bool_decide (s = completed) || bool_decide (s = failed) || bool_decide (s = blocked).

(** What any number of ledger operations may do to a task: its definition and its
    operation never change once given, a settled task never changes at all, a task
    never becomes pending again, and a claimed task is never claimed again. *)
Record task_progress (t t' : CampaignTask) : Prop := {
  tp_step : ct_step t' = ct_step t;
  tp_operation : ∀ o, ct_operationId t = Some o → ct_operationId t' = Some o;
  tp_settled : settled (ct_state t) = true → t' = t;
  tp_pending : ct_state t' = pending → t' = t;
  tp_claimed_once : ct_state t ≠ pending → ct_state t' = in_flight → t' = t;
}.

#[global] Instance task_progress_refl : Reflexive task_progress.
Proof. intros t. by split. Qed.
#[global] Instance task_progress_trans : Transitive task_progress.
Proof.
  intros t1 t2 t3 [A1 A2 A3 A4 A5] [B1 B2 B3 B4 B5]. split.
  - congruence.
  - auto.
  - intros Hs. specialize (A3 Hs) as ->. auto.
  - intros Hp. specialize (B4 Hp) as ->. auto.
  - intros Hn Hf. destruct (decide (ct_state t2 = pending)) as [Hp|Hp].
    + specialize (A4 Hp) as ->. done.
    + specialize (B5 Hp Hf) as ->. auto.
Qed.

Definition tasks_progress (r r' : CampaignRecord) : Prop :=
  Forall2 task_progress (cr_tasks r) (cr_tasks r').

#[global] Instance tasks_progress_refl : Reflexive tasks_progress.
Proof. intros r. unfold tasks_progress. by apply Forall_Forall2_diag, Forall_true. Qed.
#[global] Instance tasks_progress_trans : Transitive tasks_progress.
Proof. intros r1 r2 r3. unfold tasks_progress. intros. by etrans. Qed.

Lemma Forall2_update_where {A} (R : A → A → Prop) p f l :
  (∀ x, x ∈ l → R x x) → (∀ x, x ∈ l → p x = true → R x (f x)) →
  Forall2 R l (update_where p f l).
Proof.
  unfold update_where. induction l as [|x l IH]; intros Hr Hf; constructor.
  - destruct (p x) eqn:Hp; [apply Hf|apply Hr]; (done || left).
  - apply IH; intros; [apply Hr|apply Hf]; (done || by right).
Qed.

Lemma record_step_progress owner `{CampaignHost} r r' :
  record_ok owner r → record_step r r' → tasks_progress r r'.
Proof.
  intros Hok Hs. pose proof (record_ok_ids _ _ Hok) as Hnd.
  pose proof (rok_tasks _ _ Hok) as Htok. rewrite Forall_forall in Htok.
  destruct Hs as [r t op at_ _ Ht Hr|r t next proof at_ Ht [Ho Hu Hp _]]; unfold tasks_progress; cbn;
    (apply Forall2_update_where; [done|]); intros x Hx Hid; bool_inv;
    assert (x = t) as -> by (by eapply (NoDup_key_inj (λ t, ct_id t))).
  - apply runnable_spec in Hr as (Hpend & _). specialize (tok_pending _ (Htok t Ht) Hpend) as Hno.
    split; cbn; rewrite ?Hpend, ?Hno; done.
  - unfold unsettled in Hu. split; cbn; try done.
    + by destruct (ct_state t).
    + by destruct next.
    + by destruct next.
Qed.

(** What the history of a record keeps. *)
Lemma read_steps_frame `{CampaignHost} L r r' :
  rtc (read_step L) r r' →
  tasks_progress r r' ∧ input_of r' = input_of r ∧
  cr_definitionDigest r' = cr_definitionDigest r ∧ cr_createdAt r' = cr_createdAt r ∧
  (cr_revision r ≤ cr_revision r')%Z ∧ (cr_revision r' = cr_revision r → r' = r).
Proof.
  induction 1 as [r|r r1 r2 [Hok Hs] _ (IH & Hi & Hd & Hc & Hle & Heq)].
  { split_and!; [reflexivity|done..]. }
  pose proof (record_step_frame _ _ Hs) as (Hi1 & _ & Hd1 & Hc1 & Hr1).
  split_and!; [|congruence..|lia|intros; lia].
  etrans; [|exact IH]. by eapply record_step_progress.
Qed.

(** ** Every ledger operation is a change or leaves the files alone *)

Section operations.
Context `{CampaignHost} `{RunLease} (L : DelegatedCampaignLedger).

Definition ledger_effect (w w' : world) : Prop :=
  calls w' = calls w ∧ rtc (changes L) (files w) (files w').

#[global] Instance ledger_effect_refl : Reflexive ledger_effect.
Proof. by intros w. Qed.
#[global] Instance ledger_effect_trans : Transitive ledger_effect.
Proof. intros w1 w2 w3 [C1 F1] [C2 F2]. split; [congruence|by etrans]. Qed.

Lemma same_disk_effect w w' : same_disk w w' → ledger_effect w w'.
Proof. intros [Hf Hc]. split; [done|]. by rewrite Hf. Qed.

Lemma read_effect ws id w r w' : read L ws id w = (r, w') → ledger_effect w w'.
Proof. rewrite read_run. by intros [= <- <-]. Qed.

Lemma create_effect input w r w' : create L input w = (r, w') → ledger_effect w w'.
Proof.
  intros [[_ Hs]|(i & Hn & Hc & [(old & _ & _ & Hf & _)|(at_ & Hnone & Hf & _)])]%create_cases.
  - by apply same_disk_effect.
  - by apply same_disk_effect.
  - split; [done|]. rewrite Hf. apply rtc_once. by eapply (change_create L _ _ _ at_).
Qed.

Lemma claimNext_effect ws id w r w' : claimNext L ws id w = (r, w') → ledger_effect w w'.
Proof.
  intros [[_ Hs]|(rec & Hr & Hc & [(Hf & _)|(t & n & at_ & Hno & Hfd & _ & Hf & _)])]%claimNext_cases.
  - by apply same_disk_effect.
  - by apply same_disk_effect.
  - split; [done|]. rewrite Hf. apply rtc_once. eapply change_step; [done|].
    apply find_Some_elem in Hfd as [Ht Hrun]. by constructor.
Qed.

Lemma transition_effect ws id taskId operationId next proof w r w' :
  transition L ws id taskId operationId next proof w = (r, w') → ledger_effect w w'.
Proof.
  intros [[_ Hs]|(rec & t & at_ & Hr & Hc & Hfd & _ & Hcs & Hf & _)]%transition_cases.
  - by apply same_disk_effect.
  - split; [done|]. rewrite Hf. apply rtc_once. eapply change_step; [done|].
    apply find_Some_elem in Hfd as [Ht Hid]. bool_inv. subst. by constructor.
Qed.
End operations.

Create HintDb ledger discriminated.
#[export] Hint Resolve read_effect create_effect claimNext_effect transition_effect : ledger.
