(* ===== verification/CampaignCoordinator.v ===== *)
(** * CampaignCoordinator: running a delegated campaign

    services/workspace-agent/src/campaign/delegated-campaign-coordinator.ts.  One
    exclusive run checks every task's capability against the plan, then reconciles
    the operations an earlier run left behind and claims and dispatches runnable
    tasks, within a budget of steps.

    The typed capabilities are the host's: a method's reply is a function of the
    number of capability calls made before and of the request, [None] is a rejected
    promise, [Some None] a value that is not an object. *)

From S2P Require Import Prelude Text CampaignWorld CampaignLedger.

(** [state] is the string the capability returned; the five literals of the type
    are checked at run time. *)
Record CampaignObservation := {
  ob_operationId : string;
  ob_targetResource : string;
  ob_expectedState : string;
  ob_argumentsDigest : string;
  ob_state : string;
  ob_proof : option CampaignProof;
}.

Record TypedCampaignCapability := {
  cap_action : string;
  cap_targetResource : string;
  cap_expectedState : string;
  cap_argumentsDigest : string;
  cap_execute : nat → CampaignInvocation → option (option CampaignObservation);
  cap_reconcile : nat → CampaignInvocation → option (option CampaignObservation);
  cap_verify : nat → CampaignInvocation → CampaignObservation → option bool;
}.

Inductive CampaignRunStop :=
| all_completed | awaiting_reconciliation | no_runnable | step_budget.
#[global] Instance CampaignRunStop_eq_dec : EqDecision CampaignRunStop.
Proof. solve_decision. Defined.

Record CampaignRunResult := {
  rr_stop : CampaignRunStop;
  rr_executed : nat;
  rr_reconciled : nat;
  rr_campaign : CampaignRecord;
}.

Definition binding_matches (task : CampaignStep) (c : TypedCampaignCapability) : bool :=
  bool_decide (cap_action c = cs_action task) &&
  bool_decide (cap_targetResource c = cs_targetResource task) &&
  bool_decide (cap_expectedState c = cs_expectedState task) &&
  bool_decide (cap_argumentsDigest c = cs_argumentsDigest task).

Definition assertBinding (task : CampaignStep) (c : option TypedCampaignCapability) :
    outcome campaign_error TypedCampaignCapability :=
  match c with
  | Some c => if binding_matches task c then Ok c else Err CAMPAIGN_BINDING_MISMATCH
  | None => Err CAMPAIGN_BINDING_MISMATCH
  end.

(** [state === "succeeded" || state === "failed" || state === "not_started"] *)
Definition terminal (state : string) : bool :=
  bool_decide (state ∈ ["succeeded"; "failed"; "not_started"]%string).

Definition validateObservation (output : option CampaignObservation) (task : CampaignStep)
    (operationId : string) : outcome campaign_error CampaignObservation :=
  match output with
  | None => Err CAMPAIGN_OBSERVATION_MISMATCH
  | Some output =>
      check CAMPAIGN_OBSERVATION_MISMATCH
        (bool_decide (ob_operationId output = operationId) &&
         bool_decide (ob_targetResource output = cs_targetResource task) &&
         bool_decide (ob_expectedState output = cs_expectedState task) &&
         bool_decide (ob_argumentsDigest output = cs_argumentsDigest task));;
      if terminal (ob_state output) then
        check CAMPAIGN_UNVERIFIED (evidence_ok (ob_proof output));; Ok output
      else
        check CAMPAIGN_OBSERVATION_INVALID
          (bool_decide (ob_state output ∈ ["in_progress"; "outcome_unknown"]%string));; Ok output
  end.

(** [try { m } catch { handler }] *)
Definition try_catch {A} (m handler : W A) : W A := λ w,
  match m w with
  | (Ok a, w') => (Ok a, w')
  | (Err _, w') => handler w'
  end.

Section coordinator.
Context `{CampaignHost} `{RunLease}.
Context (L : DelegatedCampaignLedger).
(** [boundCapabilities.get(taskId)] *)
Context (boundCapabilities : string → option TypedCampaignCapability).

(** A capability call: logged, then answered or rejected. *)
Definition call_port {A} (m : port_method) (request : CampaignInvocation)
    (reply : nat → option A) : W A :=
  n ← gets (λ w, length (calls w));
  modify (log_call {| pc_method := m; pc_request := request |});;
  require_some (reply n) Rejected.

Definition requireCampaign (workspaceId id : string) : W CampaignRecord :=
  found ← get L workspaceId id;
  require_some found CAMPAIGN_NOT_FOUND.

Definition invocation (campaign : CampaignRecord) (task : CampaignTask) (operationId : string) :
    CampaignInvocation :=
  {| iv_campaignId := cr_campaignId campaign; iv_workspaceId := cr_workspaceId campaign;
     iv_taskId := ct_id task; iv_operationId := operationId;
     iv_action := cs_action (ct_step task);
     iv_targetResource := cs_targetResource (ct_step task);
     iv_expectedState := cs_expectedState (ct_step task);
     iv_argumentsDigest := cs_argumentsDigest (ct_step task) |}.

Definition verifyTerminal (port : TypedCampaignCapability) (request : CampaignInvocation)
    (result : CampaignObservation) : W unit :=
  if terminal (ob_state result) then
    ok ← call_port Verify request (λ n, cap_verify port n request result);
    require ok CAMPAIGN_UNVERIFIED
  else mret tt.

Definition applyObservation (campaign : CampaignRecord) (task : CampaignTask)
    (output : CampaignObservation) : W unit :=
  operationId ← require_some (ct_operationId task) CAMPAIGN_INVALID;
  let move next proof :=
    transition L (cr_workspaceId campaign) (cr_campaignId campaign) (ct_id task) operationId
      next proof;; mret tt in
  if bool_decide (ob_state output = "succeeded")%string then
    move to_completed (ob_proof output)
  else if bool_decide (ob_state output = "failed")%string then
    move to_failed (ob_proof output)
  else if bool_decide (ob_state output = "not_started")%string then
    move to_blocked (ob_proof output)
  else if bool_decide (ob_state output = "outcome_unknown")%string &&
          bool_decide (ct_state task = in_flight) then
    move to_outcome_unknown None
  else mret tt.

(** Ask the capability, check its answer, have it verified, record it. *)
Definition observe (m : port_method) (port : TypedCampaignCapability)
    (reply : nat → CampaignInvocation → option (option CampaignObservation))
    (campaign : CampaignRecord) (task : CampaignTask) (operationId : string) : W unit :=
  let request := invocation campaign task operationId in
  answer ← call_port m request (λ n, reply n request);
  output ← lift (validateObservation answer (ct_step task) operationId);
  verifyTerminal port request output;;
  applyObservation campaign task output.

Definition reconcileExisting (campaign : CampaignRecord) (task : CampaignTask) : W unit :=
  operationId ← require_some (ct_operationId task) CAMPAIGN_INVALID;
  try_catch
    (capability ← require_some (boundCapabilities (ct_id task)) CAMPAIGN_INVALID;
     observe Reconcile capability (cap_reconcile capability) campaign task operationId)
    (if bool_decide (ct_state task = in_flight) then
       transition L (cr_workspaceId campaign) (cr_campaignId campaign) (ct_id task)
         operationId to_outcome_unknown None;; mret tt
     else mret tt).

(** Dispatch of a task this run has just claimed. *)
Definition dispatch_claimed (workspaceId campaignId : string) (campaign : CampaignRecord)
    (task : CampaignTask) (operationId : string) : W unit :=
  try_catch
    (port ← require_some (boundCapabilities (ct_id task)) CAMPAIGN_INVALID;
     observe Execute port (cap_execute port) campaign task operationId)
    (transition L workspaceId campaignId (ct_id task) operationId to_outcome_unknown None;;
     mret tt).

Definition all_done (campaign : CampaignRecord) : bool :=
  forallb (λ t, bool_decide (ct_state t = completed)) (cr_tasks campaign).

(** [for (let steps = 0; steps < maxSteps; steps++)], by the steps left. *)
Fixpoint run_loop (steps : nat) (workspaceId campaignId : string)
    (visited : list string) (executed reconciled : nat) : W CampaignRunResult :=
  let result stop executed reconciled campaign :=
    {| rr_stop := stop; rr_executed := executed; rr_reconciled := reconciled;
       rr_campaign := campaign |} in
  match steps with
  | O =>
      campaign ← requireCampaign workspaceId campaignId;
      mret (result (if all_done campaign then all_completed else step_budget)
              executed reconciled campaign)
  | S steps =>
      current ← requireCampaign workspaceId campaignId;
      if all_done current then mret (result all_completed executed reconciled current) else
      match List.find (λ t, (bool_decide (ct_state t = in_flight) ||
                             bool_decide (ct_state t = outcome_unknown)) &&
                            bool_decide (ct_id t ∉ visited)) (cr_tasks current) with
      | Some unresolved =>
          reconcileExisting current unresolved;;
          run_loop steps workspaceId campaignId (ct_id unresolved :: visited)
            executed (S reconciled)
      | None =>
          if existsb (λ t, bool_decide (ct_state t = in_flight)) (cr_tasks current)
          then mret (result awaiting_reconciliation executed reconciled current) else
          claim ← claimNext L workspaceId campaignId;
          match claim with
          | no_runnable_step campaign =>
              mret (result
                (if existsb (λ t, bool_decide (ct_state t = outcome_unknown)) (cr_tasks campaign)
                 then awaiting_reconciliation else no_runnable)
                executed reconciled campaign)
          | claimed taskId operationId campaign =>
              task ← require_some
                (List.find (λ t, bool_decide (ct_id t = taskId)) (cr_tasks campaign))
                CAMPAIGN_INVALID;
              lift (assertBinding (ct_step task) (boundCapabilities (ct_id task)));;
              dispatch_claimed workspaceId campaignId campaign task operationId;;
              run_loop steps workspaceId campaignId (ct_id task :: visited)
                (S executed) reconciled
          end
      end
  end.

Definition preflight (campaign : CampaignRecord) : W unit :=
  for_each (λ t, lift (assertBinding (ct_step t) (boundCapabilities (ct_id t)));; mret tt)
    (cr_tasks campaign).

Definition run (workspaceId campaignId : string) (maxSteps : Z) : W CampaignRunResult :=
  require ((1 <=? maxSteps)%Z && (maxSteps <=? 128)%Z) CAMPAIGN_INVALID;;
  withExclusiveRun L workspaceId campaignId (
    initial ← requireCampaign workspaceId campaignId;
    preflight initial;;
    run_loop (Z.to_nat maxSteps) workspaceId campaignId [] 0 0).
End coordinator.
