(* ===== verification/CampaignDispatch.v ===== *)
(** * CampaignDispatch: what a coordinator run may do

    [keeps Q m]: the program [m] keeps the predicate [Q] of worlds whether it
    returns or throws.  The rules for the combinators make the proofs about
    [CampaignCoordinator.run] follow its text. *)

From S2P Require Import Prelude Text Dfs CampaignWorld CampaignLedger CampaignRecords.
From S2P Require Import CampaignSteps CampaignInv CampaignCoordinator.

Definition keeps (Q : world → Prop) {A} (m : W A) : Prop :=
  ∀ w r w', m w = (r, w') → Q w → Q w'.

Section keeps.
Context (Q : world → Prop).

Lemma kept_ret {A} (a : A) : keeps Q (mret a).
Proof. by intros w r w' [= <- <-]. Qed.
Lemma kept_lift {A} (o : outcome campaign_error A) : keeps Q (lift o).
Proof. by intros w r w' [= <- <-]. Qed.
Lemma kept_require b e : keeps Q (require b e).
Proof. unfold require. destruct b; by intros w r w' [= <- <-]. Qed.
Lemma kept_require_some {A} (o : option A) e : keeps Q (require_some o e).
Proof. destruct o; by intros w r w' [= <- <-]. Qed.
Lemma keeps_gets {A} (f : world → A) : keeps Q (gets f).
Proof. by intros w r w' [= <- <-]. Qed.

Lemma kept_bind {A B} (m : W A) (k : A → W B) :
  keeps Q m → (∀ a, keeps Q (k a)) → keeps Q (m ≫= k).
Proof.
  intros Hm Hk w r w'. unfold mbind, io_bind. destruct (m w) as [[a|e] w1] eqn:E; intros Hr Hq.
  - eapply Hk; [exact Hr|]. by eapply Hm.
  - injection Hr as <- <-. by eapply Hm.
Qed.
Lemma kept_try {A} (m h : W A) : keeps Q m → keeps Q h → keeps Q (try_catch m h).
Proof.
  intros Hm Hh w r w'. unfold try_catch. destruct (m w) as [[a|e] w1] eqn:E; intros Hr Hq.
  - injection Hr as <- <-. by eapply Hm.
  - eapply Hh; [exact Hr|]. by eapply Hm.
Qed.
Lemma keeps_if {A} (b : bool) (m1 m2 : W A) :
  keeps Q m1 → keeps Q m2 → keeps Q (if b then m1 else m2).
Proof. by destruct b. Qed.
Lemma keeps_for_each {A} (f : A → W unit) l : (∀ x, keeps Q (f x)) → keeps Q (for_each f l).
Proof.
  intros Hf. induction l as [|x l IH]; [apply kept_ret|]. apply kept_bind; [apply Hf|done].
Qed.

(** [Q] looks at the files and the calls only. *)
Context (Hq : ∀ w w', same_disk w w' → Q w → Q w').

Lemma keeps_lease `{RunLease} {A} file (task : W A) : keeps Q task → keeps Q (lease_run file task).
Proof using Hq.
  intros Ht w r w' [(e & _ & Hf & Hc)|(w0 & r0 & w1 & Hf & Hc & _ & Hr & Hf' & Hc' & _)]
    %lease_run_spec Hw; [by eapply Hq|].
  eapply (Hq w1); [done|]. eapply Ht; [exact Hr|]. by eapply Hq.
Qed.
End keeps.

Create HintDb keeps discriminated.
#[export] Hint Resolve kept_ret kept_lift kept_require kept_require_some keeps_gets
  kept_bind kept_try keeps_if keeps_for_each : keeps.

(** ** Predicates of the ledger's effects

    A predicate stable under ledger effects is kept by every program that uses the
    world only through the ledger. *)
Section coordinator.
Context `{CampaignHost} `{RunLease} (L : DelegatedCampaignLedger).
Context (caps : string → option TypedCampaignCapability).

Section stable.
Context (Q : world → Prop) (Hst : ∀ w w', ledger_effect L w w' → Q w → Q w').

Lemma keeps_ledger {A} (m : W A) :
  (∀ w r w', m w = (r, w') → ledger_effect L w w') → keeps Q m.
Proof using Hst. intros Hm w r w' Hr. eapply Hst, Hm, Hr. Qed.

Lemma keeps_requireCampaign ws id : keeps Q (requireCampaign L ws id).
Proof using Hst.
  apply kept_bind; [|auto with keeps].
  apply keeps_ledger. intros. by eapply read_effect.
Qed.
Lemma keeps_transition ws id task op next proof :
  keeps Q (transition L ws id task op next proof).
Proof using Hst. apply keeps_ledger. intros. by eapply transition_effect. Qed.
Lemma keeps_claimNext ws id : keeps Q (claimNext L ws id).
Proof using Hst. apply keeps_ledger. intros. by eapply claimNext_effect. Qed.
Lemma keeps_preflight campaign : keeps Q (preflight caps campaign).
Proof using. apply keeps_for_each. intros t. apply kept_bind; auto with keeps. Qed.
Lemma stable_same_disk w w' : same_disk w w' → Q w → Q w'.
Proof using Hst. intros Hs. by apply Hst, same_disk_effect. Qed.
End stable.

Lemma call_port_world {A} m req (reply : nat → option A) w r w' :
  call_port m req reply w = (r, w') → w' = log_call {| pc_method := m; pc_request := req |} w.
Proof.
  unfold call_port, mbind, io_bind, gets, modify, require_some.
  destruct (reply _); by intros [= <- <-].
Qed.

Lemma keeps_applyObservation (Q : world → Prop) campaign task output :
  (∀ w w', ledger_effect L w w' → Q w → Q w') → keeps Q (applyObservation L campaign task output).
Proof.
  intros Hst. unfold applyObservation. apply kept_bind; [auto with keeps|]. intros op.
  repeat apply keeps_if; auto using kept_bind, keeps_transition, kept_ret.
Qed.

(** A predicate that ledger effects and logged calls keep is kept by a run. *)
Section log_stable.
Context (Q : world → Prop) (Hst : ∀ w w', ledger_effect L w w' → Q w → Q w').
Context (Hlog : ∀ c w, Q w → Q (log_call c w)).

Lemma stable_call_port {A} m req (reply : nat → option A) : keeps Q (call_port m req reply).
Proof using Hlog. intros w r w' ->%call_port_world. apply Hlog. Qed.

Lemma stable_observe m port reply campaign task op :
  keeps Q (observe L m port reply campaign task op).
Proof using Hst Hlog.
  apply kept_bind; [apply stable_call_port|]. intros a.
  apply kept_bind; [auto with keeps|]. intros output.
  apply kept_bind; [|intros; by apply keeps_applyObservation].
  apply keeps_if; [|auto with keeps].
  apply kept_bind; [apply stable_call_port|auto with keeps].
Qed.

Lemma stable_run_loop steps ws id visited executed reconciled :
  keeps Q (run_loop L caps steps ws id visited executed reconciled).
Proof using Hst Hlog.
  assert (∀ ws id task op, keeps Q (transition L ws id task op to_outcome_unknown None;; mret tt))
    as Hmove by (intros; apply kept_bind; [by apply keeps_transition|auto with keeps]).
  assert (∀ m campaign task op (reply : TypedCampaignCapability → _), keeps Q
    (port ← require_some (caps (ct_id task)) CAMPAIGN_INVALID;
     observe L m port (reply port) campaign task op)) as Hobs.
  { intros. apply kept_bind; [auto with keeps|]. intros. apply stable_observe. }
  revert visited executed reconciled. induction steps as [|steps IH];
    intros visited executed reconciled; cbn;
    (apply kept_bind; [by apply keeps_requireCampaign|]); intros current; [auto with keeps|].
  apply keeps_if; [auto with keeps|]. destruct (List.find _ _) as [un|].
  { apply kept_bind; [|auto]. apply kept_bind; [auto with keeps|]. intros op.
    apply kept_try; [apply (Hobs Reconcile _ _ _ cap_reconcile)|]. auto with keeps. }
  apply keeps_if; [auto with keeps|]. apply kept_bind; [by apply keeps_claimNext|].
  intros [taskId op campaign|campaign]; [|auto with keeps].
  apply kept_bind; [auto with keeps|]. intros task.
  apply kept_bind; [auto with keeps|]. intros _. apply kept_bind; [|auto].
  apply kept_try; [apply (Hobs Execute _ _ _ cap_execute)|auto].
Qed.

Lemma stable_run ws id maxSteps : keeps Q (run L caps ws id maxSteps).
Proof using Hst Hlog.
  apply kept_bind; [auto with keeps|]. intros _. apply kept_bind; [auto with keeps|].
  intros f. apply keeps_lease; [by apply stable_same_disk|].
  apply kept_bind; [by apply keeps_requireCampaign|]. intros initial.
  apply kept_bind; [apply keeps_preflight|]. intros _. apply stable_run_loop.
Qed.
End log_stable.

(** ** Each task is dispatched at most once *)

Definition executes (ws id task : string) (c : port_call) : bool :=
  bool_decide (pc_method c = Execute) &&
  bool_decide (iv_workspaceId (pc_request c) = ws) &&
  bool_decide (iv_campaignId (pc_request c) = id) &&
  bool_decide (iv_taskId (pc_request c) = task).

(** The campaign's record exists and does not offer the task for a claim. *)
Definition claimed_at (m : gmap string (option json)) (ws id task : string) : Prop :=
  is_Some (m !! record_path L ws id) ∧
  ∀ r t, read_file L m (record_path L ws id) = Ok (Some r) → t ∈ cr_tasks r →
    ct_id t = task → ct_state t ≠ pending.

Record dispatch_inv (w : world) : Prop := {
  di_files : files_ok L (files w);
  di_once : ∀ ws id task, count_where (executes ws id task) (calls w) ≤ 1;
  di_claimed : ∀ ws id task, 0 < count_where (executes ws id task) (calls w) →
    claimed_at (files w) ws id task;
}.

Lemma lookup_stays m m' p v :
  files_ok L m → rtc (changes L) m m' → m !! p = Some v → is_Some (m' !! p).
Proof.
  intros Hok Hc. revert v. induction Hc as [m|m m1 m' Hc _ IH]; intros v Hv; [eauto|].
  pose proof (changes_files_ok _ _ _ Hc Hok) as Hok1.
  destruct (changes_lookup _ _ _ _ _ Hok Hc Hv) as [Hv1|(r & r' & _ & _ & _ & Hv1)]; eauto.
Qed.

Lemma Forall2_elem_r {A B} (R : A → B → Prop) l l' y :
  Forall2 R l l' → y ∈ l' → ∃ x, x ∈ l ∧ R x y.
Proof.
  intros HF (i & Hi)%list_elem_of_lookup.
  destruct (Forall2_lookup_r _ _ _ _ _ HF Hi) as (x & Hx & HR).
  exists x. split; [by eapply list_elem_of_lookup_2|done].
Qed.

Lemma claimed_at_stays m m' ws id task :
  files_ok L m → rtc (changes L) m m' → claimed_at m ws id task → claimed_at m' ws id task.
Proof.
  intros Hok Hc [[v Hv] Hcl]. split; [by eapply lookup_stays|].
  intros r' t' Hr' Ht' Hid Hp.
  destruct (read_file_cases L m (record_path L ws id)) as [[r Hr]|[e He]]; [by eauto| |].
  - pose proof (record_history _ _ _ _ _ _ Hok Hc Hr Hr') as [Hpr _]%read_steps_frame.
    destruct (Forall2_elem_r _ _ _ _ Hpr Ht') as (t & Ht & [_ _ _ Htp _]).
    specialize (Htp Hp) as ->. by apply (Hcl r t).
  - by rewrite (unreadable_stays _ _ _ _ _ _ Hok Hc Hv He) in Hr'.
Qed.

Lemma dispatch_inv_stable w w' : ledger_effect L w w' → dispatch_inv w → dispatch_inv w'.
Proof.
  intros [Hc Hf] [Hok H1 H2]. split; rewrite ?Hc; [|done|].
  - by eapply changes_rtc_files_ok.
  - intros. by eapply claimed_at_stays; [..|apply H2].
Qed.

Lemma dispatch_inv_log w c :
  (∀ ws id task, executes ws id task c = true →
     count_where (executes ws id task) (calls w) = 0 ∧ claimed_at (files w) ws id task) →
  dispatch_inv w → dispatch_inv (log_call c w).
Proof.
  intros Hc [Hok H1 H2]. split; [done| |]; intros ws id task; cbn;
    unfold count_where in *; rewrite List.filter_app, length_app; cbn;
    destruct (executes ws id task c) eqn:He; cbn; rewrite ?Nat.add_0_r; auto.
  - destruct (Hc _ _ _ He) as [-> _]. done.
  - intros _. by apply Hc.
Qed.

Lemma keeps_call_port {A} m req (reply : nat → option A) :
  m ≠ Execute → keeps dispatch_inv (call_port m req reply).
Proof.
  intros Hm w r w' ->%call_port_world. apply dispatch_inv_log. intros ws id task.
  unfold executes. cbn. rewrite (bool_decide_eq_false_2 (m = Execute)) by done. done.
Qed.

Lemma keeps_verifyTerminal port req result :
  keeps dispatch_inv (verifyTerminal port req result).
Proof.
  unfold verifyTerminal. apply keeps_if; [|auto with keeps].
  apply kept_bind; [by apply keeps_call_port|auto with keeps].
Qed.

Lemma observe_dispatch m port reply campaign task op w r w' :
  observe L m port reply campaign task op w = (r, w') → dispatch_inv w →
  (m = Execute →
     count_where (executes (cr_workspaceId campaign) (cr_campaignId campaign) (ct_id task))
       (calls w) = 0 ∧
     claimed_at (files w) (cr_workspaceId campaign) (cr_campaignId campaign) (ct_id task)) →
  dispatch_inv w'.
Proof.
  intros Hr Hinv Hex. unfold observe in Hr. unfold mbind at 1, io_bind in Hr.
  destruct (call_port _ _ _ w) as [a w1] eqn:Hc. apply call_port_world in Hc as ->.
  assert (dispatch_inv (log_call {| pc_method := m; pc_request := invocation campaign task op |} w))
    as Hinv'.
  { apply dispatch_inv_log; [|done]. intros ws id t Ht. unfold executes in Ht. cbn in Ht.
    bool_inv. subst. by apply Hex. }
  destruct a as [answer|e]; [|by injection Hr as <- <-].
  revert Hinv'. eapply kept_bind; [auto with keeps| |exact Hr]. intros output.
  apply kept_bind; [apply keeps_verifyTerminal|]. intros _.
  apply keeps_applyObservation, dispatch_inv_stable.
Qed.

Lemma keeps_reconcileExisting campaign task :
  keeps dispatch_inv (reconcileExisting L caps campaign task).
Proof.
  unfold reconcileExisting. apply kept_bind; [auto with keeps|]. intros op. apply kept_try.
  - apply kept_bind; [auto with keeps|]. intros cap w r w' Hr Hinv.
    by eapply observe_dispatch.
  - apply keeps_if; [|auto with keeps].
    apply kept_bind; [|auto with keeps]. apply keeps_transition, dispatch_inv_stable.
Qed.

(** A claim makes the task fresh for exactly one dispatch. *)
Lemma claimNext_fresh ws id w taskId op campaign w' :
  claimNext L ws id w = (Ok (claimed taskId op campaign), w') → dispatch_inv w →
  count_where (executes (cr_workspaceId campaign) (cr_campaignId campaign) taskId)
    (calls w') = 0 ∧
  claimed_at (files w') (cr_workspaceId campaign) (cr_campaignId campaign) taskId.
Proof.
  intros Hcl Hinv. apply claimNext_cases in Hcl as [[[e [=]] _]|(rec & Hread & Hc & Hcase)].
  destruct Hcase as [(_ & [[=]|[e [=]]] & _)|(t & n & at_ & Hno & Hfd & _ & Hf & Hout)].
  assert (campaign = set_task (ct_id t) (claim_task (randomUUID n)) at_ rec ∧ taskId = ct_id t)
    as [Hcam ->] by (destruct Hout as [[=]|[e [=]]]; done).
  assert (cr_workspaceId campaign = cr_workspaceId rec ∧
    cr_campaignId campaign = cr_campaignId rec) as [-> ->] by by subst.
  apply find_Some_elem in Hfd as [Ht Hrun].
  destruct (di_files _ Hinv _ _ Hread) as [Hpath _]. rewrite Hpath in Hread.
  assert (record_step rec campaign) as Hs by (subst; by constructor).
  rewrite <- Hcam in Hf. split.
  - rewrite Hc. destruct (count_where _ (calls w)) eqn:Hn; [done|].
    destruct (di_claimed _ Hinv (cr_workspaceId rec) (cr_campaignId rec) (ct_id t)) as [_ Hp];
      [lia|]. destruct (Hp rec t Hread Ht eq_refl). by apply runnable_spec in Hrun as [? _].
  - split; [rewrite Hf, lookup_insert_eq; eauto|]. intros r x Hr Hx Hid. rewrite Hf in Hr.
    eapply read_stepped in Hr as ->; [|done..]. subst campaign. cbn in Hx.
    apply update_task_elem in Hx as [->|[_ Hne]]; [done..| |done].
    by eapply record_ok_ids, read_file_ok.
Qed.

Lemma dispatch_claimed_inv ws id campaign task op w r w' :
  dispatch_claimed L caps ws id campaign task op w = (r, w') → dispatch_inv w →
  count_where (executes (cr_workspaceId campaign) (cr_campaignId campaign) (ct_id task))
    (calls w) = 0 ∧
  claimed_at (files w) (cr_workspaceId campaign) (cr_campaignId campaign) (ct_id task) →
  dispatch_inv w'.
Proof.
  intros Hd Hinv Hfresh. unfold dispatch_claimed, try_catch in Hd.
  assert (∀ w1, dispatch_inv w1 → (transition L ws id (ct_id task) op to_outcome_unknown None;;
    mret tt) w1 = (r, w') → dispatch_inv w') as Hh.
  { intros w1 Hw1 Ht. revert Hw1. eapply kept_bind; [..|exact Ht]; [|intros; apply kept_ret].
    apply keeps_transition, dispatch_inv_stable. }
  destruct (caps (ct_id task)) as [port|]; [|by eapply Hh].
  change ((require_some (Some port) CAMPAIGN_INVALID ≫= _) w)
    with (observe L Execute port (cap_execute port) campaign task op w) in Hd.
  destruct (observe L Execute port _ campaign task op w) as [o w1] eqn:Ho.
  assert (dispatch_inv w1) as Hinv1 by by eapply observe_dispatch.
  destruct o; [by injection Hd as <- <-|by eapply Hh].
Qed.

Lemma keeps_run_loop steps ws id visited executed reconciled :
  keeps dispatch_inv (run_loop L caps steps ws id visited executed reconciled).
Proof.
  pose proof dispatch_inv_stable as Hst.
  revert visited executed reconciled. induction steps as [|steps IH];
    intros visited executed reconciled; cbn;
    (apply kept_bind; [by apply keeps_requireCampaign|]); intros current; [auto with keeps|].
  apply keeps_if; [auto with keeps|]. destruct (List.find _ _) as [un|].
  { apply kept_bind; [apply keeps_reconcileExisting|auto]. }
  apply keeps_if; [auto with keeps|].
  intros w r w' Hr Hinv. unfold mbind at 1, io_bind in Hr.
  destruct (claimNext L ws id w) as [[claim|e] w1] eqn:Hcl.
  2:{ injection Hr as <- <-. by eapply Hst; [eapply claimNext_effect|]. }
  assert (dispatch_inv w1) as Hinv1 by (by eapply Hst; [eapply claimNext_effect|]).
  destruct claim as [taskId op campaign|campaign]; [|by injection Hr as <- <-].
  apply claimNext_fresh in Hcl; [|done]. unfold mbind at 1, io_bind in Hr.
  destruct (List.find _ (cr_tasks campaign)) as [task|] eqn:Hfd; [|by injection Hr as <- <-].
  apply find_Some_elem in Hfd as [_ Hid]. bool_inv. subst taskId.
  cbn [require_some mret io_ret] in Hr. rewrite lift_bind in Hr.
  destruct (assertBinding _ _); [|by injection Hr as <- <-].
  unfold mbind at 1, io_bind in Hr.
  destruct (dispatch_claimed _ _ _ _ _ _ _ _) as [[u|e] w2] eqn:Hd;
    apply dispatch_claimed_inv in Hd; [|done|done| |done|done].
  - by eapply IH.
  - by injection Hr as <- <-.
Qed.

Lemma keeps_run ws id maxSteps : keeps dispatch_inv (run L caps ws id maxSteps).
Proof.
  pose proof dispatch_inv_stable as Hst. unfold run, withExclusiveRun.
  apply kept_bind; [auto with keeps|]. intros _. apply kept_bind; [auto with keeps|].
  intros f. apply keeps_lease.
  { intros w w' Hs. by apply Hst, same_disk_effect. }
  apply kept_bind; [by apply keeps_requireCampaign|]. intros initial.
  apply kept_bind; [apply keeps_preflight|]. intros _. apply keeps_run_loop.
Qed.
End coordinator.
#[export] Hint Resolve keeps_requireCampaign keeps_transition keeps_claimNext keeps_preflight : keeps.
