(* ===== verification/CampaignVerified.v ===== *)
(** * CampaignVerified: budgets and evidence of a coordinator run

    A run makes at most [maxSteps] effectful or reconciling capability calls, and
    every task it completes was confirmed by that task's capability in this run. *)

From S2P Require Import Prelude Text Dfs CampaignWorld CampaignLedger CampaignRecords.
From S2P Require Import CampaignSteps CampaignInv CampaignCoordinator CampaignDispatch.

(** ** Calls made *)

(** [adds p n m]: running [m] logs at most [n] calls satisfying [p]. *)
Definition adds (p : port_call → bool) (n : nat) {A} (m : W A) : Prop :=
  ∀ w r w', m w = (r, w') → count_where p (calls w') ≤ count_where p (calls w) + n.

Section adds.
Context (p : port_call → bool).

(** A program that keeps every bound on the log adds nothing. *)
Lemma keeps_adds {A} n (m : W A) :
  (∀ b, keeps (λ w, count_where p (calls w) ≤ b) m) → adds p n m.
Proof. intros Hm w r w' Hr. specialize (Hm _ _ _ _ Hr (le_n _)). cbn in Hm. lia. Qed.

Lemma adds_weaken {A} n n' (m : W A) : adds p n m → n ≤ n' → adds p n' m.
Proof. intros Hm Hle w r w' Hr. specialize (Hm _ _ _ Hr). lia. Qed.

Lemma adds_bind {A B} n1 n2 (m : W A) (k : A → W B) :
  adds p n1 m → (∀ a, adds p n2 (k a)) → adds p (n1 + n2) (m ≫= k).
Proof.
  intros Hm Hk w r w'. unfold mbind, io_bind. destruct (m w) as [[a|e] w1] eqn:E; intros Hr;
    specialize (Hm _ _ _ E).
  - specialize (Hk a _ _ _ Hr). lia.
  - injection Hr as <- <-. lia.
Qed.
Lemma adds_bind0 {A B} n (m : W A) (k : A → W B) :
  adds p 0 m → (∀ a, adds p n (k a)) → adds p n (m ≫= k).
Proof. apply (adds_bind 0). Qed.
Lemma adds_try {A} n1 n2 (m h : W A) :
  adds p n1 m → adds p n2 h → adds p (n1 + n2) (try_catch m h).
Proof.
  intros Hm Hh w r w'. unfold try_catch. destruct (m w) as [[a|e] w1] eqn:E; intros Hr;
    specialize (Hm _ _ _ E).
  - injection Hr as <- <-. lia.
  - specialize (Hh _ _ _ Hr). lia.
Qed.
Lemma adds_if {A} n (b : bool) (m1 m2 : W A) :
  adds p n m1 → adds p n m2 → adds p n (if b then m1 else m2).
Proof. by destruct b. Qed.
Lemma adds_call_port {A} m req (reply : nat → option A) :
  adds p 1 (call_port m req reply).
Proof.
  intros w r w' ->%call_port_world. cbn. unfold count_where.
  rewrite List.filter_app, length_app. cbn. destruct (p _); cbn; lia.
Qed.
Lemma adds_call_port0 {A} m req (reply : nat → option A) :
  (∀ r, p {| pc_method := m; pc_request := r |} = false) → adds p 0 (call_port m req reply).
Proof.
  intros Hp w r w' ->%call_port_world. cbn. unfold count_where.
  rewrite List.filter_app, length_app. cbn. rewrite Hp. cbn. lia.
Qed.
Lemma adds_lease `{RunLease} {A} n file (task : W A) :
  adds p n task → adds p n (lease_run file task).
Proof.
  intros Ht w r w' [(e & _ & _ & Hc)|(w0 & r0 & w1 & _ & Hc & _ & Hr & _ & Hc' & _)]
    %lease_run_spec; [rewrite Hc; lia|]. rewrite Hc', <- Hc. by eapply Ht.
Qed.
End adds.

(** Calls that may have an effect or read back the state of an operation. *)
Definition steps_taken (c : port_call) : bool := negb (bool_decide (pc_method c = Verify)).

Section budget.
Context `{CampaignHost} `{RunLease} (L : DelegatedCampaignLedger).
Context (caps : string → option TypedCampaignCapability).
Notation adds := (adds steps_taken).

Lemma bound_stable b w w' :
  ledger_effect L w w' → count_where steps_taken (calls w) ≤ b →
  count_where steps_taken (calls w') ≤ b.
Proof. intros [-> _]. done. Qed.

Lemma adds_transition n ws id task op next proof : adds n (transition L ws id task op next proof).
Proof. apply keeps_adds. intros b. apply keeps_transition, bound_stable. Qed.
Lemma adds_applyObservation n campaign task output :
  adds n (applyObservation L campaign task output).
Proof. apply keeps_adds. intros b. apply keeps_applyObservation, bound_stable. Qed.
Lemma adds_requireCampaign n ws id : adds n (requireCampaign L ws id).
Proof. apply keeps_adds. intros b. apply keeps_requireCampaign, bound_stable. Qed.
Lemma adds_claimNext n ws id : adds n (claimNext L ws id).
Proof. apply keeps_adds. intros b. apply keeps_claimNext, bound_stable. Qed.
Lemma adds_pure {A} n (m : W A) : (∀ Q, keeps Q m) → adds n m.
Proof. intros Hm. apply keeps_adds. intros. apply Hm. Qed.
Lemma adds_ret {A} n (a : A) : adds n (mret a).
Proof. apply adds_pure. intros. apply kept_ret. Qed.
Lemma adds_require_some {A} n (o : option A) e : adds n (require_some o e).
Proof. apply adds_pure. intros. apply kept_require_some. Qed.
Lemma adds_lift {A} n (o : outcome campaign_error A) : adds n (lift o).
Proof. apply adds_pure. intros. apply kept_lift. Qed.
End budget.

Create HintDb adds discriminated.
#[export] Hint Resolve adds_bind0 adds_if adds_lease adds_transition adds_applyObservation
  adds_requireCampaign adds_claimNext adds_ret adds_require_some adds_lift : adds.

Section budget_run.
Context `{CampaignHost} `{RunLease} (L : DelegatedCampaignLedger).
Context (caps : string → option TypedCampaignCapability).
Notation adds := (adds steps_taken).

Lemma adds_observe m port reply campaign task op :
  adds 1 (observe L m port reply campaign task op).
Proof.
  apply (adds_bind _ 1 0); [apply adds_call_port|]. intros a.
  apply adds_bind0; [apply adds_lift|]. intros output. apply adds_bind0; [|auto with adds].
  unfold verifyTerminal. apply adds_if; [|auto with adds].
  apply adds_bind0; [by apply adds_call_port0|]. intros ok.
  apply adds_pure. intros. apply kept_require.
Qed.

Lemma adds_reconcileExisting campaign task : adds 1 (reconcileExisting L caps campaign task).
Proof.
  apply adds_bind0; [auto with adds|]. intros op. apply (adds_try _ 1 0).
  - apply adds_bind0; [auto with adds|]. intros. apply adds_observe.
  - apply adds_if; [|auto with adds]. apply adds_bind0; auto with adds.
Qed.

Lemma adds_dispatch_claimed ws id campaign task op :
  adds 1 (dispatch_claimed L caps ws id campaign task op).
Proof.
  apply (adds_try _ 1 0).
  - apply adds_bind0; [auto with adds|]. intros. apply adds_observe.
  - apply adds_bind0; auto with adds.
Qed.

Lemma adds_run_loop steps ws id visited executed reconciled :
  adds steps (run_loop L caps steps ws id visited executed reconciled).
Proof.
  revert visited executed reconciled. induction steps as [|steps IH]; intros v e r; cbn;
    (apply adds_bind0; [auto with adds|]); intros current; [auto with adds|].
  apply adds_if; [auto with adds|]. destruct (List.find _ _) as [un|].
  { apply (adds_bind _ 1 steps); [apply adds_reconcileExisting|]. intros. apply IH. }
  apply adds_if; [auto with adds|]. apply adds_bind0; [auto with adds|].
  intros [taskId op campaign|campaign]; [|auto with adds].
  apply adds_bind0; [auto with adds|]. intros task.
  apply adds_bind0; [auto with adds|]. intros _.
  apply (adds_bind _ 1 steps); [apply adds_dispatch_claimed|]. intros. apply IH.
Qed.

Lemma adds_run ws id maxSteps : adds (Z.to_nat maxSteps) (run L caps ws id maxSteps).
Proof.
  apply adds_bind0; [apply adds_pure; intros; apply kept_require|]. intros _.
  apply adds_bind0; [auto with adds|]. intros f. apply adds_lease.
  apply adds_bind0; [auto with adds|]. intros initial.
  apply adds_bind0; [apply adds_pure; intros; apply keeps_preflight|]. intros _.
  apply adds_run_loop.
Qed.
End budget_run.

(** ** Completed means confirmed *)

Section evidence.
Context `{CampaignHost} `{RunLease} (L : DelegatedCampaignLedger).
Context (caps : string → option TypedCampaignCapability).

(** [obs] is the reply of the [k]-th capability call, an execution or a reconciliation. *)
Definition replied (port : TypedCampaignCapability) (m : port_method) (k : nat)
    (req : CampaignInvocation) (obs : CampaignObservation) : Prop :=
  match m with
  | Execute => cap_execute port k req = Some (Some obs)
  | Reconcile => cap_reconcile port k req = Some (Some obs)
  | Verify => False
  end.

(** From the [n]-th call on, the capability of the task [t] of [campaign] was asked to
    execute or reconcile the operation of [t], it answered that it succeeded, the call
    after that verified this very answer, and the task carries its proof. *)
Definition confirmed (n : nat) (cs : list port_call) (campaign : CampaignRecord)
    (t : CampaignTask) : Prop :=
  ∃ op port k m obs, let req := invocation campaign t op in
    ct_operationId t = Some op ∧ caps (ct_id t) = Some port ∧ n ≤ k ∧
    cs !! k = Some {| pc_method := m; pc_request := req |} ∧ replied port m k req obs ∧
    cs !! S k = Some {| pc_method := Verify; pc_request := req |} ∧
    cap_verify port (S k) req obs = Some true ∧
    ob_operationId obs = op ∧ ob_state obs = "succeeded"%string ∧ ct_proof t = ob_proof obs.

Lemma confirmed_app n cs cs' campaign t :
  confirmed n cs campaign t → confirmed n (cs ++ cs') campaign t.
Proof.
  intros (op & port & k & m & obs & Ho & Hp & Hn & Hk & Hr & Hv & ? & ? & ? & ?).
  exists op, port, k, m, obs. split_and!; try done; by apply lookup_app_l_Some.
Qed.

(** Only the identifiers of the record matter. *)
Lemma confirmed_record n cs r r' t :
  cr_workspaceId r' = cr_workspaceId r → cr_campaignId r' = cr_campaignId r →
  confirmed n cs r t → confirmed n cs r' t.
Proof.
  intros Hw Hc (op & port & k & m & obs & Hrest). exists op, port, k, m, obs.
  unfold invocation in *. by rewrite Hw, Hc.
Qed.

(** Every completed task of [w] was completed in [w0] or confirmed since. *)
Definition completions_confirmed (w0 w : world) : Prop :=
  ∀ p r t, read_file L (files w) p = Ok (Some r) → t ∈ cr_tasks r → ct_state t = completed →
  (∃ r0, read_file L (files w0) p = Ok (Some r0) ∧ t ∈ cr_tasks r0) ∨
  confirmed (length (calls w0)) (calls w) r t.

Definition evidence_inv (w0 w : world) : Prop :=
  files_ok L (files w) ∧ length (calls w0) ≤ length (calls w) ∧ completions_confirmed w0 w.

(** The file of [campaign], if it can be read, holds [campaign]. *)
Definition on_disk (campaign : CampaignRecord) (w : world) : Prop :=
  ∀ x, read_file L (files w) (record_path L (cr_workspaceId campaign) (cr_campaignId campaign)) =
    Ok (Some x) → x = campaign.

Context (w0 : world).
Notation Inv := (evidence_inv w0).
Notation confirmed_since := (confirmed (length (calls w0))).

Lemma evidence_same_disk w w' : same_disk w w' → Inv w → Inv w'.
Proof.
  intros [Hf Hc] [Hok Hcc]. unfold evidence_inv, completions_confirmed. rewrite Hf, Hc. done.
Qed.

Lemma evidence_log w c : Inv w → Inv (log_call c w).
Proof.
  intros (Hok & Hn & Hcc). split; [done|]. split; [cbn; rewrite length_app; lia|].
  intros p r t Hr Ht Hs. destruct (Hcc p r t Hr Ht Hs) as [?|Hop]; [by left|]. right.
  by apply confirmed_app.
Qed.

(** One step of a record keeps the invariant when a completion is confirmed. *)
Lemma evidence_step w w' q rec rec' t f :
  Inv w → calls w' = calls w → read_file L (files w) q = Ok (Some rec) → t ∈ cr_tasks rec →
  cr_tasks rec' = update_where (λ x, bool_decide (ct_id x = ct_id t)) f (cr_tasks rec) →
  record_step rec rec' →
  files w' = <[record_path L (cr_workspaceId rec) (cr_campaignId rec) :=
                 Some (json_of_record rec')]> (files w) →
  (ct_state (f t) = completed → confirmed_since (calls w) rec (f t)) →
  Inv w'.
Proof.
  intros (Hok & Hn & Hcc) Hc Hq Ht Hts Hs Hf Hdone. split; [|split; [by rewrite Hc|]].
  { rewrite Hf. eapply changes_files_ok; [|exact Hok]. by eapply change_step. }
  destruct (Hok _ _ Hq) as [Hpath _]. rewrite <- Hpath in Hf.
  pose proof (record_step_frame _ _ Hs) as [[= Hi1 Hi2 _ _ _] _].
  intros p r x Hr Hx Hst. rewrite Hf in Hr. rewrite Hc.
  destruct (decide (q = p)) as [<-|Hne].
  - rewrite Hpath in Hr, Hq. eapply read_stepped in Hr as ->; [|done..]. rewrite Hts in Hx.
    pose proof (record_ok_ids _ _ (read_file_ok _ _ _ _ Hq)) as Hnd.
    apply (update_task_elem _ _ _ Hnd Ht) in Hx as [->|[Hx _]].
    + right. by apply (confirmed_record _ _ rec), Hdone.
    + rewrite Hpath. destruct (Hcc _ _ _ Hq Hx Hst); [by left|right].
      by apply (confirmed_record _ _ rec).
  - rewrite read_file_insert_ne in Hr by done. by eapply Hcc.
Qed.

Lemma evidence_claimNext ws id : keeps Inv (claimNext L ws id).
Proof.
  intros w r w' [[_ Hs]|(rec & Hq & Hc & [(Hf & _)|(t & n & at_ & Hno & Hfd & _ & Hf & _)])]
    %claimNext_cases Hinv; [by eapply evidence_same_disk..|].
  apply find_Some_elem in Hfd as [Ht Hrun].
  by eapply (evidence_step w w' _ rec _ t (claim_task (randomUUID n))); try done; constructor.
Qed.

Lemma evidence_transition ws id taskId op next proof w r w' :
  transition L ws id taskId op next proof w = (r, w') →
  (next = to_completed → ∀ rec t, read_file L (files w) (record_path L ws id) = Ok (Some rec) →
     t ∈ cr_tasks rec → ct_id t = taskId → ct_operationId t = Some op →
     confirmed_since (calls w) rec (settle_task completed proof t)) →
  Inv w → Inv w'.
Proof.
  intros [[_ Hs]|(rec & t & at_ & Hq & Hc & Hfd & Hop & Hcs & Hf & _)]%transition_cases Hconf Hinv;
    [by eapply evidence_same_disk|].
  apply find_Some_elem in Hfd as [Ht Hid]. bool_inv. subst taskId.
  eapply (evidence_step w w' _ rec _ t (settle_task (next_state next) proof)); try done.
  - done.
  - by constructor.
  - cbn. destruct next; try done. intros _. by apply Hconf.
Qed.

Lemma evidence_requireCampaign ws id : keeps Inv (requireCampaign L ws id).
Proof.
  apply kept_bind; [|auto with keeps]. intros w r w'. unfold get. rewrite read_run.
  by intros [= <- <-].
Qed.

(** The record that a run reads is the one on disk. *)
Lemma requireCampaign_on_disk ws id w campaign w' :
  requireCampaign L ws id w = (Ok campaign, w') → Inv w → on_disk campaign w'.
Proof.
  unfold requireCampaign, get. rewrite bind_Ok. intros (o & w1 & Hr & Ho) [Hok _].
  rewrite read_run in Hr. destruct (file L ws id) as [f|e] eqn:Hf; [|done].
  cbn [outcome_bind mbind] in Hr. injection Hr as Hr <-.
  destruct o as [r|]; [|done]. injection Ho as -> <-.
  destruct (Hok _ _ Hr) as [E _]. intros x Hx. rewrite <- E in Hx. congruence.
Qed.

(** [verifyTerminal] asks about the answer it is given. *)
Lemma verifyTerminal_cases port req result w r w' :
  verifyTerminal port req result w = (r, w') →
  (files w' = files w ∧ (Inv w → Inv w')) ∧
  (r = Ok tt → terminal (ob_state result) = true →
   calls w' = calls w ++ [{| pc_method := Verify; pc_request := req |}] ∧
   cap_verify port (length (calls w)) req result = Some true).
Proof.
  unfold verifyTerminal. intros Hv. destruct (terminal (ob_state result)) eqn:Ht.
  - unfold call_port, mbind, io_bind, gets, modify, require_some, require in Hv.
    destruct (cap_verify port (length (calls w)) req result) as [[]|] eqn:Hr;
      injection Hv as <- <-; (split; [split; [done|apply evidence_log]|]); done.
  - injection Hv as <- <-. done.
Qed.

Lemma evidence_move ws id taskId op next proof w r w' :
  (transition L ws id taskId op next proof;; mret tt) w = (r, w') →
  (next = to_completed → ∀ rec t, read_file L (files w) (record_path L ws id) = Ok (Some rec) →
     t ∈ cr_tasks rec → ct_id t = taskId → ct_operationId t = Some op →
     confirmed_since (calls w) rec (settle_task completed proof t)) →
  Inv w → Inv w'.
Proof.
  unfold mbind, io_bind. destruct (transition _ _ _ _ _ _ _ w) as [[x|e] w1] eqn:Ht;
    intros [= <- <-]; by eapply evidence_transition.
Qed.

Lemma evidence_applyObservation campaign task output op w r w' :
  applyObservation L campaign task output w = (r, w') → ct_operationId task = Some op →
  on_disk campaign w → task ∈ cr_tasks campaign →
  (ob_state output = "succeeded"%string →
     confirmed_since (calls w) campaign (settle_task completed (ob_proof output) task)) →
  Inv w → Inv w'.
Proof.
  unfold applyObservation. intros Ha Ho Hdisk Htask Hconf Hinv. rewrite Ho in Ha.
  unfold mbind at 1, io_bind, require_some, mret, io_ret in Ha. cbv beta iota zeta in Ha.
  repeat match type of Ha with
  | (if ?b then _ else _) _ = _ => destruct b eqn:?
  end; try (by eapply evidence_move; [exact Ha| |done]); [|by injection Ha as <- <-].
  eapply evidence_move; [exact Ha| |done]. intros _ rec t Hr Ht Hid _.
  pose proof (record_ok_ids _ _ (read_file_ok _ _ _ _ Hr)) as Hnd.
  apply Hdisk in Hr as ->.
  assert (t = task) as -> by (by eapply (NoDup_key_inj (λ t, ct_id t))).
  bool_inv. by apply Hconf.
Qed.

(** What [validateObservation] lets through. *)
Lemma validateObservation_Ok answer step op output :
  validateObservation answer step op = Ok output →
  answer = Some output ∧ ob_operationId output = op ∧
  (terminal (ob_state output) = true → proof_verified (ob_proof output) = true).
Proof.
  unfold validateObservation. destruct answer as [o|]; [|done].
  intros (_ & Hck%check_Ok & Hval)%outcome_bind_Ok. bool_inv.
  destruct (terminal (ob_state o)) eqn:Ht; apply outcome_bind_Ok in Hval as (_ & Hev%check_Ok & [= <-]).
  - split_and!; [done..|]. intros _. unfold evidence_ok, proof_verified in *.
    destruct (ob_proof o); [|done]. by apply andb_true_iff in Hev as [? _].
  - split_and!; [done..|]. congruence.
Qed.

Lemma evidence_observe m port reply campaign task op w r w' :
  observe L m port reply campaign task op w = (r, w') →
  (∀ k req obs, reply k req = Some (Some obs) → replied port m k req obs) →
  caps (ct_id task) = Some port → ct_operationId task = Some op →
  on_disk campaign w → task ∈ cr_tasks campaign → Inv w → Inv w'.
Proof.
  unfold observe. intros Ho Hreply Hp Hop Hdisk Htask Hinv. unfold mbind at 1, io_bind in Ho.
  set (req := invocation campaign task op) in Ho.
  destruct (call_port _ _ _ w) as [a w1] eqn:Hc. pose proof (call_port_world _ _ _ _ _ _ Hc) as ->.
  pose proof (evidence_log _ {| pc_method := m; pc_request := req |} Hinv) as Hinv1.
  destruct a as [answer|e]; [|by injection Ho as <- <-]. rewrite lift_bind in Ho.
  destruct (validateObservation answer (ct_step task) op) as [output|e] eqn:Hval;
    [|by injection Ho as <- <-].
  apply validateObservation_Ok in Hval as (-> & Hid & Hproof).
  assert (reply (length (calls w)) req = Some (Some output)) as Hans.
  { unfold call_port, mbind, io_bind, gets, modify, require_some in Hc.
    destruct (reply _ req); [by injection Hc as ->|done]. }
  unfold mbind at 1, io_bind in Ho. destruct (verifyTerminal _ _ _ _) as [v w2] eqn:Hv.
  apply verifyTerminal_cases in Hv as [[Hf Hinv2] Hconf].
  destruct v as [[]|e]; [|injection Ho as <- <-; auto].
  eapply evidence_applyObservation; [exact Ho|done| |done| |auto].
  { intros x. rewrite Hf. apply Hdisk. }
  intros Hs. assert (terminal (ob_state output) = true) as Ht by (by rewrite Hs).
  destruct (Hconf eq_refl Ht) as [Hcalls Hver]. cbn in Hver. rewrite length_app, Nat.add_1_r in Hver.
  exists op, port, (length (calls w)), m, output. rewrite Hcalls. cbn. rewrite (Hproof Ht).
  split_and!; try done; [by apply Hinv| |by apply Hreply|].
  - rewrite <- app_assoc. by apply list_lookup_middle.
  - rewrite <- (Nat.add_1_r (length _)). apply list_lookup_middle. rewrite length_app. done.
Qed.

Lemma evidence_unknown ws id taskId op :
  keeps Inv (transition L ws id taskId op to_outcome_unknown None;; mret tt).
Proof. intros w r w' Hm. eapply evidence_move; [exact Hm|done]. Qed.

(** Keeping the invariant from the states where the record is on disk. *)
Definition keeps_from (campaign : CampaignRecord) {A} (m : W A) : Prop :=
  ∀ w r w', m w = (r, w') → on_disk campaign w → Inv w → Inv w'.

Lemma keeps_from_try campaign {A} (m h : W A) :
  keeps_from campaign m → keeps Inv h → keeps_from campaign (try_catch m h).
Proof.
  intros Hm Hh w r w'. unfold try_catch. destruct (m w) as [[a|e] w1] eqn:E; intros Hr Hd Hi.
  - injection Hr as <- <-. by eapply Hm.
  - eapply Hh; [exact Hr|]. by eapply Hm.
Qed.

Lemma evidence_reconcileExisting campaign task :
  task ∈ cr_tasks campaign → keeps_from campaign (reconcileExisting L caps campaign task).
Proof.
  intros Htask. unfold reconcileExisting. destruct (ct_operationId task) as [op|] eqn:Hop.
  2:{ by intros w r w' [= <- <-]. }
  apply keeps_from_try; [|apply keeps_if; [apply evidence_unknown|apply kept_ret]].
  destruct (caps (ct_id task)) as [port|] eqn:Hp; [|by intros w r w' [= <- <-]].
  intros w r w' Ho Hd.
  by eapply (evidence_observe Reconcile port (cap_reconcile port)); [exact Ho|..].
Qed.

Lemma evidence_dispatch ws id campaign task op :
  ct_operationId task = Some op → task ∈ cr_tasks campaign →
  keeps_from campaign (dispatch_claimed L caps ws id campaign task op).
Proof.
  intros Hop Htask. apply keeps_from_try; [|apply evidence_unknown].
  destruct (caps (ct_id task)) as [port|] eqn:Hp; [|by intros w r w' [= <- <-]].
  intros w r w' Ho Hd.
  by eapply (evidence_observe Execute port (cap_execute port)); [exact Ho|..].
Qed.

(** A claim returns the record it wrote, with the operation in the claimed task. *)
Lemma claimed_record ws id w taskId op campaign w' :
  claimNext L ws id w = (Ok (claimed taskId op campaign), w') → Inv w →
  on_disk campaign w' ∧
  ∀ t, t ∈ cr_tasks campaign → ct_id t = taskId → ct_operationId t = Some op.
Proof.
  intros Hcl [Hok _].
  apply claimNext_cases in Hcl as [[[e [=]] _]|(rec & Hread & Hc & Hcase)].
  destruct Hcase as [(_ & [[=]|[e [=]]] & _)|(x & n & at_ & Hno & Hfd & _ & Hf & Hout)].
  destruct Hout as [[= -> -> ->]|[e [=]]]. apply find_Some_elem in Hfd as [Hx Hrun].
  pose proof (record_ok_ids _ _ (read_file_ok _ _ _ _ Hread)) as Hnd. split.
  - intros y Hy. rewrite Hf in Hy. eapply read_stepped; [exact Hread| |exact Hy]. by constructor.
  - intros t Ht Hid. cbn in Ht. apply (update_task_elem _ _ _ Hnd Hx) in Ht as [->|[_ Hne]]; done.
Qed.

Lemma evidence_run_loop steps ws id visited executed reconciled :
  keeps Inv (run_loop L caps steps ws id visited executed reconciled).
Proof.
  revert visited executed reconciled. induction steps as [|steps IH];
    intros visited executed reconciled; cbn.
  { apply kept_bind; [apply evidence_requireCampaign|]. intros current. auto with keeps. }
  intros w r w' Hr Hinv. unfold mbind at 1, io_bind in Hr.
  destruct (requireCampaign L ws id w) as [[current|e] w1] eqn:Hcur.
  2:{ injection Hr as <- <-. by eapply evidence_requireCampaign. }
  assert (Inv w1) as Hinv1 by by eapply evidence_requireCampaign.
  pose proof (requireCampaign_on_disk _ _ _ _ _ Hcur Hinv) as Hdisk.
  destruct (all_done current); [by injection Hr as <- <-|].
  destruct (List.find _ (cr_tasks current)) as [un|] eqn:Hfd.
  { apply find_Some_elem in Hfd as [Hun _]. unfold mbind at 1, io_bind in Hr.
    destruct (reconcileExisting _ _ _ _ w1) as [[[]|e] w2] eqn:Hrec.
    - eapply IH; [exact Hr|]. by eapply (evidence_reconcileExisting current un).
    - injection Hr as <- <-. by eapply (evidence_reconcileExisting current un). }
  destruct (existsb _ _); [by injection Hr as <- <-|].
  unfold mbind at 1, io_bind in Hr.
  destruct (claimNext L ws id w1) as [[claim|e] w2] eqn:Hcl.
  2:{ injection Hr as <- <-. by eapply evidence_claimNext. }
  assert (Inv w2) as Hinv2 by by eapply evidence_claimNext.
  destruct claim as [taskId op campaign|campaign]; [|by injection Hr as <- <-].
  destruct (claimed_record _ _ _ _ _ _ _ Hcl Hinv1) as [Hdisk2 Hop].
  destruct (List.find _ (cr_tasks campaign)) as [task|] eqn:Hfd2; [|by injection Hr as <- <-].
  apply find_Some_elem in Hfd2 as [Ht Hid]. bool_inv.
  change ((lift (assertBinding (ct_step task) (caps (ct_id task)));;
    dispatch_claimed L caps ws id campaign task op;;
    run_loop L caps steps ws id (ct_id task :: visited) (S executed) reconciled) w2 = (r, w')) in Hr.
  rewrite lift_bind in Hr. destruct (assertBinding _ _); [|by injection Hr as <- <-].
  unfold mbind at 1, io_bind in Hr. destruct (dispatch_claimed _ _ _ _ _ _ _ w2) as [[[]|e] w3] eqn:Hd.
  - eapply IH; [exact Hr|]. by eapply (evidence_dispatch ws id campaign task op); auto.
  - injection Hr as <- <-. by eapply (evidence_dispatch ws id campaign task op); auto.
Qed.

Lemma evidence_run ws id maxSteps : keeps Inv (run L caps ws id maxSteps).
Proof.
  unfold run, withExclusiveRun. apply kept_bind; [auto with keeps|]. intros _.
  apply kept_bind; [auto with keeps|]. intros f. apply keeps_lease.
  { apply evidence_same_disk. }
  apply kept_bind; [apply evidence_requireCampaign|]. intros initial.
  apply kept_bind; [apply keeps_preflight|]. intros _. apply evidence_run_loop.
Qed.
End evidence.
