(* ===== verification/CampaignLease.v ===== *)
(** * CampaignLease: the lock files of the campaign runs

    services/workspace-agent/src/campaign/campaign-run-lease.ts.  [run] executes a
    task while a lease file it created exclusively is on disk; a heartbeat renews
    the lease meanwhile.  The file of a dead owner is taken over under a recovery
    guard, never on its age alone.

    The task never touches its lock file, so the heartbeats that fire while it runs
    are replayed after it.  [lease_implements]: the class implements [RunLease],
    which the ledger and the claims are proved against.  How the steps of several
    processes interleave is the subject of [LeaseProtocol]. *)

From S2P Require Import Prelude Text CampaignWorld CampaignLedger.

Record RunLeaseRecord := {
  le_ownerId : string;
  le_hostname : string;
  le_pid : Z;
  le_issuedAt : Z;
  le_renewedAt : Z;
  le_expiresAt : Z;
}.
#[global] Instance RunLeaseRecord_eq_dec : EqDecision RunLeaseRecord.
Proof. solve_decision. Defined.

Definition json_of_lease (l : RunLeaseRecord) : json :=
  JObj [("version", JNum 1); ("ownerId", JStr (le_ownerId l)); ("hostname", JStr (le_hostname l));
        ("pid", JNum (le_pid l)); ("issuedAt", JNum (le_issuedAt l));
        ("renewedAt", JNum (le_renewedAt l)); ("expiresAt", JNum (le_expiresAt l))]%string.

Definition lease_fields_ok (l : RunLeaseRecord) : bool :=
  UUID (le_ownerId l) && (0 <? String.length (le_hostname l)) &&
  (String.length (le_hostname l) <=? 256) && (0 <? le_pid l)%Z &&
  (0 <? le_issuedAt l)%Z && (le_issuedAt l <=? le_renewedAt l)%Z &&
  (le_renewedAt l <? le_expiresAt l)%Z.

(** [valid(value)] and the record it narrows to. *)
Definition valid (v : json) : option RunLeaseRecord :=
  version ← as_integer (prop "version" v);
  ownerId ← as_string (prop "ownerId" v);
  hostname ← as_string (prop "hostname" v);
  pid ← as_integer (prop "pid" v);
  issuedAt ← as_integer (prop "issuedAt" v);
  renewedAt ← as_integer (prop "renewedAt" v);
  expiresAt ← as_integer (prop "expiresAt" v);
  let l := {| le_ownerId := ownerId; le_hostname := hostname; le_pid := pid;
              le_issuedAt := issuedAt; le_renewedAt := renewedAt; le_expiresAt := expiresAt |} in
  if bool_decide (version = 1%Z) && lease_fields_ok l then Some l else None.

(** The instance's fields; [now] and [isProcessAlive] answer their [n]-th call, and
    [beats n] is how often the heartbeat timer fires during a task that starts at
    draw [n]. *)
Record CampaignRunLease := {
  leaseMs : Z;
  heartbeatMs : Z;
  hostname : string;
  pid : Z;
  now : nat → Z;
  isProcessAlive : nat → Z → bool;
  beats : nat → nat;
}.

Definition safe_integer (z : Z) : bool := (Z.abs z <=? 9007199254740991)%Z.

(** The checks of the constructor. *)
Definition new_CampaignRunLease (o : CampaignRunLease) : outcome campaign_error CampaignRunLease :=
  ensure (safe_integer (leaseMs o) && (1000 <=? leaseMs o)%Z &&
          safe_integer (heartbeatMs o) && (100 <=? heartbeatMs o)%Z &&
          (heartbeatMs o * 2 <? leaseMs o)%Z);;
  ensure ((0 <? String.length (hostname o)) && safe_integer (pid o) && (0 <? pid o)%Z);;
  Ok o.

(** [try { m } finally { cleanup }] *)
Definition finally {A} (m : W A) (cleanup : W unit) : W A := λ w,
  match m w with
  | (r, w1) =>
      match cleanup w1 with
      | (Ok _, w2) => (r, w2)
      | (Err e, w2) => (Err e, w2)
      end
  end.

Section lease.
Context `{CampaignHost} (K : CampaignRunLease).

Definition readLease (file : string) : W RunLeaseRecord :=
  text ← gets (λ w, locks w !! file);
  match text with
  | Some (Some v) => require_some (valid v) CAMPAIGN_RUN_LOCKED
  | _ => throw CAMPAIGN_RUN_LOCKED
  end.

(** [open(file, "wx")], then the contents. *)
Definition putNew (file : string) (lease : RunLeaseRecord) : W unit :=
  taken ← gets (λ w, locks w !! file);
  require (negb (bool_decide (is_Some taken))) (Errno "EEXIST");;
  modify (set_locks <[file := Some (json_of_lease lease)]>).

(** [rm(file)] *)
Definition remove (file : string) : W unit :=
  taken ← gets (λ w, locks w !! file);
  require (bool_decide (is_Some taken)) (Errno "ENOENT");;
  modify (set_locks (delete file)).

Definition own_lease (prior : RunLeaseRecord) (ownerId : string) : bool :=
  bool_decide (le_ownerId prior = ownerId) && bool_decide (le_hostname prior = hostname K) &&
  bool_decide (le_pid prior = pid K).

(** Neither a clock rollback nor an expired lease. *)
Definition renewable_at (prior : RunLeaseRecord) (at_ : Z) : bool :=
  (le_renewedAt prior <=? at_)%Z && (at_ <=? le_expiresAt prior)%Z.

Definition renewed (prior : RunLeaseRecord) (at_ : Z) : RunLeaseRecord :=
  {| le_ownerId := le_ownerId prior; le_hostname := le_hostname prior; le_pid := le_pid prior;
     le_issuedAt := le_issuedAt prior; le_renewedAt := at_; le_expiresAt := at_ + leaseMs K |}.

Definition renew (file ownerId : string) : W unit :=
  prior ← readLease file;
  require (own_lease prior ownerId) CAMPAIGN_RUN_LOCKED;;
  at_ ← draw (now K);
  require (renewable_at prior at_) CAMPAIGN_RUN_LOCKED;;
  suffix ← draw randomHex;
  let temp := file +:+ ".heartbeat-" +:+ suffix in
  finally
    (putNew temp (renewed prior at_);;
     modify (set_locks (λ m, delete temp (<[file := Some (json_of_lease (renewed prior at_))]> m))))
    (modify (set_locks (delete temp))).

(** The owner of [state] is a process of this host that has exited, and its lease
    has run out. *)
Definition recoverable (state : RunLeaseRecord) (at_ : Z) (alive : bool) : bool :=
  bool_decide (le_hostname state = hostname K) && negb (at_ <=? le_expiresAt state)%Z &&
  negb alive.

Definition tryRecover (file : string) (replacement : RunLeaseRecord) : W unit :=
  let guardPath := file +:+ ".recovery.lock" in
  taken ← gets (λ w, locks w !! guardPath);
  require (negb (bool_decide (is_Some taken))) CAMPAIGN_RUN_LOCKED;;
  modify (set_locks <[guardPath := None]>);;
  finally
    (state ← readLease file;
     at_ ← draw (now K);
     alive ← draw (isProcessAlive K);
     require (recoverable state at_ (alive (le_pid state))) CAMPAIGN_RUN_LOCKED;;
     remove file;;
     putNew file replacement)
    (remove guardPath).

Definition new_lease (ownerId : string) (at_ : Z) : RunLeaseRecord :=
  {| le_ownerId := ownerId; le_hostname := hostname K; le_pid := pid K;
     le_issuedAt := at_; le_renewedAt := at_; le_expiresAt := at_ + leaseMs K |}.

(** The exclusive creation, or the recovery of the file that was there. *)
Definition acquire (file : string) (record : RunLeaseRecord) : W unit := λ w,
  match putNew file record w with
  | (Err (Errno "EEXIST"), w1) => tryRecover file record w1
  | other => other
  end.

(** The heartbeats of one task: the first error stops them. *)
Fixpoint heartbeats (n : nat) (file ownerId : string) : W unit :=
  match n with
  | O => mret tt
  | S n => renew file ownerId;; heartbeats n file ownerId
  end.

(** The lease is removed if it is still this owner's generation. *)
Definition release (file ownerId : string) : W unit :=
  owner ← readLease file;
  require (bool_decide (le_ownerId owner = ownerId)) CAMPAIGN_RUN_LOCKED;;
  remove file.

Definition lease_task {A} (file ownerId : string) (task : W A) : W A :=
  n ← gets (λ w, beats K (draws w));
  finally
    (λ w, match task w with
          | (r, w1) =>
              match heartbeats n file ownerId w1 with
              | (Ok _, w2) => (r, w2)
              | (Err e, w2) => (match r with Ok _ => Err e | Err e' => Err e' end, w2)
              end
          end)
    (release file ownerId).

Definition run_lease {A} (file : string) (task : W A) : W A :=
  ownerId ← draw randomUUID;
  at_ ← draw (now K);
  acquire file (new_lease ownerId at_);;
  lease_task file ownerId task.

(** ** The interface of the lock *)

(** Programs that touch the lock files and the generators only. *)
Definition locks_only {A} (m : W A) : Prop :=
  ∀ w r w', m w = (r, w') → files w' = files w ∧ calls w' = calls w ∧ draws w ≤ draws w'.

Lemma locks_bind {A B} (m : W A) (k : A → W B) :
  locks_only m → (∀ a, locks_only (k a)) → locks_only (m ≫= k).
Proof.
  intros Hm Hk w r w'. unfold mbind, io_bind. destruct (m w) as [[a|e] w1] eqn:E; intros Hr;
    apply Hm in E as (? & ? & ?).
  - apply Hk in Hr as (? & ? & ?). split_and!; [congruence..|lia].
  - by injection Hr as <- <-.
Qed.
Lemma locks_ret {A} (a : A) : locks_only (mret a).
Proof. by intros w r w' [= <- <-]. Qed.
Lemma locks_gets {A} (f : world → A) : locks_only (gets f).
Proof. by intros w r w' [= <- <-]. Qed.
Lemma locks_throw {A} e : locks_only (throw e : W A).
Proof. by intros w r w' [= <- <-]. Qed.
Lemma locks_require b e : locks_only (require b e).
Proof. destruct b; by intros w r w' [= <- <-]. Qed.
Lemma locks_require_some {A} (o : option A) e : locks_only (require_some o e).
Proof. destruct o; by intros w r w' [= <- <-]. Qed.
Lemma locks_modify f : locks_only (modify (set_locks f)).
Proof. by intros w r w' [= <- <-]. Qed.
Lemma locks_draw {A} (g : nat → A) : locks_only (draw g).
Proof. intros w r w' [= <- <-]. cbn. split_and!; [done..|lia]. Qed.
Lemma locks_finally {A} (m : W A) c : locks_only m → locks_only c → locks_only (finally m c).
Proof.
  intros Hm Hc w r w'. unfold finally. destruct (m w) as [r1 w1] eqn:E1.
  destruct (c w1) as [r2 w2] eqn:E2. apply Hm in E1 as (? & ? & ?). apply Hc in E2 as (? & ? & ?).
  destruct r2; intros [= <- <-]; split_and!; (congruence || lia).
Qed.
End lease.

Create HintDb locks discriminated.
#[export] Hint Resolve locks_bind locks_ret locks_gets locks_throw locks_require
  locks_require_some locks_modify locks_draw locks_finally : locks.

Section implementation.
Context `{CampaignHost} (K : CampaignRunLease).

Lemma locks_readLease file : locks_only (readLease file).
Proof.
  apply locks_bind; [auto with locks|]. intros [[v|]|]; auto with locks.
Qed.
Lemma locks_putNew file l : locks_only (putNew file l).
Proof. unfold putNew. auto 6 with locks. Qed.
Lemma locks_remove file : locks_only (remove file).
Proof. unfold remove. auto 6 with locks. Qed.
Hint Resolve locks_readLease locks_putNew locks_remove : locks.

Lemma locks_renew file ownerId : locks_only (renew K file ownerId).
Proof. unfold renew. auto 12 with locks. Qed.
Lemma locks_tryRecover file l : locks_only (tryRecover K file l).
Proof. unfold tryRecover. auto 12 with locks. Qed.
Lemma locks_heartbeats n file ownerId : locks_only (heartbeats K n file ownerId).
Proof. induction n; cbn; auto using locks_ret, locks_bind, locks_renew. Qed.
Lemma locks_release file ownerId : locks_only (release file ownerId).
Proof. unfold release. auto 8 with locks. Qed.

Lemma locks_acquire file l : locks_only (acquire K file l).
Proof.
  intros w r w'. unfold acquire. destruct (putNew file l w) as [o w1] eqn:Hp.
  pose proof (locks_putNew _ _ _ _ _ Hp) as (Hf & Hc & Hd). intros Hr.
  assert ((o, w1) = (r, w') ∨ tryRecover K file l w1 = (r, w')) as [[= <- <-]|Ht].
  { repeat case_match; auto. }
  - done.
  - apply locks_tryRecover in Ht as (? & ? & ?). split_and!; (congruence || lia).
Qed.

Lemma lease_task_cases {A} file ownerId (task : W A) w r w' :
  lease_task K file ownerId task w = (r, w') →
  ∃ r0 w1, task w = (r0, w1) ∧ files w' = files w1 ∧ calls w' = calls w1 ∧
    (r = r0 ∨ ∃ e, r = Err e).
Proof.
  unfold lease_task. unfold mbind, io_bind, gets. generalize (beats K (draws w)) as n. intros n.
  unfold finally. destruct (task w) as [r0 w1] eqn:Ht.
  destruct (heartbeats K n file ownerId w1) as [h w2] eqn:Hh.
  apply locks_heartbeats in Hh as (Hf & Hc & _).
  intros Hr. exists r0, w1. split; [done|].
  destruct (release file ownerId w2) as [x w3] eqn:Hrel.
  pose proof (locks_release _ _ _ _ _ Hrel) as (Hf' & Hc' & _).
  destruct h as [u|e].
  - rewrite Hrel in Hr.
    destruct x; injection Hr as <- <-; (split_and!; [congruence..|eauto]).
  - destruct r0; rewrite Hrel in Hr; destruct x; injection Hr as <- <-;
      (split_and!; [congruence..|eauto]).
Qed.

(** The class promises what [RunLease] asks of a lock. *)
Lemma run_lease_spec {A} file (task : W A) w r w' :
  run_lease K file task w = (r, w') →
  (∃ e, r = Err e ∧ files w' = files w ∧ calls w' = calls w) ∨
  ∃ w0 r0 w1, files w0 = files w ∧ calls w0 = calls w ∧ draws w ≤ draws w0 ∧
    task w0 = (r0, w1) ∧ files w' = files w1 ∧ calls w' = calls w1 ∧
    (r = r0 ∨ ∃ e, r = Err e).
Proof.
  unfold run_lease. rewrite !draw_bind. unfold mbind, io_bind.
  destruct (acquire _ _ _ _) as [a w1] eqn:Ha.
  apply locks_acquire in Ha as (Hf & Hc & Hd). cbn in Hf, Hc, Hd. destruct a as [[]|e]; intros Hr.
  - right. apply lease_task_cases in Hr as (r0 & w2 & Ht & Hf' & Hc' & Ho).
    exists w1, r0, w2. split_and!; try done. lia.
  - left. injection Hr as <- <-. eauto.
Qed.

Definition lease_implements : RunLease :=
  {| lease_run := λ A, run_lease K; lease_run_spec := λ A, run_lease_spec |}.
End implementation.
