(* ===== verification/LeaseProtocol.v ===== *)
(** * LeaseProtocol: interleaved runs over one lock file

    The steps of [CampaignRunLease.run] that touch the disk, as actions of many
    calls ([runner]s) in many processes, in any order, with crashes.  Each awaited file
    operation is one action, and so is what a call does between two of them (the clock
    reading and liveness check of a recovery); a crash stops all runners of its process
    for good.  A new process may reuse the identifier of one that exited.

    A recovery reads the lease, then checks its owner, then removes the lock file.
    Between the read and the removal the owner may release the lock, exit, and another
    run may take it: the removal then takes the lock from a live run.  [strays] tells
    whether a history has such a removal; without one the lock excludes.

    The ghost fields [holder] and [keeper] name the runner that created the lock
    file and the recovery guard on disk; the actions do not read them. *)

From S2P Require Import Prelude Text CampaignWorld CampaignLedger CampaignLease.

Record process := { pr_lease : CampaignRunLease; pr_alive : bool }.

(** Where a call to [run] stands; the comments name the next file operation. *)
Inductive phase :=
| Start                            (* putNew: open(file, wx) *)
| Opened                           (* putNew: writeFile *)
| WantGuard                        (* tryRecover: open(guardPath, wx) *)
| Guarded                          (* tryRecover: readLease *)
| Checking (state : RunLeaseRecord)  (* tryRecover: the clock and liveness checks *)
| MayRemove (state : RunLeaseRecord) (* tryRecover: rm(file) *)
| Removed                          (* tryRecover, putNew: open(file, wx) *)
| Reopened                         (* tryRecover, putNew: writeFile *)
| CloseGuard (acquired : bool)     (* tryRecover: rm(guardPath) *)
| Holding                          (* the task runs *)
| Renewing (next : RunLeaseRecord) (* renew: temp and rename(temp, file), the task runs *)
| Releasing                        (* finally: readLease *)
| RemoveOwn                        (* finally: rm(file) *)
| Done.

Record runner := { ru_process : nat; ru_record : RunLeaseRecord; ru_phase : phase }.

Record system := {
  processes : gmap nat process;
  runners : gmap nat runner;
  lockfile : option (option RunLeaseRecord);
  guard : bool;
  holder : option nat;
  keeper : option nat;
}.

Inductive action :=
| Spawn (p : nat) (K : CampaignRunLease)
| Crash (p : nat)
| Begin (i p : nat) (ownerId : string) (at_ : Z)
| Open (i : nat)
| WriteLease (i : nat) (ok : bool)
| OpenGuard (i : nat)
| ReadOwner (i : nat)
| CheckOwner (i : nat) (at_ : Z) (uncertain : bool)
| RemoveStale (i : nat)
| Reopen (i : nat)
| WriteReplacement (i : nat) (ok : bool)
| DropGuard (i : nat)
| RenewRead (i : nat) (at_ : Z)
| RenewRename (i : nat) (ok : bool)
| EndTask (i : nat)
| ReleaseRead (i : nat)
| ReleaseRemove (i : nat).

(** A process of [host] with this identifier is running. *)
Definition process_alive (g : system) (host : string) (id : Z) : bool :=
  existsb (λ e, pr_alive e.2 && bool_decide (hostname (pr_lease e.2) = host) &&
                bool_decide (pid (pr_lease e.2) = id)) (map_to_list (processes g)).

Definition owner_used (g : system) (ownerId : string) : bool :=
  existsb (λ e, bool_decide (le_ownerId (ru_record e.2) = ownerId)) (map_to_list (runners g)).

Definition set_process (p : nat) (x : process) (g : system) : system :=
  {| processes := <[p := x]> (processes g); runners := runners g; lockfile := lockfile g;
     guard := guard g; holder := holder g; keeper := keeper g |}.
Definition set_phase (i : nat) (r : runner) (ph : phase) (g : system) : system :=
  {| processes := processes g;
     runners := <[i := {| ru_process := ru_process r; ru_record := ru_record r; ru_phase := ph |}]>
                  (runners g);
     lockfile := lockfile g; guard := guard g; holder := holder g; keeper := keeper g |}.
Definition set_lock (f : option (option RunLeaseRecord)) (h : option nat) (g : system) : system :=
  {| processes := processes g; runners := runners g; lockfile := f;
     guard := guard g; holder := h; keeper := keeper g |}.
Definition set_guard (b : bool) (k : option nat) (g : system) : system :=
  {| processes := processes g; runners := runners g; lockfile := lockfile g;
     guard := b; holder := holder g; keeper := k |}.

(** The runner of [i] with its lease class, when its process is running. *)
Definition active (g : system) (i : nat) : option (runner * CampaignRunLease) :=
  r ← runners g !! i;
  x ← processes g !! ru_process r;
  if pr_alive x then Some (r, pr_lease x) else None.

(** [readLease(file)] on the shared file; a file without valid contents is refused. *)
Definition read_lock (g : system) : option RunLeaseRecord :=
  match lockfile g with Some l => l | None => None end.

(** One file operation of the active runner [i] in phase [ru_phase r]. *)
Definition runner_step (a : action) (i : nat) (r : runner) (K : CampaignRunLease) (g : system) :
    option system :=
  let goto := set_phase i r in
  match a, ru_phase r with
  | Open _, Start =>
      Some match lockfile g with
           | None => goto Opened (set_lock (Some None) (Some i) g)
           | Some _ => goto WantGuard g
           end
  | WriteLease _ ok, Opened =>
      Some (if ok then goto Holding (set_lock (Some (Some (ru_record r))) (holder g) g)
            else goto Done g)
  | OpenGuard _, WantGuard =>
      Some (if guard g then goto Done g else goto Guarded (set_guard true (Some i) g))
  | ReadOwner _, Guarded =>
      Some match read_lock g with
           | Some state => goto (Checking state) g
           | None => goto (CloseGuard false) g
           end
  | CheckOwner _ at_ uncertain, Checking state =>
      Some (if recoverable K state at_ (uncertain || process_alive g (hostname K) (le_pid state))
            then goto (MayRemove state) g else goto (CloseGuard false) g)
  | RemoveStale _, MayRemove state =>
      Some match lockfile g with
           | Some _ => goto Removed (set_lock None None g)
           | None => goto (CloseGuard false) g
           end
  | Reopen _, Removed =>
      Some match lockfile g with
           | None => goto Reopened (set_lock (Some None) (Some i) g)
           | Some _ => goto (CloseGuard false) g
           end
  | WriteReplacement _ ok, Reopened =>
      Some (if ok then goto (CloseGuard true) (set_lock (Some (Some (ru_record r))) (holder g) g)
            else goto (CloseGuard false) g)
  | DropGuard _, CloseGuard acquired =>
      Some (goto (if acquired then Holding else Done) (set_guard false None g))
  | RenewRead _ at_, Holding =>
      Some match read_lock g with
           | Some prior =>
               if own_lease K prior (le_ownerId (ru_record r)) && renewable_at prior at_
               then goto (Renewing (renewed K prior at_)) g else g
           | None => g
           end
  | RenewRename _ ok, Renewing next =>
      Some (if ok then goto Holding (set_lock (Some (Some next)) (holder g) g) else goto Holding g)
  | EndTask _, Holding => Some (goto Releasing g)
  | ReleaseRead _, Releasing =>
      Some match read_lock g with
           | Some l => if bool_decide (le_ownerId l = le_ownerId (ru_record r))
                       then goto RemoveOwn g else goto Done g
           | None => goto Done g
           end
  | ReleaseRemove _, RemoveOwn =>
      Some match lockfile g with
           | Some _ => goto Done (set_lock None None g)
           | None => goto Done g
           end
  | _, _ => None
  end.

Definition runner_of (a : action) : option nat :=
  match a with
  | Spawn _ _ | Crash _ | Begin _ _ _ _ => None
  | Open i | WriteLease i _ | OpenGuard i | ReadOwner i | CheckOwner i _ _ | RemoveStale i
  | Reopen i | WriteReplacement i _ | DropGuard i | RenewRead i _ | RenewRename i _ | EndTask i
  | ReleaseRead i | ReleaseRemove i => Some i
  end.

(** [None]: the action is not possible in this state. *)
Definition act (a : action) (g : system) : option system :=
  match a with
  | Spawn p K =>
      if bool_decide (processes g !! p = None) && negb (process_alive g (hostname K) (pid K))
      then Some (set_process p {| pr_lease := K; pr_alive := true |} g) else None
  | Crash p =>
      x ← processes g !! p;
      Some (set_process p {| pr_lease := pr_lease x; pr_alive := false |} g)
  | Begin i p ownerId at_ =>
      x ← processes g !! p;
      if pr_alive x && bool_decide (runners g !! i = None) && negb (owner_used g ownerId)
      then Some (set_phase i {| ru_process := p; ru_record := new_lease (pr_lease x) ownerId at_;
                                ru_phase := Start |} Start g)
      else None
  | _ =>
      i ← runner_of a;
      rk ← active g i;
      runner_step a i rk.1 rk.2 g
  end.

Definition acts : list action → system → option system :=
  fix go as_ g := match as_ with [] => Some g | a :: as_ => act a g ≫= go as_ end.

Definition no_runs : system :=
  {| processes := ∅; runners := ∅; lockfile := None; guard := false; holder := None; keeper := None |}.

(** The action removes a lock file that is not of the run whose lease the recovery read. *)
Definition removes_other (g : system) (a : action) : bool :=
  match a with
  | RemoveStale i =>
      match active g i with
      | Some (r, _) =>
          match ru_phase r, lockfile g with
          | MayRemove state, Some f =>
              negb (bool_decide (le_ownerId <$> f = Some (le_ownerId state)))
          | _, _ => false
          end
      | None => false
      end
  | _ => false
  end.

Definition strays : list action → system → bool :=
  fix go as_ g :=
    match as_ with
    | [] => false
    | a :: as_ => removes_other g a || match act a g with Some g' => go as_ g' | None => false end
    end.

(** The task of the run may be executing. *)
Definition executing (ph : phase) : bool :=
  match ph with Holding | Renewing _ => true | _ => false end.

(** ** The invariant *)

(** Phases in which the lock file is this runner's lease. *)
Definition owns (ph : phase) : bool :=
  match ph with
  | Holding | Renewing _ | Releasing | RemoveOwn | CloseGuard true => true
  | _ => false
  end.
(** Phases in which this runner has created the lock file and not written it. *)
Definition creating (ph : phase) : bool :=
  match ph with Opened | Reopened => true | _ => false end.
(** Phases in which this runner keeps the recovery guard. *)
Definition guarding (ph : phase) : bool :=
  match ph with
  | Guarded | Checking _ | MayRemove _ | Removed | Reopened | CloseGuard _ => true
  | _ => false
  end.
Definition touches (ph : phase) : bool := owns ph || creating ph.
(** The lease a recovery has read. *)
Definition lease_read (ph : phase) : option RunLeaseRecord :=
  match ph with Checking state | MayRemove state => Some state | _ => None end.

(** [l] was issued to the run with record [rec] by the lease class [K]. *)
Definition lease_of (l rec : RunLeaseRecord) (K : CampaignRunLease) : Prop :=
  le_ownerId l = le_ownerId rec ∧ le_hostname l = hostname K ∧ le_pid l = pid K.

(** [l] is a lease of a run. *)
Definition issued (g : system) (l : RunLeaseRecord) : Prop :=
  ∃ j r x, runners g !! j = Some r ∧ processes g !! ru_process r = Some x ∧
    lease_of l (ru_record r) (pr_lease x).

(** The run that [l] was issued to has exited. *)
Definition exited (g : system) (l : RunLeaseRecord) : Prop :=
  ∃ j r x, runners g !! j = Some r ∧ processes g !! ru_process r = Some x ∧
    pr_alive x = false ∧ le_ownerId (ru_record r) = le_ownerId l.

Record lock_inv (g : system) : Prop := {
  li_owns : ∀ i r K, active g i = Some (r, K) → owns (ru_phase r) = true →
    holder g = Some i ∧ ∃ l, lockfile g = Some (Some l) ∧ lease_of l (ru_record r) K;
  li_creating : ∀ i r K, active g i = Some (r, K) → creating (ru_phase r) = true →
    holder g = Some i ∧ lockfile g = Some None;
  li_renewing : ∀ i r K next, active g i = Some (r, K) → ru_phase r = Renewing next →
    lease_of next (ru_record r) K;
  li_lease : ∀ l, lockfile g = Some (Some l) → ∃ i r x, holder g = Some i ∧
    runners g !! i = Some r ∧ processes g !! ru_process r = Some x ∧
    lease_of l (ru_record r) (pr_lease x);
  li_guard : ∀ i r, runners g !! i = Some r → guarding (ru_phase r) = true →
    guard g = true ∧ keeper g = Some i;
  li_read : ∀ i r state, runners g !! i = Some r → lease_read (ru_phase r) = Some state →
    issued g state;
  li_removing : ∀ i r state, runners g !! i = Some r → ru_phase r = MayRemove state →
    exited g state;
  li_unique : ∀ i j r r', runners g !! i = Some r → runners g !! j = Some r' →
    le_ownerId (ru_record r) = le_ownerId (ru_record r') → i = j;
  li_record : ∀ i r, runners g !! i = Some r → ∃ x, processes g !! ru_process r = Some x ∧
    lease_of (ru_record r) (ru_record r) (pr_lease x);
}.

Lemma active_spec g i r K :
  active g i = Some (r, K) ↔
  runners g !! i = Some r ∧ processes g !! ru_process r = Some {| pr_lease := K; pr_alive := true |}.
Proof.
  unfold active. rewrite bind_Some. split.
  - intros (r' & Hr & ([K' b] & Hx & Ha)%bind_Some). cbn in Ha. destruct b; [|done].
    by injection Ha as <- <-.
  - intros [Hr Hx]. exists r. split; [done|]. by rewrite Hx.
Qed.

(** No other active runner relies on the lock file. *)
Definition alone (g : system) (i : nat) : Prop :=
  ∀ j r K, j ≠ i → active g j = Some (r, K) → touches (ru_phase r) = false.

Lemma alone_if g i :
  lock_inv g →
  (∀ j r K, j ≠ i → active g j = Some (r, K) → holder g ≠ Some j) → alone g i.
Proof.
  intros HI Hh j r K Hne Ha. unfold touches.
  apply orb_false_iff. split; apply not_true_iff_false; intros Ht; apply (Hh j r K Hne Ha).
  - by apply (li_owns _ HI j r K).
  - by apply (li_creating _ HI j r K).
Qed.

Lemma holder_alone g i r K :
  lock_inv g → active g i = Some (r, K) → holder g = Some i → alone g i.
Proof.
  intros HI Ha Hh. apply alone_if; [done|]. intros j r' K' Hne _. rewrite Hh. congruence.
Qed.

Lemma free_alone g i : lock_inv g → lockfile g = None → alone g i.
Proof.
  intros HI Hf j r K Hne Ha. apply not_true_iff_false. unfold touches. intros Ht.
  apply orb_true_iff in Ht as [Ht|Ht].
  - destruct (li_owns _ HI _ _ _ Ha Ht) as (_ & l & Hl & _). congruence.
  - destruct (li_creating _ HI _ _ _ Ha Ht). congruence.
Qed.

(** The lock file is of a run that has exited: no live run relies on it. *)
Lemma exited_alone g i l state :
  lock_inv g → lockfile g = Some (Some l) → le_ownerId l = le_ownerId state →
  exited g state → alone g i.
Proof.
  intros HI Hl Ho (j & r & x & Hr & Hx & Hd & Hj). apply alone_if; [done|].
  intros h r' K' _ [Hh Hx']%active_spec Hholder.
  destruct (li_lease _ HI l Hl) as (h' & r2 & x2 & E & Hr2 & Hx2 & Ho2 & _).
  rewrite Hholder in E. injection E as <-. rewrite Hh in Hr2. injection Hr2 as <-.
  assert (h = j) as -> by (apply (li_unique _ HI h j r' r); congruence). by simplify_eq.
Qed.

(** *** Moves of one runner *)

Definition moved (r : runner) (ph : phase) : runner :=
  {| ru_process := ru_process r; ru_record := ru_record r; ru_phase := ph |}.

(** [g'] is [g] with runner [i] moved to [ph] and new lock and guard files. *)
Record moves (g g' : system) (i : nat) (r : runner) (ph : phase) : Prop := {
  mv_processes : processes g' = processes g;
  mv_runners : runners g' = <[i := moved r ph]> (runners g);
}.

Section move.
Context (g g' : system) (i : nat) (r : runner) (K : CampaignRunLease) (ph : phase).
Context (HI : lock_inv g) (Ha : active g i = Some (r, K)) (Hm : moves g g' i r ph).

Lemma moved_active j r' K' :
  active g' j = Some (r', K') ↔
  (j = i ∧ r' = moved r ph ∧ K' = K) ∨ (j ≠ i ∧ active g j = Some (r', K')).
Proof using Ha Hm.
  apply active_spec in Ha as [Hr Hx]. rewrite !active_spec, (mv_processes _ _ _ _ _ Hm),
    (mv_runners _ _ _ _ _ Hm). destruct (decide (j = i)) as [->|Hne].
  - rewrite lookup_insert_eq. split.
    + intros [[= <-] Hp]. left. cbn in Hp. split_and!; [done..|]. congruence.
    + intros [(_ & -> & ->)|[? _]]; done.
  - rewrite lookup_insert_ne by done. naive_solver.
Qed.

Lemma moved_runner j r' :
  runners g' !! j = Some r' →
  (j = i ∧ r' = moved r ph) ∨ (j ≠ i ∧ runners g !! j = Some r').
Proof using Hm.
  rewrite (mv_runners _ _ _ _ _ Hm). destruct (decide (j = i)) as [->|Hne].
  - rewrite lookup_insert_eq. intros [= <-]. by left.
  - rewrite lookup_insert_ne by done. by right.
Qed.

(** Processes and leases of runners survive the move. *)
Lemma moved_owner j r' x :
  runners g !! j = Some r' → processes g !! ru_process r' = Some x →
  ∃ r'', runners g' !! j = Some r'' ∧ processes g' !! ru_process r'' = Some x ∧
    ru_record r'' = ru_record r'.
Proof using Ha Hm.
  intros Hr' Hx'. rewrite (mv_processes _ _ _ _ _ Hm), (mv_runners _ _ _ _ _ Hm).
  destruct (decide (j = i)) as [->|Hne].
  - rewrite lookup_insert_eq. eexists. split; [done|]. cbn.
    apply active_spec in Ha as [Hr _]. rewrite Hr in Hr'. injection Hr' as <-. done.
  - rewrite lookup_insert_ne by done. eauto.
Qed.

Lemma moved_exited l : exited g l → exited g' l.
Proof using Ha Hm.
  intros (j & r' & x & Hr' & Hx' & Hd & Ho).
  destruct (moved_owner j r' x Hr' Hx') as (r'' & ? & ? & Hrec). exists j, r'', x. by rewrite Hrec.
Qed.

Lemma moved_issued l : issued g l → issued g' l.
Proof using Ha Hm.
  intros (j & r' & x & Hr' & Hx' & Hl).
  destruct (moved_owner j r' x Hr' Hx') as (r'' & ? & ? & Hrec). exists j, r'', x. by rewrite Hrec.
Qed.

(** The owner identifiers are those of the runners before the move. *)
Lemma moved_owner_id j r' :
  runners g' !! j = Some r' → ∃ r0, runners g !! j = Some r0 ∧ ru_record r0 = ru_record r'.
Proof using Ha Hm.
  intros [(-> & ->)|[_ ?]]%moved_runner; [|by eauto].
  exists r. split; [|done]. by apply active_spec in Ha as [? _].
Qed.

Lemma lock_inv_move :
  (lockfile g' = lockfile g ∧ holder g' = holder g ∨ alone g i) →
  (guard g' = guard g ∧ keeper g' = keeper g ∨
   ∀ j r', j ≠ i → runners g !! j = Some r' → guarding (ru_phase r') = false) →
  (owns ph = true → holder g' = Some i ∧
     ∃ l, lockfile g' = Some (Some l) ∧ lease_of l (ru_record r) K) →
  (creating ph = true → holder g' = Some i ∧ lockfile g' = Some None) →
  (∀ next, ph = Renewing next → lease_of next (ru_record r) K) →
  (∀ l, lockfile g' = Some (Some l) → lockfile g = Some (Some l) ∧ holder g' = holder g ∨
     holder g' = Some i ∧ lease_of l (ru_record r) K) →
  (guarding ph = true → guard g' = true ∧ keeper g' = Some i) →
  (∀ state, lease_read ph = Some state → issued g state) →
  (∀ state, ph = MayRemove state → exited g state) →
  lock_inv g'.
Proof using HI Ha Hm.
  intros Hlock Hguard C1 C2 C3 C4 C5 C6 C7.
  assert (∀ j r' K', j ≠ i → active g j = Some (r', K') → touches (ru_phase r') = true →
    lockfile g' = lockfile g ∧ holder g' = holder g) as Hkeep.
  { intros j r' K' Hne Hj Ht. destruct Hlock as [?|Hal]; [done|]. by rewrite (Hal j r' K') in Ht. }
  split.
  - intros j r' K' [(-> & -> & ->)|[Hne Hj]]%moved_active Ho; [by apply C1|].
    destruct (Hkeep j r' K') as [-> ->]; [done..|unfold touches; by rewrite Ho|].
    by apply (li_owns _ HI).
  - intros j r' K' [(-> & -> & ->)|[Hne Hj]]%moved_active Hc; [by apply C2|].
    destruct (Hkeep j r' K') as [-> ->]; [done..|unfold touches; by rewrite Hc, orb_true_r|].
    by eapply (li_creating _ HI).
  - intros j r' K' next [(-> & -> & ->)|[Hne Hj]]%moved_active Hp; [by apply C3|].
    by eapply (li_renewing _ HI).
  - intros l Hl. destruct (C4 l Hl) as [[Hl' ->]|[-> Hlo]].
    + destruct (li_lease _ HI l Hl') as (j & r' & x & Hh & Hr' & Hx & Hlo).
      destruct (moved_owner j r' x Hr' Hx) as (r'' & ? & ? & Hrec). exists j, r'', x.
      by rewrite Hrec.
    + pose proof (proj1 (active_spec _ _ _ _) Ha) as [Hr Hx].
      destruct (moved_owner i r _ Hr Hx) as (r'' & ? & ? & Hrec). eexists i, r'', _.
      by rewrite Hrec.
  - intros j r' [(-> & ->)|[Hne Hj]]%moved_runner Hg; [by apply C5|].
    destruct Hguard as [[-> ->]|Hno]; [by eapply (li_guard _ HI)|].
    by rewrite (Hno j r' Hne Hj) in Hg.
  - intros j r' state [(-> & ->)|[Hne Hj]]%moved_runner Hr; apply moved_issued;
      [by apply C6|by eapply (li_read _ HI)].
  - intros j r' state [(-> & ->)|[Hne Hj]]%moved_runner Hr; apply moved_exited;
      [by apply C7|by eapply (li_removing _ HI)].
  - intros j k r1 r2 (s1 & H1 & <-)%moved_owner_id (s2 & H2 & <-)%moved_owner_id.
    by apply (li_unique _ HI).
  - intros j r' [(-> & ->)|[Hne Hj]]%moved_runner; rewrite (mv_processes _ _ _ _ _ Hm); cbn.
    + pose proof (proj1 (active_spec _ _ _ _) Ha) as [Hr _]. by apply (li_record _ HI i).
    + by apply (li_record _ HI j).
Qed.
End move.

(** *** Every action keeps the invariant *)

Lemma lock_inv_processes g p x' :
  lock_inv g →
  (∀ x, processes g !! p = Some x → pr_lease x' = pr_lease x ∧ pr_alive x' = false) →
  lock_inv (set_process p x' g).
Proof.
  intros HI Hx'.
  assert (∀ j r x, runners g !! j = Some r → processes g !! ru_process r = Some x →
    ∃ y, processes (set_process p x' g) !! ru_process r = Some y ∧ pr_lease y = pr_lease x ∧
      (pr_alive x = false → pr_alive y = false)) as Hp.
  { intros j r x _ Hx. cbn. destruct (decide (p = ru_process r)) as [->|Hne].
    - rewrite lookup_insert_eq. destruct (Hx' x Hx). eauto.
    - rewrite lookup_insert_ne by done. eauto. }
  assert (∀ j r K, active (set_process p x' g) j = Some (r, K) → active g j = Some (r, K)) as Ha.
  { intros j r K [Hr Hx]%active_spec. apply active_spec. cbn in Hr, Hx. split; [done|].
    destruct (li_record _ HI j r Hr) as (y & Hy & _).
    destruct (decide (p = ru_process r)) as [->|Hne].
    - rewrite lookup_insert_eq in Hx. injection Hx as ->. by destruct (Hx' y Hy).
    - by rewrite lookup_insert_ne in Hx. }
  split.
  - intros j r K Hj. by apply (li_owns _ HI), Ha.
  - intros j r K Hj. by eapply (li_creating _ HI), Ha.
  - intros j r K next Hj. by eapply (li_renewing _ HI), Ha.
  - intros l Hl. destruct (li_lease _ HI l Hl) as (j & r & x & Hh & Hr & Hx & Hlo).
    destruct (Hp j r x Hr Hx) as (y & Hy & He & _). exists j, r, y. by rewrite He.
  - apply (li_guard _ HI).
  - intros j r state Hj Hr. destruct (li_read _ HI j r state Hj Hr) as (h & r' & x & Hr' & Hx & Hl).
    destruct (Hp h r' x Hr' Hx) as (y & Hy & He & _). exists h, r', y. by rewrite He.
  - intros j r state Hj Hr. destruct (li_removing _ HI j r state Hj Hr) as (h & r' & x & Hr' & Hx & Hd & Ho).
    destruct (Hp h r' x Hr' Hx) as (y & Hy & _ & Hyd). exists h, r', y. auto.
  - apply (li_unique _ HI).
  - intros j r Hr. destruct (li_record _ HI j r Hr) as (x & Hx & Hlo).
    destruct (Hp j r x Hr Hx) as (y & Hy & He & _). exists y. by rewrite He.
Qed.

Lemma lock_inv_begin g i p x ownerId at_ :
  lock_inv g → processes g !! p = Some x → runners g !! i = None → owner_used g ownerId = false →
  let r := {| ru_process := p; ru_record := new_lease (pr_lease x) ownerId at_;
              ru_phase := Start |} in
  lock_inv (set_phase i r Start g).
Proof.
  intros HI Hx Hi Hnew r.
  assert (∀ j r', runners g !! j = Some r' → le_ownerId (ru_record r') ≠ ownerId) as Hfresh.
  { intros j r' Hr' E. apply not_true_iff_false in Hnew. apply Hnew, existsb_exists.
    exists (j, r'). split; [by apply list_elem_of_In, elem_of_map_to_list|]. by apply bool_decide_eq_true. }
  assert (∀ j r' K', active (set_phase i r Start g) j = Some (r', K') →
    ru_phase r' = Start ∨ active g j = Some (r', K')) as Ha.
  { intros j r' K' [Hr' Hx']%active_spec. cbn in Hr', Hx'.
    destruct (decide (i = j)) as [->|Hne].
    - rewrite lookup_insert_eq in Hr'. injection Hr' as <-. by left.
    - rewrite lookup_insert_ne in Hr' by done. right. by apply active_spec. }
  assert (∀ j r', runners (set_phase i r Start g) !! j = Some r' →
    (j = i ∧ r = r') ∨ runners g !! j = Some r') as Hnewr.
  { intros j r' Hr'. cbn in Hr'. destruct (decide (i = j)) as [->|Hne].
    - rewrite lookup_insert_eq in Hr'. injection Hr' as <-. by left.
    - rewrite lookup_insert_ne in Hr' by done. by right. }
  assert (∀ j r', runners g !! j = Some r' → runners (set_phase i r Start g) !! j = Some r') as Hr.
  { intros j r' Hr'. cbn. rewrite lookup_insert_ne; [done|]. congruence. }
  split.
  - intros j r' K' [E|Hj]%Ha; [by rewrite E|]. by apply (li_owns _ HI).
  - intros j r' K' [E|Hj]%Ha; [by rewrite E|]. by eapply (li_creating _ HI).
  - intros j r' K' next [E|Hj]%Ha; [by rewrite E|]. by eapply (li_renewing _ HI).
  - intros l Hl. destruct (li_lease _ HI l Hl) as (j & r' & x' & Hh & Hr' & Hx' & Hlo).
    exists j, r', x'. auto.
  - intros j r' Hr'. cbn in Hr'. destruct (decide (i = j)) as [->|Hne].
    + rewrite lookup_insert_eq in Hr'. by injection Hr' as <-.
    + rewrite lookup_insert_ne in Hr' by done. by apply (li_guard _ HI).
  - intros j r' state [[-> <-]|Hj]%Hnewr Hrm; [done|].
    destruct (li_read _ HI _ _ _ Hj Hrm) as (h & r2 & x2 & ? & ? & ?). exists h, r2, x2. auto.
  - intros j r' state [[-> <-]|Hj]%Hnewr Hrm; [done|].
    destruct (li_removing _ HI _ _ _ Hj Hrm) as (h & r2 & x2 & ? & ? & ? & ?). exists h, r2, x2. auto.
  - intros j k r1 r2 [[-> <-]|Hj]%Hnewr [[-> <-]|Hk]%Hnewr E; [done| | |by apply (li_unique _ HI j k r1 r2)].
    + by destruct (Hfresh k r2 Hk).
    + by destruct (Hfresh j r1 Hj).
  - intros j r' Hr'. cbn in Hr'. destruct (decide (i = j)) as [->|Hne].
    + rewrite lookup_insert_eq in Hr'. injection Hr' as <-. exists x. done.
    + rewrite lookup_insert_ne in Hr' by done. by apply (li_record _ HI j).
Qed.

(** A passed ownership check: the run whose lease was read has exited. *)
Lemma recoverable_exited g K state at_ uncertain :
  issued g state →
  recoverable K state at_ (uncertain || process_alive g (hostname K) (le_pid state)) = true →
  exited g state.
Proof.
  intros (j & r & x & Hrj & Hx & Ho & Hhost & Hpid) Hr. unfold recoverable in Hr. bool_inv.
  exists j, r, x. split_and!; [done..| |done]. apply not_true_iff_false. intros Hal.
  match goal with Ha : process_alive _ _ _ = false |- _ => apply not_true_iff_false in Ha; apply Ha end.
  apply existsb_exists. exists (ru_process r, x). split.
  - by apply list_elem_of_In, elem_of_map_to_list.
  - cbn. rewrite Hal. rewrite !bool_decide_eq_true_2 by congruence. done.
Qed.

Section step.
Context (g : system) (i : nat) (r : runner) (K : CampaignRunLease).
Context (HI : lock_inv g) (Ha : active g i = Some (r, K)).

(** A move that touches no file. *)
Lemma goto_inv ph :
  (owns ph = true → owns (ru_phase r) = true) →
  (creating ph = true → creating (ru_phase r) = true) →
  (∀ next, ph = Renewing next → lease_of next (ru_record r) K) →
  (guarding ph = true → guarding (ru_phase r) = true) →
  (∀ state, lease_read ph = Some state → issued g state) →
  (∀ state, ph = MayRemove state → exited g state) →
  lock_inv (set_phase i r ph g).
Proof using HI Ha.
  intros C1 C2 C3 C4 C5 C6. pose proof (proj1 (active_spec _ _ _ _) Ha) as [Hri _].
  eapply (lock_inv_move g _ i r K ph HI Ha); [by split|by left|by left|..]; cbn; auto.
  - intros Ho. by apply (li_owns _ HI i r K), C1.
  - intros Hc. by apply (li_creating _ HI i r K), C2.
  - intros Hg. by apply (li_guard _ HI i r), C4.
Qed.

(** A move that rewrites the lock file with a lease of this run. *)
Lemma write_inv ph l :
  owns ph = true →
  (∀ next, ph ≠ Renewing next) → (guarding ph = true → guarding (ru_phase r) = true) →
  holder g = Some i → lease_of l (ru_record r) K →
  lock_inv (set_phase i r ph (set_lock (Some (Some l)) (holder g) g)).
Proof using HI Ha.
  intros Ho Hn Hg Hh Hl. pose proof (proj1 (active_spec _ _ _ _) Ha) as [Hri _].
  eapply (lock_inv_move g _ i r K ph HI Ha); [by split|..]; cbn.
  - right. by eapply holder_alone.
  - by left.
  - eauto.
  - by destruct ph.
  - intros next E. by destruct (Hn next).
  - intros l' [= <-]. by right.
  - intros Hgd. by apply (li_guard _ HI i r), Hg.
  - by destruct ph.
  - by intros state ->.
Qed.

(** A move that creates the lock file. *)
Lemma open_inv ph :
  creating ph = true → (guarding ph = true → guarding (ru_phase r) = true) →
  lockfile g = None → lock_inv (set_phase i r ph (set_lock (Some None) (Some i) g)).
Proof using HI Ha.
  intros Hc Hg Hf. pose proof (proj1 (active_spec _ _ _ _) Ha) as [Hri _].
  eapply (lock_inv_move g _ i r K ph HI Ha); [by split|..]; cbn.
  - right. by apply free_alone.
  - by left.
  - by destruct ph.
  - done.
  - intros next ->. done.
  - done.
  - intros Hgd. by apply (li_guard _ HI i r), Hg.
  - by destruct ph.
  - by intros state ->.
Qed.

(** A move that removes the lock file. *)
Lemma remove_inv ph :
  alone g i → touches ph = false → lease_read ph = None → (guarding ph = true → guarding (ru_phase r) = true) →
  lock_inv (set_phase i r ph (set_lock None None g)).
Proof using HI Ha.
  intros Hal Ht Hl Hg. pose proof (proj1 (active_spec _ _ _ _) Ha) as [Hri _].
  unfold touches in Ht. apply orb_false_iff in Ht as [Ho Hc].
  eapply (lock_inv_move g _ i r K ph HI Ha); [by split|by right|by left|..]; cbn;
    rewrite ?Ho, ?Hc, ?Hl; try done.
  - intros next ->. done.
  - intros Hgd. by apply (li_guard _ HI i r), Hg.
  - intros state ->. done.
Qed.
End step.

Lemma open_guard_inv g i r K :
  lock_inv g → active g i = Some (r, K) → guard g = false →
  lock_inv (set_phase i r Guarded (set_guard true (Some i) g)).
Proof.
  intros HI Ha Hg. eapply (lock_inv_move g _ i r K Guarded HI Ha); [by split|by left|..];
    cbn; try done; [|by left].
  right. intros j r' Hne Hj. apply not_true_iff_false. intros Hgd.
  destruct (li_guard _ HI j r' Hj Hgd). congruence.
Qed.

Lemma drop_guard_inv g i r K (acquired : bool) :
  lock_inv g → active g i = Some (r, K) → ru_phase r = CloseGuard acquired →
  lock_inv (set_phase i r (if acquired then Holding else Done) (set_guard false None g)).
Proof.
  intros HI Ha Hp. pose proof (proj1 (active_spec _ _ _ _) Ha) as [Hri _].
  destruct (li_guard _ HI i r Hri) as [_ Hk]; [by rewrite Hp|].
  eapply (lock_inv_move g _ i r K _ HI Ha); [by split|by left|..]; cbn; try by destruct acquired.
  - right. intros j r' Hne Hj. apply not_true_iff_false. intros Hgd.
    destruct (li_guard _ HI j r' Hj Hgd). congruence.
  - intros Ho. apply (li_owns _ HI i r K Ha). rewrite Hp. by destruct acquired.
  - by left.
Qed.

(** A move between phases that rely on no file. *)
Ltac goto := match goal with
  Ha : active ?g ?i = Some (?r, ?K), Hph : ru_phase _ = _ |- _ =>
    apply (goto_inv g i r K); rewrite ?Hph; done end.

(** The removal of the lock file that was read. *)
Lemma remove_read_inv g i r K state f :
  lock_inv g → active g i = Some (r, K) → ru_phase r = MayRemove state → lockfile g = Some f →
  le_ownerId <$> f = Some (le_ownerId state) → lock_inv (set_phase i r Removed (set_lock None None g)).
Proof.
  intros HI Ha Hph Hl Ho. pose proof (proj1 (active_spec _ _ _ _) Ha) as [Hri _].
  destruct f as [l|]; [|done]. injection Ho as Ho. apply (remove_inv g i r K); rewrite ?Hph; try done.
  eapply exited_alone; [done..|]. by eapply (li_removing _ HI).
Qed.

Lemma runner_step_inv a i r K g g' :
  lock_inv g → active g i = Some (r, K) → runner_step a i r K g = Some g' →
  runner_of a = Some i → removes_other g a = false → lock_inv g'.
Proof.
  intros HI Ha Hs Hi Hother. pose proof (proj1 (active_spec _ _ _ _) Ha) as [Hri Hxi].
  pose proof (li_record _ HI _ _ Hri) as (x & Hx & Hrec). rewrite Hxi in Hx. injection Hx as <-.
  unfold runner_step in Hs.
  destruct a; destruct (ru_phase r) eqn:Hph; try discriminate Hs; injection Hs as <-.
  - destruct (lockfile g) eqn:Hl; [goto|].
    by apply (open_inv g i r K).
  - destruct (li_creating _ HI _ _ _ Ha) as [Hh _]; [by rewrite Hph|].
    destruct ok; [by apply (write_inv g i r K)|goto].
  - destruct (guard g) eqn:Hg; [goto|].
    by apply (open_guard_inv g i r K).
  - destruct (read_lock g) as [state|] eqn:Hst; [|goto].
    apply (goto_inv g i r K); rewrite ?Hph; try done. intros state' [= <-].
    unfold read_lock in Hst. destruct (lockfile g) as [l|] eqn:Hl; [|done]. subst l.
    destruct (li_lease _ HI _ Hl) as (j & r' & x & _ & ?). by exists j, r', x.
  - assert (issued g state) as Hiss by (eapply (li_read _ HI i r); [done|by rewrite Hph]).
    destruct (recoverable _ _ _ _) eqn:Hrec'; [|goto]. apply (goto_inv g i r K); rewrite ?Hph; try done.
    + by intros state' [= <-].
    + intros state' [= <-]. by eapply recoverable_exited.
  - destruct (lockfile g) as [f|] eqn:Hl; [|goto].
    injection Hi as ->. unfold removes_other in Hother. rewrite Ha, Hph, Hl in Hother. bool_inv.
    by eapply remove_read_inv.
  - destruct (lockfile g) eqn:Hl; [goto|].
    apply (open_inv g i r K); rewrite ?Hph; done.
  - destruct (li_creating _ HI _ _ _ Ha) as [Hh _]; [by rewrite Hph|].
    destruct ok; [by apply (write_inv g i r K); rewrite ?Hph|goto].
  - by apply (drop_guard_inv g i r K).
  - destruct (read_lock g) as [prior|]; [|done]. destruct (_ && _) eqn:Hown; [|done].
    apply (goto_inv g i r K); rewrite ?Hph; try done. intros next [= <-].
    unfold own_lease in Hown. bool_inv. by split_and!.
  - destruct (li_owns _ HI _ _ _ Ha) as [Hh _]; [by rewrite Hph|].
    destruct ok; [|goto]. apply (write_inv g i r K); rewrite ?Hph; try done.
    by eapply (li_renewing _ HI).
  - goto.
  - destruct (read_lock g) as [l|]; [destruct (bool_decide _)|];
      goto.
  - destruct (lockfile g); [|goto].
    apply (remove_inv g i r K); rewrite ?Hph; try done. eapply holder_alone; [done..|].
    apply (li_owns _ HI _ _ _ Ha). by rewrite Hph.
Qed.

Lemma act_inv a g g' :
  lock_inv g → removes_other g a = false → act a g = Some g' → lock_inv g'.
Proof.
  intros HI Hother Hact. destruct a; cbn [act runner_of mbind option_bind] in Hact;
    try (apply bind_Some in Hact as ([r K] & Ha & Hs);
         exact (runner_step_inv _ _ _ _ _ _ HI Ha Hs eq_refl Hother)).
  - case_match eqn:Hc; [|done]. injection Hact as <-. bool_inv.
    apply lock_inv_processes; [done|]. congruence.
  - apply bind_Some in Hact as (x & Hx & [= <-]). apply lock_inv_processes; [done|].
    intros y Hy. rewrite Hx in Hy. by injection Hy as <-.
  - apply bind_Some in Hact as (x & Hx & Hact). case_match eqn:Hc; [|done].
    injection Hact as <-. bool_inv. by apply lock_inv_begin.
Qed.

Lemma no_runs_inv : lock_inv no_runs.
Proof.
  split; unfold active, no_runs; cbn; intros *; rewrite ?lookup_empty; done.
Qed.

(** The invariant holds as long as no recovery removes the lock of another run. *)
Lemma acts_inv as_ g g' : lock_inv g → acts as_ g = Some g' → strays as_ g = false → lock_inv g'.
Proof.
  revert g. induction as_ as [|a as_ IH]; intros g HI; cbn; [by intros [= <-]|].
  intros (g1 & Ha & Hs)%bind_Some. rewrite Ha. intros [Ho Hst]%orb_false_iff.
  eapply IH; [|exact Hs|exact Hst]. by eapply act_inv.
Qed.

(** An action moves no runner but its own. *)
Lemma runner_step_others a j r K g g' i :
  runner_step a j r K g = Some g' → i ≠ j → runners g' !! i = runners g !! i.
Proof.
  intros Hs Hne. unfold runner_step in Hs.
  destruct a, (ru_phase r); try discriminate Hs; injection Hs as <-;
    repeat case_match; cbn; rewrite ?lookup_insert_ne by done; done.
Qed.

Lemma act_others a g g' i r :
  act a g = Some g' → runner_of a ≠ Some i → runners g !! i = Some r → runners g' !! i = Some r.
Proof.
  intros Hact Hne Hi. destruct a; cbn [act runner_of mbind option_bind] in Hact, Hne;
    try (apply bind_Some in Hact as ([r' K] & Ha & Hs);
         by rewrite (runner_step_others _ _ _ _ _ _ i Hs) by congruence).
  - by case_match; [injection Hact as <-|].
  - by apply bind_Some in Hact as (x & Hx & [= <-]).
  - apply bind_Some in Hact as (x & Hx & Hact). case_match eqn:Hc; [|done].
    injection Hact as <-. bool_inv. cbn. rewrite lookup_insert_ne; [done|]. congruence.
Qed.
