(* ===== verification/CampaignClaims.v ===== *)
(** * CampaignClaims: workspace reservations of mutating campaigns

    services/workspace-agent/src/campaign/campaign-resource-claims.ts.  A campaign
    with a mutating task reserves its workspace by creating a file exclusively,
    under an admission lock; only the same campaign, completed with verified proofs,
    removes it. *)

From S2P Require Import Prelude Text CampaignWorld CampaignLedger CampaignSteps.

Record ResourceClaim := {
  rc_workspaceKeyDigest : string;
  rc_ownerScopeHash : string;
  rc_campaignId : string;
  rc_definitionDigest : string;
}.

Definition MUTATION_EXEMPT : list string := ["inspect"; "ci"]%string.

Definition json_of_claim (c : ResourceClaim) : json :=
  JObj [("version", JNum 1); ("workspaceKeyDigest", JStr (rc_workspaceKeyDigest c));
        ("ownerScopeHash", JStr (rc_ownerScopeHash c)); ("campaignId", JStr (rc_campaignId c));
        ("definitionDigest", JStr (rc_definitionDigest c))]%string.

(** [value === expected] for a string property. *)
Definition string_is (v : option json) (s : string) : bool :=
  bool_decide (as_string v = Some s).

Definition version_one (v : json) : bool := bool_decide (as_integer (prop "version" v) = Some 1%Z).

(** [prop] of a value that is not an object is [undefined], which no field equals. *)
Definition matches (actual : json) (expected : ResourceClaim) : bool :=
  isRecord actual && version_one actual &&
  string_is (prop "workspaceKeyDigest" actual) (rc_workspaceKeyDigest expected) &&
  string_is (prop "ownerScopeHash" actual) (rc_ownerScopeHash expected) &&
  string_is (prop "campaignId" actual) (rc_campaignId expected) &&
  string_is (prop "definitionDigest" actual) (rc_definitionDigest expected).

(** A string property that matches a pattern. *)
Definition string_like (v : option json) (pattern : string → bool) : bool :=
  match as_string v with Some s => pattern s | None => false end.

(** Another campaign's valid reservation of the same workspace. *)
Definition other_claim (prior : json) (expected : ResourceClaim) : bool :=
  isRecord prior && version_one prior &&
  string_is (prop "workspaceKeyDigest" prior) (rc_workspaceKeyDigest expected) &&
  string_like (prop "campaignId" prior) UUID &&
  negb (string_is (prop "campaignId" prior) (rc_campaignId expected)) &&
  string_like (prop "ownerScopeHash" prior) SHA256 &&
  string_like (prop "definitionDigest" prior) SHA256.

Definition needsReservation (plan : CampaignRecord) : bool :=
  existsb (λ t, negb (bool_decide (cs_action (ct_step t) ∈ MUTATION_EXEMPT))) (cr_tasks plan).

(** Every task completed with a verified proof. *)
Definition verified_complete (record : CampaignRecord) : bool :=
  forallb (λ t, bool_decide (ct_state t = completed) && proof_verified (ct_proof t))
    (cr_tasks record).

Section claims.
Context `{CampaignHost} `{RunLease}.
(** [path.join(stateDirectory, "delegated-campaign-resource-claims")] *)
Context (directory : string).

Definition digest (s : string) : string := sha256 s.

Definition claim_path (workspaceKey : string) : string :=
  directory +:+ "/" +:+ digest workspaceKey +:+ ".json".

Definition claim_file (workspaceKey : string) : outcome campaign_error string :=
  ensure (isAbsolute workspaceKey);; Ok (claim_path workspaceKey).

Definition expected_claim (workspaceKey : string) (record : CampaignRecord) : ResourceClaim :=
  {| rc_workspaceKeyDigest := digest workspaceKey;
     rc_ownerScopeHash := cr_ownerScopeHash record; rc_campaignId := cr_campaignId record;
     rc_definitionDigest := cr_definitionDigest record |}.

Definition expected (workspaceKey : string) (record : CampaignRecord) :
    outcome campaign_error ResourceClaim :=
  ensure (SHA256 (cr_ownerScopeHash record) && SHA256 (cr_definitionDigest record) &&
          UUID (cr_campaignId record));;
  Ok (expected_claim workspaceKey record).

Definition withMutex {A} (task : W A) : W A := lease_run (directory +:+ "/.admission.lock") task.

Definition read_claim (file : string) : W (option json) :=
  text ← gets (λ w, files w !! file);
  match text with
  | None => mret None
  | Some None => throw CAMPAIGN_RESOURCE_CLAIM_INVALID
  | Some (Some v) => mret (Some v)
  end.

Definition reserve (workspaceKey : string) (record : CampaignRecord) : W unit :=
  if negb (needsReservation record) then mret tt else
  expected ← lift (expected workspaceKey record);
  file ← lift (claim_file workspaceKey);
  withMutex (
    prior ← read_claim file;
    match prior with
    | Some prior => require (matches prior expected) CAMPAIGN_RESOURCE_CONFLICT
    | None =>
        taken ← gets (λ w, files w !! file);
        require (negb (bool_decide (is_Some taken))) (Errno "EEXIST");;
        modify (set_files <[file := Some (json_of_claim expected)]>)
    end).

Definition releaseCompleted (workspaceKey : string) (record : CampaignRecord) : W unit :=
  if negb (needsReservation record) then mret tt else
  require (verified_complete record) CAMPAIGN_RESOURCE_INCOMPLETE;;
  expected ← lift (expected workspaceKey record);
  withMutex (
    file ← lift (claim_file workspaceKey);
    prior ← read_claim file;
    match prior with
    | None => mret tt
    | Some prior =>
        if negb (matches prior expected) then
          if other_claim prior expected then mret tt
          else throw CAMPAIGN_RESOURCE_CLAIM_MISMATCH
        else modify (set_files (delete file))
    end).

(** ** What the two operations do to the files *)

Lemma lease_cases {A} f (task : W A) w r w' :
  lease_run f task w = (r, w') →
  ((∃ e, r = Err e) ∧ same_disk w w') ∨
  ∃ w0 r0 w1, same_disk w w0 ∧ task w0 = (r0, w1) ∧ same_disk w1 w' ∧
    (r = r0 ∨ ∃ e, r = Err e).
Proof.
  intros [(e & -> & ? & ?)|(w0 & r0 & w1 & Hf & Hc & _ & Ht & Hf' & Hc' & Hr)]%lease_run_spec.
  - left. split; [eauto|done].
  - right. exists w0, r0, w1. done.
Qed.

Lemma json_of_claim_matches c : matches (json_of_claim c) c = true.
Proof.
  unfold matches, json_of_claim, string_is. cbn -[bool_decide].
  by rewrite !bool_decide_eq_true_2.
Qed.

(** A valid claim matches one campaign only. *)
Lemma matches_campaign v c1 c2 :
  matches v c1 = true → matches v c2 = true → c1 = c2.
Proof.
  unfold matches, string_is. intros H1 H2. bool_inv. destruct c1, c2; cbn in *. congruence.
Qed.

Lemma read_claim_bind {A} f (k : option json → W A) w :
  (read_claim f ≫= k) w =
  match files w !! f with
  | Some None => (Err CAMPAIGN_RESOURCE_CLAIM_INVALID, w)
  | Some (Some v) => k (Some v) w
  | None => k None w
  end.
Proof.
  unfold mbind, io_bind, read_claim, gets, mbind, io_bind.
  by destruct (files w !! f) as [[v|]|].
Qed.

(** A reservation is refused, was already held by this campaign, or is new. *)
Lemma reserve_cases key record w r w' :
  reserve key record w = (r, w') → needsReservation record = true →
  ((∃ e, r = Err e) ∧ same_disk w w') ∨
  calls w' = calls w ∧ (r = Ok tt ∨ ∃ e, r = Err e) ∧
  ((∃ v, files w !! claim_path key = Some (Some v) ∧
      matches v (expected_claim key record) = true ∧ files w' = files w) ∨
   (files w !! claim_path key = None ∧
    files w' = <[claim_path key := Some (json_of_claim (expected_claim key record))]> (files w))).
Proof.
  unfold reserve. intros Hr Hn. rewrite Hn in Hr. cbn [negb] in Hr.
  rewrite lift_bind in Hr.
  destruct (expected key record) as [c|e] eqn:He; [|injection Hr as <- <-; left; by split; eauto].
  apply outcome_bind_Ok in He as (_ & _ & [= <-]). rewrite lift_bind in Hr.
  destruct (claim_file key) as [f|e] eqn:Hf; [|injection Hr as <- <-; left; by split; eauto].
  apply outcome_bind_Ok in Hf as (_ & _ & [= <-]).
  apply lease_cases in Hr as [?|(w0 & r0 & w1 & [Hf0 Hc0] & Ht & [Hf1 Hc1] & Hr)]; [by left|].
  rewrite read_claim_bind in Ht.
  assert (∀ e, r0 = Err e → same_disk w0 w1 → (∃ e, r = Err e) ∧ same_disk w w') as Hrefuse.
  { intros e -> [??]. split; [destruct Hr as [->|?]; eauto|]. split; congruence. }
  destruct (files w0 !! claim_path key) as [[v|]|] eqn:Hl.
  - unfold require in Ht. destruct (matches v _) eqn:Hm; injection Ht as <- <-.
    + right. split_and!; [congruence|by destruct Hr as [->|?]; eauto|]. left. exists v.
      split_and!; congruence.
    + left. by eapply Hrefuse.
  - injection Ht as <- <-. left. by eapply Hrefuse.
  - unfold mbind, io_bind, gets, require in Ht. rewrite Hl in Ht. injection Ht as <- <-.
    right. split_and!; [cbn in *; congruence|by destruct Hr as [->|?]; eauto|]. right.
    split; [congruence|]. rewrite Hf1, <- Hf0. done.
Qed.

(** A reservation is removed only by the completed campaign that holds it. *)
Lemma releaseCompleted_cases key record w r w' :
  releaseCompleted key record w = (r, w') → 
  same_disk w w' ∨
  calls w' = calls w ∧ verified_complete record = true ∧
  ∃ v, files w !! claim_path key = Some (Some v) ∧
    matches v (expected_claim key record) = true ∧
    files w' = delete (claim_path key) (files w).
Proof.
  unfold releaseCompleted. destruct (needsReservation record); cbn [negb];
    [|intros [= <- <-]; by left].
  intros Hr. unfold mbind at 1, io_bind, require in Hr.
  destruct (verified_complete record) eqn:Hvc; [|injection Hr as <- <-; by left].
  cbn [mret io_ret] in Hr. rewrite lift_bind in Hr.
  destruct (expected key record) as [c|e] eqn:He; [|injection Hr as <- <-; by left].
  apply outcome_bind_Ok in He as (_ & _ & [= <-]).
  apply lease_cases in Hr as [[_ ?]|(w0 & r0 & w1 & [Hf0 Hc0] & Ht & [Hf1 Hc1] & Hr)]; [by left|].
  rewrite lift_bind in Ht.
  destruct (claim_file key) as [f|e] eqn:Hf; [|injection Ht as <- <-; left; split; congruence].
  apply outcome_bind_Ok in Hf as (_ & _ & [= <-]). rewrite read_claim_bind in Ht.
  destruct (files w0 !! claim_path key) as [[v|]|] eqn:Hl;
    [|injection Ht as <- <-; left; split; congruence..].
  destruct (matches v _) eqn:Hm; cbn [negb] in Ht.
  - right. injection Ht as <- <-. split_and!; [cbn in *; congruence|done|]. exists v.
    split_and!; [congruence|done|]. rewrite Hf1, <- Hf0. done.
  - left. destruct (other_claim v _); injection Ht as <- <-; split; congruence.
Qed.
End claims.
