(* ===== verification/CampaignScenario.v ===== *)
(** * CampaignScenario: a concrete campaign

    A host, a lock, a plan of two tasks and capabilities that evaluate, for the
    witnesses of the campaign theorems. *)

From S2P Require Import Prelude Text CampaignWorld CampaignLedger CampaignCoordinator.
From S2P Require Import ReleaseScenario CampaignLease.

Definition campaign_host : CampaignHost := {|
  campaign_runtime := scenario_host;
  redactSensitiveText := λ s, s;
  isAbsolute := String.prefix "/";
  randomHex := λ n, digits 16 (Z.of_nat n) "";
|}.
#[export] Existing Instance campaign_host.

(** A lease class of one process whose clock advances a second per reading and
    whose heartbeat fires once per task. *)
Definition worker (host : string) (id : Z) : CampaignRunLease := {|
  leaseMs := 90000; heartbeatMs := 20000; hostname := host; pid := id;
  now := λ n, (1000 + 1000 * Z.of_nat n)%Z;
  isProcessAlive := λ _ p, bool_decide (p = id);
  beats := λ _, 1;
|}.
#[export] Instance worker_lease : RunLease := lease_implements (worker "host-a" 41).

Definition ledger : DelegatedCampaignLedger :=
  {| directory := "/state/delegated-campaigns"; ownerScopeHash := hash "owner" |}.

Definition campaign_id : string := "11111111-1111-4111-8111-111111111111".
Definition workspace_id : string := "workspace-1".

Definition plan_step (id action : string) (deps : list string) (resource : string) : CampaignStep :=
  {| cs_id := id; cs_action := action; cs_dependsOn := deps; cs_targetResource := resource;
     cs_expectedState := "main"; cs_argumentsDigest := digits 64 5 "" |}.

Definition plan : DelegatedCampaignInput := {|
  ci_campaignId := campaign_id; ci_workspaceId := workspace_id;
  ci_objective := "ship the fix"; ci_authorizedActions := ["edit"; "commit"]%string;
  ci_tasks := [plan_step "edit-file" "edit" [] "repo:main";
               plan_step "commit-file" "commit" ["edit-file"] "repo:main"]%string;
  ci_keys := persisted_keys |}.

Definition empty_world : world := {| files := ∅; locks := ∅; draws := 0; calls := [] |}.

(** The observation a capability returns for a request. *)
Definition answers (state : string) (i : CampaignInvocation) : CampaignObservation := {|
  ob_operationId := iv_operationId i; ob_targetResource := iv_targetResource i;
  ob_expectedState := iv_expectedState i; ob_argumentsDigest := iv_argumentsDigest i;
  ob_state := state;
  ob_proof := Some {| pf_kind := "verified"; pf_reference := "evidence" |} |}.

(** Every task's capability, bound exactly, executing and confirming. *)
Definition willing (id : string) : option TypedCampaignCapability :=
  s ← List.find (λ s, bool_decide (cs_id s = id)) (ci_tasks plan);
  Some {| cap_action := cs_action s; cap_targetResource := cs_targetResource s;
          cap_expectedState := cs_expectedState s; cap_argumentsDigest := cs_argumentsDigest s;
          cap_execute := λ _ i, Some (Some (answers "succeeded" i));
          cap_reconcile := λ _ i, Some (Some (answers "succeeded" i));
          cap_verify := λ _ _ _, Some true |}.

Definition created : world := Eval vm_compute in (create ledger plan empty_world).2.
Definition finished : world := Eval vm_compute in (run ledger willing workspace_id campaign_id 8 created).2.

(** The scenario's digest has the form the ledger expects of SHA-256. *)
Lemma digits_hex n x acc :
  all_chars is_hex_lower acc = true → all_chars is_hex_lower (digits n x acc) = true.
Proof.
  revert x acc. induction n as [|n IH]; intros x acc Hacc; [done|]. cbn. apply IH. cbn.
  rewrite Hacc, andb_true_r. pose proof (Z.mod_pos_bound x 10 eq_refl) as Hm.
  assert (∃ k, k < 10 ∧ Z.to_nat (x mod 10) = k) as (k & Hk & ->) by (eexists; split; [|done]; lia).
  do 10 (destruct k as [|k]; [reflexivity|]). lia.
Qed.

Lemma scenario_digest s : SHA256 (sha256 s) = true.
Proof.
  unfold SHA256, exactly. cbn -[digits]. rewrite digits_hex by done. rewrite digits_length. done.
Qed.
