(* ===== verification/CampaignTheorems.v ===== *)
(** * CampaignTheorems: what delegated campaigns guarantee

    The theorems about the campaign ledger, its coordinator, the workspace
    reservations and the run lease, for any host, any lock that meets [RunLease]
    and any capabilities, with instances on a concrete campaign. *)

From S2P Require Import Prelude Text Dfs CampaignWorld CampaignLedger CampaignRecords.
From S2P Require Import CampaignSteps CampaignInv CampaignCoordinator CampaignDispatch.
From S2P Require Import CampaignVerified CampaignLease LeaseProtocol CampaignClaims.
From S2P Require Import CampaignScenario.

(** Calls to the public methods of the ledger and of coordinators over it; each
    run has its own capabilities. *)
Inductive campaign_command :=
| Create (input : DelegatedCampaignInput)
| Get (workspaceId id : string)
| Claim (workspaceId id : string)
| Settle (workspaceId id taskId operationId : string) (next : NextState)
    (proof : option CampaignProof)
| Run (capabilities : string → option TypedCampaignCapability) (workspaceId id : string)
    (maxSteps : Z).

Section theorems.
Context `{CampaignHost} `{RunLease} (L : DelegatedCampaignLedger).

(** The world after the call, whether it returned or threw. *)
Definition campaign_exec (c : campaign_command) (w : world) : world :=
  match c with
  | Create input => (create L input w).2
  | Get ws id => (get L ws id w).2
  | Claim ws id => (claimNext L ws id w).2
  | Settle ws id task op next proof => (transition L ws id task op next proof w).2
  | Run caps ws id n => (run L caps ws id n w).2
  end.

Definition campaign_exec_all (cs : list campaign_command) (w : world) : world :=
  foldl (λ w c, campaign_exec c w) w cs.

(** Every call keeps a predicate that ledger effects and coordinator runs keep. *)
Lemma campaign_exec_keeps (Q : world → Prop) cs w :
  (∀ w w', ledger_effect L w w' → Q w → Q w') →
  (∀ caps ws id n, keeps Q (run L caps ws id n)) → Q w → Q (campaign_exec_all cs w).
Proof.
  intros Hst Hrun. revert w. induction cs as [|c cs IH]; intros w Hw; [done|].
  apply IH. destruct c; cbn; match goal with |- Q (?m w).2 => destruct (m w) as [r w'] eqn:E end;
    cbn.
  - by eapply Hst; [eapply create_effect|].
  - by eapply Hst; [eapply read_effect|].
  - by eapply Hst; [eapply claimNext_effect|].
  - by eapply Hst; [eapply transition_effect|].
  - by eapply Hrun.
Qed.

Lemma empty_dispatch_inv : dispatch_inv L empty_world.
Proof.
  split; cbn.
  - intros p r. unfold read_file. by rewrite lookup_empty.
  - unfold count_where. cbn. lia.
  - unfold count_where. cbn. lia.
Qed.

Lemma reachable_dispatch_inv cs : dispatch_inv L (campaign_exec_all cs empty_world).
Proof.
  apply campaign_exec_keeps; [apply dispatch_inv_stable| |apply empty_dispatch_inv].
  intros. apply keeps_run.
Qed.

(** C3: However often campaigns are created, claimed, settled and run, with
    whatever capabilities, replies, rejections and lost locks, the [execute]
    method is called at most once for each task of each campaign: a step that was
    dispatched is reconciled, never dispatched again. *)
Theorem execute_at_most_once cs ws id task :
  count_where (executes ws id task) (calls (campaign_exec_all cs empty_world)) ≤ 1.
Proof. apply reachable_dispatch_inv. Qed.

(** C5: Every campaign record that can be read back is well formed, has at most one
    task in flight, at most one task holding each target resource in an in-flight,
    unknown or blocked state, and every task that was ever claimed has all its
    dependencies completed. *)
Theorem campaign_records_invariant cs p r :
  read_file L (files (campaign_exec_all cs empty_world)) p = Ok (Some r) →
  record_ok (ownerScopeHash L) r ∧ plan_inv (cr_tasks r).
Proof.
  intros Hr. split; [by eapply read_file_ok|].
  by apply (di_files _ _ (reachable_dispatch_inv cs)) in Hr as [_ ?].
Qed.

Lemma campaign_exec_changes cs w :
  rtc (changes L) (files w) (files (campaign_exec_all cs w)).
Proof.
  apply (campaign_exec_keeps (λ w', rtc (changes L) (files w) (files w'))); [..|done].
  - intros w1 w2 [_ Hc] Hq. by etrans.
  - intros. apply stable_run; [|done]. intros w1 w2 [_ Hc] Hq. by etrans.
Qed.

(** Between two readings of a campaign record, whatever happened in between, the
    authorised plan, its digest and the creation time are the same, the revision
    grows with every change, and each task only moves forward: settled tasks never
    change, a task never becomes pending again and is claimed once, and its
    operation identifier never changes. *)
Theorem campaign_history cs cs' p r r' :
  let w := campaign_exec_all cs empty_world in
  read_file L (files w) p = Ok (Some r) →
  read_file L (files (campaign_exec_all cs' w)) p = Ok (Some r') →
  tasks_progress r r' ∧ input_of r' = input_of r ∧
  cr_definitionDigest r' = cr_definitionDigest r ∧ cr_createdAt r' = cr_createdAt r ∧
  (cr_revision r ≤ cr_revision r')%Z ∧ (cr_revision r' = cr_revision r → r' = r).
Proof.
  intros w Hr Hr'. eapply (read_steps_frame L), record_history; [..|exact Hr|exact Hr'].
  - apply reachable_dispatch_inv.
  - apply campaign_exec_changes.
Qed.

(** A coordinator run makes at most [maxSteps] calls that execute or reconcile
    an operation, and never more than 128. *)
Theorem run_within_budget caps ws id maxSteps w :
  let n := count_where steps_taken (calls w) in
  let n' := count_where steps_taken (calls (run L caps ws id maxSteps w).2) in
  n' ≤ n + Z.to_nat maxSteps ∧ n' ≤ n + 128.
Proof.
  intros n n'. destruct (run L caps ws id maxSteps w) as [r w'] eqn:Hr.
  assert (n' ≤ n + Z.to_nat maxSteps) as Hb by exact (adds_run L caps _ _ _ _ _ _ Hr).
  split; [done|]. destruct (decide (maxSteps ≤ 128)%Z); [lia|].
  unfold run in Hr. unfold mbind at 1, io_bind, require in Hr.
  rewrite (proj2 (Z.leb_gt maxSteps 128)), andb_false_r in Hr by lia. injection Hr as <- <-.
  unfold n', n. cbn. lia.
Qed.

(** C10: A task that a run left completed was completed before the run, or in this run
    its own capability was asked to execute or reconcile this very task and operation,
    answered that it succeeded, and confirmed this answer in the [verify] call that
    follows; the proof stored with the task is the one of that answer. *)
Theorem completed_is_confirmed cs caps ws id maxSteps p r t :
  let w := campaign_exec_all cs empty_world in
  let w' := (run L caps ws id maxSteps w).2 in
  read_file L (files w') p = Ok (Some r) → t ∈ cr_tasks r → ct_state t = completed →
  (∃ r0, read_file L (files w) p = Ok (Some r0) ∧ t ∈ cr_tasks r0) ∨
  confirmed caps (length (calls w)) (calls w') r t.
Proof.
  intros w w'. assert (evidence_inv L caps w w) as Hinv.
  { split; [apply reachable_dispatch_inv|]. split; [done|]. intros p0 r0 t0 Hr Ht _. left. eauto. }
  unfold w'. destruct (run L caps ws id maxSteps w) as [res w1] eqn:Hrun.
  pose proof (evidence_run L caps w ws id maxSteps w res w1 Hrun Hinv) as (_ & _ & Hcc). apply Hcc.
Qed.

(** C40: Reading a persisted record yields a well-formed record, and printing that
    record and reading it again yields the same record. *)
Theorem persisted_record_roundtrip v owner r :
  parsePersisted v owner = Ok r →
  record_ok owner r ∧ parsePersisted (json_of_record r) owner = Ok r.
Proof. intros Hok%parse_sound. split; [done|]. by apply parse_print. Qed.

(** [normalize] accepts exactly the plans with a valid identity, a bounded
    objective free of secrets, distinct known permissions, distinct well-formed
    tasks within them, resolved dependencies and no dependency cycle; it returns the
    plan with permissions and dependencies sorted, and is idempotent. *)
Theorem normalize_spec i i' :
  (normalize i = Ok i' ↔ input_ok i ∧ i' = normal_input i) ∧
  (normalize i = Ok i' → normalize i' = Ok i').
Proof. split; [apply normalize_iff|apply normalize_idem]. Qed.

Lemma created_record_ok input i at_ :
  (∀ s, SHA256 (sha256 s) = true) → ci_keys input = persisted_keys → normalize input = Ok i →
  record_ok (ownerScopeHash L) (created_record L i at_).
Proof.
  intros Hsha Hk Hn. assert (input_of (created_record L i at_) = i) as Hi.
  { apply normalize_iff in Hn as [_ ->]. unfold input_of. cbn. rewrite map_map. cbn.
    by rewrite map_id, <- Hk. }
  split; rewrite ?Hi; [done|by eapply normalize_idem|done|apply Hsha|cbn; lia|].
  cbn. apply Forall_forall. intros t Ht. apply list_elem_of_In, in_map_iff in Ht as (s & <- & _). by split.
Qed.

(** Creating a campaign again with the same plan returns the existing record and
    writes nothing (unless the lock is refused); with another plan under the same
    identity it fails and writes nothing.  The plan's properties are in the order
    [parsePersisted] rebuilds, and SHA-256 is 64 hexadecimal digits. *)
Theorem create_campaign_idempotent input w r w' input' res w'' :
  (∀ s, SHA256 (sha256 s) = true) → ci_keys input = persisted_keys →
  create L input w = (Ok r, w') →
  ci_workspaceId input' = ci_workspaceId input → ci_campaignId input' = ci_campaignId input →
  create L input' w' = (res, w'') →
  files w'' = files w' ∧
  (res = Ok r ∧ (∃ i, normalize input' = Ok i ∧ definition_digest i = cr_definitionDigest r) ∨
   ∃ e, res = Err e).
Proof.
  intros Hsha Hk Hc Hws Hid Hc'.
  assert (∃ i, normalize input = Ok i ∧
    read_file L (files w') (record_path L (ci_workspaceId i) (ci_campaignId i)) = Ok (Some r))
    as (i & Hn & Hread).
  { apply create_cases in Hc as [[[e [=]] _]|(i & Hn & _ &
      [(old & Hr & _ & Hf & [[= ->]|[e [=]]])|(at_ & Hnone & Hf & [[= ->]|[e [=]]])])].
    - exists i. by rewrite Hf.
    - exists i. split; [done|]. rewrite Hf. apply read_file_insert. by eapply created_record_ok. }
  assert (ci_workspaceId i = ci_workspaceId input ∧ ci_campaignId i = ci_campaignId input)
    as [Hwi Hci] by by apply normalize_iff in Hn as [_ ->].
  rewrite Hwi, Hci, <- Hws, <- Hid in Hread.
  apply create_cases in Hc' as [[[e ->] [Hf _]]|(i' & Hn' & _ & Hcase)]; [eauto|].
  assert (ci_workspaceId i' = ci_workspaceId input' ∧ ci_campaignId i' = ci_campaignId input')
    as [Hwi' Hci'] by by apply normalize_iff in Hn' as [_ ->].
  rewrite Hwi', Hci' in Hcase.
  destruct Hcase as [(old & Hr & Hd & Hf & Hout)|(at_ & Hnone & _)].
  - rewrite Hread in Hr. injection Hr as <-. split; [done|].
    destruct Hout as [->|[e ->]]; [left|right]; eauto.
  - apply read_file_present in Hread as [v Hv]. congruence.
Qed.

Lemma for_each_refuses {A} (f : A → W unit) l x w :
  (∀ y w, ∃ r, f y w = (r, w)) → x ∈ l → (∀ w, ∃ e, f x w = (Err e, w)) →
  ∃ e, for_each f l w = (Err e, w).
Proof.
  intros Hf Hx He. induction l as [|y l IH]; [by apply not_elem_of_nil in Hx|].
  cbn. unfold mbind, io_bind. destruct (Hf y w) as [[[]|e] Hy]; rewrite Hy; [|eauto].
  apply elem_of_cons in Hx as [->|Hx]; [|by apply IH].
  destruct (He w) as [e' He']. rewrite Hy in He'. done.
Qed.

(** When some task of the campaign, present or future, has no capability that
    matches its persisted action, resource, expected state and arguments digest, a
    run throws before it claims or calls anything. *)
Theorem unbound_task_stops_run caps ws id maxSteps w rec t res w' :
  read_file L (files w) (record_path L ws id) = Ok (Some rec) → t ∈ cr_tasks rec →
  assertBinding (ct_step t) (caps (ct_id t)) = Err CAMPAIGN_BINDING_MISMATCH →
  run L caps ws id maxSteps w = (res, w') →
  (∃ e, res = Err e) ∧ files w' = files w ∧ calls w' = calls w.
Proof.
  intros Hread Ht Hb Hrun. unfold run in Hrun. unfold mbind at 1, io_bind, require in Hrun.
  destruct (_ && _); [|injection Hrun as <- <-; eauto]. cbn [mret io_ret] in Hrun.
  unfold withExclusiveRun in Hrun. rewrite lift_bind in Hrun.
  destruct (file L ws id) as [f|e] eqn:Hf; [|injection Hrun as <- <-; eauto].
  apply lease_run_spec in Hrun as [(e & -> & ? & ?)|(w0 & r0 & w1 & Hf0 & Hc0 & _ & Hm & Hf1 & Hc1 & Hr)];
    [eauto|].
  unfold mbind at 1, io_bind, requireCampaign, get in Hm. unfold mbind at 1, io_bind in Hm.
  rewrite read_run, Hf in Hm. cbn [mbind outcome_bind] in Hm.
  apply file_Ok in Hf as [_ ->]. rewrite Hf0, Hread in Hm. cbn [require_some mret io_ret] in Hm.
  unfold mbind at 1, io_bind in Hm.
  destruct (for_each_refuses (λ t, lift (assertBinding (ct_step t) (caps (ct_id t)));; mret tt)
    (cr_tasks rec) t w0) as [e He]; [|done| |].
  - intros y w2. rewrite lift_bind. destruct (assertBinding (ct_step y) (caps (ct_id y))); by eexists.
  - intros w2. rewrite lift_bind, Hb. eauto.
  - unfold preflight in Hm. rewrite He in Hm. injection Hm as <- <-.
    split; [destruct Hr as [->|?]; eauto|]. split; congruence.
Qed.

(** ** Workspace reservations *)

(** While campaign A's reservation of a workspace is on disk, a reservation by
    another campaign fails and changes nothing, and the reservation is removed only
    by a release call for campaign A itself with every task completed and
    verified. *)
Theorem reservation_is_exclusive dir key A v w :
  files w !! claim_path dir key = Some (Some v) → matches v (expected_claim key A) = true →
  (∀ B r w', needsReservation B = true → cr_campaignId B ≠ cr_campaignId A →
     reserve dir key B w = (r, w') → (∃ e, r = Err e) ∧ files w' = files w) ∧
  (∀ key' B r w', releaseCompleted dir key' B w = (r, w') →
     files w' !! claim_path dir key = Some (Some v) ∨
     cr_campaignId B = cr_campaignId A ∧ verified_complete B = true).
Proof.
  intros Hv Hm. split.
  - intros B r w' Hn Hne [[? [? _]]|(_ & _ & Hcase)]%reserve_cases; [done| |done].
    destruct Hcase as [(v' & Hv' & Hm' & _)|[Hnone _]]; [|congruence].
    rewrite Hv in Hv'. injection Hv' as <-.
    pose proof (matches_campaign _ _ _ Hm Hm') as E%(f_equal rc_campaignId). cbn in E. congruence.
  - intros key' B r w' [[Hf _]|(_ & Hvc & v' & Hv' & Hm' & Hf)]%releaseCompleted_cases;
      [left; by rewrite Hf|].
    destruct (decide (claim_path dir key' = claim_path dir key)) as [E|Hne].
    + right. rewrite E, Hv in Hv'. injection Hv' as <-. split; [|done].
      pose proof (matches_campaign _ _ _ Hm Hm') as Hc.
      by apply (f_equal rc_campaignId) in Hc.
    + left. rewrite Hf, lookup_delete_ne by done. done.
Qed.
End theorems.

(** ** The run lease *)

(** C4: Under any interleaving of the file operations of runs in many processes, with
    crashes, process identifier reuse, any clock readings and failed writes, at most one
    live run is executing the task its lock file protects, or else the history has a
    recovery that removed a lock file other than that of the run whose lease it had read
    and found exited: the one race the recovery guard leaves open is the only way two
    runs execute at once ([recovery_removes_live_lock] shows it happens). *)
Theorem lease_mutual_exclusion as_ g i j ri Ki rj Kj :
  acts as_ no_runs = Some g →
  active g i = Some (ri, Ki) → executing (ru_phase ri) = true →
  active g j = Some (rj, Kj) → executing (ru_phase rj) = true →
  i = j ∨ strays as_ no_runs = true.
Proof.
  intros Hg Hi Ei Hj Ej. destruct (strays as_ no_runs) eqn:Hst; [by right|left].
  pose proof (acts_inv _ _ _ no_runs_inv Hg Hst) as HI.
  destruct (li_owns _ HI i ri Ki Hi) as [Hh _]; [by destruct (ru_phase ri)|].
  destruct (li_owns _ HI j rj Kj Hj) as [Hh' _]; [by destruct (ru_phase rj)|]. congruence.
Qed.

(** While a live run executes its task, no action of another run removes or
    replaces its lease, however long ago the lease expired: after any action that
    leaves the run executing, the lock file still carries its owner identifier, unless a
    recovery removed a lock file that is not the one it read. *)
Theorem live_owner_keeps_lease as_ a g g' i r K r' K' :
  acts as_ no_runs = Some g → strays as_ no_runs = false → removes_other g a = false →
  active g i = Some (r, K) → executing (ru_phase r) = true →
  act a g = Some g' → runner_of a ≠ Some i → active g' i = Some (r', K') →
  r' = r ∧ ∃ l, lockfile g' = Some (Some l) ∧ le_ownerId l = le_ownerId (ru_record r).
Proof.
  intros Hg Hst Hother Hi Ei Ha Hne Hi'. pose proof (acts_inv _ _ _ no_runs_inv Hg Hst) as HI.
  pose proof (act_inv _ _ _ HI Hother Ha) as HI'.
  assert (r' = r) as ->.
  { apply active_spec in Hi as [Hi _]. apply active_spec in Hi' as [Hi' _].
    rewrite (act_others _ _ _ _ _ Ha Hne Hi) in Hi'. by injection Hi' as <-. }
  split; [done|]. destruct (li_owns _ HI' i r K' Hi') as (_ & l & Hl & Ho & _).
  - by destruct (ru_phase r).
  - eauto.
Qed.

(** ** Instances on the concrete campaign *)

Section instances.
Notation the_path := (record_path ledger workspace_id campaign_id).

(** The record at the campaign's path, for evaluation. *)
Definition record_at (w : world) : option CampaignRecord :=
  match read_file ledger (files w) the_path with Ok o => o | Err _ => None end.

Definition the_record (w : world) : CampaignRecord :=
  default (created_record ledger plan "") (record_at w).

Definition half_done : list campaign_command :=
  [Create plan; Run willing workspace_id campaign_id 1].

Lemma campaign_records_invariant_witness :
  ∃ r, read_file ledger (files (campaign_exec_all ledger half_done empty_world)) the_path
         = Ok (Some r) ∧ plan_inv (cr_tasks r).
Proof.
  exists (the_record (campaign_exec_all ledger half_done empty_world)).
  split; [vm_compute; reflexivity|].
  apply (campaign_records_invariant ledger half_done the_path _). vm_compute. reflexivity.
Defined.

Lemma campaign_history_witness :
  let w := campaign_exec_all ledger half_done empty_world in
  let w' := campaign_exec_all ledger [Run willing workspace_id campaign_id 8] w in
  map ct_state (cr_tasks (the_record w)) = [completed; pending] ∧
  map ct_state (cr_tasks (the_record w')) = [completed; completed] ∧
  tasks_progress (the_record w) (the_record w').
Proof.
  intros w w'. split; [vm_compute; reflexivity|]. split; [vm_compute; reflexivity|].
  assert (read_file ledger (files w) the_path = Ok (Some (the_record w))) as H1
    by (vm_compute; reflexivity).
  assert (read_file ledger (files w') the_path = Ok (Some (the_record w'))) as H2
    by (vm_compute; reflexivity).
  exact (proj1 (campaign_history ledger half_done _ the_path _ _ H1 H2)).
Defined.

Lemma completed_is_confirmed_witness :
  let w := campaign_exec_all ledger [Create plan] empty_world in
  let w' := (run ledger willing workspace_id campaign_id 8 w).2 in
  ∃ t, t ∈ cr_tasks (the_record w') ∧
    ((∃ r0, read_file ledger (files w) the_path = Ok (Some r0) ∧ t ∈ cr_tasks r0) ∨
     confirmed willing (length (calls w)) (calls w') (the_record w') t).
Proof.
  intros w w'.
  assert (read_file ledger (files w') the_path = Ok (Some (the_record w'))) as H1
    by (vm_compute; reflexivity).
  assert (Exists (λ t, ct_state t = completed) (cr_tasks (the_record w'))) as Hex
    by (vm_compute; constructor; reflexivity).
  apply Exists_exists in Hex as (t & Ht & Hs). exists t. split; [exact Ht|].
  exact (completed_is_confirmed ledger [Create plan] willing workspace_id campaign_id 8 the_path
    (the_record w') t H1 Ht Hs).
Defined.

Lemma persisted_record_roundtrip_witness :
  let r := the_record finished in
  parsePersisted (json_of_record r) (ownerScopeHash ledger) = Ok r.
Proof.
  intros r.
  assert (parsePersisted (json_of_record r) (ownerScopeHash ledger) = Ok r) as H1
    by (vm_compute; reflexivity).
  exact (proj2 (persisted_record_roundtrip _ _ _ H1)).
Defined.

Lemma scenario_sha_hex s : SHA256 (sha256 s) = true.
Proof. apply scenario_digest. Qed.

Lemma create_campaign_idempotent_witness :
  (create ledger plan empty_world).1 = Ok (the_record created) ∧
  files (create ledger plan created).2 = files created.
Proof.
  split; [vm_compute; reflexivity|].
  assert (create ledger plan empty_world = (Ok (the_record created), created)) as H1.
  { apply injective_projections; [vm_compute; reflexivity|].
    cbn [snd]. unfold created at 1. reflexivity. }
  apply (create_campaign_idempotent ledger plan empty_world _ _ plan _ _ scenario_sha_hex eq_refl
    H1 eq_refl eq_refl (surjective_pairing _)).
Defined.

Lemma unbound_task_stops_run_witness :
  ∃ e, (run ledger (λ _, None) workspace_id campaign_id 8 created).1 = Err e.
Proof.
  assert (read_file ledger (files created) the_path = Ok (Some (the_record created))) as H1
    by (vm_compute; reflexivity).
  assert (∃ t, t ∈ cr_tasks (the_record created)) as [t Ht].
  { destruct (cr_tasks (the_record created)) as [|t l] eqn:E.
    - exfalso. revert E. vm_compute. discriminate.
    - exists t. left. }
  exact (proj1 (unbound_task_stops_run ledger (λ _, None) workspace_id campaign_id 8 created
    _ t _ _ H1 Ht eq_refl (surjective_pairing _))).
Defined.

Definition claims_dir : string := "/state/delegated-campaign-resource-claims".
Definition reserved : world := Eval vm_compute in (reserve claims_dir "/srv/repo" (the_record created) created).2.

(** The record of another campaign on the same workspace. *)
Definition rival : CampaignRecord := {|
  cr_campaignId := "22222222-2222-4222-8222-222222222222"; cr_workspaceId := workspace_id;
  cr_ownerScopeHash := hash "owner"; cr_definitionDigest := hash "rival";
  cr_objective := "other"; cr_authorizedActions := ["edit"]%string;
  cr_tasks := cr_tasks (the_record created); cr_revision := 0;
  cr_createdAt := ""; cr_updatedAt := "" |}.

Lemma reservation_is_exclusive_witness :
  (∃ e, (reserve claims_dir "/srv/repo" rival reserved).1 = Err e) ∧
  files (reserve claims_dir "/srv/repo" rival reserved).2 = files reserved.
Proof.
  assert (files reserved !! claim_path claims_dir "/srv/repo" =
    Some (Some (json_of_claim (expected_claim "/srv/repo" (the_record created))))) as H1
    by (vm_compute; reflexivity).
  destruct (reservation_is_exclusive claims_dir "/srv/repo" (the_record created) _ reserved H1
    (json_of_claim_matches _)) as [Hres _].
  apply (Hres rival _ _); [vm_compute; reflexivity|vm_compute; discriminate|].
  apply surjective_pairing.
Defined.

(** Process 0 takes the lock and exits; process 1, finding its lease expired, takes
    over; process 2 then finds that lease expired too. *)
Definition takeover : list action :=
  [Spawn 0 (worker "host-a" 41); Begin 0 0 "00000000-0000-4000-8000-000000000001" 1000;
   Open 0; WriteLease 0 true; Crash 0;
   Spawn 1 (worker "host-a" 42); Begin 1 1 "00000000-0000-4000-8000-000000000002" 200000;
   Spawn 2 (worker "host-a" 43); Begin 2 2 "00000000-0000-4000-8000-000000000003" 200000;
   Open 1; Open 2; OpenGuard 1; ReadOwner 1; CheckOwner 1 200000 false; RemoveStale 1; Reopen 1;
   WriteReplacement 1 true; DropGuard 1; OpenGuard 2; ReadOwner 2; RenewRead 1 210000]%Z.

Definition after_takeover : system := Eval vm_compute in default no_runs (acts takeover no_runs).

(** The runner [i] of a state, when it is active. *)
Definition runner_at (g : system) (i : nat) : option runner := fst <$> active g i.

Lemma takeover_reached : acts takeover no_runs = Some after_takeover.
Proof. vm_compute. reflexivity. Qed.

Lemma lease_mutual_exclusion_witness :
  ∃ r K, active after_takeover 1 = Some (r, K) ∧ executing (ru_phase r) = true ∧
    ∀ j r' K', active after_takeover j = Some (r', K') → executing (ru_phase r') = true → 1 = j.
Proof.
  assert (∃ r, active after_takeover 1 = Some (r, worker "host-a" 42) ∧
    executing (ru_phase r) = true) as (r & Hr & He).
  { eexists. split; [vm_compute; reflexivity|reflexivity]. }
  exists r, (worker "host-a" 42). split; [exact Hr|]. split; [exact He|]. intros j r' K' Hj Ej.
  destruct (lease_mutual_exclusion takeover after_takeover 1 j r _ r' K' takeover_reached
    Hr He Hj Ej) as [E|E]; [exact E|]. vm_compute in E. discriminate E.
Defined.

(** A recovery takes the lock from a live run.  Run 1 reads the lease of run 0; run 0 then
    ends, releases the lock and its process exits; run 2 takes the free lock and executes
    its task; run 1, finding the lease it read expired and its owner gone, removes the lock
    of run 2 and executes its task too. *)
Definition stale_read : list action :=
  [Spawn 0 (worker "host-a" 41); Begin 0 0 "00000000-0000-4000-8000-000000000001" 1000;
   Open 0; WriteLease 0 true;
   Spawn 1 (worker "host-a" 42); Begin 1 1 "00000000-0000-4000-8000-000000000002" 2000;
   Open 1; OpenGuard 1; ReadOwner 1;
   EndTask 0; ReleaseRead 0; ReleaseRemove 0; Crash 0;
   Spawn 2 (worker "host-a" 43); Begin 2 2 "00000000-0000-4000-8000-000000000003" 200000;
   Open 2; WriteLease 2 true;
   CheckOwner 1 200000 false; RemoveStale 1; Reopen 1; WriteReplacement 1 true; DropGuard 1]%Z.

Theorem recovery_removes_live_lock :
  ∃ g r1 K1 r2 K2, acts stale_read no_runs = Some g ∧
    active g 1 = Some (r1, K1) ∧ executing (ru_phase r1) = true ∧
    active g 2 = Some (r2, K2) ∧ executing (ru_phase r2) = true ∧
    strays stale_read no_runs = true.
Proof.
  eexists _, _, _, _, _. split; [vm_compute; reflexivity|].
  split; [vm_compute; reflexivity|]. split; [reflexivity|].
  split; [vm_compute; reflexivity|]. split; [reflexivity|]. vm_compute. reflexivity.
Qed.

(** Long after the lease of process 1 has run out, process 2 checks the owner. *)
Lemma live_owner_keeps_lease_witness :
  ∃ r K g', active after_takeover 1 = Some (r, K) ∧
    act (CheckOwner 2 999999 false) after_takeover = Some g' ∧
    ∃ l, lockfile g' = Some (Some l) ∧ (le_expiresAt l < 999999)%Z ∧
      le_ownerId l = le_ownerId (ru_record r).
Proof.
  assert (∃ r, active after_takeover 1 = Some (r, worker "host-a" 42) ∧
    executing (ru_phase r) = true) as (r & Hr & He).
  { eexists. split; [vm_compute; reflexivity|reflexivity]. }
  assert (∃ g' l, act (CheckOwner 2 999999 false) after_takeover = Some g' ∧
    lockfile g' = Some (Some l) ∧ (le_expiresAt l < 999999)%Z ∧
    active g' 1 = Some (r, worker "host-a" 42)) as (g' & l & Hg' & Hl & Hx & Hr').
  { vm_compute in Hr. injection Hr as <-. eexists _, _.
    split; [vm_compute; reflexivity|]. split; [reflexivity|]. split; reflexivity. }
  exists r, (worker "host-a" 42), g'. split; [exact Hr|]. split; [exact Hg'|].
  destruct (live_owner_keeps_lease takeover (CheckOwner 2 999999 false) after_takeover g' 1 r _ r _
    takeover_reached ltac:(vm_compute; reflexivity) ltac:(reflexivity) Hr He Hg' ltac:(discriminate) Hr') as (_ & l' & Hl' & Ho).
  exists l. rewrite Hl in Hl'. injection Hl' as El. rewrite El in *.
  split; [exact Hl|]. split; [exact Hx|exact Ho].
Defined.

(** ** Plans and proofs that make a record unreadable *)

(** The plan of the scenario with its properties written in another order. *)
Definition reordered : DelegatedCampaignInput := {|
  ci_campaignId := ci_campaignId plan; ci_workspaceId := ci_workspaceId plan;
  ci_objective := ci_objective plan; ci_authorizedActions := ci_authorizedActions plan;
  ci_tasks := ci_tasks plan;
  ci_keys := ["workspaceId"; "campaignId"; "objective"; "authorizedActions"; "tasks"]%string |}.

(** [create] hashes the properties of the plan in the caller's order and
    [parsePersisted] in its own: a plan given in another order is accepted and
    written, and can never be read again. *)
Lemma reordered_plan_is_unreadable :
  (∃ r, (create ledger reordered empty_world).1 = Ok r) ∧
  (get ledger workspace_id campaign_id (create ledger reordered empty_world).2).1
    = Err CAMPAIGN_INVALID.
Proof. split; [eexists|]; vm_compute; reflexivity. Qed.

Definition claimed_first : world := Eval vm_compute in (claimNext ledger workspace_id campaign_id created).2.
Definition first_operation : string :=
  default "" (List.find (λ t, bool_decide (ct_state t = in_flight))
    (cr_tasks (the_record claimed_first)) ≫= ct_operationId).

(** [transition] checks the bounds of a proof only where a proof is required: a
    verified proof with an empty reference is accepted for a failed task, written,
    and refused by every later read. *)
Lemma unbounded_proof_is_unreadable :
  let failed_ := transition ledger workspace_id campaign_id "edit-file" first_operation to_failed
    (Some {| pf_kind := "verified"; pf_reference := "" |}) claimed_first in
  (∃ r, failed_.1 = Ok r) ∧
  (get ledger workspace_id campaign_id failed_.2).1 = Err CAMPAIGN_INVALID.
Proof. split; [eexists|]; vm_compute; reflexivity. Qed.
End instances.
