(* ===== verification/JsMap.v ===== *)
(** * JsMap: a JavaScript [Map] with string keys

    The entries in insertion order: [set] replaces the value of a key in place or
    appends a new entry, [delete] removes an entry.  A loop over the map that deletes
    the entry it is at visits every entry once: [filter_entries]. *)

From S2P Require Import Prelude.

Section jsmap.
Context {V : Type}.

Definition jsmap : Type := list (string * V).
Implicit Types (m : jsmap) (k : string) (v : V).

Definition has_key k (e : string * V) : bool := bool_decide (e.1 = k).

Definition jget k m : option V := snd <$> List.find (has_key k) m.

#[local] Arguments jget : simpl never.

Definition jset k v m : jsmap :=
  if existsb (has_key k) m then update_where (has_key k) (λ _, (k, v)) m else m ++ [(k, v)].

Definition filter_entries (p : string → V → bool) m : jsmap := List.filter (λ e, p e.1 e.2) m.

Definition jdelete k m : jsmap := filter_entries (λ k' _, negb (bool_decide (k' = k))) m.

(** Keys are unique. *)
Definition jsmap_ok m : Prop := NoDup (map fst m).

Lemma jget_cons k k' v m : jget k ((k', v) :: m) = if bool_decide (k' = k) then Some v else jget k m.
Proof. unfold jget, has_key. cbn. by case_bool_decide. Qed.

Lemma jget_elem k v m : jsmap_ok m → jget k m = Some v ↔ (k, v) ∈ m.
Proof.
  unfold jsmap_ok. induction m as [|[k' v'] m IH]; cbn; [by split; [|intros ?%not_elem_of_nil]|].
  rewrite NoDup_cons, jget_cons, elem_of_cons. intros [Hn Hd]. case_bool_decide as E; subst.
  - split; [intros [= ->]; by left|]. intros [[= ->]|Hin]; [done|]. destruct Hn.
    rewrite list_elem_of_In. apply in_map_iff. exists (k, v). by rewrite <- list_elem_of_In.
  - rewrite IH by done. naive_solver.
Qed.

Lemma jget_None k m : jget k m = None ↔ k ∉ map fst m.
Proof.
  induction m as [|[k' v'] m IH]; cbn; [by split; [intros _ ?%not_elem_of_nil|]|].
  rewrite jget_cons, elem_of_cons. case_bool_decide; naive_solver.
Qed.

Lemma existsb_has_key k m : existsb (has_key k) m = true ↔ k ∈ map fst m.
Proof.
  induction m as [|[k' v'] m IH]; cbn; [by split; [|intros ?%not_elem_of_nil]|].
  rewrite orb_true_iff, IH, elem_of_cons. unfold has_key. cbn. rewrite bool_decide_eq_true. naive_solver.
Qed.

Lemma jsmap_ok_set k v m : jsmap_ok m → jsmap_ok (jset k v m).
Proof.
  unfold jsmap_ok, jset. intros Hd. destruct (existsb _ m) eqn:He.
  - rewrite map_update_where; [done|]. intros [k' v'] _ Hk. unfold has_key in Hk. cbn in *. by bool_inv.
  - apply NoDup_key_snoc; [done|]. intros [k' v'] Hin E. cbn in E. subst. apply not_true_iff_false in He.
    apply He, existsb_has_key. rewrite list_elem_of_In. apply in_map_iff. exists (k, v').
    by rewrite <- list_elem_of_In.
Qed.

Lemma jsmap_ok_filter p m : jsmap_ok m → jsmap_ok (filter_entries p m).
Proof. apply NoDup_key_filter. Qed.

Lemma jget_set k v k' m : jget k' (jset k v m) = if decide (k' = k) then Some v else jget k' m.
Proof.
  unfold jset. destruct (existsb (has_key k) m) eqn:He.
  - apply existsb_has_key in He. unfold update_where.
    induction m as [|[k1 v1] m IH]; cbn in *; [by apply not_elem_of_nil in He|].
    unfold has_key at 1. cbn. case_bool_decide as E1; subst.
    + rewrite !jget_cons. case_decide as E; subst; [by rewrite bool_decide_true|].
      rewrite bool_decide_false by congruence. clear -E. induction m as [|[k1 v2] m IH]; [done|]. cbn.
      unfold has_key at 1. cbn. case_bool_decide; subst; rewrite !jget_cons; [|by rewrite IH].
      by rewrite IH, bool_decide_false by congruence.
    + rewrite !jget_cons. apply elem_of_cons in He as [?|He]; [congruence|]. rewrite IH by done.
      repeat case_decide; repeat case_bool_decide; congruence.
  - apply not_true_iff_false in He. rewrite existsb_has_key in He.
    induction m as [|[k1 v1] m IH]; cbn.
    + rewrite jget_cons. by case_bool_decide; case_decide; congruence.
    + rewrite !jget_cons. cbn in He. rewrite elem_of_cons in He. rewrite IH by naive_solver.
      repeat case_decide; repeat case_bool_decide; naive_solver.
Qed.

Lemma jget_filter p k m :
  jsmap_ok m → jget k (filter_entries p m) = v ← jget k m; guard (p k v = true);; Some v.
Proof.
  unfold jsmap_ok, filter_entries. induction m as [|[k' v'] m IH]; cbn; [done|].
  rewrite NoDup_cons. intros [Hn Hd]. rewrite jget_cons. case_bool_decide as E; subst.
  - destruct (p k v') eqn:Hp; cbn.
    + rewrite jget_cons, bool_decide_true by done. by rewrite option_guard_True.
    + rewrite IH by done. rewrite (proj2 (jget_None k m)) by done. cbn.
      by rewrite option_guard_False by congruence.
  - destruct (p k' v'); [rewrite jget_cons, bool_decide_false by done|]; by apply IH.
Qed.

Lemma jget_filter_Some p k m v :
  jsmap_ok m → jget k (filter_entries p m) = Some v ↔ jget k m = Some v ∧ p k v = true.
Proof.
  intros Hm. rewrite jget_filter by done. destruct (jget k m) as [w|]; cbn; [|naive_solver].
  case_guard; naive_solver.
Qed.

(** An update of every value keeps the keys. *)
Lemma jget_map (f : string * V → V) k m :
  jget k (map (λ x, (x.1, f x)) m) = (λ v, f (k, v)) <$> jget k m.
Proof.
  induction m as [|[k' v] m IH]; cbn; [done|]. rewrite !jget_cons, IH. by case_bool_decide; subst.
Qed.

Lemma jsmap_ok_map (f : string * V → V) m : jsmap_ok m → jsmap_ok (map (λ x, (x.1, f x)) m).
Proof. unfold jsmap_ok. by rewrite map_map. Qed.

Lemma jget_delete k k' m :
  jsmap_ok m → jget k' (jdelete k m) = if decide (k' = k) then None else jget k' m.
Proof.
  intros Hm. unfold jdelete. rewrite jget_filter by done. case_decide as E; destruct (jget k' m); try done; cbn.
  - rewrite option_guard_False; [done|]. by rewrite bool_decide_true.
  - rewrite option_guard_True; [done|]. by rewrite bool_decide_false.
Qed.

Lemma jset_length k v m :
  length (jset k v m) = if existsb (has_key k) m then length m else S (length m).
Proof.
  unfold jset. destruct (existsb _ _); [apply length_update_where|]. rewrite length_app. cbn. lia.
Qed.
Lemma filter_entries_length p m : length (filter_entries p m) ≤ length m.
Proof. apply filter_length_le. Qed.
End jsmap.
Arguments jsmap : clear implicits.
#[global] Arguments jget {V} k m : simpl never.
#[global] Arguments jset {V} k v m : simpl never.
#[global] Arguments filter_entries {V} p m : simpl never.
