(* ===== verification/BrowserTasks.v ===== *)
(** * BrowserTasks: the registry of browser tasks

    services/browser-worker/domain/browser-task-registry.ts.  A task groups the
    browser tabs of one owner; it is active or suspended until it is finished or it
    expires.  The registry keeps the tasks, the task of each tab and the number of
    operations that hold a lease on each task.

    A [Map] with insertion order is the list of its values; an ISO time stamp is the
    instant it denotes, in milliseconds.  Methods return copies ([cloneTask]), so a
    returned task is a value; where the source updates a copy it got back, no stored
    task changes here either. *)

From S2P Require Import Prelude Text.

(** What the browser worker takes from its runtime: [sha256], the [n]-th UUID and
    the [n]-th reading of the clock. *)
Class BrowserHost := {
  browser_sha256 : string → string;
  browser_uuid : nat → string;
  Date_now : nat → Z;
}.

(** Codes of the [AppError]s thrown by the registries of the worker. *)
Inductive browser_error :=
| TASK_NOT_FOUND
| TASK_OWNERSHIP_MISMATCH
| TASK_EXPIRED
| TASK_SUSPENDED
| TASK_SCOPE_REQUIRED
| SITE_ACCESS_AUTHORIZATION_REQUIRED
| SITE_ACCESS_GRANT_EXPIRED
| IDEMPOTENCY_KEY_CONFLICT
| LIMIT_EXCEEDED
| ZodError.
#[global] Instance browser_error_eq_dec : EqDecision browser_error.
Proof. solve_decision. Defined.

Inductive BrowserTaskState := active | suspended | finishing | finished | expired.
#[global] Instance BrowserTaskState_eq_dec : EqDecision BrowserTaskState.
Proof. solve_decision. Defined.

Record BrowserTask := {
  bt_taskId : string;
  bt_ownerScopeHash : string;
  bt_state : BrowserTaskState;
  bt_tabIds : list string;
  bt_createdAt : Z;
  bt_lastActivityAt : Z;
  bt_expiresAt : Z;
}.
#[global] Instance BrowserTask_eq_dec : EqDecision BrowserTask.
Proof. solve_decision. Defined.

Definition bounded_id (s : string) : bool := (1 <=? String.length s) && (String.length s <=? 128).

(** [browserTaskSchema]: the bounds; the time stamps are instants already. *)
Definition browserTaskSchema (t : BrowserTask) : bool :=
  bounded_id (bt_taskId t) && bounded_id (bt_ownerScopeHash t) &&
  forallb bounded_id (bt_tabIds t) && (length (bt_tabIds t) <=? 500).

Definition isAccessibleState (s : BrowserTaskState) : bool :=
  bool_decide (s = active) || bool_decide (s = suspended).

Definition DEFAULT_OWNER_SCOPE : string := "legacy-local".
Definition DEFAULT_TASK_TTL_MS : Z := 10 * 60 * 1000.

(** The optional [ownerScope] of an optional [OperationContext]. *)
Definition context := option (option string).
Definition ownerScope (c : context) : string :=
  match c with Some (Some s) => s | _ => DEFAULT_OWNER_SCOPE end.

(** The registry; [tr_draws] counts the values drawn from the runtime. *)
Record BrowserTaskRegistry := {
  tr_tasks : list BrowserTask;
  tr_taskByTab : gmap string string;
  tr_activeLeases : gmap string nat;
  tr_ttlMs : Z;
  tr_draws : nat;
}.

Definition on_tasks (f : list BrowserTask → list BrowserTask) (s : BrowserTaskRegistry) :=
  {| tr_tasks := f (tr_tasks s); tr_taskByTab := tr_taskByTab s;
     tr_activeLeases := tr_activeLeases s; tr_ttlMs := tr_ttlMs s; tr_draws := tr_draws s |}.
Definition on_tabs (f : gmap string string → gmap string string) (s : BrowserTaskRegistry) :=
  {| tr_tasks := tr_tasks s; tr_taskByTab := f (tr_taskByTab s);
     tr_activeLeases := tr_activeLeases s; tr_ttlMs := tr_ttlMs s; tr_draws := tr_draws s |}.
Definition on_leases (f : gmap string nat → gmap string nat) (s : BrowserTaskRegistry) :=
  {| tr_tasks := tr_tasks s; tr_taskByTab := tr_taskByTab s;
     tr_activeLeases := f (tr_activeLeases s); tr_ttlMs := tr_ttlMs s; tr_draws := tr_draws s |}.
Definition tr_drawn (s : BrowserTaskRegistry) :=
  {| tr_tasks := tr_tasks s; tr_taskByTab := tr_taskByTab s;
     tr_activeLeases := tr_activeLeases s; tr_ttlMs := tr_ttlMs s; tr_draws := S (tr_draws s) |}.

Definition B := io BrowserTaskRegistry browser_error.

Definition has_id (id : string) (t : BrowserTask) : bool := bool_decide (bt_taskId t = id).

(** [this.tasks.get(taskId)] *)
Definition find_task (id : string) (s : BrowserTaskRegistry) : option BrowserTask :=
  List.find (has_id id) (tr_tasks s).

(** [this.tasks.set(taskId, t)]: in place when the key exists. *)
Definition set_task_entry (t : BrowserTask) (l : list BrowserTask) : list BrowserTask :=
  if existsb (has_id (bt_taskId t)) l
  then update_where (has_id (bt_taskId t)) (λ _, t) l else l ++ [t].

Definition with_state (st : BrowserTaskState) (t : BrowserTask) : BrowserTask :=
  {| bt_taskId := bt_taskId t; bt_ownerScopeHash := bt_ownerScopeHash t; bt_state := st;
     bt_tabIds := bt_tabIds t; bt_createdAt := bt_createdAt t;
     bt_lastActivityAt := bt_lastActivityAt t; bt_expiresAt := bt_expiresAt t |}.
Definition with_tabs (tabs : list string) (t : BrowserTask) : BrowserTask :=
  {| bt_taskId := bt_taskId t; bt_ownerScopeHash := bt_ownerScopeHash t; bt_state := bt_state t;
     bt_tabIds := tabs; bt_createdAt := bt_createdAt t;
     bt_lastActivityAt := bt_lastActivityAt t; bt_expiresAt := bt_expiresAt t |}.
Definition with_times (activity expires : Z) (t : BrowserTask) : BrowserTask :=
  {| bt_taskId := bt_taskId t; bt_ownerScopeHash := bt_ownerScopeHash t; bt_state := bt_state t;
     bt_tabIds := bt_tabIds t; bt_createdAt := bt_createdAt t;
     bt_lastActivityAt := activity; bt_expiresAt := expires |}.

Section tasks.
Context `{BrowserHost}.

Definition hashOwnerScope (value : string) : string := browser_sha256 value.

Definition draw_value {A} (g : nat → A) : B A :=
  n ← gets tr_draws; modify tr_drawn;; mret (g n).

(** ** Construction and reading *)

(** The loop of the constructor over the persisted tasks. *)
Definition load_task (s : BrowserTaskRegistry) (t : BrowserTask) :
    outcome browser_error BrowserTaskRegistry :=
  check ZodError (browserTaskSchema t);;
  Ok (on_tabs (λ m, foldl (λ m tab,
         match m !! tab with Some _ => m | None => <[tab := bt_taskId t]> m end) m (bt_tabIds t))
       (on_tasks (set_task_entry t) s)).

Definition new_BrowserTaskRegistry (initialTasks : list BrowserTask) (ttlMs : Z) :
    outcome browser_error BrowserTaskRegistry :=
  fold_outcome load_task
    {| tr_tasks := []; tr_taskByTab := ∅; tr_activeLeases := ∅; tr_ttlMs := ttlMs;
       tr_draws := 0 |} initialTasks.

Definition snapshot (s : BrowserTaskRegistry) : list BrowserTask := tr_tasks s.

Definition taskIdForTab (tab : string) (s : BrowserTaskRegistry) : option string :=
  tr_taskByTab s !! tab.

(** [if (!taskId)]: an empty identifier counts as missing. *)
Definition nonempty (o : option string) : option string :=
  match o with Some ""%string => None | _ => o end.

Definition taskForTab (tab : string) (s : BrowserTaskRegistry) : option BrowserTask :=
  id ← nonempty (tr_taskByTab s !! tab); find_task id s.

Definition accessibleTasks (c : context) (includeTerminal : bool) (s : BrowserTaskRegistry) :
    list BrowserTask :=
  List.filter (λ t, includeTerminal || isAccessibleState (bt_state t))
    (List.filter (λ t, bool_decide (bt_ownerScopeHash t = hashOwnerScope (ownerScope c)))
       (tr_tasks s)).

Definition leaseCount (id : string) (s : BrowserTaskRegistry) : nat :=
  default 0 (tr_activeLeases s !! id).

Definition expiredCandidates (now : Z) (s : BrowserTaskRegistry) : list BrowserTask :=
  List.filter (λ t, isAccessibleState (bt_state t) && (leaseCount (bt_taskId t) s =? 0) &&
                    (bt_expiresAt t <=? now)%Z) (tr_tasks s).

(** ** Private helpers *)

Definition touched (now ttl : Z) (extendExpiry : bool) (t : BrowserTask) : BrowserTask :=
  with_times now (if extendExpiry then (now + ttl)%Z else bt_expiresAt t) t.

(** Update of the stored object [task] and a copy of it. *)
Definition store (task : BrowserTask) : B BrowserTask :=
  modify (on_tasks (update_where (has_id (bt_taskId task)) (λ _, task)));; mret task.

Definition touchTask (task : BrowserTask) (extendExpiry : bool) : B BrowserTask :=
  now ← draw_value Date_now;
  ttl ← gets tr_ttlMs;
  store (touched now ttl extendExpiry task).

Definition resume (task : BrowserTask) : B BrowserTask := touchTask (with_state active task) true.

Definition requireOwnedTask (taskId ownerHash : string) (includeFinished resumeSuspended : bool) :
    B BrowserTask :=
  found ← gets (find_task taskId);
  task ← require_some found TASK_NOT_FOUND;
  require (bool_decide (bt_ownerScopeHash task = ownerHash)) TASK_OWNERSHIP_MISMATCH;;
  require (negb (bool_decide (bt_state task = expired))) TASK_EXPIRED;;
  require (negb (bool_decide (bt_state task = finished) && negb includeFinished)) TASK_NOT_FOUND;;
  require (negb (bool_decide (bt_state task = finishing))) TASK_SUSPENDED;;
  if resumeSuspended && bool_decide (bt_state task = suspended)
  then resume task else mret task.

(** The stored task, after a call that found it. *)
Definition stored_task (taskId : string) : B BrowserTask :=
  found ← gets (find_task taskId); require_some found TASK_NOT_FOUND.

(** ** Public operations *)

Definition create_task (c : context) : B BrowserTask :=
  now ← draw_value Date_now;
  uuid ← draw_value browser_uuid;
  ttl ← gets tr_ttlMs;
  let task := {| bt_taskId := "task-" +:+ uuid;
                 bt_ownerScopeHash := hashOwnerScope (ownerScope c); bt_state := active;
                 bt_tabIds := []; bt_createdAt := now; bt_lastActivityAt := now;
                 bt_expiresAt := (now + ttl)%Z |} in
  require (browserTaskSchema task) ZodError;;
  modify (on_tasks (set_task_entry task));;
  mret task.

Definition resolveForOpen (taskId : option string) (c : context) : B BrowserTask :=
  let ownerHash := hashOwnerScope (ownerScope c) in
  match nonempty taskId with
  | Some id => requireOwnedTask id ownerHash false true
  | None =>
      accessible ← gets (accessibleTasks c false);
      match accessible with
      | [] => create_task c
      | [task] => resume task
      | _ => throw TASK_SCOPE_REQUIRED
      end
  end.

Definition resolveScoped (taskId : option string) (c : context) (includeFinished : bool) :
    B BrowserTask :=
  let ownerHash := hashOwnerScope (ownerScope c) in
  match nonempty taskId with
  | Some id => requireOwnedTask id ownerHash includeFinished true
  | None =>
      accessible ← gets (λ s, List.filter (λ t,
        bool_decide (bt_ownerScopeHash t = ownerHash) &&
        (isAccessibleState (bt_state t) ||
         (includeFinished && bool_decide (bt_state t = finished)))) (tr_tasks s));
      match accessible with
      | [] => throw TASK_NOT_FOUND
      | [task] => if isAccessibleState (bt_state task) then resume task else mret task
      | _ => throw TASK_SCOPE_REQUIRED
      end
  end.

Definition assertTabAccess (tab : string) (c : context) : B BrowserTask :=
  found ← gets (taskIdForTab tab);
  id ← require_some (nonempty found) TASK_NOT_FOUND;
  requireOwnedTask id (hashOwnerScope (ownerScope c)) false true.

(** [if (currentTaskId && currentTaskId !== taskId) throw] *)
Definition require_free_tab (tab taskId : string) : B unit :=
  current ← gets (taskIdForTab tab);
  require match nonempty current with
          | Some id => bool_decide (id = taskId)
          | None => true
          end TASK_OWNERSHIP_MISMATCH.

Definition add_tab (tab : string) (t : BrowserTask) : BrowserTask :=
  if bool_decide (tab ∈ bt_tabIds t) then t else with_tabs (bt_tabIds t ++ [tab]) t.

Definition attachTab (taskId tab : string) (c : context) : B BrowserTask :=
  requireOwnedTask taskId (hashOwnerScope (ownerScope c)) false true;;
  task ← stored_task taskId;
  require_free_tab tab (bt_taskId task);;
  task ← store (add_tab tab task);
  modify (on_tabs <[tab := bt_taskId task]>);;
  touchTask task true.

Definition attachExistingTab (taskId tab : string) : B BrowserTask :=
  task ← stored_task taskId;
  require_free_tab tab taskId;;
  task ← store (add_tab tab task);
  modify (on_tabs <[tab := taskId]>);;
  mret task.

Definition detachTab (tab : string) : B unit :=
  found ← gets (taskIdForTab tab);
  match nonempty found with
  | None => mret tt
  | Some id =>
      modify (on_tabs (delete tab));;
      task ← gets (find_task id);
      match task with
      | None => mret tt
      | Some task =>
          touchTask (with_tabs (List.filter (λ x, negb (bool_decide (x = tab))) (bt_tabIds task)) task)
            true;; mret tt
      end
  end.

(** The task [requireOwnedTask] returned is a copy: touching it stores nothing. *)
Definition acquireForTask (taskId : string) (c : context) : B string :=
  task ← requireOwnedTask taskId (hashOwnerScope (ownerScope c)) false true;
  modify (on_leases (λ m, <[bt_taskId task := S (default 0 (m !! bt_taskId task))]> m));;
  draw_value Date_now;;
  mret (bt_taskId task).

(** [release] of a lease, which the caller's closure runs once. *)
Definition release (taskId : string) : B unit :=
  modify (on_leases (λ m,
    let remaining := default 1 (m !! taskId) - 1 in
    if remaining =? 0 then delete taskId m else <[taskId := remaining]> m));;
  current ← gets (find_task taskId);
  match current with
  | Some t => if isAccessibleState (bt_state t) then touchTask t true;; mret tt else mret tt
  | None => mret tt
  end.

Definition acquireForTab (tab : string) (c : context) : B string :=
  task ← assertTabAccess tab c;
  acquireForTask (bt_taskId task) c.

Definition beginFinish (taskId : string) (c : context) : B BrowserTask :=
  requireOwnedTask taskId (hashOwnerScope (ownerScope c)) true false;;
  task ← stored_task taskId;
  if bool_decide (bt_state task = finished) then mret task else
  require (negb (bool_decide (bt_state task = expired))) TASK_EXPIRED;;
  touchTask (with_state finishing task) false.

(** The common tail of [completeFinish] and [markExpired]. *)
Definition close_task (taskId : string) (st : BrowserTaskState) : B BrowserTask :=
  task ← stored_task taskId;
  modify (on_tabs (λ m, foldl (λ m tab, delete tab m) m (bt_tabIds task)));;
  now ← draw_value Date_now;
  store (with_times now now (with_tabs [] (with_state st task))).

Definition completeFinish (taskId : string) : B BrowserTask := close_task taskId finished.
Definition markExpired (taskId : string) : B BrowserTask := close_task taskId expired.

Definition beginExpiration (taskId : string) (now : Z) : B (option BrowserTask) :=
  s ← gets id;
  match find_task taskId s with
  | Some task =>
      if negb (isAccessibleState (bt_state task)) || (0 <? leaseCount taskId s) ||
         (now <? bt_expiresAt task)%Z
      then mret None else
      task ← store (with_state finishing task); mret (Some task)
  | None => mret None
  end.

Definition restoreAfterFailedFinalization (taskId : string) : B (option BrowserTask) :=
  found ← gets (find_task taskId);
  match found with
  | Some task =>
      if negb (bool_decide (bt_state task = finishing)) then mret None else
      task ← touchTask (with_state active task) true; mret (Some task)
  | None => mret None
  end.
End tasks.

Lemma nonempty_Some (id : string) : id ≠ ""%string → nonempty (Some id) = Some id.
Proof. by destruct id. Qed.
