(* ===== verification/BrowserTaskProps.v ===== *)
(** * BrowserTaskProps: what the operations of the task registry do to its state

    Every operation of [BrowserTasks] is a sequence of elementary changes: a value
    drawn from the runtime, a new task, an update of one stored task together with
    its entries in the tab index, an update of the leases of one task.  The relation
    [change] collects them, tagged with the owner scope the operation runs for.  The
    consistency of the registry, the isolation of owners and the permanence of
    closed tasks are proved once per elementary change. *)

From S2P Require Import Prelude Text BrowserTasks.

(** Finished and expired tasks: no operation opens them again. *)
Definition settled (t : BrowserTask) : Prop := bt_state t = finished ∨ bt_state t = expired.

Lemma accessible_not_settled t : isAccessibleState (bt_state t) = true → ¬ settled t.
Proof. unfold settled. destruct (bt_state t); cbn; naive_solver. Qed.

Section props.
Context `{BrowserHost}.
Implicit Types (s : BrowserTaskRegistry) (t : BrowserTask) (who : option string).

Definition new_id (n : nat) : string := "task-" +:+ browser_uuid n.

(** The tab index and the tab lists of the tasks say the same; identifiers are
    unique, not empty, and none is the one a later task will get. *)
Record registry_inv s : Prop := {
  inv_ids : NoDup (map bt_taskId (tr_tasks s));
  inv_nonempty : ∀ id t, find_task id s = Some t → id ≠ ""%string;
  inv_tabs : ∀ tab id, tr_taskByTab s !! tab = Some id ↔
               ∃ t, find_task id s = Some t ∧ tab ∈ bt_tabIds t;
  inv_fresh : ∀ id t n, find_task id s = Some t → tr_draws s ≤ n → id ≠ new_id n;
}.

Lemma find_task_id id s t : find_task id s = Some t → bt_taskId t = id.
Proof. intros [_ Hid]%find_Some_elem. unfold has_id in Hid. by bool_inv. Qed.

Lemma find_task_in id s t : find_task id s = Some t → t ∈ tr_tasks s.
Proof. by intros [? _]%find_Some_elem. Qed.

Lemma find_task_elem s t :
  NoDup (map bt_taskId (tr_tasks s)) → t ∈ tr_tasks s → find_task (bt_taskId t) s = Some t.
Proof.
  intros Hd Ht. destruct (find_is_Some (has_id (bt_taskId t)) _ _ Ht) as [t' Hf].
  { by apply bool_decide_eq_true. }
  unfold find_task. rewrite Hf. f_equal. pose proof Hf as [Ht' _]%find_Some_elem.
  eapply NoDup_key_inj; [done..|]. by apply (find_task_id _ s).
Qed.

(** ** One stored task changes *)

Definition put_task t (m : gmap string string) s : BrowserTaskRegistry :=
  on_tabs (λ _, m) (on_tasks (update_where (has_id (bt_taskId t)) (λ _, t)) s).

Lemma find_update_same t t' l :
  List.find (has_id (bt_taskId t')) l = Some t →
  List.find (has_id (bt_taskId t')) (update_where (has_id (bt_taskId t')) (λ _, t') l) = Some t'.
Proof.
  unfold update_where. induction l as [|x l IH]; cbn; [done|].
  destruct (has_id (bt_taskId t') x) eqn:Hx.
  - intros _. unfold has_id at 1. by rewrite bool_decide_true.
  - rewrite Hx. exact IH.
Qed.

Lemma find_update_other id t' l :
  id ≠ bt_taskId t' →
  List.find (has_id id) (update_where (has_id (bt_taskId t')) (λ _, t') l) =
  List.find (has_id id) l.
Proof.
  intros Hn. unfold update_where. induction l as [|x l IH]; cbn; [done|].
  destruct (has_id (bt_taskId t') x) eqn:Hx; [|by rewrite IH].
  unfold has_id in Hx. bool_inv. unfold has_id at 1 4.
  rewrite !bool_decide_false by congruence. exact IH.
Qed.

Lemma find_put_task t t' m s id :
  find_task (bt_taskId t') s = Some t →
  find_task id (put_task t' m s) =
  if decide (id = bt_taskId t') then Some t' else find_task id s.
Proof.
  intros Hf. destruct (decide (id = bt_taskId t')) as [->|Hn].
  - by apply find_update_same with t.
  - by apply find_update_other.
Qed.

Lemma find_new_task t s id :
  find_task (bt_taskId t) s = None →
  find_task id (on_tasks (λ l, l ++ [t]) s) =
  if decide (id = bt_taskId t) then Some t else find_task id s.
Proof.
  unfold find_task. cbn. induction (tr_tasks s) as [|x l IH]; cbn.
  - intros _. unfold has_id. by case_bool_decide; case_decide; congruence.
  - destruct (has_id (bt_taskId t) x) eqn:Hx; [done|]. intros Hf.
    destruct (has_id id x) eqn:Hi; [|by apply IH]. unfold has_id in Hx, Hi. bool_inv.
    by rewrite decide_False by congruence.
Qed.

(** The index after the tab list of the task [id] went from [old] to [new]. *)
Definition reindexed (id : string) (old new : list string) (m m' : gmap string string) : Prop :=
  ∀ tab, m' !! tab = if decide (tab ∈ new) then Some id
                     else if decide (tab ∈ old) then None else m !! tab.

Definition owned who t : Prop := ∀ h, who = Some h → bt_ownerScopeHash t = h.

(** The elementary changes. *)
Inductive change who s : BrowserTaskRegistry → Prop :=
| change_drawn : change who s (tr_drawn s)
| change_new t :
    find_task (bt_taskId t) s = None → bt_taskId t ≠ ""%string →
    (∀ n, tr_draws s ≤ n → bt_taskId t ≠ new_id n) →
    bt_tabIds t = [] → owned who t → ¬ settled t →
    change who s (on_tasks (λ l, l ++ [t]) s)
| change_task t t' m' :
    find_task (bt_taskId t) s = Some t → bt_taskId t' = bt_taskId t →
    bt_ownerScopeHash t' = bt_ownerScopeHash t → owned who t → (settled t → settled t') →
    reindexed (bt_taskId t) (bt_tabIds t) (bt_tabIds t') (tr_taskByTab s) m' →
    (∀ tab, tab ∈ bt_tabIds t' →
       tr_taskByTab s !! tab = None ∨ tr_taskByTab s !! tab = Some (bt_taskId t)) →
    change who s (put_task t' m' s)
| change_leases id f :
    (∀ h, who = Some h → ∃ t, find_task id s = Some t ∧ bt_ownerScopeHash t = h) →
    (∀ m id', id' ≠ id → (f m : gmap string nat) !! id' = m !! id') →
    change who s (on_leases f s).

(** ** What an elementary change keeps *)

Lemma change_inv who s s' : change who s s' → registry_inv s → registry_inv s'.
Proof.
  intros [|t Hf Hne Hfr Htabs _ _|t t' m' Hf Hid Ho _ _ Hm Hfree|id f _ _] I; destruct I as [I1 I2 I3 I4].
  - constructor; [exact I1|exact I2|exact I3|]. intros id t n Hf Hn. apply (I4 id t n Hf).
    cbn in Hn. lia.
  - constructor.
    + cbn. apply NoDup_key_snoc; [done|]. intros r Hr Heq.
      apply (find_None_elem _ _ _ Hf) in Hr. unfold has_id in Hr. by bool_inv.
    + intros id u. rewrite find_new_task by done. case_decide; [congruence|apply I2].
    + intros tab id. rewrite I3, find_new_task by done. case_decide as E; [subst|done].
      rewrite Hf. split; [naive_solver|]. intros (? & [= <-] & Hin). rewrite Htabs in Hin.
      by apply not_elem_of_nil in Hin.
    + intros id u n. rewrite find_new_task by done. case_decide as E; [subst|apply I4].
      intros _. apply Hfr.
  - pose proof Hf as Hf'. rewrite <- Hid in Hf'. constructor.
    + cbn. rewrite map_update_where; [done|]. intros r _ Hr. unfold has_id in Hr. by bool_inv.
    + intros id u. rewrite (find_put_task t) by done. case_decide as E; [|apply I2].
      intros _. rewrite E. by apply (I2 _ t).
    + intros tab id. rewrite (find_put_task t) by done. cbn. rewrite Hm, Hid.
      destruct (decide (tab ∈ bt_tabIds t')) as [Hin|Hout].
      * case_decide as E; [subst; naive_solver|]. split; [congruence|].
        intros Hu%I3. destruct (Hfree _ Hin); congruence.
      * destruct (decide (tab ∈ bt_tabIds t)) as [Hold|Hnew].
        -- split; [done|]. case_decide as E; [naive_solver|]. intros Hu%I3.
           assert (tr_taskByTab s !! tab = Some (bt_taskId t)) by (apply I3; eauto). congruence.
        -- rewrite I3. case_decide as E; [subst|done]. rewrite Hf. naive_solver.
    + intros id u n. rewrite (find_put_task t) by done. case_decide as E; [|apply I4].
      intros _. rewrite E. by apply (I4 _ t).
  - constructor; [exact I1|exact I2|exact I3|exact I4].
Qed.

(** A closed task stays in the registry, closed. *)
Definition closed (id : string) s : Prop := ∃ t, find_task id s = Some t ∧ settled t.

Lemma change_closed who s s' id : change who s s' → closed id s → closed id s'.
Proof.
  intros Hc (u & Hu & Hs). destruct Hc as [|t Hf|t t' m' Hf Hid _ _ Hst|].
  - by exists u.
  - exists u. rewrite find_new_task by done. case_decide; [congruence|done].
  - unfold closed. pose proof Hf as Hf'. rewrite <- Hid in Hf'.
    rewrite (find_put_task t) by done. case_decide; [|by exists u].
    exists t'. split; [done|]. apply Hst. congruence.
  - by exists u.
Qed.

(** What an owner other than the one of the operation sees of its task [id]: the
    stored task, its tabs and its leases. *)
Definition same_task (id : string) s s' : Prop :=
  find_task id s' = find_task id s ∧
  (∀ tab, tr_taskByTab s' !! tab = Some id ↔ tr_taskByTab s !! tab = Some id) ∧
  leaseCount id s' = leaseCount id s.

#[export] Instance same_task_preorder id : PreOrder (same_task id).
Proof.
  split; [by intros s|]. intros s1 s2 s3 (A1 & B1 & C1) (A2 & B2 & C2).
  split_and!; [congruence| |congruence]. intros tab. by rewrite B2.
Qed.

Lemma change_other h s s' id t :
  registry_inv s → change (Some h) s s' →
  find_task id s = Some t → bt_ownerScopeHash t ≠ h → same_task id s s'.
Proof.
  intros I Hc Ht Hn. destruct Hc as [|u Hf|u u' m' Hf Hid _ Ho _ Hm Hfree|id' f Hl Hsame].
  - done.
  - split_and!; [|done..]. rewrite find_new_task by done. case_decide; [congruence|done].
  - specialize (Ho h eq_refl). pose proof Hf as Hf'. rewrite <- Hid in Hf'.
    assert (id ≠ bt_taskId u) as Hne by (intros ->; congruence).
    split_and!; [|intros tab|done].
    + rewrite (find_put_task u) by done. by rewrite decide_False by congruence.
    + cbn. rewrite Hm. destruct (decide (tab ∈ bt_tabIds u')) as [Hin|];
        [destruct (Hfree _ Hin); naive_solver|].
      destruct (decide (tab ∈ bt_tabIds u)) as [Hold|]; [|done].
      assert (tr_taskByTab s !! tab = Some (bt_taskId u)) by (apply (inv_tabs _ I); eauto).
      naive_solver.
  - split_and!; [done..|]. unfold leaseCount. cbn. rewrite Hsame; [done|].
    intros ->. destruct (Hl h eq_refl) as (u & Hu & ?). congruence.
Qed.

(** ** Operations as sequences of elementary changes

    [does who m Q s]: from a consistent registry [s], the operation [m] makes only
    elementary changes on behalf of [who], whether it returns or throws, and [Q]
    holds of the value it returns. *)
Definition does who {A} (m : B A) (Q : A → BrowserTaskRegistry → Prop) s : Prop :=
  registry_inv s → rtc (change who) s (m s).2 ∧ ∀ a, (m s).1 = Ok a → Q a (m s).2.

Lemma changes_inv who s s' : rtc (change who) s s' → registry_inv s → registry_inv s'.
Proof. induction 1; eauto using change_inv. Qed.

Lemma changes_other h s s' id t :
  rtc (change (Some h)) s s' → registry_inv s →
  find_task id s = Some t → bt_ownerScopeHash t ≠ h → same_task id s s'.
Proof.
  induction 1 as [|s1 s2 s3 Hc _ IH]; intros I Hf Hn; [done|].
  pose proof (change_other _ _ _ _ _ I Hc Hf Hn) as Hs. etrans; [exact Hs|].
  apply IH; [by eapply change_inv| |done]. destruct Hs as [-> _]. done.
Qed.

Lemma does_ret who {A} (a : A) (Q : A → _ → Prop) s : Q a s → does who (mret a) Q s.
Proof. intros HQ _. split; [apply rtc_refl|]. by intros ? [= <-]. Qed.

Lemma does_throw who {A} e (Q : A → _ → Prop) s : does who (throw e) Q s.
Proof. split; [apply rtc_refl|done]. Qed.

Lemma does_bind who {A C} (m : B A) (k : A → B C) Q R s :
  does who m Q s → (∀ a s', Q a s' → registry_inv s' → does who (k a) R s') →
  does who (m ≫= k) R s.
Proof.
  intros Hm Hk I. destruct (Hm I) as [Hr HQ]. pose proof (changes_inv _ _ _ Hr I) as I'.
  unfold mbind, io_bind. destruct (m s) as [[a|e] s1]; cbn in *; [|by split].
  destruct (Hk a s1 (HQ a eq_refl) I' I') as [Hr' HR]. split; [by etrans|done].
Qed.

Lemma does_gets who {A C} (f : BrowserTaskRegistry → A) (k : A → B C) R s :
  does who (k (f s)) R s → does who (gets f ≫= k) R s.
Proof. done. Qed.

Lemma does_require who {C} b e (k : unit → B C) R s :
  (b = true → does who (k tt) R s) → does who (require b e ≫= k) R s.
Proof. destruct b; cbn; [by auto|intros _; apply does_throw]. Qed.

Lemma does_require_some who {A C} (o : option A) e (k : A → B C) R s :
  (∀ a, o = Some a → does who (k a) R s) → does who (require_some o e ≫= k) R s.
Proof. destruct o as [a|]; intros Hk; [exact (Hk a eq_refl)|apply does_throw]. Qed.

Lemma does_require_some_last who {A} (o : option A) e Q s :
  (∀ a, o = Some a → Q a s) → does who (require_some o e) Q s.
Proof. destruct o; intros HQ; [apply does_ret; auto|apply does_throw]. Qed.

(** Running the head of an operation. *)
Lemma does_after who {A} (m m' : B A) Q s s1 :
  m s = m' s1 → (registry_inv s → change who s s1) → does who m' Q s1 → does who m Q s.
Proof.
  intros Hm Hc Hd I. specialize (Hc I). destruct (Hd (change_inv _ _ _ Hc I)) as [Hr HQ].
  rewrite Hm. split; [by eapply rtc_l|done].
Qed.

Lemma does_weaken who {A} (m : B A) (Q Q' : A → _ → Prop) s :
  does who m Q s → (∀ a s', Q a s' → Q' a s') → does who m Q' s.
Proof. intros Hd HQ I. destruct (Hd I). naive_solver. Qed.

Lemma does_draw who {A C} (g : nat → A) (k : A → B C) R s :
  does who (k (g (tr_draws s))) R (tr_drawn s) → does who (draw_value g ≫= k) R s.
Proof. apply does_after; [done|constructor]. Qed.

(** ** Updates of one stored task *)

Lemma reindexed_same s t :
  registry_inv s → find_task (bt_taskId t) s = Some t →
  reindexed (bt_taskId t) (bt_tabIds t) (bt_tabIds t) (tr_taskByTab s) (tr_taskByTab s).
Proof.
  intros I Hf tab. destruct (decide (tab ∈ bt_tabIds t)); [|done].
  apply (inv_tabs _ I). eauto.
Qed.

(** [task] is the stored task up to its times and a state it may move to. *)
Definition revises task s : Prop :=
  ∃ t, find_task (bt_taskId task) s = Some t ∧
    bt_ownerScopeHash task = bt_ownerScopeHash t ∧ bt_tabIds task = bt_tabIds t ∧
    (settled t → settled task).

Lemma does_touchTask who task ext s :
  revises task s → owned who task →
  does who (touchTask task ext)
    (λ t' s', find_task (bt_taskId task) s' = Some t' ∧ bt_taskId t' = bt_taskId task ∧
              bt_ownerScopeHash t' = bt_ownerScopeHash task ∧ bt_state t' = bt_state task) s.
Proof.
  intros (t & Hf & Ho & Htabs & Hst) Hown. pose proof (find_task_id _ _ _ Hf) as Hid.
  apply does_draw, does_gets. set (t' := touched _ _ _ _).
  eapply (does_after who _ (mret t') _ _ (put_task t' (tr_taskByTab (tr_drawn s)) (tr_drawn s)));
    [done| |apply does_ret].
  - intros I. rewrite <- Hid in Hf.
    apply change_task with t; [done..|by intros h Hh; rewrite <- Ho; auto|exact Hst| |].
    + cbn. rewrite Htabs. by apply (reindexed_same (tr_drawn s)).
    + intros tab Htab. right. cbn in Htab. rewrite Htabs in Htab. apply (inv_tabs _ I). eauto.
  - rewrite (find_put_task t) by done. by rewrite decide_True by done.
Qed.

Lemma find_revises id s t task :
  find_task id s = Some t → bt_taskId task = bt_taskId t →
  bt_ownerScopeHash task = bt_ownerScopeHash t → bt_tabIds task = bt_tabIds t →
  (settled t → settled task) → revises task s.
Proof. intros Hf Hid ???. exists t. rewrite Hid, (find_task_id _ _ _ Hf). done. Qed.

(** A copy handed to the caller of owner scope [h]: what is stored under [id]. *)
Definition handed (h id : string) t s : Prop :=
  find_task id s = Some t ∧ bt_ownerScopeHash t = h.

Lemma does_resume h id task s :
  find_task id s = Some task → bt_ownerScopeHash task = h →
  isAccessibleState (bt_state task) = true →
  does (Some h) (resume task) (λ t s', handed h id t s' ∧ ¬ settled t) s.
Proof.
  intros Hf Ho Hst%accessible_not_settled. eapply does_weaken.
  - apply does_touchTask; [by eapply find_revises|]. intros h' [= <-]. exact Ho.
  - cbn. rewrite (find_task_id _ _ _ Hf). intros t s' (Hf' & _ & Ho' & Hs').
    split; [by split; congruence|]. unfold settled. rewrite Hs'. cbn. naive_solver.
Qed.

Lemma does_requireOwnedTask id h inc res s :
  does (Some h) (requireOwnedTask id h inc res)
    (λ t s', handed h id t s' ∧ (inc = false → ¬ settled t)) s.
Proof.
  apply does_gets, does_require_some. intros task Hf.
  do 4 (apply does_require; intros ?). bool_inv.
  destruct (res && bool_decide (bt_state task = suspended)) eqn:Hr.
  - bool_inv. eapply does_weaken; [apply does_resume; [exact Hf|done|]|naive_solver].
    by apply orb_true_iff; right; apply bool_decide_eq_true.
  - apply does_ret. split; [done|]. intros ->. unfold settled.
    destruct (bt_state task); cbn in *; naive_solver.
Qed.

Lemma does_stored_task who id s (Q : BrowserTask → _ → Prop) :
  (∀ t, find_task id s = Some t → Q t s) → does who (stored_task id) Q s.
Proof. intros HQ. apply does_gets, does_require_some_last, HQ. Qed.

(** ** Resolution, creation *)

Lemma does_inv who {A} (m : B A) Q s : (registry_inv s → does who m Q s) → does who m Q s.
Proof. intros Hd I. by apply Hd. Qed.

Lemma does_create c s :
  Inj (=) (=) browser_uuid →
  does (Some (hashOwnerScope (ownerScope c))) (create_task c)
    (λ t s', bt_ownerScopeHash t = hashOwnerScope (ownerScope c)) s.
Proof.
  intros Huuid. apply does_inv. intros I.
  assert (find_task (new_id (S (tr_draws s))) s = None) as Hnone.
  { destruct (find_task _ s) as [u|] eqn:Hu; [|done]. by destruct (inv_fresh _ I _ _ _ Hu (Nat.le_succ_diag_r _)). }
  apply does_draw, does_draw, does_gets, does_require. intros _.
  set (t := Build_BrowserTask _ _ _ _ _ _ _). set (s1 := tr_drawn (tr_drawn s)).
  eapply (does_after _ _ (mret t) _ _ (on_tasks (λ l, l ++ [t]) s1)); [| |by apply does_ret].
  - unfold mbind, io_bind, modify, on_tasks, set_task_entry.
    destruct (existsb _ _) eqn:He; [|done]. apply existsb_exists in He as (u & Hu & Hid).
    apply list_elem_of_In in Hu. by rewrite (find_None_elem _ _ u Hnone Hu : has_id (bt_taskId t) u = false) in Hid.
  - intros _. apply change_new; [exact Hnone|done| |done|by intros h [= <-]|].
    + intros n Hn Heq. apply (inj (String.append "task-")), Huuid in Heq. cbn in Hn, Heq. lia.
    + unfold settled. cbn. naive_solver.
Qed.

Lemma accessible_elem c s task :
  accessibleTasks c false s = [task] → registry_inv s →
  handed (hashOwnerScope (ownerScope c)) (bt_taskId task) task s ∧
  isAccessibleState (bt_state task) = true.
Proof.
  intros Hl I. assert (task ∈ accessibleTasks c false s) as Ht by (rewrite Hl; left).
  unfold accessibleTasks in Ht. rewrite !elem_of_rows_filter in Ht.
  destruct Ht as [[Ht Ho] Ha]. bool_inv. split; [|done]. split; [|done].
  apply find_task_elem; [apply I|done].
Qed.

(** The task a resolution returns belongs to the caller. *)
Lemma does_resolveForOpen id c s :
  Inj (=) (=) browser_uuid →
  does (Some (hashOwnerScope (ownerScope c))) (resolveForOpen id c)
    (λ t s', bt_ownerScopeHash t = hashOwnerScope (ownerScope c)) s.
Proof.
  intros Huuid. unfold resolveForOpen. destruct (nonempty id) as [i|].
  - eapply does_weaken; [apply does_requireOwnedTask|]. by intros t s' [[_ ?] _].
  - apply does_inv. intros I. apply does_gets.
    destruct (accessibleTasks c false s) as [|task [|]] eqn:Hl; [by apply does_create| |apply does_throw].
    destruct (accessible_elem _ _ _ Hl I) as [[Hf Ho] Ha].
    eapply does_weaken; [by apply does_resume|]. by intros t s' [[_ ?] _].
Qed.

Lemma does_resolveScoped id c inc s :
  does (Some (hashOwnerScope (ownerScope c))) (resolveScoped id c inc)
    (λ t s', bt_ownerScopeHash t = hashOwnerScope (ownerScope c)) s.
Proof.
  unfold resolveScoped. destruct (nonempty id) as [i|].
  - eapply does_weaken; [apply does_requireOwnedTask|]. by intros t s' [[_ ?] _].
  - apply does_inv. intros I. apply does_gets.
    destruct (List.filter _ _) as [|task [|]] eqn:Hl; [apply does_throw| |apply does_throw].
    assert (task ∈ [task]) as Ht by left. rewrite <- Hl, elem_of_rows_filter in Ht.
    destruct Ht as [Ht Ho]. bool_inv.
    destruct (isAccessibleState _) eqn:Ha; [|by apply does_ret].
    eapply does_weaken; [apply does_resume; [apply find_task_elem; [apply I|done]|done|done]|].
    by intros t s' [[_ ?] _].
Qed.

Lemma does_assertTabAccess tab c s :
  does (Some (hashOwnerScope (ownerScope c))) (assertTabAccess tab c)
    (λ t s', bt_ownerScopeHash t = hashOwnerScope (ownerScope c) ∧
             find_task (bt_taskId t) s' = Some t ∧ ¬ settled t) s.
Proof.
  apply does_gets, does_require_some. intros id _.
  eapply does_weaken; [apply does_requireOwnedTask|]. cbn. intros t s' [[Hf ?] ?].
  rewrite (find_task_id _ _ _ Hf). auto.
Qed.

(** ** Tabs *)

Lemma does_require_free_tab who {C} tab id (k : unit → B C) R s :
  (registry_inv s →
   tr_taskByTab s !! tab = None ∨ tr_taskByTab s !! tab = Some id → does who (k tt) R s) →
  does who (require_free_tab tab id ≫= k) R s.
Proof.
  intros Hk. apply does_inv. intros I. specialize (Hk I).
  assert (nonempty (tr_taskByTab s !! tab) = tr_taskByTab s !! tab) as Hne.
  { destruct (tr_taskByTab s !! tab) as [i|] eqn:Hi; [|done].
    apply (inv_tabs _ I) in Hi as (t & Hf & _). by apply (inv_nonempty _ I), nonempty_Some in Hf. }
  eapply does_bind with (λ _ s', s' = s ∧ (tr_taskByTab s !! tab = None ∨ tr_taskByTab s !! tab = Some id)).
  - apply does_gets. unfold taskIdForTab. rewrite Hne. unfold require.
    destruct (tr_taskByTab s !! tab) as [i|]; [|by apply does_ret; auto].
    case_bool_decide; [apply does_ret; naive_solver|apply does_throw].
  - intros [] ? [-> Hfree] _. auto.
Qed.

Lemma add_tab_id tab t : bt_taskId (add_tab tab t) = bt_taskId t.
Proof. unfold add_tab. by case_bool_decide. Qed.
Lemma add_tab_owner tab t : bt_ownerScopeHash (add_tab tab t) = bt_ownerScopeHash t.
Proof. unfold add_tab. by case_bool_decide. Qed.
Lemma add_tab_state tab t : bt_state (add_tab tab t) = bt_state t.
Proof. unfold add_tab. by case_bool_decide. Qed.
Lemma elem_of_add_tab tab t x : x ∈ bt_tabIds (add_tab tab t) ↔ x ∈ bt_tabIds t ∨ x = tab.
Proof. unfold add_tab. case_bool_decide; cbn; [naive_solver|apply elem_of_snoc]. Qed.

Lemma attach_change who id task tab s :
  registry_inv s → find_task id s = Some task → owned who task →
  tr_taskByTab s !! tab = None ∨ tr_taskByTab s !! tab = Some id →
  change who s (put_task (add_tab tab task) (<[tab := id]> (tr_taskByTab s)) s).
Proof.
  intros I Hf Ho Hfree. pose proof (find_task_id _ _ _ Hf) as Hid. subst id.
  assert (∀ x, x ∈ bt_tabIds task → tr_taskByTab s !! x = Some (bt_taskId task)) as Hx
    by (intros x Hx; apply (inv_tabs _ I); eauto).
  apply change_task with task;
    [done|apply add_tab_id|apply add_tab_owner|done| | |].
  - unfold settled. by rewrite add_tab_state.
  - intros x. destruct (decide (x = tab)) as [->|Hn].
    + rewrite lookup_insert_eq, decide_True; [done|]. apply elem_of_add_tab. by right.
    + rewrite lookup_insert_ne by done. destruct (decide (x ∈ bt_tabIds (add_tab tab task))) as [Hin|Hout];
        rewrite elem_of_add_tab in *; [|by rewrite decide_False by naive_solver].
      apply Hx. naive_solver.
  - intros x [?| ->]%elem_of_add_tab; [right; auto|done].
Qed.

Lemma put_task_revises t t' m s :
  find_task (bt_taskId t') s = Some t → revises t' (put_task t' m s).
Proof.
  intros Hf. exists t'. rewrite (find_put_task t) by done. by rewrite decide_True by done.
Qed.

Lemma does_attachTab id tab c s :
  does (Some (hashOwnerScope (ownerScope c))) (attachTab id tab c)
    (λ t s', bt_ownerScopeHash t = hashOwnerScope (ownerScope c)) s.
Proof.
  eapply does_bind; [apply does_requireOwnedTask|]. cbn. intros t s1 [[Hf Ho] _] _.
  eapply does_bind; [by eapply does_stored_task with (Q := λ t' s', t' = t ∧ s' = s1); naive_solver|].
  cbn. intros ? ? [-> ->] _. pose proof (find_task_id _ _ _ Hf) as Hid.
  apply does_require_free_tab. rewrite Hid. intros I Hfree.
  eapply (does_after _ _ (touchTask (add_tab tab t) true) _ _
            (put_task (add_tab tab t) (<[tab := bt_taskId (add_tab tab t)]> (tr_taskByTab s1)) s1)).
  - done.
  - intros _. rewrite add_tab_id, Hid. apply attach_change; try done. by intros h [= <-].
  - eapply does_weaken; [apply does_touchTask|].
    + apply put_task_revises with t. by rewrite add_tab_id, Hid.
    + intros h [= <-]. by rewrite add_tab_owner.
    + cbn. rewrite add_tab_owner, Ho. by intros ? ? (_ & _ & ? & _).
Qed.

Lemma does_attachExistingTab id tab s : does None (attachExistingTab id tab) (λ _ _, True) s.
Proof.
  apply does_bind with (λ t s', find_task id s' = Some t); [by apply does_stored_task|].
  intros t s1 Hf _. apply does_require_free_tab. intros I Hfree.
  eapply (does_after _ _ (mret (add_tab tab t)) _ _
            (put_task (add_tab tab t) (<[tab := id]> (tr_taskByTab s1)) s1));
    [done| |by apply does_ret].
  intros _. by apply attach_change.
Qed.

Lemma does_detachTab tab s : does None (detachTab tab) (λ _ _, True) s.
Proof.
  apply does_inv. intros I. apply does_gets. unfold taskIdForTab.
  destruct (tr_taskByTab s !! tab) as [id|] eqn:Htab; [|by apply does_ret].
  pose proof Htab as (t & Hf & Hin)%(inv_tabs _ I). rewrite nonempty_Some by (by eapply inv_nonempty).
  set (rest := List.filter (λ x, negb (bool_decide (x = tab))) (bt_tabIds t)).
  set (t' := touched (Date_now (tr_draws s)) (tr_ttlMs s) true (with_tabs rest t)).
  assert (∀ x, x ∈ rest ↔ x ∈ bt_tabIds t ∧ x ≠ tab) as Hrest.
  { intros x. subst rest. rewrite elem_of_rows_filter, negb_true_iff, bool_decide_eq_false. done. }
  pose proof (find_task_id _ _ _ Hf) as Hid. subst id.
  eapply (does_after _ _ (λ _, (Ok tt, put_task t' (delete tab (tr_taskByTab s)) (tr_drawn s))) _ _ (tr_drawn s));
    [|by constructor|].
  { unfold mbind, io_bind, modify, gets. cbv beta. unfold find_task in *. cbn -[update_where]. rewrite Hf. done. }
  eapply (does_after _ _ (mret tt)); [reflexivity| |by apply does_ret].
  intros I'. apply change_task with t; try done.
  - intros x. cbn. destruct (decide (x ∈ rest)) as [[Hx Hn]%Hrest|Hx].
    + rewrite lookup_delete_ne by done. apply (inv_tabs _ I). eauto.
    + rewrite Hrest in Hx. destruct (decide (x = tab)) as [->|Hn].
      * rewrite lookup_delete_eq, decide_True; done.
      * rewrite lookup_delete_ne by done. rewrite decide_False by naive_solver. done.
  - intros x [Hx _]%Hrest. right. apply (inv_tabs _ I). eauto.
Qed.

(** ** Leases *)

Lemma does_acquireForTask id c s :
  does (Some (hashOwnerScope (ownerScope c))) (acquireForTask id c)
    (λ id' s', ∃ t, find_task id' s' = Some t ∧ bt_ownerScopeHash t = hashOwnerScope (ownerScope c)) s.
Proof.
  eapply does_bind; [apply does_requireOwnedTask|]. cbn. intros t s1 [[Hf Ho] _] _.
  pose proof (find_task_id _ _ _ Hf) as Hid. subst id.
  eapply (does_after _ _ (draw_value Date_now;; mret (bt_taskId t)) _ _ (on_leases _ s1));
    [reflexivity| |apply does_draw, does_ret; eauto].
  intros _. apply change_leases with (bt_taskId t).
  - intros h [= <-]. eauto.
  - intros m id' Hn. by rewrite lookup_insert_ne.
Qed.

Lemma does_release id s : does None (release id) (λ _ _, True) s.
Proof.
  eapply (does_after _ _ _ _ _ (on_leases _ s)); [reflexivity| |].
  - intros _. apply change_leases with id; [done|]. intros m id' Hn. cbn.
    case_match; [by rewrite lookup_delete_ne|by rewrite lookup_insert_ne].
  - apply does_gets. destruct (find_task id _) as [t|] eqn:Hf; [|by apply does_ret].
    destruct (isAccessibleState _) eqn:Ha; [|by apply does_ret].
    eapply does_bind; [apply does_touchTask; [by eapply find_revises|done]|].
    intros. by apply does_ret.
Qed.

Lemma does_acquireForTab tab c s :
  does (Some (hashOwnerScope (ownerScope c))) (acquireForTab tab c)
    (λ id' s', ∃ t, find_task id' s' = Some t ∧ bt_ownerScopeHash t = hashOwnerScope (ownerScope c)) s.
Proof. eapply does_bind; [apply does_assertTabAccess|]. intros. apply does_acquireForTask. Qed.

(** ** Closing *)

Lemma does_beginFinish id c s :
  does (Some (hashOwnerScope (ownerScope c))) (beginFinish id c)
    (λ t s', bt_ownerScopeHash t = hashOwnerScope (ownerScope c)) s.
Proof.
  eapply does_bind; [apply does_requireOwnedTask|]. cbn. intros t s1 [[Hf Ho] _] _.
  eapply does_bind; [by eapply does_stored_task with (Q := λ t' s', t' = t ∧ s' = s1); naive_solver|].
  cbn. intros ? ? [-> ->] _. case_bool_decide as Hfin; [by apply does_ret|].
  apply does_require. intros Hexp. bool_inv. eapply does_weaken; [apply does_touchTask|].
  - eapply find_revises; [done..|]. unfold settled. naive_solver.
  - by intros h [= <-].
  - cbn. rewrite Ho. by intros ? ? (_ & _ & ? & _).
Qed.

Lemma lookup_delete_all (tabs : list string) (m : gmap string string) x :
  foldl (λ m tab, delete tab m) m tabs !! x = if decide (x ∈ tabs) then None else m !! x.
Proof.
  revert m. induction tabs as [|tab tabs IH]; intros m; cbn.
  - by rewrite decide_False by apply not_elem_of_nil.
  - rewrite IH. destruct (decide (x ∈ tabs)) as [Hx|Hx].
    + by rewrite decide_True by (by right).
    + destruct (decide (x = tab)) as [->|Hn].
      * rewrite decide_True by left. apply lookup_delete_eq.
      * rewrite decide_False by (rewrite elem_of_cons; naive_solver). by apply lookup_delete_ne.
Qed.

Lemma does_close_task id st s :
  st = finished ∨ st = expired → does None (close_task id st) (λ _ _, True) s.
Proof.
  intros Hst. apply does_bind with (λ t s', find_task id s' = Some t); [by apply does_stored_task|].
  intros t s1 Hf I. pose proof (find_task_id _ _ _ Hf) as Hid. subst id.
  set (m := foldl (λ m tab, delete tab m) (tr_taskByTab s1) (bt_tabIds t)).
  set (t' := with_times (Date_now (tr_draws s1)) (Date_now (tr_draws s1)) (with_tabs [] (with_state st t))).
  eapply (does_after _ _ (λ _, (Ok t', put_task t' m (tr_drawn s1))) _ _ (tr_drawn s1));
    [reflexivity|by constructor|].
  eapply (does_after _ _ (mret t')); [reflexivity| |by apply does_ret].
  intros _. apply change_task with t; try done.
  - intros x. cbn. rewrite decide_False by apply not_elem_of_nil. apply lookup_delete_all.
  - intros x Hx. by apply not_elem_of_nil in Hx.
Qed.

Lemma does_beginExpiration id now s : does None (beginExpiration id now) (λ _ _, True) s.
Proof.
  apply does_inv. intros I. apply does_gets. cbn.
  destruct (find_task id s) as [t|] eqn:Hf; [|by apply does_ret].
  destruct (negb _ || _ || _) eqn:Hg; [by apply does_ret|]. bool_inv.
  pose proof (find_task_id _ _ _ Hf) as Hid. subst id. set (t' := with_state finishing t).
  eapply (does_after _ _ (mret (Some t')) _ _ (put_task t' (tr_taskByTab s) s));
    [reflexivity| |by apply does_ret].
  intros _. apply change_task with t; try done.
  - by intros ?%accessible_not_settled.
  - exact (reindexed_same s t I Hf).
  - intros x Hx. right. apply (inv_tabs _ I). eauto.
Qed.

Lemma does_restore id s : does None (restoreAfterFailedFinalization id) (λ _ _, True) s.
Proof.
  apply does_gets. destruct (find_task id s) as [t|] eqn:Hf; [|by apply does_ret].
  case_bool_decide as Hst; [|by apply does_ret]. cbn.
  eapply does_bind; [apply does_touchTask|by intros; apply does_ret].
  - eapply find_revises; [done..|]. unfold settled. rewrite Hst. naive_solver.
  - done.
Qed.

(** ** Construction from the persisted tasks *)

(** The persisted tasks have distinct identifiers, none of which a later task will
    get, and no two of them list one tab. *)
Record persisted_ok (l : list BrowserTask) : Prop := {
  persisted_ids : NoDup (map bt_taskId l);
  persisted_fresh : ∀ t n, t ∈ l → bt_taskId t ≠ new_id n;
  persisted_tabs : ∀ t1 t2 tab, t1 ∈ l → t2 ∈ l →
    tab ∈ bt_tabIds t1 → tab ∈ bt_tabIds t2 → t1 = t2;
}.

Lemma lookup_claim_tabs id (tabs : list string) (m : gmap string string) x :
  foldl (λ m tab, match m !! tab with Some _ => m | None => <[tab := id]> m end) m tabs !! x =
  match m !! x with
  | Some i => Some i
  | None => if decide (x ∈ tabs) then Some id else None
  end.
Proof.
  revert m. induction tabs as [|tab tabs IH]; intros m; cbn.
  - rewrite decide_False by apply not_elem_of_nil. by destruct (m !! x).
  - rewrite IH. destruct (decide (x = tab)) as [->|Hn].
    + rewrite (decide_True (P := tab ∈ tab :: tabs)) by left.
      destruct (m !! tab) eqn:Hm; [by rewrite Hm|by rewrite lookup_insert_eq].
    + assert ((match m !! tab with Some _ => m | None => <[tab:=id]> m end) !! x = m !! x) as ->.
      { destruct (m !! tab); [done|]. by rewrite lookup_insert_ne. }
      destruct (m !! x); [done|]. apply decide_ext. rewrite elem_of_cons. naive_solver.
Qed.

Lemma load_task_inv s s' t :
  load_task s t = Ok s' → registry_inv s →
  find_task (bt_taskId t) s = None → (∀ n, tr_draws s ≤ n → bt_taskId t ≠ new_id n) →
  (∀ tab, tab ∈ bt_tabIds t → tr_taskByTab s !! tab = None) →
  registry_inv s' ∧ tr_tasks s' = tr_tasks s ++ [t].
Proof.
  unfold load_task. intros Hl I Hf Hfr Htab.
  apply outcome_bind_Ok in Hl as ([] & Hs & [= <-]). apply check_Ok in Hs.
  assert (bt_taskId t ≠ ""%string) as Hne.
  { intros E. unfold browserTaskSchema, bounded_id in Hs. by rewrite E in Hs. }
  assert (on_tasks (set_task_entry t) s = on_tasks (λ l, l ++ [t]) s) as ->.
  { unfold on_tasks, set_task_entry. destruct (existsb _ _) eqn:He; [|done].
    apply existsb_exists in He as (u & Hu & Hid). apply list_elem_of_In in Hu.
    by rewrite (find_None_elem _ _ u Hf Hu) in Hid. }
  split; [|done]. destruct I as [I1 I2 I3 I4]. constructor.
  - cbn. apply NoDup_key_snoc; [done|]. intros r Hr E.
    apply (find_None_elem _ _ _ Hf) in Hr. unfold has_id in Hr. by bool_inv.
  - intros id u. rewrite (find_new_task t s id Hf : find_task id (on_tabs _ _) = _).
    case_decide; [congruence|apply I2].
  - intros tab id. rewrite (find_new_task t s id Hf : find_task id (on_tabs _ _) = _).
    cbn. rewrite lookup_claim_tabs. specialize (Htab tab). specialize (I3 tab).
    destruct (tr_taskByTab s !! tab) as [i|] eqn:Hi.
    + rewrite (I3 id). case_decide as E; [subst|done]. rewrite Hf. naive_solver.
    + case_decide as E; case_decide as E'; subst; [naive_solver| |naive_solver|].
      * split; [congruence|]. intros ?%I3. done.
      * split; [done|]. intros ?%I3. done.
  - intros id u n. rewrite (find_new_task t s id Hf : find_task id (on_tabs _ _) = _).
    case_decide as E; [subst; by intros _; apply Hfr|apply I4].
Qed.

Lemma load_tasks_inv l1 l2 s s' :
  fold_outcome load_task s l2 = Ok s' → registry_inv s → tr_tasks s = l1 →
  persisted_ok (l1 ++ l2) → registry_inv s'.
Proof.
  revert l1 s. induction l2 as [|t l2 IH]; intros l1 s; cbn; [by intros [= <-]|].
  intros (s1 & Ht & Hl)%outcome_bind_Ok I Hs [P1 P2 P3].
  assert (∀ u, u ∈ l1 → bt_taskId u ≠ bt_taskId t) as Hd.
  { intros u Hu E. rewrite map_app in P1. apply NoDup_app in P1 as (_ & Hd & _).
    apply (Hd (bt_taskId t)); [|left]. rewrite <- E, list_elem_of_In. apply in_map.
    by apply list_elem_of_In. }
  apply load_task_inv in Ht as [I' Ht]; [|done|..].
  - apply (IH (l1 ++ [t]) s1); [done|done|by rewrite Ht, Hs|].
    rewrite <- app_assoc. by constructor.
  - unfold find_task. rewrite Hs. destruct (List.find _ _) as [u|] eqn:Hu; [|done].
    apply find_Some_elem in Hu as [Hu Hid]. unfold has_id in Hid. bool_inv. by destruct (Hd u).
  - intros n _. apply P2. apply elem_of_app. right. left.
  - intros tab Htab. destruct (tr_taskByTab s !! tab) as [i|] eqn:Hi; [|done].
    apply (inv_tabs _ I) in Hi as (u & Hu & Hin). apply find_Some_elem in Hu as [Hu _].
    rewrite Hs in Hu. destruct (Hd u Hu). f_equal. apply (P3 _ _ tab); [..|done|done];
      apply elem_of_app; [by left|right; left].
Qed.

Lemma new_registry_inv l ttl s :
  new_BrowserTaskRegistry l ttl = Ok s → persisted_ok l → registry_inv s.
Proof.
  intros Hl Hp. apply (load_tasks_inv [] l _ _ Hl); [|done|done].
  constructor; cbn; [constructor|done| |done].
  intros tab id. rewrite lookup_empty. split; [done|by intros (? & ? & _)].
Qed.
End props.
