(* ===== verification/BrowserTaskRuns.v ===== *)
(** * BrowserTaskRuns: sequences of operations on the task registry

    The calls the worker makes, in any order and for any owner, with the leases they
    hold: a lease taken by [acquireForTask] or [acquireForTab] is released at most
    once. *)

From S2P Require Import Prelude Text BrowserTasks BrowserTaskProps.

Inductive task_op :=
| Op_resolveForOpen (taskId : option string) (c : context)
| Op_resolveScoped (taskId : option string) (c : context) (includeFinished : bool)
| Op_create (c : context)
| Op_assertTabAccess (tab : string) (c : context)
| Op_attachTab (taskId tab : string) (c : context)
| Op_acquireForTask (taskId : string) (c : context)
| Op_acquireForTab (tab : string) (c : context)
| Op_beginFinish (taskId : string) (c : context)
| Op_attachExistingTab (taskId tab : string)
| Op_detachTab (tab : string)
| Op_completeFinish (taskId : string)
| Op_markExpired (taskId : string)
| Op_beginExpiration (taskId : string) (now : Z)
| Op_restoreAfterFailedFinalization (taskId : string).

Inductive reply := a_task (t : BrowserTask) | a_lease (taskId : string) | nothing.

Definition reply_option (o : option BrowserTask) : reply :=
  match o with Some t => a_task t | None => nothing end.

(** The context an operation runs for; internal operations have none. *)
Definition op_context (op : task_op) : option context :=
  match op with
  | Op_resolveForOpen _ c | Op_resolveScoped _ c _ | Op_create c | Op_assertTabAccess _ c
  | Op_attachTab _ _ c | Op_acquireForTask _ c | Op_acquireForTab _ c | Op_beginFinish _ c => Some c
  | _ => None
  end.

(** The task an operation asks to work on, which has to be open. *)
Definition op_target (op : task_op) (s : BrowserTaskRegistry) : option string :=
  match op with
  | Op_resolveForOpen id _ | Op_resolveScoped id _ false => id
  | Op_attachTab id _ _ | Op_acquireForTask id _ => Some id
  | Op_assertTabAccess tab _ | Op_acquireForTab tab _ => taskIdForTab tab s
  | _ => None
  end.

Section runs.
Context `{BrowserHost}.
Implicit Types (s : BrowserTaskRegistry) (op : task_op).

Definition replies {A} (f : A → reply) (m : B A) : B reply := a ← m; mret (f a).

Definition run_op op : B reply :=
  match op with
  | Op_resolveForOpen id c => replies a_task (resolveForOpen id c)
  | Op_resolveScoped id c inc => replies a_task (resolveScoped id c inc)
  | Op_create c => replies a_task (create_task c)
  | Op_assertTabAccess tab c => replies a_task (assertTabAccess tab c)
  | Op_attachTab id tab c => replies a_task (attachTab id tab c)
  | Op_acquireForTask id c => replies a_lease (acquireForTask id c)
  | Op_acquireForTab tab c => replies a_lease (acquireForTab tab c)
  | Op_beginFinish id c => replies a_task (beginFinish id c)
  | Op_attachExistingTab id tab => replies a_task (attachExistingTab id tab)
  | Op_detachTab tab => replies (λ _, nothing) (detachTab tab)
  | Op_completeFinish id => replies a_task (completeFinish id)
  | Op_markExpired id => replies a_task (markExpired id)
  | Op_beginExpiration id now => replies reply_option (beginExpiration id now)
  | Op_restoreAfterFailedFinalization id => replies reply_option (restoreAfterFailedFinalization id)
  end.

(** The registry and the leases callers hold on its tasks. *)
Definition world : Type := BrowserTaskRegistry * list string.

Definition acquired (r : outcome browser_error reply) : list string :=
  match r with Ok (a_lease id) => [id] | _ => [] end.

Inductive task_step : world → world → Prop :=
| step_op op s held :
    task_step (s, held) ((run_op op s).2, acquired (run_op op s).1 ++ held)
| step_release id s held1 held2 :
    task_step (s, held1 ++ id :: held2) ((release id s).2, held1 ++ held2).

(** The registries the worker can reach from the persisted tasks [l]. *)
Definition reachable (l : list BrowserTask) (ttl : Z) (w : world) : Prop :=
  ∃ s0, new_BrowserTaskRegistry l ttl = Ok s0 ∧ rtc task_step (s0, []) w.

(** ** Every operation is a sequence of elementary changes *)

Definition reply_owned (who : option string) (r : reply) s : Prop :=
  ∀ h, who = Some h →
  match r with
  | a_task t => bt_ownerScopeHash t = h
  | a_lease id => ∃ t, find_task id s = Some t ∧ bt_ownerScopeHash t = h
  | nothing => True
  end.

Definition op_owner op : option string := (λ c, hashOwnerScope (ownerScope c)) <$> op_context op.

Lemma does_replies who {A} (f : A → reply) (m : B A) Q R s :
  does who m Q s → (∀ a s', Q a s' → R (f a) s') → does who (replies f m) R s.
Proof. intros Hm HR. eapply does_bind; [exact Hm|]. intros. by apply does_ret, HR. Qed.

Lemma run_op_does op s :
  Inj (=) (=) browser_uuid → does (op_owner op) (run_op op) (reply_owned (op_owner op)) s.
Proof.
  intros Huuid. unfold reply_owned. destruct op; cbn.
  - eapply does_replies; [by apply does_resolveForOpen|]. naive_solver.
  - eapply does_replies; [apply does_resolveScoped|]. naive_solver.
  - eapply does_replies; [by apply does_create|]. naive_solver.
  - eapply does_replies; [apply does_assertTabAccess|]. naive_solver.
  - eapply does_replies; [apply does_attachTab|]. naive_solver.
  - eapply does_replies; [apply does_acquireForTask|]. naive_solver.
  - eapply does_replies; [apply does_acquireForTab|]. naive_solver.
  - eapply does_replies; [apply does_beginFinish|]. naive_solver.
  - eapply does_replies; [apply does_attachExistingTab|done].
  - eapply does_replies; [apply does_detachTab|done].
  - eapply does_replies; [apply does_close_task; auto|done].
  - eapply does_replies; [apply does_close_task; auto|done].
  - eapply does_replies; [apply does_beginExpiration|done].
  - eapply does_replies; [apply does_restore|done].
Qed.

Lemma step_changes w w' :
  Inj (=) (=) browser_uuid → task_step w w' → registry_inv w.1 → ∃ who, rtc (change who) w.1 w'.1.
Proof.
  intros Huuid [op s held|id s held1 held2] I.
  - exists (op_owner op). by apply (run_op_does op s Huuid).
  - exists None. by apply does_release.
Qed.

Lemma steps_inv w w' :
  Inj (=) (=) browser_uuid → rtc task_step w w' → registry_inv w.1 → registry_inv w'.1.
Proof.
  intros Huuid. induction 1 as [|w1 w2 w3 Hs _ IH]; [done|]. intros I. apply IH.
  destruct (step_changes _ _ Huuid Hs I) as [who Hc]. by eapply changes_inv.
Qed.

Lemma reachable_inv l ttl w :
  Inj (=) (=) browser_uuid → persisted_ok l → reachable l ttl w → registry_inv w.1.
Proof.
  intros Huuid Hp (s0 & Hs & Hr). eapply steps_inv; [done|done|]. by eapply new_registry_inv.
Qed.

Lemma steps_closed id w w' :
  Inj (=) (=) browser_uuid → rtc task_step w w' → registry_inv w.1 → closed id w.1 → closed id w'.1.
Proof.
  intros Huuid. induction 1 as [|w1 w2 w3 Hs _ IH]; [done|]. intros I Hc.
  destruct (step_changes _ _ Huuid Hs I) as [who Hch].
  apply IH; [by eapply changes_inv|]. clear -Hc Hch.
  induction Hch; eauto using change_closed.
Qed.

(** ** Leases *)

Definition keeps_leases {A} (m : B A) : Prop := ∀ s, tr_activeLeases (m s).2 = tr_activeLeases s.

Lemma keeps_leases_bind {A C} (m : B A) (k : A → B C) :
  keeps_leases m → (∀ a, keeps_leases (k a)) → keeps_leases (m ≫= k).
Proof.
  intros Hm Hk s. unfold mbind, io_bind. specialize (Hm s). destruct (m s) as [[a|] s1]; [|done].
  cbn in *. by rewrite Hk.
Qed.

Lemma keeps_leases_pure {A} (m : B A) : (∀ s, (m s).2 = s) → keeps_leases m.
Proof. intros Hm s. by rewrite Hm. Qed.

Lemma keeps_leases_draw {A} (g : nat → A) : keeps_leases (draw_value g).
Proof. done. Qed.
Lemma keeps_leases_tasks f : keeps_leases (modify (on_tasks f)).
Proof. done. Qed.
Lemma keeps_leases_tabs f : keeps_leases (modify (on_tabs f)).
Proof. done. Qed.
Lemma keeps_leases_require b e : keeps_leases (require b e).
Proof. by destruct b. Qed.
Lemma keeps_leases_require_some {A} (o : option A) e : keeps_leases (require_some o e).
Proof. by destruct o. Qed.

Lemma keeps_leases_touchTask t ext : keeps_leases (touchTask t ext).
Proof. done. Qed.

#[local] Ltac keep :=
  repeat first
    [ apply keeps_leases_draw | apply keeps_leases_tasks | apply keeps_leases_tabs
    | apply keeps_leases_require | apply keeps_leases_require_some
    | apply keeps_leases_touchTask | apply keeps_leases_pure; done
    | apply keeps_leases_bind; [|intros ?]
    | case_match ].

Lemma keeps_leases_requireOwnedTask id h inc res : keeps_leases (requireOwnedTask id h inc res).
Proof. unfold requireOwnedTask, resume. keep. Qed.

Lemma keeps_leases_create c : keeps_leases (create_task c).
Proof. unfold create_task. keep. Qed.

(** Only the operations that return a lease change the number of leases. *)
Definition leases_after (r : outcome browser_error reply) (m : gmap string nat) : gmap string nat :=
  match r with
  | Ok (a_lease id) => <[id := S (default 0 (m !! id))]> m
  | _ => m
  end.

Lemma replies_leases {A} (f : A → reply) (m : B A) s :
  (∀ a id, f a ≠ a_lease id) → keeps_leases m →
  tr_activeLeases (replies f m s).2 = leases_after (replies f m s).1 (tr_activeLeases s).
Proof.
  intros Hf Hm. specialize (Hm s). unfold replies, mbind, io_bind.
  destruct (m s) as [[a|] s1]; cbn in *; [|done]. specialize (Hf a).
  destruct (f a) as [|id|]; [done|by destruct (Hf id)|done].
Qed.

Lemma acquire_leases id c s :
  tr_activeLeases (replies a_lease (acquireForTask id c) s).2 =
  leases_after (replies a_lease (acquireForTask id c) s).1 (tr_activeLeases s).
Proof.
  pose proof (keeps_leases_requireOwnedTask id (hashOwnerScope (ownerScope c)) false true s) as Hk.
  unfold replies, acquireForTask, mbind, io_bind.
  destruct (requireOwnedTask _ _ _ _ s) as [[t|] s1]; cbn in Hk |- *; [unfold leases_after, on_leases; cbn; by rewrite Hk|done].
Qed.

Lemma acquireForTab_leases tab c s :
  tr_activeLeases (replies a_lease (acquireForTab tab c) s).2 =
  leases_after (replies a_lease (acquireForTab tab c) s).1 (tr_activeLeases s).
Proof.
  assert (keeps_leases (assertTabAccess tab c)) as Hk.
  { unfold assertTabAccess. keep. }
  specialize (Hk s).
  assert (replies a_lease (acquireForTab tab c) s =
    match assertTabAccess tab c s with
    | (Ok t, s1) => replies a_lease (acquireForTask (bt_taskId t) c) s1
    | (Err e, s1) => (Err e, s1)
    end) as ->.
  { unfold replies, acquireForTab, mbind, io_bind. by destruct (assertTabAccess tab c s) as [[t|] s1]. }
  destruct (assertTabAccess tab c s) as [[t|] s1]; [|exact Hk].
  cbn in Hk. rewrite <- Hk. apply acquire_leases.
Qed.

Lemma run_op_leases op s :
  tr_activeLeases (run_op op s).2 = leases_after (run_op op s).1 (tr_activeLeases s).
Proof.
  pose proof keeps_leases_requireOwnedTask. pose proof keeps_leases_create.
  destruct op; cbn; try apply acquire_leases; try apply acquireForTab_leases;
    (apply replies_leases; [intros a ?; by (done || destruct a)|]).
  all: unfold resolveForOpen, resolveScoped, resume, assertTabAccess, attachTab, beginFinish, stored_task,
    require_free_tab, attachExistingTab, detachTab, completeFinish, markExpired, close_task,
    beginExpiration, restoreAfterFailedFinalization, store; keep; auto.
Qed.

(** The count of a task is the number of leases its callers hold. *)
Definition leases_counted (w : world) : Prop :=
  ∀ id, leaseCount id w.1 = count_where (λ x, bool_decide (x = id)) w.2.

Lemma count_where_cons (p : string → bool) x l :
  count_where p (x :: l) = (if p x then 1 else 0) + count_where p l.
Proof. unfold count_where. cbn. by destruct (p x). Qed.
Lemma count_where_app (p : string → bool) l1 l2 :
  count_where p (l1 ++ l2) = count_where p l1 + count_where p l2.
Proof. unfold count_where. by rewrite List.filter_app, length_app. Qed.

Lemma step_leases w w' : task_step w w' → leases_counted w → leases_counted w'.
Proof.
  intros [op s held|id s held1 held2] Hc id'; specialize (Hc id'); unfold leaseCount in *; cbn -[count_where] in *.
  - rewrite run_op_leases. destruct ((run_op op s).1) as [[|id|]|]; cbn -[count_where]; [done| |done|done].
    rewrite count_where_cons, <- Hc. case_bool_decide; subst.
    + by rewrite lookup_insert_eq.
    + by rewrite lookup_insert_ne.
  - rewrite count_where_app, count_where_cons in Hc. rewrite count_where_app.
    assert (tr_activeLeases (release id s).2 =
      let remaining := default 1 (tr_activeLeases s !! id) - 1 in
      if remaining =? 0 then delete id (tr_activeLeases s)
      else <[id := remaining]> (tr_activeLeases s)) as ->.
    { unfold release, mbind, io_bind. cbn -[find_task]. destruct (find_task id _); [|done].
      by destruct (isAccessibleState _). }
    cbn -[count_where]. case_bool_decide; subst.
    + destruct (tr_activeLeases s !! id') as [n|]; cbn -[count_where] in *; [|lia].
      destruct (Nat.eqb_spec (n - 1) 0); [rewrite lookup_delete_eq|rewrite lookup_insert_eq]; cbn -[count_where]; lia.
    + destruct (_ =? 0); [by rewrite lookup_delete_ne|by rewrite lookup_insert_ne].
Qed.

Lemma reachable_leases l ttl w : reachable l ttl w → leases_counted w.
Proof.
  intros (s0 & Hs & Hr). assert (leases_counted (s0, [])) as H0.
  { intros id. unfold leaseCount. cbn. assert (tr_activeLeases s0 = ∅) as ->; [|by rewrite lookup_empty].
    revert Hs. unfold new_BrowserTaskRegistry. set (e := Build_BrowserTaskRegistry _ _ _ _ _).
    assert (tr_activeLeases e = ∅) as He by done. clearbody e. revert e He.
    induction l as [|t l IH]; cbn; [by intros e He [= <-]|]. intros e He (s1 & Ht & Hl)%outcome_bind_Ok.
    apply (IH s1); [|done]. apply outcome_bind_Ok in Ht as (_ & _ & [= <-]). exact He. }
  clear Hs. remember (s0, []) as w0. clear Heqw0. induction Hr; eauto using step_leases.
Qed.

(** ** Closed tasks refuse work *)

Definition refuses {A} (m : B A) s : Prop :=
  ∃ e, m s = (Err e, s) ∧ e ∈ [TASK_NOT_FOUND; TASK_OWNERSHIP_MISMATCH; TASK_EXPIRED].

Lemma refuses_bind {A C} (m : B A) (k : A → B C) s : refuses m s → refuses (m ≫= k) s.
Proof. intros (e & Hm & He). exists e. split; [by apply bind_Err|done]. Qed.

Lemma requireOwnedTask_closed id h res s : closed id s → refuses (requireOwnedTask id h false res) s.
Proof.
  intros (t & Hf & Hst). unfold refuses, requireOwnedTask, mbind, io_bind, gets, require_some.
  rewrite Hf. cbn. unfold require. case_bool_decide; cbn; [|eexists; split; [done|set_solver]].
  destruct Hst as [Hst|Hst]; rewrite Hst; cbn; (eexists; split; [done|set_solver]).
Qed.

Lemma closed_refuses op id s :
  registry_inv s → closed id s → op_target op s = Some id → refuses (run_op op) s.
Proof.
  intros I Hc Ht. assert (id ≠ ""%string) as Hne by (destruct Hc as (t & Hf & _); by eapply inv_nonempty).
  assert (∀ tab c, taskIdForTab tab s = Some id → refuses (assertTabAccess tab c) s) as Htab.
  { intros tab c Hi. destruct (requireOwnedTask_closed id (hashOwnerScope (ownerScope c)) true s Hc)
      as (e & He & Hin). exists e. split; [|done].
    unfold assertTabAccess, mbind, io_bind, gets. cbv beta. rewrite Hi, nonempty_Some by done. exact He. }
  destruct op; cbn in Ht; simplify_eq; cbn; apply refuses_bind.
  - unfold resolveForOpen. rewrite nonempty_Some by done. by apply requireOwnedTask_closed.
  - unfold resolveScoped. destruct includeFinished; [done|]. simplify_eq.
    rewrite nonempty_Some by done. by apply requireOwnedTask_closed.
  - by apply Htab.
  - by apply refuses_bind, requireOwnedTask_closed.
  - by apply refuses_bind, requireOwnedTask_closed.
  - by apply refuses_bind, Htab.
Qed.

(** A task on which a lease is held does not begin to expire. *)
Lemma leased_beginExpiration id now s :
  0 < leaseCount id s → beginExpiration id now s = (Ok None, s).
Proof.
  intros Hl. unfold beginExpiration, mbind, io_bind, gets. cbn.
  destruct (find_task id s) as [t|]; [|done]. rewrite (proj2 (Nat.ltb_lt _ _) Hl).
  by rewrite orb_true_r.
Qed.

Lemma leased_not_candidate id now s t :
  0 < leaseCount id s → t ∈ expiredCandidates now s → bt_taskId t ≠ id.
Proof.
  intros Hl [_ Ht]%elem_of_rows_filter <-. bool_inv.
  match goal with E : (_ =? 0) = true |- _ => apply Nat.eqb_eq in E end. lia.
Qed.

(** Running a list of operations is a sequence of steps. *)
Fixpoint run_ops (ops : list task_op) (w : world) : world :=
  match ops with
  | [] => w
  | op :: ops => run_ops ops ((run_op op w.1).2, acquired (run_op op w.1).1 ++ w.2)
  end.

Lemma run_ops_steps ops w : rtc task_step w (run_ops ops w).
Proof.
  revert w. induction ops as [|op ops IH]; intros [s held]; [apply rtc_refl|].
  eapply rtc_l; [apply (step_op op)|apply IH].
Qed.
End runs.
