(* ===== verification/BrowserGrants.v ===== *)
(** * BrowserGrants: confirmations and grants for private sites

    services/browser-worker/domain/browser-site-grant-registry.ts.  Access to a
    private site is granted to a task directly or after a confirmation, which is
    bound to the task, its owner, the site and the stated purpose.  An ISO time stamp
    is the instant it denotes, in milliseconds; [gr_draws] counts the values drawn
    from the runtime. *)

From S2P Require Import Prelude Text JsMap BrowserTasks.

Record PendingSiteConfirmation := {
  pc_confirmationId : string;
  pc_taskId : string;
  pc_ownerScopeHash : string;
  pc_siteId : string;
  pc_purpose : string;
  pc_expiresAt : Z;
}.

Record BrowserSiteGrant := {
  sg_taskId : string;
  sg_ownerScopeHash : string;
  sg_siteId : string;
  sg_allowedOrigins : list string;
  sg_expiresAt : Z;
}.

(** What the registry reads of an authorized site policy. *)
Record SitePolicy := {
  sp_siteId : string;
  sp_allowedOrigins : list string;
}.

Definition CONFIRMATION_TTL_MS : Z := 5 * 60 * 1000.
Definition GRANT_TTL_MS : Z := 10 * 60 * 1000.

Record BrowserSiteGrantRegistry := {
  gr_pending : jsmap PendingSiteConfirmation;
  gr_grants : jsmap BrowserSiteGrant;
  gr_draws : nat;
}.

Definition new_BrowserSiteGrantRegistry : BrowserSiteGrantRegistry :=
  {| gr_pending := []; gr_grants := []; gr_draws := 0 |}.

Definition on_pending f (s : BrowserSiteGrantRegistry) :=
  {| gr_pending := f (gr_pending s); gr_grants := gr_grants s; gr_draws := gr_draws s |}.
Definition on_grants f (s : BrowserSiteGrantRegistry) :=
  {| gr_pending := gr_pending s; gr_grants := f (gr_grants s); gr_draws := gr_draws s |}.
Definition gr_drawn (s : BrowserSiteGrantRegistry) :=
  {| gr_pending := gr_pending s; gr_grants := gr_grants s; gr_draws := S (gr_draws s) |}.

Definition SG := io BrowserSiteGrantRegistry browser_error.

Definition NUL : string := String Ascii.zero EmptyString.

Definition grantKey (taskId siteId : string) : string := taskId +:+ NUL +:+ siteId.

Section grants.
Context `{BrowserHost}.

Definition draw_site {A} (g : nat → A) : SG A :=
  n ← gets gr_draws; modify gr_drawn;; mret (g n).

Definition pruneExpiredConfirmations (now : Z) : SG unit :=
  modify (on_pending (filter_entries (λ _ p, negb (pc_expiresAt p <=? now)%Z))).

Definition pruneExpiredGrants (now : Z) : SG unit :=
  modify (on_grants (filter_entries (λ _ g, negb (sg_expiresAt g <=? now)%Z))).

Definition pruneExpired : SG unit :=
  now ← draw_site Date_now; pruneExpiredConfirmations now;; pruneExpiredGrants now.

(** [createGrant] *)
Definition createGrant (task : BrowserTask) (policy : SitePolicy) : SG BrowserSiteGrant :=
  now ← draw_site Date_now;
  let grant := {| sg_taskId := bt_taskId task; sg_ownerScopeHash := bt_ownerScopeHash task;
                  sg_siteId := sp_siteId policy; sg_allowedOrigins := sp_allowedOrigins policy;
                  sg_expiresAt := Z.min (bt_expiresAt task) (now + GRANT_TTL_MS) |} in
  modify (on_grants (jset (grantKey (bt_taskId task) (sp_siteId policy)) grant));;
  mret grant.

Definition createConfirmation (task : BrowserTask) (policy : SitePolicy) (purpose : string) :
    SG PendingSiteConfirmation :=
  pruneExpired;;
  uuid ← draw_site browser_uuid;
  now ← draw_site Date_now;
  let confirmation :=
    {| pc_confirmationId := "site-confirm-" +:+ uuid; pc_taskId := bt_taskId task;
       pc_ownerScopeHash := bt_ownerScopeHash task; pc_siteId := sp_siteId policy;
       pc_purpose := purpose; pc_expiresAt := (now + CONFIRMATION_TTL_MS)%Z |} in
  modify (on_pending (jset (pc_confirmationId confirmation) confirmation));;
  mret confirmation.

Definition grant (task : BrowserTask) (policy : SitePolicy) : SG BrowserSiteGrant :=
  pruneExpired;; createGrant task policy.

(** The four comparisons of [confirm]. *)
Definition confirmation_matches (p : PendingSiteConfirmation) (task : BrowserTask)
    (policy : SitePolicy) (purpose : string) : bool :=
  bool_decide (pc_taskId p = bt_taskId task) &&
  bool_decide (pc_ownerScopeHash p = bt_ownerScopeHash task) &&
  bool_decide (pc_siteId p = sp_siteId policy) && bool_decide (pc_purpose p = purpose).

Definition confirm (confirmationId : string) (task : BrowserTask) (policy : SitePolicy)
    (purpose : string) : SG BrowserSiteGrant :=
  pruneExpired;;
  found ← gets (λ s, jget confirmationId (gr_pending s));
  pending ← require_some found SITE_ACCESS_AUTHORIZATION_REQUIRED;
  require (confirmation_matches pending task policy purpose) SITE_ACCESS_AUTHORIZATION_REQUIRED;;
  modify (on_pending (jdelete confirmationId));;
  createGrant task policy.

Definition requireGrant (task : BrowserTask) (policy : SitePolicy) : SG BrowserSiteGrant :=
  now ← draw_site Date_now;
  pruneExpiredConfirmations now;;
  let key := grantKey (bt_taskId task) (sp_siteId policy) in
  found ← gets (λ s, jget key (gr_grants s));
  g ← require_some found SITE_ACCESS_AUTHORIZATION_REQUIRED;
  require (bool_decide (sg_ownerScopeHash g = bt_ownerScopeHash task)) TASK_OWNERSHIP_MISMATCH;;
  now ← draw_site Date_now;
  if (sg_expiresAt g <=? now)%Z then
    modify (on_grants (jdelete key));; throw SITE_ACCESS_GRANT_EXPIRED
  else mret g.

Definition grantForTaskSite (taskId siteId : string) : SG (option BrowserSiteGrant) :=
  pruneExpired;; gets (λ s, jget (grantKey taskId siteId) (gr_grants s)).

Definition revokeTaskSite (taskId siteId : string) : SG (option BrowserSiteGrant) :=
  let key := grantKey taskId siteId in
  found ← gets (λ s, jget key (gr_grants s));
  match found with
  | None => mret None
  | Some g => modify (on_grants (jdelete key));; mret (Some g)
  end.

Definition revokeTask (taskId : string) : SG (list BrowserSiteGrant) :=
  revoked ← gets (λ s, filter_entries (λ _ g, bool_decide (sg_taskId g = taskId)) (gr_grants s));
  modify (on_grants (filter_entries (λ _ g, negb (bool_decide (sg_taskId g = taskId)))));;
  modify (on_pending (filter_entries (λ _ p, negb (bool_decide (pc_taskId p = taskId)))));;
  mret (map snd revoked).

Definition activeGrants : SG (list BrowserSiteGrant) :=
  pruneExpired;; gets (λ s, map snd (gr_grants s)).
End grants.

(** ** BrowserGrantProps: where the grants of the registry come from

    Sequences of operations on the registry of [BrowserGrants] with their results,
    and the invariant that ties what is stored to the operations that stored it. *)

Inductive site_op :=
| S_createConfirmation (task : BrowserTask) (policy : SitePolicy) (purpose : string)
| S_grant (task : BrowserTask) (policy : SitePolicy)
| S_confirm (confirmationId : string) (task : BrowserTask) (policy : SitePolicy) (purpose : string)
| S_requireGrant (task : BrowserTask) (policy : SitePolicy)
| S_grantForTaskSite (taskId siteId : string)
| S_revokeTaskSite (taskId siteId : string)
| S_revokeTask (taskId : string)
| S_activeGrants.

Inductive site_reply :=
| a_confirmation (p : PendingSiteConfirmation)
| issued_grant (g : BrowserSiteGrant)
| found_grant (o : option BrowserSiteGrant)
| found_grants (l : list BrowserSiteGrant).

(** An operation and its result. *)
Definition site_event : Type := site_op * outcome browser_error site_reply.

(** The confirmations that were consumed, oldest first. *)
Definition consumed (e : site_event) : option string :=
  match e with (S_confirm id _ _ _, Ok (issued_grant _)) => Some id | _ => None end.

(** The operation takes the access of the task to the site away. *)
Definition revokes (taskId siteId : string) (e : site_event) : Prop :=
  e.1 = S_revokeTask taskId ∨ e.1 = S_revokeTaskSite taskId siteId.

(** [p] was created in the trace for that task, owner, site and purpose, and the task was
    not revoked since. *)
Definition confirmation_created (tr : list site_event) (p : PendingSiteConfirmation) : Prop :=
  ∃ tr1 task policy tr2,
    tr = tr1 ++ (S_createConfirmation task policy (pc_purpose p), Ok (a_confirmation p)) :: tr2 ∧
    pc_taskId p = bt_taskId task ∧ pc_ownerScopeHash p = bt_ownerScopeHash task ∧
    pc_siteId p = sp_siteId policy ∧
    ∀ e, e ∈ tr2 → e.1 ≠ S_revokeTask (pc_taskId p).

(** [op] is entitled to issue a grant after the trace [tr]: it is a direct grant, or it
    consumes a confirmation created for the same task, owner, site and purpose. *)
Definition entitled (tr : list site_event) (op : site_op) (task : BrowserTask) (policy : SitePolicy) : Prop :=
  op = S_grant task policy ∨
  ∃ id p, op = S_confirm id task policy (pc_purpose p) ∧ pc_confirmationId p = id ∧
    confirmation_created tr p ∧ pc_taskId p = bt_taskId task ∧
    pc_ownerScopeHash p = bt_ownerScopeHash task ∧ pc_siteId p = sp_siteId policy.

(** [g] was issued in the trace by an entitled operation and not revoked since. *)
Definition grant_issued (tr : list site_event) (g : BrowserSiteGrant) : Prop :=
  ∃ tr1 op task policy tr2,
    tr = tr1 ++ (op, Ok (issued_grant g)) :: tr2 ∧ entitled tr1 op task policy ∧
    sg_taskId g = bt_taskId task ∧ sg_ownerScopeHash g = bt_ownerScopeHash task ∧
    sg_siteId g = sp_siteId policy ∧ sg_allowedOrigins g = sp_allowedOrigins policy ∧
    (sg_expiresAt g ≤ bt_expiresAt task)%Z ∧
    ∀ e, e ∈ tr2 → ¬ revokes (sg_taskId g) (sg_siteId g) e.

(** The task an operation issues a grant for. *)
Definition issuing_task (op : site_op) : option BrowserTask :=
  match op with S_grant task _ | S_confirm _ task _ _ => Some task | _ => None end.

Fixpoint nul_free (s : string) : Prop :=
  match s with EmptyString => True | String a s => a ≠ Ascii.zero ∧ nul_free s end.

Lemma grantKey_inj t1 s1 t2 s2 :
  nul_free t1 → nul_free t2 → grantKey t1 s1 = grantKey t2 s2 → t1 = t2 ∧ s1 = s2.
Proof.
  unfold grantKey. revert t2. induction t1 as [|a t1 IH]; intros [|b t2]; cbn; intros H1 H2 [=]; naive_solver.
Qed.

Section props.
Context `{BrowserHost}.
Implicit Types (s : BrowserSiteGrantRegistry) (tr : list site_event).

Definition site_replies {A} (f : A → site_reply) (m : SG A) : SG site_reply := a ← m; mret (f a).

Definition run_site (op : site_op) : SG site_reply :=
  match op with
  | S_createConfirmation task policy purpose =>
      site_replies a_confirmation (createConfirmation task policy purpose)
  | S_grant task policy => site_replies issued_grant (grant task policy)
  | S_confirm id task policy purpose => site_replies issued_grant (confirm id task policy purpose)
  | S_requireGrant task policy => site_replies (found_grant ∘ Some) (requireGrant task policy)
  | S_grantForTaskSite taskId siteId => site_replies found_grant (grantForTaskSite taskId siteId)
  | S_revokeTaskSite taskId siteId => site_replies found_grant (revokeTaskSite taskId siteId)
  | S_revokeTask taskId => site_replies found_grants (revokeTask taskId)
  | S_activeGrants => site_replies found_grants activeGrants
  end.

Inductive site_step : BrowserSiteGrantRegistry * list site_event →
                      BrowserSiteGrantRegistry * list site_event → Prop :=
| site_step_op op s tr : site_step (s, tr) ((run_site op s).2, tr ++ [(op, (run_site op s).1)]).

Definition site_reachable : BrowserSiteGrantRegistry * list site_event → Prop :=
  rtc site_step (new_BrowserSiteGrantRegistry, []).

(** ** Effects of the operations *)

(** Entries are only removed, and identifiers only drawn. *)
Record shrinks s s' : Prop := {
  shrinks_pending : ∀ id p, jget id (gr_pending s') = Some p → jget id (gr_pending s) = Some p;
  shrinks_grants : ∀ k g, jget k (gr_grants s') = Some g → jget k (gr_grants s) = Some g;
  shrinks_ok : jsmap_ok (gr_pending s') ∧ jsmap_ok (gr_grants s');
  shrinks_draws : gr_draws s ≤ gr_draws s';
}.

Lemma shrinks_filter f h n s :
  jsmap_ok (gr_pending s) → jsmap_ok (gr_grants s) → gr_draws s ≤ n →
  shrinks s {| gr_pending := filter_entries f (gr_pending s);
               gr_grants := filter_entries h (gr_grants s); gr_draws := n |}.
Proof.
  intros Hp Hg Hn. constructor; cbn.
  - by intros id p [? _]%jget_filter_Some.
  - by intros id p [? _]%jget_filter_Some.
  - split; by apply jsmap_ok_filter.
  - done.
Qed.

Lemma filter_entries_all {V} (m : jsmap V) : filter_entries (λ _ _, true) m = m.
Proof. unfold filter_entries. by apply filter_all. Qed.

Lemma shrinks_trans s1 s2 s3 : shrinks s1 s2 → shrinks s2 s3 → shrinks s1 s3.
Proof. intros [A1 B1 _ D1] [A2 B2 C2 D2]. constructor; [naive_solver..|lia]. Qed.

Definition map_ok s : Prop := jsmap_ok (gr_pending s) ∧ jsmap_ok (gr_grants s).

Definition confirmation_id (n : nat) : string := "site-confirm-" +:+ browser_uuid n.

Definition of_grant (task : BrowserTask) (policy : SitePolicy) (g : BrowserSiteGrant) : Prop :=
  sg_taskId g = bt_taskId task ∧ sg_ownerScopeHash g = bt_ownerScopeHash task ∧
  sg_siteId g = sp_siteId policy ∧ sg_allowedOrigins g = sp_allowedOrigins policy ∧
  (sg_expiresAt g ≤ bt_expiresAt task)%Z.

Definition of_confirmation (task : BrowserTask) (policy : SitePolicy) (p : PendingSiteConfirmation) : Prop :=
  pc_taskId p = bt_taskId task ∧ pc_ownerScopeHash p = bt_ownerScopeHash task ∧
  pc_siteId p = sp_siteId policy.

Definition sg_key (g : BrowserSiteGrant) : string := grantKey (sg_taskId g) (sg_siteId g).

Inductive site_effect (op : site_op) s : outcome browser_error site_reply → BrowserSiteGrantRegistry → Prop :=
| eff_shrink r s' :
    shrinks s s' → (∀ p, r ≠ Ok (a_confirmation p)) → (∀ g, r ≠ Ok (issued_grant g)) →
    (∀ t, op = S_revokeTask t →
       (∀ id p, jget id (gr_pending s') = Some p → pc_taskId p ≠ t) ∧
       (∀ k g, jget k (gr_grants s') = Some g → sg_taskId g ≠ t)) →
    (∀ t site, op = S_revokeTaskSite t site → jget (grantKey t site) (gr_grants s') = None) →
    site_effect op s r s'
| eff_created task policy p n s1 :
    op = S_createConfirmation task policy (pc_purpose p) → shrinks s s1 →
    gr_draws s ≤ n < gr_draws s1 → pc_confirmationId p = confirmation_id n → of_confirmation task policy p →
    site_effect op s (Ok (a_confirmation p)) (on_pending (jset (pc_confirmationId p) p) s1)
| eff_granted task policy g s1 :
    op = S_grant task policy → shrinks s s1 → of_grant task policy g →
    site_effect op s (Ok (issued_grant g)) (on_grants (jset (sg_key g) g) s1)
| eff_confirmed id task policy p g s1 :
    op = S_confirm id task policy (pc_purpose p) → jget id (gr_pending s) = Some p →
    of_confirmation task policy p → shrinks s s1 → jget id (gr_pending s1) = None → of_grant task policy g →
    site_effect op s (Ok (issued_grant g)) (on_grants (jset (sg_key g) g) s1).

(** The state after [pruneExpired]. *)
Definition pruned s : BrowserSiteGrantRegistry :=
  {| gr_pending := filter_entries (λ _ p, negb (pc_expiresAt p <=? Date_now (gr_draws s))%Z) (gr_pending s);
     gr_grants := filter_entries (λ _ g, negb (sg_expiresAt g <=? Date_now (gr_draws s))%Z) (gr_grants s);
     gr_draws := S (gr_draws s) |}.

Lemma draw_site_run {A} (g : nat → A) s : draw_site g s = (Ok (g (gr_draws s)), gr_drawn s).
Proof. done. Qed.

Lemma pruneExpired_run s : pruneExpired s = (Ok tt, pruned s).
Proof. done. Qed.

Lemma shrinks_pruned s : map_ok s → shrinks s (pruned s).
Proof. intros []. apply shrinks_filter; [done..|lia]. Qed.

Definition with_draws n s : BrowserSiteGrantRegistry :=
  {| gr_pending := gr_pending s; gr_grants := gr_grants s; gr_draws := n |}.

Lemma shrinks_draw s n : map_ok s → gr_draws s ≤ n → shrinks s (with_draws n s).
Proof. intros [] Hn. constructor; [done..|exact Hn]. Qed.

Lemma shrinks_map_ok s s' : shrinks s s' → map_ok s'.
Proof. intros Hs. apply Hs. Qed.

Lemma shrinks_delete_pending id s : map_ok s → shrinks s (on_pending (jdelete id) s).
Proof.
  intros [Hp Hg]. constructor; [|done| |done].
  - intros id' p. cbn. rewrite jget_delete by done. by case_decide.
  - split; [by apply jsmap_ok_filter|done].
Qed.
Lemma shrinks_delete_grant k s : map_ok s → shrinks s (on_grants (jdelete k) s).
Proof.
  intros [Hp Hg]. constructor; [done| | |done].
  - intros k' g. cbn. rewrite jget_delete by done. by case_decide.
  - split; [done|by apply jsmap_ok_filter].
Qed.

Definition new_grant (task : BrowserTask) (policy : SitePolicy) (now : Z) : BrowserSiteGrant :=
  {| sg_taskId := bt_taskId task; sg_ownerScopeHash := bt_ownerScopeHash task;
     sg_siteId := sp_siteId policy; sg_allowedOrigins := sp_allowedOrigins policy;
     sg_expiresAt := Z.min (bt_expiresAt task) (now + GRANT_TTL_MS) |}.

Lemma of_new_grant task policy now : of_grant task policy (new_grant task policy now).
Proof. split_and!; try done. cbn. lia. Qed.

Lemma effect_createConfirmation task policy purpose s :
  map_ok s → site_effect (S_createConfirmation task policy purpose) s
    (run_site (S_createConfirmation task policy purpose) s).1 (run_site (S_createConfirmation task policy purpose) s).2.
Proof.
  intros Hm. apply (eff_created _ _ task policy _ (S (gr_draws s)) (with_draws (3 + gr_draws s) (pruned s)));
    [done| |cbn; lia|done|done].
  eapply shrinks_trans; [by apply shrinks_pruned|].
  apply shrinks_draw; [by eapply shrinks_map_ok, shrinks_pruned|cbn; lia].
Qed.

Lemma effect_grant task policy s :
  map_ok s → site_effect (S_grant task policy) s
    (run_site (S_grant task policy) s).1 (run_site (S_grant task policy) s).2.
Proof.
  intros Hm. apply (eff_granted _ _ task policy (new_grant task policy (Date_now (S (gr_draws s)))) (with_draws (2 + gr_draws s) (pruned s))); [done| |].
  - eapply shrinks_trans; [by apply shrinks_pruned|].
    apply shrinks_draw; [by eapply shrinks_map_ok, shrinks_pruned|cbn; lia].
  - apply of_new_grant.
Qed.

Lemma effect_confirm id task policy purpose s :
  map_ok s → site_effect (S_confirm id task policy purpose) s
    (run_site (S_confirm id task policy purpose) s).1 (run_site (S_confirm id task policy purpose) s).2.
Proof.
  intros Hm. pose proof (shrinks_pruned s Hm) as Hs. pose proof (shrinks_map_ok _ _ Hs) as Hm'.
  assert (confirm id task policy purpose s =
    match jget id (gr_pending (pruned s)) with
    | None => (Err SITE_ACCESS_AUTHORIZATION_REQUIRED, pruned s)
    | Some p => if confirmation_matches p task policy purpose
        then createGrant task policy (on_pending (jdelete id) (pruned s))
        else (Err SITE_ACCESS_AUTHORIZATION_REQUIRED, pruned s)
    end) as Hc.
  { unfold confirm. rewrite (bind_run _ _ _ _ _ (pruneExpired_run s)).
    unfold mbind, io_bind, gets, require_some, require, mret, io_ret, throw.
    destruct (jget id (gr_pending (pruned s))) as [p|]; [|done]. cbn -[pruned].
    by destruct (confirmation_matches p task policy purpose). }
  unfold run_site, site_replies, mbind, io_bind. rewrite Hc.
  destruct (jget id (gr_pending (pruned s))) as [p|] eqn:Hp; [|by apply eff_shrink].
  destruct (confirmation_matches p task policy purpose) eqn:Hmatch; [|by apply eff_shrink].
  unfold confirmation_matches in Hmatch. bool_inv. subst purpose.
  apply (eff_confirmed _ _ id task policy p (new_grant task policy (Date_now (S (gr_draws s)))) (with_draws (2 + gr_draws s) (on_pending (jdelete id) (pruned s))));
    [done|by apply Hs|done| | |].
  - eapply shrinks_trans; [exact Hs|]. eapply shrinks_trans; [by apply (shrinks_delete_pending id)|].
    apply shrinks_draw; [by eapply shrinks_map_ok, shrinks_delete_pending|cbn; lia].
  - cbn -[pruned]. rewrite jget_delete by apply Hm'. by rewrite decide_True.
  - apply of_new_grant.
Qed.

Lemma effect_requireGrant task policy s :
  map_ok s → site_effect (S_requireGrant task policy) s
    (run_site (S_requireGrant task policy) s).1 (run_site (S_requireGrant task policy) s).2.
Proof.
  intros Hm. set (s1 := {| gr_pending := filter_entries (λ _ p, negb (pc_expiresAt p <=? Date_now (gr_draws s))%Z) (gr_pending s);
     gr_grants := gr_grants s; gr_draws := S (gr_draws s) |}).
  assert (shrinks s s1) as Hs.
  { pose proof (shrinks_filter (λ _ p, negb (pc_expiresAt p <=? Date_now (gr_draws s))%Z) (λ _ _, true)
      (S (gr_draws s)) s) as Hs. rewrite filter_entries_all in Hs. apply Hs; [apply Hm..|lia]. }
  assert (requireGrant task policy s =
    let key := grantKey (bt_taskId task) (sp_siteId policy) in
    match jget key (gr_grants s) with
    | None => (Err SITE_ACCESS_AUTHORIZATION_REQUIRED, s1)
    | Some g =>
        if bool_decide (sg_ownerScopeHash g = bt_ownerScopeHash task) then
          if (sg_expiresAt g <=? Date_now (S (gr_draws s)))%Z
          then (Err SITE_ACCESS_GRANT_EXPIRED, on_grants (jdelete key) (gr_drawn s1))
          else (Ok g, gr_drawn s1)
        else (Err TASK_OWNERSHIP_MISMATCH, s1)
    end) as Hr.
  { unfold requireGrant. rewrite (bind_run _ _ _ _ _ (draw_site_run _ s)).
    rewrite (bind_run (pruneExpiredConfirmations _) _ (gr_drawn s) tt s1 eq_refl).
    unfold mbind, io_bind, gets, require_some, require, mret, io_ret, throw.
    change (gr_grants s1) with (gr_grants s).
    destruct (jget _ (gr_grants s)) as [g|]; [|done]. cbv beta iota zeta.
    case_bool_decide; [|done]. cbv beta iota. rewrite (draw_site_run _ s1).
    by destruct (_ <=? _)%Z. }
  unfold run_site, site_replies, mbind, io_bind. rewrite Hr. cbn zeta.
  assert (shrinks s (gr_drawn s1)) as Hs'.
  { eapply shrinks_trans; [exact Hs|]. apply (shrinks_draw s1 (S (gr_draws s1)));
      [by eapply shrinks_map_ok|lia]. }
  destruct (jget _ (gr_grants s)) as [g|]; [|by apply eff_shrink].
  case_bool_decide; [|by apply eff_shrink]. destruct (_ <=? _)%Z; [|by apply eff_shrink].
  apply eff_shrink; try done. eapply shrinks_trans; [exact Hs'|].
  apply shrinks_delete_grant. by eapply shrinks_map_ok.
Qed.

Lemma effect_revokeTaskSite taskId siteId s :
  map_ok s → site_effect (S_revokeTaskSite taskId siteId) s
    (run_site (S_revokeTaskSite taskId siteId) s).1 (run_site (S_revokeTaskSite taskId siteId) s).2.
Proof.
  intros Hm. assert (revokeTaskSite taskId siteId s =
    match jget (grantKey taskId siteId) (gr_grants s) with
    | None => (Ok None, s)
    | Some g => (Ok (Some g), on_grants (jdelete (grantKey taskId siteId)) s)
    end) as Hr by (unfold revokeTaskSite, mbind, io_bind, gets; by destruct (jget _ _)).
  unfold run_site, site_replies, mbind, io_bind. rewrite Hr.
  destruct (jget _ (gr_grants s)) as [g|] eqn:Hg; apply eff_shrink; try done.
  - by apply shrinks_delete_grant.
  - intros ? ? [= <- <-]. cbn. rewrite jget_delete by apply Hm. by rewrite decide_True.
  - by intros ? ? [= <- <-].
Qed.

Lemma effect_revokeTask taskId s :
  map_ok s → site_effect (S_revokeTask taskId) s
    (run_site (S_revokeTask taskId) s).1 (run_site (S_revokeTask taskId) s).2.
Proof.
  intros [Hp Hg]. apply eff_shrink; try done.
  - by apply (shrinks_filter _ _ (gr_draws s) s).
  - intros ? [= <-]. split; intros k x.
    + intros [_ Hx]%jget_filter_Some; [|done]. by bool_inv.
    + intros [_ Hx]%jget_filter_Some; [|done]. by bool_inv.
Qed.

Lemma run_site_effect op s :
  map_ok s → site_effect op s (run_site op s).1 (run_site op s).2.
Proof.
  intros Hm. destruct op.
  - by apply effect_createConfirmation.
  - by apply effect_grant.
  - by apply effect_confirm.
  - by apply effect_requireGrant.
  - apply eff_shrink; [exact (shrinks_pruned s Hm)|done..].
  - by apply effect_revokeTaskSite.
  - by apply effect_revokeTask.
  - apply eff_shrink; [exact (shrinks_pruned s Hm)|done..].
Qed.

(** ** The invariant *)

Record site_inv s tr : Prop := {
  si_ok : map_ok s;
  si_pending : ∀ id p, jget id (gr_pending s) = Some p →
    pc_confirmationId p = id ∧ confirmation_created tr p ∧ id ∉ omap consumed tr;
  si_grants : ∀ k g, jget k (gr_grants s) = Some g → k = sg_key g ∧ grant_issued tr g;
  si_once : NoDup (omap consumed tr);
  si_drawn : ∀ id, id ∈ omap consumed tr ∨ is_Some (jget id (gr_pending s)) →
    ∃ n, n < gr_draws s ∧ id = confirmation_id n;
}.

Lemma confirmation_created_snoc tr p e :
  confirmation_created tr p → e.1 ≠ S_revokeTask (pc_taskId p) → confirmation_created (tr ++ [e]) p.
Proof.
  intros (tr1 & task & policy & tr2 & -> & ? & ? & ? & Hn) He.
  exists tr1, task, policy, (tr2 ++ [e]). rewrite <- app_assoc. split_and!; [done..|].
  intros e' [?|Heq]%elem_of_snoc; [by apply Hn|by rewrite Heq].
Qed.

Lemma grant_issued_snoc tr g e :
  grant_issued tr g → ¬ revokes (sg_taskId g) (sg_siteId g) e → grant_issued (tr ++ [e]) g.
Proof.
  intros (tr1 & op & task & policy & tr2 & -> & Hent & ? & ? & ? & ? & ? & Hn) He.
  exists tr1, op, task, policy, (tr2 ++ [e]). rewrite <- app_assoc. split_and!; [done..|].
  intros e' [?|Heq]%elem_of_snoc; [by apply Hn|by rewrite Heq].
Qed.

Lemma grant_issued_now tr op task policy g :
  entitled tr op task policy → of_grant task policy g →
  grant_issued (tr ++ [(op, Ok (issued_grant g))]) g.
Proof.
  intros Hent (? & ? & ? & ? & ?). exists tr, op, task, policy, []. split_and!; [done..|].
  by intros e ?%not_elem_of_nil.
Qed.

Lemma consumed_snoc tr e : omap consumed (tr ++ [e]) = omap consumed tr ++ option_list (consumed e).
Proof. rewrite omap_app. cbn. by destruct (consumed e). Qed.

(** What a shrinking operation leaves is accounted for by the longer trace. *)
Lemma site_inv_shrinks s s1 tr : site_inv s tr → shrinks s s1 → site_inv s1 tr.
Proof.
  intros [I1 I2 I3 I4 I5] [S1 S2 S3 S4]. constructor; [done| | |done|].
  - intros id p Hp. by apply I2, S1.
  - intros k g Hg. by apply I3, S2.
  - intros id Hid. destruct (I5 id) as (n & ? & ->); [|exists n; split; [lia|done]].
    destruct Hid as [?|[p Hp]]; [by left|]. right. exists p. by apply S1.
Qed.

Lemma site_inv_quiet s tr e :
  site_inv s tr → consumed e = None →
  (∀ id p, jget id (gr_pending s) = Some p → e.1 ≠ S_revokeTask (pc_taskId p)) →
  (∀ k g, jget k (gr_grants s) = Some g → ¬ revokes (sg_taskId g) (sg_siteId g) e) →
  site_inv s (tr ++ [e]).
Proof.
  intros [I1 I2 I3 I4 I5] He Hp Hg. assert (omap consumed (tr ++ [e]) = omap consumed tr) as Ho
    by (rewrite consumed_snoc, He; apply app_nil_r).
  constructor; rewrite ?Ho; [done| | |done|done].
  - intros id p Hid. destruct (I2 id p Hid) as (? & ? & ?). split_and!; [done| |done].
    apply confirmation_created_snoc; [done|by eapply Hp].
  - intros k g Hk. destruct (I3 k g Hk). split; [done|]. apply grant_issued_snoc; [done|by eapply Hg].
Qed.

Lemma effect_shrink_inv op s r s' tr :
  site_inv s' tr → (∀ g, r ≠ Ok (issued_grant g)) →
  (∀ t, op = S_revokeTask t →
     (∀ id p, jget id (gr_pending s') = Some p → pc_taskId p ≠ t) ∧
     (∀ k g, jget k (gr_grants s') = Some g → sg_taskId g ≠ t)) →
  (∀ t site, op = S_revokeTaskSite t site → jget (grantKey t site) (gr_grants s') = None) →
  site_inv s' (tr ++ [(op, r)]).
Proof.
  intros I Hg Hrt Hrs. apply site_inv_quiet; [done| | |]; cbn.
  - destruct op; try done. destruct r as [[]|]; try done. by destruct (Hg g).
  - intros id p Hp ->. by destruct (Hrt _ eq_refl) as [Hn _]; apply (Hn id p Hp).
  - intros k g Hk [E|E]; cbn in E.
    + destruct (Hrt _ E) as [_ Hn]. by apply (Hn k g).
    + apply (si_grants _ _ I) in Hk as Hk'. destruct Hk' as [-> _].
      by rewrite (Hrs _ _ E : jget (sg_key g) _ = None) in Hk.
Qed.

Lemma effect_created_inv task policy p n s s1 tr :
  Inj (=) (=) browser_uuid → site_inv s tr → site_inv s1 tr →
  gr_draws s ≤ n < gr_draws s1 → pc_confirmationId p = confirmation_id n → of_confirmation task policy p →
  site_inv (on_pending (jset (pc_confirmationId p) p) s1)
    (tr ++ [(S_createConfirmation task policy (pc_purpose p), Ok (a_confirmation p))]).
Proof.
  intros Huuid I I1 Hn Hid (? & ? & ?).
  apply (site_inv_quiet _ _ (S_createConfirmation task policy (pc_purpose p), Ok (a_confirmation p))) in I1 as I2;
    [|done|done|by intros ? ? _ [|]].
  destruct I2 as [J1 J2 J3 J4 J5]. set (tr' := tr ++ [_]) in *.
  constructor; [|cbn|done|done|cbn].
  - destruct J1. split; [by apply jsmap_ok_set|done].
  - intros id p'. rewrite jget_set. case_decide as E; [intros [= <-]; subst|apply J2].
    split_and!; [done| |].
    + exists tr, task, policy, []. split_and!; [done..|]. by intros e ?%not_elem_of_nil.
    + rewrite Hid. subst tr'. rewrite consumed_snoc. cbn. rewrite app_nil_r. intros Hin.
      destruct (si_drawn _ _ I (confirmation_id n)) as (m & Hm & E); [by left|].
      apply (inj (String.append "site-confirm-")), Huuid in E. lia.
  - intros id. rewrite jget_set. case_decide as E; [|apply J5]. intros _. exists n.
    split; [lia|congruence].
Qed.

Lemma set_grant_inv s tr op task policy g :
  map_ok s →
  (∀ id p, jget id (gr_pending s) = Some p → pc_confirmationId p = id ∧ confirmation_created tr p ∧
     id ∉ omap consumed (tr ++ [(op, Ok (issued_grant g))])) →
  (∀ k g', jget k (gr_grants s) = Some g' → k = sg_key g' ∧ grant_issued tr g') →
  NoDup (omap consumed (tr ++ [(op, Ok (issued_grant g))])) →
  (∀ id, id ∈ omap consumed (tr ++ [(op, Ok (issued_grant g))]) ∨ is_Some (jget id (gr_pending s)) →
     ∃ n, n < gr_draws s ∧ id = confirmation_id n) →
  entitled tr op task policy → of_grant task policy g →
  site_inv (on_grants (jset (sg_key g) g) s) (tr ++ [(op, Ok (issued_grant g))]).
Proof.
  intros [M1 M2] Hp Hg Hd Hold Hent Hof.
  assert (∀ t site, op ≠ S_revokeTask t ∧ op ≠ S_revokeTaskSite t site) as Hop
    by (destruct Hent as [->|(? & ? & -> & _)]; done).
  constructor; [|cbn|cbn|done|done].
  - split; [done|by apply jsmap_ok_set].
  - intros id p Hid. destruct (Hp id p Hid) as (? & ? & ?). split_and!; [done| |done].
    apply confirmation_created_snoc; [done|]. by destruct (Hop (pc_taskId p) ""%string).
  - intros k g'. rewrite jget_set. case_decide as E; [intros [= <-]; subst|].
    + split; [done|]. by apply grant_issued_now with task policy.
    + intros Hk. destruct (Hg k g' Hk). split; [done|]. apply grant_issued_snoc; [done|].
      destruct (Hop (sg_taskId g') (sg_siteId g')). by intros [|].
Qed.

Lemma site_step_inv s tr op :
  Inj (=) (=) browser_uuid → site_inv s tr → site_inv (run_site op s).2 (tr ++ [(op, (run_site op s).1)]).
Proof.
  intros Huuid I. destruct (run_site_effect op s (si_ok _ _ I))
    as [r s' Hs _ Hg Hrt Hrs|task policy p n s1 -> Hs Hn Hid Hof|task policy g s1 -> Hs Hof
       |id task policy p g s1 -> Hp Hofp Hs Hnone Hof];
    pose proof (site_inv_shrinks _ _ _ I Hs) as I1.
  - by apply effect_shrink_inv.
  - by apply effect_created_inv with n s.
  - destruct I1 as [J1 J2 J3 J4 J5].
    apply set_grant_inv with task policy; rewrite ?consumed_snoc; cbn; rewrite ?app_nil_r; try done. by left.
  - destruct I1 as [J1 J2 J3 J4 J5]. destruct (si_pending _ _ I _ _ Hp) as (Hpid & Hcr & Hnew).
    apply set_grant_inv with task policy; rewrite ?consumed_snoc; cbn; try done.
    + intros id' p' Hp'. destruct (J2 _ _ Hp') as (? & ? & ?). split_and!; [done..|].
      intros [?| ->]%elem_of_snoc; [done|]. congruence.
    + apply NoDup_app. split_and!; [done| |apply NoDup_singleton].
      by intros x Hx ->%list_elem_of_singleton.
    + intros id' [[Hin| ->]%elem_of_snoc|Hin]; [apply J5; by left| |apply J5; by right].
      destruct (si_drawn _ _ I id) as (n & ? & ->); [right; eauto|]. exists n.
      pose proof (shrinks_draws _ _ Hs). split; [lia|done].
    + right. exists id, p. destruct Hofp as (? & ? & ?). done.
Qed.

Lemma site_reachable_inv s tr :
  Inj (=) (=) browser_uuid → site_reachable (s, tr) → site_inv s tr.
Proof.
  intros Huuid Hr. assert (∀ w, rtc site_step (new_BrowserSiteGrantRegistry, []) w → site_inv w.1 w.2) as Hall.
  { apply (rtc_ind_r (λ w, site_inv w.1 w.2)).
    - constructor; cbn; try done; [split; constructor|constructor|].
      intros id [?%not_elem_of_nil|[p Hp]]; [done|done].
    - intros w1 w2 _ [op s' tr'] I. cbn in *. by apply site_step_inv. }
  exact (Hall _ Hr).
Qed.

(** [requireGrant] returns a stored grant of that owner which has not expired. *)
Lemma requireGrant_Ok task policy s g s' :
  requireGrant task policy s = (Ok g, s') →
  jget (grantKey (bt_taskId task) (sp_siteId policy)) (gr_grants s) = Some g ∧
  sg_ownerScopeHash g = bt_ownerScopeHash task ∧ (Date_now (S (gr_draws s)) < sg_expiresAt g)%Z.
Proof.
  unfold requireGrant. intros Hr. rewrite (bind_run _ _ _ _ _ (draw_site_run _ s)) in Hr.
  unfold pruneExpiredConfirmations in Hr. run_inv. rewrite draw_site_run in *. simplify_eq/=. bool_inv.
  destruct (_ <=? _)%Z eqn:Ht; run_inv. split_and!; [done..|]. lia.
Qed.

(** Running a list of operations is a sequence of steps. *)
Fixpoint run_sites (ops : list site_op) (w : BrowserSiteGrantRegistry * list site_event) :
    BrowserSiteGrantRegistry * list site_event :=
  match ops with
  | [] => w
  | op :: ops => run_sites ops ((run_site op w.1).2, w.2 ++ [(op, (run_site op w.1).1)])
  end.

Lemma run_sites_steps ops w : rtc site_step w (run_sites ops w).
Proof.
  revert w. induction ops as [|op ops IH]; intros [s tr]; [apply rtc_refl|].
  eapply rtc_l; [apply (site_step_op op)|apply IH].
Qed.
End props.
