(* ===== verification/BrowserIdempotency.v ===== *)
(** * BrowserIdempotency: one execution per idempotency key

    services/browser-worker/services/browser-idempotency-registry.ts.  A call with a
    key either starts its operation and stores the promise of the result, or gets the
    promise an earlier call with the same key and fingerprint stored.  The promise of
    the [n]-th started operation is named by [n]; when it settles, the entry gets an
    expiry and the next [prune] after it removes the entry.

    [onDisposition] is a callback of the embedder that [observe] shields; the values
    it is called with are the log [ir_observed]. *)

From S2P Require Import Prelude Text JsMap BrowserTasks.

Inductive disposition := hit | miss | conflict | capacity | expiration.
#[global] Instance disposition_eq_dec : EqDecision disposition.
Proof. solve_decision. Defined.

(** [expiresAt] is [None] for [Number.POSITIVE_INFINITY]. *)
Record IdempotencyEntry := {
  ie_fingerprint : string;
  ie_expiresAt : option Z;
  ie_settled : bool;
  ie_value : nat;
}.

Record BrowserIdempotencyRegistry := {
  ir_entries : jsmap IdempotencyEntry;
  ir_ttlMs : Z;
  ir_maxEntries : nat;
  ir_hits : nat;
  ir_misses : nat;
  ir_conflicts : nat;
  ir_evictions : nat;
  ir_expirations : nat;
  ir_observed : list disposition;
  ir_started : nat;
}.

Definition DEFAULT_TTL_MS : Z := 5 * 60 * 1000.
Definition DEFAULT_MAX_ENTRIES : nat := Z.to_nat 4096.

Definition new_BrowserIdempotencyRegistry (ttlMs : option Z) (maxEntries : option nat) :
    BrowserIdempotencyRegistry :=
  {| ir_entries := []; ir_ttlMs := default DEFAULT_TTL_MS ttlMs;
     ir_maxEntries := default DEFAULT_MAX_ENTRIES maxEntries;
     ir_hits := 0; ir_misses := 0; ir_conflicts := 0; ir_evictions := 0; ir_expirations := 0;
     ir_observed := []; ir_started := 0 |}.

Definition set_entries f (s : BrowserIdempotencyRegistry) :=
  {| ir_entries := f (ir_entries s); ir_ttlMs := ir_ttlMs s; ir_maxEntries := ir_maxEntries s;
     ir_hits := ir_hits s; ir_misses := ir_misses s; ir_conflicts := ir_conflicts s;
     ir_evictions := ir_evictions s; ir_expirations := ir_expirations s;
     ir_observed := ir_observed s; ir_started := ir_started s |}.
Definition count (h m c x : nat) (s : BrowserIdempotencyRegistry) :=
  {| ir_entries := ir_entries s; ir_ttlMs := ir_ttlMs s; ir_maxEntries := ir_maxEntries s;
     ir_hits := ir_hits s + h; ir_misses := ir_misses s + m; ir_conflicts := ir_conflicts s + c;
     ir_evictions := ir_evictions s; ir_expirations := ir_expirations s + x;
     ir_observed := ir_observed s; ir_started := ir_started s |}.
Definition set_observed f (s : BrowserIdempotencyRegistry) :=
  {| ir_entries := ir_entries s; ir_ttlMs := ir_ttlMs s; ir_maxEntries := ir_maxEntries s;
     ir_hits := ir_hits s; ir_misses := ir_misses s; ir_conflicts := ir_conflicts s;
     ir_evictions := ir_evictions s; ir_expirations := ir_expirations s;
     ir_observed := f (ir_observed s); ir_started := ir_started s |}.
Definition next_operation (s : BrowserIdempotencyRegistry) :=
  {| ir_entries := ir_entries s; ir_ttlMs := ir_ttlMs s; ir_maxEntries := ir_maxEntries s;
     ir_hits := ir_hits s; ir_misses := ir_misses s; ir_conflicts := ir_conflicts s;
     ir_evictions := ir_evictions s; ir_expirations := ir_expirations s;
     ir_observed := ir_observed s; ir_started := S (ir_started s) |}.

Definition ID := io BrowserIdempotencyRegistry browser_error.

Definition observe (d : disposition) : ID unit := modify (set_observed (λ l, l ++ [d])).

(** [operation()]: its promise. *)
Definition start_operation : ID nat := n ← gets ir_started; modify next_operation;; mret n.

(** The test of [prune]. *)
Definition entry_expired (now : Z) (e : IdempotencyEntry) : bool :=
  ie_settled e && match ie_expiresAt e with Some x => (x <=? now)%Z | None => false end.

Definition prune (now : Z) : ID unit :=
  gone ← gets (λ s, filter_entries (λ _ e, entry_expired now e) (ir_entries s));
  modify (set_entries (filter_entries (λ _ e, negb (entry_expired now e))));;
  for_each (λ _, modify (count 0 0 0 1);; observe expiration) gone.

Definition ensureCapacity : ID unit :=
  full ← gets (λ s, negb (length (ir_entries s) <? ir_maxEntries s));
  if full : bool then observe capacity;; throw LIMIT_EXCEEDED else mret tt.

(** [run]; [now] is the reading of the clock by [prune].  It returns the promise.  *)
Definition run (key : option string) (fingerprint : string) (now : Z) : ID nat :=
  match nonempty key with
  | None => start_operation
  | Some key =>
      prune now;;
      existing ← gets (λ s, jget key (ir_entries s));
      match existing with
      | Some e =>
          if bool_decide (ie_fingerprint e = fingerprint) then
            modify (count 1 0 0 0);; observe hit;; mret (ie_value e)
          else
            modify (count 0 0 1 0);; observe conflict;; throw IDEMPOTENCY_KEY_CONFLICT
      | None =>
          ensureCapacity;;
          modify (count 0 1 0 0);; observe miss;;
          n ← start_operation;
          modify (set_entries (jset key
            {| ie_fingerprint := fingerprint; ie_expiresAt := None; ie_settled := false;
               ie_value := n |}));;
          mret n
      end
  end.

(** The two continuations of the stored promise: the operation settled at [now].  They
    update the entry they closed over, which is stored under the key of the call. *)
Definition settle_entry (n : nat) (expiresAt : Z) (e : IdempotencyEntry) : IdempotencyEntry :=
  if ie_value e =? n then
    {| ie_fingerprint := ie_fingerprint e; ie_expiresAt := Some expiresAt; ie_settled := true;
       ie_value := ie_value e |}
  else e.

Definition settle (n : nat) (now : Z) : ID unit :=
  ttl ← gets ir_ttlMs;
  modify (set_entries (map (λ x, (x.1, settle_entry n (now + ttl)%Z x.2)))).

Record BrowserIdempotencyMetrics := {
  im_entries : nat;
  im_hits : nat;
  im_misses : nat;
  im_conflicts : nat;
  im_evictions : nat;
  im_expirations : nat;
}.

Definition snapshot_metrics (now : Z) : ID BrowserIdempotencyMetrics :=
  prune now;;
  gets (λ s, {| im_entries := length (ir_entries s); im_hits := ir_hits s;
                im_misses := ir_misses s; im_conflicts := ir_conflicts s;
                im_evictions := ir_evictions s; im_expirations := ir_expirations s |}).

(** [get size()] *)
Definition size (now : Z) : ID nat := m ← snapshot_metrics now; mret (im_entries m).

(** ** BrowserIdempotencyProps: histories of the idempotency registry

    Calls, settlements of started operations and readings of the metrics in any
    order, and the invariant that ties the entries to the history. *)

Inductive idem_event :=
| E_run (key : option string) (fingerprint : string) (now : Z) (r : outcome browser_error nat)
| E_settle (n : nat) (now : Z)
| E_metrics (now : Z).

(** The reading of the clock at which an event prunes the registry. *)
Definition prune_time (e : idem_event) : option Z :=
  match e with
  | E_run key _ now _ => nonempty key ≫= λ _, Some now
  | E_metrics now => Some now
  | E_settle _ _ => None
  end.

(** Operation [n] settled and the registry was pruned when its entry had expired. *)
Definition lapsed (ttl : Z) (tr : list idem_event) (n : nat) : Prop :=
  ∃ tr1 u tr2 e t, tr = tr1 ++ E_settle n u :: tr2 ∧ e ∈ tr2 ∧ prune_time e = Some t ∧
    (u + ttl ≤ t)%Z.

Definition settled_in (tr : list idem_event) (n : nat) : Prop := ∃ u, E_settle n u ∈ tr.

(** A promise settles once, after its operation started. *)
Inductive idem_step : BrowserIdempotencyRegistry * list idem_event →
                      BrowserIdempotencyRegistry * list idem_event → Prop :=
| idem_run key fp now s tr :
    idem_step (s, tr) ((run key fp now s).2, tr ++ [E_run key fp now (run key fp now s).1])
| idem_settle n now s tr :
    n < ir_started s → ¬ settled_in tr n →
    idem_step (s, tr) ((settle n now s).2, tr ++ [E_settle n now])
| idem_metrics now s tr :
    idem_step (s, tr) ((snapshot_metrics now s).2, tr ++ [E_metrics now]).

Definition idem_reachable (ttl : option Z) (max : option nat)
    (w : BrowserIdempotencyRegistry * list idem_event) : Prop :=
  rtc idem_step (new_BrowserIdempotencyRegistry ttl max, []) w.

(** ** The state after [prune] *)

Definition pruned_entries (now : Z) (s : BrowserIdempotencyRegistry) : jsmap IdempotencyEntry :=
  filter_entries (λ _ e, negb (entry_expired now e)) (ir_entries s).

Definition after_prune (now : Z) (s s1 : BrowserIdempotencyRegistry) : Prop :=
  ir_entries s1 = pruned_entries now s ∧ ir_ttlMs s1 = ir_ttlMs s ∧ ir_maxEntries s1 = ir_maxEntries s ∧
  ir_hits s1 = ir_hits s ∧ ir_misses s1 = ir_misses s ∧ ir_conflicts s1 = ir_conflicts s ∧
  ir_evictions s1 = ir_evictions s ∧ ir_started s1 = ir_started s ∧
  length (ir_entries s1) + ir_expirations s1 = length (ir_entries s) + ir_expirations s.

Lemma for_each_expirations (gone : jsmap IdempotencyEntry) s :
  ∃ s1, for_each (λ _, modify (count 0 0 0 1);; observe expiration) gone s = (Ok tt, s1) ∧
    ir_entries s1 = ir_entries s ∧ ir_ttlMs s1 = ir_ttlMs s ∧ ir_maxEntries s1 = ir_maxEntries s ∧
    ir_hits s1 = ir_hits s ∧ ir_misses s1 = ir_misses s ∧ ir_conflicts s1 = ir_conflicts s ∧
    ir_evictions s1 = ir_evictions s ∧ ir_started s1 = ir_started s ∧
    ir_expirations s1 = ir_expirations s + length gone.
Proof.
  revert s. induction gone as [|x gone IH]; intros s; cbn -[count].
  - exists s. split_and!; [done..|lia].
  - destruct (IH (set_observed (λ l, l ++ [expiration]) (count 0 0 0 1 s))) as (s1 & Hs & A).
    exists s1. split; [exact Hs|]. cbn in A. destruct_and! A. split_and!; [congruence || lia..|lia].
Qed.

Lemma filter_partition {A} (p : A → bool) (l : list A) :
  length (List.filter p l) + length (List.filter (λ x, negb (p x)) l) = length l.
Proof. induction l as [|x l IH]; cbn; [done|]. destruct (p x); cbn; lia. Qed.

Lemma prune_run now s : ∃ s1, prune now s = (Ok tt, s1) ∧ after_prune now s s1.
Proof.
  destruct (for_each_expirations (filter_entries (λ _ e, entry_expired now e) (ir_entries s))
    (set_entries (filter_entries (λ _ e, negb (entry_expired now e))) s)) as (s1 & Hs & A).
  exists s1. split; [exact Hs|]. cbn in A. destruct_and! A. unfold after_prune, pruned_entries.
  split_and!; [congruence..|].
  pose proof (filter_partition (λ x : string * IdempotencyEntry, entry_expired now x.2) (ir_entries s)) as Hl.
  match goal with H : ir_entries s1 = _ |- _ => rewrite H end.
  match goal with H : ir_expirations s1 = _ |- _ => rewrite H end.
  unfold filter_entries in *. lia.
Qed.

(** ** The invariant

    [R] are the events whose results the entries account for. *)
Record idem_inv (ttl : Z) (s : BrowserIdempotencyRegistry) (tr R : list idem_event) : Prop := {
  ii_ok : jsmap_ok (ir_entries s);
  ii_ttl : ir_ttlMs s = ttl;
  ii_started : ∀ k e, jget k (ir_entries s) = Some e → ie_value e < ir_started s;
  ii_values : ∀ k k' e e', jget k (ir_entries s) = Some e → jget k' (ir_entries s) = Some e' →
    ie_value e = ie_value e' → k = k';
  ii_entry : ∀ k e, jget k (ir_entries s) = Some e →
    if ie_settled e then ∃ u, ie_expiresAt e = Some (u + ttl)%Z ∧ E_settle (ie_value e) u ∈ tr
    else ie_expiresAt e = None ∧ ¬ settled_in tr (ie_value e);
  ii_runs : ∀ k fp t n, k ≠ ""%string → E_run (Some k) fp t (Ok n) ∈ R →
    (∃ e, jget k (ir_entries s) = Some e ∧ ie_fingerprint e = fp ∧ ie_value e = n) ∨ lapsed ttl tr n;
  ii_settles : ∀ n, settled_in tr n → n < ir_started s;
  ii_bound : length (ir_entries s) ≤ ir_maxEntries s;
  ii_count : ir_misses s = length (ir_entries s) + ir_expirations s ∧ ir_evictions s = 0;
}.

Lemma lapsed_snoc ttl tr n e : lapsed ttl tr n → lapsed ttl (tr ++ [e]) n.
Proof.
  intros (tr1 & u & tr2 & e' & t & -> & ? & ? & ?). exists tr1, u, (tr2 ++ [e]), e', t.
  rewrite <- app_assoc. split_and!; [done| |done|done]. apply elem_of_app. by left.
Qed.

Lemma settled_in_snoc tr n e :
  settled_in (tr ++ [e]) n ↔ settled_in tr n ∨ ∃ u, e = E_settle n u.
Proof. unfold settled_in. setoid_rewrite elem_of_snoc. naive_solver. Qed.

Lemma pruned_lapsed ttl tr e n u t :
  E_settle n u ∈ tr → prune_time e = Some t → (u + ttl ≤ t)%Z → lapsed ttl (tr ++ [e]) n.
Proof.
  intros (tr1 & tr2 & ->)%list_elem_of_split Ht Hu. exists tr1, u, (tr2 ++ [e]), e, t.
  rewrite <- app_assoc. split_and!; [done| |done|done]. apply elem_of_app. right. left.
Qed.

Lemma prune_inv ttl s s1 tr e now :
  idem_inv ttl s tr tr → after_prune now s s1 → prune_time e = Some now →
  idem_inv ttl s1 (tr ++ [e]) tr.
Proof.
  intros I (He & Ht & Hm & _ & Hmiss & _ & Hev & Hst & Hlen) Hp.
  assert (∀ k x, jget k (ir_entries s1) = Some x ↔
    jget k (ir_entries s) = Some x ∧ entry_expired now x = false) as Hget.
  { intros k x. rewrite He. unfold pruned_entries. rewrite jget_filter_Some by apply I.
    by rewrite negb_true_iff. }
  assert (∀ n, settled_in (tr ++ [e]) n ↔ settled_in tr n) as Hset.
  { intros n. rewrite settled_in_snoc. split; [|by left]. intros [?|[u ->]]; done. }
  destruct I as [I1 I2 I3 I4 I5 I6 I7 I8 I9]. constructor.
  - rewrite He. by apply jsmap_ok_filter.
  - congruence.
  - intros k x [Hk _]%Hget. rewrite Hst. eauto.
  - intros k k' x x' [? _]%Hget [? _]%Hget. eauto.
  - intros k x [Hk _]%Hget. specialize (I5 k x Hk). destruct (ie_settled x).
    + destruct I5 as (u & ? & ?). exists u. split; [done|]. apply elem_of_snoc. by left.
    + by rewrite Hset.
  - intros k fp t n Hk Hr. destruct (I6 k fp t n Hk Hr) as [(x & Hx & Hfp & Hn)|Hl];
      [|right; by apply lapsed_snoc].
    destruct (entry_expired now x) eqn:Hexp; [|left; exists x; by rewrite Hget].
    right. unfold entry_expired in Hexp. bool_inv. specialize (I5 k x Hx).
    destruct (ie_settled x); [|done]. destruct I5 as (u & Hu & Hin).
    match goal with H : context [ie_expiresAt x] |- _ => rewrite Hu in H; apply Z.leb_le in H end.
    subst n. by eapply pruned_lapsed.
  - intros n Hn. rewrite Hst. by apply I7, Hset.
  - rewrite He, Hm. etrans; [apply filter_entries_length|done].
  - destruct I9. split; [lia|congruence].
Qed.

(** The entries account for one more event. *)
Lemma idem_inv_event ttl s tr R e :
  idem_inv ttl s tr R →
  (∀ k fp t n, k ≠ ""%string → e = E_run (Some k) fp t (Ok n) →
     ∃ x, jget k (ir_entries s) = Some x ∧ ie_fingerprint x = fp ∧ ie_value x = n) →
  idem_inv ttl s tr (R ++ [e]).
Proof.
  intros [I1 I2 I3 I4 I5 I6 I7 I8 I9] He. constructor; try done.
  intros k fp t n Hk [?|Heq]%elem_of_snoc; [by eapply I6|]. left. by eapply He.
Qed.

(** Counters and observations are not part of the invariant. *)
Lemma idem_inv_counted ttl s s' tr R :
  idem_inv ttl s tr R →
  ir_entries s' = ir_entries s → ir_ttlMs s' = ir_ttlMs s → ir_maxEntries s' = ir_maxEntries s →
  ir_misses s' = ir_misses s → ir_expirations s' = ir_expirations s →
  ir_evictions s' = ir_evictions s → ir_started s ≤ ir_started s' →
  idem_inv ttl s' tr R.
Proof.
  intros [I1 I2 I3 I4 I5 I6 I7 I8 I9] He Ht Hm Hmi Hx Hev Hst.
  constructor; rewrite ?He, ?Hmi, ?Hx, ?Hev, ?Hm; try done; [congruence|..].
  - intros k e Hk. specialize (I3 k e Hk). lia.
  - intros n Hn. specialize (I7 n Hn). lia.
Qed.

(** A new operation under a free key. *)
Lemma idem_inv_miss ttl s s' tr R k fp :
  idem_inv ttl s tr R → jget k (ir_entries s) = None → length (ir_entries s) < ir_maxEntries s →
  ir_entries s' = jset k {| ie_fingerprint := fp; ie_expiresAt := None; ie_settled := false;
                            ie_value := ir_started s |} (ir_entries s) →
  ir_ttlMs s' = ir_ttlMs s → ir_maxEntries s' = ir_maxEntries s →
  ir_misses s' = S (ir_misses s) → ir_expirations s' = ir_expirations s →
  ir_evictions s' = ir_evictions s → ir_started s' = S (ir_started s) →
  idem_inv ttl s' tr R.
Proof.
  intros [I1 I2 I3 I4 I5 I6 I7 I8 [I9 I10]] Hfree Hcap He Ht Hm Hmi Hx Hev Hst.
  assert (length (ir_entries s') = S (length (ir_entries s))) as Hlen.
  { rewrite He, jset_length. destruct (existsb _ _) eqn:Hb; [|done].
    apply existsb_has_key in Hb. by apply jget_None in Hfree. }
  constructor; rewrite ?Hlen, ?Hmi, ?Hx, ?Hev, ?Hm, ?Hst, ?He.
  - by apply jsmap_ok_set.
  - congruence.
  - intros k' e. rewrite jget_set. case_decide; [intros [= <-]; cbn; lia|].
    intros Hk. specialize (I3 _ _ Hk). lia.
  - intros k1 k2 e1 e2. rewrite !jget_set. repeat case_decide; [congruence|..|by eapply I4].
    + intros [= <-] Hk Heq. specialize (I3 _ _ Hk). cbn in Heq. lia.
    + intros Hk [= <-] Heq. specialize (I3 _ _ Hk). cbn in Heq. lia.
  - intros k' e. rewrite jget_set. case_decide; [|apply I5]. intros [= <-]. cbn. split; [done|].
    intros Hs%I7. lia.
  - intros k' fp' t n Hk Hr. destruct (I6 k' fp' t n Hk Hr) as [(x & Hx' & ?)|?]; [|by right]. left.
    exists x. rewrite jget_set, decide_False by congruence. done.
  - intros n Hn. specialize (I7 n Hn). lia.
  - lia.
  - lia.
Qed.

(** The cases of [run] with a key. *)
Lemma run_cases k fp now s :
  k ≠ ""%string → ∃ s1, after_prune now s s1 ∧
  match jget k (ir_entries s1) with
  | Some x =>
      if bool_decide (ie_fingerprint x = fp)
      then run (Some k) fp now s =
             (Ok (ie_value x), set_observed (λ l, l ++ [hit]) (count 1 0 0 0 s1))
      else run (Some k) fp now s =
             (Err IDEMPOTENCY_KEY_CONFLICT, set_observed (λ l, l ++ [conflict]) (count 0 0 1 0 s1))
  | None =>
      if length (ir_entries s1) <? ir_maxEntries s1
      then run (Some k) fp now s =
             (Ok (ir_started s1), set_entries (jset k
                {| ie_fingerprint := fp; ie_expiresAt := None; ie_settled := false;
                   ie_value := ir_started s1 |})
                (next_operation (set_observed (λ l, l ++ [miss]) (count 0 1 0 0 s1))))
      else run (Some k) fp now s =
             (Err LIMIT_EXCEEDED, set_observed (λ l, l ++ [capacity]) s1)
  end.
Proof.
  intros Hk. destruct (prune_run now s) as (s1 & Hp & Ha). exists s1. split; [done|].
  unfold run. rewrite nonempty_Some by done. rewrite (bind_run _ _ _ _ _ Hp).
  unfold mbind, io_bind, gets.
  destruct (jget k (ir_entries s1)) as [x|] eqn:Hg; rewrite ?Hg; [by case_bool_decide|].
  destruct (length (ir_entries s1) <? ir_maxEntries s1) eqn:Hc;
    unfold ensureCapacity, mbind, io_bind, gets; by rewrite Hc.
Qed.

Lemma run_max key fp now s : ir_maxEntries (run key fp now s).2 = ir_maxEntries s.
Proof.
  destruct (nonempty key) as [k|] eqn:Hkey; [|by unfold run; rewrite Hkey].
  assert (key = Some k ∧ k ≠ ""%string) as [-> Hk] by (destruct key as [[]|]; naive_solver).
  destruct (run_cases k fp now s Hk) as (s1 & (_ & _ & <- & _) & Hc).
  destruct (jget k (ir_entries s1)); [case_bool_decide|destruct (_ <? _)]; by rewrite Hc.
Qed.

Lemma idem_inv_quiet ttl s tr R e :
  idem_inv ttl s tr R → (∀ n u, e ≠ E_settle n u) → idem_inv ttl s (tr ++ [e]) R.
Proof.
  intros [I1 I2 I3 I4 I5 I6 I7 I8 I9] He.
  assert (∀ n, settled_in (tr ++ [e]) n ↔ settled_in tr n) as Hset.
  { intros n. rewrite settled_in_snoc. split; [|by left]. intros [?|[u ->]]; [done|by destruct (He n u)]. }
  constructor; try done.
  - intros k x Hk. specialize (I5 k x Hk). destruct (ie_settled x); [|by rewrite Hset].
    destruct I5 as (u & ? & ?). exists u. split; [done|]. apply elem_of_snoc. by left.
  - intros k fp t n Hk Hr. destruct (I6 k fp t n Hk Hr); [by left|right; by apply lapsed_snoc].
  - intros n Hn%Hset. by apply I7.
Qed.

Lemma run_inv ttl key fp now s tr :
  idem_inv ttl s tr tr →
  idem_inv ttl (run key fp now s).2 (tr ++ [E_run key fp now (run key fp now s).1])
    (tr ++ [E_run key fp now (run key fp now s).1]).
Proof.
  intros I. destruct (nonempty key) as [k|] eqn:Hkey.
  - assert (key = Some k ∧ k ≠ ""%string) as [-> Hk] by (destruct key as [[]|]; naive_solver).
    destruct (run_cases k fp now s Hk) as (s1 & Ha & Hc).
    assert (∀ r, idem_inv ttl s1 (tr ++ [E_run (Some k) fp now r]) tr) as I1.
    { intros r. eapply prune_inv; [done..|]. unfold prune_time. by rewrite Hkey. }
    destruct (jget k (ir_entries s1)) as [x|] eqn:Hg.
    + case_bool_decide as Hfp; rewrite Hc; cbn [fst snd].
      * eapply idem_inv_counted; [apply idem_inv_event; [apply I1|]|cbn; (done || lia)..]. naive_solver.
      * eapply idem_inv_counted; [apply idem_inv_event; [apply I1|done]|cbn; (done || lia)..].
    + destruct (length _ <? _) eqn:Hcap; rewrite Hc; cbn [fst snd].
      * apply idem_inv_event.
        -- eapply (idem_inv_miss _ s1); [apply I1|done|by apply Nat.ltb_lt|cbn; (done || lia)..].
        -- intros k' fp' t n _ [= <- <- <- <-]. cbn. rewrite jget_set, decide_True by done. eauto.
      * eapply idem_inv_counted; [apply idem_inv_event; [apply I1|done]|done..].
  - assert (run key fp now s = (Ok (ir_started s), next_operation s)) as Hr by (unfold run; by rewrite Hkey).
    rewrite Hr. cbn [fst snd]. set (e := E_run key fp now (Ok (ir_started s))).
    apply idem_inv_event; [|by intros k fp' t n Hk [= ->]; rewrite nonempty_Some in Hkey by done].
    eapply idem_inv_counted; [by apply idem_inv_quiet|cbn; (done || lia)..].
Qed.

Lemma settle_get n now k s :
  jget k (ir_entries (settle n now s).2) =
  settle_entry n (now + ir_ttlMs s)%Z <$> jget k (ir_entries s).
Proof. apply (jget_map (λ x, settle_entry n (now + ir_ttlMs s)%Z x.2)). Qed.

Lemma settle_inv ttl n now s tr :
  idem_inv ttl s tr tr → n < ir_started s → ¬ settled_in tr n →
  idem_inv ttl (settle n now s).2 (tr ++ [E_settle n now]) (tr ++ [E_settle n now]).
Proof.
  intros I Hn Hnew. apply idem_inv_event; [|done].
  pose proof (settle_get n now) as Hget. destruct I as [I1 I2 I3 I4 I5 I6 I7 I8 I9].
  assert (∀ k y, jget k (ir_entries (settle n now s).2) = Some y →
    ∃ x, jget k (ir_entries s) = Some x ∧ ie_value y = ie_value x ∧
         ie_fingerprint y = ie_fingerprint x) as Hback.
  { intros k y. rewrite Hget. intros (x & Hx & ->)%fmap_Some. exists x. split; [done|].
    unfold settle_entry. by destruct (ie_value x =? n). }
  assert (length (ir_entries (settle n now s).2) = length (ir_entries s)) as Hlen by apply length_map.
  constructor.
  - by apply (jsmap_ok_map (λ x, settle_entry n (now + ir_ttlMs s)%Z x.2)).
  - done.
  - intros k y (x & Hx & -> & _)%Hback. by eapply I3.
  - intros k k' y y' (x & Hx & -> & _)%Hback (x' & Hx' & -> & _)%Hback. by eapply I4.
  - intros k y. rewrite Hget. intros (x & Hx & ->)%fmap_Some. specialize (I5 k x Hx).
    unfold settle_entry. destruct (Nat.eqb_spec (ie_value x) n) as [Hv|Hv].
    + cbn. exists now. rewrite I2, Hv. split; [done|]. apply elem_of_snoc. by right.
    + destruct (ie_settled x).
      * destruct I5 as (u & ? & ?). exists u. split; [done|]. apply elem_of_snoc. by left.
      * rewrite settled_in_snoc. naive_solver.
  - intros k fp t m Hk Hr. destruct (I6 k fp t m Hk Hr) as [(x & Hx & Hfp & Hm)|Hl];
      [|right; by apply lapsed_snoc].
    left. rewrite Hget, Hx. cbn. eexists. split; [done|]. unfold settle_entry.
    by destruct (ie_value x =? n).
  - intros m [?|[u [= <-]]]%settled_in_snoc; [by apply I7|done].
  - by rewrite Hlen.
  - by rewrite Hlen.
Qed.

Lemma metrics_inv ttl now s tr :
  idem_inv ttl s tr tr →
  idem_inv ttl (snapshot_metrics now s).2 (tr ++ [E_metrics now]) (tr ++ [E_metrics now]).
Proof.
  intros I. destruct (prune_run now s) as (s1 & Hp & Ha). unfold snapshot_metrics.
  rewrite (bind_run _ _ _ _ _ Hp). apply idem_inv_event; [|done]. by eapply prune_inv.
Qed.

Lemma idem_reachable_inv ttl max s tr :
  idem_reachable ttl max (s, tr) →
  idem_inv (default DEFAULT_TTL_MS ttl) s tr tr ∧ ir_maxEntries s = default DEFAULT_MAX_ENTRIES max.
Proof.
  intros Hr. set (T := default DEFAULT_TTL_MS ttl).
  assert (∀ w, rtc idem_step (new_BrowserIdempotencyRegistry ttl max, []) w → idem_inv T w.1 w.2 w.2 ∧
    ir_maxEntries w.1 = default DEFAULT_MAX_ENTRIES max) as Hall; [|exact (Hall _ Hr)].
  apply (rtc_ind_r (λ w, idem_inv T w.1 w.2 w.2 ∧ ir_maxEntries w.1 = default DEFAULT_MAX_ENTRIES max)).
  - split; [|done]. constructor; cbn; try done; [constructor| | |lia].
    + by intros ? ? ? ? _ ?%not_elem_of_nil.
    + by intros n [u ?%not_elem_of_nil].
  - intros w1 w2 _ Hs [I Hm]. destruct Hs as [key fp now s' tr'|n now s' tr' Hn Hnew|now s' tr']; cbn [fst snd] in *.
    + split; [by apply run_inv|]. rewrite <- Hm. apply run_max.
    + split; [by apply settle_inv|done].
    + split; [by apply metrics_inv|]. destruct (prune_run now s') as (s1 & Hp & Ha).
      unfold snapshot_metrics. rewrite (bind_run _ _ _ _ _ Hp). cbn. destruct Ha as (_ & _ & -> & _). done.
Qed.
