(* ===== verification/BrowserQueue.v ===== *)
(** * BrowserQueue: the queue of browser operations

    services/browser-worker/services/browser-operation-queue.ts.  Operations on one
    key (a tab) run one after the other, operations on different keys run at the same
    time up to a bound.

    [run] suspends at each [await]; between two of them it is one turn of the event
    loop, and the turns of different calls interleave.  The state records, for each
    call in order of arrival, its key, the call whose [current] promise is its
    [previous], and where it is suspended; [queue_event] is one turn.  Promises are
    named by the call that made them: [current] of call [i] settles when [i] has
    released its turn and its own [previous] has settled.  When aborts, queue
    timeouts and the end of a task happen is not decided here: they are events that
    may come at any time they are possible. *)

From S2P Require Import Prelude.

Inductive phase :=
| Waiting_turn  (** in [waitForTurn] *)
| Slot_queue    (** in [acquireSlot], its [resume] in [slotWaiters] *)
| Woken         (** its [resume] has been called, [acquireSlot] not yet continued *)
| Has_slot      (** [acquireSlot] has counted it as active, [run] not yet continued *)
| Running       (** in [task()] *)
| Finished.     (** returned or threw; its turn is released *)
#[global] Instance phase_eq_dec : EqDecision phase.
Proof. solve_decision. Defined.

Record call := {
  ca_key : string;
  ca_previous : option nat;  (** [None]: a resolved promise *)
  ca_phase : phase;
}.

Record BrowserOperationQueue := {
  bq_calls : list call;
  bq_tails : gmap string nat;
  bq_slotWaiters : list nat;
  bq_active : nat;
  bq_queued : nat;
  bq_maxConcurrency : nat;
}.

Definition DEFAULT_KEY : string := "context".

Definition new_BrowserOperationQueue (maxConcurrency : option nat) : BrowserOperationQueue :=
  {| bq_calls := []; bq_tails := ∅; bq_slotWaiters := []; bq_active := 0; bq_queued := 0;
     bq_maxConcurrency := default 4 maxConcurrency |}.

Definition queuedCount (s : BrowserOperationQueue) : nat := bq_queued s.

(** [current] of the call [o] has settled; a [previous] is an earlier call, so the
    number of calls is enough fuel. *)
Fixpoint settled_within (fuel : nat) (calls : list call) (o : option nat) : bool :=
  match o, fuel with
  | None, _ => true
  | Some i, S fuel =>
      match calls !! i with
      | Some c => bool_decide (ca_phase c = Finished) && settled_within fuel calls (ca_previous c)
      | None => false
      end
  | Some _, 0 => false
  end.

Definition promise_settled (s : BrowserOperationQueue) (o : option nat) : bool :=
  settled_within (length (bq_calls s)) (bq_calls s) o.

Definition with_phase (p : phase) (c : call) : call :=
  {| ca_key := ca_key c; ca_previous := ca_previous c; ca_phase := p |}.

Definition set_phase (i : nat) (p : phase) (s : BrowserOperationQueue) : BrowserOperationQueue :=
  {| bq_calls := alter (with_phase p) i (bq_calls s); bq_tails := bq_tails s;
     bq_slotWaiters := bq_slotWaiters s; bq_active := bq_active s; bq_queued := bq_queued s;
     bq_maxConcurrency := bq_maxConcurrency s |}.
Definition set_waiters (w : list nat) (s : BrowserOperationQueue) : BrowserOperationQueue :=
  {| bq_calls := bq_calls s; bq_tails := bq_tails s; bq_slotWaiters := w;
     bq_active := bq_active s; bq_queued := bq_queued s;
     bq_maxConcurrency := bq_maxConcurrency s |}.
Definition set_active (n : nat) (s : BrowserOperationQueue) : BrowserOperationQueue :=
  {| bq_calls := bq_calls s; bq_tails := bq_tails s; bq_slotWaiters := bq_slotWaiters s;
     bq_active := n; bq_queued := bq_queued s; bq_maxConcurrency := bq_maxConcurrency s |}.
Definition set_queued (n : nat) (s : BrowserOperationQueue) : BrowserOperationQueue :=
  {| bq_calls := bq_calls s; bq_tails := bq_tails s; bq_slotWaiters := bq_slotWaiters s;
     bq_active := bq_active s; bq_queued := n; bq_maxConcurrency := bq_maxConcurrency s |}.
Definition set_tails (m : gmap string nat) (s : BrowserOperationQueue) : BrowserOperationQueue :=
  {| bq_calls := bq_calls s; bq_tails := m; bq_slotWaiters := bq_slotWaiters s;
     bq_active := bq_active s; bq_queued := bq_queued s;
     bq_maxConcurrency := bq_maxConcurrency s |}.

(** ** The pieces of [run] *)

(** [run] up to its first [await]. *)
Definition enqueue (key : string) (s : BrowserOperationQueue) : BrowserOperationQueue :=
  {| bq_calls := bq_calls s ++
       [{| ca_key := key; ca_previous := bq_tails s !! key; ca_phase := Waiting_turn |}];
     bq_tails := <[key := length (bq_calls s)]> (bq_tails s);
     bq_slotWaiters := bq_slotWaiters s; bq_active := bq_active s;
     bq_queued := S (bq_queued s); bq_maxConcurrency := bq_maxConcurrency s |}.

(** One pass through the loop of [acquireSlot]. *)
Definition acquireSlot (i : nat) (s : BrowserOperationQueue) : BrowserOperationQueue :=
  if bq_maxConcurrency s <=? bq_active s
  then set_waiters (bq_slotWaiters s ++ [i]) (set_phase i Slot_queue s)
  else set_active (S (bq_active s)) (set_phase i Has_slot s).

(** The function [acquireSlot] returns. *)
Definition releaseSlot (s : BrowserOperationQueue) : BrowserOperationQueue :=
  let s := set_active (bq_active s - 1) s in
  match bq_slotWaiters s with
  | [] => s
  | w :: rest => set_phase w Woken (set_waiters rest s)
  end.

(** The [catch] around the two waits. *)
Definition abandon (i : nat) (s : BrowserOperationQueue) : BrowserOperationQueue :=
  set_phase i Finished (set_queued (bq_queued s - 1) s).

(** The [finally] around the task. *)
Definition leave (i : nat) (s : BrowserOperationQueue) : BrowserOperationQueue :=
  set_phase i Finished (releaseSlot s).

Inductive queue_event :=
| Ev_call (key : string)
| Ev_turn (i : nat)          (** [waitForTurn] continues *)
| Ev_abort_turn (i : nat)    (** the signal aborts it *)
| Ev_resume (i : nat)        (** a woken [acquireSlot] continues *)
| Ev_abort_slot (i : nat)    (** the signal aborts a call in [slotWaiters] *)
| Ev_abort_woken (i : nat)   (** the signal is aborted when a woken call would wait again *)
| Ev_start (i : nat)         (** the task starts *)
| Ev_refuse (i : nat)        (** aborted or too late: [run] throws before the task *)
| Ev_finish (i : nat)        (** the task returned or threw *)
| Ev_cleanup (key : string) (i : nat). (** the callback of [cleanupTail] *)

Definition phase_is (i : nat) (p : phase) (s : BrowserOperationQueue) : bool :=
  match bq_calls s !! i with Some c => bool_decide (ca_phase c = p) | None => false end.

Definition previous_settled (i : nat) (s : BrowserOperationQueue) : bool :=
  match bq_calls s !! i with Some c => promise_settled s (ca_previous c) | None => false end.

(** One turn; [None] when it is not possible. *)
Definition queue_turn (e : queue_event) (s : BrowserOperationQueue) : option BrowserOperationQueue :=
  match e with
  | Ev_call key => Some (enqueue key s)
  | Ev_turn i =>
      if phase_is i Waiting_turn s && previous_settled i s then Some (acquireSlot i s) else None
  | Ev_abort_turn i => if phase_is i Waiting_turn s then Some (abandon i s) else None
  | Ev_resume i => if phase_is i Woken s then Some (acquireSlot i s) else None
  | Ev_abort_slot i =>
      if phase_is i Slot_queue s
      then Some (abandon i
        (set_waiters (List.filter (λ w, negb (w =? i)) (bq_slotWaiters s)) s))
      else None
  | Ev_abort_woken i =>
      if phase_is i Woken s && (bq_maxConcurrency s <=? bq_active s)
      then Some (abandon i s) else None
  | Ev_start i =>
      if phase_is i Has_slot s
      then Some (set_phase i Running (set_queued (bq_queued s - 1) s)) else None
  | Ev_refuse i =>
      if phase_is i Has_slot s then Some (leave i (set_queued (bq_queued s - 1) s)) else None
  | Ev_finish i => if phase_is i Running s then Some (leave i s) else None
  | Ev_cleanup key i =>
      if bool_decide (bq_tails s !! key = Some i) && promise_settled s (Some i)
      then Some (set_tails (delete key (bq_tails s)) s) else None
  end.

Definition queue_step (s s' : BrowserOperationQueue) : Prop := ∃ e, queue_turn e s = Some s'.

Definition queue_reachable (max : option nat) (s : BrowserOperationQueue) : Prop :=
  rtc queue_step (new_BrowserOperationQueue max) s.

(** A list of turns that are all possible. *)
Fixpoint queue_turns (es : list queue_event) (s : BrowserOperationQueue) : option BrowserOperationQueue :=
  match es with
  | [] => Some s
  | e :: es => s' ← queue_turn e s; queue_turns es s'
  end.

(** ** BrowserQueueProps: the invariant of the operation queue

    [chain_inv]: the promise chain of a key orders its calls, so a call whose
    [previous] has settled is the first unfinished one.  [slot_inv]: the counters
    count, the slot waiters are the calls suspended there, and while one waits the
    slots are taken or promised to woken calls. *)

(** Past its turn and not yet finished. *)
Definition past_turn (p : phase) : bool :=
  match p with Slot_queue | Woken | Has_slot | Running => true | Waiting_turn | Finished => false end.
Definition holds_slot (c : call) : bool :=
  match ca_phase c with Has_slot | Running => true | _ => false end.
Definition is_queued (c : call) : bool :=
  match ca_phase c with Waiting_turn | Slot_queue | Woken | Has_slot => true | _ => false end.
Definition is_woken (c : call) : bool := match ca_phase c with Woken => true | _ => false end.

(** Every earlier call on the key of [c] has finished. *)
Definition first_in_line (calls : list call) (i : nat) (c : call) : Prop :=
  ∀ j d, j < i → calls !! j = Some d → ca_key d = ca_key c → ca_phase d = Finished.

Record chain_inv (calls : list call) (tails : gmap string nat) : Prop := {
  ch_previous : ∀ i c p, calls !! i = Some c → ca_previous c = Some p →
    p < i ∧ ∃ d, calls !! p = Some d ∧ ca_key d = ca_key c;
  ch_order : ∀ i c j d, calls !! i = Some c → calls !! j = Some d → j < i → ca_key d = ca_key c →
    ca_phase d = Finished ∨ ∃ p, ca_previous c = Some p ∧ j ≤ p;
  ch_tails : ∀ i c, calls !! i = Some c →
    ca_phase c = Finished ∨ ∃ p, tails !! ca_key c = Some p ∧ i ≤ p;
  ch_tail : ∀ k p, tails !! k = Some p → ∃ d, calls !! p = Some d ∧ ca_key d = k;
  ch_turn : ∀ i c, calls !! i = Some c → past_turn (ca_phase c) = true → first_in_line calls i c;
}.

Lemma settled_first calls tails fuel i c :
  chain_inv calls tails → calls !! i = Some c →
  settled_within fuel calls (ca_previous c) = true → first_in_line calls i c.
Proof.
  intros I. revert i c. induction fuel as [|fuel IH]; intros i c Hi Hs j d Hj Hd Hk.
  - destruct (ca_previous c) eqn:Hp; [done|].
    destruct (ch_order _ _ I i c j d) as [?|(p & ? & _)]; congruence.
  - destruct (ch_order _ _ I i c j d) as [?|(p & Hp & Hle)]; [done..|].
    rewrite Hp in Hs. cbn in Hs. destruct (ch_previous _ _ I i c p Hi Hp) as [Hlt (x & Hx & Hkx)].
    rewrite Hx in Hs. bool_inv. destruct (decide (j = p)) as [->|]; [congruence|].
    eapply (IH p x); [done|done| |done|congruence]. lia.
Qed.

(** A promise all of whose calls have finished has settled. *)
Lemma first_settled calls tails fuel i c :
  chain_inv calls tails → calls !! i = Some c → first_in_line calls i c → i ≤ fuel →
  settled_within fuel calls (ca_previous c) = true.
Proof.
  intros I. revert i c. induction fuel as [|fuel IH]; intros i c Hi Hf Hle.
  - destruct (ca_previous c) as [p|] eqn:Hp; [|done].
    destruct (ch_previous _ _ I i c p Hi Hp). lia.
  - destruct (ca_previous c) as [p|] eqn:Hp; [|done].
    destruct (ch_previous _ _ I i c p Hi Hp) as [Hlt (d & Hd & Hk)]. cbn. rewrite Hd.
    apply andb_true_iff. split; [apply bool_decide_eq_true; by eapply Hf|].
    apply (IH p); [done| |lia]. intros j x Hj Hx Hkx. eapply Hf; [|done|congruence]. lia.
Qed.

(** ** Turns that move calls between phases *)

Definition moves (calls calls' : list call) : Prop :=
  length calls' = length calls ∧
  ∀ i c, calls !! i = Some c → ∃ c', calls' !! i = Some c' ∧ ca_key c' = ca_key c ∧
    ca_previous c' = ca_previous c ∧ (ca_phase c = Finished → ca_phase c' = Finished) ∧
    (past_turn (ca_phase c') = true → past_turn (ca_phase c) = true ∨ first_in_line calls i c).

Lemma moves_inv calls calls' i c' :
  moves calls calls' → calls' !! i = Some c' →
  ∃ c, calls !! i = Some c ∧ ca_key c' = ca_key c ∧ ca_previous c' = ca_previous c ∧
    (ca_phase c = Finished → ca_phase c' = Finished) ∧
    (past_turn (ca_phase c') = true → past_turn (ca_phase c) = true ∨ first_in_line calls i c).
Proof.
  intros [Hl Hm] Hi. assert (is_Some (calls !! i)) as [c Hc].
  { apply lookup_lt_is_Some. rewrite <- Hl. apply lookup_lt_is_Some. eauto. }
  exists c. split; [done|]. destruct (Hm i c Hc) as (x & Hx & ?). by simplify_eq.
Qed.

Lemma moves_first calls calls' i c c' :
  moves calls calls' → ca_key c' = ca_key c → first_in_line calls i c → first_in_line calls' i c'.
Proof.
  intros Hm Hk Hf j d' Hj Hd' Hk'. destruct (moves_inv _ _ _ _ Hm Hd') as (d & Hd & Hkd & _ & Hfin & _).
  apply Hfin. eapply Hf; [done|done|congruence].
Qed.

Lemma moves_chain calls calls' tails : moves calls calls' → chain_inv calls tails → chain_inv calls' tails.
Proof.
  intros Hm I. constructor.
  - intros i c' p (c & Hc & Hk & Hp & _)%(moves_inv _ _ _ _ Hm) Hp'.
    destruct (ch_previous _ _ I i c p Hc) as [Hlt (d & Hd & Hkd)]; [congruence|]. split; [done|].
    destruct Hm as [_ Hm]. destruct (Hm p d Hd) as (d' & Hd' & Hkd' & _). exists d'. split; [done|congruence].
  - intros i c' j d' (c & Hc & Hk & Hp & _)%(moves_inv _ _ _ _ Hm)
      (d & Hd & Hkd & _ & Hfin & _)%(moves_inv _ _ _ _ Hm) Hj Hkk.
    destruct (ch_order _ _ I i c j d) as [?|(p & ? & ?)]; [done..|congruence|left; auto|].
    right. exists p. split; [congruence|done].
  - intros i c' (c & Hc & Hk & _ & Hfin & _)%(moves_inv _ _ _ _ Hm).
    destruct (ch_tails _ _ I i c Hc) as [?|?]; [left; auto|right]. by rewrite Hk.
  - intros k p Hp. destruct (ch_tail _ _ I k p Hp) as (d & Hd & <-). destruct Hm as [_ Hm].
    destruct (Hm p d Hd) as (d' & Hd' & ? & _). eauto.
  - intros i c' Hc' Hpast. destruct (moves_inv _ _ _ _ Hm Hc') as (c & Hc & Hk & _ & _ & Hturn).
    eapply moves_first; [done|exact Hk|]. destruct (Hturn Hpast); [|done]. by eapply ch_turn.
Qed.

Lemma alter_chain i c p calls tails :
  calls !! i = Some c → ca_phase c ≠ Finished →
  (past_turn p = true → past_turn (ca_phase c) = true ∨ first_in_line calls i c) →
  chain_inv calls tails → chain_inv (alter (with_phase p) i calls) tails.
Proof.
  intros Hi Hn Ht. apply moves_chain. split; [apply length_alter|]. intros j d Hd.
  destruct (decide (j = i)) as [->|Hne].
  - rewrite Hi in Hd. injection Hd as <-. exists (with_phase p c).
    rewrite list_lookup_alter_eq, Hi. done.
  - exists d. rewrite list_lookup_alter_ne by done. naive_solver.
Qed.

Lemma enqueue_chain key calls tails :
  chain_inv calls tails →
  chain_inv (calls ++ [{| ca_key := key; ca_previous := tails !! key; ca_phase := Waiting_turn |}])
    (<[key := length calls]> tails).
Proof.
  intros I. set (new := {| ca_key := key; ca_previous := tails !! key; ca_phase := Waiting_turn |}).
  assert (∀ i c, (calls ++ [new]) !! i = Some c →
    calls !! i = Some c ∧ i < length calls ∨ i = length calls ∧ c = new) as Hget.
  { intros i c [Hc|[Hle Hc]]%lookup_app_Some; [left; split; [done|by eapply lookup_lt_Some]|].
    apply list_lookup_singleton_Some in Hc as [? <-]. right. split; [lia|done]. }
  assert (∀ i c, calls !! i = Some c → (calls ++ [new]) !! i = Some c) as Hold
    by (intros; by apply lookup_app_l_Some).
  constructor.
  - intros i c p [[Hc _]|[-> ->]]%Hget Hp.
    + destruct (ch_previous _ _ I i c p Hc Hp) as [? (d & ? & ?)]. eauto 10.
    + cbn in Hp. destruct (ch_tail _ _ I key p Hp) as (d & Hd & ?). split; [by eapply lookup_lt_Some|]. eauto.
  - intros i c j d [[Hc Hi]|[-> ->]]%Hget [[Hd Hj]|[-> ->]]%Hget Hlt Hk; [|lia| |lia].
    + by eapply (ch_order _ _ I).
    + cbn in Hk. subst key. by apply (ch_tails _ _ I j d).
  - intros i c [[Hc Hi]|[-> ->]]%Hget.
    + destruct (ch_tails _ _ I i c Hc) as [?|(p & Hp & Hle)]; [by left|right].
      destruct (decide (ca_key c = key)) as [->|Hne].
      * exists (length calls). rewrite lookup_insert_eq. split; [done|lia].
      * exists p. by rewrite lookup_insert_ne.
    + right. exists (length calls). cbn. by rewrite lookup_insert_eq.
  - intros k p. destruct (decide (key = k)) as [->|Hne].
    + rewrite lookup_insert_eq. intros [= <-]. exists new. split; [|done]. by apply list_lookup_middle.
    + rewrite lookup_insert_ne by done. intros Hp. destruct (ch_tail _ _ I k p Hp) as (d & ? & ?). eauto.
  - intros i c [[Hc Hi]|[-> ->]]%Hget Hpast; [|done]. intros j d Hj [[Hd _]|[-> ->]]%Hget Hk; [|lia].
    by eapply (ch_turn _ _ I i c).
Qed.

Lemma cleanup_chain key i s :
  chain_inv (bq_calls s) (bq_tails s) → bq_tails s !! key = Some i → promise_settled s (Some i) = true →
  chain_inv (bq_calls s) (delete key (bq_tails s)).
Proof.
  intros I Hi Hs. assert (∀ j d, bq_calls s !! j = Some d → ca_key d = key → ca_phase d = Finished) as Hall.
  { intros j d Hd Hk. destruct (ch_tails _ _ I j d Hd) as [?|(p & Hp & Hle)]; [done|].
    rewrite Hk, Hi in Hp. injection Hp as <-. unfold promise_settled in Hs.
    destruct (length (bq_calls s)) as [|n]; [done|]. cbn in Hs.
    destruct (ch_tail _ _ I _ _ Hi) as (c & Hc & Hkc). rewrite Hc in Hs. bool_inv.
    destruct (decide (j = i)) as [->|]; [congruence|].
    eapply (settled_first _ _ n i c I Hc); [done| |done|congruence]. lia. }
  destruct I as [I1 I2 I3 I4 I5]. constructor; try done.
  - intros j d Hd. destruct (decide (ca_key d = key)) as [?|Hne]; [left; eauto|].
    rewrite lookup_delete_ne by done. by apply I3.
  - intros k p. destruct (decide (key = k)) as [->|Hne]; [by rewrite lookup_delete_eq|].
    rewrite lookup_delete_ne by done. apply I4.
Qed.

(** ** Slots *)

Record slot_inv (s : BrowserOperationQueue) : Prop := {
  sl_active : bq_active s = count_where holds_slot (bq_calls s);
  sl_queued : bq_queued s = count_where is_queued (bq_calls s);
  sl_max : bq_active s ≤ bq_maxConcurrency s;
  sl_nodup : NoDup (bq_slotWaiters s);
  sl_waiters : ∀ i, i ∈ bq_slotWaiters s ↔ phase_is i Slot_queue s = true;
  sl_wake : bq_slotWaiters s ≠ [] → bq_maxConcurrency s ≤ bq_active s + count_where is_woken (bq_calls s);
}.

Lemma count_alter (p : call → bool) f i c (l : list call) :
  l !! i = Some c →
  count_where p (alter f i l) + Nat.b2n (p c) = count_where p l + Nat.b2n (p (f c)).
Proof.
  unfold count_where. revert i. induction l as [|x l IH]; intros [|i] Hi; try done; cbn in *.
  - injection Hi as ->. destruct (p c), (p (f c)); cbn; lia.
  - specialize (IH i Hi). destruct (p x); cbn; lia.
Qed.

Lemma count_pos (p : call → bool) l i c : l !! i = Some c → p c = true → 0 < count_where p l.
Proof.
  intros Hi Hp. destruct (count_where p l) eqn:Hz; [|lia].
  by rewrite (proj1 (count_where_0 _ _) Hz c) in Hp by (by eapply list_elem_of_lookup_2).
Qed.

Lemma count_witness (p : call → bool) l : 0 < count_where p l → ∃ i c, l !! i = Some c ∧ p c = true.
Proof.
  unfold count_where. induction l as [|x l IH]; cbn; [lia|]. destruct (p x) eqn:Hp.
  - intros _. by exists 0, x.
  - intros Hl. destruct (IH Hl) as (i & c & ? & ?). by exists (S i), c.
Qed.

Lemma phase_is_true i p s : phase_is i p s = true ↔ ∃ c, bq_calls s !! i = Some c ∧ ca_phase c = p.
Proof.
  unfold phase_is. destruct (bq_calls s !! i) as [c|]; [|naive_solver]. rewrite bool_decide_eq_true. naive_solver.
Qed.

Lemma phase_is_set i p q j s :
  is_Some (bq_calls s !! i) →
  phase_is j p (set_phase i q s) = if decide (j = i) then bool_decide (q = p) else phase_is j p s.
Proof.
  intros [c Hc]. unfold phase_is. cbn. case_decide as E; subst.
  - by rewrite list_lookup_alter_eq, Hc.
  - by rewrite list_lookup_alter_ne.
Qed.

(** The three counts when call [i] moves to phase [q]. *)
Lemma counts_set i c q s :
  bq_calls s !! i = Some c →
  let calls' := bq_calls (set_phase i q s) in
  count_where holds_slot calls' + Nat.b2n (holds_slot c) =
    count_where holds_slot (bq_calls s) + Nat.b2n (holds_slot (with_phase q c)) ∧
  count_where is_queued calls' + Nat.b2n (is_queued c) =
    count_where is_queued (bq_calls s) + Nat.b2n (is_queued (with_phase q c)) ∧
  count_where is_woken calls' + Nat.b2n (is_woken c) =
    count_where is_woken (bq_calls s) + Nat.b2n (is_woken (with_phase q c)).
Proof. intros Hc. cbn. split_and!; by apply count_alter. Qed.

#[local] Ltac counts Hc Hph q :=
  let H := fresh "Hcount" in
  pose proof (counts_set _ _ q _ Hc) as H; cbv zeta in H;
  unfold holds_slot at 2 4, is_queued at 2 4, is_woken at 2 4 in H; rewrite Hph in H;
  cbn -[count_where] in H; destruct H as (? & ? & ?).

(** What a turn does to the slot waiters when it is not about the slot queue. *)
Lemma waiters_set i c q s :
  bq_calls s !! i = Some c → ca_phase c ≠ Slot_queue → q ≠ Slot_queue →
  (∀ j, j ∈ bq_slotWaiters s ↔ phase_is j Slot_queue s = true) →
  ∀ j, j ∈ bq_slotWaiters s ↔ phase_is j Slot_queue (set_phase i q s) = true.
Proof.
  intros Hc Hn Hq Hw j. rewrite Hw, phase_is_set by eauto. case_decide as E; [|done]. subst j.
  rewrite phase_is_true, bool_decide_eq_true. split; [|done]. intros (d & Hd & Hpd). congruence.
Qed.

Lemma enqueue_slot key s : slot_inv s → slot_inv (enqueue key s).
Proof.
  intros [I1 I2 I3 I4 I5 I6]. set (new := {| ca_key := key; ca_previous := bq_tails s !! key; ca_phase := Waiting_turn |}).
  assert (∀ p, count_where p (bq_calls s ++ [new]) = count_where p (bq_calls s) + Nat.b2n (p new)) as Hcount.
  { intros p. unfold count_where. rewrite List.filter_app, length_app. cbn. by destruct (p new). }
  constructor; cbn -[count_where]; rewrite ?Hcount; cbn -[count_where]; try lia; try done.
  - intros i. rewrite I5. unfold phase_is. cbn. destruct (decide (i < length (bq_calls s))) as [Hi|Hi].
    + by rewrite lookup_app_l.
    + rewrite (lookup_ge_None_2 (bq_calls s)) by lia. rewrite lookup_app_r by lia.
      destruct (i - length (bq_calls s)) as [|n]; cbn; [done|]. by destruct n.
  - intros Hw. specialize (I6 Hw). lia.
Qed.

Lemma acquireSlot_slot i c s :
  bq_calls s !! i = Some c → ca_phase c = Waiting_turn ∨ ca_phase c = Woken →
  slot_inv s → slot_inv (acquireSlot i s).
Proof.
  intros Hc Hph [I1 I2 I3 I4 I5 I6]. unfold acquireSlot.
  assert (i ∉ bq_slotWaiters s) as Hi.
  { rewrite I5, phase_is_true. intros (d & Hd & Hpd). destruct Hph; congruence. }
  destruct (Nat.leb_spec (bq_maxConcurrency s) (bq_active s)) as [Hfull|Hfree].
  - assert (∀ j, j ∈ bq_slotWaiters s ++ [i] ↔ phase_is j Slot_queue (set_phase i Slot_queue s) = true) as Hw.
    { intros j. rewrite elem_of_snoc, I5, phase_is_set by eauto. case_decide.
      - split; [by rewrite bool_decide_true|auto].
      - split; [by intros [|]|auto]. }
    destruct Hph as [Hph|Hph]; counts Hc Hph Slot_queue;
      (constructor; cbn -[count_where]; try lia; [|exact Hw]);
      (apply NoDup_app; split_and!; [done| |apply NoDup_singleton]; by intros x ? ->%list_elem_of_singleton).
  - assert (∀ j, j ∈ bq_slotWaiters s ↔ phase_is j Slot_queue (set_phase i Has_slot s) = true) as Hw
      by (eapply waiters_set; [done|destruct Hph; congruence|done|done]).
    destruct Hph as [Hph|Hph]; counts Hc Hph Has_slot;
      (constructor; cbn -[count_where];
       first [lia|assumption|exact Hw|intros Hne; specialize (I6 Hne); lia]).
Qed.

Lemma abandon_slot i c s :
  bq_calls s !! i = Some c → ca_phase c = Waiting_turn ∨ ca_phase c = Woken ∧ bq_maxConcurrency s ≤ bq_active s →
  slot_inv s → slot_inv (abandon i s).
Proof.
  intros Hc Hph [I1 I2 I3 I4 I5 I6].
  assert (∀ j, j ∈ bq_slotWaiters s ↔ phase_is j Slot_queue (set_phase i Finished s) = true) as Hw
    by (eapply waiters_set; [done|destruct Hph as [|[]]; congruence|done|done]).
  destruct Hph as [Hph|[Hph Hfull]]; counts Hc Hph Finished;
    (constructor; cbn -[count_where];
     first [lia|assumption|exact Hw|intros Hne; specialize (I6 Hne); lia]).
Qed.

Lemma abort_slot_slot i c s :
  bq_calls s !! i = Some c → ca_phase c = Slot_queue → slot_inv s →
  slot_inv (abandon i (set_waiters (List.filter (λ w, negb (w =? i)) (bq_slotWaiters s)) s)).
Proof.
  intros Hc Hph [I1 I2 I3 I4 I5 I6].
  assert (∀ j, j ∈ List.filter (λ w, negb (w =? i)) (bq_slotWaiters s) ↔
    phase_is j Slot_queue (set_phase i Finished s) = true) as Hw.
  { intros j. rewrite elem_of_rows_filter, phase_is_set, negb_true_iff, Nat.eqb_neq, I5 by eauto.
    case_decide; [split; [naive_solver|done]|naive_solver]. }
  counts Hc Hph Finished. constructor; cbn -[count_where]; try lia.
  - pose proof (NoDup_key_filter id (λ w, negb (w =? i)) (bq_slotWaiters s)) as Hd.
    rewrite !map_id in Hd. by apply Hd.
  - exact Hw.
  - intros Hne. assert (bq_slotWaiters s ≠ []) as Hne' by (intros E; by rewrite E in Hne).
    specialize (I6 Hne'). lia.
Qed.

Lemma start_slot i c s :
  bq_calls s !! i = Some c → ca_phase c = Has_slot → slot_inv s →
  slot_inv (set_phase i Running (set_queued (bq_queued s - 1) s)).
Proof.
  intros Hc Hph [I1 I2 I3 I4 I5 I6].
  assert (∀ j, j ∈ bq_slotWaiters s ↔ phase_is j Slot_queue (set_phase i Running s) = true) as Hw
    by (eapply waiters_set; [done|congruence|done|done]).
  counts Hc Hph Running. constructor; cbn -[count_where];
    first [lia|assumption|exact Hw|intros Hne; specialize (I6 Hne); lia].
Qed.

(** The call [i] gives its slot up; [n] is the queue count without it. *)
Lemma leave_slot i c n s :
  bq_calls s !! i = Some c → holds_slot c = true → n + Nat.b2n (is_queued c) = bq_queued s →
  slot_inv s → slot_inv (leave i (set_queued n s)).
Proof.
  intros Hc Hh Hn [I1 I2 I3 I4 I5 I6]. unfold leave, releaseSlot. cbn [bq_slotWaiters set_active set_queued].
  assert (i ∉ bq_slotWaiters s) as Hi.
  { rewrite I5, phase_is_true. intros (d & Hd & Hpd). simplify_eq. unfold holds_slot in Hh. by rewrite Hpd in Hh. }
  assert (is_woken c = false) as Hwk by (unfold holds_slot, is_woken in *; by destruct (ca_phase c)).
  assert (ca_phase c ≠ Slot_queue) as Hns by (intros E; unfold holds_slot in Hh; by rewrite E in Hh).
  pose proof (counts_set i c Finished s Hc) as (C1 & C2 & C3). rewrite Hh in C1. rewrite Hwk in C3.
  cbn -[count_where] in C1, C2, C3.
  destruct (bq_slotWaiters s) as [|w rest] eqn:Hws.
  - assert (∀ j, j ∈ bq_slotWaiters s ↔ phase_is j Slot_queue (set_phase i Finished s) = true) as Hw
      by (eapply waiters_set; [done|done|done|by rewrite Hws]).
    rewrite Hws in Hw. constructor; cbn -[count_where]; rewrite ?Hws; first [lia|done|exact Hw].
  - apply NoDup_cons in I4 as [Hw1 Hw2].
    assert (phase_is w Slot_queue s = true) as (d & Hd & Hpd)%phase_is_true by (apply I5; left).
    assert (w ≠ i) as Hwi by (intros ->; apply Hi; left).
    set (s1 := set_phase w Woken s).
    assert (bq_calls s1 !! i = Some c) as Hc1 by (cbn; by rewrite list_lookup_alter_ne).
    assert (∀ j, j ∈ rest ↔ phase_is j Slot_queue s1 = true) as Hr.
    { intros j. unfold s1. rewrite phase_is_set by eauto. case_decide as E; [by subst|].
      rewrite <- I5, elem_of_cons. naive_solver. }
    assert (∀ j, j ∈ rest ↔ phase_is j Slot_queue (set_phase i Finished s1) = true) as Hw.
    { apply (waiters_set i c Finished (set_waiters rest s1)); [done..|exact Hr]. }
    counts Hd Hpd Woken. clear C1 C2 C3.
    pose proof (counts_set i c Finished s1 Hc1) as (C1 & C2 & C3). rewrite Hh in C1. rewrite Hwk in C3.
    cbn -[count_where] in C1, C2, C3. assert (w :: rest ≠ []) as Hne by done. specialize (I6 Hne).
    constructor; cbn -[count_where]; first [lia|done|exact Hw].
Qed.

(** ** Every turn keeps the invariant *)

Definition queue_inv (s : BrowserOperationQueue) : Prop :=
  chain_inv (bq_calls s) (bq_tails s) ∧ slot_inv s.

Lemma acquireSlot_chain i c s :
  bq_calls s !! i = Some c → ca_phase c = Woken ∨ ca_phase c = Waiting_turn ∧ first_in_line (bq_calls s) i c →
  chain_inv (bq_calls s) (bq_tails s) → chain_inv (bq_calls (acquireSlot i s)) (bq_tails (acquireSlot i s)).
Proof.
  intros Hc Hph I. unfold acquireSlot.
  destruct (_ <=? _); cbn; (apply alter_chain with c; [done| | |done];
    destruct Hph as [Hph|[Hph Hf]]; rewrite Hph; [done|done|by left|by right]).
Qed.

Lemma leave_chain i c s :
  bq_calls s !! i = Some c → ca_phase c ≠ Finished → ca_phase c ≠ Slot_queue →
  (∀ j, j ∈ bq_slotWaiters s → phase_is j Slot_queue s = true) →
  chain_inv (bq_calls s) (bq_tails s) → chain_inv (bq_calls (leave i s)) (bq_tails (leave i s)).
Proof.
  intros Hc Hn Hns Hw I. unfold leave, releaseSlot. cbn [bq_slotWaiters set_active].
  destruct (bq_slotWaiters s) as [|w rest] eqn:Hws; cbn; [by apply alter_chain with c|].
  assert (phase_is w Slot_queue s = true) as (d & Hd & Hpd)%phase_is_true
    by (apply Hw; left).
  apply alter_chain with c; [|done|done|].
  - rewrite list_lookup_alter_ne; [done|]. intros ->. congruence.
  - apply alter_chain with d; [done|congruence| |done]. rewrite Hpd. by left.
Qed.

Lemma queue_turn_inv e s s' : queue_turn e s = Some s' → queue_inv s → queue_inv s'.
Proof.
  intros He [I S]. destruct e as [key|i|i|i|i|i|i|i|i|key i]; cbn in He.
  - injection He as <-. split; [by apply enqueue_chain|by apply enqueue_slot].
  - destruct (phase_is _ _ _ && _) eqn:Hg; [injection He as <-|done]. bool_inv.
    match goal with H : phase_is _ _ _ = true |- _ => apply phase_is_true in H as (c & Hc & Hph) end.
    assert (first_in_line (bq_calls s) i c).
    { unfold previous_settled in *. rewrite Hc in *. by eapply settled_first. }
    split; [apply acquireSlot_chain with c; auto|apply acquireSlot_slot with c; auto].
  - destruct (phase_is _ _ _) eqn:Hg; [injection He as <-|done].
    apply phase_is_true in Hg as (c & Hc & Hph).
    split; [apply alter_chain with c; [done|congruence|done|done]|apply abandon_slot with c; auto].
  - destruct (phase_is _ _ _) eqn:Hg; [injection He as <-|done].
    apply phase_is_true in Hg as (c & Hc & Hph).
    split; [apply acquireSlot_chain with c; auto|apply acquireSlot_slot with c; auto].
  - destruct (phase_is _ _ _) eqn:Hg; [injection He as <-|done].
    apply phase_is_true in Hg as (c & Hc & Hph).
    split; [apply alter_chain with c; [done|congruence|done|done]|by apply abort_slot_slot with c].
  - destruct (phase_is _ _ _ && _) eqn:Hg; [injection He as <-|done]. bool_inv.
    match goal with H : phase_is _ _ _ = true |- _ => apply phase_is_true in H as (c & Hc & Hph) end.
    match goal with H : (_ <=? _) = true |- _ => apply Nat.leb_le in H end.
    split; [apply alter_chain with c; [done|congruence|done|done]|apply abandon_slot with c; auto].
  - destruct (phase_is _ _ _) eqn:Hg; [injection He as <-|done].
    apply phase_is_true in Hg as (c & Hc & Hph).
    split; [apply alter_chain with c; [done|congruence|rewrite Hph; by left|done]|by apply start_slot with c].
  - destruct (phase_is _ _ _) eqn:Hg; [injection He as <-|done].
    apply phase_is_true in Hg as (c & Hc & Hph). split.
    + apply leave_chain with c; [done|congruence|congruence|by intros j; apply (sl_waiters _ S)|done].
    + apply leave_slot with c; [done|unfold holds_slot; by rewrite Hph| |done].
      rewrite (sl_queued _ S). pose proof (count_pos is_queued _ _ _ Hc) as Hpos.
      unfold is_queued in Hpos |- *. rewrite Hph in Hpos |- *. cbn -[count_where]. specialize (Hpos eq_refl). lia.
  - destruct (phase_is _ _ _) eqn:Hg; [injection He as <-|done].
    apply phase_is_true in Hg as (c & Hc & Hph). split.
    + apply leave_chain with c; [done|congruence|congruence|by intros j; apply (sl_waiters _ S)|done].
    + assert (s = set_queued (bq_queued s) s) as -> by (by destruct s).
      apply leave_slot with c; [done|unfold holds_slot; by rewrite Hph| |done].
      unfold is_queued. rewrite Hph. cbn. lia.
  - destruct (bool_decide _ && _) eqn:Hg; [injection He as <-|done]. bool_inv.
    split; [exact (cleanup_chain key i s I ltac:(assumption) ltac:(assumption))|]. by destruct S.
Qed.

Lemma queue_reachable_inv max s : queue_reachable max s → queue_inv s.
Proof.
  unfold queue_reachable. intros Hr.
  assert (queue_inv (new_BrowserOperationQueue max)) as H0.
  { split; constructor; cbn; try done; [lia|constructor|].
    intros i. split; [by intros ?%not_elem_of_nil|by intros (? & ? & _)%phase_is_true]. }
  revert H0. induction Hr as [|s1 s2 s3 [e He] _ IH]; [done|]. intros I. apply IH. by eapply queue_turn_inv.
Qed.

(** The first unfinished call, if there is one. *)
Lemma first_unfinished (calls : list call) :
  (∀ i c, calls !! i = Some c → ca_phase c = Finished) ∨
  ∃ i c, calls !! i = Some c ∧ ca_phase c ≠ Finished ∧
    ∀ j d, j < i → calls !! j = Some d → ca_phase d = Finished.
Proof.
  induction calls as [|x calls IH]; [by left|]. destruct (decide (ca_phase x = Finished)) as [Hx|Hx].
  - destruct IH as [Hall|(i & c & Hc & Hn & Hj)].
    + left. intros [|i] c; cbn; [by intros [= <-]|apply Hall].
    + right. exists (S i), c. split_and!; [done..|]. intros [|j] d Hlt; cbn; [by intros [= <-]|apply Hj; lia].
  - right. exists 0, x. split_and!; [done..|]. lia.
Qed.

(** ** Progress *)

(** The turns that do not depend on an abort or a new call. *)
Definition own_turn (e : queue_event) : bool :=
  match e with Ev_turn _ | Ev_resume _ | Ev_start _ | Ev_finish _ => true | _ => false end.

Lemma queue_progress_inv s i c :
  queue_inv s → 1 ≤ bq_maxConcurrency s → bq_calls s !! i = Some c → ca_phase c ≠ Finished →
  ∃ e s', own_turn e = true ∧ queue_turn e s = Some s'.
Proof.
  intros [I S] Hmax Hi Hn.
  destruct (first_unfinished (bq_calls s)) as [Hall|(m & d & Hd & Hnd & Hfirst)];
    [destruct Hn; by eapply Hall|].
  assert (∀ p, ca_phase d = p → phase_is m p s = true) as His
    by (intros p Hp; apply phase_is_true; eauto).
  destruct (ca_phase d) eqn:Hph; [| | | | |done].
  - exists (Ev_turn m). eexists. split; [done|]. cbn. rewrite (His _ eq_refl). cbn.
    unfold previous_settled. rewrite Hd. unfold promise_settled.
    rewrite (first_settled _ (bq_tails s) _ m d); [done|done|done| |].
    + intros j x Hj Hx _. by eapply Hfirst.
    + apply Nat.lt_le_incl. by eapply lookup_lt_Some.
  - assert (bq_slotWaiters s ≠ []) as Hw.
    { intros E. specialize (His _ eq_refl). apply (sl_waiters _ S) in His. rewrite E in His.
      by apply not_elem_of_nil in His. }
    pose proof (sl_wake _ S Hw) as Hk. rewrite (sl_active _ S) in Hk.
    destruct (count_where is_woken (bq_calls s)) as [|k] eqn:Hwk.
    + destruct (count_witness holds_slot (bq_calls s)) as (j & x & Hx & Hpx); [lia|].
      unfold holds_slot in Hpx. destruct (ca_phase x) eqn:Hphx; try done.
      * exists (Ev_start j). eexists. split; [done|]. cbn.
        by rewrite (proj2 (phase_is_true _ _ _) (ex_intro _ x (conj Hx Hphx))).
      * exists (Ev_finish j). eexists. split; [done|]. cbn.
        by rewrite (proj2 (phase_is_true _ _ _) (ex_intro _ x (conj Hx Hphx))).
    + destruct (count_witness is_woken (bq_calls s)) as (j & x & Hx & Hpx); [lia|].
      unfold is_woken in Hpx. destruct (ca_phase x) eqn:Hphx; try done.
      exists (Ev_resume j). eexists. split; [done|]. cbn.
      by rewrite (proj2 (phase_is_true _ _ _) (ex_intro _ x (conj Hx Hphx))).
  - exists (Ev_resume m). eexists. split; [done|]. cbn. by rewrite (His _ eq_refl).
  - exists (Ev_start m). eexists. split; [done|]. cbn. by rewrite (His _ eq_refl).
  - exists (Ev_finish m). eexists. split; [done|]. cbn. by rewrite (His _ eq_refl).
Qed.

Lemma queue_turns_reachable max es s :
  queue_turns es (new_BrowserOperationQueue max) = Some s → queue_reachable max s.
Proof.
  unfold queue_reachable. generalize (new_BrowserOperationQueue max). induction es as [|e es IH]; cbn.
  - intros q [= ->]. apply rtc_refl.
  - intros q (q' & He & Hq)%bind_Some. eapply rtc_l; [by exists e|by apply IH].
Qed.
