(* ===== verification/BrowserTheorems.v ===== *)
(** * BrowserTheorems: properties of the registries of the browser worker

    Over every sequence of operations, of every owner, from the persisted tasks: the
    tab index agrees with the tasks, an owner's operations leave the tasks of the
    others alone, closed tasks stay closed, leased tasks do not expire.  Grants of
    private sites come from authorised operations, an idempotency key runs one
    operation, and the operation queue serialises tabs without getting stuck. *)

From S2P Require Import Prelude Text JsMap BrowserTasks BrowserTaskProps BrowserTaskRuns BrowserGrants.
From S2P Require Import BrowserIdempotency BrowserQueue.

Section task_theorems.
Context `{BrowserHost}.

(** in every registry the worker reaches from consistent persisted tasks, the task of a
    tab is the task that lists the tab: [taskIdForTab] and the [tabIds] of the snapshot say
    the same, [taskForTab] finds exactly that task, no two tasks share a tab, and no two
    tasks share an identifier. *)
Theorem task_tabs_consistent l ttl s held :
  Inj (=) (=) browser_uuid → persisted_ok l → reachable l ttl (s, held) →
  NoDup (map bt_taskId (snapshot s)) ∧
  (∀ tab id, taskIdForTab tab s = Some id ↔
     ∃ t, t ∈ snapshot s ∧ bt_taskId t = id ∧ tab ∈ bt_tabIds t) ∧
  (∀ tab t, taskForTab tab s = Some t ↔ t ∈ snapshot s ∧ tab ∈ bt_tabIds t).
Proof.
  intros Huuid Hp Hr. pose proof (reachable_inv _ _ _ Huuid Hp Hr) as I. cbn in I.
  assert (∀ id t, find_task id s = Some t ↔ t ∈ tr_tasks s ∧ bt_taskId t = id) as Hfind.
  { intros id t. split; [|intros [Ht <-]; apply find_task_elem; [apply I|done]].
    intros Hf. split; [by apply find_task_in in Hf|by apply find_task_id in Hf]. }
  split; [apply I|]. split.
  - intros tab id. unfold taskIdForTab, snapshot. rewrite (inv_tabs _ I).
    setoid_rewrite Hfind. naive_solver.
  - intros tab t. unfold taskForTab, snapshot. split.
    + intros (id & Hid & Hf)%bind_Some. destruct (tr_taskByTab s !! tab) as [i|] eqn:Hi; [|done].
      apply (inv_tabs _ I) in Hi as (u & Hu & Hin).
      rewrite nonempty_Some in Hid by (by eapply inv_nonempty). simplify_eq.
      split; [by eapply find_task_in|done].
    + intros [Ht Hin]. pose proof (proj2 (Hfind (bt_taskId t) t) (conj Ht eq_refl)) as Hf.
      rewrite (proj2 (inv_tabs _ I tab (bt_taskId t))) by eauto.
      rewrite nonempty_Some by (by eapply inv_nonempty). done.
Qed.

(** C29: an operation run for one owner scope leaves every task of another scope as it
    was, its stored record, its tabs and its leases, whether the operation returns or
    throws; and the task or lease it returns belongs to the caller's scope. *)
Theorem owner_isolation l ttl s held op c :
  Inj (=) (=) browser_uuid → persisted_ok l → reachable l ttl (s, held) →
  op_context op = Some c →
  (∀ t, t ∈ snapshot s → bt_ownerScopeHash t ≠ hashOwnerScope (ownerScope c) →
     t ∈ snapshot (run_op op s).2 ∧ same_task (bt_taskId t) s (run_op op s).2) ∧
  (∀ r, (run_op op s).1 = Ok r →
     match r with
     | a_task t => bt_ownerScopeHash t = hashOwnerScope (ownerScope c)
     | a_lease id => ∃ t, t ∈ snapshot (run_op op s).2 ∧ bt_taskId t = id ∧
                          bt_ownerScopeHash t = hashOwnerScope (ownerScope c)
     | nothing => True
     end).
Proof.
  intros Huuid Hp Hr Hc. pose proof (reachable_inv _ _ _ Huuid Hp Hr) as I. cbn in I.
  destruct (run_op_does op s Huuid I) as [Hch Hret]. unfold op_owner in *. rewrite Hc in *. cbn in *.
  split.
  - intros t Ht Hn. assert (find_task (bt_taskId t) s = Some t) as Hf by (apply find_task_elem; [apply I|done]).
    assert (same_task (bt_taskId t) s (run_op op s).2) as Hsame by (by eapply changes_other).
    split; [|done]. destruct Hsame as [Hf' _]. rewrite Hf in Hf'. by apply find_task_in in Hf'.
  - intros r Hr'. specialize (Hret r Hr' _ eq_refl). destruct r as [t|id|]; [done| |done].
    destruct Hret as (t & Hf & ?). exists t. split; [by apply find_task_in in Hf|].
    split; [by apply find_task_id in Hf|done].
Qed.

(** a finished or expired task is never worked on again: after any further operations,
    every operation that asks for the task, by its identifier or by a tab, in any owner
    scope, throws and changes nothing. *)
Theorem closed_task_stays_closed l ttl s held s' held' t op :
  Inj (=) (=) browser_uuid → persisted_ok l → reachable l ttl (s, held) →
  t ∈ snapshot s → bt_state t = finished ∨ bt_state t = expired →
  rtc task_step (s, held) (s', held') → op_target op s' = Some (bt_taskId t) →
  (∃ e, run_op op s' = (Err e, s') ∧ e ∈ [TASK_NOT_FOUND; TASK_OWNERSHIP_MISMATCH; TASK_EXPIRED]) ∧
  ∃ t', t' ∈ snapshot s' ∧ bt_taskId t' = bt_taskId t ∧
        (bt_state t' = finished ∨ bt_state t' = expired).
Proof.
  intros Huuid Hp Hr Ht Hst Hsteps Htarget.
  pose proof (reachable_inv _ _ _ Huuid Hp Hr) as I.
  assert (closed (bt_taskId t) s') as Hc.
  { apply (steps_closed _ _ _ Huuid Hsteps I). exists t. split; [|done]. apply find_task_elem; [apply I|done]. }
  pose proof (steps_inv _ _ Huuid Hsteps I) as I'. split; [by apply (closed_refuses op (bt_taskId t))|].
  destruct Hc as (t' & Hf & Hs'). exists t'. split; [by apply find_task_in in Hf|].
  split; [by apply find_task_id in Hf|exact Hs'].
Qed.

(** the lease count of a task is the number of leases callers hold on it, and a task
    with a lease in use is neither offered for expiration nor begins to expire, at any
    time. *)
Theorem leased_task_not_expired l ttl s held id now :
  reachable l ttl (s, held) →
  leaseCount id s = count_where (λ x, bool_decide (x = id)) held ∧
  (id ∈ held → beginExpiration id now s = (Ok None, s) ∧
               ∀ t, t ∈ expiredCandidates now s → bt_taskId t ≠ id).
Proof.
  intros Hr. pose proof (reachable_leases _ _ _ Hr id) as Hc. cbn [fst snd] in Hc. split; [done|].
  intros Hin. assert (0 < leaseCount id s) as Hl.
  { rewrite Hc. destruct (count_where _ held) eqn:Hz; [|lia].
    apply (proj1 (count_where_0 _ _)) with id in Hz; [|done]. by bool_inv. }
  split; [by apply leased_beginExpiration|]. intros t. by apply leased_not_candidate.
Qed.

(** C32: a grant [requireGrant] returns is for the calling task, its owner and the site, has
    not expired, and was issued by an earlier operation entitled to it: a direct grant, or a
    confirmation that was created for the same task, owner, site and purpose and consumed
    there; the access was not revoked since.  A confirmation is consumed at most once.  Task
    identifiers must not contain the NUL character that separates the parts of a key. *)
Theorem site_access_authorized s tr task policy g s' :
  Inj (=) (=) browser_uuid → site_reachable (s, tr) →
  nul_free (bt_taskId task) →
  (∀ e t, e ∈ tr → issuing_task e.1 = Some t → nul_free (bt_taskId t)) →
  requireGrant task policy s = (Ok g, s') →
  sg_taskId g = bt_taskId task ∧ sg_ownerScopeHash g = bt_ownerScopeHash task ∧
  sg_siteId g = sp_siteId policy ∧ (Date_now (S (gr_draws s)) < sg_expiresAt g)%Z ∧
  grant_issued tr g ∧ NoDup (omap consumed tr).
Proof.
  intros Huuid Hr Hnul Htasks Hg. pose proof (site_reachable_inv _ _ Huuid Hr) as I.
  destruct (requireGrant_Ok _ _ _ _ _ Hg) as (Hget & Ho & Ht).
  destruct (si_grants _ _ I _ _ Hget) as [Hk Hissued].
  assert (nul_free (sg_taskId g)) as Hng.
  { destruct Hissued as (tr1 & op & t & pol & tr2 & -> & Hent & -> & _).
    apply (Htasks (op, Ok (issued_grant g))); [apply elem_of_app; right; left|].
    by destruct Hent as [->|(? & ? & -> & _)]. }
  destruct (grantKey_inj _ _ _ _ Hnul Hng Hk) as [-> ->]. split_and!; try done. apply I.
Qed.

(** C31: once a call with a key has started operation [n], every later call with the key gets
    the promise of [n] if its fingerprint is the same and a conflict if it is not, and starts
    nothing, until [n] has settled and its entry outlived its time to live. *)
Theorem one_execution_per_key ttl max s tr k fp t n fp' now :
  idem_reachable ttl max (s, tr) → k ≠ ""%string → E_run (Some k) fp t (Ok n) ∈ tr →
  (run (Some k) fp' now s).1 = Ok n ∧ fp' = fp ∧ ir_started (run (Some k) fp' now s).2 = ir_started s ∨
  (run (Some k) fp' now s).1 = Err IDEMPOTENCY_KEY_CONFLICT ∧ fp' ≠ fp ∧
    ir_started (run (Some k) fp' now s).2 = ir_started s ∨
  lapsed (default DEFAULT_TTL_MS ttl) (tr ++ [E_run (Some k) fp' now (run (Some k) fp' now s).1]) n.
Proof.
  intros Hr Hk Hin. destruct (idem_reachable_inv _ _ _ _ Hr) as [I _].
  destruct (run_cases k fp' now s Hk) as (s1 & Ha & Hc).
  assert (prune_time (E_run (Some k) fp' now (run (Some k) fp' now s).1) = Some now) as Hp
    by (cbn; by destruct k).
  pose proof (prune_inv _ _ _ _ _ _ I Ha Hp) as I1.
  destruct (ii_runs _ _ _ _ I1 k fp t n Hk Hin) as [(x & Hx & <- & <-)|?]; [|auto].
  rewrite Hx in Hc. destruct Ha as (_ & _ & _ & _ & _ & _ & _ & Hst & _).
  case_bool_decide as E; rewrite Hc; cbn; rewrite Hst; auto.
Qed.

(** The idempotency registry never holds more entries than [maxEntries], keeps the entry
    of every operation that has not settled, and its misses are the entries it holds and the
    entries that expired. *)
Theorem idempotency_entries_bounded ttl max s tr :
  idem_reachable ttl max (s, tr) →
  length (ir_entries s) ≤ default DEFAULT_MAX_ENTRIES max ∧
  ir_misses s = length (ir_entries s) + ir_expirations s ∧
  (∀ k fp t n, k ≠ ""%string → E_run (Some k) fp t (Ok n) ∈ tr → ¬ settled_in tr n →
     ∃ e, jget k (ir_entries s) = Some e ∧ ie_value e = n ∧ ie_fingerprint e = fp).
Proof.
  intros Hr. destruct (idem_reachable_inv _ _ _ _ Hr) as [I <-].
  split; [apply I|]. split; [apply I|]. intros k fp t n Hk Hin Hn.
  destruct (ii_runs _ _ _ _ I k fp t n Hk Hin) as [(e & ? & ? & ?)|(tr1 & u & tr2 & _ & _ & -> & _)]; [eauto|].
  destruct Hn. exists u. apply elem_of_app. right. left.
Qed.

(** C30: calls on one key take their turns in the order of arrival, aborts included: when a
    call is past its turn (waiting for a slot, holding one or running), every earlier call on
    the key has finished; so no two calls on a key run at the same time.  At most
    [maxConcurrency] calls hold a slot, and the counters count. *)
Theorem queue_serializes_keys max s :
  queue_reachable max s →
  (∀ i j c d, bq_calls s !! i = Some c → bq_calls s !! j = Some d → ca_key c = ca_key d →
     past_turn (ca_phase c) = true → j < i → ca_phase d = Finished) ∧
  (∀ i j c d, bq_calls s !! i = Some c → bq_calls s !! j = Some d → ca_key c = ca_key d →
     holds_slot c = true → holds_slot d = true → i = j) ∧
  count_where holds_slot (bq_calls s) ≤ bq_maxConcurrency s ∧
  bq_active s = count_where holds_slot (bq_calls s) ∧
  queuedCount s = count_where is_queued (bq_calls s).
Proof.
  intros Hr. destruct (queue_reachable_inv _ _ Hr) as [I S].
  assert (∀ i j c d, bq_calls s !! i = Some c → bq_calls s !! j = Some d → ca_key c = ca_key d →
    past_turn (ca_phase c) = true → j < i → ca_phase d = Finished) as Hfifo.
  { intros i j c d Hi Hj Hk Hp Hlt. by eapply (ch_turn _ _ I i c Hi Hp). }
  split; [done|]. split.
  - intros i j c d Hi Hj Hk Hc Hd.
    assert (∀ x, holds_slot x = true → past_turn (ca_phase x) = true ∧ ca_phase x ≠ Finished) as Hslot
      by (intros x; unfold holds_slot; by destruct (ca_phase x)).
    destruct (lt_eq_lt_dec i j) as [[Hlt|?]|Hlt]; [|done|].
    + destruct (Hslot _ Hc) as [_ Hn], (Hslot _ Hd) as [Hp _]. destruct Hn. by eapply (Hfifo j i).
    + destruct (Hslot _ Hc) as [Hp _], (Hslot _ Hd) as [_ Hn]. destruct Hn. by eapply (Hfifo i j).
  - split; [|split; apply S]. rewrite <- (sl_active _ S). apply S.
Qed.

(** C34: the queue never gets stuck: while a call is unfinished and [maxConcurrency] is at least
    one, some call can take its next turn without an abort and without a new call; no wake-up
    of a slot waiter is lost. *)
Theorem queue_never_stuck max s i c :
  queue_reachable max s → 1 ≤ bq_maxConcurrency s → bq_calls s !! i = Some c → ca_phase c ≠ Finished →
  ∃ e s', own_turn e = true ∧ queue_turn e s = Some s'.
Proof. intros Hr. apply queue_progress_inv. by eapply queue_reachable_inv. Qed.
End task_theorems.

(** ** Concrete runs *)

Definition sample_host : BrowserHost :=
  {| browser_sha256 := λ s, "sha256:" +:+ s; browser_uuid := λ n, pretty n; Date_now := Z.of_nat |}.

Section witnesses.
#[local] Existing Instance sample_host.

Lemma sample_uuid_inj : Inj (=) (=) browser_uuid.
Proof. intros n m. apply pretty_nat_inj. Qed.

Lemma no_persisted_tasks : persisted_ok [].
Proof. constructor; [apply NoDup_nil_2|by intros ? ? ?%not_elem_of_nil|]. by intros ? ? ? ?%not_elem_of_nil. Qed.

Definition alice : context := Some (Some "alice"%string).
Definition bob : context := Some (Some "bob"%string).

(** Alice and Bob open a task each; Alice attaches a tab to hers, Bob uses his. *)
Definition two_owners : list task_op :=
  [Op_resolveForOpen None alice; Op_resolveForOpen None bob; Op_attachTab "task-1" "tab-7" alice;
   Op_acquireForTask "task-3" bob].
(** Alice then finishes her task. *)
Definition closing : list task_op :=
  [Op_beginFinish "task-1" alice; Op_completeFinish "task-1"].

Definition sample_start : BrowserTaskRegistry :=
  {| tr_tasks := []; tr_taskByTab := ∅; tr_activeLeases := ∅; tr_ttlMs := 1000; tr_draws := 0 |}.
Definition sample_world : world := run_ops two_owners (sample_start, []).

Lemma sample_reachable : reachable [] 1000 (sample_world.1, sample_world.2).
Proof. exists sample_start. split; [done|]. apply (run_ops_steps two_owners). Qed.

Lemma closed_reachable : reachable [] 1000 ((run_ops closing sample_world).1, (run_ops closing sample_world).2).
Proof.
  exists sample_start. split; [done|]. etrans; [apply (run_ops_steps two_owners)|].
  apply (run_ops_steps closing).
Qed.

Lemma task_tabs_consistent_witness :
  map bt_taskId (snapshot sample_world.1) = ["task-1"; "task-3"]%string ∧
  (taskIdForTab "tab-7" sample_world.1 = Some "task-1"%string ↔
   ∃ t, t ∈ snapshot sample_world.1 ∧ bt_taskId t = "task-1"%string ∧ "tab-7"%string ∈ bt_tabIds t).
Proof.
  split; [vm_compute; reflexivity|].
  exact (proj1 (proj2 (task_tabs_consistent [] 1000 _ _ sample_uuid_inj no_persisted_tasks
    sample_reachable)) "tab-7"%string "task-1"%string).
Defined.

Definition bobs_task : BrowserTask := List.nth 1 (snapshot sample_world.1)
  {| bt_taskId := ""; bt_ownerScopeHash := ""; bt_state := active; bt_tabIds := []; bt_createdAt := 0;
     bt_lastActivityAt := 0; bt_expiresAt := 0 |}.

Lemma owner_isolation_witness :
  bt_taskId bobs_task = "task-3"%string ∧
  bobs_task ∈ snapshot (run_op (Op_beginFinish "task-3" alice) sample_world.1).2.
Proof.
  split; [vm_compute; reflexivity|].
  refine (proj1 (proj1 (owner_isolation [] 1000 _ _ (Op_beginFinish "task-3" alice) alice sample_uuid_inj
    no_persisted_tasks sample_reachable eq_refl) bobs_task _ _)).
  - apply (list_elem_of_lookup_2 _ 1). vm_compute. reflexivity.
  - vm_compute. discriminate.
Defined.

Definition alices_task : BrowserTask := List.nth 0 (snapshot (run_ops closing sample_world).1) bobs_task.

Lemma closed_task_stays_closed_witness :
  bt_state alices_task = finished ∧
  ∃ e, run_op (Op_acquireForTask "task-1" alice) (run_ops two_owners (run_ops closing sample_world)).1 =
       (Err e, (run_ops two_owners (run_ops closing sample_world)).1).
Proof.
  split; [vm_compute; reflexivity|].
  destruct (closed_task_stays_closed [] 1000 _ _ (run_ops two_owners (run_ops closing sample_world)).1
    (run_ops two_owners (run_ops closing sample_world)).2 alices_task (Op_acquireForTask "task-1" alice)
    sample_uuid_inj no_persisted_tasks closed_reachable) as [(e & He & _) _].
  - apply (list_elem_of_lookup_2 _ 0). vm_compute. reflexivity.
  - left. vm_compute. reflexivity.
  - apply (run_ops_steps two_owners (run_ops closing sample_world)).
  - vm_compute. reflexivity.
  - exists e. exact He.
Defined.

Lemma leased_task_not_expired_witness :
  sample_world.2 = ["task-3"%string] ∧
  beginExpiration "task-3" 1000000 sample_world.1 = (Ok None, sample_world.1).
Proof.
  split; [vm_compute; reflexivity|].
  apply (leased_task_not_expired [] 1000 _ _ "task-3" 1000000 sample_reachable).
  apply (list_elem_of_lookup_2 _ 0). vm_compute. reflexivity.
Defined.

(** Bob confirms access to a private site, then uses it. *)
Definition private_site : SitePolicy :=
  {| sp_siteId := "intranet"; sp_allowedOrigins := ["https://intranet.example"%string] |}.
Definition confirmed_access : list site_op :=
  [S_createConfirmation bobs_task private_site "read the report";
   S_confirm "site-confirm-1" bobs_task private_site "read the report"].
Definition access_world : BrowserSiteGrantRegistry * list site_event :=
  run_sites confirmed_access (new_BrowserSiteGrantRegistry, []).
Definition bobs_grant : BrowserSiteGrant := new_grant bobs_task private_site 4.

Lemma site_access_authorized_witness :
  (requireGrant bobs_task private_site access_world.1).1 = Ok bobs_grant ∧
  sg_siteId bobs_grant = "intranet"%string ∧ grant_issued access_world.2 bobs_grant.
Proof.
  split; [vm_compute; reflexivity|].
  assert (requireGrant bobs_task private_site access_world.1 =
    (Ok bobs_grant, (requireGrant bobs_task private_site access_world.1).2)) as Hg
    by (vm_compute; reflexivity).
  assert (∀ e t, e ∈ access_world.2 → issuing_task e.1 = Some t → nul_free (bt_taskId t)) as Hnul.
  { assert (map (λ e, bt_taskId <$> issuing_task e.1) access_world.2 = [None; Some "task-3"%string]) as Hm
      by (vm_compute; reflexivity).
    intros e t He Ht. assert (In (Some (bt_taskId t)) [None; Some "task-3"%string]) as Hin.
    { rewrite <- Hm. apply in_map_iff. exists e. rewrite Ht.
      split; [reflexivity|by apply list_elem_of_In]. }
    clear -Hin. destruct Hin as [Hin|[Hin|[]]]; [discriminate Hin|].
    injection Hin as <-. vm_compute. repeat split; discriminate. }
  destruct (site_access_authorized access_world.1 access_world.2 bobs_task private_site bobs_grant
    (requireGrant bobs_task private_site access_world.1).2 sample_uuid_inj) as (_ & _ & Hs & _ & Hi & _).
  - exact (run_sites_steps confirmed_access (new_BrowserSiteGrantRegistry, [])).
  - vm_compute. repeat split; discriminate.
  - exact Hnul.
  - exact Hg.
  - split; [exact Hs|exact Hi].
Defined.

(** A call with a key, and a second one while the first runs. *)
Definition first_call : BrowserIdempotencyRegistry :=
  (run (Some "click-1"%string) "fp" 0 (new_BrowserIdempotencyRegistry None None)).2.

Lemma first_call_reachable :
  idem_reachable None None (first_call, [E_run (Some "click-1"%string) "fp" 0 (Ok 0)]).
Proof. apply rtc_once. exact (idem_run (Some "click-1"%string) "fp" 0 (new_BrowserIdempotencyRegistry None None) []). Qed.

Lemma one_execution_per_key_witness :
  (run (Some "click-1"%string) "fp" 7 first_call).1 = Ok 0 ∨
  lapsed DEFAULT_TTL_MS [E_run (Some "click-1"%string) "fp" 0 (Ok 0);
    E_run (Some "click-1"%string) "fp" 7 (Ok 0)] 0.
Proof.
  destruct (one_execution_per_key None None first_call _ "click-1" "fp" 0 0 "fp" 7 first_call_reachable)
    as [(Hr & _)|[(_ & Hn & _)|Hl]].
  - discriminate.
  - left.
  - left. exact Hr.
  - by destruct Hn.
  - right. exact Hl.
Defined.

(** Two calls on one tab and one on another, one slot. *)
Definition queued_calls : list queue_event :=
  [Ev_call "tab-1"; Ev_call "tab-1"; Ev_call "tab-2"; Ev_turn 0; Ev_turn 2; Ev_start 0; Ev_finish 0;
   Ev_turn 1; Ev_resume 2].
Definition queue_after : BrowserOperationQueue :=
  default (new_BrowserOperationQueue None) (queue_turns queued_calls (new_BrowserOperationQueue (Some 1))).

Lemma queue_after_reachable : queue_reachable (Some 1) queue_after.
Proof. apply (queue_turns_reachable _ queued_calls). vm_compute. reflexivity. Qed.

Lemma queue_serializes_keys_witness :
  map ca_phase (bq_calls queue_after) = [Finished; Has_slot; Slot_queue] ∧
  count_where holds_slot (bq_calls queue_after) ≤ bq_maxConcurrency queue_after.
Proof.
  split; [vm_compute; reflexivity|].
  apply (queue_serializes_keys (Some 1) queue_after queue_after_reachable).
Defined.

Lemma queue_never_stuck_witness :
  ∃ e s', own_turn e = true ∧ queue_turn e queue_after = Some s'.
Proof.
  apply (queue_never_stuck (Some 1) queue_after 2
    {| ca_key := "tab-2"; ca_previous := None; ca_phase := Slot_queue |} queue_after_reachable).
  - vm_compute. lia.
  - vm_compute. reflexivity.
  - discriminate.
Defined.
End witnesses.
