(* ===== verification/GatewayOperations.v ===== *)
(** * GatewayOperations: active MCP operations and their cancellation

    services/mcp-gateway/src/mcp/operation-registry.ts.  The gateway runs one
    operation per MCP request and cancels it when a cancellation notification names
    the request in the same scope.  The notification may arrive before the operation
    begins: the request is registered as pending first, and a cancelled pending
    request begins aborted.

    [AbortController]s and [PendingOperation]s are shared objects: they live in the
    lists [or_controllers] and [or_pendings] and are named by their positions.  The
    closures the methods return are the records of what they close over. *)

From S2P Require Import Prelude Text.

(** What the gateway takes from its runtime: SHA-256 and the [n]-th UUID. *)
Class GatewayHost := {
  gw_sha256 : string → string;
  gw_uuid : nat → string;
}.

Inductive McpRequestId := id_string (s : string) | id_number (z : Z).
#[global] Instance McpRequestId_eq_dec : EqDecision McpRequestId.
Proof. solve_decision. Defined.

(** [`${typeof requestId}:${String(requestId)}`] *)
Definition requestId_text (id : McpRequestId) : string :=
  match id with
  | id_string s => "string:" +:+ s
  | id_number z => "number:" +:+ pretty z
  end.

(** Where an [AbortController] stands: not aborted, or aborted with a reason. *)
Definition abort_state : Type := option (option string).

Record PendingOperation := {
  po_cancelled : bool;
  po_reason : option string;
}.

Record McpOperationRegistry := {
  or_active : gmap string (string * nat);
  or_targets : gmap string (gmap string nat);
  or_pending : gmap string (gmap string nat);
  or_controllers : list abort_state;
  or_pendings : list PendingOperation;
  or_tokens : nat;
}.

Definition new_McpOperationRegistry : McpOperationRegistry :=
  {| or_active := ∅; or_targets := ∅; or_pending := ∅; or_controllers := []; or_pendings := [];
     or_tokens := 0 |}.

(** What [registerPending] returns. *)
Record PendingRegistration := {
  pr_key : string;
  pr_lifecycleId : string;
  pr_pending : nat;
}.

(** What [begin] returns; [rg_controller] is the controller of its [signal]. *)
Record Registration := {
  rg_key : string;
  rg_cancellationKey : string;
  rg_token : string;
  rg_controller : nat;
}.

#[global] Instance Registration_eq_dec : EqDecision Registration.
Proof. solve_decision. Defined.

Definition size (s : McpOperationRegistry) : nat := map_size (or_active s).

(** [outer.get(key)?.set(inner, v)], with a new inner map when there is none. *)
Definition set_inner (key inner : string) (v : nat) (m : gmap string (gmap string nat)) :
    gmap string (gmap string nat) :=
  <[key := <[inner := v]> (default ∅ (m !! key))]> m.

(** [inner.delete(k)], and the outer entry when that leaves it empty. *)
Definition delete_inner (key inner : string) (m : gmap string (gmap string nat)) :
    gmap string (gmap string nat) :=
  match m !! key with
  | Some targets =>
      let rest := delete inner targets in
      if decide (rest = ∅) then delete key m else <[key := rest]> m
  | None => m
  end.

Definition get_inner (key inner : string) (m : gmap string (gmap string nat)) : option nat :=
  targets ← m !! key; targets !! inner.

(** [controller.abort(reason)]: the first reason stays. *)
Definition abort (c : nat) (reason : option string) (l : list abort_state) : list abort_state :=
  alter (λ a, match a with None => Some reason | Some _ => a end) c l.

(** The values of an inner map. *)
Definition inner_values (key : string) (m : gmap string (gmap string nat)) : list nat :=
  (map_to_list (default ∅ (m !! key))).*2.

Section registry.
Context `{GatewayHost}.

Definition operationKey (scope : string) (id : McpRequestId) : string :=
  scope +:+ ":" +:+ gw_sha256 (requestId_text id).

Definition registerPending (cancellationScopeKey : string) (id : McpRequestId)
    (lifecycleId : string) (s : McpOperationRegistry) :
    PendingRegistration * McpOperationRegistry :=
  let key := operationKey cancellationScopeKey id in
  let p := length (or_pendings s) in
  ({| pr_key := key; pr_lifecycleId := lifecycleId; pr_pending := p |},
   {| or_active := or_active s; or_targets := or_targets s;
      or_pending := set_inner key lifecycleId p (or_pending s);
      or_controllers := or_controllers s;
      or_pendings := or_pendings s ++ [{| po_cancelled := false; po_reason := None |}];
      or_tokens := or_tokens s |}).

(** [release] of a pending registration: only while its own object is registered. *)
Definition release_pending (h : PendingRegistration) (s : McpOperationRegistry) : McpOperationRegistry :=
  if bool_decide (get_inner (pr_key h) (pr_lifecycleId h) (or_pending s) = Some (pr_pending h)) then
    {| or_active := or_active s; or_targets := or_targets s;
       or_pending := delete_inner (pr_key h) (pr_lifecycleId h) (or_pending s);
       or_controllers := or_controllers s; or_pendings := or_pendings s; or_tokens := or_tokens s |}
  else s.

(** The pending request of a lifecycle is consumed; its cancellation aborts [c]. *)
Definition consume_pending (key : string) (lifecycleId : option string) (c : nat)
    (s : McpOperationRegistry) : McpOperationRegistry :=
  match lifecycleId with
  | None => s
  | Some life =>
      match get_inner key life (or_pending s) with
      | None => s
      | Some p =>
          let cancelled := match or_pendings s !! p with
            | Some o => if po_cancelled o then Some (po_reason o) else None
            | None => None
            end in
          {| or_active := or_active s; or_targets := or_targets s;
             or_pending := delete_inner key life (or_pending s);
             or_controllers := match cancelled with
               | Some reason => abort c reason (or_controllers s)
               | None => or_controllers s
               end;
             or_pendings := or_pendings s; or_tokens := or_tokens s |}
      end
  end.

(** [begin]; [None] is the thrown [RELAY_PROTOCOL_ERROR]. *)
Definition begin_operation (operationScopeKey : string) (id : McpRequestId)
    (cancellationScopeKey : string) (lifecycleId : option string) (s : McpOperationRegistry) :
    option Registration * McpOperationRegistry :=
  let key := operationKey operationScopeKey id in
  match or_active s !! key with
  | Some _ => (None, s)
  | None =>
      let token := gw_uuid (or_tokens s) in
      let c := length (or_controllers s) in
      let cancellationKey := operationKey cancellationScopeKey id in
      (Some {| rg_key := key; rg_cancellationKey := cancellationKey; rg_token := token;
               rg_controller := c |},
       consume_pending cancellationKey lifecycleId c
         {| or_active := <[key := (token, c)]> (or_active s);
            or_targets := set_inner cancellationKey token c (or_targets s);
            or_pending := or_pending s; or_controllers := or_controllers s ++ [None];
            or_pendings := or_pendings s; or_tokens := S (or_tokens s) |})
  end.

(** [release] of an operation: only while its own token is active. *)
Definition release_operation (r : Registration) (s : McpOperationRegistry) : McpOperationRegistry :=
  if bool_decide (fst <$> or_active s !! rg_key r = Some (rg_token r)) then
    {| or_active := delete (rg_key r) (or_active s);
       or_targets := delete_inner (rg_cancellationKey r) (rg_token r) (or_targets s);
       or_pending := or_pending s; or_controllers := or_controllers s;
       or_pendings := or_pendings s; or_tokens := or_tokens s |}
  else s.

Definition mark_cancelled (reason : option string) (o : PendingOperation) : PendingOperation :=
  {| po_cancelled := true; po_reason := reason |}.

Definition cancel (cancellationScopeKey : string) (id : McpRequestId) (reason : option string)
    (s : McpOperationRegistry) : bool * McpOperationRegistry :=
  let key := operationKey cancellationScopeKey id in
  let targets := inner_values key (or_targets s) in
  let pending := inner_values key (or_pending s) in
  (negb (bool_decide (targets = [])) || negb (bool_decide (pending = [])),
   {| or_active := or_active s; or_targets := or_targets s; or_pending := or_pending s;
      or_controllers := foldl (λ l c, abort c reason l) (or_controllers s) targets;
      or_pendings := foldl (λ l p, alter (mark_cancelled reason) p l) (or_pendings s) pending;
      or_tokens := or_tokens s |}).

Definition clear (s : McpOperationRegistry) : McpOperationRegistry :=
  {| or_active := ∅; or_targets := ∅; or_pending := ∅;
     or_controllers := foldl (λ l c, abort c (Some "gateway shutdown"%string) l) (or_controllers s)
       ((map_to_list (or_active s)).*2).*2;
     or_pendings := or_pendings s; or_tokens := or_tokens s |}.
End registry.

(** ** Reading requests *)

Definition isRecord (v : json) : bool := match v with JObj _ | JArr _ => true | _ => false end.

Definition messages (body : json) : list json := match body with JArr l => l | _ => [body] end.

Definition as_request_id (v : option json) : option McpRequestId :=
  match v with Some (JStr s) => Some (id_string s) | Some (JNum z) => Some (id_number z) | _ => None end.

Definition method_is (name : string) (message : json) : bool :=
  match prop "method" message with Some (JStr s) => bool_decide (s = name) | _ => false end.

Record McpCancellationNotification := {
  cn_requestId : McpRequestId;
  cn_reason : option string;
}.

Definition cancellation_of (message : json) : option McpCancellationNotification :=
  if negb (isRecord message) || negb (method_is "notifications/cancelled" message) then None else
  match prop "params" message with
  | Some params =>
      if negb (isRecord params) then None else
      id ← as_request_id (prop "requestId" params);
      Some {| cn_requestId := id;
              cn_reason := match prop "reason" params with
                | Some (JStr s) => Some (String.substring 0 256 s)
                | _ => None
                end |}
  | None => None
  end.

Definition extractMcpCancellationNotifications (body : json) : list McpCancellationNotification :=
  omap cancellation_of (messages body).

(** The loop with the set [seen] of the texts of the identifiers so far. *)
Fixpoint collect_call_ids (seen : list string) (l : list json) : list McpRequestId :=
  match l with
  | [] => []
  | message :: l =>
      if negb (isRecord message) || negb (method_is "tools/call" message) then collect_call_ids seen l else
      match as_request_id (prop "id" message) with
      | None => collect_call_ids seen l
      | Some id =>
          if bool_decide (requestId_text id ∈ seen) then collect_call_ids seen l
          else id :: collect_call_ids (requestId_text id :: seen) l
      end
  end.

Definition extractMcpToolCallRequestIds (body : json) : list McpRequestId :=
  collect_call_ids [] (messages body).

(** ** GatewayProps: histories of the operation registry

    Calls of the registry in any order with their results, the releases of what was
    handed out any number of times included, and the invariant that ties the three
    maps and the abort states to the history. *)

(** ** Maps of maps *)

Definition inner_ok (m : gmap string (gmap string nat)) : Prop := ∀ k t, m !! k = Some t → t ≠ ∅.

Lemma get_inner_set key inner v m k i :
  get_inner k i (set_inner key inner v m) =
  if decide (k = key ∧ i = inner) then Some v else get_inner k i m.
Proof.
  unfold get_inner, set_inner. destruct (decide (k = key)) as [->|Hk].
  - rewrite lookup_insert_eq. cbn. destruct (decide (i = inner)) as [->|Hi].
    + by rewrite lookup_insert_eq, decide_True.
    + rewrite lookup_insert_ne, decide_False by naive_solver.
      destruct (m !! key); [done|]. apply lookup_empty.
  - rewrite lookup_insert_ne, decide_False by naive_solver. done.
Qed.

Lemma get_inner_delete key inner m k i :
  get_inner k i (delete_inner key inner m) =
  if decide (k = key ∧ i = inner) then None else get_inner k i m.
Proof.
  unfold get_inner, delete_inner. destruct (m !! key) as [t|] eqn:Hm.
  - assert (∀ x, (if decide (delete inner t = ∅) then delete key m else <[key := delete inner t]> m) !! x ≫= (.!! i) =
      (if decide (x = key) then delete inner t !! i else m !! x ≫= (.!! i))) as Hx.
    { intros x. destruct (decide (delete inner t = ∅)) as [He|He]; destruct (decide (x = key)) as [->|Hne].
      - by rewrite lookup_delete_eq, He, lookup_empty.
      - by rewrite lookup_delete_ne.
      - by rewrite lookup_insert_eq.
      - by rewrite lookup_insert_ne. }
    rewrite Hx. destruct (decide (k = key)) as [->|Hk].
    + rewrite Hm. cbn. destruct (decide (i = inner)) as [->|Hi].
      * by rewrite lookup_delete_eq, decide_True.
      * rewrite lookup_delete_ne by done. by rewrite decide_False by naive_solver.
    + by rewrite decide_False by naive_solver.
  - destruct (decide (k = key ∧ i = inner)) as [[-> ->]|]; [by rewrite Hm|done].
Qed.

Lemma inner_ok_set key inner v m : inner_ok m → inner_ok (set_inner key inner v m).
Proof.
  intros Hm k t. unfold set_inner. destruct (decide (k = key)) as [->|Hk].
  - rewrite lookup_insert_eq. intros [= <-]. apply insert_non_empty.
  - rewrite lookup_insert_ne by done. apply Hm.
Qed.

Lemma inner_ok_delete key inner m : inner_ok m → inner_ok (delete_inner key inner m).
Proof.
  intros Hm k t. unfold delete_inner. destruct (m !! key) as [t'|] eqn:Hk; [|apply Hm].
  destruct (decide (delete inner t' = ∅)); destruct (decide (k = key)) as [->|Hne].
  - by rewrite lookup_delete_eq.
  - rewrite lookup_delete_ne by done. apply Hm.
  - rewrite lookup_insert_eq. by intros [= <-].
  - rewrite lookup_insert_ne by done. apply Hm.
Qed.

Lemma elem_of_inner_values v key m : v ∈ inner_values key m ↔ ∃ i, get_inner key i m = Some v.
Proof.
  unfold inner_values, get_inner. rewrite list_elem_of_fmap. split.
  - intros ([i x] & -> & Hx%elem_of_map_to_list). exists i. by destruct (m !! key); cbn in *.
  - intros [i Hi]. exists (i, v). split; [done|]. apply elem_of_map_to_list.
    by destruct (m !! key); cbn in *.
Qed.

(** No map of maps without an inner entry has an outer one. *)
Lemma inner_ok_empty m : inner_ok m → (∀ k i, get_inner k i m = None) → m = ∅.
Proof.
  intros Hm Hn. apply map_empty. intros k. destruct (m !! k) as [t|] eqn:Hk; [|done].
  destruct (Hm k t Hk). apply map_empty. intros i. specialize (Hn k i). unfold get_inner in Hn.
  by rewrite Hk in Hn.
Qed.

(** ** Abort states *)

Definition aborted (l : list abort_state) (c : nat) : Prop := ∃ reason, l !! c = Some (Some reason).

Lemma abort_aborted c reason l d : aborted (abort c reason l) d ↔ aborted l d ∨ (d = c ∧ c < length l).
Proof.
  unfold aborted, abort. destruct (decide (d = c)) as [->|Hn].
  - rewrite list_lookup_alter_eq. split.
    + intros [r Hr]. right. split; [done|]. apply fmap_Some in Hr as (a & Ha & _). by eapply lookup_lt_Some.
    + intros [[r Hr]|[_ Hlt]]; [exists r; by apply fmap_Some; exists (Some r)|].
      apply lookup_lt_is_Some in Hlt as [[r|] Ha]; [exists r|exists reason]; apply fmap_Some; eauto.
  - rewrite list_lookup_alter_ne by done. naive_solver.
Qed.

Lemma abort_all_length reason cs l : length (foldl (λ l c, abort c reason l) l cs) = length l.
Proof. revert l. induction cs as [|c cs IH]; intros l; cbn; [done|]. rewrite IH. apply length_alter. Qed.

Lemma abort_all_aborted reason cs l d :
  aborted (foldl (λ l c, abort c reason l) l cs) d ↔ aborted l d ∨ (d ∈ cs ∧ d < length l).
Proof.
  revert l. induction cs as [|c cs IH]; intros l; cbn.
  - split; [by left|]. intros [?|[?%not_elem_of_nil _]]; done.
  - rewrite IH, abort_aborted, elem_of_cons. unfold abort. rewrite length_alter. naive_solver.
Qed.

(** A pending request is cancelled. *)
Definition is_cancelled (l : list PendingOperation) (p : nat) : Prop :=
  ∃ o, l !! p = Some o ∧ po_cancelled o = true.

Lemma mark_all_cancelled reason ps l p :
  is_cancelled (foldl (λ l p, alter (mark_cancelled reason) p l) l ps) p ↔
  is_cancelled l p ∨ (p ∈ ps ∧ p < length l).
Proof.
  revert l. induction ps as [|q ps IH]; intros l; cbn.
  - split; [by left|]. intros [?|[?%not_elem_of_nil _]]; done.
  - rewrite IH, elem_of_cons, length_alter. unfold is_cancelled. destruct (decide (p = q)) as [->|Hn].
    + rewrite list_lookup_alter_eq. split.
      * intros [(o & Ho & _)|[? ?]]; [|auto]. right. split; [by left|].
        apply fmap_Some in Ho as (x & Hx & _). by eapply lookup_lt_Some.
      * intros [(o & -> & ?)|[_ Hlt]]; [left; cbn; eauto|].
        apply lookup_lt_is_Some in Hlt as [o ->]. left. cbn. eauto.
    + rewrite list_lookup_alter_ne by done. naive_solver.
Qed.

Lemma mark_all_length reason ps l :
  length (foldl (λ l p, alter (mark_cancelled reason) p l) l ps) = length l.
Proof. revert l. induction ps as [|p ps IH]; intros l; cbn; [done|]. rewrite IH. apply length_alter. Qed.

(** ** Histories *)

Inductive gw_op :=
| G_registerPending (cancellationScopeKey : string) (id : McpRequestId) (lifecycleId : string)
| G_begin (operationScopeKey : string) (id : McpRequestId) (cancellationScopeKey : string)
    (lifecycleId : option string)
| G_releasePending (h : PendingRegistration)
| G_release (r : Registration)
| G_cancel (cancellationScopeKey : string) (id : McpRequestId) (reason : option string)
| G_clear.

Inductive gw_result :=
| R_pending (h : PendingRegistration)
| R_begun (o : option Registration)
| R_matched (b : bool)
| R_none.

Definition gw_event : Type := gw_op * gw_result.

(** The operation was begun, the pending request registered, in the history. *)
Definition begun (tr : list gw_event) (r : Registration) : Prop := ∃ op, (op, R_begun (Some r)) ∈ tr.
Definition handed (tr : list gw_event) (h : PendingRegistration) : Prop := ∃ op, (op, R_pending h) ∈ tr.
Definition cleared (tr : list gw_event) : Prop := ∃ res, (G_clear, res) ∈ tr.

(** A caller releases what it was given. *)
Definition gw_allowed (tr : list gw_event) (op : gw_op) : Prop :=
  match op with
  | G_releasePending h => handed tr h
  | G_release r => begun tr r
  | _ => True
  end.

Section histories.
Context `{GatewayHost}.
Implicit Types (s : McpOperationRegistry) (tr : list gw_event).

Definition run_gw (op : gw_op) s : gw_result * McpOperationRegistry :=
  match op with
  | G_registerPending scope id life =>
      let '(h, s') := registerPending scope id life s in (R_pending h, s')
  | G_begin scope id cancellation life =>
      let '(o, s') := begin_operation scope id cancellation life s in (R_begun o, s')
  | G_releasePending h => (R_none, release_pending h s)
  | G_release r => (R_none, release_operation r s)
  | G_cancel scope id reason => let '(b, s') := cancel scope id reason s in (R_matched b, s')
  | G_clear => (R_none, clear s)
  end.

Inductive gw_step : McpOperationRegistry * list gw_event → McpOperationRegistry * list gw_event → Prop :=
| gw_step_op op s tr : gw_allowed tr op → gw_step (s, tr) ((run_gw op s).2, tr ++ [(op, (run_gw op s).1)]).

Definition gw_reachable : McpOperationRegistry * list gw_event → Prop :=
  rtc gw_step (new_McpOperationRegistry, []).

Definition cancelled_key tr (key : string) : Prop :=
  ∃ scope id reason res, (G_cancel scope id reason, res) ∈ tr ∧ operationKey scope id = key.

(** The operation is registered and can be cancelled. *)
Definition live s (r : Registration) : Prop :=
  or_active s !! rg_key r = Some (rg_token r, rg_controller r).

Record gw_inv s tr : Prop := {
  gi_active : ∀ k tok c, or_active s !! k = Some (tok, c) → ∃ r, begun tr r ∧ rg_key r = k ∧
    rg_token r = tok ∧ rg_controller r = c ∧ get_inner (rg_cancellationKey r) tok (or_targets s) = Some c;
  gi_targets : ∀ K tok c, get_inner K tok (or_targets s) = Some c → ∃ r, begun tr r ∧
    rg_cancellationKey r = K ∧ rg_token r = tok ∧ rg_controller r = c ∧ live s r;
  gi_inner : inner_ok (or_targets s) ∧ inner_ok (or_pending s);
  gi_begun : ∀ r, begun tr r → (∃ n, n < or_tokens s ∧ rg_token r = gw_uuid n) ∧
    rg_controller r < length (or_controllers s);
  gi_unique : ∀ r1 r2, begun tr r1 → begun tr r2 →
    rg_token r1 = rg_token r2 ∨ rg_controller r1 = rg_controller r2 → r1 = r2;
  gi_pending : ∀ K life p, get_inner K life (or_pending s) = Some p →
    handed tr {| pr_key := K; pr_lifecycleId := life; pr_pending := p |};
  gi_handed : ∀ h, handed tr h → pr_pending h < length (or_pendings s);
  gi_handed_unique : ∀ h1 h2, handed tr h1 → handed tr h2 → pr_pending h1 = pr_pending h2 → h1 = h2;
  gi_cancelled : ∀ p, is_cancelled (or_pendings s) p →
    ∃ h, handed tr h ∧ pr_pending h = p ∧ cancelled_key tr (pr_key h);
  gi_aborted : ∀ c, aborted (or_controllers s) c → ∃ r, begun tr r ∧ rg_controller r = c ∧
    (cancelled_key tr (rg_cancellationKey r) ∨ cleared tr);
}.

(** History only grows. *)
Lemma begun_snoc tr e r : begun (tr ++ [e]) r ↔ begun tr r ∨ e.2 = R_begun (Some r).
Proof. unfold begun. setoid_rewrite elem_of_snoc. destruct e. naive_solver. Qed.
Lemma handed_snoc tr e h : handed (tr ++ [e]) h ↔ handed tr h ∨ e.2 = R_pending h.
Proof. unfold handed. setoid_rewrite elem_of_snoc. destruct e. naive_solver. Qed.
Lemma cancelled_key_snoc tr e K : cancelled_key tr K → cancelled_key (tr ++ [e]) K.
Proof. intros (? & ? & ? & ? & ? & ?). unfold cancelled_key. setoid_rewrite elem_of_snoc. eauto 10. Qed.
Lemma cleared_snoc tr e : cleared tr → cleared (tr ++ [e]).
Proof. intros [? ?]. unfold cleared. setoid_rewrite elem_of_snoc. eauto. Qed.
Lemma cancelled_key_now tr scope id reason res :
  cancelled_key (tr ++ [(G_cancel scope id reason, res)]) (operationKey scope id).
Proof. unfold cancelled_key. setoid_rewrite elem_of_snoc. eauto 10. Qed.
Lemma cleared_now tr res : cleared (tr ++ [(G_clear, res)]).
Proof. unfold cleared. setoid_rewrite elem_of_snoc. eauto. Qed.

(** An event that hands nothing out and keeps the invariant of the state. *)
Lemma gw_inv_quiet s s' tr e :
  gw_inv s tr → (∀ r, e.2 ≠ R_begun (Some r)) → (∀ h, e.2 ≠ R_pending h) →
  (∀ k v, or_active s' !! k = Some v → or_active s !! k = Some v) →
  (∀ K tok c, get_inner K tok (or_targets s') = Some c → get_inner K tok (or_targets s) = Some c) →
  (∀ r, begun tr r → live s r → live s' r ↔
     get_inner (rg_cancellationKey r) (rg_token r) (or_targets s') = Some (rg_controller r)) →
  inner_ok (or_targets s') ∧ inner_ok (or_pending s') →
  (∀ K life p, get_inner K life (or_pending s') = Some p → get_inner K life (or_pending s) = Some p) →
  or_tokens s' = or_tokens s → length (or_controllers s') = length (or_controllers s) →
  length (or_pendings s') = length (or_pendings s) →
  (∀ p, is_cancelled (or_pendings s') p → is_cancelled (or_pendings s) p ∨
     ∃ K life, get_inner K life (or_pending s) = Some p ∧ cancelled_key (tr ++ [e]) K) →
  (∀ c, aborted (or_controllers s') c → aborted (or_controllers s) c ∨
     (∃ K tok, get_inner K tok (or_targets s) = Some c ∧
        (cancelled_key (tr ++ [e]) K ∨ cleared (tr ++ [e])))) →
  gw_inv s' (tr ++ [e]).
Proof.
  intros [I1 I2 I3 I4 I5 I6 I7 I8 I9 I10] Hnb Hnh Ha Ht Hlive Hin Hp Htok Hlc Hlp Hcan Hab.
  assert (∀ r, begun (tr ++ [e]) r ↔ begun tr r) as Hb
    by (intros r; rewrite begun_snoc; specialize (Hnb r); naive_solver).
  assert (∀ h, handed (tr ++ [e]) h ↔ handed tr h) as Hh
    by (intros h; rewrite handed_snoc; specialize (Hnh h); naive_solver).
  constructor.
  - intros k tok c Hk. destruct (I1 k tok c (Ha _ _ Hk)) as (r & Hr & <- & <- & <- & Hg).
    exists r. rewrite Hb. split_and!; try done. apply Hlive; [done|by apply Ha|done].
  - intros K tok c Hk. destruct (I2 K tok c (Ht _ _ _ Hk)) as (r & Hr & <- & <- & <- & Hl).
    exists r. rewrite Hb. split_and!; try done. by apply Hlive.
  - done.
  - intros r Hr%Hb. rewrite Htok, Hlc. by apply I4.
  - intros r1 r2 H1%Hb H2%Hb. by apply I5.
  - intros K life p Hk. apply Hh. by apply I6, Hp.
  - intros h Hr%Hh. rewrite Hlp. by apply I7.
  - intros h1 h2 H1%Hh H2%Hh. by apply I8.
  - intros p [Hc|(K & life & Hg & Hc)]%Hcan.
    + destruct (I9 p Hc) as (h & ? & ? & ?). exists h. rewrite Hh. eauto using cancelled_key_snoc.
    + exists {| pr_key := K; pr_lifecycleId := life; pr_pending := p |}. rewrite Hh. eauto.
  - intros c [Hc|(K & tok & Hg & Hc)]%Hab.
    + destruct (I10 c Hc) as (r & ? & ? & Hd). exists r. rewrite Hb.
      destruct Hd; eauto using cancelled_key_snoc, cleared_snoc.
    + destruct (I2 K tok c Hg) as (r & ? & <- & ? & ? & ?). exists r. rewrite Hb. eauto.
Qed.

Lemma live_target s tr : gw_inv s tr → ∀ r, begun tr r → live s r →
  get_inner (rg_cancellationKey r) (rg_token r) (or_targets s) = Some (rg_controller r).
Proof.
  intros I r Hr Hl. destruct (gi_active _ _ I _ _ _ Hl) as (r' & Hr' & _ & Ht & _ & Hg).
  assert (r' = r) as -> by (apply (gi_unique _ _ I); auto). done.
Qed.

Lemma release_pending_inv s tr h :
  gw_inv s tr → gw_inv (release_pending h s) (tr ++ [(G_releasePending h, R_none)]).
Proof.
  intros I. assert (∀ r, begun tr r → live s r →
    get_inner (rg_cancellationKey r) (rg_token r) (or_targets s) = Some (rg_controller r)) as Hl
    by (by apply live_target).
  unfold release_pending. case_bool_decide; cbn; apply gw_inv_quiet with s; cbn; try done; try naive_solver.
  - split; [apply I|]. apply inner_ok_delete, I.
  - intros K life p. rewrite get_inner_delete. by case_decide.
  - apply I.
Qed.

Lemma cancel_inv s tr scope id reason :
  gw_inv s tr →
  gw_inv (cancel scope id reason s).2
    (tr ++ [(G_cancel scope id reason, R_matched (cancel scope id reason s).1)]).
Proof.
  intros I. assert (∀ r, begun tr r → live s r →
    get_inner (rg_cancellationKey r) (rg_token r) (or_targets s) = Some (rg_controller r)) as Hl
    by (by apply live_target).
  apply gw_inv_quiet with s; cbn; try done; try naive_solver.
  - apply I.
  - apply abort_all_length.
  - apply mark_all_length.
  - intros p [?|[Hp _]]%mark_all_cancelled; [by left|]. right.
    apply elem_of_inner_values in Hp as [life Hp]. exists (operationKey scope id), life.
    split; [done|apply cancelled_key_now].
  - intros c [?|[Hc _]]%abort_all_aborted; [by left|]. right.
    apply elem_of_inner_values in Hc as [tok Hc]. exists (operationKey scope id), tok.
    split; [done|left; apply cancelled_key_now].
Qed.

Lemma clear_inv s tr : gw_inv s tr → gw_inv (clear s) (tr ++ [(G_clear, R_none)]).
Proof.
  intros I. assert (∀ k i, get_inner k i ∅ = None) as He by (intros; unfold get_inner; by rewrite lookup_empty).
  apply gw_inv_quiet with s; cbn; try done; try (intros ???; by rewrite He).
  - apply abort_all_length.
  - intros p ?. by left.
  - intros c [?|[Hc _]]%abort_all_aborted; [by left|]. right.
    apply list_elem_of_fmap in Hc as (v & -> & Hc).
    apply list_elem_of_fmap in Hc as ([k [tok c']] & -> & Hc%elem_of_map_to_list). cbn in Hc |- *.
    destruct (gi_active _ _ I _ _ _ Hc) as (r & _ & _ & _ & _ & Hg). eauto using cleared_now.
Qed.

Lemma release_operation_inv s tr r0 :
  gw_inv s tr → begun tr r0 → gw_inv (release_operation r0 s) (tr ++ [(G_release r0, R_none)]).
Proof.
  intros I Hr0. pose proof (live_target s tr I) as Hl.
  unfold release_operation. case_bool_decide as Hact; cbn.
  2: { apply gw_inv_quiet with s; cbn; try done; try naive_solver. apply I. }
  apply fmap_Some in Hact as ([tok c0] & Hact & Htok). cbn in Htok. subst tok.
  apply gw_inv_quiet with s; cbn; try done; try naive_solver.
  - intros k v Hk. by apply lookup_delete_Some in Hk as [_ ?].
  - intros K tok c. rewrite get_inner_delete. by case_decide.
  - intros r Hr Hlive. unfold live. cbn. rewrite get_inner_delete.
    assert (rg_key r = rg_key r0 ↔ r = r0) as Hkey.
    { split; [|congruence]. intros E. apply (gi_unique _ _ I); [done|done|left].
      unfold live in Hlive. rewrite E, Hact in Hlive. congruence. }
    destruct (decide (r = r0)) as [->|Hn].
    + rewrite lookup_delete_eq, decide_True by done. done.
    + rewrite lookup_delete_ne by naive_solver. rewrite decide_False.
      * split; [intros _; by apply Hl|intros _; exact Hlive].
      * intros [_ E]. apply Hn. apply (gi_unique _ _ I); auto.
  - split; [apply inner_ok_delete, I|apply I].
Qed.

Lemma registerPending_inv s tr scope id life :
  gw_inv s tr →
  gw_inv (registerPending scope id life s).2
    (tr ++ [(G_registerPending scope id life, R_pending (registerPending scope id life s).1)]).
Proof.
  intros [I1 I2 I3 I4 I5 I6 I7 I8 I9 I10]. cbn. set (h := Build_PendingRegistration _ _ _). set (e := (_, _)).
  assert (∀ r, begun (tr ++ [e]) r ↔ begun tr r) as Hb by (intros r; rewrite begun_snoc; naive_solver).
  assert (∀ x, handed (tr ++ [e]) x ↔ handed tr x ∨ x = h) as Hh.
  { intros x. rewrite handed_snoc. cbn. split; (intros [?|?]; [by left|right; congruence]). }
  constructor; cbn; rewrite ?length_app; cbn.
  - intros k tok c Hk. destruct (I1 k tok c Hk) as (r & ?). exists r. by rewrite Hb.
  - intros K tok c Hk. destruct (I2 K tok c Hk) as (r & ?). exists r. by rewrite Hb.
  - split; [apply I3|apply inner_ok_set, I3].
  - intros r Hr%Hb. by apply I4.
  - intros r1 r2 H1%Hb H2%Hb. by apply I5.
  - intros K l p. rewrite get_inner_set, Hh. case_decide as E; [|left; by apply I6].
    intros [= <-]. destruct E as [-> ->]. by right.
  - intros x [Hx| ->]%Hh; [specialize (I7 x Hx); lia|]. cbn. lia.
  - intros x y [Hx| ->]%Hh [Hy| ->]%Hh E; [by apply I8| | |done].
    + specialize (I7 x Hx). cbn in E. lia.
    + specialize (I7 y Hy). cbn in E. lia.
  - intros p (o & [Ho|[_ Ho]]%lookup_app_Some & Hc).
    + destruct (I9 p) as (x & ? & ? & ?); [by exists o|]. exists x. rewrite Hh. eauto using cancelled_key_snoc.
    + apply list_elem_of_lookup_2, list_elem_of_singleton in Ho as ->. done.
  - intros c Hc. destruct (I10 c Hc) as (r & ? & ? & Hd). exists r. rewrite Hb.
    destruct Hd; eauto using cancelled_key_snoc, cleared_snoc.
Qed.

(** The registry right after [begin] has registered the operation. *)
Definition begun_state (key token cancellationKey : string) s : McpOperationRegistry :=
  {| or_active := <[key := (token, length (or_controllers s))]> (or_active s);
     or_targets := set_inner cancellationKey token (length (or_controllers s)) (or_targets s);
     or_pending := or_pending s; or_controllers := or_controllers s ++ [None];
     or_pendings := or_pendings s; or_tokens := S (or_tokens s) |}.

Lemma aborted_snoc l c : aborted (l ++ [None]) c ↔ aborted l c.
Proof.
  unfold aborted. split; intros [r Hr]; exists r.
  - apply lookup_app_Some in Hr as [?|[_ Hr]]; [done|].
    apply list_elem_of_lookup_2, list_elem_of_singleton in Hr. done.
  - by apply lookup_app_l_Some.
Qed.

Lemma begun_state_inv s tr op r :
  Inj (=) (=) gw_uuid → gw_inv s tr → or_active s !! rg_key r = None →
  rg_token r = gw_uuid (or_tokens s) → rg_controller r = length (or_controllers s) →
  gw_inv (begun_state (rg_key r) (rg_token r) (rg_cancellationKey r) s) (tr ++ [(op, R_begun (Some r))]).
Proof.
  intros Huuid [I1 I2 I3 I4 I5 I6 I7 I8 I9 I10] Hfree Htok Hctl. set (e := (op, _)).
  assert (∀ x, begun (tr ++ [e]) x ↔ begun tr x ∨ x = r) as Hb.
  { intros x. rewrite begun_snoc. cbn. split; (intros [?|?]; [by left|right; congruence]). }
  assert (∀ x, handed (tr ++ [e]) x ↔ handed tr x) as Hh by (intros x; rewrite handed_snoc; naive_solver).
  assert (∀ x, begun tr x → rg_token x ≠ rg_token r ∧ rg_controller x ≠ rg_controller r) as Hold.
  { intros x Hx. destruct (I4 x Hx) as [(n & Hn & ->) Hlt]. rewrite Htok, Hctl. split; [|lia].
    intros E%Huuid. lia. }
  constructor; cbn; rewrite ?length_app; cbn.
  - intros k tok c. destruct (decide (k = rg_key r)) as [->|Hk].
    + rewrite lookup_insert_eq. intros [= <- <-]. exists r. rewrite Hb, get_inner_set, decide_True by done. auto.
    + rewrite lookup_insert_ne by done. intros Hx. destruct (I1 k tok c Hx) as (x & Hbx & ? & <- & ? & Hg).
      exists x. rewrite Hb, get_inner_set, decide_False; [by auto 10|]. intros [_ E]. by destruct (Hold x Hbx).
  - intros K tok c. rewrite get_inner_set. case_decide as E.
    + destruct E as [-> ->]. intros [= <-]. exists r. rewrite Hb. split_and!; auto.
      unfold live. cbn. by rewrite lookup_insert_eq, Hctl.
    + intros Hx. destruct (I2 K tok c Hx) as (x & Hbx & ? & ? & ? & Hl). exists x. rewrite Hb.
      split_and!; auto. unfold live in *. cbn. rewrite lookup_insert_ne; [done|]. intros Ek. congruence.
  - split; [apply inner_ok_set, I3|apply I3].
  - intros x [Hx| ->]%Hb; [|split; [exists (or_tokens s); split; [lia|done]|lia]].
    destruct (I4 x Hx) as [(n & ? & ?) ?]. split; [exists n; split; [lia|done]|lia].
  - intros x y [Hx| ->]%Hb [Hy| ->]%Hb E; [by apply I5| | |done].
    + destruct (Hold x Hx). naive_solver.
    + destruct (Hold y Hy). naive_solver.
  - intros K life p Hp. apply Hh. by apply I6.
  - intros x Hx%Hh. by apply I7.
  - intros x y Hx%Hh Hy%Hh. by apply I8.
  - intros p Hp. destruct (I9 p Hp) as (h & ? & ? & ?). exists h. rewrite Hh. eauto using cancelled_key_snoc.
  - intros c Hc. apply (proj1 (aborted_snoc _ _)) in Hc. destruct (I10 c Hc) as (x & ? & ? & Hd). exists x. rewrite Hb.
    destruct Hd; eauto 10 using cancelled_key_snoc, cleared_snoc.
Qed.

(** Consuming the pending request of the operation [r]. *)
Lemma consume_pending_inv s tr r life :
  gw_inv s tr → begun tr r → gw_inv (consume_pending (rg_cancellationKey r) life (rg_controller r) s) tr.
Proof.
  intros [I1 I2 I3 I4 I5 I6 I7 I8 I9 I10] Hr. unfold consume_pending. destruct life as [l|]; [|done].
  destruct (get_inner _ l (or_pending s)) as [p|] eqn:Hp; [|done].
  set (controllers' := match _ with Some reason => abort _ reason _ | None => _ end).
  assert (length controllers' = length (or_controllers s)) as Hlen.
  { subst controllers'. destruct (match or_pendings s !! p with Some _ => _ | None => _ end); [apply length_alter|done]. }
  constructor; cbn; rewrite ?Hlen; try done.
  - split; [apply I3|apply inner_ok_delete, I3].
  - intros K life q. rewrite get_inner_delete. case_decide; [done|apply I6].
  - intros c Hc. assert (aborted (or_controllers s) c ∨ c = rg_controller r ∧ is_cancelled (or_pendings s) p) as Hc'.
    { subst controllers'. destruct (or_pendings s !! p) as [o|] eqn:Ho; [|by left].
      destruct (po_cancelled o) eqn:Hoc; [|by left]. apply abort_aborted in Hc as [?|[? _]]; [by left|right].
      split; [done|]. by exists o. }
    destruct Hc' as [?|[-> Hcan]]; [by apply I10|]. exists r. split_and!; [done..|]. left.
    destruct (I9 p Hcan) as (h & Hh & Hhp & Hk).
    assert (h = {| pr_key := rg_cancellationKey r; pr_lifecycleId := l; pr_pending := p |}) as ->; [|done].
    apply I8; [done|by apply I6|done].
Qed.

Lemma begin_inv s tr scope id cancellation life :
  Inj (=) (=) gw_uuid → gw_inv s tr →
  gw_inv (begin_operation scope id cancellation life s).2
    (tr ++ [(G_begin scope id cancellation life, R_begun (begin_operation scope id cancellation life s).1)]).
Proof.
  intros Huuid I. unfold begin_operation.
  destruct (or_active s !! operationKey scope id) as [v|] eqn:Ha; cbn [fst snd].
  - pose proof (live_target s tr I) as Hl. apply gw_inv_quiet with s; try done; try naive_solver. apply I.
  - set (r := Build_Registration _ _ _ _).
    apply (consume_pending_inv (begun_state (rg_key r) (rg_token r) (rg_cancellationKey r) s) _ r);
      [|apply begun_snoc; by right].
    exact (begun_state_inv s tr _ r Huuid I Ha eq_refl eq_refl).
Qed.

Lemma gw_step_inv w w' : Inj (=) (=) gw_uuid → gw_step w w' → gw_inv w.1 w.2 → gw_inv w'.1 w'.2.
Proof.
  intros Huuid [op s tr Hallow] I. cbn [fst snd] in *. destruct op; cbn [run_gw].
  - by apply registerPending_inv.
  - pose proof (begin_inv s tr operationScopeKey id cancellationScopeKey lifecycleId Huuid I) as Hi.
    destruct (begin_operation _ _ _ _ _). exact Hi.
  - by apply release_pending_inv.
  - by apply release_operation_inv.
  - by apply cancel_inv.
  - by apply clear_inv.
Qed.

Lemma gw_reachable_inv s tr : Inj (=) (=) gw_uuid → gw_reachable (s, tr) → gw_inv s tr.
Proof.
  intros Huuid Hr. assert (∀ w, rtc gw_step (new_McpOperationRegistry, []) w → gw_inv w.1 w.2) as Hall;
    [|exact (Hall _ Hr)].
  apply (rtc_ind_r (λ w, gw_inv w.1 w.2)); [|by intros w1 w2 _ Hs; apply gw_step_inv].
  assert (∀ k i, get_inner k i ∅ = None) as He by (intros; unfold get_inner; by rewrite lookup_empty).
  constructor; cbn.
  - intros k tok c. by rewrite lookup_empty.
  - intros K tok c. by rewrite He.
  - split; intros k t; by rewrite lookup_empty.
  - by intros r [op ?%not_elem_of_nil].
  - by intros r1 r2 [op ?%not_elem_of_nil].
  - intros K life p. by rewrite He.
  - by intros h [op ?%not_elem_of_nil].
  - by intros h1 h2 [op ?%not_elem_of_nil].
  - intros p (o & Ho & _). by rewrite lookup_nil in Ho.
  - intros c [r Hc]. by rewrite lookup_nil in Hc.
Qed.

(** ** What a step keeps *)

Lemma is_cancelled_app l l' p : is_cancelled l p → is_cancelled (l ++ l') p.
Proof. intros (o & Ho & ?). exists o. split; [by apply lookup_app_l_Some|done]. Qed.

Lemma consume_pending_pendings key life c s : or_pendings (consume_pending key life c s) = or_pendings s.
Proof. unfold consume_pending. destruct life; [|done]. by destruct (get_inner _ _ _). Qed.

Lemma run_gw_pendings op s :
  length (or_pendings s) ≤ length (or_pendings (run_gw op s).2) ∧
  ∀ p, is_cancelled (or_pendings s) p → is_cancelled (or_pendings (run_gw op s).2) p.
Proof.
  destruct op; cbn; unfold begin_operation, release_pending, release_operation.
  - rewrite length_app. split; [lia|intros; by apply is_cancelled_app].
  - destruct (or_active s !! _); cbn; [done|]. by rewrite consume_pending_pendings.
  - by case_bool_decide.
  - by case_bool_decide.
  - rewrite mark_all_length. split; [done|]. intros p Hp. apply mark_all_cancelled. by left.
  - done.
Qed.

(** A pending object that is registered was registered before, unless it is new. *)
Lemma run_gw_registered op s K life p :
  get_inner K life (or_pending (run_gw op s).2) = Some p → p < length (or_pendings s) →
  get_inner K life (or_pending s) = Some p.
Proof.
  intros Hg Hlt. destruct op; cbn in Hg; unfold begin_operation, release_pending, release_operation in Hg.
  - rewrite get_inner_set in Hg. case_decide; [|done]. simplify_eq. lia.
  - destruct (or_active s !! _); cbn in Hg; [done|]. revert Hg. unfold consume_pending.
    destruct lifecycleId as [l|]; [|done]. cbn. destruct (get_inner _ l _) eqn:E; [|done]. cbn.
    rewrite get_inner_delete. by case_decide.
  - case_bool_decide; [|done]. cbn in Hg. rewrite get_inner_delete in Hg. by case_decide.
  - by case_bool_decide.
  - done.
  - unfold get_inner in Hg. by rewrite lookup_empty in Hg.
Qed.

Lemma gw_steps_pendings w w' : rtc gw_step w w' →
  length (or_pendings w.1) ≤ length (or_pendings w'.1) ∧
  (∀ p, is_cancelled (or_pendings w.1) p → is_cancelled (or_pendings w'.1) p) ∧
  (∀ K life p, get_inner K life (or_pending w'.1) = Some p → p < length (or_pendings w.1) →
     get_inner K life (or_pending w.1) = Some p).
Proof.
  induction 1 as [w|w1 w2 w3 Hs _ (IH1 & IH2 & IH3)]; [done|]. destruct Hs as [op s tr Ha]. cbn [fst snd] in *.
  destruct (run_gw_pendings op s) as [Hlen Hcan]. split; [lia|]. split; [by auto|].
  intros K life p Hg Hlt. apply run_gw_registered with op; [|done]. apply IH3; [done|lia].
Qed.

(** A call of the registry as a step. *)
Lemma gw_step_run op s tr : gw_allowed tr op → rtc gw_step (s, tr) ((run_gw op s).2, tr ++ [(op, (run_gw op s).1)]).
Proof. intros. by apply rtc_once, gw_step_op. Qed.

(** The cancellation key of an operation is the one its [begin] named. *)
Lemma begun_keys s tr scope id cancellation life r :
  gw_reachable (s, tr) → (G_begin scope id cancellation life, R_begun (Some r)) ∈ tr →
  rg_key r = operationKey scope id ∧ rg_cancellationKey r = operationKey cancellation id.
Proof.
  intros Hr. change tr with (s, tr).2. revert Hr. generalize (s, tr). unfold gw_reachable.
  apply (rtc_ind_r (λ w, _ ∈ w.2 → _)); [by intros ?%not_elem_of_nil|].
  intros w w' _ [op s0 tr0 _] IH. cbn [snd] in *. intros [Hin|Hin%list_elem_of_singleton]%elem_of_app; [by apply IH|].
  destruct op; cbn in Hin; simplify_eq. unfold begin_operation in *.
  destruct (or_active s0 !! _); cbn in *; simplify_eq. done.
Qed.
End histories.
