(* ===== verification/GatewayScopes.v ===== *)
(** * GatewayScopes: whose request it is

    The keys of operation-registry.ts ([createMcpPrincipalKey],
    [createMcpOperationScopeKey], [createMcpCancellationScopeKey]) and the part of
    the POST handler of services/mcp-gateway/src/app.ts that announces the tool calls
    of a request and applies its cancellation notifications.

    Node decodes header values as Latin-1, so a header is a [string] of code units
    below 256. *)

From S2P Require Import Prelude Text GatewayOperations.
From Stdlib Require Import Ascii.

(** [String(value)] of a JSON value; [join] writes [null] as the empty string. *)
Fixpoint js_String (v : json) : string :=
  match v with
  | JNull => "null"
  | JBool true => "true"
  | JBool false => "false"
  | JNum z => pretty z
  | JStr s => s
  | JArr l => String.concat "," (map (λ x, match x with JNull => "" | _ => js_String x end) l)
  | JObj _ => "[object Object]"
  end.

Record AuthInfo := {
  ai_token : string;
  ai_clientId : string;
  ai_subject : option json;
}.

Record AuthenticatedRequest := {
  rq_auth : option AuthInfo;
  rq_header : string → option string;
  rq_ip : option string;
  rq_remoteAddress : option string;
  rq_mcpRequestId : option string;
  rq_body : json;
}.

(** ** [readOpaquePrincipalHeader] *)

Definition opaque_char (c : Ascii.ascii) : bool :=
  in_range 33 126 c && negb (Ascii.eqb c ","%char).

Definition readOpaquePrincipalHeader (request : AuthenticatedRequest) (name : string) : option string :=
  v ← rq_header request name;
  let value := trim v in
  if bool_decide (value = "") || (512 <? String.length value) then None
  else if all_chars opaque_char value then Some value
  else None.

(** A value that is tested for truth: the empty string is no value. *)
Definition truthy (s : string) : option string := if bool_decide (s = "") then None else Some s.

Section scopes.
Context `{GatewayHost}.

Definition identity_key (a : AuthInfo) : option string :=
  let subject := match ai_subject a with None | Some JNull => "" | Some v => js_String v end in
  let key := Some ("identity:" +:+ gw_sha256 (subject +:+ ":" +:+ ai_clientId a)) in
  match ai_subject a, truthy (ai_clientId a) with
  | Some (JStr _), _ => key
  | _, Some _ => key
  | _, None => None
  end.

Definition auth_key (a : AuthInfo) : option string :=
  token ← truthy (ai_token a);
  Some ("auth:" +:+ gw_sha256 token).

Definition openai_key (request : AuthenticatedRequest) : option string :=
  subject ← readOpaquePrincipalHeader request "x-openai-subject";
  session ← readOpaquePrincipalHeader request "x-openai-session";
  Some ("openai:" +:+ gw_sha256 (json_stringify (JArr [JStr subject; JStr session]))).

Definition session_key (request : AuthenticatedRequest) : option string :=
  session ← readOpaquePrincipalHeader request "mcp-session-id";
  Some ("session:" +:+ gw_sha256 session).

Definition createMcpPrincipalKey (ignoreMcpSessionId : bool) (request : AuthenticatedRequest) : string :=
  let address := default "unknown" (or_else (rq_ip request) (rq_remoteAddress request)) in
  let userAgent := default "unknown" (rq_header request "user-agent") in
  default ("anonymous:" +:+ gw_sha256 (address +:+ ":" +:+ userAgent))
    (or_else (rq_auth request ≫= identity_key)
    (or_else (rq_auth request ≫= auth_key)
    (or_else (openai_key request)
      (if ignoreMcpSessionId then None else session_key request)))).

Definition mcp_session_scope (request : AuthenticatedRequest) (principalKey : string) : option string :=
  session ← readOpaquePrincipalHeader request "mcp-session-id";
  Some ("mcp-session:" +:+ gw_sha256 (json_stringify (JArr [JStr principalKey; JStr session]))).

(** [None] is the thrown [INTERNAL_ERROR]. *)
Definition createMcpOperationScopeKey (request : AuthenticatedRequest) (principalKey : string) :
    option string :=
  or_else (mcp_session_scope request principalKey)
    (requestId ← rq_mcpRequestId request ≫= truthy;
     Some ("request:" +:+ gw_sha256 (json_stringify (JArr [JStr principalKey; JStr requestId])))).

Definition createMcpSessionScopeKey (request : AuthenticatedRequest) (principalKey : string) :
    option string :=
  or_else (mcp_session_scope request principalKey)
    (subject ← readOpaquePrincipalHeader request "x-openai-subject";
     session ← readOpaquePrincipalHeader request "x-openai-session";
     Some ("openai-session:" +:+
       gw_sha256 (json_stringify (JArr [JStr principalKey; JStr subject; JStr session])))).

Definition createMcpCancellationScopeKey (request : AuthenticatedRequest) (principalKey : string) :
    string :=
  default principalKey (createMcpSessionScopeKey request principalKey).

(** ** The POST handler up to the dispatch of the request *)

(** What the handler keeps of an admitted request. *)
Record AcceptedRequest := {
  ad_operationScopeKey : string;
  ad_cancellationScopeKey : string;
  ad_lifecycleId : option string;
  ad_pending : list PendingRegistration;
}.

Fixpoint register_all (scope : string) (ids : list McpRequestId) (lifecycleId : string)
    (s : McpOperationRegistry) : list PendingRegistration * McpOperationRegistry :=
  match ids with
  | [] => ([], s)
  | id :: ids =>
      let '(h, s1) := registerPending scope id lifecycleId s in
      let '(hs, s2) := register_all scope ids lifecycleId s1 in
      (h :: hs, s2)
  end.

Definition cancel_all (scope : string) (l : list McpCancellationNotification)
    (s : McpOperationRegistry) : McpOperationRegistry :=
  foldl (λ s n, (cancel scope (cn_requestId n) (cn_reason n) s).2) s l.

(** [None]: the operation scope key throws and the registry is untouched. *)
Definition accept_request (request : AuthenticatedRequest) (s : McpOperationRegistry) :
    option AcceptedRequest * McpOperationRegistry :=
  let principalKey := createMcpPrincipalKey false request in
  match createMcpOperationScopeKey request principalKey with
  | None => (None, s)
  | Some operationScopeKey =>
      let scope := createMcpCancellationScopeKey request principalKey in
      let '(hs, s1) := match rq_mcpRequestId request with
        | None => ([], s)
        | Some life => register_all scope (extractMcpToolCallRequestIds (rq_body request)) life s
        end in
      (Some {| ad_operationScopeKey := operationScopeKey; ad_cancellationScopeKey := scope;
               ad_lifecycleId := rq_mcpRequestId request; ad_pending := hs |},
       cancel_all scope (extractMcpCancellationNotifications (rq_body request)) s1)
  end.

(** [releasePendingRegistrations] *)
Definition release_all (hs : list PendingRegistration) (s : McpOperationRegistry) : McpOperationRegistry :=
  foldl (λ s h, release_pending h s) s hs.

(** The operation the context factory begins for a tool call of the request. *)
Definition begin_call (a : AcceptedRequest) (id : McpRequestId) (s : McpOperationRegistry) :
    option Registration * McpOperationRegistry :=
  begin_operation (ad_operationScopeKey a) id (ad_cancellationScopeKey a) (ad_lifecycleId a) s.
End scopes.

(** ** GatewayScopeProps: digested texts and accepted requests

    [JSON.stringify] of strings can be read back, so the texts behind the scope keys
    determine the principal and the session; accepting a request is a sequence of
    calls of the registry. *)

(** ** Reading back [JSON.stringify] *)

Definition hex_value (c : Ascii.ascii) : nat :=
  let n := Ascii.nat_of_ascii c in if n <? 58 then n - 48 else n - 87.

(** One escaped character and what follows; a quote ends the text. *)
Definition unescape_char (s : string) : option (Ascii.ascii * string) :=
  match s with
  | EmptyString => None
  | String c s1 =>
      if Ascii.eqb c quote then None
      else if negb (Ascii.eqb c backslash) then Some (c, s1)
      else match s1 with
      | EmptyString => None
      | String d s2 =>
          if Ascii.eqb d "b"%char then Some (Ascii.ascii_of_nat 8, s2)
          else if Ascii.eqb d "t"%char then Some (Ascii.ascii_of_nat 9, s2)
          else if Ascii.eqb d "n"%char then Some (Ascii.ascii_of_nat 10, s2)
          else if Ascii.eqb d "f"%char then Some (Ascii.ascii_of_nat 12, s2)
          else if Ascii.eqb d "r"%char then Some (Ascii.ascii_of_nat 13, s2)
          else if Ascii.eqb d "u"%char then
            match s2 with
            | String _ (String _ (String h (String l s3))) =>
                Some (Ascii.ascii_of_nat (16 * hex_value h + hex_value l), s3)
            | _ => None
            end
          else Some (d, s2)
      end
  end.

Lemma unescape_escape_char c s : unescape_char (escape_char c +:+ s) = Some (c, s).
Proof. destruct c as [[] [] [] [] [] [] [] []]; reflexivity. Qed.

Lemma escape_quoted_inj a b x y :
  escape a +:+ String quote x = escape b +:+ String quote y → a = b ∧ x = y.
Proof.
  assert (∀ c s t, unescape_char (escape_char c +:+ s +:+ t) = Some (c, s +:+ t)) as Hu
    by (intros; apply unescape_escape_char).
  revert b. induction a as [|c a IH]; intros [|d b]; cbn; rewrite ?text_app_assoc; intros E.
  - by simplify_eq.
  - apply (f_equal unescape_char) in E. by rewrite Hu in E.
  - apply (f_equal unescape_char) in E. by rewrite Hu in E.
  - apply (f_equal unescape_char) in E. rewrite !Hu in E. injection E as -> E.
    destruct (IH b E) as [-> ->]. done.
Qed.

Lemma json_string_app a x : json_string a +:+ x = String quote (escape a +:+ String quote x).
Proof. exact (f_equal (String quote) (text_app_assoc (escape a) (String quote "") x)). Qed.

Lemma json_string_inj a b x y : json_string a +:+ x = json_string b +:+ y → a = b ∧ x = y.
Proof. rewrite !json_string_app. intros [= E]. by apply escape_quoted_inj. Qed.

(** The array of texts determines the texts. *)
Lemma stringify_strings_inj l1 l2 :
  json_stringify (JArr (map JStr l1)) = json_stringify (JArr (map JStr l2)) → l1 = l2.
Proof.
  cbn. intros [= E]. revert l2 E.
  assert (∀ a l, String.concat "," (map json_stringify (map JStr (a :: l))) +:+ "]" =
    json_string a +:+ match l with [] => "]" | _ => "," +:+ String.concat "," (map json_stringify (map JStr l)) +:+ "]" end) as Hc.
  { intros a [|b l]; cbn; [done|]. by rewrite !text_app_assoc. }
  induction l1 as [|a l1 IH]; intros [|b l2]; rewrite ?Hc; cbn [String.concat map]; [done|done|done|].
  intros [-> E]%json_string_inj. destruct l1 as [|a' l1], l2 as [|b' l2]; [done|done|done|].
  injection E as E. by rewrite (IH (b' :: l2)).
Qed.

(** ** Keys *)

Lemma requestId_text_inj : Inj (=) (=) requestId_text.
Proof.
  intros [s|z] [s'|z'] E; try done.
  - injection E as E. f_equal. exact E.
  - injection E as E. f_equal. by apply (inj pretty).
Qed.

Section keys.
Context `{GatewayHost}.
Context (Hlen : ∀ s, String.length (gw_sha256 s) = 64).

Lemma operationKey_inj scope id scope' id' :
  operationKey scope id = operationKey scope' id' →
  scope = scope' ∧ gw_sha256 (requestId_text id) = gw_sha256 (requestId_text id').
Proof using Hlen.
  unfold operationKey. intros [-> E]%text_app_inj_length; [|by rewrite !text_app_length, !Hlen].
  split; [done|]. by injection E.
Qed.

End keys.

(** The key names a principal by the way it was recognised. *)
Definition principal_tags : list string := ["identity:"; "auth:"; "openai:"; "session:"; "anonymous:"]%string.

Section scope_keys.
Context `{GatewayHost}.

Lemma principal_key_tag ignore request :
  ∃ tag h, tag ∈ principal_tags ∧ createMcpPrincipalKey ignore request = tag +:+ h.
Proof.
  assert (∀ tag h, bool_decide (tag ∈ principal_tags) = true → ∃ tag' h',
    tag' ∈ principal_tags ∧ tag +:+ h = tag' +:+ h') as Hin
    by (intros tag h Ht; apply bool_decide_eq_true in Ht; eauto).
  unfold createMcpPrincipalKey.
  destruct (rq_auth request ≫= identity_key) as [k|] eqn:E1; cbn [or_else default].
  { apply bind_Some in E1 as (a & _ & E1). unfold identity_key in E1.
    destruct (ai_subject a) as [[]|], (truthy (ai_clientId a)); simplify_eq; by apply Hin. }
  destruct (rq_auth request ≫= auth_key) as [k|] eqn:E2; cbn [or_else default].
  { apply bind_Some in E2 as (a & _ & (t & _ & [= <-])%bind_Some). by apply Hin. }
  destruct (openai_key request) as [k|] eqn:E3; cbn [or_else default].
  { apply bind_Some in E3 as (a & _ & (t & _ & [= <-])%bind_Some). by apply Hin. }
  destruct ignore; cbn [default]; [by apply Hin|].
  destruct (session_key request) as [k|] eqn:E4; cbn [or_else default]; [|by apply Hin].
  apply bind_Some in E4 as (t & _ & [= <-]). by apply Hin.
Qed.

(** The session a request belongs to, as its headers give it. *)
Definition session_of (request : AuthenticatedRequest) : list string :=
  match readOpaquePrincipalHeader request "mcp-session-id" with
  | Some session => [session]
  | None =>
      match readOpaquePrincipalHeader request "x-openai-subject",
            readOpaquePrincipalHeader request "x-openai-session" with
      | Some subject, Some session => [subject; session]
      | _, _ => []
      end
  end.

(** The text whose digest is in the cancellation scope of a request with a session. *)
Definition session_text (request : AuthenticatedRequest) : string :=
  json_stringify (JArr (map JStr (createMcpPrincipalKey false request :: session_of request))).

Definition session_tag (request : AuthenticatedRequest) : string :=
  match session_of request with [_] => "mcp-session:" | _ => "openai-session:" end.

Lemma cancellation_scope_cases request :
  createMcpCancellationScopeKey request (createMcpPrincipalKey false request) =
  match session_of request with
  | [] => createMcpPrincipalKey false request
  | _ => session_tag request +:+ gw_sha256 (session_text request)
  end.
Proof.
  unfold createMcpCancellationScopeKey, createMcpSessionScopeKey, mcp_session_scope, session_text, session_tag, session_of.
  destruct (readOpaquePrincipalHeader request "mcp-session-id"); [done|]. cbn [mbind option_bind or_else].
  destruct (readOpaquePrincipalHeader request "x-openai-subject"); [|done].
  by destruct (readOpaquePrincipalHeader request "x-openai-session").
Qed.
End scope_keys.

(** ** Accepting a request *)

Section accept.
Context `{GatewayHost}.
Implicit Types (s : McpOperationRegistry) (tr : list gw_event).

Lemma register_all_steps scope ids life s tr : ∃ tr',
  rtc gw_step (s, tr) ((register_all scope ids life s).2, tr').
Proof.
  revert s tr. induction ids as [|id ids IH]; intros s tr; cbn [register_all]; [by exists tr|].
  destruct (registerPending scope id life s) as [h s1] eqn:E1.
  destruct (register_all scope ids life s1) as [hs s2] eqn:E2. cbn [snd].
  pose proof (gw_step_run (G_registerPending scope id life) s tr I) as Hs. cbn [run_gw] in Hs.
  rewrite E1 in Hs. cbn [fst snd] in Hs. specialize (IH s1 (tr ++ [(G_registerPending scope id life, R_pending h)])).
  rewrite E2 in IH. destruct IH as [tr' IH]. exists tr'. by etransitivity.
Qed.

(** Every identifier is registered after the loop. *)
Lemma register_all_registered scope ids life s id :
  id ∈ ids ∨ is_Some (get_inner (operationKey scope id) life (or_pending s)) →
  is_Some (get_inner (operationKey scope id) life (or_pending (register_all scope ids life s).2)).
Proof.
  revert s. induction ids as [|i ids IH]; intros s Hid; cbn [register_all].
  { destruct Hid as [?%not_elem_of_nil|?]; done. }
  destruct (registerPending scope i life s) as [h s1] eqn:E1.
  specialize (IH s1). destruct (register_all scope ids life s1) as [hs s2] eqn:E2. cbn [snd] in *.
  apply IH. assert (or_pending s1 = set_inner (operationKey scope i) life (length (or_pendings s)) (or_pending s)) as ->
    by (by injection E1 as <- <-).
  rewrite get_inner_set. case_decide as Hc; [by right|]. destruct Hid as [[->|?]%elem_of_cons|?]; [|by left|by right].
  by destruct Hc.
Qed.

Lemma cancel_all_steps scope l s tr : ∃ tr', rtc gw_step (s, tr) (cancel_all scope l s, tr').
Proof.
  revert s tr. induction l as [|n l IH]; intros s tr; cbn; [by exists tr|].
  pose proof (gw_step_run (G_cancel scope (cn_requestId n) (cn_reason n)) s tr I) as Hs. cbn [run_gw] in Hs.
  destruct (IH (cancel scope (cn_requestId n) (cn_reason n) s).2
    (tr ++ [(G_cancel scope (cn_requestId n) (cn_reason n), R_matched (cancel scope (cn_requestId n) (cn_reason n) s).1)]))
    as [tr' Hr]. exists tr'. etransitivity; [exact Hs|exact Hr].
Qed.

(** The notifications change no map and lose no abort or cancellation. *)
Lemma cancel_all_maps scope l s :
  or_active (cancel_all scope l s) = or_active s ∧ or_targets (cancel_all scope l s) = or_targets s ∧
  or_pending (cancel_all scope l s) = or_pending s ∧
  length (or_controllers (cancel_all scope l s)) = length (or_controllers s) ∧
  length (or_pendings (cancel_all scope l s)) = length (or_pendings s) ∧
  (∀ c, aborted (or_controllers s) c → aborted (or_controllers (cancel_all scope l s)) c) ∧
  (∀ p, is_cancelled (or_pendings s) p → is_cancelled (or_pendings (cancel_all scope l s)) p).
Proof.
  revert s. induction l as [|n l IH]; intros s; [done|]. change (cancel_all scope (n :: l) s) with
    (cancel_all scope l (cancel scope (cn_requestId n) (cn_reason n) s).2).
  destruct (IH (cancel scope (cn_requestId n) (cn_reason n) s).2) as (-> & -> & -> & -> & -> & Ha & Hc). cbn in *.
  rewrite abort_all_length, mark_all_length. split_and!; [done..| |].
  - intros c ?. apply Ha, abort_all_aborted. by left.
  - intros p ?. apply Hc, mark_all_cancelled. by left.
Qed.

Lemma cancel_all_reaches scope l s n :
  n ∈ l →
  (∀ tok c, get_inner (operationKey scope (cn_requestId n)) tok (or_targets s) = Some c →
     c < length (or_controllers s) → aborted (or_controllers (cancel_all scope l s)) c) ∧
  (∀ life p, get_inner (operationKey scope (cn_requestId n)) life (or_pending s) = Some p →
     p < length (or_pendings s) → is_cancelled (or_pendings (cancel_all scope l s)) p).
Proof.
  intros (l1 & l2 & ->)%list_elem_of_split. unfold cancel_all. rewrite foldl_app. cbn [foldl].
  change (foldl _ s l1) with (cancel_all scope l1 s). set (s1 := cancel_all scope l1 s).
  destruct (cancel_all_maps scope l1 s) as (_ & Ht & Hp & Hlc & Hlp & _). fold s1 in Ht, Hp, Hlc, Hlp.
  destruct (cancel_all_maps scope l2 (cancel scope (cn_requestId n) (cn_reason n) s1).2) as (_ & _ & _ & _ & _ & Ha & Hc).
  split.
  - intros tok c Hg Hlt. apply Ha. cbn. apply abort_all_aborted. right. rewrite Ht, Hlc.
    split; [|done]. apply elem_of_inner_values. eauto.
  - intros life p Hg Hlt. apply Hc. cbn. apply mark_all_cancelled. right. rewrite Hp, Hlp.
    split; [|done]. apply elem_of_inner_values. eauto.
Qed.

(** The registry after the tool calls of the request are registered. *)
Definition announced (request : AuthenticatedRequest) s : McpOperationRegistry :=
  let scope := createMcpCancellationScopeKey request (createMcpPrincipalKey false request) in
  match rq_mcpRequestId request with
  | None => s
  | Some life => (register_all scope (extractMcpToolCallRequestIds (rq_body request)) life s).2
  end.

Lemma accept_request_cases request s a s' :
  accept_request request s = (Some a, s') →
  ad_cancellationScopeKey a = createMcpCancellationScopeKey request (createMcpPrincipalKey false request) ∧
  ad_lifecycleId a = rq_mcpRequestId request ∧
  s' = cancel_all (ad_cancellationScopeKey a) (extractMcpCancellationNotifications (rq_body request)) (announced request s).
Proof.
  unfold accept_request, announced. destruct (createMcpOperationScopeKey request _); [|done].
  destruct (rq_mcpRequestId request) as [life|].
  - destruct (register_all _ _ _ _). by intros [= <- <-].
  - by intros [= <- <-].
Qed.

Lemma announced_steps request s tr : ∃ tr', rtc gw_step (s, tr) (announced request s, tr').
Proof. unfold announced. destruct (rq_mcpRequestId request); [apply register_all_steps|by exists tr]. Qed.

(** Registering tool calls keeps the operations. *)
Lemma register_all_operations scope ids life s :
  or_active (register_all scope ids life s).2 = or_active s ∧
  or_targets (register_all scope ids life s).2 = or_targets s ∧
  or_controllers (register_all scope ids life s).2 = or_controllers s.
Proof.
  revert s. induction ids as [|id ids IH]; intros s; cbn [register_all]; [done|].
  destruct (registerPending scope id life s) as [h s1] eqn:E1. specialize (IH s1).
  destruct (register_all scope ids life s1). cbn [snd] in *. destruct IH as (-> & -> & ->).
  by injection E1 as <- <-.
Qed.

Lemma announced_operations request s :
  or_active (announced request s) = or_active s ∧ or_targets (announced request s) = or_targets s ∧
  or_controllers (announced request s) = or_controllers s.
Proof. unfold announced. destruct (rq_mcpRequestId request); [apply register_all_operations|done]. Qed.

(** A pending request that was cancelled begins aborted. *)
Lemma begin_cancelled s scope id cancellation life p r s' :
  get_inner (operationKey cancellation id) life (or_pending s) = Some p →
  is_cancelled (or_pendings s) p →
  begin_operation scope id cancellation (Some life) s = (Some r, s') →
  aborted (or_controllers s') (rg_controller r).
Proof.
  intros Hp (o & Ho & Hc). unfold begin_operation. destruct (or_active s !! _); [done|].
  intros [= <- <-]. cbn [consume_pending or_pending]. rewrite Hp. cbn. rewrite Ho, Hc.
  apply abort_aborted. right. rewrite length_app. cbn. split; [done|lia].
Qed.
End accept.

(** ** The tool calls of a body *)

(** The identifier of a message that is a tool call. *)
Definition call_of (message : json) : option McpRequestId :=
  if isRecord message && method_is "tools/call" message then as_request_id (prop "id" message) else None.

Lemma call_of_Some message id : call_of message = Some id ↔
  isRecord message = true ∧ method_is "tools/call" message = true ∧ as_request_id (prop "id" message) = Some id.
Proof.
  unfold call_of. destruct (isRecord message), (method_is "tools/call" message); cbn; split; try done.
  all: by intros (? & ? & ?).
Qed.

Lemma collect_call_ids_cons seen m l :
  collect_call_ids seen (m :: l) =
  match call_of m with
  | None => collect_call_ids seen l
  | Some id => if bool_decide (requestId_text id ∈ seen) then collect_call_ids seen l
               else id :: collect_call_ids (requestId_text id :: seen) l
  end.
Proof. cbn. unfold call_of. by destruct (isRecord m), (method_is "tools/call" m). Qed.

Lemma collect_call_ids_spec l seen :
  NoDup (collect_call_ids seen l) ∧
  ∀ id, id ∈ collect_call_ids seen l ↔ requestId_text id ∉ seen ∧ Some id ∈ map call_of l.
Proof.
  revert seen. induction l as [|m l IH]; intros seen.
  { split; [constructor|]. intros id. split; [by intros ?%not_elem_of_nil|by intros [_ ?%not_elem_of_nil]]. }
  rewrite collect_call_ids_cons. cbn [map]. destruct (IH seen) as [Hnd Hi].
  assert (∀ id, Some id ∈ call_of m :: map call_of l ↔ call_of m = Some id ∨ Some id ∈ map call_of l) as Hm
    by (intros id; rewrite elem_of_cons; split; (intros [?|?]; [by left|by right])).
  setoid_rewrite Hm. destruct (call_of m) as [i|]; [|split; [done|]; intros id; rewrite Hi; naive_solver].
  case_bool_decide as Hs.
  - split; [done|]. intros id. rewrite Hi. naive_solver.
  - destruct (IH (requestId_text i :: seen)) as [Hnd' Hi']. split.
    + constructor; [|done]. rewrite Hi'. intros [Hn _]. apply Hn. by left.
    + intros id. rewrite elem_of_cons, Hi', not_elem_of_cons. destruct (decide (id = i)) as [->|Hne].
      * naive_solver.
      * assert (requestId_text id ≠ requestId_text i) by (by intros ?%requestId_text_inj). naive_solver.
Qed.
