(* ===== verification/GatewayTheorems.v ===== *)
(** * GatewayTheorems: properties of the operation registry of the gateway

    Cancellation reaches the operation it names whether the notification comes before
    or after the operation begins, nothing else aborts an operation, and requests of
    different principals or sessions do not share a cancellation scope. *)

From S2P Require Import Prelude Text GatewayOperations GatewayScopes.
From Stdlib Require Import Ascii.

Section theorems.
Context `{GatewayHost}.

(** C33: a cancellation that comes before the operation is not lost.  A tool call of an
    accepted request is registered under the request's lifecycle; when a request of the same
    cancellation scope is accepted later with a notification for the call, then after any
    further calls of the registry, if the call is still registered when it begins, it begins
    aborted. *)
Theorem early_cancellation_not_lost requestA s tr a s1 id life :
  gw_reachable (s, tr) → Inj (=) (=) gw_uuid →
  accept_request requestA s = (Some a, s1) →
  id ∈ extractMcpToolCallRequestIds (rq_body requestA) → ad_lifecycleId a = Some life →
  let key := operationKey (ad_cancellationScopeKey a) id in
  (∃ p, get_inner key life (or_pending s1) = Some p) ∧
  ∀ tr1 p s2 tr2 requestB b s3 tr3 n s4 tr4 r s5,
    get_inner key life (or_pending s1) = Some p →
    rtc gw_step (s1, tr1) (s2, tr2) →
    accept_request requestB s2 = (Some b, s3) →
    ad_cancellationScopeKey b = ad_cancellationScopeKey a →
    n ∈ extractMcpCancellationNotifications (rq_body requestB) → cn_requestId n = id →
    rtc gw_step (s3, tr3) (s4, tr4) →
    get_inner key life (or_pending s4) = Some p →
    begin_call a id s4 = (Some r, s5) →
    aborted (or_controllers s5) (rg_controller r).
Proof.
  intros Hr Huuid Ha Hid Hlife key. destruct (accept_request_cases _ _ _ _ Ha) as (Hscope & Hl & Hs1).
  destruct (announced_steps requestA s tr) as [trA HrA].
  destruct (cancel_all_steps (ad_cancellationScopeKey a)
    (extractMcpCancellationNotifications (rq_body requestA)) (announced requestA s) trA) as [trA' HrA'].
  rewrite <- Hs1 in HrA'.
  assert (gw_inv s1 trA') as I1.
  { apply gw_reachable_inv; [done|]. unfold gw_reachable. etransitivity; [exact Hr|]. by etransitivity. }
  split.
  - subst s1. destruct (cancel_all_maps (ad_cancellationScopeKey a)
      (extractMcpCancellationNotifications (rq_body requestA)) (announced requestA s)) as (_ & _ & -> & _).
    unfold announced. rewrite <- Hl, Hlife, <- Hscope. apply register_all_registered. by left.
  - intros tr1 p s2 tr2 requestB b s3 tr3 n s4 tr4 r s5 Hp H12 Hb Hsame Hn <- H34 Hp4 Hbegin.
    assert (p < length (or_pendings s1)) as Hlt
      by exact (gi_handed _ _ I1 _ (gi_pending _ _ I1 _ _ _ Hp)).
    destruct (accept_request_cases _ _ _ _ Hb) as (_ & _ & Hs3).
    destruct (announced_steps requestB s2 tr2) as [trB HrB].
    destruct (gw_steps_pendings _ _ H12) as (L12 & _ & _).
    destruct (gw_steps_pendings _ _ HrB) as (L2B & _ & _).
    destruct (gw_steps_pendings _ _ H34) as (_ & C34 & R34). cbn [fst] in *.
    destruct (cancel_all_maps (ad_cancellationScopeKey b)
      (extractMcpCancellationNotifications (rq_body requestB)) (announced requestB s2)) as (_ & _ & Mp & _ & Ml & _).
    rewrite <- Hs3 in Mp, Ml.
    assert (get_inner key life (or_pending (announced requestB s2)) = Some p) as HpB
      by (rewrite <- Mp; apply R34; [done|lia]).
    unfold begin_call in Hbegin. rewrite Hlife in Hbegin. eapply begin_cancelled; [exact Hp4| |exact Hbegin].
    apply C34. rewrite Hs3. destruct (cancel_all_reaches (ad_cancellationScopeKey b)
      (extractMcpCancellationNotifications (rq_body requestB)) (announced requestB s2) n Hn) as [_ Hreach].
    apply (Hreach life); [by rewrite Hsame|lia].
Qed.

(** a notification accepted while the operation runs aborts it: every live operation
    begun in the cancellation scope of the request for the named call is aborted, and a
    cancellation of it reports a match. *)
Theorem live_operation_cancelled request s tr b s' n scope life r :
  gw_reachable (s, tr) → Inj (=) (=) gw_uuid →
  accept_request request s = (Some b, s') →
  n ∈ extractMcpCancellationNotifications (rq_body request) →
  (G_begin scope (cn_requestId n) (ad_cancellationScopeKey b) life, R_begun (Some r)) ∈ tr → live s r →
  aborted (or_controllers s') (rg_controller r) ∧
  ∀ reason, (cancel (ad_cancellationScopeKey b) (cn_requestId n) reason s).1 = true.
Proof.
  intros Hr Huuid Hb Hn Hbegun Hlive. pose proof (gw_reachable_inv _ _ Huuid Hr) as I.
  destruct (begun_keys _ _ _ _ _ _ _ Hr Hbegun) as [_ Hkey].
  assert (begun tr r) as Hbr by (by eexists).
  pose proof (live_target _ _ I r Hbr Hlive) as Ht. rewrite Hkey in Ht.
  destruct (accept_request_cases _ _ _ _ Hb) as (_ & _ & ->).
  destruct (announced_operations request s) as (_ & Et & Ec). split.
  - destruct (cancel_all_reaches (ad_cancellationScopeKey b)
      (extractMcpCancellationNotifications (rq_body request)) (announced request s) n Hn) as [Hreach _].
    apply (Hreach (rg_token r)); [by rewrite Et|]. rewrite Ec. by apply (gi_begun _ _ I).
  - intros reason. cbn. apply orb_true_iff. left. apply negb_true_iff, bool_decide_eq_false.
    intros E. assert (rg_controller r ∈ inner_values (operationKey (ad_cancellationScopeKey b) (cn_requestId n)) (or_targets s)) as Hin
      by (apply elem_of_inner_values; eauto).
    rewrite E in Hin. by apply not_elem_of_nil in Hin.
Qed.

(** an operation is aborted only by a cancellation of its own scope, for a request
    identifier with the digest of its own, or by the shutdown of the gateway. *)
Theorem abort_only_in_scope s tr scope id cancellation life r :
  gw_reachable (s, tr) → Inj (=) (=) gw_uuid → (∀ t, String.length (gw_sha256 t) = 64) →
  (G_begin scope id cancellation life, R_begun (Some r)) ∈ tr →
  aborted (or_controllers s) (rg_controller r) →
  cleared tr ∨
  ∃ id' reason res, (G_cancel cancellation id' reason, res) ∈ tr ∧
    gw_sha256 (requestId_text id') = gw_sha256 (requestId_text id).
Proof.
  intros Hr Huuid Hlen Hb Hab. pose proof (gw_reachable_inv _ _ Huuid Hr) as I.
  destruct (gi_aborted _ _ I _ Hab) as (r' & Hb' & Hc & Hd).
  assert (r' = r) as -> by (apply (gi_unique _ _ I); [done|by eexists|by right]).
  destruct Hd as [(scope' & id' & reason & res & Hin & Hk)|?]; [right|by left].
  rewrite (proj2 (begun_keys _ _ _ _ _ _ _ Hr Hb)) in Hk.
  apply operationKey_inj in Hk as [-> Hk]; [|done]. eauto 10.
Qed.

(** an operation key has one live operation.  [begin] throws exactly when an operation
    of the same scope key and identifier digest is live, and then changes nothing; a release
    ends its own operation and leaves every other one live, whenever and however often it is
    called; and when no operation is active no cancellation target is left. *)
Theorem operations_exclusive s tr :
  gw_reachable (s, tr) → Inj (=) (=) gw_uuid →
  (∀ scope id cancellation life,
     (begin_operation scope id cancellation life s).1 = None ↔
     ∃ r, begun tr r ∧ live s r ∧ rg_key r = operationKey scope id) ∧
  (∀ scope id cancellation life,
     (begin_operation scope id cancellation life s).1 = None →
     (begin_operation scope id cancellation life s).2 = s) ∧
  (∀ r, begun tr r → ~ live (release_operation r s) r ∧
     ∀ r', begun tr r' → r' ≠ r → live (release_operation r s) r' ↔ live s r') ∧
  (size s = 0 → or_targets s = ∅).
Proof.
  intros Hr Huuid. pose proof (gw_reachable_inv _ _ Huuid Hr) as I. split_and!.
  - intros scope id cancellation life. unfold begin_operation. split.
    + destruct (or_active s !! operationKey scope id) as [[tok c]|] eqn:E; [|done]. intros _.
      destruct (gi_active _ _ I _ _ _ E) as (r & Hb & Hk & <- & <- & _). exists r. unfold live. by rewrite Hk.
    + intros (r & _ & Hl & Hk). unfold live in Hl. rewrite Hk in Hl. by rewrite Hl.
  - intros scope id cancellation life. unfold begin_operation. by destruct (or_active s !! _).
  - intros r Hb. split.
    + unfold release_operation, live. case_bool_decide as Ha; cbn.
      * by rewrite lookup_delete_eq.
      * intros E. apply Ha. by rewrite E.
    + intros r' Hb' Hne. unfold release_operation, live. case_bool_decide as Ha; cbn; [|done].
      destruct (decide (rg_key r' = rg_key r)) as [E|E]; [|by rewrite lookup_delete_ne].
      rewrite E, lookup_delete_eq. split; [done|]. intros Hl. rewrite Hl in Ha. injection Ha as Ha.
      destruct Hne. apply (gi_unique _ _ I); auto.
  - intros Hs. apply map_size_empty_iff in Hs. apply inner_ok_empty; [apply I|].
    intros k i. destruct (get_inner k i (or_targets s)) as [c|] eqn:E; [|done].
    destruct (gi_targets _ _ I _ _ _ E) as (r & _ & _ & _ & _ & Hl). unfold live in Hl.
    by rewrite Hs, lookup_empty in Hl.
Qed.

(** two requests share a cancellation scope only when they have the same principal key
    and name the same session, unless the digests of their two session texts collide. *)
Theorem scopes_separate requestA requestB :
  (gw_sha256 (session_text requestA) = gw_sha256 (session_text requestB) →
   session_text requestA = session_text requestB) →
  createMcpCancellationScopeKey requestA (createMcpPrincipalKey false requestA) =
  createMcpCancellationScopeKey requestB (createMcpPrincipalKey false requestB) →
  createMcpPrincipalKey false requestA = createMcpPrincipalKey false requestB ∧
  session_of requestA = session_of requestB.
Proof.
  intros Hcol. rewrite !cancellation_scope_cases.
  destruct (principal_key_tag false requestA) as (tagA & hA & HtA & EA).
  destruct (principal_key_tag false requestB) as (tagB & hB & HtB & EB).
  assert (∀ tag h request x, tag ∈ principal_tags → tag +:+ h = session_tag request +:+ x → False) as Htag.
  { intros tag h request x Ht. unfold session_tag, principal_tags in *.
    repeat (apply elem_of_cons in Ht as [->|Ht]); [..|by apply not_elem_of_nil in Ht];
      by destruct (session_of request) as [|? [|? ?]]. }
  destruct (session_of requestA) as [|x lA] eqn:SA, (session_of requestB) as [|y lB] eqn:SB; intros E.
  - done.
  - rewrite EA in E. by apply Htag in E.
  - rewrite EB in E. symmetry in E. by apply Htag in E.
  - assert (gw_sha256 (session_text requestA) = gw_sha256 (session_text requestB)) as Hh.
    { unfold session_tag in E. rewrite SA, SB in E. destruct lA, lB; cbn in E; by injection E. }
    apply Hcol in Hh. unfold session_text in Hh. apply stringify_strings_inj in Hh. rewrite SA, SB in Hh.
    by injection Hh as -> -> ->.
Qed.

(** The identity key joins subject and client with a colon: two identities share it. *)
Lemma principal_key_ambiguous request :
  rq_auth request = Some {| ai_token := "t"; ai_clientId := "c"; ai_subject := Some (JStr "a:b") |} →
  ∀ request', rq_auth request' = Some {| ai_token := "t"; ai_clientId := "b:c"; ai_subject := Some (JStr "a") |} →
  createMcpPrincipalKey false request = createMcpPrincipalKey false request'.
Proof. intros E request' E'. unfold createMcpPrincipalKey. by rewrite E, E'. Qed.
End theorems.

(** the tool calls registered for a request are exactly the identifiers of its
    [tools/call] messages, each once. *)
Theorem call_ids_exact body :
  NoDup (extractMcpToolCallRequestIds body) ∧
  ∀ id, id ∈ extractMcpToolCallRequestIds body ↔
    ∃ message, message ∈ messages body ∧ isRecord message = true ∧
      method_is "tools/call" message = true ∧ as_request_id (prop "id" message) = Some id.
Proof.
  destruct (collect_call_ids_spec (messages body) []) as [Hnd Hi]. split; [done|]. intros id.
  unfold extractMcpToolCallRequestIds. rewrite Hi, list_elem_of_fmap. setoid_rewrite <- call_of_Some. split.
  - intros (_ & m & E & Hm). by exists m.
  - intros (m & Hm & E). split; [apply not_elem_of_nil|]. by exists m.
Qed.

(** ** Concrete requests *)

(** A digest of 64 characters and the decimal numbers as UUIDs. *)
Fixpoint pad_text (n : nat) (s : string) : string :=
  match n, s with
  | 0, _ => EmptyString
  | S n, EmptyString => String "0"%char (pad_text n EmptyString)
  | S n, String c s => String c (pad_text n s)
  end.

Lemma pad_text_length n s : String.length (pad_text n s) = n.
Proof. revert s. induction n as [|n IH]; intros [|c s]; cbn; [done..| |]; by rewrite IH. Qed.

Definition demo_gateway : GatewayHost := {| gw_sha256 := pad_text 64; gw_uuid := pretty |}.
#[local] Existing Instance demo_gateway.

Lemma demo_uuid_inj : Inj (=) (=) gw_uuid.
Proof. exact pretty_nat_inj. Qed.

Definition demo_auth : AuthInfo :=
  {| ai_token := "token"; ai_clientId := "client"; ai_subject := Some (JStr "user") |}.

Definition demo_call : json :=
  JObj [("method", JStr "tools/call"); ("id", JNum 7)]%string.
Definition demo_cancel : json :=
  JObj [("method", JStr "notifications/cancelled");
        ("params", JObj [("requestId", JNum 7); ("reason", JStr "stop")])]%string.

Definition demo_request (requestId : string) (session : option string) (body : json) : AuthenticatedRequest :=
  {| rq_auth := Some demo_auth;
     rq_header := λ name, if bool_decide (name = "mcp-session-id"%string) then session else None;
     rq_ip := None; rq_remoteAddress := None; rq_mcpRequestId := Some requestId; rq_body := body |}.

Definition request_a : AuthenticatedRequest := demo_request "a" (Some "s1 ") demo_call.
Definition request_b : AuthenticatedRequest := demo_request "b" (Some "s1") demo_cancel.

Definition no_request : AcceptedRequest :=
  {| ad_operationScopeKey := ""; ad_cancellationScopeKey := ""; ad_lifecycleId := None; ad_pending := [] |}.
Definition no_registration : Registration :=
  {| rg_key := ""; rg_cancellationKey := ""; rg_token := ""; rg_controller := 0 |}.

Definition demo_a : AcceptedRequest := default no_request (accept_request request_a new_McpOperationRegistry).1.
Definition demo_s1 : McpOperationRegistry := (accept_request request_a new_McpOperationRegistry).2.

(** The notification is accepted before the call begins. *)
Definition demo_b : AcceptedRequest := default no_request (accept_request request_b demo_s1).1.
Definition demo_s2 : McpOperationRegistry := (accept_request request_b demo_s1).2.
Definition demo_s3 : McpOperationRegistry := (begin_call demo_a (id_number 7) demo_s2).2.

Definition demo_begun : Registration := default no_registration (begin_call demo_a (id_number 7) demo_s2).1.

Lemma demo_a_accepted : accept_request request_a new_McpOperationRegistry = (Some demo_a, demo_s1).
Proof. vm_cast_no_check (eq_refl (Some demo_a, demo_s1)). Qed.
Lemma demo_b_accepted : accept_request request_b demo_s1 = (Some demo_b, demo_s2).
Proof. vm_cast_no_check (eq_refl (Some demo_b, demo_s2)). Qed.
Lemma demo_begins : begin_call demo_a (id_number 7) demo_s2 = (Some demo_begun, demo_s3).
Proof. vm_cast_no_check (eq_refl (Some demo_begun, demo_s3)). Qed.

Lemma early_cancellation_not_lost_witness : aborted (or_controllers demo_s3) (rg_controller demo_begun).
Proof.
  destruct (early_cancellation_not_lost request_a new_McpOperationRegistry [] demo_a demo_s1 (id_number 7) "a"
    (rtc_refl _ _) demo_uuid_inj demo_a_accepted) as [_ Hlater].
  - vm_compute. constructor.
  - vm_compute. reflexivity.
  - apply (Hlater [] 0 demo_s1 [] request_b demo_b demo_s2 []
      {| cn_requestId := id_number 7; cn_reason := Some "stop"%string |} demo_s2 [] demo_begun demo_s3);
      [|apply rtc_refl|exact demo_b_accepted| | |reflexivity|apply rtc_refl| |exact demo_begins].
    + vm_compute. reflexivity.
    + vm_compute. reflexivity.
    + vm_compute. constructor.
    + vm_compute. reflexivity.
Defined.

(** The call begins first. *)
Definition demo_event : gw_event :=
  (G_begin (ad_operationScopeKey demo_a) (id_number 7) (ad_cancellationScopeKey demo_a) (Some "a"%string),
   R_begun (begin_call demo_a (id_number 7) demo_s1).1).
Definition demo_running : McpOperationRegistry := (begin_call demo_a (id_number 7) new_McpOperationRegistry).2.
Definition demo_registration : Registration :=
  default no_registration (begin_call demo_a (id_number 7) new_McpOperationRegistry).1.

Lemma demo_running_reachable : gw_reachable (demo_running, [demo_event]).
Proof.
  apply rtc_once. exact (gw_step_op (G_begin (ad_operationScopeKey demo_a) (id_number 7)
    (ad_cancellationScopeKey demo_a) (Some "a"%string)) new_McpOperationRegistry [] I).
Qed.

Definition demo_c : AcceptedRequest := default no_request (accept_request request_b demo_running).1.
Definition demo_stopped : McpOperationRegistry := (accept_request request_b demo_running).2.
Lemma demo_c_accepted : accept_request request_b demo_running = (Some demo_c, demo_stopped).
Proof. vm_cast_no_check (eq_refl (Some demo_c, demo_stopped)). Qed.

Lemma live_operation_cancelled_witness : aborted (or_controllers demo_stopped) (rg_controller demo_registration).
Proof.
  refine (proj1 (live_operation_cancelled request_b demo_running [demo_event] demo_c demo_stopped
    {| cn_requestId := id_number 7; cn_reason := Some "stop"%string |} (ad_operationScopeKey demo_a)
    (Some "a"%string) demo_registration demo_running_reachable demo_uuid_inj demo_c_accepted _ _ _)).
  - vm_compute. constructor.
  - vm_compute. constructor.
  - vm_compute. reflexivity.
Defined.

Definition demo_cancel_event : gw_event :=
  (G_cancel (ad_cancellationScopeKey demo_a) (id_number 7) None, R_matched true).

Lemma demo_cancelled_reachable :
  gw_reachable ((cancel (ad_cancellationScopeKey demo_a) (id_number 7) None demo_running).2,
    [demo_event; demo_cancel_event]).
Proof.
  eapply rtc_r; [exact demo_running_reachable|].
  exact (gw_step_op (G_cancel (ad_cancellationScopeKey demo_a) (id_number 7) None) demo_running [demo_event] I).
Qed.

Lemma abort_only_in_scope_witness :
  cleared [demo_event; demo_cancel_event] ∨
  ∃ id' reason res, (G_cancel (ad_cancellationScopeKey demo_a) id' reason, res) ∈ [demo_event; demo_cancel_event] ∧
    gw_sha256 (requestId_text id') = gw_sha256 (requestId_text (id_number 7)).
Proof.
  refine (abort_only_in_scope _ _ (ad_operationScopeKey demo_a) (id_number 7) (ad_cancellationScopeKey demo_a)
    (Some "a"%string) demo_registration demo_cancelled_reachable demo_uuid_inj (pad_text_length 64) _ _).
  - vm_compute. constructor.
  - exists None. vm_compute. reflexivity.
Defined.

Lemma operations_exclusive_witness :
  ~ live (release_operation demo_registration demo_running) demo_registration.
Proof.
  apply (operations_exclusive demo_running [demo_event] demo_running_reachable demo_uuid_inj).
  eexists. vm_compute. constructor.
Defined.

Lemma scopes_separate_witness :
  createMcpPrincipalKey false request_a = createMcpPrincipalKey false request_b ∧
  session_of request_a = session_of request_b.
Proof. apply scopes_separate; [intros _|]; vm_compute; reflexivity. Defined.
