(* ===== verification/Confirmations.v ===== *)
(** * Confirmations: single-use confirmations bound to an operation

    [TypedConfirmationRegistry] of packages/mcp-core/src/typed-confirmation.ts for
    source-control operations and [CommandConfirmationRegistry] of
    services/workspace-agent/src/shell/confirmation.ts for shell commands.  Both keep
    a map from random identifiers to what was confirmed and until when.  The code reads
    the clock twice in a call, so an operation takes both readings. *)

From S2P Require Import Prelude Text.

(** [randomBytes(18).toString("base64url")], the [n]-th value. *)
Class ConfirmationHost := { confirmation_id : nat → string }.

Inductive confirmation_error := CONFIRMATION_INVALID | TypeError | RangeError | ZodError.

(** ** The registry over the bindings [B] and the comparison [sameBinding] *)

Section registry.
Context `{ConfirmationHost} {B : Type} (sameBinding : B → B → bool).

Record PendingConfirmation := {
  pe_binding : B;
  pe_expiresAtMs : Z;
}.

Record ConfirmationRegistry := {
  cr_pending : gmap string PendingConfirmation;
  cr_ttlMs : Z;
  cr_drawn : nat;
}.

Definition on_pending (f : gmap string PendingConfirmation → gmap string PendingConfirmation)
    (s : ConfirmationRegistry) : ConfirmationRegistry :=
  {| cr_pending := f (cr_pending s); cr_ttlMs := cr_ttlMs s; cr_drawn := cr_drawn s |}.

Definition unexpired (now : Z) (e : string * PendingConfirmation) : Prop := (now < pe_expiresAtMs e.2)%Z.
#[global] Instance unexpired_dec now e : Decision (unexpired now e).
Proof. unfold unexpired. apply _. Defined.

Definition pruneExpired (now : Z) : ConfirmationRegistry → ConfirmationRegistry :=
  on_pending (filter (unexpired now)).

Definition create_confirmation (binding : B) (now later : Z) (s : ConfirmationRegistry) :
    (string * Z) * ConfirmationRegistry :=
  let s := pruneExpired now s in
  let confirmationId := confirmation_id (cr_drawn s) in
  let expiresAtMs := (later + cr_ttlMs s)%Z in
  ((confirmationId, expiresAtMs),
   {| cr_pending := <[confirmationId := {| pe_binding := binding; pe_expiresAtMs := expiresAtMs |}]> (cr_pending s);
      cr_ttlMs := cr_ttlMs s; cr_drawn := S (cr_drawn s) |}).

Definition consume_confirmation (confirmationId : string) (binding : B) (now later : Z)
    (s : ConfirmationRegistry) : outcome confirmation_error unit * ConfirmationRegistry :=
  let s := pruneExpired now s in
  match cr_pending s !! confirmationId with
  | None => (Err CONFIRMATION_INVALID, on_pending (delete confirmationId) s)
  | Some pending =>
      if (pe_expiresAtMs pending <=? later)%Z then
        (Err CONFIRMATION_INVALID, on_pending (delete confirmationId) s)
      else if negb (sameBinding (pe_binding pending) binding) then (Err CONFIRMATION_INVALID, s)
      else (Ok tt, on_pending (delete confirmationId) s)
  end.
End registry.
Arguments PendingConfirmation : clear implicits.
Arguments ConfirmationRegistry : clear implicits.

(** ** Source-control operations *)

Definition MAX_TYPED_CONFIRMATION_TTL_MS : Z := 600000.

Record TypedConfirmationBinding := {
  tb_workspaceId : string;
  tb_operation : string;
  tb_targetResource : string;
  tb_canonicalArgumentsDigest : string;
}.
#[global] Instance TypedConfirmationBinding_eq_dec : EqDecision TypedConfirmationBinding.
Proof. solve_decision. Defined.

(** [confirmableSourceControlOperationNameSchema] *)
Definition confirmableSourceControlOperations : list string :=
  ["git_push_branch"; "git_publish_tag"; "github_create_repository"; "github_create_pull_request";
   "github_close_pull_request"; "github_mark_pull_request_ready"; "github_merge_pull_request";
   "github_issue_write"]%string.

(** The length is compared first, then the bytes. *)
Definition safeEqual (left right : string) : bool := bool_decide (left = right).

Definition sameTypedBinding (left right : TypedConfirmationBinding) : bool :=
  safeEqual (tb_workspaceId left) (tb_workspaceId right) &&
  bool_decide (tb_operation left = tb_operation right) &&
  safeEqual (tb_targetResource left) (tb_targetResource right) &&
  safeEqual (tb_canonicalArgumentsDigest left) (tb_canonicalArgumentsDigest right).

Definition parseBinding (binding : TypedConfirmationBinding) :
    outcome confirmation_error TypedConfirmationBinding :=
  check TypeError (negb (bool_decide (trim (tb_workspaceId binding) = "")));;
  check TypeError (negb (bool_decide (trim (tb_targetResource binding) = "")));;
  check ZodError (bool_decide (tb_operation binding ∈ confirmableSourceControlOperations));;
  check TypeError (HASH_PATTERN (tb_canonicalArgumentsDigest binding));;
  mret binding.

(** [constructor]; the argument is the option when given, an integer. *)
Definition new_TypedConfirmationRegistry (ttl : option Z) :
    outcome confirmation_error (ConfirmationRegistry TypedConfirmationBinding) :=
  let ttlMs := default MAX_TYPED_CONFIRMATION_TTL_MS ttl in
  check RangeError ((0 <? ttlMs)%Z && (ttlMs <=? MAX_TYPED_CONFIRMATION_TTL_MS)%Z);;
  mret {| cr_pending := ∅; cr_ttlMs := ttlMs; cr_drawn := 0 |}.

Section typed.
Context `{ConfirmationHost}.

Definition typed_create (binding : TypedConfirmationBinding) (now later : Z)
    (s : ConfirmationRegistry TypedConfirmationBinding) :
    outcome confirmation_error (string * Z) * ConfirmationRegistry TypedConfirmationBinding :=
  match parseBinding binding with
  | Err e => (Err e, s)
  | Ok parsed => let '(r, s') := create_confirmation parsed now later s in (Ok r, s')
  end.

Definition typed_consume (confirmationId : string) (binding : TypedConfirmationBinding) (now later : Z)
    (s : ConfirmationRegistry TypedConfirmationBinding) :
    outcome confirmation_error unit * ConfirmationRegistry TypedConfirmationBinding :=
  match parseBinding binding with
  | Err e => (Err e, s)
  | Ok parsed => consume_confirmation sameTypedBinding confirmationId parsed now later s
  end.
End typed.

(** ** Shell commands *)

Definition DEFAULT_COMMAND_TTL_MS : Z := 600000.

Inductive executionContext := foreground | background.
#[global] Instance executionContext_eq_dec : EqDecision executionContext.
Proof. solve_decision. Defined.

(** [elevated?: boolean] and [interactive?: true] *)
Record CommandConfirmationBinding := {
  cb_workspaceId : string;
  cb_shell : string;
  cb_cwd : string;
  cb_command : string;
  cb_executionContext : executionContext;
  cb_operation : string;
  cb_elevated : option bool;
  cb_interactive : option unit;
}.

Definition sameCommandBinding (left right : CommandConfirmationBinding) : bool :=
  safeEqual (cb_workspaceId left) (cb_workspaceId right) &&
  bool_decide (cb_shell left = cb_shell right) &&
  safeEqual (cb_cwd left) (cb_cwd right) &&
  safeEqual (cb_command left) (cb_command right) &&
  bool_decide (cb_executionContext left = cb_executionContext right) &&
  safeEqual (cb_operation left) (cb_operation right) &&
  eqb (default false (cb_elevated left)) (default false (cb_elevated right)) &&
  bool_decide (cb_interactive left = cb_interactive right).

Definition new_CommandConfirmationRegistry (ttl : option Z) : ConfirmationRegistry CommandConfirmationBinding :=
  {| cr_pending := ∅; cr_ttlMs := default DEFAULT_COMMAND_TTL_MS ttl; cr_drawn := 0 |}.

Section command.
Context `{ConfirmationHost}.

Definition command_create : CommandConfirmationBinding → Z → Z →
    ConfirmationRegistry CommandConfirmationBinding → _ := create_confirmation.

Definition command_consume : string → CommandConfirmationBinding → Z → Z →
    ConfirmationRegistry CommandConfirmationBinding → _ := consume_confirmation sameCommandBinding.
End command.

(** ** What a registry promises: the invariant of its history *)

Section history.
Context `{ConfirmationHost} {B : Type} (sameBinding : B → B → bool).
Implicit Types (s : ConfirmationRegistry B) (made : list (string * B * Z)) (used : list string).

(** [made] lists the confirmations created, with their expiry, [used] the identifiers consumed. *)
Record confirmations_ok s made used : Prop := {
  co_made : ∀ id b t, (id, b, t) ∈ made → ∃ n, n < cr_drawn s ∧ id = confirmation_id n;
  co_unique : NoDup (made.*1.*1);
  co_pending : ∀ id p, cr_pending s !! id = Some p →
    (id, pe_binding p, pe_expiresAtMs p) ∈ made ∧ id ∉ used;
  co_used : NoDup used;
  co_used_made : ∀ id, id ∈ used → id ∈ made.*1.*1;
}.

Lemma confirmations_ok_new ttl : confirmations_ok {| cr_pending := ∅; cr_ttlMs := ttl; cr_drawn := 0 |} [] [].
Proof.
  constructor; cbn.
  - by intros ??? ?%not_elem_of_nil.
  - constructor.
  - intros id p. by rewrite lookup_empty.
  - constructor.
  - by intros id ?%not_elem_of_nil.
Qed.

(** Dropping pending confirmations. *)
Lemma confirmations_ok_drop s made used f :
  (∀ id p, f (cr_pending s) !! id = Some p → cr_pending s !! id = Some p) →
  confirmations_ok s made used → confirmations_ok (on_pending f s) made used.
Proof. intros Hf [I1 I2 I3 I4 I5]. constructor; cbn; auto. Qed.

Lemma pruneExpired_ok now s made used :
  confirmations_ok s made used → confirmations_ok (pruneExpired now s) made used.
Proof. apply confirmations_ok_drop. intros id p Hp. by apply map_lookup_filter_Some in Hp as [? _]. Qed.

Lemma create_confirmation_ok s made used b now later id t s' :
  Inj (=) (=) confirmation_id → confirmations_ok s made used →
  create_confirmation b now later s = ((id, t), s') →
  confirmations_ok s' (made ++ [(id, b, t)]) used.
Proof.
  intros Hinj I [= <- <- <-]. apply (pruneExpired_ok now) in I. set (s1 := pruneExpired now s) in *.
  destruct I as [I1 I2 I3 I4 I5].
  assert (confirmation_id (cr_drawn s) ∉ made.*1.*1) as Hfresh.
  { intros ([id b'] & E & ([[id' b''] t] & E' & Hin)%list_elem_of_fmap)%list_elem_of_fmap. cbn in *. simplify_eq.
    destruct (I1 _ _ _ Hin) as (n & Hn & E%Hinj). cbn in Hn. lia. }
  constructor; cbn.
  - intros id b' t [Hin|[= -> -> ->]%list_elem_of_singleton]%elem_of_app.
    + destruct (I1 _ _ _ Hin) as (n & Hn & ->). cbn in Hn. exists n. split; [lia|done].
    + exists (cr_drawn s). split; [lia|done].
  - rewrite !fmap_app. apply NoDup_app. split_and!; [done| |apply NoDup_singleton].
    intros x Hx ->%list_elem_of_singleton. done.
  - intros id p. destruct (decide (id = confirmation_id (cr_drawn s))) as [->|Hne].
    + rewrite lookup_insert_eq. intros [= <-]. cbn. split; [apply elem_of_app; right; by left|].
      by intros Hu%I5.
    + rewrite lookup_insert_ne by done. intros Hp. destruct (I3 id p Hp). rewrite elem_of_app. auto.
  - done.
  - intros id Hu%I5. rewrite !fmap_app. apply elem_of_app. by left.
Qed.

(** A consumed confirmation was created for the same binding, is not expired and was
    never consumed before. *)
Lemma consume_confirmation_ok s made used id b now later r s' :
  confirmations_ok s made used → consume_confirmation sameBinding id b now later s = (r, s') →
  match r with
  | Ok _ => id ∉ used ∧ (∃ b' t, (id, b', t) ∈ made ∧ sameBinding b' b = true ∧ (later < t)%Z) ∧
            confirmations_ok s' made (used ++ [id])
  | Err _ => confirmations_ok s' made used
  end.
Proof.
  intros I. apply (pruneExpired_ok now) in I. unfold consume_confirmation.
  set (s1 := pruneExpired now s) in *. destruct (cr_pending s1 !! id) as [p|] eqn:Hp.
  2: { intros [= <- <-]. apply confirmations_ok_drop; [|done]. intros ?? Hd. by apply lookup_delete_Some in Hd as [_ ?]. }
  destruct (pe_expiresAtMs p <=? later)%Z eqn:He.
  { intros [= <- <-]. apply confirmations_ok_drop; [|done]. intros ?? Hd. by apply lookup_delete_Some in Hd as [_ ?]. }
  destruct (sameBinding (pe_binding p) b) eqn:Hs; cbn [negb]; intros [= <- <-]; [|done].
  destruct I as [I1 I2 I3 I4 I5]. destruct (I3 id p Hp) as [Hm Hu]. split_and!; [done| |].
  - exists (pe_binding p), (pe_expiresAtMs p). split_and!; [done..|lia].
  - constructor; cbn; [done|done| | |].
    + intros id' q [Hne Hq]%lookup_delete_Some. destruct (I3 id' q Hq). split; [done|].
      rewrite elem_of_app, list_elem_of_singleton. intros [?| ->]; done.
    + apply NoDup_app. split_and!; [done| |apply NoDup_singleton]. by intros x Hx ->%list_elem_of_singleton.
    + intros id' [?| ->%list_elem_of_singleton]%elem_of_app; [by apply I5|].
      apply list_elem_of_fmap. exists (id, pe_binding p). split; [done|].
      apply list_elem_of_fmap. by exists (id, pe_binding p, pe_expiresAtMs p).
Qed.
End history.

Lemma safeEqual_true a b : safeEqual a b = true ↔ a = b.
Proof. unfold safeEqual. apply bool_decide_eq_true. Qed.

Lemma sameTypedBinding_eq a b : sameTypedBinding a b = true → a = b.
Proof.
  unfold sameTypedBinding. rewrite !andb_true_iff, !safeEqual_true, bool_decide_eq_true.
  destruct a, b; cbn. naive_solver.
Qed.

Lemma parseBinding_Ok b b' : parseBinding b = Ok b' → b' = b.
Proof.
  unfold parseBinding. intros Hp.
  repeat (apply outcome_bind_Ok in Hp as (? & _ & Hp)). by apply Ok_inj in Hp.
Qed.
