(* ===== verification/MutationReceipts.v ===== *)
(** * MutationReceipts: the life of a source-control mutation

    packages/mcp-core/src/mutation-receipts.ts: the identity of a mutation, the states
    of its receipt, the functions that move it from one to the next, and the parser of
    a receipt.  A receipt in a file is a JSON value. *)

From S2P Require Import Prelude Text.

Inductive receipt_error :=
| R_ZodError
| INVALID_ARGUMENT
| EXECUTION_STATE_INVALID
| SOURCE_CONTROL_IDEMPOTENCY_CONFLICT
| InvalidJson
| R_Errno.
#[global] Instance receipt_error_eq_dec : EqDecision receipt_error.
Proof. solve_decision. Defined.

Record MutationReceiptIdentity := {
  mi_workspaceId : string;
  mi_operation : string;
  mi_targetResource : string;
  mi_canonicalArgumentsDigest : string;
  mi_idempotencyKey : string;
}.
#[global] Instance MutationReceiptIdentity_eq_dec : EqDecision MutationReceiptIdentity.
Proof. solve_decision. Defined.

Inductive MutationReceiptState := reserved | executing | completed | reconciliation_required.
#[global] Instance MutationReceiptState_eq_dec : EqDecision MutationReceiptState.
Proof. solve_decision. Defined.

Record MutationReceipt := {
  mr_identity : MutationReceiptIdentity;
  mr_state : MutationReceiptState;
  mr_result : option json;
}.

Inductive disposition := d_execute | d_replay_completed | d_reconciliation_required.

Definition MutationReceiptReservation : Type := disposition * MutationReceipt.

(** [sourceControlOperationNameSchema] and the literal of the release advance. *)
Definition receipt_operations : list string :=
  ["git_create_branch"; "git_stage_paths"; "git_unstage_paths"; "git_commit"; "git_merge_branch";
   "git_sync_branch"; "git_push_branch"; "git_publish_tag"; "github_get_repository";
   "github_get_commit_checks"; "github_materialize_actions_artifact";
   "github_start_commit_checks_watch"; "github_get_commit_checks_watches";
   "github_wait_commit_checks_watch"; "github_workflow_operation"; "github_create_repository";
   "github_get_pull_request"; "github_create_pull_request"; "github_close_pull_request";
   "github_mark_pull_request_ready"; "github_merge_pull_request"; "github_read";
   "github_issue_write"; "oracle_release_advance"]%string.

(** [z.string().trim().min(1)] and [.max(bound)] *)
Definition trimmed_text (bound : option nat) (s : string) : outcome receipt_error string :=
  let t := trim s in
  check R_ZodError (negb (bool_decide (t = "")));;
  check R_ZodError (match bound with Some n => String.length t <=? n | None => true end);;
  mret t.

(** [mutationReceiptIdentitySchema.parse] of an identity *)
Definition parse_identity (i : MutationReceiptIdentity) : outcome receipt_error MutationReceiptIdentity :=
  workspaceId ← trimmed_text None (mi_workspaceId i);
  check R_ZodError (bool_decide (mi_operation i ∈ receipt_operations));;
  targetResource ← trimmed_text (Some 512) (mi_targetResource i);
  check R_ZodError (HASH_PATTERN (mi_canonicalArgumentsDigest i));;
  idempotencyKey ← trimmed_text (Some 512) (mi_idempotencyKey i);
  mret {| mi_workspaceId := workspaceId; mi_operation := mi_operation i; mi_targetResource := targetResource;
          mi_canonicalArgumentsDigest := mi_canonicalArgumentsDigest i; mi_idempotencyKey := idempotencyKey |}.

(** ** Public results *)

(** A JavaScript value; numbers are integers, [VOther] is a value that is neither JSON
    nor a number: [undefined], a function, an instance of a class. *)
Inductive js_value :=
| VNull
| VBool (b : bool)
| VNum (z : Z)
| VNonFinite
| VStr (s : string)
| VArr (l : list js_value)
| VObj (es : list (string * js_value))
| VOther.

Definition to_lower (c : Ascii.ascii) : Ascii.ascii :=
  if is_upper c then Ascii.ascii_of_nat (Ascii.nat_of_ascii c + 32) else c.

(** [key.toLowerCase().replace(/[^a-z0-9]/gu, "")] *)
Fixpoint normalizeSensitiveKey (s : string) : string :=
  match s with
  | EmptyString => EmptyString
  | String c s =>
      let d := to_lower c in
      if is_lower d || is_digit d then String d (normalizeSensitiveKey s) else normalizeSensitiveKey s
  end.

Definition endsWith (suffix s : string) : bool :=
  let n := String.length s - String.length suffix in
  (String.length suffix <=? String.length s) &&
  (String.substring n (String.length suffix) s =? suffix)%string.

Definition isSensitiveFieldKey (key : string) : bool :=
  includes "authorization" key || (key =? "token")%string || endsWith "token" key ||
  includes "credential" key || includes "password" key || includes "secret" key ||
  endsWith "apikey" key || includes "privatekey" key.

Definition isSensitiveReceiptField (key : string) : bool :=
  let normalized := normalizeSensitiveKey key in
  (normalized =? "confirmationid")%string || isSensitiveFieldKey normalized.

(** [parsePublicResultValue]; [None] is the thrown [INVALID_ARGUMENT]. *)
Fixpoint public_value (v : js_value) : option json :=
  match v with
  | VNull => Some JNull
  | VBool b => Some (JBool b)
  | VNum z => Some (JNum z)
  | VStr s => Some (JStr s)
  | VArr l => JArr <$> (fix list_value (l : list js_value) : option (list json) :=
      match l with
      | [] => Some []
      | x :: l => y ← public_value x; ys ← list_value l; Some (y :: ys)
      end) l
  | VObj es => JObj <$> (fix entries_value (es : list (string * js_value)) : option (list (string * json)) :=
      match es with
      | [] => Some []
      | (key, x) :: es =>
          if isSensitiveReceiptField key then None else
          y ← public_value x; ys ← entries_value es; Some ((key, y) :: ys)
      end) es
  | VNonFinite | VOther => None
  end.

Definition parseMutationReceiptPublicResult (v : js_value) : outcome receipt_error json :=
  match public_value v with Some r => Ok r | None => Err INVALID_ARGUMENT end.

(** A JSON value as the JavaScript value it parses to. *)
Fixpoint js_of_json (v : json) : js_value :=
  match v with
  | JNull => VNull
  | JBool b => VBool b
  | JNum z => VNum z
  | JStr s => VStr s
  | JArr l => VArr (map js_of_json l)
  | JObj es => VObj (map (λ e, (e.1, js_of_json e.2)) es)
  end.

(** ** Receipts as JSON *)

Definition state_text (s : MutationReceiptState) : string :=
  match s with
  | reserved => "reserved"
  | executing => "executing"
  | completed => "completed"
  | reconciliation_required => "reconciliation_required"
  end.

Definition json_of_identity (i : MutationReceiptIdentity) : json :=
  JObj [("workspaceId", JStr (mi_workspaceId i)); ("operation", JStr (mi_operation i));
        ("targetResource", JStr (mi_targetResource i));
        ("canonicalArgumentsDigest", JStr (mi_canonicalArgumentsDigest i));
        ("idempotencyKey", JStr (mi_idempotencyKey i))]%string.

Definition json_of_receipt (r : MutationReceipt) : json :=
  JObj ([("identity"%string, json_of_identity (mr_identity r)); ("state"%string, JStr (state_text (mr_state r)))] ++
        match mr_result r with Some v => [("result"%string, v)] | None => [] end).

Definition field (key : string) (v : json) : outcome receipt_error string :=
  match prop key v with Some (JStr s) => Ok s | _ => Err R_ZodError end.

(** [mutationReceiptIdentitySchema.parse] of an unknown value: a strict object. *)
Definition parse_identity_json (v : option json) : outcome receipt_error MutationReceiptIdentity :=
  match v with
  | Some (JObj es) =>
      check R_ZodError (forallb (λ e, bool_decide (e.1 ∈ ["workspaceId"; "operation"; "targetResource";
        "canonicalArgumentsDigest"; "idempotencyKey"]%string)) es);;
      workspaceId ← field "workspaceId" (JObj es);
      operation ← field "operation" (JObj es);
      targetResource ← field "targetResource" (JObj es);
      digest ← field "canonicalArgumentsDigest" (JObj es);
      idempotencyKey ← field "idempotencyKey" (JObj es);
      parse_identity {| mi_workspaceId := workspaceId; mi_operation := operation;
        mi_targetResource := targetResource; mi_canonicalArgumentsDigest := digest;
        mi_idempotencyKey := idempotencyKey |}
  | _ => Err R_ZodError
  end.

(** [mutationReceiptStateSchema.parse] *)
Definition parse_state (v : option json) : outcome receipt_error MutationReceiptState :=
  match v with
  | Some (JStr s) =>
      if (s =? "reserved")%string then Ok reserved
      else if (s =? "executing")%string then Ok executing
      else if (s =? "completed")%string then Ok completed
      else if (s =? "reconciliation_required")%string then Ok reconciliation_required
      else Err R_ZodError
  | _ => Err R_ZodError
  end.

Definition parseMutationReceipt (v : json) : outcome receipt_error MutationReceipt :=
  match v with
  | JObj es =>
      identity ← parse_identity_json (prop "identity" v);
      state ← parse_state (prop "state" v);
      check INVALID_ARGUMENT (forallb (λ e, bool_decide (e.1 ∈ ["identity"; "state"; "result"]%string)) es);;
      match state, prop "result" v with
      | completed, None => Err INVALID_ARGUMENT
      | completed, Some r =>
          result ← parseMutationReceiptPublicResult (js_of_json r);
          mret {| mr_identity := identity; mr_state := state; mr_result := Some result |}
      | _, Some _ => Err INVALID_ARGUMENT
      | _, None => mret {| mr_identity := identity; mr_state := state; mr_result := None |}
      end
  | _ => Err INVALID_ARGUMENT
  end.

(** ** Transitions *)

Definition assertSameIdentity (existing requested : MutationReceiptIdentity) : outcome receipt_error unit :=
  check SOURCE_CONTROL_IDEMPOTENCY_CONFLICT (bool_decide (existing = requested)).

Definition reserveMutationReceipt (existing : option MutationReceipt) (identity : MutationReceiptIdentity) :
    outcome receipt_error MutationReceiptReservation :=
  parsedIdentity ← parse_identity identity;
  match existing with
  | None => mret (d_execute, {| mr_identity := parsedIdentity; mr_state := reserved; mr_result := None |})
  | Some existing =>
      parsedExisting ← parseMutationReceipt (json_of_receipt existing);
      assertSameIdentity (mr_identity parsedExisting) parsedIdentity;;
      mret (match mr_state parsedExisting with
            | completed => d_replay_completed
            | _ => d_reconciliation_required
            end, parsedExisting)
  end.

Definition requireExistingReceipt (existing : option MutationReceipt) (identity : MutationReceiptIdentity) :
    outcome receipt_error MutationReceipt :=
  match existing with
  | None => Err EXECUTION_STATE_INVALID
  | Some existing =>
      parsedIdentity ← parse_identity identity;
      parsedExisting ← parseMutationReceipt (json_of_receipt existing);
      assertSameIdentity (mr_identity parsedExisting) parsedIdentity;;
      mret parsedExisting
  end.

Definition markMutationReceiptExecuting (existing : option MutationReceipt) (identity : MutationReceiptIdentity) :
    outcome receipt_error MutationReceipt :=
  receipt ← requireExistingReceipt existing identity;
  check EXECUTION_STATE_INVALID (bool_decide (mr_state receipt = reserved));;
  mret {| mr_identity := mr_identity receipt; mr_state := executing; mr_result := None |}.

Definition markMutationReceiptReconciliationRequired (existing : option MutationReceipt)
    (identity : MutationReceiptIdentity) : outcome receipt_error MutationReceipt :=
  receipt ← requireExistingReceipt existing identity;
  if bool_decide (mr_state receipt = reconciliation_required) then mret receipt else
  check EXECUTION_STATE_INVALID (bool_decide (mr_state receipt = executing));;
  mret {| mr_identity := mr_identity receipt; mr_state := reconciliation_required; mr_result := None |}.

Definition markMutationReceiptCompleted (existing : option MutationReceipt) (identity : MutationReceiptIdentity)
    (result : js_value) : outcome receipt_error MutationReceipt :=
  receipt ← requireExistingReceipt existing identity;
  check EXECUTION_STATE_INVALID
    (bool_decide (mr_state receipt ∈ [executing; reconciliation_required]));;
  publicResult ← parseMutationReceiptPublicResult result;
  mret {| mr_identity := mr_identity receipt; mr_state := completed; mr_result := Some publicResult |}.

(** ** MutationReceiptProps: well-formed receipts

    Receipts the code makes read back from JSON as they are, hold no sensitive field,
    and move along the states of the mutation. *)

Lemma outcome_bind_run {E A B} (m : outcome E A) (k : A → outcome E B) a : m = Ok a → m ≫= k = k a.
Proof. by intros ->. Qed.

(** ** Trimming *)

Lemma trim_start_idem s : trim_start (trim_start s) = trim_start s.
Proof. induction s as [|c s IH]; cbn; [done|]. destruct (is_trimmed c) eqn:E; [done|]. cbn. by rewrite E. Qed.

Lemma trim_end_idem s : trim_end (trim_end s) = trim_end s.
Proof.
  induction s as [|c s IH]; cbn; [done|]. destruct (trim_end s) as [|d t] eqn:E.
  - destruct (is_trimmed c) eqn:Ec; [done|]. cbn. by rewrite Ec.
  - change (trim_end (String c (String d t))) with
      (match trim_end (String d t) with
       | EmptyString => if is_trimmed c then EmptyString else String c EmptyString
       | r => String c r end). by rewrite IH.
Qed.

Lemma trim_idem s : trim (trim s) = trim s.
Proof.
  unfold trim. assert (trim_start (trim_end (trim_start s)) = trim_end (trim_start s)) as ->; [|apply trim_end_idem].
  pose proof (trim_start_idem s) as Hs. destruct (trim_start s) as [|c t]; [done|]. cbn in Hs |- *.
  destruct (is_trimmed c) eqn:Ec.
  - exfalso. assert (∀ u, String.length (trim_start u) ≤ String.length u) as Hl.
    { intros u. induction u as [|d u IH]; cbn; [lia|]. destruct (is_trimmed d); cbn; lia. }
    specialize (Hl t). rewrite Hs in Hl. cbn in Hl. lia.
  - destruct (trim_end t); cbn; by rewrite Ec.
Qed.

Lemma trimmed_text_Ok bound s t :
  trimmed_text bound s = Ok t ↔
  t = trim s ∧ t ≠ "" ∧ match bound with Some n => String.length t ≤ n | None => True end.
Proof.
  unfold trimmed_text. split.
  - intros Hp. apply outcome_bind_Ok in Hp as (? & Hn%check_Ok & Hp).
    apply outcome_bind_Ok in Hp as (? & Hb%check_Ok & <-%Ok_inj).
    apply negb_true_iff, bool_decide_eq_false in Hn. split_and!; [done..|]. destruct bound; [|done]. by apply Nat.leb_le.
  - intros (-> & Hn & Hb). unfold check. rewrite bool_decide_eq_false_2 by done. cbn.
    replace (match bound with Some n => _ | None => _ end) with true; [done|].
    destruct bound; [|done]. symmetry. by apply Nat.leb_le.
Qed.

Lemma trimmed_text_idem bound s t : trimmed_text bound s = Ok t → trimmed_text bound t = Ok t.
Proof. rewrite !trimmed_text_Ok. intros (-> & ? & ?). rewrite trim_idem. done. Qed.

(** ** Identities *)

Definition wf_identity (i : MutationReceiptIdentity) : Prop := parse_identity i = Ok i.

Lemma parse_identity_wf i j : parse_identity i = Ok j → wf_identity j ∧ mi_idempotencyKey j = trim (mi_idempotencyKey i).
Proof.
  unfold wf_identity, parse_identity. intros Hp. repeat (apply outcome_bind_Ok in Hp as (? & ? & Hp)).
  apply Ok_inj in Hp. subst j. cbn. rewrite !check_Ok in *. split; [|by apply trimmed_text_Ok in H3 as [-> _]].
  repeat match goal with H : trimmed_text _ _ = Ok _ |- _ => apply trimmed_text_idem in H; rewrite H; cbn end.
  repeat match goal with H : _ = true |- _ => rewrite H; cbn; clear H end. done.
Qed.

Lemma wf_identity_key i : wf_identity i → trim (mi_idempotencyKey i) = mi_idempotencyKey i.
Proof. intros Hw. by destruct (parse_identity_wf _ _ Hw) as [_ ?]. Qed.

(** ** Public results *)

Section js_value_ind.
Context (P : js_value → Prop).
Context (Hnull : P VNull) (Hbool : ∀ b, P (VBool b)) (Hnum : ∀ z, P (VNum z)) (Hnonfinite : P VNonFinite)
  (Hstr : ∀ s, P (VStr s)) (Harr : ∀ l, Forall P l → P (VArr l))
  (Hobj : ∀ es, Forall (λ e, P e.2) es → P (VObj es)) (Hother : P VOther).

Fixpoint js_value_nested_ind (v : js_value) : P v :=
  match v with
  | VNull => Hnull
  | VBool b => Hbool b
  | VNum z => Hnum z
  | VNonFinite => Hnonfinite
  | VStr s => Hstr s
  | VArr l => Harr l ((fix go l : Forall P l :=
      match l with [] => List.Forall_nil _ | x :: l => List.Forall_cons _ _ _ (js_value_nested_ind x) (go l) end) l)
  | VObj es => Hobj es ((fix go es : Forall (λ e, P e.2) es :=
      match es with [] => List.Forall_nil _ | e :: es => List.Forall_cons _ _ _ (js_value_nested_ind e.2) (go es) end) es)
  | VOther => Hother
  end.
End js_value_ind.

(** No property name of the value is sensitive, at any depth. *)
Fixpoint clean_result (v : json) : bool :=
  match v with
  | JArr l => forallb clean_result l
  | JObj es => forallb (λ e, negb (isSensitiveReceiptField e.1) && clean_result e.2) es
  | _ => true
  end.

Lemma public_value_arr l : public_value (VArr l) = JArr <$> mapM public_value l.
Proof. reflexivity. Qed.

Definition public_entry (e : string * js_value) : option (string * json) :=
  if isSensitiveReceiptField e.1 then None else y ← public_value e.2; Some (e.1, y).

Lemma public_value_obj es : public_value (VObj es) = JObj <$> mapM public_entry es.
Proof.
  cbn. f_equal. induction es as [|[k x] es IH]; [done|].
  transitivity (y ← public_entry (k, x); ys ← mapM public_entry es; Some (y :: ys)); [|done].
  rewrite <- IH. unfold public_entry. cbn [fst snd]. destruct (isSensitiveReceiptField k); [done|].
  by destruct (public_value x).
Qed.

(** What a receipt stores is clean, and reads back as it is. *)
Lemma public_value_clean x v : public_value x = Some v → clean_result v = true ∧ public_value (js_of_json v) = Some v.
Proof.
  revert v. induction x as [|b|z| |s|l IH|es IH|] using js_value_nested_ind; intros v Hv;
    try (cbn in Hv; by simplify_eq).
  - rewrite public_value_arr in Hv. apply fmap_Some in Hv as (ys & Hm & ->).
    apply mapM_Some in Hm. assert (Forall (λ y, clean_result y = true ∧ public_value (js_of_json y) = Some y) ys) as Hall.
    { clear -IH Hm. induction Hm as [|x y l ys Hxy Hm IHm]; [constructor|]. inversion IH; subst.
      constructor; auto. }
    split.
    + cbn. apply forallb_forall. intros y Hy. rewrite Forall_forall in Hall. by apply Hall, list_elem_of_In.
    + cbn [js_of_json]. rewrite public_value_arr. replace (mapM public_value (map js_of_json ys)) with (Some ys); [done|].
      symmetry. apply mapM_Some. apply Forall2_fmap_l. apply Forall_Forall2_diag.
      eapply Forall_impl; [exact Hall|]. by intros y [_ ?].
  - rewrite public_value_obj in Hv. apply fmap_Some in Hv as (ys & Hm & ->). apply mapM_Some in Hm.
    assert (Forall (λ e, isSensitiveReceiptField e.1 = false ∧ clean_result e.2 = true ∧
      public_value (js_of_json e.2) = Some e.2) ys) as Hall.
    { clear -IH Hm. induction Hm as [|[k x] y l ys Hxy Hm IHm]; [constructor|]. inversion IH; subst.
      unfold public_entry in Hxy. cbn [fst snd] in *. destruct (isSensitiveReceiptField k) eqn:Ek; [done|].
      apply bind_Some in Hxy as (w & Hw & [= <-]). constructor; [|auto]. cbn. auto. }
    split.
    + cbn. apply forallb_forall. intros e He. rewrite Forall_forall in Hall.
      destruct (Hall e) as (-> & -> & _); [by apply list_elem_of_In|]. done.
    + cbn [js_of_json]. rewrite public_value_obj.
      replace (mapM public_entry (map (λ e, (e.1, js_of_json e.2)) ys)) with (Some ys); [done|].
      symmetry. apply mapM_Some. apply Forall2_fmap_l. apply Forall_Forall2_diag.
      eapply Forall_impl; [exact Hall|]. intros [k y] (Hk & _ & Hy). unfold compose, public_entry. cbn [fst snd] in *.
      by rewrite Hk, Hy.
Qed.

(** ** Receipts *)

Record wf_receipt (r : MutationReceipt) : Prop := {
  wr_identity : wf_identity (mr_identity r);
  wr_completed : mr_state r = completed ↔ is_Some (mr_result r);
  wr_result : ∀ v, mr_result r = Some v → clean_result v = true ∧ public_value (js_of_json v) = Some v;
}.

Lemma parse_identity_json_of i : parse_identity_json (Some (json_of_identity i)) = parse_identity i.
Proof. destruct i. reflexivity. Qed.

Lemma parse_state_of s : parse_state (Some (JStr (state_text s))) = Ok s.
Proof. by destruct s. Qed.

(** A well-formed receipt reads back. *)
Lemma parse_receipt_of r : wf_receipt r → parseMutationReceipt (json_of_receipt r) = Ok r.
Proof.
  intros [Hi Hc Hr]. destruct r as [i s [v|]]; cbn [mr_identity mr_state mr_result] in *.
  - assert (s = completed) as -> by (apply Hc; eauto). destruct (Hr v eq_refl) as [_ Hv].
    unfold parseMutationReceipt, json_of_receipt. cbn [mr_identity mr_state mr_result app].
    change (prop "identity" _) with (Some (json_of_identity i)). rewrite parse_identity_json_of, Hi. cbn.
    unfold parseMutationReceiptPublicResult. by rewrite Hv.
  - assert (s ≠ completed) as Hs by (intros ->; destruct (proj1 Hc eq_refl); done).
    unfold parseMutationReceipt, json_of_receipt. cbn [mr_identity mr_state mr_result app].
    change (prop "identity" _) with (Some (json_of_identity i)). rewrite parse_identity_json_of, Hi. cbn.
    by destruct s.
Qed.

Lemma parse_identity_json_wf v i : parse_identity_json v = Ok i → wf_identity i.
Proof.
  unfold parse_identity_json. destruct v as [[]|]; try done. intros Hp.
  do 6 (apply outcome_bind_Ok in Hp as (? & _ & Hp)). by apply parse_identity_wf in Hp as [? _].
Qed.

(** Whatever the parser accepts is well formed. *)
Lemma parse_receipt_wf v r : parseMutationReceipt v = Ok r → wf_receipt r.
Proof.
  unfold parseMutationReceipt. destruct v as [| | | | |es]; try done. intros Hp.
  apply outcome_bind_Ok in Hp as (i & Hi & Hp). apply outcome_bind_Ok in Hp as (s & _ & Hp).
  apply outcome_bind_Ok in Hp as (_ & _ & Hp). apply parse_identity_json_wf in Hi.
  destruct s, (prop "result" (JObj es)) as [w|]; try done;
    try (apply Ok_inj in Hp; subst r; constructor; cbn; [done| |done]; split; [done|by intros [? ?]]).
  apply outcome_bind_Ok in Hp as (x & Hx & Hp). apply Ok_inj in Hp. subst r. constructor; cbn; [done| |].
  - split; [eauto|done].
  - intros v [= <-]. unfold parseMutationReceiptPublicResult in Hx.
    destruct (public_value (js_of_json w)) eqn:E; [|done]. apply Ok_inj in Hx. subst. by apply public_value_clean in E.
Qed.

(** ** Transitions of well-formed receipts *)

Lemma requireExisting_Ok r i r' : wf_receipt r →
  requireExistingReceipt (Some r) i = Ok r' → r' = r ∧ parse_identity i = Ok (mr_identity r).
Proof.
  intros Hw. unfold requireExistingReceipt. rewrite outcome_bind_Ok. intros (j & Hj & Hr).
  rewrite parse_receipt_of in Hr by done. cbn in Hr. unfold assertSameIdentity in Hr.
  apply outcome_bind_Ok in Hr as (? & E%check_Ok & <-%Ok_inj). apply bool_decide_eq_true in E. by rewrite E.
Qed.

Lemma requireExisting_same r i : wf_receipt r → parse_identity i = Ok (mr_identity r) →
  requireExistingReceipt (Some r) i = Ok r.
Proof.
  intros Hw Hi. unfold requireExistingReceipt. rewrite (outcome_bind_run _ _ _ Hi).
  rewrite (outcome_bind_run _ _ _ (parse_receipt_of r Hw)).
  unfold assertSameIdentity. by rewrite bool_decide_eq_true_2.
Qed.

Lemma wf_receipt_new i s : wf_identity i → s ≠ completed → wf_receipt {| mr_identity := i; mr_state := s; mr_result := None |}.
Proof. intros Hi Hs. constructor; cbn; [done| |done]. split; [done|by intros [? ?]]. Qed.

Lemma reserve_Ok existing i d r :
  (∀ e, existing = Some e → wf_receipt e) → reserveMutationReceipt existing i = Ok (d, r) →
  wf_receipt r ∧ parse_identity i = Ok (mr_identity r) ∧
  match existing with
  | None => d = d_execute ∧ mr_state r = reserved
  | Some e => r = e ∧ d = match mr_state e with completed => d_replay_completed | _ => d_reconciliation_required end
  end.
Proof.
  intros Hw. unfold reserveMutationReceipt. rewrite outcome_bind_Ok. intros (j & Hj & Hr). destruct existing as [e|].
  - specialize (Hw e eq_refl). rewrite parse_receipt_of in Hr by done. cbn in Hr. unfold assertSameIdentity in Hr.
    apply outcome_bind_Ok in Hr as (? & E%check_Ok & [= <- <-]%Ok_inj). apply bool_decide_eq_true in E. by rewrite E.
  - apply Ok_inj in Hr. injection Hr as <- <-. cbn. split_and!; [|done..].
    apply parse_identity_wf in Hj as [Hj _]. by apply wf_receipt_new.
Qed.

Lemma markExecuting_Ok existing i r : (∀ e, existing = Some e → wf_receipt e) →
  markMutationReceiptExecuting existing i = Ok r →
  ∃ e, existing = Some e ∧ mr_state e = reserved ∧ parse_identity i = Ok (mr_identity e) ∧
    r = {| mr_identity := mr_identity e; mr_state := executing; mr_result := None |} ∧ wf_receipt r.
Proof.
  intros Hw. unfold markMutationReceiptExecuting. rewrite outcome_bind_Ok. intros (e & He & Hr).
  destruct existing as [e'|]; [|done]. apply requireExisting_Ok in He as [-> Hi]; [|by apply Hw].
  apply outcome_bind_Ok in Hr as (? & Hs%check_Ok & <-%Ok_inj). apply bool_decide_eq_true in Hs.
  exists e'. split_and!; [done..|]. apply wf_receipt_new; [|done]. by apply Hw.
Qed.

Lemma markReconciliation_Ok existing i r : (∀ e, existing = Some e → wf_receipt e) →
  markMutationReceiptReconciliationRequired existing i = Ok r →
  ∃ e, existing = Some e ∧ mr_state e ∈ [executing; reconciliation_required] ∧ parse_identity i = Ok (mr_identity e) ∧
    mr_identity r = mr_identity e ∧ mr_state r = reconciliation_required ∧ wf_receipt r.
Proof.
  intros Hw. unfold markMutationReceiptReconciliationRequired. rewrite outcome_bind_Ok. intros (e & He & Hr).
  destruct existing as [e'|]; [|done]. apply requireExisting_Ok in He as [-> Hi]; [|by apply Hw].
  exists e'. case_bool_decide as Hs.
  - apply Ok_inj in Hr. subst r. rewrite Hs. split_and!; [done|set_solver|done..|by apply Hw].
  - apply outcome_bind_Ok in Hr as (? & Hs'%check_Ok & <-%Ok_inj). apply bool_decide_eq_true in Hs'.
    rewrite Hs'. split_and!; [done|set_solver|done..|]. apply wf_receipt_new; [|done]. by apply Hw.
Qed.

Lemma markCompleted_Ok existing i x r : (∀ e, existing = Some e → wf_receipt e) →
  markMutationReceiptCompleted existing i x = Ok r →
  ∃ e v, existing = Some e ∧ mr_state e ∈ [executing; reconciliation_required] ∧ parse_identity i = Ok (mr_identity e) ∧
    public_value x = Some v ∧
    r = {| mr_identity := mr_identity e; mr_state := completed; mr_result := Some v |} ∧ wf_receipt r.
Proof.
  intros Hw. unfold markMutationReceiptCompleted. rewrite outcome_bind_Ok. intros (e & He & Hr).
  destruct existing as [e'|]; [|done]. apply requireExisting_Ok in He as [-> Hi]; [|by apply Hw].
  apply outcome_bind_Ok in Hr as (? & Hs%check_Ok & Hr). apply bool_decide_eq_true in Hs.
  apply outcome_bind_Ok in Hr as (v & Hv & <-%Ok_inj). unfold parseMutationReceiptPublicResult in Hv.
  destruct (public_value x) as [v'|] eqn:E; [|done]. apply Ok_inj in Hv. subst v'.
  exists e', v. split_and!; [done..|]. constructor; cbn.
  - by apply Hw.
  - split; [eauto|done].
  - intros w [= <-]. by apply public_value_clean in E.
Qed.
