(* ===== verification/ReceiptStores.v ===== *)
(** * ReceiptStores: receipts in memory and in files

    [InMemoryMutationReceiptStore] of packages/mcp-core/src/mutation-receipts.ts and
    [FileMutationReceiptStore] of
    services/workspace-agent/src/source-control/file-mutation-receipt-store.ts.  The
    file store keeps one JSON file per idempotency key, named by the digest of the key;
    the content of a file is the JSON value its text parses to, [None] when it is not
    JSON.  The calls for one key are serialised, so a call is the body of its operation. *)

From S2P Require Import Prelude Text MutationReceipts.

Class ReceiptHost := { receipt_sha256 : string → string }.

(** What an operation of a store does with the receipt it finds: the answer, and the
    receipt to store. *)
Definition receipt_body (A : Type) : Type := option MutationReceipt → outcome receipt_error (A * option MutationReceipt).

Definition reserve_body (identity : MutationReceiptIdentity) : receipt_body MutationReceiptReservation := λ existing,
  reservation ← reserveMutationReceipt existing identity;
  mret (reservation, match reservation.1 with d_execute => Some reservation.2 | _ => None end).

Definition executing_body (identity : MutationReceiptIdentity) : receipt_body MutationReceipt := λ existing,
  receipt ← markMutationReceiptExecuting existing identity;
  mret (receipt, Some receipt).

Definition reconciliation_body (identity : MutationReceiptIdentity) : receipt_body MutationReceipt := λ existing,
  receipt ← markMutationReceiptReconciliationRequired existing identity;
  mret (receipt, Some receipt).

Definition completed_body (identity : MutationReceiptIdentity) (result : js_value) : receipt_body MutationReceipt :=
  λ existing,
  receipt ← markMutationReceiptCompleted existing identity result;
  mret (receipt, Some receipt).

Definition get_body : receipt_body (option MutationReceipt) := λ existing, mret (existing, None).

(** A part without effects. *)
Definition pure {S E A} (o : outcome E A) : io S E A := λ s, (o, s).

(** ** In memory *)

Module Memory.
Definition store : Type := gmap string MutationReceipt.

Definition transact {A} (identity : MutationReceiptIdentity)
    (body : MutationReceiptIdentity → receipt_body A) : io store receipt_error A :=
  parsedIdentity ← pure (parse_identity identity);
  existing ← gets (λ receipts : store, receipts !! mi_idempotencyKey parsedIdentity);
  reply ← pure (body parsedIdentity existing);
  match reply.2 with
  | Some receipt => modify (λ receipts, <[mi_idempotencyKey parsedIdentity := receipt]> receipts)
  | None => mret tt
  end;;
  mret reply.1.

Definition reserve identity := transact identity reserve_body.
Definition markExecuting identity := transact identity executing_body.
Definition markReconciliationRequired identity := transact identity reconciliation_body.
Definition markCompleted identity result := transact identity (λ i, completed_body i result).
Definition get (idempotencyKey : string) : io store receipt_error (option MutationReceipt) :=
  gets (λ receipts : store, receipts !! idempotencyKey).
End Memory.

(** ** In files *)

(** The directory of the store by file name. *)
Notation receipt_files := (gmap string (option json)).

Section files.
Context `{ReceiptHost}.

Definition receiptPath (idempotencyKey : string) : string := receipt_sha256 idempotencyKey +:+ ".json".

Lemma receiptPath_inj : Inj (=) (=) receipt_sha256 → Inj (=) (=) receiptPath.
Proof. intros Hsha k k' [E _]%text_app_inj_length; [|done]. by apply Hsha. Qed.

Definition parse_file (content : option (option json)) : outcome receipt_error (option MutationReceipt) :=
  match content with
  | None => Ok None
  | Some None => Err InvalidJson
  | Some (Some v) => receipt ← parseMutationReceipt v; mret (Some receipt)
  end.

Definition readReceipt (idempotencyKey : string) : io receipt_files receipt_error (option MutationReceipt) :=
  content ← gets (λ files : receipt_files, files !! receiptPath idempotencyKey);
  pure (parse_file content).

Definition writeReceipt (receipt : MutationReceipt) : io receipt_files receipt_error unit :=
  parsed ← pure (parseMutationReceipt (json_of_receipt receipt));
  modify (λ files, <[receiptPath (mi_idempotencyKey (mr_identity receipt)) := Some (json_of_receipt parsed)]> files).

(** The body of an operation under [serialize]. *)
Definition file_transact {A} (idempotencyKey : string) (body : receipt_body A) : io receipt_files receipt_error A :=
  existing ← readReceipt idempotencyKey;
  reply ← pure (body existing);
  match reply.2 with
  | Some receipt => writeReceipt receipt
  | None => mret tt
  end;;
  mret reply.1.

Definition file_reserve identity := file_transact (mi_idempotencyKey identity) (reserve_body identity).
Definition file_markExecuting identity := file_transact (mi_idempotencyKey identity) (executing_body identity).
Definition file_markReconciliationRequired identity :=
  file_transact (mi_idempotencyKey identity) (reconciliation_body identity).
Definition file_markCompleted identity result :=
  file_transact (mi_idempotencyKey identity) (completed_body identity result).
Definition file_get (idempotencyKey : string) := file_transact idempotencyKey get_body.
End files.

(** ** The two stores agree *)

Inductive store_call :=
| c_reserve (identity : MutationReceiptIdentity)
| c_markExecuting (identity : MutationReceiptIdentity)
| c_markReconciliationRequired (identity : MutationReceiptIdentity)
| c_markCompleted (identity : MutationReceiptIdentity) (result : js_value)
| c_get (idempotencyKey : string).

Inductive store_reply :=
| a_reservation (r : MutationReceiptReservation)
| a_receipt (r : MutationReceipt)
| a_lookup (o : option MutationReceipt).

(** The schema accepts the identity, and the key has no white space around it. *)
Definition acceptable (c : store_call) : Prop :=
  match c with
  | c_reserve i | c_markExecuting i | c_markReconciliationRequired i | c_markCompleted i _ =>
      (∃ j, parse_identity i = Ok j) ∧ trim (mi_idempotencyKey i) = mi_idempotencyKey i
  | c_get k => trim k = k
  end.

Definition memory_call (c : store_call) : io Memory.store receipt_error store_reply :=
  match c with
  | c_reserve i => r ← Memory.reserve i; mret (a_reservation r)
  | c_markExecuting i => r ← Memory.markExecuting i; mret (a_receipt r)
  | c_markReconciliationRequired i => r ← Memory.markReconciliationRequired i; mret (a_receipt r)
  | c_markCompleted i x => r ← Memory.markCompleted i x; mret (a_receipt r)
  | c_get k => o ← Memory.get k; mret (a_lookup o)
  end.

Section agree.
Context `{ReceiptHost}.

Definition file_call (c : store_call) : io receipt_files receipt_error store_reply :=
  match c with
  | c_reserve i => r ← file_reserve i; mret (a_reservation r)
  | c_markExecuting i => r ← file_markExecuting i; mret (a_receipt r)
  | c_markReconciliationRequired i => r ← file_markReconciliationRequired i; mret (a_receipt r)
  | c_markCompleted i x => r ← file_markCompleted i x; mret (a_receipt r)
  | c_get k => o ← file_get k; mret (a_lookup o)
  end.

(** The outcomes of a sequence of calls. *)
Fixpoint outcomes {S} (call : store_call → io S receipt_error store_reply) (l : list store_call) (s : S) :
    list (outcome receipt_error store_reply) :=
  match l with
  | [] => []
  | c :: l => let '(o, s') := call c s in o :: outcomes call l s'
  end.

(** A file holds the receipt of its key. *)
Record mirrors (files : receipt_files) (receipts : Memory.store) : Prop := {
  mi_files : ∀ k, trim k = k → files !! receiptPath k = Some ∘ json_of_receipt <$> receipts !! k;
  mi_wf : ∀ k r, receipts !! k = Some r → wf_receipt r ∧ mi_idempotencyKey (mr_identity r) = k;
}.

(** The two stores at the start. *)
Lemma mirrors_empty : mirrors ∅ (∅ : gmap string MutationReceipt).
Proof.
  split; unfold Memory.store; [intros k _|intros k r]; by rewrite !lookup_empty.
Qed.

(** What an operation stores is well formed and has the key of the identity. *)
Definition body_ok {A} (j : MutationReceiptIdentity) (body : receipt_body A) : Prop :=
  ∀ existing a r, (∀ e, existing = Some e → wf_receipt e) → body existing = Ok (a, Some r) →
    wf_receipt r ∧ mr_identity r = j.

Lemma reserve_body_ok i j : parse_identity i = Ok j → body_ok j (reserve_body i).
Proof.
  intros Hj existing a r Hw Hb. apply outcome_bind_Ok in Hb as ([d r'] & Hr & [= <- Hx]%Ok_inj).
  destruct (reserve_Ok _ _ _ _ Hw Hr) as (? & E & _). destruct d; simplify_eq. split; [done|congruence].
Qed.

Lemma executing_body_ok i j : parse_identity i = Ok j → body_ok j (executing_body i).
Proof.
  intros Hj existing a r Hw Hb. apply outcome_bind_Ok in Hb as (r' & Hr & [= -> ->]%Ok_inj).
  destruct (markExecuting_Ok _ _ _ Hw Hr) as (e & _ & _ & E & -> & ?). split; [done|cbn; congruence].
Qed.

Lemma reconciliation_body_ok i j : parse_identity i = Ok j → body_ok j (reconciliation_body i).
Proof.
  intros Hj existing a r Hw Hb. apply outcome_bind_Ok in Hb as (r' & Hr & [= -> ->]%Ok_inj).
  destruct (markReconciliation_Ok _ _ _ Hw Hr) as (e & _ & _ & E & Er & _ & ?). split; [done|congruence].
Qed.

Lemma completed_body_ok i j x : parse_identity i = Ok j → body_ok j (completed_body i x).
Proof.
  intros Hj existing a r Hw Hb. apply outcome_bind_Ok in Hb as (r' & Hr & [= -> ->]%Ok_inj).
  destruct (markCompleted_Ok _ _ _ _ Hw Hr) as (e & v & _ & _ & E & _ & -> & ?). split; [done|cbn; congruence].
Qed.

(** An operation sees the identity only through its parse. *)
Definition reads_parsed {A} (body : MutationReceiptIdentity → receipt_body A) : Prop :=
  ∀ i j existing, parse_identity i = Ok j → body i existing = body j existing.

Lemma requireExisting_parsed i j existing : parse_identity i = Ok j →
  requireExistingReceipt existing i = requireExistingReceipt existing j.
Proof.
  intros Hj. destruct existing; [|done]. unfold requireExistingReceipt. rewrite Hj.
  by rewrite (proj1 (parse_identity_wf _ _ Hj)).
Qed.

Lemma reserve_reads : reads_parsed reserve_body.
Proof.
  intros i j existing Hj. unfold reserve_body, reserveMutationReceipt. rewrite Hj.
  by rewrite (proj1 (parse_identity_wf _ _ Hj)).
Qed.

Lemma executing_reads : reads_parsed executing_body.
Proof.
  intros i j existing Hj. unfold executing_body, markMutationReceiptExecuting. by rewrite (requireExisting_parsed i j).
Qed.

Lemma reconciliation_reads : reads_parsed reconciliation_body.
Proof.
  intros i j existing Hj. unfold reconciliation_body, markMutationReceiptReconciliationRequired.
  by rewrite (requireExisting_parsed i j).
Qed.

Lemma completed_reads x : reads_parsed (λ i, completed_body i x).
Proof.
  intros i j existing Hj. unfold completed_body, markMutationReceiptCompleted. by rewrite (requireExisting_parsed i j).
Qed.

(** Reading the file of a mirrored key. *)
Lemma parse_mirrored files receipts k : mirrors files receipts → trim k = k →
  parse_file (files !! receiptPath k) = Ok (receipts !! k).
Proof.
  intros [Hf Hw] Hk. rewrite (Hf k Hk). destruct (receipts !! k) as [r|] eqn:Hr; [|done].
  destruct (Hw k r Hr) as [Hwr _]. exact (outcome_bind_run _ _ _ (parse_receipt_of r Hwr)).
Qed.

Lemma transact_agrees {A} files receipts i (body : MutationReceiptIdentity → receipt_body A) j :
  Inj (=) (=) receipt_sha256 → mirrors files receipts → parse_identity i = Ok j →
  trim (mi_idempotencyKey i) = mi_idempotencyKey i → reads_parsed body → body_ok j (body i) →
  (file_transact (mi_idempotencyKey i) (body i) files).1 = (Memory.transact i body receipts).1 ∧
  mirrors (file_transact (mi_idempotencyKey i) (body i) files).2 (Memory.transact i body receipts).2.
Proof.
  intros Hsha Hm Hj Hk Hreads Hbody. pose proof (parse_identity_wf _ _ Hj) as [Hwj Hkj]. rewrite Hk in Hkj.
  assert (∀ e, receipts !! mi_idempotencyKey i = Some e → wf_receipt e) as Hwe by (intros e He; by apply (mi_wf _ _ Hm) in He as [? _]).
  unfold file_transact, Memory.transact, readReceipt. cbv [mbind io_bind pure gets modify mret io_ret].
  rewrite (parse_mirrored _ _ _ Hm Hk), Hj, Hkj, <- (Hreads i j) by done.
  destruct (body i (receipts !! mi_idempotencyKey i)) as [[a [r|]]|e] eqn:Hb; cbn [fst snd]; [|done..].
  destruct (Hbody _ _ _ Hwe Hb) as [Hwr Er]. unfold writeReceipt. cbv [mbind io_bind pure modify].
  rewrite (parse_receipt_of r Hwr). cbn [fst snd]. rewrite Er, Hkj. split; [done|].
  constructor; unfold Memory.store in *.
  - intros k Hkt. destruct (decide (k = mi_idempotencyKey i)) as [->|Hne].
    + by rewrite !lookup_insert_eq.
    + rewrite !lookup_insert_ne; [by apply Hm|done|]. intros E. apply Hne. symmetry. by apply (receiptPath_inj Hsha).
  - intros k r'. destruct (decide (k = mi_idempotencyKey i)) as [->|Hne].
    + rewrite lookup_insert_eq. intros [= <-]. by rewrite Er.
    + rewrite lookup_insert_ne by done. apply Hm.
Qed.

Lemma bind_agrees {A B} (f : receipt_files → outcome receipt_error A * receipt_files)
    (g : Memory.store → outcome receipt_error A * Memory.store) (k : A → B) files receipts :
  (f files).1 = (g receipts).1 ∧ mirrors (f files).2 (g receipts).2 →
  ((x ← (f : io _ _ _); mret (k x)) files).1 = ((x ← (g : io _ _ _); mret (k x)) receipts).1 ∧
  mirrors ((x ← (f : io _ _ _); mret (k x)) files).2 ((x ← (g : io _ _ _); mret (k x)) receipts).2.
Proof.
  cbv [mbind io_bind mret io_ret]. destruct (f files) as [[a|e] files'], (g receipts) as [[a'|e'] receipts']; cbn;
    intros [E Hm]; by simplify_eq.
Qed.

Lemma file_call_agrees c files receipts : Inj (=) (=) receipt_sha256 → acceptable c → mirrors files receipts →
  (file_call c files).1 = (memory_call c receipts).1 ∧ mirrors (file_call c files).2 (memory_call c receipts).2.
Proof.
  intros Hsha Hc Hm. destruct c as [i|i|i|i x|k]; cbn [acceptable] in Hc;
    [destruct Hc as [[j Hj] Hk]; apply bind_agrees..|]; cbn [file_call memory_call].
  - apply (transact_agrees _ _ _ reserve_body j); auto using reserve_reads, reserve_body_ok.
  - apply (transact_agrees _ _ _ executing_body j); auto using executing_reads, executing_body_ok.
  - apply (transact_agrees _ _ _ reconciliation_body j); auto using reconciliation_reads, reconciliation_body_ok.
  - apply (transact_agrees _ _ _ (λ i, completed_body i x) j); auto using completed_reads, completed_body_ok.
  - unfold file_get, file_transact, readReceipt, Memory.get. cbv [mbind io_bind gets pure].
    by rewrite (parse_mirrored _ _ _ Hm Hc).
Qed.
End agree.
