(* ===== verification/SourceControl.v ===== *)
(** * SourceControl: the execution of source-control mutations

    [executeSourceControlMutation] of services/workspace-agent/src/local-agent.ts and
    the fifteen tools that call it, with the capability check of
    packages/mcp-core/src/source-control-policy.ts and the arguments digest of
    typed-confirmation.ts.  Calls run concurrently over the receipt
    files of their workspace and the confirmation registry of the process: a step is a
    stretch of code between two [await]s of one call, an outcome of the backend, a
    failure of the file system, or a restart of the process, which loses the calls and
    the confirmations and keeps the files. *)

From S2P Require Import Prelude Text Confirmations MutationReceipts ReceiptStores.

(** [agent_sha256] digests arguments, [iso_date] is [new Date(ms).toISOString()]. *)
Class AgentHost := {
  agent_receipts :: ReceiptHost;
  agent_confirmations :: ConfirmationHost;
  agent_sha256 : string → string;
  iso_date : Z → string;
}.

Inductive call_error :=
| SOURCE_CONTROL_CAPABILITY_DENIED
| SOURCE_CONTROL_RECONCILIATION_REQUIRED
| GIT_PROTECTED_BRANCH
| CAPABILITY_UNSUPPORTED
| MISSING_IDENTITY
| SENSITIVE_ARGUMENTS
| RESULT_INVALID
| PRECONDITION_FAILED
| BACKEND_FAILED
| E_receipt (e : receipt_error)
| E_confirmation (e : confirmation_error).

(** ** [assertSourceControlCapability] *)

Record SourceControlPolicy := {
  sp_capabilities : list string;
  sp_accountOwners : list string;
  sp_additionalRepositories : list string;
}.

Record WorkspacePolicy := {
  wp_id : string;
  wp_permissionProfile : string;
  wp_confirmationMode : string;
  wp_sourceControl : option SourceControlPolicy;
}.

(** Lower case of a code unit below 256; owners and repositories are ASCII by their schemas,
    and no other character has a letter of ["main"] as its lower case. *)
Definition lower_char (c : Ascii.ascii) : Ascii.ascii :=
  if is_upper c || (in_range 192 222 c && negb (Ascii.nat_of_ascii c =? 215))
  then Ascii.ascii_of_nat (Ascii.nat_of_ascii c + 32) else c.

(** [value.toLocaleLowerCase("en-US")] *)
Fixpoint normalizeTarget (s : string) : string :=
  match s with
  | EmptyString => EmptyString
  | String c s => String (lower_char c) (normalizeTarget s)
  end.

Definition assertSourceControlCapability (policy : WorkspacePolicy) (capability : string)
    (repository canonicalRepository accountOwner : option string) (mutation : bool) :
    outcome call_error unit :=
  match wp_sourceControl policy with
  | None => Err SOURCE_CONTROL_CAPABILITY_DENIED
  | Some configured =>
      check SOURCE_CONTROL_CAPABILITY_DENIED (bool_decide (capability ∈ sp_capabilities configured));;
      check SOURCE_CONTROL_CAPABILITY_DENIED
        (negb (mutation && negb (wp_permissionProfile policy =? "full-repo-write")%string));;
      check SOURCE_CONTROL_CAPABILITY_DENIED
        (negb ((capability =? "github.repository.create")%string && negb (bool_decide (is_Some accountOwner))));;
      check SOURCE_CONTROL_CAPABILITY_DENIED
        (negb (String.prefix "github." capability && negb (capability =? "github.repository.create")%string &&
               negb (bool_decide (is_Some repository))));;
      match repository with
      | None => mret tt
      | Some repository =>
          let requested := normalizeTarget repository in
          check SOURCE_CONTROL_CAPABILITY_DENIED
            (bool_decide (Some requested = normalizeTarget <$> canonicalRepository) ||
             bool_decide (requested ∈ map normalizeTarget (sp_additionalRepositories configured)))
      end;;
      match accountOwner with
      | None => mret tt
      | Some owner =>
          check SOURCE_CONTROL_CAPABILITY_DENIED
            (bool_decide (normalizeTarget owner ∈ map normalizeTarget (sp_accountOwners configured)))
      end
  end.

Definition isProtectedMain (value : option string) : bool :=
  bool_decide (normalizeTarget <$> value = Some "main"%string).

Definition assertTypedGitBranchMutationAllowed (operation : string)
    (currentBranch branch : option string) : outcome call_error unit :=
  check GIT_PROTECTED_BRANCH
    (negb ((operation =? "git_commit")%string && isProtectedMain currentBranch ||
           (operation =? "git_push_branch")%string && isProtectedMain branch)).

(** ** [canonicalSourceControlArgumentsDigest] *)

(** [Object.entries(value).sort] by code units *)
Fixpoint insert_by_key (e : string * json) (es : list (string * json)) : list (string * json) :=
  match es with
  | [] => [e]
  | e' :: es' =>
      match String.compare e.1 e'.1 with
      | Gt => e' :: insert_by_key e es'
      | _ => e :: es
      end
  end.
Definition sort_by_key (es : list (string * json)) : list (string * json) := foldr insert_by_key [] es.

Fixpoint sorted_value (v : json) : json :=
  match v with
  | JArr l => JArr (map sorted_value l)
  | JObj es => JObj (sort_by_key (map (λ e, (e.1, sorted_value e.2)) es))
  | _ => v
  end.

(** [canonicalJson] of browser-idempotency.ts *)
Definition code_unit_canonicalJson (v : json) : string := json_stringify (sorted_value v).

(** [None] is the [TypeError] of a sensitive field. *)
Fixpoint removeEphemeralAndRejectSensitive (v : json) : option json :=
  match v with
  | JArr l => JArr <$> (fix remove_list (l : list json) : option (list json) :=
      match l with
      | [] => Some []
      | x :: l => y ← removeEphemeralAndRejectSensitive x; ys ← remove_list l; Some (y :: ys)
      end) l
  | JObj es => JObj <$> (fix remove_entries (es : list (string * json)) : option (list (string * json)) :=
      match es with
      | [] => Some []
      | (key, x) :: es =>
          let normalizedKey := normalizeSensitiveKey key in
          if (normalizedKey =? "confirmationid")%string then remove_entries es
          else if isSensitiveFieldKey normalizedKey then None
          else y ← removeEphemeralAndRejectSensitive x; ys ← remove_entries es; Some ((key, y) :: ys)
      end) es
  | _ => Some v
  end.

(** ** A call *)

Record OperationContext := {
  oc_idempotencyKey : option string;
  oc_invocationId : option string;
  oc_correlationId : option string;
}.

Record mutation_options := {
  mo_workspace : WorkspacePolicy;
  mo_operation : string;
  mo_confirmableOperation : option string;
  mo_requireConfirmation : option bool;
  mo_capability : string;
  mo_repository : option string;
  mo_canonicalRepositoryAlreadyAuthorized : bool;
  mo_accountOwner : option string;
  mo_targetResource : string;
  mo_input : json;
  mo_context : OperationContext;
  (** Of the branch that is checked out, [None] when it cannot be read. *)
  mo_beforeReceipt : option string → outcome call_error unit;
  mo_resultSchema : js_value → option js_value;
}.

Definition readConfirmationId (input : json) : option string :=
  match prop "confirmationId" input with
  | Some (JStr s) => if bool_decide (s = "") then None else Some s
  | _ => None
  end.

Definition deriveSourceControlIdempotencyKey (input : json) (context : OperationContext) : option string :=
  or_else (oc_idempotencyKey context)
    (or_else (readConfirmationId input) (or_else (oc_invocationId context) (oc_correlationId context))).

(** ** The tools *)

Inductive mutation_tool :=
| T_gitCreateBranch | T_gitStagePaths | T_gitUnstagePaths | T_gitCommit | T_gitMergeBranch
| T_gitSyncBranch | T_gitPushBranch | T_gitPublishTag
| T_githubMaterializeActionsArtifact | T_githubCreateRepository | T_githubCreatePullRequest
| T_githubClosePullRequest | T_githubMarkPullRequestReady | T_githubMergePullRequest
| T_githubIssueWrite.

(** A tool call whose input was parsed; [tl_origin] is what [canonicalGitHubRepository]
    finds, and [tl_supported] whether the executor has the optional method of the tool. *)
Record tool_call := {
  tl_tool : mutation_tool;
  tl_workspace : WorkspacePolicy;
  tl_input : json;
  tl_context : OperationContext;
  tl_resultSchema : js_value → option js_value;
  tl_origin : option string;
  tl_supported : bool;
}.

(** [`${parsed.key}`] of a string or a number; the schema of the tool requires it. *)
Definition field (key : string) (t : tool_call) : string :=
  match prop key (tl_input t) with
  | Some (JStr s) => s
  | Some v => json_stringify v
  | None => "undefined"
  end.
(** [parsed.key ?? fallback] *)
Definition field_or (key fallback : string) (t : tool_call) : string :=
  match prop key (tl_input t) with Some (JStr s) => s | _ => fallback end.

Definition localGitRepositoryTarget (workspaceId root : string) : string :=
  ("git:" +:+ workspaceId +:+ ":" +:+ root)%string.
Definition sourceControlAutonomyEnabled (workspace : WorkspacePolicy) : bool :=
  (wp_confirmationMode workspace =? "trusted-workspace")%string &&
  (wp_permissionProfile workspace =? "full-repo-write")%string.

(** The options all tools pass; [confirmable] tools name their own operation and ask for
    a confirmation unless the workspace is autonomous. *)
Definition tool_base (t : tool_call) (operation capability targetResource : string)
    (confirmable authorized : bool) (repository accountOwner : option string)
    (beforeReceipt : option string → outcome call_error unit) : mutation_options :=
  {| mo_workspace := tl_workspace t; mo_operation := operation;
     mo_confirmableOperation := if confirmable then Some operation else None;
     mo_requireConfirmation :=
       if confirmable then Some (negb (sourceControlAutonomyEnabled (tl_workspace t))) else None;
     mo_capability := capability; mo_repository := repository;
     mo_canonicalRepositoryAlreadyAuthorized := authorized; mo_accountOwner := accountOwner;
     mo_targetResource := targetResource; mo_input := tl_input t; mo_context := tl_context t;
     mo_beforeReceipt := beforeReceipt; mo_resultSchema := tl_resultSchema t |}.

Definition no_precondition : option string → outcome call_error unit := λ _, Ok tt.

(** [assertTypedGitBranchMutationAllowed] on the branch that is checked out. *)
Definition checked_out_allowed (operation : string) : option string → outcome call_error unit := λ current,
  match current with
  | None => Err PRECONDITION_FAILED
  | Some branch => assertTypedGitBranchMutationAllowed operation (Some branch) None
  end.

Definition local_target (t : tool_call) : string :=
  localGitRepositoryTarget (wp_id (tl_workspace t)) (field_or "root" "." t).
Definition local_tool (t : tool_call) (operation capability suffix : string) (confirmable : bool) :=
  tool_base t operation capability (local_target t +:+ suffix)%string confirmable false None None.

Definition gitCreateBranch (t : tool_call) : mutation_options :=
  local_tool t "git_create_branch" "git.branch.write" "" false no_precondition.
Definition gitStagePaths (t : tool_call) : mutation_options :=
  local_tool t "git_stage_paths" "git.index.write" "" false no_precondition.
Definition gitUnstagePaths (t : tool_call) : mutation_options :=
  local_tool t "git_unstage_paths" "git.index.write" "" false no_precondition.
Definition gitCommit (t : tool_call) : mutation_options :=
  local_tool t "git_commit" "git.commit.write" "" false (checked_out_allowed "git_commit").
Definition gitMergeBranch (t : tool_call) : mutation_options :=
  local_tool t "git_merge_branch" "git.merge.write" "" false (checked_out_allowed "git_merge_branch").
Definition gitSyncBranch (t : tool_call) : mutation_options :=
  local_tool t "git_sync_branch" "git.merge.write"
    (":" +:+ field "remote" t +:+ ":refs/heads/" +:+ field "branch" t)%string false
    (λ _, assertTypedGitBranchMutationAllowed "git_sync_branch" None (Some (field "branch" t))).
Definition gitPushBranch (t : tool_call) : mutation_options :=
  local_tool t "git_push_branch" "git.remote.push"
    (":" +:+ field_or "remote" "origin" t +:+ ":refs/heads/" +:+ field "branch" t)%string true
    (λ _, assertTypedGitBranchMutationAllowed "git_push_branch" None (Some (field "branch" t))).
Definition gitPublishTag (t : tool_call) : mutation_options :=
  local_tool t "git_publish_tag" "git.remote.push"
    (":" +:+ field_or "remote" "origin" t +:+ ":refs/tags/" +:+ field "tag" t)%string true no_precondition.

Definition github_repository (t : tool_call) : string :=
  (field "owner" t +:+ "/" +:+ field "repository" t)%string.
(** A tool that has asked [assertGitHubRepositoryCapability] for the capability it passes. *)
Definition github_tool (t : tool_call) (operation capability suffix : string) (confirmable : bool) :=
  tool_base t operation capability ("github:" +:+ github_repository t +:+ suffix)%string confirmable true
    (Some (github_repository t)) None no_precondition.

Definition githubMaterializeActionsArtifact (t : tool_call) : mutation_options :=
  github_tool t "github_materialize_actions_artifact" "github.artifact.materialize"
    (":actions-run/" +:+ field "runId" t +:+ ":artifact/" +:+ field "artifactName" t)%string false.
Definition githubCreateRepository (t : tool_call) : mutation_options :=
  tool_base t "github_create_repository" "github.repository.create"
    ("github:" +:+ field "owner" t +:+ "/" +:+ field "name" t)%string true false None
    (Some (field "owner" t)) no_precondition.
Definition githubCreatePullRequest (t : tool_call) : mutation_options :=
  github_tool t "github_create_pull_request" "github.pull_request.create"
    (":pulls:" +:+ field "head" t +:+ "->" +:+ field "base" t)%string true.
Definition githubClosePullRequest (t : tool_call) : mutation_options :=
  github_tool t "github_close_pull_request" "github.pull_request.close"
    (":pull/" +:+ field "pullNumber" t)%string true.
Definition githubMarkPullRequestReady (t : tool_call) : mutation_options :=
  github_tool t "github_mark_pull_request_ready" "github.pull_request.ready"
    (":pull/" +:+ field "pullNumber" t)%string true.
Definition githubMergePullRequest (t : tool_call) : mutation_options :=
  github_tool t "github_merge_pull_request" "github.pull_request.merge"
    (":pull/" +:+ field "pullNumber" t)%string true.
Definition githubIssueWrite (t : tool_call) : mutation_options :=
  github_tool t "github_issue_write" "github.issue.write"
    (if (field "action" t =? "comment")%string
     then ":issues/" +:+ field "number" t +:+ "/comments" else ":issues")%string true.

Definition tool_options (t : tool_call) : mutation_options :=
  match tl_tool t with
  | T_gitCreateBranch => gitCreateBranch t
  | T_gitStagePaths => gitStagePaths t
  | T_gitUnstagePaths => gitUnstagePaths t
  | T_gitCommit => gitCommit t
  | T_gitMergeBranch => gitMergeBranch t
  | T_gitSyncBranch => gitSyncBranch t
  | T_gitPushBranch => gitPushBranch t
  | T_gitPublishTag => gitPublishTag t
  | T_githubMaterializeActionsArtifact => githubMaterializeActionsArtifact t
  | T_githubCreateRepository => githubCreateRepository t
  | T_githubCreatePullRequest => githubCreatePullRequest t
  | T_githubClosePullRequest => githubClosePullRequest t
  | T_githubMarkPullRequestReady => githubMarkPullRequestReady t
  | T_githubMergePullRequest => githubMergePullRequest t
  | T_githubIssueWrite => githubIssueWrite t
  end.

(** The origin of the repository is asked for unless the policy lists the repository. *)
Definition assertGitHubRepositoryCapability (workspace : WorkspacePolicy) (capability repository : string)
    (origin : option string) (mutation : bool) : outcome call_error unit :=
  let configuredAdditional :=
    match wp_sourceControl workspace with
    | Some configured =>
        existsb (λ candidate, (normalizeTarget candidate =? normalizeTarget repository)%string)
          (sp_additionalRepositories configured)
    | None => false
    end in
  assertSourceControlCapability workspace capability (Some repository)
    (if configuredAdditional then None else origin) None mutation.

(** What a tool checks before it calls [executeSourceControlMutation]: the GitHub tools
    ask for the capability and the repository they pass, and the issue tool for its
    method. *)
Definition tool_check (t : tool_call) : outcome call_error unit :=
  let o := tool_options t in
  match tl_tool t with
  | T_githubMaterializeActionsArtifact | T_githubCreatePullRequest | T_githubClosePullRequest
  | T_githubMarkPullRequestReady | T_githubMergePullRequest =>
      assertGitHubRepositoryCapability (tl_workspace t) (mo_capability o) (github_repository t) (tl_origin t) true
  | T_githubIssueWrite =>
      assertGitHubRepositoryCapability (tl_workspace t) (mo_capability o) (github_repository t) (tl_origin t) true;;
      check CAPABILITY_UNSUPPORTED (tl_supported t)
  | _ => Ok tt
  end.

(** ** The phases of a call *)

(** The store call a call waits for. *)
Inductive store_await :=
| W_get
| W_replay
| W_reserve
| W_execute
| W_complete (v : js_value)
| W_reconcile (e : call_error).

(** [Starting] awaits [beforeReceipt]; [Queued] waits for its turn at the store,
    [Storing] for the file to be written; [Running] for the backend; [Lost] ended with
    the process. *)
Inductive call_phase :=
| Starting
| Queued (w : store_await)
| Storing (w : store_await) (reply : store_reply) (receipt : MutationReceipt)
| Running
| Returned (r : outcome call_error js_value)
| Lost.

Record mutation_call := {
  ca_options : mutation_options;
  ca_identity : MutationReceiptIdentity;
  ca_phase : call_phase;
}.

(** What happened, for the statements about histories. *)
Inductive agent_event :=
| E_created (id : string) (binding : TypedConfirmationBinding) (expiresAtMs : Z)
| E_consumed (call : nat) (id : string) (binding : TypedConfirmationBinding)
| E_reserved (call : nat) (identity : MutationReceiptIdentity)
| E_backend (call : nat) (identity : MutationReceiptIdentity)
| E_returned (call : nat) (identity : MutationReceiptIdentity) (v : js_value)
| E_replayed (call : nat) (identity : MutationReceiptIdentity) (receipt : MutationReceipt).

Record agent := {
  ag_files : gmap string receipt_files;
  ag_confirmations : ConfirmationRegistry TypedConfirmationBinding;
  ag_calls : list mutation_call;
  ag_log : list agent_event;
}.

Section execute.
Context `{AgentHost}.

Definition canonicalSourceControlArgumentsDigest (v : json) : option string :=
  canonicalValue ← removeEphemeralAndRejectSensitive v;
  Some (agent_sha256 (code_unit_canonicalJson canonicalValue)).

Definition workspace_files (a : agent) (workspaceId : string) : receipt_files :=
  default ∅ (ag_files a !! workspaceId).

(** The identity of the mutation, once the digest and the key are known. *)
Definition mutation_identity (o : mutation_options) : outcome call_error MutationReceiptIdentity :=
  match canonicalSourceControlArgumentsDigest (mo_input o) with
  | None => Err SENSITIVE_ARGUMENTS
  | Some digest =>
      match deriveSourceControlIdempotencyKey (mo_input o) (mo_context o) with
      | None => Err MISSING_IDENTITY
      | Some idempotencyKey =>
          Ok {| mi_workspaceId := wp_id (mo_workspace o); mi_operation := mo_operation o;
                mi_targetResource := mo_targetResource o; mi_canonicalArgumentsDigest := digest;
                mi_idempotencyKey := idempotencyKey |}
      end
  end.

Definition authorize (o : mutation_options) : outcome call_error unit :=
  if mo_canonicalRepositoryAlreadyAuthorized o then Ok tt
  else assertSourceControlCapability (mo_workspace o) (mo_capability o) (mo_repository o) None
         (mo_accountOwner o) true.

Definition confirmation_binding (o : mutation_options) (i : MutationReceiptIdentity) (operation : string) :
    TypedConfirmationBinding :=
  {| tb_workspaceId := wp_id (mo_workspace o); tb_operation := operation;
     tb_targetResource := mo_targetResource o; tb_canonicalArgumentsDigest := mi_canonicalArgumentsDigest i |}.

Definition parse_result (o : mutation_options) (v : js_value) : outcome call_error js_value :=
  match mo_resultSchema o v with Some r => Ok r | None => Err RESULT_INVALID end.

Definition no_identity : MutationReceiptIdentity :=
  {| mi_workspaceId := ""; mi_operation := ""; mi_targetResource := ""; mi_canonicalArgumentsDigest := "";
     mi_idempotencyKey := "" |}.

(** What the store does for a call. *)
Definition store_body (i : MutationReceiptIdentity) (w : store_await) : receipt_body store_reply := λ existing,
  match w with
  | W_get => '(o, r) ← get_body existing; mret (a_lookup o, r)
  | W_replay | W_reserve => '(d, r) ← reserve_body i existing; mret (a_reservation d, r)
  | W_execute => '(x, r) ← executing_body i existing; mret (a_receipt x, r)
  | W_complete v => '(x, r) ← completed_body i v existing; mret (a_receipt x, r)
  | W_reconcile _ => '(x, r) ← reconciliation_body i existing; mret (a_receipt x, r)
  end.

(** The confirmation of the call, between the lookup and the reservation; [now] and
    [later] are the readings of the clock. *)
Definition confirm_call (n : nat) (c : mutation_call) (now later : Z)
    (s : ConfirmationRegistry TypedConfirmationBinding) :
    call_phase * ConfirmationRegistry TypedConfirmationBinding * list agent_event :=
  let o := ca_options c in
  match mo_confirmableOperation o with
  | None => (Queued W_reserve, s, [])
  | Some operation =>
      let binding := confirmation_binding o (ca_identity c) operation in
      match readConfirmationId (mo_input o) with
      | None =>
          if bool_decide (mo_requireConfirmation o = Some false) then (Queued W_reserve, s, []) else
          match typed_create binding now later s with
          | (Err e, s') => (Returned (Err (E_confirmation e)), s', [])
          | (Ok (id, t), s') =>
              (Returned (parse_result o (VObj [("status", VStr "confirmation_required"); ("confirmationId", VStr id);
                 ("expiresAt", VStr (iso_date t)); ("operation", VStr operation);
                 ("targetResource", VStr (mo_targetResource o))]%string)),
               s', [E_created id binding t])
          end
      | Some id =>
          match typed_consume id binding now later s with
          | (Err e, s') => (Returned (Err (E_confirmation e)), s', [])
          | (Ok _, s') => (Queued W_reserve, s', [E_consumed n id binding])
          end
      end
  end.

Definition replay (n : nat) (c : mutation_call) (r : MutationReceipt) : call_phase * list agent_event :=
  (Returned (parse_result (ca_options c) (match mr_result r with Some v => js_of_json v | None => VOther end)),
   [E_replayed n (ca_identity c) r]).

(** The call goes on with the answer of the store. *)
Definition after_store (n : nat) (c : mutation_call) (w : store_await) (r : outcome receipt_error store_reply)
    (now later : Z) (s : ConfirmationRegistry TypedConfirmationBinding) :
    call_phase * ConfirmationRegistry TypedConfirmationBinding * list agent_event :=
  match w, r with
  | W_get, Ok (a_lookup None) => confirm_call n c now later s
  | W_get, Ok _ => (Queued W_replay, s, [])
  | W_replay, Ok (a_reservation (d_replay_completed, receipt)) =>
      let '(p, l) := replay n c receipt in (p, s, l)
  | W_replay, Ok _ => (Returned (Err SOURCE_CONTROL_RECONCILIATION_REQUIRED), s, [])
  | W_reserve, Ok (a_reservation (d_replay_completed, receipt)) =>
      let '(p, l) := replay n c receipt in (p, s, l)
  | W_reserve, Ok (a_reservation (d_execute, _)) => (Queued W_execute, s, [E_reserved n (ca_identity c)])
  | W_reserve, Ok _ => (Returned (Err SOURCE_CONTROL_RECONCILIATION_REQUIRED), s, [])
  | W_execute, Ok _ => (Running, s, [E_backend n (ca_identity c)])
  | W_complete v, Ok _ => (Returned (Ok v), s, [])
  | W_complete v, Err e => (Queued (W_reconcile (E_receipt e)), s, [])
  | W_reconcile e, _ => (Returned (Err e), s, [])
  | _, Err e => (Returned (Err (E_receipt e)), s, [])
  end.

Definition with_phase (c : mutation_call) (p : call_phase) : mutation_call :=
  {| ca_options := ca_options c; ca_identity := ca_identity c; ca_phase := p |}.

Definition set_call (n : nat) (c : mutation_call) (a : agent) : agent :=
  {| ag_files := ag_files a; ag_confirmations := ag_confirmations a;
     ag_calls := <[n := c]> (ag_calls a); ag_log := ag_log a |}.

(** The state after the store answered the call. *)
Definition answered (n : nat) (c : mutation_call) (w : store_await) (r : outcome receipt_error store_reply)
    (now later : Z) (a : agent) : agent :=
  let '(p, s, l) := after_store n c w r now later (ag_confirmations a) in
  {| ag_files := ag_files a; ag_confirmations := s;
     ag_calls := <[n := with_phase c p]> (ag_calls a); ag_log := ag_log a ++ l |}.

Definition set_workspace_files (workspaceId : string) (files : receipt_files) (a : agent) : agent :=
  {| ag_files := <[workspaceId := files]> (ag_files a); ag_confirmations := ag_confirmations a;
     ag_calls := ag_calls a; ag_log := ag_log a |}.

(** [executeSourceControlMutation] up to the first [await]. *)
Definition begin_call (o : mutation_options) : mutation_call :=
  {| ca_options := o; ca_identity := no_identity;
     ca_phase := match authorize o with Ok _ => Starting | Err e => Returned (Err e) end |}.

(** A tool call up to there. *)
Definition begin_tool (t : tool_call) : mutation_call :=
  match tool_check t with
  | Ok _ => begin_call (tool_options t)
  | Err e => {| ca_options := tool_options t; ca_identity := no_identity; ca_phase := Returned (Err e) |}
  end.

(** The call goes on after [beforeReceipt]. *)
Definition started (c : mutation_call) : mutation_call :=
  match mutation_identity (ca_options c) with
  | Ok i => {| ca_options := ca_options c; ca_identity := i; ca_phase := Queued W_get |}
  | Err e => with_phase c (Returned (Err e))
  end.

(** The call goes on after the backend: [None] when it rejects. *)
Definition backend_done (n : nat) (c : mutation_call) (r : option js_value) : mutation_call * list agent_event :=
  match r with
  | None => (with_phase c (Queued (W_reconcile BACKEND_FAILED)), [])
  | Some x =>
      match parse_result (ca_options c) x with
      | Ok v => (with_phase c (Queued (W_complete v)), [E_returned n (ca_identity c) v])
      | Err e => (with_phase c (Queued (W_reconcile e)), [])
      end
  end.

(** The store of the workspace and the key the calls are serialised by. *)
Definition store_key (i : MutationReceiptIdentity) : string * string := (mi_workspaceId i, mi_idempotencyKey i).

(** No other call is inside an operation on the key. *)
Definition key_free (a : agent) (c : mutation_call) : Prop :=
  ∀ m c' w reply r, ag_calls a !! m = Some c' → ca_phase c' = Storing w reply r → 
    store_key (ca_identity c') ≠ store_key (ca_identity c).

Definition lose (c : mutation_call) : mutation_call :=
  match ca_phase c with Returned _ => c | _ => with_phase c Lost end.

Inductive agent_step : agent → agent → Prop :=
| step_begin a t :
    agent_step a {| ag_files := ag_files a; ag_confirmations := ag_confirmations a;
                    ag_calls := ag_calls a ++ [begin_tool t]; ag_log := ag_log a |}
| step_started a n c branch :
    ag_calls a !! n = Some c → ca_phase c = Starting →
    mo_beforeReceipt (ca_options c) branch = Ok tt → agent_step a (set_call n (started c) a)
| step_precondition a n c branch e :
    ag_calls a !! n = Some c → ca_phase c = Starting →
    mo_beforeReceipt (ca_options c) branch = Err e →
    agent_step a (set_call n (with_phase c (Returned (Err e))) a)
| step_store a n c w now later :
    ag_calls a !! n = Some c → ca_phase c = Queued w → key_free a c →
    agent_step a
      (match parse_file (workspace_files a (mi_workspaceId (ca_identity c)) !!
               receiptPath (mi_idempotencyKey (ca_identity c))) ≫= store_body (ca_identity c) w with
       | Err e => answered n c w (Err e) now later a
       | Ok (reply, None) => answered n c w (Ok reply) now later a
       | Ok (reply, Some receipt) => set_call n (with_phase c (Storing w reply receipt)) a
       end)
| step_read_fails a n c w now later :
    ag_calls a !! n = Some c → ca_phase c = Queued w → key_free a c →
    agent_step a (answered n c w (Err R_Errno) now later a)
| step_write a n c w reply receipt now later r files :
    ag_calls a !! n = Some c → ca_phase c = Storing w reply receipt →
    writeReceipt receipt (workspace_files a (mi_workspaceId (ca_identity c))) = (r, files) →
    agent_step a (answered n c w (match r with Ok _ => Ok reply | Err e => Err e end) now later
      (set_workspace_files (mi_workspaceId (ca_identity c)) files a))
| step_write_fails a n c w reply receipt now later files :
    ag_calls a !! n = Some c → ca_phase c = Storing w reply receipt →
    files = workspace_files a (mi_workspaceId (ca_identity c)) ∨
    files = (writeReceipt receipt (workspace_files a (mi_workspaceId (ca_identity c)))).2 →
    agent_step a (answered n c w (Err R_Errno) now later
      (set_workspace_files (mi_workspaceId (ca_identity c)) files a))
| step_backend a n c r :
    ag_calls a !! n = Some c → ca_phase c = Running →
    agent_step a {| ag_files := ag_files a; ag_confirmations := ag_confirmations a;
                    ag_calls := <[n := (backend_done n c r).1]> (ag_calls a);
                    ag_log := ag_log a ++ (backend_done n c r).2 |}
| step_restart a :
    agent_step a {| ag_files := ag_files a;
                    ag_confirmations := {| cr_pending := ∅; cr_ttlMs := cr_ttlMs (ag_confirmations a);
                                           cr_drawn := cr_drawn (ag_confirmations a) |};
                    ag_calls := map lose (ag_calls a); ag_log := ag_log a |}.

Definition new_agent : agent :=
  {| ag_files := ∅; ag_confirmations := {| cr_pending := ∅; cr_ttlMs := MAX_TYPED_CONFIRMATION_TTL_MS; cr_drawn := 0 |};
     ag_calls := []; ag_log := [] |}.

Definition agent_reachable (a : agent) : Prop := rtc agent_step new_agent a.
End execute.
