(* ===== verification/SourceControlProps.v ===== *)
(** * SourceControlProps: the invariant of the mutation calls

    Over every interleaving of calls, backend outcomes, file-system failures and
    restarts: what the receipt files hold, what a call in each phase has done, and what
    the history says about reservations, backend calls and confirmations. *)

From S2P Require Import Prelude Text Confirmations MutationReceipts ReceiptStores SourceControl.

Definition made_of (log : list agent_event) : list (string * TypedConfirmationBinding * Z) :=
  omap (λ e, match e with E_created id b t => Some (id, b, t) | _ => None end) log.
Definition used_of (log : list agent_event) : list string :=
  omap (λ e, match e with E_consumed _ id _ => Some id | _ => None end) log.
Definition backends_of (log : list agent_event) : list nat :=
  omap (λ e, match e with E_backend n _ => Some n | _ => None end) log.

Definition await_stage (w : store_await) : nat :=
  match w with W_get | W_replay | W_reserve => 1 | W_execute => 2 | W_complete _ | W_reconcile _ => 4 end.

(** How far a call has come. *)
Definition stage (p : call_phase) : nat :=
  match p with
  | Starting => 0
  | Queued w | Storing w _ _ => await_stage w
  | Running => 3
  | Returned _ | Lost => 5
  end.

Section invariant.
Context `{AgentHost}.
Implicit Types (a : agent) (c : mutation_call) (log l : list agent_event).

Definition trimmed_key (i : MutationReceiptIdentity) : Prop := trim (mi_idempotencyKey i) = mi_idempotencyKey i.

(** The receipt file the call reads exists. *)
Definition has_file (files : gmap string receipt_files) (i : MutationReceiptIdentity) : Prop :=
  is_Some (default ∅ (files !! mi_workspaceId i) !! receiptPath (mi_idempotencyKey i)).

(** A confirmation the options require was consumed by the call. *)
Definition confirmed log (n : nat) c : Prop :=
  ∀ operation, mo_confirmableOperation (ca_options c) = Some operation →
  mo_requireConfirmation (ca_options c) ≠ Some false →
  ∃ id, readConfirmationId (mo_input (ca_options c)) = Some id ∧
    E_consumed n id (confirmation_binding (ca_options c) (ca_identity c) operation) ∈ log.

Definition await_ok (files : gmap string receipt_files) log (n : nat) c (w : store_await) : Prop :=
  mutation_identity (ca_options c) = Ok (ca_identity c) ∧
  match w with
  | W_get => True
  | W_replay => has_file files (ca_identity c)
  | W_reserve => confirmed log n c
  | W_execute => confirmed log n c ∧ E_reserved n (ca_identity c) ∈ log
  | W_complete v => E_backend n (ca_identity c) ∈ log ∧ E_returned n (ca_identity c) v ∈ log
  | W_reconcile _ => E_backend n (ca_identity c) ∈ log
  end.

Definition storing_ok c (w : store_await) (reply : store_reply) (r : MutationReceipt) : Prop :=
  wf_receipt r ∧ parse_identity (ca_identity c) = Ok (mr_identity r) ∧
  match w with
  | W_get | W_replay => False
  | W_reserve => reply = a_reservation (d_execute, r) ∧ mr_state r = reserved
  | W_execute => trimmed_key (ca_identity c) ∧ mr_state r = executing
  | W_complete v => mr_state r = completed ∧ public_value v = mr_result r
  | W_reconcile _ => mr_state r = reconciliation_required
  end.

Definition call_ok (files : gmap string receipt_files) log (n : nat) c : Prop :=
  match ca_phase c with
  | Starting | Returned _ | Lost => True
  | Queued w => await_ok files log n c w
  | Storing w reply r => await_ok files log n c w ∧ storing_ok c w reply r
  | Running => mutation_identity (ca_options c) = Ok (ca_identity c) ∧ E_backend n (ca_identity c) ∈ log
  end.

(** The result of a completed receipt came from a backend. *)
Definition backed log (r : MutationReceipt) : Prop :=
  mr_state r = completed → ∃ m i x v, E_returned m i x ∈ log ∧ parse_identity i = Ok (mr_identity r) ∧
    public_value x = Some v ∧ mr_result r = Some v.

Definition file_ok log (path : string) (v : option json) : Prop :=
  ∃ r, path = receiptPath (mi_idempotencyKey (mr_identity r)) ∧ v = Some (json_of_receipt r) ∧
    wf_receipt r ∧ backed log r.

Definition in_reservation c : Prop := ∃ reply r, ca_phase c = Storing W_reserve reply r.
Definition is_storing c : Prop := ∃ w reply r, ca_phase c = Storing w reply r.

(** The options are those of a tool call that passed the checks of the tool and of
    [executeSourceControlMutation]. *)
Definition checked (o : mutation_options) : Prop :=
  ∃ t, tool_options t = o ∧ tool_check t = Ok tt ∧ authorize o = Ok tt.

Record agent_inv a : Prop := {
  iv_files : ∀ ws path v, workspace_files a ws !! path = Some v → file_ok (ag_log a) path v;
  iv_calls : ∀ n c, ag_calls a !! n = Some c → call_ok (ag_files a) (ag_log a) n c;
  iv_checked : ∀ n c, ag_calls a !! n = Some c → stage (ca_phase c) < 5 → checked (ca_options c);
  iv_exclusive : ∀ n m c c', ag_calls a !! n = Some c → ag_calls a !! m = Some c' →
    is_storing c → is_storing c' → store_key (ca_identity c) = store_key (ca_identity c') → n = m;
  iv_reserving : ∀ n c m i, ag_calls a !! n = Some c → in_reservation c → trimmed_key (ca_identity c) →
    E_reserved m i ∈ ag_log a → store_key i ≠ store_key (ca_identity c);
  iv_reserved : ∀ n i, E_reserved n i ∈ ag_log a → ∃ c, ag_calls a !! n = Some c ∧ 2 ≤ stage (ca_phase c) ∧
    ca_identity c = i ∧ (trimmed_key i → has_file (ag_files a) i);
  iv_once : ∀ n m i i', E_reserved n i ∈ ag_log a → E_reserved m i' ∈ ag_log a → trimmed_key i →
    store_key i = store_key i' → n = m;
  iv_backend : ∀ n i, E_backend n i ∈ ag_log a → ∃ c, ag_calls a !! n = Some c ∧ 3 ≤ stage (ca_phase c) ∧
    ca_identity c = i ∧ mutation_identity (ca_options c) = Ok i ∧ checked (ca_options c) ∧
    confirmed (ag_log a) n c ∧ E_reserved n i ∈ ag_log a ∧ trimmed_key i;
  iv_backends : NoDup (backends_of (ag_log a));
  iv_returned : ∀ n i v, E_returned n i v ∈ ag_log a → E_backend n i ∈ ag_log a;
  iv_replayed : ∀ n i r, E_replayed n i r ∈ ag_log a →
    parse_identity i = Ok (mr_identity r) ∧ mr_state r = completed ∧ backed (ag_log a) r;
  iv_confirmations : confirmations_ok (ag_confirmations a) (made_of (ag_log a)) (used_of (ag_log a));
  iv_bindings : ∀ n id b, E_consumed n id b ∈ ag_log a → ∃ t, (id, b, t) ∈ made_of (ag_log a);
}.

(** ** Histories and files grow *)

Definition files_grow (f f' : gmap string receipt_files) : Prop := ∀ i, has_file f i → has_file f' i.

Lemma confirmed_log_app log l n c : confirmed log n c → confirmed (log ++ l) n c.
Proof.
  intros Hc operation Ho Hr. destruct (Hc operation Ho Hr) as (id & Hid & He). exists id. split; [done|].
  apply elem_of_app. by left.
Qed.

Lemma backed_app log l r : backed log r → backed (log ++ l) r.
Proof.
  intros Hb Hs. destruct (Hb Hs) as (m & i & x & v & ? & ?). exists m, i, x, v. rewrite elem_of_app. auto.
Qed.

Lemma file_ok_app log l path v : file_ok log path v → file_ok (log ++ l) path v.
Proof. intros (r & ? & ? & ? & ?). exists r. split_and!; auto using backed_app. Qed.

Lemma await_ok_grow f f' log l n c w : files_grow f f' → await_ok f log n c w → await_ok f' (log ++ l) n c w.
Proof.
  intros Hf [Hi Hw]. split; [done|]. destruct w; rewrite ?elem_of_app; [done|by apply Hf|by apply confirmed_log_app| |..].
  - destruct Hw. auto using confirmed_log_app.
  - destruct Hw. auto.
  - auto.
Qed.

Lemma call_ok_grow f f' log l n c : files_grow f f' → call_ok f log n c → call_ok f' (log ++ l) n c.
Proof.
  intros Hf. unfold call_ok. destruct (ca_phase c); try done.
  - by apply await_ok_grow.
  - intros [? ?]. split; [by eapply await_ok_grow|done].
  - intros [? ?]. rewrite elem_of_app. auto.
Qed.

(** ** One call moves *)

(** What one step of the call [n], from [c] to [c'] with the files [f'], the registry
    [s'] and the events [l], has to establish. *)
Record call_move a (n : nat) c c' (f' : gmap string receipt_files)
    (s' : ConfirmationRegistry TypedConfirmationBinding) l : Prop := {
  mv_call : ag_calls a !! n = Some c;
  mv_options : ca_options c' = ca_options c;
  mv_identity : ca_identity c' = ca_identity c ∨ stage (ca_phase c) = 0;
  mv_stage : stage (ca_phase c) ≤ stage (ca_phase c') ∧ stage (ca_phase c) < 5;
  mv_grow : files_grow (ag_files a) f';
  mv_files : ∀ ws path v, default ∅ (f' !! ws) !! path = Some v → file_ok (ag_log a ++ l) path v;
  mv_ok : call_ok f' (ag_log a ++ l) n c';
  mv_free : is_storing c' → key_free a c' ;
  mv_reserving : in_reservation c' → ∀ m i, trimmed_key (ca_identity c') → E_reserved m i ∈ ag_log a ++ l →
    store_key i ≠ store_key (ca_identity c');
  mv_reserved : ∀ m i, E_reserved m i ∈ l → m = n ∧ i = ca_identity c ∧ in_reservation c ∧
    2 ≤ stage (ca_phase c') ∧ (trimmed_key i → has_file f' i);
  mv_backend : ∀ m i, E_backend m i ∈ l → l = [E_backend n (ca_identity c)] ∧ stage (ca_phase c) = 2 ∧
    3 ≤ stage (ca_phase c') ∧ mutation_identity (ca_options c) = Ok (ca_identity c) ∧ confirmed (ag_log a) n c ∧
    E_reserved n (ca_identity c) ∈ ag_log a ∧ trimmed_key (ca_identity c);
  mv_returned : ∀ m i v, E_returned m i v ∈ l → E_backend m i ∈ ag_log a;
  mv_replayed : ∀ m i r, E_replayed m i r ∈ l →
    parse_identity i = Ok (mr_identity r) ∧ mr_state r = completed ∧ backed (ag_log a) r;
  mv_confirmations : confirmations_ok s' (made_of (ag_log a ++ l)) (used_of (ag_log a ++ l));
  mv_bindings : ∀ m id b, E_consumed m id b ∈ l → ∃ t, (id, b, t) ∈ made_of (ag_log a ++ l);
}.

Definition moved a (n : nat) c' (f' : gmap string receipt_files)
    (s' : ConfirmationRegistry TypedConfirmationBinding) l : agent :=
  {| ag_files := f'; ag_confirmations := s'; ag_calls := <[n := c']> (ag_calls a); ag_log := ag_log a ++ l |}.

Section move.
Context a n c c' f' s' l (I : agent_inv a) (M : call_move a n c c' f' s' l).

Lemma moved_lookup m x : <[n := c']> (ag_calls a) !! m = Some x →
  (m = n ∧ x = c') ∨ (m ≠ n ∧ ag_calls a !! m = Some x).
Proof using M.
  destruct (decide (m = n)) as [->|Hne].
  - rewrite list_lookup_insert_eq by (eapply lookup_lt_Some, (mv_call _ _ _ _ _ _ _ M)). intros [= <-]. by left.
  - rewrite list_lookup_insert_ne by done. by right.
Qed.

Lemma moved_at : <[n := c']> (ag_calls a) !! n = Some c'.
Proof using M. rewrite list_lookup_insert_eq; [done|]. eapply lookup_lt_Some, (mv_call _ _ _ _ _ _ _ M). Qed.

(** A call of the history that had come far enough keeps its identity. *)
Lemma moved_history m x k : ag_calls a !! m = Some x → k ≤ stage (ca_phase x) → 0 < k →
  ∃ x', <[n := c']> (ag_calls a) !! m = Some x' ∧ k ≤ stage (ca_phase x') ∧
    ca_identity x' = ca_identity x ∧ ca_options x' = ca_options x.
Proof using M.
  intros Hx Hk Hpos. destruct (decide (m = n)) as [->|Hne].
  - rewrite (mv_call _ _ _ _ _ _ _ M) in Hx. injection Hx as <-. exists c'. rewrite moved_at.
    destruct (mv_stage _ _ _ _ _ _ _ M) as [? _]. destruct (mv_identity _ _ _ _ _ _ _ M) as [->|?]; [|lia].
    split_and!; [done|lia|done|apply M].
  - exists x. rewrite list_lookup_insert_ne by done. done.
Qed.

Lemma confirmed_same m x x' log : ca_options x' = ca_options x → ca_identity x' = ca_identity x →
  confirmed log m x → confirmed log m x'.
Proof using. unfold confirmed. by intros -> ->. Qed.

Lemma moved_checked : checked (ca_options c).
Proof using I M. by apply (iv_checked _ I n); apply M. Qed.

Lemma moved_exclusive m m' x x' : <[n := c']> (ag_calls a) !! m = Some x → <[n := c']> (ag_calls a) !! m' = Some x' →
  is_storing x → is_storing x' → store_key (ca_identity x) = store_key (ca_identity x') → m = m'.
Proof using I M.
  assert (∀ k y, k ≠ n → ag_calls a !! k = Some y → is_storing y → is_storing c' →
    store_key (ca_identity y) ≠ store_key (ca_identity c')) as Hother.
  { intros k y Hk Hy (w & reply & r & Hp) Hc'. eapply (mv_free _ _ _ _ _ _ _ M); eauto. }
  intros [[-> ->]|[Hm Hx]]%moved_lookup [[-> ->]|[Hm' Hx']]%moved_lookup Hs Hs' E.
  - done.
  - destruct (Hother _ _ Hm' Hx' Hs' Hs). by symmetry.
  - by destruct (Hother _ _ Hm Hx Hs Hs').
  - by apply (iv_exclusive _ I m m' x x').
Qed.

Lemma moved_reserving m x m' i : <[n := c']> (ag_calls a) !! m = Some x → in_reservation x →
  trimmed_key (ca_identity x) → E_reserved m' i ∈ ag_log a ++ l → store_key i ≠ store_key (ca_identity x).
Proof using I M.
  intros [[-> ->]|[Hm Hx]]%moved_lookup Hr Ht; [by apply M|].
  intros [He|He]%elem_of_app; [by apply (iv_reserving _ I m x m')|].
  destruct (mv_reserved _ _ _ _ _ _ _ M _ _ He) as (-> & -> & Hc & _). intros E. apply Hm. symmetry.
  assert (∀ y, in_reservation y → is_storing y) as Hst by (intros y (? & ? & ?); by eexists _, _, _).
  apply (iv_exclusive _ I n m c x); auto. apply M.
Qed.

Lemma moved_once m m' i i' : E_reserved m i ∈ ag_log a ++ l → E_reserved m' i' ∈ ag_log a ++ l → trimmed_key i →
  store_key i = store_key i' → m = m'.
Proof using I M.
  assert (∀ x y j, E_reserved y j ∈ ag_log a → E_reserved x (ca_identity c) ∈ l → trimmed_key (ca_identity c) →
    store_key j = store_key (ca_identity c) → False) as Hclash.
  { intros x y j Hy Hx Ht E. destruct (mv_reserved _ _ _ _ _ _ _ M _ _ Hx) as (_ & _ & Hc & _).
    by apply (iv_reserving _ I n c y j (mv_call _ _ _ _ _ _ _ M)) in E. }
  assert (∀ j j' : MutationReceiptIdentity, store_key j = store_key j' → trimmed_key j → trimmed_key j') as Hkey
    by (intros j j' [= _ E]; unfold trimmed_key; by rewrite E).
  intros [H1|H1]%elem_of_app [H2|H2]%elem_of_app Ht E.
  - by apply (iv_once _ I m m' i i').
  - destruct (mv_reserved _ _ _ _ _ _ _ M _ _ H2) as (-> & -> & _). by destruct (Hclash _ _ _ H1 H2); eauto.
  - destruct (mv_reserved _ _ _ _ _ _ _ M _ _ H1) as (-> & -> & _). by destruct (Hclash _ _ _ H2 H1).
  - destruct (mv_reserved _ _ _ _ _ _ _ M _ _ H1) as (-> & _). by destruct (mv_reserved _ _ _ _ _ _ _ M _ _ H2) as (-> & _).
Qed.

Lemma moved_reserved m i : E_reserved m i ∈ ag_log a ++ l → ∃ x, <[n := c']> (ag_calls a) !! m = Some x ∧
  2 ≤ stage (ca_phase x) ∧ ca_identity x = i ∧ (trimmed_key i → has_file f' i).
Proof using I M.
  intros [He|He]%elem_of_app.
  - destruct (iv_reserved _ I _ _ He) as (x & Hx & Hs & <- & Hf).
    destruct (moved_history m x 2 Hx Hs) as (x' & ? & ? & ? & _); [lia|]. exists x'. split_and!; [done..|].
    intros Ht. by apply M, Hf.
  - destruct (mv_reserved _ _ _ _ _ _ _ M _ _ He) as (-> & -> & (reply & r & Hc) & Hs & Hf). exists c'.
    split_and!; [apply moved_at|done| |done]. destruct (mv_identity _ _ _ _ _ _ _ M) as [->|E]; [done|].
    by rewrite Hc in E.
Qed.

Lemma moved_backend m i : E_backend m i ∈ ag_log a ++ l → ∃ x, <[n := c']> (ag_calls a) !! m = Some x ∧
  3 ≤ stage (ca_phase x) ∧ ca_identity x = i ∧ mutation_identity (ca_options x) = Ok i ∧
  checked (ca_options x) ∧ confirmed (ag_log a ++ l) m x ∧ E_reserved m i ∈ ag_log a ++ l ∧ trimmed_key i.
Proof using I M.
  intros [He|He]%elem_of_app.
  - destruct (iv_backend _ I _ _ He) as (x & Hx & Hs & <- & Hi & Hau & Hc & Hr & Ht).
    destruct (moved_history m x 3 Hx Hs) as (x' & ? & ? & Ei & Eo); [lia|]. exists x'. rewrite Ei, Eo, elem_of_app.
    split_and!; auto. apply confirmed_log_app. by apply (confirmed_same m x).
  - destruct (mv_backend _ _ _ _ _ _ _ M _ _ He) as (El & Hs & Hs' & Hi & Hc & Hr & Ht). rewrite El in He.
    apply list_elem_of_singleton in He as [= -> ->]. exists c'.
    assert (ca_identity c' = ca_identity c) as Ei by (destruct (mv_identity _ _ _ _ _ _ _ M); [done|lia]).
    pose proof (mv_options _ _ _ _ _ _ _ M) as Eo. rewrite Ei, Eo, elem_of_app.
    split_and!; auto using moved_at, moved_checked. apply confirmed_log_app. by apply (confirmed_same n c).
Qed.

Lemma moved_backends : NoDup (backends_of (ag_log a ++ l)).
Proof using I M.
  unfold backends_of. rewrite omap_app. apply NoDup_app. split; [apply I|].
  assert (∀ k, k ∈ omap (λ e, match e with E_backend n _ => Some n | _ => None end) l →
    l = [E_backend n (ca_identity c)] ∧ k = n ∧ stage (ca_phase c) = 2) as Hl.
  { intros k (e & He & Hk)%list_elem_of_omap. destruct e as [| | |m i| |]; simplify_eq.
    destruct (mv_backend _ _ _ _ _ _ _ M _ _ He) as (El & Hs & _). rewrite El in He.
    by apply list_elem_of_singleton in He as [= -> ->]. }
  split.
  - intros k Hk Hk'. destruct (Hl k Hk') as (_ & -> & Hs). apply list_elem_of_omap in Hk as (e & He & Hk).
    destruct e as [| | |m i| |]; simplify_eq. destruct (iv_backend _ I _ _ He) as (x & Hx & Hst & _).
    rewrite (mv_call _ _ _ _ _ _ _ M) in Hx. simplify_eq. lia.
  - destruct (omap _ l) as [|k ks] eqn:E; [constructor|]. destruct (Hl k) as (-> & _); [left|].
    cbn in E. injection E as <- <-. apply NoDup_singleton.
Qed.

Lemma moved_inv : agent_inv (moved a n c' f' s' l).
Proof using I M.
  constructor; cbn [moved ag_files ag_confirmations ag_calls ag_log workspace_files].
  - intros ws path v. apply M.
  - intros m x [[-> ->]|[Hm Hx]]%moved_lookup; [apply M|]. eapply call_ok_grow; [apply M|]. by apply I.
  - intros m x [[-> ->]|[Hm Hx]]%moved_lookup; [|by apply (iv_checked _ I m)].
    intros _. rewrite (mv_options _ _ _ _ _ _ _ M). apply moved_checked.
  - apply moved_exclusive.
  - intros m x m' i Hx Hr Ht He. by eapply moved_reserving.
  - apply moved_reserved.
  - apply moved_once.
  - apply moved_backend.
  - apply moved_backends.
  - intros m i v [He|He]%elem_of_app; rewrite elem_of_app; left; [by apply I in He|by eapply M].
  - intros m i r [He|He]%elem_of_app.
    + destruct (iv_replayed _ I _ _ _ He) as (? & ? & ?). auto using backed_app.
    + destruct (mv_replayed _ _ _ _ _ _ _ M _ _ _ He) as (? & ? & ?). auto using backed_app.
  - apply M.
  - intros m id b [He|He]%elem_of_app; [|by eapply M]. destruct (iv_bindings _ I _ _ _ He) as [t Ht].
    exists t. unfold made_of. rewrite omap_app. apply elem_of_app. by left.
Qed.
End move.
End invariant.
