(* ===== verification/SourceControlRuns.v ===== *)
(** * SourceControlRuns: every step keeps the invariant of the mutation calls *)

From S2P Require Import Prelude Text Confirmations MutationReceipts ReceiptStores SourceControl SourceControlProps.

Section runs.
Context `{AgentHost}.
Implicit Types (a : agent) (c : mutation_call) (log l : list agent_event).

(** ** Steps that do not enter the store *)

Definition event_ok a (n : nat) c (p : call_phase) (f' : gmap string receipt_files) (e : agent_event) : Prop :=
  match e with
  | E_created _ _ _ => True
  | E_consumed _ id b => ∃ t, (id, b, t) ∈ made_of (ag_log a)
  | E_reserved m i => m = n ∧ i = ca_identity c ∧ in_reservation c ∧ 2 ≤ stage p ∧ (trimmed_key i → has_file f' i)
  | E_backend m i => m = n ∧ i = ca_identity c ∧ stage (ca_phase c) = 2 ∧ 3 ≤ stage p ∧
      mutation_identity (ca_options c) = Ok (ca_identity c) ∧ confirmed (ag_log a) n c ∧
      E_reserved n (ca_identity c) ∈ ag_log a ∧ trimmed_key (ca_identity c)
  | E_returned m i _ => E_backend m i ∈ ag_log a
  | E_replayed _ i r => parse_identity i = Ok (mr_identity r) ∧ mr_state r = completed ∧ backed (ag_log a) r
  end.

(** The events of a step: none or one. *)
Definition events_ok a n c p f' (o : option agent_event) : Prop :=
  match o with Some e => event_ok a n c p f' e | None => True end.

Lemma events_elem (o : option agent_event) e : e ∈ option_list o → o = Some e.
Proof. destruct o as [x|]; cbn; [by intros ->%list_elem_of_singleton|by intros ?%not_elem_of_nil]. Qed.

Lemma move_intro a n c p f' s' (o : option agent_event) :
  ag_calls a !! n = Some c → stage (ca_phase c) ≤ stage p → stage (ca_phase c) < 5 →
  files_grow (ag_files a) f' →
  (∀ ws path v, default ∅ (f' !! ws) !! path = Some v → file_ok (ag_log a ++ option_list o) path v) →
  call_ok f' (ag_log a ++ option_list o) n (with_phase c p) →
  (∀ w reply r, p ≠ Storing w reply r) →
  events_ok a n c p f' o →
  confirmations_ok s' (made_of (ag_log a ++ option_list o)) (used_of (ag_log a ++ option_list o)) →
  call_move a n c (with_phase c p) f' s' (option_list o).
Proof.
  intros Hc Hs Hlt Hg Hf Hok Hns He Hconf. constructor; cbn [ca_options ca_identity ca_phase with_phase]; try done.
  - by left.
  - by intros (w & reply & r & Hp%Hns).
  - by intros (reply & r & Hp%Hns).
  - intros m i Hin%events_elem. subst o. exact He.
  - intros m i Hin%events_elem. subst o. destruct He as (-> & -> & He). by split.
  - intros m i v Hin%events_elem. subst o. exact He.
  - intros m i r Hin%events_elem. subst o. exact He.
  - intros m id b Hin%events_elem. subst o. destruct He as [t Ht]. exists t. unfold made_of. rewrite omap_app.
    apply elem_of_app. by left.
Qed.

(** [step_event o s'] uses [move_intro] and leaves the phase, the event and the registry. *)
Ltac step_event o s' :=
  apply (move_intro _ _ _ _ _ s' o);
    [assumption|cbn [stage await_stage]; lia|lia|assumption|match goal with H : context [file_ok] |- _ => apply H end
    | |done|cbn [events_ok event_ok]|].

(** Without an event and with the files and confirmations as they are. *)
Lemma move_quiet a n c p : agent_inv a →
  ag_calls a !! n = Some c → stage (ca_phase c) ≤ stage p → stage (ca_phase c) < 5 →
  (∀ w reply r, p ≠ Storing w reply r) → call_ok (ag_files a) (ag_log a) n (with_phase c p) →
  agent_inv (set_call n (with_phase c p) a).
Proof.
  intros I Hc Hs Hlt Hns Hok. assert (set_call n (with_phase c p) a =
    moved a n (with_phase c p) (ag_files a) (ag_confirmations a) []) as ->
    by (unfold set_call, moved; by rewrite app_nil_r).
  apply moved_inv with c; [done|]. apply (move_intro a n c p _ _ None); cbn; rewrite ?app_nil_r; try done; try apply I.
  by intros i.
Qed.

(** ** What the store answers *)

Definition reply_ok a c (f' : gmap string receipt_files) (w : store_await) (r : outcome receipt_error store_reply) : Prop :=
  match w, r with
  | W_get, Ok (a_lookup (Some _)) => has_file f' (ca_identity c)
  | W_get, Ok (a_lookup None) => True
  | W_get, Ok _ => False
  | (W_replay | W_reserve), Ok (a_reservation (d_replay_completed, receipt)) =>
      parse_identity (ca_identity c) = Ok (mr_identity receipt) ∧ mr_state receipt = completed ∧
      backed (ag_log a) receipt
  | W_reserve, Ok (a_reservation (d_execute, _)) =>
      in_reservation c ∧ (trimmed_key (ca_identity c) → has_file f' (ca_identity c))
  | W_execute, Ok _ => trimmed_key (ca_identity c)
  | _, _ => True
  end.

(** The files a step leaves behind. *)
Record files_step a (f' : gmap string receipt_files) : Prop := {
  fs_grow : files_grow (ag_files a) f';
  fs_files : ∀ ws path v, default ∅ (f' !! ws) !! path = Some v → file_ok (ag_log a) path v;
}.

Lemma files_step_refl a : agent_inv a → files_step a (ag_files a).
Proof. intros I. split; [by intros i|apply I]. Qed.

Lemma confirmed_id log n c id operation :
  mo_confirmableOperation (ca_options c) = Some operation → readConfirmationId (mo_input (ca_options c)) = Some id →
  E_consumed n id (confirmation_binding (ca_options c) (ca_identity c) operation) ∈ log → confirmed log n c.
Proof. intros Ho Hid He operation' Ho' _. simplify_eq. eauto. Qed.

Lemma call_ok_phase f log n c w : await_ok f log n c w → call_ok f log n (with_phase c (Queued w)).
Proof. done. Qed.

Lemma conf_quiet a : agent_inv a →
  confirmations_ok (ag_confirmations a) (made_of (ag_log a ++ [])) (used_of (ag_log a ++ [])).
Proof. rewrite app_nil_r. apply iv_confirmations. Qed.

Lemma conf_event a e : agent_inv a →
  match e with E_created _ _ _ | E_consumed _ _ _ => False | _ => True end →
  confirmations_ok (ag_confirmations a) (made_of (ag_log a ++ [e])) (used_of (ag_log a ++ [e])).
Proof.
  intros I He. unfold made_of, used_of. rewrite !omap_app.
  destruct e; try done; cbn; rewrite !app_nil_r; apply I.
Qed.

Lemma confirm_call_move a n c f' now later :
  Inj (=) (=) confirmation_id → agent_inv a → files_step a f' →
  ag_calls a !! n = Some c → ca_phase c = Queued W_get → mutation_identity (ca_options c) = Ok (ca_identity c) →
  let '(p, s', l) := confirm_call n c now later (ag_confirmations a) in
  call_move a n c (with_phase c p) f' s' l.
Proof.
  intros Hinj I [Hg Hf] Hc Hp Hi.
  assert (∀ o ws path v, default ∅ (f' !! ws) !! path = Some v → file_ok (ag_log a ++ option_list o) path v) as Hfo
    by (intros o ws path v Hv; eapply file_ok_app, Hf, Hv).
  assert (stage (ca_phase c) = 1) as Hst by (by rewrite Hp).
  pose proof (iv_confirmations _ I) as Hco.
  assert (∀ r s', confirmations_ok s' (made_of (ag_log a)) (used_of (ag_log a)) →
    call_move a n c (with_phase c (Returned r)) f' s' []) as Hret.
  { intros r s' Hs'. step_event (None : option agent_event) s'; [done..|]. cbn. by rewrite app_nil_r. }
  assert (confirmed (ag_log a) n c → call_move a n c (with_phase c (Queued W_reserve)) f' (ag_confirmations a) []) as Hres.
  { intros Hcf. step_event (None : option agent_event) (ag_confirmations a); [|done|by apply conf_quiet].
    split; [done|]. by apply confirmed_log_app. }
  unfold confirm_call. destruct (mo_confirmableOperation (ca_options c)) as [op|] eqn:Eop;
    [|apply Hres; intros ??; congruence].
  destruct (readConfirmationId (mo_input (ca_options c))) as [id|] eqn:Eid.
  - unfold typed_consume. destruct (parseBinding _) as [b|e] eqn:Eb; [|by apply Hret]. apply parseBinding_Ok in Eb as ->.
    destruct (consume_confirmation _ _ _ _ _ _) as [[[]|e] s'] eqn:Ec;
      pose proof (consume_confirmation_ok _ _ _ _ _ _ _ _ _ _ Hco Ec) as Hcc; cbn in Hcc; [|by apply Hret].
    destruct Hcc as (_ & (b' & t & Hb' & Hsame & _) & Hco'). apply sameTypedBinding_eq in Hsame as ->.
    step_event (Some (E_consumed n id (confirmation_binding (ca_options c) (ca_identity c) op))) s'.
    + split; [done|]. eapply confirmed_id; [done..|]. apply elem_of_app. right. by left.
    + by exists t.
    + unfold made_of, used_of in *. rewrite !omap_app. cbn. rewrite app_nil_r. exact Hco'.
  - case_bool_decide as Er; [apply Hres; intros ?? Hn; by destruct Hn|].
    unfold typed_create. destruct (parseBinding _) as [b|e] eqn:Eb; [|by apply Hret]. apply parseBinding_Ok in Eb as ->.
    destruct (create_confirmation _ _ _ _) as [[id t] s'] eqn:Ec.
    pose proof (create_confirmation_ok _ _ _ _ _ _ _ _ _ Hinj Hco Ec) as Hcc.
    step_event (Some (E_created id (confirmation_binding (ca_options c) (ca_identity c) op) t)) s'; [done..|].
    unfold made_of, used_of in *. rewrite !omap_app. cbn. rewrite app_nil_r. exact Hcc.
Qed.

Lemma answered_move a n c w r f' now later :
  Inj (=) (=) confirmation_id → agent_inv a → files_step a f' → ag_calls a !! n = Some c →
  ca_phase c = Queued w ∨ (w ≠ W_get ∧ ∃ reply receipt, ca_phase c = Storing w reply receipt) →
  await_ok (ag_files a) (ag_log a) n c w → reply_ok a c f' w r →
  let '(p, s', l) := after_store n c w r now later (ag_confirmations a) in
  call_move a n c (with_phase c p) f' s' l.
Proof.
  intros Hinj I Hfs Hc Hp [Hi Hw] Hr. pose proof Hfs as [Hg Hf].
  assert (∀ o ws path v, default ∅ (f' !! ws) !! path = Some v → file_ok (ag_log a ++ option_list o) path v) as Hfo
    by (intros o ws path v Hv; eapply file_ok_app, Hf, Hv).
  assert (stage (ca_phase c) = await_stage w) as Hst by (destruct Hp as [->|(_ & ? & ? & ->)]; done).
  assert (await_stage w ≤ 4) as Hmax by (destruct w; cbn; lia).
  assert (∀ x, call_move a n c (with_phase c (Returned x)) f' (ag_confirmations a) []) as Hret.
  { intros x. step_event (None : option agent_event) (ag_confirmations a); [done..|by apply conf_quiet]. }
  assert (∀ w', await_stage w ≤ await_stage w' → await_ok f' (ag_log a) n c w' →
    call_move a n c (with_phase c (Queued w')) f' (ag_confirmations a) []) as Hqueue.
  { intros w' Hle Hok. step_event (None : option agent_event) (ag_confirmations a); [|done|by apply conf_quiet].
    eapply await_ok_grow; [by intros i|exact Hok]. }
  assert (∀ receipt, parse_identity (ca_identity c) = Ok (mr_identity receipt) ∧ mr_state receipt = completed ∧
    backed (ag_log a) receipt → let '(p, l) := replay n c receipt in
    call_move a n c (with_phase c p) f' (ag_confirmations a) l) as Hreplay.
  { intros receipt Hrec. cbn [replay]. step_event (Some (E_replayed n (ca_identity c) receipt)) (ag_confirmations a);
      [done|exact Hrec|by apply conf_event]. }
  destruct w as [| | | |v|e]; cbn [after_store await_stage] in *.
  - destruct Hp as [Hp|[? _]]; [|done]. destruct r as [[res|rec|[x|]]|e]; [done|done| | |apply Hret].
    + by apply Hqueue.
    + by apply confirm_call_move.
  - destruct r as [[[[] receipt]|rec|x]|e]; try apply Hret. by apply Hreplay.
  - destruct r as [[[[] receipt]|rec|x]|e]; try apply Hret; [|by apply Hreplay].
    destruct Hr as [Hres Hfile]. step_event (Some (E_reserved n (ca_identity c))) (ag_confirmations a);
      [|split_and!; auto|by apply conf_event].
    split; [done|]. split; [by apply confirmed_log_app|]. apply elem_of_app. right. by left.
  - destruct r as [x|e]; [|apply Hret]. destruct Hw as [Hcf Hev].
    step_event (Some (E_backend n (ca_identity c))) (ag_confirmations a);
      [|split_and!; auto; cbn; lia|by apply conf_event].
    split; [done|]. apply elem_of_app. right. by left.
  - destruct r as [x|e]; [apply Hret|]. destruct Hw as [Hb _]. by apply Hqueue.
  - destruct r; apply Hret.
Qed.

(** ** Reading and writing the files *)

(** What a call finds at its key. *)
Lemma read_receipt_file_ok a (i : MutationReceiptIdentity) :
  Inj (=) (=) receipt_sha256 → agent_inv a →
  ∃ existing, parse_file (workspace_files a (mi_workspaceId i) !! receiptPath (mi_idempotencyKey i)) = Ok existing ∧
    match existing with
    | None => ~ has_file (ag_files a) i
    | Some r => has_file (ag_files a) i ∧ wf_receipt r ∧ trimmed_key i ∧ backed (ag_log a) r
    end.
Proof.
  intros Hsha I. unfold has_file. destruct (workspace_files a (mi_workspaceId i) !! receiptPath (mi_idempotencyKey i))
    as [v|] eqn:Hv; unfold workspace_files in Hv; rewrite Hv.
  - destruct (iv_files _ I _ _ _ Hv) as (r & Hpath & -> & Hwf & Hb). exists (Some r).
    apply (receiptPath_inj Hsha) in Hpath. split; [exact (outcome_bind_run _ _ _ (parse_receipt_of r Hwf))|].
    split_and!; [by eexists|done| |done]. unfold trimmed_key. rewrite Hpath. apply wf_identity_key, Hwf.
  - exists None. split; [done|]. by intros [? ?].
Qed.

Lemma reserve_body_inv i existing res r : (∀ e, existing = Some e → wf_receipt e) →
  reserve_body i existing = Ok (res, r) →
  wf_receipt res.2 ∧ parse_identity i = Ok (mr_identity res.2) ∧
  match existing with
  | None => res = (d_execute, res.2) ∧ r = Some res.2 ∧ mr_state res.2 = reserved
  | Some e => res.2 = e ∧ r = None ∧ (res.1 = d_replay_completed → mr_state e = completed)
  end.
Proof using.
  intros Hwf Hb. apply outcome_bind_Ok in Hb as ([d x] & Hd & [= <- <-]).
  destruct (reserve_Ok _ _ _ _ Hwf Hd) as (Hwr & Hi & He). cbn [fst snd]. split_and!; [done..|].
  destruct existing as [e|]; destruct He as [-> He].
  - subst d. by destruct (mr_state e).
  - done.
Qed.

(** What the store starts to write. *)
Lemma store_body_writes a n c w existing reply r :
  await_ok (ag_files a) (ag_log a) n c w → (∀ e, existing = Some e → wf_receipt e ∧ trimmed_key (ca_identity c)) →
  (existing = None → ~ has_file (ag_files a) (ca_identity c)) →
  store_body (ca_identity c) w existing = Ok (reply, Some r) →
  storing_ok c w reply r ∧ (w = W_reserve → ~ has_file (ag_files a) (ca_identity c)).
Proof using.
  intros [_ Hw] Hex Hnone Hb. assert (∀ e, existing = Some e → wf_receipt e) as Hwf by (intros e He; by apply Hex).
  unfold store_body in Hb. destruct w as [| | | |v|e]; apply outcome_bind_Ok in Hb as ([d r'] & Hd & Hb);
    apply Ok_inj in Hb; injection Hb as <- ->.
  - done.
  - destruct (reserve_body_inv _ _ _ _ Hwf Hd) as (_ & _ & He). destruct existing; [by destruct He as (_ & ? & _)|].
    by destruct (Hnone eq_refl).
  - destruct (reserve_body_inv _ _ _ _ Hwf Hd) as (Hwr & Hi & He). destruct existing; [by destruct He as (_ & ? & _)|].
    destruct He as (Hres & [= ->] & Hs). split; [|auto]. split_and!; [done..|by rewrite Hres|done].
  - apply outcome_bind_Ok in Hd as (x & Hd & [= <- <-]).
    destruct (markExecuting_Ok _ _ _ Hwf Hd) as (e & -> & Hs & Hi & -> & Hwr). split; [|done].
    split_and!; [done..| |done]. by apply (Hex e).
  - apply outcome_bind_Ok in Hd as (x & Hd & [= <- <-]).
    destruct (markCompleted_Ok _ _ _ _ Hwf Hd) as (e & pv & -> & Hs & Hi & Hpv & -> & Hwr). split; [|done].
    by split_and!.
  - apply outcome_bind_Ok in Hd as (x & Hd & [= <- <-]).
    destruct (markReconciliation_Ok _ _ _ Hwf Hd) as (e' & -> & Hs & Hi & Er & Hst & Hwr). split; [|done].
    split_and!; [done| |done]. by rewrite Er.
Qed.

(** What the store answers without writing. *)
Lemma store_body_answers a c w existing reply :
  (∀ e, existing = Some e → wf_receipt e ∧ has_file (ag_files a) (ca_identity c) ∧ backed (ag_log a) e) →
  store_body (ca_identity c) w existing = Ok (reply, None) → reply_ok a c (ag_files a) w (Ok reply).
Proof using.
  intros Hex Hb. assert (∀ e, existing = Some e → wf_receipt e) as Hwf by (intros e He; by apply Hex).
  assert (∀ res r, reserve_body (ca_identity c) existing = Ok (res, r) → r = None →
    res.1 ≠ d_execute ∧ (res.1 = d_replay_completed → parse_identity (ca_identity c) = Ok (mr_identity res.2) ∧
      mr_state res.2 = completed ∧ backed (ag_log a) res.2)) as Hres.
  { intros res r Hd ->. destruct (reserve_body_inv _ _ _ _ Hwf Hd) as (_ & Hi & He).
    destruct existing as [e|]; [|by destruct He as (_ & ? & _)]. destruct He as (E & _ & Hs). split.
    - apply outcome_bind_Ok in Hd as ([d x] & _ & [= <- Hn]). cbn in *. by intros ->.
    - intros Hd'. rewrite E in *. split_and!; [done|by apply Hs|by apply Hex]. }
  unfold store_body in Hb. destruct w as [| | | |v|e]; apply outcome_bind_Ok in Hb as ([d r'] & Hd & Hb);
    apply Ok_inj in Hb; injection Hb as <- ->.
  - injection Hd as <-. cbn. destruct existing as [e|]; [|done]. by destruct (Hex e eq_refl) as (_ & ? & _).
  - destruct (Hres _ _ Hd eq_refl) as [_ Hr]. destruct d as [[] x]; try done. by apply Hr.
  - destruct (Hres _ _ Hd eq_refl) as [Hn Hr]. destruct d as [[] x]; try done. by apply Hr.
  - by apply outcome_bind_Ok in Hd as (x & Hd & [= _ ?]).
  - done.
  - done.
Qed.

(** Writing a receipt of the call. *)
Lemma write_ok a n c w reply r : agent_inv a → Inj (=) (=) receipt_sha256 →
  ag_calls a !! n = Some c → ca_phase c = Storing w reply r →
  ∃ files, writeReceipt r (workspace_files a (mi_workspaceId (ca_identity c))) = (Ok tt, files) ∧
    files_step a (<[mi_workspaceId (ca_identity c) := files]> (ag_files a)) ∧
    (trimmed_key (ca_identity c) → has_file (<[mi_workspaceId (ca_identity c) := files]> (ag_files a)) (ca_identity c)).
Proof.
  intros I Hsha Hc Hp. pose proof (iv_calls _ I n c Hc) as Hok. unfold call_ok in Hok. rewrite Hp in Hok.
  destruct Hok as [Hw (Hwr & Hi & Hst)]. unfold writeReceipt.
  rewrite (bind_run _ _ _ r (workspace_files a (mi_workspaceId (ca_identity c))))
    by (unfold pure; by rewrite (parse_receipt_of r Hwr)).
  eexists. split; [reflexivity|]. set (i := ca_identity c) in *.
  assert (mi_idempotencyKey (mr_identity r) = trim (mi_idempotencyKey i)) as Hkey by (by apply parse_identity_wf in Hi as [_ ?]).
  set (f' := <[mi_workspaceId i := _]> (ag_files a)).
  assert (∀ ws path, default ∅ (f' !! ws) !! path =
    if decide (ws = mi_workspaceId i ∧ path = receiptPath (mi_idempotencyKey (mr_identity r)))
    then Some (Some (json_of_receipt r)) else workspace_files a ws !! path) as Hlook.
  { intros ws path. subst f'. destruct (decide (ws = mi_workspaceId i)) as [->|Hne].
    - rewrite lookup_insert_eq. cbn. destruct (decide (path = receiptPath (mi_idempotencyKey (mr_identity r)))) as [->|Hp'].
      + by rewrite lookup_insert_eq, decide_True.
      + rewrite lookup_insert_ne, decide_False by naive_solver. done.
    - rewrite lookup_insert_ne, decide_False by naive_solver. done. }
  assert (backed (ag_log a) r) as Hb.
  { intros Hcomp. destruct w as [| | | |v|e]; try (exfalso; naive_solver congruence). destruct Hw as [_ [_ Hret]].
    destruct Hst as [_ Hv]. destruct (proj1 (wr_completed _ Hwr) Hcomp) as [pv Hpv]. exists n, i, v, pv.
    by rewrite Hv. }
  split; [split|].
  - intros j [v Hv]. unfold has_file. rewrite Hlook. case_decide; [by eexists|]. by exists v.
  - intros ws path v. rewrite Hlook. case_decide as Hd; [|apply I]. destruct Hd as [-> ->]. intros [= <-].
    by exists r.
  - intros Ht. unfold has_file. rewrite Hlook, decide_True; [by eexists|]. split; [done|]. by rewrite Hkey, Ht.
Qed.

(** ** Steps *)

Lemma answered_moved a n c w r now later f' :
  ∃ p s' l, after_store n c w r now later (ag_confirmations a) = (p, s', l) ∧
    ∀ g, ag_files g = f' → ag_confirmations g = ag_confirmations a → ag_calls g = ag_calls a → ag_log g = ag_log a →
      answered n c w r now later g = moved a n (with_phase c p) f' s' l.
Proof.
  destruct (after_store n c w r now later (ag_confirmations a)) as [[p s'] l] eqn:E. exists p, s', l.
  split; [done|]. intros g <- Hco Hca Hlog. unfold answered. rewrite Hco, E. unfold moved. by rewrite Hca, Hlog.
Qed.

Lemma answered_inv a n c w r now later f' g :
  Inj (=) (=) confirmation_id → agent_inv a → files_step a f' → ag_calls a !! n = Some c →
  ca_phase c = Queued w ∨ (w ≠ W_get ∧ ∃ reply receipt, ca_phase c = Storing w reply receipt) →
  await_ok (ag_files a) (ag_log a) n c w → reply_ok a c f' w r →
  ag_files g = f' → ag_confirmations g = ag_confirmations a → ag_calls g = ag_calls a → ag_log g = ag_log a →
  agent_inv (answered n c w r now later g).
Proof.
  intros Hinj I Hfs Hc Hp Hw Hr Hf Hco Hca Hlog.
  destruct (answered_moved a n c w r now later f') as (p & s' & l & Ha & Hg). rewrite (Hg g) by done.
  apply moved_inv with c; [done|]. pose proof (answered_move a n c w r f' now later Hinj I Hfs Hc Hp Hw Hr) as M.
  by rewrite Ha in M.
Qed.

Lemma reply_ok_err a c f' w e : reply_ok a c f' w (Err e).
Proof. by destruct w. Qed.

(** The call starts to write. *)
Lemma storing_inv a n c w reply r : agent_inv a → ag_calls a !! n = Some c → ca_phase c = Queued w → key_free a c →
  storing_ok c w reply r → (w = W_reserve → ~ has_file (ag_files a) (ca_identity c)) →
  agent_inv (set_call n (with_phase c (Storing w reply r)) a).
Proof.
  intros I Hc Hp Hfree Hst Hno. assert (set_call n (with_phase c (Storing w reply r)) a =
    moved a n (with_phase c (Storing w reply r)) (ag_files a) (ag_confirmations a) []) as ->
    by (unfold set_call, moved; by rewrite app_nil_r).
  pose proof (iv_calls _ I n c Hc) as Hok. unfold call_ok in Hok. rewrite Hp in Hok.
  apply moved_inv with c; [done|]. constructor; cbn; rewrite ?app_nil_r; try done; try (by intros ? ? ?%not_elem_of_nil);
    try (by intros ? ? ? ?%not_elem_of_nil).
  - by left.
  - rewrite Hp. cbn. destruct w; cbn; lia.
  - by intros i.
  - apply I.
  - intros (reply' & r' & [= -> _ _]) m i Ht He E. apply (Hno eq_refl).
    destruct (iv_reserved _ I _ _ He) as (_ & _ & _ & _ & Hf). injection E as E1 E2. unfold has_file, trimmed_key in *.
    rewrite <- E1, <- E2. apply Hf. by rewrite E2.
  - apply I.
Qed.

Lemma store_step_inv a n c w now later :
  Inj (=) (=) confirmation_id → Inj (=) (=) receipt_sha256 → agent_inv a →
  ag_calls a !! n = Some c → ca_phase c = Queued w → key_free a c →
  agent_inv
    (match parse_file (workspace_files a (mi_workspaceId (ca_identity c)) !!
             receiptPath (mi_idempotencyKey (ca_identity c))) ≫= store_body (ca_identity c) w with
     | Err e => answered n c w (Err e) now later a
     | Ok (reply, None) => answered n c w (Ok reply) now later a
     | Ok (reply, Some receipt) => set_call n (with_phase c (Storing w reply receipt)) a
     end).
Proof.
  intros Hinj Hsha I Hc Hp Hfree. pose proof (iv_calls _ I n c Hc) as Hok. unfold call_ok in Hok. rewrite Hp in Hok.
  destruct (read_receipt_file_ok a (ca_identity c) Hsha I) as (existing & Hread & Hex).
  rewrite (outcome_bind_run _ _ _ Hread). clear Hread.
  assert (∀ e, existing = Some e → has_file (ag_files a) (ca_identity c) ∧ wf_receipt e ∧
    trimmed_key (ca_identity c) ∧ backed (ag_log a) e) as Hsome by (by intros e ->).
  assert (∀ r, reply_ok a c (ag_files a) w r → agent_inv (answered n c w r now later a)) as Hans.
  { intros r Hr. eapply answered_inv; try done; [by apply files_step_refl|by left]. }
  destruct (store_body (ca_identity c) w existing) as [[reply [r|]]|e] eqn:Hb.
  - destruct (store_body_writes a n c w existing reply r Hok) as [? ?]; [| |done|by apply storing_inv].
    + intros e He. by destruct (Hsome e He) as (_ & ? & ? & _).
    + by intros ->.
  - apply Hans. apply (store_body_answers _ _ _ existing); [|done]. intros e He. by destruct (Hsome e He) as (? & ? & _ & ?).
  - apply Hans, reply_ok_err.
Qed.

(** The file is written, or not, and the call goes on. *)
Lemma write_step_inv a n c w reply r x files now later :
  Inj (=) (=) confirmation_id → Inj (=) (=) receipt_sha256 → agent_inv a →
  ag_calls a !! n = Some c → ca_phase c = Storing w reply r →
  writeReceipt r (workspace_files a (mi_workspaceId (ca_identity c))) = (Ok tt, files) ∧ (x = Ok reply ∨ x = Err R_Errno) ∨
  files = workspace_files a (mi_workspaceId (ca_identity c)) ∧ x = Err R_Errno →
  agent_inv (answered n c w x now later (set_workspace_files (mi_workspaceId (ca_identity c)) files a)).
Proof.
  intros Hinj Hsha I Hc Hp Hx. pose proof (iv_calls _ I n c Hc) as Hok. unfold call_ok in Hok. rewrite Hp in Hok.
  destruct Hok as [Hw (Hwr & Hi & Hst)].
  assert (w ≠ W_get ∧ ∃ reply receipt, ca_phase c = Storing w reply receipt) as Hph
    by (split; [by intros ->|eauto]).
  destruct Hx as [[Hwrite Hx]|[-> ->]].
  - destruct (write_ok a n c w reply r I Hsha Hc Hp) as (files' & Hwrite' & Hfs & Hfile).
    rewrite Hwrite in Hwrite'. injection Hwrite' as <-.
    eapply answered_inv; try done; [by right|]. destruct Hx as [-> | ->]; [|apply reply_ok_err].
    destruct w as [| | | |v|e]; cbn in Hst |- *; try done; [|by destruct Hst].
    destruct Hst as [-> _]. split; [by eexists _, _|done].
  - eapply answered_inv; try done; [|by right|apply reply_ok_err].
    assert (∀ ws, default ∅ (<[mi_workspaceId (ca_identity c) := workspace_files a (mi_workspaceId (ca_identity c))]>
      (ag_files a) !! ws) = workspace_files a ws) as Hsame.
    { intros ws. destruct (decide (ws = mi_workspaceId (ca_identity c))) as [->|?].
      - by rewrite lookup_insert_eq.
      - by rewrite lookup_insert_ne. }
    split; cbn.
    + intros i Hi'. unfold has_file. by rewrite Hsame.
    + intros ws path v. rewrite Hsame. apply I.
Qed.

(** [beforeReceipt] is over. *)
Lemma started_inv a n c : agent_inv a → ag_calls a !! n = Some c → ca_phase c = Starting →
  agent_inv (set_call n (started c) a).
Proof.
  intros I Hc Hp. unfold started. destruct (mutation_identity (ca_options c)) as [i|e] eqn:Ei.
  2: { apply move_quiet; try done; rewrite Hp; cbn; lia. }
  set (c' := Build_mutation_call _ i _). assert (set_call n c' a = moved a n c' (ag_files a) (ag_confirmations a) []) as ->
    by (unfold set_call, moved; by rewrite app_nil_r).
  apply moved_inv with c; [done|]. constructor; cbn; rewrite ?app_nil_r; try done; try (by intros ? ? ?%not_elem_of_nil);
    try (by intros ? ? ? ?%not_elem_of_nil); try apply I.
  - right. by rewrite Hp.
  - rewrite Hp. cbn. lia.
  - by intros j.
  - by intros (? & ? & ? & ?).
  - by intros (? & ? & ?).
Qed.

Lemma backend_step_inv a n c r : agent_inv a → ag_calls a !! n = Some c → ca_phase c = Running →
  agent_inv {| ag_files := ag_files a; ag_confirmations := ag_confirmations a;
               ag_calls := <[n := (backend_done n c r).1]> (ag_calls a); ag_log := ag_log a ++ (backend_done n c r).2 |}.
Proof.
  intros I Hc Hp. pose proof (iv_calls _ I n c Hc) as Hok. unfold call_ok in Hok. rewrite Hp in Hok.
  destruct Hok as [Hi Hb]. assert (stage (ca_phase c) = 3) as Hst by (by rewrite Hp).
  destruct (files_step_refl a I) as [Hg Hf].
  assert (∀ o ws path v, default ∅ (ag_files a !! ws) !! path = Some v → file_ok (ag_log a ++ option_list o) path v) as Hfo
    by (intros o ws path v Hv; eapply file_ok_app, Hf, Hv).
  assert (∀ e, call_move a n c (with_phase c (Queued (W_reconcile e))) (ag_files a) (ag_confirmations a) []) as Hrec.
  { intros e. step_event (None : option agent_event) (ag_confirmations a); [|done|by apply conf_quiet].
    split; [done|]. apply elem_of_app. by left. }
  eapply (moved_inv a n c); [done|]. unfold backend_done. destruct r as [x|]; [|apply Hrec].
  destruct (parse_result (ca_options c) x) as [v|e]; [|apply Hrec]. cbn [fst snd].
  step_event (Some (E_returned n (ca_identity c) v)) (ag_confirmations a); [|done|by apply conf_event].
  split; [done|]. split; apply elem_of_app; [by left|right; by left].
Qed.

(** A new call is checked when it waits for its precondition, and has returned otherwise. *)
Lemma begin_tool_phase t :
  (ca_phase (begin_tool t) = Starting ∧ checked (ca_options (begin_tool t))) ∨
  ∃ e, ca_phase (begin_tool t) = Returned (Err e).
Proof.
  unfold begin_tool, begin_call. destruct (tool_check t) as [[]|e] eqn:Ht; [|right; eauto].
  cbn. destruct (authorize (tool_options t)) as [[]|e] eqn:Ha; [left|right; eauto]. split; [done|]. by exists t.
Qed.

Lemma begin_step_inv a t : agent_inv a →
  agent_inv {| ag_files := ag_files a; ag_confirmations := ag_confirmations a;
               ag_calls := ag_calls a ++ [begin_tool t]; ag_log := ag_log a |}.
Proof.
  intros I. pose proof (begin_tool_phase t) as Hp. set (c0 := begin_tool t) in *.
  assert (∀ n c, (ag_calls a ++ [c0]) !! n = Some c → ag_calls a !! n = Some c ∨ c = c0) as Hl.
  { intros n c [?|[_ Hc]]%lookup_app_Some; [by left|right].
    by apply list_elem_of_lookup_2, list_elem_of_singleton in Hc. }
  assert (∀ w reply r, ca_phase c0 ≠ Storing w reply r) as Hns
    by (intros w reply r; by destruct Hp as [[-> _]|[e ->]]).
  assert (∀ n c, ag_calls a !! n = Some c → (ag_calls a ++ [c0]) !! n = Some c) as Hk
    by (intros; by apply lookup_app_l_Some).
  constructor; cbn [ag_files ag_confirmations ag_calls ag_log]; try apply I.
  - intros n c [Hc| ->]%Hl; [by apply I|]. unfold call_ok. by destruct Hp as [[-> _]|[e ->]].
  - intros n c [Hc| ->]%Hl; [by apply (iv_checked _ I n)|]. destruct Hp as [[_ Hp]|[e ->]]; [done|cbn; lia].
  - intros n m c c' Hc Hc' Hs Hs'.
    assert (∀ k x, (ag_calls a ++ [c0]) !! k = Some x → is_storing x → ag_calls a !! k = Some x) as Hold.
    { intros k x [?| ->]%Hl; [done|]. by intros (w & reply & r & ?%Hns). }
    apply (iv_exclusive _ I n m c c'); auto.
  - intros n c m i [Hc| ->]%Hl; [by apply (iv_reserving _ I n)|]. by intros (reply & r & ?%Hns).
  - intros n i He. destruct (iv_reserved _ I _ _ He) as (c & ? & ?). exists c. auto.
  - intros n i He. destruct (iv_backend _ I _ _ He) as (c & ? & ?). exists c. auto.
Qed.

(** A restart. *)
Lemma lose_phase c : ca_phase (lose c) = Lost ∨ ∃ r, ca_phase (lose c) = Returned r ∧ lose c = c.
Proof. unfold lose. destruct (ca_phase c) eqn:E; eauto. Qed.

Lemma lose_same c : ca_options (lose c) = ca_options c ∧ ca_identity (lose c) = ca_identity c.
Proof. unfold lose. by destruct (ca_phase c). Qed.

Lemma lose_stage c k : k ≤ 5 → k ≤ stage (ca_phase (lose c)).
Proof. destruct (lose_phase c) as [->|(r & -> & _)]; cbn; lia. Qed.

Lemma restart_step_inv a : agent_inv a →
  agent_inv {| ag_files := ag_files a;
               ag_confirmations := {| cr_pending := ∅; cr_ttlMs := cr_ttlMs (ag_confirmations a);
                                      cr_drawn := cr_drawn (ag_confirmations a) |};
               ag_calls := map lose (ag_calls a); ag_log := ag_log a |}.
Proof.
  intros I. assert (∀ n x, map lose (ag_calls a) !! n = Some x → ∃ c, ag_calls a !! n = Some c ∧ x = lose c) as Hl.
  { intros n x Hx. apply list_lookup_fmap_Some in Hx as (c & -> & ?). eauto. }
  assert (∀ n c, ag_calls a !! n = Some c → map lose (ag_calls a) !! n = Some (lose c)) as Hk
    by (intros n c Hc; apply list_lookup_fmap_Some; eauto).
  assert (∀ c, ~ is_storing (lose c)) as Hns.
  { intros c (w & reply & r & E). destruct (lose_phase c) as [E'|(x & E' & _)]; congruence. }
  constructor; cbn [ag_files ag_confirmations ag_calls ag_log]; try apply I.
  - intros n x (c & Hc & ->)%Hl. unfold call_ok. by destruct (lose_phase c) as [->|(r & -> & _)].
  - intros n x (c & Hc & ->)%Hl Hs. pose proof (lose_stage c 5). lia.
  - intros n m x x' (c & Hc & ->)%Hl _ Hs. by destruct (Hns c).
  - intros n x m i (c & Hc & ->)%Hl (reply & r & Hs). destruct (Hns c). by eexists _, _, _.
  - intros n i He. destruct (iv_reserved _ I _ _ He) as (c & Hc & _ & Hi & Hf). exists (lose c).
    destruct (lose_same c) as [_ ->]. split_and!; auto using lose_stage.
  - intros n i He. destruct (iv_backend _ I _ _ He) as (c & Hc & _ & Hi & Hm & Hau & Hcf & ?). exists (lose c).
    destruct (lose_same c) as [Eo Ei]. rewrite Eo, Ei. split_and!; auto using lose_stage; [|naive_solver..].
    by apply (confirmed_same n c).
  - destruct (iv_confirmations _ I) as [C1 C2 C3 C4 C5]. constructor; auto. intros id p. cbn. by rewrite lookup_empty.
Qed.

Lemma agent_step_inv a a' : Inj (=) (=) confirmation_id → Inj (=) (=) receipt_sha256 →
  agent_step a a' → agent_inv a → agent_inv a'.
Proof.
  intros Hinj Hsha Hs I. destruct Hs.
  - by apply begin_step_inv.
  - by apply started_inv.
  - apply move_quiet; try done; rewrite H1; cbn; lia.
  - by apply store_step_inv.
  - pose proof (iv_calls _ I n c H0) as Hok. unfold call_ok in Hok. rewrite H1 in Hok.
    eapply answered_inv; try done; [by apply files_step_refl|by left|apply reply_ok_err].
  - destruct (write_ok a n c w reply receipt I Hsha H0 H1) as (files' & Hw & _). rewrite Hw in H2. injection H2 as <- <-.
    apply write_step_inv with reply receipt; auto.
  - destruct (write_ok a n c w reply receipt I Hsha H0 H1) as (files' & Hw & _).
    apply write_step_inv with reply receipt; auto. rewrite Hw in H2. cbn in H2. destruct H2 as [->| ->]; auto.
  - by apply backend_step_inv.
  - by apply restart_step_inv.
Qed.

Lemma new_agent_inv : agent_inv new_agent.
Proof.
  constructor; cbn; try done; try (by intros ? ? ?%not_elem_of_nil); try (by intros ? ? ? ?%not_elem_of_nil).
  - by intros n m i i' ?%not_elem_of_nil.
  - constructor.
  - apply confirmations_ok_new.
Qed.

Lemma agent_reachable_inv a : Inj (=) (=) confirmation_id → Inj (=) (=) receipt_sha256 → agent_reachable a → agent_inv a.
Proof.
  intros Hinj Hsha Hr. revert a Hr. unfold agent_reachable. apply (rtc_ind_r agent_inv); [apply new_agent_inv|].
  intros a a' _ Hs I. by apply (agent_step_inv a a').
Qed.
End runs.
