(* ===== verification/SourceControlTheorems.v ===== *)
(** * SourceControlScenario: a push that is confirmed, executed and replayed

    A script runs calls one store operation at a time; what it reaches is reachable. *)

From S2P Require Import Prelude Text Confirmations MutationReceipts ReceiptStores SourceControl SourceControlProps SourceControlRuns.

Inductive script_line :=
| L_begin (t : tool_call)
| L_go (n : nat)
| L_restart.

Section script.
Context `{AgentHost}.

(** The branch ["topic"] is checked out and the backend answers with [null]. *)
Definition go (n : nat) (c : mutation_call) (a : agent) : agent :=
  match ca_phase c with
  | Starting =>
      match mo_beforeReceipt (ca_options c) (Some "topic"%string) with
      | Ok _ => set_call n (started c) a
      | Err e => set_call n (with_phase c (Returned (Err e))) a
      end
  | Queued w =>
      match parse_file (workspace_files a (mi_workspaceId (ca_identity c)) !!
              receiptPath (mi_idempotencyKey (ca_identity c))) ≫= store_body (ca_identity c) w with
      | Err e => answered n c w (Err e) 0 0 a
      | Ok (reply, None) => answered n c w (Ok reply) 0 0 a
      | Ok (reply, Some receipt) => set_call n (with_phase c (Storing w reply receipt)) a
      end
  | Storing w reply receipt =>
      let '(r, files) := writeReceipt receipt (workspace_files a (mi_workspaceId (ca_identity c))) in
      answered n c w (match r with Ok _ => Ok reply | Err e => Err e end) 0 0
        (set_workspace_files (mi_workspaceId (ca_identity c)) files a)
  | Running =>
      {| ag_files := ag_files a; ag_confirmations := ag_confirmations a;
         ag_calls := <[n := (backend_done n c (Some VNull)).1]> (ag_calls a);
         ag_log := ag_log a ++ (backend_done n c (Some VNull)).2 |}
  | Returned _ | Lost => a
  end.

Definition storing_call (c : mutation_call) : bool :=
  match ca_phase c with Storing _ _ _ => true | _ => false end.

(** A queued call goes on only while no call is writing. *)
Definition may_go (c : mutation_call) (a : agent) : bool :=
  match ca_phase c with Queued _ => negb (existsb storing_call (ag_calls a)) | _ => true end.

Fixpoint run_script (l : list script_line) (a : agent) : option agent :=
  match l with
  | [] => Some a
  | L_begin t :: l =>
      run_script l {| ag_files := ag_files a; ag_confirmations := ag_confirmations a;
                      ag_calls := ag_calls a ++ [begin_tool t]; ag_log := ag_log a |}
  | L_go n :: l =>
      match ag_calls a !! n with
      | Some c => if may_go c a then run_script l (go n c a) else None
      | None => None
      end
  | L_restart :: l =>
      run_script l {| ag_files := ag_files a;
                      ag_confirmations := {| cr_pending := ∅; cr_ttlMs := cr_ttlMs (ag_confirmations a);
                                             cr_drawn := cr_drawn (ag_confirmations a) |};
                      ag_calls := map lose (ag_calls a); ag_log := ag_log a |}
  end.

Lemma go_steps n c a : ag_calls a !! n = Some c → may_go c a = true → rtc agent_step a (go n c a).
Proof.
  intros Hc Hm. unfold go. destruct (ca_phase c) as [|w|w reply r| |r|] eqn:Hp; [..|by constructor|by constructor].
  - destruct (mo_beforeReceipt (ca_options c) _) as [[]|e] eqn:Hb; apply rtc_once.
    + by apply step_started with (Some "topic"%string).
    + by apply step_precondition with (Some "topic"%string).
  - apply rtc_once, step_store; [done..|]. intros m c' w' reply r Hc' Hp' _. unfold may_go in Hm. rewrite Hp in Hm.
    apply negb_true_iff, not_true_iff_false in Hm. apply Hm, existsb_exists. exists c'.
    split; [by eapply list_elem_of_In, list_elem_of_lookup_2|]. unfold storing_call. by rewrite Hp'.
  - destruct (writeReceipt _ _) as [x files] eqn:Hw. by eapply rtc_once, step_write.
  - by apply rtc_once, step_backend.
Qed.

Lemma run_script_reachable l a : run_script l new_agent = Some a → agent_reachable a.
Proof.
  assert (∀ a0, run_script l a0 = Some a → rtc agent_step a0 a) as Hall; [|apply Hall].
  induction l as [|[t|n|] l IH]; intros a0 Hr; cbn in Hr.
  - by injection Hr as ->.
  - eapply rtc_l; [apply step_begin|]. by apply IH.
  - destruct (ag_calls a0 !! n) as [c|] eqn:Hc; [|done]. destruct (may_go c a0) eqn:Hm; [|done].
    etransitivity; [by apply go_steps|]. by apply IH.
  - eapply rtc_l; [apply step_restart|]. by apply IH.
Qed.
End script.

(** ** The scenario *)

Definition demo_agent_host : AgentHost :=
  {| agent_receipts := {| receipt_sha256 := λ s, s |};
     agent_confirmations := {| confirmation_id := pretty |};
     agent_sha256 := λ _, "0000000000000000000000000000000000000000000000000000000000000000"%string;
     iso_date := pretty |}.
#[local] Existing Instance demo_agent_host.

Definition push_workspace : WorkspacePolicy :=
  {| wp_id := "ws"; wp_permissionProfile := "full-repo-write"; wp_confirmationMode := "standard";
     wp_sourceControl := Some {| sp_capabilities := ["git.remote.push"%string]; sp_accountOwners := [];
                                 sp_additionalRepositories := [] |} |}.

Definition push (input : json) (key : string) : tool_call :=
  {| tl_tool := T_gitPushBranch; tl_workspace := push_workspace; tl_input := input;
     tl_context := {| oc_idempotencyKey := Some key; oc_invocationId := None; oc_correlationId := None |};
     tl_resultSchema := Some; tl_origin := None; tl_supported := true |}.

Definition push_arguments : list (string * json) := [("branch"%string, JStr "topic")].
Definition push_confirmed : json := JObj (push_arguments ++ [("confirmationId"%string, JStr "0")]).

(** Call 0 asks, call 1 is confirmed and pushes, call 2 replays after a restart. *)
Definition push_script : list script_line :=
  [L_begin (push (JObj push_arguments) "ask"); L_go 0; L_go 0;
   L_begin (push push_confirmed "k"); L_go 1; L_go 1; L_go 1; L_go 1; L_go 1; L_go 1; L_go 1; L_go 1; L_go 1;
   L_restart;
   L_begin (push push_confirmed "k"); L_go 2; L_go 2; L_go 2].

Definition push_agent : agent := Eval vm_compute in default new_agent (run_script push_script new_agent).

Lemma push_agent_reachable : agent_reachable push_agent.
Proof. apply run_script_reachable with push_script. vm_cast_no_check (eq_refl (Some push_agent)). Qed.

Lemma push_receipt_sha_inj : Inj (=) (=) receipt_sha256.
Proof. by intros x y. Qed.

Lemma push_confirmation_id_inj : Inj (=) (=) confirmation_id.
Proof. exact pretty_nat_inj. Qed.

Definition push_identity : MutationReceiptIdentity :=
  Eval vm_compute in match mutation_identity (tool_options (push push_confirmed "k")) with Ok i => i | Err _ => no_identity end.

(** ** SourceControlTheorems: properties of source-control mutations

    The backend of a mutation is called at most once per idempotency key, only for an
    authorised and, where required, confirmed call; replays return what that call
    returned; the two receipt stores agree; confirmations are used once. *)


(** ** What a workspace policy grants *)


#[export] Instance mutation_tool_eq_dec : EqDecision mutation_tool.
Proof. solve_decision. Defined.





Section theorems.
Context `{AgentHost}.

(** C11: over every interleaving of calls, file-system failures and restarts, the backend is
    called at most once per workspace and idempotency key, white space around the key aside,
    and at most once by a call. *)
Theorem backend_at_most_once a :
  Inj (=) (=) confirmation_id → Inj (=) (=) receipt_sha256 → agent_reachable a →
  NoDup (backends_of (ag_log a)) ∧
  ∀ n m i i', E_backend n i ∈ ag_log a → E_backend m i' ∈ ag_log a →
    mi_workspaceId i = mi_workspaceId i' → trim (mi_idempotencyKey i) = trim (mi_idempotencyKey i') → n = m.
Proof.
  intros Hinj Hsha Hr. pose proof (agent_reachable_inv a Hinj Hsha Hr) as I. split; [apply I|].
  intros n m i i' Hn Hm Hw Hk. destruct (iv_backend _ I _ _ Hn) as (_ & _ & _ & _ & _ & _ & _ & Hrn & Ht).
  destruct (iv_backend _ I _ _ Hm) as (_ & _ & _ & _ & _ & _ & _ & Hrm & Ht').
  apply (iv_once _ I n m i i'); [done..|]. unfold trimmed_key in *. unfold store_key. congruence.
Qed.


(** a replayed call returns the result of the one backend call of its identity: the
    receipt it replays is completed, belongs to the identity of the call, and holds the public
    value of what the backend of a call with that identity returned. *)
Theorem replay_returns_backend_result a n i r :
  Inj (=) (=) confirmation_id → Inj (=) (=) receipt_sha256 → agent_reachable a →
  E_replayed n i r ∈ ag_log a →
  parse_identity i = Ok (mr_identity r) ∧
  ∃ m i' x v, E_backend m i' ∈ ag_log a ∧ E_returned m i' x ∈ ag_log a ∧ parse_identity i' = parse_identity i ∧
    public_value x = Some v ∧ mr_result r = Some v ∧ clean_result v = true.
Proof.
  intros Hinj Hsha Hr He. pose proof (agent_reachable_inv a Hinj Hsha Hr) as I.
  destruct (iv_replayed _ I _ _ _ He) as (Hi & Hs & Hb). split; [done|].
  destruct (Hb Hs) as (m & i' & x & v & Hret & Hi' & Hx & Hv). exists m, i', x, v.
  split_and!; [by apply (iv_returned _ I _ _ x)|done|congruence|done..|]. by apply public_value_clean in Hx as [? _].
Qed.

(** C35: on identities the schema accepts and keys without white space around them, the
    store in files and the store in memory give the same outcome for every sequence of calls,
    errors included. *)
Theorem receipt_stores_agree l :
  Inj (=) (=) receipt_sha256 → Forall acceptable l →
  outcomes file_call l (∅ : receipt_files) = outcomes memory_call l (∅ : Memory.store).
Proof.
  intros Hsha Hl. assert (∀ files receipts, mirrors files receipts →
    outcomes file_call l files = outcomes memory_call l receipts) as Hall; [|by apply Hall, mirrors_empty].
  induction Hl as [|c l Hc Hl IH]; intros files receipts Hm; [done|]. cbn [outcomes].
  destruct (file_call_agrees c files receipts Hsha Hc Hm) as [E Hm'].
  destruct (file_call c files) as [o files'], (memory_call c receipts) as [o' receipts']. cbn in *. subst. f_equal. by apply IH.
Qed.

(** The file store looks a receipt up under the key as it was given and writes it under the
    trimmed key: with white space around the key of a completed mutation, a reservation finds
    nothing, tells the caller to execute, and replaces the completed receipt. *)
Lemma untrimmed_key_resets_receipt files i r k :
  wf_identity i → trim k = mi_idempotencyKey i →
  files !! receiptPath k = None → files !! receiptPath (mi_idempotencyKey i) = Some (Some (json_of_receipt r)) →
  mr_state r = completed →
  let untrimmed := {| mi_workspaceId := mi_workspaceId i; mi_operation := mi_operation i;
    mi_targetResource := mi_targetResource i; mi_canonicalArgumentsDigest := mi_canonicalArgumentsDigest i;
    mi_idempotencyKey := k |} in
  let fresh := {| mr_identity := i; mr_state := reserved; mr_result := None |} in
  file_reserve untrimmed files =
    (Ok (d_execute, fresh), <[receiptPath (mi_idempotencyKey i) := Some (json_of_receipt fresh)]> files).
Proof.
  intros Hwf Hk Hno _ _ untrimmed fresh. assert (parse_identity untrimmed = Ok i) as Hp.
  { revert Hwf. unfold wf_identity, parse_identity. subst untrimmed. cbn [mi_workspaceId mi_operation mi_targetResource
      mi_canonicalArgumentsDigest mi_idempotencyKey].
    assert (trimmed_text (Some 512) k = trimmed_text (Some 512) (mi_idempotencyKey i)) as ->; [|done].
    unfold trimmed_text. by rewrite <- Hk, trim_idem. }
  assert (wf_receipt fresh) as Hw by (by apply wf_receipt_new).
  unfold file_reserve, file_transact, readReceipt. cbv [mbind io_bind gets pure].
  change (mi_idempotencyKey untrimmed) with k. rewrite Hno. cbn [parse_file].
  unfold reserve_body, reserveMutationReceipt. rewrite Hp. cbn [mret outcome_ret mbind outcome_bind fst snd].
  unfold writeReceipt. cbv [mbind io_bind pure modify]. change {| mr_identity := i; mr_state := reserved; mr_result := None |} with fresh.
  by rewrite (parse_receipt_of fresh Hw).
Qed.
End theorems.

(** C36: a receipt the parser accepts is well formed: its identity is trimmed and within its
    bounds, it has a result exactly when it is completed, the result holds no sensitive field
    at any depth, and writing the receipt and parsing it again gives the same receipt. *)
Theorem parsed_receipt_wellformed v r :
  parseMutationReceipt v = Ok r →
  parse_identity (mr_identity r) = Ok (mr_identity r) ∧ (mr_state r = completed ↔ is_Some (mr_result r)) ∧
  (∀ x, mr_result r = Some x → clean_result x = true) ∧ parseMutationReceipt (json_of_receipt r) = Ok r.
Proof.
  intros Hp%parse_receipt_wf. split_and!; [apply Hp|apply Hp..| |by apply parse_receipt_of].
  intros x Hx. by apply Hp in Hx as [? _].
Qed.

(** ** Confirmations *)

Section confirmations.
Context `{ConfirmationHost}.

(** A created confirmation is accepted once for its own binding until it expires. *)
Lemma typed_confirmation_accepts b now later id t s s1 now' later' :
  typed_create b now later s = (Ok (id, t), s1) → (now' < t)%Z → (later' < t)%Z →
  (typed_consume id b now' later' s1).1 = Ok tt.
Proof.
  unfold typed_create, typed_consume. destruct (parseBinding b) as [b'|e] eqn:Eb; [|done].
  apply parseBinding_Ok in Eb as ->. destruct (create_confirmation b now later s) as [r s'] eqn:Ec.
  intros [= -> ->] Hn Hl. unfold create_confirmation in Ec. injection Ec as <- <- <-.
  unfold consume_confirmation. cbn.
  rewrite (proj2 (map_lookup_filter_Some _ _ _ _)) by (rewrite lookup_insert_eq; split; [reflexivity|exact Hn]).
  cbn [pe_expiresAtMs pe_binding]. rewrite (proj2 (Z.leb_gt _ _)) by exact Hl.
  assert (sameTypedBinding b b = true) as ->; [|done].
  unfold sameTypedBinding, safeEqual. by rewrite !bool_decide_eq_true_2.
Qed.

(** The calls of the registry of command confirmations, with their results. *)
Inductive command_event :=
| C_created (b : CommandConfirmationBinding) (id : string) (expiresAtMs : Z)
| C_consumed (id : string) (b : CommandConfirmationBinding) (later : Z)
| C_refused (id : string) (b : CommandConfirmationBinding).

Inductive command_step : ConfirmationRegistry CommandConfirmationBinding * list command_event →
    ConfirmationRegistry CommandConfirmationBinding * list command_event → Prop :=
| command_step_create s l b now later id t s' :
    command_create b now later s = ((id, t), s') → command_step (s, l) (s', l ++ [C_created b id t])
| command_step_consume s l id b now later u s' :
    command_consume id b now later s = (Ok u, s') → command_step (s, l) (s', l ++ [C_consumed id b later])
| command_step_refuse s l id b now later e s' :
    command_consume id b now later s = (Err e, s') → command_step (s, l) (s', l ++ [C_refused id b]).

Definition commands_made (l : list command_event) : list (string * CommandConfirmationBinding * Z) :=
  omap (λ e, match e with C_created b id t => Some (id, b, t) | _ => None end) l.
Definition commands_used (l : list command_event) : list string :=
  omap (λ e, match e with C_consumed id _ _ => Some id | _ => None end) l.

(** What every history satisfies. *)
Definition commands_ok (w : ConfirmationRegistry CommandConfirmationBinding * list command_event) : Prop :=
  confirmations_ok w.1 (commands_made w.2) (commands_used w.2) ∧
  ∀ id b later, C_consumed id b later ∈ w.2 →
    ∃ b' t, (id, b', t) ∈ commands_made w.2 ∧ sameCommandBinding b' b = true ∧ (later < t)%Z.

Lemma command_step_ok w w' : Inj (=) (=) confirmation_id → command_step w w' → commands_ok w → commands_ok w'.
Proof.
  intros Hinj Hs [Hok Hc]. unfold commands_ok. destruct Hs as [s l b now later id t s' E|s l id b now later u s' E|s l id b now later e s' E];
    cbn [fst snd] in *; unfold commands_made, commands_used in *; rewrite !omap_app; cbn; rewrite ?app_nil_r.
  - split; [by eapply create_confirmation_ok|]. intros id' b' later' [Hin|Hin%list_elem_of_singleton]%elem_of_app; [|done].
    destruct (Hc _ _ _ Hin) as (x & y & ? & ?). exists x, y. rewrite elem_of_app. auto.
  - destruct (consume_confirmation_ok _ _ _ _ _ _ _ _ _ _ Hok E) as (_ & Hm & Hok'). split; [done|].
    intros id' b' later' [Hin|[= -> -> ->]%list_elem_of_singleton]%elem_of_app; [|done]. by apply Hc.
  - pose proof (consume_confirmation_ok _ _ _ _ _ _ _ _ _ _ Hok E) as Hok'. split; [done|].
    intros id' b' later' [Hin|Hin%list_elem_of_singleton]%elem_of_app; [|done]. by apply Hc.
Qed.

(** a confirmation of a shell command is accepted at most once, before it expires, and
    only for a command that matches the one it was created for in workspace, shell, directory,
    command text, context, operation, elevation and interactivity. *)
Theorem command_confirmation_single_use ttl s l :
  Inj (=) (=) confirmation_id → rtc command_step (new_CommandConfirmationRegistry ttl, []) (s, l) →
  NoDup (commands_used l) ∧
  ∀ id b later, C_consumed id b later ∈ l →
    ∃ b' t, C_created b' id t ∈ l ∧ (later < t)%Z ∧
      cb_workspaceId b' = cb_workspaceId b ∧ cb_shell b' = cb_shell b ∧ cb_cwd b' = cb_cwd b ∧
      cb_command b' = cb_command b ∧ cb_executionContext b' = cb_executionContext b ∧
      cb_operation b' = cb_operation b ∧ default false (cb_elevated b') = default false (cb_elevated b) ∧
      cb_interactive b' = cb_interactive b.
Proof.
  intros Hinj Hr. assert (∀ w, rtc command_step (new_CommandConfirmationRegistry ttl, []) w → commands_ok w) as Hall.
  { apply (rtc_ind_r commands_ok).
    - split; [apply confirmations_ok_new|]. by intros ??? ?%not_elem_of_nil.
    - intros w w' _ Hs. by apply command_step_ok. }
  destruct (Hall _ Hr) as [Hok Hc]. cbn in *. split; [apply Hok|]. intros id b later Hin.
  destruct (Hc _ _ _ Hin) as (b' & t & Hm & Hsame & Hlt). exists b', t. split.
  - apply list_elem_of_omap in Hm as (e & He & Heq). destruct e; by simplify_eq.
  - split; [done|]. unfold sameCommandBinding in Hsame.
    rewrite !andb_true_iff, !safeEqual_true, !bool_decide_eq_true, eqb_true_iff in Hsame. naive_solver.
Qed.
End confirmations.

(** ** The confirmation dialogue *)

(** The options of the repeated call: the same arguments with the confirmation. *)
Definition with_confirmation (o : mutation_options) (es : list (string * json)) (id : string)
    (context : OperationContext) : mutation_options :=
  {| mo_workspace := mo_workspace o; mo_operation := mo_operation o;
     mo_confirmableOperation := mo_confirmableOperation o; mo_requireConfirmation := mo_requireConfirmation o;
     mo_capability := mo_capability o; mo_repository := mo_repository o;
     mo_canonicalRepositoryAlreadyAuthorized := mo_canonicalRepositoryAlreadyAuthorized o;
     mo_accountOwner := mo_accountOwner o; mo_targetResource := mo_targetResource o;
     mo_input := JObj (es ++ [("confirmationId"%string, JStr id)]); mo_context := context;
     mo_beforeReceipt := mo_beforeReceipt o; mo_resultSchema := mo_resultSchema o |}.

Lemma remove_confirmation es v :
  removeEphemeralAndRejectSensitive (JObj (es ++ [("confirmationId"%string, v)])) =
  removeEphemeralAndRejectSensitive (JObj es).
Proof.
  cbn. f_equal. induction es as [|[k x] es IH]; [done|]. cbn [app].
  destruct (normalizeSensitiveKey k =? "confirmationid")%string; [exact IH|].
  destruct (isSensitiveFieldKey _); [done|]. destruct (removeEphemeralAndRejectSensitive x); [|done]. cbn. by rewrite IH.
Qed.

Lemma read_confirmation es id : "confirmationId"%string ∉ es.*1 → id ≠ ""%string →
  readConfirmationId (JObj es) = None ∧
  readConfirmationId (JObj (es ++ [("confirmationId"%string, JStr id)])) = Some id.
Proof.
  intros Hn Hid. unfold readConfirmationId. cbn [prop].
  assert (∀ l, (List.find (λ e : string * json, (e.1 =? "confirmationId")%string) (es ++ l)) =
    List.find (λ e : string * json, (e.1 =? "confirmationId")%string) l) as Hf.
  { intros l. induction es as [|[k x] es IH]; [done|]. cbn in Hn |- *. apply not_elem_of_cons in Hn as [Hk Hn].
    rewrite (proj2 (String.eqb_neq _ _)) by congruence. by apply IH. }
  split.
  - rewrite <- (app_nil_r es), Hf. done.
  - rewrite Hf. cbn. by rewrite bool_decide_eq_false_2.
Qed.

(** the confirmation dialogue closes.  A call that was answered with a confirmation,
    repeated with the same arguments and the confirmation before it expires, is accepted: it
    consumes the confirmation under the binding it was created for and goes on to reserve its
    receipt. *)
Theorem confirmation_dialogue_completes `{AgentHost} o es n m i i' context now later now' later' s s1 id b t p :
  id ≠ ""%string → mo_input o = JObj es → "confirmationId"%string ∉ es.*1 →
  mutation_identity o = Ok i → mutation_identity (with_confirmation o es id context) = Ok i' →
  confirm_call n {| ca_options := o; ca_identity := i; ca_phase := Queued W_get |} now later s =
    (p, s1, [E_created id b t]) →
  (now' < t)%Z → (later' < t)%Z →
  let c := {| ca_options := with_confirmation o es id context; ca_identity := i'; ca_phase := Queued W_get |} in
  (confirm_call m c now' later' s1).1.1 = Queued W_reserve ∧
  (confirm_call m c now' later' s1).2 = [E_consumed m id b].
Proof.
  intros Hid Hin Hn Hi Hi' Hc Hnow Hlater c. destruct (read_confirmation es id Hn Hid) as [Hnone Hsome].
  assert (mi_canonicalArgumentsDigest i' = mi_canonicalArgumentsDigest i) as Hdig.
  { revert Hi Hi'. unfold mutation_identity, canonicalSourceControlArgumentsDigest. rewrite Hin. cbn [with_confirmation mo_input].
    rewrite remove_confirmation. destruct (removeEphemeralAndRejectSensitive (JObj es)); [|done].
    cbn [mbind option_bind]. destruct (deriveSourceControlIdempotencyKey (JObj es) _); [|done].
    destruct (deriveSourceControlIdempotencyKey _ _); [|done]. by intros [= <-] [= <-]. }
  unfold confirm_call in Hc |- *. cbn [ca_options ca_identity c with_confirmation mo_confirmableOperation mo_input] in Hc |- *.
  destruct (mo_confirmableOperation o) as [operation|]; [|done]. rewrite Hin, Hnone in Hc. rewrite Hsome.
  case_bool_decide; [done|]. assert (confirmation_binding (with_confirmation o es id context) i' operation =
    confirmation_binding o i operation) as -> by (unfold confirmation_binding; cbn; by rewrite Hdig).
  destruct (typed_create _ _ _ _) as [[[id' t']|e] s'] eqn:Ec; [|done]. injection Hc as _ -> -> <- ->.
  pose proof (typed_confirmation_accepts _ _ _ _ _ _ _ now' later' Ec Hnow Hlater) as Ha.
  destruct (typed_consume _ _ _ _ _) as [r s2]. cbn in Ha. by subst r.
Qed.

(** ** Concrete instances *)

#[local] Existing Instance demo_agent_host.


Lemma backend_at_most_once_witness : NoDup (backends_of (ag_log push_agent)).
Proof. exact (proj1 (backend_at_most_once push_agent push_confirmation_id_inj push_receipt_sha_inj push_agent_reachable)). Defined.


Definition push_receipt : MutationReceipt :=
  {| mr_identity := push_identity; mr_state := completed; mr_result := Some JNull |}.

Lemma push_replayed : E_replayed 2 push_identity push_receipt ∈ ag_log push_agent.
Proof. apply (list_elem_of_lookup_2 _ 5). vm_compute. reflexivity. Qed.

Lemma replay_returns_backend_result_witness : parse_identity push_identity = Ok (mr_identity push_receipt).
Proof.
  exact (proj1 (replay_returns_backend_result push_agent 2 push_identity push_receipt push_confirmation_id_inj
    push_receipt_sha_inj push_agent_reachable push_replayed)).
Defined.

Definition store_script : list store_call :=
  [c_markExecuting push_identity; c_reserve push_identity; c_markExecuting push_identity; c_reserve push_identity;
   c_markCompleted push_identity VOther; c_markCompleted push_identity VNull; c_reserve push_identity; c_get "k"].

Lemma receipt_stores_agree_witness :
  outcomes file_call store_script (∅ : receipt_files) = outcomes memory_call store_script (∅ : Memory.store).
Proof.
  apply receipt_stores_agree; [exact push_receipt_sha_inj|].
  repeat constructor; try (exists push_identity); vm_compute; reflexivity.
Defined.

Lemma parsed_receipt_wellformed_witness : parseMutationReceipt (json_of_receipt push_receipt) = Ok push_receipt.
Proof.
  refine (proj2 (proj2 (proj2 (parsed_receipt_wellformed (json_of_receipt push_receipt) push_receipt _)))).
  vm_compute. reflexivity.
Defined.

Definition demo_command : CommandConfirmationBinding :=
  {| cb_workspaceId := "ws"; cb_shell := "bash"; cb_cwd := "."; cb_command := "rm x";
     cb_executionContext := foreground; cb_operation := "shell"; cb_elevated := None; cb_interactive := None |}.

Lemma command_confirmation_single_use_witness :
  NoDup (commands_used [C_created demo_command "0" 600001; C_consumed "0" demo_command 5]).
Proof.
  refine (proj1 (command_confirmation_single_use None
    (command_consume "0" demo_command 4 5 (command_create demo_command 0 1 (new_CommandConfirmationRegistry None)).2).2
    [C_created demo_command "0" 600001; C_consumed "0" demo_command 5] push_confirmation_id_inj _)).
  eapply rtc_l; [apply (command_step_create _ [] demo_command 0 1); vm_compute; reflexivity|].
  eapply rtc_l; [apply (command_step_consume _ [C_created demo_command "0" 600001] "0" demo_command 4 5 tt); vm_compute; reflexivity|].
  vm_compute. apply rtc_refl.
Defined.

Definition asked_registry : ConfirmationRegistry TypedConfirmationBinding :=
  {| cr_pending := ∅; cr_ttlMs := MAX_TYPED_CONFIRMATION_TTL_MS; cr_drawn := 0 |}.

Definition asking : mutation_options := tool_options (push (JObj push_arguments) "ask").
Definition asking_identity : MutationReceiptIdentity :=
  match mutation_identity asking with Ok i => i | Err _ => no_identity end.
Definition asked : call_phase * ConfirmationRegistry TypedConfirmationBinding * list agent_event :=
  confirm_call 0 {| ca_options := asking; ca_identity := asking_identity; ca_phase := Queued W_get |} 0 0 asked_registry.
Definition repeated : mutation_call :=
  {| ca_options := with_confirmation asking push_arguments "0" (tl_context (push push_confirmed "k"));
     ca_identity := push_identity; ca_phase := Queued W_get |}.

Lemma confirmation_dialogue_completes_witness : (confirm_call 1 repeated 5 6 asked.1.2).1.1 = Queued W_reserve.
Proof.
  refine (proj1 (confirmation_dialogue_completes asking push_arguments 0 1 asking_identity push_identity
    (tl_context (push push_confirmed "k")) 0 0 5 6 asked_registry asked.1.2 "0"
    (confirmation_binding asking asking_identity "git_push_branch") 600000 asked.1.1 _ _ _ _ _ _ _ _)).
  - discriminate.
  - reflexivity.
  - apply not_elem_of_cons. split; [discriminate|apply not_elem_of_nil].
  - vm_cast_no_check (eq_refl (Ok asking_identity : outcome call_error _)).
  - vm_cast_no_check (eq_refl (Ok push_identity : outcome call_error _)).
  - vm_cast_no_check (eq_refl asked).
  - reflexivity.
  - reflexivity.
Defined.
