(* ===== verification/BackgroundLogs.v ===== *)
(** * BackgroundLogs: reading the output of a background task in chunks

    [readLogChunk] and its helpers of
    services/workspace-agent/src/tasks/background-task-manager.ts.  A log is a list of
    bytes, [None] when the file does not exist; the content of a chunk is the bytes the
    code decodes.  A client reads a log by asking for the next offset until the end. *)

From S2P Require Import Prelude.

Ltac nat_cmp :=
  repeat match goal with
    | H : (_ <=? _) = true |- _ => apply Nat.leb_le in H
    | H : (_ <=? _) = false |- _ => apply Nat.leb_gt in H
    | H : (_ <? _) = true |- _ => apply Nat.ltb_lt in H
    | H : (_ <? _) = false |- _ => apply Nat.ltb_ge in H
    | H : (_ =? _) = true |- _ => apply Nat.eqb_eq in H
    | H : (_ =? _) = false |- _ => apply Nat.eqb_neq in H
    end.

Inductive log_error := OFFSET_BEYOND_END | OFFSET_NOT_ON_BOUNDARY.

Record log_chunk := {
  lc_content : list Z;
  lc_offset : nat;
  lc_nextOffset : nat;
  lc_totalBytes : nat;
  lc_eof : bool;
}.

Definition isUtf8ContinuationByte (value : Z) : bool := (Z.land value 192 =? 128)%Z.

(** [while (lead >= 0 && isUtf8ContinuationByte(buffer[lead])) lead -= 1] from [lead = n - 1] *)
Fixpoint find_lead (n : nat) (buffer : list Z) : option nat :=
  match n with
  | 0 => None
  | S m =>
      match buffer !! m with
      | Some b => if isUtf8ContinuationByte b then find_lead m buffer else Some m
      | None => None
      end
  end.

(** The length the lead byte announces. *)
Definition expected_length (first : Z) : nat :=
  if (Z.land first 128 =? 0)%Z then 1
  else if (Z.land first 224 =? 192)%Z then 2
  else if (Z.land first 240 =? 224)%Z then 3
  else if (Z.land first 248 =? 240)%Z then 4
  else 1.

Definition completeUtf8PrefixLength (buffer : list Z) : nat :=
  match find_lead (length buffer) buffer with
  | None => 0
  | Some lead =>
      match buffer !! lead with
      | Some first => if length buffer - lead <? expected_length first then lead else length buffer
      | None => 0
      end
  end.

Definition readLogChunk (file : option (list Z)) (offset maxBytes : nat) : outcome log_error log_chunk :=
  match file with
  | None => Ok {| lc_content := []; lc_offset := offset; lc_nextOffset := offset; lc_totalBytes := 0; lc_eof := true |}
  | Some bytes =>
      let totalBytes := length bytes in
      if totalBytes <? offset then Err OFFSET_BEYOND_END
      else if offset =? totalBytes then
        Ok {| lc_content := []; lc_offset := offset; lc_nextOffset := offset; lc_totalBytes := totalBytes; lc_eof := true |}
      else
        let readLength := Nat.min maxBytes (totalBytes - offset) in
        let selected := take readLength (drop offset bytes) in
        if match selected with b :: _ => isUtf8ContinuationByte b | [] => false end
        then Err OFFSET_NOT_ON_BOUNDARY
        else
          let safeLength := completeUtf8PrefixLength selected in
          let nextOffset := offset + safeLength in
          Ok {| lc_content := take safeLength selected; lc_offset := offset; lc_nextOffset := nextOffset;
                lc_totalBytes := totalBytes; lc_eof := totalBytes <=? nextOffset |}
  end.

Definition MAX_LOG_BYTES : Z := 1000000.

Record log_file := {
  lf_content : list Z;
  lf_totalBytes : nat;
  lf_truncated : bool;
}.

(** The end of a log. *)
Definition readLogFile (file : option (list Z)) (maxBytes : nat) : log_file :=
  match file with
  | None => {| lf_content := []; lf_totalBytes := 0; lf_truncated := false |}
  | Some value =>
      let totalBytes := length value in
      let truncated := maxBytes <? totalBytes in
      {| lf_content := if truncated then drop (totalBytes - maxBytes) value else value;
         lf_totalBytes := totalBytes; lf_truncated := truncated |}
  end.

(** The [effectiveMaxBytes] of [read_background_task_logs] *)
Definition effectiveMaxBytes (maxBytes : Z) : nat := Z.to_nat (Z.min (Z.max maxBytes 1) MAX_LOG_BYTES).

Lemma readLogFile_suffix file maxBytes value : file = Some value →
  lf_content (readLogFile file maxBytes) `suffix_of` value ∧
  length (lf_content (readLogFile file maxBytes)) = Nat.min maxBytes (length value).
Proof.
  intros ->. cbn. destruct (maxBytes <? length value) eqn:E; nat_cmp.
  - split; [apply suffix_drop|]. rewrite length_drop. lia.
  - split; [done|lia].
Qed.

(** A client that reads from [nextOffset] on, again and again; [files] is what each of its
    reads finds.  The result is what it has read and its next offset. *)
Fixpoint follow (files : list (list Z)) (offset maxBytes : nat) : outcome log_error (list (list Z) * nat) :=
  match files with
  | [] => Ok ([], offset)
  | file :: files =>
      chunk ← readLogChunk (Some file) offset maxBytes;
      rest ← follow files (lc_nextOffset chunk) maxBytes;
      Ok (lc_content chunk :: rest.1, rest.2)
  end.

(** ** Text *)

(** The bytes of one character: a lead byte and as many continuation bytes as it
    announces. *)
Definition utf8_char (c : list Z) : Prop :=
  match c with
  | [] => False
  | b :: cs => isUtf8ContinuationByte b = false ∧ length c = expected_length b ∧
      Forall (λ x, isUtf8ContinuationByte x = true) cs
  end.

Lemma expected_length_bounds b : 1 ≤ expected_length b ≤ 4.
Proof. unfold expected_length. repeat case_match; lia. Qed.

Lemma utf8_char_length c : utf8_char c → 1 ≤ length c ≤ 4.
Proof. destruct c as [|b c]; [done|]. intros (_ & -> & _). apply expected_length_bounds. Qed.

(** Behind a lead byte and continuation bytes, the lead byte is found. *)
Lemma find_lead_conts b cs n l :
  isUtf8ContinuationByte b = false → Forall (λ x, isUtf8ContinuationByte x = true) cs → n ≤ length cs →
  find_lead (S n) (b :: cs ++ l) = Some 0.
Proof.
  intros Hb Hcs. induction n as [|n IH]; intros Hn; [cbn; by rewrite Hb|]. cbn [find_lead].
  change ((b :: cs ++ l) !! S n) with ((cs ++ l) !! n). rewrite lookup_app_l by lia.
  destruct (lookup_lt_is_Some_2 cs n) as [x Hx]; [lia|]. rewrite Hx. rewrite Forall_lookup in Hcs. rewrite (Hcs n x Hx).
  apply IH. lia.
Qed.

Lemma find_lead_Some n l p : find_lead n l = Some p → is_Some (l !! p).
Proof. induction n as [|n IH]; [done|]. cbn. repeat case_match; naive_solver. Qed.

(** Behind [l], the search that starts inside a text with a lead byte ends inside it. *)
Lemma find_lead_app l b r n : isUtf8ContinuationByte b = false → n ≤ length r →
  ∃ p, find_lead (S n) (b :: r) = Some p ∧ find_lead (length l + S n) (l ++ b :: r) = Some (length l + p).
Proof.
  intros Hb. induction n as [|n IH]; intros Hn.
  - exists 0. rewrite Nat.add_1_r. cbn [find_lead]. rewrite list_lookup_middle by done. cbn. by rewrite Hb, Nat.add_0_r.
  - destruct (lookup_lt_is_Some_2 r n) as [x Hx]; [lia|].
    assert ((l ++ b :: r) !! (length l + S n) = Some x) as Hx'.
    { rewrite lookup_app_r, Nat.add_comm, Nat.add_sub by lia. done. }
    rewrite (Nat.add_succ_r _ (S n)). cbn [find_lead]. rewrite Hx'. change ((b :: r) !! S n) with (r !! n). rewrite Hx.
    destruct (isUtf8ContinuationByte x); [apply IH; lia|eauto].
Qed.

Lemma complete_app l b r : isUtf8ContinuationByte b = false →
  completeUtf8PrefixLength (l ++ b :: r) = length l + completeUtf8PrefixLength (b :: r).
Proof.
  intros Hb. unfold completeUtf8PrefixLength. rewrite length_app. cbn [length].
  destruct (find_lead_app l b r (length r) Hb) as (p & E1 & E2); [done|]. rewrite E1, E2.
  rewrite lookup_app_r, (Nat.add_comm (length l) p), Nat.add_sub by lia.
  destruct ((b :: r) !! p) as [first|] eqn:E; [|apply find_lead_Some in E1 as [? ?]; congruence].
  replace (length l + S (length r) - (p + length l)) with (S (length r) - p) by lia.
  case_match; lia.
Qed.

(** The characters that fit in [m] bytes. *)
Fixpoint whole (m : nat) (cs : list (list Z)) : list (list Z) :=
  match cs with
  | [] => []
  | c :: cs => if length c <=? m then c :: whole (m - length c) cs else []
  end.

Lemma whole_prefix m cs : ∃ k, whole m cs = take k cs.
Proof.
  revert m. induction cs as [|c cs IH]; intros m; [by exists 0|]. cbn. case_match; [|by exists 0].
  destruct (IH (m - length c)) as [k ->]. by exists (S k).
Qed.

Lemma complete_short b cs m : utf8_char (b :: cs) → m ≤ length cs → completeUtf8PrefixLength (take m (b :: cs)) = 0.
Proof.
  intros (Hb & Hl & Hcs) Hm. destruct m as [|m]; [done|]. cbn [take]. unfold completeUtf8PrefixLength. cbn [length].
  rewrite length_take_le by lia.
  rewrite <- (app_nil_r (take m cs)), (find_lead_conts b (take m cs) m []); [|done|by apply Forall_take|rewrite length_take; lia].
  cbn [length] in Hl. cbn [lookup list_lookup]. case_match; [done|].
  nat_cmp. lia.
Qed.

Lemma complete_char c : utf8_char c → completeUtf8PrefixLength c = length c.
Proof.
  destruct c as [|b cs]; [done|]. intros (Hb & Hl & Hcs). unfold completeUtf8PrefixLength. cbn [length].
  rewrite <- (app_nil_r cs) at 2. rewrite (find_lead_conts b cs (length cs) []) by done.
  cbn [length] in Hl. cbn [lookup list_lookup]. case_match; nat_cmp; lia.
Qed.

(** What a chunk keeps of a buffer cut anywhere is its whole characters. *)
Lemma complete_take m cs : Forall utf8_char cs →
  completeUtf8PrefixLength (take m (concat cs)) = length (concat (whole m cs)).
Proof.
  intros Hcs. revert m. induction Hcs as [|c cs Hc Hcs IH]; intros m; [by destruct m|]. cbn [concat whole].
  destruct (length c <=? m) eqn:E; nat_cmp.
  - rewrite take_app_ge by lia. cbn [concat]. rewrite length_app, <- IH.
    destruct (take (m - length c) (concat cs)) as [|b r] eqn:Et.
    + rewrite app_nil_r, complete_char by done. cbn. lia.
    + apply complete_app. destruct cs as [|[|b' c'] cs]; [by destruct (m - length c)|by inversion Hcs|].
      cbn in Et. destruct (m - length c); [done|]. cbn in Et. simplify_eq. by apply Forall_cons in Hcs as [(? & _) _].
  - rewrite take_app_le by lia. destruct c as [|b c]; [done|]. cbn in E. apply complete_short; [done|lia].
Qed.

(** ** A reader of a growing log *)

(** Where the first [k] characters of [cs] end. *)
Definition boundary (cs : list (list Z)) (k : nat) : nat := length (concat (take k cs)).

Lemma boundary_split (cs : list (list Z)) k : concat cs = concat (take k cs) ++ concat (drop k cs).
Proof. by rewrite <- concat_app, take_drop. Qed.

Lemma drop_boundary cs k : drop (boundary cs k) (concat cs) = concat (drop k cs).
Proof. rewrite (boundary_split cs k) at 1. apply drop_app_length. Qed.

Lemma take_boundary cs k : take (boundary cs k) (concat cs) = concat (take k cs).
Proof. rewrite (boundary_split cs k) at 1. apply take_app_length. Qed.

Lemma boundary_add cs k j : boundary cs (k + j) = boundary cs k + length (concat (take j (drop k cs))).
Proof. unfold boundary. by rewrite <- take_take_drop, concat_app, length_app. Qed.

Lemma boundary_le cs k : boundary cs k ≤ length (concat cs).
Proof. rewrite (boundary_split cs k), length_app. unfold boundary. lia. Qed.

Lemma whole_length m cs : length (concat (whole m cs)) ≤ m.
Proof.
  revert m. induction cs as [|c cs IH]; intros m; cbn; [lia|]. case_match; nat_cmp; cbn; [|lia].
  rewrite length_app. specialize (IH (m - length c)). lia.
Qed.

Lemma drop_take_boundary cs k n : drop (boundary cs k) (take n (concat cs)) = take (n - boundary cs k) (concat (drop k cs)).
Proof. by rewrite <- drop_boundary, skipn_firstn_comm. Qed.

(** Every text starts with a lead byte. *)
Lemma text_starts_with_lead m cs b r : Forall utf8_char cs → take m (concat cs) = b :: r → isUtf8ContinuationByte b = false.
Proof.
  intros Hcs. destruct m; [done|]. destruct cs as [|[|b' c] cs]; [done|by inversion Hcs|].
  apply Forall_cons in Hcs as [(Hb & _) _]. cbn. congruence.
Qed.

(** One read at a boundary of a log that holds the first [n] bytes of the text. *)
Lemma read_at_boundary cs k n maxBytes :
  Forall utf8_char cs → boundary cs k ≤ n → n ≤ length (concat cs) →
  ∃ chunk j, readLogChunk (Some (take n (concat cs))) (boundary cs k) maxBytes = Ok chunk ∧
    lc_nextOffset chunk = boundary cs (k + j) ∧ lc_content chunk = concat (take j (drop k cs)) ∧
    boundary cs (k + j) ≤ n ∧
    whole (Nat.min maxBytes (n - boundary cs k)) (drop k cs) = take j (drop k cs).
Proof.
  intros Hcs Hk Hn. set (m := Nat.min maxBytes (n - boundary cs k)). destruct (whole_prefix m (drop k cs)) as [j Hj].
  pose proof (whole_length m (drop k cs)) as Hlen. rewrite Hj in Hlen. unfold readLogChunk. rewrite length_take_le by done.
  rewrite (proj2 (Nat.ltb_ge _ _)) by done. destruct (boundary cs k =? n) eqn:E; nat_cmp.
  - eexists _, j. split; [done|]. cbn. rewrite boundary_add. subst n m. rewrite Nat.sub_diag, Nat.min_0_r in *.
    assert (concat (take j (drop k cs)) = []) as -> by (apply nil_length_inv; lia). cbn. split_and!; [lia|done|lia|done].
  - rewrite drop_take_boundary, take_take. fold m. rewrite (Nat.min_l m) by lia.
    assert (Forall utf8_char (drop k cs)) as Hd by by apply Forall_drop.
    destruct (take m (concat (drop k cs))) as [|b r] eqn:Et.
    + eexists _, j. split; [done|]. cbn. pose proof (complete_take m _ Hd) as Hc. rewrite Et, Hj in Hc. cbn in Hc.
      rewrite boundary_add, <- Hc. split_and!; [done| |lia|done]. symmetry. by apply nil_length_inv.
    + rewrite (text_starts_with_lead m _ b r Hd Et). rewrite <- Et, complete_take, Hj by done.
      eexists _, j. split; [done|]. cbn [lc_nextOffset lc_content]. rewrite boundary_add. split_and!; [done| |lia|done].
      rewrite take_take, Nat.min_l by lia. apply (take_boundary (drop k cs) j).
Qed.

(** When the next character is in the log, the read returns it. *)
Lemma whole_progress maxBytes n cs : Forall utf8_char cs → cs ≠ [] → 4 ≤ maxBytes → length (concat cs) ≤ n →
  whole (Nat.min maxBytes n) cs ≠ [].
Proof.
  intros Hcs Hne Hm Hn. destruct Hcs as [|c cs Hc Hcs]; [done|]. cbn in *. rewrite length_app in Hn.
  apply utf8_char_length in Hc. rewrite (proj2 (Nat.leb_le _ _)) by lia. done.
Qed.

Lemma follow_cons cs k n files maxBytes : Forall utf8_char cs → boundary cs k ≤ n → n ≤ length (concat cs) →
  ∃ j, follow (take n (concat cs) :: files) (boundary cs k) maxBytes =
    (rest ← follow files (boundary cs (k + j)) maxBytes; Ok (concat (take j (drop k cs)) :: rest.1, rest.2)) ∧
    boundary cs (k + j) ≤ n ∧ whole (Nat.min maxBytes (n - boundary cs k)) (drop k cs) = take j (drop k cs).
Proof.
  intros Hcs Hk Hn. destruct (read_at_boundary cs k n maxBytes Hcs Hk Hn) as (chunk & j & E & E1 & E2 & H). exists j.
  split; [|done]. cbn [follow]. rewrite E. cbn. by rewrite E1, E2.
Qed.

(** The rest of a complete log is read in as many reads as it has characters. *)
Lemma follow_complete cs k reads maxBytes : Forall utf8_char cs → 4 ≤ maxBytes → length cs ≤ k + reads →
  ∃ contents, follow (replicate reads (concat cs)) (boundary cs k) maxBytes = Ok (contents, length (concat cs)) ∧
    concat contents = concat (drop k cs).
Proof.
  intros Hcs Hm. revert k. induction reads as [|reads IH]; intros k Hk.
  - exists []. cbn. unfold boundary. rewrite take_ge, drop_ge by lia. done.
  - cbn [replicate].
    destruct (follow_cons cs k (length (concat cs)) (replicate reads (concat cs)) maxBytes) as (j & E & Hj & Hw); [done|apply boundary_le|done|].
    rewrite firstn_all in E. rewrite E.
    destruct (IH (k + j)) as (contents & E' & Hc).
    { destruct (decide (length cs ≤ k)); [lia|]. destruct j; [|lia]. exfalso.
      apply (whole_progress maxBytes (length (concat cs) - boundary cs k) (drop k cs)); [by apply Forall_drop| |done| |done].
      - intros Hd. apply (f_equal length) in Hd. rewrite length_drop in Hd. cbn in Hd. lia.
      - rewrite (boundary_split cs k), length_app. unfold boundary. lia. }
    rewrite E'. eexists. split; [done|]. cbn. by rewrite Hc, <- drop_drop, <- concat_app, take_drop.
Qed.

(** A reader of a log that grows by any amounts reads the text, exactly once each byte,
    in at most as many reads of the finished log as the text has characters. *)
Lemma follow_growing cs k sizes maxBytes : Forall utf8_char cs → 4 ≤ maxBytes →
  Sorted le (boundary cs k :: sizes) → Forall (λ n, n ≤ length (concat cs)) sizes →
  ∃ contents, follow (((λ n, take n (concat cs)) <$> sizes) ++ replicate (length cs) (concat cs)) (boundary cs k) maxBytes =
      Ok (contents, length (concat cs)) ∧ concat contents = concat (drop k cs).
Proof.
  intros Hcs Hm. revert k. induction sizes as [|n sizes IH]; intros k Hs Hle.
  - apply follow_complete; [done..|lia].
  - cbn [fmap list_fmap app]. inversion Hs as [|?? Hs1 Hs2]. inversion Hs2. inversion Hle. subst.
    destruct (follow_cons cs k n (((λ n, take n (concat cs)) <$> sizes) ++ replicate (length cs) (concat cs)) maxBytes)
      as (j & -> & Hj & _); [done..|].
    destruct (IH (k + j)) as (contents & -> & Hc); [|done|].
    { inversion Hs1 as [|?? Hs3 Hs4]. constructor; [done|]. destruct Hs4; constructor. lia. }
    eexists. split; [done|]. cbn. by rewrite Hc, <- drop_drop, <- concat_app, take_drop.
Qed.
