(* ===== verification/BackgroundTasks.v ===== *)
(** * BackgroundTasks: the manager of background tasks

    [BackgroundTaskManager] of services/workspace-agent/src/tasks/background-task-manager.ts,
    with the deadlines of packages/mcp-core/src/timeout-policy.ts.  A task is a record in
    the memory of the manager and in a file; its command runs in an execution.  Calls of
    clients, executions and file writes interleave: a step is the code between two
    [await]s of one of them, a report of the runner, or a restart of the process, which
    loses the calls, the executions and the writes under way and keeps the files.

    Times are milliseconds.  File operations succeed and records satisfy their schema;
    the contents of the logs are in [BackgroundLogs]. *)

From S2P Require Import Prelude Text JsMap.

(** [task_sha256] is the hex digest of node:crypto; [redact] is [redactSensitiveText] and
    [sanitize] is [sanitizeOperationDiagnostic], rewritings of texts. *)
Class TaskHost := {
  task_sha256 : string → string;
  redact : string → string;
  sanitize : string → string;
}.

(** ** Deadlines *)

Record OperationDeadline := {
  od_requestedTimeoutMs : Z;
  od_effectiveTimeoutMs : Z;
  od_deadlineAt : Z;
}.

Inductive OperationTerminalReason := timeout | reason_cancelled | client_disconnected | upstream_timeout | process_failed.
Inductive OperationTerminationLayer := child_process | background_task_manager | other_layer (name : string).

Record OperationLifecycle := {
  ol_deadline : OperationDeadline;
  ol_elapsedMs : Z;
  ol_terminated : option (OperationTerminationLayer * OperationTerminalReason);
  ol_diagnostic : option string;
}.

Definition MAX_BACKGROUND_OPERATION_TIMEOUT_MS : Z := 86400000.

Definition createOperationDeadline (requestedTimeoutMs : Z) (upstream : option OperationDeadline) (now : Z) :
    OperationDeadline :=
  let requested := Z.min (Z.max 1 requestedTimeoutMs) MAX_BACKGROUND_OPERATION_TIMEOUT_MS in
  let requestedDeadline := (now + requested)%Z in
  let deadline := match upstream with
                  | Some u => Z.min requestedDeadline (od_deadlineAt u)
                  | None => requestedDeadline
                  end in
  {| od_requestedTimeoutMs := match upstream with Some u => od_requestedTimeoutMs u | None => requested end;
     od_effectiveTimeoutMs := Z.max 0 (deadline - now);
     od_deadlineAt := deadline |}.

(** ** Records *)

Inductive BackgroundTaskState := starting | running | succeeded | failed | cancelled.

#[global] Instance task_state_eq_dec : EqDecision BackgroundTaskState.
Proof. solve_decision. Defined.

(** A [RunCommandResult] with status [executed]. *)
Record RunCommandResult := {
  rc_shell : string;
  rc_cwd : string;
  rc_exitCode : option Z;
  rc_stdout : string;
  rc_stderr : string;
  rc_timedOut : bool;
  rc_lifecycle : option OperationLifecycle;
}.

Record BackgroundTaskRecord := {
  tr_id : string;
  tr_workspaceId : string;
  tr_operation : string;
  tr_commandHash : string;
  tr_command : string;
  tr_shell : string;
  tr_cwd : string;
  tr_state : BackgroundTaskState;
  tr_createdAt : Z;
  tr_startedAt : option Z;
  tr_completedAt : option Z;
  tr_timeoutMs : Z;
  tr_interactive : bool;
  tr_pid : option Z;
  tr_result : option RunCommandResult;
  tr_error : option string;
  tr_lifecycle : option OperationLifecycle;
}.

Record PersistedBackgroundTaskRecord := {
  pr_task : BackgroundTaskRecord;
  pr_ownerScopeHash : option string;
}.

Definition ACTIVE_STATES (s : BackgroundTaskState) : bool := bool_decide (s = starting ∨ s = running).
Definition active (r : PersistedBackgroundTaskRecord) : bool := ACTIVE_STATES (tr_state (pr_task r)).
Definition pr_id (r : PersistedBackgroundTaskRecord) : string := tr_id (pr_task r).

Definition toPublicRecord : PersistedBackgroundTaskRecord → BackgroundTaskRecord := pr_task.

(** [{...record, state, startedAt}] *)
Definition mark_running (now : Z) (r : PersistedBackgroundTaskRecord) : PersistedBackgroundTaskRecord :=
  let t := pr_task r in
  {| pr_task := {| tr_id := tr_id t; tr_workspaceId := tr_workspaceId t; tr_operation := tr_operation t;
       tr_commandHash := tr_commandHash t; tr_command := tr_command t; tr_shell := tr_shell t; tr_cwd := tr_cwd t;
       tr_state := running; tr_createdAt := tr_createdAt t; tr_startedAt := Some now;
       tr_completedAt := tr_completedAt t; tr_timeoutMs := tr_timeoutMs t; tr_interactive := tr_interactive t;
       tr_pid := tr_pid t; tr_result := tr_result t; tr_error := tr_error t; tr_lifecycle := tr_lifecycle t |};
     pr_ownerScopeHash := pr_ownerScopeHash r |}.

(** [{...record, pid}] *)
Definition with_pid (pid : Z) (r : PersistedBackgroundTaskRecord) : PersistedBackgroundTaskRecord :=
  let t := pr_task r in
  {| pr_task := {| tr_id := tr_id t; tr_workspaceId := tr_workspaceId t; tr_operation := tr_operation t;
       tr_commandHash := tr_commandHash t; tr_command := tr_command t; tr_shell := tr_shell t; tr_cwd := tr_cwd t;
       tr_state := tr_state t; tr_createdAt := tr_createdAt t; tr_startedAt := tr_startedAt t;
       tr_completedAt := tr_completedAt t; tr_timeoutMs := tr_timeoutMs t; tr_interactive := tr_interactive t;
       tr_pid := Some pid; tr_result := tr_result t; tr_error := tr_error t; tr_lifecycle := tr_lifecycle t |};
     pr_ownerScopeHash := pr_ownerScopeHash r |}.

(** [{...record, state, completedAt, result, error, lifecycle}] *)
Definition complete (s : BackgroundTaskState) (completedAt : Z) (result : option RunCommandResult)
    (error : option string) (lifecycle : OperationLifecycle) (r : PersistedBackgroundTaskRecord) :
    PersistedBackgroundTaskRecord :=
  let t := pr_task r in
  {| pr_task := {| tr_id := tr_id t; tr_workspaceId := tr_workspaceId t; tr_operation := tr_operation t;
       tr_commandHash := tr_commandHash t; tr_command := tr_command t; tr_shell := tr_shell t; tr_cwd := tr_cwd t;
       tr_state := s; tr_createdAt := tr_createdAt t; tr_startedAt := tr_startedAt t;
       tr_completedAt := Some completedAt; tr_timeoutMs := tr_timeoutMs t; tr_interactive := tr_interactive t;
       tr_pid := tr_pid t; tr_result := result; tr_error := error; tr_lifecycle := Some lifecycle |};
     pr_ownerScopeHash := pr_ownerScopeHash r |}.

Definition taskStartedAt (r : PersistedBackgroundTaskRecord) : Z :=
  default (tr_createdAt (pr_task r)) (tr_startedAt (pr_task r)).

Definition deadlineForTask (r : PersistedBackgroundTaskRecord) : OperationDeadline :=
  createOperationDeadline (tr_timeoutMs (pr_task r)) None (taskStartedAt r).

Definition terminalRecordTime (r : PersistedBackgroundTaskRecord) : Z :=
  default (tr_createdAt (pr_task r)) (tr_completedAt (pr_task r)).

Section records.
Context `{TaskHost}.

Definition createOperationLifecycle (deadline : OperationDeadline) (startedAt : Z)
    (terminal : option (OperationTerminationLayer * OperationTerminalReason * string)) (now : Z) : OperationLifecycle :=
  {| ol_deadline := deadline; ol_elapsedMs := Z.max 0 (now - startedAt);
     ol_terminated := fst <$> terminal; ol_diagnostic := sanitize ∘ snd <$> terminal |}.

Definition task_lifecycle (r : PersistedBackgroundTaskRecord)
    (terminal : option (OperationTerminationLayer * OperationTerminalReason * string)) (now : Z) : OperationLifecycle :=
  createOperationLifecycle (deadlineForTask r) (taskStartedAt r) terminal now.

Definition hashOwnerScope (ownerScope : option string) : option string := task_sha256 <$> ownerScope.

Definition canAccessRecord (r : PersistedBackgroundTaskRecord) (ownerScope : option string) : bool :=
  bool_decide (pr_ownerScopeHash r = hashOwnerScope ownerScope).

(** The parsed input of a start. *)
Record StartBackgroundTaskInput := {
  si_workspaceId : string;
  si_operation : string;
  si_command : string;
  si_shell : string;
  si_cwd : option string;
  si_interactive : bool;
  si_timeoutMs : Z;
}.

Definition start_cwd (i : StartBackgroundTaskInput) : string := default "."%string (si_cwd i).

(** The [commandHash] of [normalizeStartInput] *)
Definition commandHash (i : StartBackgroundTaskInput) : string :=
  task_sha256 (json_stringify (JObj [("workspaceId", JStr (si_workspaceId i)); ("shell", JStr (si_shell i));
    ("cwd", JStr (start_cwd i)); ("command", JStr (si_command i)); ("interactive", JBool (si_interactive i))]%string)).

Definition start_record (id : string) (ownerScope : option string) (now : Z) (i : StartBackgroundTaskInput) :
    PersistedBackgroundTaskRecord :=
  {| pr_task := {| tr_id := id; tr_workspaceId := si_workspaceId i; tr_operation := si_operation i;
       tr_commandHash := commandHash i; tr_command := redact (si_command i); tr_shell := si_shell i;
       tr_cwd := start_cwd i; tr_state := starting; tr_createdAt := now; tr_startedAt := None;
       tr_completedAt := None; tr_timeoutMs := si_timeoutMs i; tr_interactive := si_interactive i;
       tr_pid := None; tr_result := None; tr_error := None; tr_lifecycle := None |};
     pr_ownerScopeHash := hashOwnerScope ownerScope |}.

(** The record [cancel_background_task] persists. *)
Definition cancelled_record (now : Z) (r : PersistedBackgroundTaskRecord) : PersistedBackgroundTaskRecord :=
  complete cancelled now (tr_result (pr_task r)) (tr_error (pr_task r))
    (task_lifecycle r (Some (background_task_manager, reason_cancelled,
       "The persisted background task was explicitly cancelled."%string)) now) r.

(** The record [refreshRecoveredTask] persists. *)
Definition interrupted_record (now : Z) (r : PersistedBackgroundTaskRecord) : PersistedBackgroundTaskRecord :=
  let completedAt := default now (tr_completedAt (pr_task r)) in
  complete failed completedAt (tr_result (pr_task r))
    (or_else (tr_error (pr_task r)) (Some "Background task was interrupted before Agent recovery."%string))
    (default (task_lifecycle r (Some (background_task_manager, process_failed,
       "The Agent recovered a persisted active task without a live owned process."%string)) completedAt)
       (tr_lifecycle (pr_task r))) r.

Definition sanitizeRunCommandResult (r : RunCommandResult) : RunCommandResult :=
  {| rc_shell := rc_shell r; rc_cwd := rc_cwd r; rc_exitCode := rc_exitCode r; rc_stdout := redact (rc_stdout r);
     rc_stderr := redact (rc_stderr r); rc_timedOut := rc_timedOut r; rc_lifecycle := rc_lifecycle r |}.

Definition run_succeeded (result : RunCommandResult) : bool :=
  bool_decide (rc_exitCode result = Some 0%Z) && negb (rc_timedOut result).

(** The record of an execution whose runner returned. *)
Definition finished_record (now : Z) (result : RunCommandResult) (r : PersistedBackgroundTaskRecord) :
    PersistedBackgroundTaskRecord :=
  complete (if run_succeeded result then succeeded else failed) now (Some result) (tr_error (pr_task r))
    (default
       (task_lifecycle r
         (if run_succeeded result then None
          else Some (child_process, if rc_timedOut result then timeout else process_failed,
                     if rc_timedOut result
                     then "The background child process exceeded its configured timeout."%string
                     else "The background child process exited unsuccessfully."%string)) now)
       (rc_lifecycle result)) r.

(** The record of an execution that threw. *)
Definition failed_record (now : Z) (message : string) (lifecycle : option OperationLifecycle)
    (r : PersistedBackgroundTaskRecord) : PersistedBackgroundTaskRecord :=
  complete failed now (tr_result (pr_task r)) (Some (redact message))
    (default
       (task_lifecycle r (Some (background_task_manager, process_failed,
         "The background task runner failed before producing a valid result."%string)) now)
       lifecycle) r.

(** ** Retention *)

Definition retention_victims (retentionMs : Z) (maxRetained : nat) (now : Z)
    (records : list PersistedBackgroundTaskRecord) : list string :=
  let terminalRecords := List.filter (λ r, negb (active r)) records in
  let expired r := (retentionMs <? now - terminalRecordTime r)%Z in
  let expiredIds := map pr_id (List.filter expired terminalRecords) in
  let retainedByAge := order_by (λ l r, (terminalRecordTime r <=? terminalRecordTime l)%Z)
    (List.filter (λ r, negb (bool_decide (pr_id r ∈ expiredIds))) terminalRecords) in
  expiredIds ++ map pr_id (drop maxRetained retainedByAge).
End records.

(** ** The manager *)

Notation task := PersistedBackgroundTaskRecord.

(** Who goes on when a write is done: a start, which then runs the command; the execution
    of the task; a cancellation, with the process of the record it found; or nobody. *)
Inductive write_owner :=
| By_start (call : nat) (command : string)
| By_execution
| By_cancel (call : nat) (pid : option Z)
| By_other.

Record task_write := {
  w_ticket : nat;
  w_owner : write_owner;
  w_record : task;
}.

(** What the runner ends with: a result, the request for a confirmation, an error. *)
Inductive runner_outcome :=
| Executed (result : RunCommandResult)
| Confirmation_required
| Threw (message : string) (lifecycle : option OperationLifecycle).

(** Where an execution is: it persists the running task, runs the command, reads the
    latest record after the write [tail] was done, persists the result, persists the final
    record.  The record is the variable [current]. *)
Inductive execution :=
| X_marking (current : task) (command : string)
| X_running (current : task)
| X_ended (current : task) (o : runner_outcome) (tail : option nat)
| X_saving (current : task)
| X_final (current : task).

Inductive request :=
| Start (input : StartBackgroundTaskInput)
| Get (id : string)
| ListTasks (workspaceId : option string) (state : option BackgroundTaskState)
| Cancel (id : string)
| Stdin (id : string) (input : string) (close : bool).

Inductive task_reply :=
| R_task (t : option BackgroundTaskRecord)
| R_tasks (ts : list BackgroundTaskRecord)
| R_stdin (t : option BackgroundTaskRecord)
| R_execution_state_invalid.

(** A write of a task somebody waits for. *)
Notation awaited := (list (string * nat)).

(** A lookup is the first of a call or the one after a cancellation or an input, with the
    record to answer with when there is none. *)
Inductive lookup_kind := First_lookup | Last_lookup (fallback : option task).

Inductive task_phase :=
| P_queued
| P_lookup (k : lookup_kind) (aw : awaited)
| P_refreshed (k : lookup_kind) (found : list task) (aw : awaited)
| P_pruning (victims : list string)
| P_starting (r : task)
| P_cancelling (cancelledRecord : task)
| P_aborted (cancelledRecord : task)
| P_terminating (cancelledRecord : task)
| P_stdin
| P_returned (r : task_reply)
| P_lost.

Record task_call := {
  tc_request : request;
  tc_scope : option string;
  tc_phase : task_phase;
}.

(** What happened, for the statements about histories. *)
Inductive task_event :=
| E_created (r : task)
| E_launched (id command : string)
| E_finished (id : string) (s : BackgroundTaskState)
| E_cancelled (call : nat) (id : string)
| E_terminated (pid : Z)
| E_stdin (call : nat) (id input : string).

Definition created_ids (l : list task_event) : list string :=
  omap (λ e, match e with E_created r => Some (pr_id r) | _ => None end) l.

Record manager := {
  m_files : gmap string task;
  m_results : gmap string RunCommandResult;
  m_records : @jsmap task;
  m_writes : gmap string (list task_write);
  m_ticket : nat;
  m_executions : gmap string execution;
  m_controllers : gmap string bool;
  m_stdin : gmap string bool;
  m_startQueue : list nat;
  m_calls : list task_call;
  m_log : list task_event;
}.

Definition writes_of (id : string) (m : manager) : list task_write := default [] (m_writes m !! id).

(** [this.writes.get(id)]: the last write under way. *)
Definition tail_write (id : string) (m : manager) : option nat := w_ticket <$> last (writes_of id m).
Definition await_tail (id : string) (m : manager) : awaited :=
  match tail_write id m with Some t => [(id, t)] | None => [] end.
(** [this.writes.values()] *)
Definition await_all (m : manager) : awaited := map_to_list (m_writes m) ≫= λ e, await_tail e.1 m.

Definition write_done (m : manager) (e : string * nat) : bool := negb (bool_decide (e.2 ∈ map w_ticket (writes_of e.1 m))).
Definition writes_done (m : manager) (aw : awaited) : bool := forallb (write_done m) aw.

Definition log_event (e : task_event) (m : manager) : manager :=
  {| m_files := m_files m; m_results := m_results m; m_records := m_records m; m_writes := m_writes m;
     m_ticket := m_ticket m; m_executions := m_executions m;
     m_controllers := m_controllers m; m_stdin := m_stdin m; m_startQueue := m_startQueue m;
     m_calls := m_calls m; m_log := m_log m ++ [e] |}.

Definition set_phase (n : nat) (p : task_phase) (m : manager) : manager :=
  {| m_files := m_files m; m_results := m_results m; m_records := m_records m; m_writes := m_writes m;
     m_ticket := m_ticket m; m_executions := m_executions m;
     m_controllers := m_controllers m; m_stdin := m_stdin m; m_startQueue := m_startQueue m;
     m_calls := alter (λ c, {| tc_request := tc_request c; tc_scope := tc_scope c; tc_phase := p |}) n (m_calls m);
     m_log := m_log m |}.

(** [persist] up to its [await]: the write is chained behind those of the task. *)
Definition persist (o : write_owner) (r : task) (m : manager) : manager :=
  {| m_files := m_files m; m_results := m_results m; m_records := m_records m;
     m_writes := <[pr_id r := writes_of (pr_id r) m ++ [{| w_ticket := m_ticket m; w_owner := o; w_record := r |}]]> (m_writes m);
     m_ticket := S (m_ticket m); m_executions := m_executions m;
     m_controllers := m_controllers m; m_stdin := m_stdin m; m_startQueue := m_startQueue m;
     m_calls := m_calls m; m_log := m_log m |}.

Definition set_execution (id : string) (x : execution) (m : manager) : manager :=
  {| m_files := m_files m; m_results := m_results m; m_records := m_records m; m_writes := m_writes m;
     m_ticket := m_ticket m; m_executions := <[id := x]> (m_executions m);
     m_controllers := m_controllers m; m_stdin := m_stdin m; m_startQueue := m_startQueue m;
     m_calls := m_calls m; m_log := m_log m |}.

(** The end of an execution: the [finally] of [execute] and of its promise. *)
Definition end_execution (id : string) (m : manager) : manager :=
  {| m_files := m_files m; m_results := m_results m; m_records := m_records m; m_writes := m_writes m;
     m_ticket := m_ticket m; m_executions := delete id (m_executions m);
     m_controllers := delete id (m_controllers m); m_stdin := delete id (m_stdin m); m_startQueue := m_startQueue m;
     m_calls := m_calls m; m_log := m_log m |}.

(** [releaseQueue()] *)
Definition release_queue (m : manager) : manager :=
  {| m_files := m_files m; m_results := m_results m; m_records := m_records m; m_writes := m_writes m;
     m_ticket := m_ticket m; m_executions := m_executions m;
     m_controllers := m_controllers m; m_stdin := m_stdin m; m_startQueue := tail (m_startQueue m);
     m_calls := m_calls m; m_log := m_log m |}.

(** The first part of a write that is done: the file and the map hold its record. *)
Definition store_record (r : task) (ws : list task_write) (m : manager) : manager :=
  {| m_files := <[pr_id r := r]> (m_files m); m_results := m_results m;
     m_records := jset (pr_id r) r (m_records m); m_writes := <[pr_id r := ws]> (m_writes m);
     m_ticket := m_ticket m; m_executions := m_executions m;
     m_controllers := m_controllers m; m_stdin := m_stdin m; m_startQueue := m_startQueue m;
     m_calls := m_calls m; m_log := m_log m |}.

(** [removeTaskArtifacts] *)
Definition removeTaskArtifacts (id : string) (m : manager) : manager :=
  {| m_files := delete id (m_files m); m_results := delete id (m_results m);
     m_records := jdelete id (m_records m); m_writes := m_writes m;
     m_ticket := m_ticket m; m_executions := m_executions m;
     m_controllers := m_controllers m; m_stdin := m_stdin m; m_startQueue := m_startQueue m;
     m_calls := m_calls m; m_log := m_log m |}.

Definition abort_controller (id : string) (m : manager) : manager :=
  {| m_files := m_files m; m_results := m_results m; m_records := m_records m; m_writes := m_writes m;
     m_ticket := m_ticket m; m_executions := m_executions m;
     m_controllers := <[id := true]> (m_controllers m); m_stdin := m_stdin m; m_startQueue := m_startQueue m;
     m_calls := m_calls m; m_log := m_log m |}.

Definition set_stdin (id : string) (closed : bool) (m : manager) : manager :=
  {| m_files := m_files m; m_results := m_results m; m_records := m_records m; m_writes := m_writes m;
     m_ticket := m_ticket m; m_executions := m_executions m;
     m_controllers := m_controllers m; m_stdin := <[id := closed]> (m_stdin m); m_startQueue := m_startQueue m;
     m_calls := m_calls m; m_log := m_log m |}.

Definition persistResult (id : string) (result : option RunCommandResult) (m : manager) : manager :=
  {| m_files := m_files m;
     m_results := match result with Some r => <[id := r]> (m_results m) | None => m_results m end;
     m_records := m_records m; m_writes := m_writes m; m_ticket := m_ticket m; m_executions := m_executions m;
     m_controllers := m_controllers m; m_stdin := m_stdin m; m_startQueue := m_startQueue m;
     m_calls := m_calls m; m_log := m_log m |}.

Definition set_controller (id : string) (m : manager) : manager :=
  {| m_files := m_files m; m_results := m_results m; m_records := m_records m; m_writes := m_writes m;
     m_ticket := m_ticket m; m_executions := m_executions m;
     m_controllers := <[id := false]> (m_controllers m); m_stdin := m_stdin m; m_startQueue := m_startQueue m;
     m_calls := m_calls m; m_log := m_log m |}.

Definition add_call (c : task_call) (queued : list nat) (m : manager) : manager :=
  {| m_files := m_files m; m_results := m_results m; m_records := m_records m; m_writes := m_writes m;
     m_ticket := m_ticket m; m_executions := m_executions m;
     m_controllers := m_controllers m; m_stdin := m_stdin m; m_startQueue := m_startQueue m ++ queued;
     m_calls := m_calls m ++ [c]; m_log := m_log m |}.

Record manager_options := {
  terminalRetentionMs : Z;
  maxRetainedTerminalTasks : nat;
}.

(** The steps.  [alive] is [processExists]. *)
Inductive task_label :=
| L_begin (r : request) (scope : option string)
| L_turn (n : nat)
| L_continue (n : nat) (now : Z) (alive : Z → bool)
| L_create (n : nat) (id : string) (now : Z)
| L_write (id : string) (now : Z)
| L_pid (id : string) (pid : Z)
| L_stdin_control (id : string)
| L_ended (id : string) (o : runner_outcome)
| L_decide (id : string) (now : Z)
| L_saved (id : string)
| L_save_failed (id message : string)
| L_restart (now : Z).

Section manager.
Context `{TaskHost} (options : manager_options).

Definition begin_task_call (r : request) (scope : option string) (m : manager) : manager :=
  let call p := {| tc_request := r; tc_scope := scope; tc_phase := p |} in
  match r with
  | Start _ => add_call (call P_queued) [length (m_calls m)] m
  | Get id | Cancel id | Stdin id _ _ => add_call (call (P_lookup First_lookup (await_tail id m))) [] m
  | ListTasks _ _ => add_call (call (P_lookup First_lookup (await_all m))) [] m
  end.

Definition refreshRecoveredTask (now : Z) (alive : Z → bool) (r : task) (m : manager) : task * awaited * manager :=
  if negb (active r) || bool_decide (is_Some (m_executions m !! pr_id r)) ||
     bool_decide (is_Some (m_controllers m !! pr_id r))
  then (r, [], m)
  else if match tr_pid (pr_task r) with Some pid => alive pid | None => false end then (r, [], m)
  else let interrupted := interrupted_record now r in
       (interrupted, [(pr_id r, m_ticket m)], persist By_other interrupted m).

(** [Promise.all(records.map((record) => this.refreshRecoveredTask(record)))] *)
Fixpoint refresh_all (now : Z) (alive : Z → bool) (rs : list task) (m : manager) : list task * awaited * manager :=
  match rs with
  | [] => ([], [], m)
  | r :: rs =>
      let '(r', aw, m1) := refreshRecoveredTask now alive r m in
      let '(rs', aw', m2) := refresh_all now alive rs m1 in
      (r' :: rs', aw ++ aw', m2)
  end.

(** The records a lookup of the call selects. *)
Definition selected_records (c : task_call) (m : manager) : list task :=
  match tc_request c with
  | Start _ | ListTasks _ _ => List.filter (λ r, canAccessRecord r (tc_scope c)) (map snd (m_records m))
  | Get id | Cancel id | Stdin id _ _ =>
      List.filter (λ r, canAccessRecord r (tc_scope c)) (option_list (jget id (m_records m)))
  end.

(** The filters and the order of [list_background_tasks]. *)
Definition list_records (workspaceId : option string) (state : option BackgroundTaskState) (rs : list task) : list task :=
  order_by (λ l r, (tr_createdAt (pr_task r) <=? tr_createdAt (pr_task l))%Z)
    (List.filter (λ r, bool_decide (state = None ∨ state = Some (tr_state (pr_task r))))
      (List.filter (λ r, bool_decide (workspaceId = None ∨ workspaceId = Some (tr_workspaceId (pr_task r)))) rs)).

Definition find_duplicate (i : StartBackgroundTaskInput) (rs : list task) : option task :=
  List.find (λ r, bool_decide (tr_commandHash (pr_task r) = commandHash i) && active r)
    (list_records (Some (si_workspaceId i)) None rs).

(** [start_background_task] after [list_background_tasks] *)
Definition start_listed (n : nat) (i : StartBackgroundTaskInput) (now : Z) (rs : list task) (m : manager) : manager :=
  match find_duplicate i rs with
  | Some d => release_queue (set_phase n (P_returned (R_task (Some (toPublicRecord d)))) m)
  | None => set_phase n (P_pruning (retention_victims (terminalRetentionMs options)
              (maxRetainedTerminalTasks options) now (map snd (m_records m)))) m
  end.

(** [cancel_background_task] after [getAccessibleRecord] *)
Definition cancel_found (n : nat) (now : Z) (rs : list task) (m : manager) : manager :=
  match rs with
  | [] => set_phase n (P_returned (R_task None)) m
  | r :: _ =>
      if active r then
        let cancelledRecord := cancelled_record now r in
        log_event (E_cancelled n (pr_id r))
          (persist (By_cancel n (tr_pid (pr_task r))) cancelledRecord (set_phase n (P_cancelling cancelledRecord) m))
      else set_phase n (P_returned (R_task (Some (toPublicRecord r)))) m
  end.

(** [write_background_task_stdin] after [getAccessibleRecord], up to the next lookup *)
Definition stdin_found (n : nat) (input : string) (close : bool) (rs : list task) (m : manager) : manager :=
  match rs with
  | [] => set_phase n (P_returned (R_stdin None)) m
  | r :: _ =>
      if tr_interactive (pr_task r) && active r && bool_decide (is_Some (m_stdin m !! pr_id r)) then
        log_event (E_stdin n (pr_id r) input)
          (set_phase n P_stdin (if close then set_stdin (pr_id r) true m else m))
      else set_phase n (P_returned R_execution_state_invalid) m
  end.

(** A call goes on with the records of its first lookup. *)
Definition after_first_lookup (n : nat) (c : task_call) (now : Z) (rs : list task) (m : manager) : manager :=
  match tc_request c with
  | Start i => start_listed n i now rs m
  | Get _ => set_phase n (P_returned (R_task (toPublicRecord <$> head rs))) m
  | ListTasks workspaceId state =>
      set_phase n (P_returned (R_tasks (map toPublicRecord (list_records workspaceId state rs)))) m
  | Cancel _ => cancel_found n now rs m
  | Stdin _ input close => stdin_found n input close rs m
  end.

Definition after_lookup (n : nat) (c : task_call) (k : lookup_kind) (now : Z) (rs : list task) (m : manager) : manager :=
  match k with
  | First_lookup => after_first_lookup n c now rs m
  | Last_lookup fallback =>
      let latest := toPublicRecord <$> head rs in
      set_phase n (P_returned (match tc_request c with
                               | Stdin _ _ _ => R_stdin latest
                               | _ => R_task (or_else latest (toPublicRecord <$> fallback))
                               end)) m
  end.

(** One victim of [pruneTerminalRecords] *)
Definition prune_one (id : string) (m : manager) : manager :=
  match jget id (m_records m) with
  | Some r => if active r then m else removeTaskArtifacts id m
  | None => m
  end.

(** A call goes on when what it waits for is done. *)
Definition continue_call (n : nat) (now : Z) (alive : Z → bool) (m : manager) : option manager :=
  c ← m_calls m !! n;
  match tc_phase c with
  | P_lookup k aw =>
      guard (writes_done m aw = true);;
      let '(rs, aw', m') := refresh_all now alive (selected_records c m) m in
      Some (match aw' with
            | [] => after_lookup n c k now rs m'
            | _ => set_phase n (P_refreshed k rs aw') m'
            end)
  | P_refreshed k rs aw => guard (writes_done m aw = true);; Some (after_lookup n c k now rs m)
  | P_pruning (v :: vs) => Some (set_phase n (P_pruning vs) (prune_one v m))
  | P_aborted r =>
      guard (m_executions m !! pr_id r = None);;
      Some (set_phase n (P_lookup (Last_lookup (Some r)) (await_tail (pr_id r) m)) m)
  | P_terminating r => Some (set_phase n (P_lookup (Last_lookup (Some r)) (await_tail (pr_id r) m)) m)
  | P_stdin =>
      match tc_request c with
      | Stdin id _ _ => Some (set_phase n (P_lookup (Last_lookup None) (await_tail id m)) m)
      | _ => None
      end
  | _ => None
  end.

(** A start persists the new record, with an id of [randomUUID]. *)
Definition create_task (n : nat) (id : string) (now : Z) (m : manager) : option manager :=
  c ← m_calls m !! n;
  match tc_phase c, tc_request c with
  | P_pruning [], Start i =>
      let r := start_record id (tc_scope c) now i in
      Some (log_event (E_created r) 
        (persist (By_start n (si_command i)) r (set_phase n (P_starting r) m)))
  | _, _ => None
  end.

(** The start of the execution, and the return of the start. *)
Definition launch (n : nat) (command : string) (now : Z) (r : task) (m : manager) : manager :=
  let current := mark_running now r in
  release_queue (set_phase n (P_returned (R_task (Some (toPublicRecord r))))
    (persist By_execution current
      (set_execution (pr_id r) (X_marking current command) (set_controller (pr_id r) m)))).

(** [announceFinished] *)
Definition announceFinished (r : task) (m : manager) : manager :=
  match tr_state (pr_task r) with
  | succeeded | failed => log_event (E_finished (pr_id r) (tr_state (pr_task r))) m
  | _ => m
  end.

(** An execution goes on after its [persist]. *)
Definition execution_persisted (id : string) (m : manager) : manager :=
  match m_executions m !! id with
  | Some (X_marking current command) => log_event (E_launched id command) (set_execution id (X_running current) m)
  | Some (X_final current) => end_execution id (announceFinished current m)
  | _ => m
  end.

(** A cancellation goes on after its [persist]. *)
Definition cancel_persisted (n : nat) (pid : option Z) (cancelledRecord : task) (m : manager) : manager :=
  let id := pr_id cancelledRecord in
  if bool_decide (is_Some (m_controllers m !! id)) then set_phase n (P_aborted cancelledRecord) (abort_controller id m)
  else match pid with
       | Some pid => log_event (E_terminated pid) (set_phase n (P_terminating cancelledRecord) m)
       | None => set_phase n (P_lookup (Last_lookup (Some cancelledRecord)) (await_tail id m)) m
       end.

(** The first write of the task is done. *)
Definition complete_write (id : string) (now : Z) (m : manager) : option manager :=
  match writes_of id m with
  | [] => None
  | w :: ws =>
      let m' := store_record (w_record w) ws m in
      Some (match w_owner w with
            | By_start n command => launch n command now (w_record w) m'
            | By_execution => execution_persisted id m'
            | By_cancel n pid => cancel_persisted n pid (w_record w) m'
            | By_other => m'
            end)
  end.

(** An execution whose runner ended reads the latest record. *)
Definition decide_execution (id : string) (now : Z) (m : manager) : option manager :=
  match m_executions m !! id with
  | Some (X_ended current o tail) =>
      guard (forallb (λ t, write_done m (id, t)) (option_list tail) = true);;
      Some (if bool_decide (tr_state ∘ pr_task <$> jget id (m_records m) = Some cancelled) then end_execution id m
            else match o with
                 | Executed raw => set_execution id (X_saving (finished_record now (sanitizeRunCommandResult raw) current)) m
                 | Confirmation_required =>
                     set_execution id (X_ended current (Threw
                       "Background tasks cannot enter an interactive confirmation flow." None) (tail_write id m)) m
                 | Threw message lifecycle =>
                     let r := failed_record now message lifecycle current in
                     persist By_execution r (set_execution id (X_final r) m)
                 end)
  | _ => None
  end.

(** [initialize] and [pruneTerminalRecords] of a new process *)
Definition restart (now : Z) (m : manager) : manager :=
  let loaded := map_to_list (m_files m) in
  let fresh := {| m_files := m_files m; m_results := m_results m; m_records := loaded; m_writes := ∅;
     m_ticket := m_ticket m; m_executions := ∅; m_controllers := ∅; m_stdin := ∅; m_startQueue := [];
     m_calls := map (λ c, {| tc_request := tc_request c; tc_scope := tc_scope c; tc_phase :=
       match tc_phase c with P_returned r => P_returned r | _ => P_lost end |}) (m_calls m);
     m_log := m_log m |} in
  foldr prune_one fresh (retention_victims (terminalRetentionMs options) (maxRetainedTerminalTasks options) now
    (map snd loaded)).

(** [onPid] *)
Definition report_pid (id : string) (pid : Z) (m : manager) : option manager :=
  match m_executions m !! id with
  | Some (X_running current) =>
      Some (persist By_other (with_pid pid current) (set_execution id (X_running (with_pid pid current)) m))
  | _ => None
  end.

(** [onStdinControl] *)
Definition report_stdin (id : string) (m : manager) : option manager :=
  match m_executions m !! id with
  | Some (X_running current) => guard (tr_interactive (pr_task current) = true);; Some (set_stdin id false m)
  | _ => None
  end.

(** The runner returns or throws; the execution reads the latest record. *)
Definition runner_ended (id : string) (o : runner_outcome) (m : manager) : option manager :=
  match m_executions m !! id with
  | Some (X_running current) => Some (set_execution id (X_ended current o (tail_write id m)) m)
  | _ => None
  end.

(** [persistResult] is done, or has failed. *)
Definition result_saved (id : string) (m : manager) : option manager :=
  match m_executions m !! id with
  | Some (X_saving r) =>
      Some (persist By_execution r (set_execution id (X_final r) (persistResult id (tr_result (pr_task r)) m)))
  | _ => None
  end.
Definition result_not_saved (id message : string) (m : manager) : option manager :=
  match m_executions m !! id with
  | Some (X_saving r) => Some (set_execution id (X_ended r (Threw message None) (tail_write id m)) m)
  | _ => None
  end.

(** [await previousStart] is over. *)
Definition start_turn (n : nat) (m : manager) : option manager :=
  guard (head (m_startQueue m) = Some n);;
  c ← m_calls m !! n;
  match tc_phase c with
  | P_queued => Some (set_phase n (P_lookup First_lookup (await_all m)) m)
  | _ => None
  end.

Definition task_step (l : task_label) (m : manager) : option manager :=
  match l with
  | L_begin r scope => Some (begin_task_call r scope m)
  | L_turn n => start_turn n m
  | L_continue n now alive => continue_call n now alive m
  | L_create n id now => guard (id ∉ created_ids (m_log m));; create_task n id now m
  | L_write id now => complete_write id now m
  | L_pid id pid => report_pid id pid m
  | L_stdin_control id => report_stdin id m
  | L_ended id o => runner_ended id o m
  | L_decide id now => decide_execution id now m
  | L_saved id => result_saved id m
  | L_save_failed id message => result_not_saved id message m
  | L_restart now => Some (restart now m)
  end.

Definition new_manager : manager :=
  {| m_files := ∅; m_results := ∅; m_records := []; m_writes := ∅; m_ticket := 0; m_executions := ∅;
     m_controllers := ∅; m_stdin := ∅; m_startQueue := []; m_calls := []; m_log := [] |}.

Definition run_tasks (ls : list task_label) (m : manager) : option manager :=
  foldl (λ o l, o ≫= task_step l) (Some m) ls.
End manager.

Ltac unfold_step := unfold report_pid, report_stdin, runner_ended, result_saved, result_not_saved, start_turn in *.
