(* ===== verification/BackgroundTaskSlots.v ===== *)
(** * BackgroundTaskSlots: the life of one background task

    What the manager holds of one task - its record, its writes under way and its
    execution - and the changes of it, with the invariant they preserve.  Every step of
    the manager is a sequence of these changes for each task ([BackgroundTaskSteps]). *)

From S2P Require Import Prelude JsMap BackgroundTasks.

Record slot := {
  sl_record : option task;
  sl_writes : list task_write;
  sl_execution : option execution;
  sl_next : nat;
}.

(** What a command is recognised by. *)
Definition task_key (r : task) : option string * string * string :=
  (pr_ownerScopeHash r, tr_workspaceId (pr_task r), tr_commandHash (pr_task r)).

(** A record of the same task. *)
Definition same_task (r0 r : task) : Prop := pr_id r = pr_id r0 ∧ task_key r = task_key r0.

Definition current_of (x : execution) : task :=
  match x with X_marking c _ | X_running c | X_ended c _ _ | X_saving c | X_final c => c end.

Definition plain (w : task_write) : Prop :=
  match w_owner w with By_cancel _ _ | By_other => True | _ => False end.

(** A write that ends the task. *)
Definition ending (w : task_write) : Prop := plain w ∧ active (w_record w) = false.

(** The write [t] is under way or everything before it is done. *)
Definition passed_by (t : nat) (ws : list task_write) : Prop :=
  t ∈ map w_ticket ws ∨ Forall (λ w, t < w_ticket w) ws.

Definition execution_ok (R : option task) (ws : list task_write) (x : option execution) : Prop :=
  match x with
  | None => Forall ending ws ∨ (R = None ∧ ∃ w n command, ws = [w] ∧ w_owner w = By_start n command ∧ active (w_record w) = true)
  | Some (X_marking c _) => active c = true ∧ ∃ w ws', ws = w :: ws' ∧ w_owner w = By_execution ∧ w_record w = c ∧ Forall ending ws'
  | Some (X_running c) => active c = true ∧ Forall plain ws
  | Some (X_ended c _ tail) =>
      Forall plain ws ∧
      match tail with
      | None => Forall ending ws
      | Some t => passed_by t ws ∧ Forall (λ w, active (w_record w) = true → w_ticket w ≤ t) ws
      end
  | Some (X_saving c) => active c = false ∧ Forall ending ws
  | Some (X_final c) =>
      active c = false ∧ ∃ ws1 w ws2, ws = ws1 ++ w :: ws2 ∧ w_owner w = By_execution ∧ w_record w = c ∧
        Forall ending ws1 ∧ Forall ending ws2
  end.

Record slot_ok (r0 : task) (s : slot) : Prop := {
  so_record : ∀ r, sl_record s = Some r → same_task r0 r;
  so_writes : Forall (λ w, same_task r0 (w_record w) ∧ w_ticket w < sl_next s) (sl_writes s);
  so_current : ∀ x, sl_execution s = Some x → same_task r0 (current_of x);
  so_tail : ∀ c o t, sl_execution s = Some (X_ended c o (Some t)) → t < sl_next s;
  so_sorted : StronglySorted lt (map w_ticket (sl_writes s));
  so_execution : execution_ok (sl_record s) (sl_writes s) (sl_execution s);
}.

(** The task has ended and nothing runs for it. *)
Definition settled (s : slot) : Prop :=
  sl_execution s = None ∧ Forall ending (sl_writes s) ∧ ∀ r, sl_record s = Some r → active r = false.

(** The process id comes while the task is active and no write under way ends it. *)
Definition prompt_slot (s : slot) : Prop :=
  (∃ r, sl_record s = Some r ∧ active r = true) ∧ Forall (λ w, active (w_record w) = true) (sl_writes s).

(** ** Changes

    With [Late] a process id may also come later, with [Restarting] the process restarts. *)

Inductive step_mode := Normal | Late | Restarting.


Section changes.
Context (r0 : task) (late : step_mode).

Definition push (s : slot) (w : task_write) : list task_write := sl_writes s ++ [w].

Inductive slot_step (s : slot) : slot → Prop :=
| ss_tick n : sl_next s ≤ n →
    slot_step s {| sl_record := sl_record s; sl_writes := sl_writes s; sl_execution := sl_execution s; sl_next := n |}
| ss_ending w : ending w → same_task r0 (w_record w) → w_ticket w = sl_next s →
    is_Some (sl_record s) →
    slot_step s {| sl_record := sl_record s; sl_writes := push s w; sl_execution := sl_execution s; sl_next := S (sl_next s) |}
| ss_launch w n command r w' :
    sl_writes s = [w] → w_owner w = By_start n command → same_task r0 r → active r = true →
    w' = {| w_ticket := sl_next s; w_owner := By_execution; w_record := r |} →
    slot_step s {| sl_record := Some (w_record w); sl_writes := [w']; sl_execution := Some (X_marking r command);
                   sl_next := S (sl_next s) |}
| ss_store w ws : sl_writes s = w :: ws → plain w →
    slot_step s {| sl_record := Some (w_record w); sl_writes := ws; sl_execution := sl_execution s; sl_next := sl_next s |}
| ss_marked c command w ws : sl_execution s = Some (X_marking c command) → sl_writes s = w :: ws → w_owner w = By_execution →
    slot_step s {| sl_record := Some (w_record w); sl_writes := ws; sl_execution := Some (X_running c); sl_next := sl_next s |}
| ss_finish c w ws : sl_execution s = Some (X_final c) → sl_writes s = w :: ws → w_owner w = By_execution →
    slot_step s {| sl_record := Some (w_record w); sl_writes := ws; sl_execution := None; sl_next := sl_next s |}
| ss_pid c c' w : sl_execution s = Some (X_running c) → same_task r0 c' → active c' = active c →
    late = Late ∨ prompt_slot s →
    w = {| w_ticket := sl_next s; w_owner := By_other; w_record := c' |} →
    slot_step s {| sl_record := sl_record s; sl_writes := push s w; sl_execution := Some (X_running c');
                   sl_next := S (sl_next s) |}
| ss_ended c o : sl_execution s = Some (X_running c) →
    slot_step s {| sl_record := sl_record s; sl_writes := sl_writes s;
                   sl_execution := Some (X_ended c o (w_ticket <$> last (sl_writes s))); sl_next := sl_next s |}
| ss_dropped c o tail r : sl_execution s = Some (X_ended c o tail) →
    (∀ t, tail = Some t → t ∉ map w_ticket (sl_writes s)) → sl_record s = Some r → active r = false →
    slot_step s {| sl_record := sl_record s; sl_writes := sl_writes s; sl_execution := None; sl_next := sl_next s |}
| ss_decided c o tail x' : sl_execution s = Some (X_ended c o tail) →
    (∀ t, tail = Some t → t ∉ map w_ticket (sl_writes s)) → same_task r0 (current_of x') →
    (∃ f, x' = X_saving f ∧ active f = false) ∨ (∃ c o, x' = X_ended c o (w_ticket <$> last (sl_writes s))) →
    slot_step s {| sl_record := sl_record s; sl_writes := sl_writes s; sl_execution := Some x'; sl_next := sl_next s |}
| ss_failed c o tail f w : sl_execution s = Some (X_ended c o tail) →
    (∀ t, tail = Some t → t ∉ map w_ticket (sl_writes s)) → same_task r0 f → active f = false →
    w = {| w_ticket := sl_next s; w_owner := By_execution; w_record := f |} →
    slot_step s {| sl_record := sl_record s; sl_writes := push s w; sl_execution := Some (X_final f); sl_next := S (sl_next s) |}
| ss_saved f w : sl_execution s = Some (X_saving f) →
    w = {| w_ticket := sl_next s; w_owner := By_execution; w_record := f |} →
    slot_step s {| sl_record := sl_record s; sl_writes := push s w; sl_execution := Some (X_final f); sl_next := S (sl_next s) |}
| ss_save_failed f o : sl_execution s = Some (X_saving f) →
    slot_step s {| sl_record := sl_record s; sl_writes := sl_writes s;
                   sl_execution := Some (X_ended f o (w_ticket <$> last (sl_writes s))); sl_next := sl_next s |}
| ss_prune r : sl_record s = Some r → active r = false →
    slot_step s {| sl_record := None; sl_writes := sl_writes s; sl_execution := sl_execution s; sl_next := sl_next s |}
| ss_restart : late = Restarting →
    slot_step s {| sl_record := sl_record s; sl_writes := []; sl_execution := None; sl_next := sl_next s |}.

(** ** The invariant *)

Lemma ending_plain ws : Forall ending ws → Forall plain ws.
Proof. intros H. eapply Forall_impl; [exact H|]. by intros w [? _]. Qed.

Lemma sorted_snoc (ws : list task_write) n w :
  StronglySorted lt (map w_ticket ws) → Forall (λ w, w_ticket w < n) ws → w_ticket w = n →
  StronglySorted lt (map w_ticket (ws ++ [w])).
Proof.
  intros Hs Hn <-. induction ws as [|w1 ws IH]; cbn in *; [by repeat constructor|].
  apply StronglySorted_inv in Hs as [Hs H1]. apply Forall_cons in Hn as [Hn1 Hn]. constructor; [by apply IH|].
  rewrite map_app. apply Forall_app. split; [done|]. by repeat constructor.
Qed.

Lemma sorted_last (ws : list task_write) w : StronglySorted lt (map w_ticket ws) → last ws = Some w →
  Forall (λ w', w_ticket w' ≤ w_ticket w) ws.
Proof.
  intros Hs [ws' ->]%last_Some. rewrite Forall_app. split; [|by repeat constructor].
  induction ws' as [|w1 ws' IH]; [done|]. cbn in Hs. apply StronglySorted_inv in Hs as [Hs H1]. constructor; [|by apply IH].
  rewrite map_app, Forall_app in H1. destruct H1 as [_ H1]. cbn in H1.
  by apply Forall_singleton, Nat.lt_le_incl in H1.
Qed.

(** The last write is ahead of every active one. *)
Lemma tail_ok ws : StronglySorted lt (map w_ticket ws) → Forall plain ws →
  match w_ticket <$> last ws with
  | None => Forall ending ws
  | Some t => passed_by t ws ∧ Forall (λ w, active (w_record w) = true → w_ticket w ≤ t) ws
  end.
Proof.
  intros Hs Hp. destruct (last ws) as [w|] eqn:E; cbn; [|by apply last_None in E as ->].
  split; [|eapply Forall_impl; [by apply sorted_last|]; done].
  left. apply last_Some in E as [ws' ->]. rewrite map_app. apply elem_of_app. right. by apply list_elem_of_singleton.
Qed.

(** When the awaited write is done no write of an active record is under way. *)
Lemma tail_done ws tail :
  Forall plain ws ∧ match tail with
    | None => Forall ending ws
    | Some t => passed_by t ws ∧ Forall (λ w, active (w_record w) = true → w_ticket w ≤ t) ws
    end →
  (∀ t, tail = Some t → t ∉ map w_ticket ws) → Forall ending ws.
Proof.
  intros [Hp Ht] Hd. destruct tail as [t|]; [|done]. destruct Ht as [[Hin|Hlt] Hle]; [by destruct (Hd t)|].
  rewrite Forall_forall in *. intros w Hw. split; [by apply Hp|]. destruct (active (w_record w)) eqn:E; [|done].
  specialize (Hlt w Hw). specialize (Hle w Hw E). lia.
Qed.

Lemma passed_by_pop t w ws : StronglySorted lt (map w_ticket (w :: ws)) → passed_by t (w :: ws) → passed_by t ws.
Proof.
  cbn. intros [Hs Hw]%StronglySorted_inv [Hin|Hlt].
  - apply elem_of_cons in Hin as [->|Hin]; [right|by left]. revert Hw. clear. induction ws; intros Hw; inversion Hw; subst; constructor; auto.
  - right. by apply Forall_cons in Hlt as [_ ?].
Qed.

Lemma passed_by_push t w ws : passed_by t ws → t < w_ticket w → passed_by t (ws ++ [w]).
Proof.
  intros [Hin|Hlt] Hw; [left|right].
  - rewrite map_app, elem_of_app. by left.
  - apply Forall_app. split; [done|]. by repeat constructor.
Qed.

Lemma Forall_snoc {A} (P : A → Prop) l x : Forall P l → P x → Forall P (l ++ [x]).
Proof. intros. apply Forall_app. auto. Qed.

(** A write that ends the task may come at any time. *)
Lemma execution_ok_push R ws x w : execution_ok R ws x → is_Some R → ending w →
  (∀ c o t, x = Some (X_ended c o (Some t)) → t < w_ticket w) → execution_ok R (ws ++ [w]) x.
Proof.
  intros Hx [r ->] He Ht. destruct x as [[c cm|c|c o tl|c|c]|]; cbn in *.
  - destruct Hx as (? & w1 & ws' & -> & ? & ? & ?). split; [done|]. exists w1, (ws' ++ [w]). split_and!; [done..|by apply Forall_snoc].
  - destruct Hx. split; [done|]. apply Forall_snoc; [done|apply He].
  - destruct Hx as [Hp Hl]. split; [apply Forall_snoc; [done|apply He]|]. destruct tl as [t|]; [|by apply Forall_snoc].
    destruct Hl as [Hl Hle]. split; [|apply Forall_snoc; [done|]; by rewrite (proj2 He)].
    apply passed_by_push; [done|]. by eapply Ht.
  - destruct Hx. split; [done|by apply Forall_snoc].
  - destruct Hx as (? & ws1 & w1 & ws2 & -> & ? & ? & ? & ?). split; [done|]. exists ws1, w1, (ws2 ++ [w]).
    rewrite <- (assoc_L (++)). split_and!; [done..|by apply Forall_snoc].
  - destruct Hx as [?|[? _]]; [|done]. left. by apply Forall_snoc.
Qed.

(** The first write is done and belongs to nobody or to a cancellation. *)
Lemma execution_ok_pop R R' w ws x : execution_ok R (w :: ws) x → plain w → StronglySorted lt (map w_ticket (w :: ws)) →
  execution_ok R' ws x.
Proof.
  intros Hx Hp Hs. destruct x as [[c cm|c|c o tl|c|c]|]; cbn [execution_ok] in *.
  - destruct Hx as (_ & w1 & ws' & [= <- <-] & Ho & _). unfold plain in Hp. by rewrite Ho in Hp.
  - destruct Hx as [? [_ ?]%Forall_cons]. done.
  - destruct Hx as [[_ ?]%Forall_cons Hl]. split; [done|]. destruct tl as [t|]; [|by apply Forall_cons in Hl as [_ ?]].
    destruct Hl as [Hl [_ ?]%Forall_cons]. split; [by eapply passed_by_pop|done].
  - destruct Hx as [? [_ ?]%Forall_cons]. done.
  - destruct Hx as (? & [|w1 ws1] & w2 & ws2 & [= <- ->] & Ho & ? & H1 & ?).
    + unfold plain in Hp. by rewrite Ho in Hp.
    + apply Forall_cons in H1 as [_ ?]. split; [done|]. by exists ws1, w2, ws2.
  - destruct Hx as [[_ ?]%Forall_cons|(_ & w1 & n & cm & [= <- _] & Ho & _)]; [by left|]. unfold plain in Hp. by rewrite Ho in Hp.
Qed.

Lemma slot_step_execution s s' : slot_step s s' → slot_ok r0 s → execution_ok (sl_record s') (sl_writes s') (sl_execution s').
Proof.
  intros Hstep [Hr Hw Hc Ht Hs Hx]. destruct Hstep; cbn [sl_record sl_writes sl_execution]; unfold push.
  - done.
  - apply execution_ok_push; [done..|]. rewrite H1. done.
  - subst. split; [done|]. eexists _, []. by split_and!.
  - rewrite H in Hx, Hs. by eapply execution_ok_pop.
  - rewrite H, H0 in Hx. destruct Hx as (? & w1 & ws' & [= <- <-] & ? & ? & ?). split; [done|by apply ending_plain].
  - rewrite H, H0 in Hx. destruct Hx as (? & ws1 & w1 & ws2 & E & Ho & ? & H2 & ?). left.
    destruct ws1 as [|w2 ws1]; simplify_eq/=; [done|]. exfalso. apply Forall_cons in H2 as [[Hp _] _]. unfold plain in Hp.
    by rewrite H1 in Hp.
  - rewrite H in Hx. destruct Hx as [? ?]. split; [congruence|]. apply Forall_snoc; [done|]. by subst.
  - rewrite H in Hx. destruct Hx as [? ?]. split; [done|]. by apply tail_ok.
  - rewrite H in Hx. left. by eapply tail_done.
  - rewrite H in Hx. pose proof (tail_done _ _ Hx H0) as He. destruct H2 as [(f & -> & Hf)|(c' & o' & ->)].
    + by split.
    + split; [by apply ending_plain|]. by apply tail_ok, ending_plain.
  - rewrite H in Hx. pose proof (tail_done _ _ Hx H0) as He. split; [done|]. exists (sl_writes s), w, []. subst. by split_and!.
  - rewrite H in Hx. destruct Hx as [? ?]. split; [done|]. exists (sl_writes s), w, []. subst. by split_and!.
  - rewrite H in Hx. destruct Hx as [? ?]. split; [by apply ending_plain|]. by apply tail_ok, ending_plain.
  - destruct (sl_execution s) as [[]|]; [done..|]. destruct Hx as [?|[? _]]; [by left|congruence].
  - by left.
Qed.

Lemma slot_step_ok s s' : slot_step s s' → slot_ok r0 s → slot_ok r0 s'.
Proof.
  intros Hstep Hok. pose proof (slot_step_execution s s' Hstep Hok) as Hx'. destruct Hok as [Hr Hw Hc Ht Hs Hx].
  split; [..|done]; clear Hx Hx'.
  - destruct Hstep; cbn in *; try done; intros r' [= <-]; rewrite Forall_forall in Hw; eapply Hw.
    all: match goal with E : sl_writes _ = _ |- _ => rewrite E; left end.
  - destruct Hstep; cbn in *; unfold push; subst; try done.
    all: try (eapply Forall_impl; [exact Hw|]; cbn; intros ? []; split; [done|lia]).
    all: try (apply Forall_snoc; [eapply Forall_impl; [exact Hw|]; cbn; intros ? []; split; [done|lia]|]).
    all: try (match goal with E : sl_writes _ = _ |- _ => rewrite E in Hw; by apply Forall_cons in Hw as [_ ?] end).
    all: try (cbn; split; [by (done || eapply Hc)|lia]).
    + apply Forall_singleton. cbn. split; [done|lia].
    + cbn. split; [by apply (Hc (X_saving f))|lia].
  - destruct Hstep; cbn in *; try done; intros x1 [= <-]; try done; exact (Hc _ ltac:(eassumption)).
  - assert (∀ t, w_ticket <$> last (sl_writes s) = Some t → t < sl_next s) as Hl.
    { intros t (w & [ws Hl]%last_Some & ->)%fmap_Some. rewrite Hl in Hw. apply Forall_app in Hw as [_ Hw].
      by apply Forall_singleton in Hw as [_ ?]. }
    destruct Hstep; cbn in *; intros c1 o1 t1 E; simplify_eq; try by apply Hl.
    all: try (eapply Nat.lt_le_trans; [by eapply Ht|lia]).
    destruct H2 as [(f & E & _)|(c' & o' & E)]; simplify_eq; by apply Hl.
  - destruct Hstep; cbn in *; unfold push; subst; try done.
    all: try (match goal with E : sl_writes _ = _ |- _ => rewrite E in Hs; by apply StronglySorted_inv in Hs as [? _] end).
    all: try (eapply sorted_snoc; [done| |done]; eapply Forall_impl; [exact Hw|]; by cbn; intros ? []).
    + by repeat constructor.
    + constructor.
Qed.

(** A task that ended stays so. *)
Lemma settled_step s s' : slot_step s s' → settled s → settled s'.
Proof.
  intros Hstep (Hx & Hw & Hr). destruct Hstep; unfold settled, push; cbn; try congruence.
  - done.
  - split_and!; [done|by apply Forall_snoc|done].
  - exfalso. rewrite H in Hw. apply Forall_cons in Hw as [[Hp _] _]. unfold plain in Hp. by rewrite H0 in Hp.
  - rewrite H in Hw. apply Forall_cons in Hw as [[_ ?] ?]. split_and!; [done..|]. by intros r [= <-].
  - done.
  - done.
Qed.

(** An execution that is over has left the task settled, unless the process restarted. *)
Lemma execution_over s s' : slot_step s s' → late ≠ Restarting → slot_ok r0 s → sl_execution s ≠ None → sl_execution s' = None →
  settled s'.
Proof.
  intros Hstep Hl Hok Hne Hx'. destruct (slot_step_ok _ _ Hstep Hok) as [_ _ _ _ _ Hx2]. rewrite Hx' in Hx2.
  destruct Hok as [_ _ _ _ _ Hx]. destruct Hstep; cbn in *; try congruence.
  - rewrite H, H0 in Hx. destruct Hx as (Hc & ws1 & w1 & ws2 & E & Ho & <- & H2 & ?).
    destruct ws1 as [|w2 ws1]; simplify_eq/=.
    + split_and!; [done..|]. by intros r [= <-].
    + exfalso. apply Forall_cons in H2 as [[Hp _] _]. unfold plain in Hp. by rewrite H1 in Hp.
  - rewrite H in Hx. split_and!; cbn; [done|by eapply tail_done|congruence].
Qed.

(** ** Without a late process id *)

Definition inactive_writes (ws : list task_write) : Prop := Forall (λ w, active (w_record w) = false) ws.

Definition start_pending (s : slot) : Prop := ∃ w n command, sl_writes s = [w] ∧ w_owner w = By_start n command.

(** No write under way revives the task after one that ends it, nor an ended record. *)
Definition ordered_slot (s : slot) : Prop :=
  (∃ ws1 ws2, sl_writes s = ws1 ++ ws2 ∧ Forall (λ w, active (w_record w) = true) ws1 ∧ inactive_writes ws2) ∧
  ((∀ r, sl_record s = Some r → active r = false) → inactive_writes (sl_writes s) ∨ start_pending s).

(** The task is not active and will not be. *)
Definition dead_slot (s : slot) : Prop :=
  (∀ r, sl_record s = Some r → active r = false) ∧ inactive_writes (sl_writes s).

(** A start that persists its record is alone with it. *)
Lemma start_pending_active s w ws n command : slot_ok r0 s → sl_writes s = w :: ws → w_owner w = By_start n command →
  ws = [] ∧ active (w_record w) = true ∧ sl_record s = None ∧ sl_execution s = None.
Proof.
  intros [_ _ _ _ _ Hx] Hw Ho. rewrite Hw in Hx. assert (¬ plain w) as Hp by (unfold plain; rewrite Ho; tauto).
  destruct (sl_execution s) as [[c cm'|c|c o tl|c|c]|]; cbn in Hx.
  - destruct Hx as (_ & ? & ? & [= <- <-] & ? & _). congruence.
  - by destruct Hx as [_ [? _]%Forall_cons].
  - by destruct Hx as [[? _]%Forall_cons _].
  - by destruct Hx as [_ [[? _] _]%Forall_cons].
  - destruct Hx as (_ & [|w1 ws1] & w2 & ws2 & E & Ho2 & _ & H1 & _); simplify_eq/=; [congruence|].
    by apply Forall_cons in H1 as [[? _] _].
  - destruct Hx as [[[? _] _]%Forall_cons|(? & ? & ? & ? & [= <- ->] & ? & ?)]; done.
Qed.

Lemma start_pending_alone s : slot_ok r0 s → start_pending s → sl_record s = None ∧ sl_execution s = None.
Proof. intros Hok (w & n & cm & Hw & Ho). by destruct (start_pending_active s w [] n cm Hok Hw Ho) as (_ & _ & ? & ?). Qed.

Lemma ordered_push ws w : (∃ ws1 ws2, ws = ws1 ++ ws2 ∧ Forall (λ w, active (w_record w) = true) ws1 ∧ inactive_writes ws2) →
  active (w_record w) = false →
  ∃ ws1 ws2, ws ++ [w] = ws1 ++ ws2 ∧ Forall (λ w, active (w_record w) = true) ws1 ∧ inactive_writes ws2.
Proof.
  intros (ws1 & ws2 & -> & ? & ?) Hw. exists ws1, (ws2 ++ [w]). rewrite (assoc_L (++)). split_and!; [done..|by apply Forall_snoc].
Qed.

Lemma ordered_pop w ws : (∃ ws1 ws2, w :: ws = ws1 ++ ws2 ∧ Forall (λ w, active (w_record w) = true) ws1 ∧ inactive_writes ws2) →
  (∃ ws1 ws2, ws = ws1 ++ ws2 ∧ Forall (λ w, active (w_record w) = true) ws1 ∧ inactive_writes ws2) ∧
  (active (w_record w) = false → inactive_writes ws).
Proof.
  intros ([|w1 ws1] & ws2 & E & H1 & H2); simplify_eq/=.
  - subst. apply Forall_cons in H2 as [? ?]. split; [by exists [], ws|done].
  - apply Forall_cons in H1 as [? ?]. split; [by exists ws1, ws2|congruence].
Qed.

Lemma ordered_step s s' : slot_step s s' → late ≠ Late → slot_ok r0 s → ordered_slot s → ordered_slot s'.
Proof.
  intros Hstep Hl Hok [Ho1 Ho2]. pose proof (start_pending_alone s Hok) as Hst.
  assert (∀ w, active (w_record w) = false → sl_execution s ≠ None →
    ordered_slot {| sl_record := sl_record s; sl_writes := push s w; sl_execution := sl_execution s; sl_next := sl_next s |}) as Hpush.
  { intros w Hw Hx. split; cbn; [by apply ordered_push|]. intros Hr.
    destruct (Ho2 Hr) as [Hi|[? ?]%Hst]; [left; by apply Forall_snoc|done]. }
  destruct Hstep; unfold ordered_slot; cbn.
  - done.
  - split; [apply ordered_push; [done|apply H]|]. intros Hr. destruct (Ho2 Hr) as [Hi|[E _]%Hst].
    + left. apply Forall_snoc; [done|apply H].
    + by rewrite E in H2; destruct H2.
  - destruct (start_pending_active s w [] n command Hok) as (_ & Ha & _); [done..|]. split.
    + exists [w'], []. subst. split_and!; [done| |constructor]. by apply Forall_singleton.
    + intros Hr. specialize (Hr _ eq_refl). congruence.
  - rewrite H in Ho1. apply ordered_pop in Ho1 as [? ?]. split; [done|]. intros Hr. left. auto.
  - rewrite H0 in Ho1. apply ordered_pop in Ho1 as [? ?]. split; [done|]. intros Hr. left. auto.
  - rewrite H0 in Ho1. apply ordered_pop in Ho1 as [? ?]. split; [done|]. intros Hr. left. auto.
  - destruct H2 as [?|[(r & Hr & Ha) Hall]]; [congruence|]. split; [|intros Hr'; specialize (Hr' r Hr); congruence].
    exists (push s w), []. rewrite app_nil_r. split_and!; [done| |constructor]. apply Forall_snoc; [done|]. subst. cbn.
    destruct Hok as [_ _ _ _ _ Hx]. rewrite H in Hx. destruct Hx. congruence.
  - done.
  - done.
  - done.
  - apply (Hpush w); [by subst|congruence].
  - apply (Hpush w); [|congruence]. destruct Hok as [_ _ _ _ _ Hx]. rewrite H in Hx. subst. apply Hx.
  - done.
  - split; [done|]. intros _. destruct Ho2 as [?|[E _]%Hst]; [congruence|by left|congruence].
  - split; [exists [], []; by repeat constructor|]. intros _. left. constructor.
Qed.

(** A task that is not active stays so. *)
Lemma dead_step s s' : slot_step s s' → late ≠ Late → slot_ok r0 s → dead_slot s → dead_slot s'.
Proof.
  intros Hstep Hl Hok [Hr Hw]. unfold dead_slot, push.
  destruct Hstep; cbn; try done.
  - split; [done|]. apply Forall_snoc; [done|apply H].
  - destruct (start_pending_active s w [] n command Hok) as (_ & Ha & _); [done..|]. rewrite H in Hw.
    apply Forall_cons in Hw as [? _]. congruence.
  - rewrite H in Hw. apply Forall_cons in Hw as [? ?]. split; [|done]. by intros r [= <-].
  - rewrite H0 in Hw. apply Forall_cons in Hw as [? ?]. split; [|done]. by intros r [= <-].
  - rewrite H0 in Hw. apply Forall_cons in Hw as [? ?]. split; [|done]. by intros r [= <-].
  - destruct H2 as [?|[(r & Hr' & Ha) _]]; [congruence|]. specialize (Hr r Hr'). congruence.
  - split; [done|]. apply Forall_snoc; [done|]. by subst.
  - split; [done|]. apply Forall_snoc; [done|]. destruct Hok as [_ _ _ _ _ Hx]. rewrite H in Hx. subst. apply Hx.
  - split; [done|constructor].
Qed.

(** Outside a start, a task that is not active has no write that revives it. *)
Lemma ordered_dead s : ordered_slot s → ¬ start_pending s → (∀ r, sl_record s = Some r → active r = false) → dead_slot s.
Proof. intros [_ Ho] Hs Hr. split; [done|]. destruct (Ho Hr); [done|by destruct Hs]. Qed.
End changes.
