(* ===== verification/BackgroundTaskSteps.v ===== *)
(** * BackgroundTaskSteps: what a step of the manager does to each task

    Every step of [BackgroundTasks.task_step] changes the slot of each task by changes of
    [BackgroundTaskSlots], and keeps the files equal to the records. *)

From S2P Require Import Prelude JsMap BackgroundTasks BackgroundTaskSlots.

Definition slot_of (id : string) (m : manager) : slot :=
  {| sl_record := jget id (m_records m); sl_writes := writes_of id m; sl_execution := m_executions m !! id;
     sl_next := m_ticket m |}.

(** The record the task was created with. *)
Fixpoint created (id : string) (l : list task_event) : option task :=
  match l with
  | [] => None
  | E_created r :: l => if bool_decide (pr_id r = id) then Some r else created id l
  | _ :: l => created id l
  end.

Definition empty_slot (s : slot) : Prop := sl_record s = None ∧ sl_writes s = [] ∧ sl_execution s = None.

Record manager_ok (m : manager) : Prop := {
  mo_map : jsmap_ok (m_records m);
  mo_files : ∀ id, m_files m !! id = jget id (m_records m);
  mo_controllers : ∀ id, is_Some (m_controllers m !! id) ↔ is_Some (m_executions m !! id);
  mo_slots : ∀ id, match created id (m_log m) with
                   | Some r0 => pr_id r0 = id ∧ slot_ok r0 (slot_of id m)
                   | None => empty_slot (slot_of id m)
                   end;
}.

(** ** Events *)

Definition creation (e : task_event) : option task := match e with E_created r => Some r | _ => None end.

Lemma created_app id l l' : created id (l ++ l') = match created id l with Some r => Some r | None => created id l' end.
Proof. induction l as [|[] l IH]; cbn; try done. by case_bool_decide. Qed.

Lemma created_none id es : Forall (λ e, creation e = None) es → created id es = None.
Proof. induction 1 as [|[] es]; cbn in *; done. Qed.

Lemma created_id id l r : created id l = Some r → pr_id r = id.
Proof. induction l as [|[] l IH]; cbn; try done. case_bool_decide; naive_solver. Qed.

Lemma created_elem id l : created id l = None ↔ id ∉ created_ids l.
Proof.
  induction l as [|[] l IH]; cbn; try done; [by split; [intros _ ?%not_elem_of_nil|]|].
  rewrite elem_of_cons. case_bool_decide; naive_solver.
Qed.

(** ** Extensions of the manager *)

(** The calls of [m] with their requests and scopes. *)
Definition identities (m : manager) : list (request * option string) := map (λ c, (tc_request c, tc_scope c)) (m_calls m).

Record advances (late : step_mode) (m m' : manager) : Prop := {
  ad_log : ∃ es, m_log m' = m_log m ++ es ∧ Forall (λ e, creation e = None) es;
  ad_calls : identities m `prefix_of` identities m';
  ad_slots : ∀ id r0, created id (m_log m) = Some r0 → rtc (slot_step r0 late) (slot_of id m) (slot_of id m');
  ad_none : ∀ id, created id (m_log m) = None → empty_slot (slot_of id m) → empty_slot (slot_of id m');
  ad_map : jsmap_ok (m_records m) → jsmap_ok (m_records m');
  ad_files : (∀ id, m_files m !! id = jget id (m_records m)) → ∀ id, m_files m' !! id = jget id (m_records m');
  ad_controllers : (∀ id, is_Some (m_controllers m !! id) ↔ is_Some (m_executions m !! id)) →
    ∀ id, is_Some (m_controllers m' !! id) ↔ is_Some (m_executions m' !! id);
}.

Lemma advances_refl late m : advances late m m.
Proof. split; try done. exists []. by rewrite app_nil_r. Qed.

Lemma ad_created late m m' id r0 : advances late m m' → created id (m_log m) = Some r0 → created id (m_log m') = Some r0.
Proof. intros [(es & -> & _)] E. by rewrite created_app, E. Qed.

Lemma ad_not_created late m m' id : advances late m m' → created id (m_log m) = None → created id (m_log m') = None.
Proof. intros [(es & -> & Hes)] E. by rewrite created_app, E, created_none. Qed.

Lemma advances_trans late m1 m2 m3 : advances late m1 m2 → advances late m2 m3 → advances late m1 m3.
Proof.
  intros H1 H2. pose proof (λ id r0, ad_created late m1 m2 id r0 H1) as Hc. pose proof (λ id, ad_not_created late m1 m2 id H1) as Hn.
  destruct H1 as [(es1 & E1 & ?) ? ? ? ? ? ?], H2 as [(es2 & E2 & ?) ? ? ? ? ? ?]. split; eauto.
  - exists (es1 ++ es2). rewrite E2, E1, (assoc_L (++)). split; [done|]. by apply Forall_app.
  - by etrans.
  - intros id r0 E. etrans; [eauto|]. eauto.
Qed.

Lemma slot_steps_ok r0 late s s' : rtc (slot_step r0 late) s s' → slot_ok r0 s → slot_ok r0 s'.
Proof. induction 1; [done|]. intros. apply IHrtc. by eapply slot_step_ok. Qed.

Lemma advances_ok late m m' : advances late m m' → manager_ok m → manager_ok m'.
Proof.
  intros Ha [Hm Hf Hc Hs]. split; [by apply Ha..|]. intros id. specialize (Hs id).
  destruct (created id (m_log m)) as [r0|] eqn:E.
  - rewrite (ad_created _ _ _ _ _ Ha E). destruct Hs as [? Hs]. split; [done|]. eapply slot_steps_ok; [by apply Ha|done].
  - rewrite (ad_not_created _ _ _ _ Ha E). by apply Ha.
Qed.

(** ** The updates *)

Lemma writes_persist id o r m :
  writes_of id (persist o r m) =
    if decide (pr_id r = id) then writes_of id m ++ [{| w_ticket := m_ticket m; w_owner := o; w_record := r |}] else writes_of id m.
Proof.
  unfold writes_of at 1. cbn. case_decide; subst; [by rewrite lookup_insert_eq|by rewrite lookup_insert_ne].
Qed.

Lemma writes_store id r ws m : writes_of id (store_record r ws m) = if decide (pr_id r = id) then ws else writes_of id m.
Proof. unfold writes_of at 1. cbn. case_decide; subst; [by rewrite lookup_insert_eq|by rewrite lookup_insert_ne]. Qed.

(** An update that leaves the tasks alone. *)
Lemma advances_same late m m' es :
  m_files m' = m_files m → m_records m' = m_records m → m_writes m' = m_writes m → m_ticket m' = m_ticket m →
  m_executions m' = m_executions m → (∀ id, is_Some (m_controllers m' !! id) ↔ is_Some (m_controllers m !! id)) →
  identities m `prefix_of` identities m' →
  m_log m' = m_log m ++ es → Forall (λ e, creation e = None) es → advances late m m'.
Proof.
  intros Hf Hr Hw Ht Hx Hc Hi Hl He. assert (∀ id, slot_of id m' = slot_of id m) as Hs.
  { intros id. unfold slot_of, writes_of. by rewrite Hr, Hw, Ht, Hx. }
  split; [by exists es|done|..].
  - intros id r0 _. by rewrite Hs.
  - intros id _. by rewrite Hs.
  - by rewrite Hr.
  - by rewrite Hf, Hr.
  - intros Hcx id. by rewrite Hc, Hx.
Qed.

Lemma identities_set_phase n p m : identities (set_phase n p m) = identities m.
Proof.
  unfold identities. cbn. apply list_eq. intros i. rewrite !list_lookup_fmap.
  destruct (decide (i = n)) as [->|]; [rewrite list_lookup_alter_eq|by rewrite list_lookup_alter_ne].
  by destruct (m_calls m !! n).
Qed.

Ltac same_tasks := eapply (advances_same _ _ _ []); try done; try (by rewrite app_nil_r); try (by rewrite identities_set_phase).

Lemma advances_set_phase late n p m : advances late m (set_phase n p m).
Proof. same_tasks. Qed.
Lemma advances_log late e m : creation e = None → advances late m (log_event e m).
Proof. intros. eapply (advances_same _ _ _ [e]); try done. by constructor. Qed.
Lemma advances_release late m : advances late m (release_queue m).
Proof. same_tasks. Qed.
Lemma advances_set_stdin late id b m : advances late m (set_stdin id b m).
Proof. same_tasks. Qed.
Lemma advances_result late id r m : advances late m (persistResult id r m).
Proof. same_tasks. Qed.
Lemma advances_add_call late c q m : advances late m (add_call c q m).
Proof. same_tasks. unfold identities. cbn. rewrite map_app. by apply prefix_app_r. Qed.
Lemma advances_abort late id m : manager_ok m → is_Some (m_executions m !! id) → advances late m (abort_controller id m).
Proof.
  intros Hok Hx. eapply (advances_same _ _ _ []); try done; [|by rewrite app_nil_r]. intros id'. cbn.
  destruct (decide (id' = id)) as [->|]; [|by rewrite lookup_insert_ne]. rewrite lookup_insert_eq.
  split; [|by eauto]. intros _. by apply (mo_controllers _ Hok).
Qed.

(** ** Changes of one task *)

Definition elsewhere (id : string) (m m' : manager) : Prop := ∀ id', id' ≠ id →
  jget id' (m_records m') = jget id' (m_records m) ∧ writes_of id' m' = writes_of id' m ∧
  m_executions m' !! id' = m_executions m !! id' ∧ m_files m' !! id' = m_files m !! id' ∧
  (is_Some (m_controllers m' !! id') ↔ is_Some (m_controllers m !! id')).

Lemma advances_at late id r0 m m' es :
  created id (m_log m) = Some r0 → slot_step r0 late (slot_of id m) (slot_of id m') → elsewhere id m m' →
  m_ticket m ≤ m_ticket m' → (jsmap_ok (m_records m) → jsmap_ok (m_records m')) →
  (m_files m !! id = jget id (m_records m) → m_files m' !! id = jget id (m_records m')) →
  ((is_Some (m_controllers m !! id) ↔ is_Some (m_executions m !! id)) →
     (is_Some (m_controllers m' !! id) ↔ is_Some (m_executions m' !! id))) →
  identities m' = identities m → m_log m' = m_log m ++ es → Forall (λ e, creation e = None) es → advances late m m'.
Proof.
  intros Hc Hs He Ht Hm Hf Hct Hi Hl Hes. split; [by exists es|by rewrite Hi|..].
  - intros id' r0' Hc'. destruct (decide (id' = id)) as [->|Hne].
    + apply rtc_once. congruence.
    + destruct (He id' Hne) as (E1 & E2 & E3 & _ & _). apply rtc_once.
      replace (slot_of id' m') with {| sl_record := sl_record (slot_of id' m); sl_writes := sl_writes (slot_of id' m);
        sl_execution := sl_execution (slot_of id' m); sl_next := m_ticket m' |} by (unfold slot_of; cbn; congruence).
      by constructor.
  - intros id' Hc'. destruct (decide (id' = id)) as [->|Hne]; [congruence|].
    destruct (He id' Hne) as (E1 & E2 & E3 & _ & _). unfold empty_slot. cbn. by rewrite E1, E2, E3.
  - done.
  - intros Hf' id'. destruct (decide (id' = id)) as [->|Hne]; [by auto|]. destruct (He id' Hne) as (-> & _ & _ & -> & _). apply Hf'.
  - intros Hc' id'. destruct (decide (id' = id)) as [->|Hne]; [by auto|]. destruct (He id' Hne) as (_ & _ & -> & _ & ->). apply Hc'.
Qed.

Lemma elsewhere_persist id o r m : pr_id r = id → elsewhere id m (persist o r m).
Proof. intros <- id' Hne. by rewrite writes_persist, decide_False by done. Qed.

Lemma elsewhere_execution id x m : elsewhere id m (set_execution id x m).
Proof. intros id' Hne. cbn. by rewrite lookup_insert_ne. Qed.

Lemma elsewhere_store id r ws m : pr_id r = id → elsewhere id m (store_record r ws m).
Proof.
  intros <- id' Hne. rewrite writes_store, decide_False by done. cbn. rewrite jget_set, decide_False by done.
  by rewrite lookup_insert_ne.
Qed.

Lemma elsewhere_end id m : elsewhere id m (end_execution id m).
Proof. intros id' Hne. cbn. by rewrite !lookup_delete_ne. Qed.

Lemma elsewhere_trans id m1 m2 m3 : elsewhere id m1 m2 → elsewhere id m2 m3 → elsewhere id m1 m3.
Proof.
  intros H1 H2 id' Hne. destruct (H1 id' Hne) as (? & ? & ? & ? & E1), (H2 id' Hne) as (? & ? & ? & ? & E2).
  split_and!; [congruence..|]. by rewrite E2.
Qed.

(** What is known of the task of a slot that is not empty. *)
Lemma slot_created m id : manager_ok m → ¬ empty_slot (slot_of id m) →
  ∃ r0, created id (m_log m) = Some r0 ∧ pr_id r0 = id ∧ slot_ok r0 (slot_of id m).
Proof. intros Hok He. pose proof (mo_slots _ Hok id) as Hs. destruct (created id (m_log m)); [naive_solver|done]. Qed.

Lemma execution_created m id x : manager_ok m → m_executions m !! id = Some x →
  ∃ r0, created id (m_log m) = Some r0 ∧ pr_id r0 = id ∧ slot_ok r0 (slot_of id m) ∧ same_task r0 (current_of x).
Proof.
  intros Hok Hx. destruct (slot_created m id Hok) as (r0 & ? & ? & Hs).
  { intros (_ & _ & E). cbn in E. congruence. }
  exists r0. split_and!; [done..|]. by apply (so_current _ _ Hs).
Qed.

Lemma record_created m id r : manager_ok m → jget id (m_records m) = Some r →
  ∃ r0, created id (m_log m) = Some r0 ∧ pr_id r0 = id ∧ slot_ok r0 (slot_of id m) ∧ same_task r0 r.
Proof.
  intros Hok Hr. destruct (slot_created m id Hok) as (r0 & ? & ? & Hs).
  { intros (E & _). cbn in E. congruence. }
  exists r0. split_and!; [done..|]. by apply (so_record _ _ Hs).
Qed.

Lemma write_created m id w : manager_ok m → w ∈ writes_of id m →
  ∃ r0, created id (m_log m) = Some r0 ∧ pr_id r0 = id ∧ slot_ok r0 (slot_of id m) ∧ same_task r0 (w_record w).
Proof.
  intros Hok Hw. destruct (slot_created m id Hok) as (r0 & ? & ? & Hs).
  { intros (_ & E & _). cbn in E. rewrite E in Hw. by apply not_elem_of_nil in Hw. }
  exists r0. split_and!; [done..|]. pose proof (so_writes _ _ Hs) as Hws. cbn in Hws. rewrite Forall_forall in Hws. by apply Hws.
Qed.

(** A record of the map is under its id. *)
Lemma record_id m id r : manager_ok m → jget id (m_records m) = Some r → pr_id r = id.
Proof. intros Hok Hr. destruct (record_created m id r Hok Hr) as (r0 & _ & <- & _ & [? _]). done. Qed.

Lemma record_elem m r : manager_ok m → r ∈ map snd (m_records m) → jget (pr_id r) (m_records m) = Some r.
Proof.
  intros Hok [[id r'] [-> Hin]]%list_elem_of_fmap. cbn. apply jget_elem in Hin; [|apply Hok].
  by rewrite (record_id m id r' Hok Hin).
Qed.

(** ** Writes that end a task *)

Lemma advances_persist late o r r' m : manager_ok m → jget (pr_id r) (m_records m) = Some r →
  same_task r r' → active r' = false → (match o with By_cancel _ _ | By_other => True | _ => False end) →
  advances late m (persist o r' m).
Proof.
  intros Hok Hr [Hid Hk] Ha Ho. destruct (record_created _ _ _ Hok Hr) as (r0 & Hc & _ & Hs & [? ?]).
  eapply (advances_at _ (pr_id r) r0 _ _ []); try done; [|by apply elsewhere_persist|cbn; lia|by rewrite app_nil_r].
  unfold slot_of at 2. rewrite writes_persist, decide_True by done. cbn.
  eapply (ss_ending _ _ (slot_of (pr_id r) m) {| w_ticket := m_ticket m; w_owner := o; w_record := r' |}); cbn; [done|..|done|].
  - split; cbn; congruence.
  - by rewrite Hr.
Qed.

Lemma same_task_complete r s t res e l : same_task r (complete s t res e l r).
Proof. done. Qed.

Section host.
Context `{TaskHost} (options : manager_options).

Lemma active_complete s t res e l r : active (complete s t res e l r) = ACTIVE_STATES s.
Proof. done. Qed.

Lemma refresh_advances late now alive r m r' aw m' : manager_ok m → jget (pr_id r) (m_records m) = Some r →
  refreshRecoveredTask now alive r m = (r', aw, m') →
  advances late m m' ∧ m_records m' = m_records m ∧ m_executions m' = m_executions m ∧ m_calls m' = m_calls m ∧
  m_log m' = m_log m ∧ m_startQueue m' = m_startQueue m ∧ same_task r r' ∧
  (r' = r ∧ aw = [] ∧ m' = m ∨ active r' = false ∧ aw ≠ []).
Proof.
  intros Hok Hr. unfold refreshRecoveredTask. repeat case_match; intros [= <- <- <-].
  all: split_and!; try done; try apply advances_refl; try (by left); try (by right); by eapply advances_persist.
Qed.

Lemma refresh_all_advances late now alive rs : ∀ m rs' aw m', manager_ok m →
  Forall (λ r, jget (pr_id r) (m_records m) = Some r) rs → refresh_all now alive rs m = (rs', aw, m') →
  advances late m m' ∧ m_records m' = m_records m ∧ m_executions m' = m_executions m ∧ m_calls m' = m_calls m ∧
  m_log m' = m_log m ∧ m_startQueue m' = m_startQueue m ∧
  Forall2 (λ r r', same_task r r' ∧ (r' = r ∨ active r' = false)) rs rs' ∧ (aw = [] → rs' = rs ∧ m' = m).
Proof.
  induction rs as [|r rs IH]; intros m rs' aw m' Hok Hrs; cbn.
  - intros [= <- <- <-]. split_and!; try done. apply advances_refl.
  - destruct (refreshRecoveredTask now alive r m) as [[r1 aw1] m1] eqn:E1.
    destruct (refresh_all now alive rs m1) as [[rs2 aw2] m2] eqn:E2. intros [= <- <- <-].
    apply Forall_cons in Hrs as [Hr Hrs].
    destruct (refresh_advances late _ _ _ _ _ _ _ Hok Hr E1) as (A1 & R1 & X1 & C1 & L1 & Q1 & S1 & D1).
    destruct (IH m1 rs2 aw2 m2 (advances_ok _ _ _ A1 Hok)) as (A2 & R2 & X2 & C2 & L2 & Q2 & F2 & D2); [by rewrite R1|done|].
    split_and!; [by eapply advances_trans|congruence..| |].
    + constructor; [|done]. split; [done|]. destruct D1 as [(-> & _)|[? _]]; auto.
    + intros [-> ->]%app_nil. destruct (D2 eq_refl) as [-> ->]. by destruct D1 as [(-> & _ & ->)|[_ ?]].
Qed.

(** ** Calls *)

(** The active records a cancellation works with are the current ones. *)
Definition found_current (c : task_call) (rs : list task) (m : manager) : Prop :=
  (∃ id, tc_request c = Cancel id) → Forall (λ r, active r = true → jget (pr_id r) (m_records m) = Some r) rs.

Lemma after_lookup_advances late n c k now rs m : manager_ok m → (k = First_lookup → found_current c rs m) →
  advances late m (after_lookup options n c k now rs m).
Proof.
  intros Hok Hrs. destruct k as [|fb]; [specialize (Hrs eq_refl)|apply advances_set_phase]. cbn. unfold after_first_lookup, start_listed, cancel_found, stdin_found.
  destruct (tc_request c) as [i|id|w st|id|id input close] eqn:Ec; try apply advances_set_phase.
  - destruct (find_duplicate i rs); [|apply advances_set_phase].
    eapply advances_trans; [apply advances_set_phase|apply advances_release].
  - destruct rs as [|r rs]; [apply advances_set_phase|]. destruct (active r) eqn:Ha; [|apply advances_set_phase].
    assert (jget (pr_id r) (m_records m) = Some r) as Hr.
    { specialize (Hrs (ex_intro _ id Ec)). apply Forall_cons in Hrs as [Hr _]. auto. }
    eapply advances_trans; [|by apply advances_log]. eapply advances_trans; [apply advances_set_phase|].
    eapply advances_persist; [by eapply advances_ok; [apply (advances_set_phase late)|]|exact Hr|done..].
  - destruct rs as [|r rs]; [apply advances_set_phase|]. destruct (_ && _ && _); [|apply advances_set_phase].
    eapply advances_trans; [|by apply advances_log]. eapply advances_trans; [|apply advances_set_phase].
    destruct close; [apply advances_set_stdin|apply advances_refl].
Qed.

Lemma prune_one_advances late id m : manager_ok m → advances late m (prune_one id m).
Proof.
  intros Hok. unfold prune_one. destruct (jget id (m_records m)) as [r|] eqn:Hr; [|apply advances_refl].
  destruct (active r) eqn:Ha; [apply advances_refl|]. destruct (record_created _ _ _ Hok Hr) as (r0 & Hc & _ & _ & _).
  assert (∀ id', jget id' (m_records (removeTaskArtifacts id m)) = if decide (id' = id) then None else jget id' (m_records m)) as Hd.
  { intros id'. apply jget_delete, Hok. }
  eapply (advances_at _ id r0 _ _ []); try done; [..|by rewrite app_nil_r].
  - unfold slot_of at 2. rewrite Hd, decide_True by done. eapply (ss_prune _ _ (slot_of id m)); done.
  - intros id' Hne. rewrite Hd, decide_False by done. cbn. by rewrite lookup_delete_ne.
  - apply jsmap_ok_filter.
  - intros _. rewrite Hd, decide_True by done. cbn. by rewrite lookup_delete_eq.
Qed.

Lemma selected_current c m : manager_ok m → Forall (λ r, jget (pr_id r) (m_records m) = Some r) (selected_records c m).
Proof.
  intros Hok. apply Forall_forall. intros r. unfold selected_records.
  assert (∀ id, r ∈ option_list (jget id (m_records m)) → jget (pr_id r) (m_records m) = Some r) as Hone.
  { intros id Hr. destruct (jget id (m_records m)) as [r'|] eqn:E; [|by apply not_elem_of_nil in Hr].
    apply list_elem_of_singleton in Hr as ->. by rewrite (record_id m id r' Hok E). }
  destruct (tc_request c); rewrite elem_of_rows_filter; intros [Hr _]; by eauto using record_elem.
Qed.

(** What the phase of a call says of its records. *)
Definition phase_current (c : task_call) (m : manager) : Prop :=
  match tc_phase c with P_refreshed First_lookup rs _ => found_current c rs m | _ => True end.

Lemma continue_advances late n now alive m m' c : manager_ok m → m_calls m !! n = Some c → phase_current c m →
  continue_call options n now alive m = Some m' → advances late m m'.
Proof.
  intros Hok Hc Hp. unfold continue_call, phase_current in *. rewrite Hc. cbn [mbind option_bind].
  destruct (tc_phase c) as [|k aw|k rs aw|[|v vs]|r|r|r|r| |r|] eqn:Ep; try done.
  - case_guard; [|done]. cbn. destruct (refresh_all _ _ _ _) as [[rs aw'] m1] eqn:E.
    destruct (refresh_all_advances late _ _ _ _ _ _ _ Hok (selected_current c m Hok) E) as (A & R & _ & _ & _ & _ & _ & Hn).
    intros [= <-]. eapply advances_trans; [exact A|]. destruct aw' as [|? ?]; [|apply advances_set_phase].
    destruct (Hn eq_refl) as [-> ->]. apply after_lookup_advances; [done|]. intros _ _.
    eapply Forall_impl; [by apply selected_current|]. done.
  - case_guard; [|done]. cbn. intros [= <-]. apply after_lookup_advances; [done|]. by intros ->.
  - intros [= <-]. eapply advances_trans; [by apply prune_one_advances|apply advances_set_phase].
  - case_guard; [|done]. intros [= <-]. apply advances_set_phase.
  - intros [= <-]. apply advances_set_phase.
  - destruct (tc_request c); try done. intros [= <-]. apply advances_set_phase.
Qed.

(** ** Executions *)

Lemma slot_persist id o r m : pr_id r = id →
  slot_of id (persist o r m) = {| sl_record := jget id (m_records m);
    sl_writes := push (slot_of id m) {| w_ticket := m_ticket m; w_owner := o; w_record := r |};
    sl_execution := m_executions m !! id; sl_next := S (m_ticket m) |}.
Proof. intros <-. unfold slot_of. by rewrite writes_persist, decide_True. Qed.

(** An execution changes its stage. *)
Lemma set_execution_advances late id x x' m : manager_ok m → m_executions m !! id = Some x →
  (∀ r0, same_task r0 (current_of x) → slot_step r0 late (slot_of id m) (slot_of id (set_execution id x' m))) →
  advances late m (set_execution id x' m).
Proof.
  intros Hok Hx Hs. destruct (execution_created _ _ _ Hok Hx) as (r0 & Hc & _ & _ & Hsame).
  eapply (advances_at _ id r0 _ _ []); try done; [by apply Hs|by apply elsewhere_execution| |by rewrite app_nil_r].
  cbn. rewrite lookup_insert_eq, Hx. by intros ->.
Qed.

(** An execution changes its stage and persists a record. *)
Lemma execution_persist_advances late id x x' r m o : manager_ok m → m_executions m !! id = Some x → pr_id r = pr_id (current_of x) →
  (∀ r0, same_task r0 (current_of x) → slot_step r0 late (slot_of id m)
     {| sl_record := jget id (m_records m);
        sl_writes := push (slot_of id m) {| w_ticket := m_ticket m; w_owner := o; w_record := r |};
        sl_execution := Some x'; sl_next := S (m_ticket m) |}) →
  advances late m (persist o r (set_execution id x' m)).
Proof.
  intros Hok Hx Hr Hs. destruct (execution_created _ _ _ Hok Hx) as (r0 & Hc & Hid & _ & Hsame).
  assert (pr_id r = id) as Hrid by (destruct Hsame; congruence).
  eapply (advances_at _ id r0 _ _ []); try done; [..|by rewrite app_nil_r].
  - rewrite slot_persist by done. cbn. rewrite lookup_insert_eq. by apply Hs.
  - eapply elsewhere_trans; [apply elsewhere_execution|by apply elsewhere_persist].
  - cbn. lia.
  - cbn. rewrite lookup_insert_eq, Hx. by intros ->.
Qed.

Lemma end_execution_advances late id x m : manager_ok m → m_executions m !! id = Some x →
  (∀ r0, slot_step r0 late (slot_of id m) {| sl_record := jget id (m_records m); sl_writes := writes_of id m;
     sl_execution := None; sl_next := m_ticket m |}) →
  advances late m (end_execution id m).
Proof.
  intros Hok Hx Hs. destruct (execution_created _ _ _ Hok Hx) as (r0 & Hc & _ & _ & _).
  eapply (advances_at _ id r0 _ _ []); try done; [..|by rewrite app_nil_r].
  - unfold slot_of at 2. cbn. rewrite lookup_delete_eq. apply Hs.
  - apply elsewhere_end.
  - intros _. cbn. by rewrite !lookup_delete_eq.
Qed.

(** A process id is late when the task has ended or a write that ends it is under way. *)
Definition is_late (id : string) (m : manager) : bool :=
  negb (bool_decide (active <$> jget id (m_records m) = Some true) &&
        forallb (λ w, active (w_record w)) (writes_of id m)).

Lemma is_late_prompt id m : is_late id m = false → prompt_slot (slot_of id m).
Proof.
  unfold is_late. intros Hl. bool_inv. split; cbn.
  - destruct (jget id (m_records m)); naive_solver.
  - apply Forall_forall. intros w Hw. rewrite forallb_forall in H1. apply H1. by apply list_elem_of_In.
Qed.

Lemma pid_advances id pid m m' : manager_ok m → task_step options (L_pid id pid) m = Some m' → advances (if is_late id m then Late else Normal) m m'.
Proof.
  intros Hok. cbn. unfold_step. destruct (m_executions m !! id) as [[| c | | |]|] eqn:Hx; try done. intros [= <-].
  eapply execution_persist_advances; [done..|]. intros r0 Hs.
  eapply (ss_pid _ _ (slot_of id m) c (with_pid pid c)); try done.
  destruct (is_late id m) eqn:E; [by left|right; by apply is_late_prompt].
Qed.

Lemma decide_advances late id now m m' : manager_ok m → decide_execution id now m = Some m' → advances late m m'.
Proof.
  intros Hok. unfold decide_execution. destruct (m_executions m !! id) as [[| |c o tail| |]|] eqn:Hx; try done.
  case_guard as Hd; [|done]. cbn.
  assert (∀ t, tail = Some t → t ∉ map w_ticket (writes_of id m)) as Ht.
  { intros t ->. cbn in Hd. bool_inv. unfold write_done in *. cbn in *. by bool_inv. }
  case_bool_decide as Hcan; intros [= <-].
  - eapply end_execution_advances; [done..|]. intros r0. destruct (jget id (m_records m)) as [r|] eqn:Hr; [|done]. cbn in Hcan.
    rewrite <- Hr. eapply (ss_dropped _ _ (slot_of id m)); try done. unfold active. simplify_eq/=. by rewrite Hcan.
  - destruct o as [raw| |message lc].
    + eapply set_execution_advances; [done..|]. intros r0 Hs. unfold slot_of at 2. cbn. rewrite lookup_insert_eq.
      eapply (ss_decided _ _ (slot_of id m)); try done. left. eexists. split; [done|].
      unfold finished_record. rewrite active_complete. by destruct (run_succeeded _).
    + eapply set_execution_advances; [done..|]. intros r0 Hs. unfold slot_of at 2. cbn. rewrite lookup_insert_eq.
      eapply (ss_decided _ _ (slot_of id m)); try done. right. by eexists _, _.
    + eapply execution_persist_advances; [done..|]. intros r0 Hs. by eapply (ss_failed _ _ (slot_of id m)).
Qed.


(** ** Writes *)

Section write.
Context (late : step_mode) (id : string) (now : Z) (w : task_write) (ws : list task_write) (m : manager).
Context (Hok : manager_ok m) (Hw : writes_of id m = w :: ws).

Let stored : manager := store_record (w_record w) ws m.

Lemma head_created : ∃ r0, created id (m_log m) = Some r0 ∧ pr_id (w_record w) = id ∧ slot_ok r0 (slot_of id m) ∧ same_task r0 (w_record w).
Proof.
  destruct (write_created m id w Hok) as (r0 & ? & <- & ? & Hs); [rewrite Hw; left|].
  exists r0. split_and!; [done| |done..]. apply Hs.
Qed.

(** The record and the writes of the task once the write is done, whatever follows. *)
Lemma store_advances es m' :
  (∀ r0, same_task r0 (w_record w) → slot_ok r0 (slot_of id m) →
     slot_step r0 late (slot_of id m) (slot_of id m')) →
  m_records m' = m_records stored → m_files m' = m_files stored → m_ticket m ≤ m_ticket m' →
  (∀ id', id' ≠ id → writes_of id' m' = writes_of id' m ∧ m_executions m' !! id' = m_executions m !! id' ∧
     m_controllers m' !! id' = m_controllers m !! id') →
  ((is_Some (m_controllers m !! id) ↔ is_Some (m_executions m !! id)) →
     (is_Some (m_controllers m' !! id) ↔ is_Some (m_executions m' !! id))) →
  identities m' = identities m → m_log m' = m_log m ++ es → Forall (λ e, creation e = None) es →
  advances late m m'.
Proof.
  intros Hs Hr Hf Ht He Hc Hi Hl Hes. destruct head_created as (r0 & Hcr & Hid & Hsl & Hsame).
  eapply (advances_at _ id r0 _ _ es); try done; [by auto|..].
  - intros id' Hne. destruct (He id' Hne) as (E1 & E2 & E3). rewrite Hr, Hf, E1, E2, E3. unfold stored.
    destruct (elsewhere_store id (w_record w) ws m Hid id' Hne) as (-> & _ & _ & -> & _). done.
  - rewrite Hr. apply jsmap_ok_set.
  - intros _. rewrite Hr, Hf. cbn. by rewrite Hid, lookup_insert_eq, jget_set, decide_True.
Qed.

Lemma slot_stored : pr_id (w_record w) = id →
  slot_of id stored = {| sl_record := Some (w_record w); sl_writes := ws; sl_execution := m_executions m !! id; sl_next := m_ticket m |}.
Proof.
  intros Hid. unfold slot_of, stored. rewrite writes_store, decide_True by done. cbn. by rewrite jget_set, decide_True.
Qed.

Lemma stored_elsewhere id' : pr_id (w_record w) = id → id' ≠ id → writes_of id' stored = writes_of id' m.
Proof. intros Hid Hne. unfold stored. rewrite writes_store, decide_False by congruence. done. Qed.

Lemma plain_advances : plain w → advances late m stored.
Proof.
  intros Hp. destruct head_created as (r0 & _ & Hid & _).
  eapply (store_advances []); try done; [| |by rewrite app_nil_r].
  - intros r0' Hs _. rewrite slot_stored by done. by eapply (ss_store _ _ (slot_of id m)).
  - intros id' Hne. rewrite stored_elsewhere by done. done.
Qed.

Lemma execution_head_advances : w_owner w = By_execution → advances late m (execution_persisted id stored).
Proof.
  intros Ho. destruct head_created as (r0 & Hcr & Hid & Hsl & Hsame).
  assert (¬ plain w) as Hp by (unfold plain; rewrite Ho; tauto).
  pose proof (so_execution _ _ Hsl) as Hx. cbn in Hx. rewrite Hw in Hx. unfold execution_persisted.
  change (m_executions stored) with (m_executions m).
  destruct (m_executions m !! id) as [[c cm|c|c o tl|c|c]|] eqn:E; cbn in Hx.
  - eapply (store_advances [E_launched id cm]); try done; [..|by constructor].
    + intros r0' _ _. unfold slot_of at 2. cbn. rewrite lookup_insert_eq.
      assert (writes_of id (log_event (E_launched id cm) (set_execution id (X_running c) stored)) = ws) as ->
        by (by pose proof (f_equal sl_writes (slot_stored Hid))).
      rewrite Hid, jget_set, decide_True by done. by eapply (ss_marked _ _ (slot_of id m)).
    + intros id' Hne. cbn. rewrite lookup_insert_ne by done. split; [|done]. by apply stored_elsewhere.
    + cbn. rewrite lookup_insert_eq, E. by intros ->.
  - by destruct Hx as [_ [? _]%Forall_cons].
  - by destruct Hx as [[? _]%Forall_cons _].
  - by destruct Hx as [_ [[? _] _]%Forall_cons].
  - assert (∃ es, m_log (end_execution id (announceFinished c stored)) = m_log m ++ es ∧ Forall (λ e, creation e = None) es) as (es & Hl & Hes).
    { cbn. unfold announceFinished. destruct (tr_state (pr_task c)).
      all: first [by exists []; rewrite app_nil_r|eexists; split; [done|]; by constructor]. }
    assert (m_writes (end_execution id (announceFinished c stored)) = m_writes stored ∧
      m_executions (announceFinished c stored) = m_executions m ∧ m_controllers (announceFinished c stored) = m_controllers m ∧
      m_records (announceFinished c stored) = m_records stored ∧ m_files (announceFinished c stored) = m_files stored ∧
      m_ticket (announceFinished c stored) = m_ticket m ∧ identities (announceFinished c stored) = identities m) as (Ew & Ex & Ec & Er & Ef & Et & Ei).
    { unfold announceFinished. by destruct (tr_state (pr_task c)). }
    eapply (store_advances es); try done.
    + intros r0' _ _. unfold slot_of at 2. unfold writes_of. rewrite Ew. change (default [] (m_writes stored !! id)) with (writes_of id stored).
      rewrite (f_equal sl_writes (slot_stored Hid) : writes_of id stored = ws). cbn. rewrite Ex, lookup_delete_eq, Er, Et. cbn.
      rewrite Hid, jget_set, decide_True by done. by eapply (ss_finish _ _ (slot_of id m)).
    + cbn. lia.
    + intros id' Hne. unfold writes_of. rewrite Ew. cbn. rewrite Ex, Ec, !lookup_delete_ne by done. split; [|done].
      by apply stored_elsewhere.
    + intros _. cbn. by rewrite Ex, Ec, !lookup_delete_eq.
  - by destruct Hx as [[[? _] _]%Forall_cons|(_ & ? & ? & ? & [= <- _] & ? & _)]; [|congruence].
Qed.

Lemma launch_advances n command : w_owner w = By_start n command → advances late m (launch n command now (w_record w) stored).
Proof.
  intros Ho. destruct head_created as (r0 & Hcr & Hid & Hsl & Hsame).
  destruct (start_pending_active r0 (slot_of id m) w ws n command Hsl Hw Ho) as (Hnil & Ha & _ & Hx).
  set (current := mark_running now (w_record w)).
  assert (∀ id', writes_of id' (launch n command now (w_record w) stored) =
    if decide (id = id') then [{| w_ticket := m_ticket m; w_owner := By_execution; w_record := current |}] else writes_of id' m) as Hws.
  { intros id'. change (writes_of id' (launch n command now (w_record w) stored)) with (writes_of id' (persist By_execution current stored)).
    rewrite writes_persist. change (pr_id current) with (pr_id (w_record w)). rewrite Hid. unfold stored.
    rewrite writes_store, Hid. case_decide; [by rewrite Hnil|done]. }
  eapply (store_advances []); try done.
  - intros r0' Hs _. unfold slot_of at 2. rewrite Hws, decide_True by done. cbn. rewrite Hid, lookup_insert_eq, jget_set, decide_True by done.
    eapply (ss_launch _ _ (slot_of id m) w n command current); try done. cbn. by rewrite Hw, Hnil.
  - cbn. lia.
  - intros id' Hne. rewrite Hws, decide_False by done. cbn. by rewrite Hid, !lookup_insert_ne by done.
  - intros _. cbn. by rewrite Hid, !lookup_insert_eq.
  - unfold launch. cbn [m_records]. unfold identities. cbn [release_queue m_calls].
    rewrite (identities_set_phase n _ (persist By_execution current (set_execution (pr_id (w_record w)) (X_marking current command)
      (set_controller (pr_id (w_record w)) stored))) : map _ _ = _). done.
  - cbn. by rewrite app_nil_r.
Qed.

Lemma cancel_advances n pid : w_owner w = By_cancel n pid → advances late m (cancel_persisted n pid (w_record w) stored).
Proof.
  intros Ho. assert (advances late m stored) as Ha by (apply plain_advances; unfold plain; by rewrite Ho).
  pose proof (advances_ok _ _ _ Ha Hok) as Hok'. eapply advances_trans; [exact Ha|]. unfold cancel_persisted.
  case_bool_decide as Hc; [|destruct pid].
  - eapply advances_trans; [|apply advances_set_phase]. apply advances_abort; [done|]. by apply (mo_controllers _ Hok').
  - eapply advances_trans; [apply advances_set_phase|by apply advances_log].
  - apply advances_set_phase.
Qed.
End write.

Lemma write_advances late id now m m' : manager_ok m → complete_write id now m = Some m' → advances late m m'.
Proof.
  intros Hok. unfold complete_write. destruct (writes_of id m) as [|w ws] eqn:Hw; [done|]. intros [= <-].
  destruct (w_owner w) eqn:Ho.
  - by eapply launch_advances.
  - by apply execution_head_advances.
  - by eapply cancel_advances.
  - eapply plain_advances; [done..|]. unfold plain. by rewrite Ho.
Qed.

(** ** Restarts *)

Lemma prune_advances late ids m : manager_ok m → advances late m (foldr prune_one m ids).
Proof.
  intros Hok. induction ids as [|id ids IH]; cbn; [apply advances_refl|].
  eapply advances_trans; [exact IH|]. apply prune_one_advances. by eapply advances_ok.
Qed.

Lemma jget_map_to_list id (f : gmap string task) : jget id (map_to_list f) = f !! id.
Proof.
  assert (jsmap_ok (map_to_list f)) as Hm by apply NoDup_fst_map_to_list.
  destruct (f !! id) as [r|] eqn:E.
  - apply jget_elem; [done|]. by apply elem_of_map_to_list.
  - apply jget_None. intros [[id' r'] [-> Hin]]%list_elem_of_fmap. apply elem_of_map_to_list in Hin. cbn in E. congruence.
Qed.

Lemma restart_advances now m : manager_ok m → advances Restarting m (restart options now m).
Proof.
  intros Hok. unfold restart. set (fresh := Build_manager _ _ _ _ _ _ _ _ _ _ _).
  assert (∀ id, jget id (m_records fresh) = jget id (m_records m)) as Hr.
  { intros id. cbn. rewrite jget_map_to_list. apply Hok. }
  assert (advances Restarting m fresh) as Ha.
  { split; try done.
    - exists []. by rewrite app_nil_r.
    - unfold identities. cbn. by rewrite map_map.
    - intros id r0 Hc. apply rtc_once. unfold slot_of at 2. rewrite Hr. by apply (ss_restart _ _ (slot_of id m)).
    - intros id Hc (Hr0 & _ & _). unfold empty_slot. cbn in *. rewrite jget_map_to_list, (mo_files _ Hok), Hr0. done.
    - intros _. apply NoDup_fst_map_to_list.
    - intros _ id. cbn. by rewrite jget_map_to_list.
    - intros _ id. cbn. by rewrite !lookup_empty. }
  eapply advances_trans; [exact Ha|]. apply prune_advances. by eapply advances_ok.
Qed.

(** ** All steps *)

Definition late_of (l : task_label) (m : manager) : step_mode :=
  match l with L_pid id _ => if is_late id m then Late else Normal | L_restart _ => Restarting | _ => Normal end.

Definition is_creation (l : task_label) : bool := match l with L_create _ _ _ => true | _ => false end.

Lemma step_advances l m m' : manager_ok m → (∀ n c, m_calls m !! n = Some c → phase_current c m) →
  is_creation l = false → task_step options l m = Some m' → advances (late_of l m) m m'.
Proof.
  intros Hok Hp Hl. destruct l; cbn [late_of]; try done; cbn [task_step]; unfold_step.
  - intros [= <-]. unfold begin_task_call. destruct r; apply advances_add_call.
  - case_guard; [|done]. cbn. destruct (m_calls m !! n) as [c|]; [|done]. cbn. destruct (tc_phase c); try done.
    intros [= <-]. apply advances_set_phase.
  - intros E. destruct (m_calls m !! n) as [c|] eqn:Hc; [by eapply continue_advances; eauto|].
    unfold continue_call in E. by rewrite Hc in E.
  - by apply write_advances.
  - by apply pid_advances.
  - destruct (m_executions m !! id) as [[]|]; try done. case_guard; [|done]. intros [= <-]. apply advances_set_stdin.
  - destruct (m_executions m !! id) as [[|c| | |]|] eqn:Hx; try done. intros [= <-].
    eapply set_execution_advances; [done..|]. intros r0 _. unfold slot_of at 2. cbn. rewrite lookup_insert_eq.
    by eapply (ss_ended _ _ (slot_of id m)).
  - by apply decide_advances.
  - destruct (m_executions m !! id) as [[| | |f|]|] eqn:Hx; try done. intros [= <-].
    eapply advances_trans; [apply (advances_result _ id (tr_result (pr_task f)))|].
    eapply execution_persist_advances; [by eapply advances_ok; [apply (advances_result Normal)|]|done..|].
    intros r0 _. by eapply (ss_saved _ _ (slot_of id m)).
  - destruct (m_executions m !! id) as [[| | |f|]|] eqn:Hx; try done. intros [= <-].
    eapply set_execution_advances; [done..|]. intros r0 _. unfold slot_of at 2. cbn. rewrite lookup_insert_eq.
    by eapply (ss_save_failed _ _ (slot_of id m)).
  - intros [= <-]. by apply restart_advances.
Qed.

(** A creation fills the slot of a new task and leaves the others alone. *)
Record creates (r0 : task) (n : nat) (command : string) (m m' : manager) : Prop := {
  cr_new : created (pr_id r0) (m_log m) = None;
  cr_log : m_log m' = m_log m ++ [E_created r0];
  cr_slot : slot_of (pr_id r0) m' = {| sl_record := None;
    sl_writes := [{| w_ticket := m_ticket m; w_owner := By_start n command; w_record := r0 |}];
    sl_execution := None; sl_next := S (m_ticket m) |};
  cr_elsewhere : elsewhere (pr_id r0) m m';
  cr_ticket : m_ticket m' = S (m_ticket m);
  cr_same : m_records m' = m_records m ∧ m_files m' = m_files m ∧ m_executions m' = m_executions m ∧
    m_controllers m' = m_controllers m ∧ identities m' = identities m ∧ m_startQueue m' = m_startQueue m;
  cr_active : active r0 = true;
}.

Lemma create_creates n id now m m' : manager_ok m → task_step options (L_create n id now) m = Some m' →
  ∃ c i, m_calls m !! n = Some c ∧ tc_request c = Start i ∧ tc_phase c = P_pruning [] ∧
    creates (start_record id (tc_scope c) now i) n (si_command i) m m' ∧
    m_calls m' = m_calls (set_phase n (P_starting (start_record id (tc_scope c) now i)) m).
Proof.
  intros Hok. cbn. case_guard as Hid; [|done]. cbn. unfold create_task. destruct (m_calls m !! n) as [c|] eqn:Hc; [|done]. cbn.
  destruct (tc_phase c) as [| | |[|? ?]| | | | | | |] eqn:Hp; try done. destruct (tc_request c) as [i| | | |] eqn:Hr; try done.
  intros [= <-]. exists c, i. split_and!; try done. apply created_elem in Hid.
  pose proof (mo_slots _ Hok id) as Hs. rewrite Hid in Hs. destruct Hs as (E1 & E2 & E3). cbn in E1, E2, E3.
  set (r := start_record id (tc_scope c) now i). assert (pr_id r = id) as Hpr by done.
  assert (∀ id', writes_of id' (log_event (E_created r) (persist (By_start n (si_command i)) r (set_phase n (P_starting r) m))) =
    if decide (id = id') then writes_of id' m ++ [{| w_ticket := m_ticket m; w_owner := By_start n (si_command i); w_record := r |}]
    else writes_of id' m) as Hw by (intros id'; exact (writes_persist id' (By_start n (si_command i)) r (set_phase n (P_starting r) m))).
  split; rewrite ?Hpr; try done.
  - unfold slot_of. rewrite Hw, decide_True by done. cbn. by rewrite E1, E2, E3.
  - intros id' Hne. rewrite Hw, decide_False by done. by split_and!.
  - split_and!; try done. apply identities_set_phase.
Qed.

Lemma creates_ok r0 n command m m' : creates r0 n command m m' → manager_ok m → manager_ok m'.
Proof.
  intros [Hn Hl Hs He Ht (Hr & Hf & Hx & Hct & _ & _) Ha] Hok. split.
  - rewrite Hr. apply Hok.
  - rewrite Hr, Hf. apply Hok.
  - rewrite Hx, Hct. apply Hok.
  - intros id. rewrite Hl, created_app. pose proof (mo_slots _ Hok id) as Hid. destruct (created id (m_log m)) as [r1|] eqn:E.
    + destruct Hid as [Hid Hok1]. split; [done|]. eapply (slot_step_ok r1 Normal (slot_of id m)); [|done].
      assert (id ≠ pr_id r0) as Hne by congruence. destruct (He id Hne) as (E1 & E2 & E3 & _ & _).
      unfold slot_of. rewrite E1, E2, E3, Ht. apply (ss_tick _ _ (slot_of id m)). cbn. lia.
    + cbn. case_bool_decide as Hid'; [subst id|].
      * split; [done|]. rewrite Hs. split; cbn; try done.
        -- apply Forall_singleton. cbn. split; [done|lia].
        -- by repeat constructor.
        -- right. split; [done|]. by eexists _, n, command.
      * destruct (He id) as (E1 & E2 & E3 & _ & _); [congruence|]. destruct Hid as (? & ? & ?). unfold empty_slot. cbn. by rewrite E1, E2, E3.
Qed.
End host.
