(* ===== verification/BackgroundTaskRuns.v ===== *)
(** * BackgroundTaskRuns: the invariant of the manager of background tasks

    Every call works with tasks of its own owner scope, a cancellation that went past its
    write concerns a task that runs or has ended, and its answer is a task that ended. *)

From S2P Require Import Prelude JsMap BackgroundTasks BackgroundTaskSlots BackgroundTaskSteps.

(** A created task that runs or has ended; one that has ended. *)
Definition ended_task (id : string) (m : manager) : Prop := is_Some (created id (m_log m)) ∧ settled (slot_of id m).
Definition closing_task (id : string) (m : manager) : Prop :=
  is_Some (created id (m_log m)) ∧ (is_Some (m_executions m !! id) ∨ settled (slot_of id m)).

(** What a step other than a restart keeps. *)
Record extends (m m' : manager) : Prop := {
  ex_created : ∀ id r0, created id (m_log m) = Some r0 → created id (m_log m') = Some r0;
  ex_calls : identities m `prefix_of` identities m';
  ex_ended : ∀ id, ended_task id m → ended_task id m';
  ex_closing : ∀ id, closing_task id m → closing_task id m';
}.

Lemma settled_steps r0 mode s s' : rtc (slot_step r0 mode) s s' → settled s → settled s'.
Proof. induction 1; [done|]. intros. apply IHrtc. by eapply settled_step. Qed.

Lemma closing_steps r0 mode s s' : rtc (slot_step r0 mode) s s' → mode ≠ Restarting → slot_ok r0 s →
  is_Some (sl_execution s) ∨ settled s → is_Some (sl_execution s') ∨ settled s'.
Proof.
  induction 1 as [|s s1 s' Hs Hss IH]; [done|]. intros Hm Hok [[x Hx]|Hset].
  - apply IH; [done|by eapply slot_step_ok|]. destruct (sl_execution s1) eqn:E; [eauto|]. right.
    eapply execution_over; try done. congruence.
  - right. eapply settled_steps; [done|]. by eapply settled_step.
Qed.

Lemma advances_extends mode m m' : manager_ok m → mode ≠ Restarting → advances mode m m' → extends m m'.
Proof.
  intros Hok Hm Ha. split; [by eauto using ad_created|apply Ha|..]; intros id [[r0 Hc] H];
    (split; [by eauto using ad_created|]); pose proof (ad_slots _ _ _ Ha id r0 Hc) as Hs.
  - by eapply settled_steps.
  - pose proof (mo_slots _ Hok id) as Hid. rewrite Hc in Hid. by eapply (closing_steps r0 mode _ _ Hs Hm); [apply Hid|].
Qed.

Lemma normal_extends m m' : manager_ok m → advances Normal m m' → extends m m'.
Proof. intros Hok Ha. by apply (advances_extends Normal). Qed.

Lemma settled_elsewhere id0 id m m' : elsewhere id0 m m' → id ≠ id0 → settled (slot_of id m) → settled (slot_of id m').
Proof. intros He Hne. destruct (He id Hne) as (E1 & E2 & E3 & _). unfold settled. cbn. by rewrite E1, E2, E3. Qed.

Lemma creates_extends r0 n command m m' : creates r0 n command m m' → extends m m'.
Proof.
  intros [Hn Hl Hs He Ht (Hr & Hf & Hx & Hct & Hi & _) Ha].
  assert (∀ id r1, created id (m_log m) = Some r1 → created id (m_log m') = Some r1) as Hc.
  { intros id r1 E. by rewrite Hl, created_app, E. }
  split; [done|by rewrite Hi|..]; intros id [[r1 E] H]; (split; [eauto|]);
    assert (id ≠ pr_id r0) as Hne by congruence.
  - by eapply settled_elsewhere.
  - rewrite Hx. destruct H as [H|H]; [by left|right]. by eapply settled_elsewhere.
Qed.

Lemma extends_refl m : extends m m.
Proof. by split. Qed.

Section host.
Context `{TaskHost} (options : manager_options).

Definition is_cancel (c : task_call) : Prop := ∃ id, tc_request c = Cancel id.

(** A record, and an answer, of a task started in the scope. *)
Definition owned (m : manager) (scope : option string) (r : task) : Prop :=
  ∃ r0, created (pr_id r) (m_log m) = Some r0 ∧ same_task r0 r ∧ pr_ownerScopeHash r = hashOwnerScope scope.
Definition owned_id (m : manager) (scope : option string) (id : string) : Prop :=
  ∃ r0, created id (m_log m) = Some r0 ∧ pr_ownerScopeHash r0 = hashOwnerScope scope.

Definition inactive_records (rs : list task) : Prop := Forall (λ r, active r = false) rs.

Definition cancelling (m : manager) (req : request) (scope : option string) (r : task) : Prop :=
  req = Cancel (pr_id r) ∧ owned m scope r ∧ active r = false.

Definition last_lookup_ok (m : manager) (c : task_call) (fallback : option task) : Prop :=
  match fallback with
  | Some r => cancelling m (tc_request c) (tc_scope c) r ∧ ended_task (pr_id r) m
  | None => ¬ is_cancel c
  end.

Definition reply_ok (m : manager) (c : task_call) (a : task_reply) : Prop :=
  match a with
  | R_task (Some t) => owned_id m (tc_scope c) (tr_id t) ∧ (is_cancel c → ACTIVE_STATES (tr_state t) = false)
  | R_tasks ts => Forall (λ t, owned_id m (tc_scope c) (tr_id t)) ts
  | R_stdin (Some t) => owned_id m (tc_scope c) (tr_id t)
  | _ => True
  end.

Definition call_ok (m : manager) (c : task_call) : Prop :=
  match tc_phase c with
  | P_refreshed k rs _ => Forall (owned m (tc_scope c)) rs ∧ (is_cancel c → inactive_records rs) ∧
      match k with First_lookup => True | Last_lookup fallback => last_lookup_ok m c fallback end
  | P_lookup (Last_lookup fallback) _ => last_lookup_ok m c fallback
  | P_aborted r => cancelling m (tc_request c) (tc_scope c) r ∧ closing_task (pr_id r) m
  | P_terminating r => cancelling m (tc_request c) (tc_scope c) r ∧ ended_task (pr_id r) m
  | P_returned a => reply_ok m c a
  | _ => True
  end.

Definition write_ok (m : manager) (w : task_write) : Prop :=
  match w_owner w with
  | By_cancel n _ => ∃ req scope, identities m !! n = Some (req, scope) ∧ cancelling m req scope (w_record w)
  | By_start n _ => ∃ i scope, identities m !! n = Some (Start i, scope) ∧ owned m scope (w_record w)
  | _ => True
  end.

Definition event_ok (m : manager) (e : task_event) : Prop :=
  match e with
  | E_cancelled n id | E_stdin n id _ => ∃ req scope, identities m !! n = Some (req, scope) ∧ owned_id m scope id
  | _ => True
  end.

Record inv (m : manager) : Prop := {
  inv_ok : manager_ok m;
  inv_calls : ∀ n c, m_calls m !! n = Some c → call_ok m c;
  inv_writes : ∀ id w, w ∈ writes_of id m → write_ok m w;
  inv_log : ∀ e, e ∈ m_log m → event_ok m e;
}.

(** ** Stability *)

Lemma owned_extends m m' scope r : extends m m' → owned m scope r → owned m' scope r.
Proof. intros He (r0 & ? & ? & ?). exists r0. split_and!; [by apply (ex_created _ _ He)|done..]. Qed.

Lemma owned_id_extends m m' scope id : extends m m' → owned_id m scope id → owned_id m' scope id.
Proof. intros He (r0 & ? & ?). exists r0. split; [by apply (ex_created _ _ He)|done]. Qed.

Lemma cancelling_extends m m' req scope r : extends m m' → cancelling m req scope r → cancelling m' req scope r.
Proof. intros He (? & ? & ?). split_and!; try done. by eapply owned_extends. Qed.

Lemma last_lookup_extends m m' c fb : extends m m' → last_lookup_ok m c fb → last_lookup_ok m' c fb.
Proof.
  intros He. destruct fb; cbn; [|done]. intros [? ?]. split; [by eapply cancelling_extends|by apply (ex_ended _ _ He)].
Qed.

Lemma reply_extends m m' c a : extends m m' → reply_ok m c a → reply_ok m' c a.
Proof.
  intros He. destruct a as [[t|]|ts|[t|]|]; cbn; try done.
  - intros [? ?]. split; [by eapply owned_id_extends|done].
  - intros Ht. eapply Forall_impl; [exact Ht|]. intros. by eapply owned_id_extends.
  - intros. by eapply owned_id_extends.
Qed.

Lemma call_extends m m' c : extends m m' → call_ok m c → call_ok m' c.
Proof.
  intros He. unfold call_ok. destruct (tc_phase c) as [|[|fb] aw|k rs aw|vs|r|r|r|r| |a|]; try done.
  - by apply last_lookup_extends.
  - intros (Ho & ? & Hk). split_and!; [|done|destruct k; [done|by eapply last_lookup_extends]].
    eapply Forall_impl; [exact Ho|]. intros. by eapply owned_extends.
  - intros [? ?]. split; [by eapply cancelling_extends|by apply (ex_closing _ _ He)].
  - intros [? ?]. split; [by eapply cancelling_extends|by apply (ex_ended _ _ He)].
  - by apply reply_extends.
Qed.

Lemma identities_extends m m' n x : extends m m' → identities m !! n = Some x → identities m' !! n = Some x.
Proof. intros He Hn. eapply prefix_lookup_Some; [exact Hn|apply He]. Qed.

Lemma write_extends m m' w : extends m m' → write_ok m w → write_ok m' w.
Proof.
  intros He. unfold write_ok. destruct (w_owner w); try done; intros (a & b & Hi & ?); exists a, b;
    (split; [by eapply identities_extends|]); [by eapply owned_extends|by eapply cancelling_extends].
Qed.

Lemma event_extends m m' e : extends m m' → event_ok m e → event_ok m' e.
Proof.
  intros He. destruct e; cbn; try done; intros (a & b & Hi & ?); exists a, b;
    (split; [by eapply identities_extends|by eapply owned_id_extends]).
Qed.

(** A step keeps the invariant when what it adds is as it should be. *)
Lemma inv_extends m m' : inv m → manager_ok m' → extends m m' →
  (∀ n c, m_calls m' !! n = Some c → m_calls m !! n = Some c ∨ call_ok m' c) →
  (∀ id w, w ∈ writes_of id m' → w ∈ writes_of id m ∨ write_ok m' w) →
  (∀ e, e ∈ m_log m' → e ∈ m_log m ∨ event_ok m' e) → inv m'.
Proof.
  intros Hi Hok He Hc Hw Hl. split; [done|..].
  - intros n c Hn. destruct (Hc n c Hn) as [?|?]; [|done]. eapply call_extends; [done|]. by eapply inv_calls.
  - intros id w Hn. destruct (Hw id w Hn) as [?|?]; [|done]. eapply write_extends; [done|]. by eapply inv_writes.
  - intros e Hn. destruct (Hl e Hn) as [?|?]; [|done]. eapply event_extends; [done|]. by apply inv_log.
Qed.

(** ** Calls *)

Lemma set_phase_calls n p m n' c' : m_calls (set_phase n p m) !! n' = Some c' → m_calls m !! n' = Some c' ∨
  ∃ c, n' = n ∧ m_calls m !! n = Some c ∧ c' = {| tc_request := tc_request c; tc_scope := tc_scope c; tc_phase := p |}.
Proof.
  cbn. destruct (decide (n' = n)) as [->|]; [|rewrite list_lookup_alter_ne by done; by left].
  rewrite list_lookup_alter_eq. intros (c & Hc & ->)%fmap_Some. right. by exists c.
Qed.

Lemma persist_writes id w o r m : w ∈ writes_of id (persist o r m) → w ∈ writes_of id m ∨ (w_owner w = o ∧ w_record w = r).
Proof. rewrite writes_persist. case_decide; [|by left]. intros [?| ->%list_elem_of_singleton]%elem_of_app; [by left|by right]. Qed.

Lemma log_elem (e e' : task_event) l : e ∈ l ++ [e'] → e ∈ l ∨ e = e'.
Proof. intros [?|?%list_elem_of_singleton]%elem_of_app; auto. Qed.

(** The phase of a call changes and nothing else. *)
Lemma set_phase_inv n p m c : inv m → m_calls m !! n = Some c →
  call_ok m {| tc_request := tc_request c; tc_scope := tc_scope c; tc_phase := p |} → inv (set_phase n p m).
Proof.
  intros Hi Hc Hp. pose proof (advances_set_phase Normal n p m) as Ha.
  pose proof (normal_extends _ _ (inv_ok _ Hi) Ha) as He.
  apply (inv_extends m); try done; [exact (advances_ok _ _ _ Ha (inv_ok _ Hi))| |by left|by left].
  intros n' c' Hc'. apply set_phase_calls in Hc' as [?|(c0 & -> & ? & ->)]; [by left|right]. simplify_eq.
  by eapply call_extends.
Qed.

Lemma same_tasks_inv m m' : inv m → manager_ok m' → extends m m' → m_calls m' = m_calls m → m_writes m' = m_writes m →
  (∀ e, e ∈ m_log m' → e ∈ m_log m ∨ event_ok m' e) → inv m'.
Proof. intros Hi Hok He Hc Hw Hl. apply (inv_extends m); try done; [rewrite Hc|unfold writes_of; rewrite Hw]; by left. Qed.

Lemma log_inv e m : inv m → creation e = None → event_ok m e → inv (log_event e m).
Proof.
  intros Hi He Hev. pose proof (advances_log Normal e m He) as Ha.
  pose proof (normal_extends _ _ (inv_ok _ Hi) Ha) as Hex.
  apply (same_tasks_inv m); try done; [exact (advances_ok _ _ _ Ha (inv_ok _ Hi))|].
  intros e' [?| ->]%log_elem; [by left|right]. by eapply event_extends.
Qed.

Lemma release_inv m : inv m → inv (release_queue m).
Proof.
  intros Hi. pose proof (advances_release Normal m) as Ha. pose proof (normal_extends _ _ (inv_ok _ Hi) Ha).
  apply (same_tasks_inv m); try done; [exact (advances_ok _ _ _ Ha (inv_ok _ Hi))|by left].
Qed.

Lemma set_stdin_inv id b m : inv m → inv (set_stdin id b m).
Proof.
  intros Hi. pose proof (advances_set_stdin Normal id b m) as Ha. pose proof (normal_extends _ _ (inv_ok _ Hi) Ha).
  apply (same_tasks_inv m); try done; [exact (advances_ok _ _ _ Ha (inv_ok _ Hi))|by left].
Qed.

(** A write is added. *)
Lemma persist_inv o r m : inv m → advances Normal m (persist o r m) →
  write_ok m {| w_ticket := m_ticket m; w_owner := o; w_record := r |} → inv (persist o r m).
Proof.
  intros Hi Ha Hw. pose proof (normal_extends _ _ (inv_ok _ Hi) Ha) as He.
  apply (inv_extends m); try done; [exact (advances_ok _ _ _ Ha (inv_ok _ Hi))|by left| |by left].
  intros id w [?|[Ho Hr]]%persist_writes; [by left|right]. eapply write_extends; [done|]. unfold write_ok in *. cbn in Hw.
  by rewrite Ho, Hr.
Qed.

Lemma call_identity m n c : m_calls m !! n = Some c → identities m !! n = Some (tc_request c, tc_scope c).
Proof. intros Hc. unfold identities. by rewrite list_lookup_fmap, Hc. Qed.

Lemma owned_task_id m scope r : owned m scope r → owned_id m scope (pr_id r).
Proof. intros (r0 & ? & [_ Hk] & Ho). exists r0. split; [done|]. unfold task_key in Hk. congruence. Qed.

Lemma list_records_elem w s rs r : r ∈ list_records w s rs → r ∈ rs.
Proof. unfold list_records. rewrite order_by_perm, !elem_of_rows_filter. by intros [[? _] _]. Qed.

Lemma find_duplicate_elem i rs d : find_duplicate i rs = Some d → d ∈ rs.
Proof.
  unfold find_duplicate. intros [Hin _]%List.find_some. apply list_elem_of_In in Hin. by eapply list_records_elem.
Qed.

Section lookup.
Context (n : nat) (c : task_call) (now : Z) (rs : list task) (m : manager).
Context (Hi : inv m) (Hc : m_calls m !! n = Some c) (Ho : Forall (owned m (tc_scope c)) rs).

Lemma found_owned r : r ∈ rs → owned_id m (tc_scope c) (pr_id r).
Proof. rewrite Forall_forall in Ho. intros Hr. by apply owned_task_id, Ho. Qed.

Lemma head_owned r : head rs = Some r → r ∈ rs.
Proof. destruct rs; [done|]. intros [= ->]. left. Qed.

Lemma after_first_lookup_inv :
  (∀ id, tc_request c = Cancel id → Forall (λ r, active r = true → pr_id r = id ∧ jget (pr_id r) (m_records m) = Some r) rs) →
  inv (after_first_lookup options n c now rs m).
Proof.
  intros Hcur. unfold after_first_lookup, start_listed, cancel_found, stdin_found.
  assert (∀ r, r ∈ rs → ¬ is_cancel c → inv (set_phase n (P_returned (R_task (Some (toPublicRecord r)))) m)) as Hret.
  { intros r Hr Hnc. eapply set_phase_inv; [done..|]. cbn. split; [by apply found_owned|]. by intros ?%Hnc. }
  destruct (tc_request c) as [i|id|w st|id|id input close] eqn:Ec.
  - destruct (find_duplicate i rs) as [d|] eqn:Ed.
    + apply release_inv, Hret; [by eapply find_duplicate_elem|]. intros [? ?]. congruence.
    + by eapply set_phase_inv.
  - destruct (head rs) as [r|] eqn:Eh; cbn; [|by eapply set_phase_inv].
    apply Hret; [by apply head_owned|]. intros [? ?]. congruence.
  - eapply set_phase_inv; [done..|]. cbn. apply Forall_map, Forall_forall. intros r Hr.
    apply found_owned. by apply list_records_elem in Hr.
  - destruct rs as [|r rs'] eqn:Ers; [by eapply set_phase_inv|]. specialize (Hcur id eq_refl).
    apply Forall_cons in Hcur as [Hr _], Ho as [Hor _]. destruct (active r) eqn:Ha.
    + destruct (Hr eq_refl) as [Hid Hj].
      assert (inv (set_phase n (P_cancelling (cancelled_record now r)) m)) as Hi1 by by eapply set_phase_inv.
      assert (owned_id m (tc_scope c) (pr_id r)) as Hoid by by apply owned_task_id.
      apply log_inv; [|done|].
      * apply persist_inv; [done| |].
        -- eapply advances_persist; [by apply inv_ok|exact Hj|done..].
        -- exists (Cancel id), (tc_scope c). rewrite identities_set_phase, (call_identity _ _ _ Hc), Ec. split; [done|].
           split_and!; [by rewrite <- Hid| |done]. destruct Hor as (r0 & ? & [? ?] & ?). by exists r0.
      * exists (tc_request c), (tc_scope c). split; [|done].
        change (identities (set_phase n (P_cancelling (cancelled_record now r)) m) !! n = Some (tc_request c, tc_scope c)).
        rewrite identities_set_phase. by apply call_identity.
    + eapply set_phase_inv; [done..|]. cbn. split; [by apply owned_task_id|done].
  - destruct rs as [|r rs'] eqn:Ers; [by eapply set_phase_inv|]. destruct (_ && _ && _); [|by eapply set_phase_inv].
    apply Forall_cons in Ho as [Hor _].
    apply log_inv; [|done|].
    + eapply set_phase_inv; [by destruct close; [apply set_stdin_inv|]| |done]. by destruct close.
    + exists (tc_request c), (tc_scope c). rewrite identities_set_phase. split; [destruct close; by apply call_identity|].
      destruct (owned_task_id _ _ _ Hor) as (r0 & ? & ?). exists r0. by destruct close.
Qed.

Lemma after_lookup_inv k :
  (∀ id, tc_request c = Cancel id → Forall (λ r, active r = true → pr_id r = id ∧ jget (pr_id r) (m_records m) = Some r) rs) →
  match k with First_lookup => True | Last_lookup fb => last_lookup_ok m c fb ∧ (is_cancel c → inactive_records rs) end →
  inv (after_lookup options n c k now rs m).
Proof.
  intros Hcur Hk. destruct k as [|fb]; [by apply after_first_lookup_inv|]. destruct Hk as [Hl Hin]. cbn.
  eapply set_phase_inv; [done..|]. cbn.
  assert (∀ r, head rs = Some r → owned_id m (tc_scope c) (tr_id (pr_task r)) ∧ (is_cancel c → active r = false)) as Hh.
  { intros r Hr%head_owned. split; [by apply found_owned|]. intros Hcn. specialize (Hin Hcn). unfold inactive_records in Hin.
    rewrite Forall_forall in Hin. by apply Hin. }
  assert (reply_ok m c (R_task (or_else (toPublicRecord <$> head rs) (toPublicRecord <$> fb)))) as Hr.
  { destruct (head rs) as [r|] eqn:Eh; cbn.
    - by destruct (Hh r eq_refl).
    - destruct fb as [r|]; [|done]. cbn. destruct Hl as [(_ & Hor & ?) _]. split; [by apply (owned_task_id m (tc_scope c) r)|done]. }
  match goal with |- reply_ok _ _ ?a => change (reply_ok m c a) end. destruct (tc_request c) eqn:Ec; try exact Hr.
  destruct (head rs) as [r|] eqn:Eh; cbn; [|done]. by destruct (Hh r eq_refl).
Qed.
End lookup.

Lemma refresh_writes now alive r m r' aw m' id w : refreshRecoveredTask now alive r m = (r', aw, m') →
  w ∈ writes_of id m' → w ∈ writes_of id m ∨ w_owner w = By_other.
Proof.
  unfold refreshRecoveredTask. repeat case_match; intros [= <- <- <-]; auto; intros [?|[? _]]%persist_writes; auto.
Qed.

Lemma refresh_all_writes now alive rs id w : ∀ m rs' aw m', refresh_all now alive rs m = (rs', aw, m') →
  w ∈ writes_of id m' → w ∈ writes_of id m ∨ w_owner w = By_other.
Proof.
  induction rs as [|r rs IH]; cbn; intros m rs' aw m'; [intros [= <- <- <-]; auto|].
  destruct (refreshRecoveredTask now alive r m) as [[r1 aw1] m1] eqn:E1.
  destruct (refresh_all now alive rs m1) as [[rs2 aw2] m2] eqn:E2. intros [= <- <- <-] Hw.
  destruct (IH _ _ _ _ E2 Hw) as [Hw1|]; [|by right]. by eapply refresh_writes.
Qed.

Lemma other_write_ok m w : w_owner w = By_other → write_ok m w.
Proof. unfold write_ok. by intros ->. Qed.

Lemma refresh_all_inv now alive rs m rs' aw m' : inv m → Forall (λ r, jget (pr_id r) (m_records m) = Some r) rs →
  refresh_all now alive rs m = (rs', aw, m') → inv m'.
Proof.
  intros Hi Hrs E. destruct (refresh_all_advances Normal _ _ _ _ _ _ _ (inv_ok _ Hi) Hrs E) as (Ha & _ & _ & Hc & Hl & _).
  apply (inv_extends m); [done|by eapply advances_ok; [|by apply inv_ok]|by apply normal_extends; [apply inv_ok|]|..].
  - rewrite Hc. auto.
  - intros id w Hw. destruct (refresh_all_writes _ _ _ _ _ _ _ _ _ E Hw); auto using other_write_ok.
  - rewrite Hl. auto.
Qed.

Lemma selected_owned m c : manager_ok m → Forall (owned m (tc_scope c)) (selected_records c m).
Proof.
  intros Hok. pose proof (selected_current c m Hok) as Hcur. rewrite Forall_forall in *. intros r Hr. specialize (Hcur r Hr).
  destruct (record_created m _ _ Hok Hcur) as (r0 & ? & _ & _ & ?). exists r0. split_and!; try done.
  unfold selected_records, canAccessRecord in Hr. destruct (tc_request c); apply elem_of_rows_filter in Hr as [_ ?]; by bool_inv.
Qed.

Lemma selected_cancel m c id : manager_ok m → tc_request c = Cancel id →
  selected_records c m = [] ∨ ∃ r, selected_records c m = [r] ∧ pr_id r = id ∧ jget id (m_records m) = Some r.
Proof.
  intros Hok Hc. unfold selected_records. rewrite Hc. destruct (jget id (m_records m)) as [r|] eqn:E; cbn; [|by left].
  destruct (canAccessRecord r (tc_scope c)); [right|by left]. exists r. split_and!; try done. by apply (record_id m).
Qed.

Lemma refresh_all_owned m scope rs rs' : Forall (owned m scope) rs →
  Forall2 (λ r r', same_task r r' ∧ (r' = r ∨ active r' = false)) rs rs' → Forall (owned m scope) rs'.
Proof.
  intros Ho. induction 1 as [|r r' rs rs' [[Hid Hk] _] _ IH]; [done|]. apply Forall_cons in Ho as [(r0 & ? & [? ?] & ?) Ho].
  constructor; [|by auto]. exists r0. split_and!; [congruence|split; congruence|]. unfold task_key in Hk. congruence.
Qed.

Lemma lookup_inv n c k aw now alive m rs aw' m1 : inv m → m_calls m !! n = Some c → tc_phase c = P_lookup k aw →
  refresh_all now alive (selected_records c m) m = (rs, aw', m1) →
  inv (match aw' with [] => after_lookup options n c k now rs m1 | _ => set_phase n (P_refreshed k rs aw') m1 end).
Proof.
  intros Hi Hc Hp E. pose proof (inv_ok _ Hi) as Hok. pose proof (selected_current c m Hok) as Hcur.
  destruct (refresh_all_advances Normal _ _ _ _ _ _ _ Hok Hcur E) as (Ha & Hr & _ & Hcs & Hl & _ & H2 & Hn).
  pose proof (refresh_all_inv _ _ _ _ _ _ _ Hi Hcur E) as Hi1. pose proof (normal_extends _ _ Hok Ha) as He.
  assert (m_calls m1 !! n = Some c) as Hc1 by by rewrite Hcs.
  assert (Forall (owned m1 (tc_scope c)) rs) as Ho.
  { eapply Forall_impl; [|intros ?; by apply owned_extends]. eapply refresh_all_owned; [by apply selected_owned|done]. }
  pose proof (inv_calls _ Hi n c Hc) as Hcall. unfold call_ok in Hcall. rewrite Hp in Hcall.
  assert (match k with First_lookup => True | Last_lookup fb => last_lookup_ok m1 c fb end) as Hk.
  { destruct k; [done|]. by eapply last_lookup_extends. }
  assert (match k with First_lookup => True | Last_lookup fb => is_cancel c → inactive_records rs end) as Hlast.
  { destruct k as [|fb]; [done|]. intros [id Ec]. destruct fb as [r|]; [|exfalso; apply Hcall; by exists id].
    destruct Hcall as [(Eq & _) (_ & _ & _ & Hin)]. assert (pr_id r = id) as Hid by congruence.
    destruct (selected_cancel m c id Hok Ec) as [Es|(r1 & Es & _ & Hj)]; rewrite Es in H2.
    - inversion H2. constructor.
    - inversion H2 as [|? r1' ? ? [_ H3] H4]; subst. inversion H4; subst. constructor; [|done].
      destruct H3 as [->|?]; [|done]. apply Hin. by rewrite Eq in Ec; simplify_eq. }
  destruct aw' as [|a aw'].
  - destruct (Hn eq_refl) as [-> ->]. apply after_lookup_inv; try done; [|by destruct k].
    intros id Ec. destruct (selected_cancel m c id Hok Ec) as [->|(r1 & -> & Hid & Hj)]; [done|].
    constructor; [|done]. intros _. split; [done|]. by rewrite Hid.
  - eapply set_phase_inv; [done..|]. cbn. split_and!; [done| |done]. intros [id Ec].
    destruct (selected_cancel m c id Hok Ec) as [Es|(r1 & Es & Hid & Hj)]; rewrite Es in E; cbn in E; [by simplify_eq|].
    destruct (refreshRecoveredTask now alive r1 m) as [[r2 aw2] m2] eqn:E1. rewrite app_nil_r in E. simplify_eq.
    destruct (refresh_advances Normal now alive r1 m r2 (a :: aw') m1 Hok) as (_ & _ & _ & _ & _ & _ & _ & [(_ & ? & _)|[? _]]); try done.
    by constructor.
Qed.

Lemma refreshed_inv n c k rs aw now m : inv m → m_calls m !! n = Some c → tc_phase c = P_refreshed k rs aw →
  inv (after_lookup options n c k now rs m).
Proof.
  intros Hi Hc Hp. pose proof (inv_calls _ Hi n c Hc) as Hcall. unfold call_ok in Hcall. rewrite Hp in Hcall.
  destruct Hcall as (Ho & Hin & Hk). apply after_lookup_inv; try done; [|by destruct k].
  intros id Ec. eapply Forall_impl; [apply Hin; by exists id|]. cbn. congruence.
Qed.

Lemma prune_one_inv id m : inv m → inv (prune_one id m).
Proof.
  intros Hi. pose proof (prune_one_advances Normal id m (inv_ok _ Hi)) as Ha.
  assert (m_calls (prune_one id m) = m_calls m ∧ m_writes (prune_one id m) = m_writes m ∧ m_log (prune_one id m) = m_log m) as (? & ? & El).
  { unfold prune_one. by repeat case_match. }
  apply (same_tasks_inv m); try done; [exact (advances_ok _ _ _ Ha (inv_ok _ Hi))|exact (normal_extends _ _ (inv_ok _ Hi) Ha)|].
  rewrite El. auto.
Qed.

Lemma continue_inv n now alive m m' : inv m → continue_call options n now alive m = Some m' → inv m'.
Proof.
  intros Hi. unfold continue_call. destruct (m_calls m !! n) as [c|] eqn:Hc; [|done]. cbn [mbind option_bind].
  pose proof (inv_calls _ Hi n c Hc) as Hcall. unfold call_ok in Hcall.
  destruct (tc_phase c) as [|k aw|k rs aw|[|v vs]|r|r|r|r| |r|] eqn:Ep; try done.
  - case_guard; [|done]. cbn. destruct (refresh_all _ _ _ _) as [[rs aw'] m1] eqn:E. intros [= <-]. by eapply lookup_inv.
  - case_guard; [|done]. cbn. intros [= <-]. by eapply refreshed_inv.
  - intros [= <-]. eapply set_phase_inv; [by apply prune_one_inv| |done]. unfold prune_one. by repeat case_match.
  - case_guard as Hx; [|done]. cbn. intros [= <-]. eapply set_phase_inv; [done..|]. cbn. destruct Hcall as [? [? [[? ?]|?]]]; [congruence|].
    by split.
  - intros [= <-]. by eapply set_phase_inv.
  - destruct (tc_request c) eqn:Er; try done. intros [= <-]. eapply set_phase_inv; [done..|]. cbn. intros [? ?]. cbn in *. congruence.
Qed.

(** ** Writes, creations and executions *)

Lemma create_inv n id now m m' : inv m → task_step options (L_create n id now) m = Some m' → inv m'.
Proof.
  intros Hi E. destruct (create_creates options n id now m m' (inv_ok _ Hi) E) as (c & i & Hc & Hr & Hp & Hcr & Hcs).
  pose proof (creates_extends _ _ _ _ _ Hcr) as He. set (r := start_record id (tc_scope c) now i) in *.
  assert (owned m' (tc_scope c) r) as Ho.
  { exists r. split_and!; try done. rewrite (cr_log _ _ _ _ _ Hcr), created_app, (cr_new _ _ _ _ _ Hcr). cbn.
    by rewrite bool_decide_true. }
  assert (identities m' !! n = Some (Start i, tc_scope c)) as Hid.
  { eapply identities_extends; [done|]. rewrite (call_identity _ _ _ Hc). by rewrite Hr. }
  apply (inv_extends m); try done; [eapply creates_ok; [done|by apply inv_ok]|..].
  - intros n' c'. rewrite Hcs. intros [?|(c0 & -> & ? & ->)]%set_phase_calls; [by left|by right].
  - intros id' w Hw. destruct (decide (id' = pr_id r)) as [->|Hne].
    + right. rewrite (f_equal sl_writes (cr_slot _ _ _ _ _ Hcr) : writes_of (pr_id r) m' = _) in Hw. cbn [sl_writes] in Hw.
      apply list_elem_of_singleton in Hw as ->. by exists i, (tc_scope c).
    + left. destruct (cr_elsewhere _ _ _ _ _ Hcr id' Hne) as (_ & Ew & _). by rewrite <- Ew.
  - rewrite (cr_log _ _ _ _ _ Hcr). intros e [?| ->]%log_elem; [by left|by right].
Qed.

Section write.
Context (id : string) (now : Z) (w : task_write) (ws : list task_write) (m : manager).
Context (Hi : inv m) (Hw : writes_of id m = w :: ws).

Lemma stored_writes id' w' : w' ∈ writes_of id' (store_record (w_record w) ws m) → w' ∈ writes_of id' m.
Proof.
  destruct (head_created id w ws m (inv_ok _ Hi) Hw) as (_ & _ & Hid & _). rewrite writes_store. case_decide; [|done].
  intros ?. rewrite <- H0, Hid, Hw. by right.
Qed.

Lemma store_inv m' : advances Normal m m' → m_calls m' = m_calls m →
  (∀ id' w', w' ∈ writes_of id' m' → w' ∈ writes_of id' (store_record (w_record w) ws m) ∨ write_ok m' w') →
  (∀ e, e ∈ m_log m' → e ∈ m_log m ∨ event_ok m' e) → inv m'.
Proof.
  intros Ha Hc Hws Hl. apply (inv_extends m); try done.
  - exact (advances_ok _ _ _ Ha (inv_ok _ Hi)).
  - exact (normal_extends _ _ (inv_ok _ Hi) Ha).
  - rewrite Hc. auto.
  - intros id' w' Hw'. destruct (Hws id' w' Hw'); auto using stored_writes.
Qed.

Lemma execution_head_inv : w_owner w = By_execution → inv (execution_persisted id (store_record (w_record w) ws m)).
Proof.
  intros Ho. pose proof (execution_head_advances Normal id w ws m (inv_ok _ Hi) Hw Ho) as Ha.
  apply store_inv; [done|..]; unfold execution_persisted, announceFinished; repeat case_match; try done; auto.
  all: intros ev; cbn; intros [?| ->]%log_elem; [by left|by right].
Qed.

Lemma launch_inv n command : w_owner w = By_start n command → inv (launch n command now (w_record w) (store_record (w_record w) ws m)).
Proof.
  intros Ho. pose proof (launch_advances Normal id now w ws m (inv_ok _ Hi) Hw n command Ho) as Ha.
  pose proof (normal_extends _ _ (inv_ok _ Hi) Ha) as He.
  pose proof (inv_writes _ Hi id w ltac:(rewrite Hw; left)) as Hwok. unfold write_ok in Hwok. rewrite Ho in Hwok.
  destruct Hwok as (i & scope & Hid & Hown).
  apply (inv_extends m); try done; [exact (advances_ok _ _ _ Ha (inv_ok _ Hi))|..].
  - intros n' c' Hc'. apply (set_phase_calls n _ (store_record (w_record w) ws m)) in Hc' as [?|(c0 & -> & Hc0 & ->)]; [by left|right].
    rewrite (call_identity m n c0 Hc0) in Hid. simplify_eq. cbn. split.
    + eapply owned_id_extends; [done|]. by apply owned_task_id.
    + intros [? ?]. cbn in *. congruence.
  - intros id' w' Hw'. apply (persist_writes id' w' By_execution (mark_running now (w_record w))) in Hw' as [?|[E _]].
    + left. by apply stored_writes.
    + right. unfold write_ok. by rewrite E.
  - auto.
Qed.

Lemma task_cancel_inv n pid : w_owner w = By_cancel n pid → inv (cancel_persisted n pid (w_record w) (store_record (w_record w) ws m)).
Proof.
  intros Ho. set (st := store_record (w_record w) ws m).
  assert (advances Normal m st) as Ha by (apply (plain_advances Normal id w ws m); [apply Hi|done|unfold plain; by rewrite Ho]).
  assert (inv st) as Hist by (apply store_inv; auto). pose proof (normal_extends _ _ (inv_ok _ Hi) Ha) as He.
  pose proof (inv_writes _ Hi id w ltac:(rewrite Hw; left)) as Hwok. unfold write_ok in Hwok. rewrite Ho in Hwok.
  destruct Hwok as (req & scope & Hid & Hcan). apply (cancelling_extends _ _ _ _ _ He) in Hcan.
  unfold identities in Hid. rewrite list_lookup_fmap in Hid. apply fmap_Some in Hid as (c & Hc & [= -> ->]).
  destruct (head_created id w ws m (inv_ok _ Hi) Hw) as (r0 & Hcr & Hpr & Hsl & Hsame).
  assert (is_Some (created (pr_id (w_record w)) (m_log st))) as Hcrs by (rewrite Hpr; exists r0; exact Hcr).
  assert (m_executions st !! pr_id (w_record w) = None → ended_task (pr_id (w_record w)) st) as Hend.
  { intros Hx. split; [done|]. pose proof (mo_slots _ (inv_ok _ Hist) id) as Hs. rewrite (Hcr : created id (m_log st) = _) in Hs.
    destruct Hs as [_ [_ _ _ _ _ Hex]]. rewrite Hpr in Hx |- *. unfold st in *.
    rewrite (slot_stored id w ws m Hpr) in Hex |- *. cbn in Hx, Hex. rewrite Hx in Hex |- *.
    destruct Hex as [?|[? _]]; [|done]. split_and!; [done..|]. intros r [= <-]. apply Hcan. }
  unfold cancel_persisted. case_bool_decide as Hct.
  - pose proof (proj1 (mo_controllers _ (inv_ok _ Hist) _) Hct) as Hx.
    pose proof (advances_abort Normal (pr_id (w_record w)) st (inv_ok _ Hist) Hx) as Hab.
    eapply set_phase_inv; [|exact Hc|cbn; split; [done|]; split; [done|by left]].
    apply (same_tasks_inv st); [done|exact (advances_ok _ _ _ Hab (inv_ok _ Hist))|exact (normal_extends _ _ (inv_ok _ Hist) Hab)|done|done|auto].
  - assert (m_executions st !! pr_id (w_record w) = None) as Hx.
    { destruct (m_executions st !! pr_id (w_record w)) eqn:E; [|done]. destruct Hct. apply (mo_controllers _ (inv_ok _ Hist)). by rewrite E. }
    destruct pid.
    + apply log_inv; [|done..]. eapply set_phase_inv; [done|exact Hc|]. split; [done|by apply Hend].
    + eapply set_phase_inv; [done|exact Hc|]. split; [done|by apply Hend].
Qed.
End write.

Lemma task_write_inv id now m m' : inv m → complete_write id now m = Some m' → inv m'.
Proof.
  intros Hi. unfold complete_write. destruct (writes_of id m) as [|w ws] eqn:Hw; [done|]. intros [= <-].
  destruct (w_owner w) eqn:Ho.
  - by eapply launch_inv.
  - by apply execution_head_inv.
  - by eapply task_cancel_inv.
  - eapply store_inv; [done..| |done|auto|auto]. apply (plain_advances Normal id w ws m); [apply Hi|done|unfold plain; by rewrite Ho].
Qed.

(** ** All steps *)

Lemma inv_phase_current m : inv m → ∀ n c, m_calls m !! n = Some c → phase_current c m.
Proof.
  intros Hi n c Hc. pose proof (inv_calls _ Hi n c Hc) as Hcall. unfold phase_current, call_ok in *.
  destruct (tc_phase c) as [|?|[|?] rs aw| | | | | | | |]; try done. destruct Hcall as (_ & Hin & _). intros Hcn.
  eapply Forall_impl; [by apply Hin|]. cbn. congruence.
Qed.

(** A step of an execution or a new call. *)
Lemma plain_step_inv l m m' : inv m → is_creation l = false → late_of l m ≠ Restarting → task_step options l m = Some m' →
  (∀ n c, m_calls m' !! n = Some c → m_calls m !! n = Some c ∨ call_ok m' c) →
  (∀ id w, w ∈ writes_of id m' → w ∈ writes_of id m ∨ write_ok m' w) → m_log m' = m_log m → inv m'.
Proof.
  intros Hi Hl Hm E Hc Hw Hlog. pose proof (step_advances options l m m' (inv_ok _ Hi) (inv_phase_current m Hi) Hl E) as Ha.
  apply (inv_extends m); try done; [by eapply advances_ok; [|by apply inv_ok]|by eapply advances_extends; [apply inv_ok| |]|].
  rewrite Hlog. auto.
Qed.

Lemma owned_execution_writes o r m m' id w : (o = By_other ∨ o = By_execution) → w ∈ writes_of id (persist o r m) →
  w ∈ writes_of id m ∨ write_ok m' w.
Proof. intros Ho [?|[E _]]%persist_writes; [by left|right]. unfold write_ok. rewrite E. by destruct Ho as [-> | ->]. Qed.

Lemma task_begin_inv r scope m : inv m → inv (begin_task_call r scope m).
Proof.
  intros Hi. apply (plain_step_inv (L_begin r scope) m); try done.
  - intros n c. unfold begin_task_call. destruct r; cbn; intros [?|[_ Hc]]%lookup_app_Some; auto;
      right; destruct (n - length (m_calls m)); cbn in Hc; simplify_eq; done.
  - unfold begin_task_call. destruct r; auto.
  - unfold begin_task_call. by destruct r.
Qed.

Lemma restart_fields now m : m_log (restart options now m) = m_log m ∧ m_writes (restart options now m) = ∅ ∧
  m_calls (restart options now m) = map (λ c, {| tc_request := tc_request c; tc_scope := tc_scope c; tc_phase :=
    match tc_phase c with P_returned r => P_returned r | _ => P_lost end |}) (m_calls m) ∧
  m_executions (restart options now m) = ∅ ∧ m_startQueue (restart options now m) = [].
Proof.
  unfold restart. set (fresh := Build_manager _ _ _ _ _ _ _ _ _ _ _). generalize (retention_victims (terminalRetentionMs options)
    (maxRetainedTerminalTasks options) now (map snd (map_to_list (m_files m)))) as ids.
  induction ids as [|id ids IH]; [done|]. cbn. unfold prune_one at 1 3 5 7 9. repeat case_match; done.
Qed.

Lemma restart_inv now m : inv m → inv (restart options now m).
Proof.
  intros Hi. destruct (restart_fields now m) as (El & Ew & Ec & _).
  pose proof (restart_advances options now m (inv_ok _ Hi)) as Ha. split.
  - exact (advances_ok _ _ _ Ha (inv_ok _ Hi)).
  - intros n c. rewrite Ec, list_lookup_fmap. intros (c0 & Hc0 & ->)%fmap_Some. pose proof (inv_calls _ Hi n c0 Hc0) as Hcall.
    unfold call_ok in *. cbn. destruct (tc_phase c0); try done.
    destruct r as [[t|]|ts|[t|]|]; cbn in *; unfold owned_id in *; rewrite ?El; done.
  - intros id w. unfold writes_of. rewrite Ew, lookup_empty. by intros ?%not_elem_of_nil.
  - rewrite El. intros e He. pose proof (inv_log _ Hi e He) as Hev. destruct e; cbn in *; try done;
      destruct Hev as (a & b & Hid & (r0 & ? & ?)); exists a, b;
      (split; [eapply prefix_lookup_Some; [exact Hid|apply Ha]|]); exists r0; by rewrite El.
Qed.

Lemma step_inv l m m' : inv m → task_step options l m = Some m' → inv m'.
Proof.
  intros Hi E. destruct l.
  - cbn in E. simplify_eq. by apply task_begin_inv.
  - cbn in E. unfold_step. case_guard; [|done]. cbn in E. destruct (m_calls m !! n) as [c|] eqn:Hc; [|done]. cbn in E.
    destruct (tc_phase c); simplify_eq. by eapply set_phase_inv.
  - by eapply continue_inv.
  - by eapply create_inv.
  - by eapply task_write_inv.
  - pose proof E as E'. cbn in E'. unfold_step. destruct (m_executions m !! id) as [[|c| | |]|]; simplify_eq.
    apply (plain_step_inv (L_pid id pid) m); try done; [by destruct (is_late id m) eqn:El; cbn; rewrite El|auto|].
    intros id' w Hw. eapply owned_execution_writes; [by left|exact Hw].
  - pose proof E as E'. cbn in E'. unfold_step. destruct (m_executions m !! id) as [[|c| | |]|]; try done. case_guard; simplify_eq/=.
    apply (plain_step_inv (L_stdin_control id) m); auto; done.
  - pose proof E as E'. cbn in E'. unfold_step. destruct (m_executions m !! id) as [[|c| | |]|]; simplify_eq/=.
    apply (plain_step_inv (L_ended id o) m); auto; done.
  - pose proof E as E'. cbn in E'. unfold_step. unfold decide_execution in E'.
    destruct (m_executions m !! id) as [[| |c o tl| |]|]; try done. case_guard; [|done]. cbn in E'. case_bool_decide; simplify_eq.
    + apply (plain_step_inv (L_decide id now) m); auto; done.
    + destruct o; apply (plain_step_inv (L_decide id now) m); auto; try done.
      intros id' w Hw. eapply owned_execution_writes; [by right|exact Hw].
  - pose proof E as E'. cbn in E'. unfold_step. destruct (m_executions m !! id) as [[| | |f|]|]; simplify_eq/=.
    apply (plain_step_inv (L_saved id) m); auto; try done.
    intros id' w Hw. eapply owned_execution_writes; [by right|exact Hw].
  - pose proof E as E'. cbn in E'. unfold_step. destruct (m_executions m !! id) as [[| | |f|]|]; simplify_eq/=.
    apply (plain_step_inv (L_save_failed id message) m); auto; done.
  - cbn in E. simplify_eq. by apply restart_inv.
Qed.

Lemma new_inv : inv new_manager.
Proof.
  split.
  - split; try done.
    + constructor.
    + intros id. cbn. by rewrite !lookup_empty.
  - by intros n c Hc.
  - intros id w Hw. unfold writes_of in Hw. cbn in Hw. rewrite lookup_empty in Hw. by apply not_elem_of_nil in Hw.
  - by intros e ?%not_elem_of_nil.
Qed.

Lemma run_snoc ls l m : run_tasks options (ls ++ [l]) m = run_tasks options ls m ≫= task_step options l.
Proof. unfold run_tasks. by rewrite foldl_app. Qed.

Lemma task_run_inv ls m : run_tasks options ls new_manager = Some m → inv m.
Proof.
  revert m. induction ls as [|l ls IH] using rev_ind; intros m.
  - intros [= <-]. apply new_inv.
  - rewrite run_snoc. destruct (run_tasks options ls new_manager) as [m1|]; [|done]. cbn. by apply step_inv, IH.
Qed.
End host.
