(* ===== verification/BackgroundTaskExclusive.v ===== *)
(** * BackgroundTaskExclusive: one active task per command

    The starts take turns; each looks for an active task of its command before it creates
    one.  Without a late process id no ended task becomes active again, so a command of
    an owner scope and workspace has at most one active task. *)

From S2P Require Import Prelude JsMap BackgroundTasks BackgroundTaskSlots BackgroundTaskSteps BackgroundTaskRuns.

Section slots.
Context (r0 : task).

Lemma ordered_steps mode s s' : rtc (slot_step r0 mode) s s' → mode ≠ Late → slot_ok r0 s → ordered_slot s → ordered_slot s'.
Proof.
  induction 1 as [|s s1 s' Hs _ IH]; [done|]. intros Hm Hok Ho.
  apply IH; [done|by eapply slot_step_ok|by eapply ordered_step].
Qed.

Lemma dead_steps mode s s' : rtc (slot_step r0 mode) s s' → mode ≠ Late → slot_ok r0 s → dead_slot s → dead_slot s'.
Proof.
  induction 1 as [|s s1 s' Hs _ IH]; [done|]. intros Hm Hok Ho.
  apply IH; [done|by eapply slot_step_ok|by eapply dead_step].
Qed.

(** A write with the ticket that ends the task is under way. *)
Definition ending_with (t : nat) (s : slot) : Prop :=
  ∃ w, w ∈ sl_writes s ∧ w_ticket w = t ∧ active (w_record w) = false.

Lemma ending_pop w ws t : (∃ ws1 ws2, w :: ws = ws1 ++ ws2 ∧ Forall (λ w, active (w_record w) = true) ws1 ∧ inactive_writes ws2) →
  (∃ w', w' ∈ w :: ws ∧ w_ticket w' = t ∧ active (w_record w') = false) →
  (∃ w', w' ∈ ws ∧ w_ticket w' = t ∧ active (w_record w') = false) ∨ (active (w_record w) = false ∧ inactive_writes ws).
Proof.
  intros [_ Hi]%ordered_pop (w' & [-> | Hin]%elem_of_cons & Ht & Ha); [right; auto|left; eauto].
Qed.

Lemma ending_step s s' t : slot_step r0 Normal s s' → slot_ok r0 s → ordered_slot s → ending_with t s →
  ending_with t s' ∨ dead_slot s'.
Proof.
  intros Hstep Hok [Ho _] (w0 & Hw0 & Ht & Ha).
  assert (∀ w, ∃ w', w' ∈ push s w ∧ w_ticket w' = t ∧ active (w_record w') = false) as Hpush.
  { intros w. exists w0. split; [|done]. apply elem_of_app. by left. }
  assert (∀ w ws, sl_writes s = w :: ws →
    (∃ w', w' ∈ ws ∧ w_ticket w' = t ∧ active (w_record w') = false) ∨ (active (w_record w) = false ∧ inactive_writes ws)) as Hpop.
  { intros w ws E. rewrite E in Ho, Hw0. apply ending_pop; [done|by exists w0]. }
  destruct Hstep; try (by left; apply Hpush); try (by left; exists w0).
  - destruct (start_pending_active r0 s w [] n command Hok) as (_ & Haw & _); [done..|].
    rewrite H in Hw0. apply list_elem_of_singleton in Hw0. congruence.
  - destruct (Hpop w ws H) as [?|[? ?]]; [by left|right]. split; [by intros r [= <-]|done].
  - destruct (Hpop w ws H0) as [?|[? ?]]; [by left|right]. split; [by intros r [= <-]|done].
  - destruct (Hpop w ws H0) as [?|[? ?]]; [by left|right]. split; [by intros r [= <-]|done].
Qed.

Lemma ending_steps s s' t : rtc (slot_step r0 Normal) s s' → slot_ok r0 s → ordered_slot s →
  ending_with t s ∨ dead_slot s → ending_with t s' ∨ dead_slot s'.
Proof.
  induction 1 as [|s s1 s' Hs _ IH]; [done|]. intros Hok Ho Hd.
  apply IH; [by eapply slot_step_ok|by eapply ordered_step|].
  destruct Hd; [by eapply ending_step|right; by eapply dead_step].
Qed.
End slots.

Section host.
Context `{TaskHost} (options : manager_options).

(** The key of the tasks of a start. *)
Definition start_key (scope : option string) (i : StartBackgroundTaskInput) : option string * string * string :=
  (hashOwnerScope scope, si_workspaceId i, commandHash i).

Definition dead_task (id : string) (m : manager) : Prop := dead_slot (slot_of id m).

(** Every task with the key has ended, or a write that ends it is among the awaited ones. *)
Definition all_ending (k : option string * string * string) (aw : awaited) (m : manager) : Prop :=
  ∀ id r0, created id (m_log m) = Some r0 → task_key r0 = k →
    dead_task id m ∨ ∃ t, (id, t) ∈ aw ∧ ending_with t (slot_of id m).
Definition all_dead (k : option string * string * string) (m : manager) : Prop :=
  ∀ id r0, created id (m_log m) = Some r0 → task_key r0 = k → dead_task id m.

(** A start in its turn. *)
Definition in_turn (c : task_call) : Prop :=
  match tc_request c, tc_phase c with
  | Start _, (P_lookup First_lookup _ | P_refreshed First_lookup _ _ | P_pruning _ | P_starting _) => True
  | _, _ => False
  end.

Definition clear (m : manager) (c : task_call) : Prop :=
  match tc_request c, tc_phase c with
  | Start i, P_refreshed First_lookup rs aw => find_duplicate i rs = None → all_ending (start_key (tc_scope c) i) aw m
  | Start i, P_pruning _ => all_dead (start_key (tc_scope c) i) m
  | _, _ => True
  end.

Record exclusive (m : manager) : Prop := {
  ec_ordered : ∀ id r0, created id (m_log m) = Some r0 → ordered_slot (slot_of id m);
  ec_unique : ∀ id1 id2 r1 r2, created id1 (m_log m) = Some r1 → created id2 (m_log m) = Some r2 → task_key r1 = task_key r2 →
    ¬ dead_task id1 m → ¬ dead_task id2 m → id1 = id2;
  ec_turn : ∀ n c, m_calls m !! n = Some c → in_turn c → head (m_startQueue m) = Some n ∧ clear m c;
  ec_starting : ∀ id w n command, w ∈ writes_of id m → w_owner w = By_start n command →
    ∃ c i r, m_calls m !! n = Some c ∧ tc_request c = Start i ∧ tc_phase c = P_starting r ∧ pr_id r = id;
}.

(** ** Steps that create nothing *)

Section advance.
Context (mode : step_mode) (m m' : manager).
Context (Hok : manager_ok m) (He : exclusive m) (Hm : mode ≠ Late) (Ha : advances mode m m').

Lemma advance_slot id r0 : created id (m_log m) = Some r0 → slot_ok r0 (slot_of id m) ∧ rtc (slot_step r0 mode) (slot_of id m) (slot_of id m').
Proof.
  intros Hc. pose proof (mo_slots _ Hok id) as Hs. rewrite Hc in Hs. split; [apply Hs|]. by apply (ad_slots _ _ _ Ha).
Qed.

Lemma advance_created id r0 : created id (m_log m') = Some r0 → created id (m_log m) = Some r0.
Proof.
  intros Hc. destruct (created id (m_log m)) as [r1|] eqn:E.
  - by rewrite <- Hc, (ad_created _ _ _ _ _ Ha E).
  - by rewrite (ad_not_created _ _ _ _ Ha E) in Hc.
Qed.

Lemma advance_dead id r0 : created id (m_log m) = Some r0 → dead_task id m → dead_task id m'.
Proof. intros Hc Hd. destruct (advance_slot id r0 Hc). by eapply dead_steps. Qed.

Lemma advance_all_dead k : all_dead k m → all_dead k m'.
Proof. intros Hd id r0 Hc%advance_created Hk. eapply advance_dead; [done|]. by eapply Hd. Qed.

Lemma advance_ordered id r0 : created id (m_log m') = Some r0 → ordered_slot (slot_of id m').
Proof.
  intros Hc%advance_created. destruct (advance_slot id r0 Hc) as [Hs Hss]. eapply ordered_steps; [done..|]. by eapply ec_ordered.
Qed.

Lemma advance_unique id1 id2 r1 r2 : created id1 (m_log m') = Some r1 → created id2 (m_log m') = Some r2 →
  task_key r1 = task_key r2 → ¬ dead_task id1 m' → ¬ dead_task id2 m' → id1 = id2.
Proof.
  intros Hc1%advance_created Hc2%advance_created Hk H1 H2.
  eapply (ec_unique _ He id1 id2 r1 r2); try done; intros Hd; [destruct H1|destruct H2]; by eapply advance_dead.
Qed.
End advance.

Section normal.
Context (m m' : manager) (Hok : manager_ok m) (He : exclusive m) (Ha : advances Normal m m').

Lemma advance_all_ending k aw : all_ending k aw m → all_ending k aw m'.
Proof.
  intros Hd id r0 Hc Hk. apply (advance_created Normal m m' Ha) in Hc.
  destruct (advance_slot Normal m m' Hok Ha id r0 Hc) as [Hs Hss].
  destruct (Hd id r0 Hc Hk) as [Hde|(t & Ht & Hen)].
  - left. by apply (dead_steps r0 Normal _ _ Hss).
  - destruct (ending_steps r0 _ _ t Hss Hs) as [?|?]; [by eapply ec_ordered|by left|right; eauto|by left].
Qed.

Lemma advance_clear c : clear m c → clear m' c.
Proof.
  unfold clear. destruct (tc_request c), (tc_phase c) as [| |[|] rs aw| | | | | | | |]; try done.
  - intros Hd Hn. by apply advance_all_ending, Hd.
  - by apply (advance_all_dead Normal m m').
Qed.

Lemma advance_exclusive :
  (∀ n c, m_calls m' !! n = Some c → in_turn c →
     (m_calls m !! n = Some c ∧ head (m_startQueue m') = head (m_startQueue m)) ∨ (head (m_startQueue m') = Some n ∧ clear m' c)) →
  (∀ id w n command, w ∈ writes_of id m' → w_owner w = By_start n command →
     ∃ c i r, m_calls m' !! n = Some c ∧ tc_request c = Start i ∧ tc_phase c = P_starting r ∧ pr_id r = id) →
  exclusive m'.
Proof.
  intros Hcalls Hw. split; [by apply (advance_ordered Normal m m')|by apply (advance_unique Normal m m')| |exact Hw].
  intros n c Hc Ht. destruct (Hcalls n c Hc Ht) as [[Hc' ->]|?]; [|done]. destruct (ec_turn _ He n c Hc' Ht). split; [done|].
  by apply advance_clear.
Qed.

(** A step that leaves the starts in their turn alone. *)
Lemma quiet_exclusive :
  (∀ n c, m_calls m' !! n = Some c → in_turn c → m_calls m !! n = Some c) →
  (∀ n c i r, m_calls m !! n = Some c → tc_request c = Start i → tc_phase c = P_starting r → m_calls m' !! n = Some c) →
  head (m_startQueue m') = head (m_startQueue m) ∨ m_startQueue m = [] →
  (∀ id w n command, w ∈ writes_of id m' → w_owner w = By_start n command → w ∈ writes_of id m) → exclusive m'.
Proof.
  intros Hc Hs Hq Hw. apply advance_exclusive.
  - intros n c Hc' Ht. pose proof (Hc n c Hc' Ht) as Hcm. left. split; [done|]. destruct Hq as [?|Hq]; [done|].
    destruct (ec_turn _ He n c Hcm Ht) as [Hh _]. by rewrite Hq in Hh.
  - intros id w n command Hin Ho. destruct (ec_starting _ He id w n command (Hw id w n command Hin Ho) Ho) as (c & i & r & Hcm & Hr & Hp & ?).
    exists c, i, r. split_and!; try done. by eapply Hs.
Qed.
End normal.

(** The phase of a call that is not, or no longer, in its turn. *)
Lemma set_phase_quiet n p m c : manager_ok m → exclusive m → m_calls m !! n = Some c → (∀ r, tc_phase c ≠ P_starting r) →
  ¬ in_turn {| tc_request := tc_request c; tc_scope := tc_scope c; tc_phase := p |} → exclusive (set_phase n p m).
Proof.
  intros Hok He Hc Hp Ht. apply (quiet_exclusive m _ Hok He (advances_set_phase _ _ _ _)); try done.
  - intros n' c' [?|(c0 & -> & ? & ->)]%set_phase_calls Ht'; [done|]. by simplify_eq.
  - intros n' c' i r Hc' _ Hp'. cbn. destruct (decide (n' = n)) as [->|]; [simplify_eq; by destruct (Hp r)|].
    by rewrite list_lookup_alter_ne.
  - by left.
Qed.

Lemma set_phase_turn n p m c : manager_ok m → exclusive m → m_calls m !! n = Some c → (∀ r, tc_phase c ≠ P_starting r) →
  head (m_startQueue m) = Some n → clear m {| tc_request := tc_request c; tc_scope := tc_scope c; tc_phase := p |} →
  exclusive (set_phase n p m).
Proof.
  intros Hok He Hc Hp Hh Hcl. pose proof (advances_set_phase Normal n p m) as Ha. apply (advance_exclusive m _ Hok He Ha).
  - intros n' c' [?|(c0 & -> & ? & ->)]%set_phase_calls Ht'; [by left|right]. simplify_eq. split; [done|].
    by eapply advance_clear.
  - intros id w n' command Hin Ho. destruct (ec_starting _ He id w n' command Hin Ho) as (c' & i & r & Hcm & Hr & Hp' & ?).
    exists c', i, r. split_and!; try done. cbn. destruct (decide (n' = n)) as [->|]; [simplify_eq; by destruct (Hp r)|].
    by rewrite list_lookup_alter_ne.
Qed.

(** A step that leaves the calls and the queue alone. *)
Lemma tasks_quiet m m' : manager_ok m → exclusive m → advances Normal m m' → m_calls m' = m_calls m → m_startQueue m' = m_startQueue m →
  (∀ id w n command, w ∈ writes_of id m' → w_owner w = By_start n command → w ∈ writes_of id m) → exclusive m'.
Proof. intros Hok He Ha Hc Hq Hw. apply (quiet_exclusive m m' Hok He Ha); rewrite ?Hc, ?Hq; auto. Qed.

(** The start whose turn it is leaves its turn. *)
Lemma leave_turn n p m c : manager_ok m → exclusive m → m_calls m !! n = Some c → in_turn c →
  (∀ id w command, w ∈ writes_of id m → w_owner w ≠ By_start n command) →
  (match p with P_returned _ => True | _ => False end) → exclusive (release_queue (set_phase n p m)).
Proof.
  intros Hok He Hc Ht Hw Hp. destruct (ec_turn _ He n c Hc Ht) as [Hh _].
  assert (advances Normal m (release_queue (set_phase n p m))) as Ha.
  { eapply advances_trans; [apply advances_set_phase|apply advances_release]. }
  apply (advance_exclusive m _ Hok He Ha).
  - intros n' c' Hc' Ht'. exfalso. cbn in Hc'. destruct (decide (n' = n)) as [->|Hne].
    + rewrite list_lookup_alter_eq, Hc in Hc'. cbn in Hc'. simplify_eq. unfold in_turn in Ht'. cbn in Ht'.
      destruct p; try done; by destruct (tc_request c).
    + rewrite list_lookup_alter_ne in Hc' by done. destruct (ec_turn _ He n' c' Hc' Ht'). congruence.
  - intros id w n' command Hin Ho. destruct (ec_starting _ He id w n' command Hin Ho) as (c' & i & r & Hcm & Hr & Hp' & ?).
    exists c', i, r. split_and!; try done. cbn. destruct (decide (n' = n)) as [->|]; [by destruct (Hw id w command)|].
    by rewrite list_lookup_alter_ne.
Qed.

(** ** The look for a duplicate *)

Lemma find_duplicate_none i rs r : find_duplicate i rs = None → r ∈ rs → tr_workspaceId (pr_task r) = si_workspaceId i →
  tr_commandHash (pr_task r) = commandHash i → active r = false.
Proof.
  unfold find_duplicate. intros Hn Hr Hw Hh.
  assert (r ∈ list_records (Some (si_workspaceId i)) None rs) as Hin.
  { unfold list_records. rewrite order_by_perm, !elem_of_rows_filter, !bool_decide_eq_true. split_and!; [done|right; congruence|by left]. }
  apply list_elem_of_In in Hin. pose proof (List.find_none _ _ Hn r Hin) as Hf. cbn in Hf. rewrite bool_decide_true in Hf by done.
  done.
Qed.

Lemma refresh_all_grows now alive rs id w : ∀ m rs' aw m', refresh_all now alive rs m = (rs', aw, m') →
  w ∈ writes_of id m → w ∈ writes_of id m'.
Proof.
  induction rs as [|r rs IH]; cbn; intros m rs' aw m'; [by intros [= <- <- <-]|].
  destruct (refreshRecoveredTask now alive r m) as [[r1 aw1] m1] eqn:E1.
  destruct (refresh_all now alive rs m1) as [[rs2 aw2] m2] eqn:E2. intros [= <- <- <-] Hw. eapply IH; [exact E2|].
  unfold refreshRecoveredTask in E1. repeat case_match; simplify_eq; try done; rewrite writes_persist; case_decide; try done; set_solver.
Qed.

Lemma refresh_all_covers now alive rs j r r' : ∀ m rs' aw m', refresh_all now alive rs m = (rs', aw, m') →
  rs !! j = Some r → rs' !! j = Some r' → active r = true → active r' = false →
  ∃ t, (pr_id r, t) ∈ aw ∧ ending_with t (slot_of (pr_id r) m').
Proof.
  revert j. induction rs as [|r1 rs IH]; cbn; intros j m rs' aw m'; [done|].
  destruct (refreshRecoveredTask now alive r1 m) as [[r1' aw1] m1] eqn:E1.
  destruct (refresh_all now alive rs m1) as [[rs2 aw2] m2] eqn:E2. intros [= <- <- <-] Hr Hr' Ha Ha'.
  destruct j as [|j]; cbn in Hr, Hr'.
  - simplify_eq. unfold refreshRecoveredTask in E1. repeat case_match; simplify_eq; try congruence.
    all: exists (m_ticket m); split; [by left|].
    all: exists {| w_ticket := m_ticket m; w_owner := By_other; w_record := interrupted_record now r |}.
    all: split; [|done]; apply (refresh_all_grows _ _ _ _ _ _ _ _ _ E2); rewrite writes_persist, decide_True by done; set_solver.
  - destruct (IH j _ _ _ _ E2 Hr Hr' Ha Ha') as (t & Ht & He). exists t. split; [|done]. apply elem_of_app. by right.
Qed.

(** While a start has its turn before its creation no creation is under way. *)
Lemma turn_alone m n c id : exclusive m → m_calls m !! n = Some c → in_turn c → (∀ r, tc_phase c ≠ P_starting r) →
  ¬ start_pending (slot_of id m).
Proof.
  intros He Hc Ht Hp (w & n' & command & Hw & Ho). cbn in Hw.
  destruct (ec_starting _ He id w n' command) as (c' & i & r & Hc' & Hr & Hp' & _); [rewrite Hw; left|done|].
  destruct (ec_turn _ He n c Hc Ht) as [Hh _].
  destruct (ec_turn _ He n' c' Hc') as [Hh' _]; [unfold in_turn; by rewrite Hr, Hp'|]. assert (n' = n) as -> by congruence.
  simplify_eq. by destruct (Hp r).
Qed.

Lemma lookup_clear m n c i aw now alive rs aw' m1 : inv m → exclusive m → m_calls m !! n = Some c → tc_request c = Start i →
  tc_phase c = P_lookup First_lookup aw → refresh_all now alive (selected_records c m) m = (rs, aw', m1) →
  find_duplicate i rs = None → all_ending (start_key (tc_scope c) i) aw' m1.
Proof.
  intros Hi He Hc Hr Hp E Hn id r0 Hcr Hk. pose proof (inv_ok _ Hi) as Hok. pose proof (selected_current c m Hok) as Hcur.
  destruct (refresh_all_advances Normal _ _ _ _ _ _ _ Hok Hcur E) as (Ha & _ & _ & _ & Hl & _ & H2 & _).
  rewrite Hl in Hcr. assert (in_turn c) as Ht by (unfold in_turn; by rewrite Hr, Hp).
  destruct (decide (active <$> jget id (m_records m) = Some true)) as [Hact|Hina].
  - right. destruct (jget id (m_records m)) as [r|] eqn:Hj; [|done]. cbn in Hact. simplify_eq.
    destruct (record_created m id r Hok Hj) as (r1 & Hcr1 & _ & _ & [Hid Hkey]). assert (r1 = r0) as -> by congruence.
    assert (r ∈ selected_records c m) as Hsel.
    { unfold selected_records. rewrite Hr. apply elem_of_rows_filter. split.
      - apply jget_elem in Hj; [|apply Hok]. apply list_elem_of_fmap. by exists (id, r).
      - unfold canAccessRecord. apply bool_decide_eq_true. unfold start_key, task_key in *. congruence. }
    apply list_elem_of_lookup in Hsel as [j Hsel]. destruct (Forall2_lookup_l _ _ _ _ _ H2 Hsel) as (r' & Hr' & [Hid' Hkey'] & _).
    assert (active r' = false) as Ha'.
    { eapply find_duplicate_none; [done|by eapply list_elem_of_lookup_2| |]; unfold start_key, task_key in *; congruence. }
    destruct (refresh_all_covers _ _ _ _ _ _ _ _ _ _ E Hsel Hr') as (t & Htt & Hen); [done..|].
    assert (pr_id r = id) as Hpr by by eapply record_id. rewrite Hpr in *. by exists t.
  - left. apply (advance_dead Normal m m1 Hok) with r0; [done..|]. apply ordered_dead.
    + by eapply ec_ordered.
    + eapply turn_alone; [done..|]. by rewrite Hp.
    + cbn. intros r Hj. rewrite Hj in Hina. cbn in Hina. destruct (active r); [done|done].
Qed.

(** Once the awaited writes are done the tasks have ended. *)
Lemma all_ending_done k aw m : all_ending k aw m → writes_done m aw = true → all_dead k m.
Proof.
  intros Hd Hw id r0 Hc Hk. destruct (Hd id r0 Hc Hk) as [?|(t & Hin & (w & Hw' & Ht & _))]; [done|]. exfalso.
  unfold writes_done in Hw. rewrite forallb_forall in Hw. apply list_elem_of_In in Hin. specialize (Hw _ Hin).
  unfold write_done in Hw. cbn in Hw, Hw'. bool_inv. apply Hw. apply list_elem_of_fmap. by exists w.
Qed.

(** ** All steps *)

Lemma not_start_turn c p : (∀ i, tc_request c ≠ Start i) →
  ¬ in_turn {| tc_request := tc_request c; tc_scope := tc_scope c; tc_phase := p |}.
Proof. unfold in_turn. cbn. intros Hn Ht. destruct (tc_request c) eqn:E; try done. by destruct (Hn input). Qed.

Lemma start_request c : (∃ i, tc_request c = Start i) ∨ (∀ i, tc_request c ≠ Start i).
Proof. destruct (tc_request c); [by left; eexists|by right..]. Qed.

(** A call other than a start goes on. *)
Lemma other_lookup_exclusive n c k now rs m : inv m → exclusive m → m_calls m !! n = Some c → (∀ i, tc_request c ≠ Start i) →
  (∀ r, tc_phase c ≠ P_starting r) → (k = First_lookup → found_current c rs m) →
  exclusive (after_lookup options n c k now rs m).
Proof.
  intros Hi He Hc Hns Hp Hf. pose proof (after_lookup_advances options Normal n c k now rs m (inv_ok _ Hi) Hf) as Ha.
  pose proof (λ p, not_start_turn c p Hns) as Hnt.
  assert (m_startQueue (after_lookup options n c k now rs m) = m_startQueue m ∧
    (∃ p, m_calls (after_lookup options n c k now rs m) = m_calls (set_phase n p m)) ∧
    ∀ id w, w ∈ writes_of id (after_lookup options n c k now rs m) → w ∈ writes_of id m ∨ ∃ pid, w_owner w = By_cancel n pid)
    as (Eq & (p & Ec) & Ew).
  { unfold after_lookup, after_first_lookup, start_listed, cancel_found, stdin_found. destruct k; [|split_and!; [done|by eexists|auto]].
    destruct (tc_request c) eqn:Er; [by destruct (Hns input)|..]; try (split_and!; [done|by eexists|auto]; done).
    - destruct rs as [|r rs]; [|destruct (active r)]; (split_and!; [done|by eexists|]); auto.
      intros id' w [?|[-> _]]%(persist_writes id' w (By_cancel n (tr_pid (pr_task r)))); eauto.
    - destruct rs as [|r rs]; [|destruct (_ && _ && _)]; try (split_and!; [done|by eexists|auto]; done).
      destruct close; (split_and!; [done|by eexists|auto]). }
  apply (quiet_exclusive m _ (inv_ok _ Hi) He Ha).
  - intros n' c'. rewrite Ec. intros [?|(c0 & -> & ? & ->)]%set_phase_calls Ht; [done|]. simplify_eq. by destruct (Hnt p).
  - intros n' c' i r Hc' Hr' Hp'. rewrite Ec. cbn. destruct (decide (n' = n)) as [->|]; [simplify_eq; by destruct (Hp r)|].
    by rewrite list_lookup_alter_ne.
  - left. by rewrite Eq.
  - intros id w n' command Hw Ho. destruct (Ew id w Hw) as [?|[pid ?]]; [done|congruence].
Qed.

(** A start goes on after its first lookup. *)
Lemma start_lookup_exclusive n c i now rs m : inv m → exclusive m → m_calls m !! n = Some c → tc_request c = Start i →
  in_turn c → (∀ r, tc_phase c ≠ P_starting r) → (find_duplicate i rs = None → all_dead (start_key (tc_scope c) i) m) →
  exclusive (after_lookup options n c First_lookup now rs m).
Proof.
  intros Hi He Hc Hr Ht Hp Hd. cbn. unfold after_first_lookup, start_listed, cancel_found, stdin_found. rewrite Hr. destruct (find_duplicate i rs) as [d|] eqn:Ed.
  - eapply leave_turn; [by apply inv_ok|done..| |done]. intros id w command Hw Ho.
    destruct (ec_starting _ He id w n command Hw Ho) as (c' & ? & r & ? & _ & ? & _). simplify_eq. by destruct (Hp r).
  - eapply set_phase_turn; [by apply inv_ok|done..|by eapply ec_turn|]. unfold clear. cbn. rewrite Hr. by apply Hd.
Qed.

Lemma found_selected m c rs now alive aw' m1 : inv m → refresh_all now alive (selected_records c m) m = (rs, aw', m1) → aw' = [] →
  found_current c rs m1.
Proof.
  intros Hi E ->. pose proof (selected_current c m (inv_ok _ Hi)) as Hcur.
  destruct (refresh_all_advances Normal _ _ _ _ _ _ _ (inv_ok _ Hi) Hcur E) as (_ & _ & _ & _ & _ & _ & _ & Hn).
  destruct (Hn eq_refl) as [-> ->]. intros _. eapply Forall_impl; [exact Hcur|]. done.
Qed.

Lemma lookup_exclusive n c k aw now alive m rs aw' m1 : inv m → exclusive m → m_calls m !! n = Some c → tc_phase c = P_lookup k aw →
  refresh_all now alive (selected_records c m) m = (rs, aw', m1) →
  exclusive (match aw' with [] => after_lookup options n c k now rs m1 | _ => set_phase n (P_refreshed k rs aw') m1 end).
Proof.
  intros Hi He Hc Hp E. pose proof (inv_ok _ Hi) as Hok. pose proof (selected_current c m Hok) as Hcur.
  destruct (refresh_all_advances Normal _ _ _ _ _ _ _ Hok Hcur E) as (Ha & _ & _ & Hcs & _ & Hq & _).
  pose proof (refresh_all_inv _ _ _ _ _ _ _ Hi Hcur E) as Hi1.
  assert (exclusive m1) as He1.
  { apply (tasks_quiet m); try done. intros id w n' command Hw Ho. destruct (refresh_all_writes _ _ _ _ _ _ _ _ _ E Hw); [done|congruence]. }
  assert (m_calls m1 !! n = Some c) as Hc1 by by rewrite Hcs.
  assert (∀ r, tc_phase c ≠ P_starting r) as Hps by by rewrite Hp.
  destruct k as [|fb].
  - destruct (start_request c) as [[i Hr]|Hns].
    + assert (in_turn c) as Ht by (unfold in_turn; by rewrite Hr, Hp).
      pose proof (lookup_clear m n c i aw now alive rs aw' m1 Hi He Hc Hr Hp E) as Hcl. destruct aw' as [|a aw'].
      * eapply start_lookup_exclusive; try done. intros Hn. apply (all_ending_done _ []); [by apply Hcl|done].
      * eapply set_phase_turn; try done; [by apply inv_ok|rewrite Hq; by eapply ec_turn|]. unfold clear. cbn. by rewrite Hr.
    + destruct aw' as [|a aw'].
      * apply other_lookup_exclusive; try done. intros _. exact (found_selected m c rs now alive [] m1 Hi E eq_refl).
      * eapply set_phase_quiet; try done; [by apply inv_ok|]. by apply not_start_turn.
  - assert (∀ p, (match p with P_returned _ | P_refreshed (Last_lookup _) _ _ => True | _ => False end) →
      exclusive (set_phase n p m1)) as Hlast.
    { intros p Hpp. eapply set_phase_quiet; try done; [by apply inv_ok|]. unfold in_turn. cbn. intros Ht.
      destruct (tc_request c); try done. destruct p as [| |[|]| | | | | | | |]; done. }
    destruct aw'; by apply Hlast.
Qed.

Lemma refreshed_exclusive n c k rs aw now m : inv m → exclusive m → m_calls m !! n = Some c → tc_phase c = P_refreshed k rs aw →
  writes_done m aw = true → exclusive (after_lookup options n c k now rs m).
Proof.
  intros Hi He Hc Hp Hw. assert (∀ r, tc_phase c ≠ P_starting r) as Hps by by rewrite Hp. destruct k as [|fb].
  - destruct (start_request c) as [[i Hr]|Hns].
    + assert (in_turn c) as Ht by (unfold in_turn; by rewrite Hr, Hp).
      eapply start_lookup_exclusive; try done. intros Hn. destruct (ec_turn _ He n c Hc Ht) as [_ Hcl].
      unfold clear in Hcl. rewrite Hr, Hp in Hcl. eapply all_ending_done; [by apply Hcl|done].
    + apply other_lookup_exclusive; try done. intros _. pose proof (inv_phase_current m Hi n c Hc) as Hpc.
      unfold phase_current in Hpc. by rewrite Hp in Hpc.
  - eapply set_phase_quiet; try done; [by apply inv_ok|]. unfold in_turn. cbn. intros Ht. by destruct (tc_request c).
Qed.

Lemma prune_one_exclusive id m : inv m → exclusive m → exclusive (prune_one id m).
Proof.
  intros Hi He. pose proof (prune_one_advances Normal id m (inv_ok _ Hi)) as Ha.
  apply (tasks_quiet m); try done; [by apply inv_ok|..]; unfold prune_one; repeat case_match; done.
Qed.

Lemma continue_exclusive n now alive m m' : inv m → exclusive m → continue_call options n now alive m = Some m' → exclusive m'.
Proof.
  intros Hi He. unfold continue_call. destruct (m_calls m !! n) as [c|] eqn:Hc; [|done]. cbn [mbind option_bind].
  assert (∀ p, (match p with P_lookup (Last_lookup _) _ => True | _ => False end) → (∀ r, tc_phase c ≠ P_starting r) →
    exclusive (set_phase n p m)) as Hlast.
  { intros p Hpp Hps. eapply set_phase_quiet; try done; [by apply inv_ok|]. unfold in_turn. cbn. intros Ht.
    destruct (tc_request c); try done. destruct p as [|[|]| | | | | | | | |]; done. }
  destruct (tc_phase c) as [|k aw|k rs aw|[|v vs]|r|r|r|r| |r|] eqn:Ep; try done.
  - case_guard; [|done]. cbn. destruct (refresh_all _ _ _ _) as [[rs aw'] m1] eqn:E. intros [= <-]. by eapply lookup_exclusive.
  - case_guard; [|done]. cbn. intros [= <-]. by eapply refreshed_exclusive.
  - intros [= <-]. pose proof (prune_one_exclusive v m Hi He) as He'.
    assert (m_calls (prune_one v m) !! n = Some c) as Hc' by (unfold prune_one; by repeat case_match).
    assert (∀ r, tc_phase c ≠ P_starting r) as Hps by by rewrite Ep. pose proof (inv_ok _ (prune_one_inv v m Hi)) as Hok'.
    destruct (start_request c) as [[i Hr]|Hns].
    + destruct (ec_turn _ He' n c Hc') as [Hh Hcl]; [unfold in_turn; by rewrite Hr, Ep|].
      eapply set_phase_turn; try done. unfold clear in *. cbn. rewrite Hr, Ep in Hcl. by rewrite Hr.
    + eapply set_phase_quiet; try done. by apply not_start_turn.
  - case_guard; [|done]. intros [= <-]. by apply Hlast.
  - intros [= <-]. by apply Hlast.
  - destruct (tc_request c); try done. intros [= <-]. by apply Hlast.
Qed.

Lemma create_exclusive n id now m m' : inv m → exclusive m → task_step options (L_create n id now) m = Some m' → exclusive m'.
Proof.
  intros Hi He E. destruct (create_creates options n id now m m' (inv_ok _ Hi) E) as (c & i & Hc & Hr & Hp & Hcr & Hcs).
  set (r := start_record id (tc_scope c) now i) in *. pose proof (creates_extends _ _ _ _ _ Hcr) as Hex.
  destruct Hcr as [Hnew Hl Hs Hels Ht (_ & _ & _ & _ & _ & Hq) Ha].
  assert (∀ id' r0, created id' (m_log m') = Some r0 → (id' = pr_id r ∧ r0 = r) ∨ (id' ≠ pr_id r ∧ created id' (m_log m) = Some r0)) as Hcre.
  { intros id' r0. rewrite Hl, created_app. destruct (created id' (m_log m)) as [r1|] eqn:E1; [intros [= <-]; right; split; [congruence|done]|].
    cbn. case_bool_decide; [|done]. intros [= <-]. by left. }
  assert (∀ id', id' ≠ pr_id r → sl_record (slot_of id' m') = sl_record (slot_of id' m) ∧ sl_writes (slot_of id' m') = sl_writes (slot_of id' m)) as Hsame.
  { intros id' Hne. destruct (Hels id' Hne) as (E1 & E2 & _). by cbn. }
  assert (∀ id', id' ≠ pr_id r → dead_task id' m → dead_task id' m') as Hdead.
  { intros id' Hne. unfold dead_task, dead_slot. by destruct (Hsame id' Hne) as [-> ->]. }
  destruct (ec_turn _ He n c Hc) as [Hh Hcl]; [unfold in_turn; by rewrite Hr, Hp|]. unfold clear in Hcl. rewrite Hr, Hp in Hcl.
  assert (∀ id' r0, created id' (m_log m') = Some r0 → id' ≠ pr_id r → task_key r0 = task_key r → dead_task id' m') as Halone.
  { intros id' r0 [[-> _]|[Hne Hc']]%Hcre Hne' Hk; [done|]. apply Hdead; [done|]. by eapply Hcl. }
  split.
  - intros id' r0 [[-> ->]|[Hne Hc']]%Hcre.
    + rewrite Hs. split; [exists [{| w_ticket := m_ticket m; w_owner := By_start n (si_command i); w_record := r |}], []; by repeat constructor|].
      intros _. right. by eexists _, _, _.
    + pose proof (ec_ordered _ He id' r0 Hc') as Ho. unfold ordered_slot, start_pending in *. by destruct (Hsame id' Hne) as [-> ->].
  - intros id1 id2 r1 r2 H1 H2 Hk Hd1 Hd2. destruct (Hcre _ _ H1) as [[-> ->]|[Hne1 Hc1]], (Hcre _ _ H2) as [[-> ->]|[Hne2 Hc2]]; [done|..].
    + destruct Hd2. by eapply Halone.
    + destruct Hd1. by eapply Halone.
    + eapply (ec_unique _ He id1 id2 r1 r2); try done; intros Hd; [destruct Hd1|destruct Hd2]; by apply Hdead.
  - intros n' c' Hc' Ht'. rewrite Hq. rewrite Hcs in Hc'. cbn in Hc'. destruct (decide (n' = n)) as [->|Hne].
    + rewrite list_lookup_alter_eq, Hc in Hc'. cbn in Hc'. simplify_eq. split; [done|]. unfold clear. cbn. by rewrite Hr.
    + rewrite list_lookup_alter_ne in Hc' by done. destruct (ec_turn _ He n' c' Hc' Ht'). congruence.
  - intros id' w n' command Hw Ho. destruct (decide (id' = pr_id r)) as [->|Hne].
    + rewrite (f_equal sl_writes Hs : writes_of (pr_id r) m' = _) in Hw. apply list_elem_of_singleton in Hw as ->. cbn in Ho. simplify_eq.
      eexists _, i, r. rewrite Hcs. cbn. rewrite list_lookup_alter_eq, Hc. by cbn.
    + rewrite (proj2 (Hsame id' Hne) : writes_of id' m' = writes_of id' m) in Hw.
      destruct (ec_starting _ He id' w n' command Hw Ho) as (c' & i' & r' & Hc' & Hr' & Hp' & _). exfalso.
      destruct (ec_turn _ He n' c' Hc') as [Hh' _]; [unfold in_turn; by rewrite Hr', Hp'|]. assert (n' = n) as -> by congruence. congruence.
Qed.

Lemma write_exclusive id now m m' : inv m → exclusive m → complete_write id now m = Some m' → exclusive m'.
Proof.
  intros Hi He E. pose proof (write_advances Normal id now m m' (inv_ok _ Hi) E) as Ha. unfold complete_write in E.
  destruct (writes_of id m) as [|w ws] eqn:Hw; [done|]. simplify_eq. pose proof (stored_writes id w ws m Hi Hw) as Hst.
  destruct (w_owner w) as [n command| |n pid|] eqn:Ho.
  - destruct (ec_starting _ He id w n command) as (c & i & r & Hc & Hr & Hp & Hrid); [rewrite Hw; left|done|].
    destruct (head_created id w ws m (inv_ok _ Hi) Hw) as (r0 & Hcr & Hid & Hsl & _).
    destruct (start_pending_active r0 (slot_of id m) w ws n command Hsl Hw Ho) as (Hnil & _).
    assert (in_turn c) as Ht by (unfold in_turn; by rewrite Hr, Hp). destruct (ec_turn _ He n c Hc Ht) as [Hh _].
    assert (∀ id' w' n' command', w' ∈ writes_of id' (launch n command now (w_record w) (store_record (w_record w) ws m)) →
      w_owner w' = By_start n' command' → id' ≠ id ∧ w' ∈ writes_of id' m) as Hws.
    { intros id' w' n' command' Hw' Ho'. apply (persist_writes id' w' By_execution (mark_running now (w_record w))) in Hw' as [Hw'|[? _]]; [|congruence].
      change (w' ∈ writes_of id' (store_record (w_record w) ws m)) in Hw'. rewrite writes_store, Hid in Hw'.
      case_decide; [subst ws; by apply not_elem_of_nil in Hw'|done]. }
    apply (advance_exclusive m _ (inv_ok _ Hi) He Ha).
    + intros n' c' Hc' Ht'. exfalso. cbn in Hc'. destruct (decide (n' = n)) as [->|Hne].
      * rewrite list_lookup_alter_eq, Hc in Hc'. cbn in Hc'. simplify_eq. unfold in_turn in Ht'. cbn in Ht'. by destruct (tc_request c).
      * rewrite list_lookup_alter_ne in Hc' by done. destruct (ec_turn _ He n' c' Hc' Ht'). congruence.
    + intros id' w' n' command' Hw' Ho'. destruct (Hws id' w' n' command' Hw' Ho') as [Hne Hw2].
      destruct (ec_starting _ He id' w' n' command' Hw2 Ho') as (c' & i' & r' & Hc' & Hr' & Hp' & Hrid').
      destruct (ec_turn _ He n' c' Hc') as [Hh' _]; [unfold in_turn; by rewrite Hr', Hp'|]. assert (n' = n) as -> by congruence. congruence.
  - apply (tasks_quiet m); try done; [by apply inv_ok|..]; unfold execution_persisted, announceFinished; repeat case_match; auto.
  - pose proof (inv_writes _ Hi id w ltac:(rewrite Hw; left)) as Hwok. unfold write_ok in Hwok. rewrite Ho in Hwok.
    destruct Hwok as (req & scope & Hid & Hreq & _). unfold identities in Hid. rewrite list_lookup_fmap in Hid.
    apply fmap_Some in Hid as (c & Hc & [= -> ->]).
    set (m1 := cancel_persisted n pid (w_record w) (store_record (w_record w) ws m)) in *.
    assert (m_startQueue m1 = m_startQueue m ∧ (∃ p, m_calls m1 = m_calls (set_phase n p m)) ∧
      ∀ id', writes_of id' m1 = writes_of id' (store_record (w_record w) ws m)) as (Eq & (p & Ec) & Ew).
    { unfold m1, cancel_persisted. repeat case_match; (split_and!; [done|by eexists|done]). }
    apply (quiet_exclusive m _ (inv_ok _ Hi) He Ha).
    + intros n' c'. rewrite Ec. intros [?|(c0 & -> & ? & ->)]%set_phase_calls Ht; [done|]. simplify_eq. unfold in_turn in Ht. cbn in Ht.
      by rewrite Hreq in Ht.
    + intros n' c' i r Hc' Hr' Hp'. rewrite Ec. cbn. destruct (decide (n' = n)) as [->|]; [simplify_eq; congruence|].
      by rewrite list_lookup_alter_ne.
    + left. by rewrite Eq.
    + intros id' w' n' command. rewrite Ew. auto.
  - apply (tasks_quiet m); try done; [by apply inv_ok|]. auto.
Qed.

Lemma restart_exclusive now m : inv m → exclusive m → exclusive (restart options now m).
Proof.
  intros Hi He. pose proof (restart_advances options now m (inv_ok _ Hi)) as Ha. destruct (restart_fields options now m) as (_ & Ew & Ec & _).
  split.
  - by apply (advance_ordered Restarting m _ (inv_ok _ Hi) He).
  - by apply (advance_unique Restarting m _ (inv_ok _ Hi) He).
  - intros n c. rewrite Ec, list_lookup_fmap. intros (c0 & _ & ->)%fmap_Some. unfold in_turn. cbn.
    destruct (tc_request c0), (tc_phase c0); done.
  - intros id w n command. unfold writes_of. rewrite Ew, lookup_empty. by intros ?%not_elem_of_nil.
Qed.

Lemma begin_exclusive r scope m : inv m → exclusive m → exclusive (begin_task_call r scope m).
Proof.
  intros Hi He. pose proof (step_advances options (L_begin r scope) m _ (inv_ok _ Hi) (inv_phase_current m Hi) eq_refl eq_refl) as Ha.
  apply (quiet_exclusive m _ (inv_ok _ Hi) He Ha).
  - intros n c. unfold begin_task_call. destruct r; cbn; intros [?|[_ Hc]]%lookup_app_Some Ht; try done;
      destruct (n - length (m_calls m)); cbn in Hc; simplify_eq; done.
  - intros n c i r' Hc _ _. unfold begin_task_call. destruct r; cbn; by apply lookup_app_l_Some.
  - unfold begin_task_call. destruct r; cbn; rewrite ?app_nil_r; [|by left..]. destruct (m_startQueue m); [by right|by left].
  - unfold begin_task_call. by destruct r.
Qed.

Lemma step_exclusive l m m' : inv m → exclusive m → late_of l m ≠ Late → task_step options l m = Some m' → exclusive m'.
Proof.
  intros Hi He Hl E.
  assert (∀ l', l = l' → is_creation l' = false → late_of l' m = Normal → m_calls m' = m_calls m → m_startQueue m' = m_startQueue m →
    (∀ id w n command, w ∈ writes_of id m' → w_owner w = By_start n command → w ∈ writes_of id m) → exclusive m') as Hquiet.
  { intros l' <- Hcr Hn Hc Hq Hw. apply (tasks_quiet m); try done; [by apply inv_ok|]. rewrite <- Hn.
    by apply (step_advances options l m m' (inv_ok _ Hi) (inv_phase_current m Hi)). }
  assert (∀ o r x id0 m1, (∀ n command, o ≠ By_start n command) → m_writes m1 = m_writes m →
    ∀ id w n command, w ∈ writes_of id (persist o r (set_execution id0 x m1)) → w_owner w = By_start n command → w ∈ writes_of id m) as Hpw.
  { intros o r x id0 m1 Ho Hm1 id w n command [Hw|[? _]]%persist_writes Hs; [|congruence]. unfold writes_of in *. cbn in Hw. by rewrite Hm1 in Hw. }
  destruct l; cbn in E, Hl; unfold_step.
  - simplify_eq. by apply begin_exclusive.
  - case_guard as Hh; [|done]. cbn in E. destruct (m_calls m !! n) as [c|] eqn:Hc; [|done]. cbn in E.
    destruct (tc_phase c) eqn:Hp; simplify_eq. eapply set_phase_turn; try done; [by apply inv_ok|by rewrite Hp|].
    unfold clear. cbn. by destruct (tc_request c).
  - by eapply continue_exclusive.
  - eapply create_exclusive; [done..|]. exact E.
  - by eapply write_exclusive.
  - destruct (m_executions m !! id) as [[|c| | |]|]; simplify_eq. apply (Hquiet _ eq_refl); try done; [by destruct (is_late id m) eqn:El; cbn; rewrite El|].
    by apply Hpw.
  - destruct (m_executions m !! id) as [[|c| | |]|]; try done. case_guard; simplify_eq/=. by apply (Hquiet _ eq_refl).
  - destruct (m_executions m !! id) as [[|c| | |]|]; simplify_eq/=. by apply (Hquiet _ eq_refl).
  - unfold decide_execution in E. destruct (m_executions m !! id) as [[| |c o tl| |]|]; try done. case_guard; [|done]. cbn in E.
    case_bool_decide; simplify_eq; [by apply (Hquiet _ eq_refl)|]. destruct o; apply (Hquiet _ eq_refl); try done. by apply Hpw.
  - destruct (m_executions m !! id) as [[| | |f|]|]; simplify_eq/=. apply (Hquiet _ eq_refl); try done. by apply Hpw.
  - destruct (m_executions m !! id) as [[| | |f|]|]; simplify_eq/=. by apply (Hquiet _ eq_refl).
  - simplify_eq. by apply restart_exclusive.
Qed.

Lemma new_exclusive : exclusive new_manager.
Proof.
  split; try done. intros id w n command. unfold writes_of. cbn. rewrite lookup_empty. by intros ?%not_elem_of_nil.
Qed.

(** The process ids of a run come in time. *)
Definition prompt_pids (ls : list task_label) : Prop :=
  ∀ ls1 id pid ls2 m, ls = ls1 ++ L_pid id pid :: ls2 → run_tasks options ls1 new_manager = Some m → is_late id m = false.

(** A check of a concrete run. *)
Fixpoint check_prompt (ls : list task_label) (m : manager) : bool :=
  match ls with
  | [] => true
  | l :: ls =>
      (match l with L_pid id _ => negb (is_late id m) | _ => true end) &&
      (match task_step options l m with Some m' => check_prompt ls m' | None => true end)
  end.

Lemma run_cons l ls m : run_tasks options (l :: ls) m = task_step options l m ≫= run_tasks options ls.
Proof.
  unfold run_tasks. cbn. destruct (task_step options l m) as [m'|]; [done|]. cbn.
  induction ls as [|l' ls IH]; [done|]. cbn. exact IH.
Qed.

Lemma check_prompt_pids ls : check_prompt ls new_manager = true → prompt_pids ls.
Proof.
  unfold prompt_pids. generalize new_manager as m. induction ls as [|l ls IH]; intros m Hc ls1 id pid ls2 m1 E.
  - by destruct ls1.
  - cbn in Hc. apply andb_true_iff in Hc as [Hl Hc]. destruct ls1 as [|l1 ls1]; cbn in E; simplify_eq.
    + intros [= <-]. by apply negb_true_iff.
    + rewrite run_cons. destruct (task_step options l1 m) as [m'|]; [|done]. cbn. by eapply IH.
Qed.

Lemma prompt_pids_app ls ls' : prompt_pids (ls ++ ls') → prompt_pids ls.
Proof. intros Hp ls1 id pid ls2 m ->. apply (Hp ls1 id pid (ls2 ++ ls')). by rewrite <- (assoc_L (++)). Qed.

Lemma run_exclusive ls m : prompt_pids ls → run_tasks options ls new_manager = Some m → exclusive m.
Proof.
  revert m. induction ls as [|l ls IH] using rev_ind; intros m Hp.
  - intros [= <-]. apply new_exclusive.
  - rewrite run_snoc. destruct (run_tasks options ls new_manager) as [m1|] eqn:E; [|done]. cbn.
    apply step_exclusive; [by eapply task_run_inv|by apply IH; [eapply prompt_pids_app|]|].
    destruct l; cbn; try done. by rewrite (Hp ls id pid [] m1 eq_refl E).
Qed.
End host.
