(* ===== verification/BackgroundTaskLaunches.v ===== *)
(** * BackgroundTaskLaunches: a command runs once, its end is announced once; retention *)

From S2P Require Import Prelude OrchestratorReads JsMap BackgroundTasks BackgroundTaskSlots BackgroundTaskSteps BackgroundTaskRuns.

(** The launches of the command of a task, and the announcements of its end. *)
Definition launches (id : string) (l : list task_event) : list string :=
  omap (λ e, match e with E_launched id' command => if bool_decide (id' = id) then Some command else None | _ => None end) l.
Definition announcements (id : string) (l : list task_event) : list BackgroundTaskState :=
  omap (λ e, match e with E_finished id' s => if bool_decide (id' = id) then Some s else None | _ => None end) l.

Lemma launches_app id l l' : launches id (l ++ l') = launches id l ++ launches id l'.
Proof. apply omap_app. Qed.
Lemma announcements_app id l l' : announcements id (l ++ l') = announcements id l ++ announcements id l'.
Proof. apply omap_app. Qed.

Definition marking (x : option execution) : Prop := ∃ c command, x = Some (X_marking c command).

(** How far the execution of a task is, by what the log says of it. *)
Record launch_ok (id : string) (m : manager) : Prop := {
  lo_before : created id (m_log m) = None ∨ start_pending (slot_of id m) ∨ marking (m_executions m !! id) →
    launches id (m_log m) = [] ∧ announcements id (m_log m) = [];
  lo_running : ∀ x, m_executions m !! id = Some x → ¬ marking (Some x) →
    length (launches id (m_log m)) = 1 ∧ announcements id (m_log m) = [];
  lo_once : length (announcements id (m_log m)) ≤ length (launches id (m_log m)) ≤ 1;
}.

(** What a step does to the execution of a task and to its events. *)
Inductive run_step (id : string) (m m' : manager) (es : list task_event) : Prop :=
| rs_same : launches id es = [] → announcements id es = [] →
    m_executions m' !! id = m_executions m !! id ∨ m_executions m' !! id = None ∨
      (∃ x, m_executions m !! id = Some x ∧ ¬ marking (Some x) ∧ ¬ marking (m_executions m' !! id)) ∨
      (start_pending (slot_of id m) ∧ marking (m_executions m' !! id)) →
    run_step id m m' es
| rs_launched c command : m_executions m !! id = Some (X_marking c command) → m_executions m' !! id = Some (X_running c) →
    launches id es = [command] → announcements id es = [] → run_step id m m' es
| rs_finished c s : m_executions m !! id = Some (X_final c) → m_executions m' !! id = None →
    launches id es = [] → announcements id es = [s] → run_step id m m' es.

(** A task that is created or about to start has no execution. *)
Lemma before_execution id m : manager_ok m → created id (m_log m) = None ∨ start_pending (slot_of id m) → m_executions m !! id = None.
Proof.
  intros Hok Hb. pose proof (mo_slots _ Hok id) as Hs. destruct (created id (m_log m)) as [r0|] eqn:Hc.
  - destruct Hb as [?|Hb]; [done|]. destruct Hs as [_ Hs]. by destruct (start_pending_alone r0 (slot_of id m) Hs Hb).
  - apply Hs.
Qed.

Lemma run_step_ok id m m' es : m_log m' = m_log m ++ es → run_step id m m' es → manager_ok m →
  (created id (m_log m') = None ∨ start_pending (slot_of id m') → created id (m_log m) = None ∨ start_pending (slot_of id m)) →
  launch_ok id m → launch_ok id m'.
Proof.
  intros Hl Hs Hok Hst [Hb Hr Ho].
  assert (∀ P Q : Prop, P ∨ Q ∨ marking (m_executions m' !! id) → (P ∨ Q) ∨ marking (m_executions m' !! id)) as Has by naive_solver.
  destruct Hs as [E1 E2 Hx|c command Hx Hx' E1 E2|c s Hx Hx' E1 E2].
  - assert (launches id (m_log m') = launches id (m_log m)) as E1' by (by rewrite Hl, launches_app, E1, app_nil_r).
    assert (announcements id (m_log m') = announcements id (m_log m)) as E2' by (by rewrite Hl, announcements_app, E2, app_nil_r).
    split; rewrite ?E1', ?E2'; [| |done].
    + intros [Hpre|Hm]%Has; [apply Hb; by destruct (Hst Hpre); auto|].
      destruct Hx as [Hx|[Hx|[(x & _ & _ & Hn)|[Hx _]]]]; [|destruct Hm as (? & ? & ?); congruence|done|by apply Hb; auto].
      apply Hb. right. right. by rewrite <- Hx.
    + intros x' Hx' Hn. destruct Hx as [Hx|[Hx|[(x & Hx & Hnx & _)|[_ Hx]]]]; [|congruence|by eapply Hr|by rewrite Hx' in Hx].
      apply (Hr x'); [congruence|done].
  - assert (marking (m_executions m !! id)) as Hm by by eexists _, _. destruct (Hb ltac:(auto)) as [L0 A0].
    assert (launches id (m_log m') = [command]) as E1' by (by rewrite Hl, launches_app, E1, L0).
    assert (announcements id (m_log m') = []) as E2' by (by rewrite Hl, announcements_app, E2, A0).
    split; rewrite ?E1', ?E2'; [|done|cbn; lia].
    intros [Hpre%Hst|(? & ? & ?)]%Has; [|congruence]. apply before_execution in Hpre; [congruence|done].
  - destruct (Hr _ Hx) as [L0 A0]; [by intros (? & ? & ?)|].
    assert (launches id (m_log m') = launches id (m_log m)) as E1' by (by rewrite Hl, launches_app, E1, app_nil_r).
    assert (announcements id (m_log m') = [s]) as E2' by (by rewrite Hl, announcements_app, E2, A0).
    split; rewrite ?E1', ?E2'; [|congruence|cbn; lia].
    intros [Hpre%Hst|(? & ? & ?)]%Has; [|congruence]. apply before_execution in Hpre; [congruence|done].
Qed.

(** The write of a start is the only one of its task. *)
Lemma start_write_alone r0 s w n command : slot_ok r0 s → w ∈ sl_writes s → w_owner w = By_start n command → sl_writes s = [w].
Proof.
  intros [_ _ _ _ _ Hx] Hw Ho. assert (¬ plain w) as Hp by (unfold plain; rewrite Ho; tauto).
  assert (∀ ws, Forall plain ws → w ∉ ws) as Hno by (intros ws Hws Hin; rewrite Forall_forall in Hws; by apply Hp, Hws).
  destruct (sl_execution s) as [[c cm|c|c o tl|c|c]|]; cbn in Hx.
  - destruct Hx as (_ & w1 & ws' & E & Ho1 & _ & Hws). rewrite E in Hw. apply elem_of_cons in Hw as [->|Hw]; [congruence|].
    by apply ending_plain, Hno in Hws.
  - destruct Hx as [_ Hws]. by apply Hno in Hws.
  - destruct Hx as [Hws _]. by apply Hno in Hws.
  - destruct Hx as [_ Hws]. by apply ending_plain, Hno in Hws.
  - destruct Hx as (_ & ws1 & w2 & ws2 & E & Ho2 & _ & H1 & H2). rewrite E in Hw.
    apply elem_of_app in Hw as [Hw|[->|Hw]%elem_of_cons]; [by apply ending_plain, Hno in H1|congruence|by apply ending_plain, Hno in H2].
  - destruct Hx as [Hws|(_ & w1 & n' & cm & E & _)]; [by apply ending_plain, Hno in Hws|]. rewrite E in Hw |- *.
    by apply list_elem_of_singleton in Hw as ->.
Qed.

(** No start comes back. *)
Lemma start_pending_back r0 mode s s' : slot_step r0 mode s s' → slot_ok r0 s → start_pending s' → start_pending s.
Proof.
  intros Hss Hok (w & n & cm & Hw & Ho). assert (w ∈ sl_writes s' → w ∈ sl_writes s → start_pending s) as Hback.
  { intros _ Hin. exists w, n, cm. split; [by eapply start_write_alone|done]. }
  assert (∀ w', (match w_owner w' with By_start _ _ => False | _ => True end) → push s w' ≠ [w]) as Hpush.
  { intros w' Hn E. unfold push in E. apply (f_equal last) in E. rewrite last_snoc in E. cbn in E. simplify_eq. by rewrite Ho in Hn. }
  rewrite Hw in Hback. specialize (Hback ltac:(left)).
  destruct Hss; cbn in Hw; try (by apply Hback; rewrite Hw; left); try done.
  all: try (exfalso; subst; by eapply Hpush; [|exact Hw]).
  - exfalso. eapply Hpush; [|exact Hw]. destruct H as [Hp _]. unfold plain in Hp. by destruct (w_owner w0).
  - exfalso. subst. by simplify_eq.
  - apply Hback. rewrite H, Hw. right. left.
  - apply Hback. rewrite H0, Hw. right. left.
  - apply Hback. rewrite H0, Hw. right. left.
Qed.

Lemma start_pending_advances mode m m' id r0 : manager_ok m → advances mode m m' → created id (m_log m) = Some r0 →
  start_pending (slot_of id m') → start_pending (slot_of id m).
Proof.
  intros Hok Ha Hc. pose proof (ad_slots _ _ _ Ha id r0 Hc) as Hs. pose proof (mo_slots _ Hok id) as Hm. rewrite Hc in Hm.
  destruct Hm as [_ Hsl]. revert Hsl. induction Hs as [|s s1 s' Hss _ IH]; [done|]. intros Hsl Hp.
  eapply start_pending_back; [done..|]. apply IH; [by eapply slot_step_ok|done].
Qed.

Section host.
Context `{TaskHost} (options : manager_options).

Definition quiet_event (e : task_event) : Prop := match e with E_launched _ _ | E_finished _ _ => False | _ => True end.

Lemma quiet_events id es : Forall quiet_event es → launches id es = [] ∧ announcements id es = [].
Proof. induction 1 as [|[] es]; cbn in *; done. Qed.

Definition runs (m m' : manager) : Prop := ∃ es, m_log m' = m_log m ++ es ∧ ∀ id, run_step id m m' es.

Lemma runs_quiet m m' es : m_executions m' = m_executions m → m_log m' = m_log m ++ es → Forall quiet_event es → runs m m'.
Proof.
  intros Hx Hl He. exists es. split; [done|]. intros id. destruct (quiet_events id es He). apply rs_same; try done. left. by rewrite Hx.
Qed.

(** An execution that has launched its command changes its stage or ends. *)
Lemma runs_stage m m' id x : m_executions m !! id = Some x → ¬ marking (Some x) → ¬ marking (m_executions m' !! id) →
  (∀ id', id' ≠ id → m_executions m' !! id' = m_executions m !! id') → m_log m' = m_log m → runs m m'.
Proof.
  intros Hx Hn Hn' He Hl. exists []. rewrite app_nil_r. split; [done|]. intros id'. apply rs_same; try done.
  destruct (decide (id' = id)) as [->|Hne]; [right; right; left; by exists x|left; by apply He].
Qed.

Lemma after_lookup_runs n c k now rs m : runs m (after_lookup options n c k now rs m).
Proof.
  unfold after_lookup, after_first_lookup, start_listed, cancel_found, stdin_found.
  assert (∀ m', m_executions m' = m_executions m → m_log m' = m_log m → runs m m') as Hnone.
  { intros m' Hx Hl. apply (runs_quiet m m' []); [done|by rewrite app_nil_r|constructor]. }
  repeat case_match; try (by apply Hnone).
  all: match goal with |- runs _ (log_event ?e _) => by apply (runs_quiet m _ [e]); [..|repeat constructor] end.
Qed.

Lemma continue_runs n now alive m m' : inv m → continue_call options n now alive m = Some m' → runs m m'.
Proof.
  intros Hi. unfold continue_call. destruct (m_calls m !! n) as [c|]; [|done]. cbn [mbind option_bind].
  assert (∀ m', m_executions m' = m_executions m → m_log m' = m_log m → runs m m') as Hnone.
  { intros m1 Hx Hl. apply (runs_quiet m m1 []); [done|by rewrite app_nil_r|constructor]. }
  destruct (tc_phase c) as [|k aw|k rs aw|[|v vs]|r|r|r|r| |r|]; try done.
  - case_guard; [|done]. cbn. destruct (refresh_all _ _ _ _) as [[rs aw'] m1] eqn:E. intros [= <-].
    pose proof (selected_current c m (inv_ok _ Hi)) as Hcur.
    destruct (refresh_all_advances Normal _ _ _ _ _ _ _ (inv_ok _ Hi) Hcur E) as (_ & _ & Hx & _ & Hl & _ & _ & Hn).
    destruct aw'; [|by apply Hnone]. destruct (Hn eq_refl) as [-> ->]. apply after_lookup_runs.
  - case_guard; [|done]. cbn. intros [= <-]. apply after_lookup_runs.
  - intros [= <-]. apply Hnone; unfold prune_one; by repeat case_match.
  - case_guard; [|done]. intros [= <-]. by apply Hnone.
  - intros [= <-]. by apply Hnone.
  - destruct (tc_request c); try done. intros [= <-]. by apply Hnone.
Qed.

Lemma write_runs id now m m' : inv m → complete_write id now m = Some m' → runs m m'.
Proof.
  intros Hi. unfold complete_write. destruct (writes_of id m) as [|w ws] eqn:Hw; [done|]. intros [= <-].
  assert (∀ m', m_executions m' = m_executions m → m_log m' = m_log m → runs m m') as Hnone.
  { intros m1 Hx Hl. apply (runs_quiet m m1 []); [done|by rewrite app_nil_r|constructor]. }
  destruct (head_created id w ws m (inv_ok _ Hi) Hw) as (r0 & Hcr & Hid & Hsl & _).
  destruct (w_owner w) as [n command| |n pid|] eqn:Ho.
  - destruct (start_pending_active r0 (slot_of id m) w ws n command Hsl Hw Ho) as (-> & _).
    exists []. split; [cbn; by rewrite app_nil_r|]. intros id'. apply rs_same; try done. cbn. rewrite Hid.
    destruct (decide (id' = id)) as [->|Hne]; [|left; by rewrite lookup_insert_ne]. right. right. right. rewrite lookup_insert_eq.
    split; [by exists w, n, command|by eexists _, _].
  - unfold execution_persisted. cbn [m_executions store_record].
    destruct (m_executions m !! id) as [[c cm|c|c o tl|c|c]|] eqn:Hx; try (by apply Hnone).
    + exists [E_launched id cm]. split; [done|]. intros id'. destruct (decide (id' = id)) as [->|Hne].
      * eapply rs_launched; [done|cbn; by rewrite lookup_insert_eq|cbn; by rewrite bool_decide_true|done].
      * apply rs_same; [cbn; by rewrite bool_decide_false|done|]. left. cbn. by rewrite lookup_insert_ne.
    + pose proof (so_execution _ _ Hsl) as Hex. cbn in Hex. rewrite Hx in Hex. destruct Hex as (Hc & _).
      assert (pr_id c = id) as Hcid.
      { destruct (execution_created m id _ (inv_ok _ Hi) Hx) as (r1 & _ & <- & _ & [? _]). done. }
      unfold announceFinished. destruct (tr_state (pr_task c)) eqn:Es.
      1, 2: unfold active in Hc; by rewrite Es in Hc.
      1, 2: match goal with |- context [log_event ?e _] => exists [e] end; (split; [done|]); intros id';
        (destruct (decide (id' = id)) as [->|Hne];
         [eapply rs_finished; [done|cbn; by rewrite lookup_delete_eq|done|cbn; by rewrite bool_decide_true]
         |apply rs_same; [done|cbn; by rewrite bool_decide_false by congruence|left; cbn; by rewrite lookup_delete_ne]]).
      eapply (runs_stage m _ id); [done|by intros (? & ? & ?)|cbn; rewrite lookup_delete_eq; by intros (? & ? & ?)| |done].
      intros id' Hne. cbn. by rewrite lookup_delete_ne.
  - unfold cancel_persisted. case_bool_decide; [by apply Hnone|]. destruct pid; [|by apply Hnone].
    match goal with |- runs _ (log_event ?e _) => by apply (runs_quiet m _ [e]); [..|repeat constructor] end.
  - by apply Hnone.
Qed.

Lemma step_runs l m m' : inv m → is_creation l = false → task_step options l m = Some m' → runs m m'.
Proof.
  intros Hi Hl E. destruct l; cbn in E; try done; unfold_step.
  - simplify_eq. apply (runs_quiet m _ []); [by destruct r|by destruct r; cbn; rewrite app_nil_r|constructor].
  - case_guard; [|done]. cbn in E. destruct (m_calls m !! n) as [c|]; [|done]. cbn in E. destruct (tc_phase c); simplify_eq.
    apply (runs_quiet m _ []); [done|by rewrite app_nil_r|constructor].
  - by eapply continue_runs.
  - by eapply write_runs.
  - destruct (m_executions m !! id) as [[|c| | |]|] eqn:Hx; simplify_eq. eapply (runs_stage m _ id); [done|by intros (? & ? & ?)|..|done].
    + cbn. rewrite lookup_insert_eq. by intros (? & ? & ?).
    + intros. cbn. by rewrite lookup_insert_ne.
  - destruct (m_executions m !! id) as [[|c| | |]|]; try done. case_guard; simplify_eq/=.
    apply (runs_quiet m _ []); [done|by rewrite app_nil_r|constructor].
  - destruct (m_executions m !! id) as [[|c| | |]|] eqn:Hx; simplify_eq. eapply (runs_stage m _ id); [done|by intros (? & ? & ?)|..|done].
    + cbn. rewrite lookup_insert_eq. by intros (? & ? & ?).
    + intros. cbn. by rewrite lookup_insert_ne.
  - unfold decide_execution in E. destruct (m_executions m !! id) as [[| |c o tl| |]|] eqn:Hx; try done. case_guard; [|done]. cbn in E.
    case_bool_decide; simplify_eq.
    + eapply (runs_stage m _ id); [done|by intros (? & ? & ?)|cbn; rewrite lookup_delete_eq; by intros (? & ? & ?)| |done].
      intros. cbn. by rewrite lookup_delete_ne.
    + destruct o; (eapply (runs_stage m _ id); [done|by intros (? & ? & ?)|cbn; rewrite lookup_insert_eq; by intros (? & ? & ?)| |done]);
        intros; cbn; by rewrite lookup_insert_ne.
  - destruct (m_executions m !! id) as [[| | |f|]|] eqn:Hx; simplify_eq. eapply (runs_stage m _ id); [done|by intros (? & ? & ?)|..|done].
    + cbn. rewrite lookup_insert_eq. by intros (? & ? & ?).
    + intros. cbn. by rewrite lookup_insert_ne.
  - destruct (m_executions m !! id) as [[| | |f|]|] eqn:Hx; simplify_eq. eapply (runs_stage m _ id); [done|by intros (? & ? & ?)|..|done].
    + cbn. rewrite lookup_insert_eq. by intros (? & ? & ?).
    + intros. cbn. by rewrite lookup_insert_ne.
  - simplify_eq. destruct (restart_fields options now m) as (El & _ & _ & Ex & _). exists []. rewrite app_nil_r. split; [done|].
    intros id. apply rs_same; try done. right. left. by rewrite Ex, lookup_empty.
Qed.

Lemma step_launch_ok l m m' : inv m → task_step options l m = Some m' → (∀ id, launch_ok id m) → ∀ id, launch_ok id m'.
Proof.
  intros Hi E Hlo id. destruct (is_creation l) eqn:Hl.
  - destruct l; try done. destruct (create_creates options _ _ _ _ _ (inv_ok _ Hi) E) as (c & i & _ & _ & _ & Hcr & _).
    destruct Hcr as [Hnew Hlog _ Hels _ (_ & _ & Hx & _) _]. eapply (run_step_ok id m m'); [done| |by apply inv_ok| |done].
    + apply rs_same; try done. left. by rewrite Hx.
    + rewrite Hlog, created_app. destruct (created id (m_log m)) eqn:Ec; [|by left]. intros [?|Hp]; [done|right].
      assert (id ≠ pr_id (start_record id0 (tc_scope c) now i)) as Hne by (intros ->; congruence).
      destruct (Hels id Hne) as (_ & Hw & _). unfold start_pending in *. cbn in *. by rewrite Hw in Hp.
  - pose proof (step_advances options l m m' (inv_ok _ Hi) (inv_phase_current m Hi) Hl E) as Ha.
    destruct (step_runs l m m' Hi Hl E) as (es & Hes & Hr). eapply (run_step_ok id m m'); [done..|by apply inv_ok| |done].
    destruct (created id (m_log m)) as [r0|] eqn:Ec; [|by left]. rewrite (ad_created _ _ _ _ _ Ha Ec). intros [?|Hp]; [done|right].
    by eapply start_pending_advances; [apply inv_ok| | |].
Qed.

Lemma run_launch_ok ls m : run_tasks options ls new_manager = Some m → ∀ id, launch_ok id m.
Proof.
  revert m. induction ls as [|l ls IH] using rev_ind; intros m.
  - intros [= <-] id. split; cbn; [done| |lia]. intros x Hx. by rewrite lookup_empty in Hx.
  - rewrite run_snoc. destruct (run_tasks options ls new_manager) as [m1|] eqn:E; [|done]. cbn. intros Hs.
    eapply step_launch_ok; [by eapply task_run_inv|done|by apply IH].
Qed.
End host.

(** ** Which ended tasks a restart keeps *)

Lemma elem_drop {A} (x : A) n l : x ∈ drop n l → x ∈ l.
Proof. intros Hx. rewrite <- (take_drop n l). apply elem_of_app. by right. Qed.

Lemma rows_filter_filter {A} (p q : A → bool) l : List.filter p (List.filter q l) = List.filter (λ x, q x && p x) l.
Proof. induction l as [|x l IH]; cbn; [done|]. destruct (q x); cbn; [|done]. destruct (p x); by rewrite IH. Qed.

(** The ended tasks that are recent enough, newest first. *)
Definition newer (l r : task) : bool := (terminalRecordTime r <=? terminalRecordTime l)%Z.
Definition expired_record (retentionMs now : Z) (r : task) : bool := (retentionMs <? now - terminalRecordTime r)%Z.
Definition recent_records (retentionMs now : Z) (records : list task) : list task :=
  let terminal := List.filter (λ r, negb (active r)) records in
  let expiredIds := map pr_id (List.filter (expired_record retentionMs now) terminal) in
  order_by newer (List.filter (λ r, negb (bool_decide (pr_id r ∈ expiredIds))) terminal).

Section victims.
Context (retentionMs : Z) (maxRetained : nat) (now : Z) (records : list task).
Context (Hnodup : NoDup (map pr_id records)).

Let expired : task → bool := expired_record retentionMs now.
Let terminal : list task := List.filter (λ r, negb (active r)) records.
Let expiredIds : list string := map pr_id (List.filter expired terminal).
Let retained : list task := recent_records retentionMs now records.
Let victims : list string := retention_victims retentionMs maxRetained now records.

Lemma record_unique r r' : r ∈ records → r' ∈ records → pr_id r = pr_id r' → r = r'.
Proof.
  intros Hr Hr' E. apply list_elem_of_lookup in Hr as [i Hi], Hr' as [j Hj].
  assert (i = j) as ->; [|congruence]. eapply NoDup_lookup; [exact Hnodup|..]; rewrite list_lookup_fmap; [by rewrite Hi|by rewrite Hj, E].
Qed.

Lemma terminal_elem r : r ∈ terminal ↔ r ∈ records ∧ active r = false.
Proof. unfold terminal. rewrite elem_of_rows_filter. by rewrite negb_true_iff. Qed.

Lemma expired_elem r : r ∈ terminal → (pr_id r ∈ expiredIds ↔ expired r = true).
Proof.
  intros Hr. unfold expiredIds. split.
  - intros (r' & E & Hr')%list_elem_of_fmap. apply elem_of_rows_filter in Hr' as [Hr' He].
    apply terminal_elem in Hr as [Hr _], Hr' as [Hr' _]. by rewrite (record_unique r r').
  - intros He. apply list_elem_of_fmap. exists r. split; [done|]. by apply elem_of_rows_filter.
Qed.

Lemma retained_elem r : r ∈ retained ↔ r ∈ terminal ∧ expired r = false.
Proof.
  change retained with (order_by newer (List.filter (λ r, negb (bool_decide (pr_id r ∈ expiredIds))) terminal)).
  rewrite order_by_perm, elem_of_rows_filter, negb_true_iff, bool_decide_eq_false.
  split; intros [Hr He]; (split; [done|]); rewrite expired_elem in * by done; by destruct (expired r).
Qed.

Lemma retained_ordered : ordered newer retained.
Proof. apply order_by_ordered; unfold newer; intros; rewrite ?Z.leb_le in *; lia. Qed.

Lemma retained_nodup : NoDup retained.
Proof.
  change retained with (order_by newer (List.filter (λ r, negb (bool_decide (pr_id r ∈ expiredIds))) terminal)).
  rewrite order_by_perm. apply (NoDup_fmap_1 pr_id).
  apply (NoDup_key_filter pr_id), (NoDup_key_filter pr_id), Hnodup.
Qed.

(** Only ended tasks are victims. *)
Lemma victim_terminal r : r ∈ records → pr_id r ∈ victims → active r = false.
Proof.
  intros Hr Hv. unfold victims, retention_victims in Hv. apply elem_of_app in Hv as [Hv|Hv];
    apply list_elem_of_fmap in Hv as (r' & E & Hr').
  - apply elem_of_rows_filter in Hr' as [Hr' _]. apply terminal_elem in Hr' as [? ?]. by rewrite (record_unique r r').
  - apply elem_drop, retained_elem in Hr' as [[? ?]%terminal_elem _]. by rewrite (record_unique r r').
Qed.

(** What is kept is recent enough and among the newest. *)
Lemma kept_retained r : r ∈ records → active r = false → pr_id r ∉ victims → r ∈ take maxRetained retained ∧ expired r = false.
Proof.
  intros Hr Ha Hv. assert (r ∈ terminal) as Ht by by apply terminal_elem.
  assert (expired r = false) as He.
  { apply not_true_iff_false. intros He%(expired_elem r Ht). apply Hv. apply elem_of_app. by left. }
  split; [|done]. assert (r ∈ retained) as Hin by by apply retained_elem. rewrite <- (take_drop maxRetained retained) in Hin.
  apply elem_of_app in Hin as [?|Hin]; [done|]. destruct Hv. apply elem_of_app. right. apply list_elem_of_fmap. by exists r.
Qed.

Lemma dropped_retained d : d ∈ records → pr_id d ∈ victims → expired d = false → d ∈ drop maxRetained retained.
Proof.
  intros Hd Hv He. assert (d ∈ terminal) as Ht by (apply terminal_elem; split; [done|by apply victim_terminal]).
  apply elem_of_app in Hv as [Hv|Hv].
  - apply (expired_elem d Ht) in Hv. congruence.
  - apply list_elem_of_fmap in Hv as (r' & E & Hr'). pose proof (elem_drop _ _ _ Hr') as [[? _]%terminal_elem _]%retained_elem.
    by rewrite (record_unique d r').
Qed.

Lemma kept_newer r d : r ∈ take maxRetained retained → d ∈ drop maxRetained retained → (terminalRecordTime d ≤ terminalRecordTime r)%Z.
Proof.
  intros Hr Hd. pose proof retained_ordered as Ho. rewrite <- (take_drop maxRetained retained) in Ho.
  revert Ho. generalize (take maxRetained retained) as l, Hr. intros l Hl Ho. induction l as [|x l IH]; [by apply not_elem_of_nil in Hl|].
  cbn in Ho. apply StronglySorted_inv in Ho as [Ho Hx]. apply elem_of_cons in Hl as [->|Hl]; [|by apply IH].
  rewrite Forall_forall in Hx. specialize (Hx d ltac:(apply elem_of_app; by right)). unfold newer in Hx. by apply Z.leb_le.
Qed.

Lemma kept_count kept : NoDup kept → (∀ r, r ∈ kept → r ∈ take maxRetained retained) → length kept ≤ maxRetained.
Proof.
  intros Hn Hs. etrans; [apply (submseteq_length _ (take maxRetained retained)), NoDup_submseteq; [done|exact Hs]|].
  rewrite length_take. lia.
Qed.
End victims.

(** ** The pruning *)

Definition prunes (ids : list string) (e : string * task) : bool := negb (bool_decide (e.1 ∈ ids) && negb (active e.2)).

Lemma prune_entries v (l : list (string * task)) : jsmap_ok l →
  match jget v l with Some r => if active r then l else jdelete v l | None => l end = List.filter (prunes [v]) l.
Proof.
  intros Hl. destruct (jget v l) as [r|] eqn:E.
  - apply jget_elem in E; [|done]. destruct (active r) eqn:Ha.
    + symmetry. apply filter_all. intros [id r'] Hin. unfold prunes. cbn. case_bool_decide as Hv; [|done].
      apply list_elem_of_singleton in Hv as ->. apply jget_elem in E, Hin; try done. assert (r' = r) as -> by congruence. by rewrite Ha.
    + unfold jdelete, filter_entries. apply List.filter_ext_in. intros [id r'] Hin%list_elem_of_In. unfold prunes. cbn.
      rewrite (bool_decide_ext (id ∈ [v]) (id = v)) by apply list_elem_of_singleton. case_bool_decide as Hv; [|done]. subst.
      apply jget_elem in E, Hin; try done. assert (r' = r) as -> by congruence. by rewrite Ha.
  - symmetry. apply filter_all. intros [id r'] Hin. unfold prunes. cbn. case_bool_decide as Hv; [|done].
    apply list_elem_of_singleton in Hv as ->. apply jget_elem in Hin; [congruence|done].
Qed.

Lemma prune_records ids m : jsmap_ok (m_records m) → m_records (foldr prune_one m ids) = List.filter (prunes ids) (m_records m).
Proof.
  intros Hm. induction ids as [|v ids IH]; cbn.
  - symmetry. by apply filter_all.
  - assert (jsmap_ok (m_records (foldr prune_one m ids))) as Hm' by (rewrite IH; by apply (jsmap_ok_filter (λ k r, prunes ids (k, r)) (m_records m)) in Hm).
    transitivity (match jget v (m_records (foldr prune_one m ids)) with
      | Some r => if active r then m_records (foldr prune_one m ids) else jdelete v (m_records (foldr prune_one m ids))
      | None => m_records (foldr prune_one m ids) end).
    { unfold prune_one at 1. by repeat case_match. }
    rewrite prune_entries by done. rewrite IH, rows_filter_filter. apply List.filter_ext. intros [id r]. unfold prunes. cbn [fst snd].
    rewrite (bool_decide_ext (id ∈ v :: ids) (id ∈ [v] ∨ id ∈ ids)) by set_solver. rewrite bool_decide_or.
    by destruct (bool_decide (id ∈ ids)), (bool_decide (id ∈ [v])), (active r).
Qed.

Section restart.
Context `{TaskHost} (options : manager_options) (now : Z) (m : manager) (Hok : manager_ok m).

Let loaded : list (string * task) := map_to_list (m_files m).
Let victims : list string :=
  retention_victims (terminalRetentionMs options) (maxRetainedTerminalTasks options) now (map snd loaded).

Lemma loaded_id id r : (id, r) ∈ loaded → m_files m !! id = Some r ∧ pr_id r = id.
Proof.
  intros Hin%elem_of_map_to_list. split; [done|]. apply (record_id m); [done|]. by rewrite <- (mo_files _ Hok).
Qed.

Lemma loaded_ids : map pr_id (map snd loaded) = map fst loaded.
Proof.
  rewrite map_map. apply map_ext_in. intros [id r] Hin%list_elem_of_In. by destruct (loaded_id id r Hin).
Qed.

Lemma loaded_nodup : NoDup (map pr_id (map snd loaded)).
Proof. rewrite loaded_ids. apply NoDup_fst_map_to_list. Qed.

Lemma restart_records : m_records (restart options now m) = List.filter (prunes victims) loaded.
Proof. unfold restart. rewrite prune_records; [done|]. apply NoDup_fst_map_to_list. Qed.

Lemma restart_file id r : m_files (restart options now m) !! id = Some r ↔
  m_files m !! id = Some r ∧ (active r = true ∨ id ∉ victims).
Proof.
  pose proof (advances_ok _ _ _ (restart_advances options now m Hok) Hok) as Hok'.
  rewrite (mo_files _ Hok'), jget_elem by apply Hok'. rewrite restart_records, elem_of_rows_filter. unfold loaded at 1.
  rewrite elem_of_map_to_list. unfold prunes. cbn. rewrite negb_true_iff, andb_false_iff, bool_decide_eq_false, negb_false_iff. naive_solver.
Qed.

Lemma file_loaded id r : m_files m !! id = Some r → r ∈ map snd loaded ∧ pr_id r = id.
Proof.
  intros Hf. assert ((id, r) ∈ loaded) as Hin by by apply elem_of_map_to_list. split; [|by apply loaded_id].
  apply list_elem_of_fmap. by exists (id, r).
Qed.

(** The ended tasks after a restart. *)
Lemma restart_count : length (List.filter (λ r, negb (active r)) (map snd (m_records (restart options now m)))) ≤ maxRetainedTerminalTasks options.
Proof.
  rewrite restart_records. eapply (kept_count (terminalRetentionMs options) _ now (map snd loaded)).
  - apply (NoDup_fmap_1 pr_id). apply (NoDup_key_filter pr_id). rewrite map_map.
    pose proof (NoDup_key_filter fst (prunes victims) loaded (NoDup_fst_map_to_list _)) as Hn.
    erewrite map_ext_in; [exact Hn|]. intros [id r] [Hin%list_elem_of_In _]%filter_In. by destruct (loaded_id id r Hin).
  - intros r [Hr Ha]%elem_of_rows_filter. apply list_elem_of_fmap in Hr as ([id r'] & -> & Hin). cbn in *.
    apply elem_of_rows_filter in Hin as [Hin Hp]. apply negb_true_iff in Ha. unfold prunes in Hp. cbn in Hp. rewrite Ha in Hp.
    rewrite andb_true_r, negb_true_iff, bool_decide_eq_false in Hp. destruct (loaded_id id r' Hin) as [_ Hid]. rewrite <- Hid in Hp.
    eapply kept_retained; [apply loaded_nodup|apply list_elem_of_fmap; by exists (id, r')|done|done].
Qed.
End restart.
