(* ===== verification/BackgroundTaskTheorems.v ===== *)
(** * BackgroundTaskTheorems: the theorems on background tasks and their logs, with a run *)

From S2P Require Import Prelude JsMap BackgroundLogs BackgroundTasks BackgroundTaskSlots BackgroundTaskSteps BackgroundTaskRuns.
From S2P Require Import BackgroundTaskExclusive BackgroundTaskLaunches.

Section theorems.
Context `{TaskHost} (options : manager_options).

(** An active record of a reachable manager is a live task. *)
Lemma active_not_dead m id r : manager_ok m → m_files m !! id = Some r → active r = true →
  ∃ r0, created id (m_log m) = Some r0 ∧ task_key r = task_key r0 ∧ ¬ dead_task id m.
Proof.
  intros Hok Hf Ha. rewrite (mo_files _ Hok) in Hf. destruct (record_created m id r Hok Hf) as (r0 & Hc & _ & _ & [_ Hk]).
  exists r0. split_and!; [done..|]. intros [Hd _]. specialize (Hd r Hf). congruence.
Qed.

(** C27: As long as the process id of a command is reported before its task ends, a command has at
    most one active task: in every reachable state two active task files with the same
    owner scope, workspace and command hash are the same task, whatever starts, cancellations,
    executions, file writes and restarts interleave. *)
Theorem one_active_task_per_command ls m id1 id2 r1 r2 :
  prompt_pids options ls → run_tasks options ls new_manager = Some m →
  m_files m !! id1 = Some r1 → m_files m !! id2 = Some r2 → active r1 = true → active r2 = true →
  task_key r1 = task_key r2 → id1 = id2.
Proof.
  intros Hp Hr H1 H2 A1 A2 Hk. pose proof (inv_ok _ (task_run_inv options ls m Hr)) as Hok.
  destruct (active_not_dead m id1 r1 Hok H1 A1) as (s1 & C1 & K1 & D1), (active_not_dead m id2 r2 Hok H2 A2) as (s2 & C2 & K2 & D2).
  apply (ec_unique _ (run_exclusive options ls m Hp Hr) id1 id2 s1 s2); congruence.
Qed.

(** A task that is not active stays so in a step without a late process id. *)
Lemma step_dead l m m' id r0 : inv m → exclusive m → late_of l m ≠ Late → task_step options l m = Some m' →
  created id (m_log m) = Some r0 → dead_task id m → dead_task id m' ∧ created id (m_log m') = Some r0.
Proof.
  intros Hi He Hl E Hc Hd. destruct (is_creation l) eqn:Hcr.
  - destruct l; try done. destruct (create_creates options _ _ _ _ _ (inv_ok _ Hi) E) as (c & i & _ & _ & _ & Hcs & _).
    split; [|by apply (ex_created _ _ (creates_extends _ _ _ _ _ Hcs))]. destruct Hcs as [Hnew _ _ Hels _ _ _].
    assert (id ≠ pr_id (start_record id0 (tc_scope c) now i)) as Hne by congruence. destruct (Hels id Hne) as (E1 & E2 & _).
    unfold dead_task, dead_slot in *. cbn in *. by rewrite E1, E2.
  - pose proof (step_advances options l m m' (inv_ok _ Hi) (inv_phase_current m Hi) Hcr E) as Ha.
    split; [|by eapply ad_created]. by eapply (advance_dead (late_of l m) m m' (inv_ok _ Hi)).
Qed.

(** As long as the process id of a command is reported before its task ends, a task whose file
    says that it succeeded, failed or was cancelled is never active again, after any further
    steps and restarts, as long as its file is kept. *)
Theorem ended_task_stays_ended ls ls' m m' id r r' :
  prompt_pids options (ls ++ ls') → run_tasks options ls new_manager = Some m →
  run_tasks options (ls ++ ls') new_manager = Some m' →
  m_files m !! id = Some r → active r = false → m_files m' !! id = Some r' → active r' = false.
Proof.
  intros Hp Hr Hr' Hf Ha. pose proof (inv_ok _ (task_run_inv options ls m Hr)) as Hok. rewrite (mo_files _ Hok) in Hf.
  destruct (record_created m id r Hok Hf) as (r0 & Hc & _ & Hsl & _).
  assert (dead_task id m) as Hd.
  { pose proof (run_exclusive options ls m (prompt_pids_app _ _ _ Hp) Hr) as He. apply ordered_dead; [by eapply ec_ordered|..].
    - intros Hs. destruct (start_pending_alone r0 (slot_of id m) Hsl Hs) as [E _]. cbn in E. congruence.
    - cbn. congruence. }
  assert (dead_task id m' ∧ created id (m_log m') = Some r0) as [Hd' _].
  { revert m' Hp Hr'. induction ls' as [|l ls' IH] using rev_ind; intros m'; [rewrite app_nil_r; intros _ E; by simplify_eq|].
    rewrite (assoc_L (++)). intros Hp. rewrite run_snoc. destruct (run_tasks options (ls ++ ls') new_manager) as [m1|] eqn:E1; [|done]. cbn.
    destruct (IH m1 (prompt_pids_app _ _ _ Hp) eq_refl) as [Hd1 Hc1]. intros Hs. eapply (step_dead l m1); try done; [by eapply task_run_inv| |].
    - by apply (run_exclusive options _ _ (prompt_pids_app _ _ _ Hp) E1).
    - destruct l; cbn; try done. by rewrite (Hp (ls ++ ls') id0 pid [] m1 eq_refl E1). }
  intros Hf'. rewrite (mo_files _ (inv_ok _ (task_run_inv options _ m' Hr'))) in Hf'. by apply Hd'.
Qed.

(** C28: When a cancellation returns a task, the task is not active and was started in the owner scope
    of the caller, in every interleaving, late process ids included. *)
Theorem cancel_returns_ended_task ls m n c id t :
  run_tasks options ls new_manager = Some m → m_calls m !! n = Some c → tc_request c = Cancel id →
  tc_phase c = P_returned (R_task (Some t)) →
  tr_state t ≠ starting ∧ tr_state t ≠ running ∧ owned_id m (tc_scope c) (tr_id t).
Proof.
  intros Hr Hc Hq Hp. pose proof (inv_calls _ (task_run_inv options ls m Hr) n c Hc) as Hok. unfold call_ok in Hok. rewrite Hp in Hok.
  destruct Hok as [Ho Ha]. specialize (Ha (ex_intro _ id Hq)). unfold ACTIVE_STATES in Ha. bool_inv. naive_solver.
Qed.

(** The tasks a call has answered with. *)
Definition reply_tasks (c : task_call) : list BackgroundTaskRecord :=
  match tc_phase c with
  | P_returned (R_task t) | P_returned (R_stdin t) => option_list t
  | P_returned (R_tasks ts) => ts
  | _ => []
  end.

(** Calls work only on tasks of their own owner scope: every task a start, get, list, cancel or
    stdin call answers with, every task it cancels and every task it writes input to was
    created by a start with the same owner scope hash. *)
Theorem owner_scopes_are_isolated ls m n c :
  run_tasks options ls new_manager = Some m → m_calls m !! n = Some c →
  (∀ t, t ∈ reply_tasks c → owned_id m (tc_scope c) (tr_id t)) ∧
  (∀ id, E_cancelled n id ∈ m_log m → owned_id m (tc_scope c) id) ∧
  (∀ id input, E_stdin n id input ∈ m_log m → owned_id m (tc_scope c) id).
Proof.
  intros Hr Hc. pose proof (task_run_inv options ls m Hr) as Hi. pose proof (inv_calls _ Hi n c Hc) as Hok.
  assert (∀ e id, e = E_cancelled n id ∨ (∃ input, e = E_stdin n id input) → e ∈ m_log m → owned_id m (tc_scope c) id) as Hev.
  { intros e id He Hin. pose proof (inv_log _ Hi e Hin) as Hev. pose proof (call_identity m n c Hc) as Hid.
    destruct He as [->|[input ->]]; destruct Hev as (req & scope & Hid' & Ho); by simplify_eq. }
  split_and!; [|intros id Hin; by eapply Hev; [by left|]|intros id input Hin; by eapply Hev; [right; eauto|]].
  intros t Ht. unfold reply_tasks, call_ok in *. destruct (tc_phase c) as [| | | | | | | | |a|]; try by apply not_elem_of_nil in Ht.
  destruct a as [[t'|]|ts|[t'|]|]; cbn in *; try by apply not_elem_of_nil in Ht.
  - apply list_elem_of_singleton in Ht as ->. by destruct Hok.
  - rewrite Forall_forall in Hok. by apply Hok.
  - by apply list_elem_of_singleton in Ht as ->.
Qed.

(** The command of a task is launched at most once, and its end is announced at most once and only
    after the launch, over all interleavings and restarts. *)
Theorem command_runs_and_ends_once ls m id :
  run_tasks options ls new_manager = Some m →
  length (launches id (m_log m)) ≤ 1 ∧ length (announcements id (m_log m)) ≤ length (launches id (m_log m)).
Proof. intros Hr. destruct (run_launch_ok options ls m Hr id) as [_ _ [? ?]]. done. Qed.

(** A restart keeps the file of every active task and at most [maxRetainedTerminalTasks] ended
    ones, none older than [terminalRetentionMs]; an ended task it drops although it is recent
    enough is not newer than any ended task it keeps. *)
Theorem restart_retention ls m now :
  run_tasks options ls new_manager = Some m →
  let m' := restart options now m in
  (∀ id r, m_files m !! id = Some r → active r = true → m_files m' !! id = Some r) ∧
  length (List.filter (λ r, negb (active r)) (map snd (m_records m'))) ≤ maxRetainedTerminalTasks options ∧
  (∀ id r, m_files m' !! id = Some r → active r = false → (now - terminalRecordTime r ≤ terminalRetentionMs options)%Z) ∧
  (∀ id r id' d, m_files m' !! id = Some r → active r = false → m_files m !! id' = Some d → m_files m' !! id' = None →
     (now - terminalRecordTime d ≤ terminalRetentionMs options)%Z → (terminalRecordTime d ≤ terminalRecordTime r)%Z).
Proof.
  intros Hr m'. pose proof (inv_ok _ (task_run_inv options ls m Hr)) as Hok.
  pose proof (restart_file options now m Hok) as Hf. pose proof (loaded_nodup m Hok) as Hn. pose proof (file_loaded m Hok) as Hl.
  assert (∀ id r, m_files m' !! id = Some r → active r = false →
    r ∈ take (maxRetainedTerminalTasks options) (recent_records (terminalRetentionMs options) now (map snd (map_to_list (m_files m)))) ∧
    expired_record (terminalRetentionMs options) now r = false) as Hkept.
  { intros id r [Hm Hv]%Hf Ha. destruct (Hl id r Hm) as [Hin Hid]. apply (kept_retained _ _ _ _ Hn); [done..|].
    rewrite Hid. destruct Hv; [congruence|done]. }
  split_and!.
  - intros id r Hm Ha. apply Hf. auto.
  - apply (restart_count options now m Hok).
  - intros id r Hm Ha. destruct (Hkept id r Hm Ha) as [_ He]. unfold expired_record in He. lia.
  - intros id r id' d Hm Ha Hd Hnone Hage. destruct (Hkept id r Hm Ha) as [Hin _]. destruct (Hl id' d Hd) as [Hdin Hdid].
    eapply (kept_newer (terminalRetentionMs options) _ now (map snd (map_to_list (m_files m)))); [exact Hin|].
    apply (dropped_retained _ _ _ _ Hn); [done| |unfold expired_record; lia]. rewrite Hdid.
    destruct (decide (id' ∈ retention_victims (terminalRetentionMs options) (maxRetainedTerminalTasks options) now (map snd (map_to_list (m_files m))))); [done|].
    assert (m_files m' !! id' = Some d) by (apply Hf; auto). congruence.
Qed.
End theorems.

(** The output of a task is read completely and exactly once: a client that starts at offset 0
    and always continues at [nextOffset], with [maxBytes] at least 4 as the input schema
    demands, gets no error however the log grows between its reads and even when a read finds
    a character half written; once the log is complete it has read every byte after at most one
    read per character. *)
Theorem log_reader_reads_all cs sizes maxBytes :
  Forall utf8_char cs → 4 ≤ maxBytes → Sorted le sizes → Forall (λ n, n ≤ length (concat cs)) sizes →
  ∃ contents, follow (((λ n, take n (concat cs)) <$> sizes) ++ replicate (length cs) (concat cs)) 0 maxBytes =
      Ok (contents, length (concat cs)) ∧ concat contents = concat cs.
Proof.
  intros Hcs Hm Hs Hle. apply (follow_growing cs 0 sizes maxBytes Hcs Hm); [|done].
  constructor; [done|]. destruct sizes; constructor. apply Nat.le_0_l.
Qed.

(** ** A run *)

#[local] Instance demo_host : TaskHost := {| task_sha256 := λ s, ("h" +:+ s)%string; redact := id; sanitize := id |}.

Definition demo_options : manager_options := {| terminalRetentionMs := 1000; maxRetainedTerminalTasks := 1 |}.

Definition build : StartBackgroundTaskInput :=
  {| si_workspaceId := "ws"; si_operation := "build"; si_command := "make"; si_shell := "bash"; si_cwd := None;
     si_interactive := false; si_timeoutMs := 30000 |}.

Definition gone (pid : Z) : bool := false.

(** A start creates the task [id] and launches its command. *)
Definition start_script (n : nat) (id scope : string) (now : Z) : list task_label :=
  [L_begin (Start build) (Some scope); L_turn n; L_continue n now gone; L_create n id now; L_write id now; L_write id now].

(** The process id comes, the task is cancelled, the runner ends. *)
Definition cancel_script (n : nat) (id scope : string) (now : Z) : list task_label :=
  [L_pid id 7; L_write id now; L_begin (Cancel id) (Some scope); L_continue n now gone; L_write id now;
   L_ended id (Threw "aborted" None); L_decide id now; L_continue n now gone; L_continue n now gone].

(** A run of task [t1], which is cancelled, and of [t2], whose command succeeds. *)
Definition first_task : list task_label := start_script 0 "t1" "alice" 10 ++ cancel_script 1 "t1" "alice" 20.
Definition second_task : list task_label :=
  start_script 2 "t2" "alice" 30 ++
  [L_ended "t2" (Executed {| rc_shell := "bash"; rc_cwd := "."; rc_exitCode := Some 0%Z; rc_stdout := "ok"; rc_stderr := "";
     rc_timedOut := false; rc_lifecycle := None |}); L_decide "t2" 40; L_saved "t2"; L_write "t2" 40;
   L_begin (Start build) (Some "alice"); L_turn 3; L_continue 3 50 gone]%string.

Definition after_first : manager := Eval vm_compute in default new_manager (run_tasks demo_options first_task new_manager).
Definition after_second : manager := Eval vm_compute in default new_manager (run_tasks demo_options (first_task ++ second_task) new_manager).
Definition after_start : manager := Eval vm_compute in default new_manager (run_tasks demo_options (start_script 0 "t1" "alice" 10) new_manager).

Lemma run_first : run_tasks demo_options first_task new_manager = Some after_first.
Proof. vm_cast_no_check (eq_refl (Some after_first)). Qed.
Lemma run_second : run_tasks demo_options (first_task ++ second_task) new_manager = Some after_second.
Proof. vm_cast_no_check (eq_refl (Some after_second)). Qed.
Lemma run_start : run_tasks demo_options (start_script 0 "t1" "alice" 10) new_manager = Some after_start.
Proof. vm_cast_no_check (eq_refl (Some after_start)). Qed.

Example first_states : map (λ e, (e.1, tr_state (pr_task e.2))) (m_records after_first) = [("t1", cancelled)]%string.
Proof. vm_compute. reflexivity. Qed.
Example second_states : map (λ e, (e.1, tr_state (pr_task e.2))) (m_records after_second) = [("t1", cancelled); ("t2", succeeded)]%string.
Proof. vm_compute. reflexivity. Qed.

Lemma second_prompt : prompt_pids demo_options (first_task ++ second_task).
Proof. apply check_prompt_pids. vm_compute. reflexivity. Qed.
Lemma start_prompt : prompt_pids demo_options (start_script 0 "t1" "alice" 10).
Proof. apply check_prompt_pids. vm_compute. reflexivity. Qed.

Definition file_of (id : string) (m : manager) : task := default (start_record id None 0 build) (m_files m !! id).

Lemma one_active_task_per_command_witness : active (file_of "t1" after_start) = true ∧ "t1"%string = "t1"%string.
Proof.
  assert (m_files after_start !! "t1"%string = Some (file_of "t1" after_start)) as Hf
    by vm_cast_no_check (eq_refl (Some (file_of "t1" after_start))).
  assert (active (file_of "t1" after_start) = true) as Ha by (vm_compute; reflexivity).
  exact (conj Ha (one_active_task_per_command demo_options _ _ "t1" "t1" _ _ start_prompt run_start Hf Hf Ha Ha eq_refl)).
Defined.

Lemma ended_task_stays_ended_witness : active (file_of "t1" after_second) = false.
Proof.
  refine (ended_task_stays_ended demo_options first_task second_task after_first after_second "t1" (file_of "t1" after_first)
    (file_of "t1" after_second) second_prompt run_first run_second _ _ _).
  - vm_cast_no_check (eq_refl (Some (file_of "t1" after_first))).
  - vm_compute. reflexivity.
  - vm_cast_no_check (eq_refl (Some (file_of "t1" after_second))).
Defined.

Definition call_of (n : nat) (m : manager) : task_call :=
  default {| tc_request := Get ""; tc_scope := None; tc_phase := P_lost |} (m_calls m !! n).

Lemma first_call : m_calls after_first !! 1 = Some (call_of 1 after_first).
Proof. vm_cast_no_check (eq_refl (Some (call_of 1 after_first))). Qed.

Lemma cancel_returns_ended_task_witness : tr_state (pr_task (file_of "t1" after_first)) ≠ running.
Proof.
  refine (proj1 (proj2 (cancel_returns_ended_task demo_options first_task after_first 1 (call_of 1 after_first) "t1"
    (pr_task (file_of "t1" after_first)) run_first first_call _ _))).
  - vm_cast_no_check (eq_refl (Cancel "t1")).
  - vm_cast_no_check (eq_refl (P_returned (R_task (Some (pr_task (file_of "t1" after_first)))))).
Defined.

Lemma owner_scopes_are_isolated_witness : owned_id after_first (Some "alice"%string) "t1".
Proof.
  refine (proj1 (proj2 (owner_scopes_are_isolated demo_options first_task after_first 1 (call_of 1 after_first) run_first first_call)) "t1"%string _).
  apply (list_elem_of_lookup_2 _ 2). vm_compute. reflexivity.
Defined.

Lemma command_runs_and_ends_once_witness :
  launches "t2" (m_log after_second) = ["make"%string] ∧ announcements "t2" (m_log after_second) = [succeeded] ∧
  length (launches "t2" (m_log after_second)) ≤ 1.
Proof.
  assert (launches "t2" (m_log after_second) = ["make"%string]) as E1 by (vm_compute; reflexivity).
  assert (announcements "t2" (m_log after_second) = [succeeded]) as E2 by (vm_compute; reflexivity).
  exact (conj E1 (conj E2 (proj1 (command_runs_and_ends_once demo_options _ _ "t2" run_second)))).
Defined.

Lemma restart_retention_witness :
  map fst (m_records (restart demo_options 60 after_second)) = ["t2"%string] ∧
  length (List.filter (λ r, negb (active r)) (map snd (m_records (restart demo_options 60 after_second)))) ≤ 1.
Proof.
  assert (map fst (m_records (restart demo_options 60 after_second)) = ["t2"%string]) as E by (vm_compute; reflexivity).
  exact (conj E (proj1 (proj2 (restart_retention demo_options _ _ 60 run_second)))).
Defined.

Lemma log_reader_reads_all_witness :
  ∃ contents, follow [[72; 195]; [72; 195]; [72; 195; 169]; [72; 195; 169]]%Z 0 4 = Ok (contents, 3) ∧
    concat contents = [72; 195; 169]%Z.
Proof.
  refine (log_reader_reads_all [[72]; [195; 169]]%Z [2; 2] 4 _ _ _ _).
  - repeat constructor.
  - lia.
  - repeat constructor.
  - repeat constructor.
Defined.

(** A process id that is reported while the cancellation is being written revives the task:
    the record says [running] after it said [cancelled], and the task ends as [failed], with
    an announcement. *)
Definition late_script : list task_label :=
  start_script 0 "t1" "alice" 10 ++
  [L_begin (Cancel "t1") (Some "alice"); L_continue 1 20 gone; L_pid "t1" 7; L_write "t1" 20]%string.
Definition late_end : list task_label :=
  [L_write "t1" 21; L_ended "t1" (Threw "aborted" None); L_decide "t1" 22; L_write "t1" 23; L_continue 1 24 gone; L_continue 1 25 gone]%string.

Definition state_after (ls : list task_label) : option BackgroundTaskState :=
  m ← run_tasks demo_options ls new_manager; tr_state ∘ pr_task <$> m_files m !! "t1"%string.

Lemma late_pid_revives_cancelled_task :
  state_after late_script = Some cancelled ∧ state_after (late_script ++ take 1 late_end) = Some running ∧
  state_after (late_script ++ late_end) = Some failed ∧
  (m ← run_tasks demo_options (late_script ++ late_end) new_manager; Some (announcements "t1" (m_log m))) = Some [failed].
Proof. vm_compute. done. Qed.
