(* ===== verification/NodePath.v ===== *)
(** * NodePath: strings with slashes and the POSIX path functions of Node

    The operations of JavaScript strings and of Node's [path.posix] that the workspace
    agent builds its checks on, at the level of segments: [split("/")], [join("/")],
    [startsWith], [replaceAll], and [isAbsolute], [resolve], [relative], [dirname],
    [join] and [normalize].  [normalizeString] of Node works character by character; on
    segments it is [normalize_segments].  The lemmas relate the string tests of the code
    to prefixes of segment lists. *)

From S2P Require Import Prelude Text.
From Stdlib Require Import Ascii.

(** ** Strings *)

Definition slash : Ascii.ascii := "/"%char.
Definition is_slash (c : Ascii.ascii) : bool := Ascii.eqb c slash.

(** [s.split("/")] *)
Fixpoint split_slash (s : string) : list string :=
  match s with
  | EmptyString => [""]
  | String c r =>
      if is_slash c then "" :: split_slash r
      else match split_slash r with
           | h :: t => String c h :: t
           | [] => [String c ""]
           end
  end.

(** [l.join("/")] *)
Definition join_slash (l : list string) : string := String.concat "/" l.

(** [s.startsWith(p)] *)
Definition startsWith (p s : string) : bool := String.prefix p s.

(** [s.replaceAll("\\", "/")] *)
Fixpoint to_slashes (s : string) : string :=
  match s with
  | EmptyString => EmptyString
  | String c r => String (if Ascii.eqb c backslash then slash else c) (to_slashes r)
  end.

(** [s.toLowerCase()] on ASCII letters *)
Definition lower_char (c : Ascii.ascii) : Ascii.ascii :=
  if is_upper c then Ascii.ascii_of_nat (Ascii.nat_of_ascii c + 32) else c.

Fixpoint toLowerCase (s : string) : string :=
  match s with
  | EmptyString => EmptyString
  | String c r => String (lower_char c) (toLowerCase r)
  end.

(** ** Paths *)

(** [path.posix.isAbsolute] *)
Definition isAbsolute (p : string) : bool := startsWith "/" p.

(** [path.win32.isAbsolute] *)
Definition win32_isAbsolute (p : string) : bool :=
  match p with
  | EmptyString => false
  | String c r =>
      is_slash c || Ascii.eqb c backslash ||
      match r with
      | String d (String e _) =>
          (is_upper c || is_lower c) && Ascii.eqb d ":"%char && (is_slash e || Ascii.eqb e backslash)
      | _ => false
      end
  end.

Definition trivial_segment (s : string) : bool := bool_decide (s = "") || bool_decide (s = ".").

(** [normalizeString]; [out] holds the segments kept so far, the last one first. *)
Fixpoint normalize_segments (allowAboveRoot : bool) (out segs : list string) : list string :=
  match segs with
  | [] => rev out
  | s :: r =>
      if trivial_segment s then normalize_segments allowAboveRoot out r
      else if bool_decide (s = "..") then
        match out with
        | h :: t =>
            if bool_decide (h = "..") then
              normalize_segments allowAboveRoot (if allowAboveRoot then ".." :: out else out) r
            else normalize_segments allowAboveRoot t r
        | [] => normalize_segments allowAboveRoot (if allowAboveRoot then [".."] else []) r
        end
      else normalize_segments allowAboveRoot (s :: out) r
  end.

(** The absolute path with these segments. *)
Definition render (l : list string) : string := "/" +:+ join_slash l.

Definition segments (p : string) : list string := normalize_segments false [] (split_slash p).

(** The loop of [path.posix.resolve] over its arguments from the last to the first. *)
Fixpoint resolve_args (cwd : string) (rev_args : list string) (acc : string) : string :=
  match rev_args with
  | [] => cwd +:+ "/" +:+ acc
  | a :: r =>
      if bool_decide (a = "") then resolve_args cwd r acc
      else
        let acc := a +:+ "/" +:+ acc in
        if isAbsolute a then acc else resolve_args cwd r acc
  end.

(** [path.posix.resolve]; [cwd] is the working directory of the process. *)
Definition resolve (cwd : string) (args : list string) : string :=
  render (segments (resolve_args cwd (rev args) "")).

Fixpoint common_length (a b : list string) : nat :=
  match a, b with
  | x :: a, y :: b => if bool_decide (x = y) then S (common_length a b) else 0
  | _, _ => 0
  end.

(** [path.posix.relative] *)
Definition relative (cwd from to : string) : string :=
  let f := segments (resolve cwd [from]) in
  let t := segments (resolve cwd [to]) in
  let k := common_length f t in
  join_slash (replicate (length f - k) ".." ++ drop k t).

(** [path.posix.dirname] of an absolute path without a trailing slash *)
Definition dirname (p : string) : string := render (removelast (segments p)).

(** [path.posix.normalize] *)
Definition normalize (p : string) : string :=
  if bool_decide (p = "") then "."
  else
    let absolute := isAbsolute p in
    let trailing := bool_decide (last (split_slash p) = Some "") in
    let body := join_slash (normalize_segments (negb absolute) [] (split_slash p)) in
    if bool_decide (body = "") then
      if absolute then "/" else if trailing then "./" else "."
    else (if absolute then "/" else "") +:+ body +:+ (if trailing then "/" else "").

(** [path.posix.join] of two parts *)
Definition join (a b : string) : string :=
  normalize (join_slash (List.filter (λ s, negb (bool_decide (s = ""))) [a; b])).

(** ** Segments *)

Definition no_slash (s : string) : bool := all_chars (λ c, negb (is_slash c)) s.

(** A name of a directory entry. *)
Definition seg_ok (s : string) : bool :=
  no_slash s && negb (trivial_segment s) && negb (bool_decide (s = "..")).

Lemma slash_eq c : is_slash c = true ↔ c = slash.
Proof. apply Ascii.eqb_eq. Qed.

Lemma split_slash_ne s : split_slash s ≠ [].
Proof. destruct s as [|c r]; [done|]. cbn. destruct (is_slash c); [done|]. by destruct (split_slash r). Qed.

Lemma split_app_slash s r : split_slash (s +:+ "/" +:+ r) = split_slash s ++ split_slash r.
Proof.
  induction s as [|c s IH]; [done|]. cbn -[String.append]. change (String c s +:+ ?x) with (String c (s +:+ x)).
  cbn -[String.append]. rewrite IH. destruct (is_slash c); [done|].
  destruct (split_slash s) eqn:E; [by destruct (split_slash_ne s)|done].
Qed.

Lemma split_no_slash s : no_slash s = true → split_slash s = [s].
Proof.
  induction s as [|c s IH]; [done|]. unfold no_slash in *. cbn. intros [Hc Hs]%andb_true_iff.
  apply negb_true_iff in Hc. by rewrite Hc, (IH Hs).
Qed.

Lemma join_cons s t l : join_slash (s :: t :: l) = s +:+ "/" +:+ join_slash (t :: l).
Proof. done. Qed.

Lemma join_app l k : l ≠ [] → k ≠ [] → join_slash (l ++ k) = join_slash l +:+ "/" +:+ join_slash k.
Proof.
  intros Hl Hk. induction l as [|s l IH]; [done|]. destruct l as [|t l].
  - destruct k; [done|]. apply join_cons.
  - cbn [app]. rewrite !join_cons. rewrite text_app_assoc. f_equal. rewrite text_app_assoc. f_equal.
    by apply IH.
Qed.

Lemma split_join l : l ≠ [] → Forall (λ s, no_slash s = true) l → split_slash (join_slash l) = l.
Proof.
  intros Hl HF. induction HF as [|s l Hs HF IH]; [done|]. destruct l as [|t l].
  - by apply split_no_slash.
  - rewrite join_cons, split_app_slash, (split_no_slash _ Hs), IH; done.
Qed.

Lemma join_split s : join_slash (split_slash s) = s.
Proof.
  induction s as [|c s IH]; [done|]. cbn. destruct (is_slash c) eqn:Hc.
  - apply slash_eq in Hc as ->. destruct (split_slash s) eqn:E; [by destruct (split_slash_ne s)|].
    rewrite join_cons, IH. done.
  - destruct (split_slash s) as [|h t] eqn:E; [by destruct (split_slash_ne s)|].
    rewrite <-IH. destruct t; done.
Qed.

Lemma split_slash_no_slash s : Forall (λ s, no_slash s = true) (split_slash s).
Proof.
  induction s as [|c s IH]; [repeat constructor|]. cbn. destruct (is_slash c) eqn:Hc.
  - by constructor.
  - destruct (split_slash s) as [|h t]; inversion_clear IH; repeat constructor; unfold no_slash in *;
      cbn; rewrite ?Hc; done.
Qed.

Lemma startsWith_iff p s : startsWith p s = true ↔ ∃ r, s = p +:+ r.
Proof.
  unfold startsWith. revert s. induction p as [|c p IH]; intros s.
  - split; [intros _; by exists s|]. by destruct s.
  - destruct s as [|d s]; cbn -[String.append].
    + split; [done|]. by intros (r & [=]).
    + destruct (Ascii.ascii_dec c d) as [->|Hn].
      * rewrite IH. split; intros (r & E); exists r.
        -- by rewrite E.
        -- by injection E as E.
      * split; [done|]. intros (r & E). by injection E as E' _; destruct Hn.
Qed.

(** A test of the code, [target === base || target.startsWith(base + "/")], on joined
    segments: the segments of [base] are a prefix. *)
Definition under (base target : string) : bool :=
  bool_decide (target = base) || startsWith (base +:+ "/") target.

Lemma under_iff base target :
  under base target = true ↔ split_slash base `prefix_of` split_slash target.
Proof.
  unfold under. rewrite orb_true_iff, bool_decide_eq_true, startsWith_iff. split.
  - intros [->|(r & ->)]; [done|]. rewrite text_app_assoc, split_app_slash. by eexists.
  - intros (k & E). rewrite <-(join_split base), <-(join_split target), E. destruct k as [|x k].
    + left. by rewrite app_nil_r.
    + right. exists (join_slash (x :: k)). rewrite text_app_assoc. apply join_app; [|done].
      apply split_slash_ne.
Qed.

(** ** Normal absolute paths *)

Definition normal (l : list string) : Prop := Forall (λ s, seg_ok s = true) l.

Lemma seg_ok_inv s :
  seg_ok s = true → no_slash s = true ∧ trivial_segment s = false ∧ s ≠ "..".
Proof. unfold seg_ok. intros. bool_inv. done. Qed.

Lemma normal_no_slash l : normal l → Forall (λ s, no_slash s = true) l.
Proof. intros H. eapply Forall_impl; [exact H|]. intros s Hs. by apply seg_ok_inv in Hs as (? & _). Qed.

Lemma normalize_normal above out l :
  normal l → normalize_segments above out l = rev out ++ l.
Proof.
  revert out. induction l as [|s l IH]; intros out; [by rewrite app_nil_r|].
  inversion_clear 1 as [|? ? Hs Hl]. apply seg_ok_inv in Hs as (_ & Ht & Hd). cbn.
  rewrite Ht, (bool_decide_eq_false_2 _ Hd), (IH _ Hl). cbn. by rewrite <-app_assoc.
Qed.

Lemma normalize_segments_normal out l :
  normal (rev out) → Forall (λ s, no_slash s = true) l → normal (normalize_segments false out l).
Proof.
  intros Ho Hl. revert out Ho. induction Hl as [|s l Hs Hl IH]; intros out Ho; cbn; [done|].
  destruct (trivial_segment s) eqn:Ht; [by apply IH|]. case_bool_decide as Hd.
  - destruct out as [|h t]; [by apply IH|]. cbn in Ho. apply Forall_app in Ho as [Hr Hh].
    inversion_clear Hh as [|? ? Hh' _]. apply seg_ok_inv in Hh' as (? & ? & Hne).
    rewrite (bool_decide_eq_false_2 _ Hne). by apply IH.
  - apply IH. cbn. apply Forall_app_2; [done|]. repeat constructor. unfold seg_ok.
    by rewrite Hs, Ht, (bool_decide_eq_false_2 _ Hd).
Qed.

Lemma segments_normal p : normal (segments p).
Proof. apply normalize_segments_normal; [constructor|apply split_slash_no_slash]. Qed.

Lemma split_render l : normal l → l ≠ [] → split_slash (render l) = "" :: l.
Proof. intros H Hl. unfold render.
  change ("" :: split_slash (join_slash l) = "" :: l). f_equal.
  apply split_join; [done|]. by apply normal_no_slash. Qed.

Lemma segments_render l : normal l → segments (render l) = l.
Proof.
  intros H. unfold segments. destruct l as [|s l]; [done|]. rewrite split_render by done.
  change (normalize_segments false [] (s :: l) = s :: l). by apply normalize_normal.
Qed.

Lemma render_inj l k : normal l → normal k → render l = render k → l = k.
Proof. intros Hl Hk E. by rewrite <-(segments_render l), <-(segments_render k), E. Qed.

Lemma normalize_trailing above out l :
  normalize_segments above out (l ++ [""]) = normalize_segments above out l.
Proof. revert out. induction l as [|s l IH]; intros out; [done|]. cbn. repeat case_match; apply IH. Qed.

Lemma isAbsolute_render l : isAbsolute (render l) = true.
Proof. apply startsWith_iff. by eexists. Qed.

Lemma seg_ok_relative s : seg_ok s = true → bool_decide (s = "") = false ∧ isAbsolute s = false.
Proof.
  intros (Hs & Ht & _)%seg_ok_inv. unfold trivial_segment in Ht. apply orb_false_iff in Ht as [Ht _]. split; [done|].
  apply not_true_iff_false. intros (r & ->)%startsWith_iff. done.
Qed.

Lemma split_resolve_args cwd root rs acc :
  isAbsolute root = true → normal rs →
  split_slash (resolve_args cwd (rs ++ [root]) acc) = split_slash root ++ rev rs ++ split_slash acc.
Proof.
  intros Ha H. revert acc. induction H as [|s rs Hs H IH]; intros acc.
  - cbn [app resolve_args]. rewrite Ha. destruct root; [done|]. cbn iota. apply split_app_slash.
  - cbn [app resolve_args]. destruct (seg_ok_relative s Hs) as [-> ->]. cbn iota. rewrite IH, split_app_slash.
    apply seg_ok_inv in Hs as (Hs & _). rewrite (split_no_slash _ Hs). cbn. by rewrite <-app_assoc.
Qed.

Lemma normalize_app above out l k :
  normalize_segments above out (l ++ k) = normalize_segments above (rev (normalize_segments above out l)) k.
Proof.
  revert out. induction l as [|s l IH]; intros out; [cbn; by rewrite rev_involutive|].
  cbn. repeat case_match; apply IH.
Qed.

(** Resolving names against an absolute root appends them to it. *)
Lemma resolve_segments cwd root rel :
  isAbsolute root = true → normal rel → resolve cwd (root :: rel) = render (segments root ++ rel).
Proof.
  intros Ha Hr. unfold resolve. f_equal. unfold segments at 1. cbn [rev].
  rewrite split_resolve_args by (done || by apply Forall_rev).
  rewrite rev_involutive, app_assoc. change (split_slash "") with [""].
  rewrite normalize_trailing, normalize_app. fold (segments root).
  rewrite normalize_normal by done. by rewrite rev_involutive.
Qed.

Lemma resolve_render cwd l : normal l → resolve cwd [render l] = render l.
Proof. 
  intros H. rewrite resolve_segments by (apply isAbsolute_render || constructor).
  by rewrite app_nil_r, segments_render.
Qed.

Lemma render_ne l : render l ≠ "".
Proof. done. Qed.

Lemma join_ne l : l ≠ [] → normal l → join_slash l ≠ "".
Proof.
  intros Hne Hn. destruct l as [|s l]; [done|]. inversion_clear Hn as [|? ? Hs _]. destruct s; [done|]. by destruct l.
Qed.

Lemma join_render l s : normal l → seg_ok s = true → join (render l) s = render (l ++ [s]).
Proof.
  intros Hl Hs. pose proof (seg_ok_inv s Hs) as (Hn & Ht & _).
  assert (s ≠ "") as Hne by (intros ->; done). unfold join. cbn [List.filter].
  rewrite (bool_decide_eq_false_2 (render l = "")), (bool_decide_eq_false_2 (s = "")) by done. cbn [negb].
  change (join_slash [render l; s]) with (render l +:+ "/" +:+ s). unfold normalize.
  rewrite bool_decide_eq_false_2 by done. cbv zeta.
  assert (isAbsolute (render l +:+ "/" +:+ s) = true) as -> by (apply startsWith_iff; by eexists).
  rewrite split_app_slash, (split_no_slash s Hn), last_snoc.
  rewrite (bool_decide_eq_false_2 (Some s = Some "")) by congruence.
  rewrite normalize_app. change (normalize_segments (negb true) [] (split_slash (render l))) with (segments (render l)).
  rewrite segments_render by done. rewrite normalize_normal by by repeat constructor. rewrite rev_involutive.
  rewrite bool_decide_eq_false_2.
  - unfold render. by rewrite <-(text_app_assoc _ _ ""), (text_app_nil_r _).
  - apply join_ne; [by destruct l|]. apply Forall_app_2; [done|by repeat constructor].
Qed.

(** ** Containment *)

Lemma common_length_prefix a b : a `prefix_of` b ↔ common_length a b = length a.
Proof.
  revert b. induction a as [|x a IH]; intros b; [split; [done|intros _; apply prefix_nil]|].
  destruct b as [|y b]; cbn.
  - split; [intros (k & [=])|done].
  - case_bool_decide as E.
    + subst y. split; intros H.
      * f_equal. apply IH. by apply prefix_cons_inv_2 in H.
      * injection H as H. apply prefix_cons. by apply IH.
    + split; [|done]. intros H. by apply prefix_cons_inv_1 in H.
Qed.

Lemma common_length_le a b : common_length a b ≤ length a.
Proof. revert b. induction a as [|x a IH]; intros [|y b]; cbn; try lia. case_bool_decide; [|lia]. specialize (IH b). lia. Qed.

(** The segments of [relative] between normal paths. *)
Lemma relative_render cwd b t :
  normal b → normal t →
  relative cwd (render b) (render t)
  = join_slash (replicate (length b - common_length b t) ".." ++ drop (common_length b t) t).
Proof. intros Hb Ht. unfold relative. by rewrite !resolve_render, !segments_render. Qed.

(** [isContained] of path-security.ts. *)
Definition isContained (cwd basePath targetPath : string) : bool :=
  let relative := relative cwd basePath targetPath in
  bool_decide (relative = "") ||
  (negb (startsWith "../" relative) && negb (bool_decide (relative = "..")) && negb (isAbsolute relative)).

(** A relative path climbs, or is absolute, exactly when its first segment says so. *)
Lemma climbs_head rel :
  startsWith "../" rel || bool_decide (rel = "..") || isAbsolute rel = true ↔
  ∃ k, split_slash rel = ".." :: k ∨ (split_slash rel = "" :: k ∧ rel ≠ "").
Proof.
  rewrite !orb_true_iff, bool_decide_eq_true. unfold isAbsolute. rewrite !startsWith_iff. split.
  - intros [[(r & ->)| ->]|(r & ->)].
    + exists (split_slash r). by left.
    + by exists []; left.
    + exists (split_slash r). by right.
  - intros (k & [E|[E Hne]]); rewrite <-(join_split rel), E; destruct k as [|x k].
    + left. by right.
    + left. left. exists (join_slash (x :: k)). done.
    + destruct Hne. by rewrite <-(join_split rel), E.
    + right. exists (join_slash (x :: k)). done.
Qed.

Lemma isContained_prefix cwd b t :
  normal b → normal t → isContained cwd (render b) (render t) = true ↔ b `prefix_of` t.
Proof.
  intros Hb Ht. unfold isContained. rewrite relative_render by done.
  set (k := common_length b t). pose proof (common_length_le b t) as Hk.
  destruct (decide (b `prefix_of` t)) as [Hp|Hp].
  - split; [done|intros _]. pose proof Hp as Hc%common_length_prefix. fold k in Hc.
    replace (length b - k) with 0 by lia. cbn [replicate app].
    destruct (drop k t) as [|x r] eqn:Ed; [done|].
    assert (normal (x :: r)) as Hn by (rewrite <-Ed; by apply Forall_drop).
    assert (split_slash (join_slash (x :: r)) = x :: r) as Es
      by (apply split_join; [done|by apply normal_no_slash]).
    apply orb_true_iff. right. rewrite <-!negb_orb. apply negb_true_iff, not_true_iff_false.
    rewrite climbs_head, Es. inversion_clear Hn as [|? ? Hx _].
    apply seg_ok_inv in Hx as (_ & Hx & Hd). intros (? & [E|[E _]]); injection E as -> _; done.
  - split; [|done]. intros [H|H]%orb_true_iff.
    + apply bool_decide_eq_true in H. destruct Hp. apply common_length_prefix. fold k.
      destruct (length b - k) as [|n] eqn:En; [lia|]. exfalso. cbn in H.
      destruct (replicate n ".." ++ drop k t); done.
    + rewrite <-!negb_orb in H. apply negb_true_iff, not_true_iff_false in H. destruct Hp.
      apply common_length_prefix. fold k. destruct (length b - k) as [|n] eqn:En; [lia|].
      destruct H. apply climbs_head. exists (replicate n ".." ++ drop k t). left.
      apply split_join; [done|]. cbn. constructor; [done|]. apply Forall_app. split.
      * apply Forall_replicate. done.
      * by apply Forall_drop, normal_no_slash.
Qed.
