(* ===== verification/FileTree.v ===== *)
(** * FileTree: the files an agent sees

    A file system with directories, regular files, symbolic links and special files, and
    the operations of [node:fs] the workspace agent calls: [realpath], [stat], [lstat],
    recursive [mkdir], [writeFile], [rename] and [unlink].  A path lookup follows at most
    forty links, as the kernel does.  Other processes may change the files before every
    operation of the agent: [others] says how, by the number of the operation. *)

From S2P Require Import Prelude Text NodePath.

Inductive node := File (bytes : string) | Dir | Link (target : string) | Special.

#[global] Instance node_eq_dec : EqDecision node.
Proof. solve_decision. Defined.

(** Every entry but the root, by the names that lead to it. *)
Notation Fs := (gmap (list string) node).

Definition node_at (fs : Fs) (p : list string) : option node :=
  match p with [] => Some Dir | _ => fs !! p end.

Definition is_dir (fs : Fs) (p : list string) : bool := bool_decide (node_at fs p = Some Dir).

(** ** Path lookup *)

(** [cur] is the directory reached, [todo] the segments left. *)
Fixpoint walk (fs : Fs) (links : nat) : list string → list string → option (list string) :=
  fix go (cur todo : list string) : option (list string) :=
    match todo with
    | [] => Some cur
    | s :: rest =>
        if trivial_segment s then go cur rest
        else if bool_decide (s = "..") then go (removelast cur) rest
        else
          match fs !! (cur ++ [s]) with
          | None => None
          | Some Dir => go (cur ++ [s]) rest
          | Some (Link target) =>
              match links with
              | 0 => None
              | S links =>
                  walk fs links (if isAbsolute target then [] else cur) (split_slash target ++ rest)
              end
          | Some _ => match rest with [] => Some (cur ++ [s]) | _ => None end
          end
    end.

Definition MAX_LINKS : nat := 40.

Definition lookup_path (fs : Fs) (p : list string) : option (list string) := walk fs MAX_LINKS [] p.

Definition realpath (fs : Fs) (p : string) : option string := render <$> lookup_path fs (split_slash p).

(** The node a path leads to, links followed. *)
Definition stat (fs : Fs) (p : string) : option node := lookup_path fs (split_slash p) ≫= node_at fs.

(** The entry itself, the last link not followed. *)
Definition entry_of (fs : Fs) (p : string) : option (list string) :=
  match segments p with
  | [] => None
  | l =>
      match lookup_path fs (removelast l), last l with
      | Some d, Some name => if is_dir fs d then Some (d ++ [name]) else None
      | _, _ => None
      end
  end.

Definition lstat (fs : Fs) (p : string) : option node :=
  match segments p with
  | [] => Some Dir
  | _ => entry_of fs p ≫= (λ e, fs !! e)
  end.

(** ** Changes *)

(** [mkdir(p, { recursive: true })]: [done] is the part of the path that is a directory. *)
Fixpoint mkdir_all (fs : Fs) (done todo : list string) : option Fs :=
  match todo with
  | [] => Some fs
  | s :: rest =>
      match lookup_path fs (done ++ [s]) with
      | Some q => if is_dir fs q then mkdir_all fs (done ++ [s]) rest else None
      | None =>
          match lookup_path fs done with
          | Some d =>
              match fs !! (d ++ [s]) with
              | None => mkdir_all (<[d ++ [s] := Dir]> fs) (done ++ [s]) rest
              | Some _ => None
              end
          | None => None
          end
      end
  end.

Definition mkdir (fs : Fs) (p : string) : option Fs := mkdir_all fs [] (segments p).

(** [writeFile]: a link at the end is followed; a new file is made in an existing
    directory. *)
Definition write_file (fs : Fs) (p bytes : string) : option Fs :=
  match lookup_path fs (split_slash p) with
  | Some q => match node_at fs q with Some (File _) => Some (<[q := File bytes]> fs) | _ => None end
  | None =>
      e ← entry_of fs p;
      match fs !! e with None => Some (<[e := File bytes]> fs) | Some _ => None end
  end.

(** [rename] of a file or a link; the target may be replaced, a directory may not. *)
Definition rename (fs : Fs) (from to : string) : option Fs :=
  a ← entry_of fs from;
  b ← entry_of fs to;
  n ← fs !! a;
  match n, fs !! b with
  | Dir, _ => None
  | _, Some Dir => None
  | _, _ => Some (<[b := n]> (delete a fs))
  end.

Definition unlink (fs : Fs) (p : string) : option Fs :=
  a ← entry_of fs p;
  match fs !! a with Some Dir | None => None | Some _ => Some (delete a fs) end.

(** ** Operations in sequence *)

Class Others := others : nat → Fs → Fs.

Record World := { w_fs : Fs; w_turn : nat }.

Section operations.
Context {O : Others} {E : Type}.

(** What the others do before the next operation of the agent. *)
Definition next_world (w : World) : World :=
  {| w_fs := others (w_turn w) (w_fs w); w_turn := S (w_turn w) |}.

Definition meanwhile : io World E unit := modify next_world.

(** An awaited operation that reads the files. *)
Definition observe {A} (f : Fs → A) : io World E A := meanwhile;; gets (λ w, f (w_fs w)).

(** An awaited operation that changes the files or fails with [e]. *)
Definition change (e : E) (f : Fs → option Fs) : io World E unit :=
  meanwhile;;
  r ← gets (λ w, f (w_fs w));
  match r with
  | Some fs => modify (λ w, {| w_fs := fs; w_turn := w_turn w |})
  | None => throw e
  end.

Lemma observe_Ok {A} (f : Fs → A) w a w' :
  observe f w = (Ok a, w') ↔ w' = next_world w ∧ a = f (w_fs (next_world w)).
Proof. unfold observe, meanwhile. cbn. split; [by intros [= <- <-]|]. by intros [-> ->]. Qed.

End operations.

(** Nobody else writes. *)
Definition quiet : Others := λ _ fs, fs.

(** ** Lookup leads to real entries *)

(** The names of a path all are directories, the last one at most excepted, and no link
    is left on it. *)
Fixpoint directories (fs : Fs) (done todo : list string) : Prop :=
  match todo with
  | [] => True
  | s :: rest => fs !! (done ++ [s]) = Some Dir ∧ directories fs (done ++ [s]) rest
  end.

Definition canonical (fs : Fs) (p : list string) : Prop :=
  normal p ∧
  (directories fs [] p ∨
   ∃ d s n, p = d ++ [s] ∧ directories fs [] d ∧ fs !! p = Some n ∧ (n = Special ∨ ∃ bytes, n = File bytes)).

Lemma directories_app fs done l k :
  directories fs done (l ++ k) ↔ directories fs done l ∧ directories fs (done ++ l) k.
Proof.
  revert done. induction l as [|s l IH]; intros done; cbn.
  - rewrite app_nil_r. tauto.
  - rewrite IH. rewrite <-app_assoc. cbn. tauto.
Qed.

Lemma directories_snoc fs l s : directories fs [] (l ++ [s]) ↔ directories fs [] l ∧ fs !! (l ++ [s]) = Some Dir.
Proof. rewrite directories_app. cbn. tauto. Qed.

Lemma directories_removelast fs l : directories fs [] l → directories fs [] (removelast l).
Proof.
  destruct (decide (l = [])) as [->|Hl]; [done|]. rewrite (app_removelast_last "" Hl) at 1.
  by intros [H _]%directories_snoc.
Qed.

Lemma removelast_normal l : normal l → normal (removelast l).
Proof.
  destruct (decide (l = [])) as [->|Hl]; [done|]. rewrite (app_removelast_last "" Hl) at 1.
  by intros [H _]%Forall_app.
Qed.

Lemma walk_canonical fs links cur todo q :
  directories fs [] cur → normal cur → Forall (λ s, no_slash s = true) todo →
  walk fs links cur todo = Some q → canonical fs q.
Proof.
  revert cur todo. induction links as [|links IHl]; intros cur todo; revert cur;
    induction todo as [|s todo IH]; intros cur Hd Hn Hs;
    try (cbn; intros [= <-]; split; [done|by left]); inversion_clear Hs as [|? ? Hs1 Hs2]; cbn;
    (destruct (trivial_segment s) eqn:Ht; [by apply IH|]);
    (case_bool_decide as Hdd; [apply IH; auto using directories_removelast, removelast_normal|]);
    (assert (normal (cur ++ [s])) as Hn' by
      (apply Forall_app_2; [done|]; repeat constructor; unfold seg_ok;
       rewrite Hs1, Ht; by rewrite (bool_decide_eq_false_2 _ Hdd)));
    destruct (fs !! (cur ++ [s])) as [[]|] eqn:El; try done.
  all: try (intros H; apply (IH (cur ++ [s])); [by apply directories_snoc|done|done|exact H]).
  all: try (destruct todo; [|done]; intros [= <-]; split; [done|right];
    eexists cur, s, _; repeat split; eauto).
  intros H. eapply IHl; [..|exact H].
  - by case_match.
  - case_match; [constructor|done].
  - apply Forall_app_2; [apply split_slash_no_slash|done].
Qed.

Lemma lookup_canonical fs p q : Forall (λ s, no_slash s = true) p → lookup_path fs p = Some q → canonical fs q.
Proof. intros Hp. by apply walk_canonical; [| |exact Hp]; [done|constructor]. Qed.

Lemma realpath_canonical fs p c : realpath fs p = Some c → ∃ q, c = render q ∧ canonical fs q.
Proof.
  unfold realpath. intros (q & H & ->)%fmap_Some. exists q. split; [done|].
  eapply lookup_canonical; [|done]. apply split_slash_no_slash.
Qed.

(** Directories are walked through. *)
Lemma walk_directories fs links cur d todo :
  normal d → directories fs cur d → walk fs links cur (d ++ todo) = walk fs links (cur ++ d) todo.
Proof.
  revert cur. induction d as [|s d IH]; intros cur Hn; [by rewrite app_nil_r|].
  inversion_clear Hn as [|? ? (_ & Ht & Hd)%seg_ok_inv Hn']. cbn [directories]. intros [Hs H].
  transitivity (walk fs links (cur ++ [s]) (d ++ todo)).
  - destruct links; cbn; rewrite Ht, (bool_decide_eq_false_2 _ Hd), Hs; done.
  - rewrite IH by done. by rewrite <-app_assoc.
Qed.

Lemma walk_nil fs links cur : walk fs links cur [] = Some cur.
Proof. by destruct links. Qed.

Lemma walk_one fs links cur s :
  seg_ok s = true →
  walk fs links cur [s] =
  match fs !! (cur ++ [s]) with
  | None => None
  | Some (Link target) =>
      match links with
      | 0 => None
      | S links => walk fs links (if isAbsolute target then [] else cur) (split_slash target ++ [])
      end
  | Some _ => Some (cur ++ [s])
  end.
Proof.
  intros (_ & Ht & Hd)%seg_ok_inv.
  destruct links; cbn; rewrite Ht, (bool_decide_eq_false_2 _ Hd); destruct (fs !! _) as [[]|]; done.
Qed.

(** A canonical path is its own lookup. *)
Lemma lookup_of_canonical fs q : canonical fs q → lookup_path fs q = Some q.
Proof.
  intros [Hn [Hd|(d & s & n & -> & Hd & Hf & Hk)]]; unfold lookup_path.
  - rewrite <-(app_nil_r q) at 1. rewrite walk_directories by done. apply walk_nil.
  - apply Forall_app in Hn as [Hn Hs]. inversion_clear Hs as [|? ? Hs' _].
    rewrite walk_directories by done. cbn [app]. rewrite walk_one, Hf by done.
    destruct Hk as [->|(b & ->)]; done.
Qed.

Lemma node_of_canonical fs q : canonical fs q → ∃ n, node_at fs q = Some n ∧ ∀ t, n ≠ Link t.
Proof.
  intros [Hn [Hd|(d & s & n & -> & Hd & Hf & Hk)]].
  - exists Dir. split; [|done]. destruct (decide (q = [])) as [->|Hq]; [done|].
    rewrite (app_removelast_last "" Hq) in Hd |- *. apply directories_snoc in Hd as [_ Hd].
    by destruct (removelast q); cbn.
  - exists n. split; [by destruct d|]. destruct Hk as [->|(b & ->)]; done.
Qed.

(** ** FileTreeProps: lookups and changes below a directory without links

    How a lookup composes, that new entries disturb no lookup that succeeded, and what a
    recursive [mkdir] does below a directory that holds no symbolic link. *)

Lemma walk_cons fs links cur s rest :
  walk fs links cur (s :: rest) =
  if trivial_segment s then walk fs links cur rest
  else if bool_decide (s = "..") then walk fs links (removelast cur) rest
  else
    match fs !! (cur ++ [s]) with
    | None => None
    | Some Dir => walk fs links (cur ++ [s]) rest
    | Some (Link target) =>
        match links with
        | 0 => None
        | S links => walk fs links (if isAbsolute target then [] else cur) (split_slash target ++ rest)
        end
    | Some _ => match rest with [] => Some (cur ++ [s]) | _ => None end
    end.
Proof. by destruct links. Qed.

(** Induction on a lookup: the links left, then the segments left. *)
Lemma walk_ind (Q : nat → list string → Prop) :
  (∀ links, Q links []) →
  (∀ links s rest, (∀ l k, l < links → Q l k) → Q links rest → Q links (s :: rest)) →
  ∀ links todo, Q links todo.
Proof.
  intros Hnil Hcons links. induction links as [links IHl] using lt_wf_ind.
  intros todo. induction todo as [|s todo IH]; auto.
Qed.

Lemma walk_app fs links a b cur d :
  walk fs links cur a = Some d → is_dir fs d = true →
  ∃ links', links' ≤ links ∧ walk fs links cur (a ++ b) = walk fs links' d b.
Proof.
  intros H Hd. revert cur H. pattern links, a. apply walk_ind; clear links a; [intros links|intros links s a IHl IHa]; intros cur.
  - rewrite walk_nil. intros [= ->]. by exists links.
  - cbn [app]. rewrite !walk_cons. destruct (trivial_segment s); [apply IHa|]. case_bool_decide; [apply IHa|].
    destruct (fs !! (cur ++ [s])) as [[]|] eqn:E; try done; try apply IHa.
    + destruct a; [|done]. intros [= <-]. exfalso. unfold is_dir in Hd. apply bool_decide_eq_true in Hd.
      by destruct cur; cbn in *; rewrite E in Hd.
    + destruct links as [|links]; [done|]. rewrite app_assoc. intros H1.
      destruct (IHl links (split_slash target ++ a) ltac:(lia) _ H1) as (l' & Hl & ->). exists l'. split; [lia|done].
    + destruct a; [|done]. intros [= <-]. exfalso. unfold is_dir in Hd. apply bool_decide_eq_true in Hd.
      by destruct cur; cbn in *; rewrite E in Hd.
Qed.

(** The part before a name of a path that leads somewhere leads to a directory. *)
Lemma walk_parent fs links a s b cur q :
  directories fs [] cur → walk fs links cur (a ++ s :: b) = Some q →
  ∃ d, walk fs links cur a = Some d ∧ directories fs [] d.
Proof.
  revert cur. pattern links, a. apply walk_ind; clear links a; [intros links|intros links x a IHl IHa]; intros cur Hd.
  - intros _. exists cur. by rewrite walk_nil.
  - cbn [app]. rewrite !walk_cons. destruct (trivial_segment x); [by apply IHa|].
    case_bool_decide; [by apply IHa, directories_removelast|].
    destruct (fs !! (cur ++ [x])) as [[]|] eqn:E; try done.
    + by destruct a.
    + apply IHa. by apply directories_snoc.
    + destruct links as [|links]; [done|]. rewrite app_assoc. apply IHl; [lia|]. by case_match.
    + by destruct a.
Qed.

Lemma directories_is_dir fs d : directories fs [] d → is_dir fs d = true.
Proof.
  intros H. unfold is_dir. apply bool_decide_eq_true. destruct (decide (d = [])) as [->|Hd]; [done|].
  rewrite (app_removelast_last "" Hd) in H |- *. apply directories_snoc in H as [_ H].
  by destruct (removelast d); cbn.
Qed.

Lemma walk_insert fs p n links cur todo q :
  fs !! p = None → walk fs links cur todo = Some q → walk (<[p := n]> fs) links cur todo = Some q.
Proof.
  intros Hp. revert cur. pattern links, todo.
  apply walk_ind; clear links todo; [intros links|intros links s todo IHl IHa]; intros cur; [by rewrite !walk_nil|].
  rewrite !walk_cons. destruct (trivial_segment s); [apply IHa|]. case_bool_decide; [apply IHa|].
  destruct (fs !! (cur ++ [s])) as [m|] eqn:E; [|done].
  rewrite lookup_insert_ne by congruence. rewrite E. destruct m; try done; [apply IHa|].
  destruct links; [done|]. apply IHl. lia.
Qed.

Lemma lookup_render_path fs l : normal l → lookup_path fs (split_slash (render l)) = lookup_path fs l.
Proof.
  intros H. unfold lookup_path. destruct l as [|x l]; [done|]. rewrite split_render by done. by rewrite walk_cons.
Qed.

(** ** Below a directory without links *)

Definition linkless (fs : Fs) (r : list string) : Prop :=
  ∀ p t, fs !! p = Some (Link t) → ¬ r `prefix_of` p.

Lemma walk_linkless fs r links todo cur q :
  linkless fs r → r `prefix_of` cur → normal todo → walk fs links cur todo = Some q → q = cur ++ todo.
Proof.
  intros Hr. revert cur. induction todo as [|s todo IH]; intros cur Hp Hn.
  - rewrite walk_nil, app_nil_r. by intros [= <-].
  - inversion_clear Hn as [|? ? (_ & Ht & Hd)%seg_ok_inv Hn']. rewrite walk_cons, Ht, (bool_decide_eq_false_2 _ Hd).
    destruct (fs !! (cur ++ [s])) as [[]|] eqn:E; try done.
    + destruct todo; [|done]. by intros [= <-].
    + intros H%IH; [|by apply prefix_app_r|done]. by rewrite H, <-app_assoc.
    + destruct (Hr _ _ E). by apply prefix_app_r.
    + destruct todo; [|done]. by intros [= <-].
Qed.

(** Two file systems that agree outside a directory. *)
Definition same_outside (r : list string) (fs fs' : Fs) : Prop := ∀ p, ¬ r `prefix_of` p → fs' !! p = fs !! p.

Lemma mkdir_all_existing fs done t1 t2 d :
  lookup_path fs (done ++ t1) = Some d → directories fs [] d →
  mkdir_all fs done (t1 ++ t2) = mkdir_all fs (done ++ t1) t2.
Proof.
  revert done. induction t1 as [|s t1 IH]; intros done H Hd; [by rewrite app_nil_r|]. cbn [app mkdir_all].
  assert (∃ q, lookup_path fs (done ++ [s]) = Some q ∧ is_dir fs q = true) as (q & -> & ->).
  { destruct t1 as [|x t1]; [by exists d; split; [|apply directories_is_dir]|].
    replace (done ++ s :: x :: t1) with ((done ++ [s]) ++ x :: t1) in H by (by rewrite <-app_assoc).
    apply walk_parent in H as (q & Hq & Hdq); [|done]. exists q. split; [done|]. by apply directories_is_dir. }
  replace (done ++ s :: t1) with ((done ++ [s]) ++ t1) in * by (by rewrite <-app_assoc). by apply IH.
Qed.

Record made_below (r : list string) (fs fs' : Fs) (path d : list string) : Prop := {
  mb_outside : same_outside r fs fs';
  mb_linkless : linkless fs' r;
  mb_lookup : lookup_path fs' path = Some d;
  mb_dir : is_dir fs' d = true;
  mb_keeps : ∀ p n, fs !! p = Some n → fs' !! p = Some n;
  mb_files : ∀ p n, fs' !! p = Some n → fs !! p = Some n ∨ n = Dir;
}.

Lemma lookup_step_below fs r done d s q :
  linkless fs r → lookup_path fs done = Some d → is_dir fs d = true → r `prefix_of` d → seg_ok s = true →
  lookup_path fs (done ++ [s]) = Some q → q = d ++ [s].
Proof.
  intros Hl Hd Hdir Hr Hs. unfold lookup_path. destruct (walk_app _ _ _ [s] _ _ Hd Hdir) as (l' & _ & ->).
  apply walk_linkless with (r := r); [done..|by repeat constructor].
Qed.

Lemma is_dir_insert fs p n d : fs !! p = None → is_dir fs d = true → is_dir (<[p := n]> fs) d = true.
Proof.
  unfold is_dir. rewrite !bool_decide_eq_true. intros Hp. destruct d as [|x d]; [done|]. cbn. intros H.
  rewrite lookup_insert_ne; [done|]. congruence.
Qed.

(** A new entry is found where it was made. *)
Lemma lookup_new fs done d s n :
  lookup_path fs done = Some d → is_dir fs d = true → seg_ok s = true → fs !! (d ++ [s]) = None →
  (∀ t, n ≠ Link t) → lookup_path (<[d ++ [s] := n]> fs) (done ++ [s]) = Some (d ++ [s]).
Proof.
  intros Hd Hdir Hs Hn Hk. pose proof (walk_insert _ _ n _ _ _ _ Hn Hd) as Hd'.
  pose proof (is_dir_insert _ _ n _ Hn Hdir) as Hdir'. unfold lookup_path.
  destruct (walk_app _ _ _ [s] _ _ Hd' Hdir') as (l' & _ & ->). rewrite walk_one, lookup_insert_eq by done.
  destruct n; [done..|by destruct (Hk target)|done].
Qed.

Lemma linkless_insert fs r p n : linkless fs r → (∀ t, n ≠ Link t) → linkless (<[p := n]> fs) r.
Proof.
  intros Hl Hn q t. destruct (decide (p = q)) as [->|Hne].
  - rewrite lookup_insert_eq. intros [= E]. by destruct (Hn t).
  - rewrite lookup_insert_ne by done. apply Hl.
Qed.

Lemma same_outside_insert r fs p n : r `prefix_of` p → same_outside r fs (<[p := n]> fs).
Proof. intros Hp q Hq. apply lookup_insert_ne. intros ->. done. Qed.

Lemma same_outside_trans r fs1 fs2 fs3 :
  same_outside r fs1 fs2 → same_outside r fs2 fs3 → same_outside r fs1 fs3.
Proof. intros H1 H2 p Hp. by rewrite (H2 p Hp), (H1 p Hp). Qed.

Lemma made_below_step r fs p fs' path d :
  r `prefix_of` p → fs !! p = None → made_below r (<[p := Dir]> fs) fs' path d → made_below r fs fs' path d.
Proof.
  intros Hp Hn []. split; [|done..| |].
  - by eapply same_outside_trans; [apply same_outside_insert|].
  - intros q n Hq. apply mb_keeps0. rewrite lookup_insert_ne; [done|]. congruence.
  - intros q n Hq. destruct (mb_files0 _ _ Hq) as [H|H]; [|by right]. destruct (decide (p = q)) as [->|Hne].
    + rewrite lookup_insert_eq in H. right. congruence.
    + left. by rewrite lookup_insert_ne in H.
Qed.

Lemma mkdir_all_below fs r done d todo fs' :
  linkless fs r → lookup_path fs done = Some d → r `prefix_of` d → is_dir fs d = true → normal todo →
  mkdir_all fs done todo = Some fs' → made_below r fs fs' (done ++ todo) (d ++ todo).
Proof.
  revert fs done d. induction todo as [|s todo IH]; intros fs done d Hl Hd Hr Hdir Hn; cbn [mkdir_all].
  - intros [= <-]. rewrite !app_nil_r. by split; auto.
  - inversion_clear Hn as [|? ? Hs Hn'].
    replace (done ++ s :: todo) with ((done ++ [s]) ++ todo) by (by rewrite <-app_assoc).
    replace (d ++ s :: todo) with ((d ++ [s]) ++ todo) by (by rewrite <-app_assoc).
    assert (r `prefix_of` d ++ [s]) as Hr' by by apply prefix_app_r.
    destruct (lookup_path fs (done ++ [s])) as [q|] eqn:Eq.
    + destruct (is_dir fs q) eqn:Hq; [|done]. intros H.
      assert (q = d ++ [s]) as -> by by eapply lookup_step_below. by eapply IH.
    + rewrite Hd. destruct (fs !! (d ++ [s])) eqn:Es; [done|]. intros H.
      eapply made_below_step; [done..|]. eapply IH; [| | | |done|exact H].
      * by apply linkless_insert.
      * by apply lookup_new.
      * done.
      * unfold is_dir. apply bool_decide_eq_true. destruct d; cbn; by rewrite lookup_insert_eq.
Qed.

(** ** Files made in a directory *)

Lemma walk_replace fs p n links cur todo q :
  (∀ m, fs !! p = Some m → m ≠ Dir ∧ ∀ t, m ≠ Link t) → is_dir fs q = true →
  walk fs links cur todo = Some q → walk (<[p := n]> fs) links cur todo = Some q.
Proof.
  intros Hp Hq. revert cur. pattern links, todo.
  apply walk_ind; clear links todo; [intros links|intros links s todo IHl IHa]; intros cur; [by rewrite !walk_nil|].
  rewrite !walk_cons. destruct (trivial_segment s); [apply IHa|]. case_bool_decide; [apply IHa|].
  destruct (fs !! (cur ++ [s])) as [m|] eqn:E; [|done]. destruct (decide (p = cur ++ [s])) as [->|Hne].
  - destruct (Hp _ E) as [Hd Hl]. destruct m; [| |by destruct (Hl target)|]; try done;
      (destruct todo; [|done]); intros [= <-]; exfalso;
      apply bool_decide_eq_true in Hq; by destruct cur; cbn in *; rewrite E in Hq.
  - rewrite lookup_insert_ne, E by done. destruct m; try done; [apply IHa|]. destruct links; [done|]. apply IHl. lia.
Qed.

(** The entry of a name in the directory that [dir] leads to. *)
Lemma entry_in_dir fs dir d name :
  normal dir → seg_ok name = true → lookup_path fs dir = Some d → is_dir fs d = true →
  entry_of fs (render (dir ++ [name])) = Some (d ++ [name]).
Proof.
  intros Hn Hs Hd Hdir. unfold entry_of.
  assert (normal (dir ++ [name])) as Hn' by (apply Forall_app_2; [done|by repeat constructor]).
  rewrite segments_render by done. destruct (dir ++ [name]) eqn:E; [by destruct dir|]. rewrite <-E.
  rewrite removelast_last, last_snoc, Hd. by rewrite Hdir.
Qed.

Lemma write_new_file fs dir d name bytes :
  normal dir → seg_ok name = true → lookup_path fs dir = Some d → is_dir fs d = true → fs !! (d ++ [name]) = None →
  write_file fs (render (dir ++ [name])) bytes = Some (<[d ++ [name] := File bytes]> fs).
Proof.
  intros Hn Hs Hd Hdir Hf. unfold write_file.
  assert (normal (dir ++ [name])) as Hn' by (apply Forall_app_2; [done|by repeat constructor]).
  rewrite lookup_render_path by done. unfold lookup_path. destruct (walk_app _ _ _ [name] _ _ Hd Hdir) as (l & _ & ->).
  rewrite walk_one, Hf by done. rewrite (entry_in_dir _ _ d) by done. cbn. by rewrite Hf.
Qed.

(** A file written under a temporary name and renamed leaves just the new file. *)
Lemma rename_into_place fs dir d temp name bytes fs' :
  normal dir → seg_ok temp = true → seg_ok name = true → lookup_path fs dir = Some d → is_dir fs d = true →
  fs !! (d ++ [temp]) = None →
  rename (<[d ++ [temp] := File bytes]> fs) (render (dir ++ [temp])) (render (dir ++ [name])) = Some fs' →
  fs' = <[d ++ [name] := File bytes]> fs ∧ fs !! (d ++ [name]) ≠ Some Dir.
Proof.
  intros Hn Ht Hs Hd Hdir Hf. unfold rename.
  pose proof (walk_insert _ _ (File bytes) _ _ _ _ Hf Hd) as Hd'.
  pose proof (is_dir_insert _ _ (File bytes) _ Hf Hdir) as Hdir'.
  rewrite (entry_in_dir _ _ d) by done. rewrite (entry_in_dir _ _ d) by done. cbn. rewrite lookup_insert_eq. cbn.
  destruct (decide (temp = name)) as [<-|Hne].
  - rewrite lookup_insert_eq. intros [= <-]. split; [|by rewrite Hf].
    by rewrite delete_insert_eq, delete_id.
  - assert (d ++ [temp] ≠ d ++ [name]) as Hne' by (intros E; apply app_inj_tail in E as [_ E]; done).
    rewrite lookup_insert_ne by done. rewrite delete_insert_eq, delete_id by done.
    destruct (fs !! (d ++ [name])) as [[]|]; try done; intros [= <-]; done.
Qed.

(** What a recursive [mkdir] makes: directories named by segments of its path. *)
Lemma mkdir_all_new fs done todo fs' :
  mkdir_all fs done todo = Some fs' →
  ∀ p n, fs' !! p = Some n → fs !! p = Some n ∨ (n = Dir ∧ ∃ q s, p = q ++ [s] ∧ s ∈ todo).
Proof.
  revert fs done. induction todo as [|s todo IH]; intros fs done; cbn [mkdir_all]; [intros [= <-]; auto|].
  intros Hm p n Hp. destruct (lookup_path fs (done ++ [s])) as [q|].
  - destruct (is_dir fs q); [|done]. destruct (IH _ _ Hm _ _ Hp) as [Hi|(-> & q' & x & -> & Hx)]; [by left|].
    right. split; [done|]. exists q', x. split; [done|]. set_solver.
  - destruct (lookup_path fs done) as [d|]; [|done]. destruct (fs !! (d ++ [s])) eqn:Es; [done|].
    destruct (IH _ _ Hm _ _ Hp) as [Hi|(-> & q' & x & -> & Hx)].
    + destruct (decide (d ++ [s] = p)) as [<-|Hne].
      * rewrite lookup_insert_eq in Hi. right. split; [congruence|]. exists d, s. split; [done|]. set_solver.
      * left. by rewrite lookup_insert_ne in Hi.
    + right. split; [done|]. exists q', x. split; [done|]. set_solver.
Qed.

Lemma mkdir_all_dir fs done todo fs' :
  normal todo → (∃ d, lookup_path fs done = Some d ∧ is_dir fs d = true) → mkdir_all fs done todo = Some fs' →
  ∃ d, lookup_path fs' (done ++ todo) = Some d ∧ is_dir fs' d = true.
Proof.
  intros Hn. revert fs done. induction Hn as [|s todo Hs Hn IH]; intros fs done Hd; cbn [mkdir_all].
  - intros [= <-]. by rewrite app_nil_r.
  - replace (done ++ s :: todo) with ((done ++ [s]) ++ todo) by (by rewrite <-app_assoc).
    destruct Hd as (d & Hd & Hdir). destruct (lookup_path fs (done ++ [s])) as [q|] eqn:Eq.
    + destruct (is_dir fs q) eqn:Hq; [|done]. apply IH. by exists q.
    + rewrite Hd. destruct (fs !! (d ++ [s])) eqn:Es; [done|]. apply IH. exists (d ++ [s]).
      split; [by apply lookup_new|]. unfold is_dir. apply bool_decide_eq_true. destruct d; cbn; by rewrite lookup_insert_eq.
Qed.

(** A name nothing uses. *)
Record fresh_name (fs : Fs) (path : list string) (name : string) : Prop := {
  fn_ok : seg_ok name = true;
  fn_fs : ∀ d, fs !! (d ++ [name]) = None;
  fn_path : name ∉ path;
}.

Lemma fresh_after_mkdir fs path fs' name :
  fresh_name fs path name → mkdir_all fs [] path = Some fs' → ∀ d, fs' !! (d ++ [name]) = None.
Proof.
  intros [_ Hfs Hp] Hm d. destruct (fs' !! (d ++ [name])) as [n|] eqn:E; [|done]. exfalso.
  destruct (mkdir_all_new _ _ _ _ Hm _ _ E) as [Hi|(_ & q & s & Eq & Hs)]; [by rewrite Hfs in Hi|].
  apply app_inj_tail in Eq as [_ ->]. done.
Qed.

(** Nothing is made when the path is there. *)
Lemma mkdir_all_exists fs done todo q fs' :
  lookup_path fs (done ++ todo) = Some q → mkdir_all fs done todo = Some fs' → fs' = fs.
Proof.
  revert done. induction todo as [|s todo IH]; intros done Hq; cbn [mkdir_all]; [by intros [= <-]|].
  replace (done ++ s :: todo) with ((done ++ [s]) ++ todo) in Hq by (by rewrite <-app_assoc).
  assert (∃ q', lookup_path fs (done ++ [s]) = Some q') as (q' & ->).
  { destruct todo as [|x todo]; [rewrite app_nil_r in Hq; eauto|].
    apply walk_parent in Hq as (q' & Hq' & _); [eauto|done]. }
  destruct (is_dir fs q'); [|done]. by apply IH.
Qed.

Lemma canonical_directories fs q : canonical fs q → is_dir fs q = true → directories fs [] q.
Proof.
  intros [_ [Hd|(d & s & n & -> & Hd & Hf & Hk)]]; [done|]. unfold is_dir. rewrite bool_decide_eq_true.
  assert (node_at fs (d ++ [s]) = fs !! (d ++ [s])) as -> by by destruct d. rewrite Hf.
  intros [= ->]. destruct Hk as [?|(? & ?)]; done.
Qed.

Lemma elem_of_removelast (x : string) l : x ∈ removelast l → x ∈ l.
Proof.
  destruct (decide (l = [])) as [->|Hl]; [done|]. rewrite (app_removelast_last "" Hl) at 2. set_solver.
Qed.

(** A file that replaced no directory and no link is found under its path. *)
Lemma stat_placed fs dir d name bytes :
  normal dir → seg_ok name = true → lookup_path fs dir = Some d → is_dir fs d = true →
  (∀ m, fs !! (d ++ [name]) = Some m → m ≠ Dir ∧ ∀ t, m ≠ Link t) →
  stat (<[d ++ [name] := File bytes]> fs) (render (dir ++ [name])) = Some (File bytes).
Proof.
  intros Hn Hs Hd Hdir Hm. unfold stat.
  rewrite lookup_render_path by (apply Forall_app_2; [done|by repeat constructor]).
  pose proof (walk_replace _ _ (File bytes) _ _ _ _ Hm Hdir Hd) as Hd'.
  assert (is_dir (<[d ++ [name] := File bytes]> fs) d = true) as Hdir'.
  { unfold is_dir in *. rewrite bool_decide_eq_true in *. destruct d as [|x d]; [done|]. cbn in *.
    rewrite lookup_insert_ne; [done|]. intros E. apply (f_equal length) in E. rewrite !length_cons, length_app in E.
    cbn in E. lia. }
  unfold lookup_path. destruct (walk_app _ _ _ [name] _ _ Hd' Hdir') as (l & _ & ->).
  rewrite walk_one, lookup_insert_eq by done. cbn. destruct d; cbn; by rewrite lookup_insert_eq.
Qed.

Lemma unlink_missing fs dir d name :
  normal dir → seg_ok name = true → lookup_path fs dir = Some d → is_dir fs d = true → fs !! (d ++ [name]) = None →
  unlink fs (render (dir ++ [name])) = None.
Proof. intros Hn Hs Hd Hdir Hf. unfold unlink. rewrite (entry_in_dir _ _ d) by done. cbn. by rewrite Hf. Qed.

Lemma unlink_new fs dir d name bytes :
  normal dir → seg_ok name = true → lookup_path fs dir = Some d → is_dir fs d = true → fs !! (d ++ [name]) = None →
  unlink (<[d ++ [name] := File bytes]> fs) (render (dir ++ [name])) = Some fs.
Proof.
  intros Hn Hs Hd Hdir Hf. unfold unlink.
  rewrite (entry_in_dir _ _ d); [|done|done|by apply walk_insert|by apply is_dir_insert]. cbn.
  rewrite lookup_insert_eq. by rewrite delete_insert_eq, delete_id.
Qed.
