(* ===== verification/WorkspacePolicies.v ===== *)
(** * WorkspacePolicies: what a policy file says and which operations a profile allows

    packages/mcp-core/src/policy.ts (the policy of a workspace, its limits, its schema and
    the globs every workspace blocks) and
    services/workspace-agent/src/permission-profile.ts.  The source-control part of a
    policy is [SourceControl.SourceControlPolicy]; nothing here reads it. *)

From S2P Require Import Prelude Text NodePath.
From Stdlib Require Import Ascii.

Inductive ShellName := powershell | pwsh | cmd | sh | bash | wsl | git_bash.

Definition supportedShells : list ShellName := [powershell; pwsh; cmd; sh; bash; wsl; git_bash].

Inductive PermissionProfile :=
| planning_readonly | planning_handoff | builder_review | restricted_area
| full_repo_readonly | full_repo_write.

Inductive ConfirmationMode := standard | trusted_workspace.
Inductive WorkspaceKind := repository | aggregate.

#[global] Instance ShellName_eq_dec : EqDecision ShellName.
Proof. solve_decision. Defined.
#[global] Instance PermissionProfile_eq_dec : EqDecision PermissionProfile.
Proof. solve_decision. Defined.
#[global] Instance ConfirmationMode_eq_dec : EqDecision ConfirmationMode.
Proof. solve_decision. Defined.
#[global] Instance WorkspaceKind_eq_dec : EqDecision WorkspaceKind.
Proof. solve_decision. Defined.

Record WorkspaceLimits := {
  maxFileBytes : Z;
  maxSearchResults : Z;
  maxSearchSnippetBytes : Z;
  maxDiffBytes : Z;
  maxListedFiles : Z;
  maxDiscoveryDirectories : option Z;
  maxDiscoveryEntries : option Z;
  maxDiscoveryDurationMs : option Z;
}.

Record PolicyEntry := {
  pe_id : string;
  pe_name : string;
  pe_rootPath : string;
  pe_workspaceKind : option WorkspaceKind;
  pe_enabled : bool;
  pe_permissionProfile : PermissionProfile;
  pe_confirmationMode : ConfirmationMode;
  pe_allowedRoots : list string;
  pe_blockedGlobs : list string;
  pe_limits : WorkspaceLimits;
  pe_allowWrites : list string;
  pe_allowShell : list string;
  pe_allowedShells : list ShellName;
}.

(** ** The schemas *)

Definition positive (z : Z) : bool := (0 <? z)%Z.
Definition positive_or_absent (o : option Z) : bool := match o with Some z => positive z | None => true end.

(** [workspaceLimitsSchema] on integers *)
Definition workspaceLimitsSchema (l : WorkspaceLimits) : bool :=
  positive (maxFileBytes l) && positive (maxSearchResults l) && positive (maxSearchSnippetBytes l) &&
  positive (maxDiffBytes l) && positive (maxListedFiles l) &&
  positive_or_absent (maxDiscoveryDirectories l) && positive_or_absent (maxDiscoveryEntries l) &&
  positive_or_absent (maxDiscoveryDurationMs l).

(** [/^[a-zA-Z0-9][a-zA-Z0-9._-]*$/] *)
Definition workspace_id_pattern (s : string) : bool :=
  match s with
  | EmptyString => false
  | String c r => is_alnum c && all_chars (λ c, is_alnum c || char_in "._-" c) r
  end.

Definition non_empty (s : string) : bool := negb (bool_decide (s = "")).

(** The strings of an entry trimmed, as the schema returns them. *)
Definition trim_entry (p : PolicyEntry) : PolicyEntry := {|
  pe_id := trim (pe_id p);
  pe_name := trim (pe_name p);
  pe_rootPath := trim (pe_rootPath p);
  pe_workspaceKind := pe_workspaceKind p;
  pe_enabled := pe_enabled p;
  pe_permissionProfile := pe_permissionProfile p;
  pe_confirmationMode := pe_confirmationMode p;
  pe_allowedRoots := map trim (pe_allowedRoots p);
  pe_blockedGlobs := map trim (pe_blockedGlobs p);
  pe_limits := pe_limits p;
  pe_allowWrites := map trim (pe_allowWrites p);
  pe_allowShell := map trim (pe_allowShell p);
  pe_allowedShells := pe_allowedShells p;
|}.

(** [workspacePolicySchema], with its refinement *)
Definition workspacePolicySchema (input : PolicyEntry) : option PolicyEntry :=
  let p := trim_entry input in
  if non_empty (pe_id p) && workspace_id_pattern (pe_id p) && non_empty (pe_name p) &&
     non_empty (pe_rootPath p) &&
     negb (bool_decide (pe_allowedRoots p = [])) && forallb non_empty (pe_allowedRoots p) &&
     forallb non_empty (pe_blockedGlobs p) && workspaceLimitsSchema (pe_limits p) &&
     forallb non_empty (pe_allowWrites p) && forallb non_empty (pe_allowShell p) &&
     negb (bool_decide (pe_confirmationMode p = trusted_workspace) &&
           negb (bool_decide (pe_permissionProfile p = full_repo_write)))
  then Some p else None.

(** [refineUniqueWorkspaceIds] finds no duplicate. *)
Fixpoint refineUniqueWorkspaceIds (ids : list string) (ps : list PolicyEntry) : bool :=
  match ps with
  | [] => true
  | p :: ps => negb (bool_decide (pe_id p ∈ ids)) && refineUniqueWorkspaceIds (pe_id p :: ids) ps
  end.

(** [policyFileSchema] on the workspaces of a file of version 1 *)
Definition policyFileSchema (workspaces : list PolicyEntry) : option (list PolicyEntry) :=
  ps ← mapM workspacePolicySchema workspaces;
  if negb (bool_decide (ps = [])) && refineUniqueWorkspaceIds [] ps then Some ps else None.

(** ** Globs *)

Definition mandatoryBlockedGlobs : list string :=
  ["**/.env"; "**/.env.!(example|sample|template)"; "**/*.pem"; "**/*.key"; "**/*.pfx"; "**/*.crt";
   "**/secrets.*"; "**/credentials.*"; "**/id_rsa"; "**/id_dsa"; "**/.git/**"; "**/.runtime-private";
   "**/.runtime-private/**"; "**/node_modules/**"; "**/bin/**"; "**/obj/**"; "**/dist/**";
   "**/build/**"; "**/coverage/**"].

Definition readableGeneratedGlobs : list string :=
  ["**/node_modules/**"; "**/bin/**"; "**/obj/**"; "**/dist/**"; "**/build/**"; "**/coverage/**"].

(** ** Permission profiles *)

Inductive WorkspaceOperation := list_op | read_op | search_op | diff_op | write_op | shell_op.

#[global] Instance WorkspaceOperation_eq_dec : EqDecision WorkspaceOperation.
Proof. solve_decision. Defined.

Definition readPermissions (profile : PermissionProfile) : list WorkspaceOperation :=
  match profile with
  | builder_review => [read_op; diff_op]
  | _ => [list_op; read_op; search_op; diff_op]
  end.

Definition writePermissions (profile : PermissionProfile) : list WorkspaceOperation :=
  match profile with full_repo_write => [write_op] | _ => [] end.

Definition shellPermissions (profile : PermissionProfile) : list WorkspaceOperation :=
  match profile with full_repo_write => [shell_op] | _ => [] end.

(** The errors of the workspace agent; a blocked path carries its details. *)
Record blocked_details := {
  bd_path : string;
  bd_policyRule : string;
  bd_operation : option string;
  bd_safeAlternative : option string;
}.

Inductive app_error :=
| PERMISSION_DENIED | POLICY_INVALID | WORKSPACE_NOT_FOUND | WORKSPACE_DISABLED
| INVALID_PATH | BLOCKED_PATH (details : option blocked_details) | PATH_OUTSIDE_ALLOWED_ROOTS
| PATH_OUTSIDE_WORKSPACE | WRITE_NOT_ALLOWED | NOT_A_FILE | NOT_A_DIRECTORY | FILE_NOT_FOUND
| FILE_TOO_LARGE | BINARY_FILE | LIMIT_EXCEEDED | INVALID_ARGUMENT
| OPERATION_CANCELLED | OUT_OF_FUEL
| IO_FAILURE.

Definition assertPermission (profile : PermissionProfile) (operation : WorkspaceOperation) :
    outcome app_error unit :=
  let allowed :=
    match operation with
    | write_op => bool_decide (operation ∈ writePermissions profile)
    | shell_op => bool_decide (operation ∈ shellPermissions profile)
    | _ => bool_decide (operation ∈ readPermissions profile)
    end in
  check PERMISSION_DENIED allowed.

(** ** Lemmas *)

Lemma unique_ids ids ps :
  refineUniqueWorkspaceIds ids ps = true → NoDup (map pe_id ps) ∧ ∀ p, p ∈ ps → pe_id p ∉ ids.
Proof.
  revert ids. induction ps as [|p ps IH]; intros ids; cbn.
  - intros _. split; [constructor|]. set_solver.
  - intros [Hp Hps]%andb_true_iff. bool_inv. destruct (IH _ Hps) as [Hn Hf]. split.
    + constructor; [|done]. rewrite list_elem_of_fmap. intros (q & E & Hq). specialize (Hf q Hq). set_solver.
    + intros q [->|Hq]%elem_of_cons; [done|]. specialize (Hf q Hq). set_solver.
Qed.

Lemma policyFileSchema_ids ws ps : policyFileSchema ws = Some ps → ps ≠ [] ∧ NoDup (map pe_id ps).
Proof.
  unfold policyFileSchema. intros (qs & _ & H)%bind_Some. case_match; [|done]. injection H as ->. bool_inv.
  split; [done|]. by eapply unique_ids.
Qed.

(** Only [full-repo-write] changes anything. *)
Lemma mutation_profile profile operation u :
  assertPermission profile operation = Ok u → operation = write_op ∨ operation = shell_op →
  profile = full_repo_write.
Proof. unfold assertPermission. intros H%check_Ok [->| ->]; by destruct profile. Qed.
