(* ===== verification/PathSecurity.v ===== *)
(** * PathSecurity: which paths of a workspace may be read or written

    services/workspace-agent/src/path-security.ts and workspace-registry.ts: relative
    paths are normalised and tested against the policy, then resolved through the file
    system and tested again.  [Platform] is what the code takes from its host: whether
    names are compared without case, the working directory, and the glob matcher
    (minimatch, a package).  Native paths are POSIX paths. *)

From S2P Require Import Prelude Text NodePath FileTree WorkspacePolicies.
From Stdlib Require Import Ascii.

Class Platform := {
  isWindows : bool;
  cwd : string;
  minimatch : string → string → bool;
}.

(** ** Data of internal-types.ts *)

Inductive path_kind := file | directory.

#[global] Instance path_kind_eq_dec : EqDecision path_kind.
Proof. solve_decision. Defined.

Record ResolvedAllowedRoot := {
  ar_logicalPath : string;
  ar_absolutePath : string;
  ar_canonicalPath : string;
  ar_kind : path_kind;
}.

Record ResolvedWorkspace := {
  rw_id : string;
  rw_name : string;
  rw_rootPath : string;
  rw_workspaceKind : WorkspaceKind;
  rw_canonicalRootPath : string;
  rw_enabled : bool;
  rw_permissionProfile : PermissionProfile;
  rw_confirmationMode : ConfirmationMode;
  rw_allowedRoots : list ResolvedAllowedRoot;
  rw_blockedGlobs : list string;
  rw_limits : WorkspaceLimits;
  rw_allowWrites : list string;
  rw_allowShell : list string;
  rw_allowedShells : list ShellName;
}.

Record AuthorizedPath := {
  ap_logicalPath : string;
  ap_absolutePath : string;
  ap_canonicalPath : string;
  ap_canonicalRelativePath : string;
  ap_kind : path_kind;
}.

Record AuthorizedWritePath := {
  aw_logicalPath : string;
  aw_absolutePath : string;
  aw_created : bool;
}.

Section path_security.
Context {P : Platform} {O : Others}.

Definition comparisonValue (value : string) : string := if isWindows then toLowerCase value else value.

Definition logicalContains (basePath targetPath : string) : bool :=
  if bool_decide (basePath = ".") then true
  else
    let base := comparisonValue basePath in
    let target := comparisonValue targetPath in
    bool_decide (target = base) || startsWith (base +:+ "/") target.

(** ** Normalisation *)

(** [/^[a-zA-Z]:/] *)
Definition drive_prefix (s : string) : bool :=
  match s with
  | String c (String d _) => (is_upper c || is_lower c) && Ascii.eqb d ":"%char
  | _ => false
  end.

(** [/[. ]$/] *)
Fixpoint ends_with_dot_or_space (s : string) : bool :=
  match s with
  | EmptyString => false
  | String c EmptyString => char_in ". " c
  | String _ r => ends_with_dot_or_space r
  end.

(** The loop of [normalizeRelativePath] over the segments. *)
Fixpoint keep_segments (segs : list string) : outcome app_error (list string) :=
  match segs with
  | [] => Ok []
  | segment :: segs =>
      if trivial_segment segment then keep_segments segs
      else if bool_decide (segment = "..") then Err INVALID_PATH
      else if isWindows && (includes ":" segment || ends_with_dot_or_space segment) then Err INVALID_PATH
      else output ← keep_segments segs; Ok (segment :: output)
  end.

Definition NUL : string := String Ascii.zero EmptyString.
Definition two_backslashes : string := String backslash (String backslash EmptyString).

Definition normalizeRelativePath (input : string) (allowDot : bool) : outcome app_error string :=
  if bool_decide (input = "") || includes NUL input then Err INVALID_PATH
  else if isAbsolute input || win32_isAbsolute input || startsWith two_backslashes input || drive_prefix input
  then Err INVALID_PATH
  else
    let portable := to_slashes input in
    if startsWith "//" portable then Err INVALID_PATH
    else
      outputSegments ← keep_segments (split_slash portable);
      match outputSegments with
      | [] => if allowDot then Ok "." else Err INVALID_PATH
      | _ => Ok (join_slash outputSegments)
      end.

Definition toNativeAbsolute (rootPath relativePath : string) : string :=
  if bool_decide (relativePath = ".") then rootPath
  else resolve cwd (rootPath :: split_slash relativePath).

Definition isRealEnvironmentFile (relativePath : string) : bool :=
  let fileName := default "" (last (split_slash relativePath)) in
  let compared := comparisonValue fileName in
  let templates := map comparisonValue [".env.example"; ".env.sample"; ".env.template"] in
  bool_decide (compared = comparisonValue ".env") ||
  (startsWith (comparisonValue ".env.") compared && negb (bool_decide (compared ∈ templates))).

(** ** The policy of one workspace *)

Section workspace.
Context (workspace : ResolvedWorkspace).

Definition candidate_of (relativePath : string) : string :=
  if bool_decide (relativePath = ".") then "" else relativePath.

Definition matchedBlockedPattern (relativePath : string) (readGenerated : bool) : option string :=
  let candidate := candidate_of relativePath in
  List.find (λ pattern,
    negb (readGenerated && bool_decide (pattern ∈ readableGeneratedGlobs)) && minimatch pattern candidate)
    (rw_blockedGlobs workspace).

Definition isBlocked (relativePath : string) : bool :=
  match matchedBlockedPattern relativePath false with Some _ => true | None => false end.

(** [pattern.endsWith("/**")] and [pattern.slice(0, -3)] *)
Definition subtree_suffix : string := "/**".
Definition subtree_base (pattern : string) : option string :=
  let n := String.length pattern - 3 in
  if (3 <=? String.length pattern) && bool_decide (String.substring n 3 pattern = subtree_suffix)
  then Some (String.substring 0 n pattern) else None.

Definition isSubtreeBlocked (relativePath : string) : bool :=
  let candidate := candidate_of relativePath in
  existsb (λ base, minimatch base candidate) (omap subtree_base (rw_blockedGlobs workspace)).

Definition isWithinLogicalAllowedRoot (logicalPath : string) : bool :=
  existsb (λ root,
    match ar_kind root with
    | file => bool_decide (comparisonValue (ar_logicalPath root) = comparisonValue logicalPath)
    | directory => logicalContains (ar_logicalPath root) logicalPath
    end) (rw_allowedRoots workspace).

Definition isAllowedWritePath (logicalPath : string) : bool :=
  match rw_allowWrites workspace with
  | [] => false
  | roots =>
      existsb (λ writeRoot,
        if bool_decide (writeRoot = ".") then true
        else
          let root := comparisonValue writeRoot in
          let candidate := comparisonValue logicalPath in
          bool_decide (candidate = root) || startsWith (root +:+ "/") candidate ||
          startsWith (candidate +:+ "/") root) roots
  end.

Definition blockedPathError (logicalPath policyRule : string) (operation : option string) : app_error :=
  BLOCKED_PATH (Some {|
    bd_path := logicalPath;
    bd_policyRule := policyRule;
    bd_operation := operation;
    bd_safeAlternative :=
      if bool_decide (operation = Some "read_file") && isRealEnvironmentFile logicalPath
      then Some "run_workspace_validation(secret-scan)" else None;
  |}).

Definition authorizeLogical (input : string) (allowDot : bool) (operation : option string)
    (readGenerated : bool) : outcome app_error string :=
  logicalPath ← normalizeRelativePath input allowDot;
  match matchedBlockedPattern logicalPath readGenerated with
  | Some policyRule => Err (blockedPathError logicalPath policyRule operation)
  | None =>
      _ ← check PATH_OUTSIDE_ALLOWED_ROOTS (isWithinLogicalAllowedRoot logicalPath);
      Ok logicalPath
  end.

Definition authorizeWriteLogical (input : string) : outcome app_error string :=
  logicalPath ← normalizeRelativePath input false;
  _ ← check (BLOCKED_PATH None) (negb (isBlocked logicalPath));
  _ ← check PATH_OUTSIDE_ALLOWED_ROOTS (isWithinLogicalAllowedRoot logicalPath);
  _ ← check WRITE_NOT_ALLOWED (isAllowedWritePath logicalPath);
  Ok logicalPath.

(** The loop of [assertCreatableAncestors] over the proper prefixes, [done] the segments
    before the next one. *)
Fixpoint ancestors_creatable (done segs : list string) : outcome app_error unit :=
  match segs with
  | [] => Ok tt
  | segment :: rest =>
      match rest with
      | [] => Ok tt
      | _ =>
          let ancestor := done ++ [segment] in
          _ ← check (BLOCKED_PATH None) (negb (isBlocked (join_slash ancestor)));
          _ ← check WRITE_NOT_ALLOWED (isAllowedWritePath (join_slash ancestor));
          ancestors_creatable ancestor rest
      end
  end.

Definition assertCreatableAncestors (logicalPath : string) : outcome app_error unit :=
  ancestors_creatable [] (split_slash logicalPath).

(** A synchronous check inside an asynchronous method. *)
Definition lift {A} (m : outcome app_error A) : io World app_error A :=
  match m with Ok a => mret a | Err e => throw e end.

Definition kind_of (n : node) : option path_kind :=
  match n with File _ => Some file | Dir => Some directory | _ => None end.

Definition authorizeWriteTarget (input : string) : io World app_error AuthorizedWritePath :=
  logicalPath ← lift (authorizeWriteLogical input);
  let absolutePath := toNativeAbsolute (rw_rootPath workspace) logicalPath in
  existing ← observe (λ fs, stat fs absolutePath);
  created ← (match existing with
             | Some (File _) => mret false
             | Some _ => throw NOT_A_FILE
             | None => lift (assertCreatableAncestors logicalPath);; mret true
             end);
  let parentAbsolute := dirname absolutePath in
  let target := {| aw_logicalPath := logicalPath; aw_absolutePath := absolutePath; aw_created := created |} in
  resolved ← observe (λ fs, realpath fs parentAbsolute);
  match resolved with
  | None => if created then mret target else throw INVALID_PATH
  | Some parentCanonical =>
      require (isContained cwd (rw_canonicalRootPath workspace) parentCanonical) PATH_OUTSIDE_WORKSPACE;;
      if created then mret target
      else
        resolved ← observe (λ fs, realpath fs absolutePath);
        canonicalPath ← require_some resolved IO_FAILURE;
        require (isContained cwd (rw_canonicalRootPath workspace) canonicalPath) PATH_OUTSIDE_WORKSPACE;;
        mret target
  end.

Definition authorizeExistingInternal (input : string) (expectedKind : option path_kind)
    (allowDot enforceBlockedPolicy : bool) (operation : option string) (readGenerated : bool) :
    io World app_error AuthorizedPath :=
  logicalPath ← lift (if enforceBlockedPolicy then authorizeLogical input allowDot operation readGenerated
                      else normalizeRelativePath input allowDot);
  require (isWithinLogicalAllowedRoot logicalPath) PATH_OUTSIDE_ALLOWED_ROOTS;;
  let absolutePath := toNativeAbsolute (rw_rootPath workspace) logicalPath in
  resolved ← observe (λ fs, realpath fs absolutePath);
  canonicalPath ← require_some resolved FILE_NOT_FOUND;
  require (isContained cwd (rw_canonicalRootPath workspace) canonicalPath) PATH_OUTSIDE_WORKSPACE;;
  require (existsb (λ root, isContained cwd (ar_canonicalPath root) canonicalPath) (rw_allowedRoots workspace))
    PATH_OUTSIDE_ALLOWED_ROOTS;;
  let canonicalRelativePath := relative cwd (rw_canonicalRootPath workspace) canonicalPath in
  let portableCanonicalPath := if bool_decide (canonicalRelativePath = "") then "." else canonicalRelativePath in
  match (if enforceBlockedPolicy then matchedBlockedPattern portableCanonicalPath readGenerated else None) with
  | Some rule => throw (blockedPathError logicalPath rule operation)
  | None =>
      pathStat ← observe (λ fs, stat fs canonicalPath);
      node ← require_some pathStat IO_FAILURE;
      kind ← require_some (kind_of node) INVALID_PATH;
      require (negb (bool_decide (expectedKind = Some file)) || bool_decide (kind = file)) NOT_A_FILE;;
      require (negb (bool_decide (expectedKind = Some directory)) || bool_decide (kind = directory))
        NOT_A_DIRECTORY;;
      mret {|
        ap_logicalPath := logicalPath;
        ap_absolutePath := absolutePath;
        ap_canonicalPath := canonicalPath;
        ap_canonicalRelativePath := portableCanonicalPath;
        ap_kind := kind;
      |}
  end.

Definition authorizeExisting (input : string) (expectedKind : option path_kind) (allowDot : bool)
    (operation : option string) : io World app_error AuthorizedPath :=
  authorizeExistingInternal input expectedKind allowDot true operation false.

Definition authorizeExistingFileRead (input operation : string) : io World app_error AuthorizedPath :=
  authorizeExistingInternal input (Some file) false true (Some operation) true.

Definition authorizeExistingForSecretScan (input : string) (expectedKind : option path_kind) (allowDot : bool) :
    io World app_error AuthorizedPath :=
  authorizeExistingInternal input expectedKind allowDot false None false.

End workspace.

(** ** The registry *)

Definition resolveAllowedRoot (canonicalWorkspaceRoot workspaceRoot configuredPath : string) :
    io World app_error ResolvedAllowedRoot :=
  logicalPath ← lift (normalizeRelativePath configuredPath true);
  let absolutePath := toNativeAbsolute workspaceRoot logicalPath in
  resolved ← observe (λ fs, realpath fs absolutePath);
  canonicalPath ← require_some resolved POLICY_INVALID;
  require (isContained cwd canonicalWorkspaceRoot canonicalPath) POLICY_INVALID;;
  rootStat ← observe (λ fs, stat fs canonicalPath);
  node ← require_some rootStat IO_FAILURE;
  kind ← require_some (kind_of node) POLICY_INVALID;
  mret {|
    ar_logicalPath := logicalPath;
    ar_absolutePath := absolutePath;
    ar_canonicalPath := canonicalPath;
    ar_kind := kind;
  |}.

(** [full-repo-readonly] and [full-repo-write] name the whole workspace. *)
Definition whole_workspace (roots : list ResolvedAllowedRoot) : bool :=
  match roots with [root] => bool_decide (ar_logicalPath root = ".") | _ => false end.

Definition profile_shape (p : PolicyEntry) (roots : list ResolvedAllowedRoot) : bool :=
  match pe_permissionProfile p with
  | full_repo_readonly => whole_workspace roots
  | full_repo_write => whole_workspace roots && negb (bool_decide (pe_allowWrites p = []))
  | _ => true
  end.

(** [new Set(...)] keeps the first of equal values. *)
Definition add_glob (acc : list string) (g : string) : list string :=
  if bool_decide (g ∈ acc) then acc else acc ++ [g].
Definition unique_globs (globs : list string) : list string := fold_left add_glob globs [].

Definition resolve_workspace (workspace : PolicyEntry) : io World app_error ResolvedWorkspace :=
  require (isAbsolute (pe_rootPath workspace)) POLICY_INVALID;;
  resolved ← observe (λ fs, realpath fs (pe_rootPath workspace));
  canonicalRootPath ← require_some resolved POLICY_INVALID;
  rootStat ← observe (λ fs, stat fs canonicalRootPath);
  require (bool_decide (rootStat = Some Dir)) POLICY_INVALID;;
  allowedRoots ← for_collect (resolveAllowedRoot canonicalRootPath (pe_rootPath workspace))
                   (pe_allowedRoots workspace);
  require (profile_shape workspace allowedRoots) POLICY_INVALID;;
  allowWrites ← for_collect (λ p, lift (normalizeRelativePath p true)) (pe_allowWrites workspace);
  allowShell ← for_collect (λ p, lift (normalizeRelativePath p true)) (pe_allowShell workspace);
  mret {|
    rw_id := pe_id workspace;
    rw_name := pe_name workspace;
    rw_rootPath := pe_rootPath workspace;
    rw_workspaceKind := default repository (pe_workspaceKind workspace);
    rw_canonicalRootPath := canonicalRootPath;
    rw_enabled := pe_enabled workspace;
    rw_permissionProfile := pe_permissionProfile workspace;
    rw_confirmationMode := pe_confirmationMode workspace;
    rw_allowedRoots := allowedRoots;
    rw_blockedGlobs := unique_globs (mandatoryBlockedGlobs ++ pe_blockedGlobs workspace);
    rw_limits := pe_limits workspace;
    rw_allowWrites := allowWrites;
    rw_allowShell := allowShell;
    rw_allowedShells := pe_allowedShells workspace;
  |}.

(** [resolveWorkspaces]; the ids are unique, so the map is the list in order. *)
Definition resolveWorkspaces (policy : list PolicyEntry) : io World app_error (list ResolvedWorkspace) :=
  for_collect resolve_workspace policy.

(** [WorkspaceRegistry.fromPolicy] *)
Definition fromPolicy (policy : list PolicyEntry) : io World app_error (list ResolvedWorkspace) :=
  parsed ← require_some (policyFileSchema policy) POLICY_INVALID;
  resolveWorkspaces parsed.

(** [WorkspaceRegistry.get] *)
Definition get_workspace (workspaces : list ResolvedWorkspace) (workspaceId : string) :
    outcome app_error ResolvedWorkspace :=
  match List.find (λ w, bool_decide (rw_id w = workspaceId)) workspaces with
  | None => Err WORKSPACE_NOT_FOUND
  | Some workspace => if rw_enabled workspace then Ok workspace else Err WORKSPACE_DISABLED
  end.

End path_security.

(** ** PathSecurityProps: what the path checks accept

    Normalised paths are lists of names; the string tests of the policy are prefix tests
    on them; a loaded workspace is well formed; an authorised path is where the file
    system says it is, inside its workspace and one of its allowed roots, and blocked by
    no glob. *)

(** ** Generic facts on the operations *)

Section lift.
Context {P : Platform} {O : Others}.

Lemma path_lift_Ok {A} (m : outcome app_error A) w a w' : lift m w = (Ok a, w') ↔ m = Ok a ∧ w' = w.
Proof.
  unfold lift. destruct m as [b|e]; split.
  - intros H. injection H as <- <-. done.
  - by intros [[= ->] ->].
  - intros H. discriminate H.
  - by intros [[=] _].
Qed.

End lift.

(** [path_inv] is [run_inv] with the operations of the file system. *)
Ltac path_inv1 :=
  match goal with
  | H : lift _ _ = (Ok _, _) |- _ => apply path_lift_Ok in H as [? ?]; subst
  | H : observe _ _ = (Ok _, _) |- _ => apply observe_Ok in H as [? ?]; subst
  | _ => run_inv1
  end.
Ltac path_inv := repeat path_inv1.

Lemma for_collect_Forall {S E A B} (f : A → io S E B) (Q : B → Prop) l s bs s' :
  (∀ a s1 b s2, f a s1 = (Ok b, s2) → Q b) →
  for_collect f l s = (Ok bs, s') → Forall Q bs ∧ length bs = length l.
Proof.
  intros Hf. revert s bs. induction l as [|a l IH]; intros s bs H; cbn in H; run_inv; [by split|].
  edestruct IH as [HF HL]; [eassumption|]. split; [constructor; eauto|cbn; congruence].
Qed.

(** ** Names *)

Section names.
Context {P : Platform} {O : Others}.

Lemma lower_char_slash c : is_slash (lower_char c) = is_slash c.
Proof. destruct c as [[] [] [] [] [] [] [] []]; reflexivity. Qed.

Lemma no_slash_lower s : no_slash (toLowerCase s) = no_slash s.
Proof. unfold no_slash. induction s as [|c s IH]; [done|]. cbn. by rewrite lower_char_slash, IH. Qed.

Lemma lower_app s t : toLowerCase (s +:+ t) = toLowerCase s +:+ toLowerCase t.
Proof. induction s as [|c s IH]; [done|]. exact (f_equal (String (lower_char c)) IH). Qed.

Lemma no_slash_compared s : no_slash (comparisonValue s) = no_slash s.
Proof. unfold comparisonValue. case_match; [apply no_slash_lower|done]. Qed.

Lemma compared_join l : comparisonValue (join_slash l) = join_slash (map comparisonValue l).
Proof.
  unfold comparisonValue. destruct isWindows; [|by rewrite map_id].
  induction l as [|s l IH]; [done|]. destruct l as [|t l]; [done|].
  cbn [map] in *. rewrite !join_cons, !lower_app. do 2 f_equal. exact IH.
Qed.

(** The names of a relative path, [.] having none. *)
Definition names (rel : string) : list string := if bool_decide (rel = ".") then [] else split_slash rel.

(** A normalised relative path. *)
Definition relative_ok (rel : string) : Prop := rel = "." ∨ ∃ segs, segs ≠ [] ∧ normal segs ∧ rel = join_slash segs.

Lemma names_join segs : segs ≠ [] → normal segs → names (join_slash segs) = segs.
Proof.
  intros Hne Hn. pose proof (split_join segs Hne (normal_no_slash _ Hn)) as Hs. unfold names.
  rewrite Hs. case_bool_decide as E; [|done]. rewrite E in Hs. subst segs. inversion_clear Hn as [|? ? Hd _].
  done.
Qed.

Lemma names_dot : names "." = [].
Proof. reflexivity. Qed.

Lemma names_normal rel : relative_ok rel → normal (names rel).
Proof. intros [->|(segs & Hne & Hn & ->)]; [constructor|]. by rewrite names_join. Qed.

Lemma relative_ok_inj a b : relative_ok a → relative_ok b → names a = names b → a = b.
Proof.
  intros [->|(l & Hl & Hn & ->)] [->|(k & Hk & Hm & ->)]; rewrite ?names_join by done;
    rewrite ?names_dot; congruence.
Qed.

(** Path [b] is an ancestor of [t], or [t] itself, case aside. *)
Definition within (b t : list string) : Prop := map comparisonValue b `prefix_of` map comparisonValue t.

Lemma within_refl l : within l l.
Proof. by unfold within. Qed.

Lemma map_compared_no_slash l :
  Forall (λ s, no_slash s = true) l → Forall (λ s, no_slash s = true) (map comparisonValue l).
Proof. intros H. apply Forall_map. eapply Forall_impl; [exact H|]. intros s Hs. cbn. by rewrite no_slash_compared. Qed.

Lemma split_compared l :
  l ≠ [] → normal l → split_slash (comparisonValue (join_slash l)) = map comparisonValue l.
Proof.
  intros Hne Hn. rewrite compared_join. apply split_join; [by destruct l|].
  by apply map_compared_no_slash, normal_no_slash.
Qed.

Lemma compared_dot : comparisonValue "." = ".".
Proof. unfold comparisonValue. by destruct isWindows. Qed.

(** The string test of the code on normalised paths. *)
Lemma under_within b t :
  b ≠ [] → t ≠ [] → normal b → normal t →
  under (comparisonValue (join_slash b)) (comparisonValue (join_slash t)) = true ↔ within b t.
Proof. intros Hb Ht Nb Nt. by rewrite under_iff, !split_compared. Qed.

Lemma logicalContains_within b t :
  relative_ok b → relative_ok t → t ≠ "." → logicalContains b t = true ↔ within (names b) (names t).
Proof.
  intros Hb Ht Hd. destruct Ht as [->|(ts & Hne & Hn & ->)]; [done|].
  unfold logicalContains. destruct Hb as [->|(bs & Hbn & Hb & ->)].
  - rewrite bool_decide_eq_true_2 by done. split; [|done]. intros _. apply prefix_nil.
  - rewrite !names_join by done. case_bool_decide as E.
    + pose proof (names_join bs Hbn Hb) as En. rewrite E in En. cbn in En. by subst bs.
    + by apply under_within.
Qed.

(** ** Normalisation *)

Lemma keep_segments_Ok l out :
  Forall (λ s, no_slash s = true) l → keep_segments l = Ok out →
  normal out ∧ out = List.filter (λ s, negb (trivial_segment s)) l.
Proof.
  intros Hl. revert out. induction Hl as [|s l Hs Hl IH]; intros out; cbn.
  - intros [= <-]. by split; [constructor|].
  - destruct (trivial_segment s) eqn:Ht; cbn; [apply IH|]. case_bool_decide as Hd; [done|].
    case_match; [done|]. intros (o & Ho & [= <-])%outcome_bind_Ok. destruct (IH _ Ho) as [Hn ->].
    split; [|done]. constructor; [|done]. unfold seg_ok. by rewrite Hs, Ht, (bool_decide_eq_false_2 _ Hd).
Qed.

Lemma normalizeRelativePath_Ok input allowDot r :
  normalizeRelativePath input allowDot = Ok r →
  relative_ok r ∧ (r = "." → allowDot = true) ∧
  names r = List.filter (λ s, negb (trivial_segment s)) (split_slash (to_slashes input)).
Proof.
  unfold normalizeRelativePath. do 3 (case_match; [done|]).
  intros (out & Ho & Hr)%outcome_bind_Ok. apply keep_segments_Ok in Ho as [Hn Eo]; [|apply split_slash_no_slash].
  rewrite <-Eo. destruct out as [|s out].
  - destruct allowDot; [|done]. injection Hr as <-. repeat split; by left.
  - injection Hr as <-. pose proof (names_join (s :: out) ltac:(done) Hn) as En. repeat split.
    + right. by exists (s :: out).
    + intros E. rewrite E in En. done.
    + exact En.
Qed.

Lemma keep_segments_Err l e : keep_segments l = Err e → e = INVALID_PATH.
Proof.
  induction l as [|s l IH]; cbn; [done|]. repeat (case_match; [congruence || by auto|]).
  destruct (keep_segments l); cbn; [done|auto].
Qed.

Lemma normalizeRelativePath_Err input allowDot e : normalizeRelativePath input allowDot = Err e → e = INVALID_PATH.
Proof.
  unfold normalizeRelativePath. do 3 (case_match; [congruence|]).
  destruct (keep_segments _) as [out|e'] eqn:E; cbn; [|intros [= <-]; by apply keep_segments_Err in E].
  destruct out; [|done]. destruct allowDot; congruence.
Qed.

Lemma toNativeAbsolute_names root rel :
  isAbsolute root = true → relative_ok rel →
  segments (toNativeAbsolute root rel) = segments root ++ names rel.
Proof.
  intros Ha [->|(segs & Hne & Hn & ->)]; unfold toNativeAbsolute.
  - rewrite bool_decide_eq_true_2 by done. cbn. by rewrite app_nil_r.
  - rewrite names_join by done. case_bool_decide as E.
    + pose proof (names_join segs Hne Hn) as En. rewrite E in En. cbn in En. by subst segs.
    + rewrite split_join by (done || by apply normal_no_slash). rewrite resolve_segments by done.
      apply segments_render. apply Forall_app_2; [apply segments_normal|done].
Qed.

End names.

(** ** Loaded workspaces *)

Section workspaces.
Context {P : Platform} {O : Others}.

Definition canonical_root (ws : ResolvedWorkspace) : list string := segments (rw_canonicalRootPath ws).

Record root_ok (r : list string) (root : ResolvedAllowedRoot) : Prop := {
  ro_logical : relative_ok (ar_logicalPath root);
  ro_canonical : ∃ q, normal q ∧ ar_canonicalPath root = render q ∧ r `prefix_of` q;
}.

Record workspace_ok (ws : ResolvedWorkspace) : Prop := {
  wo_absolute : isAbsolute (rw_rootPath ws) = true;
  wo_canonical : rw_canonicalRootPath ws = render (canonical_root ws);
  wo_roots : Forall (root_ok (canonical_root ws)) (rw_allowedRoots ws);
  wo_mandatory : ∀ g, g ∈ mandatoryBlockedGlobs → g ∈ rw_blockedGlobs ws;
  wo_writes : Forall relative_ok (rw_allowWrites ws);
  wo_profile : rw_permissionProfile ws = full_repo_write →
    rw_allowWrites ws ≠ [] ∧ ∃ root, rw_allowedRoots ws = [root] ∧ ar_logicalPath root = ".";
}.

Lemma canonical_root_normal ws : normal (canonical_root ws).
Proof. apply segments_normal. Qed.

Lemma realpath_normal fs p c : realpath fs p = Some c → normal (segments c) ∧ c = render (segments c).
Proof.
  intros (q & -> & [Hq _])%realpath_canonical. split; [apply segments_normal|].
  by rewrite segments_render.
Qed.

Lemma contained_prefix base c :
  base = render (segments base) → c = render (segments c) →
  isContained cwd base c = true → segments base `prefix_of` segments c.
Proof.
  intros Eb Ec H. rewrite Eb, Ec in H. apply isContained_prefix in H; [done|apply segments_normal..].
Qed.

Ltac path_facts :=
  repeat match goal with
    | H : normalizeRelativePath _ _ = Ok _ |- _ => apply normalizeRelativePath_Ok in H as (? & ? & ?)
    | H : realpath _ _ = Some _ |- _ => apply realpath_normal in H as [? ?]
    end.

Lemma resolveAllowedRoot_ok c root configured w a w' :
  c = render (segments c) →
  resolveAllowedRoot c root configured w = (Ok a, w') → root_ok (segments c) a.
Proof.
  intros Ec H. unfold resolveAllowedRoot in H. path_inv. cbn [ar_logicalPath].
  path_facts. split; [done|]. cbn [ar_canonicalPath].
  eexists. split; [eassumption|]. split; [done|]. by apply contained_prefix.
Qed.

Lemma unique_globs_elem g gs : g ∈ gs → g ∈ unique_globs gs.
Proof.
  unfold unique_globs. intros H. assert (g ∈ @nil string ∨ g ∈ gs) as Hg by tauto. clear H.
  revert Hg. generalize (@nil string). induction gs as [|h gs IH]; intros acc Hg; cbn; [set_solver|].
  apply IH. unfold add_glob. case_bool_decide; set_solver.
Qed.

Lemma profile_shape_write p roots :
  profile_shape p roots = true → pe_permissionProfile p = full_repo_write →
  pe_allowWrites p ≠ [] ∧ ∃ root, roots = [root] ∧ ar_logicalPath root = ".".
Proof.
  unfold profile_shape. intros H E. rewrite E in H. bool_inv. split; [done|].
  unfold whole_workspace in *. destruct roots as [|root [|]]; try done. bool_inv. eauto.
Qed.

Lemma normalized_list l ps w w' :
  for_collect (λ p, lift (normalizeRelativePath p true)) l w = (Ok ps, w') →
  Forall relative_ok ps ∧ length ps = length l.
Proof.
  apply for_collect_Forall. intros p w1 q w2 [E _]%path_lift_Ok. by apply normalizeRelativePath_Ok in E as (? & _).
Qed.

Lemma resolve_workspace_ok p w ws w' :
  resolve_workspace p w = (Ok ws, w') → workspace_ok ws ∧ rw_id ws = pe_id p.
Proof.
  unfold resolve_workspace. intros H. path_inv. split; [|done].
  repeat match goal with
    | H : for_collect (λ p, lift _) _ _ = _ |- _ => apply normalized_list in H as [? ?]
    end.
  path_facts. split; try done.
  - match goal with H : for_collect _ _ _ = _ |- _ => apply for_collect_Forall with (Q := root_ok (segments x)) in H end.
    + cbn. tauto.
    + intros q w1 root w2. by apply resolveAllowedRoot_ok.
  - intros g Hg. apply unique_globs_elem, elem_of_app. by left.
  - cbn. intros E. edestruct profile_shape_write as [Hw Hroot]; [eassumption..|]. split; [|done].
    intros ->. destruct (pe_allowWrites p); done.
Qed.

Lemma fromPolicy_ok policy w wss w' :
  fromPolicy policy w = (Ok wss, w') → Forall workspace_ok wss.
Proof.
  unfold fromPolicy, resolveWorkspaces. intros H. apply bind_Ok in H as (ps & w1 & Hp & H). run_inv.
  eapply for_collect_Forall in H as [HF _]; [exact HF|]. cbn. clear. intros p w1 ws w2 HR.
  by apply resolve_workspace_ok in HR as [? _].
Qed.

Lemma get_workspace_ok wss id ws :
  get_workspace wss id = Ok ws → ws ∈ wss ∧ rw_id ws = id ∧ rw_enabled ws = true.
Proof.
  unfold get_workspace. destruct (List.find _ _) as [v|] eqn:E; [|done]. apply find_Some_elem in E as [Hv E].
  bool_inv. destruct (rw_enabled v) eqn:Ee; [|done]. by intros [= <-].
Qed.

(** ** Authorised paths *)

(** No glob of the policy, but the readable ones where they are excepted, matches. *)
Definition unblocked (ws : ResolvedWorkspace) (readGenerated : bool) (rel : string) : Prop :=
  ∀ g, g ∈ rw_blockedGlobs ws → ¬ (readGenerated = true ∧ g ∈ readableGeneratedGlobs) →
    minimatch g (candidate_of rel) = false.

Lemma matchedBlockedPattern_None ws rel rg :
  matchedBlockedPattern ws rel rg = None ↔ unblocked ws rg rel.
Proof.
  unfold matchedBlockedPattern, unblocked. split.
  - intros H g Hg Hr. eapply find_None_elem in H; [|exact Hg]. cbn in H. apply andb_false_iff in H as [H|H]; [|done].
    apply negb_false_iff, andb_true_iff in H as [H1 H2]. apply bool_decide_eq_true in H2. tauto.
  - intros H. destruct (List.find _ _) as [g|] eqn:E; [|done]. apply find_Some_elem in E as [Hg E].
    apply andb_true_iff in E as [E1 E2]. rewrite (H g Hg) in E2; [done|]. intros [-> Hr].
    apply negb_true_iff in E1. cbn in E1. by apply bool_decide_eq_false in E1.
Qed.

(** The relative path of an entry under a root. *)
Lemma relative_inside r k :
  normal (r ++ k) → relative cwd (render r) (render (r ++ k)) = join_slash k.
Proof.
  intros Hn. pose proof Hn as [Hr _]%Forall_app. rewrite relative_render by done.
  assert (common_length r (r ++ k) = length r) as -> by (apply common_length_prefix; by eexists).
  rewrite Nat.sub_diag, drop_app_length. done.
Qed.

Definition portable (rel : string) : string := if bool_decide (rel = "") then "." else rel.

Lemma portable_join k : normal k → relative_ok (portable (join_slash k)) ∧ names (portable (join_slash k)) = k.
Proof.
  intros Hn. destruct k as [|s k]; [by split; [left|]|]. unfold portable. rewrite bool_decide_eq_false_2.
  - split; [right; by exists (s :: k)|by apply names_join].
  - inversion_clear Hn as [|? ? Hs _]. destruct s; [done|]. by destruct k.
Qed.

(** What the code has checked of a path when it returns it: [fs] is the file system its
    [realpath] saw. *)
Record authorized (ws : ResolvedWorkspace) (readGenerated : bool) (fs : Fs) (a : AuthorizedPath) : Prop := {
  au_logical : relative_ok (ap_logicalPath a);
  au_within : isWithinLogicalAllowedRoot ws (ap_logicalPath a) = true;
  au_native : ap_absolutePath a = toNativeAbsolute (rw_rootPath ws) (ap_logicalPath a);
  au_absolute : segments (ap_absolutePath a) = segments (rw_rootPath ws) ++ names (ap_logicalPath a);
  au_real : realpath fs (ap_absolutePath a) = Some (ap_canonicalPath a);
  au_inside : segments (ap_canonicalPath a) = canonical_root ws ++ names (ap_canonicalRelativePath a);
  au_relative : relative_ok (ap_canonicalRelativePath a);
  au_root : ∃ root, root ∈ rw_allowedRoots ws ∧
    segments (ar_canonicalPath root) `prefix_of` segments (ap_canonicalPath a);
  au_unblocked : unblocked ws readGenerated (ap_logicalPath a);
  au_unblocked_real : unblocked ws readGenerated (ap_canonicalRelativePath a);
}.

Lemma authorizeLogical_Ok ws input allowDot op rg l :
  authorizeLogical ws input allowDot op rg = Ok l →
  normalizeRelativePath input allowDot = Ok l ∧ unblocked ws rg l ∧ isWithinLogicalAllowedRoot ws l = true.
Proof.
  unfold authorizeLogical. intros (l' & Hl & H)%outcome_bind_Ok.
  destruct (matchedBlockedPattern _ _ _) eqn:Em; [done|]. apply matchedBlockedPattern_None in Em.
  apply outcome_bind_Ok in H as (u & Hc & [= ->]). by apply check_Ok in Hc.
Qed.

Lemma root_containing ws c :
  workspace_ok ws → c = render (segments c) →
  existsb (λ root, isContained cwd (ar_canonicalPath root) c) (rw_allowedRoots ws) = true →
  ∃ root, root ∈ rw_allowedRoots ws ∧ segments (ar_canonicalPath root) `prefix_of` segments c.
Proof.
  intros Hw Ec (root & Hin & Hc)%existsb_exists. apply list_elem_of_In in Hin. exists root. split; [done|].
  apply contained_prefix; [|done|done]. pose proof (wo_roots ws Hw) as HF. rewrite Forall_forall in HF.
  destruct (ro_canonical _ _ (HF _ Hin)) as (q & Hq & -> & _). by rewrite segments_render.
Qed.

(** Whatever others do to the files meanwhile, what is returned was checked. *)
Lemma authorizeExistingInternal_Ok ws input expected allowDot op rg w a w' :
  workspace_ok ws →
  authorizeExistingInternal ws input expected allowDot true op rg w = (Ok a, w') →
  normalizeRelativePath input allowDot = Ok (ap_logicalPath a) ∧
  authorized ws rg (w_fs (next_world w)) a ∧
  stat (w_fs w') (ap_canonicalPath a) ≫= kind_of = Some (ap_kind a) ∧
  (∀ k, expected = Some k → ap_kind a = k) ∧ w' = next_world (next_world w).
Proof.
  intros Hw H. unfold authorizeExistingInternal in H. apply bind_Ok in H as (l & w1 & Hl & H).
  apply path_lift_Ok in Hl as [Hl ->]. apply authorizeLogical_Ok in Hl as (Hl & Hu & Hin).
  pose proof (normalizeRelativePath_Ok _ _ _ Hl) as (Hr & _ & _).
  path_inv. rename H1 into Hreal, H2 into Hc, H3 into Hroot, x into c.
  fold (portable (relative cwd (rw_canonicalRootPath ws) c)) in H.
  pose proof (realpath_normal _ _ _ Hreal) as [Hn Ec].
  destruct (contained_prefix _ _ (wo_canonical ws Hw) Ec Hc) as [k Ek].
  assert (relative cwd (rw_canonicalRootPath ws) c = join_slash k) as Erel.
  { rewrite (wo_canonical ws Hw), Ec, Ek. apply relative_inside. by rewrite Ek in Hn. }
  rewrite Erel in H. rewrite Ek in Hn. apply Forall_app in Hn as [_ Hk].
  destruct (portable_join k Hk) as [Hpo Hpn].
  destruct (matchedBlockedPattern ws _ rg) eqn:Em; [done|]. apply matchedBlockedPattern_None in Em.
  path_inv. cbn [ap_logicalPath ap_canonicalPath ap_kind].
  split; [done|]. split; [|split; [|split; [|done]]].
  - split; cbn [ap_logicalPath ap_absolutePath ap_canonicalPath ap_canonicalRelativePath]; try done.
    + apply toNativeAbsolute_names; [by apply wo_absolute|done].
    + by rewrite Ek, Hpn.
    + by apply root_containing.
  - match goal with H : stat _ _ = Some _ |- _ => by rewrite H end.
  - intros k' ->. match goal with Hf : _ || bool_decide (?x = file) = true |- _ => destruct k', x end; done.
Qed.

Lemma require_true (b : bool) (e : app_error) (w : World) : b = true → require b e w = (Ok tt, w).
Proof. by intros ->. Qed.

Lemma require_some_run {A} (o : option A) (a : A) (e : app_error) (w : World) :
  o = Some a → require_some o e w = (Ok a, w).
Proof. by intros ->. Qed.

Lemma observe_run {A} (f : Fs → A) (w : World) :
  observe (E := app_error) f w = (Ok (f (w_fs (next_world w))), next_world w).
Proof. by apply observe_Ok. Qed.

Lemma prefix_contained base c :
  base = render (segments base) → c = render (segments c) →
  segments base `prefix_of` segments c → isContained cwd base c = true.
Proof. intros Eb Ec H. rewrite Eb, Ec. apply isContained_prefix; [apply segments_normal..|done]. Qed.

Lemma contained_root ws c :
  workspace_ok ws → c = render (segments c) →
  (∃ root, root ∈ rw_allowedRoots ws ∧ segments (ar_canonicalPath root) `prefix_of` segments c) →
  existsb (λ root, isContained cwd (ar_canonicalPath root) c) (rw_allowedRoots ws) = true.
Proof.
  intros Hw Ec (root & Hin & Hp). apply existsb_exists. exists root. split; [by apply list_elem_of_In|].
  apply prefix_contained; [|done|done]. pose proof (wo_roots ws Hw) as HF. rewrite Forall_forall in HF.
  destruct (ro_canonical _ _ (HF _ Hin)) as (q & Hq & -> & _). by rewrite segments_render.
Qed.

(** Nothing that satisfies the policy is refused, when the second look at the files
    agrees with the first. *)
Lemma authorizeExistingInternal_complete ws input expected allowDot op rg w a :
  workspace_ok ws →
  normalizeRelativePath input allowDot = Ok (ap_logicalPath a) →
  authorized ws rg (w_fs (next_world w)) a →
  stat (w_fs (next_world (next_world w))) (ap_canonicalPath a) ≫= kind_of = Some (ap_kind a) →
  (∀ k, expected = Some k → ap_kind a = k) →
  authorizeExistingInternal ws input expected allowDot true op rg w = (Ok a, next_world (next_world w)).
Proof.
  intros Hw Hl Ha (n & Hn & Hk)%bind_Some He. destruct a as [l abs c rel kind]. destruct Ha.
  cbn [ap_logicalPath ap_absolutePath ap_canonicalPath ap_canonicalRelativePath ap_kind] in *. subst abs.
  pose proof (realpath_normal _ _ _ au_real0) as [Hnc Ec].
  assert (portable (relative cwd (rw_canonicalRootPath ws) c) = rel) as Erel.
  { rewrite (wo_canonical ws Hw), Ec, au_inside0. rewrite relative_inside by (by rewrite <-au_inside0).
    destruct (portable_join (names rel)) as [Hp1 Hp2]; [by apply names_normal|]. by apply relative_ok_inj. }
  unfold authorizeExistingInternal. fold (portable (relative cwd (rw_canonicalRootPath ws) c)).
  rewrite (bind_run _ _ _ l w).
  2: { apply path_lift_Ok. split; [|done]. unfold authorizeLogical. rewrite Hl. cbn.
       by rewrite (proj2 (matchedBlockedPattern_None _ _ _) au_unblocked0), au_within0. }
  rewrite (bind_run _ _ _ tt w) by by apply require_true. cbv zeta.
  rewrite (bind_run _ _ _ _ _ (observe_run _ _)). cbv beta.
  rewrite (bind_run _ _ _ c (next_world w)) by by apply require_some_run.
  rewrite (bind_run _ _ _ tt (next_world w)).
  2: { apply require_true, prefix_contained; [by apply wo_canonical|done|]. rewrite au_inside0. by eexists. }
  rewrite (bind_run _ _ _ tt (next_world w)) by by apply require_true, contained_root.
  fold (portable (relative cwd (rw_canonicalRootPath ws) c)).
  rewrite Erel, (proj2 (matchedBlockedPattern_None _ _ _) au_unblocked_real0).
  rewrite (bind_run _ _ _ _ _ (observe_run _ _)). cbv beta.
  rewrite (bind_run _ _ _ n (next_world (next_world w))) by by apply require_some_run.
  rewrite (bind_run _ _ _ kind (next_world (next_world w))) by by apply require_some_run.
  rewrite !(bind_run _ _ _ tt (next_world (next_world w))); [done|..]; apply require_true.
  all: destruct expected as [k'|]; [rewrite (He k' eq_refl)|]; try done; by destruct k'.
Qed.

End workspaces.
