(* ===== verification/TextFiles.v ===== *)
(** * TextFiles: line endings, replacements and encodings of text files

    services/workspace-agent/src/filesystem/text-file.ts and text-encoding.ts.  A text is
    the string of its code units, a buffer the string of its bytes.  The decoders of the
    host ([TextDecoder]), the iconv package and SHA-256 are the class [TextHost]. *)

From S2P Require Import Prelude Text NodePath WorkspacePolicies.
From Stdlib Require Import Ascii.

Inductive TextEncoding := utf8 | utf16le | utf16be | windows1252 | latin1.
Inductive LineEnding := le_none | le_mixed | le_crlf | le_lf | le_cr.

#[global] Instance LineEnding_eq_dec : EqDecision LineEnding.
Proof. solve_decision. Defined.

Class TextHost := {
  file_sha256 : string → string;
  decode_lossy : TextEncoding → string → string;
  decode_utf8_strict : string → option string;
  decode_windows1252 : string → option string;
  iconv_encode : TextEncoding → string → string;
  iconv_decode : TextEncoding → string → string;
}.

(** ** Searching strings *)

Fixpoint sdrop (n : nat) (s : string) : string :=
  match n, s with
  | S n, String _ r => sdrop n r
  | _, _ => s
  end.

Fixpoint stake (n : nat) (s : string) : string :=
  match n, s with
  | S n, String c r => String c (stake n r)
  | _, _ => EmptyString
  end.

(** [s.indexOf(needle)] *)
Fixpoint indexOf (needle s : string) : option nat :=
  if startsWith needle s then Some 0
  else match s with
       | EmptyString => None
       | String _ r => S <$> indexOf needle r
       end.

(** [s.indexOf(needle, offset)] for [offset <= s.length] *)
Definition indexOf_from (needle s : string) (offset : nat) : option nat :=
  (λ i, offset + i) <$> indexOf needle (sdrop offset s).

(** [s.split(needle)]; [fuel] at least the length of [s] is enough when [needle] is not
    empty. *)
Fixpoint split_fuel (fuel : nat) (needle s : string) : list string :=
  match fuel with
  | 0 => [s]
  | S fuel =>
      match indexOf needle s with
      | None => [s]
      | Some i => stake i s :: split_fuel fuel needle (sdrop (i + String.length needle) s)
      end
  end.

Definition split_on (needle s : string) : list string := split_fuel (String.length s) needle s.

(** [pieces.join(sep)] *)
Definition join_on (sep : string) (pieces : list string) : string := String.concat sep pieces.

(** The loop of [countOccurrences] from [offset] on. *)
Fixpoint count_from (fuel : nat) (value needle : string) (offset : nat) : nat :=
  match fuel with
  | 0 => 0
  | S fuel =>
      if offset + String.length needle <=? String.length value then
        match indexOf_from needle value offset with
        | None => 0
        | Some index => S (count_from fuel value needle (index + String.length needle))
        end
      else 0
  end.

Definition countOccurrences (value needle : string) : nat := count_from (S (String.length value)) value needle 0.

(** ** Line endings *)

Definition CR : Ascii.ascii := Ascii.ascii_of_nat 13.
Definition LF : Ascii.ascii := Ascii.ascii_of_nat 10.
Definition crlf : string := String CR (String LF EmptyString).

(** The numbers of [\r\n], of other [\n] and of other [\r]. *)
Fixpoint ending_counts (text : string) : nat * nat * nat :=
  match text with
  | EmptyString => (0, 0, 0)
  | String c r =>
      if Ascii.eqb c CR then
        match r with
        | String d r' =>
            if Ascii.eqb d LF then let '(x, l, k) := ending_counts r' in (S x, l, k)
            else let '(x, l, k) := ending_counts r in (x, l, S k)
        | EmptyString => (0, 0, 1)
        end
      else
        let '(x, l, k) := ending_counts r in
        if Ascii.eqb c LF then (x, S l, k) else (x, l, k)
  end.

Definition detectLineEnding (text : string) : LineEnding :=
  let '(crlf, lf, cr) := ending_counts text in
  let kinds := Nat.b2n (0 <? crlf) + Nat.b2n (0 <? lf) + Nat.b2n (0 <? cr) in
  if kinds =? 0 then le_none
  else if 1 <? kinds then le_mixed
  else if 0 <? crlf then le_crlf
  else if 0 <? lf then le_lf
  else le_cr.

(** [value.replace(/\r\n|\r|\n/g, ending)] *)
Fixpoint with_endings (ending value : string) : string :=
  match value with
  | EmptyString => EmptyString
  | String c r =>
      if Ascii.eqb c CR then
        match r with
        | String d r' => if Ascii.eqb d LF then ending +:+ with_endings ending r' else ending +:+ with_endings ending r
        | EmptyString => ending
        end
      else if Ascii.eqb c LF then ending +:+ with_endings ending r
      else String c (with_endings ending r)
  end.

Definition newline : string := String LF EmptyString.

(** The two replacements of the source, one after the other. *)
Definition normalizeReplacementLineEndings (value : string) (lineEnding : LineEnding) : string :=
  match lineEnding with
  | le_mixed | le_none => value
  | le_crlf => with_endings crlf (with_endings newline value)
  | le_cr => with_endings (String CR EmptyString) (with_endings newline value)
  | le_lf => with_endings newline value
  end.

(** ** Buffers *)

Definition bytes_of (l : list nat) : string := foldr (λ n s, String (Ascii.ascii_of_nat n) s) EmptyString l.
Definition utf8_bom : string := bytes_of [239; 187; 191].
Definition utf16le_bom : string := bytes_of [255; 254].
Definition utf16be_bom : string := bytes_of [254; 255].

Definition hasUtf16Bom (buffer : string) : bool := startsWith utf16le_bom buffer || startsWith utf16be_bom buffer.

Definition readBom (buffer : string) : string :=
  if startsWith utf8_bom buffer then utf8_bom
  else if startsWith utf16le_bom buffer then utf16le_bom
  else if startsWith utf16be_bom buffer then utf16be_bom
  else EmptyString.

Record TextFileContents := {
  tf_text : string;
  tf_sizeBytes : Z;
  tf_sha256 : string;
  tf_encoding : TextEncoding;
  tf_lineEnding : LineEnding;
  tf_bom : string;
}.

Section text_files.
Context {H : TextHost}.

Definition hashBuffer (buffer : string) : string := file_sha256 buffer.

Definition decodeBufferToText (buffer : string) : string * TextEncoding :=
  if startsWith utf8_bom buffer then (decode_lossy utf8 (sdrop 3 buffer), utf8)
  else if startsWith utf16le_bom buffer then (decode_lossy utf16le (sdrop 2 buffer), utf16le)
  else if startsWith utf16be_bom buffer then (decode_lossy utf16be (sdrop 2 buffer), utf16be)
  else
    match decode_utf8_strict buffer with
    | Some text => (text, utf8)
    | None =>
        match decode_windows1252 buffer with
        | Some text => (text, windows1252)
        | None => (decode_lossy latin1 buffer, latin1)
        end
    end.

Definition byteLength (buffer : string) : Z := Z.of_nat (String.length buffer).

(** [buffer.includes(0) && !hasUtf16Bom(buffer)] *)
Definition is_binary (buffer : string) : bool :=
  includes (String Ascii.zero EmptyString) buffer && negb (hasUtf16Bom buffer).

Definition text_contents (buffer : string) : TextFileContents :=
  let decoded := decodeBufferToText buffer in
  {| tf_text := decoded.1; tf_sizeBytes := byteLength buffer; tf_sha256 := hashBuffer buffer;
     tf_encoding := decoded.2; tf_lineEnding := detectLineEnding decoded.1; tf_bom := readBom buffer |}.

Definition encodeTextPreservingFormat (text : string) (encoding : TextEncoding) (bom : string) :
    outcome app_error string :=
  let encoded := iconv_encode encoding text in
  _ ← check INVALID_ARGUMENT (bool_decide (iconv_decode encoding encoded = text));
  Ok (bom +:+ encoded).

(** ** Replacements *)

Record Replacement := {
  re_oldText : string;
  re_newText : string;
  re_expectedCount : option nat;
}.

(** The loop of [patchFile]: the text patched so far and the replacements applied. *)
Fixpoint apply_replacements (lineEnding : LineEnding) (patched : string) (applied : nat)
    (replacements : list Replacement) : outcome app_error (string * nat) :=
  match replacements with
  | [] => Ok (patched, applied)
  | r :: rest =>
      let oldText := normalizeReplacementLineEndings (re_oldText r) lineEnding in
      let newText := normalizeReplacementLineEndings (re_newText r) lineEnding in
      let actualCount := countOccurrences patched oldText in
      _ ← check INVALID_ARGUMENT (actualCount =? default 1 (re_expectedCount r));
      apply_replacements lineEnding (join_on newText (split_on oldText patched)) (applied + actualCount) rest
  end.

End text_files.

(** ** Lemmas *)

Lemma sdrop_sdrop a b s : sdrop a (sdrop b s) = sdrop (b + a) s.
Proof. revert s. induction b as [|b IH]; intros s; [done|]. destruct s as [|c s]; [by destruct a|]. apply IH. Qed.

Lemma sdrop_length n s : String.length (sdrop n s) = String.length s - n.
Proof. revert s. induction n as [|n IH]; intros [|c s]; cbn; try lia. apply IH. Qed.

Lemma sdrop_app s t : sdrop (String.length s) (s +:+ t) = t.
Proof. induction s as [|c s IH]; [by destruct t|]. exact IH. Qed.

Lemma indexOf_eq needle s :
  indexOf needle s =
  if startsWith needle s then Some 0 else match s with EmptyString => None | String _ r => S <$> indexOf needle r end.
Proof. by destruct s. Qed.

Lemma indexOf_Some needle s i :
  indexOf needle s = Some i →
  s = stake i s +:+ needle +:+ sdrop (i + String.length needle) s ∧ i + String.length needle ≤ String.length s.
Proof.
  revert i. induction s as [|c s IH]; intros i; rewrite indexOf_eq.
  - destruct (startsWith needle "") eqn:E; [|done]. intros [= <-]. apply startsWith_iff in E as (r & E).
    destruct needle; done.
  - destruct (startsWith needle (String c s)) eqn:E.
    + intros [= <-]. apply startsWith_iff in E as (r & E). rewrite E. cbn [stake]. split.
      * change (needle +:+ r = needle +:+ sdrop (String.length needle) (needle +:+ r)). by rewrite sdrop_app.
      * rewrite text_app_length. lia.
    + intros (j & Hj & ->)%fmap_Some. destruct (IH j Hj) as [Es Hl]. cbn. split; [|lia].
      rewrite Es at 1. done.
Qed.

Lemma split_fuel_enough f f' needle s :
  needle ≠ "" → String.length s ≤ f → String.length s ≤ f' → split_fuel f needle s = split_fuel f' needle s.
Proof.
  intros Hn. revert f' s. induction f as [|f IH]; intros f' s H H'.
  - destruct s; cbn in H; [|lia]. destruct f', needle; done.
  - cbn. destruct (indexOf needle s) as [i|] eqn:E.
    + pose proof (indexOf_Some _ _ _ E) as [_ Hl]. assert (0 < String.length needle) by (destruct needle; [done|cbn; lia]).
      destruct f' as [|f']; [lia|]. cbn. rewrite E. f_equal. apply IH; rewrite sdrop_length; lia.
    + destruct f'; cbn; [done|by rewrite E].
Qed.

Lemma split_ne f needle s : split_fuel f needle s ≠ [].
Proof. destruct f; cbn; [done|]. by case_match. Qed.

Lemma join_split_on needle s : needle ≠ "" → join_on needle (split_on needle s) = s.
Proof.
  intros _. unfold split_on. generalize (String.length s) as f. intros f. revert s.
  induction f as [|f IH]; intros s; [done|]. cbn. destruct (indexOf needle s) as [i|] eqn:E; [|done].
  apply indexOf_Some in E as [Es _]. specialize (IH (sdrop (i + String.length needle) s)).
  destruct (split_fuel f needle _) as [|x l] eqn:El; [by destruct (split_ne f needle (sdrop (i + String.length needle) s))|].
  unfold join_on in *. cbn [String.concat] in *. rewrite IH. by rewrite <-Es.
Qed.

Lemma count_from_split fuel f value needle offset :
  needle ≠ "" → String.length (sdrop offset value) < fuel → String.length (sdrop offset value) ≤ f →
  S (count_from fuel value needle offset) = length (split_fuel f needle (sdrop offset value)).
Proof.
  intros Hn. assert (0 < String.length needle) by (destruct needle; [done|cbn; lia]).
  revert f offset. induction fuel as [|fuel IH]; intros f offset Hf Hf'; [lia|]. cbn [count_from].
  unfold indexOf_from. destruct (indexOf needle (sdrop offset value)) as [i|] eqn:E.
  - pose proof (indexOf_Some _ _ _ E) as [_ Hl]. pose proof Hl as Hl'. rewrite sdrop_length in Hl'.
    destruct (Nat.leb_spec (offset + String.length needle) (String.length value)); [|lia]. cbn [fmap option_fmap option_map].
    destruct f as [|f]; [lia|]. cbn [split_fuel length]. rewrite E. cbn [length]. f_equal.
    rewrite sdrop_sdrop. replace (offset + i + String.length needle) with (offset + (i + String.length needle)) by lia.
    rewrite sdrop_length in *. apply IH; rewrite sdrop_length; lia.
  - destruct f as [|f]; cbn [split_fuel]; rewrite ?E; by case_match.
Qed.

(** The loop counts the occurrences that [split] cuts at. *)
Lemma countOccurrences_split value needle :
  needle ≠ "" → length (split_on needle value) = S (countOccurrences value needle).
Proof.
  intros Hn. unfold countOccurrences, split_on. symmetry.
  apply (count_from_split (S (String.length value)) (String.length value) value needle 0 Hn); cbn; lia.
Qed.

Lemma with_endings_ne ending value : ending ≠ "" → value ≠ "" → with_endings ending value ≠ "".
Proof.
  intros He Hv. destruct value as [|c r]; [done|]. cbn. repeat case_match; try done; by destruct ending.
Qed.

Lemma normalized_ne value e : value ≠ "" → normalizeReplacementLineEndings value e ≠ "".
Proof. intros Hv. destruct e; cbn; repeat apply with_endings_ne; done. Qed.

(** One text comes from another by replacing [n] occurrences of [old] with [new]. *)
Definition replaced (old new : string) (n : nat) (before after : string) : Prop :=
  ∃ pieces, length pieces = S n ∧ before = join_on old pieces ∧ after = join_on new pieces.

Inductive replacement_chain (e : LineEnding) : list Replacement → nat → string → string → Prop :=
| chain_nil s : replacement_chain e [] 0 s s
| chain_cons r rs n s s' s'' :
    replaced (normalizeReplacementLineEndings (re_oldText r) e) (normalizeReplacementLineEndings (re_newText r) e)
      (default 1 (re_expectedCount r)) s s' →
    replacement_chain e rs n s' s'' →
    replacement_chain e (r :: rs) (default 1 (re_expectedCount r) + n) s s''.

Lemma apply_replacements_chain e rs s n out total :
  Forall (λ r, re_oldText r ≠ "") rs →
  apply_replacements e s n rs = Ok (out, total) → ∃ k, total = n + k ∧ replacement_chain e rs k s out.
Proof.
  intros HF. revert s n. induction HF as [|r rs Hr HF IH]; intros s n; cbn.
  - intros [= <- <-]. exists 0. split; [lia|constructor].
  - intros (u & Hc & H)%outcome_bind_Ok. apply check_Ok, Nat.eqb_eq in Hc.
    destruct (IH _ _ H) as (k & -> & Hk). eexists. split; [|econstructor; [|exact Hk]].
    + rewrite <-Hc. lia.
    + pose proof (normalized_ne _ e Hr) as Hne. eexists. split; [|split; [|done]].
      * rewrite <-Hc. by apply countOccurrences_split.
      * symmetry. by apply join_split_on.
Qed.
