(* ===== verification/FileService.v ===== *)
(** * FileService: reading, writing and patching files of a workspace

    services/workspace-agent/src/filesystem/service.ts over [PathSecurity]: [readFile],
    [readBinaryFile], [writeFile] and [patchFile], with [atomicWriteBuffer] of
    text-file.ts.  The random part of a temporary file's name is an argument; file modes
    are not modelled. *)

From S2P Require Import Prelude Text NodePath FileTree WorkspacePolicies PathSecurity TextFiles.
From Stdlib Require Import Ascii.

Record ReadFileResult := {
  rf_path : string;
  rf_content : string;
  rf_startLine : nat;
  rf_endLine : nat;
  rf_totalLines : nat;
  rf_sizeBytes : Z;
  rf_sha256 : string;
  rf_encoding : TextEncoding;
  rf_lineEnding : LineEnding;
}.

Record WriteFileResult := { wf_path : string; wf_sizeBytes : Z; wf_created : bool }.

Record PatchFileInput := {
  pf_path : string;
  pf_expectedSha256 : string;
  pf_replacements : list Replacement;
  pf_dryRun : bool;
}.

Record PatchFileResult := {
  pr_path : string;
  pr_sha256Before : string;
  pr_sha256After : string;
  pr_lineEnding : LineEnding;
  pr_replacementsApplied : nat;
  pr_sizeBytes : Z;
  pr_changed : bool;
  pr_dryRun : bool;
}.

(** [text.split(/\r?\n/)] *)
Fixpoint split_lines (text : string) : list string :=
  match text with
  | EmptyString => [""]
  | String c r =>
      if Ascii.eqb c LF then "" :: split_lines r
      else if Ascii.eqb c CR && match r with String d _ => Ascii.eqb d LF | EmptyString => false end
           then split_lines r
      else match split_lines r with
           | h :: t => String c h :: t
           | [] => [String c ""]
           end
  end.

Definition tmp_prefix : string := ".vs-code-gpt-".
Definition temp_name (random : string) : string := tmp_prefix +:+ random +:+ ".tmp".

Section file_service.
Context {P : Platform} {O : Others} {H : TextHost}.

(** [try { m } catch (error) { await unlink(p).catch(() => undefined); throw error; }] *)
Definition or_unlink (p : string) (m : io World app_error unit) : io World app_error unit :=
  λ w, match m w with
       | (Err e, w') =>
           let w'' := next_world w' in
           (Err e, {| w_fs := default (w_fs w'') (unlink (w_fs w'') p); w_turn := w_turn w'' |})
       | r => r
       end.

(** A file's bytes, links followed. *)
Definition file_bytes (fs : Fs) (p : string) : option string :=
  match stat fs p with Some (File bytes) => Some bytes | _ => None end.

Definition readTextBuffer (absolutePath : string) (maxFileBytes : Z) : io World app_error string :=
  found ← observe (λ fs, file_bytes fs absolutePath);
  fileStat ← require_some found IO_FAILURE;
  require (negb (maxFileBytes <? byteLength fileStat)%Z) FILE_TOO_LARGE;;
  found ← observe (λ fs, file_bytes fs absolutePath);
  buffer ← require_some found IO_FAILURE;
  require (negb (is_binary buffer)) BINARY_FILE;;
  mret buffer.

Definition readTextFile (absolutePath : string) (maxFileBytes : Z) : io World app_error TextFileContents :=
  buffer ← readTextBuffer absolutePath maxFileBytes;
  mret (text_contents buffer).

Section workspace.
Context (workspace : ResolvedWorkspace).

(** [readFile]; lines are numbered from 1. *)
Definition readFile (path : string) (startLine endLine : option nat) : io World app_error ReadFileResult :=
  authorized ← authorizeExistingFileRead workspace path "read_file";
  contents ← readTextFile (ap_canonicalPath authorized) (maxFileBytes (rw_limits workspace));
  let lines := split_lines (tf_text contents) in
  let start := default 1 startLine in
  let requestedEndLine := default (length lines) endLine in
  let last := Nat.min requestedEndLine (length lines) in
  let selected := if length lines <? start then "" else
    String.concat newline (take (last - (start - 1)) (drop (start - 1) lines)) in
  mret {|
    rf_path := ap_logicalPath authorized;
    rf_content := selected;
    rf_startLine := start;
    rf_endLine := if length lines <? start then start - 1 else last;
    rf_totalLines := length lines;
    rf_sizeBytes := tf_sizeBytes contents;
    rf_sha256 := tf_sha256 contents;
    rf_encoding := tf_encoding contents;
    rf_lineEnding := tf_lineEnding contents;
  |}.

(** [readBinaryFile]; the bytes the result encodes, and their hash. *)
Definition readBinaryFile (path : string) : io World app_error (string * string * string) :=
  authorized ← authorizeExisting workspace path (Some file) false None;
  bytes ← observe (λ fs, file_bytes fs (ap_canonicalPath authorized));
  contents ← require_some bytes IO_FAILURE;
  require (negb (maxFileBytes (rw_limits workspace) <? byteLength contents)%Z) LIMIT_EXCEEDED;;
  mret (ap_logicalPath authorized, contents, hashBuffer contents).

Definition writeFile (path content random : string) : io World app_error WriteFileResult :=
  authorized ← authorizeWriteTarget workspace path;
  require (negb (maxFileBytes (rw_limits workspace) <? byteLength content)%Z) FILE_TOO_LARGE;;
  let parentDirectory := dirname (aw_absolutePath authorized) in
  change IO_FAILURE (λ fs, mkdir fs parentDirectory);;
  let tempPath := join parentDirectory (temp_name random) in
  or_unlink tempPath
    (change IO_FAILURE (λ fs, write_file fs tempPath content);;
     change IO_FAILURE (λ fs, rename fs tempPath (aw_absolutePath authorized)));;
  mret {|
    wf_path := aw_logicalPath authorized;
    wf_sizeBytes := byteLength content;
    wf_created := aw_created authorized;
  |}.

Definition atomicWriteBuffer (absolutePath content random : string) : io World app_error unit :=
  let tempPath := join (dirname absolutePath) (temp_name random) in
  or_unlink tempPath
    (existing ← observe (λ fs, stat fs absolutePath);
     _ ← require_some existing IO_FAILURE;
     change IO_FAILURE (λ fs, write_file fs tempPath content);;
     change IO_FAILURE (λ fs, rename fs tempPath absolutePath)).

Definition patchFile (input : PatchFileInput) (random : string) : io World app_error PatchFileResult :=
  authorized ← authorizeWriteTarget workspace (pf_path input);
  require (negb (aw_created authorized)) FILE_NOT_FOUND;;
  contents ← readTextFile (aw_absolutePath authorized) (maxFileBytes (rw_limits workspace));
  require (bool_decide (tf_sha256 contents = toLowerCase (pf_expectedSha256 input))) INVALID_ARGUMENT;;
  patched ← lift (apply_replacements (tf_lineEnding contents) (tf_text contents) 0 (pf_replacements input));
  output ← lift (encodeTextPreservingFormat patched.1 (tf_encoding contents) (tf_bom contents));
  require (negb (maxFileBytes (rw_limits workspace) <? byteLength output)%Z) FILE_TOO_LARGE;;
  let sha256After := hashBuffer output in
  let changed := negb (bool_decide (sha256After = tf_sha256 contents)) in
  (if negb (pf_dryRun input) && changed then atomicWriteBuffer (aw_absolutePath authorized) output random
   else mret tt);;
  mret {|
    pr_path := aw_logicalPath authorized;
    pr_sha256Before := tf_sha256 contents;
    pr_sha256After := sha256After;
    pr_lineEnding := detectLineEnding patched.1;
    pr_replacementsApplied := patched.2;
    pr_sizeBytes := byteLength output;
    pr_changed := changed;
    pr_dryRun := pf_dryRun input;
  |}.

End workspace.
End file_service.

(** ** FileServiceProps: what a write does to the files

    With nobody else writing, [writeFile] and [patchFile] leave one new file where the
    policy allows it; below a root without links, or in a directory that exists, nothing
    outside the workspace changes. *)

#[local] Existing Instance quiet.

Section writes.
Context {P : Platform} {H : TextHost}.

Lemma change_Ok (e : app_error) f (w : World) w' :
  change e f w = (Ok tt, w') → f (w_fs w) = Some (w_fs w').
Proof.
  unfold change, meanwhile. intros Hc. run_inv. change (w_fs (next_world w)) with (w_fs w) in Hc.
  destruct (f (w_fs w)); run_inv; done.
Qed.

Lemma quiet_world (w : World) : w_fs (next_world w) = w_fs w.
Proof. done. Qed.

Lemma or_unlink_Ok p m (w : World) w' : or_unlink p m w = (Ok tt, w') → m w = (Ok tt, w').
Proof. unfold or_unlink. destruct (m w) as [[[]|e] w1]; [done|]. intros [=]. Qed.

(** The parent directory of the target, as names. *)
Definition parent_of (ws : ResolvedWorkspace) (t : AuthorizedWritePath) : list string :=
  segments (rw_rootPath ws) ++ removelast (names (aw_logicalPath t)).
Definition name_of (t : AuthorizedWritePath) : string := default "" (last (names (aw_logicalPath t))).

Record write_allowed (ws : ResolvedWorkspace) (t : AuthorizedWritePath) : Prop := {
  wa_logical : relative_ok (aw_logicalPath t) ∧ aw_logicalPath t ≠ ".";
  wa_unblocked : unblocked ws false (aw_logicalPath t);
  wa_within : isWithinLogicalAllowedRoot ws (aw_logicalPath t) = true;
  wa_writable : isAllowedWritePath ws (aw_logicalPath t) = true;
  wa_native : aw_absolutePath t = toNativeAbsolute (rw_rootPath ws) (aw_logicalPath t);
}.

Lemma authorizeWriteLogical_Ok ws input l :
  authorizeWriteLogical ws input = Ok l →
  normalizeRelativePath input false = Ok l ∧ unblocked ws false l ∧ isWithinLogicalAllowedRoot ws l = true ∧
  isAllowedWritePath ws l = true.
Proof.
  unfold authorizeWriteLogical. intros (l' & Hl & Hc)%outcome_bind_Ok.
  apply outcome_bind_Ok in Hc as (? & Hb%check_Ok & Hc). apply outcome_bind_Ok in Hc as (? & Hi%check_Ok & Hc).
  apply outcome_bind_Ok in Hc as (? & Ha%check_Ok & [= ->]). split; [done|]. split; [|done].
  apply matchedBlockedPattern_None. unfold isBlocked in Hb. by destruct (matchedBlockedPattern ws l false).
Qed.

Lemma target_names ws t :
  workspace_ok ws → write_allowed ws t →
  segments (aw_absolutePath t) = parent_of ws t ++ [name_of t] ∧ normal (parent_of ws t) ∧ seg_ok (name_of t) = true ∧
  aw_absolutePath t = render (parent_of ws t ++ [name_of t]) ∧ dirname (aw_absolutePath t) = render (parent_of ws t).
Proof.
  intros Hw [[Hr Hd] _ _ _ Hn]. rewrite Hn. unfold parent_of, name_of.
  destruct Hr as [E|(segs & Hne & Hs & El)]; [done|]. rewrite El. rewrite names_join by done.
  assert (toNativeAbsolute (rw_rootPath ws) (join_slash segs) = render (segments (rw_rootPath ws) ++ segs)) as Ea.
  { unfold toNativeAbsolute. rewrite bool_decide_eq_false_2 by (by rewrite <-El).
    rewrite split_join by (done || by apply normal_no_slash). apply resolve_segments; [by apply wo_absolute|done]. }
  destruct (exists_last Hne) as (front & x & ->). rewrite removelast_last, last_snoc. cbn [default from_option id].
  apply Forall_app in Hs as Hs'. destruct Hs' as [Hf Hx]. inversion_clear Hx as [|? ? Hx' _].
  assert (normal (segments (rw_rootPath ws) ++ front ++ [x])) as Hall by (apply Forall_app_2; [apply segments_normal|done]).
  rewrite Ea, segments_render, app_assoc by done. split; [done|].
  split; [apply Forall_app_2; [apply segments_normal|done]|]. split; [done|]. split; [done|].
  unfold dirname. rewrite segments_render by (by rewrite <-app_assoc). by rewrite removelast_last.
Qed.

(** The check of a write: the target, and where its directory is if it is there. *)
Lemma authorizeWriteTarget_Ok ws input w t w' :
  workspace_ok ws → authorizeWriteTarget ws input w = (Ok t, w') →
  write_allowed ws t ∧ w_fs w' = w_fs w ∧
  (∀ d, lookup_path (w_fs w) (parent_of ws t) = Some d → canonical_root ws `prefix_of` d) ∧
  (aw_created t = false → ∃ bytes, file_bytes (w_fs w) (aw_absolutePath t) = Some bytes).
Proof.
  intros Hw Ha. unfold authorizeWriteTarget in Ha. apply bind_Ok in Ha as (l & w1 & Hl & Ha).
  apply path_lift_Ok in Hl as [Hl ->]. apply authorizeWriteLogical_Ok in Hl as (Hl & Hu & Hi & Ht).
  apply normalizeRelativePath_Ok in Hl as (Hr & Hdot & _). cbv zeta in Ha.
  apply bind_Ok in Ha as (existing & w2 & Hs & Ha). apply observe_Ok in Hs as [-> Hs].
  apply bind_Ok in Ha as (created & w3 & Hc & Ha).
  assert (w3 = next_world w ∧ (created = false → ∃ b, existing = Some (File b))) as [-> Hex].
  { destruct existing as [[]|]; path_inv; eauto; done. }
  apply bind_Ok in Ha as (resolved & w4 & Hp & Ha). apply observe_Ok in Hp as [-> Hp].
  set (t0 := {| aw_logicalPath := l; aw_absolutePath := toNativeAbsolute (rw_rootPath ws) l; aw_created := created |}) in Ha.
  assert (write_allowed ws t0) as Hwa.
  { split; try done. split; [done|]. intros E. by specialize (Hdot E). }
  pose proof (target_names ws t0 Hw Hwa) as (_ & Hpn & _ & _ & Edir).
  change (resolved = realpath (w_fs w) (dirname (aw_absolutePath t0))) in Hp.
  assert (resolved = render <$> lookup_path (w_fs w) (parent_of ws t0)) as Hlook.
  { rewrite Hp, Edir. unfold realpath. by rewrite lookup_render_path. }
  assert (∀ d, lookup_path (w_fs w) (parent_of ws t0) = Some d → resolved = Some (render d) ∧ normal d) as Hdir.
  { intros d E. rewrite Hlook, E. split; [done|]. apply lookup_canonical in E as [Hn _]; [done|]. by apply normal_no_slash. }
  assert (t = t0 ∧ w_fs w' = w_fs w ∧
    ∀ pc, resolved = Some pc → isContained cwd (rw_canonicalRootPath ws) pc = true) as (-> & Hfs & Hcont).
  { destruct resolved as [pc|]; [|destruct created; path_inv; done]. apply bind_Ok in Ha as (? & ? & Hq & Ha). path_inv.
    destruct created; path_inv; (split; [done|split; [done|]]); intros ? [= <-]; done. }
  split; [done|]. split; [done|]. split.
  - intros d Hd. destruct (Hdir d Hd) as [Er Hn]. specialize (Hcont _ Er). rewrite (wo_canonical ws Hw) in Hcont.
    apply isContained_prefix in Hcont; [done|apply canonical_root_normal|done].
  - cbn. intros E. destruct (Hex E) as (b & Eb). exists b. rewrite Eb in Hs. unfold file_bytes.
    change (stat (w_fs (next_world w))) with (stat (w_fs w)) in Hs. by rewrite <-Hs.
Qed.

(** A file put in place under a temporary name. *)
Lemma placed temp target content dir d name (w : World) w' :
  normal dir → seg_ok temp = true → seg_ok name = true → target = render (dir ++ [name]) →
  lookup_path (w_fs w) dir = Some d → is_dir (w_fs w) d = true → w_fs w !! (d ++ [temp]) = None →
  or_unlink (join (render dir) temp)
    (change IO_FAILURE (λ fs, write_file fs (join (render dir) temp) content);;
     change IO_FAILURE (λ fs, rename fs (join (render dir) temp) target)) w = (Ok tt, w') →
  w_fs w' = <[d ++ [name] := File content]> (w_fs w) ∧ w_fs w !! (d ++ [name]) ≠ Some Dir.
Proof.
  intros Hn Ht Hs -> Hd Hdir Hf Hr%or_unlink_Ok. rewrite join_render in Hr by done.
  apply bind_Ok in Hr as ([] & w1 & H1%change_Ok & H2%change_Ok).
  rewrite (write_new_file _ _ d) in H1 by done. injection H1 as H1. rewrite <-H1 in H2.
  by apply (rename_into_place _ _ d) in H2.
Qed.

(** The state of the files around a target. *)
Record write_place (ws : ResolvedWorkspace) (fs fs1 fs' : Fs) (t : AuthorizedWritePath) (d : list string)
    (content : string) : Prop := {
  wp_allowed : write_allowed ws t;
  wp_made : mkdir_all fs [] (parent_of ws t) = Some fs1;
  wp_dir : lookup_path fs1 (parent_of ws t) = Some d ∧ is_dir fs1 d = true;
  wp_target : fs1 !! (d ++ [name_of t]) ≠ Some Dir;
  wp_result : fs' = <[d ++ [name_of t] := File content]> fs1;
}.

Lemma writeFile_Ok ws path content random w res w' :
  workspace_ok ws → writeFile ws path content random w = (Ok res, w') →
  fresh_name (w_fs w) (segments (rw_rootPath ws) ++ split_slash (to_slashes path)) (temp_name random) →
  ∃ t fs1 d, write_place ws (w_fs w) fs1 (w_fs w') t d content ∧ wf_path res = aw_logicalPath t ∧
    wf_created res = aw_created t ∧
    normalizeRelativePath path false = Ok (aw_logicalPath t) ∧
    (byteLength content ≤ maxFileBytes (rw_limits ws))%Z ∧
    (∀ d0, lookup_path (w_fs w) (parent_of ws t) = Some d0 → canonical_root ws `prefix_of` d0).
Proof.
  intros Hw Hr Hfresh. unfold writeFile in Hr. apply bind_Ok in Hr as (t & w1 & Ha & Hr).
  assert (normalizeRelativePath path false = Ok (aw_logicalPath t)) as Hnorm.
  { unfold authorizeWriteTarget in Ha. apply bind_Ok in Ha as (l & w2 & Hl & Ha).
    apply path_lift_Ok in Hl as [Hl ->]. apply authorizeWriteLogical_Ok in Hl as (Hl & _). cbv zeta in Ha.
    repeat (apply bind_Ok in Ha as (? & ? & ? & Ha)). repeat (case_match; path_inv); done. }
  pose proof (authorizeWriteTarget_Ok _ _ _ _ _ Hw Ha) as (Hwa & Hfs & Hin & _).
  pose proof (target_names ws t Hw Hwa) as (_ & Hpn & Hname & Habs & Edir).
  apply bind_Ok in Hr as ([] & w2 & Hmax & Hr). apply require_Ok in Hmax as [Hmax <-]. cbv zeta in Hr.
  apply bind_Ok in Hr as ([] & w3 & Hmk%change_Ok & Hr). rewrite Edir in *. rewrite Hfs in Hmk.
  unfold mkdir in Hmk. rewrite segments_render in Hmk by done.
  apply bind_Ok in Hr as ([] & w4 & Hpl & Hr). run_inv.
  destruct (mkdir_all_dir _ [] _ _ Hpn ltac:(by exists []) Hmk) as (d & Hd & Hdir).
  assert (fresh_name (w_fs w) (parent_of ws t) (temp_name random)) as Hfresh'.
  { destruct Hfresh as [F1 F2 F3]. split; [done..|]. intros Hin'. apply F3. unfold parent_of in Hin'.
    apply elem_of_app in Hin' as [?|Hx]; apply elem_of_app; [by left|right].
    apply normalizeRelativePath_Ok in Hnorm as (_ & _ & En). rewrite En in Hx.
    apply elem_of_removelast, elem_of_rows_filter in Hx. tauto. }
  eapply placed in Hpl as [Hpl Hnd]; [|exact Hpn|apply Hfresh|exact Hname|exact Habs|exact Hd|exact Hdir|
    by eapply fresh_after_mkdir].
  exists t, (w_fs w3), d. split; [by split|]. repeat split; try done. bool_inv. lia.
Qed.

(** What a write leaves of the files. *)
Record confined (r : list string) (fs fs' : Fs) (target : list string) (content : string) : Prop := {
  cf_inside : r `prefix_of` target;
  cf_outside : same_outside r fs fs';
  cf_written : fs' !! target = Some (File content);
  cf_kept : ∀ p n, p ≠ target → fs !! p = Some n → fs' !! p = Some n;
  cf_new : ∀ p n, p ≠ target → fs' !! p = Some n → fs !! p = Some n ∨ n = Dir;
}.

Lemma confined_insert r fs fs1 target content :
  r `prefix_of` target → same_outside r fs fs1 → (∀ p n, fs !! p = Some n → fs1 !! p = Some n) →
  (∀ p n, fs1 !! p = Some n → fs !! p = Some n ∨ n = Dir) →
  confined r fs (<[target := File content]> fs1) target content.
Proof.
  intros Hr Ho Hk Hn. split; [done| |apply lookup_insert_eq| |].
  - eapply same_outside_trans; [exact Ho|]. by apply same_outside_insert.
  - intros p n Hne Hp. rewrite lookup_insert_ne by done. auto.
  - intros p n Hne. rewrite lookup_insert_ne by done. auto.
Qed.

(** The workspace root is where the registry found it. *)
Definition root_in_place (ws : ResolvedWorkspace) (fs : Fs) : Prop :=
  lookup_path fs (segments (rw_rootPath ws)) = Some (canonical_root ws) ∧ is_dir fs (canonical_root ws) = true.

Lemma write_place_existing ws fs fs1 fs' t d d0 content :
  write_place ws fs fs1 fs' t d content → lookup_path fs (parent_of ws t) = Some d0 → canonical_root ws `prefix_of` d0 →
  confined (canonical_root ws) fs fs' (d ++ [name_of t]) content.
Proof.
  intros [_ Hm [Hd _] _ ->] Hd0 Hr. apply (mkdir_all_exists _ [] _ d0) in Hm as ->; [|done].
  rewrite Hd0 in Hd. injection Hd as ->. apply confined_insert; auto. by apply prefix_app_r. by intros p.
Qed.

Lemma write_place_linkless ws fs fs1 fs' t d content :
  workspace_ok ws → write_place ws fs fs1 fs' t d content → root_in_place ws fs → linkless fs (canonical_root ws) →
  confined (canonical_root ws) fs fs' (canonical_root ws ++ names (aw_logicalPath t)) content ∧
  file_bytes fs' (aw_absolutePath t) = Some content.
Proof.
  intros Hw [Ha Hm [Hd Hdir] Hnd ->] [Hroot Hrd] Hl.
  pose proof (target_names ws t Hw Ha) as (_ & Hpn & Hname & Habs & _). unfold parent_of in Hm, Hpn.
  assert (directories fs [] (canonical_root ws)) as Hdirs.
  { apply canonical_directories; [|done]. eapply lookup_canonical; [|exact Hroot]. apply normal_no_slash, segments_normal. }
  rewrite (mkdir_all_existing _ [] _ _ _ Hroot Hdirs) in Hm. apply Forall_app in Hpn as Hpn'. destruct Hpn' as [_ Hrest].
  eapply mkdir_all_below in Hm; [|done|exact Hroot|done|done|done].
  destruct Hm as [Mo Ml Mlook Mdir Mk Mf]. cbn [app] in *.
  fold (parent_of ws t) in *. rewrite Mlook in Hd. injection Hd as <-.
  assert ((canonical_root ws ++ removelast (names (aw_logicalPath t))) ++ [name_of t] =
    canonical_root ws ++ names (aw_logicalPath t)) as E.
  { rewrite <-app_assoc. f_equal. unfold name_of. destruct (wa_logical _ _ Ha) as [Hr Hdot].
    destruct Hr as [Hr|(segs & Hne & Hs & ->)]; [done|]. rewrite names_join by done.
    destruct (exists_last Hne) as (front & x & ->). by rewrite removelast_last, last_snoc. }
  split.
  - rewrite <-E. apply confined_insert; auto. rewrite E. by eexists.
  - unfold file_bytes. rewrite Habs, (stat_placed fs1); [done..|]. intros m Hm. split; [congruence|].
    intros x ->. eapply Ml; [exact Hm|]. rewrite E. by eexists.
Qed.

(** ** Patches *)

Lemma change_Err (e e' : app_error) f (w : World) w' :
  change e f w = (Err e', w') → f (w_fs w) = None ∧ w_fs w' = w_fs w.
Proof.
  unfold change, meanwhile, mbind, io_bind, modify, gets, throw. intros Hc.
  change (w_fs (next_world w)) with (w_fs w) in Hc. destruct (f (w_fs w)); [done|]. by injection Hc as _ <-.
Qed.

(** A failed attempt leaves nothing behind. *)
Lemma not_placed temp target content dir d name (w : World) e w' :
  normal dir → seg_ok temp = true → seg_ok name = true → target = render (dir ++ [name]) →
  lookup_path (w_fs w) dir = Some d → is_dir (w_fs w) d = true → w_fs w !! (d ++ [temp]) = None →
  or_unlink (join (render dir) temp)
    (change IO_FAILURE (λ fs, write_file fs (join (render dir) temp) content);;
     change IO_FAILURE (λ fs, rename fs (join (render dir) temp) target)) w = (Err e, w') →
  w_fs w' = w_fs w.
Proof.
  intros Hn Ht Hs -> Hd Hdir Hf Hr. rewrite join_render in Hr by done. unfold or_unlink in Hr.
  match type of Hr with context [match ?m w with _ => _ end] => destruct (m w) as [[u|e'] w1] eqn:Em end; [done|].
  injection Hr as <- <-. cbn [w_fs next_world]. change (others (w_turn w1) (w_fs w1)) with (w_fs w1).
  apply bind_Err_inv in Em as [Em|([] & w2 & H1 & Em)]; apply change_Err in Em as [Em Ew]; rewrite Ew.
  - by rewrite (unlink_missing _ _ d).
  - apply change_Ok in H1. rewrite (write_new_file _ _ d) in H1 by done. injection H1 as <-.
    by rewrite (unlink_new _ _ d).
Qed.

Lemma atomicWriteBuffer_run target content random (w : World) n :
  stat (w_fs w) target = Some n →
  atomicWriteBuffer target content random w =
  or_unlink (join (dirname target) (temp_name random))
    (change IO_FAILURE (λ fs, write_file fs (join (dirname target) (temp_name random)) content);;
     change IO_FAILURE (λ fs, rename fs (join (dirname target) (temp_name random)) target)) (next_world w).
Proof.
  intros Hs. unfold atomicWriteBuffer, or_unlink. rewrite (bind_run _ _ _ _ _ (observe_run _ _)).
  by rewrite (bind_run _ _ _ n (next_world w)) by by apply require_some_run.
Qed.

Lemma readTextFile_Ok target max (w : World) c w' :
  readTextFile target max w = (Ok c, w') →
  w_fs w' = w_fs w ∧ ∃ buffer, file_bytes (w_fs w) target = Some buffer ∧ c = text_contents buffer.
Proof. unfold readTextFile, readTextBuffer. intros Hr. path_inv. split; [done|]. eauto. Qed.

(** What a patch that succeeds has read, and what it would write. *)
Record patch_of (ws : ResolvedWorkspace) (input : PatchFileInput) (fs : Fs) (t : AuthorizedWritePath)
    (buffer patched output : string) (res : PatchFileResult) : Prop := {
  po_allowed : write_allowed ws t;
  po_read : file_bytes fs (aw_absolutePath t) = Some buffer;
  po_expected : hashBuffer buffer = toLowerCase (pf_expectedSha256 input);
  po_chain : replacement_chain (tf_lineEnding (text_contents buffer)) (pf_replacements input)
    (pr_replacementsApplied res) (tf_text (text_contents buffer)) patched;
  po_output : output = readBom buffer +:+ iconv_encode (tf_encoding (text_contents buffer)) patched;
  po_encoding : iconv_decode (tf_encoding (text_contents buffer)) (iconv_encode (tf_encoding (text_contents buffer)) patched) = patched;
  po_size : (byteLength output ≤ maxFileBytes (rw_limits ws))%Z;
  po_hash : pr_sha256Before res = hashBuffer buffer ∧ pr_sha256After res = hashBuffer output;
  po_changed : pr_changed res = negb (bool_decide (hashBuffer output = hashBuffer buffer));
}.

(** The target of a patch is in a directory of the workspace. *)
Lemma target_dir ws t fs bytes :
  workspace_ok ws → write_allowed ws t → file_bytes fs (aw_absolutePath t) = Some bytes →
  ∃ d, lookup_path fs (parent_of ws t) = Some d ∧ is_dir fs d = true.
Proof.
  intros Hw Ha Hf. pose proof (target_names ws t Hw Ha) as (_ & Hpn & Hname & Habs & _).
  unfold file_bytes, stat in Hf. rewrite Habs, lookup_render_path in Hf by (apply Forall_app_2; [done|by repeat constructor]).
  destruct (lookup_path fs _) as [q|] eqn:Eq; [|done]. apply walk_parent in Eq as (d & Hd & Hdirs); [|done].
  exists d. split; [done|]. by apply directories_is_dir.
Qed.

Lemma patchFile_Ok ws input random w res w' :
  workspace_ok ws → Forall (λ r, re_oldText r ≠ "") (pf_replacements input) →
  (∀ d, w_fs w !! (d ++ [temp_name random]) = None) → seg_ok (temp_name random) = true →
  patchFile ws input random w = (Ok res, w') →
  ∃ t buffer patched output d, patch_of ws input (w_fs w) t buffer patched output res ∧
    lookup_path (w_fs w) (parent_of ws t) = Some d ∧ canonical_root ws `prefix_of` d ∧
    w_fs w' = (if negb (pf_dryRun input) && pr_changed res then <[d ++ [name_of t] := File output]> (w_fs w) else w_fs w).
Proof.
  intros Hw Hne Hfresh Htemp Hr. unfold patchFile in Hr. apply bind_Ok in Hr as (t & w1 & Ha & Hr).
  apply (authorizeWriteTarget_Ok _ _ _ _ _ Hw) in Ha as (Hwa & Hfs & Hin & _).
  apply bind_Ok in Hr as ([] & ? & [_ <-]%require_Ok & Hr).
  apply bind_Ok in Hr as (c & w2 & (Hfs2 & buffer & Hb & ->)%readTextFile_Ok & Hr). rewrite Hfs in Hfs2, Hb.
  apply bind_Ok in Hr as ([] & ? & [Hsha <-]%require_Ok & Hr).
  apply bind_Ok in Hr as ([patched n] & ? & [Hp ->]%path_lift_Ok & Hr).
  apply bind_Ok in Hr as (output & ? & [Ho ->]%path_lift_Ok & Hr).
  apply bind_Ok in Hr as ([] & ? & [Hmax <-]%require_Ok & Hr). cbv zeta in Hr.
  apply bind_Ok in Hr as ([] & w3 & Hwr & Hr). run_inv. bool_inv.
  apply apply_replacements_chain in Hp as (k & -> & Hchain); [|done].
  apply outcome_bind_Ok in Ho as (? & Henc%check_Ok & [= <-]). bool_inv. cbn [fst] in *.
  destruct (target_dir _ _ _ _ Hw Hwa Hb) as (d & Hd & Hdir).
  eexists t, buffer, patched, _, d. split; [|split; [done|split; [by apply Hin|]]].
  - split; try done. by apply Z.ltb_ge.
  - cbn [pr_changed]. destruct (negb (pf_dryRun input) && _) eqn:Ec; [|run_inv; congruence].
    pose proof (target_names ws t Hw Hwa) as (_ & Hpn & Hname & Habs & Edir).
    assert (∃ n, stat (w_fs w2) (aw_absolutePath t) = Some n) as (m & Hm).
    { rewrite Hfs2. unfold file_bytes in Hb. destruct (stat _ _); [eauto|done]. }
    rewrite (atomicWriteBuffer_run _ _ _ _ _ Hm), Edir in Hwr.
    eapply placed in Hwr as [-> _]; [..|exact Hpn|done|exact Hname|exact Habs| | |];
      change (w_fs (next_world w2)) with (w_fs w2); rewrite Hfs2; done.
Qed.

(** ** Failures *)

(** A program that leaves the files alone. *)
Definition reads {A} (m : io World app_error A) : Prop := ∀ w, w_fs (m w).2 = w_fs w.

Lemma reads_bind {A B} (m : io World app_error A) (k : A → io World app_error B) :
  reads m → (∀ a, reads (k a)) → reads (m ≫= k).
Proof.
  intros Hm Hk w. specialize (Hm w). unfold mbind, io_bind. destruct (m w) as [[a|e] w1]; [|done].
  cbn in Hm. by rewrite (Hk a w1).
Qed.

Lemma reads_ret {A} (a : A) : reads (mret a).
Proof. done. Qed.
Lemma reads_throw {A} e : reads (throw (A := A) e).
Proof. done. Qed.
Lemma reads_require b e : reads (require b e).
Proof. by destruct b. Qed.
Lemma reads_require_some {A} (o : option A) e : reads (require_some o e).
Proof. by destruct o. Qed.
Lemma reads_lift {A} (m : outcome app_error A) : reads (lift m).
Proof. by destruct m. Qed.
Lemma reads_observe {A} (f : Fs → A) : reads (observe f).
Proof. done. Qed.

Ltac reads_tac :=
  repeat first
    [ apply reads_observe | apply reads_lift | apply reads_require | apply reads_require_some
    | apply reads_bind; [|intros ?] | apply reads_ret | apply reads_throw | progress cbv zeta
    | match goal with |- reads (match ?x with _ => _ end) => destruct x end ].

Lemma reads_authorizeWriteTarget ws path : reads (authorizeWriteTarget ws path).
Proof. unfold authorizeWriteTarget. reads_tac. Qed.

Lemma reads_readTextFile target max : reads (readTextFile target max).
Proof. unfold readTextFile, readTextBuffer. reads_tac. Qed.

Lemma reads_run {A} (m : io World app_error A) w r w' : reads m → m w = (r, w') → w_fs w' = w_fs w.
Proof. intros Hm Hr. specialize (Hm w). by rewrite Hr in Hm. Qed.

(** A patch that fails has changed nothing. *)
Lemma patchFile_Err ws input random w e w' :
  workspace_ok ws → (∀ d, w_fs w !! (d ++ [temp_name random]) = None) → seg_ok (temp_name random) = true →
  patchFile ws input random w = (Err e, w') → w_fs w' = w_fs w.
Proof.
  intros Hw Hfresh Htemp Hr. unfold patchFile in Hr.
  apply bind_Err_inv in Hr as [Hr|(t & w1 & Ha & Hr)].
  { eapply reads_run; [apply reads_authorizeWriteTarget|exact Hr]. }
  apply (authorizeWriteTarget_Ok _ _ _ _ _ Hw) in Ha as (Hwa & Hfs & _ & _). rewrite <-Hfs in *.
  apply bind_Err_inv in Hr as [(_ & _ & <-)%require_Err|([] & ? & [_ <-]%require_Ok & Hr)]; [done|].
  apply bind_Err_inv in Hr as [Hr|(c & w2 & (Hfs2 & buffer & Hb & ->)%readTextFile_Ok & Hr)].
  { eapply reads_run; [apply reads_readTextFile|exact Hr]. }
  rewrite <-Hfs2 in *.
  do 4 (apply bind_Err_inv in Hr as [Hr|(? & ? & Hok & Hr)];
    [eapply reads_run; [|exact Hr]; reads_tac|first [apply require_Ok in Hok as [_ <-]|apply path_lift_Ok in Hok as [_ ->]]]).
  cbv zeta in Hr. apply bind_Err_inv in Hr as [Hr|(? & ? & _ & Hr)]; [|done].
  destruct (negb (pf_dryRun input) && _); [|done].
  destruct (target_dir _ _ _ _ Hw Hwa Hb) as (d & Hd & Hdir).
  pose proof (target_names ws t Hw Hwa) as (_ & Hpn & Hname & Habs & Edir).
  assert (∃ n, stat (w_fs w2) (aw_absolutePath t) = Some n) as (m & Hm).
  { unfold file_bytes in Hb. destruct (stat _ _); [eauto|done]. }
  rewrite (atomicWriteBuffer_run _ _ _ _ _ Hm), Edir in Hr.
  by eapply not_placed in Hr; [..|exact Hpn|done|exact Hname|exact Habs|exact Hd|exact Hdir|apply Hfresh].
Qed.

End writes.
