(* ===== verification/Discovery.v ===== *)
(** * Discovery: listing the files of a workspace

    services/workspace-agent/src/filesystem/discovery.ts: the recursive walk under its
    budgets of directories, entries and time.  The files do not change during a listing.
    [DirectoryHost] is what the code takes from its host: the order in which a directory is
    read, the collation of [localeCompare], and what each look at the clock and at the abort
    signal says. *)

From S2P Require Import Prelude Text NodePath FileTree WorkspacePolicies PathSecurity.
From Stdlib Require Import Ascii.

Class DirectoryHost := {
  listing : Fs → list string → list (string * node);
  collates_before : string → string → bool;
  deadline_passed : nat → bool;
  signal_aborted : nat → bool;
}.

Record FileCandidate := { fc_logicalPath : string; fc_absolutePath : string }.

Definition MAX_DISCOVERY_DIRECTORIES : Z := 4096.
Definition MAX_DISCOVERY_ENTRIES : Z := 50000.

Definition IMPLICIT_OPERATIONAL_DIRECTORIES : list string := [".runtime-tools"; "releases"; "runtime"].

(** The budget, the files collected so far, in the order they were added, and the number of
    looks at the clock and the signal. *)
Record walk_state := {
  directoriesVisited : Z;
  entriesScanned : Z;
  exhausted : bool;
  collected : list FileCandidate;
  over_limit : bool;
  looks : nat;
}.

Definition set_exhausted (s : walk_state) : walk_state :=
  {| directoriesVisited := directoriesVisited s; entriesScanned := entriesScanned s; exhausted := true;
     collected := collected s; over_limit := over_limit s; looks := looks s |}.
Definition set_over_limit (s : walk_state) : walk_state :=
  {| directoriesVisited := directoriesVisited s; entriesScanned := entriesScanned s; exhausted := exhausted s;
     collected := collected s; over_limit := true; looks := looks s |}.
Definition visit_directory (s : walk_state) : walk_state :=
  {| directoriesVisited := directoriesVisited s + 1; entriesScanned := entriesScanned s; exhausted := exhausted s;
     collected := collected s; over_limit := over_limit s; looks := looks s |}.
Definition scan_entry (s : walk_state) : walk_state :=
  {| directoriesVisited := directoriesVisited s; entriesScanned := entriesScanned s + 1; exhausted := exhausted s;
     collected := collected s; over_limit := over_limit s; looks := looks s |}.
Definition collect_file (c : FileCandidate) (s : walk_state) : walk_state :=
  {| directoriesVisited := directoriesVisited s; entriesScanned := entriesScanned s; exhausted := exhausted s;
     collected := collected s ++ [c]; over_limit := over_limit s; looks := looks s |}.
Definition look (s : walk_state) : walk_state :=
  {| directoriesVisited := directoriesVisited s; entriesScanned := entriesScanned s; exhausted := exhausted s;
     collected := collected s; over_limit := over_limit s; looks := S (looks s) |}.

Notation walking A := (io walk_state app_error A).

Section discovery.
Context {P : Platform} {D : DirectoryHost} (fs : Fs) (workspace : ResolvedWorkspace).

Definition throwIfAborted : walking unit :=
  n ← gets looks; modify look;; require (negb (signal_aborted n)) OPERATION_CANCELLED.

Definition discoveryDeadlineReached : walking bool :=
  n ← gets looks; modify look;;
  if deadline_passed n then modify set_exhausted;; mret true else mret false.

Definition max_directories : Z := default MAX_DISCOVERY_DIRECTORIES (maxDiscoveryDirectories (rw_limits workspace)).
Definition max_entries : Z := default MAX_DISCOVERY_ENTRIES (maxDiscoveryEntries (rw_limits workspace)).

(** ** Reading one directory *)

(** The loop of [readDirectoryEntriesBounded] over what the directory still has. *)
Fixpoint read_entries (rest : list (string * node)) (entries : list (string * node)) :
    walking (list (string * node)) :=
  throwIfAborted;;
  late ← discoveryDeadlineReached;
  if late : bool then mret entries
  else
    scanned ← gets entriesScanned;
    if (max_entries <=? scanned)%Z then modify set_exhausted;; mret entries
    else
      throwIfAborted;;
      match rest with
      | [] => mret entries
      | entry :: rest => modify scan_entry;; read_entries rest (entries ++ [entry])
      end.

Definition name_before (a b : string * node) : bool := collates_before a.1 b.1.

Definition readDirectoryEntriesBounded (absoluteDirectory : string) : walking (list (string * node)) :=
  throwIfAborted;;
  scanned ← gets entriesScanned;
  if (max_entries <=? scanned)%Z then modify set_exhausted;; mret []
  else
    match lookup_path fs (split_slash absoluteDirectory) with
    | Some d =>
        if is_dir fs d then
          entries ← read_entries (listing fs d) [];
          mret (order_by name_before entries)
        else throw IO_FAILURE
    | None => throw IO_FAILURE
    end.

(** ** The walk *)

(** [addFile] of [collectAuthorizedFiles] *)
Definition addFile (glob : option string) (candidate : FileCandidate) : walking bool :=
  if match glob with Some g => negb (minimatch g (fc_logicalPath candidate)) | None => false end then mret true
  else
    files ← gets collected;
    if bool_decide (fc_logicalPath candidate ∈ map fc_logicalPath files) then mret true
    else if (maxListedFiles (rw_limits workspace) <=? Z.of_nat (length files))%Z then modify set_over_limit;; mret false
    else modify (collect_file candidate);; mret true.

Definition child_path (logicalDirectory name : string) : string :=
  if bool_decide (logicalDirectory = ".") then name else logicalDirectory +:+ "/" +:+ name.

Definition normalizeDirectoryName (name : string) : string := if isWindows then toLowerCase name else name.

Definition operational (name : string) : bool :=
  bool_decide (normalizeDirectoryName name ∈ IMPLICIT_OPERATIONAL_DIRECTORIES).

Definition isDirectory (n : node) : bool := match n with Dir => true | _ => false end.

(** One iteration of the loop of [walkDirectory]: false when the walk stops. *)
Definition visit_entry (walk : string → string → walking bool) (glob : option string) (skip : bool)
    (absoluteDirectory logicalDirectory : string) (entry : string * node) : walking bool :=
  let logicalPath := child_path logicalDirectory entry.1 in
  if skip && bool_decide (logicalDirectory = ".") && isDirectory entry.2 && operational entry.1 then mret true
  else if isDirectory entry.2 && isSubtreeBlocked workspace logicalPath then mret true
  else
    match authorizeLogical workspace logicalPath false None false with
    | Err (BLOCKED_PATH _) | Err PATH_OUTSIDE_ALLOWED_ROOTS => mret true
    | Err e => throw e
    | Ok _ =>
        match entry.2 with
        | Link _ | Special => mret true
        | Dir =>
            spent ← gets exhausted;
            if spent : bool then mret true else walk (join absoluteDirectory entry.1) logicalPath
        | File _ =>
            addFile glob {| fc_logicalPath := logicalPath; fc_absolutePath := join absoluteDirectory entry.1 |}
        end
    end.

Fixpoint visit_entries (visit : string * node → walking bool) (entries : list (string * node)) : walking bool :=
  match entries with
  | [] => spent ← gets exhausted; mret (negb spent)
  | entry :: entries =>
      throwIfAborted;;
      late ← discoveryDeadlineReached;
      if late : bool then mret false
      else
        go_on ← visit entry;
        if go_on : bool then visit_entries visit entries else mret false
  end.

(** [walkDirectory]; the depth of the recursion is bounded by the directory budget. *)
Fixpoint walkDirectory (fuel : nat) (glob : option string) (skip : bool)
    (absoluteDirectory logicalDirectory : string) : walking bool :=
  match fuel with
  | 0 => throw OUT_OF_FUEL
  | S fuel =>
      throwIfAborted;;
      late ← discoveryDeadlineReached;
      if late : bool then mret false
      else
        visited ← gets directoriesVisited;
        if (max_directories <=? visited)%Z then modify set_exhausted;; mret false
        else
          modify visit_directory;;
          entries ← readDirectoryEntriesBounded absoluteDirectory;
          visit_entries
            (visit_entry (walkDirectory fuel glob skip) glob skip absoluteDirectory logicalDirectory) entries
  end.

Definition walk_fuel : nat := S (Z.to_nat max_directories).

(** The loop of [collectAuthorizedFiles] over the roots. *)
Fixpoint scan_roots (glob : option string) (skip : bool) (roots : list ResolvedAllowedRoot) : walking unit :=
  match roots with
  | [] => mret tt
  | scanRoot :: roots =>
      throwIfAborted;;
      late ← discoveryDeadlineReached;
      if late : bool then modify set_over_limit
      else
        match ar_kind scanRoot with
        | file =>
            (if isBlocked workspace (ar_logicalPath scanRoot) then mret true
             else addFile glob {| fc_logicalPath := ar_logicalPath scanRoot;
                                  fc_absolutePath := ar_canonicalPath scanRoot |});;
            scan_roots glob skip roots
        | directory =>
            match lstat fs (ar_absolutePath scanRoot) with
            | None => throw IO_FAILURE
            | Some rootStat =>
                throwIfAborted;;
                match rootStat with
                | Link _ => scan_roots glob skip roots
                | _ =>
                    shouldContinue ← walkDirectory walk_fuel glob skip (ar_absolutePath scanRoot) (ar_logicalPath scanRoot);
                    if shouldContinue : bool then scan_roots glob skip roots else modify set_over_limit
                end
            end
        end
  end.

Definition new_walk : walk_state :=
  {| directoriesVisited := 0; entriesScanned := 0; exhausted := false; collected := []; over_limit := false; looks := 0 |}.

(** [normalizeRequestedRoot] *)
Definition normalizeRequestedRoot (root : option string) : option string :=
  match root with
  | None => None
  | Some root => if bool_decide (normalize (to_slashes root) = ".") then None else Some root
  end.

Definition candidate_before (a b : FileCandidate) : bool := collates_before (fc_logicalPath a) (fc_logicalPath b).

(** The roots to scan: the requested one, through [resolveRequestedScanRoot], or the allowed
    ones.  The check of the requested root sees the same files. *)
Definition scan_roots_of (requestedRoot : option string) : outcome app_error (list ResolvedAllowedRoot) :=
  match requestedRoot with
  | None => Ok (rw_allowedRoots workspace)
  | Some r =>
      match (authorizeExisting (O := quiet) workspace r None true None {| w_fs := fs; w_turn := 0 |}).1 with
      | Ok a => Ok [{| ar_logicalPath := ap_logicalPath a; ar_absolutePath := ap_absolutePath a;
                       ar_canonicalPath := ap_canonicalPath a; ar_kind := ap_kind a |}]
      | Err e => Err e
      end
  end.

(** [collectAuthorizedFiles]: the candidates and whether the listing is truncated. *)
Definition collectAuthorizedFiles (root glob : option string) : walking (list FileCandidate * bool) :=
  throwIfAborted;;
  let requestedRoot := normalizeRequestedRoot root in
  require (negb (bool_decide (rw_workspaceKind workspace = aggregate) && bool_decide (requestedRoot = None)))
    INVALID_ARGUMENT;;
  scanRoots ← (match scan_roots_of requestedRoot with Ok roots => mret roots | Err e => throw e end);
  throwIfAborted;;
  scan_roots glob (bool_decide (requestedRoot = None)) scanRoots;;
  throwIfAborted;;
  files ← gets collected;
  truncated ← gets (λ s, over_limit s || exhausted s);
  mret (order_by candidate_before files, truncated).

(** ** The roots of an aggregate workspace *)

(** The loop of [listAuthorizedWorkspaceRoots]: the names so far and whether the list is cut. *)
Fixpoint list_roots (entries : list (string * node)) (roots : list string) (truncated : bool) :
    walking (list string * bool) :=
  match entries with
  | [] => mret (roots, truncated)
  | (name, n) :: entries =>
      throwIfAborted;;
      late ← discoveryDeadlineReached;
      if late : bool then mret (roots, true)
      else if negb (isDirectory n) || operational name || isSubtreeBlocked workspace name
      then list_roots entries roots truncated
      else
        match authorizeLogical workspace name false None false with
        | Err (BLOCKED_PATH _) | Err PATH_OUTSIDE_ALLOWED_ROOTS => list_roots entries roots truncated
        | Err e => throw e
        | Ok _ =>
            if (maxListedFiles (rw_limits workspace) <=? Z.of_nat (length roots))%Z then mret (roots, true)
            else list_roots entries (roots ++ [name]) truncated
        end
  end.

Definition listAuthorizedWorkspaceRoots : walking (list string * bool) :=
  throwIfAborted;;
  entries ← readDirectoryEntriesBounded (rw_canonicalRootPath workspace);
  truncated ← gets exhausted;
  listed ← list_roots entries [] truncated;
  mret (order_by collates_before listed.1, listed.2).

End discovery.

(** ** DiscoveryProps: what a listing contains

    The walk stays within its budgets, adds only entries that the policy allows and that are
    reached without following a link, and, when it reports that nothing was cut off, all of
    them. *)

Section discovery.
Context {P : Platform} {D : DirectoryHost} (fs : Fs) (ws : ResolvedWorkspace).

Definition passes (logicalPath : string) : Prop := ∃ l, authorizeLogical ws logicalPath false None false = Ok l.

(** A file below the directory [d], whose logical path is [l]: the logical path of the file and
    its place. *)
Inductive listed (skip : bool) : list string → string → string → list string → Prop :=
| listed_here d l name bytes :
    fs !! (d ++ [name]) = Some (File bytes) → passes (child_path l name) →
    listed skip d l (child_path l name) (d ++ [name])
| listed_below d l name lp q :
    fs !! (d ++ [name]) = Some Dir → skip && bool_decide (l = ".") && operational name = false →
    isSubtreeBlocked ws (child_path l name) = false → passes (child_path l name) →
    listed skip (d ++ [name]) (child_path l name) lp q → listed skip d l lp q.

(** ** What a step of the walk may do *)

Record step_ok (Q : FileCandidate → Prop) (s s' : walk_state) : Prop := {
  so_dirs : (directoriesVisited s ≤ directoriesVisited s')%Z;
  so_dirs_max : (directoriesVisited s ≤ max_directories ws → directoriesVisited s' ≤ max_directories ws)%Z;
  so_entries_max : (entriesScanned s ≤ max_entries ws → entriesScanned s' ≤ max_entries ws)%Z;
  so_exhausted : exhausted s = true → exhausted s' = true;
  so_over : over_limit s = true → over_limit s' = true;
  so_new : ∃ new, collected s' = collected s ++ new ∧ Forall Q new;
  so_nodup : NoDup (map fc_logicalPath (collected s)) → NoDup (map fc_logicalPath (collected s'));
  so_limit : (Z.of_nat (length (collected s)) ≤ maxListedFiles (rw_limits ws) →
              Z.of_nat (length (collected s')) ≤ maxListedFiles (rw_limits ws))%Z;
}.

#[global] Instance step_ok_po Q : PreOrder (step_ok Q).
Proof.
  split.
  - intros s. split; auto; [lia|]. exists []. by rewrite app_nil_r.
  - intros s1 s2 s3 [] []. split; auto; [lia|]. destruct so_new0 as (n1 & E1 & H1), so_new1 as (n2 & E2 & H2).
    exists (n1 ++ n2). rewrite E2, E1, app_assoc. split; [done|]. by apply Forall_app_2.
Qed.

Definition does {A} (Q : FileCandidate → Prop) (m : walking A) : Prop := ∀ s, step_ok Q s (m s).2.

Lemma does_run {A} Q (m : walking A) s r s' : does Q m → m s = (r, s') → step_ok Q s s'.
Proof. intros Hm Hr. specialize (Hm s). by rewrite Hr in Hm. Qed.

Lemma walk_bind {A B} Q (m : walking A) (k : A → walking B) : does Q m → (∀ a, does Q (k a)) → does Q (m ≫= k).
Proof.
  intros Hm Hk s. specialize (Hm s). unfold mbind, io_bind. destruct (m s) as [[a|e] s1]; [|done].
  etrans; [exact Hm|apply Hk].
Qed.

Lemma walk_ret {A} Q (a : A) : does Q (mret a).
Proof. intros s. done. Qed.
Lemma walk_gets {A} Q (f : walk_state → A) : does Q (gets f).
Proof. intros s. done. Qed.
Lemma walk_throw {A} Q e : does Q (throw (A := A) e).
Proof. intros s. done. Qed.
Lemma walk_require Q b e : does Q (require b e).
Proof. intros s. by destruct b. Qed.

Lemma does_modify Q f :
  (∀ s, directoriesVisited (f s) = directoriesVisited s ∧ entriesScanned (f s) = entriesScanned s ∧
        collected (f s) = collected s ∧ (exhausted s = true → exhausted (f s) = true) ∧
        (over_limit s = true → over_limit (f s) = true)) → does Q (modify f).
Proof.
  intros Hf s. destruct (Hf s) as (E1 & E2 & E3 & H1 & H2). cbn. split; rewrite ?E1, ?E2, ?E3; auto; [lia|].
  exists []. by rewrite app_nil_r.
Qed.

Ltac does_tac :=
  repeat first
    [ apply walk_ret | apply walk_gets | apply walk_throw | apply walk_require
    | apply does_modify; intros ?; cbn; tauto
    | apply walk_bind; [|intros ?]
    | match goal with |- does _ (match ?x with _ => _ end) => destruct x end ].

Lemma does_aborted Q : does Q throwIfAborted.
Proof. unfold throwIfAborted. does_tac. Qed.
Lemma does_deadline Q : does Q discoveryDeadlineReached.
Proof. unfold discoveryDeadlineReached. does_tac. Qed.

(** A counted step, taken below its bound. *)
Lemma does_visit Q s :
  (max_directories ws <=? directoriesVisited s)%Z = false → step_ok Q s (visit_directory s).
Proof. intros Hm. split; cbn; try done; try lia. exists []. by rewrite app_nil_r. Qed.

Lemma does_scan Q s : (max_entries ws <=? entriesScanned s)%Z = false → step_ok Q s (scan_entry s).
Proof. intros Hm. split; cbn; try done; try lia. exists []. by rewrite app_nil_r. Qed.

Definition glob_ok (glob : option string) (lp : string) : Prop :=
  match glob with Some g => minimatch g lp = true | None => True end.

Lemma does_addFile (Q : FileCandidate → Prop) glob c :
  (glob_ok glob (fc_logicalPath c) → Q c) → does Q (addFile ws glob c).
Proof.
  intros Hc. unfold addFile. destruct (match glob with Some _ => _ | None => _ end) eqn:Eg; [does_tac|].
  assert (Q c) as Hq by (apply Hc; destruct glob; [by apply negb_false_iff|done]). clear Hc Eg.
  intros s. unfold mbind, io_bind, gets. case_bool_decide as Hin; [done|].
  destruct (Z.leb_spec (maxListedFiles (rw_limits ws)) (Z.of_nat (length (collected s)))); cbn.
  - split; cbn; auto; [lia|]. exists []. by rewrite app_nil_r.
  - split; cbn; auto; [lia| | |].
    + exists [c]. split; [done|by repeat constructor].
    + intros Hn. rewrite map_app. apply NoDup_app. split; [done|]. split; [|cbn; apply NoDup_singleton].
      intros x Hx. cbn. intros ->%list_elem_of_singleton. done.
    + rewrite length_app. cbn. lia.
Qed.

(** ** Reading *)

Lemma throwIfAborted_run s :
  throwIfAborted s = (if signal_aborted (looks s) then Err OPERATION_CANCELLED else Ok tt, look s).
Proof. unfold throwIfAborted, mbind, io_bind, gets, modify, require. cbn. by destruct (signal_aborted (looks s)). Qed.

Lemma step_look Q s : step_ok Q s (look s).
Proof. split; cbn; auto; [lia|]. exists []. by rewrite app_nil_r. Qed.

Lemma does_read_entries Q rest acc : does Q (read_entries ws rest acc).
Proof.
  revert acc. induction rest as [|e rest IH]; intros acc; cbn [read_entries];
    (apply walk_bind; [apply does_aborted|intros ?]); (apply walk_bind; [apply does_deadline|intros late]);
    destruct late; try apply walk_ret; intros s; unfold mbind at 1, io_bind at 1, gets; cbn iota beta;
    (destruct (max_entries ws <=? entriesScanned s)%Z eqn:E;
      [apply walk_bind; [apply does_modify; intros ?; cbn; tauto|intros ?; apply walk_ret]|]).
  - apply walk_bind; [apply does_aborted|intros ?]. apply walk_ret.
  - unfold mbind at 1, io_bind at 1. rewrite throwIfAborted_run. destruct (signal_aborted _); [apply step_look|].
    etrans; [apply step_look|]. etrans; [by apply does_scan|apply IH].
Qed.

Lemma read_entries_subset rest acc s es s' :
  read_entries ws rest acc s = (Ok es, s') → ∀ e, e ∈ es → e ∈ acc ++ rest.
Proof.
  revert acc s. induction rest as [|x rest IH]; intros acc s; cbn [read_entries]; intros Hr;
    apply bind_Ok in Hr as (? & s1 & _ & Hr); apply bind_Ok in Hr as (late & s2 & _ & Hr);
    (destruct late; [run_inv; set_solver|]); apply bind_Ok in Hr as (n & s3 & _ & Hr);
    (destruct (max_entries ws <=? n)%Z; [run_inv; set_solver|]); apply bind_Ok in Hr as (? & s4 & _ & Hr); [run_inv; set_solver|].
  apply bind_Ok in Hr as (? & s5 & _ & Hr). intros e He. specialize (IH _ _ Hr e He). set_solver.
Qed.

Lemma deadline_true s s' : discoveryDeadlineReached s = (Ok true, s') → exhausted s' = true.
Proof. unfold discoveryDeadlineReached. intros Hr. run_inv. destruct (deadline_passed _); run_inv; done. Qed.

(** If nothing ran out, the whole directory was read. *)
Lemma read_entries_all rest acc s es s' :
  read_entries ws rest acc s = (Ok es, s') → exhausted s' = false → es = acc ++ rest.
Proof.
  revert acc s. induction rest as [|x rest IH]; intros acc s; cbn [read_entries]; intros Hr Hx;
    apply bind_Ok in Hr as (? & s1 & _ & Hr); apply bind_Ok in Hr as (late & s2 & Hl & Hr);
    (destruct late; [apply deadline_true in Hl; run_inv; congruence|]); apply bind_Ok in Hr as (n & s3 & _ & Hr);
    (destruct (max_entries ws <=? n)%Z; [run_inv; done|]); apply bind_Ok in Hr as (? & s4 & _ & Hr);
    [run_inv; by rewrite app_nil_r|].
  apply bind_Ok in Hr as (? & s5 & _ & Hr). rewrite (IH _ _ Hr Hx). by rewrite <-app_assoc.
Qed.

Lemma does_read Q absolute : does Q (readDirectoryEntriesBounded fs ws absolute).
Proof.
  unfold readDirectoryEntriesBounded. apply walk_bind; [apply does_aborted|intros ?]. apply walk_bind; [apply walk_gets|intros n].
  destruct (max_entries ws <=? n)%Z; [does_tac|]. destruct (lookup_path _ _) as [d|]; [|does_tac].
  destruct (is_dir fs d); [|does_tac]. apply walk_bind; [apply does_read_entries|intros ?; apply walk_ret].
Qed.

Lemma read_Ok absolute d s es s' :
  lookup_path fs (split_slash absolute) = Some d → readDirectoryEntriesBounded fs ws absolute s = (Ok es, s') →
  (∀ e, e ∈ es → e ∈ listing fs d) ∧ (exhausted s' = false → ∀ e, e ∈ listing fs d → e ∈ es).
Proof.
  intros Hd Hr. unfold readDirectoryEntriesBounded in Hr. apply bind_Ok in Hr as (? & s1 & _ & Hr).
  apply bind_Ok in Hr as (n & s2 & _ & Hr). destruct (max_entries ws <=? n)%Z; [run_inv; split; [set_solver|done]|].
  rewrite Hd in Hr. destruct (is_dir fs d); [|by run_inv]. apply bind_Ok in Hr as (es' & s3 & Hre & Hr). run_inv.
  split.
  - intros e He. apply (read_entries_subset _ _ _ _ _ Hre). cbn. by rewrite <-(order_by_perm name_before).
  - intros Hx e He. rewrite order_by_perm. by rewrite (read_entries_all _ _ _ _ _ Hre Hx).
Qed.

(** ** The walk *)

Lemma does_visit_entries Q visit entries :
  (∀ e, e ∈ entries → does Q (visit e)) → does Q (visit_entries visit entries).
Proof.
  induction entries as [|e entries IH]; intros Hv; cbn [visit_entries]; [does_tac|].
  apply walk_bind; [apply does_aborted|intros ?]. apply walk_bind; [apply does_deadline|intros [|]]; [apply walk_ret|].
  apply walk_bind; [apply Hv; set_solver|intros [|]]; [apply IH; set_solver|apply walk_ret].
Qed.

Context (listing_spec : ∀ d name n, (name, n) ∈ listing fs d ↔ fs !! (d ++ [name]) = Some n).
Context (names_ok : ∀ p n, fs !! p = Some n → normal p).

(** The absolute path [absolute] leads to the directory [d]. *)
Definition at_dir (absolute : string) (d : list string) : Prop :=
  ∃ segs, normal segs ∧ absolute = render segs ∧ lookup_path fs segs = Some d ∧ is_dir fs d = true.

Lemma at_dir_lookup absolute d : at_dir absolute d → lookup_path fs (split_slash absolute) = Some d.
Proof. intros (segs & Hn & -> & Hl & _). by rewrite lookup_render_path. Qed.

Lemma entry_name_ok d name n : fs !! (d ++ [name]) = Some n → seg_ok name = true.
Proof. intros E%names_ok. apply Forall_app in E as [_ E]. by inversion_clear E. Qed.

Lemma at_dir_entry absolute d name n :
  at_dir absolute d → fs !! (d ++ [name]) = Some n → (∀ t, n ≠ Link t) →
  lookup_path fs (split_slash (join absolute name)) = Some (d ++ [name]) ∧ (n = Dir → at_dir (join absolute name) (d ++ [name])).
Proof.
  intros (segs & Hn & -> & Hl & Hd) E Hk. pose proof (entry_name_ok _ _ _ E) as Hs. rewrite join_render by done.
  assert (normal (segs ++ [name])) as Hn' by (apply Forall_app_2; [done|by repeat constructor]).
  assert (lookup_path fs (segs ++ [name]) = Some (d ++ [name])) as Hl'.
  { unfold lookup_path. destruct (walk_app _ _ _ [name] _ _ Hl Hd) as (k & _ & ->). rewrite walk_one, E by done.
    destruct n; [done..|by destruct (Hk target)|done]. }
  rewrite lookup_render_path by done. split; [done|]. intros ->. exists (segs ++ [name]). split_and!; [done..|].
  unfold is_dir. apply bool_decide_eq_true. by destruct d.
Qed.

(** A candidate of the walk of [d]. *)
Definition found (skip : bool) (d : list string) (l : string) (c : FileCandidate) : Prop :=
  ∃ q, listed skip d l (fc_logicalPath c) q ∧ lookup_path fs (split_slash (fc_absolutePath c)) = Some q.

(** A candidate that matches the glob. *)
Definition matching (glob : option string) (Q : FileCandidate → Prop) (c : FileCandidate) : Prop :=
  Q c ∧ glob_ok glob (fc_logicalPath c).

Lemma does_mono {A} (Q Q' : FileCandidate → Prop) (m : walking A) : (∀ c, Q c → Q' c) → does Q m → does Q' m.
Proof.
  intros HQ Hm s. destruct (Hm s). split; auto. destruct so_new0 as (new & E & HF). exists new. split; [done|].
  eapply Forall_impl; [exact HF|done].
Qed.

Lemma does_visit_entry walk glob skip absolute l d e :
  at_dir absolute d → e ∈ listing fs d →
  (∀ name, fs !! (d ++ [name]) = Some Dir → does (matching glob (found skip (d ++ [name]) (child_path l name))) (walk (join absolute name) (child_path l name))) →
  does (matching glob (found skip d l)) (visit_entry ws walk glob skip absolute l e).
Proof.
  intros Hd He Hw. destruct e as [name n]. apply listing_spec in He. unfold visit_entry. cbn [fst snd].
  destruct (skip && _ && isDirectory n && operational name) eqn:Esk; [apply walk_ret|].
  destruct (isDirectory n && isSubtreeBlocked ws (child_path l name)) eqn:Ebl; [apply walk_ret|].
  destruct (authorizeLogical ws (child_path l name) false None false) as [x|e] eqn:Ea; [|destruct e; does_tac].
  destruct n; try apply walk_ret.
  - apply does_addFile. intros Hg. split; [|done]. exists (d ++ [name]). cbn. split; [|by eapply at_dir_entry].
    eapply listed_here; [done|by eexists].
  - apply walk_bind; [apply walk_gets|intros [|]]; [apply walk_ret|]. eapply does_mono; [|by apply Hw].
    intros c [(q & Hq & Hl) Hg]. split; [|done]. exists q. split; [|done]. eapply listed_below; [exact He| | |by eexists|exact Hq].
    + cbn in Esk. by rewrite andb_true_r in Esk.
    + done.
Qed.

Lemma does_walkDirectory fuel glob skip absolute l d :
  at_dir absolute d → does (matching glob (found skip d l)) (walkDirectory fs ws fuel glob skip absolute l).
Proof.
  revert absolute l d. induction fuel as [|fuel IH]; intros absolute l d Hd; cbn [walkDirectory]; [apply walk_throw|].
  apply walk_bind; [apply does_aborted|intros ?]. apply walk_bind; [apply does_deadline|intros [|]]; [apply walk_ret|].
  intros s. unfold mbind at 1, io_bind at 1, gets. cbn iota beta.
  destruct (max_directories ws <=? directoriesVisited s)%Z eqn:E; [by apply (walk_bind _ _ _ (does_modify _ set_exhausted ltac:(intros ?; cbn; tauto)) (λ _, walk_ret _ _))|].
  unfold mbind at 1, io_bind at 1, modify. cbn iota beta. etrans; [by apply does_visit|].
  generalize (visit_directory s). clear s E. intros s.
  destruct (readDirectoryEntriesBounded fs ws absolute s) as [[es|e] s1] eqn:Er.
  - rewrite (bind_run _ _ _ _ _ Er). etrans; [by eapply does_run; [apply does_read|]|].
    apply does_visit_entries. intros e He. apply does_visit_entry; [done| |].
    + destruct (read_Ok _ _ _ _ _ (at_dir_lookup _ _ Hd) Er) as [Hsub _]. auto.
    + intros name Hn. apply IH. by eapply at_dir_entry.
  - rewrite (bind_Err _ _ _ _ _ Er). by eapply does_run; [apply does_read|].
Qed.

(** ** Completeness *)

Definition anything (c : FileCandidate) : Prop := True.

Lemma step_keeps Q s s' lp : step_ok Q s s' → lp ∈ map fc_logicalPath (collected s) → lp ∈ map fc_logicalPath (collected s').
Proof. intros [_ _ _ _ _ (new & -> & _) _ _]. rewrite map_app. set_solver. Qed.

Lemma step_not_exhausted Q s s' : step_ok Q s s' → exhausted s' = false → exhausted s = false.
Proof. intros [_ _ _ Hx _ _ _ _] E. destruct (exhausted s); [|done]. by rewrite Hx in E. Qed.

Lemma visit_entries_true visit es s s' :
  (∀ e, e ∈ es → does anything (visit e)) → visit_entries visit es s = (Ok true, s') →
  exhausted s' = false ∧ ∀ e, e ∈ es → ∃ s1 s2, visit e s1 = (Ok true, s2) ∧ step_ok anything s2 s'.
Proof.
  revert s. induction es as [|e es IH]; intros s Hv Hr; cbn [visit_entries] in Hr.
  - run_inv. split; [|set_solver]. by destruct (exhausted s').
  - apply bind_Ok in Hr as (? & s1 & _ & Hr). apply bind_Ok in Hr as ([|] & s2 & _ & Hr); [by run_inv|].
    apply bind_Ok in Hr as ([|] & s3 & He & Hr); [|by run_inv].
    destruct (IH s3 ltac:(set_solver) Hr) as [Hx Hall]. split; [done|]. intros e' [->|He']%elem_of_cons; [|auto].
    exists s2, s3. split; [done|]. eapply does_run; [|exact Hr]. apply does_visit_entries. set_solver.
Qed.

Lemma addFile_true glob c s s' :
  addFile ws glob c s = (Ok true, s') → glob_ok glob (fc_logicalPath c) →
  fc_logicalPath c ∈ map fc_logicalPath (collected s').
Proof.
  unfold addFile, glob_ok. intros Hr Hg. assert (match glob with Some g => negb (minimatch g (fc_logicalPath c)) | None => false end = false) as E
    by (destruct glob; [by rewrite Hg|done]). rewrite E in Hr.
  apply bind_Ok in Hr as (files & s1 & Hf & Hr). run_inv. case_bool_decide; [by run_inv|].
  destruct (_ <=? _)%Z; run_inv; [done|]. cbn. rewrite map_app. set_solver.
Qed.

Lemma addFile_false glob c s s' : addFile ws glob c s = (Ok false, s') → over_limit s' = true.
Proof.
  unfold addFile. intros Hr. destruct (match glob with Some _ => _ | None => _ end); [by run_inv|].
  apply bind_Ok in Hr as (files & s1 & Hf & Hr). run_inv. case_bool_decide; [by run_inv|].
  destruct (_ <=? _)%Z; by run_inv.
Qed.

Lemma walk_visits fuel glob skip absolute l d s s' name n :
  at_dir absolute d → walkDirectory fs ws fuel glob skip absolute l s = (Ok true, s') →
  fs !! (d ++ [name]) = Some n →
  ∃ fuel' s1 s2, visit_entry ws (walkDirectory fs ws fuel' glob skip) glob skip absolute l (name, n) s1 = (Ok true, s2) ∧
    step_ok anything s2 s' ∧ exhausted s' = false.
Proof.
  intros Hd Hr Hn. destruct fuel as [|fuel]; [done|]. cbn [walkDirectory] in Hr.
  apply bind_Ok in Hr as (? & s1 & _ & Hr). apply bind_Ok in Hr as ([|] & s2 & _ & Hr); [by run_inv|].
  apply bind_Ok in Hr as (v & s3 & _ & Hr). destruct (max_directories ws <=? v)%Z; [by run_inv|].
  apply bind_Ok in Hr as (? & s4 & _ & Hr). apply bind_Ok in Hr as (es & s5 & Her & Hr).
  destruct (read_Ok _ _ _ _ _ (at_dir_lookup _ _ Hd) Her) as [Hsub Hall].
  assert (∀ e, e ∈ es → does anything (visit_entry ws (walkDirectory fs ws fuel glob skip) glob skip absolute l e)) as Hdoes.
  { intros e He. eapply does_mono; [|apply does_visit_entry; [done|by apply Hsub|]]; [done|].
    intros name' Hn'. apply does_walkDirectory. by eapply at_dir_entry. }
  pose proof (does_run _ _ _ _ _ (does_visit_entries _ _ _ Hdoes) Hr) as Hstep.
  apply visit_entries_true in Hr as [Hx Hv]; [|done].
  destruct (Hv (name, n)) as (u1 & u2 & Hu & Hs); [|by eauto 10].
  apply Hall; [by eapply step_not_exhausted|]. by apply listing_spec.
Qed.

Lemma walk_complete skip d l lp q :
  listed skip d l lp q → ∀ fuel glob absolute s s', at_dir absolute d →
  walkDirectory fs ws fuel glob skip absolute l s = (Ok true, s') → glob_ok glob lp →
  lp ∈ map fc_logicalPath (collected s').
Proof.
  induction 1 as [d l name bytes Hf (x & Hx)|d l name lp q Hf Hsk Hsub (x & Hx) _ IH];
    intros fuel glob absolute s s' Hd Hr Hg;
    destruct (walk_visits _ _ _ _ _ _ _ _ _ _ Hd Hr Hf) as (fuel' & s1 & s2 & Hv & Hstep & Hex);
    unfold visit_entry in Hv; cbn [fst snd isDirectory] in Hv.
  - rewrite andb_false_r in Hv. cbn [andb] in Hv. rewrite Hx in Hv. eapply step_keeps; [exact Hstep|].
    by apply addFile_true in Hv.
  - rewrite andb_true_r, Hsk, Hsub, Hx in Hv. cbn [andb] in Hv. apply bind_Ok in Hv as (spent & s3 & Hsp & Hv). run_inv.
    destruct (exhausted s3) eqn:Ex.
    + run_inv. apply (step_not_exhausted _ _ _ Hstep) in Hex. congruence.
    + eapply step_keeps; [exact Hstep|]. eapply IH; [|exact Hv|done]. by eapply at_dir_entry.
Qed.

(** ** The fuel is enough *)

Definition fueled {A} (k : Z) (m : walking A) : Prop :=
  ∀ s s', (k ≤ directoriesVisited s ≤ max_directories ws)%Z → m s ≠ (Err OUT_OF_FUEL, s').

Lemma fueled_bind {A B} k (m : walking A) (f : A → walking B) :
  does anything m → fueled k m → (∀ a, fueled k (f a)) → fueled k (m ≫= f).
Proof.
  intros Hd Hm Hf s s' Hk Hr. apply bind_Err_inv in Hr as [Hr|(a & s1 & Ha & Hr)]; [by eapply Hm|].
  apply (does_run _ _ _ _ _ Hd) in Ha as []. eapply Hf; [|exact Hr]. lia.
Qed.

(** A program that never recurses. *)
Lemma fueled_plain {A} k (m : walking A) : (∀ s e s', m s = (Err e, s') → e ≠ OUT_OF_FUEL) → fueled k m.
Proof. intros Hm s s' _ Hr. by apply Hm in Hr. Qed.

Lemma fueled_aborted k : fueled k throwIfAborted.
Proof. apply fueled_plain. intros s e s'. rewrite throwIfAborted_run. by destruct (signal_aborted _); intros [= <- _]. Qed.

Lemma fueled_deadline k : fueled k discoveryDeadlineReached.
Proof.
  apply fueled_plain. intros s e s'. unfold discoveryDeadlineReached, mbind, io_bind, gets, modify. cbn.
  by destruct (deadline_passed _).
Qed.

Lemma fueled_read_entries k rest acc : fueled k (read_entries ws rest acc).
Proof.
  revert acc. induction rest as [|e rest IH]; intros acc; cbn [read_entries];
    (apply fueled_bind; [apply does_aborted|apply fueled_aborted|intros ?]);
    (apply fueled_bind; [apply does_deadline|apply fueled_deadline|intros [|]]; [done|]);
    intros s s' Hk; (destruct (max_entries ws <=? entriesScanned s)%Z eqn:E; unfold mbind at 1, io_bind at 1, gets; rewrite E; [done|]).
  - unfold mbind, io_bind. rewrite throwIfAborted_run. by destruct (signal_aborted _).
  - unfold mbind at 1, io_bind at 1. rewrite throwIfAborted_run. destruct (signal_aborted _); [done|]. by apply IH.
Qed.

Lemma fueled_read k absolute : fueled k (readDirectoryEntriesBounded fs ws absolute).
Proof.
  unfold readDirectoryEntriesBounded. apply fueled_bind; [apply does_aborted|apply fueled_aborted|intros ?].
  apply fueled_bind; [apply walk_gets|done|intros n]. destruct (max_entries ws <=? n)%Z; [done|].
  destruct (lookup_path _ _) as [d|]; [|done]. destruct (is_dir fs d); [|done].
  apply fueled_bind; [apply does_read_entries|apply fueled_read_entries|done].
Qed.

Lemma authorizeLogical_Err lp e : authorizeLogical ws lp false None false = Err e → e ≠ OUT_OF_FUEL.
Proof.
  unfold authorizeLogical. destruct (normalizeRelativePath lp false) as [l|e'] eqn:E; cbn.
  - destruct (matchedBlockedPattern ws l false); [intros [= <-]; done|].
    destruct (isWithinLogicalAllowedRoot ws l); cbn; [done|intros [= <-]; done].
  - intros [= <-]. apply normalizeRelativePath_Err in E. by subst.
Qed.

Lemma fueled_visit_entries k visit es :
  (∀ e, e ∈ es → does anything (visit e)) → (∀ e, e ∈ es → fueled k (visit e)) → fueled k (visit_entries visit es).
Proof.
  induction es as [|e es IH]; intros Hd Hv; cbn [visit_entries]; [done|].
  apply fueled_bind; [apply does_aborted|apply fueled_aborted|intros ?].
  apply fueled_bind; [apply does_deadline|apply fueled_deadline|intros [|]]; [done|].
  apply fueled_bind; [apply Hd; set_solver|apply Hv; set_solver|intros [|]]; [|done]. apply IH; set_solver.
Qed.

Lemma fueled_visit_entry k walk glob skip absolute l d e :
  at_dir absolute d → e ∈ listing fs d →
  (∀ name, fs !! (d ++ [name]) = Some Dir → fueled k (walk (join absolute name) (child_path l name))) →
  fueled k (visit_entry ws walk glob skip absolute l e).
Proof.
  intros Hd He Hw. destruct e as [name n]. apply listing_spec in He. unfold visit_entry. cbn [fst snd].
  destruct (skip && _ && isDirectory n && operational name); [done|].
  destruct (isDirectory n && isSubtreeBlocked ws (child_path l name)); [done|].
  destruct (authorizeLogical ws (child_path l name) false None false) as [x|e] eqn:Ea.
  - destruct n; try done.
    + intros s s' _. unfold addFile, mbind, io_bind, gets, modify. by repeat case_match.
    + apply fueled_bind; [apply walk_gets|done|intros [|]]; [done|by apply Hw].
  - apply authorizeLogical_Err in Ea. destruct e; done.
Qed.

Lemma fueled_walk fuel glob skip absolute l d k :
  at_dir absolute d → (max_directories ws < k + Z.of_nat fuel)%Z → fueled k (walkDirectory fs ws fuel glob skip absolute l).
Proof.
  revert absolute l d k. induction fuel as [|fuel IH]; intros absolute l d k Hd Hk; [intros s s' Hs; lia|].
  cbn [walkDirectory]. apply fueled_bind; [apply does_aborted|apply fueled_aborted|intros ?].
  apply fueled_bind; [apply does_deadline|apply fueled_deadline|intros [|]]; [done|].
  intros s s' Hs. unfold mbind at 1, io_bind at 1, gets. cbn iota beta.
  destruct (Z.leb_spec (max_directories ws) (directoriesVisited s)) as [Hm|Hm]; [done|].
  unfold mbind at 1, io_bind at 1, modify. cbn iota beta. intros Hr.
  apply bind_Err_inv in Hr as [Hr|(es & s1 & Her & Hr)]; [refine (fueled_read k absolute _ s' _ Hr); cbn; lia|].
  pose proof (does_run _ _ _ _ _ (does_read anything absolute) Her) as [Hd1 Hd2]. cbn in Hd1, Hd2.
  destruct (read_Ok _ _ _ _ _ (at_dir_lookup _ _ Hd) Her) as [Hsub _].
  refine (fueled_visit_entries (k + 1) _ es _ _ s1 s' _ Hr); [| |lia].
  - intros e He. eapply does_mono; [|apply does_visit_entry; [done|by apply Hsub|]]; [done|].
    intros name Hn. apply does_walkDirectory. by eapply at_dir_entry.
  - intros e He. eapply fueled_visit_entry; [done|by apply Hsub|]. intros name Hn.
    eapply IH; [by eapply at_dir_entry|lia].
Qed.

(** ** The roots *)

Definition not_link (n : option node) : Prop := ∀ t, n ≠ Some (Link t).

(** The canonical path [path] names a regular file of the workspace, and no link lies on it. *)
Definition file_at (path : string) : Prop :=
  ∃ q bytes, path = render q ∧ canonical fs q ∧ canonical_root ws `prefix_of` q ∧ fs !! q = Some (File bytes).

(** A root that is where its paths lead. *)
Definition root_placed (root : ResolvedAllowedRoot) : Prop :=
  match ar_kind root with
  | file => file_at (ar_canonicalPath root)
  | directory => ∃ d, at_dir (ar_absolutePath root) d
  end.

(** A candidate that comes from this root: the file a root names, under the name of the
    root and at its canonical path, or a file below the directory the root is. *)
Definition found_in (skip : bool) (root : ResolvedAllowedRoot) (c : FileCandidate) : Prop :=
  match ar_kind root with
  | file => c = {| fc_logicalPath := ar_logicalPath root; fc_absolutePath := ar_canonicalPath root |} ∧
            isBlocked ws (ar_logicalPath root) = false ∧ file_at (ar_canonicalPath root)
  | directory => ∃ d, at_dir (ar_absolutePath root) d ∧ not_link (lstat fs (ar_absolutePath root)) ∧ found skip d (ar_logicalPath root) c
  end.

Lemma does_scan_roots glob skip roots :
  Forall root_placed roots → does (matching glob (λ c, ∃ root, root ∈ roots ∧ found_in skip root c)) (scan_roots fs ws glob skip roots).
Proof.
  induction 1 as [|root roots Hr HF IH]; cbn [scan_roots]; [apply walk_ret|].
  assert (does (matching glob (λ c, ∃ r, r ∈ root :: roots ∧ found_in skip r c)) (scan_roots fs ws glob skip roots)) as Hrest.
  { eapply does_mono; [|exact IH]. intros c [(r & Hin & Hf) Hg]. split; [|done]. exists r. split; [set_solver|done]. }
  apply walk_bind; [apply does_aborted|intros ?]. apply walk_bind; [apply does_deadline|intros [|]]; [does_tac|].
  destruct (ar_kind root) eqn:Ek.
  - apply walk_bind; [|done]. destruct (isBlocked ws _) eqn:Eb; [apply walk_ret|]. apply does_addFile. intros Hg.
    split; [|done]. exists root. split; [set_solver|]. unfold found_in, root_placed in *. by rewrite Ek in *.
  - destruct (lstat fs _) as [n|] eqn:El; [|apply walk_throw]. apply walk_bind; [apply does_aborted|intros ?].
    unfold root_placed in Hr. rewrite Ek in Hr. destruct Hr as (d & Hd).
    assert ((∀ t, n ≠ Link t) → does (matching glob (λ c, ∃ r, r ∈ root :: roots ∧ found_in skip r c))
      (shouldContinue ← walkDirectory fs ws (walk_fuel ws) glob skip (ar_absolutePath root) (ar_logicalPath root);
       if shouldContinue : bool then scan_roots fs ws glob skip roots else modify set_over_limit)) as Hwalk.
    { intros Hn. apply walk_bind; [|intros [|]; [done|does_tac]]. eapply does_mono; [|by apply does_walkDirectory].
      intros c [Hc Hg]. split; [|done]. exists root. split; [set_solver|]. unfold found_in. rewrite Ek, El. exists d.
      split; [done|]. split; [|done]. intros t [= ->]. by apply (Hn t). }
    destruct n; try (apply Hwalk; done). done.
Qed.

Lemma scan_roots_complete glob skip roots s s' :
  Forall root_placed roots → scan_roots fs ws glob skip roots s = (Ok tt, s') → over_limit s' = false → exhausted s' = false →
  ∀ root c, root ∈ roots → found_in skip root c → glob_ok glob (fc_logicalPath c) →
    fc_logicalPath c ∈ map fc_logicalPath (collected s').
Proof.
  intros HF. revert s. induction HF as [|root0 roots Hr HF IH]; intros s Hs Ho He root c Hin Hf Hg; [set_solver|].
  cbn [scan_roots] in Hs. apply bind_Ok in Hs as (? & s1 & _ & Hs). apply bind_Ok in Hs as ([|] & s2 & _ & Hs).
  { run_inv. done. }
  assert (∀ s, scan_roots fs ws glob skip roots s = (Ok tt, s') → step_ok anything s s') as Hrest.
  { intros s0 Hs0. eapply does_run; [|exact Hs0]. eapply does_mono; [|by apply does_scan_roots]. done. }
  destruct (ar_kind root0) eqn:Ek.
  - apply bind_Ok in Hs as (b & s3 & Ha & Hs). apply elem_of_cons in Hin as [->|Hin]; [|by eapply IH].
    unfold found_in in Hf. rewrite Ek in Hf. destruct Hf as (-> & Hb & _). rewrite Hb in Ha.
    eapply step_keeps; [by apply Hrest|]. destruct b; [by eapply addFile_true|].
    apply addFile_false in Ha. apply Hrest in Hs as []. by rewrite so_over0 in Ho.
  - destruct (lstat fs (ar_absolutePath root0)) as [n|] eqn:El; [|done]. apply bind_Ok in Hs as (? & s3 & _ & Hs).
    assert (scan_roots fs ws glob skip roots s3 = (Ok tt, s') ∧ (∃ t, n = Link t) ∨
      ∃ s4, walkDirectory fs ws (walk_fuel ws) glob skip (ar_absolutePath root0) (ar_logicalPath root0) s3 = (Ok true, s4) ∧
        scan_roots fs ws glob skip roots s4 = (Ok tt, s')) as [[Hs' (t & ->)]|(s4 & Hw & Hs')].
    { destruct n; try (left; split; [exact Hs|by eexists]); right;
        (apply bind_Ok in Hs as ([|] & s4 & Hw & Hs); [by eauto|run_inv; done]). }
    + apply elem_of_cons in Hin as [->|Hin]; [|by eapply IH].
      unfold found_in in Hf. rewrite Ek, El in Hf. destruct Hf as (d & _ & Hl & _). by destruct (Hl t).
    + apply elem_of_cons in Hin as [->|Hin]; [|by eapply IH].
      unfold found_in in Hf. rewrite Ek in Hf. destruct Hf as (d & Hd & _ & q & Hq & _).
      eapply step_keeps; [by apply Hrest|]. by eapply walk_complete.
Qed.

Lemma fueled_scan_roots glob skip roots :
  (0 ≤ max_directories ws)%Z → Forall root_placed roots → fueled 0 (scan_roots fs ws glob skip roots).
Proof.
  intros Hmax. induction 1 as [|root roots Hr HF IH]; cbn [scan_roots]; [done|].
  apply fueled_bind; [apply does_aborted|apply fueled_aborted|intros ?].
  apply fueled_bind; [apply does_deadline|apply fueled_deadline|intros [|]]; [done|].
  destruct (ar_kind root) eqn:Ek.
  - apply fueled_bind; [destruct (isBlocked ws _); [apply walk_ret|by apply does_addFile]| |done].
    destruct (isBlocked ws _); [done|]. intros s s' _. unfold addFile, mbind, io_bind, gets, modify. by repeat case_match.
  - destruct (lstat fs _) as [n|]; [|done]. apply fueled_bind; [apply does_aborted|apply fueled_aborted|intros ?].
    unfold root_placed in Hr. rewrite Ek in Hr. destruct Hr as (d & Hd).
    assert (fueled 0 (shouldContinue ← walkDirectory fs ws (walk_fuel ws) glob skip (ar_absolutePath root) (ar_logicalPath root);
       if shouldContinue : bool then scan_roots fs ws glob skip roots else modify set_over_limit)) as Hwalk.
    { apply fueled_bind; [eapply does_mono; [|by apply does_walkDirectory]; done| |intros [|]; done].
      eapply fueled_walk; [done|]. unfold walk_fuel. lia. }
    by destruct n.
Qed.

End discovery.
