(* ===== verification/WorkspaceFileTheorems.v ===== *)
(** * WorkspaceScenario: a workspace with its files, for the examples of the theorems *)

From S2P Require Import Prelude Text NodePath FileTree WorkspacePolicies PathSecurity TextFiles FileService Discovery.
From Stdlib Require Import Ascii.

#[local] Existing Instance quiet.

#[export] Instance demo_platform : Platform := {|
  isWindows := false;
  cwd := "/";
  minimatch := λ pattern candidate,
    if bool_decide (pattern = "**/.git/**") then startsWith ".git/" candidate
    else if bool_decide (pattern = "**/.env") then bool_decide (candidate = ".env")
    else false;
|}.

#[export] Instance demo_text : TextHost := {|
  file_sha256 := λ bytes, "sha-" +:+ bytes;
  decode_lossy := λ _ bytes, bytes;
  decode_utf8_strict := Some;
  decode_windows1252 := Some;
  iconv_encode := λ _ text, text;
  iconv_decode := λ _ bytes, bytes;
|}.

Definition demo_limits : WorkspaceLimits :=
  {| maxFileBytes := 100; maxSearchResults := 10; maxSearchSnippetBytes := 100; maxDiffBytes := 100; maxListedFiles := 10;
     maxDiscoveryDirectories := None; maxDiscoveryEntries := None; maxDiscoveryDurationMs := None |}.

Definition demo_policy : PolicyEntry :=
  {| pe_id := "demo"; pe_name := "Demo"; pe_rootPath := "/home/w"; pe_workspaceKind := None; pe_enabled := true;
     pe_permissionProfile := full_repo_write; pe_confirmationMode := standard; pe_allowedRoots := ["."];
     pe_blockedGlobs := []; pe_limits := demo_limits; pe_allowWrites := ["."]; pe_allowShell := []; pe_allowedShells := [bash] |}.

(** [/home/w] is a link to the workspace [/w]. *)
Definition plain_files : Fs := list_to_map
  [(["home"], Dir); (["home"; "w"], Link "../w"); (["w"], Dir); (["w"; "src"], Dir); (["w"; "src"; "a.txt"], File "one two");
   (["w"; ".git"], Dir); (["w"; ".git"; "config"], File "c"); (["out"], Dir)].

(** The same with a link out of the workspace and one to the data of the repository. *)
Definition linked_files : Fs :=
  <[["w"; "link"] := Link "/out"]> (<[["w"; "src"; "hooks"] := Link "../.git"]> plain_files).

Definition world_of (fs : Fs) : World := {| w_fs := fs; w_turn := 0 |}.
Definition demo_workspaces : list ResolvedWorkspace :=
  Eval vm_compute in match (fromPolicy [demo_policy] (world_of plain_files)).1 with Ok l => l | Err _ => [] end.
Definition demo_world : World := Eval vm_compute in (fromPolicy [demo_policy] (world_of plain_files)).2.
Definition no_workspace : ResolvedWorkspace :=
  {| rw_id := ""; rw_name := ""; rw_rootPath := ""; rw_workspaceKind := repository; rw_canonicalRootPath := ""; rw_enabled := false;
     rw_permissionProfile := planning_readonly; rw_confirmationMode := standard; rw_allowedRoots := []; rw_blockedGlobs := [];
     rw_limits := demo_limits; rw_allowWrites := []; rw_allowShell := []; rw_allowedShells := [] |}.
Definition demo_workspace : ResolvedWorkspace := Eval vm_compute in default no_workspace (head demo_workspaces).

Lemma demo_loaded : fromPolicy [demo_policy] (world_of plain_files) = (Ok demo_workspaces, demo_world).
Proof. vm_cast_no_check (eq_refl (Ok (E := app_error) demo_workspaces, demo_world)). Qed.
Lemma demo_found : get_workspace demo_workspaces "demo" = Ok demo_workspace.
Proof. vm_cast_no_check (eq_refl (Ok (E := app_error) demo_workspace)). Qed.
Lemma demo_ok : workspace_ok demo_workspace.
Proof.
  pose proof (fromPolicy_ok _ _ _ _ demo_loaded) as HF. rewrite Forall_forall in HF. apply HF.
  pose proof demo_found as Hf. by apply get_workspace_ok in Hf as [? _].
Qed.

(** The same workspace under its own path. *)
Definition direct_policy : PolicyEntry :=
  {| pe_id := "direct"; pe_name := "Direct"; pe_rootPath := "/w"; pe_workspaceKind := None; pe_enabled := true;
     pe_permissionProfile := full_repo_readonly; pe_confirmationMode := standard; pe_allowedRoots := ["."];
     pe_blockedGlobs := []; pe_limits := demo_limits; pe_allowWrites := []; pe_allowShell := []; pe_allowedShells := [] |}.
Definition direct_workspaces : list ResolvedWorkspace :=
  Eval vm_compute in match (fromPolicy [direct_policy] (world_of linked_files)).1 with Ok l => l | Err _ => [] end.
Definition direct_workspace : ResolvedWorkspace := Eval vm_compute in default no_workspace (head direct_workspaces).


(** ** WorkspaceFileTheorems: what the agent lets a client do with files

    The theorems on the path checks and on writes, each with a concrete workspace, and the
    two ways a link leads a write astray. *)

(** ** Reading *)

Section reading.
Context {P : Platform} {O : Others}.


End reading.

Section exact.
Context {P : Platform}.
#[local] Existing Instance quiet.

(** Nothing the policy allows is refused. When the files do not change during the call, the
    agent authorises a path exactly if it is a relative path without parent segments that
    leads, below the root, to an existing file or directory of the requested kind that the
    policy allows, and it returns the path this describes. *)
Theorem read_authorization_is_exact ws input expected allowDot op readGenerated w a :
  workspace_ok ws →
  (∃ w', authorizeExistingInternal ws input expected allowDot true op readGenerated w = (Ok a, w')) ↔
  normalizeRelativePath input allowDot = Ok (ap_logicalPath a) ∧ authorized ws readGenerated (w_fs w) a ∧
  stat (w_fs w) (ap_canonicalPath a) ≫= kind_of = Some (ap_kind a) ∧ (∀ k, expected = Some k → ap_kind a = k).
Proof.
  intros Hw. split.
  - intros (w' & Ha). apply (authorizeExistingInternal_Ok _ _ _ _ _ _ _ _ _ Hw) in Ha as (Hn & Ha & Hs & He & ->). done.
  - intros (Hn & Ha & Hs & He). eexists. by apply authorizeExistingInternal_complete.
Qed.
End exact.

(** ** Writing *)

Section writing.
Context {P : Platform} {H : TextHost}.
#[local] Existing Instance quiet.



End writing.

(** ** Reads in a concrete workspace *)

#[local] Existing Instance quiet.

(** A read of [src/a.txt]. *)
Definition demo_path : AuthorizedPath :=
  {| ap_logicalPath := "src/a.txt"; ap_absolutePath := "/home/w/src/a.txt"; ap_canonicalPath := "/w/src/a.txt";
     ap_canonicalRelativePath := "src/a.txt"; ap_kind := file |}.
Definition read_world : World := {| w_fs := w_fs (world_of linked_files); w_turn := 2 |}.

Lemma demo_read :
  authorizeExistingFileRead demo_workspace "./src//a.txt" "read_file" (world_of linked_files) = (Ok demo_path, read_world).
Proof. vm_cast_no_check (eq_refl (Ok (E := app_error) demo_path, read_world)). Qed.


Lemma read_authorization_is_exact_witness : authorized demo_workspace true linked_files demo_path.
Proof.
  exact (proj1 (proj2 (proj1 (read_authorization_is_exact demo_workspace "./src//a.txt" (Some file) false
    (Some "read_file") true (world_of linked_files) demo_path demo_ok) (ex_intro _ _ demo_read)))).
Defined.

(** ** Writes in this workspace *)












Definition demo_patch : PatchFileInput :=
  {| pf_path := "src/a.txt"; pf_expectedSha256 := "sha-one two";
     pf_replacements := [{| re_oldText := "o"; re_newText := "0"; re_expectedCount := Some 2 |}]; pf_dryRun := false |}.
Definition patched_world : World := Eval vm_compute in (patchFile demo_workspace demo_patch "00" (world_of plain_files)).2.

Example demo_patched : w_fs patched_world !! ["w"; "src"; "a.txt"] = Some (File "0ne tw0").
Proof. vm_compute. reflexivity. Qed.


(** ** Two defects *)

(** When the directory of the target does not exist, [authorizeWriteTarget] returns before it
    has resolved anything, and the recursive [mkdir] follows links: a path through a link out
    of the workspace is written outside of it. *)
Lemma write_escapes_the_workspace :
  ∃ res w', writeFile demo_workspace "link/new/b.txt" "evil" "00" (world_of linked_files) = (Ok res, w') ∧
    w_fs w' !! ["out"; "new"; "b.txt"] = Some (File "evil") ∧
    canonical_root demo_workspace = ["w"] ∧ linked_files !! ["out"; "new"] = None.
Proof. eexists _, _. split; [vm_compute; reflexivity|]. vm_compute. done. Qed.

(** The target's canonical directory is compared with the root only, not with the blocked
    globs or the write roots: through a link inside the workspace a blocked path is written,
    though the same path is refused when it is named directly, or read. *)
Lemma write_reaches_a_blocked_path :
  (∃ res w', writeFile demo_workspace "src/hooks/pre-commit" "evil" "00" (world_of linked_files) = (Ok res, w') ∧
     w_fs w' !! ["w"; ".git"; "pre-commit"] = Some (File "evil")) ∧
  (writeFile demo_workspace ".git/pre-commit" "evil" "00" (world_of linked_files)).1 = Err (BLOCKED_PATH None) ∧
  ∃ d, (authorizeExistingFileRead demo_workspace "src/hooks/config" "read_file" (world_of linked_files)).1 = Err (BLOCKED_PATH (Some d)).
Proof.
  split; [eexists _, _; split; [vm_compute; reflexivity|vm_compute; reflexivity]|].
  split; [vm_compute; reflexivity|]. eexists. vm_compute. reflexivity.
Qed.

(** ** DiscoveryTheorems: a listing is sound, bounded and, if it says so, complete *)

Section theorems.
Context {P : Platform} {D : DirectoryHost}.


Definition names_are_names (fs : Fs) : Prop := ∀ p n, fs !! p = Some n → normal p.











End theorems.

(** ** A listing *)

(** The entry of [d] that [p] is, if it is one. *)
Definition entry_below (d : list string) (e : list string * node) : option (string * node) :=
  match last e.1 with
  | Some name => if bool_decide (removelast e.1 = d) then Some (name, e.2) else None
  | None => None
  end.

#[export] Instance demo_directories : DirectoryHost := {|
  listing := λ fs d, omap (entry_below d) (map_to_list fs);
  collates_before := String.leb;
  deadline_passed := λ _, false;
  signal_aborted := λ _, false;
|}.


Definition names_checked (fs : Fs) : bool := forallb (λ e, forallb seg_ok e.1) (map_to_list fs).

Lemma names_checked_ok fs : names_checked fs = true → names_are_names fs.
Proof.
  intros Hc p n Hp%elem_of_map_to_list%list_elem_of_In. unfold names_checked in Hc. rewrite forallb_forall in Hc.
  specialize (Hc _ Hp). cbn in Hc. rewrite forallb_forall in Hc. apply Forall_forall. intros x Hx. apply Hc.
  by apply list_elem_of_In.
Qed.






(** A requested root that is a link to a file is listed, under its own name and at the place
    the link leads to; a walk leaves links out. *)
Example linked_file_root :
  (collectAuthorizedFiles (<[["w"; "l.txt"] := Link "src/a.txt"]> linked_files) direct_workspace (Some "l.txt") None new_walk).1 =
    Ok ([{| fc_logicalPath := "l.txt"; fc_absolutePath := "/w/src/a.txt" |}], false) ∧
  (collectAuthorizedFiles (<[["w"; "l.txt"] := Link "src/a.txt"]> linked_files) direct_workspace None None new_walk).1 =
    Ok ([{| fc_logicalPath := "src/a.txt"; fc_absolutePath := "/w/src/a.txt" |}], false).
Proof. split; vm_compute; reflexivity. Qed.


(** ** Two defects *)

(** The registry accepts a workspace whose root path is a symbolic link, and reads and writes
    work there; a listing skips the root and returns nothing, not even marked as truncated. *)
Lemma linked_root_lists_nothing :
  workspace_ok demo_workspace ∧
  (collectAuthorizedFiles linked_files demo_workspace None None new_walk).1 = Ok ([], false) ∧
  (authorizeExistingFileRead (O := quiet) demo_workspace "src/a.txt" "read_file" (world_of linked_files)).1 =
    Ok {| ap_logicalPath := "src/a.txt"; ap_absolutePath := "/home/w/src/a.txt"; ap_canonicalPath := "/w/src/a.txt";
          ap_canonicalRelativePath := "src/a.txt"; ap_kind := file |}.
Proof. split; [apply demo_ok|]. split; vm_compute; reflexivity. Qed.

(** One entry with a name that cannot be a relative path of the agent, here a drive prefix,
    makes the listing of the whole workspace fail. *)
Lemma odd_name_fails_the_listing :
  names_are_names (<[["w"; "c:backup"] := File ""]> linked_files) ∧
  (collectAuthorizedFiles (<[["w"; "c:backup"] := File ""]> linked_files) direct_workspace None None new_walk).1 = Err INVALID_PATH.
Proof. split; [apply names_checked_ok; vm_compute; reflexivity|vm_compute; reflexivity]. Qed.
