(* ===== verification/Search.v ===== *)
(** * Search: finding a text in the listed files

    services/workspace-agent/src/filesystem/search.ts for a search that is not cancelled:
    the candidates are read in batches of eight, and the matches are collected under a limit
    on their number and on the bytes of their snippets.  A text is the list of its UTF-16 code
    units.  [read_text] is what reading a candidate gives ([readSearchTextFile]): its text or
    an error; [UnicodeHost] holds the case mapping of the host's Unicode data, which may
    change the length of a text. *)

From S2P Require Import Prelude Text NodePath WorkspacePolicies Discovery.

Notation text := (list N).

(** [value.toLocaleLowerCase("en-US")] *)
Class UnicodeHost := { toLocaleLowerCase : text → text }.

Record SearchMatch := { sm_path : string; sm_line : nat; sm_column : nat; sm_snippet : text }.

Record FileSearchResult := { fr_matches : list SearchMatch; fr_skipped : bool; fr_hasMoreMatches : bool }.

(** ** Texts *)

Definition is_high (u : N) : bool := ((55296 <=? u) && (u <=? 56319))%N.
Definition is_low (u : N) : bool := ((56320 <=? u) && (u <=? 57343))%N.

(** The characters [for (const character of value)] visits: surrogate pairs and single units. *)
Fixpoint characters (s : text) : list text :=
  match s with
  | [] => []
  | u :: r =>
      match r with
      | v :: r' => if is_high u && is_low v then [u; v] :: characters r' else [u] :: characters r
      | [] => [[u]]
      end
  end.

(** The bytes of a character in UTF-8; a surrogate alone is encoded as U+FFFD. *)
Definition char_bytes (c : text) : Z :=
  match c with
  | [u] => if (u <? 128)%N then 1 else if (u <? 2048)%N then 2 else 3
  | _ => 4
  end.

(** [Buffer.byteLength(s, "utf8")] *)
Definition utf8_length (s : text) : Z := foldr (λ c n, char_bytes c + n)%Z 0%Z (characters s).

(** The loop of [truncateUtf8]; [bytes] is what the characters before take. *)
Fixpoint truncate_from (cs : list text) (bytes maxBytes : Z) : text :=
  match cs with
  | [] => []
  | c :: cs =>
      if (maxBytes <? bytes + char_bytes c)%Z then []
      else c ++ truncate_from cs (bytes + char_bytes c) maxBytes
  end.

Definition truncateUtf8 (value : text) (maxBytes : Z) : text :=
  if (utf8_length value <=? maxBytes)%Z then value else truncate_from (characters value) 0 maxBytes.

(** [s.indexOf(needle)] *)
Fixpoint index_of (needle s : text) : option nat :=
  if bool_decide (take (length needle) s = needle) then Some 0
  else match s with
       | [] => None
       | _ :: r => S <$> index_of needle r
       end.

(** [text.split(/\r?\n/)] *)
Fixpoint lines_of (s : text) : list text :=
  match s with
  | [] => [[]]
  | u :: r =>
      let rest := lines_of r in
      if (u =? 10)%N then [] :: rest
      else if (u =? 13)%N && match r with v :: _ => (v =? 10)%N | [] => false end then rest
      else match rest with l :: ls => (u :: l) :: ls | [] => [[u]] end
  end.

Definition SEARCH_FILE_CONCURRENCY : nat := 8.

Record SearchInput := {
  si_query : text;
  si_caseSensitive : bool;
  si_maxSearchResults : Z;
  si_maxSearchSnippetBytes : Z;
}.

Section search.
Context {U : UnicodeHost} (read_text : FileCandidate → outcome app_error text) (input : SearchInput).

Definition search_query : text :=
  if si_caseSensitive input then si_query input else toLocaleLowerCase (si_query input).

Definition haystack (line : text) : text := if si_caseSensitive input then line else toLocaleLowerCase line.

(** Where the query is in what is searched of a line. *)
Definition column_of (line : text) : option nat := index_of search_query (haystack line).

(** The loop of [searchCandidate] over the lines from number [index] on. *)
Fixpoint search_lines (path : string) (lines : list text) (index : nat) (matches : list SearchMatch) :
    list SearchMatch * bool :=
  match lines with
  | [] => (matches, false)
  | line :: lines =>
      match column_of line with
      | None => search_lines path lines (S index) matches
      | Some columnIndex =>
          if (si_maxSearchResults input <=? Z.of_nat (length matches))%Z then (matches, true)
          else
            search_lines path lines (S index)
              (matches ++ [{| sm_path := path; sm_line := S index; sm_column := S columnIndex;
                              sm_snippet := truncateUtf8 line (si_maxSearchSnippetBytes input) |}])
      end
  end.

Definition searchCandidate (candidate : FileCandidate) : outcome app_error FileSearchResult :=
  match read_text candidate with
  | Err FILE_TOO_LARGE | Err BINARY_FILE => Ok {| fr_matches := []; fr_skipped := true; fr_hasMoreMatches := false |}
  | Err e => Err e
  | Ok s =>
      let found := search_lines (fc_logicalPath candidate) (lines_of s) 0 [] in
      Ok {| fr_matches := found.1; fr_skipped := false; fr_hasMoreMatches := found.2 |}
  end.

Record search_state := { ss_matches : list SearchMatch; ss_bytes : Z; ss_skipped : nat; ss_truncated : bool }.

Definition mark_truncated (s : search_state) : search_state :=
  {| ss_matches := ss_matches s; ss_bytes := ss_bytes s; ss_skipped := ss_skipped s; ss_truncated := true |}.

(** The loop over the matches of one file. *)
Fixpoint take_matches (found : list SearchMatch) (s : search_state) : search_state :=
  match found with
  | [] => s
  | m :: found =>
      if (si_maxSearchResults input <=? Z.of_nat (length (ss_matches s)))%Z then mark_truncated s
      else
        let remaining := (si_maxSearchSnippetBytes input - ss_bytes s)%Z in
        if (remaining <=? 0)%Z then mark_truncated s
        else
          let snippet := truncateUtf8 (sm_snippet m) remaining in
          take_matches found
            {| ss_matches := ss_matches s ++ [{| sm_path := sm_path m; sm_line := sm_line m; sm_column := sm_column m;
                                                  sm_snippet := snippet |}];
               ss_bytes := ss_bytes s + utf8_length snippet; ss_skipped := ss_skipped s; ss_truncated := ss_truncated s |}
  end.

Definition limit_reached (s : search_state) : bool :=
  (si_maxSearchResults input <=? Z.of_nat (length (ss_matches s)))%Z || (si_maxSearchSnippetBytes input <=? ss_bytes s)%Z.

(** The loop over the results of a batch; it stops at a limit. *)
Fixpoint take_results (results : list FileSearchResult) (s : search_state) : search_state :=
  match results with
  | [] => s
  | result :: results =>
      if fr_skipped result then
        take_results results {| ss_matches := ss_matches s; ss_bytes := ss_bytes s; ss_skipped := S (ss_skipped s);
                                ss_truncated := ss_truncated s |}
      else
        let s := take_matches (fr_matches result) s in
        let s := if fr_hasMoreMatches result then mark_truncated s else s in
        if limit_reached s then mark_truncated s else take_results results s
  end.

(** [Promise.all] over a batch *)
Definition search_batch (batch : list FileCandidate) : outcome app_error (list FileSearchResult) :=
  fold_outcome (λ acc c, r ← searchCandidate c; Ok (acc ++ [r])) [] batch.

(** The loop over the batches; [fuel] is the number of candidates. *)
Fixpoint search_batches (fuel : nat) (files : list FileCandidate) (s : search_state) : outcome app_error search_state :=
  match fuel, files with
  | _, [] => Ok s
  | 0, _ => Ok s
  | S fuel, _ =>
      results ← search_batch (take SEARCH_FILE_CONCURRENCY files);
      let s := take_results results s in
      if limit_reached s then Ok s else search_batches fuel (drop SEARCH_FILE_CONCURRENCY files) s
  end.

Definition searchAuthorizedFiles (files : list FileCandidate) (initialTruncated : bool) :
    outcome app_error search_state :=
  search_batches (length files) files
    {| ss_matches := []; ss_bytes := 0; ss_skipped := 0; ss_truncated := initialTruncated |}.

End search.

(** ** SearchProps: what a search reports

    Every reported match is a line of a listed file that holds the query; number and bytes
    stay within the limits; and a search that is not marked as truncated reports every such
    line. *)

(** ** Texts *)

Lemma characters_cons u v r :
  characters (u :: v :: r) = if is_high u && is_low v then [u; v] :: characters r else [u] :: characters (v :: r).
Proof. done. Qed.

(** Induction over the characters of a text. *)
Lemma characters_ind (Q : text → Prop) :
  Q [] → (∀ u, Q [u]) → (∀ u v r, is_high u && is_low v = true → Q r → Q (u :: v :: r)) →
  (∀ u v r, is_high u && is_low v = false → Q (v :: r) → Q (u :: v :: r)) → ∀ s, Q s.
Proof.
  intros H0 H1 H2 H3 s. cut (Q s ∧ ∀ u, Q (u :: s)); [tauto|].
  induction s as [|v r [IH1 IH2]]; [done|]. split; [done|]. intros u. destruct (is_high u && is_low v) eqn:E; auto.
Qed.

Lemma char_bytes_pos c : (0 < char_bytes c)%Z.
Proof. unfold char_bytes. repeat case_match; lia. Qed.

(** What is kept of a text are its first characters. *)
Lemma truncate_prefix s : ∀ bytes max, ∃ n, truncate_from (characters s) bytes max = take n s ∧
  characters (take n s) = take (length (characters (take n s))) (characters s).
Proof.
  induction s as [|u|u v r E IH|u v r E IH] using characters_ind; intros bytes max.
  - by exists 0.
  - cbn. case_match; [by exists 0|by exists 1].
  - rewrite characters_cons, E. cbn. case_match; [by exists 0|]. destruct (IH (bytes + 4)%Z max) as (n & -> & Hc).
    exists (S (S n)). cbn [take app]. rewrite characters_cons, E. cbn. by rewrite <-Hc.
  - rewrite characters_cons, E. cbn [truncate_from]. case_match; [by exists 0|].
    destruct (IH (bytes + char_bytes [u])%Z max) as ([|n] & -> & Hc); [by exists 1|].
    exists (S (S n)). cbn [take app] in *. rewrite characters_cons, E. cbn [length take]. by rewrite <-Hc.
Qed.

Lemma truncate_from_length s : ∀ bytes max, (bytes ≤ max)%Z →
  (bytes + utf8_length (truncate_from (characters s) bytes max) ≤ max)%Z.
Proof.
  unfold utf8_length. induction s as [|u|u v r E IH|u v r E IH] using characters_ind; intros bytes max Hb.
  - cbn. lia.
  - cbn [characters truncate_from]. destruct (Z.ltb_spec max (bytes + char_bytes [u])); cbn; [lia|]. cbn in *. lia.
  - rewrite characters_cons, E. cbn [truncate_from]. destruct (Z.ltb_spec max (bytes + char_bytes [u; v])); [cbn; lia|].
    cbn [app]. rewrite characters_cons, E. cbn [foldr]. specialize (IH (bytes + char_bytes [u; v])%Z max). lia.
  - rewrite characters_cons, E. cbn [truncate_from]. destruct (Z.ltb_spec max (bytes + char_bytes [u])); [cbn; lia|].
    specialize (IH (bytes + char_bytes [u])%Z max ltac:(lia)).
    destruct (truncate_prefix (v :: r) (bytes + char_bytes [u]) max) as ([|n] & Et & _); rewrite Et in *; cbn [app take] in *.
    + cbn in *. lia.
    + rewrite characters_cons, E. cbn [foldr]. lia.
Qed.

Lemma truncateUtf8_length s max : (0 ≤ max)%Z → (utf8_length (truncateUtf8 s max) ≤ max)%Z.
Proof.
  intros Hm. unfold truncateUtf8. destruct (Z.leb_spec (utf8_length s) max); [done|].
  pose proof (truncate_from_length s 0 max Hm). lia.
Qed.

(** [p] is made of the first characters of [s]; no character is cut. *)
Definition leads (p s : text) : Prop := p `prefix_of` s ∧ characters p `prefix_of` characters s.

#[global] Instance leads_preorder : PreOrder leads.
Proof. split; [by intros s; split|]. intros p s t [] []. split; by etransitivity. Qed.

Lemma truncateUtf8_leads s max : leads (truncateUtf8 s max) s.
Proof.
  unfold truncateUtf8. case_match; [done|]. destruct (truncate_prefix s 0 max) as (n & -> & Hc).
  split; [apply prefix_take|]. rewrite Hc. apply prefix_take.
Qed.

(** [q] is in [s] at [k], and nowhere before. *)
Definition first_at (q s : text) (k : nat) : Prop :=
  take (length q) (drop k s) = q ∧ k ≤ length s ∧ ∀ j, j < k → take (length q) (drop j s) ≠ q.

Lemma index_of_spec q s k : index_of q s = Some k ↔ first_at q s k.
Proof.
  unfold first_at. revert k. induction s as [|u r IH]; intros k; cbn [index_of]; case_bool_decide as Eq.
  - split; [intros [= <-]; split_and!; [done|done|lia]|]. intros (_ & Hk & _). cbn in Hk. by replace k with 0 by lia.
  - split; [done|]. intros (E & Hk & _). cbn in Hk. replace k with 0 in E by lia. done.
  - split; [intros [= <-]; split_and!; [done|cbn; lia|lia]|]. intros (_ & _ & Hmin). destruct k; [done|].
    by destruct (Hmin 0); [lia|].
  - rewrite fmap_Some. split.
    + intros (j & (E & Hj & Hmin)%IH & ->). split_and!; [done|cbn; lia|]. intros [|i] Hi; [done|]. apply (Hmin i). lia.
    + intros (E & Hk & Hmin). destruct k as [|k]; [done|]. exists k. split; [|done]. apply IH. cbn in Hk.
      split_and!; [done|lia|]. intros j Hj. apply (Hmin (S j)). lia.
Qed.

Section search.
Context {U : UnicodeHost} (read_text : FileCandidate → outcome app_error text) (input : SearchInput).

(** Line [i] of candidate [c] holds the query: what is searched of the line has it at [k]
    first. *)
Definition hit_at (c : FileCandidate) (i k : nat) (line : text) : Prop :=
  ∃ s, read_text c = Ok s ∧ lines_of s !! i = Some line ∧ first_at (search_query input) (haystack input line) k.

Definition hit (c : FileCandidate) (m : SearchMatch) : Prop :=
  ∃ i k line, hit_at c i k line ∧ sm_path m = fc_logicalPath c ∧ sm_line m = S i ∧ sm_column m = S k ∧
    leads (sm_snippet m) line.

Definition reports (ms : list SearchMatch) (c : FileCandidate) (i k : nat) : Prop :=
  ∃ m, m ∈ ms ∧ sm_path m = fc_logicalPath c ∧ sm_line m = S i ∧ sm_column m = S k.

(** ** One file *)

Lemma search_lines_spec path lines index acc ms more :
  search_lines input path lines index acc = (ms, more) →
  (∀ m, m ∈ ms → m ∈ acc ∨ ∃ i k line, lines !! i = Some line ∧ column_of input line = Some k ∧ sm_path m = path ∧
     sm_line m = S (index + i) ∧ sm_column m = S k ∧ leads (sm_snippet m) line) ∧
  (∀ m, m ∈ acc → m ∈ ms) ∧
  (more = false → ∀ i k line, lines !! i = Some line → column_of input line = Some k →
     ∃ m, m ∈ ms ∧ sm_path m = path ∧ sm_line m = S (index + i) ∧ sm_column m = S k).
Proof.
  revert index acc. induction lines as [|l lines IH]; intros index acc; cbn.
  - intros [= <- <-]. split_and!; [auto|done|done].
  - destruct (column_of input l) as [k0|] eqn:Ek.
    + destruct (_ <=? _)%Z; [intros [= <- <-]; split_and!; auto; done|]. intros Hs.
      destruct (IH _ _ Hs) as (Hsound & Hkeep & Hall). split_and!.
      * intros m Hm. destruct (Hsound m Hm) as [[Ha| ->%list_elem_of_singleton]%elem_of_app|(i & k & line & H1 & H2 & H3 & H4 & H5)].
        -- by left.
        -- right. exists 0, k0, l. cbn. rewrite Nat.add_0_r. split_and!; try done. apply truncateUtf8_leads.
        -- right. exists (S i), k, line. cbn. rewrite Nat.add_succ_r. done.
      * intros m Hm. apply Hkeep. set_solver.
      * intros Hmore [|i] k line Hl Hk.
        -- injection Hl as ->. rewrite Ek in Hk. injection Hk as ->. eexists. split; [apply Hkeep, elem_of_app; right; by left|].
           cbn. rewrite Nat.add_0_r. done.
        -- destruct (Hall Hmore i k line Hl Hk) as (m & Hm & Hp & Hli & Hc). exists m. rewrite Nat.add_succ_r. done.
    + intros Hs. destruct (IH _ _ Hs) as (Hsound & Hkeep & Hall). split_and!; [|done|].
      * intros m Hm. destruct (Hsound m Hm) as [Ha|(i & k & line & H1 & H2 & H3 & H4 & H5)]; [by left|].
        right. exists (S i), k, line. cbn. rewrite Nat.add_succ_r. done.
      * intros Hmore [|i] k line Hl Hk; [cbn in Hl; congruence|].
        destruct (Hall Hmore i k line Hl Hk) as (m & Hm & Hp & Hli & Hc). exists m. rewrite Nat.add_succ_r. done.
Qed.

(** What the result of a file says of it. *)
Record result_ok (c : FileCandidate) (r : FileSearchResult) : Prop := {
  rk_sound : ∀ m, m ∈ fr_matches r → hit c m;
  rk_all : fr_hasMoreMatches r = false → ∀ i k line, hit_at c i k line → reports (fr_matches r) c i k;
  rk_skipped : fr_skipped r = true ↔ read_text c = Err FILE_TOO_LARGE ∨ read_text c = Err BINARY_FILE;
}.

Lemma searchCandidate_ok c r : searchCandidate read_text input c = Ok r → result_ok c r.
Proof.
  unfold searchCandidate. destruct (read_text c) as [s|e] eqn:Er.
  - destruct (search_lines input (fc_logicalPath c) (lines_of s) 0 []) as [ms more] eqn:Es. intros [= <-].
    destruct (search_lines_spec _ _ _ _ _ _ Es) as (Hs & _ & Ha). split; cbn.
    + intros m Hm. destruct (Hs m Hm) as [?|(i & k & line & H1 & H2%index_of_spec & H3 & H4 & H5 & H6)]; [set_solver|].
      exists i, k, line. split_and!; try done. by exists s.
    + intros Hmore i k line (s' & E & Hl & Hk%index_of_spec). rewrite Er in E. injection E as <-.
      destruct (Ha Hmore i k line Hl Hk) as (m & ? & ? & ? & ?). by exists m.
    + rewrite Er. split; [done|]. by intros [|].
  - destruct e; try done; intros [= <-]; (split; cbn; [set_solver| |rewrite Er; tauto]);
      intros _ i k line (s & E & _); congruence.
Qed.

(** ** The limits *)

Record state_ok (files : list FileCandidate) (s : search_state) : Prop := {
  sk_sound : ∀ m, m ∈ ss_matches s → ∃ c, c ∈ files ∧ hit c m;
  sk_results : (Z.of_nat (length (ss_matches s)) ≤ si_maxSearchResults input)%Z;
  sk_bytes : ss_bytes s = foldr (λ m n, (utf8_length (sm_snippet m) + n)%Z) 0%Z (ss_matches s);
  sk_max : (ss_bytes s ≤ si_maxSearchSnippetBytes input)%Z;
}.

(** Nothing that was reported is lost, and a mark stays. *)
Definition grows (s s' : search_state) : Prop :=
  (∃ new, ss_matches s' = ss_matches s ++ new) ∧ (ss_truncated s' = false → ss_truncated s = false).

#[global] Instance grows_po : PreOrder grows.
Proof.
  split; [intros s; split; [exists []; by rewrite app_nil_r|done]|].
  intros s1 s2 s3 [(n1 & E1) H1] [(n2 & E2) H2]. split; [|auto]. exists (n1 ++ n2). by rewrite E2, E1, app_assoc.
Qed.

Lemma grows_mark s : grows s (mark_truncated s).
Proof. split; [exists []; by rewrite app_nil_r|done]. Qed.

Lemma state_ok_mark files s : state_ok files s → state_ok files (mark_truncated s).
Proof. by intros []. Qed.

Lemma bytes_snoc ms m :
  foldr (λ m n, (utf8_length (sm_snippet m) + n)%Z) 0%Z (ms ++ [m]) =
  (foldr (λ m n, (utf8_length (sm_snippet m) + n)%Z) 0%Z ms + utf8_length (sm_snippet m))%Z.
Proof. induction ms as [|x ms IH]; cbn; [lia|]. rewrite IH. lia. Qed.

Lemma take_matches_ok files c found s :
  c ∈ files → (∀ m, m ∈ found → hit c m) → state_ok files s →
  state_ok files (take_matches input found s) ∧ grows s (take_matches input found s) ∧
  (ss_truncated (take_matches input found s) = false →
   ∀ m, m ∈ found → ∃ m', m' ∈ ss_matches (take_matches input found s) ∧ sm_path m' = sm_path m ∧ sm_line m' = sm_line m ∧
     sm_column m' = sm_column m) ∧
  ss_skipped (take_matches input found s) = ss_skipped s.
Proof.
  intros Hc. revert s. induction found as [|m found IH]; intros s Hf Hs; cbn; [split_and!; [done|done|set_solver|done]|].
  destruct (Z.leb_spec (si_maxSearchResults input) (Z.of_nat (length (ss_matches s)))).
  { split_and!; [by apply state_ok_mark|apply grows_mark|done|done]. }
  destruct (Z.leb_spec (si_maxSearchSnippetBytes input - ss_bytes s) 0).
  { split_and!; [by apply state_ok_mark|apply grows_mark|done|done]. }
  set (snippet := truncateUtf8 (sm_snippet m) (si_maxSearchSnippetBytes input - ss_bytes s)).
  set (m' := {| sm_path := sm_path m; sm_line := sm_line m; sm_column := sm_column m; sm_snippet := snippet |}).
  set (s1 := {| ss_matches := ss_matches s ++ [m']; ss_bytes := ss_bytes s + utf8_length snippet;
                ss_skipped := ss_skipped s; ss_truncated := ss_truncated s |}).
  assert (utf8_length snippet ≤ si_maxSearchSnippetBytes input - ss_bytes s)%Z as Hlen by (apply truncateUtf8_length; lia).
  assert (hit c m') as Hhit.
  { destruct (Hf m ltac:(set_solver)) as (i & k & line & Hat & E1 & E2 & E3 & Hl). exists i, k, line.
    split_and!; try done. etransitivity; [apply truncateUtf8_leads|done]. }
  assert (state_ok files s1) as Hs1.
  { destruct Hs as [K1 K2 K3 K4]. split; cbn.
    - intros x [Hx| ->%list_elem_of_singleton]%elem_of_app; [auto|by exists c].
    - rewrite length_app. cbn. lia.
    - rewrite bytes_snoc, K3. done.
    - lia. }
  destruct (IH s1 ltac:(set_solver) Hs1) as (Hok & Hgr & Hall & Hsk). split_and!; [done| | |done].
  - etrans; [|exact Hgr]. split; [by exists [m']|done].
  - intros Ht x [->|Hx]%elem_of_cons; [|auto]. exists m'. split; [|done]. destruct Hgr as [(new & ->) _]. cbn. set_solver.
Qed.

(** ** Batches *)

Definition unreadable (c : FileCandidate) : bool :=
  match read_text c with Err FILE_TOO_LARGE | Err BINARY_FILE => true | _ => false end.

Lemma unreadable_skipped c r : result_ok c r → fr_skipped r = unreadable c.
Proof.
  intros [_ _ Hs]. unfold unreadable. destruct (fr_skipped r).
  - destruct (proj1 Hs eq_refl) as [-> | ->]; done.
  - destruct (read_text c) as [t|[]]; try done; exfalso; discriminate (proj2 Hs ltac:(auto)).
Qed.

(** What a state says of the candidates [done]. *)
Definition covers (done : list FileCandidate) (s : search_state) : Prop :=
  ∀ c i k line, c ∈ done → hit_at c i k line → reports (ss_matches s) c i k.

Lemma reports_grow s s' c i k : grows s s' → reports (ss_matches s) c i k → reports (ss_matches s') c i k.
Proof. intros [(new & ->) _] (m & Hm & Hr). exists m. split; [set_solver|done]. Qed.

Lemma take_results_ok files batch results s :
  Forall2 result_ok batch results → (∀ c, c ∈ batch → c ∈ files) → state_ok files s → limit_reached input s = false →
  let s' := take_results input results s in
  state_ok files s' ∧ grows s s' ∧
  (ss_truncated s' = false → covers batch s' ∧ ss_skipped s' = ss_skipped s + length (List.filter unreadable batch) ∧
     limit_reached input s' = false).
Proof.
  intros HF. revert s. induction HF as [|c r batch results Hr HF IH]; intros s Hin Hs Hl; cbn.
  { split_and!; [done|done|]. intros _. split_and!; [intros ???? Hc; set_solver|lia|done]. }
  pose proof (unreadable_skipped _ _ Hr) as Hu. rewrite <-Hu. destruct (fr_skipped r) eqn:Esk.
  - set (s1 := {| ss_matches := ss_matches s; ss_bytes := ss_bytes s; ss_skipped := S (ss_skipped s); ss_truncated := ss_truncated s |}).
    destruct (IH s1 ltac:(set_solver)) as (Hok & Hgr & Hcov); [by destruct Hs|done|]. split_and!; [done| |].
    + etrans; [|exact Hgr]. split; [exists []; by rewrite app_nil_r|done].
    + intros Ht. destruct (Hcov Ht) as (Hc & Hk & Hl'). split_and!; [|cbn in Hk; cbn; lia|done].
      intros c' i k line [->|Hc']%elem_of_cons Hh; [|by eapply Hc]. exfalso.
      destruct Hh as (x & E & _). unfold unreadable in Hu. by rewrite E in Hu.
  - destruct (take_matches_ok files c (fr_matches r) s ltac:(set_solver) (rk_sound _ _ Hr) Hs) as (Hok & Hgr & Hall & Hsk).
    set (s1 := take_matches input (fr_matches r) s) in *.
    set (s2 := if fr_hasMoreMatches r then mark_truncated s1 else s1).
    assert (state_ok files s2 ∧ grows s1 s2 ∧ ss_skipped s2 = ss_skipped s1) as (Hok2 & Hgr2 & Hsk2).
    { unfold s2. case_match; [|done]. split_and!; [by apply state_ok_mark|apply grows_mark|done]. }
    destruct (limit_reached input s2) eqn:El.
    { split_and!; [by apply state_ok_mark|etrans; [exact Hgr|etrans; [exact Hgr2|apply grows_mark]]|done]. }
    destruct (IH s2 ltac:(set_solver) Hok2 El) as (Hok3 & Hgr3 & Hcov). split_and!; [done|by etrans; [exact Hgr|etrans]|].
    intros Ht. destruct (Hcov Ht) as (Hc & Hk & Hl'). split_and!; [|lia|done].
    intros c' i k line [->|Hc']%elem_of_cons Hh; [|by eapply Hc].
    assert (ss_truncated s2 = false) as Ht2 by (by apply (proj2 Hgr3)).
    assert (fr_hasMoreMatches r = false) as Hmore by (unfold s2 in Ht2; by destruct (fr_hasMoreMatches r)).
    assert (ss_truncated s1 = false) as Ht1 by (by apply (proj2 Hgr2)).
    destruct (rk_all _ _ Hr Hmore _ _ _ Hh) as (m & Hm & E1 & E2 & E3).
    destruct (Hall Ht1 m Hm) as (m' & Hm' & F1 & F2 & F3). eapply reports_grow; [exact Hgr3|].
    eapply reports_grow; [exact Hgr2|]. exists m'. split; [done|]. by rewrite F1, F2, F3.
Qed.

Lemma search_batch_ok batch rs : search_batch read_text input batch = Ok rs → Forall2 result_ok batch rs.
Proof.
  unfold search_batch. intros Hb.
  cut (∀ acc, fold_outcome (λ acc c, r ← searchCandidate read_text input c; Ok (acc ++ [r])) acc batch = Ok rs →
    ∃ new, rs = acc ++ new ∧ Forall2 result_ok batch new).
  { intros Hgen. destruct (Hgen [] Hb) as (new & -> & HF). done. }
  clear Hb. induction batch as [|c batch IH]; intros acc Hf; cbn in Hf.
  - injection Hf as <-. exists []. by rewrite app_nil_r.
  - apply outcome_bind_Ok in Hf as (acc' & (r & Hr & [= <-])%outcome_bind_Ok & Hf).
    destruct (IH _ Hf) as (new & -> & HF). exists (r :: new). rewrite <-app_assoc. split; [done|].
    constructor; [by apply searchCandidate_ok|done].
Qed.

Lemma search_batches_ok files fuel rest done s s' :
  length rest ≤ fuel → files = done ++ rest → state_ok files s → limit_reached input s = false →
  (ss_truncated s = false → covers done s ∧ ss_skipped s = length (List.filter unreadable done)) →
  search_batches read_text input fuel rest s = Ok s' →
  state_ok files s' ∧
  (ss_truncated s' = false → covers files s' ∧ ss_skipped s' = length (List.filter unreadable files)).
Proof.
  revert rest done s. induction fuel as [|fuel IH]; intros rest done s Hf -> Hs Hl Hc.
  { destruct rest; [|cbn in Hf; lia]. cbn. intros [= <-]. by rewrite app_nil_r in *. }
  destruct rest as [|c0 rest0]; [cbn; intros [= <-]; by rewrite app_nil_r in *|]. cbn [search_batches].
  set (rest := c0 :: rest0) in *. intros (rs & Hb & Hr)%outcome_bind_Ok. cbv zeta in Hr.
  set (batch := take SEARCH_FILE_CONCURRENCY rest) in *.
  assert (done ++ rest = (done ++ batch) ++ drop SEARCH_FILE_CONCURRENCY rest) as Esplit
    by (unfold batch; by rewrite <-app_assoc, take_drop).
  destruct (take_results_ok (done ++ rest) batch rs s) as (Hok & Hgr & Hcov); [by apply search_batch_ok| |done|done|].
  { intros c Hin. rewrite Esplit. set_solver. }
  assert (ss_truncated (take_results input rs s) = false → covers (done ++ batch) (take_results input rs s) ∧
    ss_skipped (take_results input rs s) = length (List.filter unreadable (done ++ batch))) as Hdone.
  { intros Ht. destruct (Hcov Ht) as (Hcb & Hk & _). destruct (Hc (proj2 Hgr Ht)) as [Hcd Hkd]. split.
    - intros c i k line [Hin|Hin]%elem_of_app Hh; [|by eapply Hcb]. eapply reports_grow; [exact Hgr|]. by eapply Hcd.
    - rewrite List.filter_app, length_app. lia. }
  destruct (limit_reached input (take_results input rs s)) eqn:El.
  - injection Hr as <-. split; [done|]. intros Ht. destruct (Hcov Ht) as (_ & _ & Hno). congruence.
  - eapply (IH _ (done ++ batch)); [| |done|done|exact Hdone|exact Hr].
    + rewrite length_drop. unfold SEARCH_FILE_CONCURRENCY, rest in *. cbn in *. lia.
    + done.
Qed.

Lemma searchAuthorizedFiles_ok files initial s :
  (0 < si_maxSearchResults input)%Z → (0 < si_maxSearchSnippetBytes input)%Z →
  searchAuthorizedFiles read_text input files initial = Ok s →
  state_ok files s ∧
  (ss_truncated s = false → covers files s ∧ ss_skipped s = length (List.filter unreadable files)).
Proof.
  intros H1 H2. apply (search_batches_ok files _ files []); [done|done| | |].
  - split; cbn; [set_solver|lia|done|lia].
  - unfold limit_reached. apply orb_false_iff. split; apply Z.leb_gt; cbn; lia.
  - intros _. split; [intros ???? Hc; set_solver|done].
Qed.

End search.

(** C37: A search in the listed files. A search that returns reports only lines of the listed
    files that hold the query, with the position of its first occurrence in what is searched of
    the line (the line itself in a case-sensitive search, its lower-cased form otherwise, whose
    positions may differ from those of the line) and a snippet made of the first characters of
    the line; the number of matches and the UTF-8 bytes of all snippets stay within the limits
    of the workspace; and if it is not marked as truncated then every line of every readable
    file that holds the query is reported, and the files that were skipped, for their size or as
    binary, are counted.  Texts are any UTF-16 code units, lone surrogates included, and the
    case mapping is any function. *)
Theorem search_is_exact `{UnicodeHost} read_text input files initialTruncated s :
  (0 < si_maxSearchResults input)%Z → (0 < si_maxSearchSnippetBytes input)%Z →
  searchAuthorizedFiles read_text input files initialTruncated = Ok s →
  (∀ m, m ∈ ss_matches s → ∃ c, c ∈ files ∧ hit read_text input c m) ∧
  (Z.of_nat (length (ss_matches s)) ≤ si_maxSearchResults input)%Z ∧
  (foldr (λ m n, (utf8_length (sm_snippet m) + n)%Z) 0%Z (ss_matches s) ≤ si_maxSearchSnippetBytes input)%Z ∧
  (ss_truncated s = false →
     (∀ c i k line, c ∈ files → hit_at read_text input c i k line → reports (ss_matches s) c i k) ∧
     ss_skipped s = length (List.filter (unreadable read_text) files)).
Proof.
  intros H1 H2 Hs. apply searchAuthorizedFiles_ok in Hs as [[K1 K2 K3 K4] Hc]; [|done|done].
  split_and!; [done|done|by rewrite <-K3|exact Hc].
Qed.

(** ** Searches *)

Definition units (s : string) : text := map Ascii.N_of_ascii (String.list_ascii_of_string s).

(** The lower case of the letters of Latin 1 and of U+0130, whose lower case is [i] and a
    combining dot. *)
Definition sample_lower (u : N) : text :=
  if (u =? 304)%N then [105; 775]%N
  else if ((65 <=? u) && (u <=? 90) || (192 <=? u) && (u <=? 222) && negb (u =? 215))%N then [(u + 32)%N] else [u].
#[local] Instance sample_unicode : UnicodeHost := {| toLocaleLowerCase := flat_map sample_lower |}.

Definition sample_text (c : FileCandidate) : outcome app_error text :=
  if bool_decide (fc_logicalPath c = "big") then Err FILE_TOO_LARGE
  else Ok (units "Alpha" ++ [10] ++ units "beta " ++ [192; 13; 10] ++ [55357; 56832; 224])%N.
Definition sample_files : list FileCandidate :=
  [{| fc_logicalPath := "a"; fc_absolutePath := "/w/a" |}; {| fc_logicalPath := "big"; fc_absolutePath := "/w/big" |}].

(** U+00E0 is found in the second line, which has U+00C0, and in the third one, after a
    surrogate pair. *)
Definition sample_input : SearchInput :=
  {| si_query := [224]%N; si_caseSensitive := false; si_maxSearchResults := 5; si_maxSearchSnippetBytes := 14 |}.
Definition sample_state : search_state :=
  {| ss_matches := [{| sm_path := "a"; sm_line := 2; sm_column := 6; sm_snippet := units "beta " ++ [192%N] |};
                    {| sm_path := "a"; sm_line := 3; sm_column := 3; sm_snippet := [55357; 56832; 224]%N |}];
     ss_bytes := 13; ss_skipped := 1; ss_truncated := false |}.

Lemma search_is_exact_witness :
  searchAuthorizedFiles sample_text sample_input sample_files false = Ok sample_state ∧
  ss_skipped sample_state = length (List.filter (unreadable sample_text) sample_files).
Proof.
  assert (searchAuthorizedFiles sample_text sample_input sample_files false = Ok sample_state) as Hs
    by (vm_compute; reflexivity).
  exact (conj Hs (proj2 (proj2 (proj2 (proj2 (search_is_exact sample_text sample_input sample_files false sample_state
    eq_refl eq_refl Hs))) eq_refl))).
Defined.

Example truncation_keeps_characters :
  truncateUtf8 [55357; 56832; 224]%N 5 = [55357; 56832]%N ∧ truncateUtf8 [55357; 56832; 224]%N 3 = [] ∧
  utf8_length [55357; 97]%N = 4%Z.
Proof. split_and!; reflexivity. Qed.

(** The column of a search that ignores case is a position in the lower-cased line
    (search.ts:144): the third code unit of the line is reported as column 4. *)
Lemma column_is_not_a_position :
  let line := [304; 98; 99]%N in
  let input := {| si_query := [99]%N; si_caseSensitive := false; si_maxSearchResults := 5; si_maxSearchSnippetBytes := 50 |} in
  line !! 2 = Some 99%N ∧ column_of input line = Some 3 ∧ length line = 3.
Proof. split_and!; reflexivity. Qed.
