(* ===== verification/PolicyMerge.v ===== *)
(** * PolicyMerge: explicit policies and discovered workspaces

    packages/mcp-core/src/policy-merge.ts, project-write-policy.ts and workspace-catalog.ts:
    the merge of the policy file with the folders an editor has open, the automatic write
    access below configured roots, and the catalog that keeps the last good result.
    [MergeHost] is the platform, SHA-256 as hexadecimal text and the collation of
    [localeCompare]. *)

From S2P Require Import Prelude Text JsMap NodePath WorkspacePolicies TextFiles.
From Stdlib Require Import Ascii.

Class MergeHost := {
  on_windows : bool;
  sha256_hex : string → string;
  id_before : string → string → bool;
}.

Record DiscoveredWorkspaceCandidate := {
  dc_name : string;
  dc_rootPath : string;
  dc_canonicalRootPath : string;
  dc_trusted : bool;
}.

Record ExplicitPolicyInput := { ep_workspace : PolicyEntry; ep_canonicalRootPath : string }.

Inductive WorkspaceCatalogSource := src_explicit | src_discovered | src_deny_index.

Record WorkspaceCatalogEntryMeta := {
  cm_source : WorkspaceCatalogSource;
  cm_id : string;
  cm_name : string;
  cm_rootPath : string;
  cm_canonicalRootPath : string;
  cm_trusted : bool;
  cm_enabled : bool;
}.

(** Limits that a setting gives, as integers. *)
Record LimitsOverride := {
  ov_maxFileBytes : option Z;
  ov_maxSearchResults : option Z;
  ov_maxSearchSnippetBytes : option Z;
  ov_maxDiffBytes : option Z;
  ov_maxListedFiles : option Z;
}.

Record MergeOptions := {
  mo_includeOpenWorkspaces : option bool;
  mo_alwaysExposeExplicit : option bool;
  mo_requireTrustedWorkspace : option bool;
  mo_discoveredLimitsOverride : option LimitsOverride;
  mo_enableProjectWrites : bool;
  mo_projectRootPath : option string;
  mo_enableDevelopmentWrites : bool;
  mo_developmentRootPath : option string;
}.

Definition DISCOVERED_WORKSPACE_LIMIT_CEILINGS : WorkspaceLimits :=
  {| maxFileBytes := 64000; maxSearchResults := 100; maxSearchSnippetBytes := 20000; maxDiffBytes := 500000;
     maxListedFiles := 500; maxDiscoveryDirectories := None; maxDiscoveryEntries := None; maxDiscoveryDurationMs := None |}.

Definition IMPLICIT_TECHNICAL_WORKSPACE_NAMES : list string :=
  ["build"; "coverage"; "dist"; "docker"; "node_modules"; "releases"; "runtime"; "test"; "tests"; "temp"; "tmp"].

(** ** Strings *)

(** [s.replace(/\/+$/, "")] *)
Fixpoint strip_trailing_slashes (s : string) : string :=
  match s with
  | EmptyString => EmptyString
  | String c r =>
      match strip_trailing_slashes r with
      | EmptyString => if is_slash c then EmptyString else String c EmptyString
      | r => String c r
      end
  end.

Definition slug_char (c : Ascii.ascii) : bool := is_lower c || is_digit c.
Definition dash : Ascii.ascii := "-"%char.

(** [s.replace(/[^a-z0-9]+/g, "-")]; [gap] says that the characters just before were replaced. *)
Fixpoint dash_runs (gap : bool) (s : string) : string :=
  match s with
  | EmptyString => EmptyString
  | String c r =>
      if slug_char c then String c (dash_runs false r)
      else if gap then dash_runs true r else String dash (dash_runs true r)
  end.

Fixpoint strip_leading_dashes (s : string) : string :=
  match s with
  | String c r => if Ascii.eqb c dash then strip_leading_dashes r else s
  | EmptyString => EmptyString
  end.

Fixpoint strip_trailing_dashes (s : string) : string :=
  match s with
  | EmptyString => EmptyString
  | String c r =>
      match strip_trailing_dashes r with
      | EmptyString => if Ascii.eqb c dash then EmptyString else String c EmptyString
      | r => String c r
      end
  end.

Definition slugify (value : string) : string :=
  let slug := stake 32 (strip_trailing_dashes (strip_leading_dashes (dash_runs false (toLowerCase (trim value))))) in
  if 0 <? String.length slug then slug else "workspace".

(** [s.replace(/[^a-zA-Z0-9._-]/g, "-")] *)
Fixpoint id_chars (s : string) : string :=
  match s with
  | EmptyString => EmptyString
  | String c r => String (if is_alnum c || char_in "._-" c then c else dash) (id_chars r)
  end.

(** The part after the last slash. *)
Definition leafName (filePath : string) : string :=
  default "" (last (split_slash (strip_trailing_slashes (to_slashes filePath)))).

Section merge.
Context {H : MergeHost}.

Definition normalizePathKey (filePath : string) : string :=
  let normalized := strip_trailing_slashes (to_slashes filePath) in
  if on_windows then toLowerCase normalized else normalized.

Definition canonicalPathKey (filePath : string) : string := normalizePathKey filePath.

Definition shortHash (value : string) : string := stake 8 (sha256_hex value).

(** ** Limits *)

Definition clamp_limit (override : option Z) (ceiling : Z) : Z :=
  match override with
  | Some value => if (0 <? value)%Z then Z.min value ceiling else ceiling
  | None => ceiling
  end.

Definition clampDiscoveredLimits (override : option LimitsOverride) : WorkspaceLimits :=
  let c := DISCOVERED_WORKSPACE_LIMIT_CEILINGS in
  match override with
  | None => c
  | Some o =>
      {| maxFileBytes := clamp_limit (ov_maxFileBytes o) (maxFileBytes c);
         maxSearchResults := clamp_limit (ov_maxSearchResults o) (maxSearchResults c);
         maxSearchSnippetBytes := clamp_limit (ov_maxSearchSnippetBytes o) (maxSearchSnippetBytes c);
         maxDiffBytes := clamp_limit (ov_maxDiffBytes o) (maxDiffBytes c);
         maxListedFiles := clamp_limit (ov_maxListedFiles o) (maxListedFiles c);
         maxDiscoveryDirectories := None; maxDiscoveryEntries := None; maxDiscoveryDurationMs := None |}
  end.

(** ** Automatic write access *)

Definition isUnderConfiguredRoot (canonicalRootPath rootPath : string) : bool :=
  let rootKey := canonicalPathKey rootPath in
  let pathKey := canonicalPathKey canonicalRootPath in
  bool_decide (pathKey = rootKey) || startsWith (rootKey +:+ "/") pathKey.

(** [options.flag && options.path && test(path)], an empty path being false *)
Definition configured (flag : bool) (path : option string) (test : string → bool) : bool :=
  flag && match path with Some p => negb (bool_decide (p = "")) && test p | None => false end.

Definition isAutoWriteEligible (canonicalRootPath : string) (options : MergeOptions) : bool :=
  configured (mo_enableProjectWrites options) (mo_projectRootPath options) (isUnderConfiguredRoot canonicalRootPath) ||
  configured (mo_enableDevelopmentWrites options) (mo_developmentRootPath options) (isUnderConfiguredRoot canonicalRootPath).

Definition isConfiguredProjectRoot (canonicalRootPath : string) (options : MergeOptions) : bool :=
  configured (mo_enableProjectWrites options) (mo_projectRootPath options)
    (λ p, bool_decide (canonicalPathKey canonicalRootPath = canonicalPathKey p)).

Definition withAutoWriteAccess (workspace : PolicyEntry) (canonicalRootPath : string) (options : MergeOptions) : PolicyEntry :=
  if negb (isAutoWriteEligible canonicalRootPath options) then workspace
  else
    {| pe_id := pe_id workspace; pe_name := pe_name workspace; pe_rootPath := pe_rootPath workspace;
       pe_workspaceKind := if isConfiguredProjectRoot canonicalRootPath options then Some aggregate
                           else pe_workspaceKind workspace;
       pe_enabled := pe_enabled workspace; pe_permissionProfile := full_repo_write;
       pe_confirmationMode := pe_confirmationMode workspace; pe_allowedRoots := pe_allowedRoots workspace;
       pe_blockedGlobs := pe_blockedGlobs workspace; pe_limits := pe_limits workspace;
       pe_allowWrites := ["."]; pe_allowShell := ["."]; pe_allowedShells := supportedShells |}.

(** ** Discovered workspaces *)

Definition buildDiscoveredId (candidate : DiscoveredWorkspaceCandidate) : string :=
  id_chars (slugify (dc_name candidate) +:+ "-" +:+ shortHash (dc_canonicalRootPath candidate)).

Definition isImplicitTechnicalWorkspaceCandidate (candidate : DiscoveredWorkspaceCandidate) : bool :=
  existsb (λ value,
    let name := toLowerCase (trim value) in
    startsWith "." name || bool_decide (name ∈ IMPLICIT_TECHNICAL_WORKSPACE_NAMES))
    [dc_name candidate; leafName (dc_rootPath candidate); leafName (dc_canonicalRootPath candidate)].

Definition discovered_id (candidate : DiscoveredWorkspaceCandidate) (usedIds : list string) : string :=
  let id := buildDiscoveredId candidate in
  if bool_decide (id ∈ usedIds) then id +:+ "-" +:+ shortHash (dc_canonicalRootPath candidate +:+ ":collision") else id.

(** [createDiscoveredWorkspace]; its identifier is added to [usedIds]. *)
Definition createDiscoveredWorkspace (candidate : DiscoveredWorkspaceCandidate) (limits : WorkspaceLimits)
    (usedIds : list string) : PolicyEntry :=
  {| pe_id := discovered_id candidate usedIds; pe_name := dc_name candidate; pe_rootPath := dc_rootPath candidate;
     pe_workspaceKind := Some repository; pe_enabled := true; pe_permissionProfile := planning_readonly;
     pe_confirmationMode := standard; pe_allowedRoots := ["."]; pe_blockedGlobs := []; pe_limits := limits;
     pe_allowWrites := []; pe_allowShell := []; pe_allowedShells := [powershell] |}.

(** ** The merge *)

Record merge_state := {
  ms_explicitByPath : jsmap PolicyEntry;
  ms_denyPaths : list string;
  ms_catalog : list WorkspaceCatalogEntryMeta;
  ms_usedIds : list string;
  ms_merged : jsmap PolicyEntry;
}.

Definition entry_meta (source : WorkspaceCatalogSource) (w : PolicyEntry) (canonicalRootPath : string) (trusted enabled : bool) :
    WorkspaceCatalogEntryMeta :=
  {| cm_source := source; cm_id := pe_id w; cm_name := pe_name w; cm_rootPath := pe_rootPath w;
     cm_canonicalRootPath := canonicalRootPath; cm_trusted := trusted; cm_enabled := enabled |}.

(** One iteration of the first loop, over the explicit entries. *)
Definition index_entry (s : merge_state) (entry : ExplicitPolicyInput) : merge_state :=
  let workspace := ep_workspace entry in
  let key := canonicalPathKey (ep_canonicalRootPath entry) in
  {| ms_explicitByPath := jset key workspace (ms_explicitByPath s);
     ms_denyPaths := if pe_enabled workspace then ms_denyPaths s else key :: ms_denyPaths s;
     ms_catalog := if pe_enabled workspace then ms_catalog s
                   else ms_catalog s ++ [entry_meta src_deny_index workspace (ep_canonicalRootPath entry) true false];
     ms_usedIds := pe_id workspace :: ms_usedIds s;
     ms_merged := ms_merged s |}.

Definition put_merged (key : string) (w : PolicyEntry) (m : WorkspaceCatalogEntryMeta) (s : merge_state) : merge_state :=
  {| ms_explicitByPath := ms_explicitByPath s; ms_denyPaths := ms_denyPaths s; ms_catalog := ms_catalog s ++ [m];
     ms_usedIds := ms_usedIds s; ms_merged := jset key w (ms_merged s) |}.

Definition use_id (id : string) (s : merge_state) : merge_state :=
  {| ms_explicitByPath := ms_explicitByPath s; ms_denyPaths := ms_denyPaths s; ms_catalog := ms_catalog s;
     ms_usedIds := id :: ms_usedIds s; ms_merged := ms_merged s |}.

(** One iteration of the second loop, over the discovered candidates. *)
Definition merge_candidate (options : MergeOptions) (requireTrusted : bool) (limits : WorkspaceLimits)
    (s : merge_state) (candidate : DiscoveredWorkspaceCandidate) : merge_state :=
  let path := dc_canonicalRootPath candidate in
  let key := canonicalPathKey path in
  if requireTrusted && negb (dc_trusted candidate) then s
  else if bool_decide (key ∈ ms_denyPaths s) then s
  else
    match jget key (ms_explicitByPath s) with
    | Some explicit =>
        if pe_enabled explicit then
          put_merged key (withAutoWriteAccess explicit path options)
            (entry_meta src_explicit explicit path (dc_trusted candidate) true) s
        else s
    | None =>
        if isImplicitTechnicalWorkspaceCandidate candidate then s
        else
          let created := createDiscoveredWorkspace candidate limits (ms_usedIds s) in
          let discovered := withAutoWriteAccess created path options in
          put_merged key discovered (entry_meta src_discovered discovered path (dc_trusted candidate) true)
            (use_id (pe_id created) s)
    end.

(** One iteration of the third loop, over the explicit entries again. *)
Definition expose_entry (options : MergeOptions) (s : merge_state) (entry : ExplicitPolicyInput) : merge_state :=
  let workspace := ep_workspace entry in
  let path := ep_canonicalRootPath entry in
  let key := canonicalPathKey path in
  if negb (pe_enabled workspace) then s
  else
    match jget key (ms_merged s) with
    | Some _ => s
    | None =>
        put_merged key (withAutoWriteAccess workspace path options) (entry_meta src_explicit workspace path true true) s
    end.

Inductive merge_error := MERGE_EMPTY_POLICY.

Definition empty_merge : merge_state :=
  {| ms_explicitByPath := []; ms_denyPaths := []; ms_catalog := []; ms_usedIds := []; ms_merged := [] |}.

Definition merged_state (base : list ExplicitPolicyInput) (discovered : list DiscoveredWorkspaceCandidate)
    (options : MergeOptions) : merge_state :=
  let limits := clampDiscoveredLimits (mo_discoveredLimitsOverride options) in
  let s := fold_left index_entry base empty_merge in
  let s := if default true (mo_includeOpenWorkspaces options)
           then fold_left (merge_candidate options (default true (mo_requireTrustedWorkspace options)) limits) discovered s
           else s in
  if default false (mo_alwaysExposeExplicit options) then fold_left (expose_entry options) base s else s.

Definition workspace_before (a b : PolicyEntry) : bool := id_before (pe_id a) (pe_id b).

Definition mergeWorkspacePolicies (base : list ExplicitPolicyInput) (discovered : list DiscoveredWorkspaceCandidate)
    (options : MergeOptions) : outcome merge_error (list PolicyEntry * list WorkspaceCatalogEntryMeta) :=
  let s := merged_state base discovered options in
  let workspaces := order_by workspace_before (map snd (ms_merged s)) in
  if length workspaces =? 0 then Err MERGE_EMPTY_POLICY else Ok (workspaces, ms_catalog s).

End merge.

(** ** The catalog *)

Record WorkspaceCatalogSnapshot := {
  cs_version : Z;
  cs_policy : list PolicyEntry;
  cs_catalog : list WorkspaceCatalogEntryMeta;
  cs_degraded : bool;
  cs_updatedAt : Z;
  cs_errorMessage : option string;
}.

Record catalog_state := { ct_current : option WorkspaceCatalogSnapshot; ct_lastKnownGood : option WorkspaceCatalogSnapshot }.

Definition createEmptyCatalogState : catalog_state := {| ct_current := None; ct_lastKnownGood := None |}.

Definition applyCatalogSnapshot (snapshot : WorkspaceCatalogSnapshot) (state : catalog_state) : catalog_state :=
  {| ct_current := Some snapshot;
     ct_lastKnownGood := if cs_degraded snapshot then ct_lastKnownGood state else Some snapshot |}.

Definition markCatalogDegraded (errorMessage : string) (now : Z) (state : catalog_state) : catalog_state :=
  match or_else (ct_lastKnownGood state) (ct_current state) with
  | None =>
      {| ct_current := Some {| cs_version := 0; cs_policy := []; cs_catalog := []; cs_degraded := true; cs_updatedAt := now;
                               cs_errorMessage := Some errorMessage |};
         ct_lastKnownGood := ct_lastKnownGood state |}
  | Some fallback =>
      {| ct_current := Some {| cs_version := cs_version fallback; cs_policy := cs_policy fallback;
                               cs_catalog := cs_catalog fallback; cs_degraded := true; cs_updatedAt := now;
                               cs_errorMessage := Some errorMessage |};
         ct_lastKnownGood := ct_lastKnownGood state |}
  end.

(** ** PolicyMergeProps: where merged workspaces come from

    Every workspace of a merged policy is an enabled explicit entry or a discovered folder
    with reduced rights; write access comes from the entry or from a configured root; a
    denied path is not exposed, unless an enabled entry repeats it. *)

Section merge.
Context {H : MergeHost} (base : list ExplicitPolicyInput) (discovered : list DiscoveredWorkspaceCandidate) (options : MergeOptions).

Definition entry_key (e : ExplicitPolicyInput) : string := canonicalPathKey (ep_canonicalRootPath e).
Definition denied (k : string) : Prop := ∃ e, e ∈ base ∧ pe_enabled (ep_workspace e) = false ∧ entry_key e = k.

Definition require_trusted : bool := default true (mo_requireTrustedWorkspace options).
Definition discovered_limits : WorkspaceLimits := clampDiscoveredLimits (mo_discoveredLimitsOverride options).

(** ** The first loop *)

Record indexed (done : list ExplicitPolicyInput) (s : merge_state) : Prop := {
  ix_some : ∀ k w, jget k (ms_explicitByPath s) = Some w → ∃ e, e ∈ done ∧ entry_key e = k ∧ ep_workspace e = w;
  ix_none : ∀ k, jget k (ms_explicitByPath s) = None → ∀ e, e ∈ done → entry_key e ≠ k;
  ix_deny : ∀ k, k ∈ ms_denyPaths s ↔ ∃ e, e ∈ done ∧ pe_enabled (ep_workspace e) = false ∧ entry_key e = k;
  ix_merged : ms_merged s = [];
}.

Lemma index_entry_ok done s e : indexed done s → indexed (done ++ [e]) (index_entry s e).
Proof.
  intros [Hs Hn Hd Hm]. unfold index_entry. split; cbn.
  - intros k w. rewrite jget_set. destruct (decide _) as [->|Hne].
    + intros [= <-]. exists e. split; [set_solver|done].
    + intros Hk. destruct (Hs _ _ Hk) as (e' & Hin & Hr). exists e'. split; [set_solver|done].
  - intros k. rewrite jget_set. destruct (decide _) as [->|Hne]; [done|]. intros Hk e' [Hin| ->%list_elem_of_singleton]%elem_of_app.
    + by apply (Hn _ Hk).
    + unfold entry_key. congruence.
  - intros k. destruct (pe_enabled (ep_workspace e)) eqn:Ee.
    + rewrite Hd. split; intros (e' & Hin & Hr); exists e'.
      * split; [set_solver|done].
      * apply elem_of_app in Hin as [?| ->%list_elem_of_singleton]; [done|]. destruct Hr. congruence.
    + rewrite elem_of_cons, Hd. split.
      * intros [->|(e' & Hin & Hr)]; [exists e|exists e']; (split; [set_solver|done]).
      * intros (e' & [Hin| ->%list_elem_of_singleton]%elem_of_app & Hr & Hk); [right; by exists e'|by left].
  - done.
Qed.

Lemma index_all_ok : indexed base (fold_left index_entry base empty_merge).
Proof.
  cut (∀ done rest s, indexed done s → indexed (done ++ rest) (fold_left index_entry rest s)).
  { intros Hgen. apply (Hgen [] base). split; cbn; [done|set_solver|set_solver|done]. }
  intros done rest. revert done. induction rest as [|e rest IH]; intros done s Hs; cbn; [by rewrite app_nil_r|].
  replace (done ++ e :: rest) with ((done ++ [e]) ++ rest) by (by rewrite <-app_assoc). apply IH. by apply index_entry_ok.
Qed.

(** ** The origin of a merged workspace *)

Inductive origin (k : string) (w : PolicyEntry) : Prop :=
| from_explicit e path :
    e ∈ base → pe_enabled (ep_workspace e) = true → entry_key e = k → canonicalPathKey path = k →
    (denied k → mo_alwaysExposeExplicit options = Some true) →
    w = withAutoWriteAccess (ep_workspace e) path options → origin k w
| from_discovered c used :
    c ∈ discovered → (require_trusted = true → dc_trusted c = true) → canonicalPathKey (dc_canonicalRootPath c) = k →
    (∀ e, e ∈ base → entry_key e ≠ k) → isImplicitTechnicalWorkspaceCandidate c = false →
    w = withAutoWriteAccess (createDiscoveredWorkspace c discovered_limits used) (dc_canonicalRootPath c) options →
    origin k w.

Record merging (s : merge_state) : Prop := {
  mg_some : ∀ k w, jget k (ms_explicitByPath s) = Some w → ∃ e, e ∈ base ∧ entry_key e = k ∧ ep_workspace e = w;
  mg_none : ∀ k, jget k (ms_explicitByPath s) = None → ∀ e, e ∈ base → entry_key e ≠ k;
  mg_deny : ∀ k, k ∈ ms_denyPaths s ↔ denied k;
  mg_keys : jsmap_ok (ms_merged s);
  mg_origin : ∀ k w, jget k (ms_merged s) = Some w →
    origin k w ∧ ∃ m, m ∈ ms_catalog s ∧ cm_id m = pe_id w ∧ cm_enabled m = true;
}.

Lemma auto_id w path : pe_id (withAutoWriteAccess w path options) = pe_id w.
Proof. unfold withAutoWriteAccess. by case_match. Qed.

Lemma put_merged_ok k w m s :
  merging s → origin k w → cm_id m = pe_id w → cm_enabled m = true → merging (put_merged k w m s).
Proof.
  intros [H1 H2 H3 H4 H5] Ho Hid Hen. split; cbn; [done|done|done|by apply jsmap_ok_set|].
  intros k' w'. rewrite jget_set. destruct (decide _) as [->|Hne].
  - intros [= <-]. split; [done|]. exists m. split; [set_solver|done].
  - intros Hk. destruct (H5 _ _ Hk) as [Ho' (m' & Hin & Hr)]. split; [done|]. exists m'. split; [set_solver|done].
Qed.

Lemma merge_candidate_ok s c :
  c ∈ discovered → merging s → merging (merge_candidate options require_trusted discovered_limits s c).
Proof.
  intros Hc Hs. unfold merge_candidate. destruct (require_trusted && negb (dc_trusted c)) eqn:Et; [done|].
  case_bool_decide as Hd; [done|]. rewrite (mg_deny s Hs) in Hd. destruct (jget _ _) as [w|] eqn:Ek.
  - destruct (pe_enabled w) eqn:Ee; [|done]. destruct (mg_some s Hs _ _ Ek) as (e & Hin & Hk & <-).
    apply put_merged_ok; [done| |by rewrite auto_id|done].
    apply (from_explicit _ _ e (dc_canonicalRootPath c)); [exact Hin|exact Ee|exact Hk|done|intros Hx; by destruct (Hd Hx)|done].
  - destruct (isImplicitTechnicalWorkspaceCandidate c) eqn:Ei; [done|].
    apply put_merged_ok; [by destruct Hs|  |done|done]. eapply from_discovered; [done| |done| |done|done].
    + intros Hr. rewrite Hr in Et. cbn in Et. by apply negb_false_iff in Et.
    + by apply (mg_none s Hs).
Qed.

Lemma expose_entry_ok s e :
  mo_alwaysExposeExplicit options = Some true → e ∈ base → merging s → merging (expose_entry options s e).
Proof.
  intros Ha He Hs. unfold expose_entry. destruct (pe_enabled (ep_workspace e)) eqn:Ee; cbn [negb]; [|done].
  destruct (jget _ (ms_merged s)); [done|]. apply put_merged_ok; [done| |by rewrite auto_id|done].
  by apply (from_explicit _ _ e (ep_canonicalRootPath e)).
Qed.

Lemma fold_ok {A} (f : merge_state → A → merge_state) (P : merge_state → Prop) l s :
  (∀ s x, x ∈ l → P s → P (f s x)) → P s → P (fold_left f l s).
Proof.
  revert s. induction l as [|x l IH]; intros s Hf Hs; [done|]. cbn. apply IH; [set_solver|]. apply Hf; [set_solver|done].
Qed.

Lemma merged_state_ok : merging (merged_state base discovered options).
Proof.
  pose proof index_all_ok as [I1 I2 I3 I4]. unfold merged_state. cbv zeta.
  assert (merging (fold_left index_entry base empty_merge)) as H0.
  { split; [done|done|done|rewrite I4; constructor|]. intros k w. rewrite I4. done. }
  fold require_trusted discovered_limits.
  assert (merging (if default true (mo_includeOpenWorkspaces options)
    then fold_left (merge_candidate options require_trusted discovered_limits) discovered (fold_left index_entry base empty_merge)
    else fold_left index_entry base empty_merge)) as H1.
  { case_match; [|done]. apply fold_ok; [|done]. intros s c Hc. by apply merge_candidate_ok. }
  destruct (mo_alwaysExposeExplicit options) as [[]|] eqn:Ea; cbn; try done.
  apply fold_ok; [|done]. intros s e He. by apply expose_entry_ok.
Qed.

(** ** Rights *)

Definition limits_within (l c : WorkspaceLimits) : Prop :=
  (0 < maxFileBytes l ≤ maxFileBytes c ∧ 0 < maxSearchResults l ≤ maxSearchResults c ∧
   0 < maxSearchSnippetBytes l ≤ maxSearchSnippetBytes c ∧ 0 < maxDiffBytes l ≤ maxDiffBytes c ∧
   0 < maxListedFiles l ≤ maxListedFiles c)%Z.

Lemma clamp_limit_bounds o c : (0 < c → 0 < clamp_limit o c ≤ c)%Z.
Proof. intros Hc. unfold clamp_limit. destruct o as [v|]; [|lia]. destruct (Z.ltb_spec 0 v); lia. Qed.

Lemma clamped o : limits_within (clampDiscoveredLimits o) DISCOVERED_WORKSPACE_LIMIT_CEILINGS.
Proof.
  destruct o as [o|]; unfold limits_within, clampDiscoveredLimits; cbn [maxFileBytes maxSearchResults maxSearchSnippetBytes maxDiffBytes maxListedFiles];
    split_and!; first [apply clamp_limit_bounds; cbn; lia|cbn; lia].
Qed.

(** The path is at or below a root that is configured for writes. *)
Definition below_write_root (path : string) : Prop :=
  ∃ root, ((mo_enableProjectWrites options = true ∧ mo_projectRootPath options = Some root) ∨
           (mo_enableDevelopmentWrites options = true ∧ mo_developmentRootPath options = Some root)) ∧
    split_slash (canonicalPathKey root) `prefix_of` split_slash (canonicalPathKey path).

Lemma eligible_below path : isAutoWriteEligible path options = true → below_write_root path.
Proof.
  unfold isAutoWriteEligible, configured. intros [Hp|Hp]%orb_true_iff; apply andb_true_iff in Hp as [Hf Hp];
    destruct (mo_projectRootPath options) as [p|] eqn:E1; destruct (mo_developmentRootPath options) as [q|] eqn:E2; try done;
    apply andb_true_iff in Hp as [_ Hp]; apply under_iff in Hp; eexists; (split; [|exact Hp]); rewrite ?E1, ?E2; auto.
Qed.

Lemma auto_profile w path :
  pe_permissionProfile (withAutoWriteAccess w path options) = full_repo_write →
  pe_permissionProfile w = full_repo_write ∨ below_write_root path.
Proof.
  unfold withAutoWriteAccess. destruct (isAutoWriteEligible path options) eqn:E; cbn; [|by left].
  intros _. right. by apply eligible_below.
Qed.

Lemma auto_limits w path : pe_limits (withAutoWriteAccess w path options) = pe_limits w.
Proof. unfold withAutoWriteAccess. by case_match. Qed.

End merge.

(** C17: A merged policy is safe. Every workspace that [mergeWorkspacePolicies] returns is either an
    enabled explicit entry, possibly with the automatic write access, or a discovered folder
    that no explicit entry names, that is trusted if the options require it and is no
    technical directory, with limits within the fixed ceilings. It may be written only if its
    explicit entry says so or its path is at or below a root configured for writes. A path
    with a disabled explicit entry is not exposed, unless every enabled explicit entry is to
    be exposed and one of them repeats the path. Each workspace is in the catalog as enabled,
    and there is at least one. *)
Theorem merged_policy_is_safe {H : MergeHost} base discovered options workspaces catalog :
  mergeWorkspacePolicies base discovered options = Ok (workspaces, catalog) →
  workspaces ≠ [] ∧
  ∀ w, w ∈ workspaces →
    (∃ m, m ∈ catalog ∧ cm_id m = pe_id w ∧ cm_enabled m = true) ∧
    ∃ k, origin base discovered options k w ∧
      (denied base k → mo_alwaysExposeExplicit options = Some true ∧
         ∃ e, e ∈ base ∧ pe_enabled (ep_workspace e) = true ∧ entry_key e = k) ∧
      ((∀ e, e ∈ base → entry_key e ≠ k) → limits_within (pe_limits w) DISCOVERED_WORKSPACE_LIMIT_CEILINGS) ∧
      (pe_permissionProfile w = full_repo_write →
         (∃ e, e ∈ base ∧ entry_key e = k ∧ pe_permissionProfile (ep_workspace e) = full_repo_write) ∨
         ∃ path, canonicalPathKey path = k ∧ below_write_root options path).
Proof.
  unfold mergeWorkspacePolicies. cbv zeta. set (s := merged_state base discovered options).
  destruct (length _ =? 0) eqn:El; [done|]. intros [= <- <-]. pose proof (merged_state_ok base discovered options) as Hm.
  fold s in Hm. apply Nat.eqb_neq in El. split; [intros E; by rewrite E in El|].
  intros w Hw. rewrite order_by_perm in Hw. apply list_elem_of_fmap in Hw as ([k w'] & -> & Hin).
  apply (jget_elem _ _ _ (mg_keys _ _ _ _ Hm)) in Hin. destruct (mg_origin _ _ _ _ Hm _ _ Hin) as [Ho Hcat].
  split; [done|]. exists k. split; [done|]. cbn [snd]. destruct Ho as [e path He Hen Hk Hp Hd ->|c used Hc Ht Hk Hno Hi ->].
  - split_and!.
    + intros Hden. split; [by apply Hd|]. by exists e.
    + intros Hno. by destruct (Hno e He).
    + intros Hw. apply auto_profile in Hw as [Hw|Hw]; [left; by exists e|right; by exists path].
  - split_and!.
    + intros (e & He & _ & Hek). by destruct (Hno e He).
    + intros _. rewrite auto_limits. apply clamped.
    + intros Hw. apply auto_profile in Hw as [Hw|Hw]; [done|right; by eexists].
Qed.

(** ** A merge *)

#[local] Instance demo_merge : MergeHost := {| on_windows := false; sha256_hex := λ s, s; id_before := String.leb |}.

Definition sample_limits : WorkspaceLimits :=
  {| maxFileBytes := 10; maxSearchResults := 10; maxSearchSnippetBytes := 10; maxDiffBytes := 10; maxListedFiles := 10;
     maxDiscoveryDirectories := None; maxDiscoveryEntries := None; maxDiscoveryDurationMs := None |}.
Definition sample_entry (id : string) (enabled : bool) : PolicyEntry :=
  {| pe_id := id; pe_name := id; pe_rootPath := "/p/app"; pe_workspaceKind := None; pe_enabled := enabled;
     pe_permissionProfile := planning_readonly; pe_confirmationMode := standard; pe_allowedRoots := ["."]; pe_blockedGlobs := [];
     pe_limits := sample_limits; pe_allowWrites := []; pe_allowShell := []; pe_allowedShells := [] |}.
Definition explicit_at (path id : string) (enabled : bool) : ExplicitPolicyInput :=
  {| ep_workspace := sample_entry id enabled; ep_canonicalRootPath := path |}.
Definition folder (path : string) : DiscoveredWorkspaceCandidate :=
  {| dc_name := "My App"; dc_rootPath := path; dc_canonicalRootPath := path; dc_trusted := true |}.
Definition sample_options (always : bool) : MergeOptions :=
  {| mo_includeOpenWorkspaces := None; mo_alwaysExposeExplicit := Some always; mo_requireTrustedWorkspace := None;
     mo_discoveredLimitsOverride := None; mo_enableProjectWrites := true; mo_projectRootPath := Some "/p";
     mo_enableDevelopmentWrites := false; mo_developmentRootPath := None |}.

Definition sample_base : list ExplicitPolicyInput := [explicit_at "/p/app" "app" true; explicit_at "/q/old" "old" false].
Definition sample_folders : list DiscoveredWorkspaceCandidate := [folder "/p/app/"; folder "/q/old"; folder "/q/new"].
Definition sample_result : list PolicyEntry * list WorkspaceCatalogEntryMeta :=
  Eval vm_compute in match mergeWorkspacePolicies sample_base sample_folders (sample_options false) with Ok r => r | Err _ => ([], []) end.

Example sample_ids : map (λ w, (pe_id w, pe_permissionProfile w)) sample_result.1 =
  [("app", full_repo_write); ("my-app--q-new", planning_readonly)].
Proof. vm_compute. reflexivity. Qed.

Lemma sample_merge :
  mergeWorkspacePolicies sample_base sample_folders (sample_options false) = Ok (sample_result.1, sample_result.2).
Proof. vm_cast_no_check (eq_refl (Ok (E := merge_error) (sample_result.1, sample_result.2))). Qed.

Lemma merged_policy_is_safe_witness : sample_result.1 ≠ [].
Proof. exact (proj1 (merged_policy_is_safe _ _ _ _ _ sample_merge)). Defined.

(** The comment on [mergeWorkspacePolicies] says that explicit entries win, including a deny;
    with [alwaysExposeExplicit] an enabled entry that repeats a denied path is exposed all the
    same: the last loop does not look at the denied paths. *)
Lemma denied_path_is_exposed :
  denied [explicit_at "/q/a" "one" false; explicit_at "/q/a/" "two" true] "/q/a" ∧
  map pe_id (match mergeWorkspacePolicies [explicit_at "/q/a" "one" false; explicit_at "/q/a/" "two" true] [] (sample_options true)
             with Ok r => r.1 | Err _ => [] end) = ["two"].
Proof. split; [|vm_compute; reflexivity]. exists (explicit_at "/q/a" "one" false). split; [by left|done]. Qed.

(** ** The catalog *)

(** A catalog operation: a snapshot is applied, or the catalog is marked as degraded. *)
Inductive catalog_op := Apply (snapshot : WorkspaceCatalogSnapshot) | Degrade (message : string) (now : Z).

Definition catalog_step (s : catalog_state) (op : catalog_op) : catalog_state :=
  match op with Apply snapshot => applyCatalogSnapshot snapshot s | Degrade message now => markCatalogDegraded message now s end.

(** The last snapshot applied that was not degraded. *)
Fixpoint last_good (ops : list catalog_op) : option WorkspaceCatalogSnapshot :=
  match ops with
  | [] => None
  | op :: ops =>
      or_else (last_good ops)
        (match op with Apply snapshot => if cs_degraded snapshot then None else Some snapshot | Degrade _ _ => None end)
  end.

(** The catalog falls back to the last good snapshot. After any sequence of snapshots and
    degradations the catalog remembers the last snapshot that was not degraded, and after a
    degradation it serves the policy of that snapshot, marked as degraded. *)
Theorem catalog_keeps_last_good ops :
  let s := fold_left catalog_step ops createEmptyCatalogState in
  ct_lastKnownGood s = last_good ops ∧
  ∀ message now good, last_good ops = Some good →
    ∃ current, ct_current (markCatalogDegraded message now s) = Some current ∧ cs_policy current = cs_policy good ∧
      cs_version current = cs_version good ∧ cs_degraded current = true ∧
      ct_lastKnownGood (markCatalogDegraded message now s) = Some good.
Proof.
  cbv zeta. assert (ct_lastKnownGood (fold_left catalog_step ops createEmptyCatalogState) = last_good ops) as Hg.
  { cut (∀ s, ct_lastKnownGood (fold_left catalog_step ops s) = or_else (last_good ops) (ct_lastKnownGood s)).
    { intros Hgen. rewrite Hgen. cbn. by destruct (last_good ops). }
    induction ops as [|op ops IH]; intros s; [done|]. cbn [fold_left last_good]. rewrite IH.
    destruct (last_good ops); [done|]. cbn. destruct op as [sn|msg now]; cbn; [by destruct (cs_degraded sn)|].
    unfold markCatalogDegraded. by destruct (or_else _ _). }
  split; [done|]. intros message now good Hl. rewrite Hl in Hg. unfold markCatalogDegraded. rewrite Hg. cbn. eauto 10.
Qed.

Lemma catalog_keeps_last_good_witness :
  ∃ current, ct_current (markCatalogDegraded "lost" 2 (fold_left catalog_step
      [Apply {| cs_version := 7; cs_policy := sample_result.1; cs_catalog := []; cs_degraded := false; cs_updatedAt := 1; cs_errorMessage := None |};
       Degrade "down" 1] createEmptyCatalogState)) = Some current ∧ cs_policy current = sample_result.1.
Proof.
  destruct (proj2 (catalog_keeps_last_good
    [Apply {| cs_version := 7; cs_policy := sample_result.1; cs_catalog := []; cs_degraded := false; cs_updatedAt := 1; cs_errorMessage := None |};
     Degrade "down" 1]) "lost" 2%Z _ eq_refl) as (current & Hc & Hp & _).
  exact (ex_intro _ current (conj Hc Hp)).
Defined.
