(* ===== verification/Async.v ===== *)
(** * Async: handlers that await, interleaved

    A handler of the edge services is an [async] function: between two [await]s it runs
    alone, at an [await] any other handler may run.  [task S A] is such a handler over the
    shared state [S]: it is done, or at its next turn it reads the state, changes it and goes
    on.  [run] completes a handler without interruption; [system_step] interleaves the turns
    of all handlers; [wp] is the logic that proves a handler keeps an invariant and a promise
    about the future whatever runs in between. *)

From S2P Require Import Prelude.

Inductive task (S A : Type) : Type :=
| Done (a : A)
| Turn (next : S → task S A) (change : S → S).
Arguments Done {S A} a.
Arguments Turn {S A} next change.

Section tasks.
Context {S : Type}.

Fixpoint task_bind {A B} (k : A → task S B) (m : task S A) : task S B :=
  match m with
  | Done a => k a
  | Turn next change => Turn (λ s, task_bind k (next s)) change
  end.

#[global] Instance task_ret : MRet (task S) := λ A a, Done a.
#[global] Instance task_mbind : MBind (task S) := λ A B k m, task_bind k m.

(** [await storage.get(...)] and a reading of the clock *)
Definition aget {A} (f : S → A) : task S A := Turn (λ s, Done (f s)) (λ s, s).
(** [await storage.put(...)], [await storage.delete(...)] *)
Definition aput (f : S → S) : task S unit := Turn (λ _, Done tt) f.
(** A read and a change with no [await] between them. *)
Definition aturn {A} (f : S → A) (g : S → S) : task S A := Turn (λ s, Done (f s)) g.
(** An [await] of something that does not touch the state. *)
Definition pause : task S unit := Turn (λ _, Done tt) (λ s, s).

(** [const out = []; for (const x of l) out.push(await f(x))] *)
Fixpoint acollect {A B} (f : A → task S B) (l : list A) : task S (list B) :=
  match l with
  | [] => mret []
  | x :: l => y ← f x; ys ← acollect f l; mret (y :: ys)
  end.

(** ** Without interruption *)

Fixpoint run {A} (m : task S A) (s : S) : A * S :=
  match m with
  | Done a => (a, s)
  | Turn next change => run (next s) (change s)
  end.

Lemma run_bind {A B} (m : task S A) (k : A → task S B) s :
  run (m ≫= k) s = run (k (run m s).1) (run m s).2.
Proof. revert s. induction m as [a|next IH change]; intros s; [done|]. cbn. apply IH. Qed.

Lemma bind_assoc {A B C} (m : task S A) (k : A → task S B) (h : B → task S C) s :
  run ((m ≫= k) ≫= h) s = run (m ≫= (λ a, k a ≫= h)) s.
Proof. by rewrite !run_bind. Qed.

(** What holds when a handler has run alone. *)
Definition after {A} (s : S) (m : task S A) (Q : S → A → Prop) : Prop := Q (run m s).2 (run m s).1.

Lemma after_bind {A B} s (m : task S A) (k : A → task S B) Q :
  after s m (λ s' a, after s' (k a) Q) → after s (m ≫= k) Q.
Proof. unfold after. by rewrite run_bind. Qed.

Lemma after_mono {A} s (m : task S A) (Q Q' : S → A → Prop) :
  (∀ s' a, Q s' a → Q' s' a) → after s m Q → after s m Q'.
Proof. unfold after. auto. Qed.

Lemma after_ret {A} s (a : A) (Q : S → A → Prop) : Q s a → after s (mret a) Q.
Proof. done. Qed.

Lemma after_get {A} s (f : S → A) (Q : S → A → Prop) : Q s (f s) → after s (aget f) Q.
Proof. done. Qed.

Lemma after_put s f (Q : S → unit → Prop) : Q (f s) tt → after s (aput f) Q.
Proof. done. Qed.

Lemma after_turn {A} s (f : S → A) g (Q : S → A → Prop) : Q (g s) (f s) → after s (aturn f g) Q.
Proof. done. Qed.

Lemma after_pause s (Q : S → unit → Prop) : Q s tt → after s pause Q.
Proof. done. Qed.

(** A handler that changes nothing. *)
Fixpoint read_only {A} (m : task S A) : Prop :=
  match m with
  | Done _ => True
  | Turn next change => (∀ s, change s = s) ∧ ∀ s, read_only (next s)
  end.

Lemma read_only_bind {A B} (m : task S A) (k : A → task S B) :
  read_only m → (∀ a, read_only (k a)) → read_only (m ≫= k).
Proof. intros Hm Hk. induction m as [a|next IH change]; cbn; [apply Hk|]. destruct Hm as [? Hm]. split; [done|]. intros s. by apply IH. Qed.

Lemma read_only_collect {A B} (f : A → task S B) l : (∀ a, read_only (f a)) → read_only (acollect f l).
Proof. intros Hf. induction l as [|x l IH]; cbn; [done|]. apply read_only_bind; [done|]. intros y. by apply read_only_bind. Qed.

Lemma read_only_run {A} (m : task S A) s : read_only m → (run m s).2 = s.
Proof. revert s. induction m as [a|next IH change]; intros s H; [done|]. destruct H as [Hc Hn]. cbn. rewrite Hc. by apply IH. Qed.

Lemma after_reads {A} s (m : task S A) (Q : S → A → Prop) : read_only m → (∀ a, Q s a) → after s m Q.
Proof. intros Hm HQ. unfold after. rewrite (read_only_run _ _ Hm). apply HQ. Qed.

(** ** All interleavings *)

Record system (A : Type) := { sy_state : S; sy_tasks : list (task S A) }.
Arguments sy_state {A} _.
Arguments sy_tasks {A} _.

Section interleaving.
Context {A : Type} (request : task S A → Prop) (env : S → S → Prop).

(** A request arrives, a handler takes its next turn, or time passes. *)
Inductive system_step : system A → system A → Prop :=
| step_request y m : request m → system_step y {| sy_state := sy_state y; sy_tasks := sy_tasks y ++ [m] |}
| step_turn y i next change :
    sy_tasks y !! i = Some (Turn next change) →
    system_step y {| sy_state := change (sy_state y); sy_tasks := <[i := next (sy_state y)]> (sy_tasks y) |}
| step_env y s : env (sy_state y) s → system_step y {| sy_state := s; sy_tasks := sy_tasks y |}.

(** A given schedule: a handler arrives, takes one turn, or takes all its turns, or the
    state changes from outside. *)
Inductive action :=
| Arrive (m : task S A)
| Go (i : nat)
| Finish (i : nat)
| Outside (f : S → S).

Definition perform (a : action) (y : system A) : option (system A) :=
  match a with
  | Arrive m => Some {| sy_state := sy_state y; sy_tasks := sy_tasks y ++ [m] |}
  | Go i => m ← sy_tasks y !! i;
      match m with
      | Done _ => None
      | Turn next change => Some {| sy_state := change (sy_state y); sy_tasks := <[i := next (sy_state y)]> (sy_tasks y) |}
      end
  | Finish i => m ← sy_tasks y !! i;
      Some {| sy_state := (run m (sy_state y)).2; sy_tasks := <[i := Done (run m (sy_state y)).1]> (sy_tasks y) |}
  | Outside f => Some {| sy_state := f (sy_state y); sy_tasks := sy_tasks y |}
  end.

Fixpoint schedule (acts : list action) (y : system A) : option (system A) :=
  match acts with
  | [] => Some y
  | a :: acts => y' ← perform a y; schedule acts y'
  end.

Lemma finish_steps m i s l :
  l !! i = Some m →
  rtc system_step {| sy_state := s; sy_tasks := l |} {| sy_state := (run m s).2; sy_tasks := <[i := Done (run m s).1]> l |}.
Proof.
  revert s l. induction m as [a|next IH change]; intros s l Hi; cbn.
  - by rewrite list_insert_id.
  - eapply rtc_l; [by apply step_turn|]. cbn.
    specialize (IH s (change s) (<[i := next s]> l)). rewrite list_insert_insert_eq in IH. apply IH.
    apply list_lookup_insert_eq. by eapply lookup_lt_Some.
Qed.

(** The actions of a schedule are steps of the system. *)
Definition allowed (a : action) : Prop :=
  match a with
  | Arrive m => request m
  | Outside f => ∀ s, env s (f s)
  | _ => True
  end.

Lemma schedule_steps acts y y' : Forall allowed acts → schedule acts y = Some y' → rtc system_step y y'.
Proof.
  intros HF. revert y. induction HF as [|a acts Ha _ IH]; intros y; cbn; [by intros [= <-]|].
  intros (y1 & Hp & Hs)%bind_Some. etransitivity; [|by apply IH]. destruct a as [m|i|i|f]; cbn in Hp.
  - simplify_eq. by apply rtc_once, step_request.
  - apply bind_Some in Hp as ([a|next change] & Hi & Hp); simplify_eq. by apply rtc_once, step_turn.
  - apply bind_Some in Hp as (m & Hi & [= <-]). destruct y as [s l]. by apply finish_steps.
  - simplify_eq. by apply rtc_once, step_env.
Qed.

End interleaving.

(** ** The logic *)

Section logic.
Context (I : S → Prop) (future : S → S → Prop) `{!PreOrder future}.

(** From a state in the future of [s0], the handler keeps the invariant and moves to the
    future, and its result satisfies [Q] at the end. *)
Fixpoint wp {A} (s0 : S) (m : task S A) (Q : S → A → Prop) : Prop :=
  match m with
  | Done a => Q s0 a
  | Turn next change =>
      ∀ s, future s0 s → I s → I (change s) ∧ future s (change s) ∧ wp (change s) (next s) Q
  end.

Lemma wp_mono {A} s0 (m : task S A) (Q Q' : S → A → Prop) :
  (∀ s a, future s0 s → Q s a → Q' s a) → wp s0 m Q → wp s0 m Q'.
Proof.
  revert s0. induction m as [a|next IH change]; intros s0 HQ Hm; cbn in *; [by apply HQ|].
  intros s Hs HI. destruct (Hm s Hs HI) as (HI' & Hf & Hn). split_and!; [done..|]. apply IH; [|done].
  intros s' a Hs'. apply HQ. by do 2 (etransitivity; [eassumption|]).
Qed.

Lemma wp_bind {A B} s0 (m : task S A) (k : A → task S B) Q :
  wp s0 m (λ s a, wp s (k a) Q) → wp s0 (m ≫= k) Q.
Proof.
  revert s0. induction m as [a|next IH change]; intros s0 Hm; cbn in *; [done|].
  intros s Hs HI. destruct (Hm s Hs HI) as (? & ? & Hn). split_and!; [done..|]. by apply IH.
Qed.

(** A handler may start later. *)
Lemma wp_later {A} s0 s1 (m : task S A) Q :
  (∀ s s' a, future s s' → Q s a → Q s' a) → future s0 s1 → wp s0 m Q → wp s1 m Q.
Proof.
  intros HQ Hf. destruct m as [a|next change]; cbn; [by apply HQ|]. intros Hm s Hs. apply Hm. by etransitivity.
Qed.

Lemma wp_ret {A} s0 (a : A) (Q : S → A → Prop) : Q s0 a → wp s0 (mret a) Q.
Proof. done. Qed.

Lemma wp_get {A} s0 (f : S → A) Q :
  (∀ s, future s0 s → I s → Q s (f s)) → wp s0 (aget f) Q.
Proof. intros HQ s Hs HI. split_and!; [done|done|by apply HQ]. Qed.

Lemma wp_pause s0 Q : (∀ s, future s0 s → I s → Q s tt) → wp s0 pause Q.
Proof. intros HQ s Hs HI. split_and!; [done|done|by apply HQ]. Qed.

Lemma wp_put s0 (f : S → S) Q :
  (∀ s, future s0 s → I s → I (f s) ∧ future s (f s) ∧ Q (f s) tt) → wp s0 (aput f) Q.
Proof. intros HQ s Hs HI. by apply HQ. Qed.

Lemma wp_turn {A} s0 (f : S → A) (g : S → S) Q :
  (∀ s, future s0 s → I s → I (g s) ∧ future s (g s) ∧ Q (g s) (f s)) → wp s0 (aturn f g) Q.
Proof. intros HQ s Hs HI. by apply HQ. Qed.

Lemma wp_read_only {A} s0 (m : task S A) (Q : S → A → Prop) :
  read_only m → I s0 → (∀ s a, future s0 s → I s → Q s a) → wp s0 m Q.
Proof.
  revert s0. induction m as [a|next IH change]; intros s0 Hm HI0 HQ; [by apply HQ|].
  destruct Hm as [Hc Hn]. cbn. intros s Hs HI. rewrite Hc. split_and!; [done..|]. apply IH; [done|done|].
  intros s' a Hs'. apply HQ. by etransitivity.
Qed.

Lemma wp_run {A} s (m : task S A) Q : wp s m Q → I s → I (run m s).2 ∧ future s (run m s).2 ∧ Q (run m s).2 (run m s).1.
Proof.
  revert s. induction m as [a|next IH change]; intros s Hm HI; [done|]. cbn.
  destruct (Hm s ltac:(done) HI) as (HI' & Hf & Hn). destruct (IH s _ Hn HI') as (? & ? & ?).
  split_and!; [done| |done]. by etransitivity.
Qed.

(** The rule for all interleavings: handlers that keep the invariant alone keep it together.
    [Q i] is what the handler at position [i] ends with. *)
Lemma interleaved {A} (request : task S A → Prop) (env : S → S → Prop) (Q : nat → S → A → Prop) y0 y :
  (∀ i s s' a, future s s' → Q i s a → Q i s' a) →
  (∀ m i s, request m → length (sy_tasks y0) ≤ i → I s → wp s m (Q i)) →
  (∀ s s', env s s' → I s → I s' ∧ future s s') →
  I (sy_state y0) → (∀ i m, sy_tasks y0 !! i = Some m → wp (sy_state y0) m (Q i)) →
  rtc (system_step request env) y0 y →
  I (sy_state y) ∧ future (sy_state y0) (sy_state y) ∧ ∀ i m, sy_tasks y !! i = Some m → wp (sy_state y) m (Q i).
Proof.
  intros HQ Hreq Henv H0 Ht0 Hr.
  enough (I (sy_state y) ∧ future (sy_state y0) (sy_state y) ∧ length (sy_tasks y0) ≤ length (sy_tasks y) ∧
    ∀ i m, sy_tasks y !! i = Some m → wp (sy_state y) m (Q i)) by naive_solver.
  revert y Hr. apply rtc_ind_r; [by split_and!|]. intros y1 y2 _ Hs (HI & Hf & Hl & Ht).
  destruct Hs as [y m Hm|y i next change Hi|y s He]; cbn.
  - split_and!; [done|done|rewrite length_app; lia|]. intros i m'. rewrite lookup_app_Some.
    intros [?|[Hle [_ <-]%list_lookup_singleton_Some]]; [by eapply Ht|]. apply Hreq; [done|lia|done].
  - destruct (Ht _ _ Hi (sy_state y) ltac:(done) HI) as (HI' & Hf' & Hn). split_and!; [done|by etransitivity|by rewrite length_insert|].
    intros j m. rewrite list_lookup_insert_Some. intros [(-> & <- & _)|[_ Hj]]; [done|].
    eapply wp_later; [eauto|exact Hf'|by eapply Ht].
  - destruct (Henv _ _ He HI) as [HI' Hf']. split_and!; [done|by etransitivity|done|]. intros j m Hj.
    eapply wp_later; [eauto|exact Hf'|by eapply Ht].
Qed.

End logic.
End tasks.

(** The rules of [after] as a step of a proof. *)
Ltac alone :=
  match goal with
  | |- after _ (_ ≫= _) _ => apply after_bind
  | |- after _ (mret _) _ => apply after_ret
  | |- after _ (aget _) _ => apply after_get
  | |- after _ (aput _) _ => apply after_put
  | |- after _ (aturn _ _) _ => apply after_turn
  | |- after _ pause _ => apply after_pause
  end.

Arguments system S A : clear implicits.
Arguments sy_state {S A} _.
Arguments sy_tasks {S A} _.
Arguments Arrive {S A} m.
Arguments Go {S A} i.
Arguments Finish {S A} i.
Arguments Outside {S A} f.
