(* ===== verification/OwnerOAuth.v ===== *)
(** * OwnerOAuth: the authorization server of the edge gateway

    packages/mcp-owner-auth/src/owner-oauth.ts and auth.ts: dynamic client registration, the
    authorization page with the owner's password, authorization codes with PKCE, access and
    refresh tokens, revocation, password rotation, and the check of a bearer token.  Every
    [await] of the code is a turn of a [task]; the storage keys have one prefix per kind, so
    the storage is one map per kind.  SHA-256, HMAC, the JSON Web Token encoding, random
    tokens and the URL parser are [OAuthHost]; the accounts are the interface
    [OwnerIdentityStore].  [E_...] events are a record for the theorems: nothing reads them. *)

From S2P Require Import Prelude Text Async.
From Stdlib Require Import Ascii.

(** ** Data *)

Record EdgeOwnerOAuthConfig := {
  cf_ownerSecret : option string;
  cf_issuer : string;
  cf_hostname : string;
  cf_mcpUrl : string;
  cf_scopes : list string;
  cf_accessTokenTtlSeconds : Z;
  cf_refreshTokenTtlSeconds : Z;
}.

Record OwnerClient := {
  oc_client_id : string;
  oc_client_id_issued_at : Z;
  oc_redirect_uris : list string;
  oc_client_name : option string;
  oc_grant_types : list string;
  oc_response_types : list string;
}.

Record AuthorizationCodeRecord := {
  ac_clientId : string;
  ac_redirectUri : string;
  ac_codeChallenge : string;
  ac_scopes : list string;
  ac_resource : string;
  ac_expiresAtMs : Z;
  ac_userId : string;
}.

Record RefreshTokenRecord := {
  rt_clientId : string;
  rt_scopes : list string;
  rt_resource : string;
  rt_expiresAt : Z;
  rt_credentialVersion : option string;
  rt_userId : string;
}.

Record OwnerCredentialMaterial := {
  cm_ownerVerifierHash : string;
  cm_signingKey : string;
  cm_credentialVersion : option string;
}.

Record OwnerAccessClaims := {
  cl_iss : string;
  cl_aud : string;
  cl_sub : string;
  cl_scope : string;
  cl_client_id : string;
  cl_user_id : option string;
  cl_iat : Z;
  cl_exp : Z;
  cl_jti : string;
}.

Record OwnerIdentity := { id_id : string; id_displayName : string }.

Record AuthenticatedEdgePrincipal := { pr_subject : string; pr_scopes : list string; pr_userId : string }.

(** The parts of a URL that the code reads. *)
Record url := {
  url_protocol : string;
  url_hostname : string;
  url_pathname : string;
  url_username : string;
  url_password : string;
  url_search : string;
  url_hash : string;
}.

(** [jwt_claims] splits a token and reads header and payload, [jwt_signature] verifies it. *)
Class OAuthHost := {
  sha256Base64Url : string → string;
  decodeBase64UrlBytes : string → string;
  derive_signing_key : string → string;
  jwt_sign : string → OwnerAccessClaims → string;
  jwt_claims : string → option OwnerAccessClaims;
  jwt_signature : string → string → bool;
  draw : nat → string;
  parse_url : string → option url;
}.

Definition base64url_char (c : Ascii.ascii) : bool := is_alnum c || char_in "_-" c.

(** The base64url of 32 bytes has 43 characters, and a UUID at most 64. *)
Class OAuthHostForms `{OAuthHost} := {
  sha_form s : exactly base64url_char 43 (sha256Base64Url s) = true;
  key_form s : exactly base64url_char 43 (derive_signing_key s) = true;
  draw_form n : 0 < String.length (draw n) ≤ 64;
}.

(** [OwnerIdentityStore]: the users, read from the same storage. *)
Class OwnerIdentityStore (S : Type) := {
  getUser : string → task S (option OwnerIdentity);
  listUsers : task S (list OwnerIdentity);
}.

(** What the interface promises: reading users changes nothing. *)
Class OwnerIdentityStoreLaws (S : Type) `{OwnerIdentityStore S} := {
  getUser_reads id : read_only (getUser id);
  listUsers_reads : read_only listUsers;
}.

(** ** The log *)

(** A completed authorization: what the owner consented to and the password supplied; the
    request began when the log had [au_begun] entries and ended when it had [au_ended]. *)
Record authorization := {
  au_code : string;
  au_record : AuthorizationCodeRecord;
  au_supplied : string;
  au_begun : nat;
  au_ended : nat;
}.

Inductive grant_origin :=
| From_code (hash verifier : string)
| From_refresh (hash : string).

Record issuance := {
  is_origin : grant_origin;
  is_key : string;
  is_claims : OwnerAccessClaims;
  is_scopes : list string;
  is_refresh : string;
}.

Inductive oauth_event :=
| E_material (m : OwnerCredentialMaterial)
| E_authorized (a : authorization)
| E_issued (i : issuance)
| E_revoked (c : OwnerAccessClaims)
| E_accepted (token key : string) (c : OwnerAccessClaims) (p : AuthenticatedEdgePrincipal).

Record oauth (A : Type) := {
  oa_clients : gmap string OwnerClient;
  oa_clientCount : Z;
  oa_codes : gmap string AuthorizationCodeRecord;
  oa_refresh : gmap string RefreshTokenRecord;
  oa_revoked : gmap string Z;
  oa_material : option OwnerCredentialMaterial;
  oa_owner : option string;
  oa_hmac : option (option string);
  oa_now : Z;
  oa_draws : nat;
  oa_log : list oauth_event;
  oa_accounts : A;
}.
Arguments oa_clients {A} _.
Arguments oa_clientCount {A} _.
Arguments oa_codes {A} _.
Arguments oa_refresh {A} _.
Arguments oa_revoked {A} _.
Arguments oa_material {A} _.
Arguments oa_owner {A} _.
Arguments oa_hmac {A} _.
Arguments oa_now {A} _.
Arguments oa_draws {A} _.
Arguments oa_log {A} _.
Arguments oa_accounts {A} _.

Section fields.
Context {A : Type}.

Definition set_clients (x : gmap string OwnerClient) (s : oauth A) : oauth A :=
  {|
    oa_clients := x; oa_clientCount := oa_clientCount s; oa_codes := oa_codes s; oa_refresh := oa_refresh s;
    oa_revoked := oa_revoked s; oa_material := oa_material s; oa_owner := oa_owner s; oa_hmac := oa_hmac s;
    oa_now := oa_now s; oa_draws := oa_draws s; oa_log := oa_log s; oa_accounts := oa_accounts s |}.

Definition set_clientCount (x : Z) (s : oauth A) : oauth A :=
  {|
    oa_clients := oa_clients s; oa_clientCount := x; oa_codes := oa_codes s; oa_refresh := oa_refresh s;
    oa_revoked := oa_revoked s; oa_material := oa_material s; oa_owner := oa_owner s; oa_hmac := oa_hmac s;
    oa_now := oa_now s; oa_draws := oa_draws s; oa_log := oa_log s; oa_accounts := oa_accounts s |}.

Definition set_codes (x : gmap string AuthorizationCodeRecord) (s : oauth A) : oauth A :=
  {|
    oa_clients := oa_clients s; oa_clientCount := oa_clientCount s; oa_codes := x; oa_refresh := oa_refresh s;
    oa_revoked := oa_revoked s; oa_material := oa_material s; oa_owner := oa_owner s; oa_hmac := oa_hmac s;
    oa_now := oa_now s; oa_draws := oa_draws s; oa_log := oa_log s; oa_accounts := oa_accounts s |}.

Definition set_refresh (x : gmap string RefreshTokenRecord) (s : oauth A) : oauth A :=
  {|
    oa_clients := oa_clients s; oa_clientCount := oa_clientCount s; oa_codes := oa_codes s; oa_refresh := x;
    oa_revoked := oa_revoked s; oa_material := oa_material s; oa_owner := oa_owner s; oa_hmac := oa_hmac s;
    oa_now := oa_now s; oa_draws := oa_draws s; oa_log := oa_log s; oa_accounts := oa_accounts s |}.

Definition set_revoked (x : gmap string Z) (s : oauth A) : oauth A :=
  {|
    oa_clients := oa_clients s; oa_clientCount := oa_clientCount s; oa_codes := oa_codes s; oa_refresh :=
    oa_refresh s; oa_revoked := x; oa_material := oa_material s; oa_owner := oa_owner s; oa_hmac := oa_hmac s;
    oa_now := oa_now s; oa_draws := oa_draws s; oa_log := oa_log s; oa_accounts := oa_accounts s |}.

Definition set_material (x : option OwnerCredentialMaterial) (s : oauth A) : oauth A :=
  {|
    oa_clients := oa_clients s; oa_clientCount := oa_clientCount s; oa_codes := oa_codes s; oa_refresh :=
    oa_refresh s; oa_revoked := oa_revoked s; oa_material := x; oa_owner := oa_owner s; oa_hmac := oa_hmac s;
    oa_now := oa_now s; oa_draws := oa_draws s; oa_log := oa_log s; oa_accounts := oa_accounts s |}.

Definition set_owner (x : option string) (s : oauth A) : oauth A :=
  {|
    oa_clients := oa_clients s; oa_clientCount := oa_clientCount s; oa_codes := oa_codes s; oa_refresh :=
    oa_refresh s; oa_revoked := oa_revoked s; oa_material := oa_material s; oa_owner := x; oa_hmac := oa_hmac s;
    oa_now := oa_now s; oa_draws := oa_draws s; oa_log := oa_log s; oa_accounts := oa_accounts s |}.

Definition set_hmac (x : option (option string)) (s : oauth A) : oauth A :=
  {|
    oa_clients := oa_clients s; oa_clientCount := oa_clientCount s; oa_codes := oa_codes s; oa_refresh :=
    oa_refresh s; oa_revoked := oa_revoked s; oa_material := oa_material s; oa_owner := oa_owner s; oa_hmac :=
    x; oa_now := oa_now s; oa_draws := oa_draws s; oa_log := oa_log s; oa_accounts := oa_accounts s |}.

Definition set_now (x : Z) (s : oauth A) : oauth A :=
  {|
    oa_clients := oa_clients s; oa_clientCount := oa_clientCount s; oa_codes := oa_codes s; oa_refresh :=
    oa_refresh s; oa_revoked := oa_revoked s; oa_material := oa_material s; oa_owner := oa_owner s; oa_hmac :=
    oa_hmac s; oa_now := x; oa_draws := oa_draws s; oa_log := oa_log s; oa_accounts := oa_accounts s |}.

Definition set_draws (x : nat) (s : oauth A) : oauth A :=
  {|
    oa_clients := oa_clients s; oa_clientCount := oa_clientCount s; oa_codes := oa_codes s; oa_refresh :=
    oa_refresh s; oa_revoked := oa_revoked s; oa_material := oa_material s; oa_owner := oa_owner s; oa_hmac :=
    oa_hmac s; oa_now := oa_now s; oa_draws := x; oa_log := oa_log s; oa_accounts := oa_accounts s |}.

Definition set_log (x : list oauth_event) (s : oauth A) : oauth A :=
  {|
    oa_clients := oa_clients s; oa_clientCount := oa_clientCount s; oa_codes := oa_codes s; oa_refresh :=
    oa_refresh s; oa_revoked := oa_revoked s; oa_material := oa_material s; oa_owner := oa_owner s; oa_hmac :=
    oa_hmac s; oa_now := oa_now s; oa_draws := oa_draws s; oa_log := x; oa_accounts := oa_accounts s |}.

Definition set_accounts (x : A) (s : oauth A) : oauth A :=
  {|
    oa_clients := oa_clients s; oa_clientCount := oa_clientCount s; oa_codes := oa_codes s; oa_refresh :=
    oa_refresh s; oa_revoked := oa_revoked s; oa_material := oa_material s; oa_owner := oa_owner s; oa_hmac :=
    oa_hmac s; oa_now := oa_now s; oa_draws := oa_draws s; oa_log := oa_log s; oa_accounts := x |}.

Definition note (e : oauth_event) (s : oauth A) : oauth A := set_log (oa_log s ++ [e]) s.
End fields.

(** ** Strings *)

(** The word a string begins with, empty when it begins with white space, and the words
    after it. *)
Fixpoint words_from (s : string) : string * list string :=
  match s with
  | EmptyString => (EmptyString, [])
  | String c r =>
      let '(w, ws) := words_from r in
      if is_trimmed c then (EmptyString, if bool_decide (w = "") then ws else w :: ws)
      else (String c w, ws)
  end.

(** [s.split(/\s+/u).filter(Boolean)] *)
Definition words (s : string) : list string :=
  let '(w, ws) := words_from s in if bool_decide (w = "") then ws else w :: ws.

(** [[...new Set(l)]] *)
Definition add_new (acc : list string) (x : string) : list string := if bool_decide (x ∈ acc) then acc else acc ++ [x].
Definition distinct (l : list string) : list string := fold_left add_new l [].

Definition parseScopes (value : string) : list string := distinct (words value).

Definition join_scopes (l : list string) : string := String.concat " " l.

Definition bearer : string := "Bearer ".
Definition readBearerToken (header : option string) : option string :=
  match header with
  | None => None
  | Some h =>
      if String.prefix bearer h && negb (String.length h =? String.length bearer) then
        let token := trim (String.substring (String.length bearer) (String.length h - String.length bearer) h) in
        if bool_decide (token = "") then None else Some token
      else None
  end.

Definition isOwnerCredentialMaterial (m : OwnerCredentialMaterial) : bool :=
  exactly base64url_char 43 (cm_ownerVerifierHash m) && exactly base64url_char 43 (cm_signingKey m) &&
  match cm_credentialVersion m with
  | None => true
  | Some v => (0 <? String.length v) && (String.length v <=? 64)
  end.

Definition AUTHORIZATION_CODE_TTL_MS : Z := 5 * 60 * 1000.
Definition MAX_CLIENTS : Z := 256.

(** What a handler answers. *)
Inductive reply :=
| R_error (code : string) (status : Z)
| R_page (status : Z)
| R_redirect (redirectUri code : string) (state : option string)
| R_client (c : OwnerClient)
| R_tokens (access refresh : string) (scopes : list string)
| R_ok
| R_principal (p : AuthenticatedEdgePrincipal)
| R_denied (status : Z)
| R_viewer (v : option (string * string))
| R_identity (id : OwnerIdentity)
| R_failed.

Section oauth.
Context {H : OAuthHost} {A : Type} `{!OwnerIdentityStore (oauth A)} (config : EdgeOwnerOAuthConfig).

Notation handler B := (task (oauth A) B).

Definition requiredScope : string := default "mcp:tools" (head (cf_scopes config)).

Definition nowSeconds (s : oauth A) : Z := oa_now s / 1000.

(** [crypto.randomUUID()], [randomToken()] *)
Definition draw_token : handler string := aturn (λ s, draw (oa_draws s)) (λ s, set_draws (S (oa_draws s)) s).

(** ** Credentials *)

Definition deriveOwnerCredentialMaterial (ownerSecret : string) : OwnerCredentialMaterial :=
  {| cm_ownerVerifierHash := sha256Base64Url ownerSecret; cm_signingKey := derive_signing_key ownerSecret;
     cm_credentialVersion := None |}.

(** [stored ?? (this.config.ownerSecret ? derive(...) : undefined)] *)
Definition current_material (s : oauth A) : option OwnerCredentialMaterial :=
  match oa_material s with
  | Some m => Some m
  | None => match cf_ownerSecret config with
            | Some secret => if bool_decide (secret = "") then None else Some (deriveOwnerCredentialMaterial secret)
            | None => None
            end
  end.

(** [loadSigningKey]; [None] is a rejected promise. *)
Definition loadSigningKey (s : oauth A) : option string :=
  m ← current_material s; if isOwnerCredentialMaterial m then Some (cm_signingKey m) else None.

(** [hmacKey]: the promise of the first load is kept, also when it is rejected. *)
Definition hmacKey : handler (option string) :=
  aturn (λ s, default (loadSigningKey s) (oa_hmac s))
        (λ s, set_hmac (Some (default (loadSigningKey s) (oa_hmac s))) s).

Definition version_of (m : option OwnerCredentialMaterial) : option string :=
  m ← m; if isOwnerCredentialMaterial m then cm_credentialVersion m else None.

Definition currentCredentialVersion : handler (option string) := aget (λ s, version_of (oa_material s)).

(** Whether [supplied] is the owner's password, given what is stored. *)
Definition secret_matches (stored : option OwnerCredentialMaterial) (supplied : string) : bool :=
  match stored with
  | Some m =>
      isOwnerCredentialMaterial m &&
      bool_decide (decodeBase64UrlBytes (sha256Base64Url supplied) = decodeBase64UrlBytes (cm_ownerVerifierHash m))
  | None =>
      match cf_ownerSecret config with
      | Some secret => bool_decide (sha256Base64Url supplied = sha256Base64Url secret)
      | None => false
      end
  end.

Definition ownerSecretMatches (supplied : string) : handler bool :=
  stored ← aget oa_material;
  pause;;
  mret (secret_matches stored supplied).

Definition isConfigured : handler reply :=
  match cf_ownerSecret config with
  | Some secret => if 16 <=? String.length secret then mret R_ok else
      stored ← aget oa_material;
      mret (if match stored with Some m => isOwnerCredentialMaterial m | None => false end then R_ok else R_failed)
  | None =>
      stored ← aget oa_material;
      mret (if match stored with Some m => isOwnerCredentialMaterial m | None => false end then R_ok else R_failed)
  end.

(** ** The owner *)

Definition only_user : handler (option OwnerIdentity) :=
  users ← listUsers;
  match users with
  | [u] => aput (set_owner (Some (id_id u)));; mret (Some u)
  | _ => mret None
  end.

(** [resolveOwnerUser]; [None] is the error. *)
Definition resolveOwnerUser : handler (option OwnerIdentity) :=
  pinned ← aget oa_owner;
  match pinned with
  | Some id =>
      if bool_decide (id = "") then only_user
      else
        user ← getUser id;
        match user with
        | Some u => mret (Some u)
        | None => aput (set_owner None);; only_user
        end
  | None => only_user
  end.

(** The characters a password must not have: [/[\r\n\0]/u] *)
Definition forbidden_char (c : Ascii.ascii) : bool :=
  (Ascii.nat_of_ascii c =? 13) || (Ascii.nat_of_ascii c =? 10) || (Ascii.nat_of_ascii c =? 0).

Definition password_ok (password : string) : bool :=
  negb (bool_decide (password = "")) && (String.length password <=? 2048) &&
  all_chars (λ c, negb (forbidden_char c)) password.

Definition rotateOwnerPassword (password : string) : handler bool :=
  if negb (password_ok password) then mret false
  else
    pause;;
    version ← draw_token;
    let material := {| cm_ownerVerifierHash := sha256Base64Url password; cm_signingKey := derive_signing_key password;
                       cm_credentialVersion := Some version |} in
    aput (λ s, note (E_material material) (set_material (Some material) s));;
    aput (set_hmac None);;
    mret true.

Definition recoverAccess (password : string) : handler reply :=
  user ← resolveOwnerUser;
  match user with
  | None => mret R_failed
  | Some u => rotated ← rotateOwnerPassword password; mret (if rotated : bool then R_identity u else R_failed)
  end.

Definition with_version (m : OwnerCredentialMaterial) (version : string) : OwnerCredentialMaterial :=
  {| cm_ownerVerifierHash := cm_ownerVerifierHash m; cm_signingKey := cm_signingKey m; cm_credentialVersion := Some version |}.

Definition bumpCredentialVersion : handler bool :=
  material ← aget current_material;
  match material with
  | None => mret false
  | Some m =>
      if isOwnerCredentialMaterial m then
        version ← draw_token;
        aput (λ s, note (E_material (with_version m version)) (set_material (Some (with_version m version)) s));;
        mret true
      else mret false
  end.

Definition activateSingleUser (userId : string) : handler reply :=
  users ← listUsers;
  match users with
  | [u] =>
      if bool_decide (id_id u = userId) then
        pinned ← aget oa_owner;
        if bool_decide (pinned = Some (id_id u)) then mret (R_identity u)
        else
          aput (set_owner (Some (id_id u)));;
          bumped ← bumpCredentialVersion;
          mret (if bumped : bool then R_identity u else R_failed)
      else mret R_failed
  | _ => mret R_failed
  end.

Definition authenticateViewer (accountPassword : string) : handler reply :=
  if bool_decide (accountPassword = "") || (2048 <? String.length accountPassword) then mret (R_viewer None)
  else
    matched ← ownerSecretMatches accountPassword;
    if negb matched then mret (R_viewer None)
    else
      user ← resolveOwnerUser;
      match user with
      | None => mret (R_viewer None)
      | Some u => version ← currentCredentialVersion; mret (R_viewer (Some (id_id u, default "initial" version)))
      end.

(** ** Clients *)

Definition strings_of (l : list json) : option (list string) :=
  mapM (λ v, match v with JStr s => Some s | _ => None end) l.

Definition readStringArray (value : option json) (fallback : list string) : list string :=
  match value with
  | None => fallback
  | Some (JArr l) => default [] (strings_of l)
  | Some _ => []
  end.

Fixpoint split_path (s : string) : list string :=
  match s with
  | EmptyString => [""]
  | String c r =>
      if Ascii.eqb c "/"%char then "" :: split_path r
      else match split_path r with h :: t => String c h :: t | [] => [String c ""] end
  end.

Definition path_segments (s : string) : list string := List.filter (λ x, negb (bool_decide (x = ""))) (split_path s).

Definition redirectAllowed (value : string) : bool :=
  match parse_url value with
  | None => false
  | Some u =>
      if bool_decide (url_hostname u ∈ ["localhost"; "127.0.0.1"; "[::1]"]%string) then true
      else if bool_decide (url_protocol u = "https:") && bool_decide (url_hostname u = "chatgpt.com") then
        bool_decide (url_username u = "") && bool_decide (url_password u = "") && bool_decide (url_search u = "") &&
        bool_decide (url_hash u = "") &&
        match path_segments (url_pathname u) with
        | [a; b; _] => bool_decide (a = "connector") && bool_decide (b = "oauth")
        | _ => false
        end
      else
        bool_decide (url_protocol u = "https:") && bool_decide (url_hostname u = cf_hostname config) &&
        bool_decide (url_username u = "") && bool_decide (url_password u = "")
  end.

Definition client_name_of (input : json) : option string :=
  match prop "client_name" input with
  | Some (JStr s) => if bool_decide (s = "") then None else Some (String.substring 0 200 s)
  | _ => None
  end.

(** [register]; [input] is the parsed body, [None] when it is not JSON. *)
Definition register (input : option json) : handler reply :=
  let invalid := mret (R_error "invalid_client_metadata" 400) : handler reply in
  match input ≫= prop "redirect_uris" with
  | Some (JArr redirects) =>
      let body := default JNull input in
      match strings_of redirects with
      | None => invalid
      | Some uris =>
          if bool_decide (uris = []) || (16 <? length uris) || negb (forallb redirectAllowed uris) ||
             negb (match prop "token_endpoint_auth_method" body with None => true | Some (JStr m) => bool_decide (m = "none") | _ => false end)
          then invalid
          else
            existingCount ← aget oa_clientCount;
            if (MAX_CLIENTS <=? existingCount)%Z then invalid
            else
              uuid ← draw_token;
              now ← aget nowSeconds;
              let client := {|
                oc_client_id := "mcp-" +:+ uuid;
                oc_client_id_issued_at := now;
                oc_redirect_uris := uris;
                oc_client_name := client_name_of body;
                oc_grant_types := readStringArray (prop "grant_types" body) ["authorization_code"; "refresh_token"]%string;
                oc_response_types := readStringArray (prop "response_types" body) ["code"]%string;
              |} in
              if forallb (λ g, bool_decide (g ∈ ["authorization_code"; "refresh_token"]%string)) (oc_grant_types client) &&
                 forallb (λ r, bool_decide (r = "code")) (oc_response_types client)
              then
                aput (λ s, set_clients (<[oc_client_id client := client]> (oa_clients s)) s);;
                aput (set_clientCount (existingCount + 1));;
                mret (R_client client)
              else invalid
      end
  | _ => invalid
  end.

(** ** Authorization codes *)

(** [fields.get(name)] *)
Notation form := (string → option string).

Definition field (fields : form) (name : string) : string := default "" (fields name).

(** [const state = fields.get("state"); if (state) ...] *)
Definition state_of (fields : form) : option string :=
  match fields "state" with
  | Some state => if bool_decide (state = "") then None else Some state
  | None => None
  end.

Definition authorize_valid (fields : form) (client : OwnerClient) (scopes : list string) : bool :=
  bool_decide (fields "response_type" = Some "code") && bool_decide (fields "code_challenge_method" = Some "S256") &&
  (32 <=? String.length (field fields "code_challenge")) &&
  bool_decide (field fields "redirect_uri" ∈ oc_redirect_uris client) &&
  bool_decide (field fields "resource" = cf_mcpUrl config) &&
  negb (bool_decide (scopes = [])) && forallb (λ scope, bool_decide (scope ∈ cf_scopes config)) scopes.

(** [authorize]; [post] when the page was submitted. *)
Definition authorize (post : bool) (fields : form) : handler reply :=
  let clientId := field fields "client_id" in
  asked ← aget (λ s, (oa_clients s !! clientId, length (oa_log s)));
  match asked.1 with
  | None => mret (R_error "invalid_request" 400)
  | Some client =>
      let scopes := parseScopes (default (join_scopes (cf_scopes config)) (fields "scope")) in
      if negb (authorize_valid fields client scopes) then mret (R_error "invalid_request" 400)
      else
        version ← currentCredentialVersion;
        match version with
        | None => mret (R_page 503)
        | Some _ =>
            if negb post then mret (R_page 200)
            else
              let supplied := field fields "owner_password" in
              matched ← ownerSecretMatches supplied;
              if negb matched then mret (R_page 401)
              else
                user ← resolveOwnerUser;
                match user with
                | None => mret (R_page 409)
                | Some u =>
                    random ← draw_token;
                    let code := "code-" +:+ random in
                    pause;;
                    let record now := {|
                      ac_clientId := clientId;
                      ac_redirectUri := field fields "redirect_uri";
                      ac_codeChallenge := field fields "code_challenge";
                      ac_scopes := scopes;
                      ac_resource := field fields "resource";
                      ac_expiresAtMs := now + AUTHORIZATION_CODE_TTL_MS;
                      ac_userId := id_id u;
                    |} in
                    aput (λ s,
                      note (E_authorized {| au_code := sha256Base64Url code; au_record := record (oa_now s);
                                            au_supplied := supplied; au_begun := asked.2;
                                            au_ended := length (oa_log s) |})
                        (set_codes (<[sha256Base64Url code := record (oa_now s)]> (oa_codes s)) s));;
                    mret (R_redirect (field fields "redirect_uri") code (state_of fields))
                end
        end
  end.

(** ** Tokens *)

Definition issueTokens (origin : grant_origin) (clientId : string) (scopes : list string) (resource userId : string) :
    handler reply :=
  now ← aget nowSeconds;
  jti ← draw_token;
  let claims := {|
    cl_iss := cf_issuer config;
    cl_aud := resource;
    cl_sub := if bool_decide (userId = "") then "owner:" +:+ clientId else "user:" +:+ userId;
    cl_scope := join_scopes scopes;
    cl_client_id := clientId;
    cl_user_id := Some userId;
    cl_iat := now;
    cl_exp := now + cf_accessTokenTtlSeconds config;
    cl_jti := jti;
  |} in
  key ← hmacKey;
  match key with
  | None => mret R_failed
  | Some key =>
      pause;;
      random ← draw_token;
      let refreshToken := "refresh-" +:+ random in
      credentialVersion ← currentCredentialVersion;
      pause;;
      aput (λ s,
        note (E_issued {| is_origin := origin; is_key := key; is_claims := claims; is_scopes := scopes;
                          is_refresh := sha256Base64Url refreshToken |})
          (set_refresh (<[sha256Base64Url refreshToken := {|
             rt_clientId := clientId; rt_scopes := scopes; rt_resource := resource;
             rt_expiresAt := now + cf_refreshTokenTtlSeconds config; rt_credentialVersion := credentialVersion;
             rt_userId := userId |}]> (oa_refresh s)) s));;
      mret (R_tokens (jwt_sign key claims) refreshToken scopes)
  end.

Definition exchange_code (fields : form) (clientId : string) : handler reply :=
  let invalid := mret (R_error "invalid_grant" 400) : handler reply in
  pause;;
  let key := sha256Base64Url (field fields "code") in
  record ← aget (λ s, oa_codes s !! key);
  now ← aget oa_now;
  match record with
  | None => invalid
  | Some record =>
      if negb (bool_decide (ac_clientId record = clientId)) || (ac_expiresAtMs record <? now)%Z then invalid
      else if negb (bool_decide (fields "redirect_uri" = Some (ac_redirectUri record))) ||
              negb (bool_decide (fields "resource" = Some (ac_resource record))) then invalid
      else
        let verifier := field fields "code_verifier" in
        pause;;
        if negb (bool_decide (sha256Base64Url verifier = ac_codeChallenge record)) then invalid
        else
          aput (λ s, set_codes (delete key (oa_codes s)) s);;
          issueTokens (From_code key verifier) clientId (ac_scopes record) (ac_resource record) (ac_userId record)
  end.

Definition refresh_grant (fields : form) (clientId : string) : handler reply :=
  let invalid := mret (R_error "invalid_grant" 400) : handler reply in
  pause;;
  let key := sha256Base64Url (field fields "refresh_token") in
  record ← aget (λ s, oa_refresh s !! key);
  now ← aget nowSeconds;
  match record with
  | None => invalid
  | Some record =>
      if negb (bool_decide (rt_clientId record = clientId)) || (rt_expiresAt record <=? now)%Z then invalid
      else
        version ← currentCredentialVersion;
        if negb (bool_decide (rt_credentialVersion record = version)) then invalid
        else if negb (bool_decide (default (rt_resource record) (fields "resource") = rt_resource record)) then invalid
        else
          let requested := parseScopes (default (join_scopes (rt_scopes record)) (fields "scope")) in
          if negb (forallb (λ scope, bool_decide (scope ∈ rt_scopes record)) requested)
          then mret (R_error "invalid_scope" 400)
          else
            aput (λ s, set_refresh (delete key (oa_refresh s)) s);;
            issueTokens (From_refresh key) clientId requested (rt_resource record) (rt_userId record)
  end.

Definition token (fields : form) : handler reply :=
  let clientId := field fields "client_id" in
  client ← aget (λ s, oa_clients s !! clientId);
  match client with
  | None => mret (R_error "invalid_client" 400)
  | Some _ =>
      if bool_decide (fields "grant_type" = Some "authorization_code") then exchange_code fields clientId
      else if bool_decide (fields "grant_type" = Some "refresh_token") then refresh_grant fields clientId
      else mret (R_error "unsupported_grant_type" 400)
  end.

(** [verifyAccessToken]: the claims with the key they verified under. *)
Definition verifyAccessToken (token : string) : handler (option (string * OwnerAccessClaims)) :=
  match jwt_claims token with
  | None => mret None
  | Some claims =>
      key ← hmacKey;
      match key with
      | None => mret None
      | Some key =>
          pause;;
          mret (if jwt_signature key token && bool_decide (cl_iss claims = cf_issuer config) &&
                   bool_decide (cl_aud claims = cf_mcpUrl config)
                then Some (key, claims) else None)
      end
  end.

Definition revoke (token : string) : handler reply :=
  if bool_decide (token = "") then mret R_ok
  else
    claims ← verifyAccessToken token;
    match claims with
    | Some (_, c) =>
        aput (λ s, note (E_revoked c) (set_revoked (<[cl_jti c := cl_exp c]> (oa_revoked s)) s));;
        mret R_ok
    | None =>
        pause;;
        aput (λ s, set_refresh (delete (sha256Base64Url token) (oa_refresh s)) s);;
        mret R_ok
    end.

(** [authenticate] after the check of the revocation. *)
Definition accept_claims (token key : string) (claims : OwnerAccessClaims) : handler reply :=
  let scopes := parseScopes (cl_scope claims) in
  if negb (bool_decide (requiredScope ∈ scopes)) then mret (R_denied 403)
  else
    currentUser ← resolveOwnerUser;
    match currentUser with
    | None => mret (R_denied 401)
    | Some u =>
        if bool_decide (cl_user_id claims = Some (id_id u)) then
          let p := {| pr_subject := cl_sub claims; pr_scopes := scopes; pr_userId := id_id u |} in
          aput (note (E_accepted token key claims p));;
          mret (R_principal p)
        else mret (R_denied 401)
    end.

(** Whether a revocation still stands; one that has expired is deleted. *)
Definition still_revoked (jti : string) (revoked : option Z) : handler bool :=
  match revoked with
  | None => mret false
  | Some expiresAt =>
      aturn (λ s, nowSeconds s <? expiresAt)%Z
        (λ s, if (nowSeconds s <? expiresAt)%Z then s else set_revoked (delete jti (oa_revoked s)) s)
  end.

(** [authenticate]; [header] is the authorization header of the request. *)
Definition authenticate (header : option string) : handler reply :=
  match readBearerToken header with
  | None => mret (R_denied 401)
  | Some token =>
      verified ← verifyAccessToken token;
      match verified with
      | None => mret (R_denied 401)
      | Some (key, claims) =>
          revoked ← aget (λ s, (nowSeconds s, oa_revoked s !! cl_jti claims));
          if (cl_exp claims <=? revoked.1)%Z then mret (R_denied 401)
          else
            still ← still_revoked (cl_jti claims) revoked.2;
            if still : bool then mret (R_denied 401) else accept_claims token key claims
      end
  end.

(** ** Requests *)

Inductive oauth_request :=
| Q_register (input : option json)
| Q_authorize (post : bool) (fields : form)
| Q_token (fields : form)
| Q_revoke (fields : form)
| Q_authenticate (header : option string)
| Q_viewer (password : string)
| Q_recover (password : string)
| Q_activate (userId : string).

(** [handle] for the routes with an effect, and the methods the session calls. *)
Definition handle (r : oauth_request) : handler reply :=
  match r with
  | Q_register input => register input
  | Q_authorize post fields => authorize post fields
  | Q_token fields => token fields
  | Q_revoke fields => revoke (field fields "token")
  | Q_authenticate header => authenticate header
  | Q_viewer password => authenticateViewer password
  | Q_recover password => recoverAccess password
  | Q_activate userId => activateSingleUser userId
  end.

Definition new_oauth (accounts : A) (now : Z) : oauth A := {|
  oa_clients := ∅; oa_clientCount := 0; oa_codes := ∅; oa_refresh := ∅; oa_revoked := ∅; oa_material := None;
  oa_owner := None; oa_hmac := None; oa_now := now; oa_draws := 0; oa_log := []; oa_accounts := accounts |}.

End oauth.
