(* ===== verification/OwnerOAuthProps.v ===== *)
(** * OwnerOAuthProps: what every handler of the authorization server keeps

    The invariant ties the stored clients, codes and refresh tokens to the log: each code was
    authorized with the owner's password, each refresh token was issued under such an
    authorization.  It holds for every interleaving of the turns of all handlers. *)

From S2P Require Import Prelude Text Async OwnerOAuth.
From Stdlib Require Import Ascii.

(** ** Scopes *)

Definition no_space (s : string) : bool := all_chars (λ c, negb (is_trimmed c)) s.
Definition is_word (s : string) : Prop := s ≠ "" ∧ no_space s = true.

Lemma words_from_words s : no_space (words_from s).1 = true ∧ Forall is_word (words_from s).2.
Proof.
  induction s as [|c s [IH1 IH2]]; cbn; [done|]. destruct (words_from s) as [w ws]. cbn in *.
  destruct (is_trimmed c) eqn:Ec; cbn.
  - split; [done|]. case_bool_decide; [done|]. by constructor.
  - split; [|done]. by rewrite Ec, IH1.
Qed.

Lemma words_words s : Forall is_word (words s).
Proof.
  unfold words. pose proof (words_from_words s) as [H1 H2]. destruct (words_from s) as [w ws]. cbn in *.
  case_bool_decide; [done|by constructor].
Qed.

Lemma words_from_word w rest :
  no_space w = true → words_from (w +:+ rest) = (w +:+ (words_from rest).1, (words_from rest).2).
Proof.
  induction w as [|c w IH]; intros Hw.
  - change ("" +:+ ?x) with x. by destruct (words_from rest).
  - cbn in Hw. apply andb_true_iff in Hw as [Hc Hw]. apply negb_true_iff in Hc.
    change (String c w +:+ ?x) with (String c (w +:+ x)). cbn [words_from]. by rewrite (IH Hw), Hc.
Qed.

Lemma words_join l : Forall is_word l → words (join_scopes l) = l.
Proof.
  assert (Forall is_word l → words_from (join_scopes l) = match l with [] => ("", []) | w :: ws => (w, ws) end) as Hw.
  { induction 1 as [|w l [Hne Hs] HF IH]; [done|]. destruct l as [|w' l].
    - unfold join_scopes. cbn. rewrite <-(text_app_nil_r w) at 1. rewrite (words_from_word w "" Hs). cbn.
      by rewrite text_app_nil_r.
    - unfold join_scopes in *. change (String.concat " " (w :: w' :: l)) with (w +:+ (" " +:+ String.concat " " (w' :: l))).
      rewrite (words_from_word w _ Hs). change (" " +:+ ?x) with (String " " x). cbn [words_from]. rewrite IH.
      inversion_clear HF as [|? ? [Hne' _] _]. cbn. rewrite bool_decide_eq_false_2 by done. cbn.
      by rewrite text_app_nil_r. }
  intros HF. unfold words. rewrite (Hw HF). destruct HF as [|w l [Hne _] _]; [done|]. by rewrite bool_decide_eq_false_2.
Qed.

Lemma distinct_elem l x : x ∈ distinct l ↔ x ∈ l.
Proof.
  unfold distinct. assert (∀ acc, x ∈ fold_left add_new l acc ↔ x ∈ acc ∨ x ∈ l) as ->; [|set_solver].
  induction l as [|y l IH]; intros acc; cbn; [set_solver|]. rewrite IH. unfold add_new. case_bool_decide; set_solver.
Qed.

Lemma parseScopes_words s : Forall is_word (parseScopes s).
Proof.
  apply Forall_forall. intros x. unfold parseScopes. rewrite distinct_elem. revert x. apply Forall_forall, words_words.
Qed.

Lemma parseScopes_join l x : Forall is_word l → x ∈ parseScopes (join_scopes l) ↔ x ∈ l.
Proof. intros HF. unfold parseScopes. by rewrite distinct_elem, words_join. Qed.

(** ** The invariant *)

Section props.
Context {H : OAuthHost} {A : Type} `{!OwnerIdentityStore (oauth A), !OwnerIdentityStoreLaws (oauth A)}.
Context (config : EdgeOwnerOAuthConfig).

(** The credential material that is stored after the events [log]. *)
Definition material_after (log : list oauth_event) : option OwnerCredentialMaterial :=
  last (omap (λ e, match e with E_material m => Some m | _ => None end) log).

(** During the request the password supplied had the hash that was stored as the owner's. *)
Definition password_given (log : list oauth_event) (a : authorization) : Prop :=
  ∃ l m, l `prefix_of` log ∧ au_begun a ≤ length l ≤ au_ended a ∧ material_after l = Some m ∧
    decodeBase64UrlBytes (sha256Base64Url (au_supplied a)) = decodeBase64UrlBytes (cm_ownerVerifierHash m).

(** The owner's password was given for this, for a registered redirect target. *)
Record authorization_ok (log : list oauth_event) (a : authorization) : Prop := {
  ao_logged : log !! au_ended a = Some (E_authorized a);
  ao_password : password_given log a;
  ao_redirect : redirectAllowed config (ac_redirectUri (au_record a)) = true;
  ao_resource : ac_resource (au_record a) = cf_mcpUrl config;
  ao_scopes : ac_scopes (au_record a) ⊆ cf_scopes config;
  ao_words : Forall is_word (ac_scopes (au_record a));
}.

(** [scopes] of [resource] were authorized for this user and client. *)
Definition granted (log : list oauth_event) (clientId resource userId : string) (scopes : list string) : Prop :=
  ∃ a, E_authorized a ∈ log ∧ ac_clientId (au_record a) = clientId ∧ ac_resource (au_record a) = resource ∧
    ac_userId (au_record a) = userId ∧ scopes ⊆ ac_scopes (au_record a).

(** Where the tokens come from. *)
Definition origin_ok (log : list oauth_event) (origin : grant_origin) (clientId : string) (scopes : list string) : Prop :=
  match origin with
  | From_code h verifier =>
      ∃ a, E_authorized a ∈ log ∧ au_code a = h ∧ ac_codeChallenge (au_record a) = sha256Base64Url verifier ∧
        ac_clientId (au_record a) = clientId ∧ ac_scopes (au_record a) = scopes
  | From_refresh h =>
      ∃ j, E_issued j ∈ log ∧ is_refresh j = h ∧ cl_client_id (is_claims j) = clientId ∧ scopes ⊆ is_scopes j
  end.

Record issuance_ok (log : list oauth_event) (i : issuance) : Prop := {
  io_scope : cl_scope (is_claims i) = join_scopes (is_scopes i);
  io_words : Forall is_word (is_scopes i);
  io_user : ∃ u, cl_user_id (is_claims i) = Some u ∧
              granted log (cl_client_id (is_claims i)) (cl_aud (is_claims i)) u (is_scopes i);
  io_origin : origin_ok log (is_origin i) (cl_client_id (is_claims i)) (is_scopes i);
}.

Record accepted_ok (token key : string) (c : OwnerAccessClaims) (p : AuthenticatedEdgePrincipal) : Prop := {
  ck_claims : jwt_claims token = Some c;
  ck_signature : jwt_signature key token = true;
  ck_audience : cl_aud c = cf_mcpUrl config;
  ck_scopes : pr_scopes p = parseScopes (cl_scope c);
  ck_required : requiredScope config ∈ pr_scopes p;
  ck_user : cl_user_id c = Some (pr_userId p);
}.

Definition event_ok (log : list oauth_event) (e : oauth_event) : Prop :=
  match e with
  | E_authorized a => authorization_ok log a
  | E_issued i => issuance_ok log i
  | E_accepted token key c p => accepted_ok token key c p
  | _ => True
  end.

(** What a refresh record says was issued. *)
Definition issued_as (r : RefreshTokenRecord) (h : string) (j : issuance) : Prop :=
  is_refresh j = h ∧ cl_client_id (is_claims j) = rt_clientId r ∧ is_scopes j = rt_scopes r ∧
  cl_aud (is_claims j) = rt_resource r ∧ cl_user_id (is_claims j) = Some (rt_userId r).

(** A token with this identifier and this expiry claim was revoked. *)
Definition revocation (log : list oauth_event) (jti : string) (e : Z) : Prop :=
  ∃ c, E_revoked c ∈ log ∧ cl_jti c = jti ∧ cl_exp c = e.

Record oauth_inv (s : oauth A) : Prop := {
  oi_clients id c : oa_clients s !! id = Some c → forallb (redirectAllowed config) (oc_redirect_uris c) = true;
  oi_codes h r : oa_codes s !! h = Some r → ∃ a, E_authorized a ∈ oa_log s ∧ au_code a = h ∧ au_record a = r;
  oi_refresh h r : oa_refresh s !! h = Some r → ∃ j, E_issued j ∈ oa_log s ∧ issued_as r h j;
  oi_material : oa_material s = material_after (oa_log s);
  oi_events e : e ∈ oa_log s → event_ok (oa_log s) e;
  oi_revoked jti e : oa_revoked s !! jti = Some e → revocation (oa_log s) jti e;
  oi_revocations c : E_revoked c ∈ oa_log s →
    is_Some (oa_revoked s !! cl_jti c) ∨ ∃ e, revocation (oa_log s) (cl_jti c) e ∧ (e ≤ nowSeconds s)%Z;
}.

(** The log only grows, and time goes on. *)
Definition future (s s' : oauth A) : Prop := oa_log s `prefix_of` oa_log s' ∧ (oa_now s ≤ oa_now s')%Z.

#[global] Instance future_preorder : PreOrder future.
Proof.
  split; [by intros s; split|]. intros s1 s2 s3 [H1 H2] [H3 H4]. split; [by etransitivity|lia].
Qed.

Lemma future_log s s' e : future s s' → e ∈ oa_log s → e ∈ oa_log s'.
Proof. intros [[l ->] _]. set_solver. Qed.

Lemma granted_mono log l clientId resource userId scopes :
  granted log clientId resource userId scopes → granted (log ++ l) clientId resource userId scopes.
Proof. intros (a & Ha & Hr). exists a. set_solver. Qed.

Lemma origin_ok_mono log l origin clientId scopes :
  origin_ok log origin clientId scopes → origin_ok (log ++ l) origin clientId scopes.
Proof. destruct origin as [h v|h]; intros (x & Hx & Ho); exists x; set_solver. Qed.

Lemma password_mono log l a : password_given log a → password_given (log ++ l) a.
Proof. intros (l0 & m & Hl & Hr). exists l0, m. split; [by apply prefix_app_r|done]. Qed.

Lemma revocation_mono log l jti e : revocation log jti e → revocation (log ++ l) jti e.
Proof. intros (c & Hc & Hr). exists c. set_solver. Qed.

Lemma future_revocation s s' jti e : future s s' → revocation (oa_log s) jti e → revocation (oa_log s') jti e.
Proof. intros [[l ->] _]. apply revocation_mono. Qed.

Lemma material_app l e :
  material_after (l ++ [e]) = match e with E_material m => Some m | _ => material_after l end.
Proof. unfold material_after. rewrite omap_app. destruct e; cbn; rewrite ?app_nil_r, ?last_snoc; done. Qed.

(** Once there is material, there is. *)
Lemma material_kept s s' : future s s' → is_Some (material_after (oa_log s)) → is_Some (material_after (oa_log s')).
Proof.
  intros [[l ->] _] Hm. induction l as [|e l IH] using rev_ind; [by rewrite app_nil_r|].
  rewrite app_assoc, material_app. destruct e; [by eexists|done..].
Qed.

Lemma event_ok_mono log l e : event_ok log e → event_ok (log ++ l) e.
Proof.
  destruct e as [m|a|i|x|t k c p]; cbn; [done| | |done|done].
  - intros [H1 H2]. split; try done; [by apply lookup_app_l_Some|by apply password_mono].
  - intros [H1 H2 (u & Hu & Hg) Ho]. split; [done|done| |by apply origin_ok_mono].
    exists u. split; [done|by apply granted_mono].
Qed.

Lemma nowSeconds_mono (s s' : oauth A) : (oa_now s ≤ oa_now s')%Z → (nowSeconds s ≤ nowSeconds s')%Z.
Proof. intros Hn. unfold nowSeconds. by apply Z.div_le_mono. Qed.

(** A change that adds no client, code, refresh token or material and no revocation. *)
Lemma inv_shrink s s' :
  oa_clients s' = oa_clients s → (∀ h r, oa_codes s' !! h = Some r → oa_codes s !! h = Some r) →
  (∀ h r, oa_refresh s' !! h = Some r → oa_refresh s !! h = Some r) → oa_revoked s' = oa_revoked s →
  oa_material s' = oa_material s → oa_log s' = oa_log s → (oa_now s ≤ oa_now s')%Z → oauth_inv s → oauth_inv s'.
Proof.
  intros E1 H2 H3 E4 E5 E6 Hn [I1 I2 I3 I4 I5 I6 I7]. split; rewrite ?E1, ?E4, ?E5, ?E6; eauto.
  intros c He. destruct (I7 _ He) as [?|(e' & ? & ?)]; [by left|right]. exists e'. split; [done|].
  pose proof (nowSeconds_mono _ _ Hn). lia.
Qed.

(** A change that also adds one event. *)
Lemma inv_note s s' e :
  oa_log s' = oa_log s ++ [e] → event_ok (oa_log s ++ [e]) e → oa_clients s' = oa_clients s →
  (∀ h r, oa_codes s' !! h = Some r → oa_codes s !! h = Some r ∨ ∃ a, e = E_authorized a ∧ au_code a = h ∧ au_record a = r) →
  (∀ h r, oa_refresh s' !! h = Some r → oa_refresh s !! h = Some r ∨ ∃ j, e = E_issued j ∧ issued_as r h j) →
  oa_material s' = match e with E_material m => Some m | _ => oa_material s end →
  oa_revoked s' = match e with E_revoked c => <[cl_jti c := cl_exp c]> (oa_revoked s) | _ => oa_revoked s end →
  oa_now s' = oa_now s → oauth_inv s → oauth_inv s'.
Proof.
  intros El He E1 H2 H3 H4 E5 En [I1 I2 I3 I4 I5 I6 I7]. split; rewrite ?E1, ?El.
  - done.
  - intros h r Hr. destruct (H2 _ _ Hr) as [Hr'|(a & -> & ? & ?)].
    + destruct (I2 _ _ Hr') as (a & ? & ?). exists a. set_solver.
    + exists a. set_solver.
  - intros h r Hr. destruct (H3 _ _ Hr) as [Hr'|(j & -> & ?)].
    + destruct (I3 _ _ Hr') as (j & ? & ?). exists j. set_solver.
    + exists j. set_solver.
  - rewrite material_app, H4. by destruct e.
  - intros e' [He'|He']%elem_of_app; [by apply event_ok_mono, I5|]. apply list_elem_of_singleton in He' as ->. done.
  - intros jti x. rewrite E5. destruct e as [m|a|i|y|t k c p]; try (intros Hx; by apply revocation_mono, I6).
    rewrite lookup_insert_Some. intros [[<- <-]|[_ Hx]]; [|by apply revocation_mono, I6].
    exists y. split; [set_solver|done].
  - intros c Hx. assert (E_revoked c ∈ oa_log s → is_Some (oa_revoked s !! cl_jti c) ∨
      ∃ x, revocation (oa_log s ++ [e]) (cl_jti c) x ∧ (x ≤ nowSeconds s')%Z) as Hold.
    { intros Hin. destruct (I7 _ Hin) as [?|(x & ? & ?)]; [by left|right]. exists x. unfold nowSeconds in *. rewrite En.
      auto using revocation_mono. }
    rewrite E5. apply elem_of_app in Hx as [Hx| <-%list_elem_of_singleton]; [|left; by rewrite lookup_insert_eq].
    destruct (Hold Hx) as [?|?]; [left|by right]. destruct e; try done. by apply lookup_insert_is_Some'; right.
Qed.

(** ** The handlers *)

Notation holds s0 m Q := (wp oauth_inv future s0 m Q).
Notation safe s0 m := (wp oauth_inv future s0 m (λ _ _, True)).

Lemma inv_quiet s s' :
  oa_clients s' = oa_clients s → oa_codes s' = oa_codes s → oa_refresh s' = oa_refresh s → oa_revoked s' = oa_revoked s →
  oa_material s' = oa_material s → oa_log s' = oa_log s → (oa_now s ≤ oa_now s')%Z → oauth_inv s → oauth_inv s'.
Proof. intros E1 E2 E3 E4 E5 E6 Hn. apply inv_shrink; rewrite ?E2, ?E3; done. Qed.

Lemma future_same s s' : oa_log s' = oa_log s → oa_now s' = oa_now s → future s s'.
Proof. intros E1 E2. split; [by rewrite E1|by rewrite E2]. Qed.

Lemma wp_draw s0 Q : (∀ s n, future s0 s → oauth_inv s → Q s (draw n)) → holds s0 draw_token Q.
Proof.
  intros HQ. apply wp_turn. intros s Hs HI.
  assert (oauth_inv (set_draws (S (oa_draws s)) s)) by (eapply inv_quiet; [..|exact HI]; done).
  assert (future s (set_draws (S (oa_draws s)) s)) by by apply future_same.
  split_and!; [done|done|]. apply HQ; [by etransitivity|done].
Qed.

Lemma wp_hmac s0 Q : (∀ s k, future s0 s → oauth_inv s → Q s k) → holds s0 (hmacKey config) Q.
Proof.
  intros HQ. apply wp_turn. intros s Hs HI. set (s' := set_hmac _ s).
  assert (oauth_inv s') by (eapply inv_quiet; [..|exact HI]; done).
  assert (future s s') by by apply future_same.
  split_and!; [done|done|]. apply HQ; [by etransitivity|done].
Qed.

(** A change that keeps the invariant and adds no event. *)
Lemma wp_silent s0 (f : oauth A → oauth A) Q :
  (∀ s, oauth_inv s → oauth_inv (f s)) → (∀ s, oa_log (f s) = oa_log s ∧ oa_now (f s) = oa_now s) →
  (∀ s, future s0 s → oauth_inv s → Q s tt) → holds s0 (aput f) Q.
Proof.
  intros Hf Hl HQ. apply wp_put. intros s Hs HI. destruct (Hl s) as [E1 E2].
  assert (future s (f s)) by by apply future_same. split_and!; [by apply Hf|done|].
  apply HQ; [by etransitivity|by apply Hf].
Qed.

Lemma wp_owner s0 x Q : (∀ s, future s0 s → oauth_inv s → Q s tt) → holds s0 (aput (set_owner x)) Q.
Proof. apply wp_silent; [|done]. intros s HI. by eapply inv_quiet; [..|exact HI]. Qed.

Lemma wp_only_user s0 Q : oauth_inv s0 → (∀ s u, future s0 s → oauth_inv s → Q s u) → holds s0 only_user Q.
Proof.
  intros H0 HQ. unfold only_user. apply wp_bind, (wp_read_only _ _); [apply listUsers_reads|done|]. intros s users Hs HI.
  destruct users as [|u [|u' us]]; try (apply wp_ret; by apply HQ).
  apply wp_bind, wp_owner. intros s' Hs' HI'. apply wp_ret, HQ; [by etransitivity|done].
Qed.

Lemma wp_resolve s0 Q : oauth_inv s0 → (∀ s u, future s0 s → oauth_inv s → Q s u) → holds s0 resolveOwnerUser Q.
Proof.
  intros H0 HQ. unfold resolveOwnerUser. apply wp_bind, (wp_get _ _). intros s Hs HI.
  assert (∀ s1, future s s1 → oauth_inv s1 → holds s1 only_user Q) as Honly.
  { intros s1 Hs1 HI1. apply wp_only_user; [done|]. intros s2 u Hs2. apply HQ. by do 2 (etransitivity; [eassumption|]). }
  destruct (oa_owner s) as [id|]; [|by apply Honly]. case_bool_decide; [by apply Honly|].
  apply wp_bind, (wp_read_only _ _); [apply getUser_reads|done|]. intros s1 [u|] Hs1 HI1.
  - apply wp_ret, HQ; [by etransitivity|done].
  - apply wp_bind, wp_owner. intros s2 Hs2 HI2. apply Honly; [by etransitivity|done].
Qed.

(** The password is compared with what is stored when it is read. *)
Lemma wp_matches s0 supplied Q :
  (∀ s s', future s0 s → oauth_inv s → future s s' → oauth_inv s' →
     Q s' (secret_matches config (material_after (oa_log s)) supplied)) →
  holds s0 (ownerSecretMatches config supplied) Q.
Proof.
  intros HQ. unfold ownerSecretMatches. apply wp_bind, (wp_get _ _). intros s Hs HI. apply wp_bind, (wp_pause _ _). intros s1 Hs1 HI1.
  apply wp_ret. rewrite (oi_material _ HI). by apply HQ.
Qed.

(** A change with its event. *)
Lemma wp_note s0 (e : oauth A → oauth_event) (g : oauth A → oauth A) Q :
  (∀ s, oa_log (g s) = oa_log s ∧ oa_now (g s) = oa_now s) →
  (∀ s, future s0 s → oauth_inv s → oauth_inv (note (e s) (g s))) →
  (∀ s, future s0 s → oauth_inv s → Q s tt) → holds s0 (aput (λ s, note (e s) (g s))) Q.
Proof.
  intros Hl Hi HQ. apply wp_put. intros s Hs HI. destruct (Hl s) as [E1 E2].
  assert (future s (note (e s) (g s))) as Hf.
  { split; cbn; [rewrite E1; by apply prefix_app_r|by rewrite E2]. }
  split_and!; [by apply Hi|done|]. apply HQ; [by etransitivity|by apply Hi].
Qed.

Lemma wp_material s0 m Q :
  (∀ s, future s0 s → oauth_inv s → Q s tt) →
  holds s0 (aput (λ s, note (E_material m) (set_material (Some m) s))) Q.
Proof.
  intros HQ. apply wp_note; [done| |done]. intros s _ HI.
  eapply (inv_note s _ (E_material m)); try done; by left.
Qed.

Lemma safe_rotate s0 password : safe s0 (rotateOwnerPassword password).
Proof.
  unfold rotateOwnerPassword. destruct (negb _); [done|]. apply wp_bind, (wp_pause _ _). intros s1 _ _.
  apply wp_bind, wp_draw. intros s2 n _ _. apply wp_bind, wp_material. intros s3 _ _. apply wp_bind, wp_silent; [|done|done].
  intros s HI. by eapply inv_quiet; [..|exact HI].
Qed.

Lemma safe_recover s0 password : oauth_inv s0 → safe s0 (recoverAccess password).
Proof.
  intros H0. unfold recoverAccess. apply wp_bind, wp_resolve; [done|]. intros s [u|] Hs HI; [|done].
  apply wp_bind. eapply (wp_mono _ _), safe_rotate. done.
Qed.

Lemma safe_activate s0 userId : oauth_inv s0 → safe s0 (activateSingleUser config userId).
Proof.
  intros H0. unfold activateSingleUser. apply wp_bind, (wp_read_only _ _); [apply listUsers_reads|done|]. intros s users _ _.
  destruct users as [|u [|u' us]]; [done| |done]. case_bool_decide; [|done]. apply wp_bind, (wp_get _ _). intros s1 _ _.
  case_bool_decide; [done|]. apply wp_bind, wp_owner. intros s2 _ _. apply wp_bind. unfold bumpCredentialVersion.
  apply wp_bind, (wp_get _ _). intros s3 _ _. destruct (current_material config s3) as [m|]; [|done].
  destruct (isOwnerCredentialMaterial m); [|done]. apply wp_bind, wp_draw. intros s4 n _ _. by apply wp_bind, wp_material.
Qed.

Lemma safe_viewer s0 password : oauth_inv s0 → safe s0 (authenticateViewer config password).
Proof.
  intros H0. unfold authenticateViewer. destruct (_ || _); [done|]. apply wp_bind, wp_matches. intros s s' _ _ _ HI.
  destruct (negb _); [done|]. apply wp_bind, wp_resolve; [done|]. intros s1 [u|] _ _; [|done].
  by apply wp_bind, (wp_get _ _).
Qed.

(** ** Clients *)

Lemma safe_register s0 input : safe s0 (register config input).
Proof.
  unfold register. destruct (input ≫= prop "redirect_uris") as [[| | | |redirects|]|]; try done.
  destruct (strings_of redirects) as [uris|]; [|done]. destruct (_ || _) eqn:Eb; [done|].
  apply orb_false_iff in Eb as [[[_ _]%orb_false_iff Hr]%orb_false_iff _]. apply negb_false_iff in Hr.
  apply wp_bind, (wp_get _ _). intros s _ _. destruct (_ <=? _)%Z; [done|]. apply wp_bind, wp_draw. intros s1 n _ _.
  apply wp_bind, (wp_get _ _). intros s2 _ _. cbv zeta. destruct (_ && _); [|done]. apply wp_bind, wp_silent; [|done|].
  - intros s3 [I1 I2 I3 I4 I5 I6 I7]. split; [|done..]. intros id c. cbn. rewrite lookup_insert_Some.
    intros [[_ <-]|[_ Hc]]; [done|by eapply I1].
  - intros s3 _ _. apply wp_bind, wp_silent; [|done|done]. intros s4 HI. by eapply inv_quiet; [..|exact HI].
Qed.

(** ** Codes and tokens *)

Lemma allowed_redirect s id c uri :
  oauth_inv s → oa_clients s !! id = Some c → uri ∈ oc_redirect_uris c → redirectAllowed config uri = true.
Proof.
  intros HI Hc Hu. pose proof (oi_clients _ HI _ _ Hc) as Hf. rewrite forallb_forall in Hf. by apply Hf, list_elem_of_In.
Qed.

(** What a match at [s1], read during a request that began at [s] and ends at [s2], says. *)
Lemma matched_during s s1 s2 a m e :
  future s s1 → future s1 s2 → au_begun a = length (oa_log s) → au_ended a = length (oa_log s2) →
  material_after (oa_log s1) = Some m → secret_matches config (Some m) (au_supplied a) = true →
  password_given (oa_log s2 ++ [e]) a.
Proof.
  intros [[l1 E1] _] [[l2 E2] _] Eb Ee Hm Hs. exists (oa_log s1), m. split_and!; [|by rewrite Eb, E1, length_app; lia| |done|].
  - rewrite E2. by do 2 apply prefix_app_r.
  - rewrite Ee, E2, length_app. lia.
  - unfold secret_matches in Hs. by bool_inv.
Qed.

Lemma safe_authorize s0 post fields : oauth_inv s0 → safe s0 (authorize config post fields).
Proof.
  intros H0. unfold authorize. apply wp_bind, (wp_get _ _). intros s Hs HI. cbn [fst snd].
  destruct (oa_clients s !! field fields "client_id") as [client|] eqn:Ec; [|done]. cbv zeta.
  set (scopes := parseScopes _). destruct (authorize_valid config fields client scopes) eqn:Ev; [|done]. cbn [negb].
  unfold authorize_valid in Ev. bool_inv. apply wp_bind, (wp_get _ _). intros s1 Hs1 HI1.
  destruct (version_of (oa_material s1)) as [v|] eqn:Eversion; [|done]. destruct post; [|done]. cbn [negb].
  apply wp_bind, wp_matches. intros s2 s2' Hs2 HI2 Hs2' HI2'.
  destruct (material_kept s1 s2 Hs2) as [m Hm].
  { rewrite <- (oi_material _ HI1). unfold version_of in Eversion. destruct (oa_material s1); [by eexists|done]. }
  destruct (secret_matches config _ _) eqn:Em; [|done]. cbn [negb]. apply wp_bind, wp_resolve; [done|].
  intros s3 [u|] Hs3 HI3; [|done]. apply wp_bind, wp_draw. intros s4 n Hs4 _. apply wp_bind, (wp_pause _ _). intros s5 Hs5 _.
  apply wp_bind, wp_note; [done| |done]. intros s6 Hs6 HI6. set (a := {| au_code := _ |}).
  assert (future s2 s6) as Hs26 by (by do 4 (etransitivity; [eassumption|])). rewrite Hm in Em.
  eapply (inv_note s6 _ (E_authorized a)); try done.
  - cbn. split; cbn; [by rewrite lookup_app_r, Nat.sub_diag| | |done| |apply parseScopes_words].
    + apply (matched_during s s2 s6 a m); [by etransitivity|done..].
    + apply (allowed_redirect s (field fields "client_id") client); assumption.
    + intros x Hx. match goal with Hf : forallb _ scopes = true |- _ => rewrite forallb_forall in Hf;
        apply list_elem_of_In, Hf in Hx end. by apply bool_decide_eq_true in Hx.
  - intros h r. cbn. rewrite lookup_insert_Some. intros [[<- <-]|[_ Hr]]; [right; by exists a|by left].
  - by left.
Qed.

Lemma future_granted s s' c r u l : future s s' → granted (oa_log s) c r u l → granted (oa_log s') c r u l.
Proof. intros [[l' ->] _]. apply granted_mono. Qed.

Lemma future_origin s s' o c l : future s s' → origin_ok (oa_log s) o c l → origin_ok (oa_log s') o c l.
Proof. intros [[l' ->] _]. apply origin_ok_mono. Qed.

Lemma safe_issue s0 origin clientId scopes resource userId :
  Forall is_word scopes → granted (oa_log s0) clientId resource userId scopes → origin_ok (oa_log s0) origin clientId scopes →
  safe s0 (issueTokens config origin clientId scopes resource userId).
Proof.
  intros Hw Hg Ho. unfold issueTokens. apply wp_bind, (wp_get _ _). intros s1 H1 _. apply wp_bind, wp_draw. intros s2 n H2 _.
  cbv zeta. set (claims := {| cl_iss := _ |}). apply wp_bind, wp_hmac. intros s3 [key|] H3 _; [|done].
  apply wp_bind, (wp_pause _ _). intros s4 H4 _. apply wp_bind, wp_draw. intros s5 n' H5 _. apply wp_bind, (wp_get _ _). intros s6 H6 _.
  apply wp_bind, (wp_pause _ _). intros s7 H7 _.
  apply wp_bind, wp_note; [done| |done]. intros s H8 HI. set (i := {| is_origin := _ |}).
  assert (future s0 s) as Hf by (by do 7 (etransitivity; [eassumption|])).
  eapply (inv_note s _ (E_issued i)); try done.
  - cbn. split; cbn; [done|done| |by eapply origin_ok_mono, future_origin].
    exists userId. split; [done|]. by eapply granted_mono, future_granted.
  - by left.
  - intros h r. cbn. rewrite lookup_insert_Some. intros [[<- <-]|[_ Hr]]; [right; by exists i|by left].
Qed.

(** What a stored code says was authorized. *)
Lemma stored_code s h r :
  oauth_inv s → oa_codes s !! h = Some r →
  Forall is_word (ac_scopes r) ∧ granted (oa_log s) (ac_clientId r) (ac_resource r) (ac_userId r) (ac_scopes r) ∧
  ∀ verifier, sha256Base64Url verifier = ac_codeChallenge r → origin_ok (oa_log s) (From_code h verifier) (ac_clientId r) (ac_scopes r).
Proof.
  intros HI Hr. destruct (oi_codes _ HI _ _ Hr) as (a & Ha & <- & <-). pose proof (oi_events _ HI _ Ha) as []. split_and!.
  - done.
  - by exists a.
  - intros v Hv. by exists a.
Qed.

(** What a stored refresh token may be used for. *)
Lemma stored_refresh s h r requested :
  oauth_inv s → oa_refresh s !! h = Some r → requested ⊆ rt_scopes r →
  granted (oa_log s) (rt_clientId r) (rt_resource r) (rt_userId r) requested ∧
  origin_ok (oa_log s) (From_refresh h) (rt_clientId r) requested.
Proof.
  intros HI Hr Hsub. destruct (oi_refresh _ HI _ _ Hr) as (j & Hj & <- & <- & Es & <- & Eu).
  pose proof (oi_events _ HI _ Hj) as [_ _ (u & Hu & a & Ha & Hc & Hres & Hau & Hsc) _]. rewrite Eu in Hu. injection Hu as ->.
  rewrite <-Es in Hsub. split; [|by exists j]. exists a. split_and!; [done..|]. by etransitivity.
Qed.

Lemma safe_exchange s0 fields clientId : safe s0 (exchange_code config fields clientId).
Proof.
  unfold exchange_code. apply wp_bind, (wp_pause _ _). intros s1 _ _. cbv zeta. apply wp_bind, (wp_get _ _). intros s2 _ HI.
  apply wp_bind, (wp_get _ _). intros s3 H3 _. destruct (oa_codes s2 !! _) as [r|] eqn:Er; [|done].
  destruct (_ || _) eqn:Eb; [done|]. apply orb_false_iff in Eb as [Ec _]. apply negb_false_iff, bool_decide_eq_true in Ec.
  destruct (_ || _); [done|]. apply wp_bind, (wp_pause _ _). intros s4 H4 _. destruct (negb _) eqn:Ev; [done|].
  apply negb_false_iff, bool_decide_eq_true in Ev. destruct (stored_code _ _ _ HI Er) as (Hw & Hg & Ho).
  apply wp_bind, wp_silent; [|done|].
  - intros s [I1 I2 I3 I4 I5 I6 I7]. split; [done| |done..]. intros h r'. cbn. rewrite lookup_delete_Some. intros [_ ?]. by apply I2.
  - intros s5 H5 _. assert (future s2 s5) by (by do 2 (etransitivity; [eassumption|])). subst clientId.
    apply safe_issue; [done|by eapply future_granted|]. eapply future_origin; [eassumption|by apply Ho].
Qed.

Lemma safe_refresh s0 fields clientId : safe s0 (refresh_grant config fields clientId).
Proof.
  unfold refresh_grant. apply wp_bind, (wp_pause _ _). intros s1 _ _. cbv zeta. apply wp_bind, (wp_get _ _). intros s2 _ HI.
  apply wp_bind, (wp_get _ _). intros s3 H3 _. destruct (oa_refresh s2 !! _) as [r|] eqn:Er; [|done].
  destruct (_ || _) eqn:Eb; [done|]. apply orb_false_iff in Eb as [Ec _]. apply negb_false_iff, bool_decide_eq_true in Ec.
  apply wp_bind, (wp_get _ _). intros s4 H4 _. destruct (negb _); [done|]. destruct (negb _); [done|].
  set (requested := parseScopes _). destruct (negb (forallb _ requested)) eqn:Ef; [done|]. apply negb_false_iff in Ef.
  assert (requested ⊆ rt_scopes r) as Hsub.
  { intros x Hx%list_elem_of_In. rewrite forallb_forall in Ef. specialize (Ef _ Hx). by apply bool_decide_eq_true in Ef. }
  destruct (stored_refresh _ _ _ _ HI Er Hsub) as [Hg Ho]. subst clientId. apply wp_bind, wp_silent; [|done|].
  - intros s [I1 I2 I3 I4 I5 I6 I7]. split; [done|done| |done..]. intros h r'. cbn. rewrite lookup_delete_Some. intros [_ ?]. by apply I3.
  - intros s5 H5 _. assert (future s2 s5) by (by do 2 (etransitivity; [eassumption|])).
    apply safe_issue; [apply parseScopes_words|by eapply future_granted|by eapply future_origin].
Qed.

Lemma safe_token s0 fields : safe s0 (token config fields).
Proof.
  unfold token. apply wp_bind, (wp_get _ _). intros s _ _. destruct (oa_clients s !! _); [|done].
  case_bool_decide; [apply safe_exchange|]. case_bool_decide; [apply safe_refresh|done].
Qed.

Lemma wp_verify s0 t Q :
  (∀ s k c, future s0 s → oauth_inv s → jwt_claims t = Some c → jwt_signature k t = true → cl_aud c = cf_mcpUrl config →
     Q s (Some (k, c))) →
  (∀ s, future s0 s → oauth_inv s → Q s None) → oauth_inv s0 → holds s0 (verifyAccessToken config t) Q.
Proof.
  intros HQ HN H0. unfold verifyAccessToken. destruct (jwt_claims t) as [c|] eqn:Ec; [|by apply wp_ret, HN].
  apply wp_bind, wp_hmac. intros s1 [k|] H1 HI1; [|by apply wp_ret, HN]. apply wp_bind, (wp_pause _ _). intros s2 H2 HI2.
  apply wp_ret. assert (future s0 s2) by (by etransitivity). destruct (_ && _) eqn:Eb; [|by apply HN]. bool_inv. by apply HQ.
Qed.

Lemma safe_revoke s0 t : oauth_inv s0 → safe s0 (revoke config t).
Proof.
  intros H0. unfold revoke. case_bool_decide; [done|]. apply wp_bind, wp_verify; [| |done].
  - intros s k c _ _ _ _ _. apply wp_bind, wp_note; [done| |done]. intros s1 _ HI.
    eapply (inv_note s1 _ (E_revoked _)); try done; by left.
  - intros s _ _. apply wp_bind, (wp_pause _ _). intros s1 _ _. apply wp_bind, wp_silent; [|done|done].
    intros s2 [I1 I2 I3 I4 I5 I6 I7]. split; [done|done| |done..]. intros h r'. cbn. rewrite lookup_delete_Some. intros [_ ?]. by apply I3.
Qed.

(** A revocation that does not stand any more has expired. *)
Lemma wp_still_revoked s0 (e : option Z) jti Q :
  (∀ s b, future s0 s → oauth_inv s → (∀ x, e = Some x → b = false → (x ≤ nowSeconds s)%Z) → Q s b) →
  (∀ x, e = Some x → revocation (oa_log s0) jti x) → oauth_inv s0 → holds s0 (still_revoked jti e) Q.
Proof.
  intros HQ He H0. unfold still_revoked. destruct e as [x|]; [|by apply wp_ret, HQ]. apply wp_turn. intros s Hs HI.
  destruct (nowSeconds s <? x)%Z eqn:Ex; [split_and!; [done|done|by apply HQ]|]. apply Z.ltb_ge in Ex.
  set (s' := set_revoked _ s). assert (future s s') by by apply future_same.
  assert (oauth_inv s').
  { destruct HI as [I1 I2 I3 I4 I5 I6 I7]. split; try done.
    - intros j y. cbn. rewrite lookup_delete_Some. intros [_ ?]. by apply I6.
    - intros c Hc. cbn in Hc |- *. destruct (decide (cl_jti c = jti)) as [<-|Hne].
      + right. exists x. split; [by eapply future_revocation, He|done].
      + rewrite lookup_delete_ne by done. by apply (I7 c). }
  split_and!; [done|done|]. apply HQ; [by etransitivity|done|]. by intros ? [= <-] _.
Qed.

Lemma wp_accept s0 t k c Q :
  jwt_claims t = Some c → jwt_signature k t = true → cl_aud c = cf_mcpUrl config → oauth_inv s0 →
  (∀ s r, future s0 s → oauth_inv s → Q s r) → holds s0 (accept_claims config t k c) Q.
Proof.
  intros Hc Hk Ha H0 HQ. unfold accept_claims. case_bool_decide as Hreq; [|by apply wp_ret, HQ]. cbn [negb].
  apply wp_bind, wp_resolve; [done|]. intros s3 [u|] H3 HI3; [|by apply wp_ret, HQ].
  case_bool_decide as Hu; [|by apply wp_ret, HQ]. cbv zeta.
  set (p := {| pr_subject := _ |}). apply wp_bind, (wp_note _ (λ _, E_accepted t k c p) (λ s, s)); [done| |].
  - intros s4 _ HI. eapply (inv_note s4 _ (E_accepted t k c p)); try done; by left.
  - intros s4 H4 HI4. apply wp_ret, HQ; [by etransitivity|done].
Qed.

(** A token is refused after its revocation, unless it expires while it is checked; another
    revocation under its identifier had the same expiry. *)
Lemma wp_authenticate s0 header :
  oauth_inv s0 →
  holds s0 (authenticate config header) (λ s r, ∀ t c, readBearerToken header = Some t →
    jwt_claims t = Some c → E_revoked c ∈ oa_log s0 →
    r = R_denied 401 ∨ (∃ x, revocation (oa_log s) (cl_jti c) x ∧ x ≠ cl_exp c) ∨
    (nowSeconds s0 < cl_exp c ≤ nowSeconds s)%Z).
Proof.
  intros H0. unfold authenticate. destruct (readBearerToken header) as [t|]; [|by left].
  apply wp_bind, wp_verify; [|by left|done].
  intros s k c Hs _ Hc Hk Ha. apply wp_bind, (wp_get _ _). intros s1 Hs1 HI1. cbn [fst snd].
  destruct (Z.leb_spec (cl_exp c) (nowSeconds s1)) as [|Hlive]; [by left|].
  apply wp_bind, wp_still_revoked; [| |done].
  - intros s2 b Hs2 HI2 Hx. destruct b; [by left|]. apply wp_accept; [done..|]. intros s3 r Hs3 HI3 t' c' [= <-] Hc' Hrev.
    rewrite Hc in Hc'. injection Hc' as <-. right. assert (future s0 s1) as Hf1 by by etransitivity.
    pose proof (nowSeconds_mono _ _ (proj2 Hf1)). pose proof (nowSeconds_mono _ _ (proj2 Hs2)).
    pose proof (nowSeconds_mono _ _ (proj2 Hs3)). assert (future s1 s3) by by etransitivity.
    assert (∃ e, revocation (oa_log s1) (cl_jti c) e ∧ (e ≤ nowSeconds s2)%Z) as (e & He & Hle).
    { destruct (oi_revocations _ HI1 _ (future_log _ _ _ Hf1 Hrev)) as [[e He]|(e & He & Hle)].
      - exists e. split; [by apply (oi_revoked _ HI1)|by apply Hx].
      - exists e. split; [done|lia]. }
    destruct (decide (e = cl_exp c)) as [->|Hne]; [right; lia|left]. exists e. split; [by eapply future_revocation|done].
  - intros x Hx. by apply (oi_revoked _ HI1).
Qed.

Lemma safe_authenticate s0 header : oauth_inv s0 → safe s0 (authenticate config header).
Proof. intros H0. eapply (wp_mono _ _); [|by apply wp_authenticate]. done. Qed.

(** Every handler keeps the invariant. *)
Lemma safe_handle s0 r : oauth_inv s0 → safe s0 (handle config r).
Proof.
  intros H0. destruct r; cbn [handle].
  - apply safe_register.
  - by apply safe_authorize.
  - apply safe_token.
  - by apply safe_revoke.
  - by apply safe_authenticate.
  - by apply safe_viewer.
  - by apply safe_recover.
  - by apply safe_activate.
Qed.

(** ** All interleavings *)

(** Meanwhile time passes and the accounts change. *)
Definition elsewhere (s s' : oauth A) : Prop :=
  ∃ now accounts, (oa_now s ≤ now)%Z ∧ s' = set_now now (set_accounts accounts s).

Definition oauth_step : system (oauth A) reply → system (oauth A) reply → Prop :=
  system_step (λ m, ∃ r, m = handle config r) elsewhere.

Definition oauth_reachable (y : system (oauth A) reply) : Prop :=
  ∃ accounts now, rtc oauth_step {| sy_state := new_oauth accounts now; sy_tasks := [] |} y.

Lemma new_oauth_inv accounts now : oauth_inv (new_oauth accounts now).
Proof.
  split; cbn.
  - intros id c. by rewrite lookup_empty.
  - intros h r. by rewrite lookup_empty.
  - intros h r. by rewrite lookup_empty.
  - done.
  - set_solver.
  - intros j x. by rewrite lookup_empty.
  - set_solver.
Qed.

Lemma elsewhere_inv s s' : elsewhere s s' → oauth_inv s → oauth_inv s' ∧ future s s'.
Proof. intros (t & a & Ht & ->) HI. split; [by eapply inv_quiet; [..|exact HI]|]. by split. Qed.

Lemma reachable_safe y :
  oauth_reachable y → oauth_inv (sy_state y) ∧ ∀ i m, sy_tasks y !! i = Some m → safe (sy_state y) m.
Proof.
  intros (accounts & now & Hr).
  eapply (interleaved oauth_inv future _ _ (λ _ _ _, True)) in Hr as (HI & _ & Ht); [by split|done| | | |].
  - intros m i s (r & ->) _. apply safe_handle.
  - apply elsewhere_inv.
  - apply new_oauth_inv.
  - done.
Qed.

Lemma oauth_reachable_inv y : oauth_reachable y → oauth_inv (sy_state y).
Proof. intros Hy. by apply reachable_safe in Hy as [? _]. Qed.

End props.

(** ** The authorization server with one request at a time

    What a whole handler does to the codes, the refresh tokens and the credential material
    when nothing interrupts it, and the histories made of such handlers. *)

Section runs.
Context {H : OAuthHost} {F : OAuthHostForms} {A : Type} `{!OwnerIdentityStore (oauth A), !OwnerIdentityStoreLaws (oauth A)}.
Context (config : EdgeOwnerOAuthConfig).

(** The tokens issued, in order. *)
Definition issued (log : list oauth_event) : list issuance :=
  omap (λ e, match e with E_issued i => Some i | _ => None end) log.

Definition code_hash (n : nat) : string := sha256Base64Url ("code-" +:+ draw n).
Definition refresh_hash (n : nat) : string := sha256Base64Url ("refresh-" +:+ draw n).

(** What one request does. *)
Inductive effect (s s' : oauth A) : Prop :=
| Eff_less :
    oa_codes s' ⊆ oa_codes s → oa_refresh s' ⊆ oa_refresh s → oa_material s' = oa_material s →
    issued (oa_log s') = issued (oa_log s) → oa_draws s ≤ oa_draws s' → effect s s'
| Eff_material m n :
    oa_codes s' = oa_codes s → oa_refresh s' = oa_refresh s → oa_material s' = Some m →
    cm_credentialVersion m = Some (draw n) → oa_draws s ≤ n → n < oa_draws s' →
    isOwnerCredentialMaterial m = true →
    issued (oa_log s') = issued (oa_log s) → effect s s'
| Eff_code n r :
    oa_codes s' = <[code_hash n := r]> (oa_codes s) → oa_refresh s' = oa_refresh s → oa_material s' = oa_material s →
    oa_draws s ≤ n → n < oa_draws s' → issued (oa_log s') = issued (oa_log s) → effect s s'
| Eff_exchange h v r n r' i :
    oa_codes s !! h = Some r → oa_codes s' = delete h (oa_codes s) → oa_refresh s' = <[refresh_hash n := r']> (oa_refresh s) →
    oa_material s' = oa_material s → rt_credentialVersion r' = version_of (oa_material s) →
    oa_draws s ≤ n → n < oa_draws s' → is_origin i = From_code h v → is_refresh i = refresh_hash n →
    issued (oa_log s') = issued (oa_log s) ++ [i] → effect s s'
| Eff_refresh h r n r' i :
    oa_refresh s !! h = Some r → rt_credentialVersion r = version_of (oa_material s) → oa_codes s' = oa_codes s →
    oa_refresh s' = <[refresh_hash n := r']> (delete h (oa_refresh s)) → oa_material s' = oa_material s →
    rt_credentialVersion r' = version_of (oa_material s) →
    oa_draws s ≤ n → n < oa_draws s' → is_origin i = From_refresh h → is_refresh i = refresh_hash n →
    issued (oa_log s') = issued (oa_log s) ++ [i] → effect s s'.

Lemma issued_app l e : issued (l ++ [e]) = issued l ++ match e with E_issued i => [i] | _ => [] end.
Proof. unfold issued. rewrite omap_app. by destruct e. Qed.

(** The state a handler may reach without touching codes, tokens and material. *)
Record same_grants (s s' : oauth A) : Prop := {
  sg_codes : oa_codes s' = oa_codes s;
  sg_refresh : oa_refresh s' = oa_refresh s;
  sg_material : oa_material s' = oa_material s;
  sg_log : oa_log s' = oa_log s;
  sg_draws : oa_draws s ≤ oa_draws s';
}.

Lemma material_form hash key n :
  exactly base64url_char 43 hash = true → exactly base64url_char 43 key = true →
  isOwnerCredentialMaterial {| cm_ownerVerifierHash := hash; cm_signingKey := key; cm_credentialVersion := Some (draw n) |} = true.
Proof.
  intros Hh Hk. unfold isOwnerCredentialMaterial. cbn. rewrite Hh, Hk. cbn. destruct (draw_form n) as [H1 H2].
  apply andb_true_iff. split; [by apply Nat.ltb_lt|by apply Nat.leb_le].
Qed.

Lemma same_refl s : same_grants s s.
Proof. by split. Qed.

Lemma same_trans s1 s2 s3 : same_grants s1 s2 → same_grants s2 s3 → same_grants s1 s3.
Proof. intros [] []. split; [congruence..|lia]. Qed.

Lemma same_effect s s' : same_grants s s' → effect s s'.
Proof. intros [E1 E2 E3 E4 Hd]. apply Eff_less; by rewrite ?E1, ?E2, ?E4. Qed.

Lemma same_then s s1 s2 : same_grants s s1 → effect s1 s2 → effect s s2.
Proof.
  intros [E1 E2 E3 E4 Hd] He. destruct He; rewrite ?E1, ?E2, ?E3, ?E4 in *.
  - apply Eff_less; try done. lia.
  - by eapply Eff_material; try done; lia.
  - by eapply Eff_code; try done; lia.
  - by eapply Eff_exchange; try done; lia.
  - by eapply Eff_refresh; try done; lia.
Qed.

Lemma after_draw s Q : (∀ s', same_grants s s' → oa_draws s' = S (oa_draws s) → Q s' (draw (oa_draws s))) → after s draw_token Q.
Proof. intros HQ. apply after_turn, HQ; [split; cbn; by try lia|done]. Qed.

Lemma after_hmac s Q : (∀ s' k, same_grants s s' → oa_draws s' = oa_draws s → Q s' k) → after s (hmacKey config) Q.
Proof. intros HQ. apply after_turn, HQ; [split; cbn; by try lia|done]. Qed.

Lemma after_only s Q : (∀ s' u, same_grants s s' → Q s' u) → after s only_user Q.
Proof.
  intros HQ. unfold only_user. alone. apply after_reads; [apply listUsers_reads|]. intros [|u [|u' us]].
  - alone. apply HQ, same_refl.
  - do 3 alone. apply HQ. by split.
  - alone. apply HQ, same_refl.
Qed.

Lemma after_resolve s Q : (∀ s' u, same_grants s s' → Q s' u) → after s resolveOwnerUser Q.
Proof.
  intros HQ. unfold resolveOwnerUser. do 2 alone. destruct (oa_owner s) as [id|]; [|by apply after_only].
  case_bool_decide; [by apply after_only|]. alone. apply after_reads; [apply getUser_reads|]. intros [u|].
  - alone. apply HQ, same_refl.
  - do 2 alone. apply after_only. intros s' u Hs. apply HQ. eapply same_trans; [|exact Hs]. by split.
Qed.

Lemma after_matches (s : oauth A) supplied Q : (∀ b, Q s b) → after s (ownerSecretMatches config supplied) Q.
Proof. intros HQ. unfold ownerSecretMatches. do 5 alone. apply HQ. Qed.

Lemma after_verify s t Q : (∀ s' r, same_grants s s' → Q s' r) → after s (verifyAccessToken config t) Q.
Proof.
  intros HQ. unfold verifyAccessToken. destruct (jwt_claims t) as [c|]; [|alone; apply HQ, same_refl].
  alone. apply after_hmac. intros s' [k|] Hs _; repeat alone; by apply HQ.
Qed.

Notation does s m := (after s m (λ s' _, effect s s')).

Lemma does_rotate s0 s password : same_grants s0 s → after s (rotateOwnerPassword password) (λ s' _, effect s0 s').
Proof.
  intros [E1 E2 E3 E4 Hd]. unfold rotateOwnerPassword. destruct (negb _); [alone; by apply same_effect|].
  do 3 alone. apply after_draw. intros s' [F1 F2 F3 F4 Hd'] Hn. do 5 alone.
  eapply (Eff_material _ _ _ (oa_draws s)); cbn; [congruence|congruence|done|done|lia|lia| |].
  - apply material_form; [apply sha_form|apply key_form].
  - rewrite issued_app, F4, E4. apply app_nil_r.
Qed.

Lemma does_recover s password : does s (recoverAccess password).
Proof.
  unfold recoverAccess. alone. apply after_resolve. intros s' [u|] Hs; [|alone; by apply same_effect].
  alone. eapply after_mono; [|by apply does_rotate]. intros s2 b He. by alone.
Qed.

Lemma does_activate s userId : does s (activateSingleUser config userId).
Proof.
  unfold activateSingleUser. alone. apply after_reads; [apply listUsers_reads|].
  assert (∀ r : reply, after s (mret r) (λ s' _, effect s s')) as Hret by (intros r; alone; apply same_effect, same_refl).
  intros [|u [|u' us]]; [done| |done]. case_bool_decide; [|done]. do 2 alone. case_bool_decide; [done|].
  do 3 alone. unfold bumpCredentialVersion. do 2 alone. set (s1 := set_owner _ s). assert (same_grants s s1) as Hs1 by by split.
  destruct (current_material config s1) as [m|]; [|do 2 alone; by apply same_effect].
  destruct (isOwnerCredentialMaterial m) eqn:Em; [|do 2 alone; by apply same_effect].
  alone. apply after_draw. intros s' Hs' Hn. do 4 alone. destruct (same_trans _ _ _ Hs1 Hs') as [E1 E2 E3 E4 Hd].
  change (oa_draws s1) with (oa_draws s) in Hn.
  eapply (Eff_material _ _ _ (oa_draws s1)); cbn; [done|done|done|done|done|lia| |].
  - unfold isOwnerCredentialMaterial in Em. apply andb_true_iff in Em as [[? ?]%andb_true_iff _]. by apply material_form.
  - rewrite issued_app, E4. apply app_nil_r.
Qed.

Lemma does_viewer s password : does s (authenticateViewer config password).
Proof.
  unfold authenticateViewer, currentCredentialVersion. destruct (_ || _); [alone; apply same_effect, same_refl|]. alone. apply after_matches. intros [|]; cbn [negb].
  - alone. apply after_resolve. intros s' [u|] Hs; repeat alone; by apply same_effect.
  - alone. apply same_effect, same_refl.
Qed.

Lemma does_register s input : does s (register config input).
Proof.
  assert (does s (mret (R_error "invalid_client_metadata" 400))) as Hret by (alone; apply same_effect, same_refl).
  unfold register. destruct (input ≫= prop "redirect_uris") as [[| | | |redirects|]|]; try exact Hret.
  destruct (strings_of redirects) as [uris|]; [|exact Hret]. destruct (_ || _); [exact Hret|]. do 2 alone.
  destruct (_ <=? _)%Z; [exact Hret|]. alone. apply after_draw. intros s1 H1 _. do 2 alone. cbv zeta.
  destruct (_ && _); [|alone; by apply same_effect]. do 5 alone. apply same_effect. eapply same_trans; [exact H1|]. by split.
Qed.

Lemma does_authorize s post fields : does s (authorize config post fields).
Proof.
  unfold authorize, currentCredentialVersion. do 2 alone. cbn [fst snd].
  assert (∀ r : reply, does s (mret r)) as Hret by (intros r; alone; apply same_effect, same_refl).
  destruct (oa_clients s !! _) as [client|]; [|done]. cbv zeta. destruct (negb _); [done|]. do 2 alone.
  destruct (version_of (oa_material s)) as [v|]; [|done]. destruct (negb post); [done|]. alone. apply after_matches. intros b.
  destruct (negb _); [done|]. alone. apply after_resolve. intros s1 [u|] H1; [|alone; by apply same_effect].
  alone. apply after_draw. intros s2 H2 Hn. do 5 alone. destruct (same_trans _ _ _ H1 H2) as [E1 E2 E3 E4 Hd].
  pose proof (sg_draws _ _ H1). eapply (Eff_code _ _ (oa_draws s1)); cbn; [by rewrite E1|done|done|done|lia|].
  rewrite issued_app, E4. apply app_nil_r.
Qed.

Lemma does_revoke s t : does s (revoke config t).
Proof.
  unfold revoke. case_bool_decide; [alone; apply same_effect, same_refl|]. alone. apply after_verify.
  intros s1 [[k c]|] [E1 E2 E3 E4 Hd]; repeat alone; apply Eff_less; cbn.
  - by rewrite E1.
  - by rewrite E2.
  - done.
  - rewrite issued_app, E4. apply app_nil_r.
  - done.
  - by rewrite E1.
  - rewrite E2. apply delete_subseteq.
  - done.
  - by rewrite E4.
  - done.
Qed.

Lemma does_accept s t k c : does s (accept_claims config t k c).
Proof.
  unfold accept_claims. destruct (negb _); [alone; apply same_effect, same_refl|]. alone. apply after_resolve.
  intros s1 [u|] H1; [|alone; by apply same_effect]. case_bool_decide; [|alone; by apply same_effect]. cbv zeta. do 3 alone.
  eapply same_then; [exact H1|]. apply Eff_less; cbn; try done. rewrite issued_app. apply app_nil_r.
Qed.

Lemma does_authenticate s header : does s (authenticate config header).
Proof.
  unfold authenticate. destruct (readBearerToken header) as [t|]; [|alone; apply same_effect, same_refl].
  alone. apply after_verify. intros s1 [[k c]|] H1; [|alone; by apply same_effect]. do 2 alone. cbn [fst snd].
  destruct (_ <=? _)%Z; [alone; by apply same_effect|]. alone. unfold still_revoked.
  assert (∀ s2 (b : bool), same_grants s1 s2 →
    after s2 (if b then mret (R_denied 401) else accept_claims config t k c) (λ s' _, effect s s')) as Hend.
  { intros s2 [|] H2; [alone; by eapply same_effect, same_trans|]. eapply after_mono; [|apply does_accept]. intros s3 r He.
    eapply same_then; [exact H1|]. by eapply same_then. }
  destruct (oa_revoked s1 !! _) as [x|]; alone; [|apply (Hend s1 false), same_refl]. apply Hend. destruct (_ <? _)%Z; by split.
Qed.

(** ** Tokens *)

(** [issueTokens] from a state that kept all but the redeemed grant. *)
Lemma after_issue s origin clientId scopes resource userId Q :
  (∀ s' r, same_grants s s' → Q s' r) →
  (∀ s' r n rec i,
     oa_codes s' = oa_codes s → oa_refresh s' = <[refresh_hash n := rec]> (oa_refresh s) → oa_material s' = oa_material s →
     rt_credentialVersion rec = version_of (oa_material s) → oa_draws s ≤ n → n < oa_draws s' → is_origin i = origin →
     is_refresh i = refresh_hash n → issued (oa_log s') = issued (oa_log s) ++ [i] → Q s' r) →
  after s (issueTokens config origin clientId scopes resource userId) Q.
Proof.
  intros HF HQ. unfold issueTokens, currentCredentialVersion. do 3 alone. apply after_draw. intros s1 H1 N1. cbv zeta. alone. apply after_hmac.
  intros s2 [k|] H2 N2; [|alone; by eapply HF, same_trans]. do 3 alone. apply after_draw. intros s3 H3 N3. do 7 alone.
  destruct (same_trans _ _ _ (same_trans _ _ _ H1 H2) H3) as [E1 E2 E3 E4 Hd].
  eapply HQ with (n := oa_draws s2); cbn; rewrite ?issued_app, ?E1, ?E2, ?E3, ?E4; try done; try lia; reflexivity.
Qed.

Lemma does_exchange s fields clientId : does s (exchange_code config fields clientId).
Proof.
  unfold exchange_code. do 6 alone. set (h := sha256Base64Url _).
  assert (∀ r : reply, does s (mret r)) as Hret by (intros r; alone; apply same_effect, same_refl).
  destruct (oa_codes s !! h) as [r|] eqn:Er; [|done]. destruct (_ || _); [done|]. destruct (_ || _); [done|]. cbv zeta. do 2 alone.
  destruct (negb _); [done|]. do 2 alone. apply after_issue; cbn.
  - intros s' _ [E1 E2 E3 E4 Hd]. cbn in *. apply Eff_less; rewrite ?E1, ?E2, ?E4; try done. apply delete_subseteq.
  - intros s' _ n rec i E1 E2 E3 Hv Hn Hn' Ho Hr El. by eapply Eff_exchange.
Qed.

Lemma does_refresh s fields clientId : does s (refresh_grant config fields clientId).
Proof.
  unfold refresh_grant, currentCredentialVersion. do 6 alone. set (h := sha256Base64Url _).
  assert (∀ r : reply, does s (mret r)) as Hret by (intros r; alone; apply same_effect, same_refl).
  destruct (oa_refresh s !! h) as [r|] eqn:Er; [|done]. destruct (_ || _); [done|]. do 2 alone.
  destruct (negb _) eqn:Ev; [done|]. apply negb_false_iff, bool_decide_eq_true in Ev. destruct (negb _); [done|]. cbv zeta.
  destruct (negb _); [done|]. do 2 alone. apply after_issue; cbn.
  - intros s' _ [E1 E2 E3 E4 Hd]. cbn in *. apply Eff_less; rewrite ?E1, ?E2, ?E4; try done. apply delete_subseteq.
  - intros s' _ n rec i E1 E2 E3 Hv Hn Hn' Ho Hr El. by eapply Eff_refresh.
Qed.

(** What a request does. *)
Lemma handle_effect s r : effect s (run (handle config r) s).2.
Proof.
  change (does s (handle config r)). destruct r as [input|post fields|fields|fields|header|password|password|userId]; cbn [handle].
  - apply does_register.
  - apply does_authorize.
  - unfold token. do 2 alone. destruct (oa_clients s !! _); [|alone; apply same_effect, same_refl].
    case_bool_decide; [apply does_exchange|]. case_bool_decide; [apply does_refresh|alone; apply same_effect, same_refl].
  - apply does_revoke.
  - apply does_authenticate.
  - apply does_viewer.
  - apply does_recover.
  - apply does_activate.
Qed.

(** ** Histories *)

(** One request, or the passing of time. *)
Inductive served : oauth A → oauth A → Prop :=
| served_request s r : served s (run (handle config r) s).2
| served_time s s' : elsewhere s s' → served s s'.

Lemma served_effect s s' : served s s' → effect s s'.
Proof. intros [t r|t t' (now & acc & _ & ->)]; [apply handle_effect|]. apply same_effect. by split. Qed.

Lemma effect_draws s s' : effect s s' → oa_draws s ≤ oa_draws s'.
Proof. intros []; lia. Qed.

Lemma rtc_draws s s' : rtc served s s' → oa_draws s ≤ oa_draws s'.
Proof. induction 1 as [|s1 s2 s3 Hs _ IH]; [done|]. apply served_effect, effect_draws in Hs. lia. Qed.

End runs.
