(* ===== verification/OwnerOAuthScenario.v ===== *)
(** * OwnerOAuthScenario: a concrete authorization server

    A host with short, readable tokens, one account, and runs of the server that the
    witnesses of the theorems use: the owner sets a password, a client registers, is
    authorized, gets tokens, refreshes and revokes them. *)

From S2P Require Import Prelude Text Async OwnerOAuth OwnerOAuthProps.
From Stdlib Require Import Ascii.

(** ** The host *)

Definition url_safe (c : Ascii.ascii) : Ascii.ascii := if base64url_char c then c else "_"%char.

(** The first [n] characters of [s], made url-safe and padded. *)
Fixpoint demo_hash (n : nat) (s : string) : string :=
  match n with
  | 0 => ""
  | S n => match s with
           | EmptyString => String "-" (demo_hash n "")
           | String c r => String (url_safe c) (demo_hash n r)
           end
  end.

Lemma demo_hash_form n s : exactly base64url_char n (demo_hash n s) = true.
Proof.
  unfold exactly. revert s. induction n as [|n IH]; intros s; [done|]. destruct s as [|c s]; cbn; [apply IH|].
  specialize (IH s). unfold url_safe. apply andb_true_iff in IH as [IH1 IH2]. destruct (base64url_char c) eqn:Ec; cbn.
  - rewrite Ec. cbn. by apply andb_true_iff.
  - by apply andb_true_iff.
Qed.

Fixpoint bits (p : positive) : string :=
  match p with
  | xH => "h"
  | xO p => String "0" (bits p)
  | xI p => String "1" (bits p)
  end.

Fixpoint unbits (s : string) : option positive :=
  match s with
  | EmptyString => None
  | String c r =>
      if Ascii.eqb c "0" then xO <$> unbits r
      else if Ascii.eqb c "1" then xI <$> unbits r
      else if Ascii.eqb c "h" then Some xH else None
  end.

Lemma unbits_bits p : unbits (bits p) = Some p.
Proof. induction p as [p IH|p IH|]; cbn; by rewrite ?IH. Qed.

Definition token_parts (k : string) (c : OwnerAccessClaims) : list positive :=
  [encode k; encode (cl_iss c); encode (cl_aud c); encode (cl_sub c); encode (cl_scope c); encode (cl_client_id c);
   encode (cl_user_id c); encode (cl_iat c); encode (cl_exp c); encode (cl_jti c)].

(** A token: its key and claims in binary. *)
Definition demo_sign (k : string) (c : OwnerAccessClaims) : string := bits (positives_flatten (token_parts k c)).

Definition demo_fields (t : string) : option (list positive) := unbits t ≫= positives_unflatten.

Definition demo_claims (t : string) : option OwnerAccessClaims :=
  l ← demo_fields t;
  match l with
  | [_; iss; aud; sub; scope; client; user; iat; exp; jti] =>
      iss ← decode iss; aud ← decode aud; sub ← decode sub; scope ← decode scope; client ← decode client;
      user ← decode user; iat ← decode iat; exp ← decode exp; jti ← decode jti;
      Some {| cl_iss := iss; cl_aud := aud; cl_sub := sub; cl_scope := scope; cl_client_id := client;
              cl_user_id := user; cl_iat := iat; cl_exp := exp; cl_jti := jti |}
  | _ => None
  end.

Definition demo_signature (k t : string) : bool :=
  match demo_fields t with
  | Some (key :: _) => bool_decide (key = encode k)
  | _ => false
  end.

Definition demo_draw (n : nat) : string :=
  if n <? 20 then String (Ascii.ascii_of_nat (97 + n)) "" else "z".

Definition callback : string := "http://localhost/cb".

Definition demo_url (s : string) : option url :=
  if bool_decide (s = callback) then
    Some {| url_protocol := "http:"; url_hostname := "localhost"; url_pathname := "/cb"; url_username := "";
            url_password := ""; url_search := ""; url_hash := "" |}
  else None.

#[global] Instance demo_host : OAuthHost := {|
  sha256Base64Url := demo_hash 43;
  decodeBase64UrlBytes := λ s, s;
  derive_signing_key := λ s, demo_hash 43 ("key-" +:+ s);
  jwt_sign := demo_sign;
  jwt_claims := demo_claims;
  jwt_signature := demo_signature;
  draw := demo_draw;
  parse_url := demo_url;
|}.

#[global] Instance demo_forms : OAuthHostForms.
Proof.
  split; [intros s; apply (demo_hash_form 43)|intros s; apply (demo_hash_form 43)|].
  intros n. cbn. unfold demo_draw. destruct (n <? 20); cbn; lia.
Qed.

(** ** The accounts *)

Notation server := (oauth (list OwnerIdentity)).

#[global] Instance demo_accounts : OwnerIdentityStore server := {|
  getUser := λ id, aget (λ s, List.find (λ u, bool_decide (id_id u = id)) (oa_accounts s));
  listUsers := aget oa_accounts;
|}.

#[global] Instance demo_accounts_laws : OwnerIdentityStoreLaws server.
Proof. by split; cbn. Qed.

Definition owner : OwnerIdentity :=
  {| id_id := "usr_00000000-0000-0000-0000-000000000000"; id_displayName := "Owner" |}.

Definition demo_config : EdgeOwnerOAuthConfig := {|
  cf_ownerSecret := None; cf_issuer := "https://h/"; cf_hostname := "h"; cf_mcpUrl := "https://h/mcp";
  cf_scopes := ["mcp:tools"; "mcp:read"]%string; cf_accessTokenTtlSeconds := 3600; cf_refreshTokenTtlSeconds := 86400;
|}.

(** ** Requests *)

Definition form_of (l : list (string * string)) (name : string) : option string := (list_to_map l : gmap string string) !! name.

Definition verifier : string := "a-verifier-that-only-the-client-knows-of".

Definition Q_registration : oauth_request :=
  Q_register (Some (JObj [("redirect_uris", JArr [JStr callback])])).

Definition authorization_form (client password : string) : string → option string :=
  form_of [("client_id", client); ("response_type", "code"); ("code_challenge_method", "S256");
           ("code_challenge", demo_hash 43 verifier); ("redirect_uri", callback); ("resource", "https://h/mcp");
           ("owner_password", password)]%string.

Definition code_form (client code : string) : string → option string :=
  form_of [("grant_type", "authorization_code"); ("client_id", client); ("code", code); ("redirect_uri", callback);
           ("resource", "https://h/mcp"); ("code_verifier", verifier)]%string.

Definition refresh_form (client refresh : string) : string → option string :=
  form_of [("grant_type", "refresh_token"); ("client_id", client); ("refresh_token", refresh)]%string.

Definition ask (r : oauth_request) : list (action (S := server) (A := reply)) := [Arrive (handle demo_config r)].

(** The requests one after the other. *)
Definition served_in_turn (rs : list oauth_request) : list (action (S := server) (A := reply)) :=
  concat (imap (λ i r, [Arrive (handle demo_config r); Finish i]) rs).

Definition start : system server reply := {| sy_state := new_oauth [owner] 0; sy_tasks := [] |}.

Definition set_up_requests : list oauth_request :=
  [Q_recover "first-password"; Q_registration; Q_authorize true (authorization_form "mcp-b" "first-password")].

Definition after_set_up : system server reply := Eval vm_compute in
  default start (schedule (served_in_turn set_up_requests) start).

Definition after_code : system server reply := Eval vm_compute in
  default start (schedule (served_in_turn (set_up_requests ++ [Q_token (code_form "mcp-b" "code-c")])) start).

(** ** Runs *)

Lemma in_turn_allowed rs :
  Forall (allowed (λ m, ∃ r, m = handle demo_config r) elsewhere) (served_in_turn rs).
Proof.
  unfold served_in_turn. apply Forall_concat, Forall_forall. intros l (i & r & -> & _)%elem_of_lookup_imap.
  repeat constructor. by exists r.
Qed.

Lemma in_turn_reachable rs y : schedule (served_in_turn rs) start = Some y → oauth_reachable demo_config y.
Proof. intros Hs. exists [owner], 0%Z. eapply schedule_steps; [apply in_turn_allowed|exact Hs]. Qed.

(** A further schedule of requests. *)
Lemma go_on acts y y' :
  oauth_reachable demo_config y →
  Forall (allowed (λ m, ∃ r, m = handle demo_config r) elsewhere) acts → schedule acts y = Some y' →
  oauth_reachable demo_config y'.
Proof.
  intros (accounts & now & Hr) HF Hs. exists accounts, now. etransitivity; [exact Hr|]. by eapply schedule_steps.
Qed.

Definition serve (s : server) (r : oauth_request) : server := (run (handle demo_config r) s).2.

Lemma serve_all rs s : rtc (served demo_config) s (fold_left serve rs s).
Proof. revert s. induction rs as [|r rs IH]; intros s; cbn; [done|]. eapply rtc_l; [apply served_request|apply IH]. Qed.

(** ** Tokens *)

(** The tokens of the code. *)
Definition access : string := Eval vm_compute in
  match sy_tasks after_code !! 3 with Some (Done (R_tokens a _ _)) => a | _ => "" end.
Definition access_claims : OwnerAccessClaims := Eval vm_compute in
  match demo_claims access with Some c => c | None => {| cl_iss := ""; cl_aud := ""; cl_sub := ""; cl_scope := "";
    cl_client_id := ""; cl_user_id := None; cl_iat := 0; cl_exp := 0; cl_jti := "" |} end.
Definition access_key : string := Eval vm_compute in demo_hash 43 "key-first-password".
Definition access_header : option string := Some (bearer +:+ access).

Definition token_requests : list oauth_request := set_up_requests ++ [Q_token (code_form "mcp-b" "code-c")].

(** The owner comes in with the access token. *)
Definition after_access : system server reply := Eval vm_compute in
  default start (schedule (served_in_turn (token_requests ++ [Q_authenticate access_header])) start).

(** The access token is revoked. *)
Definition after_revoke : system server reply := Eval vm_compute in
  default start (schedule (served_in_turn (token_requests ++ [Q_revoke (form_of [("token", access)])])) start).

(** Then it is presented. *)
Definition after_refusal : system server reply := Eval vm_compute in
  default start (schedule [Arrive (authenticate demo_config access_header); Finish 5] after_revoke).

(** The refresh token is used. *)
Definition refresh_requests : list oauth_request := token_requests ++ [Q_token (refresh_form "mcp-b" "refresh-e")].
Definition refreshed : server := Eval vm_compute in fold_left serve refresh_requests (sy_state start).

(** The password is rotated after the tokens were issued, and the refresh token presented. *)
Definition with_tokens : server := Eval vm_compute in fold_left serve token_requests (sy_state start).
Definition rotated : server := Eval vm_compute in serve with_tokens (Q_recover "second-password").
Definition rotation_requests : list oauth_request :=
  [Q_token (refresh_form "mcp-b" "refresh-e"); Q_authorize true (authorization_form "mcp-b" "second-password");
   Q_token (code_form "mcp-b" "code-g")].
Definition after_rotation : server := Eval vm_compute in fold_left serve rotation_requests rotated.

Lemma after_set_up_reachable : oauth_reachable demo_config after_set_up.
Proof. apply (in_turn_reachable set_up_requests). vm_compute. reflexivity. Qed.

Lemma after_code_reachable : oauth_reachable demo_config after_code.
Proof. apply (in_turn_reachable token_requests). vm_compute. reflexivity. Qed.

Lemma after_access_reachable : oauth_reachable demo_config after_access.
Proof. apply (in_turn_reachable (token_requests ++ [Q_authenticate access_header])). vm_compute. reflexivity. Qed.

Lemma after_revoke_reachable : oauth_reachable demo_config after_revoke.
Proof. apply (in_turn_reachable (token_requests ++ [Q_revoke (form_of [("token", access)])])). vm_compute. reflexivity. Qed.
