(* ===== verification/OwnerOAuthTheorems.v ===== *)
(** * OwnerOAuthTheorems: properties of the authorization server

    Whoever is let in was let in by the owner's password, in every interleaving of requests;
    tokens are bound to the authorization they come from; with one request at a time codes
    and refresh tokens are used once and a password rotation ends the earlier refresh tokens;
    the whole flow completes.  The last part shows what an interleaving breaks. *)

From S2P Require Import Prelude Text Async OwnerOAuth OwnerOAuthProps OwnerOAuthScenario.
From Stdlib Require Import Ascii.

Section theorems.
Context {H : OAuthHost} {A : Type} `{!OwnerIdentityStore (oauth A), !OwnerIdentityStoreLaws (oauth A)}.
Context (config : EdgeOwnerOAuthConfig).

(** C18: Access needs the owner's password. In every interleaving of requests, time and account
    changes, a bearer token that [authenticate] accepts, and that the server itself signed,
    descends from an authorization in the log for which the owner's password was supplied: at
    a moment between the beginning of that authorization request and its end, credential
    material was stored whose verifier hash is the hash of the password supplied.  The token is
    for the same client, the current user and this server, its scopes include the required one
    and lie within those authorized and configured, and its code went to an allowed redirect
    target. *)
Theorem access_requires_the_password y t k c p :
  let log := oa_log (sy_state y) in
  oauth_reachable config y → E_accepted t k c p ∈ log →
  (∃ i, E_issued i ∈ log ∧ is_key i = k ∧ is_claims i = c) →
  jwt_claims t = Some c ∧ jwt_signature k t = true ∧ requiredScope config ∈ pr_scopes p ∧
  ∃ a, log !! au_ended a = Some (E_authorized a) ∧
    (∃ l m, l `prefix_of` log ∧ au_begun a ≤ length l ≤ au_ended a ∧ material_after l = Some m ∧
       decodeBase64UrlBytes (sha256Base64Url (au_supplied a)) = decodeBase64UrlBytes (cm_ownerVerifierHash m)) ∧
    ac_clientId (au_record a) = cl_client_id c ∧ ac_userId (au_record a) = pr_userId p ∧
    ac_resource (au_record a) = cf_mcpUrl config ∧ pr_scopes p ⊆ ac_scopes (au_record a) ∧
    ac_scopes (au_record a) ⊆ cf_scopes config ∧ redirectAllowed config (ac_redirectUri (au_record a)) = true.
Proof.
  intros log Hy Ha (i & Hi & _ & Ec). pose proof (oauth_reachable_inv config y Hy) as HI.
  destruct (oi_events _ _ HI _ Ha) as [Hc Hk Haud Hsc Hreq Hu].
  destruct (oi_events _ _ HI _ Hi) as [Escope Hw (u & Hu' & a & Hin & Hcl & Hres & Hus & Hsub) _]. subst c.
  destruct (oi_events _ _ HI _ Hin) as [Hl Hp Hred Hr Hcf _]. rewrite Hu in Hu'. injection Hu' as ->.
  split_and!; [done..|]. exists a. split_and!; try done. intros x. rewrite Hsc, Escope, parseScopes_join by done. apply Hsub.
Qed.

(** Tokens are bound to what they come from. In every interleaving, tokens issued for a
    code come from the authorization that created the code: the verifier presented hashes to
    its challenge, and client, scopes, user and resource are those of the authorization; tokens
    issued for a refresh token come from an earlier issuance to the same client and have no
    more scopes. *)
Theorem tokens_are_bound y i :
  oauth_reachable config y → E_issued i ∈ oa_log (sy_state y) →
  origin_ok (oa_log (sy_state y)) (is_origin i) (cl_client_id (is_claims i)) (is_scopes i) ∧
  ∃ u, cl_user_id (is_claims i) = Some u ∧
    granted (oa_log (sy_state y)) (cl_client_id (is_claims i)) (cl_aud (is_claims i)) u (is_scopes i).
Proof. intros Hy Hi. by destruct (oi_events _ _ (oauth_reachable_inv config y Hy) _ Hi) as [_ _ Hu Ho]. Qed.

(** The server verifies the token with the claims [c]. *)
Definition verifies (s : oauth A) (t : string) (c : OwnerAccessClaims) : Prop :=
  jwt_claims t = Some c ∧ cl_iss c = cf_issuer config ∧ cl_aud c = cf_mcpUrl config ∧
  ∃ key, default (loadSigningKey config s) (oa_hmac s) = Some key ∧ jwt_signature key t = true.

Lemma revoke_records s t c :
  t ≠ "" → verifies s t c →
  after s (revoke config t) (λ s' r, r = R_ok ∧ E_revoked c ∈ oa_log s' ∧ oa_revoked s' !! cl_jti c = Some (cl_exp c)).
Proof.
  intros Hne (Hc & Hi & Ha & key & Hk & Hs). unfold revoke. rewrite bool_decide_eq_false_2 by done. alone.
  unfold verifyAccessToken, hmacKey. rewrite Hc. alone. apply after_turn. rewrite Hk. do 3 alone.
  rewrite Hs, Hi, Ha, !bool_decide_eq_true_2 by done. cbn [andb]. do 3 alone. split; [done|].
  split; [cbn; set_solver|cbn; by rewrite lookup_insert_eq].
Qed.

(** C19: A revoked access token is refused. Revoking a token the server verifies records the
    revocation, with the expiry claim of the token, and from then on, in every interleaving, a
    request that presents the token is answered 401, however late, unless the token's own
    expiry falls within that request (the revocation and the expiry are checked at different
    moments).  Token identifiers are taken to be unique: all revocations under the identifier
    are of tokens with this expiry. *)
Theorem revoked_token_is_refused y y' header t c r :
  oauth_reachable config y → readBearerToken header = Some t → jwt_claims t = Some c →
  (∀ s, verifies s t c → after s (revoke config t) (λ s' answer,
     answer = R_ok ∧ E_revoked c ∈ oa_log s' ∧ oa_revoked s' !! cl_jti c = Some (cl_exp c))) ∧
  (E_revoked c ∈ oa_log (sy_state y) →
   rtc (oauth_step config) {| sy_state := sy_state y; sy_tasks := sy_tasks y ++ [authenticate config header] |} y' →
   (∀ c', E_revoked c' ∈ oa_log (sy_state y') → cl_jti c' = cl_jti c → cl_exp c' = cl_exp c) →
   sy_tasks y' !! length (sy_tasks y) = Some (Done r) →
   r = R_denied 401 ∨ (nowSeconds (sy_state y) < cl_exp c ≤ nowSeconds (sy_state y'))%Z).
Proof.
  intros Hy Ht Hc. split.
  { intros s. apply revoke_records. intros ->. revert Ht. unfold readBearerToken. destruct header as [h|]; [|done].
    destruct (_ && _); [|done]. cbv zeta. case_bool_decide; [done|]. by intros [= ?]. }
  intros Hx Hr Hsame Hd. apply reachable_safe in Hy as [HI Hsafe].
  set (Q := λ (i : nat) (s : oauth A) (r : reply), i = length (sy_tasks y) →
    r = R_denied 401 ∨ (∃ x, revocation (oa_log s) (cl_jti c) x ∧ x ≠ cl_exp c) ∨
    (nowSeconds (sy_state y) < cl_exp c ≤ nowSeconds s)%Z).
  eapply (interleaved (oauth_inv config) future _ _ Q) in Hr as (_ & _ & Hq).
  - destruct (Hq _ _ Hd eq_refl) as [?|[(x & (c' & Hin & Ej & <-) & Hne)|?]]; [by left| |by right].
    by destruct Hne; apply Hsame.
  - intros i s s' a Hf Hq Ei. destruct (Hq Ei) as [?|[(x & ? & ?)|?]]; [by left| |].
    + right. left. exists x. split; [by eapply future_revocation|done].
    + right. right. pose proof (nowSeconds_mono _ _ (proj2 Hf)). lia.
  - intros m i s (q & ->) Hi HI'. eapply (wp_mono _ _); [|by apply safe_handle]. cbn in Hi. rewrite length_app in Hi. cbn in Hi.
    intros s' a _ _ Ei. lia.
  - apply elsewhere_inv.
  - done.
  - cbn. intros i m [Hi|[Hi [Ei <-]%list_lookup_singleton_Some]]%lookup_app_Some.
    + eapply (wp_mono _ _); [|by eapply Hsafe]. intros s' a _ _ Ei. apply lookup_lt_Some in Hi. lia.
    + eapply (wp_mono _ _); [|by apply wp_authenticate]. intros s' a _ Ha _. by eapply Ha.
Qed.

(** ** One request at a time *)

Context {F : OAuthHostForms}.

(** The random tokens drawn below [n] have distinct hashes. *)
Definition fresh_below (n : nat) : Prop :=
  ∀ i j, i < n → j < n →
    (code_hash i = code_hash j → i = j) ∧ (refresh_hash i = refresh_hash j → i = j) ∧ (draw i = draw j → i = j).

Definition origin_key (i : issuance) : string + string :=
  match is_origin i with From_code h _ => inl h | From_refresh h => inr h end.

(** What is stored was drawn; what was redeemed is gone. *)
Record once_inv (s : oauth A) : Prop := {
  on_codes h r : oa_codes s !! h = Some r → ∃ n, n < oa_draws s ∧ h = code_hash n;
  on_refresh h r : oa_refresh s !! h = Some r → ∃ n, n < oa_draws s ∧ h = refresh_hash n;
  on_used_codes i h : i ∈ issued (oa_log s) → origin_key i = inl h →
    (∃ n, n < oa_draws s ∧ h = code_hash n) ∧ oa_codes s !! h = None;
  on_used_refresh i h : i ∈ issued (oa_log s) → origin_key i = inr h →
    (∃ n, n < oa_draws s ∧ h = refresh_hash n) ∧ oa_refresh s !! h = None;
  on_nodup : NoDup (map origin_key (issued (oa_log s)));
}.

Lemma drawn_later (f : nat → string) n m h : (∃ k, k < n ∧ h = f k) → n ≤ m → ∃ k, k < m ∧ h = f k.
Proof. intros (k & ? & ->) ?. exists k. split; [lia|done]. Qed.

Lemma used_once s s' n r' i :
  once_inv s → issued (oa_log s') = issued (oa_log s) ++ [i] → oa_draws s ≤ n → n < oa_draws s' →
  fresh_below (oa_draws s') → oa_codes s' ⊆ oa_codes s →
  (∃ R, R ⊆ oa_refresh s ∧ oa_refresh s' = <[refresh_hash n := r']> R ∧
     ∀ h, origin_key i = inr h → is_Some (oa_refresh s !! h) ∧ R !! h = None) →
  (∀ h, origin_key i = inl h → is_Some (oa_codes s !! h) ∧ oa_codes s' !! h = None) → once_inv s'.
Proof.
  intros [I1 I2 I3 I4 I5] El Hn Hn' Hf Hc (R & HR & Er & Hi) Hj.
  assert (oa_draws s ≤ oa_draws s') as Hd by lia. pose proof (λ h r Hr, drawn_later code_hash _ _ h (I1 h r Hr) Hd) as D1.
  pose proof (λ h r Hr, drawn_later refresh_hash _ _ h (I2 h r Hr) Hd) as D2.
  assert (∀ h, (∃ k, k < oa_draws s ∧ h = refresh_hash k) → R !! h = None → oa_refresh s' !! h = None) as Hgone.
  { intros h (k & Hk & ->) HN. rewrite Er, lookup_insert_ne; [done|]. intros Heq.
    destruct (Hf n k) as (_ & Hr & _); [lia|lia|]. apply Hr in Heq. lia. }
  assert (∀ h, oa_codes s !! h = None → oa_codes s' !! h = None) as HcN by (intros h Hh; by eapply lookup_weaken_None).
  split.
  - intros h r Hr. eapply D1, lookup_weaken; eassumption.
  - intros h r. rewrite Er, lookup_insert_Some. intros [[<- _]|[_ Hr]]; [by exists n|]. by eapply D2, lookup_weaken.
  - intros j h. rewrite El. intros [Hin| ->%list_elem_of_singleton]%elem_of_app Hk.
    + destruct (I3 _ _ Hin Hk) as [? ?]. split; [by eapply drawn_later|auto].
    + destruct (Hj _ Hk) as [[r Hr] ?]. split; [by eapply D1|done].
  - intros j h. rewrite El. intros [Hin| ->%list_elem_of_singleton]%elem_of_app Hk.
    + destruct (I4 _ _ Hin Hk) as [Hex HN]. split; [by eapply drawn_later|]. apply Hgone; [done|by eapply lookup_weaken_None].
    + destruct (Hi _ Hk) as [[r Hr] HN]. split; [by eapply D2|]. apply Hgone; [by eapply I2|done].
  - rewrite El, map_app. apply NoDup_app. split_and!; [done| |apply NoDup_singleton].
    intros k (j & -> & Hin)%list_elem_of_fmap E%list_elem_of_singleton. destruct (origin_key j) as [h|h] eqn:Ek; symmetry in E.
    + destruct (I3 _ _ Hin Ek) as [_ HN]. destruct (Hj _ E) as [[r Hr] _]. congruence.
    + destruct (I4 _ _ Hin Ek) as [_ HN]. destruct (Hi _ E) as [[r Hr] _]. congruence.
Qed.

Lemma effect_once s s' : effect s s' → fresh_below (oa_draws s') → once_inv s → once_inv s'.
Proof.
  intros He Hf HI. pose proof (effect_draws _ _ He) as Hd. destruct He as
    [Hc Hr Em El _|m n Ec Er Em Ev Hn Hn' Hv El|n r Ec Er Em Hn Hn' El|h v r n r' i Hh Ec Er Em Ev Hn Hn' Ho Hi El|h r n r' i Hh Hv Ec Er Em Ev Hn Hn' Ho Hi El].
  - destruct HI as [I1 I2 I3 I4 I5]. split; rewrite ?El; try done.
    + intros h r Hh. eapply drawn_later; [by eapply I1, lookup_weaken|done].
    + intros h r Hh. eapply drawn_later; [by eapply I2, lookup_weaken|done].
    + intros i h Hin Hk. destruct (I3 _ _ Hin Hk). split; [by eapply drawn_later|by eapply lookup_weaken_None].
    + intros i h Hin Hk. destruct (I4 _ _ Hin Hk). split; [by eapply drawn_later|by eapply lookup_weaken_None].
  - destruct HI as [I1 I2 I3 I4 I5]. split; rewrite ?El, ?Ec, ?Er; try done.
    + intros h r Hh. by eapply drawn_later; [eapply I1|].
    + intros h r Hh. by eapply drawn_later; [eapply I2|].
    + intros i h Hin Hk. destruct (I3 _ _ Hin Hk). split; [by eapply drawn_later|done].
    + intros i h Hin Hk. destruct (I4 _ _ Hin Hk). split; [by eapply drawn_later|done].
  - destruct HI as [I1 I2 I3 I4 I5]. split; rewrite ?El, ?Er; try done.
    + intros h r'. rewrite Ec, lookup_insert_Some. intros [[<- _]|[_ Hh]]; [by exists n|]. by eapply drawn_later; [eapply I1|].
    + intros h r' Hh. by eapply drawn_later; [eapply I2|].
    + intros i h Hin Hk. destruct (I3 _ _ Hin Hk) as [(k & Hk' & ->) HN]. split; [exists k; split; [lia|done]|].
      rewrite Ec, lookup_insert_ne; [done|]. intros Heq. destruct (Hf n k) as (Hr & _); [lia|lia|]. apply Hr in Heq. lia.
    + intros i h Hin Hk. destruct (I4 _ _ Hin Hk). split; [by eapply drawn_later|done].
  - eapply (used_once s s' n r' i); try done.
    + rewrite Ec. apply delete_subseteq.
    + exists (oa_refresh s). split_and!; [done|done|]. unfold origin_key. by rewrite Ho.
    + unfold origin_key. rewrite Ho, Ec. intros h' [= <-]. split; [by eexists|by rewrite lookup_delete_eq].
  - eapply (used_once s s' n r' i); try done.
    + by rewrite Ec.
    + exists (delete h (oa_refresh s)). split_and!; [apply delete_subseteq|done|]. unfold origin_key. rewrite Ho.
      intros h' [= <-]. split; [by eexists|by rewrite lookup_delete_eq].
    + unfold origin_key. by rewrite Ho.
Qed.

Lemma fresh_mono n m : fresh_below m → n ≤ m → fresh_below n.
Proof. intros Hf Hle i j Hi Hj. apply Hf; lia. Qed.

Lemma new_once accounts now : once_inv (new_oauth accounts now).
Proof.
  split; cbn.
  - intros h r. by rewrite lookup_empty.
  - intros h r. by rewrite lookup_empty.
  - set_solver.
  - set_solver.
  - constructor.
Qed.

Lemma served_once s s' : rtc (served config) s s' → fresh_below (oa_draws s') → once_inv s → once_inv s'.
Proof.
  induction 1 as [|s1 s2 s3 Hs Hr IH]; intros Hf HI; [done|]. apply IH; [done|]. eapply effect_once; [by eapply served_effect| |done].
  eapply fresh_mono; [exact Hf|by eapply rtc_draws].
Qed.

(** C20: Grants are used once. When requests are served one at a time, no authorization code
    and no refresh token ever yields tokens twice, over any history with distinct random
    tokens. *)
Theorem grants_are_used_once accounts now s :
  rtc (served config) (new_oauth accounts now) s → fresh_below (oa_draws s) →
  NoDup (map origin_key (issued (oa_log s))).
Proof. intros Hs Hf. eapply on_nodup, served_once; [exact Hs|done|apply new_once]. Qed.
(** ** Password rotation *)

(** A credential version that was drawn before [n], if it is one. *)
Definition old_version (n : nat) (v : option string) : Prop := ∀ x, v = Some x → ∃ k, k < n ∧ x = draw k.

Record version_inv (s : oauth A) : Prop := {
  vi_material : old_version (oa_draws s) (version_of (oa_material s));
  vi_refresh h r : oa_refresh s !! h = Some r → old_version (oa_draws s) (rt_credentialVersion r);
}.

Lemma old_mono n m v : old_version n v → n ≤ m → old_version m v.
Proof. intros Hv Hle x Hx. eapply drawn_later; [by apply Hv|done]. Qed.

Lemma effect_versions s s' : effect s s' → version_inv s → version_inv s'.
Proof.
  intros He [I1 I2]. pose proof (effect_draws _ _ He) as Hd. destruct He as
    [Hc Hr Em El _|m n Ec Er Em Ev Hn Hn' Hv El|n r Ec Er Em Hn Hn' El|h v r n r' i Hh Ec Er Em Ev Hn Hn' Ho Hi El|h r n r' i Hh Hv Ec Er Em Ev Hn Hn' Ho Hi El];
    split; try (rewrite Em; eapply old_mono; [exact I1|done]).
  - intros h r Hh. eapply old_mono; [by eapply I2, lookup_weaken|done].
  - rewrite Em. unfold version_of. cbn. rewrite Hv, Ev. intros x [= <-]. by exists n.
  - rewrite Er. intros h r Hh. eapply old_mono; [by eapply I2|done].
  - rewrite Er. intros h r' Hh. eapply old_mono; [by eapply I2|done].
  - rewrite Er. intros h' r''. rewrite lookup_insert_Some. intros [[_ <-]|[_ Hr]]; [rewrite Ev|]; by eapply old_mono; [eauto|].
  - rewrite Er. intros h' r''. rewrite lookup_insert_Some. intros [[_ <-]|[_ [_ Hr]%lookup_delete_Some]]; [rewrite Ev|]; by eapply old_mono; [eauto|].
Qed.

Lemma served_versions s s' : rtc (served config) s s' → version_inv s → version_inv s'.
Proof. induction 1; [done|]. intros HI. apply IHrtc. by eapply effect_versions; [eapply served_effect|]. Qed.

Lemma new_versions accounts now : version_inv (new_oauth accounts now).
Proof. split; cbn; [done|]. intros h r. by rewrite lookup_empty. Qed.

(** After the credential version drawn as number [v0] or later: the refresh tokens [old] from
    before carry earlier versions and are not redeemed. *)
Record rotated_inv (old : string → Prop) (v0 : nat) (s : oauth A) : Prop := {
  ri_version : ∃ n, v0 ≤ n ∧ n < oa_draws s ∧ version_of (oa_material s) = Some (draw n);
  ri_refresh h r : old h → oa_refresh s !! h = Some r → old_version v0 (rt_credentialVersion r);
  ri_issued i h : i ∈ issued (oa_log s) → origin_key i = inr h → ~ old h;
}.

Lemma effect_rotated old v0 s s' :
  effect s s' → fresh_below (oa_draws s') → (∀ h, old h → ∃ k, k < v0 ∧ h = refresh_hash k) →
  rotated_inv old v0 s → rotated_inv old v0 s'.
Proof.
  intros He Hf Hold [(n0 & Hv0 & Hn0 & Ev0) I2 I3]. pose proof (effect_draws _ _ He) as Hd.
  assert (∀ n r (R : gmap string RefreshTokenRecord) h r0, v0 ≤ n → n < oa_draws s' → old h → <[refresh_hash n := r]> R !! h = Some r0 → R !! h = Some r0) as Hins.
  { intros n r R h r0 Hn Hn' Ho. rewrite lookup_insert_Some. intros [[<- _]|[_ Hh]]; [|done].
    destruct (Hold _ Ho) as (k & Hk & Ek). destruct (Hf n k) as (_ & Hr & _); [lia|lia|]. apply Hr in Ek. lia. }
  assert (oa_material s' = oa_material s → ∃ n, v0 ≤ n ∧ n < oa_draws s' ∧ version_of (oa_material s') = Some (draw n)) as Hkeep.
  { intros ->. exists n0. split_and!; [done|lia|done]. }
  destruct He as
    [Hc Hr Em El _|m n Ec Er Em Ev Hn Hn' Hv El|n r Ec Er Em Hn Hn' El|h v r n r' i Hh Ec Er Em Ev Hn Hn' Ho Hi El|h r n r' i Hh Hv Ec Er Em Ev Hn Hn' Ho Hi El];
    split; rewrite ?El; try done; try by apply Hkeep.
  - intros h r Ho Hh. eapply I2; [done|by eapply lookup_weaken].
  - exists n. split_and!; [lia|done|]. rewrite Em. unfold version_of. cbn. by rewrite Hv.
  - rewrite Er. eauto.
  - rewrite Er. eauto.
  - rewrite Er. intros h' r0 Ho'' Hh'%Hins; [by eapply I2|lia|done|done].
  - intros j h' [Hj| ->%list_elem_of_singleton]%elem_of_app; [by apply I3|]. unfold origin_key. by rewrite Ho.
  - rewrite Er. intros h' r0 Ho'' Hh'%Hins; [|lia|done|done]. apply lookup_delete_Some in Hh' as [_ Hh']. by eapply I2.
  - intros j h' [Hj| ->%list_elem_of_singleton]%elem_of_app; [by apply I3|]. unfold origin_key. rewrite Ho. intros [= <-] Hoh.
    pose proof (I2 _ _ Hoh Hh) as Hver. rewrite Hv, Ev0 in Hver. destruct (Hver _ eq_refl) as (k & Hk & Ek).
    destruct (Hf n0 k) as (_ & _ & Hdr); [lia|lia|]. apply Hdr in Ek. lia.
Qed.

Lemma served_rotated old v0 s s' :
  rtc (served config) s s' → fresh_below (oa_draws s') → (∀ h, old h → ∃ k, k < v0 ∧ h = refresh_hash k) →
  rotated_inv old v0 s → rotated_inv old v0 s'.
Proof.
  induction 1 as [|s1 s2 s3 Hs Hr IH]; intros Hf Hold HI; [done|]. apply IH; [done|done|].
  eapply effect_rotated; [by eapply served_effect| |done|done]. eapply fresh_mono; [exact Hf|by eapply rtc_draws].
Qed.

Lemma recover_rotates s password :
  after s (recoverAccess password) (λ s' r, ∀ u, r = R_identity u →
    oa_refresh s' = oa_refresh s ∧ issued (oa_log s') = issued (oa_log s) ∧ oa_draws s ≤ oa_draws s' ∧
    ∃ n, oa_draws s ≤ n ∧ n < oa_draws s' ∧ version_of (oa_material s') = Some (draw n)).
Proof.
  unfold recoverAccess. alone. apply after_resolve. intros s1 [u|] H1; [|by alone]. alone. unfold rotateOwnerPassword.
  destruct (negb _); [by do 2 alone|]. do 3 alone. apply after_draw. intros s2 H2 Hn.
  destruct (same_trans _ _ _ H1 H2) as [E1 E2 E3 E4 Hd]. pose proof (sg_draws _ _ H1). repeat alone. intros _ _.
  split_and!; [done| |done|].
  - cbn. rewrite issued_app, E4. apply app_nil_r.
  - exists (oa_draws s1). split_and!; [done|cbn; lia|]. unfold version_of. cbn.
    by rewrite (material_form _ _ _ (sha_form _) (key_form _)).
Qed.

(** C21: Rotating the password ends the refresh tokens. When requests are served one at a time,
    after a successful [recoverAccess] no refresh token that was stored before it ever yields
    tokens again, over any later history with distinct random tokens. *)
Theorem rotation_ends_refresh_tokens accounts now s password u s1 s2 h i :
  rtc (served config) (new_oauth accounts now) s → run (recoverAccess password) s = (R_identity u, s1) →
  rtc (served config) s1 s2 → fresh_below (oa_draws s2) → is_Some (oa_refresh s !! h) →
  i ∈ issued (oa_log s2) → origin_key i ≠ inr h.
Proof.
  intros Hs Hr Hs2 Hf [r Hh] Hi Hk. pose proof (recover_rotates s password) as Ha. unfold after in Ha. rewrite Hr in Ha.
  destruct (Ha u eq_refl) as (Er & El & Hd & n & Hn & Hn' & Ev). cbn [fst snd] in *. pose proof (rtc_draws _ _ _ Hs2) as Hd2.
  assert (fresh_below (oa_draws s)) as Hf1 by (eapply fresh_mono; [exact Hf|lia]).
  pose proof (served_once _ _ Hs Hf1 (new_once accounts now)) as [_ O2 _ O4 _].
  pose proof (served_versions _ _ Hs (new_versions accounts now)) as [_ V2].
  assert (rotated_inv (λ h, is_Some (oa_refresh s !! h)) (oa_draws s) s2) as [_ _ HR].
  { eapply served_rotated; [exact Hs2|done|intros h' [r' Hh']; by eapply O2|]. split.
    - by exists n.
    - intros h' r' _ Hh'. rewrite Er in Hh'. by eapply V2.
    - intros j h' Hj Hj' [r' Hr']. rewrite El in Hj. destruct (O4 _ _ Hj Hj') as [_ HN]. congruence. }
  eapply HR; [exact Hi|exact Hk|by exists r].
Qed.

End theorems.

(** ** The whole flow *)

(** The form [isOwnerClaims] asks of a user: [usr_] and 36 hexadecimal digits or dashes. *)
Definition user_id_form (u : string) : bool :=
  String.prefix "usr_" u && exactly (λ c, is_hex_lower c || char_in "-" c) 36 (String.substring 4 (String.length u - 4) u).

(** What the token encoding promises: signed claims read back, verify under their key, and a
    token survives the authorization header. *)
Class TokenLaws `{OAuthHost} := {
  signed_claims k c u : cl_user_id c = Some u → user_id_form u = true → jwt_claims (jwt_sign k c) = Some c;
  signed_verifies k c : jwt_signature k (jwt_sign k c) = true;
  signed_header k c : readBearerToken (Some (bearer +:+ jwt_sign k c)) = Some (jwt_sign k c);
}.

Section flow.
Context {H : OAuthHost} {L : TokenLaws}.
Context {A : Type} `{!OwnerIdentityStore (oauth A), !OwnerIdentityStoreLaws (oauth A)}.
Context (config : EdgeOwnerOAuthConfig).

(** A server whose owner is set up: a password, a usable key, a pinned user who exists. *)
Record set_up (u : OwnerIdentity) (key : string) (s : oauth A) : Prop := {
  su_version : is_Some (version_of (oa_material s));
  su_key : default (loadSigningKey config s) (oa_hmac s) = Some key;
  su_pinned : oa_owner s = Some (id_id u);
  su_form : user_id_form (id_id u) = true;
  su_user s' : oa_accounts s' = oa_accounts s → (run (getUser (id_id u)) s').1 = Some u;
}.

Lemma set_up_same u key s s' :
  set_up u key s → oa_material s' = oa_material s → oa_owner s' = oa_owner s → oa_accounts s' = oa_accounts s →
  oa_hmac s' = oa_hmac s ∨ oa_hmac s' = Some (Some key) → set_up u key s'.
Proof.
  intros [H1 H2 H3 H4 H5] E1 E2 E3 E4. split; [by rewrite E1| |by rewrite E2|done|].
  - destruct E4 as [-> | ->]; [|done]. unfold loadSigningKey, current_material in *. by rewrite E1.
  - intros t Et. apply H5. by rewrite Et.
Qed.

Lemma after_value {B} (s : oauth A) (m : task (oauth A) B) Q : read_only m → Q s (run m s).1 → after s m Q.
Proof. intros Hm HQ. unfold after. by rewrite (read_only_run _ _ Hm). Qed.

Lemma after_pinned u key s Q : set_up u key s → Q s (Some u) → after s resolveOwnerUser Q.
Proof.
  intros [_ _ Hp Hf Hu] HQ. unfold resolveOwnerUser. do 2 alone. rewrite Hp. case_bool_decide as Ei; [by rewrite Ei in Hf|].
  alone. apply after_value; [apply getUser_reads|]. rewrite (Hu s eq_refl). by alone.
Qed.

Lemma after_key u key s Q :
  set_up u key s → (∀ s', s' = set_hmac (Some (Some key)) s → set_up u key s' → Q s' (Some key)) → after s (hmacKey config) Q.
Proof.
  intros Hup HQ. unfold hmacKey. apply after_turn. rewrite (su_key _ _ _ Hup). apply HQ; [done|].
  eapply set_up_same; [exact Hup|done..|by right].
Qed.

Lemma authorize_yields u key s client fields scopes :
  set_up u key s → oa_clients s !! field fields "client_id" = Some client →
  scopes = parseScopes (default (join_scopes (cf_scopes config)) (fields "scope")) →
  authorize_valid config fields client scopes = true →
  secret_matches config (oa_material s) (field fields "owner_password") = true →
  after s (authorize config true fields) (λ s1 r, ∃ code record,
    r = R_redirect (field fields "redirect_uri") code (state_of fields) ∧ set_up u key s1 ∧
    oa_clients s1 = oa_clients s ∧ oa_revoked s1 = oa_revoked s ∧ oa_codes s1 !! sha256Base64Url code = Some record ∧
    record = {| ac_clientId := field fields "client_id"; ac_redirectUri := field fields "redirect_uri";
                ac_codeChallenge := field fields "code_challenge"; ac_scopes := scopes; ac_resource := field fields "resource";
                ac_expiresAtMs := oa_now s + AUTHORIZATION_CODE_TTL_MS; ac_userId := id_id u |}).
Proof.
  intros Hup Hcl Es Hv Hpw. destruct (su_version _ _ _ Hup) as [v Ev]. unfold authorize, currentCredentialVersion.
  do 2 alone. cbn [fst snd]. rewrite Hcl. cbv zeta. rewrite <-Es, Hv. cbn [negb]. do 2 alone. rewrite Ev. unfold ownerSecretMatches. do 6 alone.
  rewrite Hpw. cbn [negb]. alone. eapply after_pinned; [done|]. alone. unfold draw_token. do 6 alone.
  eexists _, _. split_and!; [done| |done|done|cbn; by rewrite lookup_insert_eq|done].
  eapply set_up_same; [exact Hup|done..|by left].
Qed.

Lemma issue_yields u key s origin clientId scopes resource :
  set_up u key s →
  after s (issueTokens config origin clientId scopes resource (id_id u)) (λ s' r, ∃ claims refresh,
    r = R_tokens (jwt_sign key claims) refresh scopes ∧ set_up u key s' ∧ oa_revoked s' = oa_revoked s ∧
    cl_iss claims = cf_issuer config ∧ cl_aud claims = resource ∧ cl_scope claims = join_scopes scopes ∧
    cl_user_id claims = Some (id_id u) ∧ cl_exp claims = (nowSeconds s + cf_accessTokenTtlSeconds config)%Z ∧
    ∃ n, cl_jti claims = draw n).
Proof.
  intros Hup. unfold issueTokens, currentCredentialVersion, draw_token. do 4 alone. cbv zeta. set (s1 := set_draws _ s).
  assert (set_up u key s1) as H1 by (eapply set_up_same; [exact Hup|done..|by left]). alone. eapply after_key; [done|].
  intros s2 -> H2. repeat alone. eexists _, _. split_and!; try done; [|by eexists]. eapply set_up_same; [exact H2|done..|by left].
Qed.

Lemma exchange_yields u key s t record :
  set_up u key s → is_Some (oa_clients s !! field t "client_id") → oa_codes s !! sha256Base64Url (field t "code") = Some record →
  ac_clientId record = field t "client_id" → ac_userId record = id_id u → (oa_now s ≤ ac_expiresAtMs record)%Z →
  t "grant_type" = Some "authorization_code" → t "redirect_uri" = Some (ac_redirectUri record) →
  t "resource" = Some (ac_resource record) → sha256Base64Url (field t "code_verifier") = ac_codeChallenge record →
  after s (token config t) (λ s' r, ∃ claims refresh,
    r = R_tokens (jwt_sign key claims) refresh (ac_scopes record) ∧ set_up u key s' ∧ oa_revoked s' = oa_revoked s ∧
    cl_iss claims = cf_issuer config ∧ cl_aud claims = ac_resource record ∧ cl_scope claims = join_scopes (ac_scopes record) ∧
    cl_user_id claims = Some (id_id u) ∧ cl_exp claims = (nowSeconds s + cf_accessTokenTtlSeconds config)%Z ∧
    ∃ n, cl_jti claims = draw n).
Proof.
  intros Hup [c Hc] Hr Ec Eu Hexp Eg Er Eres Ev. unfold token. do 2 alone. rewrite Hc, Eg. rewrite bool_decide_eq_true_2 by done.
  unfold exchange_code. do 6 alone. rewrite Hr, Ec, Er, Eres. rewrite !bool_decide_eq_true_2 by done.
  assert (ac_expiresAtMs record <? oa_now s = false)%Z as -> by lia. cbn [negb orb]. cbv zeta. do 4 alone.
  rewrite Eu. eapply after_mono; [|apply issue_yields]; [intros s' r Hr'; exact Hr'|].
  eapply set_up_same; [exact Hup|done..|by left].
Qed.

(** The answer to a token with these scopes: the owner, with exactly the scopes, when the
    required one is among them, and 403 when it is not. *)
Definition accepted_as (u : OwnerIdentity) (scopes : list string) (r : reply) : Prop :=
  if bool_decide (requiredScope config ∈ scopes)
  then ∃ p, r = R_principal p ∧ pr_userId p = id_id u ∧ ∀ x, x ∈ pr_scopes p ↔ x ∈ scopes
  else r = R_denied 403.

Lemma authenticate_accepts u key s claims scopes :
  set_up u key s → cl_iss claims = cf_issuer config → cl_aud claims = cf_mcpUrl config → cl_scope claims = join_scopes scopes →
  cl_user_id claims = Some (id_id u) → (nowSeconds s < cl_exp claims)%Z → oa_revoked s !! cl_jti claims = None →
  Forall is_word scopes →
  after s (authenticate config (Some (bearer +:+ jwt_sign key claims))) (λ s' r, accepted_as u scopes r).
Proof.
  intros Hup Ei Ea Es Eu Hexp Hrev Hw. unfold authenticate. rewrite signed_header. unfold verifyAccessToken.
  rewrite (signed_claims key claims _ Eu (su_form _ _ _ Hup)). do 2 alone. eapply after_key; [done|]. intros s1 -> H1. do 3 alone.
  rewrite signed_verifies, Ei, Ea, !bool_decide_eq_true_2 by done. cbn [andb]. do 2 alone. cbn [fst snd oa_revoked set_hmac].
  rewrite Hrev. change (nowSeconds (set_hmac _ s)) with (nowSeconds s). assert (cl_exp claims <=? nowSeconds s = false)%Z as -> by lia.
  unfold still_revoked. do 2 alone. unfold accept_claims, accepted_as.
  rewrite (bool_decide_ext (requiredScope config ∈ parseScopes (cl_scope claims)) (requiredScope config ∈ scopes))
    by by rewrite Es, parseScopes_join. case_bool_decide as Hreq; cbn [negb]; [|by alone].
  alone. eapply after_pinned; [done|]. rewrite bool_decide_eq_true_2 by done. cbv zeta. do 3 alone. eexists. split; [done|].
  split; [done|]. intros x. cbn [pr_scopes]. by rewrite Es, parseScopes_join.
Qed.

(** C22: The flow completes. On a server that is set up, served without interruption, a valid
    authorization request with the owner's password yields a code; within five minutes the code
    with its verifier yields an access and a refresh token for the scopes authorized; and until
    it expires the access token is accepted as the owner with those scopes if the scope the
    server requires is among them, and is answered 403 if it is not.  No revocation is stored
    under an identifier the server may draw. *)
Theorem flow_completes u key s client fields scopes t1 t t2 :
  set_up u key s → oa_clients s !! field fields "client_id" = Some client →
  scopes = parseScopes (default (join_scopes (cf_scopes config)) (fields "scope")) →
  authorize_valid config fields client scopes = true →
  secret_matches config (oa_material s) (field fields "owner_password") = true →
  (∀ n, oa_revoked s !! draw n = None) → (t1 ≤ oa_now s + AUTHORIZATION_CODE_TTL_MS)%Z →
  t "grant_type" = Some "authorization_code" → field t "client_id" = field fields "client_id" →
  t "redirect_uri" = Some (field fields "redirect_uri") → t "resource" = Some (cf_mcpUrl config) →
  sha256Base64Url (field t "code_verifier") = field fields "code_challenge" →
  (t2 / 1000 < t1 / 1000 + cf_accessTokenTtlSeconds config)%Z →
  after s (authorize config true fields) (λ s1 r1, ∃ code,
    r1 = R_redirect (field fields "redirect_uri") code (state_of fields) ∧
    (t "code" = Some code →
     after (set_now t1 s1) (token config t) (λ s2 r2, ∃ access refresh,
       r2 = R_tokens access refresh scopes ∧
       after (set_now t2 s2) (authenticate config (Some (bearer +:+ access))) (λ s3 r3,
         (requiredScope config ∈ scopes →
            ∃ p, r3 = R_principal p ∧ pr_userId p = id_id u ∧ ∀ x, x ∈ pr_scopes p ↔ x ∈ scopes) ∧
         (requiredScope config ∉ scopes → r3 = R_denied 403))))).
Proof.
  intros Hup Hcl Es Hv Hpw Hrev Ht1 Eg Eid Er Eres Ech Ht2.
  assert (field fields "resource" = cf_mcpUrl config) as Eresf by (unfold authorize_valid in Hv; by bool_inv).
  eapply after_mono; [|by eapply authorize_yields].
  intros s1 r1 (code & record & -> & H1 & C1 & R1 & Hrec & Erec). exists code. split; [done|]. intros Ecode.
  eapply after_mono; [|apply (exchange_yields u key _ t record)]; rewrite ?Erec; cbn.
  - intros s2 r2 (claims & refresh & -> & H2 & R2 & Ei & Ea & Esc & Eu & Eexp & n & Ej). eexists _, _. split; [done|].
    eapply after_mono; [intros s3 r3 Ha|eapply authenticate_accepts; try done].
    { unfold accepted_as in Ha. by case_bool_decide. }
    + eapply set_up_same; [exact H2|done..|by left].
    + by rewrite Ea, Eresf.
    + rewrite Eexp. exact Ht2.
    + cbn. rewrite R2, Ej. cbn. by rewrite R1.
    + rewrite Es. apply parseScopes_words.
  - eapply set_up_same; [exact H1|done..|by left].
  - rewrite C1, Eid. by eexists.
  - unfold field at 1. rewrite Ecode, <-Erec. exact Hrec.
  - done.
  - done.
  - exact Ht1.
  - done.
  - done.
  - by rewrite Eresf.
  - done.
Qed.
End flow.

(** ** Witnesses *)

Definition owner_principal : AuthenticatedEdgePrincipal := {|
  pr_subject := "user:usr_00000000-0000-0000-0000-000000000000"; pr_scopes := ["mcp:tools"; "mcp:read"]%string;
  pr_userId := id_id owner |}.

Definition first_issuance : issuance := {|
  is_origin := From_code (demo_hash 43 "code-c") verifier; is_key := access_key; is_claims := access_claims;
  is_scopes := ["mcp:tools"; "mcp:read"]%string; is_refresh := demo_hash 43 "refresh-e" |}.

Lemma access_requires_the_password_witness :
  ∃ a l m, oa_log (sy_state after_access) !! au_ended a = Some (E_authorized a) ∧ l `prefix_of` oa_log (sy_state after_access) ∧
    material_after l = Some m ∧
    decodeBase64UrlBytes (sha256Base64Url (au_supplied a)) = decodeBase64UrlBytes (cm_ownerVerifierHash m).
Proof.
  pose proof after_access_reachable as Hy.
  destruct (access_requires_the_password demo_config after_access access access_key access_claims owner_principal Hy) as
    (_ & _ & _ & a & Ha & (l & m & Hl & _ & Hm & Hs) & _).
  - apply (list_elem_of_lookup_2 _ 3). vm_compute. reflexivity.
  - exists first_issuance. split; [|split; reflexivity]. apply (list_elem_of_lookup_2 _ 2). vm_compute. reflexivity.
  - exists a, l, m. exact (conj Ha (conj Hl (conj Hm Hs))).
Defined.

Lemma tokens_are_bound_witness :
  origin_ok (oa_log (sy_state after_access)) (is_origin first_issuance) "mcp-b" ["mcp:tools"; "mcp:read"]%string.
Proof.
  pose proof after_access_reachable as Hy.
  apply (tokens_are_bound demo_config after_access first_issuance Hy).
  apply (list_elem_of_lookup_2 _ 2). vm_compute. reflexivity.
Defined.

Lemma revoked_token_is_refused_witness : sy_tasks after_refusal !! 5 = Some (Done (R_denied 401)).
Proof.
  pose proof after_revoke_reachable as Hy.
  assert (∃ r, sy_tasks after_refusal !! 5 = Some (Done r)) as (r & Hr) by (eexists; vm_compute; reflexivity).
  rewrite Hr. do 2 f_equal.
  destruct (revoked_token_is_refused demo_config after_revoke after_refusal access_header access access_claims r Hy) as [_ Ht].
  - vm_compute. reflexivity.
  - vm_compute. reflexivity.
  - destruct Ht as [Ht|[_ Hlate]]; [| | |exact Hr|exact Ht|].
    + apply (list_elem_of_lookup_2 _ 3). vm_compute. reflexivity.
    + eapply (schedule_steps _ _ [Finish 5]); [by repeat constructor|]. vm_compute. reflexivity.
    + assert (forallb (λ e, match e with E_revoked x => (cl_exp x =? cl_exp access_claims)%Z | _ => true end)
        (oa_log (sy_state after_refusal)) = true) as HF by (vm_compute; reflexivity).
      rewrite forallb_forall in HF. intros x' Hx%list_elem_of_In%HF _. by apply Z.eqb_eq in Hx.
    + exfalso. revert Hlate. vm_compute. intros Hlate. by apply Hlate.
Defined.

(** Decides [fresh_below]. *)
Definition distinct_below (f : nat → string) (n : nat) : bool :=
  forallb (λ i, forallb (λ j, implb (bool_decide (f i = f j)) (i =? j)) (seq 0 n)) (seq 0 n).

Lemma distinct_below_ok f n i j : distinct_below f n = true → i < n → j < n → f i = f j → i = j.
Proof.
  unfold distinct_below. rewrite forallb_forall. intros Hd Hi Hj Ef. assert (In i (seq 0 n)) as Hi' by (apply in_seq; lia).
  specialize (Hd i Hi'). rewrite forallb_forall in Hd. assert (In j (seq 0 n)) as Hj' by (apply in_seq; lia). specialize (Hd j Hj').
  rewrite bool_decide_eq_true_2 in Hd by done. by apply Nat.eqb_eq in Hd.
Qed.

Lemma demo_draws_fresh : fresh_below 20.
Proof.
  intros i j Hi Hj. split_and!; intros Hf.
  - apply (distinct_below_ok code_hash 20); [by vm_compute|done..].
  - apply (distinct_below_ok refresh_hash 20); [by vm_compute|done..].
  - apply (distinct_below_ok draw 20); [by vm_compute|done..].
Qed.

Lemma grants_are_used_once_witness : NoDup (map origin_key (issued (oa_log refreshed))) ∧ length (issued (oa_log refreshed)) = 2.
Proof.
  split; [|vm_compute; reflexivity]. apply (grants_are_used_once demo_config [owner] 0 refreshed).
  - assert (refreshed = fold_left serve refresh_requests (new_oauth [owner] 0)) as -> by (vm_compute; reflexivity). apply serve_all.
  - apply (fresh_mono _ 20); [exact demo_draws_fresh|]. vm_compute. lia.
Defined.

Definition second_issuance : issuance := Eval vm_compute in default first_issuance (issued (oa_log after_rotation) !! 1).

Lemma rotation_ends_refresh_tokens_witness : origin_key second_issuance ≠ inr (demo_hash 43 "refresh-e").
Proof.
  apply (rotation_ends_refresh_tokens demo_config [owner] 0 with_tokens "second-password" owner rotated after_rotation).
  - assert (with_tokens = fold_left serve token_requests (new_oauth [owner] 0)) as -> by (vm_compute; reflexivity). apply serve_all.
  - vm_compute. reflexivity.
  - assert (after_rotation = fold_left serve rotation_requests rotated) as -> by (vm_compute; reflexivity). apply serve_all.
  - apply (fresh_mono _ 20); [exact demo_draws_fresh|]. vm_compute. lia.
  - eexists. vm_compute. reflexivity.
  - apply (list_elem_of_lookup_2 _ 1). vm_compute. reflexivity.
Defined.

(** ** The witness of the flow *)

Lemma substring_all s : String.substring 0 (String.length s) s = s.
Proof. induction s as [|c s IH]; cbn; [done|by rewrite IH]. Qed.

Lemma trim_end_words s : no_space s = true → trim_end s = s.
Proof.
  induction s as [|c s IH]; cbn; [done|]. intros [Hc Hs]%andb_true_iff. apply negb_true_iff in Hc. rewrite (IH Hs).
  destruct s; [by rewrite Hc|done].
Qed.

Lemma trim_words s : no_space s = true → trim s = s.
Proof.
  intros Hs. unfold trim. assert (trim_start s = s) as -> by (destruct s as [|c s]; [done|]; cbn in *;
    apply andb_true_iff in Hs as [Hc%negb_true_iff _]; by rewrite Hc). by apply trim_end_words.
Qed.

Lemma bits_word p : no_space (bits p) = true ∧ 0 < String.length (bits p).
Proof. induction p as [p [IH _]|p [IH _]|]; cbn; split; try lia; done. Qed.

Lemma bearer_read s : no_space s = true → 0 < String.length s → readBearerToken (Some (bearer +:+ s)) = Some s.
Proof.
  intros Hs Hl. unfold readBearerToken. rewrite text_app_length. change (String.length bearer) with 7.
  assert (7 + String.length s =? 7 = false) as -> by (apply Nat.eqb_neq; lia).
  assert (String.prefix bearer (bearer +:+ s) = true) as -> by (destruct s; reflexivity).
  replace (7 + String.length s - 7) with (String.length s) by lia.
  assert (String.substring 7 (String.length s) (bearer +:+ s) = s) as -> by apply substring_all. cbn [andb negb].
  rewrite trim_words by done. rewrite bool_decide_eq_false_2; [done|]. intros ->. cbn in Hl. lia.
Qed.

Lemma demo_fields_sign k c : demo_fields (demo_sign k c) = Some (token_parts k c).
Proof.
  unfold demo_fields, demo_sign. rewrite unbits_bits. change (Some ?x ≫= ?f) with (f x). apply positives_unflatten_flatten.
Qed.

#[global] Instance demo_token_laws : TokenLaws.
Proof.
  split.
  - intros k c u _ _. cbn [jwt_claims jwt_sign demo_host]. unfold demo_claims. rewrite demo_fields_sign.
    unfold token_parts. change (Some ?x ≫= ?f) with (f x). cbv beta iota. rewrite !decode_encode. by destruct c.
  - intros k c. cbn [jwt_signature jwt_sign demo_host]. unfold demo_signature. rewrite demo_fields_sign. by apply bool_decide_eq_true_2.
  - intros k c. destruct (bits_word (positives_flatten (token_parts k c))). by apply bearer_read.
Qed.

Definition registered : server := Eval vm_compute in
  fold_left serve [Q_recover "first-password"; Q_registration] (sy_state start).

Definition demo_client : OwnerClient := {|
  oc_client_id := "mcp-b"; oc_client_id_issued_at := 0; oc_redirect_uris := [callback]; oc_client_name := None;
  oc_grant_types := ["authorization_code"; "refresh_token"]%string; oc_response_types := ["code"]%string |}.

Lemma registered_set_up : set_up demo_config owner access_key registered.
Proof.
  split; [by eexists; vm_compute|by vm_compute|by vm_compute|by vm_compute|]. intros s' Ea. cbn. rewrite Ea.
  vm_compute. reflexivity.
Qed.

Lemma flow_completes_witness :
  after registered (authorize demo_config true (authorization_form "mcp-b" "first-password")) (λ s1 r1, ∃ code,
    r1 = R_redirect callback code None ∧
    (Some "code-c" = Some code →
     after (set_now 60000 s1) (token demo_config (code_form "mcp-b" "code-c")) (λ s2 r2, ∃ access refresh,
       r2 = R_tokens access refresh ["mcp:tools"; "mcp:read"]%string ∧
       after (set_now 120000 s2) (authenticate demo_config (Some (bearer +:+ access))) (λ s3 r3,
         (requiredScope demo_config ∈ ["mcp:tools"; "mcp:read"]%string →
            ∃ p, r3 = R_principal p ∧ pr_userId p = id_id owner ∧ ∀ x, x ∈ pr_scopes p ↔ x ∈ ["mcp:tools"; "mcp:read"]%string) ∧
         (requiredScope demo_config ∉ ["mcp:tools"; "mcp:read"]%string → r3 = R_denied 403))))).
Proof.
  apply (flow_completes demo_config owner access_key registered demo_client (authorization_form "mcp-b" "first-password")
    ["mcp:tools"; "mcp:read"]%string 60000 (code_form "mcp-b" "code-c") 120000 registered_set_up);
    try (vm_compute; reflexivity).
  vm_compute. discriminate.
Defined.

(** ** What an interleaving breaks *)

(** Two requests redeem one code: each passes the checks before either deletes the record,
    and the result of the deletion is not looked at (owner-oauth.ts:366). *)
Definition two_redemptions : list (action (S := server) (A := reply)) :=
  ask (Q_token (code_form "mcp-b" "code-c")) ++ ask (Q_token (code_form "mcp-b" "code-c")) ++
  replicate 5 (Go 3) ++ replicate 5 (Go 4) ++ [Finish 3; Finish 4].

Definition redeemed_twice : system server reply := Eval vm_compute in default start (schedule two_redemptions after_set_up).

Lemma code_redeemed_twice :
  oauth_reachable demo_config redeemed_twice ∧
  map origin_key (issued (oa_log (sy_state redeemed_twice))) = [inl (demo_hash 43 "code-c"); inl (demo_hash 43 "code-c")].
Proof.
  split; [|vm_compute; reflexivity]. eapply (go_on two_redemptions); [exact after_set_up_reachable| |vm_compute; reflexivity].
  unfold two_redemptions. repeat (apply Forall_app; split); repeat constructor; by eexists.
Qed.

(** A refresh request that has passed the check of the credential version goes on while the
    password is rotated, and its new refresh token carries the new version
    (owner-oauth.ts:419). *)
Definition rotation_race : list (action (S := server) (A := reply)) :=
  ask (Q_token (refresh_form "mcp-b" "refresh-e")) ++ replicate 5 (Go 4) ++
  ask (Q_recover "second-password") ++ [Finish 5; Finish 4] ++
  ask (Q_token (refresh_form "mcp-b" "refresh-h")) ++ [Finish 6].

Definition raced : system server reply := Eval vm_compute in default start (schedule rotation_race after_code).

Lemma rotation_race_keeps_session :
  oauth_reachable demo_config raced ∧
  map origin_key (issued (oa_log (sy_state raced))) =
    [inl (demo_hash 43 "code-c"); inr (demo_hash 43 "refresh-e"); inr (demo_hash 43 "refresh-h")] ∧
  ∃ m l, E_material m :: l = drop 3 (oa_log (sy_state raced)) ∧ length (issued l) = 2 ∧ cm_ownerVerifierHash m = demo_hash 43 "second-password".
Proof.
  split; [|split; [vm_compute; reflexivity|eexists _, _; split_and!; vm_compute; reflexivity]].
  eapply (go_on rotation_race); [exact after_code_reachable| |vm_compute; reflexivity].
  unfold rotation_race. repeat (apply Forall_app; split); repeat constructor; by eexists.
Qed.

(** A code authorized with the old password is redeemed after the rotation: codes carry no
    credential version (owner-oauth.ts:362). *)
Definition late_code_requests : list oauth_request :=
  set_up_requests ++ [Q_recover "second-password"; Q_token (code_form "mcp-b" "code-c")].

Definition late_code : server := Eval vm_compute in fold_left serve late_code_requests (new_oauth [owner] 0).

Lemma code_survives_rotation :
  rtc (served demo_config) (new_oauth [owner] 0) late_code ∧
  ∃ m m' a i, oa_log late_code = [E_material m; E_authorized a; E_material m'; E_issued i] ∧
    cm_ownerVerifierHash m ≠ cm_ownerVerifierHash m' ∧ origin_key i = inl (au_code a).
Proof.
  split.
  - assert (late_code = fold_left serve late_code_requests (new_oauth [owner] 0)) as -> by (vm_compute; reflexivity). apply serve_all.
  - eexists _, _, _, _. split; [reflexivity|]. split; [discriminate|reflexivity].
Qed.
