(* ===== verification/EdgeAccounts.v ===== *)
(** * EdgeAccounts: the account store of the edge gateway

    services/mcp-edge-gateway/src/control-plane/account-store.ts: the single user, the
    repositories, the devices and the materializations of repositories on devices, kept in a
    key-value storage.  The keys have one prefix per kind, so the storage is one map per kind;
    a value read under a prefix was written under it, so its shape needs no test, except that
    a user may be of the previous version.  Operations run one at a time.  UUIDs, Unicode
    normalisation, [localeCompare] and [Date.parse] are [AccountHost]. *)

From S2P Require Import Prelude Text.
From Stdlib Require Import Ascii.

Class AccountHost := {
  randomUUID : nat → string;
  nfkc_lower : string → string;
  locale_le : string → string → bool;
  date_parses : string → bool;
}.

(** UUIDs do not repeat. *)
Class AccountHostLaws `{AccountHost} := {
  randomUUID_inj i j : randomUUID i = randomUUID j → i = j;
}.

(** ** Data *)

Record AccountUser := { us_id : string; us_displayName : string; us_normalizedName : string; us_createdAt : string }.

(** A stored user: of version 2, or of version 1 with a password. *)
Inductive stored_user :=
| User_v2 (u : AccountUser)
| User_v1 (u : AccountUser) (passwordSalt passwordVerifier : string).

Inductive RepositoryRole := role_owner | role_editor | role_viewer.
Inductive visibility := private | shared.
Inductive platform := windows | linux | macos | unknown.

Record StoredRepository := {
  re_id : string;
  re_ownerUserId : string;
  re_name : string;
  re_normalizedName : string;
  re_visibility : visibility;
  re_remoteUrls : option (list string);
  re_members : list (string * RepositoryRole);
  re_createdAt : string;
  re_updatedAt : string;
}.

Record StoredDevice := {
  de_id : string;
  de_userId : string;
  de_displayName : string;
  de_platform : platform;
  de_createdAt : string;
  de_lastSeenAt : option string;
  de_revokedAt : option string;
}.

Record StoredMaterialization := {
  ma_id : string;
  ma_repositoryId : string;
  ma_userId : string;
  ma_deviceId : option string;
  ma_runtimeId : option string;
  ma_workspaceId : string;
  ma_path : string;
  ma_platform : platform;
  ma_updatedAt : string;
}.

Record MaterializationUpsertInput := {
  mi_id : option string;
  mi_repositoryId : string;
  mi_workspaceId : string;
  mi_path : string;
  mi_platform : platform;
}.

#[global] Instance RepositoryRole_eq_dec : EqDecision RepositoryRole.
Proof. solve_decision. Defined.
#[global] Instance visibility_eq_dec : EqDecision visibility.
Proof. solve_decision. Defined.
#[global] Instance platform_eq_dec : EqDecision platform.
Proof. solve_decision. Defined.

Inductive account_error :=
| USER_NAME_INVALID | SINGLE_USER_EXISTS | USER_ID_INVALID | TIMESTAMP_INVALID | SAME_USER_IDS | MIGRATION_MISMATCH
| MIGRATION_SOURCE_MISMATCH | SOURCE_UNAVAILABLE | TARGET_EXISTS | TARGET_NAME_TAKEN | REPOSITORY_INCOMPATIBLE
| MATERIALIZATION_INCOMPATIBLE | DEVICE_INCOMPATIBLE | USER_UNAVAILABLE | REPOSITORY_NAME_INVALID | REPOSITORY_LIMIT
| REPOSITORY_EXISTS | DEVICE_NAME_INVALID | DEVICE_UNAUTHORIZED | DEVICE_LIMIT | REPOSITORY_UNAUTHORIZED
| MATERIALIZATION_LIMIT | RUNTIME_ID_INVALID | DUPLICATE_MATERIALIZATION.

Record accounts := {
  ea_userIds : list string;
  ea_users : gmap string stored_user;
  ea_names : gmap string string;
  ea_repositoryIds : gmap string (list string);
  ea_repositories : gmap string StoredRepository;
  ea_deviceIds : gmap string (list string);
  ea_devices : gmap string StoredDevice;
  ea_materializationIds : gmap string (list string);
  ea_materializations : gmap string StoredMaterialization;
  ea_now : string;
  ea_draws : nat;
}.

Definition on_userIds (f : list string → list string) (s : accounts) : accounts :=
  {| ea_userIds := f (ea_userIds s); ea_users := ea_users s; ea_names := ea_names s; ea_repositoryIds := ea_repositoryIds s;
     ea_repositories := ea_repositories s; ea_deviceIds := ea_deviceIds s; ea_devices := ea_devices s;
     ea_materializationIds := ea_materializationIds s; ea_materializations := ea_materializations s; ea_now := ea_now s; ea_draws := ea_draws s |}.
Definition on_users (f : gmap string stored_user → gmap string stored_user) (s : accounts) : accounts :=
  {| ea_userIds := ea_userIds s; ea_users := f (ea_users s); ea_names := ea_names s; ea_repositoryIds := ea_repositoryIds s;
     ea_repositories := ea_repositories s; ea_deviceIds := ea_deviceIds s; ea_devices := ea_devices s;
     ea_materializationIds := ea_materializationIds s; ea_materializations := ea_materializations s; ea_now := ea_now s; ea_draws := ea_draws s |}.
Definition on_names (f : gmap string string → gmap string string) (s : accounts) : accounts :=
  {| ea_userIds := ea_userIds s; ea_users := ea_users s; ea_names := f (ea_names s); ea_repositoryIds := ea_repositoryIds s;
     ea_repositories := ea_repositories s; ea_deviceIds := ea_deviceIds s; ea_devices := ea_devices s;
     ea_materializationIds := ea_materializationIds s; ea_materializations := ea_materializations s; ea_now := ea_now s; ea_draws := ea_draws s |}.
Definition on_repositoryIds (f : gmap string (list string) → gmap string (list string)) (s : accounts) : accounts :=
  {| ea_userIds := ea_userIds s; ea_users := ea_users s; ea_names := ea_names s; ea_repositoryIds := f (ea_repositoryIds s);
     ea_repositories := ea_repositories s; ea_deviceIds := ea_deviceIds s; ea_devices := ea_devices s;
     ea_materializationIds := ea_materializationIds s; ea_materializations := ea_materializations s; ea_now := ea_now s; ea_draws := ea_draws s |}.
Definition on_repositories (f : gmap string StoredRepository → gmap string StoredRepository) (s : accounts) : accounts :=
  {| ea_userIds := ea_userIds s; ea_users := ea_users s; ea_names := ea_names s; ea_repositoryIds := ea_repositoryIds s;
     ea_repositories := f (ea_repositories s); ea_deviceIds := ea_deviceIds s; ea_devices := ea_devices s;
     ea_materializationIds := ea_materializationIds s; ea_materializations := ea_materializations s; ea_now := ea_now s; ea_draws := ea_draws s |}.
Definition on_deviceIds (f : gmap string (list string) → gmap string (list string)) (s : accounts) : accounts :=
  {| ea_userIds := ea_userIds s; ea_users := ea_users s; ea_names := ea_names s; ea_repositoryIds := ea_repositoryIds s;
     ea_repositories := ea_repositories s; ea_deviceIds := f (ea_deviceIds s); ea_devices := ea_devices s;
     ea_materializationIds := ea_materializationIds s; ea_materializations := ea_materializations s; ea_now := ea_now s; ea_draws := ea_draws s |}.
Definition on_devices (f : gmap string StoredDevice → gmap string StoredDevice) (s : accounts) : accounts :=
  {| ea_userIds := ea_userIds s; ea_users := ea_users s; ea_names := ea_names s; ea_repositoryIds := ea_repositoryIds s;
     ea_repositories := ea_repositories s; ea_deviceIds := ea_deviceIds s; ea_devices := f (ea_devices s);
     ea_materializationIds := ea_materializationIds s; ea_materializations := ea_materializations s; ea_now := ea_now s; ea_draws := ea_draws s |}.
Definition on_materializationIds (f : gmap string (list string) → gmap string (list string)) (s : accounts) : accounts :=
  {| ea_userIds := ea_userIds s; ea_users := ea_users s; ea_names := ea_names s; ea_repositoryIds := ea_repositoryIds s;
     ea_repositories := ea_repositories s; ea_deviceIds := ea_deviceIds s; ea_devices := ea_devices s;
     ea_materializationIds := f (ea_materializationIds s); ea_materializations := ea_materializations s; ea_now := ea_now s; ea_draws := ea_draws s |}.
Definition on_materializations (f : gmap string StoredMaterialization → gmap string StoredMaterialization) (s : accounts) : accounts :=
  {| ea_userIds := ea_userIds s; ea_users := ea_users s; ea_names := ea_names s; ea_repositoryIds := ea_repositoryIds s;
     ea_repositories := ea_repositories s; ea_deviceIds := ea_deviceIds s; ea_devices := ea_devices s;
     ea_materializationIds := ea_materializationIds s; ea_materializations := f (ea_materializations s); ea_now := ea_now s; ea_draws := ea_draws s |}.
Definition at_time (t : string) (s : accounts) : accounts :=
  {| ea_userIds := ea_userIds s; ea_users := ea_users s; ea_names := ea_names s; ea_repositoryIds := ea_repositoryIds s;
     ea_repositories := ea_repositories s; ea_deviceIds := ea_deviceIds s; ea_devices := ea_devices s;
     ea_materializationIds := ea_materializationIds s; ea_materializations := ea_materializations s; ea_now := t; ea_draws := ea_draws s |}.
Definition next_draw (s : accounts) : accounts :=
  {| ea_userIds := ea_userIds s; ea_users := ea_users s; ea_names := ea_names s; ea_repositoryIds := ea_repositoryIds s;
     ea_repositories := ea_repositories s; ea_deviceIds := ea_deviceIds s; ea_devices := ea_devices s;
     ea_materializationIds := ea_materializationIds s; ea_materializations := ea_materializations s; ea_now := ea_now s; ea_draws := S (ea_draws s) |}.

Definition empty_accounts (t : string) : accounts :=
  {| ea_userIds := []; ea_users := ∅; ea_names := ∅; ea_repositoryIds := ∅; ea_repositories := ∅; ea_deviceIds := ∅; ea_devices := ∅;
     ea_materializationIds := ∅; ea_materializations := ∅; ea_now := t; ea_draws := 0 |}.

(** [(await storage.get(key)) ?? []] *)
Definition ids_of (m : gmap string (list string)) (key : string) : list string := default [] (m !! key).

Definition MAX_REPOSITORIES_PER_USER : nat := 4096.
Definition MAX_DEVICES_PER_USER : nat := 256.
Definition MAX_MATERIALIZATIONS_PER_REPOSITORY : nat := 256.

(** ** Values *)

Definition is_hex (c : Ascii.ascii) : bool := is_hex_lower c || in_range 65 70 c.
Definition one_of (s : string) : Ascii.ascii → bool := char_in s.

(** The UUID of an identifier, in either case. *)
Definition uuid_classes : list (Ascii.ascii → bool) :=
  repeat is_hex 8 ++ [one_of "-"] ++ repeat is_hex 4 ++ [one_of "-"; in_range 49 56] ++ repeat is_hex 3 ++
  [one_of "-"; one_of "89abAB"] ++ repeat is_hex 3 ++ [one_of "-"] ++ repeat is_hex 12.

Definition user_id_ok : string → bool := matches ([one_of "uU"; one_of "sS"; one_of "rR"; one_of "_"] ++ uuid_classes).
Definition runtime_id_ok : string → bool := matches ([one_of "rR"; one_of "tT"; one_of "_"] ++ uuid_classes).

(** [(?:\.\d+)?Z$] *)
Definition fraction_ok (s : string) : bool :=
  match s with
  | EmptyString => false
  | String c r =>
      if Ascii.eqb c "Z" then bool_decide (r = "")
      else Ascii.eqb c "." && (1 <? String.length r) && all_chars is_digit (String.substring 0 (String.length r - 1) r) &&
           bool_decide (String.substring (String.length r - 1) 1 r = "Z")
  end.

Definition not_line (c : Ascii.ascii) : bool :=
  negb ((Ascii.nat_of_ascii c =? 0) || (Ascii.nat_of_ascii c =? 10) || (Ascii.nat_of_ascii c =? 13)).

(** [value.revokedAt] as a condition *)
Definition truthy (o : option string) : bool := match o with Some s => negb (bool_decide (s = "")) | None => false end.

Definition toAccountUser (s : stored_user) : AccountUser := match s with User_v2 u => u | User_v1 u _ _ => u end.

Definition roleFor (r : StoredRepository) (userId : string) : option RepositoryRole :=
  if bool_decide (re_ownerUserId r = userId) then Some role_owner else None.

Definition isMaterialization (m : StoredMaterialization) : bool :=
  xorb (bool_decide (is_Some (ma_deviceId m))) (bool_decide (is_Some (ma_runtimeId m))).

Definition add_new (acc : list string) (x : string) : list string := if bool_decide (x ∈ acc) then acc else acc ++ [x].

Definition normalizeRemoteUrls (values : list string) : list string :=
  take 32 (fold_left add_new
    (List.filter (λ v, (0 <? String.length v) && (String.length v <=? 4096) && all_chars not_line v) (map trim values)) []).

Section accounts.
Context {H : AccountHost}.

Notation op := (io accounts account_error).

Definition timestamp_ok (value : string) : bool :=
  matches (repeat is_digit 4 ++ [one_of "-"] ++ repeat is_digit 2 ++ [one_of "-"] ++ repeat is_digit 2 ++ [one_of "T"] ++
           repeat is_digit 2 ++ [one_of ":"] ++ repeat is_digit 2 ++ [one_of ":"] ++ repeat is_digit 2)
    (String.substring 0 19 value) &&
  fraction_ok (String.substring 19 (String.length value - 19) value) && date_parses value.

Definition normalizeName (value : string) : string := nfkc_lower (trim value).

Definition name_ok (normalized : string) : bool := negb (bool_decide (normalized = "")) && (String.length normalized <=? 200).

(** [normalizeRepositoryName]; [None] is the empty string. *)
Definition normalizeRepositoryName (value : string) : option string :=
  let normalized := normalizeName value in
  if name_ok normalized && all_chars (λ c, not_line c && negb (char_in "/\" c)) normalized then Some normalized else None.

Definition prefixedId (prefix : string) : op string :=
  n ← gets ea_draws; modify next_draw;; mret (prefix +:+ "_" +:+ randomUUID n).

(** [l.sort((a, b) => f(a).localeCompare(f(b)))], which is stable *)
Fixpoint insert_by {A} (f : A → string) (x : A) (l : list A) : list A :=
  match l with
  | [] => [x]
  | y :: l => if locale_le (f x) (f y) then x :: y :: l else y :: insert_by f x l
  end.
Definition sort_by {A} (f : A → string) (l : list A) : list A := fold_right (insert_by f) [] l.

(** ** Users *)

Definition user_of (s : accounts) (userId : string) : option AccountUser := toAccountUser <$> ea_users s !! userId.

Definition countUsers : op nat := gets (λ s, length (ea_userIds s)).
Definition getUser (userId : string) : op (option AccountUser) := gets (λ s, user_of s userId).
Definition listUsers : op (list AccountUser) := gets (λ s, omap (user_of s) (ea_userIds s)).

Definition findUserByName (displayName : string) : op (option AccountUser) :=
  let normalizedName := normalizeName displayName in
  if bool_decide (normalizedName = "") then mret None
  else gets (λ s, userId ← ea_names s !! normalizedName;
                  if bool_decide (userId = "") then None else user_of s userId).

Definition createSingleUserIdentity (displayName : string) (id createdAt : option string) : op AccountUser :=
  let normalizedName := normalizeName displayName in
  require (name_ok normalizedName) USER_NAME_INVALID;;
  ids ← gets ea_userIds;
  require (bool_decide (ids = [])) SINGLE_USER_EXISTS;;
  id ← (match id with Some id => mret id | None => prefixedId "usr" end);
  require (user_id_ok id) USER_ID_INVALID;;
  now ← gets ea_now;
  let createdAt := default now createdAt in
  require (timestamp_ok createdAt) TIMESTAMP_INVALID;;
  let user := {| us_id := id; us_displayName := trim displayName; us_normalizedName := normalizedName; us_createdAt := createdAt |} in
  modify (on_users (<[us_id user := User_v2 user]>));;
  modify (on_names (<[normalizedName := us_id user]>));;
  modify (on_userIds (λ _, [us_id user]));;
  mret user.

(** ** Repositories *)

Definition getRepositoryForUser (userId repositoryId : string) : op (option (StoredRepository * RepositoryRole)) :=
  gets (λ s, r ← ea_repositories s !! repositoryId; role ← roleFor r userId; Some (r, role)).

Definition listRepositories (userId : string) : op (list (StoredRepository * RepositoryRole)) :=
  gets (λ s, sort_by (λ a, re_name a.1)
    (omap (λ id, r ← ea_repositories s !! id; role ← roleFor r userId; Some (r, role)) (ids_of (ea_repositoryIds s) userId))).

Definition createRepository (userId name : string) (remoteUrls : list string) : op StoredRepository :=
  user ← getUser userId;
  _ ← require_some user USER_UNAVAILABLE;
  normalizedName ← require_some (normalizeRepositoryName name) REPOSITORY_NAME_INVALID;
  ids ← gets (λ s, ids_of (ea_repositoryIds s) userId);
  require (length ids <? MAX_REPOSITORIES_PER_USER) REPOSITORY_LIMIT;;
  for_each (λ id, existing ← gets (λ s, ea_repositories s !! id);
    require (match existing with
             | Some r => negb (bool_decide (re_ownerUserId r = userId) && bool_decide (re_normalizedName r = normalizedName))
             | None => true
             end) REPOSITORY_EXISTS) ids;;
  now ← gets ea_now;
  id ← prefixedId "repo";
  let repository := {|
    re_id := id; re_ownerUserId := userId; re_name := trim name; re_normalizedName := normalizedName; re_visibility := private;
    re_remoteUrls := Some (normalizeRemoteUrls remoteUrls); re_members := [(userId, role_owner)]; re_createdAt := now; re_updatedAt := now |} in
  modify (on_repositories (<[id := repository]>));;
  modify (on_repositoryIds (<[userId := ids ++ [id]]>));;
  mret repository.

(** [removeValue] on one of the lists of identifiers. *)
Definition removeValue (key value : string) (m : gmap string (list string)) : gmap string (list string) :=
  if bool_decide (value ∈ ids_of m key) then <[key := List.filter (λ x, negb (bool_decide (x = value))) (ids_of m key)]> m else m.

Definition deleteOwnedRepositoryIfUnmaterialized (userId repositoryId : string) : op bool :=
  access ← getRepositoryForUser userId repositoryId;
  match access with
  | Some (_, role_owner) =>
      s ← gets id;
      if existsb (λ id, match ea_materializations s !! id with Some m => isMaterialization m | None => false end)
           (ids_of (ea_materializationIds s) repositoryId)
      then mret false
      else
        modify (on_repositoryIds (removeValue userId repositoryId));;
        modify (on_materializationIds (delete repositoryId));;
        modify (on_repositories (delete repositoryId));;
        mret true
  | _ => mret false
  end.

(** ** Devices *)

Definition active_device (s : accounts) (userId deviceId : string) : option StoredDevice :=
  d ← ea_devices s !! deviceId;
  if bool_decide (de_userId d = userId) && negb (truthy (de_revokedAt d)) then Some d else None.

Definition getActiveDeviceForUser (userId deviceId : string) : op (option StoredDevice) := gets (λ s, active_device s userId deviceId).

Definition seen (now : string) (d : StoredDevice) : StoredDevice := {|
  de_id := de_id d; de_userId := de_userId d; de_displayName := de_displayName d; de_platform := de_platform d;
  de_createdAt := de_createdAt d; de_lastSeenAt := Some now; de_revokedAt := de_revokedAt d |}.

Definition registerDevice (userId : string) (deviceId : option string) (displayName : string) (p : platform) : op StoredDevice :=
  user ← getUser userId;
  _ ← require_some user USER_UNAVAILABLE;
  let displayName := trim displayName in
  require (name_ok displayName) DEVICE_NAME_INVALID;;
  if truthy deviceId then
    existing ← gets (λ s, active_device s userId (default "" deviceId));
    existing ← require_some existing DEVICE_UNAUTHORIZED;
    now ← gets ea_now;
    let updated := {|
      de_id := de_id existing; de_userId := de_userId existing; de_displayName := displayName; de_platform := p;
      de_createdAt := de_createdAt existing; de_lastSeenAt := Some now; de_revokedAt := de_revokedAt existing |} in
    modify (on_devices (<[de_id existing := updated]>));;
    mret updated
  else
    ids ← gets (λ s, ids_of (ea_deviceIds s) userId);
    require (length ids <? MAX_DEVICES_PER_USER) DEVICE_LIMIT;;
    now ← gets ea_now;
    id ← prefixedId "dev";
    let device := {|
      de_id := id; de_userId := userId; de_displayName := displayName; de_platform := p; de_createdAt := now;
      de_lastSeenAt := Some now; de_revokedAt := None |} in
    modify (on_devices (<[id := device]>));;
    modify (on_deviceIds (<[userId := ids ++ [id]]>));;
    mret device.

Definition touchDevice (userId deviceId : string) : op (option StoredDevice) :=
  device ← gets (λ s, active_device s userId deviceId);
  match device with
  | None => mret None
  | Some d =>
      now ← gets ea_now;
      modify (on_devices (<[deviceId := seen now d]>));;
      mret (Some (seen now d))
  end.

Definition listDevices (userId : string) : op (list StoredDevice) :=
  gets (λ s, sort_by de_createdAt (omap (λ id, ea_devices s !! id) (ids_of (ea_deviceIds s) userId))).

Definition revoked (now : string) (d : StoredDevice) : StoredDevice := {|
  de_id := de_id d; de_userId := de_userId d; de_displayName := de_displayName d; de_platform := de_platform d;
  de_createdAt := de_createdAt d; de_lastSeenAt := de_lastSeenAt d; de_revokedAt := Some (default now (de_revokedAt d)) |}.

Definition revokeDevice (userId deviceId : string) : op (option StoredDevice) :=
  device ← gets (λ s, ea_devices s !! deviceId);
  now ← gets ea_now;
  match device with
  | None => mret None
  | Some d =>
      if bool_decide (de_userId d = userId) then
        modify (on_devices (<[deviceId := revoked now d]>));;
        mret (Some (revoked now d))
      else mret None
  end.

(** ** Materializations *)

Definition find_materialization (p : StoredMaterialization → bool) (ids : list string) (s : accounts) : option StoredMaterialization :=
  head (omap (λ id, m ← ea_materializations s !! id; if isMaterialization m && p m then Some m else None) ids).

Definition findMaterialization (ids : list string) (deviceId workspaceId : string) : accounts → option StoredMaterialization :=
  find_materialization (λ m, bool_decide (ma_deviceId m = Some deviceId) && bool_decide (ma_workspaceId m = workspaceId)) ids.

Definition findRuntimeMaterialization (ids : list string) (runtimeId workspaceId : string) : accounts → option StoredMaterialization :=
  find_materialization (λ m, bool_decide (ma_runtimeId m = Some runtimeId) && bool_decide (ma_workspaceId m = workspaceId)) ids.

(** The writes at the end of both upserts. *)
Definition store_materialization (repositoryId : string) (ids : list string) (m : StoredMaterialization) : op StoredMaterialization :=
  modify (on_materializations (<[ma_id m := m]>));;
  (if bool_decide (ma_id m ∈ ids) then mret tt
   else
     require (length ids <? MAX_MATERIALIZATIONS_PER_REPOSITORY) MATERIALIZATION_LIMIT;;
     modify (on_materializationIds (<[repositoryId := ids ++ [ma_id m]]>)));;
  mret m.

Definition upsertMaterialization (userId deviceId : string) (input : MaterializationUpsertInput) : op StoredMaterialization :=
  access ← getRepositoryForUser userId (mi_repositoryId input);
  _ ← require_some access REPOSITORY_UNAUTHORIZED;
  device ← gets (λ s, active_device s userId deviceId);
  _ ← require_some device DEVICE_UNAUTHORIZED;
  ids ← gets (λ s, ids_of (ea_materializationIds s) (mi_repositoryId input));
  existing ← gets (λ s, if truthy (mi_id input) then ea_materializations s !! default "" (mi_id input) else None);
  existing ← gets (λ s, or_else existing (findMaterialization ids deviceId (mi_workspaceId input) s));
  id ← (match existing with Some e => mret (ma_id e) | None => prefixedId "mat" end);
  now ← gets ea_now;
  store_materialization (mi_repositoryId input) ids {|
    ma_id := id; ma_repositoryId := mi_repositoryId input; ma_userId := userId; ma_deviceId := Some deviceId; ma_runtimeId := None;
    ma_workspaceId := mi_workspaceId input; ma_path := mi_path input; ma_platform := mi_platform input; ma_updatedAt := now |}.

Definition upsertRuntimeMaterialization (userId runtimeId : string) (input : MaterializationUpsertInput) : op StoredMaterialization :=
  access ← getRepositoryForUser userId (mi_repositoryId input);
  _ ← require_some access REPOSITORY_UNAUTHORIZED;
  require (runtime_id_ok runtimeId) RUNTIME_ID_INVALID;;
  ids ← gets (λ s, ids_of (ea_materializationIds s) (mi_repositoryId input));
  existing ← gets (λ s,
    if truthy (mi_id input) then
      candidate ← ea_materializations s !! default "" (mi_id input);
      if isMaterialization candidate && bool_decide (ma_userId candidate = userId) &&
         bool_decide (ma_repositoryId candidate = mi_repositoryId input) then Some candidate else None
    else None);
  existing ← gets (λ s, or_else existing (findRuntimeMaterialization ids runtimeId (mi_workspaceId input) s));
  id ← (match existing with Some e => mret (ma_id e) | None => prefixedId "mat" end);
  now ← gets ea_now;
  store_materialization (mi_repositoryId input) ids {|
    ma_id := id; ma_repositoryId := mi_repositoryId input; ma_userId := userId; ma_deviceId := None; ma_runtimeId := Some runtimeId;
    ma_workspaceId := mi_workspaceId input; ma_path := mi_path input; ma_platform := mi_platform input; ma_updatedAt := now |}.

Definition materializations_of (s : accounts) (repositoryId : string) : list StoredMaterialization :=
  omap (λ id, m ← ea_materializations s !! id; if isMaterialization m then Some m else None)
    (ids_of (ea_materializationIds s) repositoryId).

Definition listMaterializations (userId repositoryId : string) : op (list StoredMaterialization) :=
  access ← getRepositoryForUser userId repositoryId;
  match access with
  | None => mret []
  | Some _ => gets (λ s, materializations_of s repositoryId)
  end.

Definition findMaterializationByDevicePath (userId deviceId path : string) :
    op (option (StoredRepository * RepositoryRole * StoredMaterialization)) :=
  repositories ← listRepositories userId;
  gets (λ s, head (access ← repositories;
    (λ m, (access, m)) <$> List.filter (λ m, bool_decide (ma_userId m = userId) && bool_decide (ma_deviceId m = Some deviceId) &&
      bool_decide (ma_path m = path)) (materializations_of s (re_id access.1)))).

Definition deleteMaterialization (userId repositoryId materializationId : string) : op bool :=
  access ← getRepositoryForUser userId repositoryId;
  value ← gets (λ s, ea_materializations s !! materializationId);
  match access, value with
  | Some _, Some m =>
      if isMaterialization m && bool_decide (ma_userId m = userId) && bool_decide (ma_repositoryId m = repositoryId) then
        modify (on_materializations (delete materializationId));;
        modify (on_materializationIds (removeValue repositoryId materializationId));;
        mret true
      else mret false
  | _, _ => mret false
  end.

(** [materializationIdentityKey], as the pair whose parts it joins with a NUL. *)
Definition input_key (input : MaterializationUpsertInput) : string * string := (mi_repositoryId input, mi_workspaceId input).

(** The checks of the announced materializations. *)
Fixpoint check_desired (userId : string) (seen_keys : list (string * string)) (desired : list MaterializationUpsertInput) : op unit :=
  match desired with
  | [] => mret tt
  | input :: desired =>
      require (negb (bool_decide (input_key input ∈ seen_keys))) DUPLICATE_MATERIALIZATION;;
      access ← getRepositoryForUser userId (mi_repositoryId input);
      _ ← require_some access REPOSITORY_UNAUTHORIZED;
      check_desired userId (input_key input :: seen_keys) desired
  end.

Definition reconcileDeviceMaterializations (userId deviceId : string) (desired : list MaterializationUpsertInput) :
    op (list StoredMaterialization) :=
  device ← gets (λ s, active_device s userId deviceId);
  _ ← require_some device DEVICE_UNAUTHORIZED;
  check_desired userId [] desired;;
  repositories ← listRepositories userId;
  for_each (λ access,
    current ← listMaterializations userId (re_id access.1);
    for_each (λ m,
      if bool_decide (ma_deviceId m = Some deviceId) &&
         negb (bool_decide ((ma_repositoryId m, ma_workspaceId m) ∈ map input_key desired))
      then _ ← deleteMaterialization userId (ma_repositoryId m) (ma_id m); mret tt
      else mret tt) current) repositories;;
  for_collect (upsertMaterialization userId deviceId) desired.

(** ** Migration of the single user *)

Record MigrationResult := {
  mr_user : AccountUser;
  mr_repositoryCount : nat;
  mr_deviceCount : nat;
  mr_materializationCount : nat;
  mr_alreadyMigrated : bool;
}.

Definition repository_movable (from : string) (r : StoredRepository) : bool :=
  bool_decide (re_ownerUserId r = from) && bool_decide (re_visibility r = private) && bool_decide (re_members r = [(from, role_owner)]).

Definition reowned (to : string) (r : StoredRepository) : StoredRepository := {|
  re_id := re_id r; re_ownerUserId := to; re_name := re_name r; re_normalizedName := re_normalizedName r; re_visibility := private;
  re_remoteUrls := re_remoteUrls r; re_members := [(to, role_owner)]; re_createdAt := re_createdAt r; re_updatedAt := re_updatedAt r |}.

Definition moved_materialization (to : string) (m : StoredMaterialization) : StoredMaterialization := {|
  ma_id := ma_id m; ma_repositoryId := ma_repositoryId m; ma_userId := to; ma_deviceId := ma_deviceId m; ma_runtimeId := ma_runtimeId m;
  ma_workspaceId := ma_workspaceId m; ma_path := ma_path m; ma_platform := ma_platform m; ma_updatedAt := ma_updatedAt m |}.

Definition moved_device (to : string) (d : StoredDevice) : StoredDevice := {|
  de_id := de_id d; de_userId := to; de_displayName := de_displayName d; de_platform := de_platform d; de_createdAt := de_createdAt d;
  de_lastSeenAt := de_lastSeenAt d; de_revokedAt := de_revokedAt d |}.

Definition identityBindingCounts (userId : string) : op (nat * nat * nat) :=
  gets (λ s, (length (ids_of (ea_repositoryIds s) userId), length (ids_of (ea_deviceIds s) userId),
    sum_list_with (λ r, length (ids_of (ea_materializationIds s) r)) (ids_of (ea_repositoryIds s) userId))).

(** One repository of the source with its materializations. *)
Definition load_repository (from repositoryId : string) : op (StoredRepository * list StoredMaterialization) :=
  repository ← gets (λ s, ea_repositories s !! repositoryId);
  repository ← require_some repository REPOSITORY_INCOMPATIBLE;
  require (repository_movable from repository) REPOSITORY_INCOMPATIBLE;;
  ids ← gets (λ s, ids_of (ea_materializationIds s) repositoryId);
  materializations ← for_collect (λ id,
    m ← gets (λ s, ea_materializations s !! id);
    m ← require_some m MATERIALIZATION_INCOMPATIBLE;
    require (isMaterialization m && bool_decide (ma_repositoryId m = repositoryId) && bool_decide (ma_userId m = from))
      MATERIALIZATION_INCOMPATIBLE;;
    mret m) ids;
  mret (repository, materializations).

Definition load_device (from deviceId : string) : op StoredDevice :=
  device ← gets (λ s, ea_devices s !! deviceId);
  device ← require_some device DEVICE_INCOMPATIBLE;
  require (bool_decide (de_userId device = from)) DEVICE_INCOMPATIBLE;;
  mret device.

(** The answer when the target already is the single user. *)
Definition already_migrated (from : string) (target : AccountUser) : op MigrationResult :=
  user ← getUser (us_id target);
  user ← require_some user MIGRATION_MISMATCH;
  source ← getUser from;
  require (bool_decide (us_displayName user = us_displayName target) && bool_decide (us_createdAt user = us_createdAt target) &&
           negb (bool_decide (is_Some source))) MIGRATION_MISMATCH;;
  counts ← identityBindingCounts (us_id user);
  mret {| mr_user := user; mr_repositoryCount := counts.1.1; mr_deviceCount := counts.1.2; mr_materializationCount := counts.2;
          mr_alreadyMigrated := true |}.

Definition migrate_writes (from : string) (source user : AccountUser) (repositoryIds deviceIds : list string)
    (repositories : list StoredRepository) (materializations : list StoredMaterialization) (devices : list StoredDevice) : op unit :=
  modify (on_users (<[us_id user := User_v2 user]>));;
  modify (on_names (<[us_normalizedName user := us_id user]>));;
  modify (on_repositoryIds (<[us_id user := repositoryIds]>));;
  modify (on_deviceIds (<[us_id user := deviceIds]>));;
  for_each (λ r, modify (on_repositories (<[re_id r := reowned (us_id user) r]>))) repositories;;
  for_each (λ m, modify (on_materializations (<[ma_id m := moved_materialization (us_id user) m]>))) materializations;;
  for_each (λ d, modify (on_devices (<[de_id d := moved_device (us_id user) d]>))) devices;;
  modify (on_userIds (λ _, [us_id user]));;
  (if bool_decide (us_normalizedName source = us_normalizedName user) then mret tt
   else
     owner ← gets (λ s, ea_names s !! us_normalizedName source);
     if bool_decide (owner = Some from) then modify (on_names (delete (us_normalizedName source))) else mret tt);;
  modify (on_repositoryIds (delete from));;
  modify (on_deviceIds (delete from));;
  modify (on_users (delete from)).

Definition migrateSingleUserIdentityDirect (from to displayName createdAt : string) : op MigrationResult :=
  require (user_id_ok from) USER_ID_INVALID;;
  require (user_id_ok to) USER_ID_INVALID;;
  require (negb (bool_decide (from = to))) SAME_USER_IDS;;
  let displayName := trim displayName in
  let normalizedName := normalizeName displayName in
  require (name_ok normalizedName) USER_NAME_INVALID;;
  require (timestamp_ok createdAt) TIMESTAMP_INVALID;;
  let user := {| us_id := to; us_displayName := displayName; us_normalizedName := normalizedName; us_createdAt := createdAt |} in
  ids ← gets ea_userIds;
  if bool_decide (ids = [to]) then already_migrated from user
  else
    require (bool_decide (ids = [from])) MIGRATION_SOURCE_MISMATCH;;
    source ← getUser from;
    source ← require_some source SOURCE_UNAVAILABLE;
    require (bool_decide (us_id source = from)) SOURCE_UNAVAILABLE;;
    target ← gets (λ s, ea_users s !! to);
    require (match target with None => true | Some _ => false end) TARGET_EXISTS;;
    name_owner ← gets (λ s, ea_names s !! normalizedName);
    require (negb (truthy name_owner) || bool_decide (name_owner = Some from)) TARGET_NAME_TAKEN;;
    repositoryIds ← gets (λ s, ids_of (ea_repositoryIds s) from);
    loaded ← for_collect (load_repository from) repositoryIds;
    deviceIds ← gets (λ s, ids_of (ea_deviceIds s) from);
    devices ← for_collect (load_device from) deviceIds;
    migrate_writes from source user repositoryIds deviceIds (map fst loaded) (concat (map snd loaded)) devices;;
    mret {| mr_user := user; mr_repositoryCount := length loaded; mr_deviceCount := length devices;
            mr_materializationCount := length (concat (map snd loaded)); mr_alreadyMigrated := false |}.

(** [migrateSingleUserIdentity]: in a transaction when the storage has one. *)
Definition migrateSingleUserIdentity (transactional : bool) (from to displayName createdAt : string) : op MigrationResult := λ s,
  match migrateSingleUserIdentityDirect from to displayName createdAt s with
  | (Err e, s') => (Err e, if transactional then s else s')
  | r => r
  end.

(** ** Histories *)

Inductive account_op :=
| O_create (displayName : string) (id createdAt : option string)
| O_migrate (transactional : bool) (from to displayName createdAt : string)
| O_createRepository (userId name : string) (remoteUrls : list string)
| O_deleteRepository (userId repositoryId : string)
| O_registerDevice (userId : string) (deviceId : option string) (displayName : string) (p : platform)
| O_touchDevice (userId deviceId : string)
| O_revokeDevice (userId deviceId : string)
| O_upsert (userId deviceId : string) (input : MaterializationUpsertInput)
| O_upsertRuntime (userId runtimeId : string) (input : MaterializationUpsertInput)
| O_reconcile (userId deviceId : string) (desired : list MaterializationUpsertInput)
| O_deleteMaterialization (userId repositoryId materializationId : string)
| O_time (now : string).

(** The state after an operation, whether it returned or threw. *)
Definition after_op (o : account_op) (s : accounts) : accounts :=
  match o with
  | O_create displayName id createdAt => (createSingleUserIdentity displayName id createdAt s).2
  | O_migrate transactional from to displayName createdAt => (migrateSingleUserIdentity transactional from to displayName createdAt s).2
  | O_createRepository userId name urls => (createRepository userId name urls s).2
  | O_deleteRepository userId repositoryId => (deleteOwnedRepositoryIfUnmaterialized userId repositoryId s).2
  | O_registerDevice userId deviceId displayName p => (registerDevice userId deviceId displayName p s).2
  | O_touchDevice userId deviceId => (touchDevice userId deviceId s).2
  | O_revokeDevice userId deviceId => (revokeDevice userId deviceId s).2
  | O_upsert userId deviceId input => (upsertMaterialization userId deviceId input s).2
  | O_upsertRuntime userId runtimeId input => (upsertRuntimeMaterialization userId runtimeId input s).2
  | O_reconcile userId deviceId desired => (reconcileDeviceMaterializations userId deviceId desired s).2
  | O_deleteMaterialization userId repositoryId id => (deleteMaterialization userId repositoryId id s).2
  | O_time now => if bool_decide (now = "") then s else at_time now s
  end.

End accounts.
