(* ===== verification/EdgeAccountProps.v ===== *)
(** * EdgeAccountProps: what every operation of the account store keeps

    The store keeps, for each kind of record, a list of identifiers per owner; [indexed] says
    that lists and records agree.  [tidy] is the invariant of the store, kept by every
    operation whose caller keeps to [op_ok].  Then what the migration and the reconciliation
    of a device do, and how devices age. *)

From S2P Require Import Prelude Text EdgeAccounts.
From Stdlib Require Import Ascii.

(** ** Lists of identifiers *)

(** The records under [recs] and the lists of their identifiers by group agree. *)
Record indexed {R} (id grp : R → string) (max : nat) (idx : gmap string (list string)) (recs : gmap string R) : Prop := {
  ix_id k r : recs !! k = Some r → id r = k ∧ k ∈ ids_of idx (grp r);
  ix_rec g k : k ∈ ids_of idx g → ∃ r, recs !! k = Some r ∧ grp r = g;
  ix_nodup g : NoDup (ids_of idx g);
  ix_bound g : length (ids_of idx g) ≤ max;
}.

Lemma ids_of_insert idx g l : ids_of (<[g := l]> idx) g = l.
Proof. unfold ids_of. by rewrite lookup_insert_eq. Qed.

Lemma ids_of_insert_ne idx g g' l : g ≠ g' → ids_of (<[g := l]> idx) g' = ids_of idx g'.
Proof. intros ?. unfold ids_of. by rewrite lookup_insert_ne. Qed.

Lemma ids_of_delete idx g : ids_of (delete g idx) g = [].
Proof. unfold ids_of. by rewrite lookup_delete_eq. Qed.

Lemma ids_of_delete_ne idx g g' : g ≠ g' → ids_of (delete g idx) g' = ids_of idx g'.
Proof. intros ?. unfold ids_of. by rewrite lookup_delete_ne. Qed.

Section index.
Context {R : Type} (id grp : R → string) (max : nat).
Notation ok := (indexed id grp max).

Lemma ix_empty : ok ∅ ∅.
Proof. split; unfold ids_of; intros *; rewrite ?lookup_empty; cbn; [done|set_solver|constructor|lia]. Qed.

(** A new record at the end of its list. *)
Lemma ix_add idx recs r :
  ok idx recs → recs !! id r = None → length (ids_of idx (grp r)) < max →
  ok (<[grp r := ids_of idx (grp r) ++ [id r]]> idx) (<[id r := r]> recs).
Proof.
  intros [I1 I2 I3 I4] Hn Hl.
  assert (∀ g, id r ∉ ids_of idx g) as Hnew by (intros g Hin; destruct (I2 _ _ Hin) as (r' & Hr' & _); congruence).
  split.
  - intros k r'. rewrite lookup_insert_Some. intros [[<- <-]|[Hk Hr]].
    + rewrite ids_of_insert. set_solver.
    + destruct (I1 _ _ Hr) as [E Hin]. split; [done|]. destruct (decide (grp r = grp r')) as [Eg|]; [|by rewrite ids_of_insert_ne].
      rewrite Eg, ids_of_insert. set_solver.
  - intros g k. destruct (decide (grp r = g)) as [<-|]; [rewrite ids_of_insert|rewrite ids_of_insert_ne by done].
    + intros [Hin| ->%list_elem_of_singleton]%elem_of_app; [|exists r; by rewrite lookup_insert_eq].
      destruct (I2 _ _ Hin) as (r' & ? & ?). exists r'. rewrite lookup_insert_ne; [done|]. intros <-. by apply Hnew in Hin.
    + intros Hin. destruct (I2 _ _ Hin) as (r' & ? & ?). exists r'. rewrite lookup_insert_ne; [done|]. intros <-. by apply Hnew in Hin.
  - intros g. destruct (decide (grp r = g)) as [<-|]; [rewrite ids_of_insert|by rewrite ids_of_insert_ne].
    apply NoDup_app. split_and!; [apply I3| |apply NoDup_singleton]. intros k Hin ->%list_elem_of_singleton. by apply Hnew in Hin.
  - intros g. destruct (decide (grp r = g)) as [<-|]; [rewrite ids_of_insert, length_app; cbn; lia|by rewrite ids_of_insert_ne].
Qed.

(** A record replaced by one of the same group. *)
Lemma ix_update idx recs k r0 r : ok idx recs → recs !! k = Some r0 → id r = k → grp r = grp r0 → ok idx (<[k := r]> recs).
Proof.
  intros [I1 I2 I3 I4] Hk Ei Eg. split; [|intros g k' Hin|done|done].
  - intros k' r'. rewrite lookup_insert_Some. intros [[<- <-]|[_ Hr]]; [|by apply I1]. rewrite Eg. split; [done|by apply I1].
  - destruct (decide (k = k')) as [<-|]; [|rewrite lookup_insert_ne by done; by apply I2].
    exists r. rewrite lookup_insert_eq. destruct (I2 _ _ Hin) as (r' & Hr' & <-). split; [done|congruence].
Qed.

Lemma removeValue_ids g k idx g' :
  ids_of (removeValue g k idx) g' = if decide (g = g') then List.filter (λ x, negb (bool_decide (x = k))) (ids_of idx g') else ids_of idx g'.
Proof.
  unfold removeValue. case_bool_decide as Hin.
  - destruct (decide (g = g')) as [<-|]; [by rewrite ids_of_insert|by rewrite ids_of_insert_ne].
  - destruct (decide (g = g')) as [<-|]; [|done]. symmetry. induction (ids_of idx g) as [|x l IH]; [done|]. cbn.
    rewrite bool_decide_eq_false_2 by set_solver. cbn. rewrite IH; [done|set_solver].
Qed.

Lemma elem_of_without x k (l : list string) : x ∈ List.filter (λ x, negb (bool_decide (x = k))) l ↔ x ∈ l ∧ x ≠ k.
Proof. rewrite !list_elem_of_In, filter_In, negb_true_iff, bool_decide_eq_false. done. Qed.

Lemma without_sublist k (l : list string) : List.filter (λ x, negb (bool_decide (x = k))) l `sublist_of` l.
Proof. induction l as [|x l IH]; cbn; [done|]. destruct (negb _); by constructor. Qed.

(** A record removed with its identifier. *)
Lemma ix_remove idx recs k r : ok idx recs → recs !! k = Some r → ok (removeValue (grp r) k idx) (delete k recs).
Proof.
  intros [I1 I2 I3 I4] Hk. split.
  - intros k' r'. rewrite lookup_delete_Some. intros [Hne Hr]. destruct (I1 _ _ Hr) as [E Hin]. split; [done|]. rewrite removeValue_ids.
    destruct (decide _); [|done]. apply elem_of_without. done.
  - intros g k' Hin. rewrite removeValue_ids in Hin. assert (k' ∈ ids_of idx g ∧ k' ≠ k) as [Hin' Hne].
    { destruct (decide _) as [<-|Hg]; [by apply elem_of_without in Hin|]. split; [done|]. intros ->. destruct (I2 _ _ Hin) as (r' & Hr' & <-).
      congruence. }
    rewrite lookup_delete_ne by done. by apply I2.
  - intros g. rewrite removeValue_ids. destruct (decide _); [|apply I3]. eapply sublist_NoDup; [apply (I3 g)|apply without_sublist].
  - intros g. rewrite removeValue_ids. destruct (decide _); [|apply I4]. etrans; [apply sublist_length, without_sublist|apply I4].
Qed.

(** A list of a group without records may go. *)
Lemma ix_forget idx recs g : ok idx recs → (∀ k r, recs !! k = Some r → grp r ≠ g) → ok (delete g idx) recs.
Proof.
  intros [I1 I2 I3 I4] Hg. split.
  - intros k r Hr. destruct (I1 _ _ Hr). rewrite ids_of_delete_ne; [done|]. intros ->. by eapply Hg.
  - intros g' k. destruct (decide (g = g')) as [<-|]; [rewrite ids_of_delete; set_solver|]. rewrite ids_of_delete_ne by done. apply I2.
  - intros g'. destruct (decide (g = g')) as [<-|]; [rewrite ids_of_delete; constructor|]. by rewrite ids_of_delete_ne.
  - intros g'. destruct (decide (g = g')) as [<-|]; [rewrite ids_of_delete; cbn; lia|]. by rewrite ids_of_delete_ne.
Qed.

(** Every record changes, within its group. *)
Lemma ix_map idx recs (f : R → R) : ok idx recs → (∀ r, id (f r) = id r ∧ grp (f r) = grp r) → ok idx (f <$> recs).
Proof.
  intros [I1 I2 I3 I4] Hf. split; [| |done|done].
  - intros k r'. rewrite lookup_fmap_Some. intros (r & <- & Hr). destruct (Hf r) as [-> ->]. by apply I1.
  - intros g k Hin. destruct (I2 _ _ Hin) as (r & Hr & <-). exists (f r). rewrite lookup_fmap, Hr. split; [done|apply Hf].
Qed.

(** The only group gets another name. *)
Lemma ix_move idx recs (f : R → R) from to :
  ok idx recs → from ≠ to → (∀ k r, recs !! k = Some r → grp r = from) → (∀ r, id (f r) = id r ∧ grp (f r) = to) →
  ok (delete from (<[to := ids_of idx from]> idx)) (f <$> recs).
Proof.
  intros [I1 I2 I3 I4] Hne Hall Hf.
  assert (∀ g, ids_of (delete from (<[to := ids_of idx from]> idx)) g = if decide (g = to) then ids_of idx from else []) as Hids.
  { intros g. destruct (decide (g = from)) as [->|Hg]; [rewrite ids_of_delete, decide_False by done; done|].
    rewrite ids_of_delete_ne by done. destruct (decide (g = to)) as [->|]; [by rewrite ids_of_insert|]. rewrite ids_of_insert_ne by done.
    destruct (ids_of idx g) as [|k l] eqn:E; [done|]. destruct (I2 g k) as (r & Hr & Er); [rewrite E; left|].
    rewrite (Hall _ _ Hr) in Er. by destruct Hg. }
  split.
  - intros k r'. rewrite lookup_fmap_Some. intros (r & <- & Hr). destruct (Hf r) as [-> ->]. rewrite Hids, decide_True by done.
    destruct (I1 _ _ Hr) as [? Hin]. split; [done|]. by rewrite (Hall _ _ Hr) in Hin.
  - intros g k. rewrite Hids. destruct (decide _) as [->|]; [|set_solver]. intros Hin. destruct (I2 _ _ Hin) as (r & Hr & _).
    exists (f r). rewrite lookup_fmap, Hr. split; [done|apply Hf].
  - intros g. rewrite Hids. destruct (decide _); [apply I3|constructor].
  - intros g. rewrite Hids. destruct (decide _); [apply I4|cbn; lia].
Qed.
End index.

(** ** What an operation ends in *)

Section ends.
Context {S E : Type}.

(** [Q] holds of the outcome and the state the program ends with. *)
Definition ends {A} (m : io S E A) (s : S) (Q : outcome E A → S → Prop) : Prop := Q (m s).1 (m s).2.

Lemma ends_bind {A B} (m : io S E A) (k : A → io S E B) s Q :
  ends m s (λ r s', match r with Ok a => ends (k a) s' Q | Err e => Q (Err e) s' end) → ends (m ≫= k) s Q.
Proof. unfold ends, mbind, io_bind. by destruct (m s) as [[a|e] s']. Qed.

Lemma ends_ret {A} (a : A) s (Q : outcome E A → S → Prop) : Q (Ok a) s → ends (mret a) s Q.
Proof. done. Qed.

Lemma ends_throw {A} (e : E) s (Q : outcome E A → S → Prop) : Q (Err e) s → ends (throw e) s Q.
Proof. done. Qed.

Lemma ends_gets {A} (f : S → A) s (Q : outcome E A → S → Prop) : Q (Ok (f s)) s → ends (gets f) s Q.
Proof. done. Qed.

Lemma ends_modify (f : S → S) s (Q : outcome E unit → S → Prop) : Q (Ok tt) (f s) → ends (modify f) s Q.
Proof. done. Qed.

Lemma ends_require (b : bool) (e : E) s (Q : outcome E unit → S → Prop) :
  (b = true → Q (Ok tt) s) → (b = false → Q (Err e) s) → ends (require b e) s Q.
Proof. destruct b; cbn; intros H1 H2; [by apply H1|by apply H2]. Qed.

Lemma ends_some {A} (o : option A) (e : E) s (Q : outcome E A → S → Prop) :
  (∀ a, o = Some a → Q (Ok a) s) → (o = None → Q (Err e) s) → ends (require_some o e) s Q.
Proof. destruct o; cbn; intros H1 H2; [by apply H1|by apply H2]. Qed.

Lemma ends_mono {A} (m : io S E A) s (Q Q' : outcome E A → S → Prop) :
  (∀ r s', Q r s' → Q' r s') → ends m s Q → ends m s Q'.
Proof. unfold ends. auto. Qed.

(** A loop whose turns keep [P]. *)
Lemma ends_each {A} (P : S → Prop) (f : A → io S E unit) l s :
  P s → (∀ x s, x ∈ l → P s → ends (f x) s (λ _, P)) → ends (for_each f l) s (λ _, P).
Proof.
  revert s. induction l as [|x l IH]; intros s HP Hf; [done|]. cbn. apply ends_bind. pose proof (Hf x s ltac:(left) HP) as Hx.
  unfold ends in *. destruct (f x s) as [[a|e] s']; cbn in *; [|done]. apply IH; [done|]. intros y s1 Hy. apply Hf. by right.
Qed.

Lemma ends_collect {A B} (P : S → Prop) (f : A → io S E B) l s :
  P s → (∀ x s, x ∈ l → P s → ends (f x) s (λ _, P)) → ends (for_collect f l) s (λ _, P).
Proof.
  revert s. induction l as [|x l IH]; intros s HP Hf; [done|]. cbn. apply ends_bind. pose proof (Hf x s ltac:(left) HP) as Hx.
  unfold ends in *. destruct (f x s) as [[a|e] s']; cbn in *; [|done].
  assert (P (for_collect f l s').2) as Hl by (apply IH; [done|]; intros y s1 Hy; apply Hf; by right).
  unfold mbind, io_bind. by destruct (for_collect f l s') as [[bs|e] s2].
Qed.
End ends.

Ltac goes :=
  match goal with
  | |- ends (_ ≫= _) _ _ => apply ends_bind
  | |- ends (mret _) _ _ => apply ends_ret
  | |- ends (throw _) _ _ => apply ends_throw
  | |- ends (gets _) _ _ => apply ends_gets
  | |- ends (modify _) _ _ => apply ends_modify
  | |- ends (require _ _) _ _ => apply ends_require; intros ?
  | |- ends (require_some _ _) _ _ => apply ends_some; [intros ? ?|intros ?]
  end.

(** ** The invariant *)

Section tidy.
Context {H : AccountHost} {L : AccountHostLaws}.

Definition named (prefix : string) (n : nat) : string := prefix +:+ "_" +:+ randomUUID n.

Lemma named_inj prefix i j : named prefix i = named prefix j → i = j.
Proof. unfold named. intros E%(inj (String.append prefix))%(inj (String.append "_")). by apply randomUUID_inj. Qed.

Record tidy (s : accounts) : Prop := {
  ti_users k u : ea_users s !! k = Some u → us_id (toAccountUser u) = k ∧ ea_userIds s = [k];
  ti_userIds : ea_userIds s = [] ∨ ∃ u, ea_userIds s = [u] ∧ is_Some (ea_users s !! u);
  ti_repositories : indexed re_id re_ownerUserId MAX_REPOSITORIES_PER_USER (ea_repositoryIds s) (ea_repositories s);
  ti_devices : indexed de_id de_userId MAX_DEVICES_PER_USER (ea_deviceIds s) (ea_devices s);
  ti_materializations :
    indexed ma_id ma_repositoryId MAX_MATERIALIZATIONS_PER_REPOSITORY (ea_materializationIds s) (ea_materializations s);
  ti_owned k r : ea_repositories s !! k = Some r →
    ea_userIds s = [re_ownerUserId r] ∧ re_visibility r = private ∧ re_members r = [(re_ownerUserId r, role_owner)];
  ti_unique k k' r r' : ea_repositories s !! k = Some r → ea_repositories s !! k' = Some r' →
    re_normalizedName r = re_normalizedName r' → k = k';
  ti_device_user k d : ea_devices s !! k = Some d → ea_userIds s = [de_userId d];
  ti_material k m : ea_materializations s !! k = Some m →
    isMaterialization m = true ∧ ∃ r, ea_repositories s !! ma_repositoryId m = Some r ∧ re_ownerUserId r = ma_userId m;
  ti_fresh n : ea_draws s ≤ n → ea_repositories s !! named "repo" n = None ∧ ea_devices s !! named "dev" n = None ∧
    ea_materializations s !! named "mat" n = None;
}.

Lemma tidy_empty t : tidy (empty_accounts t).
Proof. split; cbn; try (apply ix_empty); try (intros *; rewrite ?lookup_empty; done). by left. Qed.

Lemma tidy_draw s : tidy s → tidy (next_draw s).
Proof. intros [I1 I2 I3 I4 I5 I6 I7 I8 I9 I10]. split; try done. cbn. intros n Hn. apply I10. lia. Qed.

Lemma tidy_at t s : tidy s → tidy (at_time t s).
Proof. intros []. by split. Qed.

Lemma ends_named {B} (o : option B) (f : B → string) prefix s (Q : outcome account_error string → accounts → Prop) :
  (∀ b, o = Some b → Q (Ok (f b)) s) → (o = None → Q (Ok (named prefix (ea_draws s))) (next_draw s)) →
  ends (match o with Some b => mret (f b) | None => prefixedId prefix end) s Q.
Proof. intros H1 H2. destruct o; [by apply H1|by apply H2]. Qed.

Lemma tidy_new_user u s : tidy s → ea_userIds s = [] →
  tidy (on_userIds (λ _, [us_id u]) (on_names (<[us_normalizedName u := us_id u]>) (on_users (<[us_id u := User_v2 u]>) s))).
Proof.
  intros [I1 I2 I3 I4 I5 I6 I7 I8 I9 I10] E. split; try done; cbn.
  - intros k v. rewrite lookup_insert_Some. intros [[<- <-]|[_ Hv]]; [done|]. apply I1 in Hv as [_ Hv]. congruence.
  - right. exists (us_id u). split; [done|]. by rewrite lookup_insert_eq.
  - intros k r Hr. apply I6 in Hr as [Hr _]. congruence.
  - intros k d Hd. apply I8 in Hd. congruence.
Qed.

Lemma tidy_create displayName id createdAt s : tidy s → ends (createSingleUserIdentity displayName id createdAt) s (λ _, tidy).
Proof.
  intros HT. unfold createSingleUserIdentity. do 2 goes; [|done]. do 4 goes; [|done]. bool_inv.
  goes. apply (ends_named id (λ x, x)).
  - intros x _. do 2 goes; [|done]. do 4 goes; [|done]. do 7 goes. by apply (tidy_new_user {| us_id := x |}).
  - intros _. do 2 goes; [|by apply tidy_draw]. do 4 goes; [|by apply tidy_draw]. do 7 goes.
    apply (tidy_new_user {| us_id := named "usr" (ea_draws s) |}); [by apply tidy_draw|done].
Qed.

(** ** Repositories *)

Lemma user_is_owner s userId u : tidy s → user_of s userId = Some u → ea_userIds s = [userId].
Proof. intros HT Hu. unfold user_of in Hu. apply fmap_Some in Hu as (v & Hv & _). by apply (ti_users _ HT) in Hv as [_ ?]. Qed.

Lemma access_owner s userId rid a :
  (r ← ea_repositories s !! rid; role ← roleFor r userId; Some (r, role)) = Some a →
  ea_repositories s !! rid = Some a.1 ∧ re_ownerUserId a.1 = userId.
Proof.
  intros Ha. apply bind_Some in Ha as (r & Hr & Ha). apply bind_Some in Ha as (role & Hrole & [= <-]). split; [done|].
  unfold roleFor in Hrole. by case_bool_decide.
Qed.

Lemma tidy_repository s r :
  tidy s → ea_userIds s = [re_ownerUserId r] → re_visibility r = private → re_members r = [(re_ownerUserId r, role_owner)] →
  re_id r = named "repo" (ea_draws s) → length (ids_of (ea_repositoryIds s) (re_ownerUserId r)) < MAX_REPOSITORIES_PER_USER →
  (∀ k r', ea_repositories s !! k = Some r' → re_normalizedName r' ≠ re_normalizedName r) →
  tidy (on_repositoryIds (<[re_ownerUserId r := ids_of (ea_repositoryIds s) (re_ownerUserId r) ++ [re_id r]]>)
         (on_repositories (<[re_id r := r]>) (next_draw s))).
Proof.
  intros [I1 I2 I3 I4 I5 I6 I7 I8 I9 I10] Hu Hv Hm Hid Hl Hn. assert (ea_repositories s !! re_id r = None) as Hnew.
  { rewrite Hid. by apply I10. }
  split; try done; cbn.
  - by apply ix_add.
  - intros k r'. rewrite lookup_insert_Some. intros [[_ <-]|[_ Hr]]; [done|by eapply I6].
  - intros k k' r1 r2. rewrite !lookup_insert_Some. intros [[<- <-]|[Hk Hr1]] [[<- <-]|[Hk' Hr2]] En; [done| | |by eapply I7].
    + by eapply Hn in Hr2.
    + by eapply Hn in Hr1.
  - intros k m Hk. destruct (I9 _ _ Hk) as (? & r' & Hr' & ?). split; [done|]. exists r'. split; [|done].
    rewrite lookup_insert_ne; [done|]. congruence.
  - intros n Hlt. destruct (I10 n ltac:(lia)) as (? & ? & ?). split_and!; [|done|done]. rewrite lookup_insert_ne; [done|].
    rewrite Hid. intros E%named_inj. lia.
Qed.

(** Names already used by the owner are refused. *)
Lemma ends_names {userId normalized : string} ids s (Q : outcome account_error unit → accounts → Prop) :
  ((∀ id r, id ∈ ids → ea_repositories s !! id = Some r → re_ownerUserId r = userId → re_normalizedName r ≠ normalized) → Q (Ok tt) s) →
  Q (Err REPOSITORY_EXISTS) s →
  ends (for_each (λ id, existing ← gets (λ s, ea_repositories s !! id);
    require (match existing with
             | Some r => negb (bool_decide (re_ownerUserId r = userId) && bool_decide (re_normalizedName r = normalized))
             | None => true
             end) REPOSITORY_EXISTS) ids) s Q.
Proof.
  intros H1 H2. induction ids as [|id ids IH]; cbn; [apply H1; set_solver|]. do 4 goes; [|done]. apply IH. intros Hids. apply H1.
  intros id' r [->|Hin]%elem_of_cons Hr Eo En; [|by eapply Hids]. rewrite Hr in *. bool_inv.
  rewrite !bool_decide_eq_true_2 in * by done. done.
Qed.

Lemma tidy_createRepository userId name urls s : tidy s → ends (createRepository userId name urls) s (λ _, tidy).
Proof.
  intros HT. unfold createRepository, getUser. do 4 goes; [|done]. do 2 goes; [|done]. do 4 goes; [|done].
  goes. apply ends_names; [|done]. intros Hnames. unfold prefixedId. do 11 goes.
  eapply (tidy_repository s {| re_id := named "repo" (ea_draws s); re_ownerUserId := userId |}); try done.
  - by eapply user_is_owner.
  - by apply Nat.ltb_lt.
  - intros k r' Hr'. cbn. assert (re_ownerUserId r' = userId) as Eo.
    { pose proof (ti_owned _ HT _ _ Hr') as [Eu _]. erewrite user_is_owner in Eu by done. congruence. }
    eapply Hnames; [|done|done]. rewrite <-Eo. by apply (ix_id _ _ _ _ _ (ti_repositories _ HT)).
Qed.

Lemma tidy_unlisted s rid :
  tidy s → (∀ id m, id ∈ ids_of (ea_materializationIds s) rid → ea_materializations s !! id = Some m → isMaterialization m = false) →
  ∀ k m, ea_materializations s !! k = Some m → ma_repositoryId m ≠ rid.
Proof.
  intros HT Hno k m Hm <-. destruct (ix_id _ _ _ _ _ (ti_materializations _ HT) _ _ Hm) as [_ Hin].
  destruct (ti_material _ HT _ _ Hm) as [Hok _]. by rewrite (Hno _ _ Hin Hm) in Hok.
Qed.

Lemma tidy_deleteRepository userId rid s : tidy s → ends (deleteOwnedRepositoryIfUnmaterialized userId rid) s (λ _, tidy).
Proof.
  intros HT. unfold deleteOwnedRepositoryIfUnmaterialized, getRepositoryForUser. do 2 goes.
  destruct (ea_repositories s !! rid ≫= _) as [[r role]|] eqn:Ea; [|done]. apply access_owner in Ea as [Hr Eo]. cbn in Hr, Eo.
  destruct role; try done. do 2 goes. destruct (existsb _ _) eqn:Ex; [done|]. do 7 goes.
  assert (∀ k m, ea_materializations s !! k = Some m → ma_repositoryId m ≠ rid) as Hno.
  { apply tidy_unlisted; [done|]. intros id m Hin Hm. destruct (isMaterialization m) eqn:Em; [|done].
    assert (existsb (λ id, match ea_materializations s !! id with Some m => isMaterialization m | None => false end)
      (ids_of (ea_materializationIds s) rid) = true) as Hex by (apply existsb_exists; exists id; rewrite <-list_elem_of_In, Hm; done).
    cbn in *. congruence. }
  destruct HT as [I1 I2 I3 I4 I5 I6 I7 I8 I9 I10]. split; try done; cbn.
  - rewrite <-Eo. by apply ix_remove.
  - by apply ix_forget.
  - intros k r'. rewrite lookup_delete_Some. intros [_ ?]. by eapply I6.
  - intros k k' r1 r2. rewrite !lookup_delete_Some. intros [_ ?] [_ ?]. by eapply I7.
  - intros k m Hm. destruct (I9 _ _ Hm) as (? & r' & Hr' & ?). split; [done|]. exists r'. split; [|done].
    rewrite lookup_delete_ne; [done|]. intros E. by apply (Hno _ _ Hm).
  - intros n Hn. destruct (I10 n Hn) as (? & ? & ?). split_and!; [|done|done]. rewrite lookup_delete_None. by right.
Qed.

(** ** Devices *)

Lemma active_found s userId deviceId d :
  active_device s userId deviceId = Some d → ea_devices s !! deviceId = Some d ∧ de_userId d = userId ∧ truthy (de_revokedAt d) = false.
Proof.
  unfold active_device. intros (d' & Hd & Ha)%bind_Some. destruct (_ && _) eqn:E; [|done]. injection Ha as ->. bool_inv. done.
Qed.

Lemma device_key s k d : tidy s → ea_devices s !! k = Some d → de_id d = k.
Proof. intros HT Hd. by apply (ix_id _ _ _ _ _ (ti_devices _ HT)) in Hd as [? _]. Qed.

Lemma tidy_change_device s k d d' :
  tidy s → ea_devices s !! k = Some d → de_id d' = k → de_userId d' = de_userId d → tidy (on_devices (<[k := d']>) s).
Proof.
  intros [I1 I2 I3 I4 I5 I6 I7 I8 I9 I10] Hd Ei Eu. split; try done; cbn.
  - by eapply ix_update.
  - intros k' d1. rewrite lookup_insert_Some. intros [[_ <-]|[_ Hk]]; [rewrite Eu|]; by eapply I8.
  - intros n Hn. destruct (I10 n Hn) as (? & ? & ?). split_and!; [done| |done]. rewrite lookup_insert_ne; [done|]. congruence.
Qed.

Lemma tidy_new_device s d :
  tidy s → ea_userIds s = [de_userId d] → de_id d = named "dev" (ea_draws s) →
  length (ids_of (ea_deviceIds s) (de_userId d)) < MAX_DEVICES_PER_USER →
  tidy (on_deviceIds (<[de_userId d := ids_of (ea_deviceIds s) (de_userId d) ++ [de_id d]]>) (on_devices (<[de_id d := d]>) (next_draw s))).
Proof.
  intros [I1 I2 I3 I4 I5 I6 I7 I8 I9 I10] Hu Hid Hl. assert (ea_devices s !! de_id d = None) as Hnew by (rewrite Hid; by apply I10).
  split; try done; cbn.
  - by apply ix_add.
  - intros k d'. rewrite lookup_insert_Some. intros [[_ <-]|[_ Hd]]; [done|by eapply I8].
  - intros n Hlt. destruct (I10 n ltac:(lia)) as (? & ? & ?). split_and!; [done| |done]. rewrite lookup_insert_ne; [done|].
    rewrite Hid. intros E%named_inj. lia.
Qed.

Lemma tidy_registerDevice userId deviceId displayName p s : tidy s → ends (registerDevice userId deviceId displayName p) s (λ _, tidy).
Proof.
  intros HT. unfold registerDevice, getUser. do 4 goes; [|done]. do 2 goes; [|done]. destruct (truthy deviceId).
  - do 4 goes; [|done]. apply active_found in H2 as (Hd & Eu & _). do 5 goes. rewrite (device_key _ _ _ HT Hd).
    by eapply tidy_change_device.
  - do 4 goes; [|done]. unfold prefixedId. do 11 goes.
    eapply (tidy_new_device s {| de_id := named "dev" (ea_draws s); de_userId := userId |}); try done; [by eapply user_is_owner|].
    by apply Nat.ltb_lt.
Qed.

Lemma tidy_touchDevice userId deviceId s : tidy s → ends (touchDevice userId deviceId) s (λ _, tidy).
Proof.
  intros HT. unfold touchDevice. do 2 goes. destruct (active_device s userId deviceId) as [d|] eqn:Ed; [|done].
  apply active_found in Ed as (Hd & _). do 5 goes. eapply tidy_change_device; [done|exact Hd|exact (device_key _ _ _ HT Hd)|done].
Qed.

Lemma tidy_revokeDevice userId deviceId s : tidy s → ends (revokeDevice userId deviceId) s (λ _, tidy).
Proof.
  intros HT. unfold revokeDevice. do 4 goes. destruct (ea_devices s !! deviceId) as [d|] eqn:Hd; [|done]. case_bool_decide; [|done].
  do 3 goes. eapply tidy_change_device; [done|exact Hd|exact (device_key _ _ _ HT Hd)|done].
Qed.

(** ** Materializations *)

(** A materialization of a repository of its user. *)
Definition placed (s : accounts) (m : StoredMaterialization) : Prop :=
  isMaterialization m = true ∧ ∃ r, ea_repositories s !! ma_repositoryId m = Some r ∧ re_ownerUserId r = ma_userId m.

Lemma tidy_replace s m m0 :
  tidy s → placed s m → ea_materializations s !! ma_id m = Some m0 → ma_repositoryId m0 = ma_repositoryId m →
  tidy (on_materializations (<[ma_id m := m]>) s) ∧ ma_id m ∈ ids_of (ea_materializationIds s) (ma_repositoryId m).
Proof.
  intros [I1 I2 I3 I4 I5 I6 I7 I8 I9 I10] Hp Hm0 Er. split; [|rewrite <-Er; by apply (ix_id _ _ _ _ _ I5)]. split; try done; cbn.
  - by eapply ix_update.
  - intros k m1. rewrite lookup_insert_Some. intros [[_ <-]|[_ Hm]]; [done|by eapply I9].
  - intros n Hn. destruct (I10 n Hn) as (? & ? & ?). split_and!; [done|done|]. rewrite lookup_insert_ne; [done|]. congruence.
Qed.

Lemma tidy_add s m :
  tidy s → placed s m → ma_id m = named "mat" (ea_draws s) →
  length (ids_of (ea_materializationIds s) (ma_repositoryId m)) < MAX_MATERIALIZATIONS_PER_REPOSITORY →
  tidy (on_materializationIds (<[ma_repositoryId m := ids_of (ea_materializationIds s) (ma_repositoryId m) ++ [ma_id m]]>)
         (on_materializations (<[ma_id m := m]>) (next_draw s))).
Proof.
  intros [I1 I2 I3 I4 I5 I6 I7 I8 I9 I10] Hp Hid Hl.
  assert (ea_materializations s !! ma_id m = None) as Hnew by (rewrite Hid; by apply I10). split; try done; cbn.
  - by apply ix_add.
  - intros k m1. rewrite lookup_insert_Some. intros [[_ <-]|[_ Hm]]; [done|by eapply I9].
  - intros n Hlt. destruct (I10 n ltac:(lia)) as (? & ? & ?). split_and!; [done|done|]. rewrite lookup_insert_ne; [done|].
    rewrite Hid. intros E%named_inj. lia.
Qed.

(** The end of an upsert: [existing] is a materialization of the repository, or there is room for another. *)
Lemma tidy_store s (existing : option StoredMaterialization) (m : string → string → StoredMaterialization) rid :
  tidy s → (∀ id now, placed s (m id now) ∧ ma_id (m id now) = id ∧ ma_repositoryId (m id now) = rid) →
  (∀ e, existing = Some e → ea_materializations s !! ma_id e = Some e ∧ ma_repositoryId e = rid) →
  length (ids_of (ea_materializationIds s) rid) < MAX_MATERIALIZATIONS_PER_REPOSITORY →
  ends (id ← (match existing with Some e => mret (ma_id e) | None => prefixedId "mat" end); now ← gets ea_now;
        store_materialization rid (ids_of (ea_materializationIds s) rid) (m id now)) s (λ _, tidy).
Proof.
  intros HT Hm He Hl. goes. apply (ends_named existing ma_id).
  - intros e Ee. destruct (He e Ee) as [Hin Er]. do 2 goes. destruct (Hm (ma_id e) (ea_now s)) as (Hp & Ei & Erid).
    destruct (tidy_replace s (m (ma_id e) (ea_now s)) e) as [HT' Hids]; [done|done|by rewrite Ei|congruence|].
    unfold store_materialization. do 3 goes. rewrite bool_decide_eq_true_2 by (by rewrite <-Erid). by do 2 goes.
  - intros _. do 2 goes. change (ea_now (next_draw s)) with (ea_now s).
    destruct (Hm (named "mat" (ea_draws s)) (ea_now s)) as (Hp & Ei & Erid).
    pose proof (tidy_add s _ HT Hp Ei) as Hadd. rewrite Ei, Erid in Hadd.
    unfold store_materialization. do 3 goes. rewrite Ei, bool_decide_eq_false_2.
    + do 2 goes; [|by apply Nat.ltb_ge in H0; lia]. do 2 goes. by apply Hadd.
    + intros Hin. destruct (ix_rec _ _ _ _ _ (ti_materializations _ HT) _ _ Hin) as (m' & Hm' & _).
      destruct (ti_fresh _ HT (ea_draws s)) as (_ & _ & E); [done|]. congruence.
Qed.

Lemma find_listed s p rid e :
  tidy s → find_materialization p (ids_of (ea_materializationIds s) rid) s = Some e →
  ea_materializations s !! ma_id e = Some e ∧ ma_repositoryId e = rid.
Proof.
  intros HT He. unfold find_materialization in He. apply head_Some_elem_of in He. apply list_elem_of_omap in He as (id & Hin & He).
  apply bind_Some in He as (m & Hm & He). destruct (_ && _); [|done]. injection He as ->.
  destruct (ix_rec _ _ _ _ _ (ti_materializations _ HT) _ _ Hin) as (m' & Hm' & Er). rewrite Hm in Hm'. injection Hm' as <-.
  destruct (ix_id _ _ _ _ _ (ti_materializations _ HT) _ _ Hm) as [-> _]. done.
Qed.

(** An identifier given with an upsert names a materialization of the same repository, and the
    repository has room for one more. *)
Definition upsert_ok (s : accounts) (input : MaterializationUpsertInput) : Prop :=
  (∀ m, truthy (mi_id input) = true → ea_materializations s !! default "" (mi_id input) = Some m →
     ma_repositoryId m = mi_repositoryId input) ∧
  length (ids_of (ea_materializationIds s) (mi_repositoryId input)) < MAX_MATERIALIZATIONS_PER_REPOSITORY.

Lemma or_else_Some {A} (a b : option A) x : or_else a b = Some x → a = Some x ∨ b = Some x.
Proof. destruct a; cbn; auto. Qed.

Lemma materialization_key s k m : tidy s → ea_materializations s !! k = Some m → ma_id m = k.
Proof. intros HT Hm. by apply (ix_id _ _ _ _ _ (ti_materializations _ HT)) in Hm as [? _]. Qed.

Lemma tidy_upsert userId deviceId input s : tidy s → upsert_ok s input → ends (upsertMaterialization userId deviceId input) s (λ _, tidy).
Proof.
  intros HT [Hid Hroom]. unfold upsertMaterialization, getRepositoryForUser. do 4 goes; [|done]. apply access_owner in H0 as [Hr Eo].
  do 4 goes; [|done]. do 6 goes.
  apply (tidy_store s _ (λ id now, {| ma_id := id; ma_repositoryId := mi_repositoryId input; ma_userId := userId; ma_deviceId := Some deviceId;
    ma_runtimeId := None; ma_workspaceId := mi_workspaceId input; ma_path := mi_path input; ma_platform := mi_platform input; ma_updatedAt := now |}));
    [done| | |done].
  - intros id now. split_and!; [|done|done]. split; [done|]. by exists a.1.
  - intros e [He|He]%or_else_Some; [|by eapply find_listed]. destruct (truthy (mi_id input)) eqn:Et; [|done].
    rewrite (materialization_key _ _ _ HT He). split; [done|by apply Hid].
Qed.

Lemma tidy_upsertRuntime userId runtimeId input s :
  tidy s → length (ids_of (ea_materializationIds s) (mi_repositoryId input)) < MAX_MATERIALIZATIONS_PER_REPOSITORY →
  ends (upsertRuntimeMaterialization userId runtimeId input) s (λ _, tidy).
Proof.
  intros HT Hroom. unfold upsertRuntimeMaterialization, getRepositoryForUser. do 4 goes; [|done]. apply access_owner in H0 as [Hr Eo].
  do 2 goes; [|done]. do 6 goes.
  apply (tidy_store s _ (λ id now, {| ma_id := id; ma_repositoryId := mi_repositoryId input; ma_userId := userId; ma_deviceId := None;
    ma_runtimeId := Some runtimeId; ma_workspaceId := mi_workspaceId input; ma_path := mi_path input; ma_platform := mi_platform input;
    ma_updatedAt := now |})); [done| | |done].
  - intros id now. split_and!; [|done|done]. split; [done|]. by exists a.1.
  - intros e [He|He]%or_else_Some; [|by eapply find_listed]. destruct (truthy (mi_id input)) eqn:Et; [|done].
    apply bind_Some in He as (c & Hc & He). destruct (_ && _) eqn:Eb; [|done]. injection He as ->. bool_inv.
    by rewrite (materialization_key _ _ _ HT Hc).
Qed.

Lemma tidy_deleteMaterialization userId rid mid s : tidy s → ends (deleteMaterialization userId rid mid) s (λ _, tidy).
Proof.
  intros HT. unfold deleteMaterialization, getRepositoryForUser. do 4 goes. destruct (ea_repositories s !! rid ≫= _); [|done].
  destruct (ea_materializations s !! mid) as [m|] eqn:Hm; [|done]. destruct (_ && _) eqn:Eb; [|done]. bool_inv. subst rid. do 5 goes.
  destruct HT as [I1 I2 I3 I4 I5 I6 I7 I8 I9 I10]. split; try done; cbn.
  - by apply ix_remove.
  - intros k m'. rewrite lookup_delete_Some. intros [_ ?]. by eapply I9.
  - intros n Hn. destruct (I10 n Hn) as (? & ? & ?). split_and!; [done|done|]. rewrite lookup_delete_None. by right.
Qed.

(** ** Migration *)

Lemma forall2_left {A B} (P : A → B → Prop) l k x : Forall2 P l k → x ∈ l → ∃ y, y ∈ k ∧ P x y.
Proof.
  induction 1 as [|a b l k HP _ IH]; [by intros ?%not_elem_of_nil|]. intros [->|Hx]%elem_of_cons; [exists b; by split; [left|]|].
  destruct (IH Hx) as (y & ? & ?). exists y. by split; [right|].
Qed.

Lemma forall2_right {A B} (P : A → B → Prop) l k y : Forall2 P l k → y ∈ k → ∃ x, x ∈ l ∧ P x y.
Proof. intros HF%Forall2_flip Hy. destruct (forall2_left _ _ _ _ HF Hy) as (x & ? & ?). by exists x. Qed.

Lemma elem_of_concat {A} (x : A) ls : x ∈ concat ls ↔ ∃ l, x ∈ l ∧ l ∈ ls.
Proof.
  induction ls as [|l ls IH]; cbn; [set_solver|]. rewrite elem_of_app, IH. setoid_rewrite elem_of_cons. naive_solver.
Qed.

(** [for (const r of l) await storage.put(key(r), f(r))] *)
Definition put_all {R} (key : R → string) (f : R → R) (l : list R) (m : gmap string R) : gmap string R :=
  fold_left (λ m r, <[key r := f r]> m) l m.

Lemma lookup_put_all {R} (key : R → string) (f : R → R) l (m0 acc : gmap string R) k :
  (∀ r, r ∈ l → m0 !! key r = Some r) →
  put_all key f l acc !! k = if decide (k ∈ map key l) then f <$> m0 !! k else acc !! k.
Proof.
  revert acc. induction l as [|r l IH]; intros acc Hl; [done|]. change (put_all key f (r :: l) acc) with (put_all key f l (<[key r := f r]> acc)). rewrite IH by set_solver.
  destruct (decide (k ∈ map key l)) as [Hk|Hk]; [by rewrite decide_True by (right; exact Hk)|].
  destruct (decide (key r = k)) as [<-|Hne].
  - rewrite lookup_insert_eq, decide_True by left. by rewrite (Hl r ltac:(left)).
  - rewrite lookup_insert_ne by done. rewrite decide_False; [done|]. by intros [->|?]%elem_of_cons.
Qed.

Lemma put_all_fmap {R} (key : R → string) (f : R → R) l (m : gmap string R) :
  (∀ r, r ∈ l → m !! key r = Some r) → (∀ k r, m !! k = Some r → key r = k ∧ r ∈ l) → put_all key f l m = f <$> m.
Proof.
  intros H1 H2. apply map_eq. intros k. rewrite (lookup_put_all key f l m m k H1), lookup_fmap.
  destruct (decide _) as [_|Hk]; [done|]. destruct (m !! k) as [r|] eqn:E; [|done]. destruct (H2 _ _ E) as [<- Hin].
  destruct Hk. by apply list_elem_of_fmap_2.
Qed.

Lemma each_repositories (f : StoredRepository → StoredRepository) l s :
  for_each (λ r, modify (on_repositories (<[re_id r := f r]>))) l s = (Ok tt : outcome account_error unit, on_repositories (put_all re_id f l) s).
Proof. revert s. induction l as [|r l IH]; intros s; [by destruct s|]. cbn. unfold mbind, io_bind. cbn. by rewrite IH. Qed.

Lemma each_materializations (f : StoredMaterialization → StoredMaterialization) l s :
  for_each (λ r, modify (on_materializations (<[ma_id r := f r]>))) l s = (Ok tt : outcome account_error unit, on_materializations (put_all ma_id f l) s).
Proof. revert s. induction l as [|r l IH]; intros s; [by destruct s|]. cbn. unfold mbind, io_bind. cbn. by rewrite IH. Qed.

Lemma each_devices (f : StoredDevice → StoredDevice) l s :
  for_each (λ r, modify (on_devices (<[de_id r := f r]>))) l s = (Ok tt : outcome account_error unit, on_devices (put_all de_id f l) s).
Proof. revert s. induction l as [|r l IH]; intros s; [by destruct s|]. cbn. unfold mbind, io_bind. cbn. by rewrite IH. Qed.

(** A loop of reads that all succeed. *)
Lemma collect_reads {A B} (P : A → B → Prop) (f : A → io accounts account_error B) l s :
  (∀ x, x ∈ l → ∃ y, f x s = (Ok y, s) ∧ P x y) → ∃ ys, for_collect f l s = (Ok ys, s) ∧ Forall2 P l ys.
Proof.
  induction l as [|x l IH]; intros Hf; [by exists []|]. destruct (Hf x ltac:(left)) as (y & Hy & HP).
  destruct IH as (ys & Hys & HF); [intros z Hz; apply Hf; by right|]. exists (y :: ys). split; [|by constructor].
  cbn. unfold mbind, io_bind. rewrite Hy, Hys. done.
Qed.

(** What is loaded of a repository. *)
Definition loaded_as (s : accounts) (rid : string) (l : StoredRepository * list StoredMaterialization) : Prop :=
  ea_repositories s !! rid = Some l.1 ∧ Forall2 (λ mid m, ea_materializations s !! mid = Some m) (ids_of (ea_materializationIds s) rid) l.2.

Lemma load_repositories s from :
  tidy s → ea_userIds s = [from] →
  ∃ loaded, for_collect (load_repository from) (ids_of (ea_repositoryIds s) from) s = (Ok loaded, s) ∧
    Forall2 (loaded_as s) (ids_of (ea_repositoryIds s) from) loaded.
Proof.
  intros HT Hu. apply collect_reads. intros rid Hin. destruct (ix_rec _ _ _ _ _ (ti_repositories _ HT) _ _ Hin) as (r & Hr & Eo).
  destruct (ti_owned _ HT _ _ Hr) as (_ & Hv & Hm).
  destruct (collect_reads (λ mid m, ea_materializations s !! mid = Some m) (λ id,
    m ← gets (λ s, ea_materializations s !! id);
    m ← require_some m MATERIALIZATION_INCOMPATIBLE;
    require (isMaterialization m && bool_decide (ma_repositoryId m = rid) && bool_decide (ma_userId m = from))
      MATERIALIZATION_INCOMPATIBLE;;
    mret m) (ids_of (ea_materializationIds s) rid) s) as (ms & Hms & HF).
  { intros mid Hmid. destruct (ix_rec _ _ _ _ _ (ti_materializations _ HT) _ _ Hmid) as (m & Hm' & Er).
    destruct (ti_material _ HT _ _ Hm') as (Hok & r' & Hr' & Eu). exists m. split; [|done]. rewrite Er, Hr in Hr'. injection Hr' as <-.
    unfold mbind, io_bind, gets. rewrite Hm'. cbn. rewrite Hok, !bool_decide_eq_true_2 by congruence. done. }
  exists (r, ms). split; [|done]. unfold load_repository, mbind, io_bind, gets in *. rewrite Hr. cbn. unfold repository_movable.
  rewrite Hv, Hm, Eo, !bool_decide_eq_true_2 by done. cbn. by rewrite Hms.
Qed.

Lemma load_devices s from :
  tidy s → ∃ devices, for_collect (load_device from) (ids_of (ea_deviceIds s) from) s = (Ok devices, s) ∧
    Forall2 (λ k d, ea_devices s !! k = Some d) (ids_of (ea_deviceIds s) from) devices.
Proof.
  intros HT. apply collect_reads. intros k Hin. destruct (ix_rec _ _ _ _ _ (ti_devices _ HT) _ _ Hin) as (d & Hd & Eu). exists d.
  split; [|done]. unfold load_device, mbind, io_bind, gets. rewrite Hd. cbn. by rewrite bool_decide_eq_true_2.
Qed.

Definition migrated_names (from : string) (source user : AccountUser) (names : gmap string string) : gmap string string :=
  let names' := <[us_normalizedName user := us_id user]> names in
  if bool_decide (us_normalizedName source = us_normalizedName user) then names'
  else if bool_decide (names' !! us_normalizedName source = Some from) then delete (us_normalizedName source) names' else names'.

(** The state after the migration of [from] to [user]. *)
Definition migrated (from : string) (source user : AccountUser) (s : accounts) : accounts := {|
  ea_userIds := [us_id user];
  ea_users := delete from (<[us_id user := User_v2 user]> (ea_users s));
  ea_names := migrated_names from source user (ea_names s);
  ea_repositoryIds := delete from (<[us_id user := ids_of (ea_repositoryIds s) from]> (ea_repositoryIds s));
  ea_repositories := reowned (us_id user) <$> ea_repositories s;
  ea_deviceIds := delete from (<[us_id user := ids_of (ea_deviceIds s) from]> (ea_deviceIds s));
  ea_devices := moved_device (us_id user) <$> ea_devices s;
  ea_materializationIds := ea_materializationIds s;
  ea_materializations := moved_materialization (us_id user) <$> ea_materializations s;
  ea_now := ea_now s;
  ea_draws := ea_draws s;
|}.

(** The loaded records are all there are. *)
Section loaded.
Context (from to : string) (s : accounts) (HT : tidy s) (Hu : ea_userIds s = [from]).
Context (loaded : list (StoredRepository * list StoredMaterialization)) (devices : list StoredDevice).
Context (HL : Forall2 (loaded_as s) (ids_of (ea_repositoryIds s) from) loaded).
Context (HD : Forall2 (λ k d, ea_devices s !! k = Some d) (ids_of (ea_deviceIds s) from) devices).

Lemma repository_listed k r : ea_repositories s !! k = Some r → re_id r = k ∧ k ∈ ids_of (ea_repositoryIds s) from.
Proof.
  intros Hr. destruct (ix_id _ _ _ _ _ (ti_repositories _ HT) _ _ Hr) as [Ek Hin]. split; [done|].
  destruct (ti_owned _ HT _ _ Hr) as (E & _). rewrite Hu in E. injection E as ->. done.
Qed.

Lemma put_repositories :
  put_all re_id (reowned to) (map fst loaded) (ea_repositories s) = reowned to <$> ea_repositories s.
Proof using All.
  apply put_all_fmap.
  - intros r (l & -> & Hl)%list_elem_of_fmap. destruct (forall2_right _ _ _ _ HL Hl) as (k & _ & Hk & _).
    by destruct (repository_listed _ _ Hk) as [-> _].
  - intros k r Hr. destruct (repository_listed _ _ Hr) as [Ek Hin]. split; [done|].
    destruct (forall2_left _ _ _ _ HL Hin) as (l & Hl & Hk & _). apply list_elem_of_fmap. exists l. split; [congruence|done].
Qed.

Lemma put_materializations :
  put_all ma_id (moved_materialization to) (concat (map snd loaded)) (ea_materializations s) =
  moved_materialization to <$> ea_materializations s.
Proof using All.
  apply put_all_fmap.
  - intros m (ms & Hms & (l & -> & Hl)%list_elem_of_fmap)%elem_of_concat. destruct (forall2_right _ _ _ _ HL Hl) as (k & _ & _ & HM).
    destruct (forall2_right _ _ _ _ HM Hms) as (mid & _ & Hmid). by rewrite (materialization_key _ _ _ HT Hmid).
  - intros k m Hm. destruct (ix_id _ _ _ _ _ (ti_materializations _ HT) _ _ Hm) as [Ek Hin]. split; [done|].
    destruct (ti_material _ HT _ _ Hm) as (_ & r & Hr & _). destruct (repository_listed _ _ Hr) as [_ Hrin].
    destruct (forall2_left _ _ _ _ HL Hrin) as (l & Hl & _ & HM). destruct (forall2_left _ _ _ _ HM Hin) as (m' & Hm' & E).
    rewrite Hm in E. injection E as <-. apply elem_of_concat. exists l.2. split; [done|]. by apply list_elem_of_fmap_2.
Qed.

Lemma put_devices : put_all de_id (moved_device to) devices (ea_devices s) = moved_device to <$> ea_devices s.
Proof using All.
  apply put_all_fmap.
  - intros d Hd. destruct (forall2_right _ _ _ _ HD Hd) as (k & _ & Hk). by rewrite (device_key _ _ _ HT Hk).
  - intros k d Hd. split; [by eapply device_key|]. destruct (ix_id _ _ _ _ _ (ti_devices _ HT) _ _ Hd) as [_ Hin].
    assert (de_userId d = from) as Eu by (apply (ti_device_user _ HT) in Hd; congruence). rewrite Eu in Hin.
    destruct (forall2_left _ _ _ _ HD Hin) as (d' & ? & ?). congruence.
Qed.

Lemma loaded_count : length (concat (map snd loaded)) =
  sum_list_with (λ r, length (ids_of (ea_materializationIds s) r)) (ids_of (ea_repositoryIds s) from).
Proof using All.
  clear HT Hu HD. revert HL. generalize (ids_of (ea_repositoryIds s) from). intros ids HF.
  induction HF as [|rid l ids ls [_ Hl] _ IH]; cbn; [done|]. rewrite length_app, IH. by rewrite (Forall2_length _ _ _ Hl).
Qed.
End loaded.

Lemma migrate_writes_run from source user s loaded devices :
  tidy s → ea_userIds s = [from] → Forall2 (loaded_as s) (ids_of (ea_repositoryIds s) from) loaded →
  Forall2 (λ k d, ea_devices s !! k = Some d) (ids_of (ea_deviceIds s) from) devices →
  migrate_writes from source user (ids_of (ea_repositoryIds s) from) (ids_of (ea_deviceIds s) from)
    (map fst loaded) (concat (map snd loaded)) devices s = (Ok tt, migrated from source user s).
Proof.
  intros HT Hu HL HD. unfold migrate_writes, mbind, io_bind. cbn. rewrite each_repositories, each_materializations, each_devices. cbn.
  unfold migrated, migrated_names. rewrite <-(put_repositories from (us_id user) s HT Hu loaded devices HL HD),
    <-(put_materializations from (us_id user) s HT Hu loaded devices HL HD), <-(put_devices from (us_id user) s HT Hu loaded devices HL HD).
  repeat case_bool_decide; try done.
Qed.

Lemma migrated_tidy from source user s :
  tidy s → ea_userIds s = [from] → from ≠ us_id user → tidy (migrated from source user s).
Proof.
  intros [I1 I2 I3 I4 I5 I6 I7 I8 I9 I10] Hu Hne. split; cbn.
  - intros k u. rewrite lookup_delete_Some, lookup_insert_Some. intros [Hk [[<- <-]|[_ Hv]]]; [done|].
    apply I1 in Hv as [_ Hv]. congruence.
  - right. exists (us_id user). split; [done|]. rewrite lookup_delete_ne by done. by rewrite lookup_insert_eq.
  - apply ix_move; [done|done| |done]. intros k r Hr. destruct (I6 _ _ Hr) as (E & _). congruence.
  - apply ix_move; [done|done| |done]. intros k d Hd. apply I8 in Hd. congruence.
  - by apply ix_map.
  - intros k r'. rewrite lookup_fmap_Some. by intros (r & <- & Hr).
  - intros k k' r1 r2. rewrite !lookup_fmap_Some. intros (a & <- & Ha) (b & <- & Hb) E. by eapply I7.
  - intros k d'. rewrite lookup_fmap_Some. by intros (d & <- & _).
  - intros k m'. rewrite lookup_fmap_Some. intros (m & <- & Hm). destruct (I9 _ _ Hm) as (Hok & r & Hr & _). split; [done|].
    exists (reowned (us_id user) r). split; [|done]. cbn. by rewrite lookup_fmap, Hr.
  - intros n Hn. destruct (I10 n Hn) as (E1 & E2 & E3). by rewrite !lookup_fmap, E1, E2, E3.
Qed.

(** Steps that succeed. *)
Lemma run_gets {A B} (f : accounts → A) (k : A → io accounts account_error B) s : (gets f ≫= k) s = k (f s) s.
Proof. done. Qed.

Lemma run_require {B} (b : bool) e (k : unit → io accounts account_error B) s : b = true → (require b e ≫= k) s = k tt s.
Proof. by intros ->. Qed.

Lemma run_some {A B} (o : option A) e a (k : A → io accounts account_error B) s : o = Some a → (require_some o e ≫= k) s = k a s.
Proof. by intros ->. Qed.

(** What the migration does when its checks pass. *)
Lemma migrate_run from to displayName createdAt s source :
  tidy s → ea_userIds s = [from] → user_of s from = Some source → from ≠ to →
  user_id_ok from = true → user_id_ok to = true → timestamp_ok createdAt = true →
  let name := normalizeName (trim displayName) in
  let user := {| us_id := to; us_displayName := trim displayName; us_normalizedName := name; us_createdAt := createdAt |} in
  name_ok name = true → negb (truthy (ea_names s !! name)) || bool_decide (ea_names s !! name = Some from) = true →
  migrateSingleUserIdentityDirect from to displayName createdAt s =
    (Ok {| mr_user := user; mr_repositoryCount := length (ids_of (ea_repositoryIds s) from);
           mr_deviceCount := length (ids_of (ea_deviceIds s) from);
           mr_materializationCount := sum_list_with (λ r, length (ids_of (ea_materializationIds s) r)) (ids_of (ea_repositoryIds s) from);
           mr_alreadyMigrated := false |}, migrated from source user s).
Proof.
  intros HT Hu Hs Hne H1 H2 H3 name user H4 H5. destruct (load_repositories s from HT Hu) as (loaded & HR & HL).
  destruct (load_devices s from HT) as (devices & HDr & HD). pose proof (migrate_writes_run from source user s loaded devices HT Hu HL HD) as HW.
  assert (us_id source = from) as Eid. { apply fmap_Some in Hs as (v & Hv & ->). by apply (ti_users _ HT) in Hv as [? _]. }
  assert (ea_users s !! to = None) as Ht.
  { destruct (ea_users s !! to) as [v|] eqn:E; [|done]. apply (ti_users _ HT) in E as [_ E]. congruence. }
  unfold migrateSingleUserIdentityDirect, getUser. rewrite !run_require by (try apply negb_true_iff, bool_decide_eq_false_2; done).
  rewrite run_gets, Hu, bool_decide_eq_false_2 by congruence. rewrite run_require by (by apply bool_decide_eq_true_2).
  rewrite run_gets, (run_some _ _ _ _ _ Hs), run_require by (by apply bool_decide_eq_true_2). rewrite run_gets, Ht, run_require by done.
  rewrite run_gets, run_require by exact H5. rewrite run_gets, (bind_run _ _ _ _ _ HR), run_gets, (bind_run _ _ _ _ _ HDr).
  rewrite (bind_run _ _ _ _ _ HW). unfold mret, io_ret.
  rewrite <-(Forall2_length _ _ _ HL), <-(Forall2_length _ _ _ HD). by rewrite (loaded_count from to s HT Hu loaded devices HL HD).
Qed.

(** The answer after the migration. *)
Lemma already_run from to displayName createdAt s user :
  user_id_ok from = true → user_id_ok to = true → from ≠ to → timestamp_ok createdAt = true →
  name_ok (normalizeName (trim displayName)) = true → ea_userIds s = [to] → user_of s to = Some user → user_of s from = None →
  us_displayName user = trim displayName → us_createdAt user = createdAt → 
  migrateSingleUserIdentityDirect from to displayName createdAt s =
    (Ok {| mr_user := user; mr_repositoryCount := length (ids_of (ea_repositoryIds s) (us_id user));
           mr_deviceCount := length (ids_of (ea_deviceIds s) (us_id user));
           mr_materializationCount :=
             sum_list_with (λ r, length (ids_of (ea_materializationIds s) r)) (ids_of (ea_repositoryIds s) (us_id user));
           mr_alreadyMigrated := true |}, s).
Proof.
  intros H1 H2 Hne H3 H4 Hu Ht Hf E1 E2. unfold migrateSingleUserIdentityDirect.
  rewrite !run_require by (try apply negb_true_iff, bool_decide_eq_false_2; done). rewrite run_gets, Hu, bool_decide_eq_true_2 by done.
  unfold already_migrated, getUser, identityBindingCounts. rewrite run_gets. cbn [us_id]. rewrite (run_some _ _ _ _ _ Ht), run_gets, Hf.
  rewrite run_require by (cbn; rewrite E1, E2, !bool_decide_eq_true_2 by done; done). by rewrite run_gets.
Qed.

Lemma ends_run {A} (m : io accounts account_error A) s r s' (Q : outcome account_error A → accounts → Prop) :
  m s = (r, s') → Q r s' → ends m s Q.
Proof. unfold ends. by intros ->. Qed.

(** The migration throws or answers without a change, or does all its writes. *)
Lemma migrate_ends from to displayName createdAt s :
  tidy s → ends (migrateSingleUserIdentityDirect from to displayName createdAt) s
    (λ r s', s' = s ∨ ∃ source user a, r = Ok a ∧ ea_userIds s = [from] ∧ from ≠ us_id user ∧ s' = migrated from source user s).
Proof.
  intros HT. assert (∀ (P : Prop), s = s ∨ P) as Hs by by left.
  unfold migrateSingleUserIdentityDirect, getUser. do 2 goes; [|done]. do 2 goes; [|done]. do 2 goes; [|done]. do 2 goes; [|done].
  do 2 goes; [|done]. do 2 goes. destruct (bool_decide (ea_userIds s = [to])).
  - unfold already_migrated, getUser, identityBindingCounts. do 4 goes; [|done]. do 4 goes; [|done]. by do 3 goes.
  - do 2 goes; [|done]. do 4 goes; [|done]. do 2 goes; [|done]. do 4 goes; [|done]. do 4 goes; [|done]. bool_inv.
    destruct (load_repositories s from HT) as (loaded & HR & HL); [done|]. destruct (load_devices s from HT) as (devices & HDr & HD).
    do 3 goes. eapply ends_run; [exact HR|]. cbv beta iota. do 3 goes. eapply ends_run; [exact HDr|]. cbv beta iota. goes.
    eapply ends_run; [by apply migrate_writes_run|]. right. eexists _, _, _. split_and!; [done|done| |done]. done.
Qed.

Lemma migrate_changes transactional from to displayName createdAt s :
  tidy s → ends (migrateSingleUserIdentity transactional from to displayName createdAt) s
    (λ _ s', s' = s ∨ ∃ source user, ea_userIds s = [from] ∧ from ≠ us_id user ∧ s' = migrated from source user s).
Proof.
  intros HT. pose proof (migrate_ends from to displayName createdAt s HT) as Hm. revert Hm. unfold ends, migrateSingleUserIdentity.
  destruct (migrateSingleUserIdentityDirect _ _ _ _ s) as [[r|e] s']; cbn; [naive_solver|]. destruct transactional; naive_solver.
Qed.

Lemma tidy_migrate transactional from to displayName createdAt s :
  tidy s → ends (migrateSingleUserIdentity transactional from to displayName createdAt) s (λ _, tidy).
Proof.
  intros HT. eapply ends_mono; [|by apply migrate_changes]. intros r s' [->|(source & user & ? & ? & ->)]; [done|by apply migrated_tidy].
Qed.

(** ** Reconciliation *)

(** A loop whose turns succeed: each keeps [P], moves along [R] and achieves [D], which [R] keeps. *)
Lemma ends_each_all {A} (P : accounts → Prop) (R : accounts → accounts → Prop) `{!PreOrder R} (D : A → accounts → Prop)
    (f : A → io accounts account_error unit) l s :
  P s → (∀ x s s', R s s' → D x s → D x s') →
  (∀ x s1, x ∈ l → P s1 → R s s1 → ends (f x) s1 (λ r s', r = Ok tt ∧ P s' ∧ R s1 s' ∧ D x s')) →
  ends (for_each f l) s (λ r s', r = Ok tt ∧ P s' ∧ R s s' ∧ ∀ x, x ∈ l → D x s').
Proof.
  intros HP HD. revert s HP. induction l as [|x l IH]; intros s HP Hf.
  - cbn. goes. split_and!; [done|done|done|]. by intros x ?%not_elem_of_nil.
  - cbn. goes. pose proof (Hf x s ltac:(left) HP ltac:(done)) as (Er & HP1 & HR1 & HD1). unfold ends.
    destruct (f x s) as [r s1]. cbn in *. subst r. cbn.
    destruct (IH s1 HP1) as (Er & HP2 & HR2 & HD2).
    { intros y s2 Hy HP2 HR2. apply Hf; [by right|done|by etransitivity]. }
    split_and!; [done|done|by etransitivity|]. intros y [->|Hy]%elem_of_cons; [by eapply HD|by apply HD2].
Qed.

Section reconcile.
Context (userId deviceId : string) (keys : list (string * string)).

(** A materialization on the device that is not announced. *)
Definition stale (m : StoredMaterialization) : bool :=
  bool_decide (ma_deviceId m = Some deviceId) && negb (bool_decide ((ma_repositoryId m, ma_workspaceId m) ∈ keys)).

(** Only stale materializations went. *)
Record pruned (s s' : accounts) : Prop := {
  pr_users : ea_userIds s' = ea_userIds s;
  pr_repositories : ea_repositories s' = ea_repositories s;
  pr_devices : ea_devices s' = ea_devices s;
  pr_less : ea_materializations s' ⊆ ea_materializations s;
  pr_kept k m : ea_materializations s !! k = Some m → stale m = false → ea_materializations s' !! k = Some m;
  pr_length g : length (ids_of (ea_materializationIds s') g) ≤ length (ids_of (ea_materializationIds s) g);
}.

#[global] Instance pruned_preorder : PreOrder pruned.
Proof.
  split; [by intros s; split|]. intros s1 s2 s3 [A1 A2 A3 A4 A5 A6] [B1 B2 B3 B4 B5 B6].
  split; [congruence..|by etransitivity|by eauto|]. intros g. specialize (A6 g). specialize (B6 g). lia.
Qed.

Lemma removeValue_length g k idx g' : length (ids_of (removeValue g k idx) g') ≤ length (ids_of idx g').
Proof. rewrite removeValue_ids. destruct (decide _); [apply sublist_length, without_sublist|done]. Qed.

Lemma delete_stale s m :
  tidy s → ea_userIds s = [userId] → stale m = true → ea_materializations s !! ma_id m = Some m ∨ ea_materializations s !! ma_id m = None →
  ends (deleteMaterialization userId (ma_repositoryId m) (ma_id m)) s (λ r s', (∃ b, r = Ok b) ∧ tidy s' ∧ pruned s s' ∧
    ea_materializations s' !! ma_id m = None).
Proof.
  intros HT Hu Hst Hm. pose proof (tidy_deleteMaterialization userId (ma_repositoryId m) (ma_id m) s HT) as HT'. revert HT'.
  unfold ends, deleteMaterialization, getRepositoryForUser, mbind, io_bind, gets. cbn. destruct Hm as [Hm|Hm]; rewrite Hm; cbn.
  - destruct (ti_material _ HT _ _ Hm) as (Hok & r & Hr & Eo). destruct (ti_owned _ HT _ _ Hr) as (Er & _).
    assert (re_ownerUserId r = userId) as Eu by congruence. rewrite Hr. cbn. unfold roleFor. rewrite bool_decide_eq_true_2 by done. cbn.
    rewrite Hok, !bool_decide_eq_true_2 by congruence. cbn. intros HT'. split_and!; [by eexists|done| |by rewrite lookup_delete_eq].
    split; try done; cbn.
    + apply delete_subseteq.
    + intros k m' Hk Hst'. rewrite lookup_delete_ne; [done|]. intros <-. congruence.
    + intros g. apply removeValue_length.
  - intros _. destruct (ea_repositories s !! ma_repositoryId m) as [r|]; cbn; [destruct (roleFor r userId); cbn|];
      (split_and!; [by eexists|done|done|done]).
Qed.

(** The materializations of a repository that are listed. *)
Lemma listed_materialization s rid m :
  tidy s → m ∈ materializations_of s rid ↔ ea_materializations s !! ma_id m = Some m ∧ ma_repositoryId m = rid.
Proof.
  intros HT. unfold materializations_of. rewrite list_elem_of_omap. split.
  - intros (k & Hk & (m' & Hm & Hc)%bind_Some). destruct (isMaterialization m'); [|done]. injection Hc as ->.
    destruct (ix_rec _ _ _ _ _ (ti_materializations _ HT) _ _ Hk) as (m' & Hm' & Er). rewrite (materialization_key _ _ _ HT Hm).
    split; [done|congruence].
  - intros [Hm Er]. exists (ma_id m). destruct (ix_id _ _ _ _ _ (ti_materializations _ HT) _ _ Hm) as [_ Hin]. rewrite Er in Hin.
    split; [done|]. rewrite Hm. cbn. by destruct (ti_material _ HT _ _ Hm) as [-> _].
Qed.

(** One repository of the first loop. *)
Definition prune_repository (access : StoredRepository * RepositoryRole) : io accounts account_error unit :=
  current ← listMaterializations userId (re_id access.1);
  for_each (λ m,
    if bool_decide (ma_deviceId m = Some deviceId) && negb (bool_decide ((ma_repositoryId m, ma_workspaceId m) ∈ keys))
    then _ ← deleteMaterialization userId (ma_repositoryId m) (ma_id m); mret tt
    else mret tt) current.

Definition clean (rid : string) (s : accounts) : Prop :=
  ∀ k m, ea_materializations s !! k = Some m → ma_repositoryId m = rid → stale m = false.

Lemma prune_repository_ends access s :
  tidy s → ea_userIds s = [userId] → ea_repositories s !! re_id access.1 = Some access.1 →
  ends (prune_repository access) s (λ r s', r = Ok tt ∧ (tidy s' ∧ ea_userIds s' = [userId]) ∧ pruned s s' ∧ clean (re_id access.1) s').
Proof.
  intros HT Hu Hr. unfold prune_repository, listMaterializations, getRepositoryForUser. do 3 goes. rewrite Hr. cbn [mbind option_bind].
  destruct (ti_owned _ HT _ _ Hr) as (Eo & _). unfold roleFor. rewrite bool_decide_eq_true_2 by congruence. cbn [mbind option_bind]. goes.
  eapply ends_mono; [|apply (ends_each_all (λ s', tidy s' ∧ ea_userIds s' = [userId]) pruned
    (λ m s', stale m = true → ea_materializations s' !! ma_id m = None))].
  - intros r s' (-> & HP & HR & HD). split_and!; [done|apply HP|apply HP|done|]. intros k m Hm Em.
    destruct (stale m) eqn:Est; [|done]. pose proof (lookup_weaken _ _ _ _ Hm (pr_less _ _ HR)) as Hm0.
    pose proof (materialization_key _ _ _ HT Hm0) as Ek. rewrite <-Ek in Hm0, Hm.
    rewrite (HD m) in Hm; [done| |done]. by apply listed_materialization.
  - done.
  - intros m s1 s2 HR HD Hst. eapply lookup_weaken_None; [by apply HD|apply HR].
  - intros m s1 Hm [HT1 Hu1] HR1. fold (stale m). destruct (stale m) eqn:Est; [|by goes].
    apply listed_materialization in Hm as [Hm _]; [|done]. goes. eapply ends_mono; [|apply (delete_stale s1 m HT1 Hu1 Est)].
    + intros r s' ((b & ->) & HT2 & HR2 & Hn). goes. split_and!; [done|done| |done|done]. by rewrite (pr_users _ _ HR2).
    + destruct (ea_materializations s1 !! ma_id m) as [m'|] eqn:E; [left|by right].
      pose proof (lookup_weaken _ _ _ _ E (pr_less _ _ HR1)). congruence.
Qed.

(** What an announcement became. *)
Record announced (input : MaterializationUpsertInput) (m : StoredMaterialization) : Prop := {
  an_device : ma_deviceId m = Some deviceId;
  an_user : ma_userId m = userId;
  an_key : (ma_repositoryId m, ma_workspaceId m) = input_key input;
  an_path : ma_path m = mi_path input;
  an_platform : ma_platform m = mi_platform input;
}.

(** The rest of the store while materializations change, with at most [n] more of each repository. *)
Record same_rest (n : nat) (s s' : accounts) : Prop := {
  sr_users : ea_userIds s' = ea_userIds s;
  sr_repositories : ea_repositories s' = ea_repositories s;
  sr_devices : ea_devices s' = ea_devices s;
  sr_length g : length (ids_of (ea_materializationIds s') g) ≤ n + length (ids_of (ea_materializationIds s) g);
}.

Lemma find_device s ids ws e :
  findMaterialization ids deviceId ws s = Some e → ma_deviceId e = Some deviceId ∧ ma_workspaceId e = ws.
Proof.
  unfold findMaterialization, find_materialization. intros He%head_Some_elem_of. apply list_elem_of_omap in He as (id & _ & He).
  apply bind_Some in He as (m & _ & He). destruct (_ && _) eqn:E; [|done]. injection He as ->. bool_inv. done.
Qed.

Lemma upsert_places s input d r :
  tidy s → active_device s userId deviceId = Some d → ea_repositories s !! mi_repositoryId input = Some r → re_ownerUserId r = userId →
  truthy (mi_id input) = false →
  length (ids_of (ea_materializationIds s) (mi_repositoryId input)) < MAX_MATERIALIZATIONS_PER_REPOSITORY →
  ends (upsertMaterialization userId deviceId input) s (λ r s', ∃ m, r = Ok m ∧ tidy s' ∧ announced input m ∧ same_rest 1 s s' ∧
    ea_materializations s' = <[ma_id m := m]> (ea_materializations s) ∧
    ∀ e, ea_materializations s !! ma_id m = Some e → ma_deviceId e = Some deviceId ∧ (ma_repositoryId e, ma_workspaceId e) = input_key input).
Proof.
  intros HT Hd Hr Eo Hid Hroom. assert (upsert_ok s input) as Hok by (split; [by rewrite Hid|done]).
  pose proof (tidy_upsert userId deviceId input s HT Hok) as HT'. revert HT'. unfold ends, upsertMaterialization, getRepositoryForUser.
  rewrite run_gets, Hr. cbn [mbind option_bind]. unfold roleFor. rewrite bool_decide_eq_true_2 by done. cbn [mbind option_bind].
  rewrite (run_some _ _ _ _ _ eq_refl), run_gets, Hd, (run_some _ _ _ _ _ eq_refl), !run_gets, Hid. cbn [or_else].
  set (ids := ids_of (ea_materializationIds s) (mi_repositoryId input)).
  destruct (findMaterialization ids deviceId (mi_workspaceId input) s) as [e|] eqn:Ef.
  - destruct (find_device _ _ _ _ Ef) as [Ed Ew]. destruct (find_listed _ _ _ _ HT Ef) as [He Er].
    destruct (ix_id _ _ _ _ _ (ti_materializations _ HT) _ _ He) as [_ Hin]. rewrite Er in Hin.
    unfold store_materialization, mbind, io_bind, mret, io_ret, modify, gets. cbn. fold ids in Hin. rewrite bool_decide_eq_true_2 by done.
    cbn. intros HT'. eexists. split; [done|]. split; [done|]. split; [done|]. split; [split; [done..|cbn; lia]|]. split; [done|].
    cbn. intros e' He'. rewrite He in He'. injection He' as <-. split; [done|]. unfold input_key. congruence.
  - unfold prefixedId, store_materialization, mbind, io_bind, mret, io_ret, modify, gets. cbn. fold (named "mat" (ea_draws s)).
    destruct (ti_fresh _ HT (ea_draws s)) as (_ & _ & Hn); [done|]. rewrite bool_decide_eq_false_2.
    + unfold require. rewrite (proj2 (Nat.ltb_lt (length ids) _) Hroom). cbn. intros HT'. eexists. split; [done|]. split; [done|]. split; [done|].
      split; [split; [done..|]|split; [done|]].
      * intros g. cbn. destruct (decide (mi_repositoryId input = g)) as [<-|]; [rewrite ids_of_insert, length_app; cbn; unfold ids; lia|].
        rewrite ids_of_insert_ne by done. lia.
      * cbn. intros e He. congruence.
    + intros Hin. destruct (ix_rec _ _ _ _ _ (ti_materializations _ HT) _ _ Hin) as (m & Hm & _). congruence.
Qed.

(** The announcements, one after the other. *)
Lemma upserts_place desired s d :
  tidy s → active_device s userId deviceId = Some d → NoDup (map input_key desired) →
  (∀ input, input ∈ desired → truthy (mi_id input) = false ∧
     (∃ r, ea_repositories s !! mi_repositoryId input = Some r ∧ re_ownerUserId r = userId) ∧
     length (ids_of (ea_materializationIds s) (mi_repositoryId input)) + length desired ≤ MAX_MATERIALIZATIONS_PER_REPOSITORY) →
  ends (for_collect (upsertMaterialization userId deviceId) desired) s (λ r s', ∃ ms, r = Ok ms ∧ tidy s' ∧
    Forall2 (λ input m, announced input m ∧ ea_materializations s' !! ma_id m = Some m) desired ms ∧
    (∀ k m, ea_materializations s' !! k = Some m → ea_materializations s !! k = Some m ∨
       ma_deviceId m = Some deviceId ∧ (ma_repositoryId m, ma_workspaceId m) ∈ map input_key desired) ∧
    (∀ k m, ea_materializations s !! k = Some m → ma_deviceId m ≠ Some deviceId ∨ (ma_repositoryId m, ma_workspaceId m) ∉ map input_key desired →
       ea_materializations s' !! k = Some m)).
Proof.
  revert s. induction desired as [|input desired IH]; intros s HT Hd Hnd Hall.
  - cbn. goes. exists []. split_and!; [done|done|constructor|by left|done].
  - cbn in Hnd. apply NoDup_cons in Hnd as [Hnew Hnd]. destruct (Hall input ltac:(left)) as (Hid & (r & Hr & Eo) & Hroom). cbn in Hroom.
    pose proof (upsert_places s input d r HT Hd Hr Eo Hid ltac:(lia)) as (m & Em & HT1 & Han & [S1 S2 S3 S4] & Emats & Hold).
    cbn. goes. unfold ends. destruct (upsertMaterialization userId deviceId input s) as [o s1]. cbn in *. subst o. cbn.
    destruct (IH s1) as (ms & Ems & HT2 & HF & Hnewer & Hkeep); [done|unfold active_device in *; by rewrite S3|done| |].
    { intros input' Hin. destruct (Hall input' ltac:(by right)) as (? & ? & Hroom'). rewrite S2. split_and!; [done|done|].
      specialize (S4 (mi_repositoryId input')). cbn in Hroom'. lia. }
    unfold mbind, io_bind. destruct (for_collect (upsertMaterialization userId deviceId) desired s1) as [o s2]. cbn in *. subst o. cbn.
    exists (m :: ms). pose proof (an_key _ _ Han) as Ek. split_and!; [done|done| | |].
    + constructor; [|done]. split; [done|]. apply Hkeep; [by rewrite Emats, lookup_insert_eq|]. right. by rewrite Ek.
    + intros k m' Hm'. destruct (Hnewer _ _ Hm') as [Hm1|[? ?]]; [|right; set_solver]. rewrite Emats, lookup_insert_Some in Hm1.
      destruct Hm1 as [[_ <-]|[_ ?]]; [right|by left]. split; [apply Han|]. rewrite Ek. set_solver.
    + intros k m' Hm' Hor. apply Hkeep; [|set_solver]. rewrite Emats. destruct (decide (ma_id m = k)) as [<-|]; [|by rewrite lookup_insert_ne].
      destruct (Hold _ Hm') as [Ed' Ek']. destruct Hor as [?|Hni]; [done|]. rewrite Ek' in Hni. set_solver.
Qed.
End reconcile.

Definition owns (s : accounts) (userId rid : string) : Prop :=
  ∃ r, ea_repositories s !! rid = Some r ∧ re_ownerUserId r = userId.

Lemma access_some s userId rid :
  is_Some (r ← ea_repositories s !! rid; role ← roleFor r userId; Some (r, role)) ↔ owns s userId rid.
Proof.
  split.
  - intros [a Ha]. apply access_owner in Ha as [? ?]. by exists a.1.
  - intros (r & Hr & Eo). rewrite Hr. cbn. unfold roleFor. rewrite bool_decide_eq_true_2 by done. by eexists.
Qed.

(** The announcements pass the checks exactly when they are distinct and for repositories of the user. *)
Lemma check_desired_ends userId seen_keys desired s :
  ends (check_desired userId seen_keys desired) s (λ r s', s' = s ∧ (r = Ok tt ↔ NoDup (map input_key desired) ∧
    (∀ key, key ∈ map input_key desired → key ∉ seen_keys) ∧ ∀ input, input ∈ desired → owns s userId (mi_repositoryId input))).
Proof.
  revert seen_keys. induction desired as [|input desired IH]; intros seen_keys; cbn.
  - goes. split; [done|]. split; [|done]. intros _. split_and!; [constructor|set_solver|set_solver].
  - do 2 goes.
    + unfold getRepositoryForUser. do 4 goes.
      * eapply ends_mono; [|apply (IH (input_key input :: seen_keys))]. intros r s' [-> Hr]. split; [done|]. rewrite Hr, NoDup_cons. bool_inv.
        assert (owns s userId (mi_repositoryId input)) as Ho by (apply access_some; by eexists). setoid_rewrite elem_of_cons. clear Hr.
        split; [intros (H2 & H3 & H4)|intros ([H2 H5] & H3 & H4)]; split_and!; naive_solver.
      * split; [done|]. split; [done|]. intros (_ & _ & Ho). destruct (proj2 (access_some s userId (mi_repositoryId input))) as [a Ha]; [apply Ho; left|].
        congruence.
    + split; [done|]. split; [done|]. intros (_ & Hs & _). bool_inv. destruct (Hs (input_key input)); [left|done].
Qed.

Lemma insert_by_elem {A} (f : A → string) x y l : x ∈ insert_by f y l ↔ x = y ∨ x ∈ l.
Proof. induction l as [|z l IH]; cbn; [set_solver|]. destruct (locale_le _ _); set_solver. Qed.

Lemma sort_by_elem {A} (f : A → string) x l : x ∈ sort_by f l ↔ x ∈ l.
Proof. unfold sort_by. induction l as [|y l IH]; cbn; [done|]. rewrite insert_by_elem, IH. set_solver. Qed.

Lemma listed_repository s userId a :
  tidy s → a ∈ sort_by (λ a, re_name a.1) (omap (λ id, r ← ea_repositories s !! id; role ← roleFor r userId; Some (r, role))
    (ids_of (ea_repositoryIds s) userId)) ↔
  ea_repositories s !! re_id a.1 = Some a.1 ∧ re_ownerUserId a.1 = userId ∧ a.2 = role_owner.
Proof.
  intros HT. rewrite sort_by_elem, list_elem_of_omap. split.
  - intros (id & Hin & Ha). pose proof Ha as Ha'. apply access_owner in Ha as [Hr Eo].
    destruct (ix_id _ _ _ _ _ (ti_repositories _ HT) _ _ Hr) as [-> _]. rewrite Hr in Ha'. cbn in Ha'. unfold roleFor in Ha'.
    rewrite bool_decide_eq_true_2 in Ha' by done. cbn in Ha'. injection Ha' as <-. done.
  - intros (Hr & Eo & Er). exists (re_id a.1). destruct (ix_id _ _ _ _ _ (ti_repositories _ HT) _ _ Hr) as [_ Hin]. rewrite Eo in Hin.
    split; [done|]. rewrite Hr. cbn. unfold roleFor. rewrite bool_decide_eq_true_2 by done. cbn. destruct a. cbn in *. by subst.
Qed.

(** What may be announced: without identifiers, distinct, for repositories of the user that have room. *)
Record announceable (s : accounts) (userId : string) (desired : list MaterializationUpsertInput) : Prop := {
  ab_id input : input ∈ desired → truthy (mi_id input) = false;
  ab_room input : input ∈ desired →
    length (ids_of (ea_materializationIds s) (mi_repositoryId input)) + length desired ≤ MAX_MATERIALIZATIONS_PER_REPOSITORY;
}.

(** After the first loop nothing is stale. *)
Lemma clean_all userId deviceId keys s s1 :
  tidy s → tidy s1 → ea_userIds s1 = [userId] → pruned deviceId keys s s1 →
  (∀ a, a ∈ sort_by (λ a : StoredRepository * RepositoryRole, re_name a.1)
      (omap (λ id, r ← ea_repositories s !! id; role ← roleFor r userId; Some (r, role)) (ids_of (ea_repositoryIds s) userId)) →
    clean deviceId keys (re_id a.1) s1) →
  ∀ k m, ea_materializations s1 !! k = Some m → stale deviceId keys m = false.
Proof.
  intros HT HT1 Hu1 HR Hclean k m Hm. destruct (ti_material _ HT1 _ _ Hm) as (_ & r & Hr & Eo). destruct (ti_owned _ HT1 _ _ Hr) as (E & _).
  apply (Hclean (r, role_owner)) with k; [|done|]; cbn.
  - apply listed_repository; [done|]. cbn. rewrite (pr_repositories _ _ _ _ HR) in Hr.
    destruct (ix_id _ _ _ _ _ (ti_repositories _ HT) _ _ Hr) as [-> _]. split_and!; [done|congruence|done].
  - by destruct (ix_id _ _ _ _ _ (ti_repositories _ HT1) _ _ Hr) as [-> _].
Qed.

(** The outcome of a reconciliation that passes the checks. *)
Lemma reconcile_ends userId deviceId desired s d :
  tidy s → active_device s userId deviceId = Some d → announceable s userId desired → NoDup (map input_key desired) →
  (∀ input, input ∈ desired → owns s userId (mi_repositoryId input)) →
  ends (reconcileDeviceMaterializations userId deviceId desired) s (λ r s', ∃ ms, r = Ok ms ∧ tidy s' ∧
    Forall2 (λ input m, announced userId deviceId input m ∧ ea_materializations s' !! ma_id m = Some m) desired ms ∧
    (∀ k m, ea_materializations s' !! k = Some m → ma_deviceId m = Some deviceId →
       (ma_repositoryId m, ma_workspaceId m) ∈ map input_key desired) ∧
    (∀ k m, ma_deviceId m ≠ Some deviceId → ea_materializations s' !! k = Some m ↔ ea_materializations s !! k = Some m)).
Proof.
  intros HT Hd [Hid Hroom] Hnd Hown. assert (ea_userIds s = [userId]) as Hu.
  { apply active_found in Hd as (Hd & <- & _). by eapply ti_device_user. }
  unfold reconcileDeviceMaterializations. do 4 goes; [|congruence]. goes. eapply ends_mono; [|apply check_desired_ends].
  intros r s' [-> Hc]. assert (r = Ok tt) as -> by (apply Hc; split_and!; [done|set_solver|done]). unfold listRepositories. do 3 goes.
  fold (prune_repository userId deviceId (map input_key desired)). set (keys := map input_key desired).
  eapply ends_mono; [|apply (ends_each_all (λ s', tidy s' ∧ ea_userIds s' = [userId]) (pruned deviceId keys)
    (λ a s', clean deviceId keys (re_id a.1) s'))].
  - intros r s1 (-> & [HT1 Hu1] & HR & Hclean).
    pose proof (clean_all userId deviceId keys s s1 HT HT1 Hu1 HR Hclean) as Hnone.
    eapply ends_mono; [|apply (upserts_place userId deviceId desired s1 d HT1)].
    + intros r s2 (ms & -> & HT2 & HF & Hnew & Hkeep). exists ms. split_and!; [done|done|done| |].
      * intros k m Hm Ed. destruct (Hnew _ _ Hm) as [Hm1|[_ ?]]; [|done]. specialize (Hnone _ _ Hm1). unfold stale in Hnone.
        rewrite bool_decide_eq_true_2 in Hnone by done. cbn in Hnone. by bool_inv.
      * intros k m Ed. split.
        -- intros Hm. destruct (Hnew _ _ Hm) as [Hm1|[? _]]; [|done]. eapply lookup_weaken; [exact Hm1|apply HR].
        -- intros Hm. apply Hkeep; [|by left]. apply (pr_kept _ _ _ _ HR); [done|]. unfold stale. by rewrite bool_decide_eq_false_2.
    + unfold active_device in *. by rewrite (pr_devices _ _ _ _ HR).
    + done.
    + intros input Hin. split; [by apply Hid|]. rewrite (pr_repositories _ _ _ _ HR). split; [by apply Hown|].
      pose proof (pr_length _ _ _ _ HR (mi_repositoryId input)). specialize (Hroom _ Hin). lia.
  - done.
  - intros a1 s1 s2 HR HD k m Hm Em. eapply HD; [|exact Em]. eapply lookup_weaken; [exact Hm|apply HR].
  - intros a1 s1 Ha [HT1 Hu1] HR. apply listed_repository in Ha as (Hr & _); [|done].
    apply prune_repository_ends; [done|done|]. by rewrite (pr_repositories _ _ _ _ HR).
Qed.

Lemma tidy_reconcile userId deviceId desired s :
  tidy s → announceable s userId desired → ends (reconcileDeviceMaterializations userId deviceId desired) s (λ _, tidy).
Proof.
  intros HT Hab. destruct (active_device s userId deviceId) as [d|] eqn:Hd.
  - pose proof (check_desired_ends userId [] desired s) as [Es Hc]. destruct (check_desired userId [] desired s) as [r s'] eqn:Ec. cbn in Es, Hc.
    subst s'. destruct r as [[]|e].
    + destruct (proj1 Hc eq_refl) as (Hnd & _ & Hown). eapply ends_mono; [|by apply (reconcile_ends userId deviceId desired s d)].
      by intros r s' (ms & _ & ? & _).
    + unfold reconcileDeviceMaterializations. do 4 goes; [|congruence]. goes. by eapply ends_run; [exact Ec|].
  - unfold reconcileDeviceMaterializations. do 4 goes; [congruence|done].
Qed.

(** ** Histories *)

(** What the invariant asks of the callers: see [upsert_ok]. *)
Definition op_ok (s : accounts) (o : account_op) : Prop :=
  match o with
  | O_upsert _ _ input => upsert_ok s input
  | O_upsertRuntime _ _ input =>
      length (ids_of (ea_materializationIds s) (mi_repositoryId input)) < MAX_MATERIALIZATIONS_PER_REPOSITORY
  | O_reconcile userId _ desired => announceable s userId desired
  | _ => True
  end.

Definition after_ops (ops : list account_op) (s : accounts) : accounts := fold_left (λ s o, after_op o s) ops s.

Fixpoint ops_ok (ops : list account_op) (s : accounts) : Prop :=
  match ops with
  | [] => True
  | o :: ops => op_ok s o ∧ ops_ok ops (after_op o s)
  end.

Lemma tidy_op o s : tidy s → op_ok s o → tidy (after_op o s).
Proof.
  intros HT Hok. destruct o; cbn in *.
  - by apply tidy_create.
  - by apply tidy_migrate.
  - by apply tidy_createRepository.
  - by apply tidy_deleteRepository.
  - by apply tidy_registerDevice.
  - by apply tidy_touchDevice.
  - by apply tidy_revokeDevice.
  - by apply tidy_upsert.
  - by apply tidy_upsertRuntime.
  - by apply tidy_reconcile.
  - by apply tidy_deleteMaterialization.
  - case_bool_decide; [done|by apply tidy_at].
Qed.

Lemma tidy_ops ops s : tidy s → ops_ok ops s → tidy (after_ops ops s).
Proof. revert s. induction ops as [|o ops IH]; intros s HT Hok; [done|]. destruct Hok as [Ho Hok]. cbn. apply IH; [by apply tidy_op|done]. Qed.

(** ** Devices over time *)

(** A device is stored under its own identifier, and new identifiers are free.  This much
    every operation keeps, on any input. *)
Record devices_named (s : accounts) : Prop := {
  dn_id k d : ea_devices s !! k = Some d → de_id d = k;
  dn_fresh n : ea_draws s ≤ n → ea_devices s !! named "dev" n = None;
}.

(** Devices stay, a revocation is kept, a new device is not revoked. *)
Record aging (s s' : accounts) : Prop := {
  ag_named : devices_named s';
  ag_now : ea_now s' = ea_now s;
  ag_device k d : ea_devices s !! k = Some d → ∃ d', ea_devices s' !! k = Some d' ∧
    (de_revokedAt d' = de_revokedAt d ∨ de_revokedAt d = None ∧ de_revokedAt d' = Some (ea_now s));
  ag_new k d' : ea_devices s' !! k = Some d' → ea_devices s !! k = None → de_revokedAt d' = None;
}.

(** Programs that leave the devices and the clock alone. *)
Definition spared (s s' : accounts) : Prop :=
  ea_devices s' = ea_devices s ∧ ea_now s' = ea_now s ∧ ea_draws s ≤ ea_draws s'.
Definition spares {A} (m : io accounts account_error A) : Prop := ∀ s, spared s (m s).2.

#[local] Instance spared_preorder : PreOrder spared.
Proof.
  split; [by intros s|]. intros s1 s2 s3 (E1 & E2 & H1) (E3 & E4 & H2). unfold spared. split_and!; [congruence..|lia].
Qed.

Lemma spares_bind {A B} (m : io accounts account_error A) (k : A → io accounts account_error B) :
  spares m → (∀ a, spares (k a)) → spares (m ≫= k).
Proof.
  intros Hm Hk s. specialize (Hm s). unfold mbind, io_bind. destruct (m s) as [[a|e] s']; [|done]. etransitivity; [exact Hm|apply Hk].
Qed.

Lemma spares_ret {A} (a : A) : spares (mret a).
Proof. by intros s. Qed.

Lemma spares_gets {A} (f : accounts → A) : spares (gets f).
Proof. by intros s. Qed.

Lemma spares_require b e : spares (require b e).
Proof. intros s. by destruct b. Qed.

Lemma spares_some {A} (o : option A) e : spares (require_some o e).
Proof. intros s. by destruct o. Qed.

Lemma spares_modify f : (∀ s, spared s (f s)) → spares (modify f).
Proof. intros Hf s. apply Hf. Qed.

Lemma spares_each {A} (f : A → io accounts account_error unit) l : (∀ x, spares (f x)) → spares (for_each f l).
Proof. intros Hf. induction l as [|x l IH]; [apply spares_ret|]. cbn. by apply spares_bind. Qed.

Lemma spares_collect {A B} (f : A → io accounts account_error B) l : (∀ x, spares (f x)) → spares (for_collect f l).
Proof.
  intros Hf. induction l as [|x l IH]; [apply spares_ret|]. cbn. apply spares_bind; [done|]. intros y. apply spares_bind; [done|].
  intros ys. apply spares_ret.
Qed.

Create HintDb spares.
#[local] Hint Resolve spares_ret spares_gets spares_require spares_some : spares.
#[local] Hint Extern 1 (spares (modify _)) => apply spares_modify; intros ?; unfold spared; cbn; split_and!; (done || lia) : spares.
#[local] Hint Extern 2 (spares (_ ≫= _)) => apply spares_bind; [|intros ?] : spares.
#[local] Hint Extern 2 (spares (for_each _ _)) => apply spares_each; intros ? : spares.
#[local] Hint Extern 2 (spares (for_collect _ _)) => apply spares_collect; intros ? : spares.
#[local] Hint Extern 3 (spares (match ?x with _ => _ end)) => destruct x : spares.

Lemma spares_named prefix : spares (prefixedId prefix).
Proof. unfold prefixedId. auto with spares. Qed.
#[local] Hint Resolve spares_named : spares.

Lemma spares_create displayName id createdAt : spares (createSingleUserIdentity displayName id createdAt).
Proof. unfold createSingleUserIdentity. auto 30 with spares. Qed.

Lemma spares_createRepository userId name urls : spares (createRepository userId name urls).
Proof. unfold createRepository, getUser. auto 30 with spares. Qed.

Lemma spares_access userId rid : spares (getRepositoryForUser userId rid).
Proof. unfold getRepositoryForUser. auto with spares. Qed.
#[local] Hint Resolve spares_access : spares.

Lemma spares_deleteRepository userId rid : spares (deleteOwnedRepositoryIfUnmaterialized userId rid).
Proof. unfold deleteOwnedRepositoryIfUnmaterialized. auto 30 with spares. Qed.

Lemma spares_store rid ids m : spares (store_materialization rid ids m).
Proof. unfold store_materialization. auto 30 with spares. Qed.
#[local] Hint Resolve spares_store : spares.

Lemma spares_upsert userId deviceId input : spares (upsertMaterialization userId deviceId input).
Proof. unfold upsertMaterialization. auto 40 with spares. Qed.

Lemma spares_upsertRuntime userId runtimeId input : spares (upsertRuntimeMaterialization userId runtimeId input).
Proof. unfold upsertRuntimeMaterialization. auto 40 with spares. Qed.

Lemma spares_deleteMaterialization userId rid mid : spares (deleteMaterialization userId rid mid).
Proof. unfold deleteMaterialization. auto 40 with spares. Qed.
#[local] Hint Resolve spares_upsert spares_deleteMaterialization : spares.

Lemma spares_check userId seen_keys desired : spares (check_desired userId seen_keys desired).
Proof. revert seen_keys. induction desired as [|input desired IH]; intros seen_keys; cbn; auto 20 with spares. Qed.
#[local] Hint Resolve spares_check : spares.

Lemma spares_reconcile userId deviceId desired : spares (reconcileDeviceMaterializations userId deviceId desired).
Proof. unfold reconcileDeviceMaterializations, listRepositories, listMaterializations. auto 40 with spares. Qed.

Lemma aging_same s s' : devices_named s → spared s s' → aging s s'.
Proof.
  intros [H1 H2] (E1 & E2 & Hd). split; rewrite ?E1; [|done| |congruence].
  - split; rewrite E1; [done|]. intros n Hn. apply H2. lia.
  - intros k d Hk. exists d. auto.
Qed.

Lemma spares_aging {A} (m : io accounts account_error A) s : devices_named s → spares m → aging s (m s).2.
Proof. intros Hn Hm. by apply aging_same. Qed.

Lemma named_insert s s' k d d' :
  devices_named s → ea_devices s !! k = Some d → ea_devices s' = <[k := d']> (ea_devices s) → de_id d' = k →
  ea_draws s ≤ ea_draws s' → devices_named s'.
Proof.
  intros [H1 H2] Hd Ed Ei Hle. split; rewrite Ed.
  - intros k' d0. rewrite lookup_insert_Some. intros [[<- <-]|[_ ?]]; [done|by apply H1].
  - intros n Hn. assert (ea_devices s !! named "dev" n = None) as Hnone by (apply H2; lia).
    rewrite lookup_insert_ne by congruence. done.
Qed.

Lemma aging_insert s s' k d d' :
  devices_named s → ea_devices s !! k = Some d → ea_now s' = ea_now s → ea_draws s' = ea_draws s →
  ea_devices s' = <[k := d']> (ea_devices s) → de_id d' = k →
  de_revokedAt d' = de_revokedAt d ∨ de_revokedAt d = None ∧ de_revokedAt d' = Some (ea_now s) → aging s s'.
Proof.
  intros Hn Hd En Er Ed Ei Hor. split; [eapply (named_insert s); try done; lia|done| |]; rewrite Ed.
  - intros k' d0 Hd0. destruct (decide (k = k')) as [<-|]; [|rewrite lookup_insert_ne by done; eauto].
    rewrite Hd in Hd0. injection Hd0 as <-. exists d'. by rewrite lookup_insert_eq.
  - intros k' d0. rewrite lookup_insert_Some. intros [[<- _]|[_ ?]]; congruence.
Qed.

Lemma aging_registerDevice userId deviceId displayName p s :
  devices_named s → ends (registerDevice userId deviceId displayName p) s (λ _, aging s).
Proof.
  intros HT. assert (aging s s) as Hs by by apply aging_same. unfold registerDevice, getUser. do 4 goes; [|done]. do 2 goes; [|done].
  destruct (truthy deviceId).
  - do 4 goes; [|done]. apply active_found in H2 as (Hd & _). do 5 goes.
    pose proof (dn_id _ HT _ _ Hd) as Ei. rewrite Ei. eapply (aging_insert s _ _ _ _ HT Hd); [done..|by left].
  - do 4 goes; [|done]. unfold prefixedId. do 11 goes. pose proof (dn_fresh _ HT (ea_draws s) ltac:(done)) as Hn.
    split; [split| |..]; cbn; fold (named "dev" (ea_draws s)).
    + intros k d. rewrite lookup_insert_Some. intros [[<- <-]|[_ ?]]; [done|by apply (dn_id _ HT)].
    + intros n Hlt. rewrite lookup_insert_ne; [apply (dn_fresh _ HT); lia|]. intros ?%named_inj. lia.
    + done.
    + intros k d Hd. exists d. rewrite lookup_insert_ne by congruence. auto.
    + intros k d. rewrite lookup_insert_Some. intros [[_ <-]|[_ ?]] ?; [done|congruence].
Qed.

Lemma aging_touchDevice userId deviceId s : devices_named s → ends (touchDevice userId deviceId) s (λ _, aging s).
Proof.
  intros HT. unfold touchDevice. do 2 goes. destruct (active_device s userId deviceId) as [d|] eqn:Ed; [|by apply aging_same].
  apply active_found in Ed as (Hd & _). do 5 goes.
  eapply (aging_insert s _ _ _ _ HT Hd); [done|done|done|exact (dn_id _ HT _ _ Hd)|by left].
Qed.

Lemma aging_revokeDevice userId deviceId s : devices_named s → ends (revokeDevice userId deviceId) s (λ _, aging s).
Proof.
  intros HT. unfold revokeDevice. do 4 goes. destruct (ea_devices s !! deviceId) as [d|] eqn:Hd; [|by apply aging_same].
  case_bool_decide; [|by apply aging_same]. do 3 goes.
  eapply (aging_insert s _ _ _ _ HT Hd); [done|done|done|exact (dn_id _ HT _ _ Hd)|]. cbn.
  destruct (de_revokedAt d) as [x|]; [by left|by right].
Qed.

(** *** The migration rewrites devices and keeps their revocations *)

Record rewritten (s s' : accounts) : Prop := {
  rw_named : devices_named s';
  rw_now : ea_now s' = ea_now s;
  rw_revoked k : de_revokedAt <$> ea_devices s' !! k = de_revokedAt <$> ea_devices s !! k;
}.

Lemma rewritten_spared s s1 s2 : rewritten s s1 → spared s1 s2 → rewritten s s2.
Proof.
  intros [[H1 H2] En Hr] (E1 & E2 & Hd). split; rewrite ?E1, ?E2; try done.
  split; rewrite E1; [done|]. intros n Hn. apply H2. lia.
Qed.

Lemma rewritten_aging s s' : rewritten s s' → aging s s'.
Proof.
  intros [Hn En Hr]. split; [done|done| |].
  - intros k d Hd. specialize (Hr k). rewrite Hd in Hr. apply fmap_Some in Hr as (d' & Hd' & E). exists d'. auto.
  - intros k d' Hd' E. specialize (Hr k). by rewrite Hd', E in Hr.
Qed.

(** A step that leaves the devices alone. *)
Lemma ends_spares {A B} (m : io accounts account_error A) (k : A → io accounts account_error B) s0 s :
  spares m → rewritten s0 s →
  (∀ a s1, m s = (Ok a, s1) → spared s s1 → rewritten s0 s1 → ends (k a) s1 (λ _, rewritten s0)) →
  ends (m ≫= k) s (λ _, rewritten s0).
Proof.
  intros Hm Hs Hk. goes. pose proof (Hm s) as Hsp. unfold ends. destruct (m s) as [[a|e] s1] eqn:E; cbn in *.
  - apply Hk; [done..|]. by eapply rewritten_spared.
  - by eapply rewritten_spared.
Qed.

Lemma spares_ends {A} (m : io accounts account_error A) s0 s : spares m → rewritten s0 s → ends m s (λ _, rewritten s0).
Proof. intros Hm Hs. unfold ends. by eapply rewritten_spared. Qed.

Lemma loaded_device from ids s ds s' :
  for_collect (load_device from) ids s = (Ok ds, s') → ∀ d, d ∈ ds → ∃ k, ea_devices s !! k = Some d.
Proof.
  revert ds s'. induction ids as [|id ids IH]; intros ds s' Hr; cbn in Hr; [injection Hr as <- _; set_solver|].
  apply bind_Ok in Hr as (d & s1 & Hd & Hr). apply bind_Ok in Hr as (ds' & s2 & Hds & Hr).
  unfold load_device in Hd. run_inv. intros x [->|Hx]%elem_of_cons; eauto.
Qed.

Lemma rewrite_devices to s0 ds s :
  rewritten s0 s → (∀ d, d ∈ ds → de_revokedAt <$> ea_devices s0 !! de_id d = Some (de_revokedAt d)) →
  ends (for_each (λ d, modify (E := account_error) (on_devices (<[de_id d := moved_device to d]>))) ds) s (λ _, rewritten s0).
Proof.
  intros Hs Hds. apply ends_each; [done|]. intros d s1 Hd [Hn En Hr]. goes. pose proof (Hds d Hd) as Hk.
  pose proof (Hr (de_id d)) as E. rewrite Hk in E. apply fmap_Some in E as (d1 & Hd1 & E).
  split; [eapply (named_insert s1 _ (de_id d)); done|done|]. cbn. intros k. destruct (decide (de_id d = k)) as [<-|].
  - by rewrite lookup_insert_eq, Hk.
  - by rewrite lookup_insert_ne.
Qed.

Ltac sparing := repeat (apply ends_spares; [solve [auto 30 with spares]|done|intros ? ? ? _ ?]).

Lemma rewritten_writes from source user rids dids repositories materializations ds s0 s :
  rewritten s0 s → (∀ d, d ∈ ds → de_revokedAt <$> ea_devices s0 !! de_id d = Some (de_revokedAt d)) →
  ends (migrate_writes from source user rids dids repositories materializations ds) s (λ _, rewritten s0).
Proof.
  intros Hs Hds. unfold migrate_writes. sparing. apply ends_bind.
  eapply ends_mono; [|by apply rewrite_devices]. intros [[]|e] moved Hmoved; [|done]. sparing. apply spares_ends; [auto with spares|done].
Qed.

Lemma rewritten_migrate transactional from to displayName createdAt s :
  devices_named s → ends (migrateSingleUserIdentity transactional from to displayName createdAt) s (λ _, rewritten s).
Proof.
  intros HT. assert (rewritten s s) as H0 by by split.
  cut (ends (migrateSingleUserIdentityDirect from to displayName createdAt) s (λ _, rewritten s)).
  { unfold ends, migrateSingleUserIdentity. destruct (migrateSingleUserIdentityDirect _ _ _ _ s) as [[r|e] s']; [done|]. by destruct transactional. }
  unfold migrateSingleUserIdentityDirect, getUser. sparing. destruct (bool_decide (_ = [to])).
  { apply spares_ends; [|done]. unfold already_migrated, getUser, identityBindingCounts. auto 30 with spares. }
  do 9 (apply ends_spares; [solve [auto 30 with spares]|done|intros ? ? ? _ ?]).
  apply ends_spares; [unfold load_repository; auto 30 with spares|done|intros loaded sl _ _ Hl].
  apply ends_spares; [auto with spares|done|intros dids sd _ _ Hsd].
  apply ends_spares; [unfold load_device; auto 30 with spares|done|intros ds se Hds _ Hse].
  apply ends_bind. eapply ends_mono; [|apply rewritten_writes; [exact Hse|]].
  - by intros [[]|e] sf Hsf.
  - intros d Hd. destruct (loaded_device _ _ _ _ _ Hds d Hd) as (k & Hk). destruct Hsd as [Hn _ Hr].
    rewrite (dn_id _ Hn _ _ Hk), <- (Hr k), Hk. done.
Qed.

Lemma aging_op o s : devices_named s → (∀ t, o ≠ O_time t) → aging s (after_op o s).
Proof.
  intros HT Ht. destruct o; cbn.
  - apply spares_aging, spares_create. done.
  - by apply rewritten_aging, rewritten_migrate.
  - apply spares_aging, spares_createRepository. done.
  - apply spares_aging, spares_deleteRepository. done.
  - by apply aging_registerDevice.
  - by apply aging_touchDevice.
  - by apply aging_revokeDevice.
  - apply spares_aging, spares_upsert. done.
  - apply spares_aging, spares_upsertRuntime. done.
  - apply spares_aging, spares_reconcile. done.
  - apply spares_aging, spares_deleteMaterialization. done.
  - by destruct (Ht now).
Qed.

Lemma time_or_not o : (∃ t, o = O_time t) ∨ ∀ t, o ≠ O_time t.
Proof. destruct o; eauto. Qed.

(** Time stamps are not empty. *)
Record dated (s : accounts) : Prop := {
  da_now : ea_now s ≠ "";
  da_revoked k d : ea_devices s !! k = Some d → de_revokedAt d ≠ Some "";
}.

Lemma named_op o s : devices_named s → devices_named (after_op o s).
Proof.
  intros HT. destruct (time_or_not o) as [(t & ->)|Hno]; [|by apply (ag_named _ _ (aging_op o s HT Hno))].
  cbn. by case_bool_decide; destruct HT.
Qed.

Lemma dated_op o s : devices_named s → dated s → dated (after_op o s).
Proof.
  intros HT [H1 H2]. destruct (time_or_not o) as [(t & ->)|Hno].
  - cbn. case_bool_decide; [done|]. by split.
  - destruct (aging_op o s HT Hno) as [_ En Hd Hnew]. split; [by rewrite En|]. intros k d' Hd'.
    destruct (ea_devices s !! k) as [d|] eqn:E.
    + destruct (Hd _ _ E) as (d1 & Hd1 & Hor). rewrite Hd' in Hd1. injection Hd1 as <-. pose proof (H2 _ _ E).
      destruct Hor as [->|[_ ->]]; [done|congruence].
    + rewrite (Hnew _ _ Hd' E). done.
Qed.

Definition retired (s : accounts) (deviceId : string) : Prop := ∃ d, ea_devices s !! deviceId = Some d ∧ truthy (de_revokedAt d) = true.

Lemma retired_op o s k : devices_named s → retired s k → retired (after_op o s) k.
Proof.
  intros HT (d & Hd & Ht). destruct (time_or_not o) as [(t & ->)|Hno].
  - cbn. case_bool_decide; by exists d.
  - destruct (aging_op o s HT Hno) as [_ _ Hdev _]. destruct (Hdev _ _ Hd) as (d' & Hd' & Hor). exists d'. split; [done|].
    destruct Hor as [->|[E _]]; [done|]. by rewrite E in Ht.
Qed.

Lemma retired_ops ops s k : devices_named s → retired s k → retired (after_ops ops s) k.
Proof. revert s. induction ops as [|o ops IH]; intros s HT Hr; [done|]. cbn. apply IH; [by apply named_op|by apply retired_op]. Qed.

Lemma dated_ops ops s : devices_named s → dated s → devices_named (after_ops ops s) ∧ dated (after_ops ops s).
Proof. revert s. induction ops as [|o ops IH]; intros s HT Hr; [done|]. cbn. apply IH; [by apply named_op|by apply dated_op]. Qed.

Lemma dated_empty t : t ≠ "" → dated (empty_accounts t).
Proof. intros Ht. split; [done|]. intros k d. cbn. by rewrite lookup_empty. Qed.

Lemma named_empty t : devices_named (empty_accounts t).
Proof. split; cbn; intros *; by rewrite lookup_empty. Qed.

End tidy.
