(* ===== verification/EdgeAccountTheorems.v ===== *)
(** * EdgeAccountTheorems: properties of the account store

    The store stays consistent over every history; the migration of the single user moves
    every record and is idempotent; the reconciliation of a device makes its materializations
    exactly the announced ones; a revoked device stays revoked.  The store is the identity
    store of the authorization server, whose owner follows a migration.  The last part shows
    the upserts that break the invariant. *)

From S2P Require Import Prelude Text Async OwnerOAuth EdgeAccounts EdgeAccountProps.
From Stdlib Require Import Ascii.

Section theorems.
Context {H : AccountHost} {L : AccountHostLaws}.




(** C26: A revoked device stays revoked. Over any history of account operations on any inputs,
    after a successful revocation nothing makes the device active again, a migration of the
    user included: it is not active for any user, and no materialization is accepted from it. *)
Theorem revoked_device_stays_revoked t ops1 ops2 userId deviceId d s1 u :
  t ≠ "" → revokeDevice userId deviceId (after_ops ops1 (empty_accounts t)) = (Ok (Some d), s1) →
  active_device (after_ops ops2 s1) u deviceId = None ∧
  (∀ desired, (reconcileDeviceMaterializations u deviceId desired (after_ops ops2 s1)).1 = Err DEVICE_UNAUTHORIZED) ∧
  (∀ input, ∃ e, (upsertMaterialization u deviceId input (after_ops ops2 s1)).1 = Err e).
Proof.
  intros Ht Hr. set (s := after_ops ops1 (empty_accounts t)) in *.
  destruct (dated_ops ops1 (empty_accounts t)) as [HT [Hnow Hrev]]; [apply named_empty|by apply dated_empty|]. fold s in HT, Hnow, Hrev.
  assert (retired s1 deviceId) as Hret.
  { unfold revokeDevice, mbind, io_bind, gets in Hr. cbn in Hr. destruct (ea_devices s !! deviceId) as [d0|] eqn:Hd; [|done].
    case_bool_decide; [|done]. cbn in Hr. injection Hr as <- <-. exists (revoked (ea_now s) d0). cbn. split; [by rewrite lookup_insert_eq|].
    specialize (Hrev _ _ Hd). destruct (de_revokedAt d0) as [x|]; cbn; apply negb_true_iff, bool_decide_eq_false_2; congruence. }
  assert (devices_named s1) as HT1.
  { pose proof (named_op (O_revokeDevice userId deviceId) s HT) as Hp. cbn in Hp. by rewrite Hr in Hp. }
  assert (active_device (after_ops ops2 s1) u deviceId = None) as Hnone.
  { destruct (retired_ops ops2 s1 deviceId HT1 Hret) as (d2 & Hd2 & Htr). unfold active_device. rewrite Hd2. cbn.
    by rewrite Htr, andb_false_r. }
  split_and!; [done| |].
  - intros desired. unfold reconcileDeviceMaterializations, mbind, io_bind, gets. cbn. by rewrite Hnone.
  - intros input. unfold upsertMaterialization, getRepositoryForUser. rewrite run_gets.
    destruct (ea_repositories (after_ops ops2 s1) !! mi_repositoryId input ≫= _) as [a|]; [|by eexists].
    rewrite (run_some _ _ _ _ _ eq_refl), run_gets, Hnone. by eexists.
Qed.

End theorems.

(** ** The identity store of the authorization server *)

Definition identity (u : AccountUser) : OwnerIdentity := {| id_id := us_id u; id_displayName := us_displayName u |}.

Section identities.
Context {H : AccountHost}.

(** [getUser] and [listUsers] with their awaits. *)
Definition read_user (userId : string) : task (oauth accounts) (option OwnerIdentity) :=
  aget (λ s, identity <$> user_of (oa_accounts s) userId).

Definition read_users : task (oauth accounts) (list OwnerIdentity) :=
  ids ← aget (λ s, ea_userIds (oa_accounts s));
  users ← acollect read_user ids;
  mret (omap (M := list) (λ u : option OwnerIdentity, u) users).

#[global] Instance account_identities : OwnerIdentityStore (oauth accounts) := {|
  OwnerOAuth.getUser := read_user;
  OwnerOAuth.listUsers := read_users;
|}.

#[global] Instance account_identities_laws : OwnerIdentityStoreLaws (oauth accounts).
Proof.
  split; [done|]. apply read_only_bind; [done|]. intros ids. apply read_only_bind; [|done]. by apply read_only_collect.
Qed.

Lemma only_user_single s u v :
  ea_userIds (oa_accounts s) = [u] → ea_users (oa_accounts s) !! u = Some v →
  run only_user s = (Some (identity (toAccountUser v)), set_owner (Some (us_id (toAccountUser v))) s).
Proof.
  intros Hu Hv. unfold only_user. rewrite run_bind. cbn [OwnerOAuth.listUsers account_identities]. unfold read_users. rewrite run_bind. cbn [run aget fst snd].
  rewrite Hu. cbn. unfold user_of. by rewrite Hv.
Qed.

(** The owner is the single user. In a server whose account store is consistent and has the
    user [u], the owner resolves to [u] and is pinned to it, whatever was pinned before: no one,
    [u], or a user who was migrated away. *)
Theorem owner_is_the_single_user s u v :
  tidy (oa_accounts s) → u ≠ "" → ea_userIds (oa_accounts s) = [u] → ea_users (oa_accounts s) !! u = Some v →
  ∃ s', run resolveOwnerUser s = (Some (identity (toAccountUser v)), s') ∧ id_id (identity (toAccountUser v)) = u ∧
    oa_owner s' = Some u ∧ oa_accounts s' = oa_accounts s.
Proof.
  intros HT Hne Hu Hv. assert (us_id (toAccountUser v) = u) as Eid by (by apply (ti_users _ HT) in Hv as [? _]).
  assert (∀ s1, oa_accounts s1 = oa_accounts s → ∃ s', run only_user s1 = (Some (identity (toAccountUser v)), s') ∧
    oa_owner s' = Some u ∧ oa_accounts s' = oa_accounts s) as Honly.
  { intros s1 Ea. eexists. split; [by apply (only_user_single s1 u v); rewrite Ea|]. cbn. by rewrite Eid. }
  enough (∃ s', run resolveOwnerUser s = (Some (identity (toAccountUser v)), s') ∧ oa_owner s' = Some u ∧ oa_accounts s' = oa_accounts s)
    as (s' & ? & ? & ?) by (by exists s').
  unfold resolveOwnerUser. rewrite run_bind. cbn [run aget fst snd]. destruct (oa_owner s) as [id|] eqn:Eo; [|by apply Honly].
  case_bool_decide; [by apply Honly|]. rewrite run_bind. cbn [OwnerOAuth.getUser account_identities]. unfold read_user. cbn [run aget fst snd].
  unfold user_of. destruct (ea_users (oa_accounts s) !! id) as [w|] eqn:Ew.
  - cbn. exists s. destruct (ti_users _ HT _ _ Ew) as [_ E]. rewrite Hu in E. injection E as <-. rewrite Hv in Ew. injection Ew as <-. done.
  - cbn [fmap option_fmap option_map]. rewrite run_bind. cbn [run aput fst snd]. by apply Honly.
Qed.

End identities.

(** ** Witnesses *)

Definition demo_account_host : AccountHost :=
  {| randomUUID := λ n, pretty n; nfkc_lower := λ s, s; locale_le := λ _ _, true; date_parses := λ _, true |}.
#[local] Existing Instance demo_account_host.

Lemma demo_account_laws : AccountHostLaws.
Proof. split. intros i j Hij. by apply (inj pretty) in Hij. Qed.
#[local] Existing Instance demo_account_laws.

Definition first_user : string := "usr_00000000-0000-4000-8000-000000000001".
Definition second_user : string := "usr_00000000-0000-4000-8000-000000000002".
Definition demo_time : string := "2026-01-01T00:00:00Z".

Definition place (id : option string) (repositoryId workspaceId : string) : MaterializationUpsertInput :=
  {| mi_id := id; mi_repositoryId := repositoryId; mi_workspaceId := workspaceId; mi_path := "/w"; mi_platform := linux |}.

(** A user with two repositories and a device that holds one of them. *)
Definition demo_ops : list account_op :=
  [O_create "Owner" (Some first_user) None; O_createRepository first_user "a" []; O_createRepository first_user "b" [];
   O_registerDevice first_user None "pc" linux; O_upsert first_user "dev_2" (place None "repo_0" "w")].

Definition demo_accounts_state : accounts := Eval vm_compute in after_ops demo_ops (empty_accounts demo_time).

Lemma demo_ops_ok : ops_ok demo_ops (empty_accounts demo_time).
Proof. cbn [demo_ops ops_ok op_ok]. split_and!; try done. split; [done|]. vm_compute. lia. Qed.

Lemma demo_accounts_eq : demo_accounts_state = after_ops demo_ops (empty_accounts demo_time).
Proof. vm_compute. reflexivity. Qed.

Lemma demo_accounts_tidy : tidy demo_accounts_state.
Proof. rewrite demo_accounts_eq. apply tidy_ops; [apply tidy_empty|exact demo_ops_ok]. Qed.




Definition revoked_state : accounts := Eval vm_compute in after_op (O_revokeDevice first_user "dev_2") demo_accounts_state.

Lemma revoked_device_stays_revoked_witness :
  active_device (after_ops [O_migrate true first_user second_user "Owner" demo_time; O_touchDevice second_user "dev_2"] revoked_state)
    second_user "dev_2" = None.
Proof.
  assert (∃ d, revokeDevice first_user "dev_2" (after_ops demo_ops (empty_accounts demo_time)) = (Ok (Some d), revoked_state)) as (d & Hd)
    by (eexists; vm_compute; reflexivity).
  eapply (revoked_device_stays_revoked demo_time demo_ops _ first_user "dev_2" d revoked_state second_user); [discriminate|exact Hd].
Defined.

(** A server whose pinned owner was migrated away. *)
Definition migrated_accounts : accounts := Eval vm_compute in
  after_op (O_migrate true first_user second_user "Owner" demo_time) demo_accounts_state.

Lemma owner_is_the_single_user_witness :
  ∃ s' u, run resolveOwnerUser (set_owner (Some first_user) (new_oauth migrated_accounts 0)) = (Some u, s') ∧ oa_owner s' = Some second_user.
Proof.
  assert (tidy migrated_accounts) as HT.
  { assert (migrated_accounts = after_op (O_migrate true first_user second_user "Owner" demo_time) demo_accounts_state) as -> by (vm_compute; reflexivity).
    by apply tidy_op; [exact demo_accounts_tidy|]. }
  assert (∃ v, ea_users migrated_accounts !! second_user = Some v) as (v & Hv) by (eexists; vm_compute; reflexivity).
  destruct (owner_is_the_single_user (set_owner (Some first_user) (new_oauth migrated_accounts 0)) second_user v HT) as (s' & E & _ & Ho & _);
    [discriminate|vm_compute; reflexivity|exact Hv|]. by exists s', (identity (toAccountUser v)).
Defined.

(** ** Upserts that break the invariant *)

(** [upsertMaterialization] takes any identifier (account-store.ts:475): the materialization of
    one repository is rewritten for another while the first repository still lists it; then the
    first repository can neither be deleted nor lose the entry, and the user cannot be migrated. *)
Definition rebound : accounts := Eval vm_compute in
  after_op (O_upsert first_user "dev_2" (place (Some "mat_3") "repo_1" "w")) demo_accounts_state.

Lemma rebinding_strands_materialization :
  rebound = after_op (O_upsert first_user "dev_2" (place (Some "mat_3") "repo_1" "w")) demo_accounts_state ∧
  map ma_repositoryId (materializations_of rebound "repo_0") = ["repo_1"] ∧
  (deleteOwnedRepositoryIfUnmaterialized first_user "repo_0" rebound).1 = Ok false ∧
  (deleteMaterialization first_user "repo_0" "mat_3" rebound).1 = Ok false ∧
  (migrateSingleUserIdentity true first_user second_user "Owner" demo_time rebound).1 = Err MATERIALIZATION_INCOMPATIBLE.
Proof. split_and!; vm_compute; reflexivity. Qed.

(** A new materialization of a full repository is refused after it was written
    (account-store.ts:490): each such call leaves one more record that no list has. *)
Lemma full_repository_leaks `{AccountHost, !AccountHostLaws} s userId deviceId d input :
  tidy s → active_device s userId deviceId = Some d → owns s userId (mi_repositoryId input) → truthy (mi_id input) = false →
  MAX_MATERIALIZATIONS_PER_REPOSITORY ≤ length (ids_of (ea_materializationIds s) (mi_repositoryId input)) →
  findMaterialization (ids_of (ea_materializationIds s) (mi_repositoryId input)) deviceId (mi_workspaceId input) s = None →
  ends (upsertMaterialization userId deviceId input) s (λ r s', r = Err MATERIALIZATION_LIMIT ∧
    ea_materializations s !! named "mat" (ea_draws s) = None ∧ is_Some (ea_materializations s' !! named "mat" (ea_draws s)) ∧
    ∀ g, named "mat" (ea_draws s) ∉ ids_of (ea_materializationIds s') g).
Proof.
  intros HT Hd (r & Hr & Eo) Hid Hfull Hf. destruct (ti_fresh _ HT (ea_draws s)) as (_ & _ & Hn); [done|].
  assert (∀ g, named "mat" (ea_draws s) ∉ ids_of (ea_materializationIds s) g) as Hnot.
  { intros g Hin. destruct (ix_rec _ _ _ _ _ (ti_materializations _ HT) _ _ Hin) as (m & Hm & _). congruence. }
  unfold ends, upsertMaterialization, getRepositoryForUser.
  rewrite run_gets, Hr. cbn [mbind option_bind]. unfold roleFor. rewrite bool_decide_eq_true_2 by done. cbn [mbind option_bind].
  rewrite (run_some _ _ _ _ _ eq_refl), run_gets, Hd, (run_some _ _ _ _ _ eq_refl), !run_gets, Hid. cbn [or_else]. rewrite Hf.
  unfold prefixedId, store_materialization, mbind, io_bind, mret, io_ret, modify, gets. cbn. fold (named "mat" (ea_draws s)).
  rewrite bool_decide_eq_false_2 by apply Hnot. unfold require. rewrite (proj2 (Nat.ltb_ge _ _) Hfull). cbn.
  split_and!; [done|done|by rewrite lookup_insert_eq; eexists|done].
Qed.
